(* ===== verification/_CoqProject ===== *)
-Q . S2P
Prelude.v
RustStr.v
Errors.v
RustPath.v
Clock.v
Stream.v
Bounded.v
Values.v
IpAddr.v
Ports.v
Atomic.v
Lock.v
State.v
OciRef.v
BTree.v
InitProto.v
Readiness.v
Dhcp.v
Net.v
Users.v
Metrics.v
Snapshot.v
Utf8.v
Chars.v
HttpHead.v
VmmApi.v
VmmApiSpec.v
Process.v
Owner.v
OwnerSpec.v
Supervisor.v
SupervisorSpec.v
Control.v
ControlSpec.v
StopSpec.v
Sanitizer.v
Dispatch.v
Spec.v
Edit.v
Paths.v
SpecToml.v
Catalog.v
Network.v
Virtiofs.v
Validation.v
Rest.v
Auth.v
Console.v
ConsoleSpec.v
Tree.v
DataDirs.v
Helpers.v
Store.v
StoreSpec.v
StoreActions.v
StoreActionsSpec.v
Overlay.v
Tar.v
Merge.v
MergeWrite.v
MergeSpec.v
Registry.v
RegistrySpec.v
