(* ===== verification/Prelude.v ===== *)
(** * Firestone: a verification development

    Firestone runs virtual machines on one host.  A command line or HTTP action reaches the
    machine store, which takes the machine's lock, reads and writes its state file, prepares
    disks (from a catalog image or from the layers of an OCI image), starts a shim process that
    supervises the VMM, and waits for the guest to become ready.  Inside an OCI guest a small
    PID 1 ([firestone-init]) reads a configuration disk, gets a DHCP lease, resolves the user
    and executes the workload.  The sources are the crates under [src/crates/]; every
    definition below keeps the name its Rust item has.

    ** Files

    Foundations, used by every component:
    - [Prelude]: the [result] type with its monad, the state-and-error monad [M], the
      [reject .. when ..] guards, folds that stop at an error, list and option lemmas;
    - [RustStr]: the standard library's string operations the sources use ([split], [trim],
      [parse] of integers, decimal printing, byte order), with print/parse lemmas;
    - [RustPath]: [Path::join], [parent], [file_name] on strings of bytes;
    - [Clock]: time read through a schedule, so a loop's delays are arbitrary; loops that end at a
      deadline, and a weakest-precondition calculus for them;
    - [BTree]: a [BTreeMap] as a finite map with its ordered iteration and range.

    Host side ([firestone-core/src]):
    - [Errors] (error.rs, event.rs, dispatcher.rs): [FirestoneError], events and sinks;
    - [Values] (spec/value.rs), [IpAddr] and [Ports] (spec/port_forward.rs, action.rs): the
      scalar values of a machine spec with their parsers and printers;
    - [Bounded] (bounded.rs), [Atomic] (atomic.rs): bounded reads, and crash-safe writes over a
      filesystem with volatile and durable contents and directory entries and injected faults;
    - [Lock] (lock.rs): [MachineLock::acquire] as a polling loop over a schedule;
    - [State] (state.rs): the state file, its validation, and reconciliation with what runs;
    - [Readiness] (readiness.rs): [wait_with_backend] over the source's backend trait;
    - [Metrics] (metrics.rs), [Snapshot] (snapshot.rs): counters, names, sparse copies;
    - [OciRef] (oci/mod.rs): image references;
    - [Overlay], [Tar], [Merge], [MergeWrite], [MergeSpec] (oci/layers.rs): merging OCI layers.
      [Overlay] is the pure part of the first pass (path hardening, whiteouts, hard links, where
      the injected members go); [Tar] the restartable cursor over a layer's tar stream;
      [Merge] the two passes as the code runs them; [MergeWrite] shows the second pass writes
      what random access would; [MergeSpec] states what the merged tar is.
    - [Utf8] (the standard library's [from_utf8], [escape_debug], [trim]): bytes of text, and how
      the sources quote them in messages;
    - [HttpHead], [VmmApi], [VmmApiSpec] (vmm_api.rs): the VMM's HTTP client.  [HttpHead] is the
      request and response head as bytes; [VmmApi] the connection with its deadline, the read and
      write loops, and every endpoint's call; [VmmApiSpec] states in a Hoare style what a request
      promises for each behaviour of the socket and of the clock;
    - [Stream]: a nonblocking Unix socket, read and written a part at a time, used by the above;
    - [Process] (cmd.rs, shim.rs): the children a shim owns.  Signalling, observing and reaping a
      child that leads its own group; /proc; the walk over the processes below the shim; the
      drain of those it adopted.  The kernel is the class [Kernel]: its answers, one per instant;
      a [Recorder] keeps what was done to processes, in order;
    - [Owner], [OwnerSpec] (shim.rs, [OwnedVmm] and [OwnedSidecar]): termination, reaping and drop
      guards over the shim's state [Supervisor]; the invariant that ties the owners to the
      recorded effects, and rules for each operation;
    - [Supervisor], [SupervisorSpec] (shim.rs): timeouts, the records written when the VMM ends,
      sidecars, the stop request with its graceful and forced forms (over [VmmApi]), the final
      cleanup; and what they guarantee;
    - [Control], [ControlSpec], [StopSpec] (shim.rs, the control protocol): frames over the Unix
      socket, [ShimClient] with its calls, [ProtocolSink], the supervisor's side of a connection.
      [ControlSpec] relates what the shim writes to what the client is told; [StopSpec] composes
      the client's [stop] with the supervisor's [handle_stop];
    - [Spec] (spec.rs): the machine specification's records, layers ([MachineSpecPatch]) with their
      clears, [from_layers], [to_persisted_patch]; [Edit]: the edit distances of spec.rs and
      catalog.rs; [SpecToml] (spec.rs): known keys, suggestions, layers and the global
      configuration as TOML;
    - [Paths] (paths.rs): the directories the environment selects, the path of every file,
      [resolve_input_path];
    - [Tree] (std::fs as the store uses it): a tree of nodes with owners and modes, the calls on it
      under injected failures, every tree a run passes through kept, [Atomic]'s writes on it, and
      the rules [safe] to reason about a run ("it passes only through trees that ..., and ends in
      ...");
    - [DataDirs] (paths.rs, the checks on disk): who may own an ancestor, creation of data
      directories and files, the runtime directories; a model of what other users may do to the
      tree between two calls;
    - [Helpers] (embedded_helpers.rs): publishing a program a release carries in the data directory's
      [bin], under a lock, replacing what an older release left; what it may change;
    - [Catalog] (catalog.rs): catalog documents, their layering, selectors and lookup;
    - [Registry], [RegistrySpec] (oci/registry.rs): the registry client over a transport that answers
      as it likes: credentials and their base64, challenges, tokens, manifests, platform selection,
      layers streamed to a writer that may fail; what a pull can rely on;
    - [Network] (network.rs), [Virtiofs] (virtiofs.rs): which forwards, taps and mounts are
      accepted; [Validation] (spec/validation.rs): path resolution and the whole validation of a
      specification, over [ValidationHost], composed from the five files above.

    Front end ([firestone/src]):
    - [Chars]: a string as its sequence of characters; [Sanitizer] (render.rs): the terminal
      sanitiser, and a grammar of what it admits;
    - [Dispatch] (api.rs): the bounded channel between a dispatcher and an HTTP response, over
      the pace at which a client drains it; [Rest] (api.rs): routes, bodies, queries, headers,
      statuses and response bodies;
    - [Auth] (ui/auth.rs): session tokens, the loopback gate, the file that keeps the token;
    - [Store], [StoreSpec] (store.rs): machines as directories: creation behind a marker, its
      recovery, reconciliation of a state under the machine's lock, listing, removal through a
      tombstone; [StoreSpec] says what holds of every tree such a run passes through.
      [StoreActions], [StoreActionsSpec]: list, show, and the three ways to write a specification;
    - [Console], [ConsoleSpec] (console.rs): the client's relay between a terminal and the console
      socket, the shim's broker between that socket and the guest, a turn of the poll loop at a
      time; and what they deliver.

    Guest side:
    - [InitProto] (firestone-initproto, firestone-init/src/config.rs and resize.rs,
      firestone-core/src/initconfig.rs): the framed configuration document, built by the host
      and read by the guest;
    - [Dhcp], [Net] (dhcp.rs, net.rs): packets, and the lease exchange within its budget;
    - [Users] (users.rs): passwd and group lookup.

    ** How state and effects are modelled

    A value-level function of the source is a function.  A fallible one returns [result] with the
    source's error value, message and hint included.  A function on [&mut self] is a
    [M state error]; traits the source itself declares ([EventSink], [ReadinessBackend],
    [VmmPingProbe], [LayerSource]) are records or parameters.  Calls to the kernel, the clock and third-party crates are
    parameters: theorems hold for each of their answers, short reads, failures and delays
    included.  Machine integers are [Z] with the wrapping, saturating or checked operation the
    source uses written out.  A loop that is not structural takes fuel; each has a theorem that
    the fuel its caller passes is enough, and running out of it is a separate value that no
    theorem confuses with a result.

    Where SPEC.md and the code differ the definitions follow the code: the merged tar keeps device
    members, extension records and the targets of symbolic links; uncompressed layers are refused; a
    specification may mount anything that exists; the gate takes the token from the query of a
    request that is neither GET nor HEAD, and treats HEAD as GET.

    ** What the theorems show

    - Durability: a crash at any point of an atomic write leaves the old or the new file
      ([Atomic.atomic_write_crash_safe]); the state store reads back what it wrote
      ([State.reread] says what the file's text does not keep).
    - Liveness: the lock, the readiness wait and the DHCP exchange end within their time, and how.
    - Image integrity: the streaming plan is the overlay union of the layers
      ([MergeSpec.build_plan_is_overlay]), the merged tar is its members in path order
      ([MergeSpec.merged_tar_exact]), no member's path leaves the root, no hard link dangles,
      merging ends; headers, extension records and the targets of symbolic links are copied as they are.
    - Supervision: reconciliation reports what was observed and rewrites only stale records; a
      process passes for a machine's shim only with that machine's argument vector.
    - Protocols: the frames, packets, documents and records one side writes are what the other
      side reads, and what a decoder accepts is exactly characterised.
    - Parsers of user input: printed values parse back, accepted values are within bounds, and
      the grammars of references and names are the documented ones.
    - VMM API: a request's bytes are written in order and once, its response is read in full
      whatever the fragmentation, a call ends within its deadline, and only a definite refusal
      makes reconciliation report a running machine as gone.
    - Stopping: whatever fails and however operations are ordered, no group is signalled after
      its leader was reaped, every operation ends, a stop that succeeds leaves no process and
      records the status the VMM ended with; and a client told that its stop succeeded can rely
      on all of that, whatever the sockets and clocks did ([StopSpec.stop_end_to_end]).
    - Specifications: layers combine field by field, persisting is lossless, validation accepts
      exactly what its rules describe, and what it accepted no longer depends on the place it
      was read from.
    - Machines on disk: a directory that passes the checks cannot be redirected by another user;
      a machine is listed only when all of it is there, wherever creating it stopped; removing it
      is one rename; a specification is written whole or not at all, and never shrinks a disk.
    - Names and places: catalog names are unambiguous, the files of two machines never meet
      unless one is named as the directory the other is renamed to for its removal, an accepted set of
      forwards is a function onto its guest ports and accepted mounts do not overlap.
    - Front end: the sanitiser is its grammar, a dispatched run ends in exactly one verdict, the
      log a client sees is the sanitised output of the run; the gate of the browser UI lets a
      request through exactly when it proves the token and its origin.
    - Pulling: whatever a registry answers, credentials stay on HTTPS, a call sends a bounded number
      of requests, a layer that is reported fetched was written whole and hashes to its digest, and
      what a reference resolves to hashes to what named it (with one exception [RegistrySpec.resolved] states).
    - Console: what the user typed reaches the guest in order and once, up to the detach key; what
      the guest printed reaches its client and the log in order and once, for as long as the broker
      runs.

    ** Bounds and fuel

    [Tar]: one turn per byte of the stream, since every turn consumes a block.  [record_length]:
    three turns, since the length settles.  The MAX_INJECTION_LINK_HOPS, MAX_CONFIG_JSON_BYTES and
    similar caps are the source's.  [Lock], [Readiness] and [Net] take the number of turns
    their deadline and poll interval allow.
    [Clock.turns] takes 2^n turns from n units of fuel, and [Clock.until_deadline] bounds a loop that
    watches the clock by the nanoseconds to its deadline, since each reading of the clock advances
    it.  The walk over processes takes at most 2^33 turns: a turn either puts a pid not found
    before on its list or takes one off.

    ** Not modelled, and the plan

    Not modelled because it is only calls to the kernel or to libraries: pty.rs, the ioctls
    of net.rs and resize.rs, clap's argument parsing, axum's routing, HTML rendering,
    serde's derived encoders, the tar crate's header layout and flate2's decoder.
    Of modelled files these parts are left out: starting sidecars and their sandboxes (network.rs,
    virtiofs.rs), the WebSocket and UI routes, and of store.rs clone, snapshots, start, stop, resize,
    prune and logs.

    Planned: cloud-init seeds, the VMM's argument vectors,
    image garbage collection, the shim's launch and its recovery of processes after a crash, the
    rest of the machine store's handlers. *)
From stdpp Require Export base tactics option list strings gmap pretty sorting.
From Stdlib Require Export ZArith Lia.

Abbreviation ascii := Stdlib.Strings.Ascii.ascii.
Export (notations) Stdlib.Strings.Ascii.

(** ** Fallible code *)

(** Rust's [Result<A, E>]. *)
Inductive result (E A : Type) : Type :=
  | Ok (a : A)
  | Err (e : E).
Arguments Ok {E A} a.
Arguments Err {E A} e.

#[export] Instance result_ret E : MRet (result E) := λ A a, Ok a.
#[export] Instance result_bind E : MBind (result E) := λ A B k m,
  match m with Ok a => k a | Err e => Err e end.
#[export] Instance result_fmap E : FMap (result E) := λ A B f m,
  match m with Ok a => Ok (f a) | Err e => Err e end.
#[export] Instance result_eq_dec {E A} `{EqDecision E, EqDecision A} :
  EqDecision (result E A).
Proof. solve_decision. Defined.

Definition is_ok {E A} (m : result E A) : bool :=
  match m with Ok _ => true | Err _ => false end.

(** [Option::ok_or] and [Result::map_err], [Result::ok]. *)
Definition ok_or {E A} (o : option A) (e : E) : result E A :=
  match o with Some a => Ok a | None => Err e end.
Definition map_err {E F A} (f : E → F) (m : result E A) : result F A :=
  match m with Ok a => Ok a | Err e => Err (f e) end.
Definition res_ok {E A} (m : result E A) : option A :=
  match m with Ok a => Some a | Err _ => None end.

(** Early return: [if b { return Err(e) } k]. *)
Definition reject_if {E A} (b : bool) (e : E) (k : result E A) : result E A :=
  if b then Err e else k.

Declare Scope rust_scope.
Delimit Scope rust_scope with rust.
Notation "'reject' e 'when' b ; k" := (reject_if b e k)
  (at level 20, e at level 200, b at level 200, k at level 200) : rust_scope.
#[global] Open Scope rust_scope.

Section result_lemmas.
Context {E : Type}.
Implicit Types e : E.

Lemma bind_Ok {A B} (m : result E A) (k : A → result E B) b :
  m ≫= k = Ok b ↔ ∃ a, m = Ok a ∧ k a = Ok b.
Proof. destruct m; simpl; naive_solver. Qed.

Lemma bind_Err {A B} (m : result E A) (k : A → result E B) e :
  m ≫= k = Err e ↔ m = Err e ∨ ∃ a, m = Ok a ∧ k a = Err e.
Proof. destruct m; simpl; naive_solver. Qed.

Lemma ok_or_Ok {A} (o : option A) e a : ok_or o e = Ok a ↔ o = Some a.
Proof. destruct o; simpl; naive_solver. Qed.

Lemma map_err_Ok {F A} (f : E → F) (m : result E A) a :
  map_err f m = Ok a ↔ m = Ok a.
Proof. destruct m; simpl; naive_solver. Qed.

Lemma reject_if_Ok {A} b e (k : result E A) a :
  reject_if b e k = Ok a ↔ b = false ∧ k = Ok a.
Proof. destruct b; simpl; naive_solver. Qed.

Lemma reject_if_false {A} b e (k : result E A) :
  b = false → reject_if b e k = k.
Proof. by intros ->. Qed.

Lemma is_ok_spec {A} (m : result E A) : is_ok m = true ↔ ∃ a, m = Ok a.
Proof. destruct m; naive_solver. Qed.
End result_lemmas.

(** A [for] loop whose body may leave with [?]. *)
Fixpoint fold_result {E S A} (f : S → A → result E S) (s : S) (l : list A) : result E S :=
  match l with
  | [] => Ok s
  | a :: l => s ← f s a; fold_result f s l
  end.

Section fold_result.
Context {E S A : Type} (f : S → A → result E S).

Lemma fold_result_app s l l' : fold_result f s (l ++ l') = s ← fold_result f s l; fold_result f s l'.
Proof.
  revert s; induction l as [|a l IH]; intros s; [done|]. simpl. destruct (f s a); simpl; [apply IH|done].
Qed.

(** The loop invariant rule: [Inv] holds of the elements done so far and the state. *)
Lemma fold_result_inv (Inv : list A → S → Prop) l s s' :
  Inv [] s →
  (∀ done_ a rest s s', l = done_ ++ a :: rest → Inv done_ s → f s a = Ok s' → Inv (done_ ++ [a]) s') →
  fold_result f s l = Ok s' → Inv l s'.
Proof.
  intros H0 Hstep. 
  assert (Hgen : ∀ rest done_ s, l = done_ ++ rest → Inv done_ s → fold_result f s rest = Ok s' → Inv l s').
  { induction rest as [|a rest IH]; intros done_ s0 Hl HI; simpl.
    - rewrite app_nil_r in Hl. subst. by intros [= ->].
    - rewrite bind_Ok. intros (s1 & Hf & Hr). apply (IH (done_ ++ [a]) s1); [|by eapply Hstep|done].
      by rewrite <- app_assoc. }
  by apply (Hgen l []).
Qed.
End fold_result.

(** Checks that yield nothing: in sequence, in a loop, and as an early return. *)
Lemma unit_seq_Ok {E} (m : result E ()) {A} (k : result E A) a : (m;; k) = Ok a ↔ m = Ok () ∧ k = Ok a.
Proof. destruct m as [[]|e]; cbn; naive_solver. Qed.
Lemma fold_units_Ok {E A} (f : () → A → result E ()) (P : A → Prop) l :
  (∀ x, f () x = Ok () ↔ P x) → fold_result f () l = Ok () ↔ Forall P l.
Proof.
  intros Hf. induction l as [|x l IH]; cbn [fold_result]; [by rewrite Forall_nil|].
  rewrite Forall_cons, <- IH, <- Hf. destruct (f () x) as [[]|e]; cbn; naive_solver.
Qed.
Lemma if_err_Ok {E A} (b : bool) (e : E) (k : result E A) a : (if b then Err e else k) = Ok a ↔ b = false ∧ k = Ok a.
Proof. destruct b; naive_solver. Qed.

(** Decomposes an equation [_ = Ok _] between a chain of binds and guards. *)
Ltac inv_ok :=
  repeat match goal with
  | H : (_ ≫= _) = Ok _ |- _ =>
      let a := fresh "r" in let H1 := fresh H in let H2 := fresh H in
      apply bind_Ok in H as (a & H1 & H2)
  | H : reject_if _ _ _ = Ok _ |- _ =>
      let H1 := fresh H in let H2 := fresh H in
      apply reject_if_Ok in H as [H1 H2]
  | H : ok_or _ _ = Ok _ |- _ => apply ok_or_Ok in H
  | H : map_err _ _ = Ok _ |- _ => apply map_err_Ok in H
  | H : Ok _ = Ok _ |- _ => injection H as H; subst
  | H : Err _ = Ok _ |- _ => discriminate H
  end.

(** Splits a conjunction of boolean tests in a hypothesis or in the goal. *)
Ltac bool_props :=
  repeat match goal with
  | H : _ && _ = true |- _ => apply andb_true_iff in H as [??]
  | H : _ || _ = false |- _ => apply orb_false_iff in H as [??]
  | H : negb _ = true |- _ => apply negb_true_iff in H
  | H : negb _ = false |- _ => apply negb_false_iff in H
  | H : (_ =? _)%Z = true |- _ => apply Z.eqb_eq in H
  | H : (_ =? _)%Z = false |- _ => apply Z.eqb_neq in H
  | H : (_ <? _)%Z = true |- _ => apply Z.ltb_lt in H
  | H : (_ <? _)%Z = false |- _ => apply Z.ltb_ge in H
  | H : (_ <=? _)%Z = true |- _ => apply Z.leb_le in H
  | H : (_ <=? _)%Z = false |- _ => apply Z.leb_gt in H
  | H : bool_decide _ = true |- _ => apply bool_decide_eq_true in H
  | H : bool_decide _ = false |- _ => apply bool_decide_eq_false in H
  | |- _ && _ = true => apply andb_true_iff; split
  | |- _ || _ = false => apply orb_false_iff; split
  | |- negb _ = true => apply negb_true_iff
  | |- negb _ = false => apply negb_false_iff
  end.

(** ** State and error together: code that threads a mutable sink *)

Definition M (S E A : Type) : Type := S → result E A * S.

#[export] Instance M_ret S E : MRet (M S E) := λ A a s, (Ok a, s).
#[export] Instance M_bind S E : MBind (M S E) := λ A B k m s,
  match m s with
  | (Ok a, s') => k a s'
  | (Err e, s') => (Err e, s')
  end.
Definition M_fail {S E A} (e : E) : M S E A := λ s, (Err e, s).
Definition M_lift {S E A} (r : result E A) : M S E A := λ s, (r, s).
Definition M_map_err {S E F A} (f : E → F) (m : M S E A) : M S F A := λ s,
  let '(r, s) := m s in (map_err f r, s).
Definition M_get {S E} : M S E S := λ s, (Ok s, s).
Definition M_put {S E} (s : S) : M S E () := λ _, (Ok (), s).

(** ** Machine integers: a w-bit unsigned value is a [Z] in range *)

Definition u8_max : Z := 255.
Definition u16_max : Z := 65535.
Definition u32_max : Z := 4294967295.
Definition u64_max : Z := 18446744073709551615.

Definition is_u (max z : Z) : bool := (0 <=? z)%Z && (z <=? max)%Z.
Abbreviation is_u8 := (is_u u8_max).
Abbreviation is_u16 := (is_u u16_max).
Abbreviation is_u32 := (is_u u32_max).
Abbreviation is_u64 := (is_u u64_max).

(** [T::try_from], [checked_mul], [checked_add], [saturating_add],
    [saturating_sub], [saturating_mul] on an unsigned type with maximum [max]. *)
Definition try_from_u (max z : Z) : option Z := if is_u max z then Some z else None.
Definition checked_mul (max a b : Z) : option Z := try_from_u max (a * b)%Z.
Definition checked_add (max a b : Z) : option Z := try_from_u max (a + b)%Z.
Definition saturating_add (max a b : Z) : Z := Z.min max (a + b).
Definition saturating_mul (max a b : Z) : Z := Z.min max (a * b).
Definition saturating_sub (a b : Z) : Z := Z.max 0 (a - b).
(** [as] casts and wrapping arithmetic at width [w]. *)
Definition wrap (w z : Z) : Z := (z mod 2 ^ w)%Z.

Lemma is_u_spec max z : is_u max z = true ↔ (0 ≤ z ≤ max)%Z.
Proof. unfold is_u. rewrite andb_true_iff, !Z.leb_le. lia. Qed.

Lemma try_from_u_Some max z r :
  try_from_u max z = Some r ↔ r = z ∧ (0 ≤ z ≤ max)%Z.
Proof.
  unfold try_from_u. destruct (is_u max z) eqn:Hu.
  - apply is_u_spec in Hu. naive_solver.
  - assert (¬ (0 ≤ z ≤ max)%Z) by (rewrite <- is_u_spec; congruence). naive_solver.
Qed.

Lemma try_from_u_in max z : (0 ≤ z ≤ max)%Z → try_from_u max z = Some z.
Proof. intros. by apply try_from_u_Some. Qed.

(** ** Bytes and their big- and little-endian words *)


Definition bytes_ok (l : list Z) : Prop := Forall (λ b, 0 ≤ b ≤ 255)%Z l.
#[export] Instance bytes_ok_dec l : Decision (bytes_ok l).
Proof. unfold bytes_ok. apply _. Defined.

Fixpoint to_le_bytes (n : nat) (z : Z) : list Z :=
  match n with
  | O => []
  | S n => (z mod 256)%Z :: to_le_bytes n (z / 256)
  end.
Fixpoint from_le_bytes (l : list Z) : Z :=
  match l with
  | [] => 0%Z
  | b :: l => (b + 256 * from_le_bytes l)%Z
  end.
Definition to_be_bytes (n : nat) (z : Z) : list Z := reverse (to_le_bytes n z).
Definition from_be_bytes (l : list Z) : Z := from_le_bytes (reverse l).

Lemma length_to_le_bytes n z : length (to_le_bytes n z) = n.
Proof. revert z; induction n; intros; simpl; auto. Qed.
Lemma length_to_be_bytes n z : length (to_be_bytes n z) = n.
Proof. unfold to_be_bytes. by rewrite length_reverse, length_to_le_bytes. Qed.

Lemma to_le_bytes_ok n z : bytes_ok (to_le_bytes n z).
Proof.
  revert z; induction n as [|n IH]; intros z; simpl; constructor; [|apply IH].
  pose proof (Z.mod_pos_bound z 256). lia.
Qed.
Lemma to_be_bytes_ok n z : bytes_ok (to_be_bytes n z).
Proof.
  unfold to_be_bytes, bytes_ok. rewrite Forall_reverse. apply to_le_bytes_ok.
Qed.

Lemma from_to_le_bytes n z :
  (0 ≤ z < 256 ^ Z.of_nat n)%Z → from_le_bytes (to_le_bytes n z) = z.
Proof.
  revert z; induction n as [|n IH]; intros z Hz.
  - simpl in *. lia.
  - cbn [to_le_bytes from_le_bytes]. rewrite IH.
    + pose proof (Z.div_mod z 256). lia.
    + rewrite Nat2Z.inj_succ, Z.pow_succ_r in Hz by lia. split.
      * apply Z.div_pos; lia.
      * apply Z.div_lt_upper_bound; lia.
Qed.
Lemma from_to_be_bytes n z :
  (0 ≤ z < 256 ^ Z.of_nat n)%Z → from_be_bytes (to_be_bytes n z) = z.
Proof.
  intros. unfold from_be_bytes, to_be_bytes. rewrite reverse_involutive.
  by apply from_to_le_bytes.
Qed.

Lemma from_le_bytes_bound l :
  bytes_ok l → (0 ≤ from_le_bytes l < 256 ^ Z.of_nat (length l))%Z.
Proof.
  induction 1 as [|b l Hb Hl IH]; [simpl; lia|].
  cbn [from_le_bytes length]. rewrite Nat2Z.inj_succ, Z.pow_succ_r by lia. lia.
Qed.
Lemma to_from_le_bytes l : bytes_ok l → to_le_bytes (length l) (from_le_bytes l) = l.
Proof.
  induction 1 as [|b l Hb Hl IH]; [done|]. cbn [from_le_bytes length to_le_bytes].
  replace ((b + 256 * from_le_bytes l) mod 256)%Z with b.
  2:{ rewrite Z.add_comm, Z.mul_comm, Z.add_comm, Z.mod_add, Z.mod_small by lia. done. }
  replace ((b + 256 * from_le_bytes l) / 256)%Z with (from_le_bytes l); [by rewrite IH|].
  rewrite Z.mul_comm, Z.div_add, Z.div_small by lia. done.
Qed.
Lemma from_be_bytes_bound l :
  bytes_ok l → (0 ≤ from_be_bytes l < 256 ^ Z.of_nat (length l))%Z.
Proof.
  intros. unfold from_be_bytes. rewrite <- (length_reverse l).
  apply from_le_bytes_bound. by apply Forall_reverse.
Qed.

(** ** Slices *)

(** [bytes.get(a..b)]: [None] when [a > b] or [b > len]. *)
Definition slice {A} (a b : nat) (l : list A) : option (list A) :=
  if decide (a ≤ b ∧ b ≤ length l) then Some (take (b - a) (drop a l)) else None.

Lemma slice_Some {A} a b (l r : list A) :
  slice a b l = Some r ↔ (a ≤ b ∧ b ≤ length l) ∧ r = take (b - a) (drop a l).
Proof. unfold slice. case_decide; naive_solver. Qed.

Lemma slice_app {A} (p x s : list A) a b :
  a = length p → b = length p + length x → slice a b (p ++ x ++ s) = Some x.
Proof.
  intros -> ->. apply slice_Some. rewrite !length_app. split; [lia|].
  rewrite drop_app_length. replace (length p + length x - length p) with (length x) by lia.
  by rewrite take_app_length.
Qed.
