(* ===== verification/RustStr.v ===== *)
(** The part of Rust's [str] and integer formatting that the sources use.

    A Rust [&str] or byte string is a [string], its UTF-8 bytes in order.  All
    the separators the sources search for are ASCII, so searching bytes and
    searching [char]s agree; [str::trim] knows the UTF-8 encodings of every
    Unicode [White_Space] scalar.  The file also proves what the components
    need of these operations: what each split keeps, that joining inverts it,
    and that decimal rendering parses back. *)
From S2P Require Import Prelude.

#[global] Arguments String.eqb : simpl never.
#[global] Arguments Ascii.eqb : simpl never.

(** ** Bytes *)

Definition code (a : ascii) : Z := Z.of_N (Ascii.N_of_ascii a).
Definition byte_in (lo hi : Z) (a : ascii) : bool := (lo <=? code a)%Z && (code a <=? hi)%Z.
Definition is_ascii_digit : ascii → bool := byte_in 48 57.
Definition is_ascii_lowercase : ascii → bool := byte_in 97 122.
Definition is_ascii_uppercase : ascii → bool := byte_in 65 90.
Definition is_ascii_alphabetic (a : ascii) : bool :=
  is_ascii_lowercase a || is_ascii_uppercase a.
Definition is_ascii_alphanumeric (a : ascii) : bool :=
  is_ascii_alphabetic a || is_ascii_digit a.
(** A printable, non-space ASCII byte. *)
Definition is_ascii_graphic : ascii → bool := byte_in 33 126.
(** [u8::is_ascii_whitespace]: space, tab, line feed, form feed, carriage return. *)
Definition is_ascii_whitespace (a : ascii) : bool :=
  byte_in 32 32 a || byte_in 9 10 a || byte_in 12 13 a.

Definition to_ascii_lower (a : ascii) : ascii :=
  if is_ascii_uppercase a then Ascii.ascii_of_N (Z.to_N (code a + 32)) else a.

(** The line feed, carriage return and NUL bytes. *)
Definition LF : ascii := "010"%char.
Definition CR : ascii := "013"%char.
Definition NUL : ascii := "000"%char.
Definition one (a : ascii) : string := String a EmptyString.

Definition len (s : string) : Z := Z.of_nat (String.length s).
Definition is_empty (s : string) : bool := String.eqb s "".

Fixpoint all_bytes (f : ascii → bool) (s : string) : bool :=
  match s with
  | EmptyString => true
  | String a s => f a && all_bytes f s
  end.

(** [s.contains(c)] for an ASCII [c]. *)
Fixpoint has_char (c : ascii) (s : string) : bool :=
  match s with
  | EmptyString => false
  | String a s => Ascii.eqb a c || has_char c s
  end.

Fixpoint to_ascii_lowercase (s : string) : string :=
  match s with
  | EmptyString => EmptyString
  | String a s => String (to_ascii_lower a) (to_ascii_lowercase s)
  end.

(** The first and the last byte. *)
Definition first_byte (s : string) : option ascii :=
  match s with EmptyString => None | String a _ => Some a end.
Fixpoint last_byte (s : string) : option ascii :=
  match s with
  | EmptyString => None
  | String a EmptyString => Some a
  | String _ s => last_byte s
  end.
(** [s[..s.len() - 1]]. *)
Fixpoint but_last (s : string) : string :=
  match s with
  | EmptyString => EmptyString
  | String _ EmptyString => EmptyString
  | String a s => String a (but_last s)
  end.

(** ** Prefixes, suffixes, splitting *)

Fixpoint strip_prefix (p s : string) : option string :=
  match p, s with
  | EmptyString, _ => Some s
  | String a p, String b s => if Ascii.eqb a b then strip_prefix p s else None
  | String _ _, EmptyString => None
  end.
Definition starts_with (p s : string) : bool := bool_decide (is_Some (strip_prefix p s)).

Fixpoint strip_suffix (x s : string) : option string :=
  if String.eqb s x then Some EmptyString else
  match s with
  | EmptyString => None
  | String a s => String a <$> strip_suffix x s
  end.
Definition ends_with (x s : string) : bool := bool_decide (is_Some (strip_suffix x s)).

(** [haystack.contains(needle)] for a string needle. *)
Fixpoint contains_str (needle s : string) : bool :=
  starts_with needle s ||
  match s with EmptyString => false | String _ s => contains_str needle s end.

Fixpoint split_once (c : ascii) (s : string) : option (string * string) :=
  match s with
  | EmptyString => None
  | String a s =>
      if Ascii.eqb a c then Some (EmptyString, s)
      else p ← split_once c s; Some (String a p.1, p.2)
  end.

Fixpoint rsplit_once (c : ascii) (s : string) : option (string * string) :=
  match s with
  | EmptyString => None
  | String a s =>
      match rsplit_once c s with
      | Some p => Some (String a p.1, p.2)
      | None => if Ascii.eqb a c then Some (EmptyString, s) else None
      end
  end.

(** [s.split(c)], never empty. *)
Fixpoint split (c : ascii) (s : string) : list string :=
  match s with
  | EmptyString => [EmptyString]
  | String a s =>
      if Ascii.eqb a c then EmptyString :: split c s
      else match split c s with
           | x :: xs => String a x :: xs
           | [] => [one a]
           end
  end.

(** [parts.join(c)]. *)
Fixpoint join (c : ascii) (l : list string) : string :=
  match l with
  | [] => EmptyString
  | [x] => x
  | x :: l => x +:+ String c (join c l)
  end.

(** ** Lines and words *)

Definition strip_cr (s : string) : string :=
  match strip_suffix (one CR) s with Some s => s | None => s end.

Fixpoint lines_of (parts : list string) : list string :=
  match parts with
  | [] => []
  | [x] => if is_empty x then [] else [x]
  | x :: l => strip_cr x :: lines_of l
  end.
(** [str::lines]: a line ends at a line feed, which is dropped together with a
    carriage return before it; an unterminated last line is kept as it is. *)
Definition lines (s : string) : list string := lines_of (split LF s).

Fixpoint words_from (cur : string) (s : string) : list string :=
  match s with
  | EmptyString => if is_empty cur then [] else [cur]
  | String a s =>
      if is_ascii_whitespace a
      then (if is_empty cur then [] else [cur]) ++ words_from EmptyString s
      else words_from (cur +:+ one a) s
  end.
Definition split_ascii_whitespace (s : string) : list string := words_from EmptyString s.

(** ** Trimming *)

Definition utf8 (l : list Z) : string :=
  foldr (λ z s, String (Ascii.ascii_of_N (Z.to_N z)) s) EmptyString l.

(** The encodings of the Unicode [White_Space] scalars. *)
Definition whitespace : list string :=
  (utf8 <$> [[9]; [10]; [11]; [12]; [13]; [32]; [194; 133]; [194; 160];
             [225; 154; 128]; [226; 128; 168]; [226; 128; 169];
             [226; 128; 175]; [226; 129; 159]; [227; 128; 128]]%Z)
  ++ ((λ i, utf8 [226; 128; 128 + Z.of_nat i]%Z) <$> seq 0 11).

Fixpoint strip_any (ps : list string) (s : string) : option string :=
  match ps with
  | [] => None
  | p :: ps => match strip_prefix p s with Some r => Some r | None => strip_any ps s end
  end.

Fixpoint trim_start_fuel (n : nat) (s : string) : string :=
  match n with
  | O => s
  | S n => match strip_any whitespace s with
           | Some r => trim_start_fuel n r
           | None => s
           end
  end.
(** Every step drops at least one byte, so the length is enough fuel. *)
Definition trim_start (s : string) : string := trim_start_fuel (String.length s) s.
Fixpoint trim_end (s : string) : string :=
  if is_empty (trim_start s) then EmptyString else
  match s with
  | EmptyString => EmptyString
  | String a s => String a (trim_end s)
  end.
Definition trim (s : string) : string := trim_end (trim_start s).

(** [s.chars().any(char::is_control)]: C0, DEL, and the UTF-8 encodings of the C1
    controls U+0080 to U+009F. *)
Fixpoint has_control (s : string) : bool :=
  match s with
  | EmptyString => false
  | String a s =>
      byte_in 0 31 a || byte_in 127 127 a ||
      (byte_in 194 194 a && match s with
                            | String b _ => byte_in 128 159 b
                            | EmptyString => false
                            end) || has_control s
  end.

(** ** Integers *)

Definition digit_value (radix : Z) (a : ascii) : option Z :=
  let z := (if is_ascii_digit a then Some (code a - 48)
            else if is_ascii_lowercase a then Some (code a - 87)
            else if is_ascii_uppercase a then Some (code a - 55)
            else None)%Z in
  v ← z; if (v <? radix)%Z then Some v else None.

Fixpoint parse_digits (radix acc : Z) (s : string) : option Z :=
  match s with
  | EmptyString => Some acc
  | String a s => v ← digit_value radix a; parse_digits radix (acc * radix + v)%Z s
  end.

(** [T::from_str_radix] and [str::parse] on an unsigned type with maximum [max]:
    one leading plus sign is accepted, an empty digit string is not. *)
Definition from_str_radix (max radix : Z) (s : string) : option Z :=
  let body := match strip_prefix "+" s with Some r => r | None => s end in
  if is_empty body then None
  else v ← parse_digits radix 0 body; try_from_u max v.
Definition parse_u (max : Z) (s : string) : option Z := from_str_radix max 10 s.

(** [Display] of an integer. *)
Definition dec (z : Z) : string := pretty z.

Definition hex_digit (z : Z) : ascii :=
  Ascii.ascii_of_N (Z.to_N (if (z <? 10)%Z then 48 + z else 87 + z)%Z).
(** [{:02x}] of a byte. *)
Definition hex2 (z : Z) : string := String (hex_digit (z / 16)) (one (hex_digit (z mod 16))).

(** ** Lemmas: concatenation *)

Lemma app_cons a s t : String a s +:+ t = String a (s +:+ t).
Proof. done. Qed.
Lemma app_empty_l s : "" +:+ s = s.
Proof. done. Qed.
Lemma app_empty_r s : s +:+ "" = s.
Proof. induction s as [|a s IH]; [done|]. by rewrite app_cons, IH. Qed.
Lemma app_assoc_str s t u : (s +:+ t) +:+ u = s +:+ t +:+ u.
Proof. induction s as [|a s IH]; [done|]. by rewrite !app_cons, IH. Qed.
Lemma length_app_str s t :
  String.length (s +:+ t) = (String.length s + String.length t)%nat.
Proof. induction s as [|a s IH]; [done|]. rewrite app_cons. simpl. by rewrite IH. Qed.
Lemma len_app s t : len (s +:+ t) = (len s + len t)%Z.
Proof. unfold len. rewrite length_app_str. lia. Qed.
Lemma app_inj_r s t u : s +:+ u = t +:+ u → s = t.
Proof.
  intros H. assert (Hl : String.length s = String.length t).
  { apply (f_equal String.length) in H. rewrite !length_app_str in H. lia. }
  revert t Hl H. induction s as [|a s IH]; intros [|b t] ? H; try done.
  rewrite !app_cons in H. simplify_eq/=. f_equal. auto.
Qed.

Create HintDb str discriminated.
#[export] Hint Rewrite app_cons app_empty_l app_empty_r app_assoc_str : str.
Ltac str_norm := autorewrite with str in *.

(** ** Lemmas: byte predicates *)

Lemma is_empty_true s : is_empty s = true ↔ s = "".
Proof. apply String.eqb_eq. Qed.
Lemma is_empty_false s : is_empty s = false ↔ s ≠ "".
Proof. apply String.eqb_neq. Qed.

Lemma all_bytes_app f s t : all_bytes f (s +:+ t) = all_bytes f s && all_bytes f t.
Proof.
  induction s as [|a s IH]; [done|]. rewrite app_cons. simpl.
  by rewrite IH, andb_assoc.
Qed.
Lemma has_char_app c s t : has_char c (s +:+ t) = has_char c s || has_char c t.
Proof.
  induction s as [|a s IH]; [done|]. rewrite app_cons. simpl.
  by rewrite IH, orb_assoc.
Qed.
Lemma all_bytes_impl (f g : ascii → bool) s :
  (∀ a, f a = true → g a = true) → all_bytes f s = true → all_bytes g s = true.
Proof.
  intros Hfg. induction s as [|a s IH]; simpl; [done|]. intros. bool_props; auto.
Qed.
Lemma all_bytes_no_char (f : ascii → bool) c s :
  f c = false → all_bytes f s = true → has_char c s = false.
Proof.
  intros Hc. induction s as [|a s IH]; simpl; [done|]. intros. bool_props; auto.
  apply Ascii.eqb_neq. intros ->. congruence.
Qed.
Lemma has_char_cons c a s :
  has_char c (String a s) = false ↔ a ≠ c ∧ has_char c s = false.
Proof. simpl. rewrite orb_false_iff, Ascii.eqb_neq. done. Qed.

Lemma code_range a : (0 ≤ code a ≤ 255)%Z.
Proof. by destruct a as [[] [] [] [] [] [] [] []]. Qed.
Lemma code_inj a b : code a = code b → a = b.
Proof.
  unfold code. intros H%(inj Z.of_N).
  by rewrite <- (Ascii.ascii_N_embedding a), <- (Ascii.ascii_N_embedding b), H.
Qed.

(** Proves a decidable property of every byte by evaluating it on all 256. *)
Ltac by_bytes :=
  let a := fresh "a" in
  intros a; destruct a as [[] [] [] [] [] [] [] []]; vm_compute;
  try done; try (intros; repeat split; done).

Lemma digit_graphic a : is_ascii_digit a = true → is_ascii_graphic a = true.
Proof. revert a. by_bytes. Qed.
Lemma digit_alphanumeric a : is_ascii_digit a = true → is_ascii_alphanumeric a = true.
Proof. revert a. by_bytes. Qed.
Lemma digit_not_alphabetic a : is_ascii_digit a = true → is_ascii_alphabetic a = false.
Proof. revert a. by_bytes. Qed.
Lemma to_ascii_lower_idemp a : to_ascii_lower (to_ascii_lower a) = to_ascii_lower a.
Proof. revert a. by_bytes. Qed.

(** ** Lemmas: prefixes and suffixes *)

Lemma strip_prefix_Some p s r : strip_prefix p s = Some r ↔ s = p +:+ r.
Proof.
  revert s. induction p as [|a p IH]; intros s; simpl.
  - rewrite app_empty_l. naive_solver.
  - destruct s as [|b s]; [done|]. rewrite app_cons.
    destruct (Ascii.eqb_spec a b) as [->|?]; [|naive_solver].
    rewrite IH. naive_solver.
Qed.
Lemma starts_with_spec p s : starts_with p s = true ↔ ∃ r, s = p +:+ r.
Proof.
  unfold starts_with. rewrite bool_decide_eq_true. unfold is_Some.
  by setoid_rewrite strip_prefix_Some.
Qed.
Lemma strip_prefix_app p r : strip_prefix p (p +:+ r) = Some r.
Proof. by apply strip_prefix_Some. Qed.

Lemma strip_suffix_Some x s r : strip_suffix x s = Some r ↔ s = r +:+ x.
Proof.
  revert r. induction s as [|a s IH]; intros r; simpl.
  - destruct (String.eqb_spec "" x) as [<-|Hx].
    + rewrite app_empty_r. naive_solver.
    + split; [done|]. intros Hs. destruct r; [by rewrite app_empty_l in Hs|by rewrite app_cons in Hs].
  - destruct (String.eqb_spec (String a s) x) as [<-|Hx].
    + split; [intros [= <-]; by rewrite app_empty_l|]. intros Hs.
      apply (f_equal String.length) in Hs as Hl. rewrite length_app_str in Hl.
      simpl in Hl. destruct r; [done|simpl in Hl; lia].
    + rewrite fmap_Some. split.
      * intros (y & Hy%IH & ->). by rewrite Hy, app_cons.
      * destruct r as [|b r]; [by rewrite app_empty_l|]. rewrite app_cons.
        intros [= -> ->]. exists r. split; [by apply IH|done].
Qed.
Lemma strip_suffix_app s x : strip_suffix x (s +:+ x) = Some s.
Proof. by apply strip_suffix_Some. Qed.

(** ** Lemmas: splitting at a byte *)

Lemma split_once_Some c s x y :
  split_once c s = Some (x, y) ↔ s = x +:+ String c y ∧ has_char c x = false.
Proof.
  revert x y. induction s as [|a s IH]; intros x y; simpl.
  - split; [done|]. intros [H _]. by destruct x.
  - destruct (Ascii.eqb_spec a c) as [->|Hne].
    + split; [intros [= <- <-]; done|]. intros [H Hc]. destruct x as [|b x].
      * rewrite app_empty_l in H. by simplify_eq.
      * rewrite app_cons in H. simplify_eq. by apply has_char_cons in Hc as [??].
    + rewrite bind_Some. split.
      * intros ([x' y'] & H%IH & [= <- <-]). destruct H as [-> H].
        rewrite app_cons. split; [done|]. by apply has_char_cons.
      * intros [H Hc]. destruct x as [|b x]; [by rewrite app_empty_l in H; simplify_eq|].
        rewrite app_cons in H. simplify_eq. apply has_char_cons in Hc as [??].
        exists (x, y). split; [by apply IH|done].
Qed.
Lemma split_once_None c s : split_once c s = None ↔ has_char c s = false.
Proof.
  induction s as [|a s IH]; simpl; [done|].
  destruct (Ascii.eqb_spec a c) as [->|Hne]; [done|]. rewrite bind_None, orb_false_l.
  rewrite <- IH. naive_solver.
Qed.

Lemma rsplit_once_None c s : rsplit_once c s = None ↔ has_char c s = false.
Proof.
  induction s as [|a s IH]; simpl; [done|].
  destruct (rsplit_once c s) eqn:Hr.
  - destruct (has_char c s); [rewrite orb_true_r; done|naive_solver].
  - rewrite (proj1 IH eq_refl), orb_false_r. by destruct (Ascii.eqb a c).
Qed.
Lemma rsplit_once_Some c s x y :
  rsplit_once c s = Some (x, y) ↔ s = x +:+ String c y ∧ has_char c y = false.
Proof.
  revert x y. induction s as [|a s IH]; intros x y; simpl.
  - split; [done|]. intros [H _]. by destruct x.
  - destruct (rsplit_once c s) as [[x' y']|] eqn:Hr.
    + destruct (proj1 (IH x' y') eq_refl) as [-> Hy]. split.
      * intros [= <- <-]. by rewrite app_cons.
      * intros [H Hc]. destruct x as [|b x].
        -- rewrite app_empty_l in H. simplify_eq.
           rewrite has_char_app in Hc. simpl in Hc.
           by rewrite Ascii.eqb_refl, orb_true_r in Hc.
        -- rewrite app_cons in H. injection H as <- H. simpl.
           destruct (IH x y) as [_ Hxy]. by injection (Hxy (conj H Hc)) as -> ->.
    + apply rsplit_once_None in Hr. destruct (Ascii.eqb_spec a c) as [->|Hne].
      * split; [intros [= <- <-]; done|]. intros [H Hc]. destruct x as [|b x].
        -- rewrite app_empty_l in H. by simplify_eq.
        -- rewrite app_cons in H. simplify_eq. rewrite has_char_app in Hr.
           apply orb_false_iff in Hr as [_ Hr]. by apply has_char_cons in Hr as [??].
      * split; [done|]. intros [H Hc]. destruct x as [|b x].
        -- rewrite app_empty_l in H. by simplify_eq.
        -- rewrite app_cons in H. simplify_eq. rewrite has_char_app in Hr.
           apply orb_false_iff in Hr as [_ Hr]. by apply has_char_cons in Hr as [??].
Qed.

(** A separator-free tail is found again after the last separator, a
    separator-free head before the first one. *)
Lemma split_once_app c x y :
  has_char c x = false → split_once c (x +:+ String c y) = Some (x, y).
Proof. intros. by apply split_once_Some. Qed.
Lemma rsplit_once_app c x y :
  has_char c y = false → rsplit_once c (x +:+ String c y) = Some (x, y).
Proof. intros. by apply rsplit_once_Some. Qed.

Lemma split_ne c s : split c s ≠ [].
Proof. induction s as [|a s IH]; simpl; repeat case_match; done. Qed.
Lemma join_cons c x l : l ≠ [] → join c (x :: l) = x +:+ String c (join c l).
Proof. by destruct l. Qed.

Lemma join_split c s : join c (split c s) = s.
Proof.
  induction s as [|a s IH]; [done|]. simpl. destruct (Ascii.eqb_spec a c) as [->|Hne].
  - rewrite join_cons by apply split_ne. by rewrite app_empty_l, IH.
  - destruct (split c s) as [|x [|x' l]] eqn:Hs; [by apply split_ne in Hs|..];
      simpl in *; by rewrite <- IH, ?app_cons.
Qed.
Lemma split_no_char c s : Forall (λ x, has_char c x = false) (split c s).
Proof.
  induction s as [|a s IH]; simpl; [by constructor|].
  destruct (Ascii.eqb_spec a c) as [->|Hne]; [by constructor|].
  destruct (split c s) as [|x l]; [constructor; [|done]|].
  - by apply has_char_cons.
  - apply Forall_cons in IH as [??]. constructor; [|done]. by apply has_char_cons.
Qed.
Lemma split_no_sep c s : has_char c s = false → split c s = [s].
Proof.
  induction s as [|a s IH]; [done|]. intros [Hne Hs]%has_char_cons. simpl.
  rewrite (proj2 (Ascii.eqb_neq a c)) by done. by rewrite IH.
Qed.
Lemma split_app_sep c x y :
  has_char c x = false → split c (x +:+ String c y) = x :: split c y.
Proof.
  induction x as [|a x IH]; intros Hx.
  - rewrite app_empty_l. simpl. by rewrite Ascii.eqb_refl.
  - apply has_char_cons in Hx as [Hne Hx]. rewrite app_cons. simpl.
    rewrite (proj2 (Ascii.eqb_neq a c)) by done. by rewrite IH.
Qed.
Lemma split_app_last c s x :
  has_char c x = false → split c (s +:+ String c x) = split c s ++ [x].
Proof.
  intros Hx. induction s as [|a s IH].
  - rewrite app_empty_l. simpl. by rewrite Ascii.eqb_refl, split_no_sep.
  - rewrite app_cons. simpl. rewrite IH. destruct (Ascii.eqb a c); [done|].
    destruct (split c s) eqn:E; [by apply split_ne in E|done].
Qed.
Lemma split_app c s t : split c (s +:+ String c t) = split c s ++ split c t.
Proof.
  induction s as [|a s IH]; [rewrite app_empty_l; simpl; by rewrite Ascii.eqb_refl|].
  rewrite app_cons. simpl. rewrite IH. destruct (Ascii.eqb a c); [done|].
  destruct (split c s) as [|x l] eqn:Hs; [by apply split_ne in Hs|done].
Qed.
Lemma split_join c l :
  l ≠ [] → Forall (λ x, has_char c x = false) l → split c (join c l) = l.
Proof.
  induction l as [|x l IH]; [done|]. intros _ [Hx Hl]%Forall_cons.
  destruct (decide (l = [])) as [->|Hne]; [by apply split_no_sep|].
  rewrite join_cons, split_app_sep by done. by rewrite IH.
Qed.
Lemma split_once_split c s x y :
  split_once c s = Some (x, y) → split c s = x :: split c y.
Proof. intros [-> ?]%split_once_Some. by apply split_app_sep. Qed.
Lemma has_char_join c d l :
  c ≠ d → has_char d (join c l) = existsb (has_char d) l.
Proof.
  intros Hcd. induction l as [|x l IH]; [done|].
  destruct (decide (l = [])) as [->|Hne]; [simpl; by rewrite orb_false_r|].
  rewrite join_cons, has_char_app by done. simpl.
  by rewrite (proj2 (Ascii.eqb_neq c d)), IH by done.
Qed.

(** ** Lemmas: trimming *)

Lemma strip_any_graphic a s : is_ascii_graphic a = true → strip_any whitespace (String a s) = None.
Proof. revert a. by_bytes. Qed.
Lemma trim_start_graphic a s :
  is_ascii_graphic a = true → trim_start (String a s) = String a s.
Proof.
  intros. unfold trim_start. cbn [String.length trim_start_fuel].
  by rewrite strip_any_graphic.
Qed.

Lemma last_byte_app s t :
  last_byte (s +:+ t) = match last_byte t with Some a => Some a | None => last_byte s end.
Proof.
  induction s as [|a s IH]; [rewrite app_empty_l; by destruct (last_byte t)|].
  rewrite app_cons. simpl. rewrite IH. destruct s as [|b s].
  - rewrite app_empty_l. destruct t as [|c t]; [done|].
    destruct (last_byte (String c t)) eqn:Hl; [done|].
    exfalso. clear -Hl. revert c Hl. induction t; simpl; [done|eauto].
  - rewrite app_cons. done.
Qed.
Lemma last_byte_ne a s : last_byte (String a s) ≠ None.
Proof. revert a. induction s; simpl; [done|eauto]. Qed.

Lemma strip_any_Some ps s r : strip_any ps s = Some r → ∃ p, p ∈ ps ∧ s = p +:+ r.
Proof.
  induction ps as [|p ps IH]; simpl; [done|].
  destruct (strip_prefix p s) eqn:Hp; [intros [= ->]|].
  - exists p. split; [by left|by apply strip_prefix_Some].
  - intros (q & ? & ->)%IH. exists q. split; [by right|done].
Qed.

(** Whether a byte can end a non-space scalar of one byte. *)
Definition ends_graphic (s : string) : bool :=
  match last_byte s with Some a => is_ascii_graphic a | None => false end.

Lemma whitespace_ends : forallb (λ p, negb (ends_graphic p)) whitespace = true.
Proof. by vm_compute. Qed.

Lemma trim_start_fuel_ends n s : ends_graphic s = true → ends_graphic (trim_start_fuel n s) = true.
Proof.
  revert s. induction n as [|n IH]; intros s Hs; cbn [trim_start_fuel]; [done|].
  destruct (strip_any whitespace s) as [r|] eqn:Hr; [|done].
  apply IH. apply strip_any_Some in Hr as (p & Hp & ->).
  unfold ends_graphic in *. rewrite last_byte_app in Hs.
  destruct (last_byte r); [done|].
  pose proof whitespace_ends as Hw. rewrite forallb_forall in Hw.
  apply list_elem_of_In in Hp. apply Hw in Hp. unfold ends_graphic in Hp.
  by rewrite Hs in Hp.
Qed.
Lemma trim_end_graphic s : ends_graphic s = true → trim_end s = s.
Proof.
  induction s as [|a s IH]; [done|]. intros Hs. cbn [trim_end].
  destruct (is_empty (trim_start (String a s))) eqn:He.
  - apply is_empty_true in He. unfold trim_start in He.
    eapply trim_start_fuel_ends in Hs. by rewrite He in Hs.
  - f_equal. destruct s as [|b s]; [done|]. by apply IH.
Qed.

(** A string that begins and ends with a printable ASCII byte is its own trim. *)
Lemma trim_id a s :
  is_ascii_graphic a = true → ends_graphic (String a s) = true → trim (String a s) = String a s.
Proof. intros. unfold trim. by rewrite trim_start_graphic, trim_end_graphic. Qed.

Lemma all_graphic_ends a s :
  all_bytes is_ascii_graphic (String a s) = true → ends_graphic (String a s) = true.
Proof.
  revert a. induction s as [|b s IH]; intros a H; simpl in H; bool_props; [done|].
  change (ends_graphic (String b s) = true). apply IH. simpl. by bool_props.
Qed.
Lemma trim_all_graphic s : all_bytes is_ascii_graphic s = true → trim s = s.
Proof.
  destruct s as [|a s]; [done|]. intros H. apply trim_id; [|by apply all_graphic_ends].
  simpl in H. by bool_props.
Qed.

Lemma but_last_app s a : but_last (s +:+ one a) = s.
Proof.
  induction s as [|b s IH]; [done|]. rewrite app_cons. simpl. rewrite IH.
  destruct s; [done|]. by rewrite app_cons.
Qed.

(** ** Lemmas: decimal and hexadecimal numbers *)

Lemma digit_value_pretty n : (n < 10)%N → digit_value 10 (pretty_N_char n) = Some (Z.of_N n).
Proof.
  intros. assert (n = 0 ∨ n = 1 ∨ n = 2 ∨ n = 3 ∨ n = 4 ∨ n = 5 ∨ n = 6 ∨ n = 7 ∨ n = 8 ∨ n = 9)%N
    as Hn by lia.
  by repeat destruct Hn as [->|Hn]; subst.
Qed.
Lemma digit_pretty n : is_ascii_digit (pretty_N_char n) = true.
Proof. unfold pretty_N_char. by repeat case_match. Qed.

Lemma parse_digits_pretty_N_go n s :
  parse_digits 10 0 (pretty_N_go n s) = parse_digits 10 (Z.of_N n) s.
Proof.
  revert s. induction (N.lt_wf_0 n) as [n _ IH]; intros s.
  destruct (decide (n = 0)%N) as [->|Hn]; [by rewrite pretty_N_go_0|].
  rewrite pretty_N_go_step by lia. rewrite IH by (apply N.div_lt; lia). cbn [parse_digits].
  rewrite digit_value_pretty by (apply N.mod_lt; lia). simpl. f_equal.
  pose proof (N.div_mod n 10). lia.
Qed.
Lemma digits_pretty_N_go n s :
  all_bytes is_ascii_digit (pretty_N_go n s) = all_bytes is_ascii_digit s.
Proof.
  revert s. induction (N.lt_wf_0 n) as [n _ IH]; intros s.
  destruct (decide (n = 0)%N) as [->|Hn]; [by rewrite pretty_N_go_0|].
  rewrite pretty_N_go_step by lia. rewrite IH by (apply N.div_lt; lia). simpl.
  by rewrite digit_pretty.
Qed.

Lemma dec_nonneg z : (0 ≤ z)%Z → dec z = pretty (Z.to_N z).
Proof. by destruct z. Qed.
Lemma dec_parse z : (0 ≤ z)%Z → parse_digits 10 0 (dec z) = Some z.
Proof.
  intros. rewrite dec_nonneg by done. unfold pretty, pretty_N. case_decide as Hz.
  - by replace z with 0%Z by lia.
  - rewrite parse_digits_pretty_N_go. simpl. f_equal. lia.
Qed.
Lemma dec_digits z : (0 ≤ z)%Z → all_bytes is_ascii_digit (dec z) = true.
Proof.
  intros. rewrite dec_nonneg by done. unfold pretty, pretty_N. case_decide; [done|].
  by rewrite digits_pretty_N_go.
Qed.
Lemma dec_ne z : (0 ≤ z)%Z → dec z ≠ "".
Proof.
  intros Hz H. pose proof (dec_parse z Hz) as Hp. rewrite H in Hp. simpl in Hp.
  injection Hp as <-. done.
Qed.
Lemma dec_cons z : (0 ≤ z)%Z → ∃ a s, dec z = String a s ∧ is_ascii_digit a = true.
Proof.
  intros Hz. pose proof (dec_ne z Hz). pose proof (dec_digits z Hz) as Hd.
  destruct (dec z) as [|a s]; [done|]. simpl in Hd. bool_props. eauto.
Qed.
Lemma dec_no_char c z :
  is_ascii_digit c = false → (0 ≤ z)%Z → has_char c (dec z) = false.
Proof. intros. eapply all_bytes_no_char; [done|]. by apply dec_digits. Qed.

(** A non-empty all-digit string has no plus sign to strip. *)
Lemma from_str_radix_digits max s :
  s ≠ "" → all_bytes is_ascii_digit s = true →
  parse_u max s = (v ← parse_digits 10 0 s; try_from_u max v).
Proof.
  intros Hne Hd. unfold parse_u, from_str_radix.
  assert (strip_prefix "+" s = None) as ->.
  { destruct s as [|a s]; [done|]. simpl in *. bool_props.
    case_match eqn:He; [|done]. apply Ascii.eqb_eq in He as <-. done. }
  by rewrite (proj2 (is_empty_false s)).
Qed.
Lemma parse_dec max z : (0 ≤ z ≤ max)%Z → parse_u max (dec z) = Some z.
Proof.
  intros. rewrite from_str_radix_digits by auto using dec_ne, dec_digits with lia.
  rewrite dec_parse by lia. simpl. by apply try_from_u_in.
Qed.
Lemma parse_u_range max s z : parse_u max s = Some z → (0 ≤ z ≤ max)%Z.
Proof.
  unfold parse_u, from_str_radix. case_match; [done|].
  intros (v & _ & Hv)%bind_Some. by apply try_from_u_Some in Hv as [-> ?].
Qed.
Lemma from_str_radix_range max radix s z :
  from_str_radix max radix s = Some z → (0 ≤ z ≤ max)%Z.
Proof.
  unfold from_str_radix. case_match; [done|].
  intros (v & _ & Hv)%bind_Some. by apply try_from_u_Some in Hv as [-> ?].
Qed.

(** All 256 byte values round-trip through two hexadecimal digits. *)
Lemma hex2_table :
  forallb (λ n, bool_decide (from_str_radix 255 16 (hex2 (Z.of_nat n)) = Some (Z.of_nat n)) &&
                all_bytes is_ascii_alphanumeric (hex2 (Z.of_nat n)))
          (seq 0 256) = true.
Proof. by vm_compute. Qed.
Lemma hex2_spec z :
  (0 ≤ z ≤ 255)%Z →
  from_str_radix u8_max 16 (hex2 z) = Some z ∧ all_bytes is_ascii_alphanumeric (hex2 z) = true.
Proof.
  intros Hz. pose proof hex2_table as H. rewrite forallb_forall in H.
  specialize (H (Z.to_nat z)). rewrite in_seq, Z2Nat.id in H by lia.
  specialize (H ltac:(lia)). bool_props. done.
Qed.

(** A substring within bounds has the length asked for. *)
Lemma length_substring n m s :
  (n + m ≤ String.length s)%nat → String.length (String.substring n m s) = m.
Proof.
  revert n m; induction s as [|a s IH]; intros [|n] [|m]; simpl; intros; try lia; try done.
  - f_equal. apply (IH 0%nat). lia.
  - apply IH. lia.
  - apply IH. lia.
Qed.
