(* ===== verification/Errors.v ===== *)
(** Errors and progress events shared by every component
    ([firestone-core/src/error.rs], [event.rs], and the event sinks of
    [dispatcher.rs]). *)
From S2P Require Import Prelude RustStr.

(** ** error.rs *)

Inductive ErrorKind : Set :=
  | Generic | Usage | InvalidSpec | NotFound | NotRunning | Conflict | AlreadyExists
  | AlreadyRunning | Busy | Dependency | Timeout | Checksum | Interrupted.

#[export] Instance ErrorKind_eq_dec : EqDecision ErrorKind.
Proof. solve_decision. Defined.

Definition ErrorKind_as_str (k : ErrorKind) : string :=
  match k with
  | Generic => "generic"
  | Usage => "usage"
  | InvalidSpec => "invalid_spec"
  | NotFound => "not_found"
  | NotRunning => "not_running"
  | Conflict => "conflict"
  | AlreadyExists => "already_exists"
  | AlreadyRunning => "already_running"
  | Busy => "busy"
  | Dependency => "dependency"
  | Timeout => "timeout"
  | Checksum => "checksum"
  | Interrupted => "interrupted"
  end.

Record ErrorInfo : Set := {
  info_kind : ErrorKind;
  info_message : string;
  info_hint : option string;
  info_field : option string;
}.

(** The boxed [source] is known only through its [Display] text. *)
Record FirestoneError : Set := {
  kind : ErrorKind;
  message : string;
  hint : option string;
  field : option string;
  source : option string;
}.

#[export] Instance ErrorInfo_eq_dec : EqDecision ErrorInfo.
Proof. solve_decision. Defined.
#[export] Instance FirestoneError_eq_dec : EqDecision FirestoneError.
Proof. solve_decision. Defined.

Definition error_new (k : ErrorKind) (m : string) : FirestoneError :=
  {| kind := k; message := m; hint := None; field := None; source := None |}.
Definition with_hint (e : FirestoneError) (h : string) : FirestoneError :=
  {| kind := kind e; message := message e; hint := Some h; field := field e;
     source := source e |}.
Definition with_field (e : FirestoneError) (f : string) : FirestoneError :=
  {| kind := kind e; message := message e; hint := hint e; field := Some f;
     source := source e |}.
Definition with_source (e : FirestoneError) (s : string) : FirestoneError :=
  {| kind := kind e; message := message e; hint := hint e; field := field e;
     source := Some s |}.

(** [FirestoneError::info] and [From<&FirestoneError> for ErrorInfo]. *)
Definition info (e : FirestoneError) : ErrorInfo :=
  {| info_kind := kind e; info_message := message e; info_hint := hint e;
     info_field := field e |}.

(** [impl Display]: [#[error("{message}")]]. *)
Definition error_display (e : FirestoneError) : string := message e.

(** [std::io::Error]: its kind, as far as the sources look, and its text. *)
Inductive IoKind : Set :=
  | IoNotFound | IoNotADirectory | IoAlreadyExists | IoPermissionDenied | IoInvalidInput
  | IoInvalidData | IoInterrupted | IoWouldBlock | IoTimedOut | IoConnectionRefused
  | IoConnectionReset | IoConnectionAborted | IoNotConnected | IoBrokenPipe | IoUnexpectedEof | IoWriteZero
  | IoOther.
#[export] Instance IoKind_eq_dec : EqDecision IoKind.
Proof. solve_decision. Defined.
Record IoError : Set := { io_kind : IoKind; io_text : string }.
#[export] Instance IoError_eq_dec : EqDecision IoError.
Proof. solve_decision. Defined.

(** ** event.rs *)

Inductive Unit_ : Set := Bytes.
Inductive Level : Set := Trace | Debug_ | Info | Warn | Error.

(** [StepId] is a transparent string; [Json] is [serde_json::Value]. *)
Inductive Event (Json : Type) : Type :=
  | StepStart (id label : string)
  | StepUpdate (id detail : string)
  | Progress (id : string) (done : Z) (total : option Z) (unit : Unit_)
  | StepDone (id : string) (detail : option string) (elapsed_ms : Z)
  | StepSkip (id reason : string)
  | StepFail (id : string) (error : ErrorInfo)
  | Log (level : Level) (message : string)
  | Output (data : string)
  | Result (action : string) (payload : Json).
Arguments StepStart {Json}. Arguments StepUpdate {Json}. Arguments Progress {Json}.
Arguments StepDone {Json}. Arguments StepSkip {Json}. Arguments StepFail {Json}.
Arguments Log {Json}. Arguments Output {Json}. Arguments Result {Json}.

(** ** dispatcher.rs: the sinks events are emitted to *)

(** [trait EventSink]: [emit] may fail (a transport without a consumer). *)
Class EventSink (Json S : Type) := {
  emit : Event Json → M S FirestoneError ();
}.

(** [impl EventSink for Vec<Event>]: recording never fails. *)
#[export] Instance vec_sink Json : EventSink Json (list (Event Json)) := {|
  emit := λ e s, (Ok (), s ++ [e]);
|}.

(** ** What the rest relies on *)

Lemma ErrorKind_as_str_inj : Inj (=) (=) ErrorKind_as_str.
Proof. by intros [] []. Qed.
