(* ===== verification/RustPath.v ===== *)
(** The part of [std::path::Path] that the sources use, on Unix paths held as
    their bytes: component iteration, [parent], [file_name], [join],
    [with_file_name], and equality by components.  [Path::display] is the
    identity on the UTF-8 paths these definitions are about. *)
From S2P Require Import Prelude RustStr.

Inductive Component : Set := RootDir | CurDir | ParentDir | Normal (s : string).
#[export] Instance Component_eq_dec : EqDecision Component.
Proof. solve_decision. Defined.

Definition is_absolute (p : string) : bool := starts_with "/" p.

Definition part_component (x : string) : list Component :=
  if is_empty x || String.eqb x "." then []
  else if String.eqb x ".." then [ParentDir] else [Normal x].

(** [Path::components]: repeated separators and inner [.] are dropped, a leading
    [.] of a relative path is kept. *)
Definition components (p : string) : list Component :=
  let parts := split "/" p in
  (if is_absolute p then [RootDir] else []) ++
  match parts with
  | x :: rest => (if String.eqb x "." then [CurDir] else part_component x)
                 ++ (rest ≫= part_component)
  | [] => []
  end.

(** [Path == Path]. *)
Definition path_eqb (p q : string) : bool := bool_decide (components p = components q).

Definition file_name (p : string) : option string :=
  match last (components p) with
  | Some (Normal s) => Some s
  | _ => None
  end.

(** Parts in reverse, without the trailing separators and [.] parts that are not
    the path's first part. *)
Fixpoint drop_trivial (parts : list string) : list string :=
  match parts with
  | [] => []
  | [x] => [x]
  | x :: rest => if is_empty x || String.eqb x "." then drop_trivial rest else parts
  end.

Definition text_of_reversed (parts : list string) : string :=
  match parts with
  | [] => ""
  | [x] => if is_empty x then "/" else x
  | _ => join "/" (rev parts)
  end.

(** [Path::parent]: [None] for the empty path and the root. *)
Definition parent (p : string) : option string :=
  match drop_trivial (rev (split "/" p)) with
  | [] => None
  | [x] => if is_empty x then None else Some ""
  | _ :: rest => Some (text_of_reversed (drop_trivial rest))
  end.

(** [Path::join]. *)
Definition path_join (base p : string) : string :=
  if is_absolute p then p
  else if is_empty base then p
  else if ends_with "/" base then base +:+ p
  else base +:+ "/" +:+ p.

(** [Path::with_file_name]. *)
Definition with_file_name (p name : string) : string :=
  match file_name p with
  | Some _ => path_join (match parent p with Some d => d | None => "" end) name
  | None => path_join p name
  end.

(** ** Lemmas *)

Lemma components_no_slash x :
  has_char "/" x = false → x ≠ "" → x ≠ "." → x ≠ ".." → components x = [Normal x].
Proof.
  intros Hx Hne Hd Hdd. unfold components, is_absolute.
  assert (starts_with "/" x = false) as ->.
  { destruct (starts_with "/" x) eqn:Hs; [|done]. apply starts_with_spec in Hs as [r ->].
    by rewrite has_char_app in Hx. }
  rewrite split_no_sep by done. rewrite (proj2 (String.eqb_neq x ".")) by done.
  unfold part_component. rewrite (proj2 (is_empty_false x)) by done.
  rewrite (proj2 (String.eqb_neq x ".")), (proj2 (String.eqb_neq x "..")) by done. done.
Qed.

Lemma last_bind_part l x :
  is_empty x = false → x ≠ "." → x ≠ ".." →
  last ((l ++ [x]) ≫= part_component) = Some (Normal x).
Proof.
  intros Hne Hd Hdd. rewrite bind_app. simpl. rewrite app_nil_r.
  unfold part_component at 2. rewrite Hne.
  rewrite (proj2 (String.eqb_neq x ".")), (proj2 (String.eqb_neq x "..")) by done.
  by rewrite last_app.
Qed.
(** A path that ends in a plain name after a separator has that file name. *)
Lemma file_name_app s x :
  has_char "/" x = false → x ≠ "" → x ≠ "." → x ≠ ".." → file_name (s +:+ String "/" x) = Some x.
Proof.
  intros Hx Hne Hd Hdd. unfold file_name, components. rewrite split_app_last by done.
  assert (is_empty x = false) as He by (by apply is_empty_false).
  destruct (split "/" s) as [|y l] eqn:Hs; [by apply split_ne in Hs|].
  simpl. rewrite !last_app, last_bind_part by done. done.
Qed.
Lemma file_name_no_slash p n : file_name p = Some n → has_char "/" n = false.
Proof.
  unfold file_name. destruct (last (components p)) as [[]|] eqn:Hl; try done. intros [= ->].
  apply last_Some_elem_of in Hl. pose proof (split_no_char "/" p) as Hp.
  assert (Hpart : ∀ x, Normal n ∈ part_component x → n = x).
  { intros x. unfold part_component. repeat case_match; [set_solver..|].
    rewrite list_elem_of_singleton. by intros [= ->]. }
  unfold components in Hl. rewrite elem_of_app in Hl. destruct Hl as [Hl|Hl].
  - case_match; set_solver.
  - destruct (split "/" p) as [|x l]; [set_solver|]. apply Forall_cons in Hp as [Hx Hp].
    rewrite elem_of_app in Hl. destruct Hl as [Hl|Hl].
    + case_match; [set_solver|]. by apply Hpart in Hl as ->.
    + apply list_elem_of_bind in Hl as (y & Hy%Hpart & Hin). subst.
      rewrite Forall_forall in Hp. by apply Hp.
Qed.
Lemma file_name_join d x :
  has_char "/" x = false → x ≠ "" → x ≠ "." → x ≠ ".." → file_name (path_join d x) = Some x.
Proof.
  intros Hx Hne Hd Hdd. unfold path_join, is_absolute.
  assert (starts_with "/" x = false) as ->.
  { destruct (starts_with "/" x) eqn:Hs; [|done]. apply starts_with_spec in Hs as [r ->].
    by rewrite has_char_app in Hx. }
  destruct (is_empty d); [unfold file_name; by rewrite components_no_slash|].
  destruct (ends_with "/" d) eqn:He.
  - unfold ends_with in He. apply bool_decide_eq_true in He as [r Hr].
    apply strip_suffix_Some in Hr as ->. str_norm. by apply file_name_app.
  - str_norm. by apply file_name_app.
Qed.
(** Renaming the last component of a path to a plain name gives it that name. *)
Lemma file_name_with_file_name p n x :
  file_name p = Some n → has_char "/" x = false → x ≠ "" → x ≠ "." → x ≠ ".." →
  file_name (with_file_name p x) = Some x.
Proof. intros Hp ????. unfold with_file_name. rewrite Hp. by apply file_name_join. Qed.

(** *** Joining below an absolute path *)

(** The components of a path after its root and its leading [.]. *)
Definition path_parts (p : string) : list Component := split "/" p ≫= part_component.
(** Neither path contains the other. *)
Definition apart (p q : string) : Prop :=
  ¬ components p `prefix_of` components q ∧ ¬ components q `prefix_of` components p.

Lemma is_absolute_spec p : is_absolute p = true ↔ ∃ r, p = String "/" r.
Proof. unfold is_absolute. rewrite starts_with_spec. done. Qed.
Lemma components_absolute p : is_absolute p = true → components p = RootDir :: path_parts p.
Proof.
  intros Ha. unfold components, path_parts. rewrite Ha. apply is_absolute_spec in Ha as [r ->]. simpl. done.
Qed.
Lemma path_join_absolute base p : is_absolute base = true → is_absolute (path_join base p) = true.
Proof.
  intros Ha. unfold path_join. destruct (is_absolute p) eqn:Hp; [done|].
  apply is_absolute_spec in Ha as [r ->]. cbn [is_empty String.eqb].
  destruct (ends_with _ _); apply is_absolute_spec; rewrite app_cons; by eexists.
Qed.
Lemma path_parts_join base p :
  is_absolute base = true → is_absolute p = false → path_parts (path_join base p) = path_parts base ++ path_parts p.
Proof.
  intros Ha Hp. unfold path_join. rewrite Hp. assert (is_empty base = false) as ->.
  { apply is_absolute_spec in Ha as [r ->]. done. }
  unfold path_parts. destruct (ends_with "/" base) eqn:He.
  - unfold ends_with in He. apply bool_decide_eq_true in He as [b ->%strip_suffix_Some].
    rewrite app_assoc_str. rewrite (app_cons "/"), app_empty_l, !split_app, !bind_app. simpl. by rewrite app_nil_r.
  - by rewrite (app_cons "/"), app_empty_l, split_app, bind_app.
Qed.
(** A plain name below an absolute directory is one more component. *)
Lemma components_join base x :
  is_absolute base = true → has_char "/" x = false → x ≠ "" → x ≠ "." → x ≠ ".." →
  components (path_join base x) = components base ++ [Normal x].
Proof.
  intros Ha Hx He Hd Hdd. rewrite !components_absolute by (try apply path_join_absolute; done).
  assert (Hr : is_absolute x = false).
  { apply not_true_iff_false. intros [r ->]%is_absolute_spec. by rewrite has_char_cons in Hx; destruct Hx. }
  rewrite path_parts_join by done. simpl. do 2 f_equal. unfold path_parts. rewrite split_no_sep by done. simpl.
  rewrite app_nil_r. unfold part_component. rewrite (proj2 (is_empty_false x)) by done.
  rewrite !(proj2 (String.eqb_neq _ _)) by done. done.
Qed.
Lemma apart_below d x y l l' p q :
  components p = components d ++ Normal x :: l → components q = components d ++ Normal y :: l' → x ≠ y → apart p q.
Proof.
  intros Hp Hq Hxy. unfold apart. rewrite Hp, Hq. split; intros [k Hk].
  all: rewrite <- app_assoc in Hk; apply app_inv_head in Hk; cbn in Hk; by injection Hk.
Qed.
