(* ===== verification/Clock.v ===== *)
(** Waiting code: a monotonic clock, sleeps, observations of the outside world and
    an event sink.  The schedule decides how much extra time every step takes, and
    each observation may depend on when it is made. *)
From S2P Require Import Prelude Errors.
Open Scope Z_scope.

(** Extra time (in nanoseconds) that passes in the n-th step: never negative. *)
Class Schedule := { lag : nat → Z; lag_nonneg : ∀ n, 0 ≤ lag n }.

Record Timed (S : Type) : Type := { time : Z; tick : nat; sink : S }.
Arguments time {S}. Arguments tick {S}. Arguments sink {S}. Arguments Build_Timed {S}.

Section clock.
Context `{Schedule} {S : Type} {E : Type}.

Definition pass (d : Z) (w : Timed S) : Timed S :=
  {| time := time w + d + lag (tick w); tick := Datatypes.S (tick w); sink := sink w |}.
(** [Instant::now]. *)
Definition instant_now : M (Timed S) E Z := λ w, let w := pass 0 w in (Ok (time w), w).
(** [thread::sleep]: at least the requested time. *)
Definition sleep (d : Z) : M (Timed S) E () := λ w, (Ok (), pass d w).
(** An observation of the outside world. *)
Definition observe {A} (f : nat → result E A) : M (Timed S) E A := λ w,
  (f (tick w), pass 0 w).
End clock.

Definition emit_event {Json S} `{EventSink Json S} (e : Event Json)
    : M (Timed S) FirestoneError () := λ w,
  let '(r, s) := emit e (sink w) in (r, {| time := time w; tick := tick w; sink := s |}).

(** With a recording sink, emitting appends. *)
Lemma emit_event_vec {Json} (e : Event Json) (w : Timed (list (Event Json))) :
  emit_event e w = (Ok (), {| time := time w; tick := tick w; sink := sink w ++ [e] |}).
Proof. done. Qed.
Lemma time_pass `{Schedule} {S} d (w : Timed S) : time (pass d w) = time w + d + lag (tick w).
Proof. done. Qed.
Lemma time_pass_ge `{Schedule} {S} (w : Timed S) : time w ≤ time (pass 0 w).
Proof. rewrite time_pass. pose proof (lag_nonneg (tick w)). lia. Qed.

(** Running the first action of a sequence. *)
Lemma bind_run {W E A B} (m : M W E A) (k : A → M W E B) w a w' :
  m w = (Ok a, w') → (m ≫= k) w = k a w'.
Proof. unfold mbind, M_bind. by intros ->. Qed.
Lemma bind_run_err {W E A B} (m : M W E A) (k : A → M W E B) w e w' :
  m w = (Err e, w') → (m ≫= k) w = (Err e, w').
Proof. unfold mbind, M_bind. by intros ->. Qed.
Lemma bind_now `{Schedule} {S E A} (k : Z → M (Timed S) E A) w :
  (instant_now ≫= k) w = k (time (pass 0 w)) (pass 0 w).
Proof. done. Qed.
Lemma bind_observe `{Schedule} {S E A B} (f : nat → result E A) (k : A → M (Timed S) E B) w :
  (observe f ≫= k) w =
    match f (tick w) with Ok a => k a (pass 0 w) | Err e => (Err e, pass 0 w) end.
Proof. unfold mbind, M_bind, observe. by destruct (f (tick w)). Qed.
Lemma pass_later `{Schedule} {S} d (w : Timed S) : 0 ≤ d → time w + d ≤ time (pass d w).
Proof. intros. simpl. pose proof (lag_nonneg (tick w)). lia. Qed.

(** ** Loops

    One turn of a [loop] either yields the next turn's state or leaves the loop;
    [None] means that [fuel] turns were not enough. *)
Fixpoint loop {W E St A} (body : St → M W E (St + A)) (fuel : nat) (st : St)
    : M W E (option A) :=
  match fuel with
  | O => mret None
  | Datatypes.S fuel =>
      next ← body st;
      match next with
      | inl st' => loop body fuel st'
      | inr a => mret (Some a)
      end
  end.

(** A loop whose turns keep [Inv] and decrease [μ] ends within [μ + 1] turns, by a
    turn that establishes [Q]. *)
Lemma loop_spec {W E St A} (body : St → M W E (St + A)) (Inv : St → W → Prop)
    (μ : St → W → nat) (Q : result E A → W → Prop) :
  (∀ st w, Inv st w → match body st w with
    | (Ok (inl st'), w') => Inv st' w' ∧ (μ st' w' < μ st w)%nat
    | (Ok (inr a), w') => Q (Ok a) w'
    | (Err e, w') => Q (Err e) w'
    end) →
  ∀ fuel st w, Inv st w → (μ st w < fuel)%nat →
  ∃ r w', loop body fuel st w = (Some <$> r, w') ∧ Q r w'.
Proof.
  intros Hbody fuel. induction fuel as [|fuel IH]; intros st w HI Hμ; [lia|].
  specialize (Hbody st w HI). simpl. unfold mbind, M_bind.
  destruct (body st w) as [[[st'|a]|e] w'].
  - apply IH; [apply Hbody|]. destruct Hbody. lia.
  - by exists (Ok a), w'.
  - by exists (Err e), w'.
Qed.

(** The number of [poll]-long sleeps that cover what is left of a wait. *)
Definition turns_left (poll left : Z) : nat := Z.to_nat ((Z.max 0 left + poll - 1) / poll).

Lemma turns_left_mono poll a b : 0 < poll → a ≤ b → (turns_left poll a ≤ turns_left poll b)%nat.
Proof. intros. apply Z2Nat.inj_le; [apply Z.div_pos; lia..|]. apply Z.div_le_mono; lia. Qed.
Lemma turns_left_pos poll a : 0 < poll → 0 < a → (0 < turns_left poll a)%nat.
Proof.
  intros. unfold turns_left. assert (1 ≤ (Z.max 0 a + poll - 1) / poll); [|lia].
  apply Z.div_le_lower_bound; lia.
Qed.
Lemma turns_left_zero poll a : 0 < poll → a ≤ 0 → turns_left poll a = 0%nat.
Proof. intros. unfold turns_left. rewrite Z.max_l, Z.div_small by lia. done. Qed.
Lemma turns_left_sleep poll a b :
  0 < poll → 0 < a → b ≤ a - Z.min poll a → (turns_left poll b < turns_left poll a)%nat.
Proof.
  intros Hp Ha Hb. destruct (Z.le_gt_cases a poll).
  - rewrite (turns_left_zero _ b) by lia. by apply turns_left_pos.
  - apply (Nat.le_lt_trans _ (turns_left poll (a - poll))); [apply turns_left_mono; lia|].
    unfold turns_left. rewrite !Z.max_r by lia.
    replace (a + poll - 1) with (a - poll + poll - 1 + 1 * poll) by lia.
    rewrite Z.div_add by lia.
    assert (0 ≤ (a - poll + poll - 1) / poll) by (apply Z.div_pos; lia). lia.
Qed.

(** ** Outcomes of actions *)

Definition wp {W E A} (m : M W E A) (Q : result E A → W → Prop) (w : W) : Prop := Q (m w).1 (m w).2.

Section wp.
Context {W E : Type}.
Lemma wp_bind {A B} (m : M W E A) (k : A → M W E B) Q w :
  wp m (λ r w', match r with Ok a => wp (k a) Q w' | Err e => Q (Err e) w' end) w → wp (m ≫= k) Q w.
Proof. unfold wp, mbind, M_bind. by destruct (m w) as [[a|e] w']. Qed.
Lemma wp_mono {A} (m : M W E A) (Q Q' : result E A → W → Prop) w :
  wp m Q w → (∀ r w', Q r w' → Q' r w') → wp m Q' w.
Proof. unfold wp. auto. Qed.
Lemma wp_ret {A} (a : A) (Q : result E A → W → Prop) w : Q (Ok a) w → wp (mret a) Q w.
Proof. done. Qed.
Lemma wp_map_err {F A} (f : E → F) (m : M W E A) (Q : result F A → W → Prop) w :
  wp m (λ r w', Q (map_err f r) w') w → wp (M_map_err f m) Q w.
Proof. unfold wp, M_map_err. by destruct (m w) as [[a|e] w']. Qed.
Lemma wp_run {A} (m : M W E A) (Q : result E A → W → Prop) w r w' : m w = (r, w') → wp m Q w → Q r w'.
Proof. unfold wp. by intros ->. Qed.
End wp.

Section rules.
Context `{Schedule} {S E : Type}.
Lemma wp_now (Q : result E Z → Timed S → Prop) w : Q (Ok (time (pass 0 w))) (pass 0 w) → wp instant_now Q w.
Proof. done. Qed.
Lemma wp_sleep d (Q : result E () → Timed S → Prop) w : Q (Ok ()) (pass d w) → wp (sleep d) Q w.
Proof. done. Qed.
Lemma wp_observe {A} (f : nat → result E A) (Q : result E A → Timed S → Prop) w :
  Q (f (tick w)) (pass 0 w) → wp (observe f) Q w.
Proof. done. Qed.
End rules.

(** ** Loops under a deadline *)

(** A failure of the code, or a loop that used up its turns. *)
Inductive Stop (F : Set) : Set := Failed (f : F) | OutOfFuel.
Arguments Failed {F}. Arguments OutOfFuel {F}.
Definition map_failure {F G : Set} (f : F → G) (s : Stop F) : Stop G :=
  match s with Failed e => Failed (f e) | OutOfFuel => OutOfFuel end.

(** Up to [2 ^ n] turns: the state they reach, or what the loop left with. *)
Fixpoint turns {W E St A} (body : St → M W E (St + A)) (n : nat) (st : St) : M W E (St + A) :=
  match n with
  | O => body st
  | S n =>
      half ← turns body n st;
      match half with
      | inl st => turns body n st
      | inr a => mret (inr a)
      end
  end.
(** A loop of at most [bound] turns. *)
Definition bounded_loop {W F St A} (bound : Z) (body : St → M W (Stop F) (St + A)) (st : St)
    : M W (Stop F) A :=
  left ← turns body (Z.to_nat (Z.log2_up (Z.max 1 (bound + 1)))) st;
  match left with inr a => mret a | inl _ => M_fail OutOfFuel end.

Section turns.
Context {W E St A : Type} (body : St → M W E (St + A)).
Context (Inv : St → W → Prop) (μ : St → W → Z) (Q : result E A → W → Prop).
Context (Hbody : ∀ st w, Inv st w → wp (body st) (λ r w', match r with
  | Ok (inl st') => Inv st' w' ∧ μ st' w' < μ st w
  | Ok (inr a) => Q (Ok a) w'
  | Err e => Q (Err e) w'
  end) w).
Lemma wp_turns n st w :
  Inv st w → wp (turns body n st) (λ r w', match r with
    | Ok (inl st') => Inv st' w' ∧ μ st' w' + 2 ^ Z.of_nat n ≤ μ st w
    | Ok (inr a) => Q (Ok a) w'
    | Err e => Q (Err e) w'
    end) w.
Proof using Hbody.
  revert st w. induction n as [|n IH]; intros st w HI; cbn [turns].
  - eapply wp_mono; [by apply Hbody|]. intros [[st'|a]|e] w' H; [|done..]. split; [apply H|]. simpl. lia.
  - apply wp_bind. eapply wp_mono; [by apply IH|]. intros [[st'|a]|e] w' H; [|done..].
    destruct H as [HI' Hμ]. eapply wp_mono; [by apply IH|]. intros [[st''|a]|e] w'' H; [|done..].
    destruct H as [HI'' Hμ']. split; [done|].
    replace (2 ^ Z.of_nat (S n)) with (2 ^ Z.of_nat n + 2 ^ Z.of_nat n); [lia|].
    rewrite Nat2Z.inj_succ, Z.pow_succ_r; lia.
Qed.
End turns.

(** The loop rule: turns keep [Inv] and decrease the nonnegative [μ], which [bound] covers. *)
Lemma wp_bounded {W F St A} (bound : Z) (body : St → M W (Stop F) (St + A))
    (Inv : St → W → Prop) (μ : St → W → Z) (Q : result (Stop F) A → W → Prop) st w :
  (∀ st w, Inv st w → wp (body st) (λ r w', match r with
    | Ok (inl st') => Inv st' w' ∧ μ st' w' < μ st w
    | Ok (inr a) => Q (Ok a) w'
    | Err e => Q (Err e) w'
    end) w) →
  (∀ st w, Inv st w → 0 ≤ μ st w) →
  Inv st w → μ st w ≤ bound → wp (bounded_loop bound body st) Q w.
Proof.
  intros Hbody Hpos HI Hμ. unfold bounded_loop. apply wp_bind. eapply wp_mono; [by eapply wp_turns|].
  intros [[st'|a]|e] w' H; [|done..]. exfalso. destruct H as [HI' Hle]. specialize (Hpos _ _ HI').
  rewrite Z2Nat.id in Hle by apply Z.log2_up_nonneg.
  pose proof (Z.log2_up_le_pow2 (Z.max 1 (bound + 1)) (Z.log2_up (Z.max 1 (bound + 1)))). lia.
Qed.

(** The latest [Instant]: seconds are an [i64]. *)
Definition instant_max : Z := (2 ^ 63 - 1) * 1000000000 + 999999999.

(** The longest [Duration]. *)
Definition duration_max : Z := u64_max * 1000000000 + 999999999.

(** A [for] loop. *)
Fixpoint fold_act {W E A St} (f : St → A → M W E St) (st : St) (l : list A) : M W E St :=
  match l with
  | [] => mret st
  | a :: l => st ← f st a; fold_act f st l
  end.
Lemma wp_fold_act {W E A St} (f : St → A → M W E St) (Inv : St → W → Prop) (Q : result E St → W → Prop) l st w :
  (∀ st w a, a ∈ l → Inv st w → wp (f st a) (λ r w', match r with Ok st' => Inv st' w' | Err e => Q (Err e) w' end) w) →
  (∀ st w, Inv st w → Q (Ok st) w) →
  Inv st w → wp (fold_act f st l) Q w.
Proof.
  revert st w. induction l as [|a l IH]; intros st w Hf HQ HI; cbn [fold_act].
  - by apply wp_ret, HQ.
  - apply wp_bind. eapply wp_mono; [apply Hf; [left|done]|]. intros [st'|e] w' H; [|done].
    apply IH; [|done..]. intros st1 w1 a' Ha'. apply Hf. by right.
Qed.

Section deadline.
Context {S : Type} {F : Set} (deadline : Z).

(** A loop whose every turn reads the clock: at most one turn per nanosecond that is left. *)
Definition until_deadline {St A} (body : St → M (Timed S) (Stop F) (St + A)) (st : St)
    : M (Timed S) (Stop F) A := λ w,
  bounded_loop (Z.max 0 (deadline - time w)) body st w.

(** A loop whose continuing turns start before the deadline and take time ends. *)
Lemma wp_until {St A} (body : St → M (Timed S) (Stop F) (St + A)) (Inv : St → Timed S → Prop) Q st w :
  (∀ st w, Inv st w → wp (body st) (λ r w', match r with
     | Ok (inl st') => Inv st' w' ∧ time w < time w' ∧ time w < deadline
     | Ok (inr a) => Q (Ok a) w'
     | Err e => Q (Err e) w'
     end) w) →
  Inv st w → wp (until_deadline body st) Q w.
Proof.
  intros Hbody HI. unfold until_deadline.
  change (wp (bounded_loop (Z.max 0 (deadline - time w)) body st) Q w).
  apply (wp_bounded _ body Inv (λ _ w, Z.max 0 (deadline - time w))); [|lia|done|lia].
  intros st0 w0 HI0%Hbody. eapply wp_mono; [done|]. intros [[st'|a]|e] w' H; [|done..].
  split; [apply H|lia].
Qed.
End deadline.
