(* ===== verification/Stream.v ===== *)
(** Nonblocking byte streams: what one side has sent and what the other has still to deliver.
    Every read and write may be interrupted, move any part of what it was asked for, or fail. *)
From S2P Require Import Prelude Errors Clock.
Open Scope Z_scope.

(** What was sent on a stream and what the peer has still to deliver before it closes. *)
Record Conn : Set := { sent : list Z; incoming : list Z }.

(** How many bytes a call is willing to take or deliver, by the time it is made. *)
Class Stream := {
  send : nat → result IoError nat;
  recv : nat → result IoError nat }.

Definition length_z {A} (l : list A) : Z := Z.of_nat (length l).

Section stream.
Context `{Schedule} `{Stream} {E : Type}.

(** [stream.read(buffer)] with a buffer of [n] bytes: empty only when the peer is done. *)
Definition sock_read (n : Z) : M (Timed Conn) E (result IoError (list Z)) := λ w,
  match recv (tick w) with
  | Err e => (Ok (Err e), pass 0 w)
  | Ok k =>
      let count := Nat.min (Z.to_nat n) (S k) in
      let w' := pass 0 w in
      (Ok (Ok (take count (incoming (sink w)))),
       {| time := time w'; tick := tick w';
          sink := {| sent := sent (sink w); incoming := drop count (incoming (sink w)) |} |})
  end.
(** [stream.write(rest)]. *)
Definition sock_write (rest : list Z) : M (Timed Conn) E (result IoError nat) := λ w,
  match send (tick w) with
  | Err e => (Ok (Err e), pass 0 w)
  | Ok k =>
      let count := Nat.min k (length rest) in
      let w' := pass 0 w in
      (Ok (Ok count),
       {| time := time w'; tick := tick w';
          sink := {| sent := sent (sink w) ++ take count rest; incoming := incoming (sink w) |} |})
  end.

(** The stream after a read that left [rest], and after a write that took [p]. *)
Definition after_read (w : Timed Conn) (rest : list Z) : Timed Conn :=
  {| time := time (pass 0 w); tick := tick (pass 0 w); sink := {| sent := sent (sink w); incoming := rest |} |}.
Definition after_write (w : Timed Conn) (p : list Z) : Timed Conn :=
  {| time := time (pass 0 w); tick := tick (pass 0 w);
     sink := {| sent := sent (sink w) ++ p; incoming := incoming (sink w) |} |}.
Lemma wp_sock_read n Q w :
  0 < n →
  (∀ e, recv (tick w) = Err e → Q (Ok (Err e)) (pass 0 w)) →
  (∀ chunk rest, incoming (sink w) = chunk ++ rest → length_z chunk ≤ n → (chunk = [] → rest = []) →
    Q (Ok (Ok chunk)) (after_read w rest)) →
  wp (sock_read n) Q w.
Proof.
  intros Hn Herr Hok. unfold wp, sock_read. destruct (recv (tick w)) as [k|e] eqn:Hr; [|by apply Herr].
  apply Hok; [by rewrite take_drop|unfold length_z; rewrite length_take; lia|].
  destruct (incoming (sink w)); [by rewrite drop_nil|]. replace (Z.to_nat n) with (S (Z.to_nat n - 1))%nat by lia. done.
Qed.
Lemma wp_sock_write bytes Q w :
  (∀ e, send (tick w) = Err e → Q (Ok (Err e)) (pass 0 w)) →
  (∀ k, send (tick w) = Ok k →
    Q (Ok (Ok (Nat.min k (length bytes)))) (after_write w (take (Nat.min k (length bytes)) bytes))) →
  wp (sock_write bytes) Q w.
Proof.
  intros Herr Hok. unfold wp, sock_write. destruct (send (tick w)) as [k|e] eqn:Hr; [|by apply Herr].
  by apply Hok.
Qed.
End stream.
