(* ===== verification/Bounded.v ===== *)
(** Bounded reads ([firestone-core/src/bounded.rs]). *)
From S2P Require Import Prelude Errors.
Open Scope Z_scope.

(** What a reader yields until its end or its first failure. *)
Record Reader : Set := { data : list Z; fails : option IoError }.

Inductive BoundedReadError : Set := Io (e : IoError) | LimitExceeded.

(** [reader.take(n).read_to_end(..)]: the adaptor stops at [n] bytes without asking
    the reader again, so a failure behind them is not seen. *)
Definition take_read_to_end (n : Z) (r : Reader) : result IoError (list Z) :=
  if n <=? Z.of_nat (length (data r)) then Ok (take (Z.to_nat n) (data r))
  else match fails r with Some e => Err e | None => Ok (data r) end.

Definition read_to_end (r : Reader) (limit : Z) : result BoundedReadError (list Z) :=
  let read_limit := saturating_add u64_max limit 1 in
  bytes ← map_err Io (take_read_to_end read_limit r);
  reject LimitExceeded when
    (limit <? from_option id u64_max (try_from_u u64_max (Z.of_nat (length bytes))));
  Ok bytes.

Lemma read_to_end_spec r limit :
  0 ≤ limit < u64_max →
  read_to_end r limit =
    if limit <? Z.of_nat (length (data r)) then Err LimitExceeded
    else match fails r with Some e => Err (Io e) | None => Ok (data r) end.
Proof.
  intros Hl. unfold read_to_end, take_read_to_end, saturating_add.
  rewrite Z.min_r by lia.
  destruct (Z.ltb_spec limit (Z.of_nat (length (data r)))) as [Hgt|Hle].
  - rewrite (proj2 (Z.leb_le _ _)) by lia. simpl.
    rewrite length_take, Nat.min_l by lia. rewrite Z2Nat.id by lia.
    rewrite try_from_u_in by lia. simpl. by rewrite (proj2 (Z.ltb_lt _ _)) by lia.
  - rewrite (proj2 (Z.leb_gt _ _)) by lia. destruct (fails r); [done|]. simpl.
    rewrite try_from_u_in by lia. simpl. by rewrite (proj2 (Z.ltb_ge _ _)) by lia.
Qed.
(** A successful bounded read is the whole stream, within the limit. *)
Lemma read_to_end_Ok r limit bytes :
  0 ≤ limit < u64_max → read_to_end r limit = Ok bytes →
  bytes = data r ∧ fails r = None ∧ Z.of_nat (length bytes) ≤ limit.
Proof.
  intros Hl. rewrite read_to_end_spec by done. destruct (Z.ltb_spec limit (Z.of_nat (length (data r)))); [done|].
  destruct (fails r); [done|]. by intros [= <-].
Qed.
