(* ===== verification/Values.v ===== *)
(** Scalar values of a machine spec ([firestone-core/src/spec/value.rs]):
    architectures, byte sizes, image references, MAC addresses, firmware
    selections and durations, with their parsers and renderings. *)
From S2P Require Import Prelude RustStr.
Open Scope Z_scope.

(** ** Arch *)
Module Arch.
Inductive Arch : Set := X86_64 | Aarch64.
#[export] Instance Arch_eq_dec : EqDecision Arch.
Proof. solve_decision. Defined.

Definition as_str (a : Arch) : string :=
  match a with X86_64 => "x86_64" | Aarch64 => "aarch64" end.

(** [Arch::current], given [std::env::consts::ARCH]. *)
Definition current (host : string) : result string Arch :=
  if String.eqb host "x86_64" then Ok X86_64
  else if String.eqb host "aarch64" then Ok Aarch64
  else Err ("unsupported host architecture '" +:+ host +:+ "'").

Definition display (a : Arch) : string := as_str a.
End Arch.

(** ** ByteSize: a u64 number of bytes *)
Module ByteSize.
Definition MIB : Z := 1024 * 1024.
Definition GIB : Z := 1024 * MIB.
Definition BUILTIN_MEMORY : Z := 2 * GIB.
Definition BUILTIN_DISK : Z := 20 * GIB.
Definition MINIMUM_MEMORY : Z := 128 * MIB.

Inductive ParseByteSizeError : Set := ParseByteSizeError_.

Definition from_mib (value : Z) : result ParseByteSizeError Z :=
  ok_or (checked_mul u64_max value MIB) ParseByteSizeError_.
Definition from_gib (value : Z) : result ParseByteSizeError Z :=
  ok_or (checked_mul u64_max value GIB) ParseByteSizeError_.
Definition as_mib (b : Z) : Z := b / MIB.

Definition display (b : Z) : string :=
  if b mod GIB =? 0 then dec (b / GIB) +:+ "G" else dec (b / MIB) +:+ "M".

(** The unit a last byte selects, and the text before it. *)
Definition split_unit (value : string) : result ParseByteSizeError (string * Z) :=
  match last_byte value with
  | Some a =>
      if Ascii.eqb a "M" || Ascii.eqb a "m" then Ok (but_last value, MIB)
      else if Ascii.eqb a "G" || Ascii.eqb a "g" then Ok (but_last value, GIB)
      else if is_ascii_digit a then Ok (value, MIB)
      else Err ParseByteSizeError_
  | None => Err ParseByteSizeError_
  end.

Definition from_str (value : string) : result ParseByteSizeError Z :=
  '(number, multiplier) ← split_unit (trim value);
  reject ParseByteSizeError_ when (is_empty number || negb (all_bytes is_ascii_digit number));
  amount ← ok_or (parse_u u64_max number) ParseByteSizeError_;
  if multiplier =? GIB then from_gib amount else from_mib amount.

(** What the serde visitor is handed. *)
Inductive visited : Type := visit_u64 (v : Z) | visit_i64 (v : Z) | visit_str (v : string).
Definition deserialize (v : visited) : result ParseByteSizeError Z :=
  match v with
  | visit_u64 v => from_mib v
  | visit_i64 v => v ← ok_or (try_from_u u64_max v) ParseByteSizeError_; from_mib v
  | visit_str v => from_str v
  end.

(** A size the constructors can build: whole MiB within a u64. *)
Definition wf (b : Z) : Prop := 0 ≤ b ≤ u64_max ∧ b mod MIB = 0.
End ByteSize.

(** ** ImageRef *)
Module ImageRef.
Definition new (value : string) : string := value.
Definition default : string := new "ubuntu:24.04".
End ImageRef.

(** ** MacAddr: six octets *)
Module MacAddr.
Inductive ParseMacAddrError : Set := ParseMacAddrError_.

Fixpoint parse_octets (n : nat) (parts : list string)
    : result ParseMacAddrError (list Z * list string) :=
  match n with
  | O => Ok ([], parts)
  | S n =>
      match parts with
      | [] => Err ParseMacAddrError_
      | part :: parts =>
          reject ParseMacAddrError_ when negb (len part =? 2);
          octet ← ok_or (from_str_radix u8_max 16 part) ParseMacAddrError_;
          '(octets, rest) ← parse_octets n parts;
          Ok (octet :: octets, rest)
      end
  end.

Definition from_str (value : string) : result ParseMacAddrError (list Z) :=
  '(octets, rest) ← parse_octets 6 (split ":" value);
  match rest with
  | [] => Ok octets
  | _ :: _ => Err ParseMacAddrError_
  end.

Definition display (m : list Z) : string := join ":" (hex2 <$> m).

Definition wf (m : list Z) : Prop := length m = 6%nat ∧ bytes_ok m.

(** The published JSON schema pattern [^[0-9A-Fa-f]{2}(:[0-9A-Fa-f]{2}){5}$]. *)
Definition is_hex (a : ascii) : bool :=
  is_ascii_digit a || byte_in 65 70 a || byte_in 97 102 a.
Definition schema_pattern (value : string) : bool :=
  let parts := split ":" value in
  (length parts =? 6)%nat && forallb (λ p, (len p =? 2) && all_bytes is_hex p) parts.
End MacAddr.

(** ** Firmware *)
Module Firmware.
Inductive Firmware : Set := Auto | Rhf | Edk2 | Path (text : string).
#[export] Instance Firmware_eq_dec : EqDecision Firmware.
Proof. solve_decision. Defined.
Inductive ParseFirmwareError : Set := ParseFirmwareError_.

Definition path (text : string) : result ParseFirmwareError Firmware :=
  reject ParseFirmwareError_ when
    (is_empty text ||
     (String.eqb text "auto" || String.eqb text "rhf" || String.eqb text "edk2"));
  Ok (Path text).

Definition as_path (f : Firmware) : option string :=
  match f with Path p => Some p | Auto | Rhf | Edk2 => None end.
Definition is_edk2 (f : Firmware) : bool :=
  match f with Edk2 => true | _ => false end.
Definition edk2_file_name (a : Arch.Arch) : string :=
  match a with Arch.X86_64 => "CLOUDHV.fd" | Arch.Aarch64 => "CLOUDHV_EFI.fd" end.

Definition display (f : Firmware) : string :=
  match f with Auto => "auto" | Rhf => "rhf" | Edk2 => "edk2" | Path p => p end.

Definition from_str (value : string) : result ParseFirmwareError Firmware :=
  if String.eqb value "auto" then Ok Auto
  else if String.eqb value "rhf" then Ok Rhf
  else if String.eqb value "edk2" then Ok Edk2
  else path value.

(** What the constructors can build. *)
Definition wf (f : Firmware) : Prop :=
  match f with
  | Path p => p ≠ "" ∧ p ≠ "auto" ∧ p ≠ "rhf" ∧ p ≠ "edk2"
  | _ => True
  end.
End Firmware.

(** ** HumanDuration: a positive number of seconds *)
Module HumanDuration.
Definition DEFAULT_FIRST_BOOT_TIMEOUT : Z := 300.
Definition DEFAULT_START_TIMEOUT : Z := 60.
Definition DEFAULT_STOP_TIMEOUT : Z := 30.
Inductive ParseDurationError : Set := ParseDurationError_.

Definition from_secs (seconds : Z) : result ParseDurationError Z :=
  reject ParseDurationError_ when (seconds =? 0);
  Ok seconds.

Definition display (secs : Z) : string := dec secs +:+ "s".

Definition from_str (value : string) : result ParseDurationError Z :=
  number ← ok_or (strip_suffix "s" (trim value)) ParseDurationError_;
  reject ParseDurationError_ when (is_empty number || negb (all_bytes is_ascii_digit number));
  amount ← ok_or (parse_u u64_max number) ParseDurationError_;
  from_secs amount.

Definition wf (secs : Z) : Prop := 0 < secs ≤ u64_max.
End HumanDuration.

(** ** Byte sizes *)

Lemma MIB_pos : 0 < ByteSize.MIB ≤ u64_max.
Proof. by vm_compute. Qed.
Lemma GIB_MIB : ByteSize.GIB = 1024 * ByteSize.MIB.
Proof. done. Qed.

Lemma from_mib_wf v b : 0 ≤ v → ByteSize.from_mib v = Ok b → ByteSize.wf b ∧ b = v * ByteSize.MIB.
Proof.
  unfold ByteSize.from_mib, checked_mul. intros Hv [-> ?]%ok_or_Ok%try_from_u_Some.
  split; [|done]. split; [done|]. by rewrite Z.mod_mul.
Qed.
Lemma from_gib_wf v b : 0 ≤ v → ByteSize.from_gib v = Ok b → ByteSize.wf b ∧ b = v * ByteSize.GIB.
Proof.
  unfold ByteSize.from_gib, checked_mul. intros Hv [-> ?]%ok_or_Ok%try_from_u_Some.
  split; [|done]. split; [done|].
  rewrite GIB_MIB, Z.mul_assoc. by rewrite Z.mod_mul.
Qed.

Lemma digits_then_graphic s a :
  all_bytes is_ascii_digit s = true → is_ascii_graphic a = true →
  all_bytes is_ascii_graphic (s +:+ one a) = true.
Proof.
  intros Hs Ha. rewrite all_bytes_app. simpl. rewrite Ha.
  by rewrite (all_bytes_impl _ _ _ digit_graphic Hs).
Qed.
Lemma digits_trim s : all_bytes is_ascii_digit s = true → trim s = s.
Proof. intros. by apply trim_all_graphic, (all_bytes_impl _ _ _ digit_graphic). Qed.
Lemma digits_trim_unit s a :
  all_bytes is_ascii_digit s = true → is_ascii_graphic a = true →
  trim (s +:+ one a) = s +:+ one a.
Proof. intros. by apply trim_all_graphic, digits_then_graphic. Qed.

(** Parsing a rendered amount with its unit. *)
Lemma from_str_unit amount a multiplier :
  0 ≤ amount ≤ u64_max →
  (a = "G"%char ∧ multiplier = ByteSize.GIB ∨ a = "M"%char ∧ multiplier = ByteSize.MIB) →
  ByteSize.from_str (dec amount +:+ one a) =
  ok_or (checked_mul u64_max amount multiplier) ByteSize.ParseByteSizeError_.
Proof.
  intros Hn Ha. unfold ByteSize.from_str.
  rewrite digits_trim_unit by (first [apply dec_digits; lia | by destruct Ha as [[-> _]|[-> _]]]).
  unfold ByteSize.split_unit. rewrite last_byte_app, but_last_app. simpl.
  destruct Ha as [[-> ->]|[-> ->]]; simpl;
    rewrite (proj2 (is_empty_false _)) by (apply dec_ne; lia);
    rewrite dec_digits by lia; simpl; rewrite parse_dec by lia; reflexivity.
Qed.

(** every size the constructors build survives rendering and parsing. *)
Theorem byte_size_roundtrip b :
  ByteSize.wf b → ByteSize.from_str (ByteSize.display b) = Ok b.
Proof.
  intros [Hb Hm]. unfold ByteSize.display. pose proof MIB_pos.
  destruct (Z.eqb_spec (b mod ByteSize.GIB) 0) as [Hg|Hg].
  - assert (b = b / ByteSize.GIB * ByteSize.GIB) as Hdiv.
    { pose proof (Z.div_mod b ByteSize.GIB). rewrite GIB_MIB in *. lia. }
    assert (0 ≤ b / ByteSize.GIB ≤ u64_max) by (rewrite GIB_MIB in *; nia).
    change "G" with (one "G"). rewrite (from_str_unit _ _ ByteSize.GIB) by auto.
    unfold checked_mul. rewrite <- Hdiv, try_from_u_in by done. done.
  - assert (b = b / ByteSize.MIB * ByteSize.MIB) as Hdiv by (pose proof (Z.div_mod b ByteSize.MIB); lia).
    assert (0 ≤ b / ByteSize.MIB ≤ u64_max) by nia.
    change "M" with (one "M"). rewrite (from_str_unit _ _ ByteSize.MIB) by auto.
    unfold checked_mul. rewrite <- Hdiv, try_from_u_in by done. done.
Qed.

Lemma byte_size_roundtrip_witness :
  ByteSize.wf (1536 * ByteSize.MIB) ∧
  ByteSize.from_str (ByteSize.display (1536 * ByteSize.MIB)) = Ok (1536 * ByteSize.MIB).
Proof.
  assert (Hw : ByteSize.wf (1536 * ByteSize.MIB)) by (vm_compute; intuition discriminate).
  split; [exact Hw | exact (byte_size_roundtrip _ Hw)].
Defined.

Lemma parse_u_nonneg max s z : parse_u max s = Some z → 0 ≤ z.
Proof. intros H%parse_u_range. lia. Qed.

(** whatever text or number a size is read from, an accepted size is a whole
    number of MiB that fits a u64, so [as_mib] loses nothing. *)
Theorem byte_size_deserialize_wf v b :
  ByteSize.deserialize v = Ok b → ByteSize.wf b ∧ ByteSize.as_mib b * ByteSize.MIB = b.
Proof.
  assert (Hmib : ∀ b, ByteSize.wf b → ByteSize.as_mib b * ByteSize.MIB = b).
  { intros b' [_ Hm]. unfold ByteSize.as_mib. pose proof (Z.div_mod b' ByteSize.MIB).
    pose proof MIB_pos. lia. }
  assert (Hnum : ∀ v, ByteSize.from_mib v = Ok b → ByteSize.wf b).
  { intros n H. unfold ByteSize.from_mib, checked_mul in H.
    apply ok_or_Ok, try_from_u_Some in H as [-> ?]. pose proof MIB_pos.
    split; [lia|]. by rewrite Z.mod_mul. }
  intros Hv. assert (ByteSize.wf b) as Hw; [|auto]. destruct v as [v|v|v]; simpl in Hv.
  - eauto.
  - inv_ok. eauto.
  - unfold ByteSize.from_str in Hv. inv_ok. destruct r as [number multiplier].
    inv_ok. case_match.
    + eapply from_gib_wf; [|done]. by eapply parse_u_nonneg.
    + eauto.
Qed.
Lemma byte_size_deserialize_wf_witness :
  ByteSize.deserialize (ByteSize.visit_str "3g") = Ok 3221225472 ∧
  ByteSize.wf 3221225472 ∧ ByteSize.as_mib 3221225472 * ByteSize.MIB = 3221225472.
Proof.
  split; [reflexivity|]. apply (byte_size_deserialize_wf (ByteSize.visit_str "3g")). reflexivity.
Defined.

(** A bare number in TOML or JSON means the same as its digits in a string. *)
Lemma byte_size_integer_is_text v :
  0 ≤ v ≤ u64_max →
  ByteSize.deserialize (ByteSize.visit_u64 v) = ByteSize.deserialize (ByteSize.visit_str (dec v)).
Proof.
  intros Hv. simpl. unfold ByteSize.from_str.
  rewrite digits_trim by (apply dec_digits; lia).
  unfold ByteSize.split_unit.
  assert (∃ a, last_byte (dec v) = Some a ∧ is_ascii_digit a = true) as (a & -> & Ha).
  { destruct (dec_cons v) as (a & s & Hs & _); [lia|].
    pose proof (dec_digits v) as Hd. rewrite Hs in *. specialize (Hd ltac:(lia)).
    clear Hs. revert a Hd. induction s as [|b s IH]; intros a Hd; simpl in *; bool_props; eauto.
    destruct (IH b) as (c & ? & ?); [by bool_props|]. eauto. }
  assert (Ascii.eqb a "M" || Ascii.eqb a "m" = false ∧ Ascii.eqb a "G" || Ascii.eqb a "g" = false)
    as [-> ->] by (revert a Ha; by_bytes).
  rewrite Ha. simpl. rewrite (proj2 (is_empty_false _)) by (apply dec_ne; lia).
  rewrite dec_digits by lia. simpl. by rewrite parse_dec.
Qed.

(** ** MAC addresses *)

Lemma hex2_no_colon z : 0 ≤ z ≤ 255 → has_char ":" (hex2 z) = false.
Proof. intros [_ H]%hex2_spec. by apply (all_bytes_no_char is_ascii_alphanumeric). Qed.

Lemma split_hex2 m : m ≠ [] → bytes_ok m → split ":" (join ":" (hex2 <$> m)) = hex2 <$> m.
Proof.
  intros Hne Hm. apply split_join; [by destruct m|]. apply Forall_fmap.
  eapply Forall_impl; [done|]. intros z. apply hex2_no_colon.
Qed.
Lemma parse_octets_hex2 m rest :
  bytes_ok m → MacAddr.parse_octets (length m) ((hex2 <$> m) ++ rest) = Ok (m, rest).
Proof.
  induction 1 as [|z m Hz Hm IH]; [done|]. cbn -[hex2].
  rewrite (proj1 (hex2_spec z Hz)). cbn -[hex2]. by rewrite IH.
Qed.
Lemma parse_octets_Ok n parts m rest :
  MacAddr.parse_octets n parts = Ok (m, rest) →
  length m = n ∧ bytes_ok m ∧ length parts = (n + length rest)%nat.
Proof.
  revert parts m. induction n as [|n IH]; intros parts m H; simpl in H.
  - simplify_eq. split; [done|]. split; [constructor|done].
  - destruct parts as [|part parts]; [done|]. inv_ok. destruct r0 as [octets rest']. inv_ok.
    match goal with HR : MacAddr.parse_octets n parts = _ |- _ =>
      apply IH in HR as (<- & ? & Hp) end.
    match goal with HR : from_str_radix _ _ _ = Some _ |- _ =>
      apply from_str_radix_range in HR end.
    simpl. rewrite Hp. split; [done|]. split; [by constructor|done].
Qed.

(** rendering a MAC address and parsing it back is the identity. *)
Theorem mac_roundtrip m : MacAddr.wf m → MacAddr.from_str (MacAddr.display m) = Ok m.
Proof.
  intros [Hl Hm]. unfold MacAddr.from_str, MacAddr.display.
  rewrite split_hex2 by (try done; by destruct m).
  rewrite <- (app_nil_r (hex2 <$> m)), <- Hl, parse_octets_hex2 by done. done.
Qed.
Lemma mac_roundtrip_witness :
  MacAddr.wf [82; 84; 0; 154; 31; 195] ∧
  MacAddr.from_str (MacAddr.display [82; 84; 0; 154; 31; 195]) = Ok [82; 84; 0; 154; 31; 195].
Proof.
  assert (Hw : MacAddr.wf [82; 84; 0; 154; 31; 195]).
  { split; [reflexivity|]. repeat constructor; lia. }
  split; [exact Hw | exact (mac_roundtrip _ Hw)].
Defined.

Lemma mac_from_str_wf v m : MacAddr.from_str v = Ok m → MacAddr.wf m.
Proof.
  unfold MacAddr.from_str. intros. inv_ok. destruct r as [octets rest]. case_match; inv_ok.
  by apply parse_octets_Ok in H0 as (? & ? & _).
Qed.

Lemma hex_digit_value a : MacAddr.is_hex a = true → ∃ d, digit_value 16 a = Some d ∧ 0 ≤ d ≤ 15.
Proof. revert a. by_bytes. all: intros _; eexists; split; [reflexivity|split; vm_compute; discriminate]. Qed.
Lemma hex_pair_value p :
  len p = 2 → all_bytes MacAddr.is_hex p = true → ∃ z, from_str_radix u8_max 16 p = Some z.
Proof.
  intros Hl Hp. destruct p as [|a [|b [|c p]]]; unfold len in Hl; simpl in Hl; try lia.
  simpl in Hp. bool_props. unfold from_str_radix.
  destruct (hex_digit_value a) as (x & Hx & ?), (hex_digit_value b) as (y & Hy & ?); try done.
  assert (strip_prefix "+" (String a (String b "")) = None) as ->.
  { simpl. case_match eqn:He; [|done]. apply Ascii.eqb_eq in He as <-. done. }
  simpl. rewrite Hx. simpl. rewrite Hy. simpl.
  eexists. apply try_from_u_in. unfold u8_max. lia.
Qed.
Lemma parse_octets_hex parts :
  forallb (λ p, (len p =? 2) && all_bytes MacAddr.is_hex p) parts = true →
  ∃ m, MacAddr.parse_octets (length parts) parts = Ok (m, []).
Proof.
  induction parts as [|p parts IH]; intros H; simpl in *; [eauto|]. bool_props.
  destruct IH as [m Hm]; [done|]. destruct (hex_pair_value p) as [z Hz]; [lia|done|].
  rewrite (proj2 (Z.eqb_eq _ _)) by done. simpl. rewrite Hz. simpl. rewrite Hm. simpl. eauto.
Qed.
(** Everything the published schema admits, the parser accepts. *)
Lemma mac_schema_accepted v :
  MacAddr.schema_pattern v = true → ∃ m, MacAddr.from_str v = Ok m.
Proof.
  unfold MacAddr.schema_pattern, MacAddr.from_str. intros. bool_props.
  apply Nat.eqb_eq in H. rewrite <- H.
  destruct (parse_octets_hex (split ":" v)) as [m Hm]; [done|]. rewrite Hm. simpl. eauto.
Qed.

(** the parser accepts strictly more than the schema documents: a part such
    as [+2] is read as a signed hexadecimal number. *)
Theorem mac_parser_exceeds_schema :
  (∀ v, MacAddr.schema_pattern v = true → ∃ m, MacAddr.from_str v = Ok m) ∧
  MacAddr.from_str "+2:54:00:9a:1f:c3" = Ok [2; 84; 0; 154; 31; 195] ∧
  MacAddr.schema_pattern "+2:54:00:9a:1f:c3" = false.
Proof. split; [exact mac_schema_accepted|]. split; by vm_compute. Qed.

(** ** Firmware *)

Lemma firmware_path_Ok text f :
  Firmware.path text = Ok f ↔
  f = Firmware.Path text ∧ text ≠ "" ∧ text ≠ "auto" ∧ text ≠ "rhf" ∧ text ≠ "edk2".
Proof.
  unfold Firmware.path. rewrite reject_if_Ok. unfold is_empty.
  rewrite !orb_false_iff, !String.eqb_neq. naive_solver.
Qed.
(** a firmware selection survives rendering and parsing, and every parsed
    selection is one the constructors build: a reserved word is never a path. *)
Theorem firmware_roundtrip f :
  (Firmware.wf f → Firmware.from_str (Firmware.display f) = Ok f) ∧
  (∀ v, Firmware.from_str v = Ok f → Firmware.wf f ∧ Firmware.display f = v).
Proof.
  split.
  - destruct f as [| | |p]; try done. intros (? & ? & ? & ?). simpl. unfold Firmware.from_str.
    rewrite !(proj2 (String.eqb_neq p _)) by done. by apply firmware_path_Ok.
  - intros v. unfold Firmware.from_str.
    destruct (String.eqb_spec v "auto") as [->|?]; [by intros [= <-]|].
    destruct (String.eqb_spec v "rhf") as [->|?]; [by intros [= <-]|].
    destruct (String.eqb_spec v "edk2") as [->|?]; [by intros [= <-]|].
    by intros (-> & ?)%firmware_path_Ok.
Qed.
Lemma firmware_roundtrip_witness :
  Firmware.wf (Firmware.Path "./auto") ∧
  Firmware.from_str (Firmware.display (Firmware.Path "./auto")) = Ok (Firmware.Path "./auto").
Proof.
  assert (Hw : Firmware.wf (Firmware.Path "./auto")) by (repeat split; discriminate).
  split; [exact Hw | exact (proj1 (firmware_roundtrip (Firmware.Path "./auto")) Hw)].
Defined.

(** ** Durations *)

(** parsing accepts exactly positive u64 seconds, and rendering a duration
    parses back to it. *)
Theorem duration_roundtrip d :
  (HumanDuration.wf d → HumanDuration.from_str (HumanDuration.display d) = Ok d) ∧
  (∀ v, HumanDuration.from_str v = Ok d → HumanDuration.wf d).
Proof.
  split.
  - intros [? ?]. unfold HumanDuration.from_str, HumanDuration.display.
    change "s" with (one "s") at 2. rewrite digits_trim_unit by (auto; apply dec_digits; lia).
    rewrite strip_suffix_app. simpl. rewrite (proj2 (is_empty_false _)) by (apply dec_ne; lia).
    rewrite dec_digits by lia. simpl. rewrite parse_dec by lia. simpl.
    unfold HumanDuration.from_secs. by rewrite (proj2 (Z.eqb_neq d 0)) by lia.
  - intros v. unfold HumanDuration.from_str, HumanDuration.from_secs. intros. inv_ok.
    match goal with HR : parse_u _ _ = Some _ |- _ => apply parse_u_range in HR end.
    bool_props. unfold HumanDuration.wf. lia.
Qed.
Lemma duration_roundtrip_witness :
  HumanDuration.wf 90 ∧ HumanDuration.from_str (HumanDuration.display 90) = Ok 90.
Proof.
  assert (Hw : HumanDuration.wf 90) by (unfold HumanDuration.wf; vm_compute; intuition discriminate).
  split; [exact Hw | exact (proj1 (duration_roundtrip 90) Hw)].
Defined.
