(* ===== verification/IpAddr.v ===== *)
(** The part of [std::net] that port forwards use: parsing and rendering of
    [IpAddr].  The parser reads from the front of a string and returns what is
    left, as the standard library's does; [parse] then requires nothing left. *)
From S2P Require Import Prelude RustStr.
Open Scope Z_scope.

Inductive IpAddr : Set :=
  | V4 (octets : list Z)
  | V6 (segments : list Z).
#[export] Instance IpAddr_eq_dec : EqDecision IpAddr.
Proof. solve_decision. Defined.

(** ** Parsing *)

(** The longest prefix of digits, and what follows it. *)
Fixpoint span_digits (radix : Z) (s : string) : list Z * string :=
  match s with
  | EmptyString => ([], s)
  | String a t =>
      match digit_value radix a with
      | Some d => let '(ds, r) := span_digits radix t in (d :: ds, r)
      | None => ([], s)
      end
  end.

Definition read_number (radix : Z) (max_digits : nat) (allow_zero_prefix : bool) (max : Z)
    (s : string) : option (Z * string) :=
  let '(ds, rest) := span_digits radix s in
  if (max_digits <? length ds)%nat then None
  else if (length ds =? 0)%nat then None
  else if negb allow_zero_prefix && (if first_byte s is Some "0"%char then true else false) &&
          (1 <? length ds)%nat then None
  else v ← try_from_u max (foldl (λ acc d, acc * radix + d) 0 ds); Some (v, rest).

Definition read_given_char (c : ascii) (s : string) : option string := strip_prefix (one c) s.

(** [read_separator(sep, index, inner)]: the separator precedes every item but the first. *)
Definition read_separator {A} (sep : ascii) (index : nat) (inner : string → option (A * string))
    (s : string) : option (A * string) :=
  match index with
  | O => inner s
  | S _ => s ← read_given_char sep s; inner s
  end.

Fixpoint read_octets (n index : nat) (s : string) : option (list Z * string) :=
  match n with
  | O => Some ([], s)
  | S n => '(o, s) ← read_separator "." index (read_number 10 3 false 255) s;
           '(os, s) ← read_octets n (S index) s;
           Some (o :: os, s)
  end.
Definition read_ipv4_addr (s : string) : option (list Z * string) := read_octets 4 0 s.

(** Reads at most [limit - i] further groups, and whether the last two came from
    an embedded IPv4 address. *)
Fixpoint read_groups (n i : nat) (s : string) : (list Z * bool) * string :=
  match n with
  | O => (([], false), s)
  | S m =>
      match (if (0 <? m)%nat then read_separator ":" i read_ipv4_addr s else None) with
      | Some ([a; b; c; d], s) => (([a * 256 + b; c * 256 + d], true), s)
      | _ =>
          match read_separator ":" i (read_number 16 4 true 65535) s with
          | Some (g, s) => let '((gs, v4), s) := read_groups m (S i) s in ((g :: gs, v4), s)
          | None => (([], false), s)
          end
      end
  end.

Definition read_ipv6_addr (s : string) : option (list Z * string) :=
  let '((head, head_ipv4), s) := read_groups 8 0 s in
  if (length head =? 8)%nat then Some (head, s)
  else if head_ipv4 then None
  else
    s ← read_given_char ":" s;
    s ← read_given_char ":" s;
    let limit := (8 - (length head + 1))%nat in
    let '((tail, _), s) := read_groups limit 0 s in
    Some (head ++ replicate (8 - length head - length tail) 0 ++ tail, s).

Definition read_ip_addr (s : string) : option (IpAddr * string) :=
  match read_ipv4_addr s with
  | Some (o, s) => Some (V4 o, s)
  | None => '(g, s) ← read_ipv6_addr s; Some (V6 g, s)
  end.

Definition parse (s : string) : option IpAddr :=
  '(a, rest) ← read_ip_addr s; if is_empty rest then Some a else None.

(** ** Rendering *)

Definition display_v4 (o : list Z) : string := join "." (dec <$> o).

(** [{:x}] of a u16. *)
Definition hex_u16 (z : Z) : string :=
  if z <? 16 then one (hex_digit z)
  else if z <? 256 then String (hex_digit (z / 16)) (one (hex_digit (z mod 16)))
  else if z <? 4096 then
    String (hex_digit (z / 256)) (String (hex_digit (z / 16 mod 16)) (one (hex_digit (z mod 16))))
  else String (hex_digit (z / 4096)) (String (hex_digit (z / 256 mod 16))
         (String (hex_digit (z / 16 mod 16)) (one (hex_digit (z mod 16))))).

(** Start and length of the longest run of zero segments, the first of equals:
    [(i, current, longest)] as the loop holds them. *)
Fixpoint longest_zero_run (i : nat) (current longest : nat * nat) (l : list Z) : nat * nat :=
  match l with
  | [] => longest
  | z :: l =>
      if z =? 0 then
        let start := if (current.2 =? 0)%nat then i else current.1 in
        let current := (start, S current.2) in
        longest_zero_run (S i) current (if (longest.2 <? current.2)%nat then current else longest) l
      else longest_zero_run (S i) (0%nat, 0%nat) longest l
  end.

Definition display_groups (l : list Z) : string := join ":" (hex_u16 <$> l).

Definition display_v6 (g : list Z) : string :=
  match g with
  | [0; 0; 0; 0; 0; 65535; ab; cd] =>
      "::ffff:" +:+ display_v4 [ab / 256; ab mod 256; cd / 256; cd mod 256]
  | _ =>
      let '(start, n) := longest_zero_run 0 (0, 0)%nat (0, 0)%nat g in
      if (1 <? n)%nat
      then display_groups (take start g) +:+ "::" +:+ display_groups (drop (start + n) g)
      else display_groups g
  end.

Definition display (a : IpAddr) : string :=
  match a with V4 o => display_v4 o | V6 g => display_v6 g end.

Definition wf (a : IpAddr) : Prop :=
  match a with
  | V4 o => length o = 4%nat ∧ bytes_ok o
  | V6 g => length g = 8%nat ∧ Forall (λ z, 0 ≤ z ≤ u16_max) g
  end.

Lemma read_given_char_cons c s : read_given_char c (String c s) = Some s.
Proof. apply (strip_prefix_app (one c) s). Qed.

(** ** Reading numbers back *)

(** [r] cannot extend a number in this radix. *)
Definition stops (radix : Z) (r : string) : Prop :=
  match r with EmptyString => True | String a _ => digit_value radix a = None end.

Lemma span_digits_app radix s ds r :
  span_digits radix s = (ds, "") → stops radix r → span_digits radix (s +:+ r) = (ds, r).
Proof.
  intros Hs Hr. revert ds Hs. induction s as [|a s IH]; intros ds; simpl.
  - intros [= <-]. rewrite app_empty_l. destruct r; simpl in *; [done|]. by rewrite Hr.
  - destruct (digit_value radix a); [|done].
    destruct (span_digits radix s) as [ds' r'] eqn:Hs. intros [= <- ->].
    by rewrite (IH ds').
Qed.
Lemma read_number_app radix k z max s v r :
  read_number radix k z max s = Some (v, "") → stops radix r →
  read_number radix k z max (s +:+ r) = Some (v, r).
Proof.
  unfold read_number. intros H Hr. destruct (span_digits radix s) as [ds rest] eqn:Hs.
  assert (rest = "") as -> by (repeat case_match; try done; by simplify_option_eq).
  rewrite (span_digits_app _ _ _ _ Hs Hr). revert H.
  destruct s as [|a s]; [by simplify_eq/=|]. rewrite app_cons. simpl.
  repeat case_match; try done; intros; by simplify_option_eq.
Qed.
Lemma read_number_suffix radix k z max s v r :
  read_number radix k z max s = Some (v, r) → ∃ p, s = p +:+ r.
Proof.
  unfold read_number. destruct (span_digits radix s) as [ds rest] eqn:Hs. intros H.
  assert (rest = r) as -> by (repeat case_match; try done; by simplify_option_eq).
  clear H. revert ds Hs. induction s as [|a s IH]; intros ds; simpl.
  - intros [= <- <-]. by exists "".
  - destruct (digit_value radix a); [|intros [= <- <-]; by exists ""].
    destruct (span_digits radix s) as [ds' r'] eqn:Hs. intros [= <- ->].
    destruct (IH ds' eq_refl) as [p ->]. by exists (String a p).
Qed.
Lemma read_number_stopped radix k z max r : stops radix r → read_number radix k z max r = None.
Proof.
  intros. unfold read_number. replace (span_digits radix r) with (@nil Z, r).
  - by destruct (k <? 0)%nat.
  - destruct r as [|a r]; [done|]. simpl in *. by case_match.
Qed.

Lemma read_octet_table :
  forallb (λ n, bool_decide (read_number 10 3 false 255 (dec (Z.of_nat n)) = Some (Z.of_nat n, "")))
    (seq 0 256) = true.
Proof. by vm_compute. Qed.
Lemma read_octet z r :
  0 ≤ z ≤ 255 → stops 10 r → read_number 10 3 false 255 (dec z +:+ r) = Some (z, r).
Proof.
  intros Hz Hr. apply read_number_app; [|done].
  pose proof read_octet_table as H. rewrite forallb_forall in H.
  specialize (H (Z.to_nat z)). rewrite in_seq, Z2Nat.id in H by lia.
  specialize (H ltac:(lia)). by bool_props.
Qed.

Lemma hex_digit_table :
  forallb (λ n, bool_decide (digit_value 16 (hex_digit (Z.of_nat n)) = Some (Z.of_nat n)) &&
                negb (Ascii.eqb (hex_digit (Z.of_nat n)) ".") &&
                negb (Ascii.eqb (hex_digit (Z.of_nat n)) ":"))
    (seq 0 16) = true.
Proof. by vm_compute. Qed.
Lemma hex_digit_spec d :
  0 ≤ d < 16 → digit_value 16 (hex_digit d) = Some d ∧ hex_digit d ≠ "."%char ∧ hex_digit d ≠ ":"%char.
Proof.
  intros Hd. pose proof hex_digit_table as H. rewrite forallb_forall in H.
  specialize (H (Z.to_nat d)). rewrite in_seq, Z2Nat.id in H by lia.
  specialize (H ltac:(lia)). bool_props.
  split; [done|]. split; by apply Ascii.eqb_neq.
Qed.

Lemma read_group_digits s ds v :
  span_digits 16 s = (ds, "") → (0 < length ds ≤ 4)%nat →
  foldl (λ acc d, acc * 16 + d) 0 ds = v → 0 ≤ v ≤ 65535 →
  read_number 16 4 true 65535 s = Some (v, "").
Proof.
  intros Hs Hl Hv ?. unfold read_number. rewrite Hs.
  rewrite (proj2 (Nat.ltb_ge _ _)), (proj2 (Nat.eqb_neq _ _)) by lia. simpl.
  by rewrite Hv, try_from_u_in.
Qed.
Lemma hex_u16_spec z :
  0 ≤ z ≤ 65535 →
  read_number 16 4 true 65535 (hex_u16 z) = Some (z, "") ∧ has_char "." (hex_u16 z) = false.
Proof.
  intros Hz.
  assert (Hdig : ∀ d, 0 ≤ d < 16 → digit_value 16 (hex_digit d) = Some d) by
    (intros; by apply hex_digit_spec).
  assert (Hdot : ∀ d, 0 ≤ d < 16 → Ascii.eqb (hex_digit d) "." = false) by
    (intros; by apply Ascii.eqb_neq, hex_digit_spec).
  pose proof (Z.mod_pos_bound z 16). pose proof (Z.mod_pos_bound (z / 16) 16).
  pose proof (Z.mod_pos_bound (z / 256) 16).
  pose proof (Z.div_mod z 16). pose proof (Z.div_mod (z / 16) 16). pose proof (Z.div_mod (z / 256) 16).
  assert (z / 16 / 16 = z / 256) by (rewrite Z.div_div by lia; f_equal; lia).
  assert (z / 256 / 16 = z / 4096) by (rewrite Z.div_div by lia; f_equal; lia).
  pose proof (Z.div_pos z 16). pose proof (Z.div_pos z 256). pose proof (Z.div_pos z 4096).
  unfold hex_u16. repeat case_match; bool_props; split;
    try (simpl; rewrite !Hdot by lia; reflexivity);
    (eapply read_group_digits; [simpl; rewrite !Hdig by lia; reflexivity|simpl; lia|simpl; lia|lia]).
Qed.

(** ** IPv4 *)

Fixpoint octet_text (index : nat) (l : list Z) : string :=
  match l with
  | [] => ""
  | z :: l => (if (index =? 0)%nat then "" else ".") +:+ dec z +:+ octet_text (S index) l
  end.
Lemma octet_text_join i l : octet_text (S i) l = match l with [] => "" | _ => String "." (join "." (dec <$> l)) end.
Proof.
  revert i. induction l as [|z l IH]; intros i; [done|]. cbn [octet_text Nat.eqb fmap list_fmap].
  rewrite IH. destruct l as [|y l]; [by rewrite app_empty_r|done].
Qed.
Lemma display_v4_text l : display_v4 l = octet_text 0 l.
Proof.
  unfold display_v4. destruct l as [|z l]; [done|]. cbn [octet_text Nat.eqb].
  rewrite octet_text_join, app_empty_l. destruct l; [by rewrite app_empty_r|done].
Qed.

Lemma octet_text_stops i l r : stops 10 r → stops 10 (octet_text (S i) l +:+ r).
Proof. destruct l; [done|]. intros. by rewrite octet_text_join. Qed.
Lemma read_octets_text i l r :
  bytes_ok l → stops 10 r → read_octets (length l) i (octet_text i l +:+ r) = Some (l, r).
Proof.
  intros Hl Hr. revert i. induction Hl as [|z l Hz Hl IH]; intros i; [done|].
  cbn [length read_octets]. specialize (IH (S i)).
  pose proof (octet_text_stops i l r Hr) as Hs.
  assert (read_separator "." i (read_number 10 3 false 255) (octet_text i (z :: l) +:+ r)
          = Some (z, octet_text (S i) l +:+ r)) as ->.
  { cbn [octet_text]. destruct i as [|i]; cbn [Nat.eqb read_separator]; str_norm.
    - by apply read_octet.
    - rewrite read_given_char_cons. simpl. by apply read_octet. }
  simpl. rewrite IH. done.
Qed.
Lemma read_ipv4_display o r :
  length o = 4%nat → bytes_ok o → stops 10 r → read_ipv4_addr (display_v4 o +:+ r) = Some (o, r).
Proof.
  intros Hl Ho Hr. unfold read_ipv4_addr. rewrite display_v4_text, <- Hl.
  by apply read_octets_text.
Qed.
(** Without a dot there is no IPv4 address. *)
Lemma read_ipv4_no_dot s : has_char "." s = false → read_ipv4_addr s = None.
Proof.
  intros Hs. unfold read_ipv4_addr. cbn [read_octets read_separator].
  destruct (read_number 10 3 false 255 s) as [[v r]|] eqn:Hr; [|done]. simpl.
  apply read_number_suffix in Hr as [p ->].
  rewrite has_char_app in Hs. apply orb_false_iff in Hs as [_ Hs].
  unfold read_given_char. destruct (strip_prefix (one ".") r) as [t|] eqn:Ht; [|done].
  apply strip_prefix_Some in Ht as ->. done.
Qed.

(** ** IPv6 *)

Fixpoint group_text (index : nat) (l : list Z) : string :=
  match l with
  | [] => ""
  | z :: l => (if (index =? 0)%nat then "" else ":") +:+ hex_u16 z +:+ group_text (S index) l
  end.
Lemma group_text_join i l :
  group_text (S i) l = match l with [] => "" | _ => String ":" (display_groups l) end.
Proof.
  revert i. induction l as [|z l IH]; intros i; [done|]. cbn [group_text Nat.eqb].
  rewrite IH. unfold display_groups. destruct l as [|y l]; [by rewrite app_empty_r|done].
Qed.
Lemma display_groups_text l : display_groups l = group_text 0 l.
Proof.
  destruct l as [|z l]; [done|]. cbn [group_text Nat.eqb].
  rewrite group_text_join, app_empty_l. unfold display_groups.
  destruct l; [by rewrite app_empty_r|done].
Qed.
Lemma group_text_no_dot i l :
  Forall (λ z, 0 ≤ z ≤ u16_max) l → has_char "." (group_text i l) = false.
Proof.
  intros Hl. revert i. induction Hl as [|z l Hz Hl IH]; intros i; [done|].
  cbn [group_text]. rewrite !has_char_app, IH, (proj2 (hex_u16_spec z Hz)). by destruct i.
Qed.
Lemma group_text_stops i l r : stops 16 r → stops 16 (group_text (S i) l +:+ r).
Proof. destruct l; [done|]. intros. by rewrite group_text_join. Qed.

Lemma read_group_text i z r :
  0 ≤ z ≤ u16_max → stops 16 r →
  read_separator ":" i (read_number 16 4 true 65535)
    (((if (i =? 0)%nat then "" else ":") +:+ hex_u16 z) +:+ r) = Some (z, r).
Proof.
  intros Hz Hr. destruct i as [|i]; cbn [Nat.eqb read_separator]; str_norm.
  - apply read_number_app; [|done]. by apply hex_u16_spec.
  - rewrite read_given_char_cons. simpl.
    apply read_number_app; [|done]. by apply hex_u16_spec.
Qed.
Lemma read_ipv4_sep_no_dot i s : has_char "." s = false → read_separator ":" i read_ipv4_addr s = None.
Proof.
  intros Hs. destruct i as [|i]; simpl; [by apply read_ipv4_no_dot|].
  unfold read_given_char. destruct (strip_prefix (one ":") s) as [t|] eqn:Ht; [|done].
  apply strip_prefix_Some in Ht as ->. simpl. apply read_ipv4_no_dot.
  by rewrite has_char_app in Hs; apply orb_false_iff in Hs as [_ Hs].
Qed.

(** What follows the groups cannot be read as one more of them. *)
Definition groups_end (i : nat) (r : string) : Prop :=
  read_separator ":" i (read_number 16 4 true 65535) r = None.

Lemma read_groups_text n i l r :
  Forall (λ z, 0 ≤ z ≤ u16_max) l → has_char "." r = false → stops 16 r →
  (length l = n ∨ (length l < n)%nat ∧ groups_end (i + length l) r) →
  read_groups n i (group_text i l +:+ r) = ((l, false), r).
Proof.
  intros Hl Hdot Hr. revert i n. induction Hl as [|z l Hz Hl IH]; intros i n Hn.
  - destruct n as [|n]; [done|]. destruct Hn as [|[_ Hn]]; [done|].
    cbn [group_text read_groups]. rewrite app_empty_l, Nat.add_0_r in *.
    rewrite read_ipv4_sep_no_dot by done. rewrite Hn. by destruct (0 <? n)%nat.
  - destruct n as [|n]; [simpl in Hn; lia|]. cbn [read_groups].
    rewrite (read_ipv4_sep_no_dot i) by (by rewrite has_char_app, group_text_no_dot by (by constructor)).
    assert (read_separator ":" i (read_number 16 4 true 65535) (group_text i (z :: l) +:+ r)
            = Some (z, group_text (S i) l +:+ r)) as Hread.
    { cbn [group_text]. rewrite <- (app_assoc_str _ (hex_u16 z)), (app_assoc_str (_ +:+ hex_u16 z)).
      apply read_group_text; [done|]. by apply group_text_stops. }
    rewrite Hread, (IH (S i) n).
    + by destruct (0 <? n)%nat.
    + simpl in Hn. rewrite Nat.add_succ_r in Hn. simpl. destruct Hn as [?|[??]]; [left|right]; [lia|split; [lia|done]].
Qed.
Lemma groups_end_empty i : groups_end i "".
Proof. by destruct i. Qed.
Lemma groups_end_colons i t : groups_end i ("::" +:+ t).
Proof.
  unfold groups_end. destruct i; cbn [read_separator].
  - by apply read_number_stopped.
  - str_norm. rewrite read_given_char_cons. simpl. by apply read_number_stopped.
Qed.

(** A recorded run really is a run of zeros of the segments seen so far. *)
Definition zero_run (run : nat * nat) (p : list Z) : Prop :=
  run.2 = 0%nat ∨ ∃ a b, p = a ++ replicate run.2 0 ++ b ∧ length a = run.1.

Lemma zero_run_app run p l : zero_run run p → zero_run run (p ++ l).
Proof.
  intros [?|(a & b & -> & ?)]; [by left|right]. exists a, (b ++ l).
  by rewrite <- !app_assoc.
Qed.
(** The current run ends where the segments seen so far end. *)
Definition open_run (run : nat * nat) (p : list Z) : Prop :=
  run.2 = 0%nat ∨ ∃ a, p = a ++ replicate run.2 0 ∧ length a = run.1.
Lemma open_run_zero_run run p : open_run run p → zero_run run p.
Proof. intros [?|(a & -> & ?)]; [by left|right]. exists a, []. by rewrite app_nil_r. Qed.
Lemma open_run_extend run p :
  open_run run p →
  open_run (if (run.2 =? 0)%nat then length p else run.1, S run.2) (p ++ [0]).
Proof.
  intros Hr. right. simpl. destruct run as [s n]; simpl in *.
  destruct (Nat.eqb_spec n 0) as [->|Hn]; [by exists p|].
  destruct Hr as [?|(a & -> & Ha)]; [done|]. exists a. split; [|done].
  simpl in *. rewrite <- app_assoc. f_equal. change (0 :: replicate n 0) with (replicate (S n) 0).
  by rewrite replicate_S_end.
Qed.

Lemma longest_zero_run_spec cur lon p l :
  open_run cur p → zero_run lon p → zero_run (longest_zero_run (length p) cur lon l) (p ++ l).
Proof.
  revert cur lon p. induction l as [|z l IH]; intros cur lon p Hc Hl; simpl.
  - by rewrite app_nil_r.
  - replace (p ++ z :: l) with ((p ++ [z]) ++ l) by (by rewrite <- app_assoc).
    replace (S (length p)) with (length (p ++ [z])) by (rewrite length_app; simpl; lia).
    destruct (Z.eqb_spec z 0) as [->|Hz].
    + pose proof (open_run_extend cur p Hc) as He. apply IH; [done|].
      match goal with |- zero_run (if ?b then _ else _) _ => destruct b end;
        [by apply open_run_zero_run|by apply zero_run_app].
    + apply IH; [by left|by apply zero_run_app].
Qed.

Lemma zero_run_split g s n :
  zero_run (s, n) g → (0 < n)%nat → g = take s g ++ replicate n 0 ++ drop (s + n) g.
Proof.
  intros [?|(a & b & -> & Ha)] Hn; simpl in *; [lia|]. subst s.
  rewrite take_app_length. f_equal. f_equal.
  rewrite app_assoc, drop_app_ge by (rewrite length_app, length_replicate; lia).
  by rewrite length_app, length_replicate, Nat.sub_diag, drop_0.
Qed.

Lemma read_ipv6_groups g :
  length g = 8%nat → Forall (λ z, 0 ≤ z ≤ u16_max) g →
  read_ipv6_addr (display_groups g) = Some (g, "").
Proof.
  intros Hl Hg. unfold read_ipv6_addr. rewrite display_groups_text, <- (app_empty_r (group_text 0 g)).
  rewrite (read_groups_text 8 0 g "") by (first [done | by left]). by rewrite Hl.
Qed.
Lemma read_ipv6_elided h n t :
  (length h + n + length t = 8)%nat → (1 < n)%nat →
  Forall (λ z, 0 ≤ z ≤ u16_max) h → Forall (λ z, 0 ≤ z ≤ u16_max) t →
  read_ipv6_addr (display_groups h +:+ "::" +:+ display_groups t) = Some (h ++ replicate n 0 ++ t, "").
Proof.
  intros Hl Hn Hh Ht. unfold read_ipv6_addr. rewrite !display_groups_text.
  rewrite (read_groups_text 8 0 h).
  - rewrite (proj2 (Nat.eqb_neq _ _)) by lia. str_norm.
    rewrite read_given_char_cons. simpl.
    rewrite <- (app_empty_r (group_text 0 t)).
    rewrite (read_groups_text (8 - (length h + 1)) 0 t "").
    + by replace (8 - length h - length t)%nat with n by lia.
    + done.
    + done.
    + done.
    + right. split; [lia|]. apply groups_end_empty.
  - done.
  - by rewrite has_char_app, group_text_no_dot.
  - done.
  - right. split; [lia|]. apply groups_end_colons.
Qed.
Lemma read_groups_v4 m i s a b c d r :
  (0 < m)%nat → read_separator ":" i read_ipv4_addr s = Some ([a; b; c; d], r) →
  read_groups (S m) i s = (([a * 256 + b; c * 256 + d], true), r).
Proof. intros Hm%Nat.ltb_lt Hs. cbn [read_groups]. by rewrite Hm, Hs. Qed.
Lemma read_groups_number m i s g r :
  read_separator ":" i read_ipv4_addr s = None → read_separator ":" i (read_number 16 4 true 65535) s = Some (g, r) →
  read_groups (S m) i s = let '((gs, v4), r) := read_groups m (S i) r in ((g :: gs, v4), r).
Proof. intros Hv Hs. cbn [read_groups]. rewrite Hv, Hs. by destruct (0 <? m)%nat. Qed.
Lemma read_ipv6_mapped a b c d :
  bytes_ok [a; b; c; d] →
  read_ipv6_addr ("::ffff:" +:+ display_v4 [a; b; c; d]) =
  Some ([0; 0; 0; 0; 0; 65535; a * 256 + b; c * 256 + d], "").
Proof.
  intros Hb. unfold read_ipv6_addr.
  change ("::ffff:" +:+ display_v4 [a; b; c; d]) with
    (String ":" (String ":" ("ffff" +:+ String ":" (display_v4 [a; b; c; d])))).
  set (t := "ffff" +:+ String ":" (display_v4 [a; b; c; d])).
  assert (read_groups 8 0 (String ":" (String ":" t)) = (([], false), String ":" (String ":" t))) as ->.
  { reflexivity. }
  cbn -[read_groups]. change (":" =? ":")%char with true. cbn -[read_groups].
  change (":" =? ":")%char with true. cbn -[read_groups].
  assert (read_groups 7 0 t = (([65535; a * 256 + b; c * 256 + d], true), "")) as ->; [|reflexivity].
  subst t.
  rewrite (read_groups_number 6 0 _ 65535 (String ":" (display_v4 [a; b; c; d]))), (read_groups_v4 5 1 _ a b c d "").
  - done.
  - lia.
  - cbn [read_separator]. rewrite read_given_char_cons, <- (app_empty_r (display_v4 [a; b; c; d])).
    by apply read_ipv4_display.
  - reflexivity.
  - cbn [read_separator]. by rewrite (read_number_app 16 4 true 65535 "ffff" 65535) by reflexivity.
Qed.

Lemma display_v6_no_dot g :
  Forall (λ z, 0 ≤ z ≤ u16_max) g → has_char "." (display_groups g) = false.
Proof. intros. rewrite display_groups_text. by apply group_text_no_dot. Qed.

Definition mapped (g : list Z) : bool :=
  match g with [0; 0; 0; 0; 0; 65535; _; _] => true | _ => false end.

Lemma display_v6_not_mapped g :
  mapped g = false →
  display_v6 g =
    let '(start, n) := longest_zero_run 0 (0, 0)%nat (0, 0)%nat g in
    if (1 <? n)%nat
    then display_groups (take start g) +:+ "::" +:+ display_groups (drop (start + n) g)
    else display_groups g.
Proof. intros H. unfold display_v6. unfold mapped in H. repeat (case_match; try done). Qed.

Lemma read_ip_v6_plain g :
  length g = 8%nat → Forall (λ z, 0 ≤ z ≤ u16_max) g → mapped g = false →
  read_ip_addr (display_v6 g) = Some (V6 g, "").
Proof.
  intros Hl Hg Hm. rewrite display_v6_not_mapped by done.
  pose proof (longest_zero_run_spec (0, 0)%nat (0, 0)%nat [] g) as Hrun. simpl in Hrun.
  destruct (longest_zero_run 0 (0, 0)%nat (0, 0)%nat g) as [s n].
  specialize (Hrun ltac:(by left) ltac:(by left)).
  unfold read_ip_addr. destruct (Nat.ltb_spec 1 n) as [Hn|Hn].
  - apply zero_run_split in Hrun; [|lia].
    assert (Forall (λ z, 0 ≤ z ≤ u16_max) (take s g)) by (by apply Forall_take).
    assert (Forall (λ z, 0 ≤ z ≤ u16_max) (drop (s + n) g)) by (by apply Forall_drop).
    rewrite read_ipv4_no_dot by (rewrite !has_char_app, !display_v6_no_dot by done; done).
    rewrite (read_ipv6_elided (take s g) n (drop (s + n) g)); [|..|done|done].
    + simpl. by rewrite <- Hrun.
    + apply (f_equal length) in Hrun. rewrite !length_app, length_replicate in Hrun. lia.
    + done.
  - rewrite read_ipv4_no_dot by (by apply display_v6_no_dot). by rewrite read_ipv6_groups.
Qed.
Lemma read_ip_v6_mapped g :
  length g = 8%nat → Forall (λ z, 0 ≤ z ≤ u16_max) g → mapped g = true →
  read_ip_addr (display_v6 g) = Some (V6 g, "").
Proof.
  intros Hl Hg Hm. unfold mapped in Hm. repeat (case_match; try done). subst.
  simpl in Hg. rewrite !Forall_cons in Hg. destruct Hg as (_ & _ & _ & _ & _ & _ & Hx & Hy & _).
  unfold u16_max in *. match goal with |- context [V6 [0;0;0;0;0;65535;?x;?y]] => rename x into ab, y into cd end.
  assert (Hb : bytes_ok [ab / 256; ab mod 256; cd / 256; cd mod 256]).
  { pose proof (Z.mod_pos_bound ab 256). pose proof (Z.mod_pos_bound cd 256).
    pose proof (Z.div_mod ab 256). pose proof (Z.div_mod cd 256).
    repeat constructor; lia. }
  unfold read_ip_addr, display_v6.
  assert (read_ipv4_addr ("::ffff:" +:+ display_v4 [ab / 256; ab mod 256; cd / 256; cd mod 256]) = None)
    as -> by reflexivity.
  rewrite read_ipv6_mapped by done. simpl. do 3 f_equal.
  pose proof (Z.div_mod ab 256). pose proof (Z.div_mod cd 256). repeat f_equal; lia.
Qed.

(** Every address the standard library can hold survives rendering and parsing. *)
Lemma parse_display a : wf a → parse (display a) = Some a.
Proof.
  unfold parse. destruct a as [o|g]; intros [Hl Ha]; simpl.
  - unfold read_ip_addr. rewrite <- (app_empty_r (display_v4 o)), read_ipv4_display by done. done.
  - destruct (mapped g) eqn:Hm.
    + rewrite read_ip_v6_mapped by done. done.
    + rewrite read_ip_v6_plain by done. done.
Qed.

(** ** What is parsed is well formed *)

Lemma read_number_range radix k z max s v r :
  read_number radix k z max s = Some (v, r) → 0 ≤ v ≤ max.
Proof.
  unfold read_number. destruct (span_digits radix s). repeat case_match; try done;
    intros (x & Hx & [= <- <-])%bind_Some; by apply try_from_u_Some in Hx as [-> ?].
Qed.
Lemma read_separator_inner {A} sep i (inner : string → option (A * string)) s p :
  read_separator sep i inner s = Some p → ∃ t, inner t = Some p.
Proof. destruct i; simpl; [eauto|]. intros (t & _ & ?)%bind_Some. eauto. Qed.
Lemma read_octets_wf n i s o r :
  read_octets n i s = Some (o, r) → length o = n ∧ bytes_ok o.
Proof.
  revert i s o r. induction n as [|n IH]; intros i s o r; cbn [read_octets].
  - intros [= <- _]. split; [done|constructor].
  - intros ([v t] & Hv & ([os u] & Hos & [= <- _])%bind_Some)%bind_Some.
    apply IH in Hos as [<- ?]. apply read_separator_inner in Hv as [t' Hv%read_number_range].
    split; [done|]. by constructor.
Qed.
Lemma read_groups_wf n i s gs v4 r :
  read_groups n i s = ((gs, v4), r) → (length gs ≤ n)%nat ∧ Forall (λ z, 0 ≤ z ≤ u16_max) gs.
Proof.
  revert i s gs v4 r. induction n as [|n IH]; intros i s gs v4 r; cbn [read_groups].
  - intros [= <- _ _]. split; [done|constructor].
  - destruct (if (0 <? n)%nat then read_separator ":" i read_ipv4_addr s else None) as [[o t]|] eqn:Ho.
    + destruct (0 <? n)%nat eqn:Hn; [|done]. apply Nat.ltb_lt in Hn.
      apply read_separator_inner in Ho as [t' [Hl Hb]%read_octets_wf].
      destruct o as [|a [|b [|c [|d [|]]]]]; try done. intros [= <- _ _].
      unfold bytes_ok in Hb. rewrite !Forall_cons in Hb. unfold u16_max. simpl.
      split; [lia|]. repeat constructor; lia.
    + destruct (read_separator ":" i (read_number 16 4 true 65535) s) as [[g t]|] eqn:Hg.
      * destruct (read_groups n (S i) t) as [[gs' v'] u] eqn:Hgs. intros [= <- _ _].
        apply IH in Hgs as [??]. apply read_separator_inner in Hg as [t' Hg%read_number_range].
        simpl. split; [lia|]. by constructor.
      * intros [= <- _ _]. simpl. split; [lia|constructor].
Qed.
Lemma read_ipv6_wf s g r :
  read_ipv6_addr s = Some (g, r) → length g = 8%nat ∧ Forall (λ z, 0 ≤ z ≤ u16_max) g.
Proof.
  unfold read_ipv6_addr. destruct (read_groups 8 0 s) as [[h v4] t] eqn:Hh.
  apply read_groups_wf in Hh as [Hl Hh].
  destruct (Nat.eqb_spec (length h) 8) as [He|He]; [by intros [= <- _]|].
  destruct v4; [done|]. intros (u & _ & (w & _ & H)%bind_Some)%bind_Some.
  destruct (read_groups (8 - (length h + 1)) 0 w) as [[tl v] x] eqn:Ht.
  apply read_groups_wf in Ht as [Hlt Ht]. injection H as <- _.
  rewrite !length_app, length_replicate. split; [lia|].
  rewrite !Forall_app. split; [done|]. split; [|done].
  apply Forall_replicate. unfold u16_max. lia.
Qed.
Lemma parse_wf s a : parse s = Some a → wf a.
Proof.
  unfold parse, read_ip_addr. intros ([a' r] & H & Ha)%bind_Some. case_match; [|done].
  injection Ha as <-. destruct (read_ipv4_addr s) as [[o t]|] eqn:Ho.
  - injection H as <- _. by apply read_octets_wf in Ho.
  - apply bind_Some in H as ([g t] & Hg & [= <- _]). by apply read_ipv6_wf in Hg.
Qed.
