(* ===== verification/Ports.v ===== *)
(** Port forwards ([firestone-core/src/spec/port_forward.rs]) and log sources
    ([firestone-core/src/action.rs]). *)
From S2P Require Import Prelude RustStr IpAddr.
Open Scope Z_scope.

Inductive Protocol : Set := Tcp | Udp.
#[export] Instance Protocol_eq_dec : EqDecision Protocol.
Proof. solve_decision. Defined.

Record PortRange : Set := { start : Z; end_ : Z }.
#[export] Instance PortRange_eq_dec : EqDecision PortRange.
Proof. solve_decision. Defined.

Inductive ParsePortForwardError : Set :=
  | InvalidSyntax
  | InvalidProtocol (value : string)
  | InvalidBind (value : string)
  | InvalidPort (component value : string)
  | InvertedRange (component : string) (start end_ : Z)
  | UnequalRangeLengths (host guest : Z).

Definition error_display (e : ParsePortForwardError) : string :=
  match e with
  | InvalidSyntax => "expected a port forward in the form '[proto:][bind:]HOST:GUEST'"
  | InvalidProtocol v =>
      "unsupported port-forward protocol '" +:+ v +:+ "'; expected 'tcp' or 'udp'"
  | InvalidBind v => "invalid bind address '" +:+ v +:+ "'; expected an IPv4 or IPv6 literal"
  | InvalidPort c v =>
      "invalid " +:+ c +:+ " port or range '" +:+ v +:+ "'; expected ports from 1 through 65535"
  | InvertedRange c s e =>
      "invalid " +:+ c +:+ " range '" +:+ dec s +:+ "-" +:+ dec e +:+
      "'; range start exceeds range end"
  | UnequalRangeLengths h g =>
      "host and guest port ranges must have equal lengths; host has " +:+ dec h +:+
      " ports and guest has " +:+ dec g +:+ " ports"
  end.

Definition protocol_as_str (p : Protocol) : string :=
  match p with Tcp => "tcp" | Udp => "udp" end.
Definition protocol_from_str (v : string) : result ParsePortForwardError Protocol :=
  if String.eqb v "tcp" then Ok Tcp
  else if String.eqb v "udp" then Ok Udp
  else Err (InvalidProtocol v).

(** ** Port ranges *)

Definition format_range (s e : Z) : string :=
  if s =? e then dec s else dec s +:+ "-" +:+ dec e.

Definition range_new (s e : Z) : result ParsePortForwardError PortRange :=
  reject InvalidPort "port range" (format_range s e) when ((s =? 0) || (e =? 0));
  reject InvertedRange "port range" s e when (e <? s);
  Ok {| start := s; end_ := e |}.

(** [self.end as u32 - self.start as u32 + 1]. *)
Definition range_len (r : PortRange) : Z := end_ r - start r + 1.

Definition range_display (r : PortRange) : string :=
  if start r =? end_ r then dec (start r) else dec (start r) +:+ "-" +:+ dec (end_ r).

Definition parse_port (value component original : string) : result ParsePortForwardError Z :=
  reject InvalidPort component original when (is_empty value || negb (all_bytes is_ascii_digit value));
  port ← ok_or (parse_u u32_max value) (InvalidPort component original);
  ok_or (p ← try_from_u u16_max port; if negb (p =? 0) then Some p else None)
        (InvalidPort component original).

Definition parse_port_range (value component : string) : result ParsePortForwardError PortRange :=
  let '(start_value, end_value) :=
    match split_once "-" value with Some p => p | None => (value, value) end in
  s ← parse_port start_value component value;
  e ← parse_port end_value component value;
  reject InvertedRange component s e when (e <? s);
  Ok {| start := s; end_ := e |}.

Definition range_from_str (value : string) : result ParsePortForwardError PortRange :=
  parse_port_range value "port range".

(** ** Port forwards *)

Record PortForward : Set := {
  protocol : Protocol;
  bind : option IpAddr;
  host : PortRange;
  guest : PortRange;
}.
#[export] Instance PortForward_eq_dec : EqDecision PortForward.
Proof. solve_decision. Defined.

Definition forward_new (p : Protocol) (b : option IpAddr) (h g : PortRange)
    : result ParsePortForwardError PortForward :=
  reject UnequalRangeLengths (range_len h) (range_len g) when negb (range_len h =? range_len g);
  Ok {| protocol := p; bind := b; host := h; guest := g |}.

Definition forward_display (f : PortForward) : string :=
  (match protocol f with Udp => "udp:" | Tcp => "" end) +:+
  (match bind f with
   | Some (V4 o) => IpAddr.display (V4 o) +:+ ":"
   | Some (V6 g) => "[" +:+ IpAddr.display (V6 g) +:+ "]:"
   | None => ""
   end) +:+
  range_display (host f) +:+ ":" +:+ range_display (guest f).

Definition parse_bind (value : string) : result ParsePortForwardError IpAddr :=
  match v ← strip_prefix "[" value; strip_suffix "]" v with
  | Some inner =>
      match IpAddr.parse inner with
      | Some (V6 g) => Ok (V6 g)
      | Some (V4 _) | None => Err (InvalidBind value)
      end
  | None =>
      reject InvalidBind value when (has_char "[" value || has_char "]" value);
      ok_or (IpAddr.parse value) (InvalidBind value)
  end.

Definition classify_prefix_error (prefix : string) (bind_error : ParsePortForwardError)
    : ParsePortForwardError :=
  let candidate := match split_once ":" prefix with Some (c, _) => c | None => prefix end in
  if negb (is_empty candidate) && all_bytes is_ascii_alphabetic candidate
  then InvalidProtocol candidate else bind_error.

Definition parse_prefix (prefix : option string)
    : result ParsePortForwardError (Protocol * option IpAddr) :=
  match prefix with
  | None => Ok (Tcp, None)
  | Some prefix =>
      if String.eqb prefix "tcp" then Ok (Tcp, None)
      else if String.eqb prefix "udp" then Ok (Udp, None)
      else
        let '(p, bind_value) :=
          match strip_prefix "tcp:" prefix with
          | Some b => (Tcp, b)
          | None => match strip_prefix "udp:" prefix with
                    | Some b => (Udp, b)
                    | None => (Tcp, prefix)
                    end
          end in
        match parse_bind bind_value with
        | Ok b => Ok (p, Some b)
        | Err e =>
            if bool_decide (p = Tcp) && String.eqb bind_value prefix
            then Err (classify_prefix_error prefix e) else Err e
        end
  end.

Definition forward_from_str (value : string) : result ParsePortForwardError PortForward :=
  '(before_guest, guest_value) ← ok_or (rsplit_once ":" value) InvalidSyntax;
  let '(prefix, host_value) :=
    match rsplit_once ":" before_guest with
    | Some (prefix, h) => (Some prefix, h)
    | None => (None, before_guest)
    end in
  h ← parse_port_range host_value "host";
  g ← parse_port_range guest_value "guest";
  '(p, b) ← parse_prefix prefix;
  forward_new p b h g.

(** What the constructors can build. *)
Definition range_wf (r : PortRange) : Prop := 1 ≤ start r ≤ end_ r ∧ end_ r ≤ u16_max.
Definition forward_wf (f : PortForward) : Prop :=
  range_wf (host f) ∧ range_wf (guest f) ∧ range_len (host f) = range_len (guest f) ∧
  match bind f with Some a => IpAddr.wf a | None => True end.

(** ** Log sources (action.rs) *)

Inductive LogSource : Set := Console | Vmm | Shim | Passt | Virtiofsd (index : Z).
#[export] Instance LogSource_eq_dec : EqDecision LogSource.
Proof. solve_decision. Defined.
Inductive ParseLogSourceError : Set := ParseLogSourceError_.

Definition log_source_display (s : LogSource) : string :=
  match s with
  | Console => "console"
  | Vmm => "vmm"
  | Shim => "shim"
  | Passt => "passt"
  | Virtiofsd index => "virtiofsd-" +:+ dec index
  end.

Definition log_source_from_str (value : string) : result ParseLogSourceError LogSource :=
  if String.eqb value "console" then Ok Console
  else if String.eqb value "vmm" then Ok Vmm
  else if String.eqb value "shim" then Ok Shim
  else if String.eqb value "passt" then Ok Passt
  else ok_or
    (index ← strip_prefix "virtiofsd-" value;
     index ← (if is_empty index then None else Some index);
     n ← parse_u u16_max index;
     Some (Virtiofsd n)) ParseLogSourceError_.

(** ** Ports and ranges *)

Lemma dec_not_colon z : 0 ≤ z → has_char ":" (dec z) = false.
Proof. by apply dec_no_char. Qed.
Lemma dec_not_dash z : 0 ≤ z → has_char "-" (dec z) = false.
Proof. by apply dec_no_char. Qed.

Lemma parse_port_dec z c o : 1 ≤ z ≤ u16_max → parse_port (dec z) c o = Ok z.
Proof.
  intros Hz. unfold u16_max in Hz. unfold parse_port.
  rewrite (proj2 (is_empty_false _)) by (apply dec_ne; lia).
  rewrite dec_digits by lia. cbn [orb negb reject_if].
  rewrite parse_dec by (unfold u32_max; lia). simpl.
  rewrite try_from_u_in by (unfold u16_max; lia). simpl.
  by rewrite (proj2 (Z.eqb_neq z 0)) by lia.
Qed.
Lemma parse_port_Ok v c o z : parse_port v c o = Ok z → 1 ≤ z ≤ u16_max.
Proof.
  unfold parse_port. intros. inv_ok.
  match goal with H : _ ≫= _ = Some _ |- _ => apply bind_Some in H as (p & Hp & Hz) end.
  apply try_from_u_Some in Hp as [-> ?]. case_match; bool_props; simplify_eq. lia.
Qed.
Lemma range_new_wf s e r : 0 ≤ s ≤ u16_max → 0 ≤ e ≤ u16_max → range_new s e = Ok r → range_wf r.
Proof. unfold range_new, range_wf. intros. inv_ok. bool_props. simpl. lia. Qed.

Lemma parse_port_range_display r c : range_wf r → parse_port_range (range_display r) c = Ok r.
Proof.
  destruct r as [s e]. intros [Hs He]. simpl in *. unfold parse_port_range, range_display. simpl.
  destruct (Z.eqb_spec s e) as [->|Hne].
  - rewrite (proj2 (split_once_None _ _)) by (apply dec_not_dash; lia).
    rewrite !parse_port_dec by lia. simpl. by rewrite (proj2 (Z.ltb_ge _ _)) by lia.
  - str_norm. rewrite split_once_app by (apply dec_not_dash; lia).
    rewrite !parse_port_dec by lia. simpl. by rewrite (proj2 (Z.ltb_ge _ _)) by lia.
Qed.
Lemma parse_port_range_Ok v c r : parse_port_range v c = Ok r → range_wf r.
Proof.
  unfold parse_port_range, range_wf. intros H.
  destruct (split_once "-" v) as [[sv ev]|]; inv_ok;
    repeat match goal with H : parse_port _ _ _ = Ok _ |- _ => apply parse_port_Ok in H end;
    bool_props; simpl; lia.
Qed.
Lemma range_display_not_colon r : range_wf r → has_char ":" (range_display r) = false.
Proof.
  intros [??]. unfold range_display. case_match; [apply dec_not_colon; lia|].
  rewrite !has_char_app, !dec_not_colon by lia. done.
Qed.

(** ** Bind addresses *)

Definition bind_text (a : IpAddr) : string :=
  match a with
  | V4 _ => IpAddr.display a
  | V6 _ => "[" +:+ IpAddr.display a +:+ "]"
  end.

(** Rendered text begins with a byte no protocol name begins with. *)
Lemma bind_text_first a :
  IpAddr.wf a → ∃ c s, bind_text a = String c s ∧ is_ascii_alphabetic c = false.
Proof.
  destruct a as [o|g]; intros [Hl Ha].
  - destruct o as [|z o]; [done|]. apply Forall_cons in Ha as [Hz _].
    destruct (dec_cons z) as (c & s & Hc & Hd); [lia|]. simpl. unfold display_v4. simpl.
    rewrite Hc. apply digit_not_alphabetic in Hd.
    destruct o as [|y o]; simpl; [|rewrite app_cons]; eauto.
  - simpl. rewrite app_cons. eauto.
Qed.
Lemma display_v4_no_char c o :
  is_ascii_digit c = false → c ≠ "."%char → bytes_ok o → has_char c (display_v4 o) = false.
Proof.
  intros Hc Hdot Ho. unfold display_v4. rewrite has_char_join by done.
  induction Ho as [|z o Hz Ho IH]; [done|]. rewrite fmap_cons. cbn [existsb].
  by rewrite dec_no_char, IH by (done || lia).
Qed.
Lemma parse_bind_text a : IpAddr.wf a → parse_bind (bind_text a) = Ok a.
Proof.
  intros Ha. destruct a as [o|g]; unfold parse_bind, bind_text.
  - pose proof Ha as [Hl Hb].
    assert (has_char "[" (IpAddr.display (V4 o)) = false) as H1 by (by apply display_v4_no_char).
    assert (has_char "]" (IpAddr.display (V4 o)) = false) as H2 by (by apply display_v4_no_char).
    assert (strip_prefix "[" (IpAddr.display (V4 o)) = None) as ->.
    { destruct (strip_prefix "[" _) as [r|] eqn:Hr; [|done].
      apply strip_prefix_Some in Hr. rewrite Hr in H1. done. }
    cbn [mbind option_bind]. rewrite H1, H2. cbn [orb reject_if]. by rewrite parse_display.
  - rewrite strip_prefix_app. cbn [mbind option_bind]. rewrite strip_suffix_app.
    by rewrite parse_display.
Qed.
Lemma parse_bind_wf v a : parse_bind v = Ok a → IpAddr.wf a.
Proof.
  unfold parse_bind. intros. case_match.
  - repeat case_match; simplify_eq; eauto using parse_wf.
  - inv_ok. eauto using parse_wf.
Qed.

(** ** Prefixes *)

Lemma strip_prefix_no c p s v :
  first_byte s = Some c → first_byte p = Some v → c ≠ v → strip_prefix p s = None.
Proof.
  destruct s as [|a s], p as [|b p]; try done. simpl. intros [= ->] [= ->] Hne.
  by rewrite (proj2 (Ascii.eqb_neq v c)).
Qed.
Lemma bind_text_ne a p c :
  IpAddr.wf a → is_ascii_alphabetic c = true → first_byte p = Some c →
  String.eqb (bind_text a) p = false ∧ strip_prefix p (bind_text a) = None.
Proof.
  intros Ha Hc Hp. destruct (bind_text_first a Ha) as (d & s & Hs & Hd).
  assert (d ≠ c) by congruence. split.
  - apply String.eqb_neq. rewrite Hs. intros <-. simpl in Hp. congruence.
  - apply (strip_prefix_no d _ _ c); [by rewrite Hs|done|done].
Qed.

Lemma parse_prefix_bind p a :
  IpAddr.wf a →
  parse_prefix (Some ((match p with Tcp => "" | Udp => "udp:" end) +:+ bind_text a)) = Ok (p, Some a).
Proof.
  intros Ha. pose proof (parse_bind_text a Ha) as Hb.
  destruct (bind_text_ne a "tcp" "t" Ha) as [Ht _]; [done..|].
  destruct (bind_text_ne a "udp" "u" Ha) as [Hu _]; [done..|].
  destruct (bind_text_ne a "tcp:" "t" Ha) as [_ Htp]; [done..|].
  destruct (bind_text_ne a "udp:" "u" Ha) as [_ Hup]; [done..|].
  destruct p; unfold parse_prefix.
  - by rewrite app_empty_l, Ht, Hu, Htp, Hup, Hb.
  - assert (String.eqb ("udp:" +:+ bind_text a) "tcp" = false) as -> by (by apply String.eqb_neq).
    assert (String.eqb ("udp:" +:+ bind_text a) "udp" = false) as ->.
    { apply String.eqb_neq. intros [=]. }
    assert (strip_prefix "tcp:" ("udp:" +:+ bind_text a) = None) as -> by done.
    by rewrite strip_prefix_app, Hb.
Qed.
Lemma parse_prefix_wf s p b :
  parse_prefix s = Ok (p, b) → match b with Some a => IpAddr.wf a | None => True end.
Proof.
  unfold parse_prefix. intros H. destruct s as [s|]; [|by simplify_eq].
  destruct (String.eqb s "tcp"); [by simplify_eq|].
  destruct (String.eqb s "udp"); [by simplify_eq|].
  destruct (strip_prefix "tcp:" s) as [bv|]; [|destruct (strip_prefix "udp:" s) as [bv|]];
    match goal with H : context [parse_bind ?v] |- _ => destruct (parse_bind v) eqn:Hb end;
    try (apply parse_bind_wf in Hb; by simplify_eq); by repeat case_match.
Qed.

(** ** Port forwards *)

(** The text before the host range, without the colon that separates them. *)
Definition prefix_text (f : PortForward) : option string :=
  match protocol f, bind f with
  | Tcp, None => None
  | Udp, None => Some "udp"
  | p, Some a => Some ((match p with Tcp => "" | Udp => "udp:" end) +:+ bind_text a)
  end.
Lemma forward_display_text f :
  forward_display f =
    (match prefix_text f with Some p => p +:+ String ":" (range_display (host f))
                            | None => range_display (host f) end)
    +:+ String ":" (range_display (guest f)).
Proof.
  unfold forward_display, prefix_text, bind_text.
  destruct (protocol f), (bind f) as [[o|g]|]; by str_norm.
Qed.
Lemma parse_prefix_text f :
  forward_wf f → parse_prefix (prefix_text f) = Ok (protocol f, bind f).
Proof.
  intros (_ & _ & _ & Hb). unfold prefix_text.
  destruct (protocol f), (bind f) as [a|];
    [by apply (parse_prefix_bind Tcp)|done|by apply (parse_prefix_bind Udp)|done].
Qed.

Lemma forward_display_parse f : forward_wf f → forward_from_str (forward_display f) = Ok f.
Proof.
  intros Hf. pose proof Hf as (Hh & Hg & Hl & _).
  rewrite forward_display_text. unfold forward_from_str.
  rewrite rsplit_once_app by (by apply range_display_not_colon).
  pose proof (parse_prefix_text f Hf) as Hp.
  assert (forward_new (protocol f) (bind f) (host f) (guest f) = Ok f) as Hn.
  { unfold forward_new. rewrite Hl, Z.eqb_refl. by destruct f. }
  cbn [ok_or mbind result_bind]. destruct (prefix_text f) as [p|].
  - rewrite rsplit_once_app by (by apply range_display_not_colon).
    rewrite !parse_port_range_display by done. cbn [mbind result_bind]. by rewrite Hp.
  - rewrite (proj2 (rsplit_once_None _ _)) by (by apply range_display_not_colon).
    rewrite !parse_port_range_display by done. cbn [mbind result_bind]. by rewrite Hp.
Qed.

(** rendering a port forward and parsing it back is the identity, for every
    protocol, bind address (IPv4 or IPv6) and pair of ranges. *)
Theorem port_forward_roundtrip f :
  forward_wf f → forward_from_str (forward_display f) = Ok f.
Proof. apply forward_display_parse. Qed.
Lemma port_forward_roundtrip_witness :
  let f := {| protocol := Udp; bind := Some (V6 [8193; 3512; 0; 0; 0; 0; 0; 1]);
              host := {| start := 5353; end_ := 5363 |};
              guest := {| start := 53; end_ := 63 |} |} in
  forward_wf f ∧ forward_from_str (forward_display f) = Ok f.
Proof.
  intros f. assert (Hf : forward_wf f).
  { unfold forward_wf, range_wf, range_len, u16_max; simpl. repeat split; try lia.
    repeat constructor; unfold u16_max; lia. }
  split; [exact Hf | exact (port_forward_roundtrip f Hf)].
Defined.

(** every port forward the parser accepts has ascending nonzero u16 ranges of
    equal length and a well-formed bind address, so forwarding port [host + i] to
    [guest + i] stays within both ranges and within 16 bits. *)
Theorem port_forward_parsed_wf v f i :
  forward_from_str v = Ok f → 0 ≤ i < range_len (host f) →
  forward_wf f ∧
  1 ≤ start (host f) + i ≤ end_ (host f) ∧ 1 ≤ start (guest f) + i ≤ end_ (guest f) ∧
  end_ (host f) ≤ u16_max ∧ end_ (guest f) ≤ u16_max.
Proof.
  unfold forward_from_str. intros H Hi. inv_ok. destruct r as [before g].
  destruct (match rsplit_once ":" before with
            | Some (prefix, h) => (Some prefix, h) | None => (None, before) end) as [prefix h].
  inv_ok. destruct r1 as [p b]. unfold forward_new in *. inv_ok. simpl in *.
  repeat match goal with H : parse_port_range _ _ = Ok _ |- _ => apply parse_port_range_Ok in H end.
  match goal with H : parse_prefix _ = Ok _ |- _ => apply parse_prefix_wf in H end.
  bool_props. unfold forward_wf, range_wf, range_len in *. simpl. intuition lia.
Qed.
Lemma port_forward_parsed_wf_witness :
  let f := {| protocol := Tcp; bind := Some (V4 [127; 0; 0; 1]);
              host := {| start := 8000; end_ := 8010 |};
              guest := {| start := 9000; end_ := 9010 |} |} in
  forward_from_str "127.0.0.1:8000-8010:9000-9010" = Ok f ∧
  1 ≤ start (guest f) + 10 ≤ end_ (guest f).
Proof.
  intros f. assert (H : forward_from_str "127.0.0.1:8000-8010:9000-9010" = Ok f) by reflexivity.
  split; [exact H|].
  destruct (port_forward_parsed_wf _ _ 10 H) as (_ & _ & Hg & _); [unfold range_len; simpl; lia|exact Hg].
Defined.

(** ** Log sources *)

Lemma log_source_display_ne p s : first_byte p ≠ Some "v"%char → String.eqb ("virtiofsd-" +:+ s) p = false.
Proof. intros Hp. apply String.eqb_neq. by intros <-. Qed.

(** a log source survives rendering and parsing; the parser accepts only
    [virtiofsd] indices that fit a u16. *)
Theorem log_source_roundtrip s :
  (match s with Virtiofsd i => 0 ≤ i ≤ u16_max | _ => True end →
   log_source_from_str (log_source_display s) = Ok s) ∧
  (∀ v i, log_source_from_str v = Ok (Virtiofsd i) → 0 ≤ i ≤ u16_max).
Proof.
  split.
  - destruct s as [| | | |i]; try done. intros Hi. simpl. unfold log_source_from_str.
    assert (String.eqb ("virtiofsd-" +:+ dec i) "vmm" = false) as -> by (apply String.eqb_neq; intros [=]).
    rewrite !log_source_display_ne by done.
    rewrite strip_prefix_app. simpl. rewrite (proj2 (is_empty_false _)) by (apply dec_ne; lia). simpl.
    by rewrite parse_dec.
  - intros v i. unfold log_source_from_str. repeat (case_match; [by intros|]). intros. inv_ok.
    repeat match goal with H : _ ≫= _ = Some _ |- _ => apply bind_Some in H as (? & ? & ?) end.
    simplify_eq. eauto using parse_u_range.
Qed.
Lemma log_source_roundtrip_witness :
  log_source_from_str (log_source_display (Virtiofsd 7)) = Ok (Virtiofsd 7).
Proof. apply (proj1 (log_source_roundtrip (Virtiofsd 7))). unfold u16_max. lia. Defined.
