(* ===== verification/Atomic.v ===== *)
(** Atomic file replacement ([firestone-core/src/atomic.rs]).

    The file system is a set of inodes and one directory, kept twice: as running
    processes see it and as it is on disk since the last directory fsync.  A file
    whose data was not fsynced may hold anything after a crash.  Every state the
    system calls pass through is recorded, so that crashing at any point can be
    reasoned about.  Each call can be made to fail. *)
From S2P Require Import Prelude RustStr RustPath Errors.
Open Scope Z_scope.

(** ** The file system *)

Record File : Set := { contents : list Z; synced : bool; mode : option Z }.
Record Fs : Set := {
  inodes : gmap nat File;
  dir : gmap string nat;
  durable : gmap string nat;
  next : nat;
}.
Record World : Set := { now : Fs; history : list Fs }.

Inductive Syscall : Set :=
  | OpenParent | RemoveStale | CreateTemp | SetMode | SyncTemp | RenameTemp | SyncParent
  | RemoveFailed.
Definition Faults : Set := Syscall → option IoError.

Definition set_inode (i : nat) (f : File) (s : Fs) : Fs :=
  {| inodes := <[i := f]> (inodes s); dir := dir s; durable := durable s; next := next s |}.
Definition set_dir (d : gmap string nat) (s : Fs) : Fs :=
  {| inodes := inodes s; dir := d; durable := durable s; next := next s |}.

Section io.
Context (faults : Faults).

Definition commit (s : Fs) : M World IoError () := λ w,
  (Ok (), {| now := s; history := history w ++ [s] |}).

(** A call that fails when the fault plan says so, and otherwise changes the
    file system by [act]. *)
Definition sys (call : Syscall) (act : Fs → Fs) : M World IoError () := λ w,
  match faults call with
  | Some e => (Err e, w)
  | None => commit (act (now w)) w
  end.

(** [fs::remove_file]. *)
Definition remove_file (call : Syscall) (name : string) : M World IoError () := λ w,
  match faults call, dir (now w) !! name with
  | Some e, _ => (Err e, w)
  | None, None => (Err {| io_kind := IoNotFound; io_text := "No such file or directory" |}, w)
  | None, Some _ => commit (set_dir (delete name (dir (now w))) (now w)) w
  end.

(** [OpenOptions::create_new]: a fresh inode, or an error when the name is taken. *)
Definition create_new (name : string) (m : option Z) : M World IoError nat := λ w,
  let s := now w in
  match faults CreateTemp, dir s !! name with
  | Some e, _ => (Err e, w)
  | None, Some _ => (Err {| io_kind := IoAlreadyExists; io_text := "File exists" |}, w)
  | None, None =>
      let s' := {| inodes := <[next s := {| contents := []; synced := false; mode := m |}]> (inodes s);
                   dir := <[name := next s]> (dir s); durable := durable s; next := S (next s) |} in
      (Ok (next s), {| now := s'; history := history w ++ [s'] |})
  end.

Definition set_permissions (i : nat) (m : Z) : M World IoError () :=
  sys SetMode (λ s, match inodes s !! i with
    | Some f => set_inode i {| contents := contents f; synced := synced f; mode := Some m |} s
    | None => s end).

(** The file after a writer ran: what it wrote, not yet on disk. *)
Definition store_data (i : nat) (data : list Z) (s : Fs) : Fs :=
  match inodes s !! i with
  | Some f => set_inode i {| contents := data; synced := false; mode := mode f |} s
  | None => s
  end.
Definition run_writer (i : nat) (written : list Z * option IoError) : M World IoError () := λ w,
  let '(_, w) := commit (store_data i written.1 (now w)) w in
  match written.2 with Some e => (Err e, w) | None => (Ok (), w) end.

Definition sync_file (i : nat) : M World IoError () :=
  sys SyncTemp (λ s, match inodes s !! i with
    | Some f => set_inode i {| contents := contents f; synced := true; mode := mode f |} s
    | None => s end).
Definition rename (from to : string) : M World IoError () :=
  sys RenameTemp (λ s, match dir s !! from with
    | Some i => set_dir (<[to := i]> (delete from (dir s))) s
    | None => s end).
Definition sync_dir : M World IoError () :=
  sys SyncParent (λ s, {| inodes := inodes s; dir := dir s; durable := dir s; next := next s |}).

(** ** atomic.rs *)

Definition io_failure (operation path : string) (error : IoError) : FirestoneError :=
  with_source (with_hint (error_new Generic ("cannot " +:+ operation +:+ " " +:+ path))
    "check that the directory is writable and has free space") (io_text error).

Definition parent_directory (path : string) : result FirestoneError string :=
  match parent path with
  | Some p => if is_empty p then Ok "." else Ok p
  | None => Err (with_hint
      (error_new Generic ("cannot determine parent directory for " +:+ path))
      "use a file path with a parent directory")
  end.

Definition temp_path (path : string) : result FirestoneError string :=
  name ← ok_or (file_name path)
    (with_hint (error_new Generic ("cannot determine file name for " +:+ path))
       "use a path to a file, not a directory");
  Ok (with_file_name path (name +:+ ".tmp")).

Definition remove_known_temp (temp : string) : M World FirestoneError () := λ w,
  match remove_file RemoveStale temp w with
  | (Ok _, w) => (Ok (), w)
  | (Err e, w) =>
      if bool_decide (io_kind e = IoNotFound) then (Ok (), w)
      else (Err (io_failure "remove stale temporary file" temp e), w)
  end.

Definition fail_before_rename {A} (operation temp : string) (error : IoError)
    : M World FirestoneError A := λ w,
  let '(removed, w) := remove_file RemoveFailed temp w in
  let cleanup := match removed with
    | Ok _ => None
    | Err e => if bool_decide (io_kind e = IoNotFound) then None else Some e
    end in
  let failure := io_failure operation temp error in
  (Err (match cleanup with
   | None => failure
   | Some e => with_hint
       (error_new Generic (message failure +:+ "; cannot remove temporary file " +:+ temp
          +:+ ": " +:+ io_text e))
       "the destination was left unchanged; remove the named temp file and retry"
   end), w).

(** A step whose failure must clean the temporary file up. *)
Definition or_clean {A} (operation temp : string) (m : M World IoError A)
    : M World FirestoneError A := λ w,
  match m w with
  | (Ok a, w) => (Ok a, w)
  | (Err e, w) => fail_before_rename operation temp e w
  end.

(** Octal digits of a u32, at least four of them. *)
Fixpoint octal (fuel : nat) (z : Z) (acc : string) : string :=
  match fuel with
  | O => acc
  | S n => if (z =? 0) && (4 <=? len acc) then acc
           else octal n (z / 8) (String (hex_digit (z mod 8)) acc)
  end.

Definition invalid_mode (m : option Z) : bool :=
  match m with Some v => negb (Z.land v (u32_max - 4095) =? 0) | None => false end.

Definition write_with_options (path : string) (bytes : list Z) (m : option Z) (readable : bool)
    (write_bytes : list Z → list Z * option IoError) : M World FirestoneError () :=
  if invalid_mode m then
    M_fail (error_new InvalidSpec
      ("invalid atomic file mode " +:+ octal 11 (from_option id 0 m) ""))
  else
    parent ← M_lift (parent_directory path);
    temp ← M_lift (temp_path path);
    M_map_err (io_failure "open parent directory" parent) (sys OpenParent id);;
    remove_known_temp temp;;
    i ← M_map_err (io_failure "create temporary file" temp) (create_new temp m);
    (match m with
     | Some v => or_clean "set temporary file mode" temp (set_permissions i v)
     | None => mret ()
     end);;
    or_clean "write temporary file" temp (run_writer i (write_bytes bytes));;
    or_clean "fsync temporary file" temp (sync_file i);;
    or_clean "rename temporary file" temp (rename temp path);;
    M_map_err (io_failure "fsync parent directory" parent) sync_dir.

Definition write_with (path : string) (bytes : list Z)
    (write_bytes : list Z → list Z * option IoError) : M World FirestoneError () :=
  write_with_options path bytes None false write_bytes.

(** [file.write_all]: all the bytes, or a prefix of them and an error. *)
Context (write_fault : option (nat * IoError)).
Definition write_all (bytes : list Z) : list Z * option IoError :=
  match write_fault with
  | Some (k, e) => (take k bytes, Some e)
  | None => (bytes, None)
  end.

Definition write (path : string) (bytes : list Z) : M World FirestoneError () :=
  write_with path bytes write_all.
Definition write_with_mode (path : string) (bytes : list Z) (m : Z) : M World FirestoneError () :=
  write_with_options path bytes (Some m) false write_all.
Definition write_stream (path : string) (stream : list Z * option IoError)
    : M World FirestoneError () :=
  write_with_options path [] None true (λ _, stream).
Definition write_stream_with_mode (path : string) (m : Z) (stream : list Z * option IoError)
    : M World FirestoneError () :=
  write_with_options path [] (Some m) true (λ _, stream).

(** [serde_json::to_vec_pretty] is a parameter. *)
Context {T : Type} (to_vec_pretty : T → result string (list Z)).
Definition serialize_json (path : string) (value : T) : result FirestoneError (list Z) :=
  bytes ← map_err (λ e, with_source (with_hint
      (error_new Generic ("cannot serialize JSON for " +:+ path))
      "the existing file was left unchanged") e) (to_vec_pretty value);
  Ok (bytes ++ [10]).
Definition write_json (path : string) (value : T) : M World FirestoneError () :=
  bytes ← M_lift (serialize_json path value); write path bytes.
Definition write_json_with_mode (path : string) (value : T) (m : Z) : M World FirestoneError () :=
  bytes ← M_lift (serialize_json path value); write_with_mode path bytes m.
End io.

(** What [path] holds now. *)
Definition read_file (s : Fs) (path : string) : option (list Z) :=
  i ← dir s !! path; f ← inodes s !! i; Some (contents f).

(** ** Crash safety *)

(** What a reader may find at [path] after a crash in state [s]. *)
Definition crash_read (s : Fs) (path : string) (c : option (list Z)) : Prop :=
  ∃ o, (o = dir s !! path ∨ o = durable s !! path) ∧
    match o with
    | None => c = None
    | Some i => ∃ f d, inodes s !! i = Some f ∧ c = Some d ∧ (synced f = true → d = contents f)
    end.

(** Every directory entry names an inode allocated before [next]. *)
Definition fs_ok (s : Fs) : Prop :=
  ∀ n i, dir s !! n = Some i ∨ durable s !! n = Some i → (i < next s)%nat.

(** The directory entry [o] leads to fsynced contents [c]. *)
Definition kept (s : Fs) (o : option nat) (c : option (list Z)) : Prop :=
  match o with
  | None => c = None
  | Some i => ∃ f, inodes s !! i = Some f ∧ synced f = true ∧ c = Some (contents f)
  end.
(** [path] is on disk exactly as processes see it, holding [old]. *)
Definition settled (s : Fs) (path : string) (old : option (list Z)) : Prop :=
  durable s !! path = dir s !! path ∧ kept s (dir s !! path) old.

Lemma temp_path_ne path temp : temp_path path = Ok temp → temp ≠ path.
Proof.
  unfold temp_path. intros H. inv_ok. rename r into n.
  assert (file_name path = Some n) as Hp by done. intros He.
  pose proof (file_name_no_slash _ _ Hp) as Hs.
  assert (file_name (with_file_name path (n +:+ ".tmp")) = Some (n +:+ ".tmp")) as Hn.
  { eapply file_name_with_file_name; [done|by rewrite has_char_app, Hs|..];
      intros Hr; apply (f_equal String.length) in Hr; rewrite length_app_str in Hr; simpl in Hr; lia. }
  rewrite He, Hp in Hn. injection Hn as Hn.
  apply (f_equal String.length) in Hn. rewrite length_app_str in Hn. simpl in Hn. lia.
Qed.

(** [new] is what the file may additionally hold after a crash. *)
Definition safe (path : string) (old new : option (list Z)) (s : Fs) : Prop :=
  ∀ c, crash_read s path c → c = old ∨ (c = new ∧ new ≠ None).

(** From a state satisfying [P], [m] passes only through states satisfying [I] and
    ends in [Q]. *)
Definition spec {E A} (I P : Fs → Prop) (m : M World E A) (Q : result E A → Fs → Prop) : Prop :=
  ∀ w, Forall I (history w) → P (now w) →
    let '(r, w') := m w in Forall I (history w') ∧ Q r (now w').

Section triples.
Context {I : Fs → Prop}.
Lemma spec_bind {E A B} P m Q (k : A → M World E B) R :
  spec I P m Q → (∀ e s, Q (Err e) s → R (Err e) s) →
  (∀ a, spec I (Q (Ok a)) (k a) R) → spec I P (m ≫= k) R.
Proof.
  intros Hm He Hk w HI HP. specialize (Hm w HI HP). unfold mbind, M_bind.
  destruct (m w) as [[a|e] w'] eqn:Hr; simpl in *; destruct Hm as [H1 H2]; [|eauto].
  by apply Hk.
Qed.
Lemma spec_weaken {E A} (P P' : Fs → Prop) m (Q : result E A → Fs → Prop) :
  spec I P m Q → (∀ s, P' s → P s) → spec I P' m Q.
Proof. intros Hm HP w HI Hw. by apply Hm, HP. Qed.
Lemma spec_conseq {E A} P (m : M World E A) (Q Q' : result E A → Fs → Prop) :
  spec I P m Q → (∀ r s, Q r s → Q' r s) → spec I P m Q'.
Proof. intros Hm HQ w HI HP. specialize (Hm w HI HP). destruct (m w). naive_solver. Qed.
Lemma spec_pure {E A} (φ : Prop) P (m : M World E A) Q :
  (φ → spec I P m Q) → spec I (λ s, P s ∧ φ) m Q.
Proof. intros Hm w HI [HP Hφ]. by apply Hm. Qed.
Lemma spec_ret {E A} (a : A) P (Q : result E A → Fs → Prop) :
  (∀ s, P s → Q (Ok a) s) → spec I P (mret a) Q.
Proof. intros HQ w HI HP. simpl. auto. Qed.
Lemma spec_lift {E A} r P (Q : result E A → Fs → Prop) :
  (∀ s, P s → Q r s) → spec I P (M_lift r) Q.
Proof. intros HQ w HI HP. simpl. auto. Qed.
Lemma spec_lift_bind {E A B} (r : result E A) P (k : A → M World E B) R :
  (∀ e s, r = Err e → P s → R (Err e) s) → (∀ a, r = Ok a → spec I P (k a) R) →
  spec I P (M_lift r ≫= k) R.
Proof. destruct r; intros He Hk; [by apply Hk|]. intros w HI HP. split; [done|]. by apply He. Qed.
Lemma spec_map_err {E F A} (f : E → F) (m : M World E A) P Q :
  spec I P m (λ r, Q (map_err f r)) → spec I P (M_map_err f m) Q.
Proof. intros Hm w HI HP. specialize (Hm w HI HP). unfold M_map_err. by destruct (m w). Qed.
Lemma spec_sys faults call act P (Q : result IoError () → Fs → Prop) :
  (∀ s, P s → faults call = None → I (act s) ∧ Q (Ok ()) (act s)) →
  (∀ e s, P s → faults call = Some e → Q (Err e) s) → spec I P (sys faults call act) Q.
Proof.
  intros Hok Herr w HI HP. unfold sys. destruct (faults call) as [e|] eqn:Hf.
  - split; [done|]. by eapply Herr.
  - destruct (Hok _ HP eq_refl). simpl. rewrite Forall_app. auto.
Qed.
Lemma spec_remove_file faults call n P (Q : result IoError () → Fs → Prop) :
  (∀ s, P s → I (set_dir (delete n (dir s)) s) ∧ Q (Ok ()) (set_dir (delete n (dir s)) s)) →
  (∀ e s, P s → (io_kind e = IoNotFound → faults call = None → dir s !! n = None) → Q (Err e) s) →
  spec I P (remove_file faults call n) Q.
Proof.
  intros Hok Herr w HI HP. unfold remove_file.
  destruct (faults call) as [e|] eqn:Hf; [split; [done|apply Herr; [done|]]; done|].
  destruct (dir (now w) !! n) eqn:Hn.
  - destruct (Hok _ HP). simpl. rewrite Forall_app. auto.
  - split; [done|]. apply Herr; auto.
Qed.
End triples.

Lemma kept_read s path c : kept s (dir s !! path) c → read_file s path = c.
Proof.
  unfold kept, read_file. destruct (dir s !! path) as [i|]; [|by intros ->].
  intros (f & Hf & _ & ->). simpl. by rewrite Hf.
Qed.
Lemma settled_read s path c : settled s path c → read_file s path = c.
Proof. intros [_ H]. by apply kept_read. Qed.
Lemma kept_crash s path c old :
  kept s (dir s !! path) c → kept s (durable s !! path) old →
  ∀ d, crash_read s path d → d = old ∨ d = c.
Proof.
intros Hc Ho d (o & [->| ->] & Hr); [right|left]; unfold kept in *; case_match; naive_solver. Qed.
Lemma settled_safe s path old new : settled s path old → safe path old new s.
Proof.
  intros [Hd Hk] c Hc. left. destruct (kept_crash s path old old) with (d := c); try done.
  by rewrite Hd.
Qed.
Lemma kept_insert s i f o c :
  kept s o c → o ≠ Some i → kept (set_inode i f s) o c.
Proof.
  unfold kept. destruct o as [j|]; [|done]. intros (g & ? & ? & ?) Hne.
  exists g. simpl. rewrite lookup_insert_ne by congruence. done.
Qed.

Section write_spec.
Context (faults : Faults) (p t : string) (old : option (list Z)) (m : option Z).
Context (wr : list Z * option IoError) (Htp : t ≠ p).

Definition new_contents : option (list Z) :=
  match wr.2 with None => Some wr.1 | Some _ => None end.
Local Abbreviation I := (safe p old new_contents).

Definition Pre (s : Fs) : Prop := fs_ok s ∧ settled s p old.
Definition Tmp (i : nat) (F : File → Prop) (s : Fs) : Prop :=
  Pre s ∧ dir s !! t = Some i ∧ dir s !! p ≠ Some i ∧ ∃ f, inodes s !! i = Some f ∧ mode f = m ∧ F f.
Definition Renamed (s : Fs) : Prop :=
  kept s (dir s !! p) (Some wr.1) ∧ kept s (durable s !! p) old ∧ dir s !! t = None ∧
  wr.2 = None ∧ ∃ i f, dir s !! p = Some i ∧ inodes s !! i = Some f ∧ mode f = m.
Definition Final (r : result FirestoneError ()) (s : Fs) : Prop :=
  match r with
  | Ok _ => settled s p (Some wr.1) ∧ dir s !! t = None ∧ wr.2 = None ∧
            ∃ i f, dir s !! p = Some i ∧ inodes s !! i = Some f ∧ mode f = m
  | Err _ => settled s p old ∨ (faults SyncParent ≠ None ∧ Renamed s)
  end.

Lemma Pre_safe s : Pre s → I s.
Proof. intros [_ H]. by apply settled_safe. Qed.
Lemma Pre_remove s : Pre s → Pre (set_dir (delete t (dir s)) s).
Proof.
  intros [Hf [Hd Hk]]. split.
  - intros n i [Hn|Hn]; simpl in *; [apply lookup_delete_Some in Hn as [_ Hn]|]; apply (Hf n); auto.
  - split; simpl; rewrite lookup_delete_ne by done; done.
Qed.
Lemma Tmp_set i (F G : File → Prop) f' s :
  Tmp i F s → mode f' = m → G f' → Tmp i G (set_inode i f' s).
Proof.
  intros ((Hf & Hd & Hk) & Ht & Hp & f & Hi & Hm & HF) Hm' HG.
  split; [split; [done|split; [done|]]|].
  - apply kept_insert; [done|]. by simpl.
  - split; [done|]. split; [done|]. exists f'. simpl. by rewrite lookup_insert_eq.
Qed.
Lemma Tmp_rename i s :
  Tmp i (λ f, synced f = true ∧ contents f = wr.1) s → wr.2 = None →
  Renamed (set_dir (<[p := i]> (delete t (dir s))) s).
Proof.
  intros ((Hf & Hd & Hk) & Ht & Hp & f & Hi & Hm & Hs & Hc) Hw. unfold Renamed; simpl.
  rewrite lookup_insert_eq, lookup_insert_ne, lookup_delete_eq by done. split_and!; try done.
  - exists f. by rewrite Hc.
  - by rewrite Hd.
  - eauto.
Qed.
Lemma Renamed_safe s : Renamed s → I s.
Proof.
  intros (Hn & Ho & _ & Hw & _) c Hc. unfold new_contents. rewrite Hw.
  destruct (kept_crash _ _ _ _ Hn Ho c Hc) as [?| ->]; [by left|right; done].
Qed.

Local Abbreviation triple := (spec I).
Lemma create_new_spec :
  triple Pre (create_new faults t m)
    (λ r s, match r with Ok i => Tmp i (λ _, True) s | Err _ => Pre s end).
Proof.
  intros w HI HP. unfold create_new. destruct (faults CreateTemp); [done|].
  destruct (dir (now w) !! t) eqn:Ht; [done|]. simpl.
  destruct HP as [Hf [Hd Hk]]. set (s := now w) in *.
  assert (Hne : ∀ n, dir s !! n ≠ Some (next s)).
  { intros n Hn. assert (next s < next s)%nat by (apply (Hf n); auto). lia. }
  match goal with |- _ ∧ ?T => assert T as HT end.
  { unfold Tmp, Pre, settled, fs_ok; simpl.
    rewrite lookup_insert_ne, lookup_insert_eq by done. split_and!; try done.
    - intros n i [Hn|Hn].
      + apply lookup_insert_Some in Hn as [[_ <-]|[_ Hn]]; [lia|].
        assert (i < next s)%nat by (apply (Hf n); auto). lia.
      + assert (i < next s)%nat by (apply (Hf n); auto). lia.
    - destruct (dir s !! p) as [i|] eqn:Hp; [|done]. destruct Hk as (f & ?). exists f.
      simpl. rewrite lookup_insert_ne; [done|]. intros He. apply (Hne p). by rewrite He.
    - exists {| contents := []; synced := false; mode := m |}. by rewrite lookup_insert_eq. }
  split; [|exact HT]. apply Forall_app; split; [done|]. constructor; [|constructor].
  apply Pre_safe, HT.
Qed.

Lemma or_clean_spec {A} op P (k : M World IoError A) (Q : A → Fs → Prop) :
  triple P k (λ r s, match r with Ok a => Q a s | Err _ => Pre s end) →
  triple P (or_clean faults op t k) (λ r s, match r with Ok a => Q a s | Err _ => Pre s end).
Proof.
  intros Hk w HI HP. specialize (Hk w HI HP). unfold or_clean.
  destruct (k w) as [[a|e] w']; [done|]. destruct Hk as [HI' HP'].
  assert (triple Pre (remove_file faults RemoveFailed t) (λ _, Pre)) as Hr.
  { apply spec_remove_file; [|done]. intros s Hs. split; [apply Pre_safe|]; by apply Pre_remove. }
  specialize (Hr w' HI' HP'). unfold fail_before_rename.
  by destruct (remove_file faults RemoveFailed t w').
Qed.

Lemma Tmp_sys i (F G : File → Prop) call g :
  (∀ f, mode f = m → F f → mode (g f) = m ∧ G (g f)) →
  triple (Tmp i F) (sys faults call (λ s, match inodes s !! i with
    | Some f => set_inode i (g f) s | None => s end))
    (λ r s, match r with Ok _ => Tmp i G s | Err _ => Pre s end).
Proof.
  intros Hg. apply spec_sys; [|by intros ?? [? _]].
  intros s HT _. destruct HT as (HP & Ht & Hp & f & Hi & Hm & HF) eqn:E. rewrite Hi.
  destruct (Hg f Hm HF).
  assert (Tmp i G (set_inode i (g f) s)) as HT' by (by eapply Tmp_set).
  split; [apply Pre_safe, HT'|done].
Qed.

Lemma run_writer_spec i :
  triple (Tmp i (λ _, True)) (run_writer i wr)
    (λ r s, match r with
     | Ok _ => Tmp i (λ f, contents f = wr.1) s ∧ wr.2 = None
     | Err _ => Pre s end).
Proof.
  intros w HI HT. pose proof HT as (HP & Ht & Hp & f & Hi & Hm & _). unfold run_writer. simpl.
  assert (Tmp i (λ f, contents f = wr.1) (store_data i wr.1 (now w))) as HT'.
  { unfold store_data. rewrite Hi. by eapply Tmp_set. }
  assert (Forall I (history w ++ [store_data i wr.1 (now w)])).
  { apply Forall_app; split; [done|]. constructor; [apply Pre_safe, HT'|done]. }
  destruct wr.2; (split; [done|]); [apply HT'|done].
Qed.

Lemma write_with_options_spec bytes readable write_bytes :
  write_bytes bytes = wr → temp_path p = Ok t →
  triple Pre (write_with_options faults p bytes m readable write_bytes) Final.
Proof.
  intros Hw Ht. unfold write_with_options. rewrite Ht, Hw.
  assert (HE : ∀ (e : FirestoneError) s, Pre s → Final (Err e) s) by (intros e s [_ H]; by left).
  destruct (invalid_mode m); [by intros w HI HP; split; [|apply HE]|].
  apply spec_lift_bind; [by intros; apply HE|intros parent _].
  apply spec_lift_bind; [done|intros temp [= <-]].
  apply (spec_bind _ _ (λ _, Pre)); [|apply HE|intros _].
  { apply spec_map_err, spec_sys; [|done]. intros s Hs _. split; [by apply Pre_safe|done]. }
  apply (spec_bind _ _ (λ _, Pre)); [|apply HE|intros _].
  { assert (triple Pre (remove_file faults RemoveStale t) (λ _, Pre)) as Hr.
    { apply spec_remove_file; [|done]. intros s Hs. split; [apply Pre_safe|]; by apply Pre_remove. }
    intros w HI HP. specialize (Hr w HI HP). unfold remove_known_temp.
    destruct (remove_file faults RemoveStale t w) as [[] ?]; [done|]. by destruct (bool_decide _). }
  eapply (spec_bind _ _ (λ r s, match r with Ok i => Tmp i (λ _, True) s | Err _ => Pre s end));
    [|apply HE|intros i].
  { apply spec_map_err. eapply spec_conseq; [apply create_new_spec|by intros []]. }
  eapply (spec_bind _ _ (λ r s, match r with Ok _ => Tmp i (λ _, True) s | Err _ => Pre s end));
    [|apply HE|intros _].
  { destruct m as [v|] eqn:Hm; [|by apply spec_ret].
    apply or_clean_spec, Tmp_sys. naive_solver. }
  eapply (spec_bind _ _ (λ r s, match r with
    | Ok _ => Tmp i (λ f, contents f = wr.1) s ∧ wr.2 = None | Err _ => Pre s end));
    [|apply HE|intros _].
  { apply or_clean_spec, run_writer_spec. }
  apply spec_pure. intros Hnone.
  eapply (spec_bind _ _ (λ r s, match r with
    | Ok _ => Tmp i (λ f, synced f = true ∧ contents f = wr.1) s | Err _ => Pre s end));
    [|apply HE|intros _].
  { apply or_clean_spec, Tmp_sys. naive_solver. }
  eapply (spec_bind _ _ (λ r s, match r with Ok _ => Renamed s | Err _ => Pre s end));
    [|apply HE|intros _].
  { apply or_clean_spec, spec_sys; [|by intros ?? [? _]].
    intros s HT _. pose proof HT as (_ & Hi & _). rewrite Hi.
    assert (Renamed (set_dir (<[p:=i]> (delete t (dir s))) s)) by (by apply Tmp_rename).
    split; [by apply Renamed_safe|done]. }
  apply spec_map_err, spec_sys.
  - intros s (Hn & Ho & Ht' & _ & Hi) _.
    assert (settled {| inodes := inodes s; dir := dir s; durable := dir s; next := next s |}
      p (Some wr.1)) as HS by done.
    split; [|done]. intros c Hc. right. unfold new_contents. rewrite Hnone.
    eapply kept_crash in Hc as [->| ->]; [done|done|exact Hn|exact Hn].
  - intros e s HR Hf. right. split; [by rewrite Hf|done].
Qed.
End write_spec.

(** What a write that starts in [s] does, run alone. *)
Definition start (s : Fs) : World := {| now := s; history := [s] |}.

Lemma write_with_options_run faults path bytes m readable write_bytes s old :
  fs_ok s → settled s path old →
  let '(r, w) := write_with_options faults path bytes m readable write_bytes (start s) in
  Forall (safe path old (new_contents (write_bytes bytes))) (history w) ∧
  match temp_path path with
  | Ok t => Final faults path t old m (write_bytes bytes) r (now w)
  | Err _ => is_ok r = false ∧ now w = s
  end.
Proof.
  intros Hf Hs. destruct (temp_path path) as [t|e] eqn:Ht.
  - apply (write_with_options_spec faults path t old m (write_bytes bytes)
      (temp_path_ne _ _ Ht) bytes readable write_bytes eq_refl Ht); [|done].
    constructor; [|done]. by apply settled_safe.
  - assert (Forall (safe path old (new_contents (write_bytes bytes))) [s]).
    { constructor; [|done]. by apply settled_safe. }
    unfold write_with_options. rewrite Ht. destruct (invalid_mode m); [done|].
    by destruct (parent_directory path).
Qed.

(** C1: atomic.rs, crash safety: if the machine crashes at any point of an atomic write,
    with any of its system calls failing and any writer, a reader afterwards finds
    the old file (or its absence), or the complete output of a writer that reported
    success; never a truncated or mixed file. *)
Theorem atomic_write_crash_safe faults path bytes m readable write_bytes s old :
  fs_ok s → settled s path old →
  ∀ s' c, s' ∈ history (write_with_options faults path bytes m readable write_bytes (start s)).2 →
    crash_read s' path c →
    c = old ∨ (c = Some (write_bytes bytes).1 ∧ (write_bytes bytes).2 = None).
Proof.
  intros Hf Hs s' c Hin Hc.
  pose proof (write_with_options_run faults path bytes m readable write_bytes s old Hf Hs) as Hr.
  destruct (write_with_options _ _ _ _ _ _ _) as [r w]. destruct Hr as [Hh _].
  rewrite Forall_forall in Hh. destruct (Hh s' Hin c Hc) as [?|[-> Hne]]; [by left|right].
  unfold new_contents in *. by destruct (write_bytes bytes).2.
Qed.

(** atomic.rs, the outcome of an atomic write: success means the new contents are
    visible and on disk, with the requested mode, and no temporary file is left; an
    error leaves the previous contents, unless it is the final fsync of the parent
    directory that failed. *)
Theorem atomic_write_outcome faults path bytes m readable write_bytes s old :
  fs_ok s → settled s path old →
  match write_with_options faults path bytes m readable write_bytes (start s) with
  | (Ok _, w) =>
      (write_bytes bytes).2 = None ∧ settled (now w) path (Some (write_bytes bytes).1) ∧
      (∀ t, temp_path path = Ok t → dir (now w) !! t = None) ∧
      (∃ i f, dir (now w) !! path = Some i ∧ inodes (now w) !! i = Some f ∧ mode f = m)
  | (Err _, w) =>
      read_file (now w) path = old ∨
      (faults SyncParent ≠ None ∧ read_file (now w) path = Some (write_bytes bytes).1)
  end.
Proof.
  intros Hf Hs.
  pose proof (write_with_options_run faults path bytes m readable write_bytes s old Hf Hs) as Hr.
  destruct (write_with_options _ _ _ _ _ _ _) as [[[]|e] w]; destruct Hr as [_ Hr].
  - destruct (temp_path path); [|by destruct Hr]. destruct Hr as (? & ? & ? & ?). naive_solver.
  - destruct (temp_path path); [|left; destruct Hr as [_ ->]; by apply settled_read].
    destruct Hr as [Hr|(Hn & Hr & _)]; [left; by apply settled_read|right].
    split; [done|by apply kept_read].
Qed.

Definition demo_fs : Fs := {|
  inodes := {[ 0%nat := {| contents := [111; 108; 100]; synced := true; mode := None |} ]};
  dir := {[ "/m/dev/state.json" := 0%nat ]}; durable := {[ "/m/dev/state.json" := 0%nat ]};
  next := 1 |}.
Definition no_faults : Faults := λ _, None.
Lemma demo_fs_ok : fs_ok demo_fs.
Proof.
  intros n i [Hn|Hn]; simpl in Hn; apply lookup_singleton_Some in Hn as [_ <-]; simpl; lia.
Qed.
Lemma demo_settled : settled demo_fs "/m/dev/state.json" (Some [111; 108; 100]).
Proof. split; [done|]. by eexists. Qed.

Lemma atomic_write_crash_safe_witness :
  length (history (write no_faults None "/m/dev/state.json" [110; 101; 119] (start demo_fs)).2) = 7%nat ∧
  ∀ s' c, s' ∈ history (write_with_options no_faults "/m/dev/state.json" [110; 101; 119] None false
    (write_all None) (start demo_fs)).2 → crash_read s' "/m/dev/state.json" c →
  c = Some [111; 108; 100] ∨ (c = Some [110; 101; 119] ∧ @None IoError = None).
Proof.
  split; [by vm_compute|].
  exact (atomic_write_crash_safe no_faults "/m/dev/state.json" [110; 101; 119] None false
    (write_all None) demo_fs _ demo_fs_ok demo_settled).
Defined.

Lemma atomic_write_outcome_witness :
  is_ok (write no_faults None "/m/dev/state.json" [110; 101; 119] (start demo_fs)).1 = true ∧
  let '(r, w) := write_with_options no_faults "/m/dev/state.json" [110; 101; 119] (Some 384) false
    (write_all None) (start demo_fs) in
  is_ok r = true ∧ settled (now w) "/m/dev/state.json" (Some [110; 101; 119]).
Proof.
  split; [by vm_compute|].
  pose proof (atomic_write_outcome no_faults "/m/dev/state.json" [110; 101; 119] (Some 384) false
    (write_all None) demo_fs _ demo_fs_ok demo_settled) as H.
  destruct (write_with_options _ _ _ _ _ _ _) as [[[]|e] w] eqn:Hw; [|vm_compute in Hw; discriminate].
  split; [done|]. apply H.
Defined.
