(* ===== verification/Lock.v ===== *)
(** The machine lock ([firestone-core/src/lock.rs]): a non-blocking [flock] retried
    until it succeeds or the wait times out. *)
From S2P Require Import Prelude RustStr Errors Clock.
Open Scope Z_scope.

Definition millis (ms : Z) : Z := ms * 1000000.
Definition secs (s : Z) : Z := s * 1000000000.

Definition WAIT_NOTICE_AFTER : Z := secs 1.
Definition LOCK_TIMEOUT : Z := secs 10.
Definition POLL_INTERVAL : Z := millis 25.

Record LockTiming : Set := { wait_notice_after : Z; timeout : Z; poll_interval : Z }.
Definition PRODUCTION : LockTiming :=
  {| wait_notice_after := WAIT_NOTICE_AFTER; timeout := LOCK_TIMEOUT; poll_interval := POLL_INTERVAL |}.

(** The guard: the path of the lock file it holds. *)
Record MachineLock : Set := { path : string }.

Definition lock_io_failure (operation path : string) (error : IoError) : FirestoneError :=
  with_source (with_hint
    (error_new Generic ("cannot " +:+ operation +:+ " machine lock " +:+ path))
    "check that the machine directory is writable") (io_text error).

(** What one non-blocking [flock] call reports. *)
Inductive FlockResult : Set := Locked | WouldBlock | Errno (e : IoError).

Section acquire.
Context `{Schedule} {Json Sink : Type} `{EventSink Json Sink}.
(** The file system's answer to opening the lock file, and the kernel's answer to
    each attempt to lock it. *)
Context (open_result : result IoError ()) (flock : nat → FlockResult).
Context (name lock_path : string) (timing : LockTiming).
Local Abbreviation Act := (M (Timed Sink) FirestoneError).

Definition wait_notice : Event Json :=
  Log Info ("waiting for another firestone operation on `" +:+ name +:+ "`").
Definition busy : FirestoneError := with_hint
  (error_new Busy ("machine `" +:+ name +:+ "` is busy with another firestone operation"))
  "wait for the other operation to finish and retry".

(** Announce the wait, once, when it has lasted long enough. *)
Definition notice_once (notice_emitted contended : bool) (elapsed : Z) : Act bool :=
  if contended && negb notice_emitted && (wait_notice_after timing <=? elapsed) then
    emit_event wait_notice;; mret true
  else mret notice_emitted.

(** One turn of the loop; its state is [notice_emitted] and [contended]. *)
Definition acquire_turn (started : Z) (st : bool * bool) : Act ((bool * bool) + MachineLock) :=
  let '(notice_emitted, contended) := st in
  now ← instant_now;
  let elapsed := now - started in
  notice_emitted ← notice_once notice_emitted contended elapsed;
  if contended && (timeout timing <=? elapsed) then M_fail busy
  else
    answer ← observe (λ n, Ok (flock n));
    match answer with
    | Locked => mret (inr {| path := lock_path |})
    | Errno error => M_fail (lock_io_failure "acquire" lock_path error)
    | WouldBlock =>
        now ← instant_now;
        let elapsed := now - started in
        let until_timeout := saturating_sub (timeout timing) elapsed in
        let until_notice :=
          if (notice_emitted : bool) then poll_interval timing
          else saturating_sub (wait_notice_after timing) elapsed in
        let sleep_for := Z.min (Z.min (poll_interval timing) until_timeout) until_notice in
        (if sleep_for =? 0 then mret () else sleep sleep_for);;
        mret (inl (notice_emitted, true))
    end.

Definition acquire_with_timing (fuel : nat) : Act (option MachineLock) :=
  M_lift (map_err (lock_io_failure "open" lock_path) open_result);;
  started ← instant_now;
  loop (acquire_turn started) fuel (false, false).
End acquire.

Definition acquire `{Schedule} {Json Sink} `{EventSink Json Sink} open_result flock name path fuel :=
  acquire_with_timing (Json := Json) (Sink := Sink) open_result flock name path PRODUCTION fuel.

(** ** The wait is bounded, and its outcome is the lock's *)

Definition timing_ok (t : LockTiming) : Prop :=
  0 < poll_interval t ∧ 0 ≤ wait_notice_after t ∧ 0 ≤ timeout t.

Section acquire_spec.
Context `{Schedule} {Json : Type}.
Context (flock : nat → FlockResult) (name lock_path : string) (timing : LockTiming).
Context (Htiming : timing_ok timing) (events0 : list (Event Json)) (started : Z).
Local Abbreviation World := (Timed (list (Event Json))).

(** What is true whenever the loop is at the top of a turn. *)
Definition Inv (st : bool * bool) (w : World) : Prop :=
  started ≤ time w ∧
  sink w = events0 ++ (if st.1 then [wait_notice name] else []) ∧
  (st.1 = true → wait_notice_after timing ≤ time w - started) ∧
  (st.2 = true → ∃ n, flock n = WouldBlock) ∧
  ((∀ n, lag n = 0) → time w - started ≤ timeout timing).

(** The notice part of the measure, at elapsed time [e]. *)
Definition notice_left (notice : bool) (e : Z) : nat :=
  if notice then 0 else if wait_notice_after timing <=? e then 1 else 2.

Definition measure (st : bool * bool) (w : World) : nat :=
  turns_left (poll_interval timing) (timeout timing - (time w - started)) +
  notice_left st.1 (time w - started) + (if st.2 then 0 else 1).

(** The outcomes of a wait that ends at [w]. *)
Definition Outcome (r : result FirestoneError MachineLock) (w : World) : Prop :=
  (sink w = events0 ∨
   (sink w = events0 ++ [wait_notice name] ∧ wait_notice_after timing ≤ time w - started)) ∧
  ((∀ n, lag n = 0) → time w - started ≤ timeout timing) ∧
  match r with
  | Ok l => path l = lock_path ∧ ∃ n, flock n = Locked
  | Err e => (e = busy name ∧ timeout timing ≤ time w - started ∧ ∃ n, flock n = WouldBlock)
             ∨ ∃ n io, flock n = Errno io ∧ e = lock_io_failure "acquire" lock_path io
  end.

(** A contended turn, seen at elapsed times [a] (its start), [e1], [e2] (before the
    sleep) and [b] (its end), decreases the measure. *)
Lemma turn_decreases (notice notice' contended : bool) a e1 e2 b :
  a ≤ e1 → e1 ≤ e2 → notice' = notice || (contended && (wait_notice_after timing <=? e1)) →
  (contended = true → e1 < timeout timing) →
  e2 + Z.min (Z.min (poll_interval timing) (saturating_sub (timeout timing) e2))
         (if notice' then poll_interval timing
          else saturating_sub (wait_notice_after timing) e2) ≤ b →
  (turns_left (poll_interval timing) (timeout timing - b) + notice_left notice' b
   < turns_left (poll_interval timing) (timeout timing - a) + notice_left notice a
     + (if contended then 0 else 1))%nat.
Proof.
  destruct Htiming as (Hp & Hw & Hto). unfold saturating_sub. intros H1 H2 Hn Hc Hs.
  assert (e2 ≤ b) by (destruct notice'; lia).
  assert (Hm : (turns_left (poll_interval timing) (timeout timing - b)
    ≤ turns_left (poll_interval timing) (timeout timing - a))%nat) by (apply turns_left_mono; lia).
  assert (Hnm : (notice_left notice' b ≤ notice_left notice a)%nat).
  { unfold notice_left. destruct notice; simpl in Hn; subst notice'; [done|].
    repeat case_match; bool_props; lia. }
  destruct contended; [|lia]. specialize (Hc eq_refl).
  assert (Hdec : Z.min (poll_interval timing) (timeout timing - a) ≤ b - a →
    (turns_left (poll_interval timing) (timeout timing - b)
     < turns_left (poll_interval timing) (timeout timing - a))%nat).
  { intros. apply turns_left_sleep; lia. }
  destruct notice'; [specialize (Hdec ltac:(lia)); lia|].
  destruct notice; [done|]. simpl in Hn. symmetry in Hn. bool_props.
  destruct (Z.le_gt_cases (wait_notice_after timing) b).
  - assert ((notice_left false b < notice_left false a)%nat); [|lia].
    unfold notice_left. rewrite (proj2 (Z.leb_le _ _)), (proj2 (Z.leb_gt _ _)) by lia. lia.
  - specialize (Hdec ltac:(lia)). lia.
Qed.

Lemma notice_once_run (notice contended : bool) e (w : World) :
  sink w = events0 ++ (if notice then [wait_notice name] else []) →
  notice_once name timing notice contended e w =
    (Ok (notice || (contended && (wait_notice_after timing <=? e))),
     {| time := time w; tick := tick w;
        sink := events0 ++ if notice || (contended && (wait_notice_after timing <=? e))
                           then [wait_notice name] else [] |}).
Proof.
  unfold notice_once. destruct w as [t n s]; simpl. intros ->.
  destruct notice, contended; simpl; try done.
  destruct (wait_notice_after timing <=? e); simpl; [|done]. by rewrite app_nil_r.
Qed.

Lemma acquire_turn_spec st w :
  Inv st w →
  match acquire_turn flock name lock_path timing started st w with
  | (Ok (inl st'), w') => Inv st' w' ∧ (measure st' w' < measure st w)%nat
  | (Ok (inr a), w') => Outcome (Ok a) w'
  | (Err e, w') => Outcome (Err e) w'
  end.
Proof.
  destruct st as [notice contended]. intros (Ht & Hs & Hn & Hc & Hl). simpl in *.
  destruct Htiming as (Hp & Hw & Hto).
  pose proof (lag_nonneg (tick w)) as L0.
  unfold acquire_turn, instant_now, mbind, M_bind.
  set (e1 := time (pass 0 w) - started).
  rewrite notice_once_run by done. set (notice' := notice || _).
  assert (Hn' : notice' = true → wait_notice_after timing ≤ e1).
  { unfold notice', e1. simpl. destruct notice; [intros; specialize (Hn eq_refl); lia|].
    intros. bool_props. lia. }
  set (w1 := {| time := _; tick := _; sink := _ |}).
  destruct (contended && (timeout timing <=? e1)) eqn:Hbusy.
  { bool_props. subst contended. unfold Outcome; simpl. split_and!.
    - destruct notice'; [right; split; [done|]|left; by rewrite app_nil_r]. apply Hn'. done.
    - intros Hlag. specialize (Hl Hlag). rewrite Hlag. lia.
    - left. split_and!; [done|done|by apply Hc]. }
  assert (He1 : time w - started ≤ e1) by (unfold e1; simpl; lia).
  assert (Htime : time w1 = started + e1) by (unfold e1; simpl; lia).
  pose proof (lag_nonneg (tick w1)) as L2.
  assert (Hzero : (∀ n, lag n = 0) → e1 ≤ timeout timing).
  { intros Hlag. specialize (Hl Hlag). unfold e1; simpl. rewrite Hlag. lia. }
  assert (Hout : ∀ r t n, (∀ e, r = Err e → ∃ n io, flock n = Errno io ∧
      e = lock_io_failure "acquire" lock_path io) →
    (∀ l, r = Ok l → path l = lock_path ∧ ∃ n, flock n = Locked) →
    e1 ≤ t - started → ((∀ n, lag n = 0) → t - started = e1) →
    Outcome r {| time := t; tick := n; sink := sink w1 |}).
  { intros r t n Hr Hr' Ht1 Ht2. unfold Outcome; simpl. split_and!.
    - destruct notice'; [right; split; [done|]|left; by rewrite app_nil_r].
      specialize (Hn' eq_refl). lia.
    - intros Hlag. rewrite Ht2 by done. by apply Hzero.
    - destruct r; [by apply Hr'|right; by apply Hr]. }
  unfold observe. destruct (flock (tick w1)) eqn:Hfl.
  - apply Hout; [done|naive_solver|lia|]. intros Hlag. rewrite Hlag. lia.
  - set (w2 := pass 0 (pass 0 w1)). set (e2 := time w2 - started).
    assert (He2 : e1 ≤ e2).
    { unfold e2, w2. rewrite !time_pass. pose proof (lag_nonneg (tick (pass 0 w1))). lia. }
    set (d := Z.min (Z.min _ _) _).
    assert (∃ w3, (if d =? 0 then mret (M := M World FirestoneError) () else sleep d) w2 = (Ok (), w3) ∧
      sink w3 = sink w1 ∧ e2 + d ≤ time w3 - started ∧
      ((∀ n, lag n = 0) → time w3 - started = e2 + d)) as (w3 & -> & Hs3 & Ht3 & Hl3).
    { destruct (Z.eqb_spec d 0) as [->|?].
      - exists w2. split_and!; [done|done|unfold e2; lia|unfold e2; lia].
      - exists (pass d w2). split_and!; [done|done|pose proof (lag_nonneg (tick w2)); unfold e2; rewrite time_pass; lia|].
        intros Hlag. unfold e2. rewrite time_pass, Hlag. lia. }
    split.
    + unfold Inv. simpl. split_and!.
      * assert (0 ≤ d) by (unfold d, saturating_sub; destruct notice'; lia). lia.
      * by rewrite Hs3.
      * intros Hx. specialize (Hn' Hx).
        assert (0 ≤ d) by (unfold d, saturating_sub; destruct notice'; lia). lia.
      * eauto.
      * intros Hlag. rewrite Hl3 by done. specialize (Hzero Hlag).
        assert (e2 = e1) by (unfold e2, w2; rewrite !time_pass, !Hlag; lia).
        assert (d ≤ Z.max 0 (timeout timing - e2)) by (unfold d, saturating_sub; lia). lia.
    + unfold measure; simpl. rewrite Nat.add_0_r.
      eapply (turn_decreases notice notice' contended _ e1 e2); [done|done|done| |done].
      intros ->. simpl in Hbusy. bool_props. done.
  - apply Hout; [naive_solver|done|lia|]. intros Hlag. rewrite Hlag. lia.
Qed.
End acquire_spec.

(** C32: lock.rs, [MachineLock::acquire]: whatever the kernel answers and however
    slowly, the wait ends within [timeout / poll + 4] turns.  It holds the lock only
    after a granted [flock], on the path asked for; it reports [Busy] only after
    contention and once the timeout has passed; it announces the wait at most once
    and not before the notice delay; without scheduling delays it waits at most the
    timeout. *)
Theorem acquire_bounded `{Schedule} {Json : Type} open_result flock name lock_path timing fuel
    (w : Timed (list (Event Json))) :
  timing_ok timing →
  (turns_left (poll_interval timing) (timeout timing) + 3 < fuel)%nat →
  ∃ r w', acquire_with_timing open_result flock name lock_path timing fuel w = (Some <$> r, w') ∧
    match open_result with
    | Err io => r = Err (lock_io_failure "open" lock_path io) ∧ w' = w
    | Ok _ => Outcome flock name lock_path timing (sink w) (time w + lag (tick w)) r w'
    end.
Proof.
  intros Ht Hfuel. unfold acquire_with_timing, mbind, M_bind.
  destruct open_result as [[]|io]; simpl; [|by exists (Err (lock_io_failure "open" lock_path io)), w].
  replace (time w + 0 + lag (tick w)) with (time w + lag (tick w)) by lia.
  set (started := time w + lag (tick w)).
  apply (loop_spec _ (Inv flock name timing (sink w) started) (measure timing started)).
  - intros st w'. by apply acquire_turn_spec.
  - unfold Inv; simpl. destruct Ht as (? & ? & ?). split_and!; [lia|by rewrite app_nil_r|done..|lia].
  - unfold measure, notice_left; simpl.
    replace (time w + 0 + lag (tick w) - started) with 0 by lia. rewrite Z.sub_0_r.
    destruct (wait_notice_after timing <=? 0); lia.
Qed.

(** A schedule without delays, for concrete runs. *)
Definition no_lag : Schedule := {| lag := λ _, 0; lag_nonneg := λ _, Z.le_refl 0 |}.

(** The production timing against a lock that is never released. *)
Lemma acquire_bounded_witness :
  let w0 := {| time := 0; tick := 0; sink := [] |} in
  timing_ok PRODUCTION ∧
  ∃ r w', acquire_with_timing (H := no_lag) (Json := ()) (Ok ()) (λ _, WouldBlock) "dev" "/m/dev/lock"
      PRODUCTION 404 w0 = (Some <$> r, w') ∧
    Outcome (H := no_lag) (λ _, WouldBlock) "dev" "/m/dev/lock" PRODUCTION [] 0 r w' ∧
    r = Err (busy "dev") ∧ time w' = secs 10.
Proof.
  assert (timing_ok PRODUCTION) as Ht by done. split; [done|].
  destruct (acquire_bounded (H := no_lag) (Json := ()) (Ok ()) (λ _, WouldBlock) "dev" "/m/dev/lock"
    PRODUCTION 404 {| time := 0; tick := 0; sink := [] |} Ht) as (r & w' & Hr & Ho); [by vm_compute; lia|].
  exists r, w'. split_and!; [done|done|..].
  - vm_compute in Hr. destruct r; injection Hr; intros; subst; done.
  - vm_compute in Hr. destruct r; injection Hr; intros; subst; done.
Defined.
