(* ===== verification/State.v ===== *)
(** Machine state ([firestone-core/src/state.rs]): the persisted record and its
    invariant, the reconciliation of a stored status with what is alive, the shim's
    identity check, and the state file. *)
From S2P Require Import Prelude RustStr RustPath Errors Bounded Atomic Lock.
Open Scope Z_scope.

Definition MAX_MACHINE_STATE_BYTES : Z := 1024 * 1024.

(** ** The persisted record *)

Definition STATE_VERSION : Z := 1.
Definition state_version_deserialize (version : Z) : result string () :=
  if version =? STATE_VERSION then Ok ()
  else Err ("unsupported state version " +:+ dec version +:+ "; expected " +:+ dec STATE_VERSION).

Inductive MachineStatus : Set := Created | Starting | Running | Stopping | Stopped | Failed.
#[export] Instance MachineStatus_eq_dec : EqDecision MachineStatus.
Proof. solve_decision. Defined.

Definition is_active (s : MachineStatus) : bool :=
  match s with Starting | Running | Stopping => true | _ => false end.

Record StateImage : Set := { ref : string; id : option string; sha256 : option string }.

Inductive ExitReason : Set := GuestShutdown | Stale | HostReboot | Failure (reason : string).
#[export] Instance ExitReason_eq_dec : EqDecision ExitReason.
Proof. solve_decision. Defined.

Definition exit_reason_as_str (r : ExitReason) : string :=
  match r with
  | GuestShutdown => "guest shutdown"
  | Stale => "stale"
  | HostReboot => "host reboot"
  | Failure reason => reason
  end.
Definition exit_reason_deserialize (reason : string) : result string ExitReason :=
  if String.eqb reason "guest shutdown" then Ok GuestShutdown
  else if String.eqb reason "stale" then Ok Stale
  else if String.eqb reason "host reboot" then Ok HostReboot
  else if String.eqb reason "" then Err "last exit reason cannot be empty"
  else Ok (Failure reason).

Record LastExit : Set := {
  at_ : string; code : option Z; signal : option Z; reason : ExitReason }.

(** The wire form after serde read its fields; [reason] is still text. *)
Definition last_exit_deserialize (at_ : string) (code signal : option Z) (reason : string)
    : result string LastExit :=
  reason ← exit_reason_deserialize reason;
  reject "last exit cannot contain both a code and a signal"
    when (bool_decide (is_Some code) && bool_decide (is_Some signal));
  Ok {| at_ := at_; code := code; signal := signal; reason := reason |}.

Record MachineState : Set := {
  status : MachineStatus;
  image : StateImage;
  mac : option string;
  cid : Z;
  instance_id : option string;
  shim_pid : option Z;
  vmm_pid : option Z;
  sidecar_pids : gmap string Z;
  runtime_dir : string;
  started_at : option string;
  forwards : list string;
  degraded : list string;
  last_exit : option LastExit;
}.

(** What serde carries of a state: the record with the parts that convert themselves (the version, the last
    exit and its reason) still in the form they have in the file. *)
Record WireLastExit : Set := {
  wire_at : string; wire_code : option Z; wire_signal : option Z; wire_reason : string }.
Record WireState : Set := {
  wire_version : Z; wire_status : MachineStatus; wire_image : StateImage; wire_mac : option string; wire_cid : Z;
  wire_instance_id : option string; wire_shim_pid : option Z; wire_vmm_pid : option Z; wire_sidecar_pids : gmap string Z;
  wire_runtime_dir : string; wire_started_at : option string; wire_forwards : list string; wire_degraded : list string;
  wire_last_exit : option WireLastExit }.
Definition last_exit_serialize (l : LastExit) : WireLastExit :=
  {| wire_at := at_ l; wire_code := code l; wire_signal := signal l; wire_reason := exit_reason_as_str (reason l) |}.
Definition state_serialize (s : MachineState) : WireState := {|
  wire_version := STATE_VERSION; wire_status := status s; wire_image := image s; wire_mac := mac s; wire_cid := cid s;
  wire_instance_id := instance_id s; wire_shim_pid := shim_pid s; wire_vmm_pid := vmm_pid s; wire_sidecar_pids := sidecar_pids s;
  wire_runtime_dir := runtime_dir s; wire_started_at := started_at s; wire_forwards := forwards s; wire_degraded := degraded s;
  wire_last_exit := last_exit_serialize <$> last_exit s |}.
Definition state_deserialize (w : WireState) : result string MachineState :=
  state_version_deserialize (wire_version w);;
  last_exit ← match wire_last_exit w with
    | Some l => l ← last_exit_deserialize (wire_at l) (wire_code l) (wire_signal l) (wire_reason l); Ok (Some l)
    | None => Ok None
    end;
  Ok {| status := wire_status w; image := wire_image w; mac := wire_mac w; cid := wire_cid w; instance_id := wire_instance_id w;
        shim_pid := wire_shim_pid w; vmm_pid := wire_vmm_pid w; sidecar_pids := wire_sidecar_pids w; runtime_dir := wire_runtime_dir w;
        started_at := wire_started_at w; forwards := wire_forwards w; degraded := wire_degraded w; last_exit := last_exit |}.
(** [serde_json::to_vec_pretty] and [serde_json::from_slice] of a state, from serde_json's printer and parser of
    the fields. *)
Definition state_to_vec_pretty (to_vec_pretty : WireState → result string (list Z)) (s : MachineState) : result string (list Z) :=
  to_vec_pretty (state_serialize s).
Definition state_from_slice (from_slice : list Z → result string WireState) (bytes : list Z) : result string MachineState :=
  wire ← from_slice bytes; state_deserialize wire.

Definition invalid_state (m : string) : FirestoneError :=
  with_hint (error_new Generic ("invalid machine state: " +:+ m))
    "do not write state until the internal invariant is restored".

Definition validate_image (i : StateImage) : result FirestoneError () :=
  match id i, sha256 i with
  | None, None => Ok ()
  | Some id, Some sha256 =>
      if negb (is_empty id) && negb (is_empty sha256) then Ok ()
      else Err (invalid_state "image.id and image.sha256 cannot be empty")
  | _, _ => Err (invalid_state "image.id and image.sha256 must be absent or present together")
  end.
Definition validate_last_exit (l : option LastExit) : result FirestoneError () :=
  match l with
  | Some l =>
      reject invalid_state "last_exit cannot contain both a code and a signal"
        when (bool_decide (is_Some (code l)) && bool_decide (is_Some (signal l)));
      reject invalid_state "last_exit.reason cannot be empty"
        when (match reason l with Failure r => is_empty r | _ => false end);
      Ok ()
  | None => Ok ()
  end.
Definition validate (s : MachineState) : result FirestoneError () :=
  reject invalid_state "image.ref cannot be empty" when (is_empty (ref (image s)));
  validate_image (image s);;
  validate_last_exit (last_exit s);;
  reject invalid_state "process ids in machine state must be nonzero"
    when (bool_decide (shim_pid s = Some 0) || bool_decide (vmm_pid s = Some 0)
          || existsb (λ kv, kv.2 =? 0) (map_to_list (sidecar_pids s)));
  Ok ().

(** ** Reconciliation *)

Record LivenessObservation : Set := {
  vmm_ping : bool; shim_verified : bool; runtime_dir_exists : bool }.
Inductive Supervision : Set := Supervised | Unsupervised.
Inductive ReconcileRewrite : Set := RewriteStopped (r : ExitReason).
Record ReconcileReport : Set := {
  report_status : MachineStatus;
  supervision : option Supervision;
  rewrite : option ReconcileRewrite;
}.

Definition reconcile (stored_status : MachineStatus) (o : LivenessObservation) : ReconcileReport :=
  if vmm_ping o then
    {| report_status := Running;
       supervision := Some (if shim_verified o then Supervised else Unsupervised);
       rewrite := None |}
  else if shim_verified o then
    {| report_status := match stored_status with
         | Stopping => Stopping
         | Failed => Failed
         | Created | Starting | Running | Stopped => Starting
         end;
       supervision := None; rewrite := None |}
  else if is_active stored_status then
    {| report_status := Stopped; supervision := None;
       rewrite := Some (RewriteStopped (if runtime_dir_exists o then Stale else HostReboot)) |}
  else {| report_status := stored_status; supervision := None; rewrite := None |}.

Definition reconciled_state (s : MachineState) (report : ReconcileReport) (reconciled_at : string)
    : option MachineState :=
  match rewrite report with
  | Some (RewriteStopped r) =>
      Some {| status := Stopped; image := image s; mac := mac s; cid := cid s;
              instance_id := instance_id s; shim_pid := None; vmm_pid := None;
              sidecar_pids := ∅; runtime_dir := runtime_dir s; started_at := None;
              forwards := forwards s; degraded := [];
              last_exit := Some {| at_ := reconciled_at; code := None; signal := None; reason := r |} |}
  | None => None
  end.

(** ** Observing a machine *)

(** [trait VmmPingProbe]. *)
Class VmmPingProbe := { ping : string → result FirestoneError bool }.

Definition proc_missing (k : IoKind) : bool :=
  bool_decide (k = IoNotFound) || bool_decide (k = IoNotADirectory).

(** [cmdline.split(NUL)] without the empty piece a final NUL leaves. *)
Definition argv_of (cmdline : string) : list string :=
  let argv := split NUL cmdline in
  match last argv with
  | Some a => if is_empty a then take (length argv - 1) argv else argv
  | None => argv
  end.

Section observe.
(** [fs::read] under [/proc] and [Path::try_exists]. *)
Context (read_proc : string → result IoError string).
Context (try_exists : string → result IoError bool).

Definition verify_shim_identity (proc_root : string) (pid : Z) (name : string)
    : result FirestoneError bool :=
  if pid =? 0 then Ok false else
  let cmdline_path := path_join (path_join proc_root (dec pid)) "cmdline" in
  match read_proc cmdline_path with
  | Err error =>
      if proc_missing (io_kind error) then Ok false
      else Err (with_source (with_hint
        (error_new Generic ("cannot verify shim pid " +:+ dec pid +:+ " using " +:+ cmdline_path))
        "check /proc access for the current user") (io_text error))
  | Ok cmdline =>
      match argv_of cmdline with
      | [executable; subcommand; machine] =>
          Ok (bool_decide (file_name executable = Some "firestone")
              && String.eqb subcommand "_shim" && String.eqb machine name)
      | _ => Ok false
      end
  end.

Definition observe_liveness `{VmmPingProbe} (name : string) (s : MachineState)
    (runtime_dir api_socket proc_root : string) : result FirestoneError LivenessObservation :=
  runtime_dir_exists ← map_err (λ error : IoError, with_source (with_hint
    (error_new Generic ("cannot inspect runtime directory " +:+ runtime_dir))
    "check runtime directory permissions") (io_text error)) (try_exists runtime_dir);
  shim_verified ← match shim_pid s with
    | Some pid => verify_shim_identity proc_root pid name
    | None => Ok false
    end;
  vmm_ping ← (if (runtime_dir_exists : bool) then ping api_socket else Ok false);
  Ok {| vmm_ping := vmm_ping; shim_verified := shim_verified;
        runtime_dir_exists := runtime_dir_exists |}.
End observe.

(** ** The state file *)

(** What opening the file and reading its metadata gives: whether it is a regular
    file, and its bytes. *)
Record OpenedFile : Set := { is_file : result IoError bool; stream : Reader }.

Record StateStore : Set := { store_path : string }.

Section store.
(** serde_json on this record: its printer and its parser. *)
Context (to_vec_pretty : MachineState → result string (list Z)).
Context (from_slice : list Z → result string MachineState).

Definition state_error (store : StateStore) (before after hint : string) : FirestoneError :=
  with_hint (error_new Generic (before +:+ store_path store +:+ after)) hint.

Definition read (store : StateStore) (open : string → result IoError OpenedFile)
    : result FirestoneError MachineState :=
  file ← map_err (λ e : IoError, with_source (state_error store "cannot read machine state " ""
    "check that the machine state file exists and is a readable regular file") (io_text e))
    (open (store_path store));
  regular ← map_err (λ e : IoError, with_source (state_error store "cannot inspect machine state " ""
    "check that the machine state path is a readable regular file") (io_text e)) (is_file file);
  reject state_error store "machine state " " is not a regular file"
    "replace the machine state path with its mode-0600 state.json file" when (negb regular);
  bytes ← map_err (λ e, match e with
    | Io e => with_source (state_error store "cannot read machine state " ""
        "check that the machine state file is readable") (io_text e)
    | LimitExceeded => state_error store "machine state "
        (" exceeds the " +:+ dec MAX_MACHINE_STATE_BYTES +:+ " byte limit")
        "replace the oversized state.json with valid machine state"
    end) (read_to_end (stream file) MAX_MACHINE_STATE_BYTES);
  state ← map_err (λ e, with_source (state_error store "cannot parse machine state " ""
    "inspect state.json for corruption or an unsupported version") e) (from_slice bytes);
  validate state;;
  Ok state.

Context (faults : Faults) (write_fault : option (nat * IoError)).
Local Abbreviation Act := (M World FirestoneError).

Definition write_from_shim (store : StateStore) (state : MachineState) : Act () :=
  M_lift (validate state);;
  write_json faults write_fault to_vec_pretty (store_path store) state.

Definition write_from_locked_action (store : StateStore) (state : MachineState)
    (lock : MachineLock) : Act () :=
  let expected_lock :=
    path_join (match parent (store_path store) with Some p => p | None => "." end) "lock" in
  if negb (path_eqb (path lock) expected_lock) then
    M_fail (with_hint (error_new Conflict
      ("state " +:+ store_path store +:+ " requires machine lock " +:+ expected_lock))
      "acquire the lock from the same machine directory")
  else
    M_lift (validate state);;
    write_json faults write_fault to_vec_pretty (store_path store) state.

Definition write_reconciliation (store : StateStore) (state : MachineState)
    (report : ReconcileReport) (reconciled_at : string) (lock : MachineLock)
    : Act (option MachineState) :=
  match reconciled_state state report reconciled_at with
  | None => mret None
  | Some reconciled =>
      write_from_locked_action store reconciled lock;;
      mret (Some reconciled)
  end.
End store.

(** Opening a path of the modelled file system. *)
Definition open_in (s : Fs) (p : string) : result IoError OpenedFile :=
  match read_file s p with
  | Some bytes => Ok {| is_file := Ok true; stream := {| data := bytes; fails := None |} |}
  | None => Err {| io_kind := IoNotFound; io_text := "No such file or directory" |}
  end.

(** ** The record's invariant *)

Definition nonempty_opt (o : option string) : Prop := ∃ s, o = Some s ∧ s ≠ "".
(** What [validate] promises of every state read or written. *)
Record state_wf (s : MachineState) : Prop := {
  wf_ref : ref (image s) ≠ "";
  wf_image : (id (image s) = None ∧ sha256 (image s) = None) ∨
             (nonempty_opt (id (image s)) ∧ nonempty_opt (sha256 (image s)));
  wf_exit : ∀ l, last_exit s = Some l →
    (code l = None ∨ signal l = None) ∧ reason l ≠ Failure "";
  wf_pids : shim_pid s ≠ Some 0 ∧ vmm_pid s ≠ Some 0 ∧
            ∀ k p, sidecar_pids s !! k = Some p → p ≠ 0;
}.

Lemma validate_image_Ok i :
  validate_image i = Ok () ↔ (id i = None ∧ sha256 i = None) ∨
    (nonempty_opt (id i) ∧ nonempty_opt (sha256 i)).
Proof.
  unfold validate_image, nonempty_opt. destruct i as [r [i|] [h|]]; simpl; try naive_solver.
  destruct (is_empty i) eqn:Hi, (is_empty h) eqn:Hh; simpl;
    rewrite ?is_empty_true, ?is_empty_false in *; naive_solver.
Qed.
Lemma validate_last_exit_Ok o :
  validate_last_exit o = Ok () ↔
  ∀ l, o = Some l → (code l = None ∨ signal l = None) ∧ reason l ≠ Failure "".
Proof.
  destruct o as [[a [c|] [g|] r]|]; simpl; [| | | |naive_solver];
    (split; [intros Hv l [= <-]|intros Hv; specialize (Hv _ eq_refl)]); simpl in *;
    try (destruct r as [| | |m]; simpl in *; try naive_solver;
      destruct (is_empty m) eqn:Hm; rewrite ?is_empty_true, ?is_empty_false in *; naive_solver);
    naive_solver.
Qed.
Lemma validate_Ok s : validate s = Ok () ↔ state_wf s.
Proof.
  assert (Hp : existsb (λ kv : string * Z, kv.2 =? 0) (map_to_list (sidecar_pids s)) = false ↔
    ∀ k p, sidecar_pids s !! k = Some p → p ≠ 0).
  { split.
    - intros He k p Hk ->. apply not_true_iff_false in He. apply He. apply existsb_exists.
      exists (k, 0). split; [|done]. by apply list_elem_of_In, elem_of_map_to_list.
    - intros Hk. apply not_true_iff_false. intros He. apply existsb_exists in He as ([k p] & Hin & Hz).
      bool_props. apply list_elem_of_In, elem_of_map_to_list in Hin. by apply (Hk k p). }
  unfold validate. split.
  - intros Hv. inv_ok. destruct r, r0. bool_props. rewrite Hp in *.
    constructor; [by apply is_empty_false|by apply validate_image_Ok|by apply validate_last_exit_Ok|done].
  - intros [?%is_empty_false Hi%validate_image_Ok Hl%validate_last_exit_Ok (? & ? & Hk)].
    rewrite reject_if_false, Hi by done. simpl. rewrite Hl. simpl. rewrite reject_if_false; [done|].
    rewrite (proj2 Hp Hk), !bool_decide_eq_false_2 by done. done.
Qed.

(** ** Theorems *)

(** state.rs, [ExitReason]'s string form: any text that is read back names the
    reason it was read from, and a reason survives being written and read exactly
    when it is not a [Failure] whose text is empty or one of the reserved reasons. *)
Theorem exit_reason_roundtrip :
  (∀ s r, exit_reason_deserialize s = Ok r → exit_reason_as_str r = s) ∧
  ∀ r, exit_reason_deserialize (exit_reason_as_str r) = Ok r ↔
    match r with
    | Failure s => s ∉ [""; "guest shutdown"; "stale"; "host reboot"]
    | _ => True
    end.
Proof.
  unfold exit_reason_deserialize. split.
  - intros s r. destruct (String.eqb_spec s "guest shutdown"), (String.eqb_spec s "stale"),
      (String.eqb_spec s "host reboot"), (String.eqb_spec s ""); intros; by simplify_eq/=.
  - intros [| | |s]; simpl; [by vm_compute..|].
    destruct (String.eqb_spec s "guest shutdown"), (String.eqb_spec s "stale"),
      (String.eqb_spec s "host reboot"), (String.eqb_spec s ""); split; intros; set_solver.
Qed.

(** C31: state.rs, [reconcile] and [reconciled_state]: [Running] is reported exactly on a
    VMM ping, supervision only with it; an active status is reported only with live
    evidence (a ping or a verified shim); the file is rewritten exactly when an active
    machine has neither; the rewritten state keeps the record's invariant, carries the
    reported status, names no process, and needs no further rewrite. *)
Theorem reconcile_sound s o at_ :
  let report := reconcile (status s) o in
  (report_status report = Running ↔ vmm_ping o = true) ∧
  (is_Some (supervision report) ↔ vmm_ping o = true) ∧
  (is_active (report_status report) = true → vmm_ping o = true ∨ shim_verified o = true) ∧
  (is_Some (rewrite report) ↔
     is_active (status s) = true ∧ vmm_ping o = false ∧ shim_verified o = false) ∧
  match reconciled_state s report at_ with
  | None => rewrite report = None
  | Some s' =>
      status s' = report_status report ∧ (state_wf s → state_wf s') ∧
      shim_pid s' = None ∧ vmm_pid s' = None ∧ sidecar_pids s' = ∅ ∧
      image s' = image s ∧ cid s' = cid s ∧
      reconcile (status s') o =
        {| report_status := Stopped; supervision := None; rewrite := None |}
  end.
Proof.
  destruct o as [ping shim rt]. unfold reconcile; simpl.
  destruct ping, shim, (status s) eqn:Hs; simpl;
    (split_and!; try done; try naive_solver);
    unfold is_Some; try naive_solver;
    (intros [? ? ? ?]; constructor; simpl; [done|done| |]; [|done];
      intros l [= <-]; simpl; split; [by left|by destruct rt]).
Qed.

Lemma argv_of_three cmdline a b c :
  argv_of cmdline = [a; b; c] → b ≠ "" →
  (cmdline = join NUL [a; b; c] ∧ c ≠ "") ∨ cmdline = join NUL [a; b; c; ""].
Proof.
  unfold argv_of. intros H Hb. rewrite <- (join_split NUL cmdline).
  destruct (last (split NUL cmdline)) as [x|] eqn:Hl; [|left; by rewrite H; apply last_None in Hl; rewrite Hl in H].
  apply last_Some in Hl as [l Hl]. rewrite Hl in *. destruct (is_empty x) eqn:Hx.
  - right. apply is_empty_true in Hx as ->.
    rewrite length_app in H. simpl in H. rewrite Nat.add_sub, take_app_length in H. by subst l.
  - left. rewrite H. split; [done|]. apply is_empty_false in Hx.
    destruct l as [|? [|? [|? []]]]; simplify_eq/=; done.
Qed.
Lemma argv_of_join a b c :
  has_char NUL a = false → has_char NUL b = false → has_char NUL c = false →
  argv_of (join NUL [a; b; c; ""]) = [a; b; c].
Proof. intros. unfold argv_of. rewrite split_join; [done|done|]. by repeat constructor. Qed.

(** state.rs, [verify_shim_identity]: the command line the shim is started with is
    accepted, and whatever is accepted is such a command line, so that one process is
    never taken for the shim of two machines. *)
Theorem shim_identity_exact read_proc proc_root pid exe name :
  let cmdline := path_join (path_join proc_root (dec pid)) "cmdline" in
  (pid ≠ 0 → has_char NUL exe = false → has_char NUL name = false →
   file_name exe = Some "firestone" →
   read_proc cmdline = Ok (join NUL [exe; "_shim"; name; ""]) →
   verify_shim_identity read_proc proc_root pid name = Ok true) ∧
  (verify_shim_identity read_proc proc_root pid name = Ok true →
   pid ≠ 0 ∧ (∃ exe' end_, file_name exe' = Some "firestone" ∧
     read_proc cmdline = Ok (join NUL ([exe'; "_shim"; name] ++ end_)) ∧ (end_ = [] ∨ end_ = [""])) ∧
   ∀ name', verify_shim_identity read_proc proc_root pid name' = Ok true → name' = name).
Proof.
  intros cmdline. unfold verify_shim_identity. fold cmdline. split.
  - intros Hp He Hn Hf ->. rewrite (proj2 (Z.eqb_neq _ _)) by done.
    rewrite argv_of_join by done. rewrite bool_decide_eq_true_2 by done. simpl.
    by rewrite !String.eqb_refl.
  - destruct (Z.eqb_spec pid 0); [done|]. destruct (read_proc cmdline) as [cmd|e]; [|by case_match].
    destruct (argv_of cmd) as [|a [|b [|c []]]] eqn:Ha; try done.
    intros [= H]. bool_props. apply String.eqb_eq in H0, H1. subst. split_and!; [done| |].
    + destruct (argv_of_three _ _ _ _ Ha ltac:(done)) as [[-> _]| ->].
      * exists a, []. rewrite app_nil_r. auto.
      * exists a, [""]. auto.
    + intros name' [= H']. bool_props. symmetry. by apply String.eqb_eq.
Qed.

Lemma write_json_run {T} faults write_fault (to_vec_pretty : T → result string (list Z)) p v s old :
  fs_ok s → settled s p old →
  match write_json faults write_fault to_vec_pretty p v (start s) with
  | (Ok _, w) => ∃ bytes, to_vec_pretty v = Ok bytes ∧ read_file (now w) p = Some (bytes ++ [10])
  | (Err _, w) => faults SyncParent = None → read_file (now w) p = old
  end.
Proof.
  intros Hf Hs. unfold write_json, serialize_json, mbind, M_bind, M_lift.
  destruct (to_vec_pretty v) as [bytes|e] eqn:Hb; simpl; [|intros _; by apply settled_read].
  unfold write, write_with. set (wr := write_all write_fault).
  pose proof (write_with_options_run faults p (bytes ++ [10]) None false wr s old Hf Hs) as Hr.
  destruct (write_with_options _ _ _ _ _ _ _) as [[[]|e] w]; destruct Hr as [_ Hr].
  - exists bytes. split; [done|]. destruct (temp_path p); [|by destruct Hr].
    destruct Hr as (Hset & _ & Hw & _). apply settled_read in Hset. rewrite Hset.
    unfold wr, write_all in *. destruct write_fault as [[]|]; done.
  - intros HS. destruct (temp_path p); [|destruct Hr as [_ ->]; by apply settled_read].
    destruct Hr as [Hr|[? _]]; [by apply settled_read|done].
Qed.

(** A diagnostic that has the text of a fixed reason: in the file it is that reason. *)
Definition reserved_reason (r : ExitReason) : Prop :=
  match r with Failure s => s ∈ ["guest shutdown"; "stale"; "host reboot"] | _ => False end.
Definition reread_reason (r : ExitReason) : ExitReason :=
  match r with
  | Failure "guest shutdown" => GuestShutdown
  | Failure "stale" => Stale
  | Failure "host reboot" => HostReboot
  | _ => r
  end.
(** The state that a file written from [s] holds. *)
Definition reread (s : MachineState) : MachineState := {|
  status := status s; image := image s; mac := mac s; cid := cid s; instance_id := instance_id s; shim_pid := shim_pid s;
  vmm_pid := vmm_pid s; sidecar_pids := sidecar_pids s; runtime_dir := runtime_dir s; started_at := started_at s;
  forwards := forwards s; degraded := degraded s;
  last_exit := (λ l, {| at_ := at_ l; code := code l; signal := signal l; reason := reread_reason (reason l) |}) <$> last_exit s |}.
Lemma reread_reason_deserialize r : r ≠ Failure "" → exit_reason_deserialize (exit_reason_as_str r) = Ok (reread_reason r).
Proof.
  unfold exit_reason_deserialize. destruct r as [| | |s]; intros Hne; [by vm_compute..|]. cbn [exit_reason_as_str].
  destruct (String.eqb_spec s "guest shutdown") as [->|H1]; [done|]. destruct (String.eqb_spec s "stale") as [->|H2]; [done|].
  destruct (String.eqb_spec s "host reboot") as [->|H3]; [done|]. destruct (String.eqb_spec s "") as [->|H4]; [done|].
  f_equal. unfold reread_reason. by repeat case_match; subst.
Qed.
Lemma reread_reason_same r : reread_reason r = r ↔ ¬ reserved_reason r.
Proof.
  destruct r as [| | |s]; [cbn; tauto..|]. cbn [reserved_reason]. split.
  - intros E Hin. repeat (apply elem_of_cons in Hin as [->|Hin]; [done|]). by apply elem_of_nil in Hin.
  - intros Hno. unfold reread_reason. repeat case_match; try done; subst; destruct Hno; set_solver.
Qed.
Lemma reread_same s : reread s = s ↔ ∀ l, last_exit s = Some l → ¬ reserved_reason (reason l).
Proof.
  split.
  - intros E l Hl. apply reread_reason_same. apply (f_equal last_exit) in E. cbn in E. rewrite Hl in E. cbn in E.
    by apply (f_equal (option_map reason)) in E; injection E.
  - intros Hno. destruct s as [? ? ? ? ? ? ? ? ? ? ? ? [[? ? ? r]|]]; [|done]. cbn in *. unfold reread. cbn. do 2 f_equal.
    f_equal. apply reread_reason_same. exact (Hno _ eq_refl).
Qed.
Lemma state_deserialize_serialize s : state_wf s → state_deserialize (state_serialize s) = Ok (reread s).
Proof.
  intros [_ _ Hexit _]. unfold state_deserialize, state_serialize. cbn. destruct (last_exit s) as [l|] eqn:Hl; cbn; [|by unfold reread; rewrite Hl].
  destruct (Hexit l eq_refl) as [Hcs Hr]. unfold last_exit_deserialize. rewrite reread_reason_deserialize by done. cbn.
  rewrite reject_if_false; [cbn; unfold reread; by rewrite Hl|]. apply andb_false_iff. rewrite !bool_decide_eq_false, <- !eq_None_not_Some. tauto.
Qed.
Lemma state_wf_reread s : state_wf s → state_wf (reread s).
Proof.
  intros [? ? Hexit ?]. split; [done..| |done]. cbn. intros l Hl. apply fmap_Some in Hl as (l' & Hl' & ->). destruct (Hexit l' Hl') as [? Hr].
  split; [done|]. cbn. destruct (reason l') as [| | |m]; [done..|]. unfold reread_reason. by repeat case_match.
Qed.


Definition demo_state : MachineState := {|
  status := Running; image := {| ref := "ubuntu:24.04"; id := None; sha256 := None |};
  mac := None; cid := 3; instance_id := None; shim_pid := Some 4242; vmm_pid := None;
  sidecar_pids := ∅; runtime_dir := "/run/dev"; started_at := None; forwards := [];
  degraded := []; last_exit := None |}.

(** A diagnostic that reads back as it was, and one that does not. *)
Definition demo_ended (r : ExitReason) : MachineState := {|
  status := Stopped; image := image demo_state; mac := None; cid := 3; instance_id := None; shim_pid := None; vmm_pid := None;
  sidecar_pids := ∅; runtime_dir := "/run/dev"; started_at := None; forwards := []; degraded := [];
  last_exit := Some {| at_ := "2025-01-01T00:00:00Z"; code := Some 1; signal := None; reason := r |} |}.
Definition demo_store : StateStore := {| store_path := "/m/dev/state.json" |}.
Definition demo_written (state : MachineState) :=
  write_from_locked_action (state_to_vec_pretty (λ _, Ok [123; 125])) no_faults None demo_store state {| path := "/m/dev//lock" |} (start demo_fs).
