(* ===== verification/OciRef.v ===== *)
(** OCI image references ([firestone-core/src/oci/mod.rs]): classification, parsing,
    normalization, and the validators of their parts. *)
From S2P Require Import Prelude RustStr Errors.

Definition OCI_SCHEME_PREFIX := "oci://".
Definition DOCKER_SCHEME_PREFIX := "docker://".
Definition DEFAULT_REGISTRY := "docker.io".
Definition DEFAULT_REGISTRY_ALIAS := "index.docker.io".
Definition DEFAULT_NAMESPACE := "library".
Definition DEFAULT_TAG := "latest".
Definition DIGEST_ALGORITHM := "sha256".
Definition MAX_TAG_BYTES : Z := 128.
Definition MAX_REPOSITORY_BYTES : Z := 255.
Definition MAX_HOST_LABEL_BYTES : Z := 63.
Definition DIGEST_HEX_LENGTH : Z := 64.

Inductive OciClassification : Set := Scheme | RegistryHost.
Definition is_explicit (c : OciClassification) : bool :=
  match c with Scheme => true | RegistryHost => false end.

Inductive OciTagOrDigest : Set := Tag (tag : string) | Digest (digest : string).
Definition tag (t : OciTagOrDigest) : option string :=
  match t with Tag t => Some t | Digest _ => None end.
Definition digest (t : OciTagOrDigest) : option string :=
  match t with Tag _ => None | Digest d => Some d end.
Definition tag_or_digest_display (t : OciTagOrDigest) : string :=
  match t with Tag t => ":" +:+ t | Digest d => "@" +:+ d end.

Record OciReference : Set := {
  registry : string; repository : string; reference : OciTagOrDigest }.

Definition is_digest (r : OciReference) : bool :=
  match reference r with Digest _ => true | Tag _ => false end.
Definition display (r : OciReference) : string :=
  registry r +:+ "/" +:+ repository r +:+ tag_or_digest_display (reference r).

Definition invalid (value detail hint : string) : FirestoneError :=
  with_hint (error_new InvalidSpec
    ("invalid OCI image reference '" +:+ value +:+ "': " +:+ detail)) hint.

(** ** Validators *)

Definition is_tag_byte (a : ascii) : bool :=
  is_ascii_alphanumeric a || Ascii.eqb a "." || Ascii.eqb a "_" || Ascii.eqb a "-".
Definition is_lower_alnum (a : ascii) : bool := is_ascii_lowercase a || is_ascii_digit a.
Definition is_repository_byte (a : ascii) : bool :=
  is_lower_alnum a || Ascii.eqb a "." || Ascii.eqb a "_" || Ascii.eqb a "-".
Definition is_hex_lower (a : ascii) : bool := is_ascii_digit a || byte_in 97 102 a.

Definition validate_tag (value t : string) : result FirestoneError string :=
  reject invalid value "the tag is empty" "write a tag such as ':latest' or omit it"
    when (is_empty t);
  reject invalid value ("the tag exceeds " +:+ dec MAX_TAG_BYTES +:+ " characters") "shorten the tag"
    when (MAX_TAG_BYTES <? len t)%Z;
  let first := from_option (λ a, a) "."%char (first_byte t) in
  let bytes := match t with String _ r => r | EmptyString => EmptyString end in
  reject invalid value "the tag must start with a letter, digit, or '_'"
      "write a tag such as ':24.04'"
    when (negb (is_ascii_alphanumeric first || Ascii.eqb first "_"));
  reject invalid value "the tag accepts only letters, digits, '.', '_', and '-'"
      "write a tag such as ':24.04'"
    when (negb (all_bytes is_tag_byte bytes));
  Ok t.

Definition validate_digest (value d : string) : result FirestoneError string :=
  match strip_prefix DIGEST_ALGORITHM d ≫= strip_prefix ":" with
  | None => Err (invalid value
      ("the digest must use the '" +:+ DIGEST_ALGORITHM +:+ ":' algorithm prefix")
      "pin the image with 'repository@sha256:<64 hex characters>'")
  | Some hex =>
      reject invalid value
          ("the digest must carry " +:+ dec DIGEST_HEX_LENGTH +:+ " lowercase hexadecimal characters")
          "pin the image with 'repository@sha256:<64 hex characters>'"
        when (negb (len hex =? DIGEST_HEX_LENGTH)%Z || negb (all_bytes is_hex_lower hex));
      Ok (DIGEST_ALGORITHM +:+ ":" +:+ hex)
  end.

(** The bytes equal to [b] at the start of [s]: how many, and what follows them. *)
Fixpoint run (b : ascii) (s : string) : nat * string :=
  match s with
  | String a r => if Ascii.eqb a b then let p := run b r in (S p.1, p.2) else (O, s)
  | EmptyString => (O, s)
  end.

(** The scanning loop; each turn consumes at least one byte, so [fuel] never has to
    exceed the length. *)
Fixpoint component_loop (fuel : nat) (expect_alphanumeric : bool) (s : string)
    : result string () :=
  match fuel, s with
  | _, EmptyString => Ok ()
  | O, _ => Err "out of fuel"
  | S fuel, String byte rest =>
      if is_lower_alnum byte then component_loop fuel false rest
      else
        reject "components must start and end with a letter or digit" when expect_alphanumeric;
        let '(run_length, rest) := run byte s in
        reject "separator runs must be '.', '_', '__', or '-'" when (negb
          (if Ascii.eqb byte "." then run_length =? 1
           else if Ascii.eqb byte "_" then run_length <=? 2
           else Ascii.eqb byte "-")%nat);
        reject "components must start and end with a letter or digit" when (is_empty rest);
        component_loop fuel true rest
  end.

Definition check_repository_component (component : string) : result string () :=
  reject "the component is empty" when (is_empty component);
  reject "only lowercase letters, digits, '.', '_', and '-' are accepted"
    when (negb (all_bytes is_repository_byte component));
  component_loop (String.length component) true component.

Fixpoint check_components (value : string) (l : list string) : result FirestoneError () :=
  match l with
  | [] => Ok ()
  | component :: l =>
      map_err (λ detail, invalid value
        ("repository component '" +:+ component +:+ "' is invalid: " +:+ detail)
        "use lowercase repository components such as 'library/nginx'")
        (check_repository_component component);;
      check_components value l
  end.
Definition validate_repository (value repository : string) : result FirestoneError () :=
  reject invalid value ("the repository exceeds " +:+ dec MAX_REPOSITORY_BYTES +:+ " characters")
      "shorten the repository path"
    when (MAX_REPOSITORY_BYTES <? len repository)%Z;
  check_components value (split "/" repository).

Definition check_label (label : string) : result string () :=
  reject "host labels must not be empty" when (is_empty label);
  reject ("host labels must be at most " +:+ dec MAX_HOST_LABEL_BYTES +:+ " characters")
    when (MAX_HOST_LABEL_BYTES <? len label)%Z;
  reject "host labels accept only ASCII letters, digits, and '-'"
    when (negb (all_bytes (λ a, is_ascii_alphanumeric a || Ascii.eqb a "-") label));
  reject "host labels must not start or end with '-'"
    when (starts_with "-" label || ends_with "-" label);
  Ok ().
Fixpoint check_labels (l : list string) : result string () :=
  match l with
  | [] => Ok ()
  | label :: l => check_label label;; check_labels l
  end.
Definition check_port (port : option string) : result string () :=
  match port with
  | None => Ok ()
  | Some port =>
      reject "the port must be decimal digits"
        when (is_empty port || negb (all_bytes is_ascii_digit port));
      match parse_u u32_max port with
      | Some number =>
          if (1 <=? number)%Z && (number <=? 65535)%Z then Ok ()
          else Err "the port must be between 1 and 65535"
      | None => Err "the port must be between 1 and 65535"
      end
  end.
Definition check_registry_host (value : string) : result string () :=
  reject "the host is empty" when (is_empty value);
  reject "a scheme is not allowed" when (contains_str "://" value);
  reject "a path is not allowed" when (has_char "/" value);
  reject "credentials are not allowed" when (has_char "@" value);
  let '(host, port) := match split_once ":" value with
    | Some (host, port) => (host, Some port)
    | None => (value, None)
    end in
  check_port port;;
  reject "the host is empty" when (is_empty host);
  check_labels (split "." host).

Definition validate_registry_host (value : string) : result FirestoneError () :=
  map_err (λ detail, with_hint
    (error_new InvalidSpec ("invalid registry host '" +:+ value +:+ "': " +:+ detail))
    "write a bare 'host' or 'host:port' entry such as 'localhost:5000'")
    (check_registry_host value).
Definition validate_registry_host_for (value registry : string) : result FirestoneError () :=
  map_err (λ detail, invalid value
    ("registry host '" +:+ registry +:+ "' is invalid: " +:+ detail)
    "write a bare 'host' or 'host:port' registry such as 'localhost:5000'")
    (check_registry_host registry).

(** ** Parsing *)

Definition looks_like_registry_host (component : string) : bool :=
  has_char "." component || has_char ":" component || String.eqb component "localhost".
Definition normalize_registry (component : string) : string :=
  let lowered := to_ascii_lowercase component in
  if String.eqb lowered DEFAULT_REGISTRY_ALIAS then DEFAULT_REGISTRY else lowered.

Definition strip_scheme (value : string) : option string :=
  match strip_prefix OCI_SCHEME_PREFIX value with
  | Some body => Some body
  | None => strip_prefix DOCKER_SCHEME_PREFIX value
  end.

Definition split_reference (value body : string)
    : result FirestoneError (string * OciTagOrDigest) :=
  match split_once "@" body with
  | Some (name, d) => d ← validate_digest value d; Ok (name, Digest d)
  | None =>
      let '(before, last_component) := match rsplit_once "/" body with
        | Some (b, l) => (b +:+ "/", l)
        | None => ("", body)
        end in
      match rsplit_once ":" last_component with
      | Some (n, t) => t ← validate_tag value t; Ok (before +:+ n, Tag t)
      | None => Ok (body, Tag DEFAULT_TAG)
      end
  end.

Definition parse (value : string) : result FirestoneError OciReference :=
  let body := from_option (λ b, b) value (strip_scheme value) in
  reject invalid value "the reference is empty" "write a reference such as `docker://nginx:latest`"
    when (is_empty body);
  nr ← split_reference value body;
  let '(name, reference) := nr in
  reject invalid value "the repository name is empty"
      "write a reference such as `docker://nginx:latest`"
    when (is_empty name);
  let '(registry, repository) := match split_once "/" name with
    | Some (first, rest) =>
        if looks_like_registry_host first then (normalize_registry first, rest)
        else (DEFAULT_REGISTRY, name)
    | None => (DEFAULT_REGISTRY, name)
    end in
  validate_registry_host_for value registry;;
  let repository :=
    if String.eqb registry DEFAULT_REGISTRY && negb (has_char "/" repository)
    then DEFAULT_NAMESPACE +:+ "/" +:+ repository else repository in
  validate_repository value repository;;
  Ok {| registry := registry; repository := repository; reference := reference |}.

Definition normalize (value : string) : result FirestoneError string :=
  r ← parse value; Ok (display r).

Definition classify (value : string) : option OciClassification :=
  match strip_scheme value with
  | Some _ => Some Scheme
  | None =>
      p ← split_once "/" value;
      if looks_like_registry_host p.1 then Some RegistryHost else None
  end.

(** ** Canonical references *)

Lemma validate_tag_Ok v t t' :
  validate_tag v t = Ok t' → t' = t ∧ all_bytes is_tag_byte t = true ∧ ∀ v', validate_tag v' t = Ok t.
Proof.
  unfold validate_tag. intros H. inv_ok. split; [done|]. split.
  - bool_props. destruct t' as [|a t']; [done|]. simpl in *. apply andb_true_iff. split; [|done].
    unfold is_tag_byte. apply orb_true_iff in H1 as [->| ->]; [done|]. by rewrite !orb_true_r.
  - intros v'. unfold validate_tag. by repeat (rewrite reject_if_false by done).
Qed.
Lemma validate_digest_Ok v d d' :
  validate_digest v d = Ok d' →
  d' = d ∧ has_char "/" d = false ∧ has_char "@" d = false ∧ ∀ v', validate_digest v' d = Ok d.
Proof.
  unfold validate_digest.
  destruct (strip_prefix DIGEST_ALGORITHM d ≫= strip_prefix ":") as [hex|] eqn:Hs; [|done].
  intros H. inv_ok. bool_props.
  apply bind_Some in Hs as (r & ->%strip_prefix_Some & ->%strip_prefix_Some).
  split; [done|].
  assert (∀ c, is_hex_lower c = false → has_char c hex = false) as Hc.
  { intros c Hc. by eapply all_bytes_no_char. }
  repeat split.
  - by rewrite !has_char_app, Hc.
  - by rewrite !has_char_app, Hc.
  - intros v'. rewrite reject_if_false; [done|]. by rewrite H, H0.
Qed.

Lemma check_components_Ok v v' l :
  check_components v l = Ok () → check_components v' l = Ok () ∧
  Forall (λ x, check_repository_component x = Ok ()) l.
Proof.
  induction l as [|x l IH]; [done|]. simpl. intros H. inv_ok. destruct r.
  rewrite H0. simpl. destruct (IH H1). auto.
Qed.
Lemma component_bytes x :
  check_repository_component x = Ok () → all_bytes is_repository_byte x = true.
Proof. unfold check_repository_component. intros H. inv_ok. by bool_props. Qed.

Lemma validate_repository_Ok v r :
  validate_repository v r = Ok () →
  (∀ v', validate_repository v' r = Ok ()) ∧ has_char "@" r = false ∧ has_char ":" r = false.
Proof.
  unfold validate_repository. intros H. inv_ok. split.
  - intros v'. rewrite H0. simpl. by apply (check_components_Ok v).
  - apply (check_components_Ok v v) in H1 as [_ H1].
    assert (∀ c, c ≠ "/"%char → is_repository_byte c = false → has_char c r = false) as Hc.
    { intros c Hne Hc. rewrite <- (join_split "/" r), has_char_join by done.
      apply not_true_iff_false. rewrite existsb_exists. intros (x & Hin & Hx).
      apply list_elem_of_In in Hin. rewrite Forall_forall in H1.
      specialize (H1 x Hin). apply component_bytes in H1.
      by rewrite (all_bytes_no_char _ _ _ Hc H1) in Hx. }
    split; by apply Hc.
Qed.

Lemma to_lower_idemp s : to_ascii_lowercase (to_ascii_lowercase s) = to_ascii_lowercase s.
Proof. induction s as [|a s IH]; simpl; [done|]. by rewrite to_ascii_lower_idemp, IH. Qed.
Lemma has_char_lower c s :
  (∀ a, Ascii.eqb (to_ascii_lower a) c = Ascii.eqb a c) →
  has_char c (to_ascii_lowercase s) = has_char c s.
Proof. intros Hc. induction s as [|a s IH]; simpl; [done|]. by rewrite IH, Hc. Qed.

(** What every parsed reference satisfies. *)
Record ref_wf (r : OciReference) : Prop := {
  wf_host : check_registry_host (registry r) = Ok ();
  wf_looks : looks_like_registry_host (registry r) = true;
  wf_normal : normalize_registry (registry r) = registry r;
  wf_repository : ∀ v, validate_repository v (repository r) = Ok ();
  wf_library : registry r = DEFAULT_REGISTRY → has_char "/" (repository r) = true;
  wf_reference : ∀ v, match reference r with
    | Tag t => validate_tag v t = Ok t
    | Digest d => validate_digest v d = Ok d
    end;
}.

Lemma normalize_registry_canonical x :
  looks_like_registry_host x = true →
  looks_like_registry_host (normalize_registry x) = true ∧
  normalize_registry (normalize_registry x) = normalize_registry x.
Proof.
  intros Hx. unfold normalize_registry.
  destruct (String.eqb (to_ascii_lowercase x) DEFAULT_REGISTRY_ALIAS) eqn:He; [done|].
  rewrite to_lower_idemp, He. split; [|done].
  unfold looks_like_registry_host in *. rewrite !has_char_lower by by_bytes.
  destruct (has_char "." x), (has_char ":" x); try done. simpl in *.
  by apply String.eqb_eq in Hx as ->.
Qed.

Lemma split_reference_wf v body name t :
  split_reference v body = Ok (name, t) →
  ∀ v', match t with
    | Tag t => validate_tag v' t = Ok t
    | Digest d => validate_digest v' d = Ok d
    end.
Proof.
  unfold split_reference. destruct (split_once "@" body) as [[n d]|].
  - intros H v'. inv_ok. apply validate_digest_Ok in H0 as (-> & _ & _ & H0). apply H0.
  - destruct (match rsplit_once "/" body with Some (b, l) => _ | None => _ end) as [before last].
    destruct (rsplit_once ":" last) as [[n t']|]; intros H v'; inv_ok; [|done].
    apply validate_tag_Ok in H0 as (-> & _ & H0). apply H0.
Qed.

Lemma parse_reference_wf v r : parse v = Ok r → ref_wf r.
Proof.
  unfold parse. intros H. inv_ok. destruct r0 as [name t]. inv_ok.
  destruct (match split_once "/" name with Some _ => _ | None => _ end) as [reg repo] eqn:Hn.
  inv_ok. destruct r0, r1.
  assert (looks_like_registry_host reg = true ∧ normalize_registry reg = reg) as [Hl Hr].
  { destruct (split_once "/" name) as [[first rest]|]; [|by injection Hn as <- <-].
    destruct (looks_like_registry_host first) eqn:Hf; injection Hn as <- <-; [|done].
    by apply normalize_registry_canonical. }
  unfold validate_registry_host_for in *. inv_ok.
  constructor; simpl; try done.
  - intros v'. by eapply validate_repository_Ok.
  - intros ->. rewrite String.eqb_refl. simpl. destruct (has_char "/" repo) eqn:Hs; done.
  - by eapply split_reference_wf.
Qed.

Lemma wf_host_chars r : ref_wf r →
  has_char "/" (registry r) = false ∧ has_char "@" (registry r) = false ∧ registry r ≠ "" ∧
  registry r ≠ "oci:" ∧ registry r ≠ "docker:".
Proof.
  intros [H _ _ _ _ _]. split_and!; [| | | |]; try (intros E; rewrite E in H; by vm_compute in H);
    unfold check_registry_host in H; by inv_ok.
Qed.

Lemma strip_scheme_host h x :
  has_char "/" h = false → h ≠ "oci:" → h ≠ "docker:" → strip_scheme (h +:+ String "/" x) = None.
Proof.
  intros Hs Ho Hd. unfold strip_scheme.
  assert (Hp : ∀ p q, has_char "/" p = false → h ≠ p → strip_prefix (p +:+ String "/" q) (h +:+ String "/" x) = None).
  { intros p q Hp Hne. destruct (strip_prefix _ _) eqn:E; [|done].
    apply strip_prefix_Some in E. rewrite app_assoc_str, app_cons in E.
    pose proof (split_once_app "/" _ x Hs) as E1. rewrite E, split_once_app in E1 by done.
    by injection E1. }
  change OCI_SCHEME_PREFIX with ("oci:" +:+ "//").
  change DOCKER_SCHEME_PREFIX with ("docker:" +:+ "//").
  by rewrite (Hp "oci:" "/"), (Hp "docker:" "/").
Qed.

(** The last component of [registry/repository] and what precedes it. *)
Lemma rsplit_name a b t :
  has_char "/" t = false →
  ∃ before last, rsplit_once "/" (a +:+ String "/" (b +:+ t)) = Some (before, last +:+ t) ∧
    before +:+ String "/" last = a +:+ String "/" b.
Proof.
  intros Ht. destruct (rsplit_once "/" (a +:+ String "/" b)) as [[x y]|] eqn:Hx.
  - apply rsplit_once_Some in Hx as [Hx Hy]. exists x, y. split; [|done].
    rewrite <- app_cons, <- app_assoc_str, Hx, app_assoc_str, app_cons.
    apply rsplit_once_app. by rewrite has_char_app, Hy.
  - apply rsplit_once_None in Hx. rewrite has_char_app in Hx.
    apply orb_false_iff in Hx as [_ Hx]. by apply has_char_cons in Hx as [? _].
Qed.

Lemma split_reference_display v r : ref_wf r →
  split_reference v (display r) = Ok (registry r +:+ String "/" (repository r), reference r).
Proof.
  intros Hwf. pose proof (wf_host_chars r Hwf) as (Hs & Ha & _).
  destruct Hwf as [_ _ _ Hrepo _ Href]. specialize (Hrepo v).
  apply validate_repository_Ok in Hrepo as (_ & Hra & Hrc).
  unfold display, split_reference. destruct (reference r) as [t|d]; simpl; str_norm.
  - pose proof (Href v) as (_ & Ht & _)%validate_tag_Ok.
    assert (∀ c, is_tag_byte c = false → has_char c t = false) as Hc
      by (intros c Hc; by eapply all_bytes_no_char).
    rewrite (proj2 (split_once_None _ _)).
    2:{ rewrite !has_char_app. simpl. rewrite Ha, has_char_app, Hra. simpl. by rewrite Hc. }
    destruct (rsplit_name (registry r) (repository r) (String ":" t)) as (b & l & -> & Hbl).
    { simpl. by rewrite Hc. }
    rewrite rsplit_once_app by (by apply Hc). rewrite (Href v). simpl. str_norm. by rewrite Hbl.
  - pose proof (Href v) as (_ & Hd & Hd' & _)%validate_digest_Ok.
    rewrite <- app_cons, <- app_assoc_str, split_once_app.
    2:{ rewrite has_char_app. simpl. by rewrite Ha, Hra. }
    by rewrite (Href v).
Qed.

(** The canonical text of a parsed reference parses back to it. *)
Lemma parse_canonical v r :
  parse v = Ok r → classify (display r) = Some RegistryHost ∧ parse (display r) = Ok r.
Proof.
  intros Hwf%parse_reference_wf.
  pose proof (wf_host_chars r Hwf) as (Hs & Ha & Hne & Ho & Hd).
  assert (Hstrip : strip_scheme (display r) = None) by (by apply strip_scheme_host).
  assert (Hparse : parse (display r) = Ok r).
  { unfold parse. rewrite Hstrip. simpl. rewrite reject_if_false.
    2:{ apply is_empty_false. unfold display. destruct (registry r); [done|]. by str_norm. }
    rewrite split_reference_display by done. simpl. rewrite reject_if_false.
    2:{ apply is_empty_false. destruct (registry r); [done|]. by str_norm. }
    rewrite split_once_app by done. destruct Hwf as [Hh Hl Hn Hr Hlib _].
    rewrite Hl. simpl. rewrite Hn. unfold validate_registry_host_for. rewrite Hh. simpl.
    assert (String.eqb (registry r) DEFAULT_REGISTRY && negb (has_char "/" (repository r)) = false) as ->.
    { destruct (String.eqb_spec (registry r) DEFAULT_REGISTRY) as [E|]; [|done]. by rewrite (Hlib E). }
    rewrite Hr. simpl. by destruct r. }
  split; [|done]. unfold classify. rewrite Hstrip. unfold display. str_norm. rewrite split_once_app by done.
  simpl. by destruct Hwf as [_ -> _ _ _ _].
Qed.

(** C40: oci/mod.rs, [OciReference]: what [parse] accepts is canonical, and a canonical
    reference displays as text that classifies as a registry reference and parses back
    to it; [normalize] is therefore idempotent. *)
Theorem oci_reference_roundtrip v r :
  parse v = Ok r →
  ref_wf r ∧ classify (display r) = Some RegistryHost ∧ parse (display r) = Ok r ∧
  normalize (display r) = Ok (display r).
Proof.
  intros Hp. apply parse_reference_wf in Hp as Hwf. apply parse_canonical in Hp as [Hc Hp]. split_and!; try done.
  unfold normalize. by rewrite Hp.
Qed.
Lemma oci_reference_roundtrip_witness :
  parse "docker://Index.Docker.io/nginx" =
    Ok {| registry := "docker.io"; repository := "library/nginx"; reference := Tag "latest" |} ∧
  normalize "docker.io/library/nginx:latest" = Ok "docker.io/library/nginx:latest".
Proof.
  split; [by vm_compute|].
  by eapply (oci_reference_roundtrip "docker://Index.Docker.io/nginx"
    {| registry := "docker.io"; repository := "library/nginx"; reference := Tag "latest" |}).
Defined.

(** ** URLs *)

Lemma split_reference_prefix v p b name t :
  has_char "/" p = false →
  split_reference v (p +:+ ":" +:+ "//" +:+ b) = Ok (name, t) → ∃ x, name = p +:+ ":" +:+ "/" +:+ x.
Proof.
  intros Hp. unfold split_reference. destruct (split_once "@" _) as [[n d]|] eqn:Ha.
  - intros H. inv_ok. apply validate_digest_Ok in H0 as (-> & Hd & _).
    apply split_once_Some in Ha as [Ha Hn].
    destruct (has_char "/" name) eqn:Hs.
    + destruct (split_once "/" name) as [[x y]|] eqn:Hxy; [|apply split_once_None in Hxy; congruence].
      apply split_once_Some in Hxy as [-> Hx]. str_norm.
      pose proof (split_once_app "/" x (y +:+ String "@" d) Hx) as E.
      rewrite <- Ha in E. replace (p +:+ String ":" (String "/" (String "/" b)))
        with ((p +:+ ":") +:+ String "/" (String "/" b)) in E by by str_norm.
      rewrite split_once_app in E by (by rewrite has_char_app, Hp). injection E as <- _.
      exists y. by str_norm.
    + apply (f_equal (has_char "/")) in Ha. str_norm. rewrite !has_char_app in Ha. simpl in Ha.
      rewrite Hp, Hs, Hd in Ha. done.
  - replace (p +:+ ":" +:+ "//" +:+ b) with ((p +:+ ":") +:+ String "/" ("/" +:+ b)) by by str_norm.
    intros H.
    destruct (rsplit_once "/" (String "/" b)) as [[x y]|] eqn:Hx.
    2:{ by apply rsplit_once_None, has_char_cons in Hx as [? _]. }
    apply rsplit_once_Some in Hx as [Hx Hy].
    assert (rsplit_once "/" ((p +:+ ":") +:+ String "/" ("/" +:+ b)) =
      Some ((p +:+ ":") +:+ String "/" x, y)) as E.
    { change ("/" +:+ b) with (String "/" b). rewrite Hx.
      replace ((p +:+ ":") +:+ String "/" (x +:+ String "/" y))
        with (((p +:+ ":") +:+ String "/" x) +:+ String "/" y) by by str_norm.
      by apply rsplit_once_app. }
    rewrite E in H. destruct (rsplit_once ":" y) as [[n t']|]; inv_ok.
    + exists (x +:+ "/" +:+ n). by str_norm.
    + exists (x +:+ "/" +:+ y). str_norm. by rewrite <- Hx.
Qed.

Lemma to_lower_app s t :
  to_ascii_lowercase (s +:+ t) = to_ascii_lowercase s +:+ to_ascii_lowercase t.
Proof. induction s as [|a s IH]; [done|]. rewrite !app_cons. simpl. by rewrite IH. Qed.
(** A host that ends in a colon has an empty or non-numeric port. *)
Lemma no_trailing_colon s : check_registry_host (normalize_registry (s +:+ ":")) ≠ Ok ().
Proof.
  unfold normalize_registry. rewrite to_lower_app. change (to_ascii_lowercase ":") with ":". set (l := to_ascii_lowercase s).
  destruct (String.eqb_spec (l +:+ ":") DEFAULT_REGISTRY_ALIAS) as [E|_].
  { apply (f_equal (has_char ":")) in E. rewrite has_char_app in E. simpl in E.
    by rewrite orb_true_r in E. }
  unfold check_registry_host. intros H. inv_ok.
  destruct (split_once ":" (l +:+ ":")) as [[h p]|] eqn:Hp.
  - apply split_once_Some in Hp as [Hp _]. inv_ok. unfold check_port in *. inv_ok. bool_props.
    match goal with H : all_bytes is_ascii_digit p = true |- _ =>
      apply (all_bytes_no_char _ ":"%char) in H; [|done]; rename H into Hc end.
    pose proof (rsplit_once_app ":" l "" eq_refl) as E1.
    change (String ":" "") with ":" in E1. rewrite Hp, rsplit_once_app in E1 by done.
    injection E1 as -> ->. done.
  - apply split_once_None in Hp. rewrite has_char_app in Hp. by apply orb_false_iff in Hp as [_ ?].
Qed.

(** oci/mod.rs, [classify]'s promise about URLs: no [scheme://...] text other than the
    two OCI schemes ever parses as an image reference, since the scheme's colon leaves the
    registry host with an empty port. *)
Theorem oci_url_never_parses scheme rest :
  has_char "/" scheme = false → scheme ≠ "oci" → scheme ≠ "docker" →
  ∃ e, parse (scheme +:+ "://" +:+ rest) = Err e.
Proof.
  intros Hs Ho Hd. destruct (parse (scheme +:+ "://" +:+ rest)) as [r|e] eqn:Hp; [|by exists e].
  exfalso. revert Hp. unfold parse.
  assert (strip_scheme (scheme +:+ "://" +:+ rest) = None) as ->.
  { replace (scheme +:+ "://" +:+ rest) with ((scheme +:+ ":") +:+ String "/" (String "/" rest))
      by by str_norm.
    apply strip_scheme_host; [by rewrite has_char_app, Hs|..]; intros E;
      [change "oci:" with ("oci" +:+ ":") in E|change "docker:" with ("docker" +:+ ":") in E];
      by apply app_inj_r in E. }
  simpl. intros H. inv_ok. destruct r0 as [name t]. inv_ok.
  change ("://" +:+ rest) with (":" +:+ "//" +:+ rest) in *.
  match goal with H : split_reference _ _ = _ |- _ =>
    apply split_reference_prefix in H as [x ->]; [|done] end.
  replace (scheme +:+ ":" +:+ "/" +:+ x) with ((scheme +:+ ":") +:+ String "/" x) in * by by str_norm.
  rewrite split_once_app in * by (by rewrite has_char_app, Hs).
  assert (looks_like_registry_host (scheme +:+ ":") = true) as Hl.
  { unfold looks_like_registry_host. rewrite !has_char_app. simpl. by rewrite !orb_true_r. }
  rewrite Hl in *. cbv beta iota zeta in *. inv_ok. unfold validate_registry_host_for in *. inv_ok.
  destruct r0. by apply (no_trailing_colon scheme).
Qed.
Lemma oci_url_never_parses_witness : is_ok (parse "https://cloud-images.ubuntu.com/noble/disk.img") = false.
Proof.
  destruct (oci_url_never_parses "https" "cloud-images.ubuntu.com/noble/disk.img") as [e He];
    [by vm_compute|done|done|].
  change "https://cloud-images.ubuntu.com/noble/disk.img"
    with ("https" +:+ "://" +:+ "cloud-images.ubuntu.com/noble/disk.img").
  by rewrite He.
Defined.

(** ** The repository component grammar *)

Definition alnum_run (x : string) : Prop := x ≠ "" ∧ all_bytes is_lower_alnum x = true.
Definition separator (x : string) : Prop :=
  x = "." ∨ x = "_" ∨ x = "__" ∨ (x ≠ "" ∧ all_bytes (Ascii.eqb "-") x = true).
(** The grammar of the distribution specification: runs of lowercase letters and digits,
    joined by a dot, one or two underscores, or dashes. *)
Inductive repository_component : string → Prop :=
  | component_last x : alnum_run x → repository_component x
  | component_sep x sep rest :
      alnum_run x → separator sep → repository_component rest →
      repository_component (x +:+ sep +:+ rest).

(** What may follow a letter or digit. *)
Definition component_tail (s : string) : Prop :=
  s = "" ∨ repository_component s ∨
  ∃ sep rest, separator sep ∧ repository_component rest ∧ s = sep +:+ rest.

Lemma repository_component_head s :
  repository_component s → ∃ a r, s = String a r ∧ is_lower_alnum a = true ∧ component_tail r.
Proof.
  assert (Hrun : ∀ x, alnum_run x → ∃ a r, x = String a r ∧ is_lower_alnum a = true ∧
    (r = "" ∨ alnum_run r)).
  { intros [|a r] [? H]; [done|]. simpl in H. bool_props. exists a, r. split_and!; [done..|].
    destruct r; [by left|right; done]. }
  intros [x Hx|x sep rest Hx Hs Hr]; destruct (Hrun x Hx) as (a & r & -> & Ha & [->|Hrest]).
  - exists a, "". split_and!; [done..|by left].
  - exists a, r. split_and!; [done..|]. right; left. by constructor.
  - exists a, (sep +:+ rest). split_and!; [done..|]. right; right. eauto.
  - exists a, (r +:+ sep +:+ rest). split_and!; [done..|]. right; left. by constructor.
Qed.
Lemma repository_component_cons a s :
  is_lower_alnum a = true → repository_component (String a s) ↔ component_tail s.
Proof.
  intros Ha. split; [intros (b & r & [= <- <-] & _ & ?)%repository_component_head; done|].
  assert (alnum_run (one a)) by (split; [done|by simpl; rewrite Ha]).
  intros [->|[Hs|(sep & rest & ? & ? & ->)]]; [by constructor| |by apply (component_sep (one a))].
  destruct Hs as [x [? Hx]|x sep rest [? Hx] ? ?].
  - constructor. split; [done|]. simpl. by rewrite Ha.
  - apply (component_sep (String a x)); [|done..]. split; [done|]. simpl. by rewrite Ha.
Qed.
Lemma separator_head sep : separator sep → ∃ a r, sep = String a r ∧ is_lower_alnum a = false.
Proof.
  intros [->|[->|[->|[Hne Hs]]]]; [by eexists _, _..|]. destruct sep as [|a r]; [done|].
  simpl in Hs. bool_props. apply Ascii.eqb_eq in H as <-. by eexists _, _.
Qed.
Lemma component_tail_alnum a s :
  is_lower_alnum a = true → component_tail (String a s) ↔ component_tail s.
Proof.
  intros Ha. rewrite <- (repository_component_cons a s) by done. split; [|by right; left].
  intros [?|[?|(sep & rest & Hs & _ & E)]]; [done..|].
  apply separator_head in Hs as (b & r & -> & Hb). injection E as <- _. congruence.
Qed.

Definition allowed_run (b : ascii) (n : nat) : bool :=
  if Ascii.eqb b "." then n =? 1 else if Ascii.eqb b "_" then n <=? 2 else Ascii.eqb b "-".

Fixpoint repeat_byte (b : ascii) (n : nat) : string :=
  match n with O => "" | S n => String b (repeat_byte b n) end.
Lemma run_repeat b s n r : run b s = (n, r) → s = repeat_byte b n +:+ r.
Proof.
  revert n r; induction s as [|a s IH]; simpl; intros n r; [by intros [= <- <-]|].
  destruct (Ascii.eqb_spec a b) as [->|]; [|by intros [= <- <-]].
  destruct (run b s) as [m r'] eqn:Hr. simpl. intros [= <- <-]. cbn [repeat_byte]. str_norm.
  f_equal. by apply IH.
Qed.
Lemma run_of_repeat b n a s :
  a ≠ b → run b (repeat_byte b n +:+ String a s) = (n, String a s).
Proof.
  intros Hne. induction n as [|n IH]; cbn [repeat_byte]; str_norm.
  - simpl. by rewrite (proj2 (Ascii.eqb_neq a b)).
  - cbn [run]. by rewrite Ascii.eqb_refl, IH.
Qed.
Lemma separator_repeat sep :
  separator sep ↔ ∃ b n, sep = repeat_byte b (S n) ∧ allowed_run b (S n) = true.
Proof.
  split.
  - intros [->|[->|[->|[Hne Hs]]]].
    + by exists "."%char, O.
    + by exists "_"%char, O.
    + by exists "_"%char, 1.
    + destruct sep as [|a r]; [done|]. simpl in Hs. bool_props. apply Ascii.eqb_eq in H as <-.
      exists "-"%char, (String.length r). split; [|done]. simpl. f_equal. clear Hne.
      induction r as [|a r IH]; [done|]. simpl in *. bool_props. apply Ascii.eqb_eq in H as <-.
      f_equal; auto.
  - intros (b & n & -> & H). unfold allowed_run in H.
    destruct (Ascii.eqb_spec b ".") as [->|]; [apply Nat.eqb_eq in H; injection H as ->; by left|].
    destruct (Ascii.eqb_spec b "_") as [->|].
    { apply Nat.leb_le in H. destruct n as [|[|]]; [right; by left|right; right; by left|lia]. }
    apply Ascii.eqb_eq in H as ->. right; right; right. split; [done|]. clear.
    induction n as [|n IH]; [done|]. simpl in *. by rewrite IH.
Qed.

Lemma component_loop_spec fuel e s :
  String.length s ≤ fuel →
  component_loop fuel e s = Ok () ↔
    if e then s = "" ∨ repository_component s else component_tail s.
Proof.
  revert e s. induction fuel as [|fuel IH]; intros e [|b s] Hlen; simpl in Hlen; try lia.
  1-2: simpl; destruct e; unfold component_tail; tauto.
  destruct (is_lower_alnum b) eqn:Hb; cbn [component_loop]; rewrite Hb.
  - rewrite IH by lia. destruct e; [|by rewrite component_tail_alnum].
    rewrite repository_component_cons by done. naive_solver.
  - assert (¬ repository_component (String b s)) as Hnot.
    { intros (a & r & [= <- <-] & Ha & _)%repository_component_head. congruence. }
    destruct e; [split; [done|by intros [?|?]]|]. rewrite reject_if_false by done.
    destruct (run b (String b s)) as [n r] eqn:Hrun.
    apply run_repeat in Hrun as Hs. destruct n as [|n]; [simpl in Hrun; by rewrite Ascii.eqb_refl in Hrun|].
    assert (String.length r ≤ fuel) as Hr.
    { apply (f_equal String.length) in Hs. simpl in Hs. rewrite length_app_str in Hs. lia. }
    fold (allowed_run b (S n)). rewrite !reject_if_Ok, negb_false_iff, is_empty_false, (IH true r Hr). split.
    + intros (Hal & Hne & [?|Hc]); [done|]. right; right. exists (repeat_byte b (S n)), r.
      split; [apply separator_repeat; eauto|done].
    + intros [?|[?|(sep & rest & (c & m & -> & Hal)%separator_repeat & Hc & E)]]; [done..|].
      apply repository_component_head in Hc as Hh. destruct Hh as (a & q & -> & Ha & _).
      injection E as <- E. rewrite E in Hrun.
      change (String b (repeat_byte b m +:+ String a q))
        with (repeat_byte b (S m) +:+ String a q) in Hrun.
      rewrite run_of_repeat in Hrun by congruence. injection Hrun as <- <-.
      split; [done|]. split; [done|by right].
Qed.

Lemma lower_alnum_repository a : is_lower_alnum a = true → is_repository_byte a = true.
Proof. unfold is_repository_byte. by intros ->. Qed.
Lemma repository_component_bytes s :
  repository_component s → all_bytes is_repository_byte s = true.
Proof.
  assert (∀ x, alnum_run x → all_bytes is_repository_byte x = true) as Hr.
  { intros x [_ H]. by eapply all_bytes_impl; [apply lower_alnum_repository|]. }
  induction 1 as [|x sep rest Hx Hs _ IH]; [auto|]. rewrite !all_bytes_app, Hr, IH, andb_true_r by done.
  destruct Hs as [->|[->|[->|[_ Hs]]]]; [done..|].
  eapply all_bytes_impl; [|exact Hs]. intros a <-%Ascii.eqb_eq. done.
Qed.

(** oci/mod.rs, [check_repository_component]: its index loop accepts exactly the
    components of the distribution grammar, and always within the input's length. *)
Theorem repository_component_grammar s :
  check_repository_component s = Ok () ↔ repository_component s.
Proof.
  unfold check_repository_component.
  rewrite !reject_if_Ok, is_empty_false, negb_false_iff, component_loop_spec by done. split.
  - by intros (? & _ & [?|?]).
  - intros H. split; [|split; [by apply repository_component_bytes|by right]].
    by apply repository_component_head in H as (? & ? & -> & _).
Qed.
