(* ===== verification/BTree.v ===== *)
(** Rust's [BTreeMap<Vec<u8>, V>]: a finite map read in the order of its keys.
    A byte string is a [string]; its order is the lexicographic order of bytes. *)
From S2P Require Import Prelude RustStr.

Fixpoint str_ltb (s t : string) : bool :=
  match s, t with
  | _, EmptyString => false
  | EmptyString, String _ _ => true
  | String a s, String b t => (code a <? code b)%Z || ((code a =? code b)%Z && str_ltb s t)
  end.
Definition str_le (s t : string) : Prop := str_ltb t s = false.
Definition str_lt (s t : string) : Prop := str_ltb s t = true.
#[export] Instance str_le_dec s t : Decision (str_le s t).
Proof. unfold str_le. apply _. Defined.

Lemma str_lt_trans s t u : str_lt s t → str_lt t u → str_lt s u.
Proof.
  unfold str_lt. revert t u; induction s as [|a s IH]; intros [|b t] [|c u]; simpl; try done.
  rewrite !orb_true_iff, !andb_true_iff, !Z.ltb_lt, !Z.eqb_eq.
  intros [?|[??]] [?|[??]]; try (left; lia). right. split; [lia|eauto].
Qed.
Lemma str_lt_irrefl s : ¬ str_lt s s.
Proof.
  unfold str_lt. induction s as [|a s IH]; simpl; [done|]. by rewrite Z.ltb_irrefl, Z.eqb_refl.
Qed.
Lemma str_trichotomy s t : str_lt s t ∨ s = t ∨ str_lt t s.
Proof.
  unfold str_lt. revert t; induction s as [|a s IH]; intros [|b t]; simpl; auto.
  rewrite !orb_true_iff, !andb_true_iff, !Z.ltb_lt, !Z.eqb_eq.
  destruct (Z.lt_trichotomy (code a) (code b)) as [|[Hc|]]; auto.
  destruct (IH t) as [|[->|]]; auto. right; left. by rewrite (code_inj _ _ Hc).
Qed.
Lemma str_le_lt s t : str_le s t ↔ s = t ∨ str_lt s t.
Proof.
  unfold str_le. fold (str_lt t s). split.
  - intros H. destruct (str_trichotomy s t) as [|[|H']]; auto. unfold str_lt in H'. congruence.
  - intros [->|H].
    + destruct (str_ltb t t) eqn:E; [by apply str_lt_irrefl in E|done].
    + destruct (str_ltb t s) eqn:E; [|done]. by destruct (str_lt_irrefl s); eapply str_lt_trans.
Qed.

#[export] Instance str_le_trans : Transitive str_le.
Proof.
  intros s t u. rewrite !str_le_lt. intros [->|?] [->|?]; auto. right. by eapply str_lt_trans.
Qed.
#[export] Instance str_le_total : Total str_le.
Proof. intros s t. rewrite !str_le_lt. destruct (str_trichotomy s t) as [|[|]]; auto. Qed.
#[export] Instance str_le_antisymm : AntiSymm (=) str_le.
Proof.
  intros s t. rewrite !str_le_lt. intros [->|H1] [H2|H2]; auto.
  destruct (str_lt_irrefl s). by eapply str_lt_trans.
Qed.
Lemma str_le_empty s : str_le "" s.
Proof. by destruct s. Qed.
Lemma str_le_prefix p r : str_le p (p +:+ r).
Proof.
  induction p as [|a p IH]; [apply str_le_empty|]. unfold str_le in *. rewrite app_cons. simpl.
  rewrite IH, Z.ltb_irrefl. by rewrite andb_false_r.
Qed.
(** Between a string and one of its extensions there are only extensions of it. *)
Lemma str_le_between p s r : str_le p s → str_le s (p +:+ r) → ∃ r', s = p +:+ r'.
Proof.
  unfold str_le. revert s; induction p as [|a p IH]; intros s; [by exists s|].
  destruct s as [|b s]; [done|]. rewrite app_cons. simpl.
  rewrite !orb_false_iff, !andb_false_iff, !Z.ltb_ge, !Z.eqb_neq.
  intros [? [?|H1]] [? [?|H2]]; try lia; assert (code a = code b) as E%code_inj by lia; subst.
  destruct (IH s H1 H2) as [r' ->]. by exists r'.
Qed.

Section btree.
Context {V : Type}.
Implicit Types m : gmap string V.

Definition entry_le (p q : string * V) : Prop := str_le p.1 q.1.
#[export] Instance entry_le_dec p q : Decision (entry_le p q).
Proof. unfold entry_le. apply _. Defined.
#[export] Instance entry_le_trans : Transitive entry_le.
Proof. intros ???. unfold entry_le. apply str_le_trans. Qed.
#[export] Instance entry_le_total : Total entry_le.
Proof. intros ??. apply str_le_total. Qed.

(** [map.iter()] and [map.range(k..)]. *)
Definition iter m : list (string * V) := merge_sort entry_le (map_to_list m).
Definition range_from (k : string) m : list (string * V) := filter (λ p, str_le k p.1) (iter m).

Lemma elem_of_iter m k v : (k, v) ∈ iter m ↔ m !! k = Some v.
Proof. unfold iter. rewrite merge_sort_Permutation. apply elem_of_map_to_list. Qed.
Lemma iter_sorted m : StronglySorted entry_le (iter m).
Proof. apply StronglySorted_merge_sort; apply _. Qed.
Lemma iter_NoDup m : NoDup (iter m).*1.
Proof. unfold iter. rewrite merge_sort_Permutation. apply NoDup_fst_map_to_list. Qed.
Lemma elem_of_range m k k' v : (k', v) ∈ range_from k m ↔ str_le k k' ∧ m !! k' = Some v.
Proof. unfold range_from. by rewrite list_elem_of_filter, elem_of_iter. Qed.
Lemma range_sorted m k : StronglySorted entry_le (range_from k m).
Proof.
  unfold range_from. pose proof (iter_sorted m) as Hs. induction Hs as [|p l Hl IH Hp]; [constructor|].
  rewrite filter_cons. case_decide; [|done]. constructor; [done|].
  rewrite Forall_forall in *. intros q [_ Hq]%list_elem_of_filter. by apply Hp.
Qed.
End btree.

(** ** Strictly sorted lists *)

Definition key_lt {V} (p q : string * V) : Prop := str_lt p.1 q.1.

Lemma iter_strict {V} (m : gmap string V) : StronglySorted key_lt (iter m).
Proof.
  pose proof (iter_sorted m) as Hs. pose proof (iter_NoDup m) as Hnd.
  induction Hs as [|p l Hl IH Hp]; [constructor|]. simpl in Hnd. apply NoDup_cons in Hnd as [Hnd Hnd'].
  constructor; [by apply IH|]. rewrite Forall_forall in *. intros q Hq. specialize (Hp q Hq).
  unfold entry_le in Hp. apply str_le_lt in Hp as [E|]; [|done]. exfalso. apply Hnd. rewrite E.
  by apply list_elem_of_fmap_2.
Qed.

(** A strictly sorted list is determined by its elements. *)
Lemma sorted_ext {A} (R : relation A) l1 l2 :
  (∀ x, ¬ R x x) → Transitive R → StronglySorted R l1 → StronglySorted R l2 →
  (∀ x, x ∈ l1 ↔ x ∈ l2) → l1 = l2.
Proof.
  intros Hirr Htr Hs1. revert l2. induction Hs1 as [|x l1 Hs1 IH Hx]; intros l2 Hs2 Heq.
  - destruct l2 as [|y l2]; [done|]. specialize (Heq y). set_solver.
  - destruct Hs2 as [|y l2 Hs2 Hy]; [specialize (Heq x); set_solver|].
    rewrite Forall_forall in Hx, Hy. assert (x = y) as ->.
    { assert (x = y ∨ x ∈ l2) as [|Hx2] by (rewrite <- elem_of_cons, <- Heq; by left); [done|].
      assert (y = x ∨ y ∈ l1) as [|Hy1] by (rewrite <- elem_of_cons, Heq; by left); [done|].
      destruct (Hirr x). transitivity y; auto. }
    f_equal. apply IH; [done|]. intros z. specialize (Heq z). rewrite !elem_of_cons in Heq.
    split; intros Hz.
    + assert (z = y ∨ z ∈ l2) as [->|] by (apply Heq; by right); [|done]. by destruct (Hirr y (Hx y Hz)).
    + assert (z = y ∨ z ∈ l1) as [->|] by (apply Heq; by right); [|done]. by destruct (Hirr y (Hy y Hz)).
Qed.
