(* ===== verification/InitProto.v ===== *)
(** The config disk that host and guest agree on ([firestone-initproto/src/lib.rs]), its
    writer ([firestone-core/src/initconfig.rs]), its reader
    ([firestone-init/src/config.rs]) and the root resize arithmetic
    ([firestone-init/src/resize.rs]). *)
From S2P Require Import Prelude RustStr Errors Bounded.
Open Scope Z_scope.

Definition CONFIG_MAGIC : list Z := [70; 83; 84; 78; 73; 78; 73; 84].
Definition CONFIG_FORMAT_VERSION : Z := 1.
Definition CONFIG_HEADER_LEN : Z := 16.
Definition MAX_CONFIG_JSON_BYTES : Z := 65536.
Definition CONFIG_DISK_ALIGNMENT : Z := 4096.

Inductive InitNetwork : Set := Dhcp | NoNetwork.
Definition init_network_as_str (n : InitNetwork) : string :=
  match n with Dhcp => "dhcp" | NoNetwork => "none" end.

Record InitConfig : Set := {
  hostname : string;
  entrypoint : list string;
  cmd : list string;
  env : list string;
  workdir : option string;
  user : option string;
  network : InitNetwork;
  disk_size_bytes : Z;
}.

Inductive FrameError : Set :=
  | TooShort (available : Z)
  | BadMagic
  | UnsupportedVersion (found : Z)
  | LengthTooLarge (declared : Z)
  | Truncated (declared available : Z)
  | FrameJson (text : string).
Inductive EncodeError : Set := TooLarge (len : Z) | EncodeJson (text : string).

Definition magic_str : string := "FSTNINIT".
Definition frame_error_display (e : FrameError) : string :=
  match e with
  | TooShort available => "config disk holds " +:+ dec available
      +:+ " bytes; a frame header needs " +:+ dec CONFIG_HEADER_LEN
  | BadMagic => "config disk does not start with the " +:+ magic_str +:+ " magic"
  | UnsupportedVersion found => "config disk declares format version " +:+ dec found
      +:+ "; this build reads version " +:+ dec CONFIG_FORMAT_VERSION
  | LengthTooLarge declared => "config disk declares " +:+ dec declared
      +:+ " JSON bytes; the limit is " +:+ dec MAX_CONFIG_JSON_BYTES
  | Truncated declared available => "config disk declares " +:+ dec declared
      +:+ " JSON bytes but holds " +:+ dec available
  | FrameJson source => "config document is invalid: " +:+ source
  end.
Definition encode_error_display (e : EncodeError) : string :=
  match e with
  | TooLarge len => "config document is " +:+ dec len +:+ " bytes; the limit is "
      +:+ dec MAX_CONFIG_JSON_BYTES
  | EncodeJson source => "cannot serialize config document: " +:+ source
  end.

Definition length_z {A} (l : list A) : Z := Z.of_nat (length l).

(** [read_u32_le]: missing bytes read as zero. *)
Definition read_u32_le (bytes : list Z) : Z :=
  let len := Nat.min 4 (length bytes) in
  from_le_bytes (take len bytes ++ replicate (4 - len) 0).

Section frame.
(** serde_json on the config document. *)
Context (to_vec : InitConfig → result string (list Z)).
Context (from_slice : list Z → result string InitConfig).

Definition encode_frame (config : InitConfig) : result EncodeError (list Z) :=
  json ← map_err EncodeJson (to_vec config);
  len ← ok_or (try_from_u u32_max (length_z json)) (TooLarge (length_z json));
  reject TooLarge (length_z json) when (MAX_CONFIG_JSON_BYTES <? len);
  Ok (CONFIG_MAGIC ++ to_le_bytes 4 CONFIG_FORMAT_VERSION ++ to_le_bytes 4 len ++ json).

Definition decode_frame (bytes : list Z) : result FrameError InitConfig :=
  reject TooShort (length_z bytes) when (length_z bytes <? CONFIG_HEADER_LEN);
  let header := take (Z.to_nat CONFIG_HEADER_LEN) bytes in
  let body := drop (Z.to_nat CONFIG_HEADER_LEN) bytes in
  reject BadMagic when (negb (bool_decide (take 8 header = CONFIG_MAGIC)));
  let version := read_u32_le (take 4 (drop 8 header)) in
  reject UnsupportedVersion version when (negb (version =? CONFIG_FORMAT_VERSION));
  let declared := read_u32_le (take 4 (drop 12 header)) in
  reject LengthTooLarge declared when (MAX_CONFIG_JSON_BYTES <? declared);
  reject Truncated declared (length_z body) when (length_z body <? declared);
  map_err FrameJson (from_slice (take (Z.to_nat declared) body)).

(** initconfig.rs: the disk is the frame, zero-padded to whole blocks. *)
Definition build_config_disk (config : InitConfig) : result FirestoneError (list Z) :=
  bytes ← map_err (λ source, with_hint
    (error_new InvalidSpec
      ("cannot build the firestone-init config disk: " +:+ encode_error_display source))
    "reduce the image entrypoint, cmd and environment") (encode_frame config);
  let alignment := CONFIG_DISK_ALIGNMENT in
  let padded := (length_z bytes + alignment - 1) / alignment * alignment in
  let size := Z.max padded alignment in
  Ok (bytes ++ replicate (Z.to_nat (size - length_z bytes)) 0).

(** config.rs: the guest side. *)
Inductive ConfigError : Set := ConfigIo (path : string) (source : IoError) | Frame (e : FrameError).
Definition config_error_display (e : ConfigError) : string :=
  match e with
  | ConfigIo path source => "cannot read " +:+ path +:+ ": " +:+ io_text source
  | Frame source => frame_error_display source
  end.
Definition read_config (path : string) (open : result IoError Reader)
    : result ConfigError InitConfig :=
  let limit := CONFIG_HEADER_LEN + MAX_CONFIG_JSON_BYTES in
  file ← map_err (ConfigIo path) open;
  bytes ← map_err (ConfigIo path) (take_read_to_end limit file);
  map_err Frame (decode_frame bytes).
End frame.

(** [config_disk_identity]; [sha256] is the digest of the sha2 crate. *)
Definition config_disk_identity (sha256 : list Z → list Z) (name : string) (framed : list Z) : string :=
  let domain := (λ a, code a) <$> String.list_ascii_of_string ("firestone-init-config-v1" +:+ one NUL) in
  let digest := sha256 (domain ++ to_be_bytes 8 (length_z framed) ++ framed) in
  let prefix := foldr (λ b acc, hex2 b +:+ acc) "" (take 6 digest) in
  "iid-" +:+ name +:+ "-" +:+ prefix.

(** ** Environment merging *)

Definition env_key (entry : string) : string :=
  match split_once "=" entry with Some (k, _) => k | None => entry end.
(** One turn of the loop: replace the first entry with this key, or append. *)
Fixpoint merge_entry (merged : list string) (entry : string) : list string :=
  match merged with
  | [] => [entry]
  | x :: merged =>
      if String.eqb (env_key x) (env_key entry) then entry :: merged
      else x :: merge_entry merged entry
  end.
Definition merge_env (image overrides : list string) : list string :=
  foldl merge_entry [] (image ++ overrides).

(** ** Root filesystem growth *)

Definition resize_target_blocks (requested_bytes device_bytes block_size current_blocks : Z)
    : option Z :=
  if block_size =? 0 then None
  else
    let capped := Z.min requested_bytes device_bytes in
    let target := capped / block_size in
    if current_blocks <? target then Some target else None.

(** ** Theorems *)

Lemma read_u32_le_to z : 0 ≤ z ≤ u32_max → read_u32_le (to_le_bytes 4 z) = z.
Proof.
  intros Hz. unfold read_u32_le. rewrite length_to_le_bytes. simpl Nat.min.
  rewrite take_ge by (by rewrite length_to_le_bytes). simpl replicate.
  rewrite app_nil_r. apply from_to_le_bytes. unfold u32_max in Hz. simpl. lia.
Qed.

Section frame_spec.
Context (to_vec : InitConfig → result string (list Z)).
Context (from_slice : list Z → result string InitConfig).

Definition framed (json : list Z) : list Z :=
  CONFIG_MAGIC ++ to_le_bytes 4 CONFIG_FORMAT_VERSION ++ to_le_bytes 4 (length_z json) ++ json.
Lemma length_framed json : length_z (framed json) = 16 + length_z json.
Proof.
  unfold framed, length_z. rewrite !length_app, !length_to_le_bytes. simpl length. lia.
Qed.
Lemma encode_frame_Ok config bytes :
  encode_frame to_vec config = Ok bytes ↔
  ∃ json, to_vec config = Ok json ∧ length_z json ≤ MAX_CONFIG_JSON_BYTES ∧ bytes = framed json.
Proof.
  unfold encode_frame. split.
  - intros H. inv_ok. bool_props.
  match goal with H : try_from_u _ _ = _ |- _ => apply try_from_u_Some in H as [-> _] end. by eexists.
  - intros (json & -> & Hl & ->). simpl. rewrite try_from_u_in; [|unfold length_z, u32_max, MAX_CONFIG_JSON_BYTES in *; lia].
    simpl. rewrite reject_if_false; [done|]. apply Z.ltb_ge. done.
Qed.

Lemma decode_framed json pad :
  length_z json ≤ MAX_CONFIG_JSON_BYTES →
  decode_frame from_slice (framed json ++ pad) = map_err FrameJson (from_slice json).
Proof.
  intros Hl. unfold decode_frame.
  rewrite reject_if_false.
  2:{ apply Z.ltb_ge. pose proof (length_framed json). unfold length_z, CONFIG_HEADER_LEN in *.
      rewrite length_app. lia. }
  set (l4 := to_le_bytes 4 (length_z json)).
  assert (length l4 = 4%nat) as H4 by apply length_to_le_bytes.
  assert (take (Z.to_nat CONFIG_HEADER_LEN) (framed json ++ pad)
    = CONFIG_MAGIC ++ to_le_bytes 4 CONFIG_FORMAT_VERSION ++ l4) as ->.
  { unfold framed. fold l4. destruct l4 as [|? [|? [|? [|? []]]]]; done. }
  assert (drop (Z.to_nat CONFIG_HEADER_LEN) (framed json ++ pad) = json ++ pad) as ->.
  { unfold framed. fold l4. destruct l4 as [|? [|? [|? [|? []]]]]; done. }
  assert (take 8 (CONFIG_MAGIC ++ to_le_bytes 4 CONFIG_FORMAT_VERSION ++ l4) = CONFIG_MAGIC) as -> by done.
  rewrite bool_decide_eq_true_2 by done.
  assert (take 4 (drop 8 (CONFIG_MAGIC ++ to_le_bytes 4 CONFIG_FORMAT_VERSION ++ l4))
    = to_le_bytes 4 CONFIG_FORMAT_VERSION) as -> by done.
  assert (take 4 (drop 12 (CONFIG_MAGIC ++ to_le_bytes 4 CONFIG_FORMAT_VERSION ++ l4)) = l4) as ->.
  { destruct l4 as [|? [|? [|? [|? []]]]]; done. }
  unfold l4. rewrite !read_u32_le_to by (unfold length_z, u32_max, MAX_CONFIG_JSON_BYTES in *; done || lia).
  cbn [negb reject_if]. rewrite !reject_if_false; [|apply Z.ltb_ge|apply Z.ltb_ge|]; [| |done|done].
  - unfold length_z. rewrite Nat2Z.id, take_app_length. done.
  - unfold length_z. rewrite length_app. lia.
Qed.
End frame_spec.

(** initproto/lib.rs, [decode_frame]: it accepts exactly the byte strings that start
    with the frame of a document the JSON parser accepts, of at most 64 KiB, and what
    follows the frame never matters. *)
Theorem decode_frame_exact from_slice bytes config :
  bytes_ok bytes →
  decode_frame from_slice bytes = Ok config ↔
  ∃ json pad, bytes = framed json ++ pad ∧ length_z json ≤ MAX_CONFIG_JSON_BYTES ∧
    from_slice json = Ok config.
Proof.
  intros Hb. split.
  2:{ intros (json & pad & -> & Hl & Hj). rewrite decode_framed by done. by rewrite Hj. }
  unfold decode_frame. intros H. inv_ok. bool_props.
  destruct bytes as [|b0 [|b1 [|b2 [|b3 [|b4 [|b5 [|b6 [|b7 [|b8 [|b9 [|b10 [|b11 [|b12 [|b13
    [|b14 [|b15 body]]]]]]]]]]]]]]]]; try (unfold length_z, CONFIG_HEADER_LEN in *; simpl in *; lia).
  change (Z.to_nat CONFIG_HEADER_LEN) with 16%nat in *. simpl in *.
  match goal with H : read_u32_le [b8; b9; b10; b11] = _ |- _ => rename H into Hv end.
  set (declared := read_u32_le [b12; b13; b14; b15]) in *.
  assert (bytes_ok [b8; b9; b10; b11] ∧ bytes_ok [b12; b13; b14; b15]) as [Hb8 Hb12].
  { unfold bytes_ok in *. rewrite !Forall_cons in *. naive_solver. }
  rewrite drop_0 in *.
  assert (Hle : ∀ a b c d, bytes_ok [a; b; c; d] → to_le_bytes 4 (read_u32_le [a; b; c; d]) = [a; b; c; d]).
  { intros a b c d Hq. unfold read_u32_le. simpl. by apply (to_from_le_bytes [a; b; c; d]). }
  assert (0 ≤ declared) by (apply (from_le_bytes_bound [b12; b13; b14; b15]); done).
  set (json := take (Z.to_nat declared) body).
  assert (length_z json = declared) as Hlen.
  { unfold json, length_z in *. rewrite length_take. lia. }
  match goal with H : [b0; _; _; _; _; _; _; _] = _ |- _ => injection H as -> -> -> -> -> -> -> -> end.
  assert (framed json = CONFIG_MAGIC ++ [b8; b9; b10; b11] ++ [b12; b13; b14; b15] ++ json) as Hf.
  { unfold framed. rewrite Hlen, <- Hv, Hle by done. unfold declared. by rewrite Hle. }
  exists json, (drop (Z.to_nat declared) body). split; [|split; [lia|done]].
  etransitivity; [|exact (f_equal (λ x, x ++ drop (Z.to_nat declared) body) (eq_sym Hf))].
  simpl. unfold json. by rewrite take_drop.
Qed.

(** C37: initconfig.rs and config.rs, the disk of 4 KiB blocks the host builds for a document is what
    the guest's bounded read decodes back to that document. *)
Theorem config_disk_roundtrip to_vec from_slice config disk path :
  (∀ json, to_vec config = Ok json → from_slice json = Ok config) →
  build_config_disk to_vec config = Ok disk →
  read_config from_slice path (Ok {| data := disk; fails := None |}) = Ok config ∧
  length_z disk mod CONFIG_DISK_ALIGNMENT = 0 ∧
  CONFIG_DISK_ALIGNMENT ≤ length_z disk ≤ CONFIG_HEADER_LEN + MAX_CONFIG_JSON_BYTES + CONFIG_DISK_ALIGNMENT.
Proof.
  intros RT H. unfold build_config_disk in H. inv_ok.
  match goal with H : encode_frame _ _ = _ |- _ => apply encode_frame_Ok in H as (json & Hj & Hl & ->) end.
  set (n := Z.to_nat _). pose proof (length_framed json) as Hf.
  unfold CONFIG_DISK_ALIGNMENT in *.
  pose proof (Z.div_mod (length_z (framed json) + 4096 - 1) 4096 ltac:(lia)) as Hdiv.
  pose proof (Z.mod_pos_bound (length_z (framed json) + 4096 - 1) 4096 ltac:(lia)) as Hmod.
  set (q := (length_z (framed json) + 4096 - 1) / 4096) in *.
  assert (0 ≤ length_z json) by (unfold length_z; lia).
  assert (length_z (framed json ++ replicate n 0) = q * 4096) as Hd.
  { unfold n, length_z in *. rewrite length_app, length_replicate. lia. }
  split; [|rewrite Hd; split; [apply Z.mod_mul; lia|unfold CONFIG_HEADER_LEN, MAX_CONFIG_JSON_BYTES in *; lia]].
  assert (∃ m, take_read_to_end (CONFIG_HEADER_LEN + MAX_CONFIG_JSON_BYTES)
    {| data := framed json ++ replicate n 0; fails := None |} = Ok (framed json ++ replicate m 0)) as [m Hm].
  { unfold take_read_to_end. cbn [data fails].
    destruct (_ <=? _); [|by exists n].
    rewrite take_app, take_replicate, take_ge; [by eexists|].
    unfold length_z, CONFIG_HEADER_LEN, MAX_CONFIG_JSON_BYTES in *. lia. }
  unfold read_config. cbn [map_err mbind result_bind]. rewrite Hm. cbn [map_err mbind result_bind].
  rewrite decode_framed by done. by rewrite (RT json Hj).
Qed.

Lemma merge_entry_keys m e :
  env_key <$> merge_entry m e =
    if decide (env_key e ∈ env_key <$> m) then env_key <$> m else (env_key <$> m) ++ [env_key e].
Proof.
  induction m as [|x m IH]; [done|]. cbn [merge_entry]. destruct (String.eqb_spec (env_key x) (env_key e)) as [E|Hne].
  - rewrite decide_True by (csimpl; rewrite E; left). csimpl. by rewrite E.
  - csimpl. rewrite IH. destruct (decide (env_key e ∈ env_key <$> m)).
    + by rewrite decide_True by by right.
    + rewrite decide_False; [done|]. rewrite elem_of_cons. intros [?|?]; [by apply Hne|done].
Qed.
Lemma merge_entry_elem m e x :
  NoDup (env_key <$> m) →
  x ∈ merge_entry m e ↔ x = e ∨ (x ∈ m ∧ env_key x ≠ env_key e).
Proof.
  induction m as [|y m IH]; [set_solver|]. cbn [merge_entry]. csimpl. intros [Hy Hm]%NoDup_cons.
  destruct (String.eqb_spec (env_key y) (env_key e)) as [E|Hne].
  - rewrite !elem_of_cons. split; [|naive_solver]. intros [->|Hx]; [by left|].
    right. split; [by right|]. intros Ex. apply Hy. rewrite E, <- Ex. by apply list_elem_of_fmap_2.
  - rewrite !elem_of_cons, IH by done. naive_solver.
Qed.

(** The entry that wins for a key: the last one. *)
Definition winner (entries : list string) (k : string) : option string :=
  last (filter (λ e, env_key e = k) entries).

Lemma merge_env_snoc l e : foldl merge_entry [] (l ++ [e]) = merge_entry (foldl merge_entry [] l) e.
Proof. by rewrite foldl_app. Qed.
Lemma merge_entries_NoDup l : NoDup (env_key <$> foldl merge_entry [] l).
Proof.
  induction l as [|e l IH] using rev_ind; [constructor|].
  rewrite merge_env_snoc, merge_entry_keys. case_decide; [done|].
  apply NoDup_app. split; [done|]. split; [set_solver|apply NoDup_singleton].
Qed.
Lemma merge_entries_winner l x :
  x ∈ foldl merge_entry [] l ↔ winner l (env_key x) = Some x.
Proof.
  induction l as [|e l IH] using rev_ind; [by split; [set_solver|]|].
  rewrite merge_env_snoc, merge_entry_elem by apply merge_entries_NoDup.
  rewrite IH. unfold winner. rewrite filter_app, filter_cons, filter_nil.
  destruct (decide (env_key e = env_key x)) as [E|Hne].
  - rewrite last_app. simpl. split; [intros [->|[_ ?]]; congruence|]. intros [= ->]. by left.
  - rewrite app_nil_r. split; [intros [->|[? _]]; done|]. intros ?. right. split; [done|congruence].
Qed.

(** initproto/lib.rs, [merge_env]: the merged environment defines every key once, holds
    for each key exactly the last entry given for it, keeps the image's keys first and in
    the image's order, and merging again changes nothing. *)
Theorem merge_env_spec image overrides :
  let merged := merge_env image overrides in
  NoDup (env_key <$> merged) ∧
  (∀ e, e ∈ merged ↔ winner (image ++ overrides) (env_key e) = Some e) ∧
  (env_key <$> merge_env image []) `prefix_of` (env_key <$> merged) ∧
  merge_env merged [] = merged.
Proof.
  assert (Hid : ∀ l, NoDup (env_key <$> l) → foldl merge_entry [] l = l).
  { intros l. induction l as [|e l IH] using rev_ind; [done|]. rewrite fmap_app.
    intros (Hl & Hn & _)%NoDup_app. rewrite merge_env_snoc, IH by done.
    clear IH Hl. induction l as [|x l IH]; [done|]. simpl.
    rewrite (proj2 (String.eqb_neq _ _)) by set_solver. f_equal. apply IH. set_solver. }
  unfold merge_env. split_and!.
  - apply merge_entries_NoDup.
  - intros. apply merge_entries_winner.
  - rewrite app_nil_r, foldl_app. generalize (foldl merge_entry [] image).
    induction overrides as [|e o IH]; intros m; [done|]. simpl. etransitivity; [|apply IH].
    rewrite merge_entry_keys. case_decide; [done|]. by apply prefix_app_r.
  - rewrite app_nil_r. apply Hid, merge_entries_NoDup.
Qed.

(** resize.rs, [resize_target_blocks]: a target is a growth, never reaches past the
    device or the requested size, and is the largest such block count; there is none
    exactly when the block size is zero or the filesystem already covers that count. *)
Theorem resize_target_exact requested device block current :
  0 ≤ requested → 0 ≤ device → 0 ≤ block →
  match resize_target_blocks requested device block current with
  | Some target => 0 < block ∧ current < target ∧ target * block ≤ Z.min requested device ∧
      Z.min requested device < (target + 1) * block
  | None => block = 0 ∨ Z.min requested device < (current + 1) * block
  end.
Proof.
  intros Hr Hd Hb. unfold resize_target_blocks. destruct (Z.eqb_spec block 0) as [->|Hne]; [by left|].
  pose proof (Z.div_mod (Z.min requested device) block Hne).
  pose proof (Z.mod_pos_bound (Z.min requested device) block ltac:(lia)).
  destruct (Z.ltb_spec current (Z.min requested device / block)); [split_and!; nia|right; nia].
Qed.

Definition demo_config : InitConfig := {|
  hostname := "app"; entrypoint := ["/entry.sh"]; cmd := []; env := ["PATH=/bin"]; workdir := None;
  user := None; network := Dhcp; disk_size_bytes := 21474836480 |}.

Lemma decode_frame_exact_witness :
  decode_frame (λ _, Ok demo_config) ([70; 83; 84; 78; 73; 78; 73; 84; 1; 0; 0; 0; 2; 0; 0; 0; 123; 125; 0]) = Ok demo_config.
Proof.
  apply decode_frame_exact; [by repeat (constructor; [lia|]); constructor|].
  by exists [123; 125], [0].
Defined.
Lemma config_disk_roundtrip_witness :
  let disk := from_option (λ d, d) [] (res_ok (build_config_disk (λ _, Ok [123; 125]) demo_config)) in
  length_z disk = 4096 ∧
  read_config (λ _, Ok demo_config) "/dev/vdb" (Ok {| data := disk; fails := None |}) = Ok demo_config.
Proof.
  split; [by vm_compute|].
  apply (config_disk_roundtrip (λ _, Ok [123; 125])); [done|by vm_compute].
Defined.
Lemma resize_target_exact_witness :
  resize_target_blocks 21474836480 8388608 4096 512 = Some 2048 ∧ 512 < 2048 ∧ 2048 * 4096 ≤ 8388608.
Proof.
  pose proof (resize_target_exact 21474836480 8388608 4096 512 ltac:(lia) ltac:(lia) ltac:(lia)) as H.
  split; [by vm_compute|].
  change (resize_target_blocks 21474836480 8388608 4096 512) with (Some 2048) in H.
  destruct H as (_ & H1 & H2 & _). split; [exact H1|exact H2].
Defined.
