(* ===== verification/Readiness.v ===== *)
(** Waiting until a booted machine answers SSH ([firestone-core/src/readiness.rs]): the
    polling loop over a backend, its event protocol and its deadline. *)
From S2P Require Import Prelude RustStr Errors Clock Lock.
Open Scope Z_scope.

Definition TRANSPORT_PROBE_TIMEOUT : Z := 250000000.
Definition SSH_PROBE_TIMEOUT : Z := 750000000.
Definition READINESS_POLL_INTERVAL : Z := 100000000.

(** The fields of [ReadinessOptions] the loop reads; times are clock readings. *)
Record ReadinessOptions : Set := {
  name : string; first_boot : bool; started : Z; deadline : Z }.

Inductive SshProbe : Set := Ready | Waiting | HostKeyChanged.

(** [trait ReadinessBackend]: what each probe reports may depend on when it runs and on
    the timeout it is given. *)
Class ReadinessBackend := {
  console_bytes : nat → result FirestoneError Z;
  transport_ready : Z → nat → result FirestoneError bool;
  ssh_ready : Z → nat → result FirestoneError SshProbe;
}.

(** [SystemReadiness]'s classification of what its probes observe: a failed vsock
    connection and the outcome of one [ssh] run. *)
Definition transport_of (connected : result FirestoneError ()) : result FirestoneError bool :=
  match connected with
  | Ok _ => Ok true
  | Err error =>
      if bool_decide (kind error = NotRunning) || bool_decide (kind error = Timeout)
         || bool_decide (kind error = Generic) then Ok false else Err error
  end.
Definition ssh_probe_of (output : result FirestoneError (bool * string))
    : result FirestoneError SshProbe :=
  match output with
  | Err error => if bool_decide (kind error = Timeout) then Ok Waiting else Err error
  | Ok (success, stderr) =>
      if success then Ok Ready
      else if contains_str "REMOTE HOST IDENTIFICATION HAS CHANGED" stderr
              || contains_str "Host key verification failed" stderr
      then Ok HostKeyChanged else Ok Waiting
  end.

(** [Duration::as_millis] saturated to a u64. *)
Definition elapsed_millis (nanos : Z) : Z :=
  from_option id u64_max (try_from_u u64_max (nanos / 1000000)).

Definition readiness_timeout (o : ReadinessOptions) : FirestoneError := with_hint
  (error_new Timeout ("machine `" +:+ name o +:+ "` did not become SSH-ready within the start timeout"))
  ("inspect `firestone logs " +:+ name o +:+ "` or attach with `firestone console " +:+ name o
    +:+ "`; the VM is still running").
Definition interrupted_error (name : string) : FirestoneError := with_hint
  (error_new Interrupted ("SSH readiness wait for machine `" +:+ name +:+ "` was interrupted"))
  ("still booting in the background; `firestone stop " +:+ name +:+ "` to stop it").
Definition host_key_error (name : string) : FirestoneError := with_hint
  (error_new Conflict ("SSH host key for machine `" +:+ name
    +:+ "` changed without a cloud-init seed change"))
  ("inspect `firestone console " +:+ name +:+ "` before changing its known_hosts trust").

Section wait.
Context `{Schedule} `{ReadinessBackend} {Json Sink : Type} `{EventSink Json Sink}.
(** The cancellation flag as read at each point in time. *)
Context (cancelled : nat → bool) (options : ReadinessOptions).
Local Abbreviation Act := (M (Timed Sink) FirestoneError).

Definition wait_reason : string :=
  if first_boot options then "waiting for cloud-init (first boot)" else "waiting for sshd on vsock".

(** Emit a [StepDone] stamped with the time since the start. *)
Definition step_done (id detail : string) : Act () :=
  now ← instant_now;
  emit_event (StepDone (Json := Json) id (Some detail) (elapsed_millis (now - started options))).

(** [start_ssh]; returns the new value of its [started] flag. *)
Definition start_ssh (ssh_started : bool) : Act bool :=
  if ssh_started then mret true
  else
    emit_event (StepStart (Json := Json) "ssh" "wait for SSH");;
    emit_event (StepUpdate (Json := Json) "ssh" wait_reason);;
    mret true.

Definition fail_wait {A} (boot_done ssh_started : bool) (error : FirestoneError) : Act A :=
  (if boot_done then mret () else step_done "boot" "no console heartbeat");;
  start_ssh ssh_started;;
  emit_event (StepFail (Json := Json) "ssh" (info error));;
  M_fail error.

(** What is left until the deadline. *)
Definition remaining_at (now : Z) : Z := saturating_sub (deadline options) now.

(** Sleep until the next poll or the deadline, then take another turn. *)
Definition wait_rest (st : bool * bool) : Act ((bool * bool) + ()) :=
  now ← instant_now;
  let remaining := remaining_at now in
  (if remaining =? 0 then mret () else sleep (Z.min READINESS_POLL_INTERVAL remaining));;
  mret (inl st).

(** Finish the boot step on the first sign of life, and open the SSH step. *)
Definition note_boot (boot_done ssh_started alive : bool) : Act (bool * bool) :=
  if negb boot_done && alive then
    step_done "boot" "firmware+kernel";;
    ssh_started ← start_ssh ssh_started;
    mret (true, ssh_started)
  else mret (boot_done, ssh_started).

(** The transport answers: one SSH probe, bounded by what is left of the wait. *)
Definition probe_ssh (boot_done ssh_started : bool) : Act ((bool * bool) + ()) :=
  boot_done ← (if negb boot_done then
      step_done "boot" "firmware+kernel";; mret true
    else mret boot_done);
  ssh_started ← start_ssh ssh_started;
  now ← instant_now;
  if remaining_at now =? 0 then mret (inl (boot_done, ssh_started))
  else
    probe ← observe (ssh_ready (Z.min SSH_PROBE_TIMEOUT (remaining_at now)));
    match probe with
    | Ready => step_done "ssh" "ready";; mret (inr ())
    | Waiting => wait_rest (boot_done, ssh_started)
    | HostKeyChanged =>
        let error := host_key_error (name options) in
        emit_event (StepFail (Json := Json) "ssh" (info error));;
        M_fail error
    end.

(** One turn of the loop; its state is [boot_done] and [ssh_started]. *)
Definition wait_turn (st : bool * bool) : Act ((bool * bool) + ()) :=
  let '(boot_done, ssh_started) := st in
  stop ← observe (λ n, Ok (cancelled n));
  if (stop : bool) then fail_wait boot_done ssh_started (interrupted_error (name options)) else
  now ← instant_now;
  if deadline options <=? now then
    fail_wait boot_done ssh_started (readiness_timeout options)
  else
  console ← observe console_bytes;
  transport ← observe (transport_ready (Z.min TRANSPORT_PROBE_TIMEOUT (remaining_at now)));
  st ← note_boot boot_done ssh_started ((0 <? console) || transport);
  let '(boot_done, ssh_started) := st in
  if (transport : bool) then probe_ssh boot_done ssh_started
  else wait_rest (boot_done, ssh_started).

Definition wait_with_backend (fuel : nat) : Act (option ()) :=
  emit_event (StepStart (Json := Json) "boot" "wait for guest boot");;
  loop wait_turn fuel (false, false).
End wait.

(** ** The event protocol and the deadline *)

Section wait_spec.
Context `{Schedule} `{ReadinessBackend} {Json : Type}.
Context (cancelled : nat → bool) (options : ReadinessOptions) (base : list (Event Json)).
Local Abbreviation World := (Timed (list (Event Json))).

Definition boot_events (detail : string) (t : Z) : list (Event Json) :=
  [StepDone "boot" (Some detail) t; StepStart "ssh" "wait for SSH";
   StepUpdate "ssh" (wait_reason options)].
Definition opened : list (Event Json) := base ++ [StepStart "boot" "wait for guest boot"].

(** At the top of a turn: the boot step is finished and the SSH step open, or neither. *)
Definition Inv (st : bool * bool) (w : World) : Prop :=
  st.2 = st.1 ∧
  (if st.1 then ∃ t, sink w = opened ++ boot_events "firmware+kernel" t else sink w = opened).
Definition measure (st : bool * bool) (w : World) : nat :=
  turns_left READINESS_POLL_INTERVAL (deadline options - time w).

Inductive Outcome : result FirestoneError () → World → Prop :=
  | outcome_ready w t t' timeout n :
      ssh_ready timeout n = Ok Ready → timeout ≤ SSH_PROBE_TIMEOUT →
      sink w = opened ++ boot_events "firmware+kernel" t ++ [StepDone "ssh" (Some "ready") t'] →
      Outcome (Ok ()) w
  | outcome_stopped w e detail t :
      (e = interrupted_error (name options) ∧ ∃ n, cancelled n = true) ∨
      (e = readiness_timeout options ∧ deadline options ≤ time w) ∨
      (e = host_key_error (name options) ∧ ∃ timeout n, ssh_ready timeout n = Ok HostKeyChanged) →
      detail = "firmware+kernel" ∨ detail = "no console heartbeat" →
      sink w = opened ++ boot_events detail t ++ [StepFail "ssh" (info e)] →
      Outcome (Err e) w
  | outcome_backend w e :
      (∃ n, console_bytes n = Err e) ∨ (∃ d n, transport_ready d n = Err e) ∨
      (∃ d n, ssh_ready d n = Err e) →
      Outcome (Err e) w.

Definition turn_ok (st : bool * bool) (w : World)
    (res : result FirestoneError ((bool * bool) + ()) * World) : Prop :=
  match res with
  | (Ok (inl st'), w') => Inv st' w' ∧ (measure st' w' < measure st w)%nat
  | (Ok (inr a), w') => Outcome (Ok a) w'
  | (Err e, w') => Outcome (Err e) w'
  end.

Lemma step_done_run id detail (w : World) :
  ∃ t w', step_done options id detail w = (Ok (), w') ∧ time w ≤ time w' ∧
    sink w' = sink w ++ [StepDone id (Some detail) t].
Proof.
  unfold step_done, instant_now, mbind, M_bind. eexists _, _. split; [done|].
  split; [|done]. cbn. pose proof (lag_nonneg (tick w)). lia.
Qed.
Lemma start_ssh_run b (w : World) :
  ∃ w', start_ssh options b w = (Ok true, w') ∧ time w' = time w ∧
    sink w' = sink w ++ (if b then [] else
      [StepStart "ssh" "wait for SSH"; StepUpdate "ssh" (wait_reason options)]).
Proof.
  destruct b; eexists; (split; [done|]); (split; [done|]); simpl.
  - by rewrite app_nil_r.
  - by rewrite <- app_assoc.
Qed.
Lemma fail_wait_run {A} b e (w : World) :
  Inv (b, b) w →
  ∃ w' detail t, fail_wait options (A := A) b b e w = (Err e, w') ∧ time w ≤ time w' ∧
    (detail = "firmware+kernel" ∨ detail = "no console heartbeat") ∧
    sink w' = opened ++ boot_events detail t ++ [StepFail "ssh" (info e)].
Proof.
  intros [_ Hsink]. simpl in Hsink. unfold fail_wait, mbind, M_bind. destruct b.
  - destruct Hsink as [t Ht]. eexists _, "firmware+kernel", t. split; [done|].
    split; [simpl; lia|]. split; [by left|]. simpl. by rewrite Ht, <- app_assoc.
  - destruct (step_done_run "boot" "no console heartbeat" w) as (t & w1 & -> & Ht & Hw).
    eexists _, "no console heartbeat", t. split; [done|]. split; [done|]. split; [by right|].
    simpl. rewrite Hw, Hsink. by rewrite <- !app_assoc.
Qed.

Lemma wait_rest_ok st st0 w (w0 : World) :
  Inv st w → time w0 ≤ time w → time w0 < deadline options →
  turn_ok st0 w0 (wait_rest options st w).
Proof.
  intros HI Ht Hd. unfold wait_rest, instant_now, mbind, M_bind.
  pose proof (lag_nonneg (tick w)) as L. set (w1 := pass 0 w).
  assert (time w ≤ time w1) by (unfold w1; rewrite time_pass; lia).
  assert (Hm : ∀ w2 : World, sink w2 = sink w → time w1 + Z.min READINESS_POLL_INTERVAL
      (remaining_at options (time w1)) ≤ time w2 →
    turn_ok st0 w0 (Ok (inl st), w2)).
  { intros w2 Hs2 Ht2. split; [unfold Inv; by rewrite Hs2|].
    unfold measure. apply turns_left_sleep; [done|lia|].
    unfold remaining_at, saturating_sub in Ht2. lia. }
  destruct (Z.eqb_spec (remaining_at options (time w1)) 0) as [E|E].
  - apply Hm; [done|]. rewrite E. unfold READINESS_POLL_INTERVAL. lia.
  - unfold sleep. apply Hm; [done|]. rewrite time_pass. pose proof (lag_nonneg (tick w1)). lia.
Qed.

Lemma note_boot_run b alive (w : World) :
  Inv (b, b) w →
  ∃ w', note_boot options b b alive w = (Ok (b || alive, b || alive), w') ∧
    Inv (b || alive, b || alive) w' ∧ time w ≤ time w'.
Proof.
  intros [_ Hsink]. simpl in Hsink. unfold note_boot.
  destruct b; [by exists w|]. destruct alive; [|by exists w]. unfold mbind, M_bind; cbn [negb andb].
  destruct (step_done_run "boot" "firmware+kernel" w) as (t & w1 & -> & Ht & Hw).
  destruct (start_ssh_run false w1) as (w2 & -> & Ht2 & Hw2).
  exists w2. split; [done|]. split; [|lia]. split; [done|]. exists t. simpl.
  rewrite Hw2, Hw, Hsink. by rewrite <- !app_assoc.
Qed.
(** The SSH half of a turn, once the transport answered. *)
Lemma probe_ok st0 (w0 w : World) :
  Inv (true, true) w → time w0 ≤ time w → time w0 < deadline options →
  turn_ok st0 w0 (probe_ssh options true true w).
Proof.
  intros HI Ht Hd. unfold probe_ssh. cbn [negb].
  rewrite (bind_run _ _ w true w) by done. rewrite (bind_run _ _ w true w) by done. rewrite bind_now.
  set (w1 := pass 0 w). pose proof (time_pass_ge w) as L1. fold w1 in L1.
  assert (HI1 : Inv (true, true) w1) by done. pose proof HI1 as [_ [t Hsink]].
  destruct (Z.eqb_spec (remaining_at options (time w1)) 0) as [E|E].
  { split; [done|]. unfold measure, remaining_at, saturating_sub in *.
    rewrite (turns_left_zero _ (deadline options - time w1)) by (done || lia).
    apply turns_left_pos; [done|lia]. }
  rewrite bind_observe. set (w2 := pass 0 w1). pose proof (time_pass_ge w1) as L2. fold w2 in L2.
  destruct (ssh_ready _ (tick w1)) as [probe|e] eqn:Hssh; [|apply outcome_backend; eauto 6].
  destruct probe.
  - destruct (step_done_run "ssh" "ready" w2) as (t' & w3 & Hw3 & Ht3 & Hs3).
    rewrite (bind_run _ _ _ _ _ Hw3). eapply outcome_ready; [exact Hssh|lia|].
    rewrite Hs3. change (sink w2) with (sink w1). rewrite Hsink. by rewrite <- app_assoc.
  - apply wait_rest_ok; [done|lia|done].
  - apply outcome_stopped with "firmware+kernel" t; [eauto 8|by left|].
    etransitivity; [exact (f_equal (λ l, l ++ [_]) Hsink)|by rewrite <- app_assoc].
Qed.

Lemma wait_turn_ok st w : Inv st w → turn_ok st w (wait_turn cancelled options st w).
Proof.
  intros HI. destruct st as [b s]. pose proof HI as [Hbs _]. simpl in Hbs. subst s.
  unfold wait_turn. rewrite bind_observe. cbv beta iota.
  set (w1 := pass 0 w). pose proof (time_pass_ge w) as L1. fold w1 in L1.
  assert (Hfail : ∀ e w', Inv (b, b) w' →
    (e = interrupted_error (name options) ∧ (∃ n, cancelled n = true)) ∨
    (e = readiness_timeout options ∧ deadline options ≤ time w') →
    turn_ok (b, b) w (fail_wait options b b e w')).
  { intros e w' HI' He. destruct (fail_wait_run (A := (bool * bool) + ()) b e w' HI')
      as (w'' & detail & t & -> & Ht & Hd & Hs).
    apply outcome_stopped with detail t; [|done|done].
    destruct He as [He|[-> ?]]; [by left|right; left; split; [done|lia]]. }
  destruct (cancelled (tick w)) eqn:Hc; [apply Hfail; [done|left; eauto]|].
  rewrite bind_now. set (w2 := pass 0 w1). pose proof (time_pass_ge w1) as L2. fold w2 in L2.
  destruct (Z.leb_spec (deadline options) (time w2)) as [Hd|Hd]; [apply Hfail; [done|right; done]|].
  rewrite bind_observe. set (w3 := pass 0 w2). pose proof (time_pass_ge w2) as L3. fold w3 in L3.
  destruct (console_bytes (tick w2)) as [console|e] eqn:Hcon; [|apply outcome_backend; eauto].
  rewrite bind_observe. set (w4 := pass 0 w3). pose proof (time_pass_ge w3) as L4. fold w4 in L4.
  destruct (transport_ready _ (tick w3)) as [transport|e] eqn:Htr; [|apply outcome_backend; eauto 6].
  destruct (note_boot_run b ((0 <? console) || transport) w4 HI) as (w5 & Hw5 & HI5 & L5).
  rewrite (bind_run _ _ _ _ _ Hw5).
  set (b' := b || ((0 <? console) || transport)) in *.
  destruct transport; [|apply wait_rest_ok; [done|lia|lia]].
  assert (b' = true) as Hb' by (unfold b'; by rewrite !orb_true_r). rewrite Hb' in *. clear b' Hb'.
  apply (probe_ok (b, b) w); [done|lia|lia].
Qed.
End wait_spec.

(** C36: readiness.rs, the readiness wait: whatever the probes report and however long they
    take, the loop ends within one turn per poll interval of the remaining time plus one;
    success needs a probe that reported [Ready]; a timeout is reported only at or after the
    deadline, an interruption only when cancelled; and on every such outcome the event
    stream closes the boot step, opens the SSH step once and closes it with the result. *)
Theorem readiness_protocol `{Schedule} `{ReadinessBackend} {Json : Type} cancelled options fuel
    (w : Timed (list (Event Json))) :
  (turns_left READINESS_POLL_INTERVAL (deadline options - time w) < fuel)%nat →
  ∃ r w', wait_with_backend cancelled options fuel w = (Some <$> r, w') ∧
    Outcome cancelled options (sink w) r w'.
Proof.
  intros Hfuel. unfold wait_with_backend.
  rewrite (bind_run _ _ w () _ (emit_event_vec _ w)).
  apply (loop_spec _ (Inv options (sink w)) (measure options)); [|done|done].
  intros st w1 HI. pose proof (wait_turn_ok cancelled options (sink w) st w1 HI) as Ht.
  unfold turn_ok in Ht. destruct (wait_turn _ _ _ _) as [[[]|] ?]; exact Ht.
Qed.

(** A guest whose transport answers from the fifth observation on and whose sshd then
    accepts the login. *)
Definition demo_backend : ReadinessBackend := {|
  console_bytes := λ _, Ok 0;
  transport_ready := λ _ n, Ok (5 <? n)%nat;
  ssh_ready := λ _ _, Ok Ready |}.
Definition demo_options : ReadinessOptions :=
  {| name := "dev"; first_boot := true; started := 0; deadline := 300000000000 |}.

Lemma readiness_protocol_witness :
  let w := {| time := 0; tick := 0; sink := [] |} : Timed (list (Event ())) in
  ∃ r w', wait_with_backend (H := Lock.no_lag) (H0 := demo_backend) (λ _, false) demo_options 3001 w
      = (Some <$> r, w') ∧
    Outcome (H0 := demo_backend) (λ _, false) demo_options [] r w' ∧ r = Ok ().
Proof.
  destruct (readiness_protocol (H := Lock.no_lag) (H0 := demo_backend) (Json := ()) (λ _, false)
    demo_options 3001 {| time := 0; tick := 0; sink := [] |}) as (r & w' & Hr & Ho); [by vm_compute; lia|].
  exists r, w'. split_and!; [exact Hr|exact Ho|].
  destruct r as [[]|e]; [done|]. vm_compute in Hr. discriminate.
Defined.
