(* ===== verification/Dhcp.v ===== *)
(** The guest's DHCP codec and its IPv4/UDP framing ([firestone-init/src/dhcp.rs]).
    Addresses and hardware addresses are their byte lists. *)
From S2P Require Import Prelude RustStr.
Open Scope Z_scope.

Definition FIXED_LEN : nat := 240.
Definition MIN_PACKET_LEN : nat := 300.
Definition MAGIC_COOKIE : list Z := [99; 130; 83; 99].
Definition OP_REQUEST : Z := 1.
Definition OP_REPLY : Z := 2.
Definition HTYPE_ETHERNET : Z := 1.
Definition HLEN_ETHERNET : Z := 6.
Definition FLAG_BROADCAST : Z := 32768.
Definition OPTION_PAD : Z := 0.
Definition OPTION_SUBNET_MASK : Z := 1.
Definition OPTION_ROUTER : Z := 3.
Definition OPTION_DNS : Z := 6.
Definition OPTION_REQUESTED_IP : Z := 50.
Definition OPTION_LEASE_TIME : Z := 51.
Definition OPTION_MESSAGE_TYPE : Z := 53.
Definition OPTION_SERVER_ID : Z := 54.
Definition OPTION_PARAMETER_LIST : Z := 55.
Definition OPTION_END : Z := 255.
Definition DHCP_DISCOVER : Z := 1.
Definition DHCP_OFFER : Z := 2.
Definition DHCP_REQUEST : Z := 3.
Definition DHCP_ACK : Z := 5.
Definition DHCP_NAK : Z := 6.
Definition CLIENT_PORT : Z := 68.
Definition SERVER_PORT : Z := 67.
Definition PROTO_UDP : Z := 17.
Definition IPV4_HEADER_LEN : nat := 20.
Definition UDP_HEADER_LEN : nat := 8.

Record DhcpReply : Set := {
  message_type : Z;
  xid : Z;
  address : list Z;
  subnet_mask : option (list Z);
  routers : list (list Z);
  resolvers : list (list Z);
  server_id : option (list Z);
  lease_seconds : option Z;
}.

Inductive DhcpError : Set := TooShort | NotAReply | BadCookie | NoMessageType.
#[export] Instance DhcpError_eq_dec : EqDecision DhcpError.
Proof. solve_decision. Defined.
Definition dhcp_error_display (e : DhcpError) : string :=
  match e with
  | TooShort => "DHCP packet is shorter than the BOOTP fixed area"
  | NotAReply => "DHCP packet is not a BOOTP reply"
  | BadCookie => "DHCP packet has no magic cookie"
  | NoMessageType => "DHCP packet carries no message-type option"
  end.

(** [packet[at..at + bytes.len()].copy_from_slice(bytes)]. *)
Definition splice (at_ : nat) (bytes packet : list Z) : list Z :=
  take at_ packet ++ bytes ++ drop (at_ + length bytes) packet.

Definition bootp_header (xid : Z) (mac : list Z) : list Z :=
  let packet := replicate FIXED_LEN 0 in
  let packet := splice 0 [OP_REQUEST] packet in
  let packet := splice 1 [HTYPE_ETHERNET] packet in
  let packet := splice 2 [HLEN_ETHERNET] packet in
  let packet := splice 4 (to_be_bytes 4 xid) packet in
  let packet := splice 10 (to_be_bytes 2 FLAG_BROADCAST) packet in
  let packet := splice 28 mac packet in
  splice 236 MAGIC_COOKIE packet.

Definition finish (packet : list Z) : list Z :=
  let packet := packet ++ [OPTION_END] in
  packet ++ replicate (MIN_PACKET_LEN - length packet) OPTION_PAD.

Definition parameter_list : list Z :=
  [OPTION_PARAMETER_LIST; 3; OPTION_SUBNET_MASK; OPTION_ROUTER; OPTION_DNS].

Definition encode_discover (xid : Z) (mac : list Z) : list Z :=
  finish (bootp_header xid mac ++ [OPTION_MESSAGE_TYPE; 1; DHCP_DISCOVER] ++ parameter_list).
Definition encode_request (xid : Z) (mac requested server_id : list Z) : list Z :=
  finish (bootp_header xid mac ++ [OPTION_MESSAGE_TYPE; 1; DHCP_REQUEST]
    ++ [OPTION_SERVER_ID; 4] ++ server_id ++ [OPTION_REQUESTED_IP; 4] ++ requested
    ++ parameter_list).

(** ** Parsing replies *)

(** [value.get(..4)]. *)
Definition ipv4 (value : list Z) : option (list Z) := slice 0 4 value.
(** [chunks_exact(4)]. *)
Fixpoint ipv4_list (value : list Z) : list (list Z) :=
  match value with
  | a :: b :: c :: d :: value => [a; b; c; d] :: ipv4_list value
  | _ => []
  end.

Definition reply0 (xid : Z) (address : list Z) : DhcpReply :=
  {| message_type := 0; xid := xid; address := address; subnet_mask := None; routers := [];
     resolvers := []; server_id := None; lease_seconds := None |}.

(** The [match code] of one complete option. *)
Definition apply_option (code : Z) (value : list Z) (st : DhcpReply * option Z)
    : DhcpReply * option Z :=
  let '(r, mt) := st in
  if code =? OPTION_MESSAGE_TYPE then (r, head value)
  else if code =? OPTION_SUBNET_MASK then
    ({| message_type := message_type r; xid := xid r; address := address r;
        subnet_mask := ipv4 value; routers := routers r; resolvers := resolvers r;
        server_id := server_id r; lease_seconds := lease_seconds r |}, mt)
  else if code =? OPTION_ROUTER then
    ({| message_type := message_type r; xid := xid r; address := address r;
        subnet_mask := subnet_mask r; routers := ipv4_list value; resolvers := resolvers r;
        server_id := server_id r; lease_seconds := lease_seconds r |}, mt)
  else if code =? OPTION_DNS then
    ({| message_type := message_type r; xid := xid r; address := address r;
        subnet_mask := subnet_mask r; routers := routers r; resolvers := ipv4_list value;
        server_id := server_id r; lease_seconds := lease_seconds r |}, mt)
  else if code =? OPTION_SERVER_ID then
    ({| message_type := message_type r; xid := xid r; address := address r;
        subnet_mask := subnet_mask r; routers := routers r; resolvers := resolvers r;
        server_id := ipv4 value; lease_seconds := lease_seconds r |}, mt)
  else if code =? OPTION_LEASE_TIME then
    ({| message_type := message_type r; xid := xid r; address := address r;
        subnet_mask := subnet_mask r; routers := routers r; resolvers := resolvers r;
        server_id := server_id r; lease_seconds := from_be_bytes <$> slice 0 4 value |}, mt)
  else st.

(** The option loop; every turn consumes a byte, so [fuel] is the bytes' length. *)
Fixpoint parse_options (fuel : nat) (options : list Z) (st : DhcpReply * option Z)
    : DhcpReply * option Z :=
  match fuel, options with
  | S fuel, code :: options =>
      if code =? OPTION_PAD then parse_options fuel options st
      else if code =? OPTION_END then st
      else match options with
        | [] => st
        | length :: options =>
            match slice 0 (Z.to_nat length) options with
            | None => st
            | Some value =>
                parse_options fuel (drop (Z.to_nat length) options) (apply_option code value st)
            end
        end
  | _, _ => st
  end.

Definition byte_at (i : nat) (packet : list Z) : Z := from_option id 0 (packet !! i).

Definition parse_reply (packet : list Z) : result DhcpError DhcpReply :=
  reject TooShort when (bool_decide (length packet < FIXED_LEN)%nat);
  reject NotAReply when (negb (byte_at 0 packet =? OP_REPLY));
  reject BadCookie when (negb (bool_decide (take 4 (drop 236 packet) = MAGIC_COOKIE)));
  let options := drop FIXED_LEN packet in
  let '(reply, message_type) := parse_options (length options) options
    (reply0 (from_be_bytes (take 4 (drop 4 packet))) (take 4 (drop 16 packet)), None) in
  message_type ← ok_or message_type NoMessageType;
  Ok {| message_type := message_type; xid := xid reply; address := address reply;
        subnet_mask := subnet_mask reply; routers := routers reply; resolvers := resolvers reply;
        server_id := server_id reply; lease_seconds := lease_seconds reply |}.

(** ** IPv4 and UDP *)

Fixpoint word_sum (bytes : list Z) : Z :=
  match bytes with
  | a :: b :: bytes => from_be_bytes [a; b] + word_sum bytes
  | [last] => from_be_bytes [last; 0]
  | [] => 0
  end.
(** [while sum >> 16 != 0]. *)
Fixpoint fold_carries (fuel : nat) (sum : Z) : Z :=
  match fuel with
  | O => sum
  | S fuel => if Z.shiftr sum 16 =? 0 then sum
              else fold_carries fuel (Z.land sum 65535 + Z.shiftr sum 16)
  end.
(** [!(sum as u16)] of the folded sum. *)
Definition complement (sum : Z) : Z := 65535 - wrap 16 (fold_carries 32 sum).
Definition ones_complement_checksum (bytes : list Z) : Z := complement (word_sum bytes).

Record UdpDatagram : Set := { source : list Z; destination_port : Z; payload : list Z }.

Definition ipv4_udp_datagram (source destination : list Z)
    (source_port destination_port identification : Z) (payload : list Z) : list Z :=
  let total := Z.of_nat (IPV4_HEADER_LEN + UDP_HEADER_LEN + length payload) in
  let header := [69; 0] ++ to_be_bytes 2 (wrap 16 total) ++ to_be_bytes 2 identification
    ++ to_be_bytes 2 0 ++ [64; PROTO_UDP] ++ to_be_bytes 2 0 ++ source ++ destination in
  let checksum := ones_complement_checksum (take IPV4_HEADER_LEN header) in
  let header := splice 10 (to_be_bytes 2 checksum) header in
  header ++ to_be_bytes 2 source_port ++ to_be_bytes 2 destination_port
    ++ to_be_bytes 2 (wrap 16 (Z.of_nat (UDP_HEADER_LEN + length payload)))
    ++ to_be_bytes 2 0 ++ payload.

Definition parse_ipv4_udp (bytes : list Z) : option UdpDatagram :=
  if bool_decide (length bytes < IPV4_HEADER_LEN)%nat || negb (Z.shiftr (byte_at 0 bytes) 4 =? 4)
  then None else
  let header_len := (Z.to_nat (Z.land (byte_at 0 bytes) 15) * 4)%nat in
  if bool_decide (header_len < IPV4_HEADER_LEN)%nat
     || bool_decide (length bytes < header_len + UDP_HEADER_LEN)%nat then None else
  if negb (byte_at 9 bytes =? PROTO_UDP) then None else
  let fragment := from_be_bytes (take 2 (drop 6 bytes)) in
  if negb (Z.land fragment 8191 =? 0) then None else
  let total_len := Z.to_nat (from_be_bytes (take 2 (drop 2 bytes))) in
  let available := Nat.min total_len (length bytes) in
  udp ← slice header_len available bytes;
  if bool_decide (length udp < UDP_HEADER_LEN)%nat then None else
  let udp_len := Nat.max (Z.to_nat (from_be_bytes (take 2 (drop 4 udp)))) UDP_HEADER_LEN in
  payload ← slice UDP_HEADER_LEN (Nat.min udp_len (length udp)) udp;
  Some {| source := take 4 (drop 12 bytes);
          destination_port := from_be_bytes (take 2 (drop 2 udp)); payload := payload |}.

(** ** Text *)

Fixpoint parse_mac_fields (count : nat) (fields : list string) : option (list Z) :=
  match fields with
  | [] => if Nat.eqb count 6 then Some [] else None
  | field :: fields =>
      if Nat.eqb count 6 then None
      else b ← from_str_radix u8_max 16 field;
           rest ← parse_mac_fields (S count) fields;
           Some (b :: rest)
  end.
Definition parse_mac (value : string) : option (list Z) :=
  parse_mac_fields 0 (split ":" (trim value)).

Definition format_ipv4 (address : list Z) : string :=
  dec (byte_at 0 address) +:+ "." +:+ dec (byte_at 1 address) +:+ "."
    +:+ dec (byte_at 2 address) +:+ "." +:+ dec (byte_at 3 address).

(** ** The internet checksum *)

Lemma fold_carries_spec fuel x :
  0 ≤ x < 4294967296 → (3 ≤ fuel)%nat →
  let y := fold_carries fuel x in
  0 ≤ y ≤ 65535 ∧ (65535 | y - x) ∧ (0 < x → 0 < y).
Proof.
  assert (Hstep : ∀ z, 0 ≤ z → Z.land z 65535 + Z.shiftr z 16 = z mod 65536 + z / 65536).
  { intros z Hz. rewrite Z.shiftr_div_pow2 by done. change 65535 with (Z.ones 16).
    by rewrite Z.land_ones. }
  assert (Hz : ∀ z, Z.shiftr z 16 =? 0 = (z / 65536 =? 0)).
  { intros z. by rewrite Z.shiftr_div_pow2. }
  assert (Hstop : ∀ n z, 0 ≤ z ≤ 65535 → fold_carries n z = z).
  { intros [|n] z Hz0; [done|]. simpl. rewrite Hz, Z.div_small by lia. done. }
  intros Hx Hf. destruct fuel as [|[|[|fuel]]]; try lia.
  assert (Hone : ∀ n z, 0 ≤ z → fold_carries (S n) z = fold_carries n (z mod 65536 + z / 65536) ∨
    (z ≤ 65535 ∧ fold_carries (S n) z = z)).
  { intros n z Hz0. simpl. rewrite Hz, Hstep by done.
    destruct (Z.eqb_spec (z / 65536) 0) as [E|E]; [right|by left]. split; [|done].
    pose proof (Z.div_mod z 65536 ltac:(lia)). pose proof (Z.mod_pos_bound z 65536 ltac:(lia)). lia. }
  assert (Hd : ∀ z, 0 ≤ z → z = 65536 * (z / 65536) + z mod 65536 ∧ 0 ≤ z mod 65536 < 65536 ∧ 0 ≤ z / 65536).
  { intros z Hz0. split; [apply Z.div_mod; lia|]. split; [apply Z.mod_pos_bound; lia|].
    apply Z.div_pos; lia. }
  pose proof (Hd x ltac:(lia)) as (E1 & M1 & D1).
  destruct (Hone (S (S fuel)) x) as [->|[? ->]]; [lia| |split; [lia|split; [by exists 0; lia|lia]]].
  set (y := x mod 65536 + x / 65536) in *.
  pose proof (Hd y ltac:(lia)) as (E2 & M2 & D2).
  destruct (Hone (S fuel) y) as [->|[? ->]]; [lia| |split; [lia|split; [exists (- (x / 65536)); lia|lia]]].
  set (w := y mod 65536 + y / 65536) in *.
  assert (y / 65536 ≤ 1) by lia. assert (w ≤ 65535) by lia.
  rewrite Hstop by lia. split; [lia|]. split; [exists (- (x / 65536) - y / 65536); lia|lia].
Qed.

(** Adding the checksum of a sum to it makes the checksum zero. *)
Lemma checksum_cancels s :
  0 ≤ s < 4294901760 →
  0 ≤ complement s ≤ 65535 ∧ (0 < s + complement s → complement (s + complement s) = 0).
Proof.
  intros Hs. pose proof (fold_carries_spec 32 s ltac:(lia) ltac:(lia)) as (H1 & H2 & H3).
  unfold complement, wrap. change (2 ^ 16) with 65536. set (f := fold_carries 32 s) in *.
  rewrite (Z.mod_small f) by lia. split; [lia|]. intros Hpos.
  pose proof (fold_carries_spec 32 (s + (65535 - f)) ltac:(lia) ltac:(lia)) as (H4 & H5 & H6).
  set (g := fold_carries 32 (s + (65535 - f))) in *.
  rewrite (Z.mod_small g) by lia. specialize (H6 Hpos).
  destruct H2 as [a Ha], H5 as [b Hb]. nia.
Qed.

Lemma to_be_bytes_2 x : to_be_bytes 2 x = [x / 256 mod 256; x mod 256].
Proof. done. Qed.
Lemma be_word x : 0 ≤ x ≤ 65535 → from_be_bytes [x / 256 mod 256; x mod 256] = x.
Proof. intros. rewrite <- to_be_bytes_2. apply from_to_be_bytes. simpl. lia. Qed.

Definition ip_ok (a : list Z) : Prop := length a = 4%nat ∧ bytes_ok a.

(** The header of a datagram, word by word. *)
Definition header_words (total identification checksum : Z) (source destination : list Z) : list Z :=
  [69; 0; total / 256 mod 256; total mod 256; identification / 256 mod 256; identification mod 256;
   0; 0; 64; PROTO_UDP; checksum / 256 mod 256; checksum mod 256] ++ source ++ destination.

Lemma word_sum_header t i c src dst :
  0 ≤ t ≤ 65535 → 0 ≤ i ≤ 65535 → 0 ≤ c ≤ 65535 → ip_ok src → ip_ok dst →
  0 ≤ word_sum (header_words t i 0 src dst) < 655360 ∧ 0 < word_sum (header_words t i 0 src dst) ∧
  word_sum (header_words t i c src dst) = word_sum (header_words t i 0 src dst) + c.
Proof.
  intros Ht Hi Hc [Hs1 Hs2] [Hd1 Hd2].
  destruct src as [|s0 [|s1 [|s2 [|s3 []]]]]; try discriminate.
  destruct dst as [|d0 [|d1 [|d2 [|d3 []]]]]; try discriminate.
  unfold header_words. cbn [app word_sum]. rewrite (be_word t), (be_word i), (be_word c) by done.
  unfold bytes_ok in *. rewrite !Forall_cons in *.
  assert (Hp : ∀ x y, from_be_bytes [x; y] = y + 256 * x).
  { intros. unfold from_be_bytes, reverse. simpl. lia. }
  rewrite !Hp. change (0 / 256 mod 256) with 0. change (0 mod 256) with 0. unfold PROTO_UDP.
  intuition lia.
Qed.

Lemma datagram_shape src dst sp dp i payload :
  ip_ok src → ip_ok dst → 0 ≤ i ≤ 65535 → Z.of_nat (28 + length payload) ≤ 65535 →
  ∃ c, 0 ≤ c ≤ 65535 ∧
    ones_complement_checksum (header_words (Z.of_nat (28 + length payload)) i c src dst) = 0 ∧
    ipv4_udp_datagram src dst sp dp i payload =
      header_words (Z.of_nat (28 + length payload)) i c src dst ++
      to_be_bytes 2 sp ++ to_be_bytes 2 dp ++ to_be_bytes 2 (Z.of_nat (8 + length payload)) ++ [0; 0] ++ payload.
Proof.
  intros Hs Hd Hi Hl. set (total := Z.of_nat (28 + length payload)) in *.
  pose proof (word_sum_header total i 0 src dst ltac:(lia) Hi ltac:(lia) Hs Hd) as (Hb & Hp & _).
  pose proof (checksum_cancels (word_sum (header_words total i 0 src dst)) ltac:(lia)) as [Hc Hz].
  set (c := complement (word_sum (header_words total i 0 src dst))) in *.
  pose proof (word_sum_header total i c src dst ltac:(lia) Hi Hc Hs Hd) as (_ & _ & Hsum).
  exists c. split; [exact Hc|]. split; [unfold ones_complement_checksum; rewrite Hsum; apply Hz; lia|].
  assert (Hw : ∀ z, 0 ≤ z ≤ 65535 → wrap 16 z = z).
  { intros z Hz0. unfold wrap. apply Z.mod_small. change (2 ^ 16) with 65536. lia. }
  unfold ipv4_udp_datagram. change (IPV4_HEADER_LEN + UDP_HEADER_LEN + length payload)%nat with (28 + length payload)%nat.
  change (UDP_HEADER_LEN + length payload)%nat with (8 + length payload)%nat.
  fold total. rewrite (Hw total), (Hw (Z.of_nat (8 + length payload))) by lia. cbv zeta.
  destruct Hs as [Hs1 _], Hd as [Hd1 _].
  destruct src as [|s0 [|s1 [|s2 [|s3 []]]]]; try discriminate.
  destruct dst as [|d0 [|d1 [|d2 [|d3 []]]]]; try discriminate.
  set (header := [69; 0] ++ to_be_bytes 2 total ++ _).
  assert (header = header_words total i 0 [s0; s1; s2; s3] [d0; d1; d2; d3]) as -> by reflexivity.
  assert (ones_complement_checksum (take IPV4_HEADER_LEN
    (header_words total i 0 [s0; s1; s2; s3] [d0; d1; d2; d3])) = c) as -> by reflexivity.
  clearbody c. reflexivity.
Qed.

(** dhcp.rs, IPv4/UDP framing: a datagram built by the guest, with anything after it in
    the receive buffer, is parsed back to its source, port and payload, and its IPv4 header
    carries a valid checksum. *)
Theorem datagram_roundtrip src dst sp dp i payload trailing :
  ip_ok src → ip_ok dst → 0 ≤ i ≤ 65535 → 0 ≤ dp ≤ 65535 →
  Z.of_nat (28 + length payload) ≤ 65535 →
  let datagram := ipv4_udp_datagram src dst sp dp i payload in
  parse_ipv4_udp (datagram ++ trailing) =
    Some {| source := src; destination_port := dp; payload := payload |} ∧
  ones_complement_checksum (take 20 datagram) = 0 ∧
  length datagram = (28 + length payload)%nat.
Proof.
  intros Hs Hd Hi Hdp Hl datagram.
  destruct (datagram_shape src dst sp dp i payload Hs Hd Hi Hl) as (c & Hc & Hcs & Hshape).
  unfold datagram. rewrite Hshape. clear datagram Hshape.
  set (total := Z.of_nat (28 + length payload)) in *.
  destruct Hs as [Hs1 _], Hd as [Hd1 _].
  destruct src as [|s0 [|s1 [|s2 [|s3 []]]]]; try discriminate.
  destruct dst as [|d0 [|d1 [|d2 [|d3 []]]]]; try discriminate.
  split; [|split; [exact Hcs|rewrite !length_app, !length_to_be_bytes; simpl; lia]].
  set (udp := to_be_bytes 2 sp ++ to_be_bytes 2 dp ++ to_be_bytes 2 (Z.of_nat (8 + length payload))
    ++ [0; 0] ++ payload).
  set (hdr := header_words total i c [s0; s1; s2; s3] [d0; d1; d2; d3]).
  rewrite <- app_assoc. set (bytes := hdr ++ udp ++ trailing).
  assert (length udp = 8 + length payload)%nat as Hudp.
  { unfold udp. rewrite !length_app, !length_to_be_bytes. simpl. lia. }
  assert (length bytes = 20 + (8 + length payload) + length trailing)%nat as Hbytes.
  { unfold bytes. rewrite !length_app, Hudp. change (length hdr) with 20%nat. lia. }
  assert (slice 20 (28 + length payload) bytes = Some udp) as Hslice.
  { apply slice_app; [done|]. rewrite Hudp. change (length hdr) with 20%nat. lia. }
  assert (from_be_bytes (take 2 (drop 2 bytes)) = total) as Htotal by (apply be_word; lia).
  unfold parse_ipv4_udp.
  change (byte_at 0 bytes) with 69. change (byte_at 9 bytes) with PROTO_UDP.
  change (take 2 (drop 6 bytes)) with [0; 0]. change (take 4 (drop 12 bytes)) with [s0; s1; s2; s3].
  change (Z.to_nat (Z.land 69 15) * 4)%nat with 20%nat. change (Z.shiftr 69 4 =? 4) with true.
  change (Z.land (from_be_bytes [0; 0]) 8191 =? 0) with true. rewrite Z.eqb_refl, Htotal.
  unfold IPV4_HEADER_LEN, UDP_HEADER_LEN. rewrite !bool_decide_eq_false_2 by lia. cbn [negb orb].
  replace (Nat.min (Z.to_nat total) (length bytes)) with (28 + length payload)%nat by lia.
  rewrite Hslice. cbn [mbind option_bind]. rewrite bool_decide_eq_false_2 by lia.
  assert (from_be_bytes (take 2 (drop 4 udp)) = Z.of_nat (8 + length payload)) as -> by (apply be_word; lia).
  assert (from_be_bytes (take 2 (drop 2 udp)) = dp) as -> by (apply be_word; lia).
  replace (Nat.min (Nat.max (Z.to_nat (Z.of_nat (8 + length payload))) 8) (length udp))
    with (8 + length payload)%nat by lia.
  assert (slice 8 (8 + length payload) udp = Some payload) as ->; [|done].
  rewrite <- (app_nil_r udp). unfold udp. rewrite !app_assoc, <- (app_assoc _ payload).
  apply slice_app; [by rewrite !length_app, !length_to_be_bytes|].
  rewrite !length_app, !length_to_be_bytes. simpl. lia.
Qed.

(** ** Options *)

Definition option_ok (o : Z * list Z) : Prop :=
  o.1 ≠ OPTION_PAD ∧ o.1 ≠ OPTION_END ∧ Z.of_nat (length o.2) ≤ 255.
(** An option on the wire, after [pads] padding bytes. *)
Definition encode_option (pads : nat) (o : Z * list Z) : list Z :=
  replicate pads OPTION_PAD ++ [o.1; Z.of_nat (length o.2)] ++ o.2.

Lemma parse_options_pads pads fuel rest st :
  (length (replicate pads OPTION_PAD ++ rest) ≤ fuel)%nat →
  ∃ fuel', (length rest ≤ fuel')%nat ∧
    parse_options fuel (replicate pads OPTION_PAD ++ rest) st = parse_options fuel' rest st.
Proof.
  revert fuel; induction pads as [|pads IH]; intros fuel Hf; [by exists fuel|].
  destruct fuel as [|fuel]; [simpl in Hf; lia|]. simpl in Hf.
  destruct (IH fuel) as (f & ? & He); [lia|]. exists f. split; [done|]. simpl. by rewrite He.
Qed.
Lemma parse_options_one fuel pads o rest st :
  option_ok o → (length (encode_option pads o ++ rest) ≤ fuel)%nat →
  ∃ fuel', (length rest ≤ fuel')%nat ∧
    parse_options fuel (encode_option pads o ++ rest) st =
    parse_options fuel' rest (apply_option o.1 o.2 st).
Proof.
  destruct o as [code value]. intros (Hp & He & Hl) Hf. unfold encode_option in *. simpl in Hp, He, Hl.
  rewrite <- app_assoc in *. destruct (parse_options_pads _ _ _ st Hf) as (f & Hf' & ->).
  destruct f as [|f]; [simpl in Hf'; lia|]. cbn [fst snd app length] in *.
  exists f. split; [rewrite length_app in Hf'; lia|]. cbn [parse_options].
  rewrite (proj2 (Z.eqb_neq _ _) Hp), (proj2 (Z.eqb_neq _ _) He), Nat2Z.id.
  replace (slice 0 (length value) (value ++ rest)) with (Some value).
  2:{ symmetry. apply (slice_app [] value rest); [done|]. simpl. lia. }
  by rewrite drop_app_length.
Qed.
Lemma parse_options_all fuel (opts : list (nat * (Z * list Z))) tail st :
  Forall (λ p, option_ok p.2) opts →
  (length (concat ((λ p, encode_option p.1 p.2) <$> opts) ++ OPTION_END :: tail) ≤ fuel)%nat →
  parse_options fuel (concat ((λ p, encode_option p.1 p.2) <$> opts) ++ OPTION_END :: tail) st =
  foldl (λ st p, apply_option p.2.1 p.2.2 st) st opts.
Proof.
  revert fuel st; induction opts as [|[pads o] opts IH]; intros fuel st Hok Hf.
  - destruct fuel; simpl in *; [lia|done].
  - apply Forall_cons in Hok as [Ho Hok]. csimpl in *. rewrite <- app_assoc in *.
    destruct (parse_options_one _ _ _ _ st Ho Hf) as (f & Hf' & ->). by apply IH.
Qed.

(** dhcp.rs, [parse_reply]: on any BOOTP reply whose options are well-formed, in any
    order, padded anywhere and closed by the end marker, every option is applied exactly
    once, in order, whatever follows the marker; the reply is rejected only when none of
    them gave a message type. *)
Theorem parse_reply_options header (opts : list (nat * (Z * list Z))) tail :
  length header = FIXED_LEN → byte_at 0 header = OP_REPLY → take 4 (drop 236 header) = MAGIC_COOKIE →
  Forall (λ p, option_ok p.2) opts →
  parse_reply (header ++ concat ((λ p, encode_option p.1 p.2) <$> opts) ++ OPTION_END :: tail) =
    let '(reply, mt) := foldl (λ st p, apply_option p.2.1 p.2.2 st)
      (reply0 (from_be_bytes (take 4 (drop 4 header))) (take 4 (drop 16 header)), None) opts in
    match mt with
    | None => Err NoMessageType
    | Some t => Ok {| message_type := t; xid := xid reply; address := address reply;
        subnet_mask := subnet_mask reply; routers := routers reply; resolvers := resolvers reply;
        server_id := server_id reply; lease_seconds := lease_seconds reply |}
    end.
Proof.
  intros Hlen Hop Hcookie Hopts. set (rest := concat _ ++ _). unfold parse_reply.
  rewrite reject_if_false by (apply bool_decide_eq_false_2; rewrite length_app; lia).
  assert (Hd : ∀ n k, (n + k ≤ 240)%nat → take k (drop n (header ++ rest)) = take k (drop n header)).
  { intros n k Hk. rewrite drop_app_le by (rewrite Hlen; unfold FIXED_LEN; lia).
    apply take_app_le. rewrite length_drop, Hlen. unfold FIXED_LEN. lia. }
  rewrite !Hd, Hcookie by lia. rewrite drop_app_length' by done.
  rewrite (bool_decide_eq_true_2 (MAGIC_COOKIE = MAGIC_COOKIE)) by done.
  assert (byte_at 0 (header ++ rest) = OP_REPLY) as ->.
  { unfold byte_at in *. rewrite lookup_app_l by (rewrite Hlen; unfold FIXED_LEN; lia). done. }
  rewrite Z.eqb_refl. cbn [negb reject_if]. unfold rest.
  rewrite parse_options_all by done.
  destruct (foldl _ _ opts) as [reply [t|]]; done.
Qed.

Lemma list_of_length_4 (l : list Z) : length l = 4%nat → ∃ a b c d, l = [a; b; c; d].
Proof. destruct l as [|a [|b [|c [|d []]]]]; intros; try done. by exists a, b, c, d. Qed.

(** dhcp.rs, [encode_request]: seen as a reply (its operation byte flipped), the request
    for an offer carries the transaction, message type 3, and the offering server; it
    requests the offered address, and it is padded to the 300 bytes servers expect. *)
Theorem request_roundtrip xid_ mac requested server :
  0 ≤ xid_ ≤ u32_max → length mac = 6%nat → length requested = 4%nat → length server = 4%nat →
  length (encode_request xid_ mac requested server) = MIN_PACKET_LEN ∧
  take 6 (drop 28 (encode_request xid_ mac requested server)) = mac ∧
  [OPTION_REQUESTED_IP; 4] ++ requested =
    take 6 (drop 249 (encode_request xid_ mac requested server)) ∧
  parse_reply (splice 0 [OP_REPLY] (encode_request xid_ mac requested server)) =
    Ok {| message_type := DHCP_REQUEST; xid := xid_; address := [0; 0; 0; 0]; subnet_mask := None;
          routers := []; resolvers := []; server_id := Some server; lease_seconds := None |}.
Proof.
  intros Hx Hm (r0 & r1 & r2 & r3 & ->)%list_of_length_4 (s0 & s1 & s2 & s3 & ->)%list_of_length_4.
  destruct mac as [|m0 [|m1 [|m2 [|m3 [|m4 [|m5 []]]]]]]; try done.
  pose proof (from_to_be_bytes 4 xid_ ltac:(unfold u32_max in Hx; simpl; lia)) as Hxid.
  pose proof (length_to_be_bytes 4 xid_) as Hl4.
  unfold encode_request, bootp_header. destruct (list_of_length_4 _ Hl4) as (x0 & x1 & x2 & x3 & Hx4).
  rewrite Hx4 in *. split; [done|]. split; [done|]. split; [done|].
  rewrite <- Hxid. vm_compute. reflexivity.
Qed.

Lemma datagram_roundtrip_witness :
  parse_ipv4_udp (ipv4_udp_datagram [0; 0; 0; 0] [255; 255; 255; 255] 68 67 0 [1; 2; 3] ++ [9; 9]) =
    Some {| source := [0; 0; 0; 0]; destination_port := 67; payload := [1; 2; 3] |}.
Proof.
  apply (datagram_roundtrip [0; 0; 0; 0] [255; 255; 255; 255] 68 67 0 [1; 2; 3] [9; 9]);
    [by split; [|repeat (constructor; [lia|]); constructor]..|lia|lia|by vm_compute].
Defined.

Definition demo_header : list Z := splice 0 [OP_REPLY] (bootp_header 305419896 [82; 84; 0; 154; 31; 195]).
Lemma parse_reply_options_witness :
  parse_reply (demo_header ++ concat ((λ p, encode_option p.1 p.2) <$>
      [(0%nat, (53, [2])); (2%nat, (54, [192; 168; 1; 1]))]) ++ OPTION_END :: [7; 7]) =
    Ok {| message_type := DHCP_OFFER; xid := 305419896; address := [0; 0; 0; 0]; subnet_mask := None;
          routers := []; resolvers := []; server_id := Some [192; 168; 1; 1]; lease_seconds := None |}.
Proof.
  etransitivity; [apply parse_reply_options; [done|done|done|]|by vm_compute].
  by repeat (constructor; [by split_and!; vm_compute|]); constructor.
Defined.
Lemma request_roundtrip_witness :
  is_ok (parse_reply (splice 0 [OP_REPLY] (encode_request 305419896 [82; 84; 0; 154; 31; 195]
    [192; 168; 1; 42] [192; 168; 1; 1]))) = true.
Proof.
  destruct (request_roundtrip 305419896 [82; 84; 0; 154; 31; 195] [192; 168; 1; 42] [192; 168; 1; 1])
    as (_ & _ & _ & H); [by vm_compute|done|done|done|]. by rewrite H.
Defined.
