(* ===== verification/Net.v ===== *)
(** Guest networking ([firestone-init/src/net.rs]): the bounded DHCP exchange and the files
    written for it. *)
From S2P Require Import Prelude RustStr Errors Clock Dhcp.
Open Scope Z_scope.

Definition INTERFACE : string := "eth0".
Definition DHCP_BUDGET : Z := 5000000000.
Definition RECEIVE_SLICE : Z := 500000000.
Definition ETHERNET_PROTOCOL_IPV4 : Z := 2048.
Definition MAX_DATAGRAM : Z := 2048.

Record Lease : Set := {
  lease_address : list Z; netmask : list Z; gateway : option (list Z);
  lease_resolvers : list (list Z) }.

(** An errno is its text; [recv]'s two retryable ones are separate. *)
Inductive NetError : Set :=
  | Syscall (operation errno : string)
  | Timeout
  | Refused
  | NetIo (path : string) (source : IoError).
Definition net_error_display (e : NetError) : string :=
  match e with
  | Syscall operation source => operation +:+ " failed: " +:+ source
  | Timeout => "no DHCP reply on " +:+ INTERFACE +:+ " within " +:+ dec (DHCP_BUDGET / 1000000000) +:+ " seconds"
  | Refused => "the DHCP server refused the lease (NAK)"
  | NetIo path source => "cannot write " +:+ path +:+ ": " +:+ io_text source
  end.

Inductive RecvResult : Set := Received (bytes : list Z) | TryAgain | RecvError (errno : string).

(** [transaction_id]: [seed] is the sub-second part of the clock. *)
Definition rotate_left_32 (z k : Z) : Z :=
  Z.lor (wrap 32 (Z.shiftl z k)) (Z.shiftr z (32 - k)).
Definition transaction_id (seed : Z) (mac : list Z) : Z :=
  let mac_part := from_be_bytes (take 4 (drop 2 mac)) in
  Z.lxor (Z.lxor seed (rotate_left_32 mac_part 7)) 1179866190.

(** The outcome of each call that opens the exchange, by name. *)
Record SetupCalls : Set := {
  open_control : result string (); bring_interface_up : result string ();
  read_interface_index : result string (); open_packet : result string ();
  bind_to_device : result string (); set_receive_timeout : result string () }.
Definition setup (calls : SetupCalls) : result NetError () :=
  map_err (Syscall "open an AF_INET control socket") (open_control calls);;
  map_err (Syscall "bring eth0 up") (bring_interface_up calls);;
  map_err (Syscall "read the eth0 index") (read_interface_index calls);;
  map_err (Syscall "open an AF_PACKET socket") (open_packet calls);;
  map_err (Syscall "bind the AF_PACKET socket to eth0") (bind_to_device calls);;
  map_err (Syscall "set the DHCP receive timeout") (set_receive_timeout calls).

Section exchange.
Context `{Schedule}.
(** What the packet socket yields each time it is read, and what each send returns. *)
Context (recv : nat → RecvResult) (send_link_broadcast : list Z → nat → result string ()).
Local Abbreviation Act := (M (Timed ()) NetError).

(** One turn of [wait_for]'s loop. *)
Definition wait_turn (xid_ deadline expected : Z) (_ : ()) : Act (() + DhcpReply) :=
  now ← instant_now;
  if now <? deadline then
    read ← observe (λ n, Ok (recv n));
    match read with
    | TryAgain => mret (inl ())
    | RecvError source => M_fail (Syscall "receive a DHCP packet" source)
    | Received bytes =>
        match parse_ipv4_udp bytes with
        | None => mret (inl ())
        | Some datagram =>
            if negb (destination_port datagram =? CLIENT_PORT) then mret (inl ()) else
            match parse_reply (payload datagram) with
            | Err _ => mret (inl ())
            | Ok reply =>
                if negb (xid reply =? xid_) then mret (inl ())
                else if message_type reply =? DHCP_NAK then M_fail Refused
                else if message_type reply =? expected then mret (inr reply)
                else mret (inl ())
            end
        end
    end
  else M_fail Timeout.
Definition wait_for (fuel : nat) (xid_ deadline expected : Z) : Act (option DhcpReply) :=
  loop (wait_turn xid_ deadline expected) fuel ().

Definition send (packet : list Z) : Act () :=
  let datagram := ipv4_udp_datagram [0; 0; 0; 0] [255; 255; 255; 255] CLIENT_PORT SERVER_PORT 0 packet in
  observe (λ n, map_err (Syscall "send a DHCP packet") (send_link_broadcast datagram n)).

Definition lease_of (offer ack : DhcpReply) : Lease := {|
  lease_address := address ack;
  netmask := match subnet_mask ack with
    | Some m => m
    | None => match subnet_mask offer with Some m => m | None => [255; 255; 255; 0] end
    end;
  gateway := match head (routers ack) with Some r => Some r | None => head (routers offer) end;
  lease_resolvers := match resolvers ack with [] => resolvers offer | l => l end |}.

(** [seed] is the sub-second part of the wall clock. *)
Context (calls : SetupCalls) (seed : Z).

Definition acquire_lease (fuel : nat) (mac : list Z) (budget : Z) : Act (option Lease) :=
  now ← instant_now;
  let deadline := now + budget in
  M_lift (setup calls);;
  let xid_ := transaction_id seed mac in
  send (encode_discover xid_ mac);;
  offer ← wait_for fuel xid_ deadline DHCP_OFFER;
  match offer with
  | None => mret None
  | Some offer =>
      let server := match server_id offer with Some s => s | None => address offer end in
      send (encode_request xid_ mac (address offer) server);;
      ack ← wait_for fuel xid_ deadline DHCP_ACK;
      mret (lease_of offer <$> ack)
  end.
End exchange.

Definition render_resolv_conf (resolvers : list (list Z)) : string :=
  foldl (λ acc r, acc +:+ "nameserver " +:+ format_ipv4 r +:+ one LF) "" resolvers.
Definition TAB : string := one "009"%char.
Definition render_hosts (address : list Z) (hostname : string) : string :=
  let rendered := "127.0.0.1" +:+ TAB +:+ "localhost" +:+ one LF in
  let rendered := rendered +:+
    (if negb (bool_decide (address = [127; 0; 0; 1]))
     then format_ipv4 address +:+ TAB +:+ hostname +:+ one LF
     else "127.0.1.1" +:+ TAB +:+ hostname +:+ one LF) in
  rendered +:+ "::1" +:+ TAB +:+ "localhost ip6-localhost ip6-loopback" +:+ one LF.

(** ** The exchange is bounded and answers to this transaction only *)

Section exchange_spec.
Context `{Schedule} (recv : nat → RecvResult) (send_link_broadcast : list Z → nat → result string ()).
(** Every step of the outside world takes at least [pace]. *)
Context (pace : Z) (Hpace : 0 < pace) (Hlag : ∀ n, pace ≤ lag n).

(** [reply] was received, addressed to the client port, for this transaction. *)
Definition received (xid_ : Z) (reply : DhcpReply) : Prop :=
  ∃ n bytes datagram, recv n = Received bytes ∧ parse_ipv4_udp bytes = Some datagram ∧
    destination_port datagram = CLIENT_PORT ∧ parse_reply (payload datagram) = Ok reply ∧
    xid reply = xid_.

Definition WaitOutcome (xid_ deadline expected : Z) (r : result NetError DhcpReply) (w : Timed ()) : Prop :=
  match r with
  | Ok reply => received xid_ reply ∧ message_type reply = expected ∧ message_type reply ≠ DHCP_NAK
  | Err Timeout => deadline ≤ time w
  | Err Refused => ∃ nak, received xid_ nak ∧ message_type nak = DHCP_NAK
  | Err (Syscall op e) => op = "receive a DHCP packet" ∧ ∃ n, recv n = RecvError e
  | Err (NetIo _ _) => False
  end.

Lemma wait_for_spec xid_ deadline expected fuel (w : Timed ()) :
  (turns_left pace (deadline - time w) < fuel)%nat →
  ∃ r w', wait_for recv fuel xid_ deadline expected w = (Some <$> r, w') ∧
    time w ≤ time w' ∧ WaitOutcome xid_ deadline expected r w'.
Proof.
  intros Hf. unfold wait_for.
  apply (loop_spec _ (λ _ v, time w ≤ time v) (λ _ w, turns_left pace (deadline - time w))
    (λ r w', time w ≤ time w' ∧ WaitOutcome xid_ deadline expected r w')); [|done|done].
  set (w0 := w). clearbody w0. clear w Hf. intros [] w L0. unfold wait_turn. rewrite bind_now.
  set (w1 := pass 0 w). assert (time w1 = time w + lag (tick w)) as T1 by (unfold w1; rewrite time_pass; lia).
  pose proof (Hlag (tick w)) as L1.
  destruct (Z.ltb_spec (time w1) deadline) as [Hd|Hd]; [|split; [lia|exact Hd]].
  rewrite bind_observe. set (w2 := pass 0 w1).
  assert (time w2 = time w1 + lag (tick w1)) as T2 by (unfold w2; rewrite time_pass; lia).
  pose proof (Hlag (tick w1)) as L2.
  assert (L3 : time w0 ≤ time w2) by lia.
  assert (Hnext : time w0 ≤ time w2 ∧ (turns_left pace (deadline - time w2) < turns_left pace (deadline - time w))%nat).
  { split; [done|]. apply turns_left_sleep; lia. }
  destruct (recv (tick w1)) as [bytes| |e] eqn:Hrecv; [|exact Hnext|by split; [|split; eauto]].
  destruct (parse_ipv4_udp bytes) as [datagram|] eqn:Hdg; [|exact Hnext].
  destruct (Z.eqb_spec (destination_port datagram) CLIENT_PORT) as [Hport|]; [|exact Hnext].
  destruct (parse_reply (payload datagram)) as [reply|] eqn:Hreply; [|exact Hnext].
  destruct (Z.eqb_spec (xid reply) xid_) as [Hxid|]; [|exact Hnext]. cbn [negb].
  assert (received xid_ reply) as Hrec by (by exists (tick w1), bytes, datagram).
  destruct (Z.eqb_spec (message_type reply) DHCP_NAK) as [Hnak|Hnak]; [by split; [|exists reply]|].
  destruct (Z.eqb_spec (message_type reply) expected); [|exact Hnext]. done.
Qed.

Lemma setup_fails calls e : setup calls = Err e → ∃ op errno, e = Syscall op errno.
Proof.
  unfold setup. destruct calls as [[[]|?] [[]|?] [[]|?] [[]|?] [[]|?] [[]|?]]; simpl; intros [= <-]; eauto.
Qed.

(** net.rs, [acquire_lease]: with a world that takes any positive time per step, the
    exchange ends within the turns its budget allows, whatever arrives on the
    promiscuous socket; a lease comes from an offer and an acknowledgement of this very
    transaction, its address from the acknowledgement, its other facts falling back to the
    offer; a timeout is reported only once the budget is spent, a refusal only on a NAK. *)
Theorem acquire_lease_bounded calls seed fuel mac budget (w : Timed ()) :
  (turns_left pace budget < fuel)%nat →
  let xid_ := transaction_id seed mac in
  ∃ r w', acquire_lease recv send_link_broadcast calls seed fuel mac budget w = (Some <$> r, w') ∧
    match r with
    | Ok lease => ∃ offer ack, received xid_ offer ∧ received xid_ ack ∧
        message_type offer = DHCP_OFFER ∧ message_type ack = DHCP_ACK ∧
        lease = lease_of offer ack ∧ lease_address lease = address ack
    | Err Timeout => time w + budget ≤ time w'
    | Err Refused => ∃ nak, received xid_ nak ∧ message_type nak = DHCP_NAK
    | Err _ => True
    end.
Proof.
  intros Hf xid_. unfold acquire_lease. fold xid_. rewrite bind_now. set (w1 := pass 0 w).
  pose proof (time_pass_ge w) as T1. fold w1 in T1. set (deadline := time w1 + budget).
  destruct (setup calls) as [[]|e] eqn:Hs.
  2:{ exists (Err e), w1. split; [done|]. apply setup_fails in Hs as (op & errno & ->). done. }
  rewrite (bind_run (M_lift _) _ w1 () w1) by done.
  assert (Hsend : ∀ p v, (∃ v', send send_link_broadcast p v = (Ok (), v') ∧ time v ≤ time v') ∨
    ∃ e v', send send_link_broadcast p v = (Err (Syscall "send a DHCP packet" e), v')).
  { intros p v. unfold send, observe. destruct (send_link_broadcast _ (tick v)) as [[]|e]; [left|right; by eexists _, _].
    eexists; split; [done|apply time_pass_ge]. }
  destruct (Hsend (encode_discover xid_ mac) w1) as [(w2 & E2 & T2)|(e & w2 & E2)].
  2:{ rewrite (bind_run_err _ _ _ _ _ E2). by exists (Err (Syscall "send a DHCP packet" e)), w2. }
  rewrite (bind_run _ _ _ _ _ E2).
  assert (Hleft : ∀ v : Timed (), time w1 ≤ time v → (turns_left pace (deadline - time v) < fuel)%nat).
  { intros v Hv. eapply Nat.le_lt_trans; [apply turns_left_mono|exact Hf]; unfold deadline; lia. }
  assert (Hfail : ∀ expected e v, WaitOutcome xid_ deadline expected (Err e) v →
    match e with
    | Timeout => time w + budget ≤ time v
    | Refused => ∃ nak, received xid_ nak ∧ message_type nak = DHCP_NAK
    | _ => True end).
  { intros expected [] v Hv; try done. simpl in Hv. unfold deadline in Hv. lia. }
  destruct (wait_for_spec xid_ deadline DHCP_OFFER fuel w2 (Hleft _ T2)) as ([offer|e] & w3 & E3 & T3 & Ho).
  2:{ rewrite (bind_run_err _ _ _ _ _ E3). exists (Err e), w3. split; [done|].
      pose proof (Hfail _ _ _ Ho). by destruct e. }
  rewrite (bind_run _ _ _ _ _ E3). cbv iota.
  destruct (Hsend (encode_request xid_ mac (address offer)
    match server_id offer with Some s => s | None => address offer end) w3) as [(w4 & E4 & T4)|(e & w4 & E4)].
  2:{ rewrite (bind_run_err _ _ _ _ _ E4). by exists (Err (Syscall "send a DHCP packet" e)), w4. }
  rewrite (bind_run _ _ _ _ _ E4).
  destruct (wait_for_spec xid_ deadline DHCP_ACK fuel w4 (Hleft w4 ltac:(lia))) as ([ack|e] & w5 & E5 & T5 & Ha).
  2:{ rewrite (bind_run_err _ _ _ _ _ E5). exists (Err e), w5. split; [done|].
      pose proof (Hfail _ _ _ Ha). by destruct e. }
  rewrite (bind_run _ _ _ _ _ E5). exists (Ok (lease_of offer ack)), w5. split; [done|].
  destruct Ho as (? & ? & _), Ha as (? & ? & _). by exists offer, ack.
Qed.
End exchange_spec.

Definition demo_mac : list Z := [82; 84; 0; 154; 31; 195].
Definition demo_reply (message_type : Z) : list Z :=
  ipv4_udp_datagram [192; 168; 1; 1] [255; 255; 255; 255] SERVER_PORT CLIENT_PORT 0
    (splice 0 [OP_REPLY] (splice 16 [192; 168; 1; 42] (bootp_header (transaction_id 7 demo_mac) demo_mac))
       ++ [OPTION_MESSAGE_TYPE; 1; message_type; OPTION_SERVER_ID; 4; 192; 168; 1; 1; OPTION_END]).
(** A server that answers the discovery, then the request, amid other traffic. *)
Definition demo_recv (n : nat) : RecvResult :=
  match n with
  | 3%nat => Received [1; 2; 3]
  | 5%nat => Received (demo_reply DHCP_OFFER)
  | 8%nat => Received (demo_reply DHCP_ACK)
  | _ => TryAgain
  end.
Definition slow : Schedule := {| lag := λ _, 250000000; lag_nonneg := λ _, ltac:(lia) |}.
Definition demo_calls : SetupCalls := {|
  open_control := Ok (); bring_interface_up := Ok (); read_interface_index := Ok ();
  open_packet := Ok (); bind_to_device := Ok (); set_receive_timeout := Ok () |}.

Lemma acquire_lease_bounded_witness :
  let w := {| time := 0; tick := 0; sink := () |} in
  ∃ r w', acquire_lease (H := slow) demo_recv (λ _ _, Ok ()) demo_calls 7 21 demo_mac DHCP_BUDGET w
      = (Some <$> r, w') ∧
    (∃ lease, r = Ok lease ∧ lease_address lease = [192; 168; 1; 42]).
Proof.
  destruct (acquire_lease_bounded (H := slow) demo_recv (λ _ _, Ok ()) 250000000 ltac:(lia)
    (λ _, Z.le_refl _) demo_calls 7 21 demo_mac DHCP_BUDGET
    {| time := 0; tick := 0; sink := () |}) as (r & w' & Hr & Ho); [by vm_compute; lia|].
  exists r, w'. split; [exact Hr|]. destruct r as [lease|e].
  - exists lease. split; [done|]. vm_compute in Hr. by injection Hr as <- _.
  - vm_compute in Hr. discriminate.
Defined.
