(* ===== verification/Users.v ===== *)
(** The account an image's entrypoint runs as ([firestone-init/src/users.rs]): [user\[:group\]]
    resolved against the image's own passwd and group files. *)
From S2P Require Import Prelude RustStr.
Open Scope Z_scope.

Record ResolvedUser : Set := { uid : Z; gid : Z; home : option string }.
Definition root : ResolvedUser := {| uid := 0; gid := 0; home := None |}.

Inductive UserError : Set :=
  | Malformed (value : string)
  | UnknownUser (name : string)
  | UnknownGroup (name : string).
Definition user_error_display (e : UserError) : string :=
  match e with
  | Malformed value => "image user '" +:+ value +:+ "' is not 'user[:group]'"
  | UnknownUser name => "image user '" +:+ name +:+ "' is not in /etc/passwd and is not a numeric uid"
  | UnknownGroup name => "image group '" +:+ name +:+ "' is not in /etc/group and is not a numeric gid"
  end.

Record PasswdEntry : Set := { name : string; entry_uid : Z; entry_gid : Z; entry_home : option string }.

Definition significant_lines (contents : string) : list string :=
  filter (λ line, negb (is_empty line) && negb (starts_with "#" line)) (trim_end <$> lines contents).

(** The row of one line, when it is a row. *)
Definition parse_row (line : string) : option PasswdEntry :=
  match split ":" line with
  | n :: _ :: u :: g :: _ :: h :: _ =>
      uid ← parse_u u32_max u;
      gid ← parse_u u32_max g;
      Some {| name := n; entry_uid := uid; entry_gid := gid;
              entry_home := if is_empty h then None else Some h |}
  | _ => None
  end.
Definition parse_passwd (passwd : string) : list PasswdEntry :=
  omap parse_row (significant_lines passwd).

(** [iter().find(..)]: the first match. *)
Fixpoint find_first {A} (f : A → bool) (l : list A) : option A :=
  match l with
  | [] => None
  | x :: l => if f x then Some x else find_first f l
  end.

Definition of_entry (e : PasswdEntry) : ResolvedUser :=
  {| uid := entry_uid e; gid := entry_gid e; home := entry_home e |}.

Definition resolve_user_part (value : string) (entries : list PasswdEntry)
    : result UserError ResolvedUser :=
  match find_first (λ e, String.eqb (name e) value) entries with
  | Some e => Ok (of_entry e)
  | None =>
      match parse_u u32_max value with
      | Some uid =>
          Ok match find_first (λ e, entry_uid e =? uid) entries with
             | Some e => of_entry e
             | None => {| uid := uid; gid := uid; home := None |}
             end
      | None => if String.eqb value "root" then Ok root else Err (UnknownUser value)
      end
  end.

(** The gid of the first group row with this name and a numeric third field. *)
Definition group_row (value line : string) : option Z :=
  match split ":" line with
  | n :: _ :: g :: _ => if String.eqb n value then parse_u u32_max g else None
  | _ => None
  end.
Fixpoint find_group (value : string) (l : list string) : option Z :=
  match l with
  | [] => None
  | line :: l => match group_row value line with Some g => Some g | None => find_group value l end
  end.
Definition resolve_group_part (value group : string) : result UserError Z :=
  match parse_u u32_max value with
  | Some gid => Ok gid
  | None =>
      match find_group value (significant_lines group) with
      | Some gid => Ok gid
      | None => if String.eqb value "root" then Ok 0 else Err (UnknownGroup value)
      end
  end.

Definition resolve_user (value passwd group : string) : result UserError ResolvedUser :=
  let trimmed := trim value in
  if is_empty trimmed then Ok root else
  '(user_part, group_part) ← match split_once ":" trimmed with
    | Some (user, rest) =>
        if has_char ":" rest || is_empty user || is_empty rest then Err (Malformed trimmed)
        else Ok (user, Some rest)
    | None => Ok (trimmed, None)
    end;
  resolved ← resolve_user_part user_part (parse_passwd passwd);
  match group_part with
  | None => Ok resolved
  | Some group_part =>
      gid ← resolve_group_part group_part group;
      Ok {| uid := uid resolved; gid := gid; home := home resolved |}
  end.

(** ** Account files *)

(** A file of lines, each closed by a line feed. *)
Definition unlines (rows : list string) : string :=
  foldr (λ r acc, r +:+ String LF acc) "" rows.
(** A line that survives [lines] and [trim_end] as it is, and is no comment. *)
Definition line_ok (r : string) : Prop :=
  has_char LF r = false ∧ ends_graphic r = true ∧ starts_with "#" r = false.

Lemma split_unlines rows :
  Forall (λ r, has_char LF r = false) rows → split LF (unlines rows) = rows ++ [""].
Proof.
  induction 1 as [|r rows Hr _ IH]; [done|]. change (unlines (r :: rows)) with (r +:+ String LF (unlines rows)). rewrite split_app_sep by done.
  by rewrite IH.
Qed.
Lemma strip_cr_graphic r : ends_graphic r = true → strip_cr r = r.
Proof.
  intros Hr. unfold strip_cr. destruct (strip_suffix (one CR) r) as [x|] eqn:Hx; [|done].
  apply strip_suffix_Some in Hx as ->. unfold ends_graphic in Hr. rewrite last_byte_app in Hr. done.
Qed.
Lemma lines_unlines rows : Forall line_ok rows → lines (unlines rows) = rows.
Proof.
  intros Hok. unfold lines. rewrite split_unlines by (eapply Forall_impl; [done|]; by intros r [? _]).
  induction Hok as [|r rows (_ & Hr & _) _ IH]; [done|].
  destruct rows as [|r' rows]; simpl; (rewrite strip_cr_graphic by done); [done|].
  f_equal. exact IH.
Qed.
Lemma significant_unlines rows : Forall line_ok rows → significant_lines (unlines rows) = rows.
Proof.
  intros Hok. unfold significant_lines. rewrite lines_unlines by done.
  induction Hok as [|r rows (_ & Hr & Hc) _ IH]; [done|]. csimpl.
  rewrite trim_end_graphic by done. rewrite filter_cons_True; [by rewrite IH|].
  rewrite Hc. assert (is_empty r = false) as -> by (apply is_empty_false; by intros ->). done.
Qed.

(** A row of /etc/passwd as adduser writes it. *)
Record Row : Set := { row_entry : PasswdEntry; gecos : string; shell : string }.
Definition row_text (r : Row) : string :=
  join ":" [name (row_entry r); "x"; dec (entry_uid (row_entry r)); dec (entry_gid (row_entry r));
            gecos r; from_option (λ h, h) "" (entry_home (row_entry r)); shell r].
Definition field_ok (f : string) : Prop := has_char ":" f = false ∧ has_char LF f = false.
Record row_ok (r : Row) : Prop := {
  ok_name : field_ok (name (row_entry r)) ∧ starts_with "#" (name (row_entry r)) = false;
  ok_ids : 0 ≤ entry_uid (row_entry r) ≤ u32_max ∧ 0 ≤ entry_gid (row_entry r) ≤ u32_max;
  ok_gecos : field_ok (gecos r);
  ok_home : match entry_home (row_entry r) with Some h => field_ok h ∧ h ≠ "" | None => True end;
  ok_shell : field_ok (shell r) ∧ ends_graphic (shell r) = true;
}.

Lemma field_ok_dec z : 0 ≤ z → field_ok (dec z).
Proof. intros. by split; apply dec_no_char. Qed.
Lemma row_fields_ok r : row_ok r →
  Forall field_ok [name (row_entry r); "x"; dec (entry_uid (row_entry r)); dec (entry_gid (row_entry r));
            gecos r; from_option (λ h, h) "" (entry_home (row_entry r)); shell r].
Proof.
  intros [[Hn _] [Hu Hg] Hc Hh [Hs _]].
  assert (field_ok (from_option (λ h, h) "" (entry_home (row_entry r)))) as Hhome
    by (destruct (entry_home (row_entry r)); [apply Hh|done]).
  assert (field_ok (dec (entry_uid (row_entry r))) ∧ field_ok (dec (entry_gid (row_entry r)))) as [? ?]
    by (split; apply field_ok_dec; lia).
  repeat (apply Forall_cons_2; [done|]). apply Forall_nil_2.
Qed.
Lemma starts_with_app_ne p s t :
  starts_with (one p) s = false → t ≠ "" → first_byte t ≠ Some p → starts_with (one p) (s +:+ t) = false.
Proof.
  intros Hs Ht Hp. destruct s as [|a s]; str_norm.
  - destruct t as [|b t]; [done|]. destruct (starts_with (one p) (String b t)) eqn:E; [|done].
    apply starts_with_spec in E as [x E]. unfold one in E. str_norm. by injection E as <- _.
  - destruct (starts_with (one p) (String a (s +:+ t))) eqn:E; [|done].
    apply starts_with_spec in E as [x E]. unfold one in E. str_norm. injection E as -> _.
    rewrite <- Hs. symmetry. apply starts_with_spec. exists s. by str_norm.
Qed.
Lemma ends_graphic_app s t : ends_graphic t = true → ends_graphic (s +:+ t) = true.
Proof. unfold ends_graphic. rewrite last_byte_app. by destruct (last_byte t). Qed.
Lemma ends_graphic_join c l x : ends_graphic x = true → ends_graphic (join c (l ++ [x])) = true.
Proof.
  intros Hx. induction l as [|y l IH]; [done|]. cbn [app]. rewrite join_cons by (by destruct l).
  apply ends_graphic_app. unfold ends_graphic in *. destruct (join c (l ++ [x])); [done|exact IH].
Qed.
Lemma row_line_ok r : row_ok r → line_ok (row_text r).
Proof.
  intros Hr. pose proof (row_fields_ok r Hr) as Hf. destruct Hr as [[_ Hn] _ _ _ [_ Hs]].
  unfold line_ok, row_text. split_and!.
  - rewrite has_char_join by done. apply not_true_iff_false. rewrite existsb_exists.
    intros (x & Hx%list_elem_of_In & Hc). rewrite Forall_forall in Hf.
    destruct (Hf x Hx) as [_ Hlf]. congruence.
  - change (ends_graphic (join ":" ([name (row_entry r); "x"; dec (entry_uid (row_entry r));
      dec (entry_gid (row_entry r)); gecos r; from_option (λ h, h) "" (entry_home (row_entry r))] ++ [shell r])) = true).
    by apply ends_graphic_join.
  - unfold row_text. rewrite join_cons by done. by apply (starts_with_app_ne "#").
Qed.

Lemma row_parses r : row_ok r → parse_row (row_text r) = Some (row_entry r).
Proof.
  intros Hr. pose proof (row_fields_ok r Hr) as Hf. destruct Hr as [_ [Hu Hg] _ Hh _].
  unfold parse_row, row_text. rewrite split_join; [|done|].
  2:{ eapply Forall_impl; [exact Hf|]. by intros x [? _]. }
  rewrite !parse_dec by done. simpl. destruct r as [[n u g [h|]] ? ?]; simpl in *; [|done].
  destruct Hh as [_ Hh]. by rewrite (proj2 (is_empty_false h) Hh).
Qed.

(** users.rs, the passwd reader: a file of well-formed rows is
    read as exactly those accounts in order, and [resolve_user] gives a user name the ids and
    home of its first row. *)
Theorem passwd_lookup (rows : list Row) value group e :
  Forall row_ok rows →
  trim value = value → value ≠ "" → has_char ":" value = false →
  find_first (λ e, String.eqb (name e) value) (row_entry <$> rows) = Some e →
  parse_passwd (unlines (row_text <$> rows)) = row_entry <$> rows ∧
  resolve_user value (unlines (row_text <$> rows)) group = Ok (of_entry e).
Proof.
  intros Hrows Ht Hne Hc Hfind.
  assert (parse_passwd (unlines (row_text <$> rows)) = row_entry <$> rows) as Hp.
  { unfold parse_passwd. rewrite significant_unlines.
    2:{ apply Forall_fmap. eapply Forall_impl; [exact Hrows|]. apply row_line_ok. }
    clear -Hrows. induction Hrows as [|r rows Hr _ IH]; [done|]. csimpl. by rewrite row_parses, IH. }
  split; [done|]. unfold resolve_user. rewrite Ht, Hp, (proj2 (is_empty_false value) Hne).
  rewrite (proj2 (split_once_None _ _) Hc). simpl. unfold resolve_user_part. by rewrite Hfind.
Qed.
Definition demo_row : Row := {|
  row_entry := {| name := "nginx"; entry_uid := 101; entry_gid := 102; entry_home := Some "/var/cache/nginx" |};
  gecos := ""; shell := "/sbin/nologin" |}.
Lemma passwd_lookup_witness :
  resolve_user "nginx" ("nginx:x:101:102::/var/cache/nginx:/sbin/nologin" +:+ one LF) "" =
    Ok {| uid := 101; gid := 102; home := Some "/var/cache/nginx" |}.
Proof.
  apply (passwd_lookup [demo_row] "nginx" "" (row_entry demo_row)); [|by vm_compute..].
  constructor; [|constructor]. constructor; by vm_compute.
Defined.

Lemma find_first_elem {A} (f : A → bool) l x : find_first f l = Some x → x ∈ l.
Proof. induction l as [|y l IH]; simpl; [done|]. destruct (f y); [intros [= ->]; by left|right; auto]. Qed.
Lemma parse_passwd_range passwd e :
  e ∈ parse_passwd passwd → 0 ≤ entry_uid e ≤ u32_max ∧ 0 ≤ entry_gid e ≤ u32_max.
Proof.
  intros (line & _ & Hl)%list_elem_of_omap. unfold parse_row in Hl.
  destruct (split ":" line) as [|n [|x [|u [|g [|c [|h l]]]]]]; try done.
  apply bind_Some in Hl as (uid' & Hu%parse_u_range & (gid' & Hg%parse_u_range & [= <-])%bind_Some). done.
Qed.
Lemma find_group_range value l g : find_group value l = Some g → 0 ≤ g ≤ u32_max.
Proof.
  induction l as [|line l IH]; [done|]. simpl. destruct (group_row value line) as [g'|] eqn:Hg; [|done].
  intros [= <-]. unfold group_row in Hg.
  destruct (split ":" line) as [|n [|x [|gt rest]]]; try done.
  destruct (String.eqb n value); [by apply parse_u_range in Hg|done].
Qed.
Lemma resolve_user_range value passwd group r :
  resolve_user value passwd group = Ok r → 0 ≤ uid r ≤ u32_max ∧ 0 ≤ gid r ≤ u32_max.
Proof.
  unfold resolve_user. destruct (is_empty (trim value)); [by intros [= <-]|]. intros H. inv_ok.
  destruct r0 as [user_part group_part]. inv_ok.
  assert (0 ≤ uid r0 ≤ u32_max ∧ 0 ≤ gid r0 ≤ u32_max) as [Hu Hg].
  { match goal with H : resolve_user_part _ _ = _ |- _ => revert H end. unfold resolve_user_part.
    destruct (find_first _ _) as [e|] eqn:He.
    { apply find_first_elem in He. intros [= <-]. by apply parse_passwd_range in He. }
    destruct (parse_u u32_max user_part) as [u|] eqn:Hu.
    - apply parse_u_range in Hu. destruct (find_first (λ e, entry_uid e =? u) _) as [e|] eqn:He2.
      + apply find_first_elem in He2. intros [= <-]. by apply parse_passwd_range in He2.
      + by intros [= <-].
    - destruct (String.eqb user_part "root"); [by intros [= <-]|done]. }
  destruct group_part as [gp|]; [|by inv_ok]. inv_ok. simpl. split; [done|].
  match goal with H : resolve_group_part _ _ = _ |- _ => revert H end. unfold resolve_group_part.
  destruct (parse_u u32_max gp) as [g|] eqn:Hgp; [intros [= <-]; by apply parse_u_range in Hgp|].
  destruct (find_group _ _) as [g|] eqn:Hfg; [intros [= <-]; by apply find_group_range in Hfg|].
  destruct (String.eqb gp "root"); [by intros [= <-]|done].
Qed.

(** users.rs, [resolve_user] on values that need no account file: an empty value and
    [root] are uid and gid 0 even without any file, and an unlisted numeric id runs with the
    same gid; every id handed to the kernel fits 32 bits. *)
Theorem resolve_user_numeric z group :
  0 ≤ z ≤ u32_max →
  resolve_user "" "" group = Ok root ∧ resolve_user "root" "" group = Ok root ∧
  resolve_user (dec z) "" group = Ok {| uid := z; gid := z; home := None |} ∧
  ∀ value passwd r, resolve_user value passwd group = Ok r →
    0 ≤ uid r ≤ u32_max ∧ 0 ≤ gid r ≤ u32_max.
Proof.
  intros Hz. split; [done|]. split; [by vm_compute|].
  split; [|intros value passwd r; apply resolve_user_range].
  unfold resolve_user. rewrite trim_all_graphic.
  2:{ eapply all_bytes_impl; [apply digit_graphic|]. apply dec_digits. lia. }
  rewrite (proj2 (is_empty_false _)) by (apply dec_ne; lia).
  rewrite (proj2 (split_once_None _ _)) by (by apply dec_no_char; [|lia]). simpl.
  unfold resolve_user_part. simpl. by rewrite parse_dec.
Qed.
Lemma resolve_user_numeric_witness :
  resolve_user "1000" "" "" = Ok {| uid := 1000; gid := 1000; home := None |}.
Proof. apply (resolve_user_numeric 1000 ""). by vm_compute. Defined.
