(* ===== verification/Metrics.v ===== *)
(** One-shot metrics ([firestone-core/src/metrics.rs]): the VMM counter projection and the
    /proc parsers.  A [BTreeMap<String, _>] is the list of its entries in key order. *)
From S2P Require Import Prelude RustStr RustPath.
Open Scope Z_scope.

Definition COUNTER_READ_BYTES : string := "read_bytes".
Definition COUNTER_WRITE_BYTES : string := "write_bytes".
Definition COUNTER_READ_OPS : string := "read_ops".
Definition COUNTER_WRITE_OPS : string := "write_ops".
Definition NANOSECONDS_PER_SECOND : Z := 1000000000.
Definition BYTES_PER_KIB : Z := 1024.
Definition COUNTER_SENTINEL_FLOOR : Z := Z.shiftl 1 63.

Definition counter_is_sentinel (value : Z) : bool := COUNTER_SENTINEL_FLOOR <=? value.

Record MetricsBlockDevice : Set := {
  block_device : string; read_bytes : option Z; written_bytes : option Z;
  read_ops : option Z; write_ops : option Z }.
Record MetricsNetDevice : Set := { net_device : string; counters : list (string * Z) }.

Abbreviation BTreeMap A := (list (string * A)) (only parsing).
(** [BTreeMap::get]: at most one entry has the key. *)
Fixpoint btree_get {A} (m : BTreeMap A) (key : string) : option A :=
  match m with
  | [] => None
  | (k, v) :: m => if String.eqb k key then Some v else btree_get m key
  end.
Definition contains_key {A} (m : BTreeMap A) (key : string) : bool :=
  bool_decide (is_Some (btree_get m key)).

Definition reported_counter (values : BTreeMap Z) (key : string) : option Z :=
  v ← btree_get values key; if counter_is_sentinel v then None else Some v.

Definition is_block (values : BTreeMap Z) : bool :=
  contains_key values COUNTER_READ_BYTES && contains_key values COUNTER_WRITE_BYTES.
Definition block_of (device : string) (values : BTreeMap Z) : MetricsBlockDevice :=
  {| block_device := device;
     read_bytes := reported_counter values COUNTER_READ_BYTES;
     written_bytes := reported_counter values COUNTER_WRITE_BYTES;
     read_ops := reported_counter values COUNTER_READ_OPS;
     write_ops := reported_counter values COUNTER_WRITE_OPS |}.
Definition net_of (device : string) (values : BTreeMap Z) : MetricsNetDevice :=
  {| net_device := device; counters := filter (λ kv, negb (counter_is_sentinel kv.2)) values |}.

Fixpoint project (counters : BTreeMap (BTreeMap Z))
    : list MetricsBlockDevice * list MetricsNetDevice :=
  match counters with
  | [] => ([], [])
  | (device, values) :: counters =>
      let '(block, net) := project counters in
      if is_block values then (block_of device values :: block, net)
      else (block, net_of device values :: net)
  end.
Definition project_device_counters (counters : BTreeMap (BTreeMap Z))
    : list MetricsBlockDevice * option (list MetricsNetDevice) :=
  let '(block, net) := project counters in
  (block, match net with [] => None | _ => Some net end).

(** ** /proc *)

Fixpoint find_map {A B} (f : A → option B) (l : list A) : option B :=
  match l with
  | [] => None
  | x :: l => match f x with Some b => Some b | None => find_map f l end
  end.

Definition meminfo_field (contents name : string) : option Z :=
  value ← find_map (strip_prefix name) (lines contents);
  number ← strip_suffix "kB" (trim value);
  kibibytes ← parse_u u64_max (trim_end number);
  checked_mul u64_max kibibytes BYTES_PER_KIB.
Definition parse_proc_meminfo_bytes (contents : string) : option Z * option Z :=
  (meminfo_field contents "MemTotal:", meminfo_field contents "MemAvailable:").
Definition parse_proc_status_rss_bytes (contents : string) : option Z :=
  value ← find_map (strip_prefix "VmRSS:") (lines contents);
  number ← strip_suffix "kB" (trim value);
  kibibytes ← parse_u u64_max (trim_end number);
  checked_mul u64_max kibibytes BYTES_PER_KIB.

Definition cpu_ticks_to_nanoseconds (ticks ticks_per_second : Z) : option Z :=
  if ticks_per_second =? 0 then None
  else try_from_u u64_max (ticks * NANOSECONDS_PER_SECOND / ticks_per_second).

Definition parse_proc_stat_cpu_ticks (contents : string) : option Z :=
  p ← rsplit_once ")" contents;
  let fields := split_ascii_whitespace p.2 in
  utime ← fields !! 11%nat ≫= parse_u u64_max;
  stime ← fields !! 12%nat ≫= parse_u u64_max;
  checked_add u64_max utime stime.

Record VmmProcessSample : Set := { cpu_time_ns : option Z; rss_bytes : option Z }.
(** [sample_vmm_process] on Linux, over the two files and the kernel's tick rate. *)
Definition sample_vmm_process (read_to_string : string → option string) (ticks_per_second pid : Z)
    : VmmProcessSample := {|
  cpu_time_ns :=
    contents ← read_to_string ("/proc/" +:+ dec pid +:+ "/stat");
    ticks ← parse_proc_stat_cpu_ticks contents;
    cpu_ticks_to_nanoseconds ticks ticks_per_second;
  rss_bytes :=
    contents ← read_to_string ("/proc/" +:+ dec pid +:+ "/status");
    parse_proc_status_rss_bytes contents |}.

(** [filesystem_capacity]: [statvfs] gives the fragment size, the blocks and the blocks
    available; every turn moves to a proper parent, so the length is enough fuel. *)
Fixpoint capacity_loop (statvfs : string → option (Z * Z * Z)) (fuel : nat) (current : string)
    : option (Z * Z) :=
  match statvfs current, fuel with
  | Some (fragment, blocks, available), _ =>
      Some (saturating_mul u64_max fragment blocks, saturating_mul u64_max fragment available)
  | None, S fuel => parent current ≫= capacity_loop statvfs fuel
  | None, O => None
  end.
Definition filesystem_capacity (statvfs : string → option (Z * Z * Z)) (path : string)
    : option (Z * Z) := capacity_loop statvfs (S (String.length path)) path.

(** ** Theorems *)

Lemma words_from_word cur x s :
  all_bytes (λ a, negb (is_ascii_whitespace a)) x = true →
  words_from cur (x +:+ s) = words_from (cur +:+ x) s.
Proof.
  revert cur; induction x as [|a x IH]; intros cur Hx; str_norm; [done|].
  simpl in Hx. bool_props. cbn [words_from]. rewrite H, IH by done.
  unfold one. by str_norm.
Qed.
Definition word (x : string) : Prop := x ≠ "" ∧ all_bytes (λ a, negb (is_ascii_whitespace a)) x = true.
Lemma words_join words :
  Forall word words → split_ascii_whitespace (join " " words) = words.
Proof.
  unfold split_ascii_whitespace. induction 1 as [|x words [Hx Hw] Hws IH]; [done|].
  destruct (decide (words = [])) as [->|Hne].
  - cbn [join]. rewrite <- (app_empty_r x) at 1. rewrite words_from_word by done. str_norm.
    simpl. by rewrite (proj2 (is_empty_false x) Hx).
  - rewrite join_cons, words_from_word by done. str_norm. cbn [words_from].
    change (is_ascii_whitespace " ") with true. cbv iota.
    by rewrite (proj2 (is_empty_false x) Hx), IH.
Qed.
Lemma words_space s : split_ascii_whitespace (String " " s) = split_ascii_whitespace s.
Proof. done. Qed.

(** metrics.rs, [parse_proc_stat_cpu_ticks]: the processor time of a stat line is the sum
    of its fields 14 and 15, whatever the process is called, spaces and parentheses
    included, unless the sum does not fit 64 bits. *)
Theorem stat_cpu_ticks_exact before fields utime stime :
  Forall word fields → Forall (λ f, has_char ")" f = false) fields →
  fields !! 11%nat = Some (dec utime) → fields !! 12%nat = Some (dec stime) →
  0 ≤ utime ≤ u64_max → 0 ≤ stime ≤ u64_max →
  parse_proc_stat_cpu_ticks (before +:+ ") " +:+ join " " fields) =
    if utime + stime <=? u64_max then Some (utime + stime) else None.
Proof.
  intros Hw Hp Hu Hs Hur Hsr. unfold parse_proc_stat_cpu_ticks.
  change (") " +:+ join " " fields) with (String ")" (String " " (join " " fields))).
  rewrite rsplit_once_app.
  2:{ simpl. rewrite has_char_join by done. apply not_true_iff_false. rewrite existsb_exists.
      intros (x & Hx%list_elem_of_In & Hc). rewrite Forall_forall in Hp. by rewrite (Hp x Hx) in Hc. }
  simpl. rewrite words_space, words_join by done. rewrite Hu, Hs. simpl.
  rewrite !parse_dec by done. simpl. unfold checked_add, try_from_u, is_u.
  rewrite (proj2 (Z.leb_le 0 _)) by lia. done.
Qed.
Lemma stat_cpu_ticks_exact_witness :
  parse_proc_stat_cpu_ticks ("7 (a) b (c" +:+ ") " +:+
    join " " ["S"; "1"; "7"; "7"; "0"; "-1"; "4"; "0"; "0"; "0"; "0"; "120"; "34"; "0"]) = Some 154.
Proof.
  assert (120 + 34 <=? u64_max = true) as H by done.
  etransitivity; [apply (stat_cpu_ticks_exact "7 (a) b (c" _ 120 34)|by rewrite H];
    [by repeat (constructor; [by split|]); constructor
    |by repeat (constructor; [done|]); constructor|done|done|by split|by split].
Defined.

(** metrics.rs, [cpu_ticks_to_nanoseconds]: the conversion is the exact floor, with no
    intermediate overflow at any 64-bit tick count, and is absent exactly when the frequency
    is zero or the nanoseconds do not fit 64 bits. *)
Theorem cpu_ticks_exact ticks hz :
  0 ≤ ticks ≤ u64_max → 0 ≤ hz ≤ u64_max →
  match cpu_ticks_to_nanoseconds ticks hz with
  | Some n => 0 < hz ∧ 0 ≤ n ≤ u64_max ∧ n * hz ≤ ticks * NANOSECONDS_PER_SECOND < (n + 1) * hz
  | None => hz = 0 ∨ u64_max * hz + hz ≤ ticks * NANOSECONDS_PER_SECOND
  end.
Proof.
  intros Ht Hh. unfold cpu_ticks_to_nanoseconds, NANOSECONDS_PER_SECOND.
  destruct (Z.eqb_spec hz 0) as [->|Hne]; [by left|].
  pose proof (Z.div_mod (ticks * 1000000000) hz Hne) as Hd.
  pose proof (Z.mod_pos_bound (ticks * 1000000000) hz ltac:(lia)) as Hm.
  assert (0 ≤ ticks * 1000000000 / hz) by (apply Z.div_pos; lia).
  set (q := ticks * 1000000000 / hz) in *.
  destruct (try_from_u u64_max q) as [n|] eqn:Hq.
  - apply try_from_u_Some in Hq as [-> ?]. split_and!; nia.
  - right. assert (u64_max < q); [|nia]. destruct (Z.le_gt_cases q u64_max) as [Hle|]; [|lia].
    rewrite try_from_u_in in Hq by lia. done.
Qed.
Lemma cpu_ticks_exact_witness :
  cpu_ticks_to_nanoseconds 154 100 = Some 1540000000 ∧ 1540000000 * 100 ≤ 154 * NANOSECONDS_PER_SECOND.
Proof.
  pose proof (cpu_ticks_exact 154 100 ltac:(by split) ltac:(by split)) as H.
  change (cpu_ticks_to_nanoseconds 154 100) with (Some 1540000000) in *.
  split; [done|]. apply H.
Defined.

Definition sane (o : option Z) : Prop := ∀ v, o = Some v → v < COUNTER_SENTINEL_FLOOR.
Lemma reported_sane values key : sane (reported_counter values key).
Proof.
  intros v. unfold reported_counter. intros (x & _ & H)%bind_Some. unfold counter_is_sentinel in H.
  destruct (Z.leb_spec COUNTER_SENTINEL_FLOOR x); [done|]. by injection H as <-.
Qed.

(** metrics.rs, [project_device_counters]: every device is reported exactly once and in
    order, as a block device when it has both byte counters and as a network device
    otherwise; no saturated counter is ever reported and every other one is, under its own
    name; the network list is absent rather than empty. *)
Theorem project_counters_exact counters :
  let '(block, net) := project_device_counters counters in
  block = (λ d, block_of d.1 d.2) <$> filter (λ d, is_block d.2 = true) counters ∧
  from_option id [] net = (λ d, net_of d.1 d.2) <$> filter (λ d, is_block d.2 = false) counters ∧
  net ≠ Some [] ∧
  Forall (λ b, sane (read_bytes b) ∧ sane (written_bytes b) ∧ sane (read_ops b) ∧ sane (write_ops b)) block ∧
  Forall (λ n, Forall (λ kv, kv.2 < COUNTER_SENTINEL_FLOOR) (Metrics.counters n)) (from_option id [] net).
Proof.
  unfold project_device_counters. destruct (project counters) as [block net] eqn:Hp.
  assert (block = (λ d, block_of d.1 d.2) <$> filter (λ d, is_block d.2 = true) counters ∧
    net = (λ d, net_of d.1 d.2) <$> filter (λ d, is_block d.2 = false) counters) as [-> ->].
  { revert block net Hp. induction counters as [|[d v] m IH]; intros block net Hp; cbn [project] in Hp;
      [by injection Hp as <- <-|].
    destruct (project m) as [b n]. destruct (IH b n eq_refl) as [-> ->].
    rewrite !filter_cons. cbn [snd]. destruct (is_block v) eqn:Hb; injection Hp as <- <-.
    - by rewrite decide_True, decide_False.
    - by rewrite decide_False, decide_True. }
  set (nets := _ <$> filter (λ d, is_block d.2 = false) counters).
  assert (from_option id [] (match nets with [] => None | _ => Some nets end) = nets) as Hn by by destruct nets.
  rewrite Hn. split_and!; [done|done|by destruct nets| |].
  - apply Forall_fmap, Forall_true. intros [d v]. simpl. split_and!; apply reported_sane.
  - apply Forall_fmap, Forall_true. intros [d v]. simpl. apply Forall_forall. intros [k z].
    intros [Hz _]%list_elem_of_filter. simpl in *. apply Is_true_true in Hz. unfold counter_is_sentinel in Hz.
    destruct (Z.leb_spec COUNTER_SENTINEL_FLOOR z); [done|lia].
Qed.
