(* ===== verification/Snapshot.v ===== *)
(** Machine snapshots ([firestone-core/src/snapshot.rs]): their names, documents, and the
    hole-preserving copy of the files they hold. *)
From S2P Require Import Prelude RustStr RustPath Errors.
Open Scope Z_scope.

Definition SNAPSHOT_FILE_MODE : Z := 384.
Definition SNAPSHOT_DIR_MODE : Z := 448.
Definition SNAPSHOT_SCHEMA_VERSION : Z := 1.
Definition MAX_SNAPSHOT_NAME_BYTES : Z := 64.
Definition MAX_SNAPSHOT_DOCUMENT_BYTES : Z := 64 * 1024.
Definition SPARSE_BLOCK_BYTES : Z := 128 * 1024.

Inductive SnapshotKind : Set := Cold | Warm.
Definition snapshot_kind_as_str (k : SnapshotKind) : string :=
  match k with Cold => "cold" | Warm => "warm" end.

Definition snapshot_io_error (operation path : string) (e : IoError) : FirestoneError :=
  with_source (with_hint (error_new Generic ("cannot " +:+ operation +:+ " '" +:+ path +:+ "'"))
    "check the Firestone data directory permissions") (io_text e).

(** ** Documents *)

Record SnapshotMetadata : Set := {
  metadata_version : Z; snapshot_kind : SnapshotKind; metadata_created_at : string;
  image_id : option string; firestone_version : string; disk_bytes : Z; memory_bytes : option Z }.

Definition metadata_validate (m : SnapshotMetadata) (path : string) : result FirestoneError () :=
  reject (with_hint (error_new Conflict ("snapshot metadata '" +:+ path +:+ "' has schema version "
      +:+ dec (metadata_version m) +:+ "; this Firestone writes " +:+ dec SNAPSHOT_SCHEMA_VERSION))
      "remove the snapshot or use the Firestone release that wrote it")
    when (negb (metadata_version m =? SNAPSHOT_SCHEMA_VERSION));
  reject (with_hint (error_new Conflict ("snapshot metadata '" +:+ path +:+ "' is incomplete"))
      "remove the snapshot directory and take a new snapshot")
    when (is_empty (metadata_created_at m) || is_empty (firestone_version m));
  match snapshot_kind m, memory_bytes m with
  | Warm, Some _ | Cold, None => Ok ()
  | Warm, None => Err (with_hint
      (error_new Conflict ("warm snapshot metadata '" +:+ path +:+ "' has no memory_bytes"))
      "remove the snapshot directory and take a new snapshot")
  | Cold, Some _ => Err (with_hint
      (error_new Conflict ("cold snapshot metadata '" +:+ path +:+ "' records memory_bytes"))
      "remove the snapshot directory and take a new snapshot")
  end.

Definition is_name_byte (a : ascii) : bool :=
  is_ascii_alphanumeric a || Ascii.eqb a "." || Ascii.eqb a "_" || Ascii.eqb a "-".
Definition valid_snapshot_name (snapshot : string) : bool :=
  negb (is_empty snapshot) && (len snapshot <=? MAX_SNAPSHOT_NAME_BYTES)
  && negb (starts_with "." snapshot) && negb (starts_with "-" snapshot)
  && all_bytes is_name_byte snapshot.

Section documents.
(** The standard library's quoted rendering of a string; it only appears in messages. *)
Context (debug_str : string → string).

Definition validate_snapshot_name (snapshot : string) : result FirestoneError () :=
  if valid_snapshot_name snapshot then Ok ()
  else Err (with_hint
    (error_new InvalidSpec ("snapshot name " +:+ debug_str snapshot +:+ " is not a valid snapshot identifier"))
    ("use 1 to " +:+ dec MAX_SNAPSHOT_NAME_BYTES
       +:+ " characters from A-Z a-z 0-9 . _ - that do not start with '.' or '-'")).

Record RestoreRequest : Set := {
  request_version : Z; snapshot : string; snapshot_dir : string; vmstate_dir : string;
  vmconfig_sha256 : string; request_created_at : string }.

Definition is_hex_lower (a : ascii) : bool := is_ascii_digit a || byte_in 97 102 a.
Definition request_validate (r : RestoreRequest) (path : string) : result FirestoneError () :=
  reject (with_hint (error_new Conflict ("restore marker '" +:+ path +:+ "' has schema version "
      +:+ dec (request_version r) +:+ "; this Firestone writes " +:+ dec SNAPSHOT_SCHEMA_VERSION))
      "remove the restore marker and retry the restore")
    when (negb (request_version r =? SNAPSHOT_SCHEMA_VERSION));
  validate_snapshot_name (snapshot r);;
  reject (with_hint (error_new Conflict ("restore marker '" +:+ path +:+ "' has a relative path"))
      "remove the restore marker and retry the restore")
    when (negb (is_absolute (snapshot_dir r)) || negb (is_absolute (vmstate_dir r)));
  reject (with_hint (error_new Conflict ("restore marker '" +:+ path +:+ "' has an invalid vmconfig digest"))
      "remove the restore marker and retry the restore")
    when (negb (len (vmconfig_sha256 r) =? 64) || negb (all_bytes is_hex_lower (vmconfig_sha256 r)));
  Ok ().

(** What opening a document, reading its metadata and reading it to its end give. *)
Record Document : Set := {
  doc_metadata : result IoError (bool * Z); doc_bytes : result IoError (list Z) }.

Definition read_snapshot_document (open : result IoError Document) (path label : string)
    : result FirestoneError (list Z) :=
  file ← map_err (λ e : IoError, with_source (with_hint
    (error_new (if bool_decide (io_kind e = IoNotFound) then NotFound else Dependency)
      ("cannot open " +:+ label +:+ " '" +:+ path +:+ "'"))
    "check the machine directory permissions") (io_text e)) open;
  '(is_file, length) ← map_err (snapshot_io_error "inspect" path) (doc_metadata file);
  reject (with_hint (error_new Dependency (label +:+ " '" +:+ path +:+ "' is not a regular file"))
    "move the conflicting path aside and retry") when (negb is_file);
  reject (with_hint (error_new Conflict (label +:+ " '" +:+ path +:+ "' exceeds the "
      +:+ dec MAX_SNAPSHOT_DOCUMENT_BYTES +:+ "-byte limit"))
    "remove the oversized document and retry") when (MAX_SNAPSHOT_DOCUMENT_BYTES <? length);
  map_err (snapshot_io_error "read" path) (doc_bytes file).

(** serde_json's parser of each document. *)
Definition read_snapshot_metadata (from_slice : list Z → result string SnapshotMetadata)
    (open : result IoError Document) (path : string) : result FirestoneError SnapshotMetadata :=
  bytes ← read_snapshot_document open path "snapshot metadata";
  metadata ← map_err (λ e, with_source (with_hint
    (error_new Conflict ("snapshot metadata '" +:+ path +:+ "' is not valid JSON"))
    "remove the snapshot directory and take a new snapshot") e) (from_slice bytes);
  metadata_validate metadata path;;
  Ok metadata.
Definition read_restore_request (from_slice : list Z → result string RestoreRequest)
    (open : result IoError Document) (path : string) : result FirestoneError RestoreRequest :=
  bytes ← read_snapshot_document open path "restore marker";
  request ← map_err (λ e, with_source (with_hint
    (error_new Conflict ("restore marker '" +:+ path +:+ "' is not valid JSON"))
    "remove the restore marker and retry the restore") e) (from_slice bytes);
  request_validate request path;;
  Ok request.
End documents.

(** [auto_snapshot_name] of a rendered timestamp. *)
Fixpoint keep_digits (n : nat) (s : string) : string :=
  match n, s with
  | S m, String a s => if is_ascii_digit a then String a (keep_digits m s) else keep_digits n s
  | _, _ => ""
  end.
Definition auto_snapshot_name (rendered : string) : string :=
  let digits := keep_digits 14 rendered in
  if (14 <=? len digits) then
    "snap-" +:+ String.substring 0 8 digits +:+ "-" +:+ String.substring 8 6 digits
  else "snap-00000000-000000".

Definition snapshot_file_url (directory : string) : result FirestoneError string :=
  reject (with_hint (error_new Generic ("VM state directory '" +:+ directory +:+ "' is not absolute"))
    "report this Firestone path bug") when (negb (is_absolute directory));
  reject (with_hint (error_new InvalidSpec "VM state directory contains control characters")
    "use a Firestone data directory without control characters") when (has_control directory);
  Ok ("file://" +:+ directory).

(** [sha256] is the digest of the sha2 crate. *)
Definition snapshot_document_digest (sha256 : list Z → list Z) (bytes : list Z) : string :=
  foldl (λ text b, text +:+ hex2 b) "" (sha256 bytes).

Definition available_bytes (statvfs : result IoError (Z * Z)) (path : string) : result FirestoneError Z :=
  '(fragment, available) ← map_err (λ e : IoError, with_source (with_hint
    (error_new Dependency ("cannot measure free space on '" +:+ path +:+ "'"))
    "check the Firestone data directory permissions") (io_text e)) statvfs;
  Ok (saturating_mul u64_max fragment available).
(** [blocks]: what the file's metadata says it occupies. *)
Definition allocated_bytes (blocks : result IoError Z) (path : string) : result FirestoneError Z :=
  match blocks with
  | Ok b => Ok (saturating_mul u64_max b 512)
  | Err e => if bool_decide (io_kind e = IoNotFound) then Ok 0
             else Err (snapshot_io_error "inspect" path e)
  end.

(** ** Directories *)

Inductive FileType : Set := Symlink | Directory | Other.

Section directories.
(** The file system's answers: what is at the path, and the outcome of creating it and of
    setting its mode. *)
Context (symlink_metadata : result IoError FileType) (create_dir set_mode : result IoError ()).

Definition create_snapshot_directory (path : string) : result FirestoneError () :=
  map_err (snapshot_io_error "create" path) create_dir;;
  map_err (snapshot_io_error "set mode 0700 on" path) set_mode.
Definition ensure_snapshot_directory (path : string) : result FirestoneError () :=
  match symlink_metadata with
  | Ok Symlink => Err (with_hint
      (error_new Dependency ("snapshot directory '" +:+ path +:+ "' is a symbolic link"))
      "move the symlink aside and retry")
  | Ok Directory => map_err (snapshot_io_error "set mode 0700 on" path) set_mode
  | Ok Other => Err (with_hint
      (error_new Dependency ("snapshot directory '" +:+ path +:+ "' is not a directory"))
      "move the conflicting path aside and retry")
  | Err e => if bool_decide (io_kind e = IoNotFound) then create_snapshot_directory path
             else Err (snapshot_io_error "inspect" path e)
  end.
End directories.

(** ** The sparse copy *)

(** How the kernel serves one read: at most so many bytes, interrupted, or failed. *)
Inductive ReadEvent : Set := Short (n : nat) | Interrupt | ReadFail (e : IoError).

(** [read_block]: fill a buffer of [want] bytes, or stop at the end of the file.  A read
    beyond the script is served in full. *)
Fixpoint read_block (script : list ReadEvent) (want : nat) (rest : list Z)
    : result IoError (list Z * list Z * list ReadEvent) :=
  if decide (want = 0%nat) then Ok ([], rest, script) else
  match script with
  | [] => Ok (take want rest, drop want rest, [])
  | Interrupt :: script => read_block script want rest
  | ReadFail e :: _ => Err e
  | Short n :: script =>
      let k := Nat.min (Nat.max 1 n) want in
      match take k rest with
      | [] => Ok ([], rest, script)
      | got =>
          '(more, rest, script) ← read_block script (want - length got) (drop k rest);
          Ok (got ++ more, rest, script)
      end
  end.

(** Writing [block] at [offset]: a gap before it reads as zeros. *)
Definition write_at (offset : nat) (block file : list Z) : list Z :=
  take offset file ++ replicate (offset - length file) 0 ++ block ++ drop (offset + length block) file.
Definition set_len (n : nat) (file : list Z) : list Z :=
  take n file ++ replicate (n - length file) 0.

Record SparseCopy : Set := { apparent_bytes : Z; written_bytes : Z }.

(** The calls on the destination that can fail, and where. *)
Inductive WriterCall : Set := SeekTo (offset : nat) | WriteAt (offset : nat) | SetLen | Sync.

Section copy.
Context (block_size : nat) (faults : WriterCall → option IoError) (source destination : string).

Definition call (c : WriterCall) (operation : string) : result FirestoneError () :=
  match faults c with
  | Some e => Err (snapshot_io_error operation destination e)
  | None => Ok ()
  end.

(** The copy loop: bytes still to read, offset, bytes written, destination.  Each turn reads
    at least one byte, so the source's length bounds the turns. *)
Fixpoint copy_loop (fuel : nat) (script : list ReadEvent) (rest : list Z) (offset : nat)
    (written : Z) (file : list Z) : result FirestoneError (Z * list Z) :=
  '(block, rest, script) ← map_err (snapshot_io_error "read" source) (read_block script block_size rest);
  match block, fuel with
  | [], _ => Ok (written, file)
  | _, O => Ok (written, file)
  | _, S fuel =>
      '(written, file) ←
        (if existsb (λ b, negb (b =? 0)) block then
           call (SeekTo offset) "seek";;
           call (WriteAt offset) "write";;
           Ok (saturating_add u64_max written (Z.of_nat (length block)), write_at offset block file)
         else Ok (written, file));
      copy_loop fuel script rest (offset + length block) written file
  end.
End copy.

(** [sparse_copy_file]: [open_source] gives the source's bytes when it is a regular file.
    The result carries the destination's contents. *)
Definition sparse_copy_file (open_source : result IoError (bool * list Z))
    (create_destination : result IoError ()) (script : list ReadEvent)
    (faults : WriterCall → option IoError) (source destination : string)
    : result FirestoneError (SparseCopy * list Z) :=
  '(is_file, data) ← map_err (snapshot_io_error "open" source) open_source;
  reject (with_hint (error_new Dependency ("'" +:+ source +:+ "' is not a regular file"))
    "restore the owned machine file and retry") when (negb is_file);
  map_err (snapshot_io_error "create" destination) create_destination;;
  '(written, file) ← copy_loop (Z.to_nat SPARSE_BLOCK_BYTES) faults source destination
    (length data) script data 0 0 [];
  call faults destination SetLen "truncate";;
  call faults destination Sync "sync";;
  Ok ({| apparent_bytes := Z.of_nat (length data); written_bytes := written |},
      set_len (length data) file).

(** ** Theorems *)

Lemma read_block_Ok script want rest block rest' script' :
  read_block script want rest = Ok (block, rest', script') →
  rest = block ++ rest' ∧ (length block ≤ want)%nat ∧ (block = [] → want = 0%nat ∨ rest = []).
Proof.
  revert want rest block rest' script'. induction script as [|ev script IH]; intros want rest block rest' script';
    simpl; (destruct (decide (want = 0%nat)) as [->|Hw]; [intros [= <- <- <-]; split_and!; [done|done|by left]|]).
  - intros [= <- <- <-]. rewrite take_drop, length_take. split_and!; [done|lia|].
    destruct rest; [by right|]. destruct want; done.
  - destruct ev as [n| |e]; [|apply IH|done].
    destruct (take _ rest) as [|a got] eqn:Hgot.
    + intros [= <- <- <-]. split_and!; [done|simpl; lia|]. intros _.
      destruct rest; [by right|]. destruct (Nat.min (Nat.max 1 n) want) eqn:Hk; [lia|done].
    + intros H. inv_ok. destruct r as [[more rest1] s1]. inv_ok.
      match goal with H : read_block _ _ _ = _ |- _ => apply IH in H as (Hrest & Hlen & _) end.
      rewrite <- (take_drop (Nat.min (Nat.max 1 n) want) rest), Hgot, Hrest.
      split_and!; [by rewrite app_assoc| |done].
      assert (length (a :: got) ≤ want)%nat by (rewrite <- Hgot, length_take; lia).
      pose proof (length_app (a :: got) more) as E. cbn [length app] in *. lia.
Qed.
Definition reads_well (script : list ReadEvent) : Prop := Forall (λ ev, ∀ e, ev ≠ ReadFail e) script.
Lemma read_block_total script want rest :
  reads_well script → ∃ block rest' script', read_block script want rest = Ok (block, rest', script') ∧
    reads_well script'.
Proof.
  intros Hs. revert want rest. induction Hs as [|ev script Hev Hs IH]; intros want rest; simpl;
    (destruct (decide (want = 0%nat)); [eexists _, _, _; split; [done|]; by repeat constructor|]).
  - eexists _, _, _. split; [done|constructor].
  - destruct ev as [k| |e]; [|apply IH|by destruct (Hev e)].
    destruct (take _ rest) as [|a got]; [by eexists _, _, _|].
    destruct (IH (want - S (length got))%nat (drop (Nat.min (Nat.max 1 k) want) rest))
      as (b & r & s & -> & ?). by eexists _, _, _.
Qed.

(** [file] is [pre] up to trailing zeros that were never written. *)
Definition prefix_of_copy (file pre : list Z) : Prop :=
  (length file ≤ length pre)%nat ∧ file ++ replicate (length pre - length file) 0 = pre.

Lemma write_at_prefix file pre block :
  prefix_of_copy file pre → prefix_of_copy (write_at (length pre) block file) (pre ++ block).
Proof.
  intros [Hl Hp]. unfold prefix_of_copy, write_at.
  rewrite take_ge, drop_ge, app_nil_r, app_assoc, Hp by lia.
  split; [done|]. by rewrite Nat.sub_diag, app_nil_r.
Qed.
Lemma skip_prefix file pre block :
  prefix_of_copy file pre → existsb (λ b, negb (b =? 0)) block = false →
  prefix_of_copy file (pre ++ block).
Proof.
  intros [Hl Hp] Hz. unfold prefix_of_copy. rewrite length_app. split; [lia|].
  assert (block = replicate (length block) 0) as Hb.
  { clear -Hz. induction block as [|b block IH]; [done|]. simpl in Hz. bool_props.
    simpl. f_equal; [done|by apply IH]. }
  replace (length pre + length block - length file)%nat
    with (length pre - length file + length block)%nat by lia.
  by rewrite replicate_add, app_assoc, Hp, <- Hb.
Qed.

Section copy_spec.
Context (block_size : nat) (faults : WriterCall → option IoError) (source destination : string).
Context (Hblock : (0 < block_size)%nat).

Lemma copy_loop_Ok fuel script rest pre written file written' file' :
  (length rest ≤ fuel)%nat → prefix_of_copy file pre →
  0 ≤ written ≤ Z.of_nat (length pre) → Z.of_nat (length (pre ++ rest)) ≤ u64_max →
  copy_loop block_size faults source destination fuel script rest (length pre) written file
    = Ok (written', file') →
  prefix_of_copy file' (pre ++ rest) ∧ 0 ≤ written' ≤ Z.of_nat (length (pre ++ rest)).
Proof.
  revert script rest pre written file. induction fuel as [|fuel IH];
    intros script rest pre written file Hf Hp Hw Hmax H; cbn [copy_loop] in H; inv_ok;
    destruct r as [[block rest1] script1];
    match goal with H : read_block _ _ _ = _ |- _ => apply read_block_Ok in H as (Hrest & Hlen & Hempty) end;
    (destruct block as [|b block];
      [inv_ok; destruct (Hempty eq_refl) as [?| ->]; [lia|by rewrite app_nil_r]|]).
  - rewrite Hrest in Hf. simpl in Hf. lia.
  - inv_ok. destruct r as [written1 file1].
    assert (prefix_of_copy file1 (pre ++ b :: block) ∧ 0 ≤ written1 ≤ Z.of_nat (length (pre ++ b :: block)))
      as [Hp1 Hw1].
    { rewrite length_app. destruct (existsb _ (b :: block)) eqn:Hz; inv_ok.
      - split; [by apply write_at_prefix|]. unfold saturating_add, u64_max. simpl length. lia.
      - split; [by apply skip_prefix|lia]. }
    rewrite Hrest, app_assoc in *. eapply IH; [| | | |].
    + rewrite length_app in Hf. simpl in Hf. lia.
    + exact Hp1.
    + exact Hw1.
    + exact Hmax.
    + by rewrite length_app.
Qed.
Lemma copy_loop_total fuel script rest offset written file :
  reads_well script → (∀ c, faults c = None) →
  is_ok (copy_loop block_size faults source destination fuel script rest offset written file) = true.
Proof.
  intros Hs Hf. revert script rest offset written file Hs. induction fuel as [|fuel IH];
    intros script rest offset written file Hs; cbn [copy_loop];
    destruct (read_block_total script block_size rest Hs) as (block & rest1 & s1 & -> & Hs1);
    cbn [map_err mbind result_bind]; (destruct block as [|b block]; [done|]); [done|].
  unfold call. rewrite !Hf.
  destruct (existsb _ (b :: block)); cbn [mbind result_bind]; by apply IH.
Qed.
End copy_spec.

(** C38: snapshot.rs, [sparse_copy_file]: however the kernel splits, interrupts or truncates
    its reads, a copy that succeeds is byte for byte the source, holes included, of the same
    length, and wrote no more than that; and it does succeed when no call fails. *)
Theorem sparse_copy_faithful data create script faults source destination :
  Z.of_nat (length data) ≤ u64_max →
  (∀ r file, sparse_copy_file (Ok (true, data)) create script faults source destination = Ok (r, file) →
    file = data ∧ apparent_bytes r = Z.of_nat (length data) ∧
    0 ≤ written_bytes r ≤ apparent_bytes r) ∧
  (create = Ok () → reads_well script → (∀ c, faults c = None) →
    is_ok (sparse_copy_file (Ok (true, data)) create script faults source destination) = true).
Proof.
  intros Hmax. unfold sparse_copy_file. cbn [map_err mbind result_bind negb reject_if]. split.
  - intros r file H. inv_ok. destruct r1 as [written file1]. inv_ok.
    assert (0 < Z.to_nat SPARSE_BLOCK_BYTES)%nat as Hb by (apply (Z2Nat.inj_lt 0); done).
    match goal with H : copy_loop _ _ _ _ _ _ _ _ _ _ = _ |- _ =>
      apply (copy_loop_Ok _ _ _ _ Hb _ _ data [] 0 []) in H as [[Hl Hp] Hw]; [|done|done|done|done] end.
    simpl in *. split_and!; [|done|lia|lia]. unfold set_len. rewrite take_ge by done. done.
  - intros -> Hs Hf. cbn [map_err mbind result_bind].
    pose proof (copy_loop_total (Z.to_nat SPARSE_BLOCK_BYTES) faults source destination (length data) script data
      0 0 [] Hs Hf) as Hok.
    destruct (copy_loop _ _ _ _ _ _ _ _ _ _) as [[written file]|e]; [|done].
    unfold call. by rewrite !Hf.
Qed.
Lemma sparse_copy_faithful_witness :
  let run := sparse_copy_file (Ok (true, [1; 0; 7; 0])) (Ok ()) [Short 1; Interrupt; Short 2] (λ _, None)
    "/m/dev/disk.qcow2" "/m/dev/snapshots/a/disk.qcow2" in
  is_ok run = true ∧ ∀ r file, run = Ok (r, file) → file = [1; 0; 7; 0].
Proof.
  destruct (sparse_copy_faithful [1; 0; 7; 0] (Ok ()) [Short 1; Interrupt; Short 2] (λ _, None)
    "/m/dev/disk.qcow2" "/m/dev/snapshots/a/disk.qcow2" ltac:(by vm_compute)) as [Hok Htotal].
  split; [apply Htotal; [done|by repeat (constructor; [by intros|]); constructor|done]|].
  intros r file Hr. by apply Hok in Hr as [-> _].
Defined.

Lemma keep_digits_spec n s :
  all_bytes is_ascii_digit (keep_digits n s) = true ∧ (String.length (keep_digits n s) ≤ n)%nat.
Proof.
  revert n; induction s as [|a s IH]; intros [|n]; simpl; try (split; [done|lia]).
  destruct (is_ascii_digit a) eqn:Ha; [|apply (IH (S n))]. simpl. rewrite Ha.
  destruct (IH n). split; [done|lia].
Qed.
Lemma name_byte_of_digit a : is_ascii_digit a = true → is_name_byte a = true.
Proof. unfold is_name_byte, is_ascii_alphanumeric. intros ->. by rewrite orb_true_r. Qed.
Lemma substring_bytes f n m s : all_bytes f s = true → all_bytes f (String.substring n m s) = true.
Proof.
  revert n m; induction s as [|a s IH]; intros [|n] [|m]; simpl; try done; intros H; bool_props; auto.
Qed.

(** snapshot.rs, snapshot identifiers: an accepted name is one plain component of a path,
    never hidden, never a parent reference and never the [.partial-] staging directory, so
    joining it to the snapshots directory stays inside it; and the automatic name of any
    timestamp is accepted. *)
Theorem snapshot_name_safe debug_str :
  (∀ name dir, validate_snapshot_name debug_str name = Ok () →
     file_name (path_join dir name) = Some name ∧ has_char "/" name = false ∧ 1 ≤ len name ≤ 64 ∧
     ∀ other, name ≠ ".partial-" +:+ other) ∧
  ∀ rendered, validate_snapshot_name debug_str (auto_snapshot_name rendered) = Ok ().
Proof.
  unfold validate_snapshot_name. split.
  - intros name dir H. destruct (valid_snapshot_name name) eqn:Hv; [|done].
    unfold valid_snapshot_name in Hv. bool_props.
    match goal with H : is_empty name = _ |- _ => apply is_empty_false in H as Hne end.
    match goal with H : starts_with "." name = _ |- _ => rename H into Hdot end.
    assert (has_char "/" name = false) as Hs by (by apply (all_bytes_no_char is_name_byte)).
    assert (Hp : ∀ x, name ≠ "." +:+ x).
    { intros x ->. assert (starts_with "." ("." +:+ x) = true) as E by (apply starts_with_spec; eauto).
      congruence. }
    split_and!; [|done| |done|].
    + apply file_name_join; [done|done|by apply (Hp "")|by apply (Hp ".")].
    + destruct name; [done|]. unfold len. simpl. lia.
    + intros other ->. by apply (Hp ("partial-" +:+ other)).
  - intros rendered. unfold auto_snapshot_name.
    destruct (Z.leb_spec 14 (len (keep_digits 14 rendered))) as [Hl|]; [|done].
    destruct (keep_digits_spec 14 rendered) as [Hd Hm]. set (d := keep_digits 14 rendered) in *.
    assert (String.length d = 14)%nat as Hlen by (unfold len in Hl; lia).
    unfold valid_snapshot_name, len. rewrite !all_bytes_app.
    assert (Hn : ∀ n m, all_bytes is_name_byte (String.substring n m d) = true).
    { intros n m. eapply all_bytes_impl; [apply name_byte_of_digit|]. by apply substring_bytes. }
    rewrite !Hn, !length_app_str, !length_substring by lia. done.
Qed.

(** C39: snapshot.rs, [read_restore_request]: the marker that makes the next launch restore a
    VM state is honoured only when it is a regular file within the size limit that parses to
    a current-version request with a valid snapshot name, absolute directories and a
    lowercase SHA-256 digest. *)
Theorem restore_request_checked debug_str from_slice open path r :
  read_restore_request debug_str from_slice open path = Ok r →
  request_version r = SNAPSHOT_SCHEMA_VERSION ∧ valid_snapshot_name (snapshot r) = true ∧
  is_absolute (snapshot_dir r) = true ∧ is_absolute (vmstate_dir r) = true ∧
  len (vmconfig_sha256 r) = 64 ∧ all_bytes is_hex_lower (vmconfig_sha256 r) = true ∧
  ∃ file length bytes, open = Ok file ∧ doc_metadata file = Ok (true, length) ∧
    length ≤ MAX_SNAPSHOT_DOCUMENT_BYTES ∧ doc_bytes file = Ok bytes ∧ from_slice bytes = Ok r.
Proof.
  unfold read_restore_request, read_snapshot_document, request_validate, validate_snapshot_name.
  intros H. inv_ok. match goal with p : bool * Z |- _ => destruct p as [is_file length] end. inv_ok. bool_props.
  destruct (valid_snapshot_name (snapshot r)) eqn:Hv; [|done].
  subst. split_and!; try done. by eexists _, _, _.
Qed.
Definition demo_request : RestoreRequest := {|
  request_version := 1; snapshot := "nightly"; snapshot_dir := "/m/dev/snapshots/nightly";
  vmstate_dir := "/m/dev/snapshots/nightly/vmstate";
  vmconfig_sha256 := "0123456789abcdef0123456789abcdef0123456789abcdef0123456789abcdef";
  request_created_at := "2026-01-01T00:00:00Z" |}.
Lemma restore_request_checked_witness :
  request_version demo_request = 1 ∧ is_absolute (vmstate_dir demo_request) = true.
Proof.
  destruct (restore_request_checked id (λ _, Ok demo_request)
    (Ok {| doc_metadata := Ok (true, 2); doc_bytes := Ok [123; 125] |}) "/m/dev/restore-request.json" demo_request)
    as (Hv & _ & _ & Ha & _); [by vm_compute|]. split; [exact Hv|exact Ha].
Defined.
