(* ===== verification/Utf8.v ===== *)
(** UTF-8 validation and debug escapes: the part of Rust's [str::from_utf8],
    [char::escape_debug] and [ascii::escape_default] that the sources use on bytes they did
    not produce.  Which scalars beyond ASCII are printable is a table of the standard
    library and a parameter. *)
From S2P Require Import Prelude RustStr.
Open Scope Z_scope.

(** ** Validation *)

Definition continuation (b : Z) : bool := (128 <=? b) && (b <=? 191).
(** The first two bytes of a three-byte sequence: no overlong form and no surrogate. *)
Definition lead3 (a b : Z) : bool :=
  ((a =? 224) && (160 <=? b) && (b <=? 191))
  || ((225 <=? a) && (a <=? 236) && continuation b)
  || ((a =? 237) && (128 <=? b) && (b <=? 159))
  || ((238 <=? a) && (a <=? 239) && continuation b).
(** The first two bytes of a four-byte sequence: at most U+10FFFF. *)
Definition lead4 (a b : Z) : bool :=
  ((a =? 240) && (144 <=? b) && (b <=? 191))
  || ((241 <=? a) && (a <=? 243) && continuation b)
  || ((a =? 244) && (128 <=? b) && (b <=? 143)).

(** The encodings of the scalars in [l], when it is well formed. *)
Fixpoint scalars (l : list Z) : option (list (list Z)) :=
  match l with
  | [] => Some []
  | a :: l1 =>
      if a <? 128 then cons [a] <$> scalars l1
      else match l1 with
      | [] => None
      | b :: l2 =>
          if (194 <=? a) && (a <=? 223) && continuation b then cons [a; b] <$> scalars l2
          else match l2 with
          | [] => None
          | c :: l3 =>
              if lead3 a b && continuation c then cons [a; b; c] <$> scalars l3
              else match l3 with
              | [] => None
              | d :: l4 =>
                  if lead4 a b && continuation c && continuation d
                  then cons [a; b; c; d] <$> scalars l4
                  else None
              end
          end
      end
  end.
(** [str::from_utf8]. *)
Definition from_utf8 (l : list Z) : option string :=
  if scalars l then Some (utf8 l) else None.

(** The bytes of a string. *)
Fixpoint bytes_of (s : string) : list Z :=
  match s with EmptyString => [] | String a s => code a :: bytes_of s end.

(** ** Escapes *)

Definition QUOTE : ascii := "034"%char.
(** [s] between double quotes. *)
Definition quoted (s : string) : string := String QUOTE s +:+ one QUOTE.
Definition APOSTROPHE : ascii := "039"%char.
Definition BACKSLASH : ascii := "092"%char.
Definition TAB : ascii := "009"%char.

Definition escaped (a : ascii) : string := String BACKSLASH (one a).
(** Lower-case hexadecimal without leading zeros, for a byte. *)
Definition hex_byte (b : Z) : string := if b <? 16 then one (hex_digit b) else hex2 b.

Section escape.
(** How a scalar beyond ASCII is escaped. *)
Context (unicode_debug : string → string).

(** [char::escape_debug_ext] on one scalar. *)
Definition escape_debug_char (single_quote double_quote : bool) (c : list Z) : string :=
  match c with
  | [b] =>
      if b =? 0 then escaped "0" else if b =? 9 then escaped "t"
      else if b =? 10 then escaped "n" else if b =? 13 then escaped "r"
      else if b =? 92 then escaped BACKSLASH
      else if (b =? 34) && double_quote then escaped QUOTE
      else if (b =? 39) && single_quote then escaped APOSTROPHE
      else if (32 <=? b) && (b <=? 126) then utf8 [b]
      else escaped "u" +:+ "{" +:+ hex_byte b +:+ "}"
  | _ => unicode_debug (utf8 c)
  end.
Definition escape_scalars (single_quote double_quote : bool) (cs : list (list Z)) : string :=
  foldr (λ c s, escape_debug_char single_quote double_quote c +:+ s) "" cs.

(** [format!("{s:?}")] of a [str]: a string holds well-formed UTF-8. *)
Definition debug_str (s : string) : string :=
  one QUOTE +:+ escape_scalars false true (from_option id [] (scalars (bytes_of s))) +:+ one QUOTE.
End escape.

(** [ascii::escape_default] of a byte. *)
Definition escape_default (b : Z) : string :=
  if b =? 9 then escaped "t" else if b =? 10 then escaped "n" else if b =? 13 then escaped "r"
  else if b =? 39 then escaped APOSTROPHE else if b =? 34 then escaped QUOTE
  else if b =? 92 then escaped BACKSLASH
  else if (32 <=? b) && (b <=? 126) then utf8 [b]
  else escaped "x" +:+ hex2 b.

(** ** Cutting and trimming *)

(** [split("\r\n")]. *)
Fixpoint split_crlf (s : string) : list string :=
  match s with
  | EmptyString => [EmptyString]
  | String a s' =>
      match s' with
      | String b s'' =>
          if Ascii.eqb a CR && Ascii.eqb b LF then EmptyString :: split_crlf s''
          else match split_crlf s' with x :: l => String a x :: l | [] => [one a] end
      | EmptyString => [one a]
      end
  end.

(** [trim_matches] with a set of characters. *)
Fixpoint trim_start_matches (f : ascii → bool) (s : string) : string :=
  match s with
  | EmptyString => EmptyString
  | String a s' => if f a then trim_start_matches f s' else s
  end.
Fixpoint trim_end_matches (f : ascii → bool) (s : string) : string :=
  if all_bytes f s then EmptyString else
  match s with
  | EmptyString => EmptyString
  | String a s => String a (trim_end_matches f s)
  end.
Definition trim_matches (f : ascii → bool) (s : string) : string :=
  trim_end_matches f (trim_start_matches f s).

(** [is_ascii_control], [eq_ignore_ascii_case]. *)
Definition is_ascii_control (a : ascii) : bool := byte_in 0 31 a || byte_in 127 127 a.
Definition eq_ignore_ascii_case (s t : string) : bool :=
  String.eqb (to_ascii_lowercase s) (to_ascii_lowercase t).

(** ** Lemmas *)

Lemma utf8_bytes_of s : utf8 (bytes_of s) = s.
Proof.
  induction s as [|a s IH]; [done|]. cbn [bytes_of utf8 foldr]. unfold utf8 in IH. rewrite IH. f_equal.
  unfold code. by rewrite N2Z.id, Ascii.ascii_N_embedding.
Qed.
Lemma bytes_of_app s t : bytes_of (s +:+ t) = bytes_of s ++ bytes_of t.
Proof. induction s as [|a s IH]; [done|]. rewrite app_cons. cbn [bytes_of]. by rewrite IH. Qed.
Lemma length_bytes_of s : length (bytes_of s) = String.length s.
Proof. induction s; simpl; congruence. Qed.
Lemma bytes_of_inj s t : bytes_of s = bytes_of t → s = t.
Proof. intros E. rewrite <- (utf8_bytes_of s), <- (utf8_bytes_of t). by rewrite E. Qed.
Lemma bytes_of_utf8 l : bytes_ok l → bytes_of (utf8 l) = l.
Proof.
  induction 1 as [|b l Hb _ IH]; [done|]. cbn [utf8 foldr bytes_of]. unfold utf8 in IH. rewrite IH. f_equal.
  unfold code. rewrite Ascii.N_ascii_embedding by lia. lia.
Qed.

(** ASCII is valid. *)
Definition is_ascii (a : ascii) : bool := byte_in 0 127 a.
Lemma scalars_ascii s : all_bytes is_ascii s = true → is_Some (scalars (bytes_of s)).
Proof.
  induction s as [|a s IH]; [by eexists|]. cbn [all_bytes bytes_of scalars].
  rewrite andb_true_iff. intros [Ha [cs Hs]%IH]. revert Ha. unfold is_ascii, byte_in. rewrite andb_true_iff, !Z.leb_le.
  intros [_ ?]. rewrite (proj2 (Z.ltb_lt _ _)) by lia. rewrite Hs. by eexists.
Qed.
Lemma from_utf8_ascii s : all_bytes is_ascii s = true → from_utf8 (bytes_of s) = Some s.
Proof. intros [cs Hs]%scalars_ascii. unfold from_utf8. by rewrite Hs, utf8_bytes_of. Qed.
Lemma from_utf8_Some l s : from_utf8 l = Some s → s = utf8 l.
Proof. unfold from_utf8. destruct (scalars l); congruence. Qed.

Lemma split_crlf_ne s : split_crlf s ≠ [].
Proof.
  destruct s as [|a [|b s]]; cbn [split_crlf]; [done..|].
  destruct (_ && _); [done|]. by destruct (match s with EmptyString => _ | _ => _ end).
Qed.
Lemma split_crlf_cons a s :
  Ascii.eqb a CR = false →
  split_crlf (String a s) = match split_crlf s with x :: l => String a x :: l | [] => [one a] end.
Proof. intros Ha. destruct s as [|b s]; cbn [split_crlf]; [done|]. by rewrite Ha. Qed.
(** A part that holds no carriage return ends at the separator. *)
Lemma split_crlf_sep x y :
  has_char CR x = false → split_crlf (x +:+ String CR (String LF y)) = x :: split_crlf y.
Proof.
  induction x as [|a x IH]; [done|]. intros [Ha Hx]%has_char_cons.
  rewrite app_cons, split_crlf_cons by (by apply Ascii.eqb_neq). by rewrite IH.
Qed.
Lemma split_crlf_single x : has_char CR x = false → split_crlf x = [x].
Proof.
  induction x as [|a x IH]; [done|]. intros [Ha Hx]%has_char_cons.
  rewrite split_crlf_cons by (by apply Ascii.eqb_neq). by rewrite IH.
Qed.

Lemma trim_start_matches_skip f p s :
  all_bytes f p = true → trim_start_matches f (p +:+ s) = trim_start_matches f s.
Proof. induction p as [|a p IH]; [done|]. cbn [all_bytes]. rewrite andb_true_iff, app_cons. intros [Ha Hp]. simpl. by rewrite Ha, IH. Qed.
Lemma trim_start_matches_id f a s : f a = false → trim_start_matches f (String a s) = String a s.
Proof. simpl. by intros ->. Qed.
Lemma trim_start_matches_all f s : all_bytes f s = true → trim_start_matches f s = "".
Proof. intros Hs. rewrite <- (app_empty_r s). by rewrite trim_start_matches_skip. Qed.
Lemma trim_end_matches_app f s p :
  all_bytes f p = true → (∀ a, last_byte s = Some a → f a = false) → trim_end_matches f (s +:+ p) = s.
Proof.
  intros Hp. induction s as [|a s IH]; intros Hl.
  - rewrite app_empty_l. by destruct p; simpl in *; rewrite ?Hp.
  - rewrite app_cons. cbn [trim_end_matches].
    assert (all_bytes f (String a (s +:+ p)) = false) as ->.
    { apply not_true_iff_false. intros Ha. destruct (last_byte (String a s)) as [b|] eqn:Hb; [|by apply last_byte_ne in Hb].
      specialize (Hl b eq_refl). rewrite <- app_cons, all_bytes_app, andb_true_iff in Ha. destruct Ha as [Ha _].
      clear IH. revert a Ha Hb; induction s as [|c s IH]; intros a Ha Hb.
      - cbn in Hb, Ha. injection Hb as ->. by rewrite Hl in Ha.
      - cbn [all_bytes] in Ha. rewrite andb_true_iff in Ha. apply (IH c); [apply Ha|exact Hb]. }
    f_equal. apply IH. intros b Hb. apply Hl. cbn [last_byte]. destruct s; [done|exact Hb].
Qed.
(** Padding around a value that starts and ends with something else is trimmed off. *)
Lemma trim_matches_pad f p s q :
  all_bytes f p = true → all_bytes f q = true →
  (∀ a, first_byte s = Some a → f a = false) → (∀ a, last_byte s = Some a → f a = false) →
  trim_matches f (p +:+ s +:+ q) = s.
Proof.
  intros Hp Hq Hf Hl. unfold trim_matches. rewrite trim_start_matches_skip by done.
  destruct s as [|a s].
  - rewrite app_empty_l, trim_start_matches_all by done. done.
  - rewrite app_cons, trim_start_matches_id by (by apply Hf). rewrite <- app_cons. by apply trim_end_matches_app.
Qed.
