(* ===== verification/Chars.v ===== *)
(** Characters: what [str::chars] yields and what [String::push] appends.  A [char] is a
    Unicode scalar value; a string of bytes that is valid UTF-8 and a list of scalars are two
    views of the same text, and the lemmas below carry facts from one to the other. *)
From S2P Require Import Prelude RustStr Utf8.
Open Scope Z_scope.

Definition is_scalar (c : Z) : bool :=
  ((0 <=? c) && (c <=? 55295)) || ((57344 <=? c) && (c <=? 1114111)).
(** [char::is_control]: the general category Cc, that is C0, DEL and C1. *)
Definition is_control (c : Z) : bool := ((0 <=? c) && (c <=? 31)) || ((127 <=? c) && (c <=? 159)).
(** [char::is_whitespace]: the property White_Space. *)
Definition is_whitespace (c : Z) : bool :=
  ((9 <=? c) && (c <=? 13)) || (c =? 32) || (c =? 133) || (c =? 160) || (c =? 5760) || ((8192 <=? c) && (c <=? 8202))
  || (c =? 8232) || (c =? 8233) || (c =? 8239) || (c =? 8287) || (c =? 12288).
(** A [char] range pattern. *)
Definition char_in (lo hi c : Z) : bool := (lo <=? c) && (c <=? hi).

(** [char::encode_utf8]. *)
Definition encode_utf8 (c : Z) : list Z :=
  if c <? 128 then [c]
  else if c <? 2048 then [192 + c / 64; 128 + c mod 64]
  else if c <? 65536 then [224 + c / 4096; 128 + c / 64 mod 64; 128 + c mod 64]
  else [240 + c / 262144; 128 + c / 4096 mod 64; 128 + c / 64 mod 64; 128 + c mod 64].
Definition decode_utf8 (bs : list Z) : Z :=
  match bs with
  | [a] => a
  | [a; b] => (a - 192) * 64 + (b - 128)
  | [a; b; c] => (a - 224) * 4096 + (b - 128) * 64 + (c - 128)
  | [a; b; c; d] => (a - 240) * 262144 + (b - 128) * 4096 + (c - 128) * 64 + (d - 128)
  | _ => 0
  end.

(** [str::chars]; a [str] is always valid UTF-8. *)
Definition chars (s : string) : list Z :=
  match scalars (bytes_of s) with Some cs => decode_utf8 <$> cs | None => [] end.
(** A [String] collected from characters. *)
Definition of_chars (cs : list Z) : string := utf8 (concat (encode_utf8 <$> cs)).
Definition valid_str (s : string) : Prop := is_Some (scalars (bytes_of s)).
(** The length of that [String] in bytes. *)
Definition chars_len (cs : list Z) : Z := Z.of_nat (length (concat (encode_utf8 <$> cs))).

(** ** One encoded scalar *)

Ltac byte_bounds := unfold lead3, lead4, continuation in *; rewrite ?orb_true_iff, ?andb_true_iff, ?Z.leb_le in *.
Ltac by_ltb b := replace b with true by (symmetry; apply Z.ltb_lt; lia).
Ltac not_ltb b := replace b with false by (symmetry; apply Z.ltb_ge; lia).

(** The encodings [scalars] accepts. *)
Definition encoding (x : list Z) : Prop :=
  match x with
  | [a] => 0 ≤ a < 128
  | [a; b] => (194 <=? a) && (a <=? 223) && continuation b = true
  | [a; b; c] => lead3 a b && continuation c = true
  | [a; b; c; d] => lead4 a b && continuation c && continuation d = true
  | _ => False
  end.

Lemma encode_decode x : encoding x → encode_utf8 (decode_utf8 x) = x.
Proof.
  destruct x as [|a [|b [|c [|d [|]]]]]; cbn [encoding decode_utf8]; intros He; try done; unfold encode_utf8.
  - by_ltb (a <? 128). done.
  - byte_bounds. set (v := _ + _). not_ltb (v <? 128). by_ltb (v <? 2048). subst v.
    f_equal; [|f_equal]; Z.div_mod_to_equations; lia.
  - byte_bounds. set (v := _ + _). not_ltb (v <? 128). not_ltb (v <? 2048). by_ltb (v <? 65536). subst v.
    f_equal; [|f_equal; [|f_equal]]; Z.div_mod_to_equations; lia.
  - byte_bounds. set (v := _ + _). not_ltb (v <? 128). not_ltb (v <? 2048). not_ltb (v <? 65536). subst v.
    f_equal; [|f_equal; [|f_equal; [|f_equal]]]; Z.div_mod_to_equations; lia.
Qed.
Lemma decode_scalar x : encoding x → is_scalar (decode_utf8 x) = true.
Proof.
  unfold is_scalar. rewrite orb_true_iff, !andb_true_iff, !Z.leb_le.
  destruct x as [|a [|b [|c [|d [|]]]]]; cbn [encoding decode_utf8]; intros He; try done; byte_bounds; lia.
Qed.
Lemma is_scalar_range c : is_scalar c = true ↔ 0 ≤ c ≤ 55295 ∨ 57344 ≤ c ≤ 1114111.
Proof. unfold is_scalar. rewrite orb_true_iff, !andb_true_iff, !Z.leb_le. done. Qed.
Lemma encode_encoding c : is_scalar c = true → encoding (encode_utf8 c).
Proof.
  rewrite is_scalar_range. intros Hc. unfold encode_utf8.
  repeat case_match; cbn [encoding]; rewrite ?Z.ltb_lt, ?Z.ltb_ge in *; byte_bounds; Z.div_mod_to_equations; lia.
Qed.
Lemma decode_encode c : is_scalar c = true → decode_utf8 (encode_utf8 c) = c.
Proof.
  rewrite is_scalar_range. intros Hc. unfold encode_utf8.
  repeat case_match; cbn [decode_utf8]; rewrite ?Z.ltb_lt, ?Z.ltb_ge in *; Z.div_mod_to_equations; lia.
Qed.
Lemma encoding_bytes x : encoding x → bytes_ok x.
Proof.
  destruct x as [|a [|b [|c [|d [|]]]]]; cbn [encoding]; intros He; try done; byte_bounds;
    repeat constructor; lia.
Qed.

(** ** Whole strings *)

Lemma scalars_cons x l : encoding x → scalars (x ++ l) = cons x <$> scalars l.
Proof.
  destruct x as [|a [|b [|c [|d [|]]]]]; cbn [encoding app]; intros He; try done; cbn [scalars].
  - by_ltb (a <? 128). done.
  - rewrite He. byte_bounds. not_ltb (a <? 128). done.
  - assert (Hb : 224 ≤ a) by (byte_bounds; lia). not_ltb (a <? 128).
    replace ((194 <=? a) && (a <=? 223) && continuation b) with false; [by rewrite He|].
    symmetry. rewrite !andb_false_iff, !Z.leb_gt. lia.
  - assert (Hb : 240 ≤ a) by (byte_bounds; lia). not_ltb (a <? 128).
    replace ((194 <=? a) && (a <=? 223) && continuation b) with false by (symmetry; rewrite !andb_false_iff, !Z.leb_gt; lia).
    replace (lead3 a b && continuation c) with false; [by rewrite He|].
    symmetry. unfold lead3. rewrite !andb_false_iff, !orb_false_iff, !andb_false_iff, !Z.eqb_neq, !Z.leb_gt. lia.
Qed.
(** Every string [scalars] accepts starts with an encoding. *)
Lemma scalars_inv l cs :
  bytes_ok l → scalars l = Some cs →
  (l = [] ∧ cs = []) ∨ ∃ x r cs', l = x ++ r ∧ encoding x ∧ scalars r = Some cs' ∧ cs = x :: cs'.
Proof.
  intros Hb. destruct l as [|a l1]; cbn [scalars]; [intros [= <-]; by left|]. intros Hs. right.
  inversion Hb as [|? ? Ha _]; subst.
  destruct (a <? 128) eqn:E1.
  { apply Z.ltb_lt in E1. apply fmap_Some in Hs as (cs' & Hr & ->). exists [a], l1, cs'. cbn. repeat split; [lia..|done]. }
  destruct l1 as [|b l2]; [done|].
  destruct ((194 <=? a) && (a <=? 223) && continuation b) eqn:E2.
  { apply fmap_Some in Hs as (cs' & Hr & ->). by exists [a; b], l2, cs'. }
  destruct l2 as [|c l3]; [done|].
  destruct (lead3 a b && continuation c) eqn:E3.
  { apply fmap_Some in Hs as (cs' & Hr & ->). by exists [a; b; c], l3, cs'. }
  destruct l3 as [|d l4]; [done|].
  destruct (lead4 a b && continuation c && continuation d) eqn:E4; [|done].
  apply fmap_Some in Hs as (cs' & Hr & ->). by exists [a; b; c; d], l4, cs'.
Qed.
Lemma encoding_ne x : encoding x → x ≠ [].
Proof. by destruct x. Qed.
Lemma scalars_Some l cs : bytes_ok l → scalars l = Some cs ↔ l = concat cs ∧ Forall encoding cs.
Proof.
  intros Hb. split.
  - revert cs Hb. induction l as [l IH] using (induction_ltof1 _ length). unfold ltof in IH. intros cs Hb Hs.
    destruct (scalars_inv l cs Hb Hs) as [[-> ->]|(x & r & cs' & -> & Hx & Hr & ->)]; [done|].
    apply encoding_ne in Hx as Hne. apply Forall_app in Hb as [_ Hb'].
    destruct (IH r) with (cs := cs') as [-> Hcs]; [|done..|by split; [|constructor]].
    rewrite length_app. destruct x; [done|cbn; lia].
  - intros [-> Hcs]. clear Hb. induction Hcs as [|x cs Hx Hcs IH]; [done|]. cbn [concat].
    by rewrite scalars_cons, IH by done.
Qed.
Lemma bytes_of_ok s : bytes_ok (bytes_of s).
Proof. induction s as [|a s IH]; cbn; constructor; [apply code_range|done]. Qed.

Lemma valid_str_app s t : valid_str s → valid_str t → valid_str (s +:+ t).
Proof.
  intros [cs Hs] [ds Ht]. exists (cs ++ ds). rewrite bytes_of_app.
  apply scalars_Some in Hs as [Es Hs]; [|apply bytes_of_ok]. apply scalars_Some in Ht as [Et Ht]; [|apply bytes_of_ok].
  apply scalars_Some; [rewrite <- bytes_of_app; apply bytes_of_ok|].
  rewrite Es, Et, concat_app. split; [done|by apply Forall_app].
Qed.
Lemma valid_str_chars s : valid_str s → ∃ cs, bytes_of s = concat cs ∧ Forall encoding cs ∧ chars s = decode_utf8 <$> cs.
Proof.
  intros [cs Hs]. exists cs. unfold chars. rewrite Hs. apply scalars_Some in Hs as [E Hs]; [done|apply bytes_of_ok].
Qed.
Lemma encode_decode_list cs : Forall encoding cs → encode_utf8 <$> (decode_utf8 <$> cs) = cs.
Proof. induction 1; cbn; f_equal; [by apply encode_decode|done]. Qed.
Lemma concat_encodings_ok cs : Forall (λ c, is_scalar c = true) cs → bytes_ok (concat (encode_utf8 <$> cs)).
Proof.
  induction 1 as [|c cs Hc Hcs IH]; cbn; [constructor|]. apply Forall_app. split; [|done].
  by apply encoding_bytes, encode_encoding.
Qed.

(** Collecting the characters of a string gives it back. *)
Lemma of_chars_chars s : valid_str s → of_chars (chars s) = s.
Proof.
  intros (cs & Eb & He & ->)%valid_str_chars. unfold of_chars. rewrite encode_decode_list by done.
  by rewrite <- Eb, utf8_bytes_of.
Qed.
Lemma scalars_encoded cs :
  Forall (λ c, is_scalar c = true) cs → scalars (concat (encode_utf8 <$> cs)) = Some (encode_utf8 <$> cs).
Proof.
  intros Hcs. apply scalars_Some; [by apply concat_encodings_ok|]. split; [done|].
  apply Forall_fmap. eapply Forall_impl; [exact Hcs|]. intros c. apply encode_encoding.
Qed.
Lemma valid_of_chars cs : Forall (λ c, is_scalar c = true) cs → valid_str (of_chars cs).
Proof.
  intros Hcs. exists (encode_utf8 <$> cs). unfold of_chars.
  rewrite bytes_of_utf8 by by apply concat_encodings_ok. by apply scalars_encoded.
Qed.
Lemma chars_of_chars cs : Forall (λ c, is_scalar c = true) cs → chars (of_chars cs) = cs.
Proof.
  intros Hcs. unfold chars, of_chars. rewrite bytes_of_utf8 by by apply concat_encodings_ok.
  rewrite scalars_encoded by done. induction Hcs as [|c cs Hc Hcs IH]; [done|]. cbn. by rewrite decode_encode, IH.
Qed.
Lemma chars_scalar s : valid_str s → Forall (λ c, is_scalar c = true) (chars s).
Proof.
  intros (cs & _ & He & ->)%valid_str_chars. apply Forall_fmap.
  eapply Forall_impl; [exact He|]. apply decode_scalar.
Qed.
Lemma utf8_app l l' : utf8 (l ++ l') = utf8 l +:+ utf8 l'.
Proof. induction l as [|z l IH]; [done|]. unfold utf8 in *. cbn [foldr app]. by rewrite IH, app_cons. Qed.
Lemma of_chars_app cs ds : of_chars (cs ++ ds) = of_chars cs +:+ of_chars ds.
Proof. unfold of_chars. by rewrite fmap_app, concat_app, utf8_app. Qed.
Lemma chars_app s t : valid_str s → valid_str t → chars (s +:+ t) = chars s ++ chars t.
Proof.
  intros Hs Ht. rewrite <- (of_chars_chars s), <- (of_chars_chars t) at 1 by done.
  rewrite <- of_chars_app. apply chars_of_chars, Forall_app. by split; apply chars_scalar.
Qed.
Lemma chars_empty : chars "" = [].
Proof. done. Qed.
Lemma of_chars_nil_iff cs : of_chars cs = "" ↔ cs = [].
Proof.
  split; [|by intros ->]. destruct cs as [|c cs]; [done|]. unfold of_chars. cbn [fmap list_fmap concat].
  unfold encode_utf8. by repeat case_match.
Qed.
(** ASCII characters are one byte each. *)
Lemma chars_len_ascii cs : Forall (λ c, 0 ≤ c < 128) cs → chars_len cs = Z.of_nat (length cs).
Proof.
  intros Hcs. unfold chars_len. f_equal. induction Hcs as [|c cs Hc Hcs IH]; [done|]. cbn [fmap list_fmap concat].
  rewrite length_app, IH. unfold encode_utf8. by_ltb (c <? 128). done.
Qed.
