(* ===== verification/HttpHead.v ===== *)
(** The VMM API client's requests and response heads ([firestone-core/src/vmm_api.rs]):
    the endpoints with what each may answer, the request head, and the parser of a response's
    status line and header fields.  What an accepted head can hold is characterised, and a head
    written the usual way is read back. *)
From S2P Require Import Prelude RustStr Errors Utf8.
Open Scope Z_scope.

Definition MAX_CREATE_BODY_BYTES : Z := 51200.
Definition MAX_RESPONSE_HEADER_BYTES : Z := 16 * 1024.
Definition MAX_PING_BODY_BYTES : Z := 64 * 1024.
Definition MAX_INFO_BODY_BYTES : Z := 1024 * 1024.
Definition MAX_COUNTERS_BODY_BYTES : Z := 64 * 1024.
Definition MAX_ERROR_BODY_BYTES : Z := 64 * 1024.
Definition IO_CHUNK_BYTES : Z := 8 * 1024.

(** ** Endpoints *)

Inductive Endpoint : Set :=
  | VmmPing | VmCreate | VmBoot | VmInfo | VmCounters | VmPowerButton | VmShutdown
  | VmmShutdown | VmResize | VmPause | VmResume | VmSnapshot | VmRestore.

Definition method (e : Endpoint) : string :=
  match e with
  | VmmPing | VmInfo | VmCounters => "GET"
  | VmCreate | VmBoot | VmPowerButton | VmShutdown | VmmShutdown | VmResize | VmPause
  | VmResume | VmSnapshot | VmRestore => "PUT"
  end.
Definition path (e : Endpoint) : string :=
  match e with
  | VmmPing => "/api/v1/vmm.ping"
  | VmCreate => "/api/v1/vm.create"
  | VmBoot => "/api/v1/vm.boot"
  | VmInfo => "/api/v1/vm.info"
  | VmCounters => "/api/v1/vm.counters"
  | VmPowerButton => "/api/v1/vm.power-button"
  | VmShutdown => "/api/v1/vm.shutdown"
  | VmmShutdown => "/api/v1/vmm.shutdown"
  | VmResize => "/api/v1/vm.resize"
  | VmPause => "/api/v1/vm.pause"
  | VmResume => "/api/v1/vm.resume"
  | VmSnapshot => "/api/v1/vm.snapshot"
  | VmRestore => "/api/v1/vm.restore"
  end.
Definition expected_status (e : Endpoint) : Z :=
  match e with
  | VmmPing | VmInfo | VmCounters | VmmShutdown => 200
  | VmCreate | VmBoot | VmPowerButton | VmShutdown | VmResize | VmPause | VmResume
  | VmSnapshot | VmRestore => 204
  end.
Definition success_body_limit (e : Endpoint) : Z :=
  match e with
  | VmmPing => MAX_PING_BODY_BYTES
  | VmInfo => MAX_INFO_BODY_BYTES
  | VmCounters => MAX_COUNTERS_BODY_BYTES
  | VmCreate | VmBoot | VmPowerButton | VmShutdown | VmmShutdown | VmResize | VmPause
  | VmResume | VmSnapshot | VmRestore => 0
  end.
Definition has_request_body (e : Endpoint) : bool :=
  match e with VmCreate | VmResize | VmSnapshot | VmRestore => true | _ => false end.

(** ** Failures *)

(** A [serde_json::Error] is its text. *)
Inductive ClientFailure : Set :=
  | Deadline (phase : string)
  | DeadlineOutOfRange
  | Io (phase : string) (source : IoError)
  | Protocol (detail : string)
  | HttpResponseFailure (status : Z) (body_preview : string) (detail : option string) (timed_out : bool)
  | InvalidJson (label : string) (source : string)
  | RequestBodyTooLarge.

Definition is_liveness_negative (f : ClientFailure) : bool :=
  match f with
  | Io _ source =>
      bool_decide (io_kind source = IoNotFound) || bool_decide (io_kind source = IoConnectionRefused)
  | _ => false
  end.

Definition socket_error_is_unresponsive (k : IoKind) : bool :=
  match k with
  | IoNotFound | IoConnectionRefused | IoConnectionReset | IoConnectionAborted | IoBrokenPipe
  | IoTimedOut | IoWouldBlock | IoUnexpectedEof => true
  | _ => false
  end.

(** ** Requests *)

Definition CRLF : string := String CR (one LF).

Definition request_header (e : Endpoint) (body_len : Z) : result ClientFailure string :=
  let head := method e +:+ " " +:+ path e +:+ " HTTP/1.1" +:+ CRLF
    +:+ "Host: localhost" +:+ CRLF +:+ "Accept: */*" +:+ CRLF in
  if has_request_body e then
    Ok (head +:+ "Content-Type: application/json" +:+ CRLF
      +:+ "Content-Length: " +:+ dec body_len +:+ CRLF +:+ CRLF)
  else if negb (body_len =? 0) then Err (Protocol "body supplied for a bodyless VMM API endpoint")
  else Ok (head +:+ CRLF).

(** ** Response heads *)

Record ParsedHead : Set := { status : Z; content_length : option Z }.

Section head.
Context (unicode_debug : string → string).

Definition combine_response_detail (prefix : option string) (detail : string) : string :=
  match prefix with Some prefix => prefix +:+ "; " +:+ detail | None => detail end.

Definition escaped_body_preview (body : list Z) : string :=
  let bounded := take (Z.to_nat (Z.min (Z.of_nat (length body)) MAX_ERROR_BODY_BYTES)) body in
  let preview := match scalars bounded with
    | Some cs => escape_scalars unicode_debug true true cs
    | None => foldr (λ b s, escape_default b +:+ s) "" bounded
    end in
  if Z.of_nat (length bounded) <? Z.of_nat (length body) then preview +:+ "...[truncated]" else preview.

Definition http_response_failure (status : Z) (body : list Z) (detail : option string) : ClientFailure :=
  HttpResponseFailure status (escaped_body_preview body) detail false.
Definition http_response_timeout (status : Z) (body : list Z) (detail : string) : ClientFailure :=
  HttpResponseFailure status (escaped_body_preview body) (Some detail) true.

Definition is_header_name_byte (a : ascii) : bool :=
  is_ascii_alphanumeric a || has_char a "!#$%&'*+-.^_`|~".

Definition malformed_status_line (line : string) : ClientFailure :=
  Protocol ("malformed HTTP/1.1 status line " +:+ debug_str unicode_debug line).
(** [line.splitn(3, ' ')]: the code is what stands between the first two spaces. *)
Definition parse_status_line (line : string) : result ClientFailure Z :=
  let '(version, rest) := match split_once " " line with
    | Some (version, rest) => (version, Some rest)
    | None => (line, None)
    end in
  reject malformed_status_line line when (negb (String.eqb version "HTTP/1.1"));
  rest ← ok_or rest (malformed_status_line line);
  let '(code, reason) := match split_once " " rest with
    | Some (code, reason) => (code, Some reason)
    | None => (rest, None)
    end in
  reject malformed_status_line line
    when (bool_decide (reason = None) || negb (len code =? 3) || negb (all_bytes is_ascii_digit code));
  status ← ok_or (parse_u u16_max code)
    (Protocol ("malformed HTTP/1.1 status code " +:+ debug_str unicode_debug code));
  reject Protocol ("HTTP status code " +:+ dec status +:+ " is out of range")
    when (negb ((100 <=? status) && (status <=? 599)));
  Ok status.

Definition is_blank (a : ascii) : bool := Ascii.eqb a " " || Ascii.eqb a TAB.
Definition starts_blank (s : string) : bool := from_option is_blank false (first_byte s).

(** One header line; the state is the Content-Length seen so far. *)
Definition parse_header_line (content_length : option Z) (line : string) : result ClientFailure (option Z) :=
  reject Protocol "response contains an empty line before the header terminator" when (is_empty line);
  reject Protocol "folded response header lines are not supported" when (starts_blank line);
  p ← ok_or (split_once ":" line)
    (Protocol ("malformed response header line " +:+ debug_str unicode_debug line));
  let '(name, value) := p in
  reject Protocol ("malformed response header name " +:+ debug_str unicode_debug name)
    when (is_empty name || negb (all_bytes is_header_name_byte name));
  let value := trim_matches is_blank value in
  reject Protocol ("malformed response header value for " +:+ debug_str unicode_debug name)
    when (negb (all_bytes (λ a, negb (is_ascii_control a && negb (Ascii.eqb a TAB))) value));
  reject Protocol "Transfer-Encoding responses are not supported"
    when (eq_ignore_ascii_case name "transfer-encoding");
  if eq_ignore_ascii_case name "content-length" then
    reject Protocol ("malformed Content-Length value " +:+ debug_str unicode_debug value)
      when (is_empty value || negb (all_bytes is_ascii_digit value));
    parsed ← ok_or (parse_u u64_max value)
      (Protocol ("Content-Length value " +:+ debug_str unicode_debug value +:+ " is out of range"));
    match content_length with
    | Some previous =>
        Err (Protocol ((if previous =? parsed then "duplicate" else "conflicting")
          +:+ " Content-Length headers (" +:+ dec previous +:+ " and " +:+ dec parsed +:+ ")"))
    | None => Ok (Some parsed)
    end
  else Ok content_length.

Definition parse_response_head (bytes : list Z) : result ClientFailure ParsedHead :=
  text ← ok_or (from_utf8 bytes) (Protocol "response status or headers are not valid UTF-8");
  match split_crlf text with
  | [] => Err (Protocol "response status line is missing")
  | status_line :: lines =>
      status ← parse_status_line status_line;
      content_length ← fold_result parse_header_line None lines;
      Ok {| status := status; content_length := content_length |}
  end.
End head.

(** [bytes.windows(4).position(|window| window == b"\r\n\r\n")]. *)
Fixpoint find_header_terminator (bytes : list Z) : option nat :=
  match bytes with
  | [] => None
  | _ :: rest =>
      if bool_decide (take 4 bytes = [13; 10; 13; 10]) then Some O
      else S <$> find_header_terminator rest
  end.

(** ** Lemmas *)

Lemma find_header_terminator_Some l i :
  find_header_terminator l = Some i → ∃ p s, l = p ++ [13; 10; 13; 10] ++ s ∧ length p = i.
Proof.
  revert i; induction l as [|a l IH]; intros i; cbn [find_header_terminator]; [done|].
  case_bool_decide as Ht.
  - intros [= <-]. exists [], (drop 4 (a :: l)). by rewrite <- Ht, take_drop.
  - intros (j & Hj & ->)%fmap_Some. destruct (IH j Hj) as (p & s & -> & <-). by exists (a :: p), s.
Qed.
(** The terminator that is found is the first one, wherever the stream is cut. *)
Lemma find_header_terminator_app l l' i :
  find_header_terminator l = Some i → find_header_terminator (l ++ l') = Some i.
Proof.
  revert i; induction l as [|a l IH]; intros i; cbn [find_header_terminator app]; [done|].
  case_bool_decide as Ht.
  - intros [= <-]. rewrite bool_decide_true; [done|].
    assert (length (take 4 (a :: l)) = 4%nat) as Hl by (by rewrite Ht). rewrite length_take in Hl.
    change (a :: l ++ l') with ((a :: l) ++ l'). by rewrite take_app_le by lia.
  - intros (j & Hj & ->)%fmap_Some. rewrite (IH j Hj). rewrite bool_decide_false; [done|].
    change (a :: l ++ l') with ((a :: l) ++ l'). intros Ht'. apply Ht.
    apply find_header_terminator_Some in Hj as (p & s & -> & _). rewrite take_app_le in Ht'; [done|].
    cbn [length]. rewrite !length_app. simpl. lia.
Qed.
Lemma find_header_terminator_cut l l' i :
  find_header_terminator (l ++ l') = Some i → (i + 4 <= length l)%nat → find_header_terminator l = Some i.
Proof.
  revert i; induction l as [|a l IH]; intros i; cbn [find_header_terminator app length]; [lia|].
  assert (Htake : (4 <= S (length l))%nat → take 4 (a :: l ++ l') = take 4 (a :: l)).
  { intros. change (a :: l ++ l') with ((a :: l) ++ l'). apply take_app_le. simpl. lia. }
  case_bool_decide as Ht.
  - intros [= <-] Hle. rewrite Htake in Ht by lia. by rewrite bool_decide_true.
  - intros (j & Hj & ->)%fmap_Some Hle. rewrite Htake in Ht by lia. rewrite bool_decide_false by done.
    by rewrite (IH j Hj) by lia.
Qed.
Lemma find_header_terminator_exists p s : ∃ i, find_header_terminator (p ++ [13; 10; 13; 10] ++ s) = Some i ∧ (i <= length p)%nat.
Proof.
  induction p as [|a p (i & Hi & Hle)]; [exists O; split; [done|simpl; lia]|].
  cbn [find_header_terminator app]. case_bool_decide; [exists O; simpl; split; [done|lia]|].
  exists (S i). simpl in *. rewrite Hi. split; [done|lia].
Qed.

Lemma parse_status_line_range ud line z : parse_status_line ud line = Ok z → 100 <= z <= 599.
Proof.
  unfold parse_status_line. destruct (match split_once " " line with Some _ => _ | None => _ end) as [version rest].
  intros [_ H]%reject_if_Ok. apply bind_Ok in H as (r & _ & H).
  destruct (match split_once " " r with Some _ => _ | None => _ end) as [code reason].
  apply reject_if_Ok in H as [_ H]. apply bind_Ok in H as (n & _ & H). apply reject_if_Ok in H as [H [= <-]].
  rewrite negb_false_iff, andb_true_iff, !Z.leb_le in H. lia.
Qed.

(** The name of a header line. *)
Definition header_name (line : string) : string :=
  match split_once ":" line with Some (name, _) => to_ascii_lowercase name | None => "" end.

Lemma parse_header_line_Ok ud cl line cl' :
  parse_header_line ud cl line = Ok cl' →
  header_name line ≠ "transfer-encoding" ∧
  (if bool_decide (header_name line = "content-length")
   then cl = None ∧ ∃ n, cl' = Some n ∧ 0 <= n <= u64_max else cl' = cl).
Proof.
  unfold parse_header_line. intros [_ [_ H]%reject_if_Ok]%reject_if_Ok.
  apply bind_Ok in H as ([name value] & Hs%ok_or_Ok & H). unfold header_name. rewrite Hs.
  apply reject_if_Ok in H as [_ [_ [Hte H]%reject_if_Ok]%reject_if_Ok].
  unfold eq_ignore_ascii_case in *. change (to_ascii_lowercase "transfer-encoding") with "transfer-encoding" in Hte.
  change (to_ascii_lowercase "content-length") with "content-length" in H.
  apply String.eqb_neq in Hte. split; [done|]. destruct (String.eqb_spec (to_ascii_lowercase name) "content-length").
  - rewrite bool_decide_true by done. apply reject_if_Ok in H as [_ H]. apply bind_Ok in H as (n & Hn%ok_or_Ok & H).
    destruct cl; [done|]. injection H as <-. split; [done|]. exists n. split; [done|by apply parse_u_range in Hn].
  - rewrite bool_decide_false by done. by injection H.
Qed.

(** Whatever the peer sends, an accepted head has a status in range, no Transfer-Encoding,
    and at most one Content-Length, which is the length that is used. *)
Lemma parse_response_head_Ok ud bytes h :
  parse_response_head ud bytes = Ok h →
  100 <= status h <= 599 ∧ (∀ n, content_length h = Some n → 0 <= n <= u64_max) ∧
  ∃ status_line lines, split_crlf (utf8 bytes) = status_line :: lines ∧
    Forall (λ l, header_name l ≠ "transfer-encoding") lines ∧
    length (filter (λ l, header_name l = "content-length") lines) =
      (if content_length h then 1 else 0)%nat.
Proof.
  unfold parse_response_head. intros H. apply bind_Ok in H as (text & ->%ok_or_Ok%from_utf8_Some & H).
  destruct (split_crlf (utf8 bytes)) as [|status_line lines]; [done|].
  apply bind_Ok in H as (z & Hz%parse_status_line_range & H). apply bind_Ok in H as (cl & Hcl & [= <-]). cbn [status content_length].
  pose proof (fold_result_inv (parse_header_line ud) (λ seen cl, (∀ n, cl = Some n → 0 <= n <= u64_max) ∧
    Forall (λ l, header_name l ≠ "transfer-encoding") seen ∧
    length (filter (λ l, header_name l = "content-length") seen) = (if cl then 1 else 0)%nat) lines None cl) as Hinv.
  destruct Hinv as (? & ? & ?); [| |done|by eauto 10].
  - split_and!; [done|constructor|done].
  - intros l c seen l' c' _ (H1 & H2 & H3) [Hte Hc]%parse_header_line_Ok.
    rewrite filter_app, length_app, Forall_app, Forall_singleton. cbn [filter list_filter]. case_bool_decide as Hn.
    + destruct Hc as (-> & n & -> & ?). rewrite decide_True by done. split_and!; [by intros ? [= <-]|done|done|]. simpl in *. lia.
    + rewrite decide_False by done. subst c'. split_and!; [done..|]. simpl. lia.
Qed.

(** ** A head written the usual way *)

Fixpoint join_crlf (line : string) (lines : list string) : string :=
  match lines with [] => line | l :: lines => line +:+ CRLF +:+ join_crlf l lines end.

(** A header field: its name, and its value between blanks. *)
Record Field : Set := { name : string; before : string; value : string; after : string }.
Definition field_line (f : Field) : string := name f +:+ ":" +:+ before f +:+ value f +:+ after f.
Definition value_byte (a : ascii) : bool := is_ascii a && negb (is_ascii_control a && negb (Ascii.eqb a TAB)).
Record field_ok (f : Field) : Prop := {
  name_ne : name f ≠ ""; name_bytes : all_bytes is_header_name_byte (name f) = true;
  before_blank : all_bytes is_blank (before f) = true; after_blank : all_bytes is_blank (after f) = true;
  value_bytes : all_bytes value_byte (value f) = true;
  value_first : ∀ a, first_byte (value f) = Some a → is_blank a = false;
  value_last : ∀ a, last_byte (value f) = Some a → is_blank a = false }.
Definition plain_field (f : Field) : Prop :=
  field_ok f ∧ to_ascii_lowercase (name f) ∉ ["transfer-encoding"; "content-length"].
Definition length_field (n : Z) : Field :=
  {| name := "Content-Length"; before := " "; value := dec n; after := "" |}.

(** What holds of every byte holds of a byte; decided by enumerating the bytes. *)
Lemma ascii_forall (P : ascii → bool) :
  forallb (λ n, P (Ascii.ascii_of_nat n)) (seq 0 256) = true → ∀ a, P a = true.
Proof.
  rewrite forallb_forall. intros H a. rewrite <- (Ascii.ascii_nat_embedding a). apply H. apply in_seq.
  pose proof (Ascii.nat_ascii_bounded a). lia.
Qed.
Ltac by_byte_table a := revert a; apply (ascii_forall (λ a, _)); vm_compute; reflexivity.

Lemma name_byte_line a :
  implb (is_header_name_byte a) (is_ascii a && negb (Ascii.eqb ":" a) && negb (Ascii.eqb CR a) && negb (is_blank a)) = true.
Proof. by_byte_table a. Qed.
Lemma blank_line a : implb (is_blank a) (is_ascii a && negb (Ascii.eqb CR a)) = true.
Proof. by_byte_table a. Qed.
Lemma value_byte_line a : implb (value_byte a)
  (is_ascii a && negb (Ascii.eqb CR a) && negb (is_ascii_control a && negb (Ascii.eqb a TAB))) = true.
Proof. by_byte_table a. Qed.
Lemma digit_line a : implb (is_ascii_digit a) (value_byte a && negb (is_blank a) && negb (Ascii.eqb " " a)) = true.
Proof. by_byte_table a. Qed.

Lemma first_byte_all f s a : all_bytes f s = true → first_byte s = Some a → f a = true.
Proof. destruct s; cbn; [done|]. rewrite andb_true_iff. by intros [? _] [= <-]. Qed.
Lemma last_byte_all f s a : all_bytes f s = true → last_byte s = Some a → f a = true.
Proof.
  induction s as [|b s IH]; cbn; [done|]. rewrite andb_true_iff. intros [Hb Hs].
  destruct s; [by intros [= <-]|by apply IH].
Qed.

Lemma length_field_ok n : 0 <= n → field_ok (length_field n).
Proof.
  intros Hn. pose proof (dec_digits n Hn) as Hd. split; try done; cbn [value length_field].
  - eapply all_bytes_impl; [|exact Hd]. intros a. pose proof (digit_line a) as H. destruct (is_ascii_digit a); [|done].
    simpl in H. rewrite !andb_true_iff in H. by destruct H as [[? _] _].
  - intros a Ha%(first_byte_all is_ascii_digit); [|done]. pose proof (digit_line a) as H. rewrite Ha in H. simpl in H.
    rewrite !andb_true_iff, !negb_true_iff in H. by destruct H as [[_ ?] _].
  - intros a Ha%(last_byte_all is_ascii_digit); [|done]. pose proof (digit_line a) as H. rewrite Ha in H. simpl in H.
    rewrite !andb_true_iff, !negb_true_iff in H. by destruct H as [[_ ?] _].
Qed.

Ltac line_byte L := let a := fresh in let H := fresh in intros a H; pose proof (L a) as ?;
  rewrite H in *; simpl in *; bool_props; bool_props; try done.

Lemma field_line_bytes f :
  field_ok f → all_bytes is_ascii (field_line f) = true ∧ has_char CR (field_line f) = false.
Proof.
  intros [Hne Hn Hb Ha Hv _ _].
  assert (Hall : all_bytes (λ a, is_ascii a && negb (Ascii.eqb CR a)) (field_line f) = true).
  { unfold field_line. rewrite !all_bytes_app, !andb_true_iff.
    split_and!; [| done | | |]; (eapply all_bytes_impl; [|eassumption]).
    - line_byte name_byte_line.
    - line_byte blank_line.
    - line_byte value_byte_line.
    - line_byte blank_line. }
  split; [eapply all_bytes_impl; [|exact Hall]|eapply all_bytes_no_char; [|exact Hall]; done].
  intros a. by rewrite andb_true_iff; intros [? _].
Qed.

Lemma parse_field_line ud cl f :
  field_ok f →
  parse_header_line ud cl (field_line f) =
    if String.eqb (to_ascii_lowercase (name f)) "transfer-encoding"
    then Err (Protocol "Transfer-Encoding responses are not supported")
    else if String.eqb (to_ascii_lowercase (name f)) "content-length" then
      reject Protocol ("malformed Content-Length value " +:+ debug_str ud (value f))
        when (is_empty (value f) || negb (all_bytes is_ascii_digit (value f)));
      parsed ← ok_or (parse_u u64_max (value f))
        (Protocol ("Content-Length value " +:+ debug_str ud (value f) +:+ " is out of range"));
      match cl with
      | Some previous => Err (Protocol ((if previous =? parsed then "duplicate" else "conflicting")
          +:+ " Content-Length headers (" +:+ dec previous +:+ " and " +:+ dec parsed +:+ ")"))
      | None => Ok (Some parsed)
      end
    else Ok cl.
Proof.
  intros [Hne Hn Hb Ha Hv Hf Hl]. unfold parse_header_line, field_line.
  assert (Hfirst : ∃ a s, name f = String a s ∧ is_blank a = false).
  { destruct (name f) as [|a s]; [done|]. exists a, s. split; [done|].
    simpl in Hn. bool_props. pose proof (name_byte_line a) as T. rewrite H in T. simpl in T. by bool_props. }
  destruct Hfirst as (a & s & E & Hblank).
  replace (is_empty _) with false by (by rewrite E). simpl.
  replace (starts_blank _) with false by (rewrite E; exact (eq_sym Hblank)). simpl.
  change (":" +:+ before f +:+ value f +:+ after f) with (String ":" (before f +:+ value f +:+ after f)).
  rewrite split_once_app by (by eapply all_bytes_no_char; [|exact Hn]). simpl.
  rewrite Hn. replace (is_empty (name f)) with false by (by rewrite E). simpl.
  rewrite trim_matches_pad by done.
  rewrite (all_bytes_impl value_byte) by (done || by line_byte value_byte_line). simpl.
  unfold eq_ignore_ascii_case. change (to_ascii_lowercase "transfer-encoding") with "transfer-encoding".
  change (to_ascii_lowercase "content-length") with "content-length".
  by destruct (String.eqb (to_ascii_lowercase (name f)) "transfer-encoding").
Qed.

Lemma parse_plain_fields ud cl fs :
  Forall plain_field fs → fold_result (parse_header_line ud) cl (field_line <$> fs) = Ok cl.
Proof.
  induction 1 as [|f fs [Hok Hn] _ IH]; [done|]. cbn [fmap list_fmap fold_result]. rewrite parse_field_line by done.
  rewrite !(proj2 (String.eqb_neq _ _)) by set_solver. done.
Qed.
Lemma parse_length_field ud n :
  0 <= n <= u64_max → parse_header_line ud None (field_line (length_field n)) = Ok (Some n).
Proof.
  intros Hn. rewrite parse_field_line by (apply length_field_ok; lia). cbn [name value length_field].
  change (String.eqb (to_ascii_lowercase "Content-Length") "transfer-encoding") with false.
  change (String.eqb (to_ascii_lowercase "Content-Length") "content-length") with true.
  rewrite (proj2 (is_empty_false _)) by (apply dec_ne; lia). rewrite dec_digits by lia. simpl.
  by rewrite parse_dec by done.
Qed.

Definition status_line (status : Z) (reason : string) : string := "HTTP/1.1 " +:+ dec status +:+ " " +:+ reason.
Lemma parse_status_line_usual ud status reason :
  100 <= status <= 599 → parse_status_line ud (status_line status reason) = Ok status.
Proof.
  intros Hs. unfold parse_status_line, status_line.
  change ("HTTP/1.1 " +:+ dec status +:+ " " +:+ reason) with ("HTTP/1.1" +:+ String " " (dec status +:+ " " +:+ reason)).
  rewrite split_once_app by done. simpl.
  change (" " +:+ reason) with (String " " reason). rewrite split_once_app by (apply dec_no_char; [done|lia]).
  rewrite dec_digits by lia. rewrite parse_dec by (unfold u16_max; lia).
  assert (len (dec status) = 3) as ->.
  { assert (Ht : forallb (λ n, len (dec (Z.of_nat n)) =? 3) (seq 100 500) = true) by (by vm_compute).
    rewrite forallb_forall in Ht. specialize (Ht (Z.to_nat status)). rewrite Z2Nat.id, Z.eqb_eq in Ht by lia.
    apply Ht, in_seq. lia. }
  simpl. by rewrite !(proj2 (Z.leb_le _ _)) by lia.
Qed.

Lemma split_crlf_join line lines :
  has_char CR line = false → Forall (λ l, has_char CR l = false) lines →
  split_crlf (join_crlf line lines) = line :: lines.
Proof.
  revert line; induction lines as [|l lines IH]; intros line Hl Hls; cbn [join_crlf]; [by apply split_crlf_single|].
  inversion_clear Hls. change (CRLF +:+ join_crlf l lines) with (String CR (String LF (join_crlf l lines))).
  by rewrite split_crlf_sep, IH by done.
Qed.
Lemma join_crlf_ascii line lines :
  all_bytes is_ascii line = true → Forall (λ l, all_bytes is_ascii l = true) lines →
  all_bytes is_ascii (join_crlf line lines) = true.
Proof.
  revert line; induction lines as [|l lines IH]; intros line Hl Hls; cbn [join_crlf]; [done|].
  inversion_clear Hls. rewrite !all_bytes_app, Hl, IH by done. done.
Qed.

(** The bytes of a head up to its terminator. *)
Definition head_bytes (status : Z) (reason : string) (fields : list Field) : list Z :=
  bytes_of (join_crlf (status_line status reason) (field_line <$> fields)).
Definition reason_ok (reason : string) : Prop := all_bytes is_ascii reason = true ∧ has_char CR reason = false.

Lemma parse_head_bytes ud status reason fields :
  100 <= status <= 599 → reason_ok reason → Forall field_ok fields →
  parse_response_head ud (head_bytes status reason fields) =
    cl ← fold_result (parse_header_line ud) None (field_line <$> fields);
    Ok {| status := status; content_length := cl |}.
Proof.
  intros Hs [Hr1 Hr2] Hf. unfold parse_response_head, head_bytes.
  assert (Hdig : all_bytes is_ascii_digit (dec status) = true) by (apply dec_digits; lia).
  assert (Hline : all_bytes is_ascii (status_line status reason) = true ∧ has_char CR (status_line status reason) = false).
  { unfold status_line. rewrite !all_bytes_app, !has_char_app, Hr1, Hr2, dec_no_char by (done || lia).
    split; [|done]. rewrite (all_bytes_impl is_ascii_digit is_ascii (dec status)); [done| |done]. line_byte digit_line. 
    unfold value_byte in *. by bool_props. }
  rewrite from_utf8_ascii.
  2:{ apply join_crlf_ascii; [apply Hline|]. apply Forall_fmap. eapply Forall_impl; [exact Hf|]. intros f. apply field_line_bytes. }
  simpl. rewrite split_crlf_join; [|apply Hline|].
  2:{ apply Forall_fmap. eapply Forall_impl; [exact Hf|]. intros f. apply field_line_bytes. }
  by rewrite parse_status_line_usual.
Qed.

(** [parse_response_head]: a head written the usual way is read back: its status, and
    the Content-Length among whatever other fields it has, blanks around values included. *)
Lemma response_head_roundtrip ud status reason fields1 fields2 n :
  100 <= status <= 599 → reason_ok reason → Forall plain_field (fields1 ++ fields2) → 0 <= n <= u64_max →
  parse_response_head ud (head_bytes status reason (fields1 ++ fields2)) = Ok {| status := status; content_length := None |} ∧
  parse_response_head ud (head_bytes status reason (fields1 ++ length_field n :: fields2)) =
    Ok {| status := status; content_length := Some n |}.
Proof.
  intros Hs Hr Hf Hn. pose proof Hf as [Hf1 Hf2]%Forall_app.
  assert (Hok : ∀ fs, Forall plain_field fs → Forall field_ok fs).
  { intros fs H. eapply Forall_impl; [exact H|]. by intros f [? _]. }
  split.
  - by rewrite parse_head_bytes, parse_plain_fields by auto.
  - rewrite parse_head_bytes by (rewrite ?Forall_app, ?Forall_cons; auto using length_field_ok with lia).
    rewrite fmap_app, fmap_cons, fold_result_app, parse_plain_fields by done. cbn [mbind result_bind fold_result].
    rewrite parse_length_field by done. cbn [mbind result_bind]. by rewrite parse_plain_fields by done.
Qed.
