(* ===== verification/VmmApi.v ===== *)
(** The VMM API client ([firestone-core/src/vmm_api.rs]): one request per connection over a
    Unix socket, under one absolute deadline.  The socket is a nonblocking stream whose every
    call may be interrupted, deliver any part of what it was asked for, or fail; the clock may
    run on by any amount in every step. *)
From S2P Require Import Prelude RustStr Errors State Utf8 HttpHead Clock Stream.
Open Scope Z_scope.

(** ** The socket *)

Inductive ConnectAnswer : Set := Connected | InProgress | TryAgain | ConnectFailed (e : IoError).
Inductive PollAnswer : Set := NotReady | PollReady | PollInterrupted | PollFailed (e : IoError).

(** The kernel's answers, by the time they are asked for. *)
Class Socket := {
  unix_addr : string → result IoError ();
  new_socket : nat → result IoError ();
  connect_ : nat → ConnectAnswer;
  pending_error : nat → result IoError (option IoError);
  socket_stream :: Stream;
  poll_ : nat → PollAnswer }.

Abbreviation World := (Timed Conn).
Abbreviation Act := (M World (Stop ClientFailure)).
Definition fail {A} (f : ClientFailure) : Act A := M_fail (Failed f).

Section client.
Context `{Schedule} `{Socket} (unicode_debug : string → string).

(** A call that answers without moving bytes. *)
Definition ask {A} (answer : nat → A) : Act A := observe (λ n, Ok (answer n)).
Definition io_or_fail {A} (phase : string) (r : result IoError A) : Act A :=
  match r with Ok a => mret a | Err source => fail (Io phase source) end.

Section deadline.
Context (deadline : Z).

Definition ensure_before_deadline (phase : string) : Act () :=
  now ← instant_now;
  if deadline <=? now then fail (Deadline phase) else mret ().

Definition wait_turn (phase : string) (_ : ()) : Act (() + ()) :=
  now ← instant_now;
  if saturating_sub deadline now =? 0 then fail (Deadline phase) else
  answer ← ask poll_;
  match answer with
  | NotReady => fail (Deadline phase)
  | PollReady => ensure_before_deadline phase;; mret (inr ())
  | PollInterrupted => mret (inl ())
  | PollFailed source => fail (Io phase source)
  end.
Definition wait_for_socket (phase : string) : Act () := until_deadline deadline (wait_turn phase) ().

Definition connect_turn (_ : ()) : Act (() + ()) :=
  ensure_before_deadline "connecting";;
  created ← ask new_socket;
  io_or_fail "create socket" created;;
  answer ← ask connect_;
  match answer with
  | Connected => mret (inr ())
  | InProgress =>
      wait_for_socket "connecting";;
      pending ← ask pending_error;
      pending ← io_or_fail "inspect connection" pending;
      match pending with
      | None => mret (inr ())
      | Some source => fail (Io "connect" source)
      end
  | TryAgain =>
      now ← instant_now;
      let remaining := saturating_sub deadline now in
      if remaining =? 0 then fail (Deadline "connecting")
      else sleep (Z.min remaining 10000000);; mret (inl ())
  | ConnectFailed source => fail (Io "connect" source)
  end.
Definition connect_socket (api_socket : string) : Act () :=
  io_or_fail "address socket" (unix_addr api_socket);;
  until_deadline deadline connect_turn ().

Definition write_turn (phase : string) (rest : list Z) : Act (list Z + ()) :=
  match rest with
  | [] => mret (inr ())
  | _ =>
      ensure_before_deadline phase;;
      r ← sock_write rest;
      match r with
      | Ok O => fail (Io phase {| io_kind := IoWriteZero; io_text := "VMM API socket wrote zero bytes" |})
      | Ok count => mret (inl (drop count rest))
      | Err source =>
          match io_kind source with
          | IoInterrupted => mret (inl rest)
          | IoWouldBlock => wait_for_socket phase;; mret (inl rest)
          | IoTimedOut => fail (Deadline phase)
          | _ => fail (Io phase source)
          end
      end
  end.
Definition write_until_deadline (bytes : list Z) (phase : string) : Act () :=
  until_deadline deadline (write_turn phase) bytes;;
  ensure_before_deadline phase.

Definition read_turn (n : Z) (phase : string) (_ : ()) : Act (() + list Z) :=
  ensure_before_deadline phase;;
  r ← sock_read n;
  match r with
  | Ok bytes => mret (inr bytes)
  | Err source =>
      match io_kind source with
      | IoInterrupted => mret (inl ())
      | IoWouldBlock => wait_for_socket phase;; mret (inl ())
      | IoTimedOut => fail (Deadline phase)
      | _ => fail (Io phase source)
      end
  end.
Definition read_until_deadline (n : Z) (phase : string) : Act (list Z) :=
  until_deadline deadline (read_turn n phase) ().

(** ** Responses *)

Record HttpResponse : Set := { bytes : list Z; body_start : nat }.
Definition body (r : HttpResponse) : list Z := drop (body_start r) (bytes r).

Definition headers_exceed : ClientFailure :=
  Protocol ("response headers exceed " +:+ dec MAX_RESPONSE_HEADER_BYTES +:+ " bytes").

(** Reads until the header terminator is among the bytes; where the body starts. *)
Definition header_turn (bytes : list Z) : Act (list Z + (list Z * nat)) :=
  match find_header_terminator bytes with
  | Some offset =>
      if MAX_RESPONSE_HEADER_BYTES <? Z.of_nat (offset + 4) then fail headers_exceed
      else mret (inr (bytes, (offset + 4)%nat))
  | None =>
      if MAX_RESPONSE_HEADER_BYTES <? length_z bytes then fail headers_exceed else
      chunk ← read_until_deadline (Z.min (MAX_RESPONSE_HEADER_BYTES + 1 - length_z bytes) IO_CHUNK_BYTES)
                "reading response headers";
      match chunk with
      | [] => fail (Protocol "response ended before the header terminator")
      | _ => mret (inl (bytes ++ chunk))
      end
  end.

(** What the head and the body bytes that came with it allow: how many body bytes to read, and
    the detail of an error body that is cut short. *)
Definition body_length (head : ParsedHead) (buffered : list Z) : result ClientFailure Z :=
  if status head =? 204 then
    reject http_response_failure unicode_debug (status head) buffered
      (Some "HTTP 204 response must not include Content-Length") when (if content_length head then true else false);
    reject http_response_failure unicode_debug (status head) buffered
      (Some "HTTP 204 response includes unexpected body bytes") when (negb (length_z buffered =? 0));
    Ok 0
  else ok_or (content_length head)
    (http_response_failure unicode_debug (status head) buffered
      (Some ("HTTP " +:+ dec (status head) +:+ " response is missing Content-Length"))).
Definition too_large (head : ParsedHead) (body_length body_limit : Z) : string :=
  "HTTP " +:+ dec (status head) +:+ " response body length " +:+ dec body_length
    +:+ " exceeds the " +:+ dec body_limit +:+ "-byte limit".
Definition plan_body (endpoint : Endpoint) (head : ParsedHead) (buffered : list Z)
    : result ClientFailure (Z * Z * option string) :=
  body_length ← body_length head buffered;
  let expected := status head =? expected_status endpoint in
  let body_limit := if expected then success_body_limit endpoint else MAX_ERROR_BODY_BYTES in
  let body_too_large := body_limit <? body_length in
  reject http_response_failure unicode_debug (status head) buffered
    (Some (too_large head body_length body_limit)) when (body_too_large && expected);
  let oversized_detail :=
    if body_too_large then Some (too_large head body_length body_limit +:+ "; body preview truncated") else None in
  reject http_response_failure unicode_debug (status head) buffered
    (Some ("HTTP " +:+ dec (status head) +:+ " response includes "
      +:+ dec (length_z buffered - body_length) +:+ " extra body bytes beyond Content-Length"))
    when (body_length <? length_z buffered);
  Ok (body_length, Z.min body_length body_limit, oversized_detail).

(** How a failed read of the body is reported. *)
Definition body_failure (head : ParsedHead) (body : list Z) (oversized_detail : option string)
    (f : ClientFailure) : ClientFailure :=
  match f with
  | Deadline phase => http_response_timeout unicode_debug (status head) body
      (combine_response_detail oversized_detail ("response body timed out while " +:+ phase))
  | Io phase source => http_response_failure unicode_debug (status head) body
      (Some (combine_response_detail oversized_detail ("cannot continue " +:+ phase +:+ ": " +:+ io_text source)))
  | f => f
  end.
Definition body_turn (head : ParsedHead) (start : nat) (body_length read_length : Z)
    (oversized_detail : option string) (bytes : list Z) : Act (list Z + list Z) :=
  let body := drop start bytes in
  if length_z body <? read_length then
    chunk ← M_map_err (map_failure (body_failure head body oversized_detail))
      (read_until_deadline (Z.min (read_length - length_z body) IO_CHUNK_BYTES) "reading response body");
    match chunk with
    | [] => fail (http_response_failure unicode_debug (status head) body
        (Some (combine_response_detail oversized_detail ("HTTP " +:+ dec (status head)
          +:+ " response body ended before Content-Length " +:+ dec body_length))))
    | _ => mret (inl (bytes ++ chunk))
    end
  else mret (inr bytes).

(** The rest of [read_response], once the head is parsed. *)
Definition read_body (endpoint : Endpoint) (head : ParsedHead) (bytes : list Z) (start : nat) : Act HttpResponse :=
  plan ← M_lift (map_err Failed (plan_body endpoint head (drop start bytes)));
  let '(body_length, read_length, oversized_detail) := plan in
  bytes ← until_deadline deadline (body_turn head start body_length read_length oversized_detail) bytes;
  let body := drop start bytes in
  M_map_err (map_failure (body_failure head body oversized_detail))
    (ensure_before_deadline "reading response body");;
  match oversized_detail with
  | Some detail => fail (http_response_failure unicode_debug (status head) body (Some detail))
  | None =>
      if negb (status head =? expected_status endpoint) then
        fail (http_response_failure unicode_debug (status head) body None)
      else mret {| bytes := bytes; body_start := start |}
  end.
Definition read_response (endpoint : Endpoint) : Act HttpResponse :=
  st ← until_deadline deadline header_turn [];
  let '(bytes, start) := st in
  head ← M_lift (map_err Failed (parse_response_head unicode_debug (take (start - 4) bytes)));
  read_body endpoint head bytes start.
End deadline.

(** ** Requests *)

Record VmmApi : Set := { api_socket : string; timeout : Z }.

Definition request_inner (api : VmmApi) (endpoint : Endpoint) (body : option (list Z)) : Act HttpResponse :=
  started ← instant_now;
  let deadline := started + timeout api in
  if instant_max <? deadline then fail DeadlineOutOfRange else
  ensure_before_deadline deadline "starting request";;
  connect_socket deadline (api_socket api);;
  header ← M_lift (map_err Failed (request_header endpoint (from_option length_z 0 body)));
  write_until_deadline deadline (bytes_of header) "writing request headers";;
  match body with
  | Some body => write_until_deadline deadline body "writing request body"
  | None => mret ()
  end;;
  read_response deadline endpoint.

Definition firestone_error (api : VmmApi) (endpoint : Endpoint) (failure : ClientFailure) : FirestoneError :=
  let request := method endpoint +:+ " " +:+ path endpoint in
  let socket := api_socket api in
  match failure with
  | Deadline phase => with_hint (error_new Timeout
      ("VMM API " +:+ request +:+ " timed out after " +:+ dec (timeout api / 1000000) +:+ " ms while "
        +:+ phase +:+ " on socket " +:+ socket))
      "check the cloud-hypervisor process and its API socket"
  | DeadlineOutOfRange => with_hint (error_new Usage
      ("VMM API " +:+ request +:+ " deadline is out of range")) "use a finite VMM API timeout"
  | Io phase source => with_source (with_hint (error_new
      (if socket_error_is_unresponsive (io_kind source) then NotRunning else Generic)
      ("cannot " +:+ phase +:+ " for VMM API " +:+ request +:+ " on socket " +:+ socket))
      "start the machine or inspect its cloud-hypervisor log") (io_text source)
  | Protocol detail => with_hint (error_new Generic
      ("invalid VMM API " +:+ request +:+ " response from socket " +:+ socket +:+ ": " +:+ detail))
      "the socket must speak the pinned Cloud Hypervisor v53.0 HTTP contract"
  | HttpResponseFailure status body_preview detail timed_out => with_hint (error_new
      (if timed_out then Timeout else Generic)
      ("VMM API " +:+ request +:+ " returned HTTP status " +:+ dec status +:+ "; body: " +:+ one QUOTE
        +:+ body_preview +:+ one QUOTE +:+ from_option (λ detail, "; " +:+ detail) "" detail))
      "inspect the cloud-hypervisor log for this machine"
  | InvalidJson label source => with_source (with_hint (error_new Generic
      ("cannot decode " +:+ label +:+ " from VMM API " +:+ request +:+ " on socket " +:+ socket))
      "the response must match the pinned Cloud Hypervisor v53.0 JSON schema") source
  | RequestBodyTooLarge => with_hint (error_new InvalidSpec
      ("VMM API " +:+ request +:+ " JSON body exceeds the " +:+ dec MAX_CREATE_BODY_BYTES
        +:+ "-byte micro-http limit")) "reduce the VMM configuration or config overlay"
  end.

(** ** The calls *)

Inductive VmState : Set := Created | Running | Shutdown | Paused | BreakPoint.
Record VmmPingResponse : Set := { build_version : string; version : string; pid : Z; features : list string }.
Record VmInfo (Json : Type) : Type := {
  config : Json; state : VmState; memory_actual_size : Z; device_tree : option Json }.
Record VmResizeRequest : Set := { desired_vcpus : option Z; desired_ram : option Z }.
Record VmSnapshotRequest : Set := { destination_url : string }.
Record VmRestoreRequest : Set := { source_url : string; prefault : bool }.

Abbreviation Call A := (M World (Stop FirestoneError) A).
(** [serde_json], for each type that is sent or received; its error is a text. *)
Context {Json : Type}.
Context (resize_to_vec : VmResizeRequest → result string (list Z))
        (snapshot_to_vec : VmSnapshotRequest → result string (list Z))
        (restore_to_vec : VmRestoreRequest → result string (list Z)).
Context (ping_from_slice : list Z → result string VmmPingResponse)
        (info_from_slice : list Z → result string (VmInfo Json))
        (counters_from_slice : list Z → result string (list (string * list (string * Z)))).

Definition decode_json {A} (from_slice : list Z → result string A) (body : list Z) (label : string) : Act A :=
  match from_slice body with Ok a => mret a | Err source => fail (InvalidJson label source) end.

Section api.
Context (api : VmmApi).

Definition reported {A} (endpoint : Endpoint) (m : Act A) : Call A :=
  M_map_err (map_failure (firestone_error api endpoint)) m.
Definition too_large_request {A} (endpoint : Endpoint) : Call A :=
  M_fail (Failed (firestone_error api endpoint RequestBodyTooLarge)).

Definition vmm_ping_inner : Act VmmPingResponse :=
  response ← request_inner api VmmPing None;
  decode_json ping_from_slice (body response) "vmm.ping JSON response".
Definition vmm_ping : Call VmmPingResponse := reported VmmPing vmm_ping_inner.

Definition vm_create (config : list Z) : Call () :=
  if MAX_CREATE_BODY_BYTES <? length_z config then too_large_request VmCreate
  else reported VmCreate (request_inner api VmCreate (Some config);; mret ()).
Definition empty_request (endpoint : Endpoint) : Call () :=
  reported endpoint (request_inner api endpoint None;; mret ()).
Definition vm_boot : Call () := empty_request VmBoot.
Definition vm_info : Call (VmInfo Json) := reported HttpHead.VmInfo
  (response ← request_inner api HttpHead.VmInfo None;
   decode_json info_from_slice (body response) "vm.info JSON response").
Definition vm_counters : Call (list (string * list (string * Z))) := reported VmCounters
  (response ← request_inner api VmCounters None;
   decode_json counters_from_slice (body response) "vm.counters JSON response").

Definition json_request {A} (to_vec : A → result string (list Z)) (endpoint : Endpoint) (request : A)
    (label : string) : Call () :=
  match to_vec request with
  | Err source => M_fail (Failed (with_source (with_hint (error_new Generic
      ("cannot encode the VMM API " +:+ label +:+ " request body"))
      "report this Firestone serialization bug") source))
  | Ok body =>
      if MAX_CREATE_BODY_BYTES <? length_z body then too_large_request endpoint
      else reported endpoint (request_inner api endpoint (Some body);; mret ())
  end.
(** [desired_vcpus] is a [u8], widened for the body. *)
Definition vm_resize (desired_vcpus desired_ram : option Z) : Call () :=
  json_request resize_to_vec VmResize
    {| desired_vcpus := desired_vcpus; desired_ram := desired_ram |} "vm.resize".
Definition vm_snapshot (destination_url : string) : Call () :=
  json_request snapshot_to_vec VmSnapshot {| destination_url := destination_url |} "vm.snapshot".
Definition vm_restore (source_url : string) (prefault : bool) : Call () :=
  json_request restore_to_vec VmRestore {| source_url := source_url; prefault := prefault |} "vm.restore".
Definition vm_pause : Call () := empty_request VmPause.
Definition vm_resume : Call () := empty_request VmResume.
Definition vm_power_button : Call () := empty_request VmPowerButton.
Definition vm_shutdown : Call () := empty_request VmShutdown.
Definition vmm_shutdown : Call () := empty_request VmmShutdown.

(** Whether a VMM answers: only a socket that is missing or refuses is a definite no. *)
Definition ambiguous (error : FirestoneError) : FirestoneError :=
  if bool_decide (kind error = NotRunning) then
    with_source (with_hint (error_new Conflict ("VMM liveness is ambiguous: " +:+ message error))
      "preserve runtime evidence and retry the liveness probe") (error_display error)
  else error.
Definition vmm_ping_for_liveness : Call bool := λ w,
  match request_inner api VmmPing None w with
  | (Ok _, w) => (Ok true, w)
  | (Err OutOfFuel, w) => (Err OutOfFuel, w)
  | (Err (Failed failure), w) =>
      if is_liveness_negative failure then (Ok false, w)
      else (Err (Failed (ambiguous (firestone_error api VmmPing failure))), w)
  end.
End api.
End client.
