(* ===== verification/VmmApiSpec.v ===== *)
(** What the VMM API client guarantees ([firestone-core/src/vmm_api.rs]), whatever the peer
    sends, however the kernel cuts reads and writes, and however time passes: a request that
    succeeds was sent once and whole and its response is what the stream says; every request
    ends; no peer makes the client read without bound; and the liveness probe says no only
    when the socket is missing or refuses. *)
From S2P Require Import Prelude RustStr Errors State Utf8 HttpHead Clock Stream VmmApi.
Open Scope Z_scope.

(** Faults of the kernel: errors that are neither retried nor timeouts. *)
Definition fatal (k : IoKind) : Prop := k ∉ [IoInterrupted; IoWouldBlock; IoTimedOut].

(** The kinds of error a read or write handles, by what it does about them. *)
Lemma kind_cases (k : IoKind) :
  k = IoInterrupted ∨ k = IoWouldBlock ∨ k = IoTimedOut ∨
  fatal k ∧ ∀ A (a b c d : A), match k with IoInterrupted => a | IoWouldBlock => b | IoTimedOut => c | _ => d end = d.
Proof. destruct k; auto; right; right; right; (split; [unfold fatal; set_solver|done]). Qed.

Section spec.
Context `{Schedule} `{Socket} (unicode_debug : string → string).
(** Every step takes time. *)
Context (Hlag : ∀ n, 0 < lag n).

Definition poll_fault (e : IoError) : Prop := ∃ n, poll_ n = PollFailed e.
Definition recv_fault (e : IoError) : Prop := ∃ n, recv n = Err e ∧ fatal (io_kind e).
(** A read or a wait fails by the deadline, or because the kernel failed. *)
Definition read_error (phase : string) (e : Stop ClientFailure) : Prop :=
  e = Failed (Deadline phase) ∨ ∃ source, e = Failed (Io phase source) ∧ (poll_fault source ∨ recv_fault source).
Definition ended {A} (r : result (Stop ClientFailure) A) : Prop := r ≠ Err OutOfFuel.

Lemma time_passes (w : World) : time w < time (pass 0 w).
Proof using Hlag. rewrite time_pass. specialize (Hlag (tick w)). lia. Qed.

Section deadline.
Context (deadline : Z).

Lemma wp_ensure phase w :
  wp (ensure_before_deadline deadline phase) (λ r w',
    sink w' = sink w ∧ time w < time w' ∧
    match r with Ok _ => time w' < deadline | Err e => e = Failed (Deadline phase) end) w.
Proof using Hlag.
  unfold ensure_before_deadline, wp. rewrite bind_now. pose proof (time_passes w).
  destruct (Z.leb_spec deadline (time (pass 0 w))); simpl; split_and!; simpl in *; try done; lia.
Qed.

Lemma wp_wait phase w :
  wp (wait_for_socket deadline phase) (λ r w',
    sink w' = sink w ∧ time w < time w' ∧
    match r with Ok _ => time w' < deadline | Err e => read_error phase e end) w.
Proof using Hlag.
  unfold wait_for_socket. apply (wp_until _ _ (λ _ w0, sink w0 = sink w ∧ time w ≤ time w0)); [|done].
  intros [] w0 [Hs Ht]. pose proof (time_passes w0) as Hp. unfold wait_turn, wp. rewrite bind_now.
  destruct (Z.eqb_spec (saturating_sub deadline (time (pass 0 w0))) 0) as [|Hr].
  - simpl in *. split_and!; [done|lia|by left].
  - unfold ask. rewrite bind_observe. pose proof (time_passes (pass 0 w0)) as Hp2.
    unfold saturating_sub in Hr. destruct (poll_ _) as [| | |source] eqn:Hpoll.
    + simpl in *. split_and!; [done|lia|by left].
    + apply wp_bind. eapply wp_mono; [apply wp_ensure|]. intros r w' (Hs' & Ht' & Hr').
      destruct r as [a|e]; [apply wp_ret|]; (split_and!; [by rewrite Hs'|lia|]); [done|by left].
    + simpl in *. split_and!; [done|lia..].
    + simpl in *. split_and!; [done|lia|]. right. exists source. split; [done|]. left. by eexists.
Qed.

Lemma wp_read n phase w :
  0 < n →
  wp (read_until_deadline deadline n phase) (λ r w',
    sent (sink w') = sent (sink w) ∧ time w < time w' ∧
    match r with
    | Ok chunk => time w < deadline ∧ incoming (sink w) = chunk ++ incoming (sink w') ∧ Z.of_nat (length chunk) ≤ n ∧
        (chunk = [] → incoming (sink w) = [])
    | Err e => incoming (sink w') = incoming (sink w) ∧ read_error phase e
    end) w.
Proof using Hlag.
  intros Hn. unfold read_until_deadline.
  apply (wp_until _ _ (λ _ w0, sink w0 = sink w ∧ time w ≤ time w0)); [|done].
  intros [] w0 [Hs Ht]. unfold read_turn. apply wp_bind. eapply wp_mono; [apply wp_ensure|].
  intros r w1 (Hs1 & Ht1 & Hr1). rewrite Hs in Hs1.
  destruct r as [[]|e]; [|by subst e; split_and!; [by rewrite Hs1|lia|by rewrite Hs1|by left]].
  apply wp_bind. pose proof (time_passes w1) as Hp1. unfold wp at 1, sock_read.
  destruct (recv (tick w1)) as [k|source] eqn:Hrecv; cbn [fst snd].
  - apply wp_ret. simpl in *. rewrite Hs1. split_and!; [done|lia|lia|by rewrite take_drop|rewrite length_take; lia|].
    destruct (incoming (sink w)); [done|]. replace (Z.to_nat n) with (S (Z.to_nat n - 1))%nat by lia. done.
  - destruct (kind_cases (io_kind source)) as [Hk|[Hk|[Hk|[Hf Hk]]]]; rewrite Hk; clear Hk.
    + apply wp_ret. simpl in *. split_and!; [done|lia..].
    + apply wp_bind. eapply wp_mono; [apply wp_wait|]. intros r w2 (Hs2 & Ht2 & Hr2). cbn [sink pass] in Hs2.
      destruct r as [[]|e].
      * apply wp_ret. simpl in *. split_and!; [by rewrite Hs2|lia..].
      * simpl in *. rewrite Hs2, Hs1. split_and!; [done|lia|done..].
    + unfold wp. simpl in *. rewrite Hs1. split_and!; [done|lia|done|by left].
    + unfold wp. simpl in *. rewrite Hs1. split_and!; [done|lia|done|]. right. exists source. split; [done|]. right. by exists (tick w1).
Qed.

(** How far a request has got onto the wire. *)
Definition wrote (w : World) (p : list Z) (w' : World) : Prop :=
  sent (sink w') = sent (sink w) ++ p ∧ incoming (sink w') = incoming (sink w) ∧ time w ≤ time w'.
Lemma wrote_nil w w' : sink w' = sink w → time w ≤ time w' → wrote w [] w'.
Proof using Type. intros E ?. unfold wrote. by rewrite E, app_nil_r. Qed.
Lemma wrote_app w p w1 q w2 : wrote w p w1 → wrote w1 q w2 → wrote w (p ++ q) w2.
Proof using Type. intros (H1 & H2 & H3) (H4 & H5 & H6). unfold wrote. rewrite H4, H1, H5, app_assoc. split_and!; [done|done|lia]. Qed.

Lemma wp_write_turn phase rest w :
  wp (write_turn deadline phase rest) (λ r w', ∃ p, wrote w p w' ∧ p `prefix_of` rest ∧
    match r with
    | Ok (inl rest') => rest = p ++ rest' ∧ time w < time w' ∧ time w < deadline
    | Ok (inr _) => p = [] ∧ rest = []
    | Err e => ∃ f, e = Failed f
    end) w.
Proof using Hlag.
  destruct rest as [|b rest]; cbn [write_turn].
  { apply wp_ret. exists []. split_and!; [by apply wrote_nil|apply prefix_nil|done..]. }
  set (r0 := b :: rest). apply wp_bind. eapply wp_mono; [apply wp_ensure|]. intros r w1 (Hs1 & Ht1 & Hr1).
  destruct r as [[]|e]; [|subst e; exists []; split_and!; [apply wrote_nil; [done|lia]|apply prefix_nil|by eexists]].
  apply wp_bind. pose proof (time_passes w1) as Hp1. unfold wp at 1, sock_write.
  assert (Hstop : ∀ f, wp (fail (A := list Z + ()) f) (λ r w', ∃ p, wrote w p w' ∧ p `prefix_of` r0 ∧
    match r with Ok (inl rest') => r0 = p ++ rest' ∧ time w < time w' ∧ time w < deadline
    | Ok (inr _) => p = [] ∧ r0 = [] | Err e => ∃ f, e = Failed f end) (pass 0 w1)).
  { intros f. exists []. split_and!; [apply wrote_nil; [done|simpl in *; lia]|apply prefix_nil|by eexists]. }
  destruct (send (tick w1)) as [k|source]; cbn [fst snd].
  - set (n := Nat.min k (length r0)). destruct n as [|n'] eqn:Hn.
    + exists []. split_and!; [|apply prefix_nil|by eexists]. apply wrote_nil; [|simpl in *; lia].
      simpl. rewrite <- Hs1, app_nil_r. by destruct (sink w1).
    + apply wp_ret. rewrite <- Hn. clear Hstop. exists (take n r0).
      assert (take n r0 `prefix_of` r0) by apply prefix_take. unfold wrote. cbn [sink sent incoming time].
      rewrite Hs1. simpl in *. split_and!; [done|done|lia|done|by rewrite take_drop|lia..].
  - destruct (kind_cases (io_kind source)) as [Hk|[Hk|[Hk|[Hf Hk]]]]; rewrite Hk; clear Hk; [| |by apply Hstop..].
    + apply wp_ret. exists []. simpl in *. split_and!; [apply wrote_nil; [done|simpl; lia]|apply prefix_nil|done|lia..].
    + apply wp_bind. eapply wp_mono; [apply wp_wait|]. intros r w2 (Hs2 & Ht2 & Hr2). cbn [sink pass] in Hs2.
      assert (wrote w [] w2) by (apply wrote_nil; [by rewrite Hs2|simpl in *; lia]).
      destruct r as [[]|e]; exists []; (split_and!; [done|apply prefix_nil|]).
      * simpl in *. split_and!; [done|lia..].
      * destruct Hr2 as [->|(? & -> & _)]; by eexists.
Qed.

Lemma wp_write bytes phase w :
  wp (write_until_deadline deadline bytes phase) (λ r w', ∃ p, wrote w p w' ∧ p `prefix_of` bytes ∧
    match r with Ok _ => p = bytes ∧ time w' < deadline | Err e => ∃ f, e = Failed f end) w.
Proof using Hlag.
  unfold write_until_deadline. apply wp_bind.
  apply (wp_until _ _ (λ rest w0, ∃ p, wrote w p w0 ∧ bytes = p ++ rest)).
  2:{ exists []. split; [by apply wrote_nil|done]. }
  intros rest w0 (p & Hp & ->). eapply wp_mono; [apply wp_write_turn|]. intros r w1 (q & Hq & Hpre & Hr).
  pose proof (wrote_app _ _ _ _ _ Hp Hq) as Hpq. destruct r as [[rest'|[]]|e].
  - destruct Hr as (-> & ? & ?). split; [|done]. exists (p ++ q). split; [done|by rewrite app_assoc].
  - destruct Hr as [-> ->]. eapply wp_mono; [apply wp_ensure|]. intros r w2 (Hs2 & Ht2 & Hr2).
    exists (p ++ []). split; [|split].
    + destruct Hpq as (? & ? & ?). unfold wrote. rewrite Hs2. split_and!; [done|done|lia].
    + done.
    + destruct r; [done|]. by eexists.
  - exists (p ++ q). split_and!; [done|by apply prefix_app|done].
Qed.

Lemma wp_io_or_fail {A} phase (r : result IoError A) (Q : result (Stop ClientFailure) A → World → Prop) w :
  (∀ a, Q (Ok a) w) → (∀ f, Q (Err (Failed f)) w) → wp (io_or_fail phase r) Q w.
Proof using Type. intros Ha Hf. destruct r as [a|source]; [exact (Ha a)|apply Hf]. Qed.

Lemma wp_connect socket w :
  wp (connect_socket deadline socket) (λ r w', wrote w [] w' ∧ match r with Ok _ => True | Err e => ∃ f, e = Failed f end) w.
Proof using Hlag.
  unfold connect_socket. apply wp_bind. apply wp_io_or_fail; [intros []|intros f; split; [by apply wrote_nil|by eexists]].
  apply (wp_until _ _ (λ _ w0, wrote w [] w0)); [|by apply wrote_nil].
  intros [] w0 Hw0. unfold connect_turn. apply wp_bind. eapply wp_mono; [apply wp_ensure|]. intros r w1 (Hs1 & Ht1 & Hr1).
  assert (Hw1 : ∀ w2, sink w2 = sink w1 → time w1 ≤ time w2 → wrote w [] w2).
  { intros w2 E ?. apply (wrote_app w [] w0 []); [done|]. apply wrote_nil; [by rewrite E|lia]. }
  destruct r as [[]|e]; [|subst e; split; [by apply Hw1|by eexists]].
  pose proof (time_passes w1) as Hp1. apply wp_bind. unfold wp at 1. cbn [fst snd ask observe].
  apply wp_bind, wp_io_or_fail; [intros []|intros f; split; [by apply Hw1; [|lia]|by eexists]].
  pose proof (time_passes (pass 0 w1)) as Hp2. apply wp_bind. unfold wp at 1. cbn [fst snd ask observe].
  destruct (connect_ _) as [| | |source].
  - apply wp_ret. split; [apply Hw1; [done|lia]|done].
  - apply wp_bind. eapply wp_mono; [apply wp_wait|]. intros r w3 (Hs3 & Ht3 & Hr3). cbn [sink pass] in Hs3.
    destruct r as [[]|e]; [|split; [apply Hw1; [done|lia]|destruct Hr3 as [->|(? & -> & _)]; by eexists]].
    pose proof (time_passes w3) as Hp3. apply wp_bind. unfold wp at 1. cbn [fst snd ask observe].
    apply wp_bind, wp_io_or_fail; [|intros f; split; [by apply Hw1; [|lia]|by eexists]].
    assert (wrote w [] (pass 0 w3)) by (apply Hw1; [done|lia]).
    intros [source|]; (split; [done|]); [by eexists|done].
  - pose proof (time_passes (pass 0 (pass 0 w1))) as Hp3. unfold wp. rewrite bind_now.
    assert (time w1 ≤ time (pass 0 (pass 0 (pass 0 w1)))) as Hp4 by lia.
    destruct (Z.eqb_spec (saturating_sub deadline (time (pass 0 (pass 0 (pass 0 w1))))) 0) as [|Hr];
      [by split; [apply Hw1; [done|exact Hp4]|eexists]|].
    unfold sleep, mbind, M_bind. cbn [fst snd mret M_ret]. set (w4 := pass 0 (pass 0 (pass 0 w1))) in *.
    assert (time w4 ≤ time (pass (Z.min (saturating_sub deadline (time w4)) 10000000) w4)) as Hsl.
    { rewrite time_pass. specialize (Hlag (tick w4)). unfold saturating_sub. lia. }
    split; [apply Hw1; [done|etransitivity; [exact Hp4|exact Hsl]]|].
    split; [eapply Z.lt_le_trans; [exact Ht1|etransitivity; [exact Hp4|exact Hsl]]|lia].
  - assert (wrote w [] (pass 0 (pass 0 w1))) by (apply Hw1; [done|lia]). by split; [|eexists].
Qed.

(** What has been read off the wire. *)
Definition consumed (w : World) (b : list Z) (w' : World) : Prop :=
  sent (sink w') = sent (sink w) ∧ incoming (sink w) = b ++ incoming (sink w') ∧ time w ≤ time w'.
Lemma consumed_nil w : consumed w [] w.
Proof using Type. unfold consumed. split_and!; [done|done|lia]. Qed.
Lemma consumed_app w b w1 c w2 : consumed w b w1 → consumed w1 c w2 → consumed w (b ++ c) w2.
Proof using Type. intros (H1 & H2 & H3) (H4 & H5 & H6). unfold consumed. rewrite H4, H1, H2, H5, app_assoc. split_and!; [done|done|lia]. Qed.

(** Why reading a response fails, apart from the response itself. *)
Definition late (f : ClientFailure) : Prop :=
  (∃ phase, f = Deadline phase) ∨ ∃ status preview detail, f = HttpResponseFailure status preview detail true.
Definition kernel_fault : Prop := ∃ source, poll_fault source ∨ recv_fault source.
Definition fails_with (P : Prop) (e : Stop ClientFailure) : Prop :=
  ∃ f, e = Failed f ∧ (late f ∨ kernel_fault ∨ P).
Lemma read_error_fails phase e P : read_error phase e → fails_with P e.
Proof using Type.
  intros [->|(source & -> & Hf)]; eexists; (split; [done|]); [left; left; by eexists|right; left; by exists source].
Qed.
Lemma body_failure_fails phase e head b detail P :
  read_error phase e → fails_with P (map_failure (body_failure unicode_debug head b detail) e).
Proof using Type.
  intros [->|(source & -> & Hf)]; eexists; (split; [done|]);
    [left; right; by repeat eexists|right; left; by exists source].
Qed.

(** A read as part of a loop: it makes progress or the stream is over. *)
Lemma wp_chunk n phase w :
  0 < n →
  wp (read_until_deadline deadline n phase) (λ r w', ∃ b, consumed w b w' ∧ Z.of_nat (length b) ≤ n ∧ time w < time w' ∧
    match r with
    | Ok chunk => time w < deadline ∧ b = chunk ∧ (chunk = [] → incoming (sink w) = [])
    | Err e => b = [] ∧ read_error phase e
    end) w.
Proof using Hlag.
  intros Hn. eapply wp_mono; [by apply wp_read|]. intros r w' (Hs & Ht & Hr). destruct r as [chunk|e].
  - destruct Hr as (Hd & Hi & Hl & He). exists chunk. unfold consumed. split_and!; [done|done|lia|done..].
  - destruct Hr as [Hi He]. exists []. unfold consumed. split_and!; [done|by rewrite Hi|lia|simpl; lia|done..].
Qed.

Definition MAX_HEAD : Z := MAX_RESPONSE_HEADER_BYTES + 1.
Lemma wp_header w :
  wp (until_deadline deadline (header_turn deadline) []) (λ r w', ∃ b, consumed w b w' ∧ length_z b ≤ MAX_HEAD ∧
    match r with
    | Ok (bytes, start) => b = bytes ∧ ∃ i, find_header_terminator bytes = Some i ∧ start = (i + 4)%nat ∧
        Z.of_nat start ≤ MAX_RESPONSE_HEADER_BYTES
    | Err e => fails_with (∀ i, find_header_terminator (incoming (sink w)) = Some i →
        MAX_RESPONSE_HEADER_BYTES < Z.of_nat (i + 4)) e
    end) w.
Proof using Hlag.
  apply (wp_until _ _ (λ bytes w0, consumed w bytes w0 ∧ length_z bytes ≤ MAX_HEAD)).
  2:{ split; [apply consumed_nil|]. unfold length_z. simpl. unfold MAX_HEAD, MAX_RESPONSE_HEADER_BYTES. lia. }
  intros bytes w0 [Hc Hl]. pose proof Hc as (Hs & Hi & Ht). unfold header_turn.
  assert (Hexceed : (∀ i, find_header_terminator (incoming (sink w)) = Some i → MAX_RESPONSE_HEADER_BYTES < Z.of_nat (i + 4)) →
    ∀ f, fails_with (∀ i, find_header_terminator (incoming (sink w)) = Some i → MAX_RESPONSE_HEADER_BYTES < Z.of_nat (i + 4)) (Failed f)).
  { intros Hall f. exists f. split; [done|]. by right; right. }
  destruct (find_header_terminator bytes) as [offset|] eqn:Hfind.
  - destruct (Z.ltb_spec MAX_RESPONSE_HEADER_BYTES (Z.of_nat (offset + 4))).
    + exists bytes. split_and!; [done..|]. apply Hexceed. intros i. rewrite Hi.
      rewrite (find_header_terminator_app _ _ _ Hfind). by intros [= <-].
    + exists bytes. split_and!; [done..|]. exists offset. split_and!; [done|done|lia].
  - assert (Hlate : MAX_RESPONSE_HEADER_BYTES < length_z bytes ∨ incoming (sink w0) = [] →
      ∀ i, find_header_terminator (incoming (sink w)) = Some i → MAX_RESPONSE_HEADER_BYTES < Z.of_nat (i + 4)).
    { intros Hor i Hf. rewrite Hi in Hf. destruct Hor as [Hlong|E]; [|by rewrite E, app_nil_r, Hfind in Hf].
      apply Z.nle_gt. intros Hle. rewrite (find_header_terminator_cut _ _ _ Hf) in Hfind; [done|].
      unfold length_z in Hlong. lia. }
    destruct (Z.ltb_spec MAX_RESPONSE_HEADER_BYTES (length_z bytes)).
    + exists bytes. split_and!; [done..|]. apply Hexceed, Hlate. by left.
    + apply wp_bind. eapply wp_mono; [apply wp_chunk; unfold IO_CHUNK_BYTES; lia|].
      intros r w1 (b & Hc1 & Hb & Ht1 & Hr). pose proof (consumed_app _ _ _ _ _ Hc Hc1) as Hcc.
      assert (length_z (bytes ++ b) ≤ MAX_HEAD) as Hl1 by (unfold length_z, MAX_HEAD in *; rewrite length_app; lia).
      destruct r as [chunk|e].
      * destruct Hr as (Hd & -> & He). destruct chunk as [|c chunk].
        -- exists (bytes ++ []). split_and!; [done..|]. apply Hexceed, Hlate. right. by apply He.
        -- by split; [|].
      * destruct Hr as [-> He]. exists (bytes ++ []). split_and!; [done..|]. by eapply read_error_fails.
Qed.

Lemma wp_body head start body_length read_length detail bytes0 w :
  (start ≤ length bytes0)%nat →
  wp (until_deadline deadline (body_turn unicode_debug deadline head start body_length read_length detail) bytes0)
    (λ r w', ∃ b, consumed w b w' ∧
      length_z (drop start (bytes0 ++ b)) ≤ Z.max (length_z (drop start bytes0)) read_length ∧
      match r with
      | Ok bytes => bytes = bytes0 ++ b ∧ read_length ≤ length_z (drop start bytes)
      | Err e => fails_with (length_z (drop start bytes0) + length_z (incoming (sink w)) < read_length) e
      end) w.
Proof using Hlag.
  intros Hstart. set (m := Z.max _ _).
  apply (wp_until _ _ (λ bytes w0, ∃ b, consumed w b w0 ∧ bytes = bytes0 ++ b ∧ length_z (drop start bytes) ≤ m)).
  2:{ exists []. rewrite app_nil_r. split_and!; [apply consumed_nil|done|lia]. }
  intros bytes w0 (b & Hc & -> & Hl). unfold body_turn.
  destruct (Z.ltb_spec (length_z (drop start (bytes0 ++ b))) read_length) as [Hlt|Hge].
  2:{ by exists b. }
  apply wp_bind, wp_map_err. eapply wp_mono; [apply wp_chunk; unfold IO_CHUNK_BYTES; lia|].
  intros r w1 (c & Hc1 & Hb & Ht1 & Hr). pose proof (consumed_app _ _ _ _ _ Hc Hc1) as Hcc.
  assert (Hdrop : ∀ x, drop start (bytes0 ++ x) = drop start bytes0 ++ x).
  { intros x. by rewrite drop_app_le. }
  assert (Hl1 : length_z (drop start (bytes0 ++ (b ++ c))) ≤ m).
  { rewrite !Hdrop in *. unfold length_z in *. rewrite !length_app in *. lia. }
  destruct r as [chunk|e]; cbn [map_err].
  - destruct Hr as (Hd & -> & He). destruct chunk as [|x chunk].
    + exists (b ++ []). split_and!; [done..|]. eexists. split; [done|]. right. right.
      destruct Hc as (_ & Hi & _). rewrite Hi, (He eq_refl). rewrite Hdrop in Hlt. unfold length_z in *.
      rewrite app_nil_r in *. rewrite length_app in Hlt. lia.
    + split; [|done]. exists (b ++ x :: chunk). by rewrite app_assoc in *.
  - destruct Hr as [-> He]. exists (b ++ []). split_and!; [done..|]. by eapply body_failure_fails.
Qed.

(** ** What a response says *)

(** The body length a head announces. *)
Definition announced (head : ParsedHead) (n : Z) : Prop :=
  if status head =? 204 then content_length head = None ∧ n = 0 else content_length head = Some n.
(** The bytes [s] are a response the endpoint may give: a head and a body of [n] bytes. *)
Definition response_of (endpoint : Endpoint) (s : list Z) (i : nat) (n : Z) : Prop :=
  find_header_terminator s = Some i ∧ Z.of_nat (i + 4) ≤ MAX_RESPONSE_HEADER_BYTES ∧
  n ≤ success_body_limit endpoint ∧ length_z (drop (i + 4) s) = n ∧
  ∃ head, parse_response_head unicode_debug (take i s) = Ok head ∧
    status head = expected_status endpoint ∧ announced head n.

Lemma plan_body_Ok endpoint head buffered bl rl detail :
  plan_body unicode_debug endpoint head buffered = Ok (bl, rl, detail) →
  (if status head =? 204 then content_length head = None ∧ bl = 0 else content_length head = Some bl) ∧
  length_z buffered ≤ bl ∧ rl ≤ Z.max (success_body_limit endpoint) MAX_ERROR_BODY_BYTES ∧
  (detail = None → status head = expected_status endpoint → rl = bl ∧ bl ≤ success_body_limit endpoint).
Proof using Type.
  unfold plan_body. intros H1. apply bind_Ok in H1 as (n & Hn & H1).
  apply reject_if_Ok in H1 as [_ [Hb [= -> <- <-]]%reject_if_Ok]. apply Z.ltb_ge in Hb.
  assert (Ha : if status head =? 204 then content_length head = None ∧ bl = 0 else content_length head = Some bl).
  { unfold body_length in Hn. destruct (status head =? 204).
    - apply reject_if_Ok in Hn as [Hc [_ [= ->]]%reject_if_Ok]. by destruct (content_length head).
    - by apply ok_or_Ok in Hn. }
  split_and!; [done|done|destruct (Z.eqb_spec (status head) (expected_status endpoint)); lia|].
  intros Hd Hs. rewrite Hs, Z.eqb_refl in *. destruct (Z.ltb_spec (success_body_limit endpoint) bl); [done|lia].
Qed.
Lemma plan_body_announced endpoint head buffered n :
  status head = expected_status endpoint → announced head n → n ≤ success_body_limit endpoint →
  length_z buffered ≤ n → plan_body unicode_debug endpoint head buffered = Ok (n, n, None).
Proof using Type.
  intros Hs Ha Hn Hb. unfold plan_body.
  assert (body_length unicode_debug head buffered = Ok n) as ->.
  { unfold announced in Ha. unfold body_length. destruct (status head =? 204).
    - destruct Ha as [-> ->]. simpl. unfold length_z in *. by replace (Z.of_nat _) with 0 by lia.
    - by rewrite Ha. }
  simpl. rewrite Hs, Z.eqb_refl. rewrite (proj2 (Z.ltb_ge _ _)) by lia. simpl.
  rewrite (proj2 (Z.ltb_ge _ _)) by lia. by rewrite Z.min_l by lia.
Qed.

Lemma wp_lift {A} (r : result ClientFailure A) (Q : result (Stop ClientFailure) A → World → Prop) w :
  match r with Ok a => Q (Ok a) w | Err f => Q (Err (Failed f)) w end → wp (M_lift (map_err Failed r)) Q w.
Proof using Type. by destruct r. Qed.

(** What [read_body] accepts: a head and a number of body bytes. *)
Definition body_fits (endpoint : Endpoint) (head : ParsedHead) (n : Z) : Prop :=
  status head = expected_status endpoint ∧ announced head n ∧ n ≤ success_body_limit endpoint.
Definition body_bound (endpoint : Endpoint) : Z := Z.max (success_body_limit endpoint) MAX_ERROR_BODY_BYTES.

Lemma wp_read_body endpoint head b start w :
  (start ≤ length b)%nat →
  wp (read_body unicode_debug deadline endpoint head b start) (λ r w', ∃ c, consumed w c w' ∧
    length_z (drop start (b ++ c)) ≤ Z.max (length_z (drop start b)) (body_bound endpoint) ∧
    match r with
    | Ok response => bytes response = b ++ c ∧ body_start response = start ∧ time w' < deadline ∧
        body_fits endpoint head (length_z (drop start (b ++ c)))
    | Err e => fails_with (¬ body_fits endpoint head (length_z (drop start b) + length_z (incoming (sink w)))) e
    end) w.
Proof using Hlag.
  intros Hstart. unfold read_body. set (total := length_z (drop start b) + length_z (incoming (sink w))).
  assert (Hplan' : body_fits endpoint head total →
    plan_body unicode_debug endpoint head (drop start b) = Ok (total, total, None)).
  { intros (? & ? & ?). apply plan_body_announced; [done..|]. unfold total, length_z. lia. }
  apply wp_bind, wp_lift. destruct (plan_body _ _ _ _) as [[[bl rl] detail]|f] eqn:Hplan.
  2:{ exists []. rewrite app_nil_r. split_and!; [apply consumed_nil|lia|]. exists f. split; [done|]. right; right. by intros ?%Hplan'. }
  apply plan_body_Ok in Hplan as (Hann & Hbuf & Hrl & Hlim).
  apply wp_bind. eapply wp_mono; [by apply wp_body|]. intros r w2 (c & Hc & Hl & Hr).
  assert (Hl' : length_z (drop start (b ++ c)) ≤ Z.max (length_z (drop start b)) (body_bound endpoint)) by (unfold body_bound; lia).
  destruct r as [bs|e].
  2:{ exists c. split_and!; [done..|]. destruct Hr as (f & -> & Hf). exists f. split; [done|].
      destruct Hf as [?|[?|Hf]]; auto. right; right. intros [= ]%Hplan'. lia. }
  destruct Hr as [-> Hfull]. apply wp_bind, wp_map_err. eapply wp_mono; [apply wp_ensure|].
  intros r w3 (Hs3 & Ht3 & Hr3).
  assert (Hc3 : consumed w c w3).
  { destruct Hc as (? & ? & ?). unfold consumed. rewrite Hs3. split_and!; [done|done|lia]. }
  destruct r as [[]|e]; cbn [map_err].
  2:{ exists c. split_and!; [done..|]. eapply body_failure_fails. by left. }
  destruct detail as [detail|].
  { exists c. split_and!; [done..|]. eexists. split; [done|]. right; right. by intros [= ]%Hplan'. }
  destruct (Z.eqb_spec (status head) (expected_status endpoint)) as [Hst|Hst]; cbn [negb].
  2:{ exists c. split_and!; [done..|]. eexists. split; [done|]. right; right. by intros [? _]. }
  destruct (Hlim eq_refl Hst) as [-> Hbl]. apply wp_ret. exists c. split_and!; [done..|].
  assert (length_z (drop start (b ++ c)) = bl) as -> by lia. done.
Qed.

(** Reading a response: what is taken off the wire is bounded; what is returned is a
    response of the endpoint; and a stream that is one fails only by the clock or the kernel. *)
Lemma wp_read_response endpoint w :
  wp (read_response unicode_debug deadline endpoint) (λ r w', ∃ b, consumed w b w' ∧
    length_z b ≤ MAX_HEAD + body_bound endpoint ∧
    match r with
    | Ok response => b = bytes response ∧ time w' < deadline ∧ ∃ i n, body_start response = (i + 4)%nat ∧
        response_of endpoint (bytes response) i n
    | Err e => fails_with (∀ i n, ¬ response_of endpoint (incoming (sink w)) i n) e
    end) w.
Proof using Hlag.
  assert (H0max : 0 ≤ body_bound endpoint) by (unfold body_bound, MAX_ERROR_BODY_BYTES; lia).
  unfold read_response. apply wp_bind. eapply wp_mono; [apply wp_header|].
  intros r w1 (b & Hc & Hb & Hr). destruct r as [[bs start]|e].
  2:{ exists b. split_and!; [done|lia|]. destruct Hr as (f & -> & Hf). exists f. split; [done|].
      destruct Hf as [?|[?|Hf]]; auto. right; right. intros i n (Hi & Hle & _). specialize (Hf i Hi). lia. }
  destruct Hr as (<- & i & Hi & -> & Hle). pose proof Hc as (_ & Hin & _).
  replace (i + 4 - 4)%nat with i by lia.
  pose proof Hi as (p & x & Hbp & Hpl)%find_header_terminator_Some.
  assert (Hib : (i + 4 ≤ length b)%nat) by (rewrite Hbp, !length_app; simpl; lia).
  assert (Hwf : ∀ j n, response_of endpoint (incoming (sink w)) j n → ∃ head,
    parse_response_head unicode_debug (take i b) = Ok head ∧
    body_fits endpoint head (length_z (drop (i + 4) b) + length_z (incoming (sink w1)))).
  { intros j n (Hj & _ & ? & Hlen & head & Hp & ? & ?). rewrite Hin in *. rewrite (find_header_terminator_app _ _ _ Hi) in Hj.
    injection Hj as <-. rewrite take_app_le in Hp by lia. rewrite drop_app_le in Hlen by lia.
    exists head. split; [done|]. unfold length_z in *. rewrite length_app, Nat2Z.inj_add in Hlen. by rewrite Hlen. }
  apply wp_bind, wp_lift. destruct (parse_response_head unicode_debug (take i b)) as [head|f] eqn:Hhead.
  2:{ exists b. split_and!; [done|lia|]. exists f. split; [done|]. right; right. intros j n Hj.
      by destruct (Hwf j n Hj) as (? & ? & _). }
  eapply wp_mono; [by apply wp_read_body|]. intros r w2 (c & Hc2 & Hl2 & Hr2).
  exists (b ++ c). split; [by eapply consumed_app|]. split.
  { rewrite drop_app_le in Hl2 by lia. unfold length_z, MAX_HEAD in *. rewrite length_app in *. rewrite length_drop in *. lia. }
  destruct r as [response|e].
  - destruct Hr2 as (Hbs & Hst & Ht & Hst' & Hann & Hlim). split; [done|]. split; [done|].
    exists i, (length_z (drop (i + 4) (b ++ c))). split; [done|]. rewrite Hbs.
    split_and!; [by apply find_header_terminator_app|done..|]. exists head. by rewrite take_app_le by lia.
  - destruct Hr2 as (f & -> & Hf). exists f. split; [done|]. destruct Hf as [?|[?|Hf]]; auto. right; right.
    intros j n Hj. destruct (Hwf j n Hj) as (head' & [= <-] & Hfit). done.
Qed.
End deadline.

(** ** Requests *)

Definition request_bytes (header : string) (payload : option (list Z)) : list Z :=
  bytes_of header ++ default [] payload.

Lemma wp_request api endpoint payload header w :
  request_header endpoint (from_option length_z 0 payload) = Ok header →
  wp (request_inner unicode_debug api endpoint payload) (λ r w', ∃ p b,
    sent (sink w') = sent (sink w) ++ p ∧ p `prefix_of` request_bytes header payload ∧
    incoming (sink w) = b ++ incoming (sink w') ∧ length_z b ≤ MAX_HEAD + body_bound endpoint ∧
    time w ≤ time w' ∧
    match r with
    | Ok response => p = request_bytes header payload ∧ b = bytes response ∧
        time w' < time (pass 0 w) + timeout api ∧
        ∃ i n, body_start response = (i + 4)%nat ∧ response_of endpoint (bytes response) i n
    | Err e => ∃ f, e = Failed f
    end) w.
Proof using Hlag.
  intros Hheader. set (Q := λ r w', _). unfold request_inner, wp. rewrite bind_now. fold (wp (W := World) (E := Stop ClientFailure) (A := HttpResponse)).
  set (w1 := pass 0 w). set (deadline := time w1 + timeout api).
  assert (Hstop : ∀ p w' e, wrote w1 p w' → p `prefix_of` request_bytes header payload → (∃ f, e = Failed f) → Q (Err e) w').
  { intros p w' e (Hs & Hi & Ht) Hp He. exists p, [].
    split_and!; [done|done|by rewrite Hi| |etrans; [apply time_pass_ge|exact Ht]|done].
    unfold length_z, MAX_HEAD, MAX_RESPONSE_HEADER_BYTES, body_bound, MAX_ERROR_BODY_BYTES. simpl. lia. }
  assert (Hnil : wrote w1 [] w1) by (by apply wrote_nil).
  change (wp (if instant_max <? deadline then fail DeadlineOutOfRange else
    ensure_before_deadline deadline "starting request";;
    connect_socket deadline (api_socket api);;
    header ← M_lift (map_err Failed (request_header endpoint (from_option length_z 0 payload)));
    write_until_deadline deadline (bytes_of header) "writing request headers";;
    match payload with
    | Some payload => write_until_deadline deadline payload "writing request body"
    | None => mret ()
    end;;
    read_response unicode_debug deadline endpoint) Q w1).
  destruct (instant_max <? deadline); [eapply Hstop; [done|apply prefix_nil|by eexists]|].
  apply wp_bind. eapply wp_mono; [apply wp_ensure|]. intros r w2 (Hs2 & Ht2 & Hr2).
  assert (Hw2 : wrote w1 [] w2) by (apply wrote_nil; [done|lia]).
  destruct r as [[]|e]; [|subst e; eapply Hstop; [done|apply prefix_nil|by eexists]].
  apply wp_bind. eapply wp_mono; [apply wp_connect|]. intros r w3 [Hw3 Hr3].
  pose proof (wrote_app _ _ _ _ _ Hw2 Hw3) as Hw13.
  destruct r as [[]|e]; [|eapply Hstop; [done|apply prefix_nil|done]].
  rewrite Hheader. apply wp_bind, wp_ret, wp_bind. eapply wp_mono; [apply wp_write|].
  intros r w4 (p & Hw4 & Hp & Hr4). pose proof (wrote_app _ _ _ _ _ Hw13 Hw4) as Hw14.
  destruct r as [[]|e]; [|by eapply Hstop; [done|apply prefix_app_r|]]. destruct Hr4 as [-> Ht4].
  assert (Hbody : ∀ w5 q, wrote w4 q w5 → q `prefix_of` default [] payload →
    wrote w1 (bytes_of header ++ q) w5 ∧ (bytes_of header ++ q) `prefix_of` request_bytes header payload).
  { intros w5 q Hq Hpre. split; [by apply (wrote_app w1 (bytes_of header) w4)|by apply prefix_app]. }
  assert (Hread : ∀ w5, wrote w1 (request_bytes header payload) w5 → wp (read_response unicode_debug deadline endpoint) Q w5).
  { intros w5 (Hs5 & Hi5 & Ht5). eapply wp_mono; [apply wp_read_response|]. intros r w6 (b & (Hs6 & Hi6 & Ht6) & Hb & Hr).
    exists (request_bytes header payload), b. rewrite Hs6, Hs5.
    split_and!; [done|done|by rewrite <- Hi6, Hi5|done|pose proof (time_pass_ge w : time w ≤ time w1); lia|].
    destruct r as [response|e]; [|by destruct Hr as (f & -> & _); eexists]. destruct Hr as (-> & ? & ?). done. }
  apply wp_bind. destruct payload as [payload|].
  - eapply wp_mono; [apply wp_write|]. intros r w5 (q & Hw5 & Hq & Hr5). destruct (Hbody w5 q Hw5 Hq) as [Hw15 Hpre].
    destruct r as [[]|e]; [|by eapply Hstop]. destruct Hr5 as [-> _]. by apply Hread.
  - apply wp_ret, Hread. unfold request_bytes. simpl. by rewrite app_nil_r.
Qed.
End spec.

(** ** Responses written the usual way *)

Definition TERMINATOR : list Z := [13; 10; 13; 10].

Lemma find_line x rest :
  13 ∉ x → find_header_terminator (x ++ rest) = Nat.add (length x) <$> find_header_terminator rest.
Proof.
  induction x as [|b x IH]; intros Hx.
  - simpl. by destruct (find_header_terminator rest).
  - apply not_elem_of_cons in Hx as [Hb Hx]. cbn [app find_header_terminator].
    rewrite bool_decide_false by (cbn [take]; congruence). rewrite IH by done. by destruct (find_header_terminator rest).
Qed.
Lemma find_cons a l :
  find_header_terminator (a :: l) =
    if bool_decide (take 4 (a :: l) = [13; 10; 13; 10]) then Some O else S <$> find_header_terminator l.
Proof. done. Qed.
Lemma find_crlf b rest :
  b ≠ 13 → find_header_terminator (13 :: 10 :: b :: rest) = (λ i, 2 + i)%nat <$> find_header_terminator (b :: rest).
Proof.
  intros Hb. rewrite (find_cons 13), (find_cons 10), !bool_decide_false by (cbn [take]; congruence).
  by destruct (find_header_terminator (b :: rest)).
Qed.
Lemma bytes_no_cr s : has_char CR s = false → 13 ∉ bytes_of s.
Proof.
  induction s as [|a s IH]; cbn [bytes_of]; [intros _; apply not_elem_of_nil|]. intros [Ha Hs]%has_char_cons.
  apply not_elem_of_cons. split; [|by apply IH]. intros E. apply Ha, code_inj. by rewrite <- E.
Qed.
Lemma find_join line lines payload :
  has_char CR line = false → Forall (λ l, l ≠ "" ∧ has_char CR l = false) lines →
  find_header_terminator (bytes_of (join_crlf line lines) ++ TERMINATOR ++ payload) =
    Some (length (bytes_of (join_crlf line lines))).
Proof.
  revert line; induction lines as [|l lines IH]; intros line Hl Hls; cbn [join_crlf].
  - rewrite find_line by (by apply bytes_no_cr). simpl. by rewrite Nat.add_0_r.
  - inversion_clear Hls as [|? ? [Hne Hcr] Hrest]. rewrite !bytes_of_app, <- !app_assoc.
    rewrite find_line by (by apply bytes_no_cr).
    assert (∃ b rest, bytes_of (join_crlf l lines) = b :: rest ∧ b ≠ 13) as (b & rest & E & Hb).
    { destruct l as [|a l]; [done|]. assert (Ha : RustStr.code a ≠ 13).
      { apply has_char_cons in Hcr as [Ha _]. intros E. by apply Ha, code_inj. }
      destruct lines; cbn [join_crlf]; rewrite ?app_cons; cbn [bytes_of]; by eexists _, _. }
    pose proof (IH l Hcr Hrest) as IHl. rewrite E in *. change (bytes_of CRLF) with [13; 10]. cbn [app] in *.
    rewrite find_crlf, IHl by done. cbn [fmap option_fmap option_map length]. rewrite !length_app. simpl. f_equal; lia.
Qed.

(** The bytes a peer answers an endpoint with: a status line, fields, the length of the
    payload unless there is none to announce, and the payload. *)
Definition usual_fields (endpoint : Endpoint) (fields1 fields2 : list Field) (payload : list Z) : list Field :=
  if expected_status endpoint =? 204 then fields1 ++ fields2
  else fields1 ++ length_field (length_z payload) :: fields2.
Definition usual_head (endpoint : Endpoint) (reason : string) (fields1 fields2 : list Field) (payload : list Z) : list Z :=
  head_bytes (expected_status endpoint) reason (usual_fields endpoint fields1 fields2 payload).

Record usual_ok (endpoint : Endpoint) (reason : string) (fields1 fields2 : list Field) (payload : list Z) : Prop := {
  usual_reason : reason_ok reason;
  usual_plain : Forall plain_field (fields1 ++ fields2);
  usual_payload : length_z payload ≤ success_body_limit endpoint;
  usual_empty : expected_status endpoint = 204 → payload = [];
  usual_size : length_z (usual_head endpoint reason fields1 fields2 payload) + 4 ≤ MAX_RESPONSE_HEADER_BYTES }.

Lemma expected_status_range endpoint : 100 ≤ expected_status endpoint ≤ 599.
Proof. destruct endpoint; simpl; lia. Qed.
Lemma success_body_limit_u64 endpoint : success_body_limit endpoint ≤ u64_max.
Proof. by destruct endpoint. Qed.

Lemma usual_response ud endpoint reason fields1 fields2 payload :
  usual_ok endpoint reason fields1 fields2 payload →
  response_of ud endpoint (usual_head endpoint reason fields1 fields2 payload ++ TERMINATOR ++ payload)
    (length (usual_head endpoint reason fields1 fields2 payload)) (length_z payload).
Proof.
  intros [Hr Hp Hl He Hs]. pose proof (expected_status_range endpoint) as Hst.
  pose proof (success_body_limit_u64 endpoint) as Hlim.
  assert (Hn : 0 ≤ length_z payload ≤ u64_max) by (unfold length_z in *; lia).
  assert (Hf : Forall field_ok (usual_fields endpoint fields1 fields2 payload)).
  { assert (Forall field_ok (fields1 ++ fields2)) as [? ?]%Forall_app.
    { eapply Forall_impl; [exact Hp|]. by intros f [? _]. }
    unfold usual_fields. destruct (_ =? _); apply Forall_app; split; try done. constructor; [|done].
    apply length_field_ok; lia. }
  unfold response_of. split_and!.
  - unfold usual_head, head_bytes. apply find_join.
    + destruct Hr as [_ Hr]. unfold status_line. rewrite !has_char_app, Hr, dec_no_char by (done || lia). done.
    + apply Forall_fmap. eapply Forall_impl; [exact Hf|]. intros f Hok. split; [|by apply field_line_bytes].
      destruct Hok as [Hne _ _ _ _ _ _]. unfold field_line. destruct (name f); done.
  - unfold length_z in Hs. lia.
  - done.
  - rewrite drop_app_add. done.
  - exists {| status := expected_status endpoint; content_length := if expected_status endpoint =? 204 then None else Some (length_z payload) |}.
    rewrite take_app_length. destruct (response_head_roundtrip ud (expected_status endpoint) reason fields1 fields2 (length_z payload))
      as [H1 H2]; [done..|]. unfold announced, usual_head, usual_fields. cbn [status content_length].
    destruct (Z.eqb_spec (expected_status endpoint) 204) as [E|E]; split_and!; try done.
    by rewrite (He E).
Qed.

Lemma response_of_unique ud endpoint s s' i j n m :
  response_of ud endpoint s i n → response_of ud endpoint (s ++ s') j m → i = j ∧ n = m.
Proof.
  intros (Hi & _ & _ & Hn & head & Hh & _ & Ha) (Hj & _ & _ & Hm & head' & Hh' & _ & Ha').
  pose proof Hi as (p & x & Hs & Hp)%find_header_terminator_Some.
  rewrite (find_header_terminator_app _ _ _ Hi) in Hj. injection Hj as <-. split; [done|].
  assert (i ≤ length s)%nat by (rewrite Hs, length_app; lia).
  rewrite take_app_le in Hh' by lia. assert (head' = head) as -> by congruence.
  unfold announced in *. destruct (status head =? 204); [|congruence]. by destruct Ha as [_ ->], Ha' as [_ ->].
Qed.

(** ** Properties *)

(** vmm_api.rs, [read_response]: a response written the usual way is read in full, whatever
    other header fields it has and however the stream is cut by short reads, interruptions and
    waits: the body that is returned is the payload and nothing is left over.  Only the
    deadline can prevent it. *)
Theorem response_read_in_full `{Schedule} `{Socket} ud deadline endpoint reason fields1 fields2 payload w r w' :
  (∀ n, 0 < lag n) → ¬ kernel_fault → usual_ok endpoint reason fields1 fields2 payload →
  incoming (sink w) = usual_head endpoint reason fields1 fields2 payload ++ TERMINATOR ++ payload →
  read_response ud deadline endpoint w = (r, w') →
  match r with
  | Ok response => body response = payload ∧ incoming (sink w') = [] ∧ time w' < deadline
  | Err e => ∃ f, e = Failed f ∧ late f
  end.
Proof.
  intros Hlag Hk Hu Hin Hrun. pose proof (usual_response ud _ _ _ _ _ Hu) as Hresp.
  pose proof (wp_run _ _ _ _ _ Hrun (wp_read_response ud Hlag deadline endpoint w)) as (b & (_ & Hi & _) & _ & Hr).
  rewrite Hin in *. destruct r as [response|e].
  - destruct Hr as (-> & Ht & i & n & Hst & Hof). rewrite Hi in Hresp.
    destruct (response_of_unique _ _ _ _ _ _ _ _ Hof Hresp) as [-> ->].
    destruct Hof as (Hf & _ & _ & Hn & _). apply find_header_terminator_Some in Hf as (p & x & Hp & Hpl).
    assert (Hnil : incoming (sink w') = []).
    { apply nil_length_inv. pose proof (f_equal length Hi) as Hl. unfold length_z in Hn. rewrite length_drop, Hp in Hn.
      rewrite Hp in Hl. rewrite !length_app in *. simpl in *. lia. }
    split_and!; [|done|done]. rewrite Hnil, app_nil_r in Hi. unfold body. by rewrite Hst, <- Hi, drop_app_add.
  - destruct Hr as (f & -> & [Hf|[?|Hf]]); [by exists f|done|]. by apply Hf in Hresp.
Qed.

(** C33: vmm_api.rs, [request_inner]: whatever the peer and the kernel do, one request is one
    message: what reaches the wire is a prefix of the request's head and body, and all of
    it exactly once when a response is returned.  That response is, byte for byte, what the
    peer sent first, it ended before the deadline, and it is one the endpoint may give: its
    head parses, has the endpoint's status, and announces the body that is there, which is
    within the endpoint's limit. *)
Theorem request_sent_once `{Schedule} `{Socket} ud api endpoint payload header w r w' :
  (∀ n, 0 < lag n) → request_header endpoint (from_option length_z 0 payload) = Ok header →
  request_inner ud api endpoint payload w = (r, w') →
  ∃ p, sent (sink w') = sent (sink w) ++ p ∧ p `prefix_of` request_bytes header payload ∧
  match r with
  | Ok response => p = request_bytes header payload ∧
      incoming (sink w) = bytes response ++ incoming (sink w') ∧
      time w' < time (pass 0 w) + timeout api ∧
      ∃ i n, body_start response = (i + 4)%nat ∧ response_of ud endpoint (bytes response) i n
  | Err _ => True
  end.
Proof.
  intros Hlag Hheader Hrun.
  destruct (wp_run _ _ _ _ _ Hrun (wp_request ud Hlag api endpoint payload header w Hheader)) as (p & b & Hs & Hp & Hi & _ & _ & Hr).
  exists p. split_and!; [done|done|]. destruct r as [response|e]; [|done]. by destruct Hr as (-> & -> & ? & ?).
Qed.

(** vmm_api.rs, hardening: a request to any endpoint ends, whatever the peer sends and
    however the kernel answers, if only every step takes time; and it takes no more off the
    wire than the header limit, one byte, and the larger of the endpoint's body limit and
    the error body limit. *)
Theorem request_ends_bounded `{Schedule} `{Socket} ud api endpoint payload header w :
  (∀ n, 0 < lag n) → request_header endpoint (from_option length_z 0 payload) = Ok header →
  ∃ r w' b, request_inner ud api endpoint payload w = (r, w') ∧ r ≠ Err OutOfFuel ∧
    incoming (sink w) = b ++ incoming (sink w') ∧
    length_z b ≤ MAX_RESPONSE_HEADER_BYTES + 1 + Z.max (success_body_limit endpoint) MAX_ERROR_BODY_BYTES.
Proof.
  intros Hlag Hheader. destruct (request_inner ud api endpoint payload w) as [r w'] eqn:Hrun.
  destruct (wp_run _ _ _ _ _ Hrun (wp_request ud Hlag api endpoint payload header w Hheader)) as (p & b & _ & _ & Hi & Hb & _ & Hr).
  exists r, w', b. split_and!; [done| |done|done]. destruct r as [|e]; [done|]. by destruct Hr as (f & ->).
Qed.

(** The probe as [observe_liveness] uses it: what the client answers from the world [w].
    Running out of turns, which does not happen, is given an arbitrary error. *)
Definition VmmApiLivenessProbe `{Schedule} `{Socket} ud (timeout : Z) (w : World) : VmmPingProbe := {|
  ping s := match (vmm_ping_for_liveness ud {| api_socket := s; timeout := timeout |} w).1 with
    | Ok alive => Ok alive
    | Err (Failed e) => Err e
    | Err OutOfFuel => Err (error_new Generic "")
    end |}.

(** The socket gives a definite no: it is missing, or nothing listens on it. *)
Definition definite_no `{Schedule} `{Socket} ud (timeout : Z) (w : World) (socket : string) : Prop :=
  ∃ phase source w', request_inner ud {| api_socket := socket; timeout := timeout |} VmmPing None w =
    (Err (Failed (Io phase source)), w') ∧ io_kind source ∈ [IoNotFound; IoConnectionRefused].

Lemma probe_cases `{Schedule} `{Socket} ud timeout w socket :
  (∀ n, 0 < lag n) →
  match ping (VmmPingProbe := VmmApiLivenessProbe ud timeout w) socket with
  | Ok true => ∃ response w', request_inner ud {| api_socket := socket; timeout := timeout |} VmmPing None w = (Ok response, w')
  | Ok false => definite_no ud timeout w socket
  | Err e => kind e ≠ NotRunning
  end.
Proof.
  intros Hlag. cbn [ping VmmApiLivenessProbe]. unfold vmm_ping_for_liveness. set (api := {| api_socket := socket; timeout := timeout |}).
  destruct (request_inner ud api VmmPing None w) as [r w'] eqn:Hrun.
  pose proof (wp_run _ _ _ _ _ Hrun (wp_request ud Hlag api VmmPing None _ w eq_refl)) as (p & b & _ & _ & _ & _ & _ & Hr).
  destruct r as [response|[f|]]; cbn [fst]; [by eexists _, _| |by destruct Hr as (? & [=])].
  destruct (is_liveness_negative f) eqn:Hf; cbn [fst].
  - destruct f as [| |phase source| | | |]; try done. exists phase, source, w'. split; [done|].
    unfold is_liveness_negative in Hf. rewrite orb_true_iff, !bool_decide_eq_true in Hf. set_solver.
  - unfold ambiguous. by case_bool_decide.
Qed.

Lemma shim_error_kind read_proc proc_root pid name e : verify_shim_identity read_proc proc_root pid name = Err e → kind e ≠ NotRunning.
Proof. unfold verify_shim_identity. by repeat case_match; intros [= <-]. Qed.

(** C34: vmm_api.rs with state.rs: a running machine is not buried on weak evidence.  An observation made
    with the API client while the runtime directory is there reports a VMM that answers only when a whole
    valid response arrived, and one that does not answer only when the machine's socket was missing or
    refused the connection; so only then does [reconcile] rewrite the state file.  A VMM that is slow,
    that answers garbage or that hangs up makes the observation an error, and no error of an observation
    is the error "not running". *)
Theorem reconcile_needs_definite_no `{Schedule} `{Socket} ud timeout w read_proc try_exists name s runtime_dir socket proc_root :
  (∀ n, 0 < lag n) →
  match observe_liveness (H := VmmApiLivenessProbe ud timeout w) read_proc try_exists name s runtime_dir socket proc_root with
  | Ok o => runtime_dir_exists o = true →
      (State.vmm_ping o = true → ∃ response w', request_inner ud {| api_socket := socket; timeout := timeout |} VmmPing None w = (Ok response, w')) ∧
      (State.vmm_ping o = false → definite_no ud timeout w socket) ∧
      (is_Some (rewrite (reconcile (State.status s) o)) → definite_no ud timeout w socket)
  | Err e => kind e ≠ NotRunning
  end.
Proof.
  intros Hlag. pose proof (probe_cases ud timeout w socket Hlag) as Hp. unfold observe_liveness.
  destruct (try_exists runtime_dir) as [rt|e]; cbn [map_err mbind result_bind]; [|done].
  destruct (match shim_pid s with Some _ => _ | None => _ end) as [shim|e] eqn:Hshim; cbn [mbind result_bind].
  2: { destruct (shim_pid s); [by eapply shim_error_kind|done]. }
  destruct rt; [|by cbn]. destruct (ping socket) as [[]|e]; cbn [mbind result_bind State.vmm_ping runtime_dir_exists]; [| |done].
  - intros _. split; [done|]. split; [done|]. unfold reconcile. cbn. by intros [].
  - intros _. by split_and!.
Qed.

(** ** A concrete peer *)

(** A socket that is interrupted, not ready and willing in turn, a few bytes at a time. *)
Definition demo_socket : Socket := {|
  unix_addr _ := Ok ();
  new_socket _ := Ok ();
  connect_ _ := InProgress;
  pending_error _ := Ok None;
  socket_stream := {| send n := match Nat.modulo n 4 with
    | 0 => Err {| io_kind := IoInterrupted; io_text := "interrupted" |}
    | 1 => Err {| io_kind := IoWouldBlock; io_text := "would block" |}
    | _ => Ok 40 end%nat;
  recv n := match Nat.modulo n 3 with
    | 0 => Err {| io_kind := IoWouldBlock; io_text := "would block" |}
    | _ => Ok 30 end%nat |};
  poll_ n := match Nat.modulo n 3 with 0%nat => PollInterrupted | _ => PollReady end |}.
Definition keep (s : string) : string := s.
Lemma demo_lag_nonneg (n : nat) : 0 ≤ 1.
Proof. lia. Qed.
Definition demo_schedule : Schedule := {| lag _ := 1; lag_nonneg := demo_lag_nonneg |}.
Definition demo_fields : list Field := [{| name := "Server"; before := " "; value := "Cloud Hypervisor API"; after := " " |}].
Definition demo_stream : list Z := usual_head VmmPing "OK" demo_fields [] [123; 125] ++ TERMINATOR ++ [123; 125].
Definition demo_world : World := {| time := 0; tick := 0; sink := {| sent := []; incoming := demo_stream |} |}.
Definition demo_api : VmmApi := {| api_socket := "/run/vmm.sock"; timeout := 5000 |}.

Lemma demo_no_fault : ¬ kernel_fault (H0 := demo_socket).
Proof.
  assert (∀ n, poll_ (Socket := demo_socket) n = PollReady ∨ poll_ (Socket := demo_socket) n = PollInterrupted) as Hpoll
    by (intros n; cbn [poll_ demo_socket]; destruct (Nat.modulo n 3); auto).
  intros (e & [[n Hn]|(n & Hn & Hf)]); [destruct (Hpoll n); congruence|].
  revert Hn. cbn [recv demo_socket socket_stream]. destruct (Nat.modulo n 3) as [|?]; [|done]. intros [= <-]. apply Hf. set_solver.
Qed.
Lemma demo_usual_ok : usual_ok VmmPing "OK" demo_fields [] [123; 125].
Proof.
  split; [done| |by vm_compute|done|by vm_compute]. constructor; [|constructor]. split; [|by vm_compute; set_solver].
  split; try done; intros a [= <-]; done.
Qed.

Lemma response_read_in_full_witness :
  ∃ response w', read_response (H := demo_schedule) (H0 := demo_socket) keep 5000 VmmPing demo_world = (Ok response, w') ∧
    body response = [123; 125] ∧ incoming (sink w') = [].
Proof.
  destruct (read_response (H := demo_schedule) (H0 := demo_socket) keep 5000 VmmPing demo_world) as [r w'] eqn:Hrun.
  assert (∃ response, r = Ok response) as [response ->].
  { change r with (r, w').1. rewrite <- Hrun. eexists. vm_compute. reflexivity. }
  exists response, w'. split; [done|].
  destruct (response_read_in_full (H := demo_schedule) (H0 := demo_socket) keep 5000 VmmPing "OK" demo_fields [] [123; 125] demo_world (Ok response) w')
    as (Hb & Hi & _); [intros n; exact Z.lt_0_1|exact demo_no_fault|exact demo_usual_ok|reflexivity|exact Hrun|].
  split; [exact Hb|exact Hi].
Defined.

Definition demo_header : string := from_option (λ h, h) "" (res_ok (request_header VmmPing 0)).
Lemma request_sent_once_witness :
  ∃ response w', request_inner (H := demo_schedule) (H0 := demo_socket) keep demo_api VmmPing None demo_world = (Ok response, w') ∧
    sent (sink w') = bytes_of demo_header.
Proof.
  destruct (request_inner (H := demo_schedule) (H0 := demo_socket) keep demo_api VmmPing None demo_world) as [r w'] eqn:Hrun.
  assert (∃ response, r = Ok response) as [response ->].
  { change r with (r, w').1. rewrite <- Hrun. eexists. vm_compute. reflexivity. }
  exists response, w'. split; [done|].
  destruct (request_sent_once (H := demo_schedule) (H0 := demo_socket) keep demo_api VmmPing None demo_header demo_world (Ok response) w')
    as (p & Hs & _ & -> & _); [done|done|exact Hrun|]. rewrite Hs. exact (app_nil_r (bytes_of demo_header)).
Defined.
Lemma request_ends_bounded_witness :
  ∃ r w' b, request_inner (H := demo_schedule) (H0 := demo_socket) keep demo_api VmmPing None demo_world = (r, w') ∧
    r ≠ Err OutOfFuel ∧ demo_stream = b ++ incoming (sink w') ∧
    length_z b ≤ MAX_RESPONSE_HEADER_BYTES + 1 + Z.max (success_body_limit VmmPing) MAX_ERROR_BODY_BYTES.
Proof. by apply (request_ends_bounded (H := demo_schedule) (H0 := demo_socket) keep demo_api VmmPing None demo_header demo_world). Defined.

(** The same socket, on which nothing listens. *)
Definition demo_refused : Socket := {|
  unix_addr _ := Ok (); new_socket _ := Ok ();
  connect_ _ := ConnectFailed {| io_kind := IoConnectionRefused; io_text := "connection refused" |};
  pending_error _ := Ok None; socket_stream := {| send _ := Ok 1%nat; recv _ := Ok 1%nat |}; poll_ _ := PollReady |}.
Lemma reconcile_needs_definite_no_witness :
  definite_no (H := demo_schedule) (H0 := demo_refused) keep 1000000 demo_world "/run/vmm.sock".
Proof.
  pose proof (reconcile_needs_definite_no (H := demo_schedule) (H0 := demo_refused) keep 1000000 demo_world
    (λ _, Err {| io_kind := IoNotFound; io_text := "not found" |}) (λ _, Ok true) "dev" demo_state "/run/dev" "/run/vmm.sock" "/proc"
    (λ _, eq_refl)) as Ho.
  assert (observe_liveness (H := VmmApiLivenessProbe (H := demo_schedule) (H0 := demo_refused) keep 1000000 demo_world)
    (λ _, Err {| io_kind := IoNotFound; io_text := "not found" |}) (λ _, Ok true) "dev" demo_state "/run/dev" "/run/vmm.sock" "/proc"
    = Ok {| State.vmm_ping := false; shim_verified := false; runtime_dir_exists := true |}) as E by (vm_compute; reflexivity).
  rewrite E in Ho. destruct (Ho eq_refl) as (_ & Hno & _). by apply Hno.
Defined.
