(* ===== verification/Process.v ===== *)
(** Child processes ([firestone-core/src/cmd.rs], [ManagedProcess]) and the process tree below
    the shim ([firestone-core/src/shim.rs]): which children there are, how they are told apart
    from later users of their pids, how they are signalled and reaped.  The kernel's answers are
    parameters, by the time they are asked for; every signal sent and every child reaped is
    recorded. *)
From S2P Require Import Prelude RustStr RustPath Errors Clock.
Open Scope Z_scope.

(** ** What the kernel is asked *)

(** [enum ProcessSignal]. *)
Inductive ProcessSignal : Set := Hangup | Interrupt | Quit | Terminate | Kill | WindowChange.
#[export] Instance ProcessSignal_eq_dec : EqDecision ProcessSignal.
Proof. solve_decision. Defined.

(** [std::process::ExitStatus]: the raw wait status, with [WEXITSTATUS] and [WTERMSIG]. *)
Definition ExitStatus : Set := Z.
Definition exit_code (s : ExitStatus) : option Z :=
  if Z.land s 127 =? 0 then Some (Z.land (Z.shiftr s 8) 255) else None.
Definition exit_signal (s : ExitStatus) : option Z :=
  let low := Z.land s 127 in
  if (low =? 0) || (low =? 127) then None else Some low.
(** What [wait] reports of a child that ended (neither stopped nor continued). *)
Definition ended_status (s : ExitStatus) : Prop := Z.land s 127 ≠ 127.

Inductive KillAnswer : Set := Signalled | NoSuchProcess | KillFailed (e : IoError).
(** [waitid] without reaping: how the child ended, if it changed state. *)
Inductive ChildState : Set := ChildExited | ChildKilled | ChildDumped | ChildOther.
Inductive PidfdAnswer : Set := PidfdOpen (fd : nat) | PidfdGone | PidfdFailed (e : IoError).
Inductive WaitAnswer : Set := StillAlive | NoChild | ChildReaped | WaitFailed (e : IoError).

Class Kernel := {
  waitid_ : nat → Z → result IoError (option ChildState);
  wait_ : nat → Z → result IoError ExitStatus;
  kill_ : nat → Z → ProcessSignal → KillAnswer;
  killpg_ : nat → Z → ProcessSignal → KillAnswer;
  getpgid_ : nat → Z → result IoError Z;
  pidfd_open : nat → Z → PidfdAnswer;
  pidfd_send_signal : nat → nat → ProcessSignal → KillAnswer;
  waitpid : nat → Z → WaitAnswer;
  (** [fs::read_to_string], [fs::metadata] (the owner) and [fs::read_dir] (the paths of the
      entries that could be read) under [/proc]. *)
  read_to_string : nat → string → result IoError string;
  metadata_uid : nat → string → result IoError Z;
  read_dir : nat → string → result IoError (list (option string));
  (** The shim's own pid and owner. *)
  own_pid : Z;
  own_uid : Z }.

(** What was done to processes, in order. *)
Inductive Effect : Set :=
  | GroupSignalled (group : Z) (signal : ProcessSignal)
  | ProcessSignalled (pid : Z) (signal : ProcessSignal)
  | PidfdSignalled (fd : nat) (signal : ProcessSignal)
  | LeaderReaped (pid : Z) (status : ExitStatus)
  | AdoptedReaped (pid : Z).

Definition i32_max : Z := 2147483647.
Definition generic (m : string) : FirestoneError := error_new Generic m.
Definition io_caused (e : FirestoneError) (source : IoError) : FirestoneError := with_source e (io_text source).

(** [std::process::Child]: its pid, and its status once it was reaped. *)
Record Child : Set := { child_id : Z; child_status : option ExitStatus }.
Record ManagedProcess : Set := { child : Child; process_group : option Z; reaped : bool }.
Definition managed_id (p : ManagedProcess) : Z := child_id (child p).

(** ** Standard library *)

(** [str::split_whitespace]: every turn takes at least one byte, so the length is enough fuel. *)
Fixpoint words_fuel (n : nat) (cur : string) (s : string) : list string :=
  let flush := if is_empty cur then [] else [cur] in
  match n, s with
  | O, _ | _, EmptyString => flush
  | Datatypes.S n, String a rest =>
      match strip_any whitespace s with
      | Some rest => flush ++ words_fuel n EmptyString rest
      | None => words_fuel n (cur +:+ one a) rest
      end
  end.
Definition split_whitespace (s : string) : list string := words_fuel (Datatypes.S (String.length s)) EmptyString s.
(** What is before and after the last occurrence of a text ([rfind]). *)
Fixpoint rsplit_once_str (p s : string) : option (string * string) :=
  match s with
  | EmptyString => if is_empty p then Some (EmptyString, EmptyString) else None
  | String a rest =>
      match rsplit_once_str p rest with
      | Some (before, after) => Some (String a before, after)
      | None => pair EmptyString <$> strip_prefix p s
      end
  end.
(** The text of [ParseIntError] for a text that is not an unsigned integer up to [max]. *)
Fixpoint digits_error (max acc : Z) (s : string) : string :=
  match s with
  | EmptyString => EmptyString
  | String a s =>
      match digit_value 10 a with
      | None => "invalid digit found in string"
      | Some v =>
          if max <? acc * 10 + v then "number too large to fit in target type"
          else digits_error max (acc * 10 + v) s
      end
  end.
Definition parse_int_error (max : Z) (s : string) : string :=
  if is_empty s then "cannot parse integer from empty string" else
  match strip_prefix "+" s with
  | Some rest => if is_empty rest then "invalid digit found in string" else digits_error max 0 rest
  | None => digits_error max 0 s
  end.
(** [Vec::dedup]: of equal neighbours the first stays. *)
Fixpoint dedup (l : list Z) : list Z :=
  match l with
  | [] => []
  | x :: l => x :: match dedup l with
                   | y :: l' => if x =? y then l' else y :: l'
                   | [] => []
                   end
  end.
(** [instant.checked_add(duration)]. *)
Definition instant_checked_add (now duration : Z) : option Z :=
  if now + duration <=? instant_max then Some (now + duration) else None.

Definition LOOP_INTERVAL : Z := 20000000.

(** What identifies a descendant, and the pidfd opened before it was inspected. *)
Record DescendantIdentity : Set := { d_pid : Z; d_uid : Z; start_time_ticks : Z; pidfd : nat }.
(** [BTreeMap<u32, Option<u64>>] and [BTreeMap<u32, DescendantIdentity>]. *)
Abbreviation PreservedProcessRoots := (gmap Z (option Z)).
Abbreviation Descendants := (gmap Z DescendantIdentity).
(** [map.values()]: in the order of the pids. *)
Definition values (m : Descendants) : list DescendantIdentity :=
  omap (λ pid, m !! pid) (merge_sort Z.le (elements (dom m))).

Definition preserved (roots : PreservedProcessRoots) (pid start : Z) : bool :=
  match roots !! pid with
  | Some (Some expected_start) => expected_start =? start
  | Some None => true
  | None => false
  end.

(** The processes still to be looked into, with their start times, and those found. *)
Record Walk : Set := { pending : list (Z * Z); found : Descendants }.

(** A world that records what is done to processes. *)
Class Recorder (S : Type) := { record : Effect → S → S }.

Section process.
Context `{Schedule} `{Kernel} {S : Type} `{Recorder S}.
Local Abbreviation World := (Timed S).
Local Abbreviation Act := (M World (Stop FirestoneError)).

Definition fail {A} (e : FirestoneError) : Act A := M_fail (Failed e).
Definition lift {A} (r : result FirestoneError A) : Act A := M_lift (map_err Failed r).
Definition ask {A} (answer : nat → A) : Act A := observe (λ n, Ok (answer n)).
Definition note (e : Effect) : Act () := λ w,
  (Ok (), {| time := time w; tick := tick w; sink := record e (sink w) |}).
(** [match r { Err(e) => ..., Ok(()) => Ok(()) }]: goes on with the error as a value. *)
Definition try_ {A} (m : Act A) : Act (result FirestoneError A) := λ w,
  match m w with
  | (Ok a, w) => (Ok (Ok a), w)
  | (Err (Failed e), w) => (Ok (Err e), w)
  | (Err OutOfFuel, w) => (Err OutOfFuel, w)
  end.

(** ** cmd.rs *)

(** [pid_t]: the pid a [u32] stands for. *)
Definition process_pid (pid : Z) : result FirestoneError Z :=
  if pid <=? i32_max then Ok pid else Err (generic ("process id " +:+ dec pid +:+ " does not fit pid_t")).

Definition confirm_session (p : ManagedProcess) : Act ManagedProcess :=
  pid ← lift (process_pid (managed_id p));
  actual ← ask (λ n, getpgid_ n pid);
  match actual with
  | Err source => fail (io_caused (generic ("cannot inspect process group for pid " +:+ dec (managed_id p))) source)
  | Ok actual =>
      if negb (actual =? pid) then
        fail (generic ("process " +:+ dec (managed_id p) +:+ " did not create its required session and process group"))
      else mret {| child := child p; process_group := Some (managed_id p); reaped := reaped p |}
  end.

Definition observe_exit (p : ManagedProcess) : Act bool :=
  if reaped p then mret true else
  if i32_max <? managed_id p then fail (generic ("process id " +:+ dec (managed_id p) +:+ " does not fit pid_t")) else
  if managed_id p =? 0 then fail (generic "child process id cannot be zero") else
  status ← ask (λ n, waitid_ n (managed_id p));
  match status with
  | Err source => fail (io_caused (generic ("cannot observe child process " +:+ dec (managed_id p))) source)
  | Ok (Some ChildExited) | Ok (Some ChildKilled) | Ok (Some ChildDumped) => mret true
  | Ok (Some ChildOther) | Ok None => mret false
  end.

(** [Child::wait]: a child already reaped answers from memory. *)
Definition child_wait (c : Child) : Act (result IoError (ExitStatus * Child)) :=
  match child_status c with
  | Some status => mret (Ok (status, c))
  | None =>
      answer ← ask (λ n, wait_ n (child_id c));
      match answer with
      | Err e => mret (Err e)
      | Ok status =>
          note (LeaderReaped (child_id c) status);;
          mret (Ok (status, {| child_id := child_id c; child_status := Some status |}))
      end
  end.
Definition wait (p : ManagedProcess) : Act (ExitStatus * ManagedProcess) :=
  r ← child_wait (child p);
  match r with
  | Err source => fail (io_caused (generic ("cannot reap child process " +:+ dec (managed_id p))) source)
  | Ok (status, c) => mret (status, {| child := c; process_group := process_group p; reaped := true |})
  end.

Definition signal_process (p : ManagedProcess) (signal : ProcessSignal) : Act () :=
  if reaped p then fail (error_new Conflict ("refusing to signal already-reaped pid " +:+ dec (managed_id p))) else
  pid ← lift (process_pid (managed_id p));
  answer ← ask (λ n, kill_ n pid signal);
  note (ProcessSignalled pid signal);;
  match answer with
  | Signalled | NoSuchProcess => mret ()
  | KillFailed source => fail (io_caused (generic ("cannot signal child process " +:+ dec (managed_id p))) source)
  end.
Definition signal_group (p : ManagedProcess) (signal : ProcessSignal) : Act () :=
  if reaped p then
    fail (error_new Conflict ("refusing to signal group of already-reaped pid " +:+ dec (managed_id p)))
  else
  group ← lift (ok_or (process_group p) (generic ("process " +:+ dec (managed_id p) +:+ " has no verified process group")));
  group ← lift (process_pid group);
  answer ← ask (λ n, killpg_ n group signal);
  note (GroupSignalled group signal);;
  match answer with
  | Signalled | NoSuchProcess => mret ()
  | KillFailed source => fail (io_caused (generic ("cannot signal process group " +:+ dec group)) source)
  end.

(** ** shim.rs: /proc *)

Definition reused_pid_error (pid : Z) : FirestoneError :=
  with_hint (error_new Conflict ("recorded VMM pid " +:+ dec pid +:+ " no longer has its verified process identity"))
    "refusing to signal a possibly reused pid".
Definition filesystem_error (kind : ErrorKind) (message : string) (source : IoError) : FirestoneError :=
  io_caused (with_hint (error_new kind message) "check the Firestone-owned path and retry") source.
Definition proc_path (pid : Z) : string := path_join "/proc" (dec pid).
Definition stat_path (pid : Z) : string := path_join (proc_path pid) "stat".

(** The parent and the start time a stat line gives. *)
Definition stat_parent_and_start (pid : Z) (stat : string) : result FirestoneError (Z * Z) :=
  p ← ok_or (rsplit_once_str ") " stat)
    (error_new Conflict ("process stat " +:+ stat_path pid +:+ " is malformed"));
  let fields := split_whitespace p.2 in
  field ← ok_or (fields !! 1%nat) (reused_pid_error pid);
  parent ← ok_or (parse_u u32_max field) (with_source (reused_pid_error pid) (parse_int_error u32_max field));
  field ← ok_or (fields !! 19%nat) (reused_pid_error pid);
  start ← ok_or (parse_u u64_max field) (with_source (reused_pid_error pid) (parse_int_error u64_max field));
  Ok (parent, start).
Definition process_parent_and_start (pid : Z) : Act (option (Z * Z)) :=
  stat ← ask (λ n, read_to_string n (stat_path pid));
  match stat with
  | Err source =>
      if bool_decide (io_kind source = IoNotFound) then mret None
      else fail (filesystem_error Conflict ("cannot read process identity from " +:+ stat_path pid) source)
  | Ok stat => identity ← lift (stat_parent_and_start pid stat); mret (Some identity)
  end.

Definition stat_start (pid : Z) (stat : string) : result FirestoneError Z :=
  p ← ok_or (rsplit_once ")" stat) (generic ("process stat " +:+ stat_path pid +:+ " has no command terminator"));
  start ← ok_or (split_whitespace p.2 !! 19%nat) (generic ("process stat " +:+ stat_path pid +:+ " has no start time"));
  ok_or (parse_u u64_max start)
    (with_source (generic ("process stat " +:+ stat_path pid +:+ " has invalid start time")) (parse_int_error u64_max start)).
Definition process_start_time (pid : Z) : Act (option Z) :=
  stat ← ask (λ n, read_to_string n (stat_path pid));
  match stat with
  | Err source => fail (filesystem_error Generic ("cannot read process start time from " +:+ stat_path pid) source)
  | Ok stat => start ← lift (stat_start pid stat); mret (Some start)
  end.

(** The pids in a [children] file. *)
Definition parse_children (path : string) (text : string) : result FirestoneError (list Z) :=
  fold_result (λ children value,
    pid ← ok_or (parse_u u32_max value)
      (with_source (error_new Conflict ("invalid child pid in " +:+ path)) (parse_int_error u32_max value));
    Ok (children ++ [pid])) [] (split_whitespace text).
Definition thread_children (children : list Z) (thread : option string) : Act (list Z) :=
  match thread with
  | None => mret children
  | Some thread =>
      let path := path_join thread "children" in
      text ← ask (λ n, read_to_string n path);
      match text with
      | Err source =>
          if bool_decide (io_kind source = IoNotFound) then mret children
          else fail (filesystem_error Conflict ("cannot enumerate children from " +:+ path) source)
      | Ok text => pids ← lift (parse_children path text); mret (children ++ pids)
      end
  end.
Definition linux_child_pids (parent : Z) : Act (list Z) :=
  let task_dir := path_join (proc_path parent) "task" in
  threads ← ask (λ n, read_dir n task_dir);
  match threads with
  | Err source =>
      if bool_decide (io_kind source = IoNotFound) then mret []
      else fail (filesystem_error Conflict ("cannot enumerate threads from " +:+ task_dir) source)
  | Ok threads => children ← fold_act thread_children [] threads; mret (dedup (merge_sort Z.le children))
  end.

(** ** shim.rs: descendants *)

Section walk.
Context (root_pid : Z) (preserved_roots : PreservedProcessRoots).

(** A child that has the identity it seemed to have when its pidfd was opened. *)
Definition inspect_child (parent pid : Z) (fd : nat) (walk : Walk) : Act Walk :=
  identity ← process_parent_and_start pid;
  match identity with
  | None => mret walk
  | Some (actual_parent, start) =>
      if preserved preserved_roots pid start then mret walk else
      if negb (actual_parent =? parent) && negb (actual_parent =? own_pid) then mret walk else
      owner ← ask (λ n, metadata_uid n (proc_path pid));
      match owner with
      | Err source =>
          if bool_decide (io_kind source = IoNotFound) then mret walk
          else fail (filesystem_error Conflict ("cannot inspect descendant pid " +:+ dec pid) source)
      | Ok uid =>
          if negb (uid =? own_uid) then mret walk else
          again ← process_parent_and_start pid;
          if bool_decide (again = Some (actual_parent, start)) then
            mret {| pending := (pid, start) :: pending walk;
                    found := <[pid := {| d_pid := pid; d_uid := uid; start_time_ticks := start; pidfd := fd |}]> (found walk) |}
          else mret walk
      end
  end.
Definition visit_child (parent : Z) (walk : Walk) (pid : Z) : Act Walk :=
  if (pid =? root_pid) || (pid =? own_pid) || bool_decide (is_Some (found walk !! pid)) then mret walk else
  if i32_max <? pid then
    fail (error_new Conflict ("descendant pid " +:+ dec pid +:+ " does not fit pid_t"))
  else if pid =? 0 then mret walk else
  opened ← ask (λ n, pidfd_open n pid);
  match opened with
  | PidfdGone => mret walk
  | PidfdFailed source =>
      fail (io_caused (error_new Conflict ("cannot open pidfd for descendant pid " +:+ dec pid)) source)
  | PidfdOpen fd => inspect_child parent pid fd walk
  end.
Definition walk_turn (walk : Walk) : Act (Walk + Descendants) :=
  match pending walk with
  | [] => mret (inr (found walk))
  | (parent, parent_start) :: pending =>
      let walk := {| pending := pending; found := found walk |} in
      current ← process_parent_and_start parent;
      if bool_decide (snd <$> current = Some parent_start) then
        children ← linux_child_pids parent;
        walk ← fold_act (visit_child parent) walk children;
        mret (inl walk)
      else mret (inl walk)
  end.
(** Every turn takes a process off the stack, and a pid is put on it once: twice the number of
    pids is enough turns. *)
Definition snapshot_owned_descendants_preserving : Act Descendants :=
  shim ← process_parent_and_start own_pid;
  match shim with
  | None => fail (error_new Conflict "cannot identify shim process start time")
  | Some (_, shim_start) =>
      let pending := [(own_pid, shim_start)] in
      pending ← (if negb (root_pid =? 0) && negb (root_pid =? own_pid) then
          root ← process_parent_and_start root_pid;
          match root with
          | Some (_, root_start) => mret ((root_pid, root_start) :: pending)
          | None => mret pending
          end
        else mret pending);
      bounded_loop (2 ^ 33) walk_turn {| pending := pending; found := ∅ |}
  end.
End walk.

Definition signal_descendant (signal : ProcessSignal) (_ : ()) (identity : DescendantIdentity) : Act () :=
  let changed := error_new Conflict ("descendant pid " +:+ dec (d_pid identity) +:+ " changed identity") in
  owner ← ask (λ n, metadata_uid n (proc_path (d_pid identity)));
  match owner with
  | Ok uid =>
      if negb (uid =? d_uid identity) then fail changed else
      start ← process_start_time (d_pid identity);
      if bool_decide (start = Some (start_time_ticks identity)) then mret () else fail changed
  | Err _ => mret ()
  end;;
  answer ← ask (λ n, pidfd_send_signal n (pidfd identity) signal);
  note (PidfdSignalled (pidfd identity) signal);;
  match answer with
  | Signalled | NoSuchProcess => mret ()
  | KillFailed source => fail (io_caused (generic ("cannot signal descendant pid " +:+ dec (d_pid identity))) source)
  end.
Definition signal_descendants (descendants : Descendants) (signal : ProcessSignal) : Act () :=
  fold_act (signal_descendant signal) () (values descendants).

Definition reap_descendant (reaped_any : bool) (descendant : DescendantIdentity) : Act bool :=
  let pid := d_pid descendant in
  if i32_max <? pid then
    fail (error_new Conflict ("descendant pid " +:+ dec pid +:+ " does not fit pid_t"))
  else
  answer ← ask (λ n, waitpid n pid);
  match answer with
  | StillAlive | NoChild => mret reaped_any
  | ChildReaped => note (AdoptedReaped pid);; mret true
  | WaitFailed source => fail (io_caused (generic ("cannot reap adopted VMM descendant " +:+ dec pid)) source)
  end.

Definition drain_turn (deadline : Z) (preserved_roots : PreservedProcessRoots) (_ : ()) : Act (() + ()) :=
  descendants ← snapshot_owned_descendants_preserving 0 preserved_roots;
  if bool_decide (descendants = ∅) then mret (inr ()) else
  signal_descendants descendants Kill;;
  reaped_any ← fold_act reap_descendant false (values descendants);
  now ← instant_now;
  if deadline <=? now then
    fail (with_hint (error_new Timeout "VMM descendants did not terminate before the drain deadline")
      "runtime recovery evidence was preserved")
  else
  (if (reaped_any : bool) then mret () else
   now ← instant_now; sleep (Z.min LOOP_INTERVAL (saturating_sub deadline now)));;
  mret (inl ()).
Definition drain_adopted_children_preserving (timeout : Z) (preserved_roots : PreservedProcessRoots) : Act () :=
  now ← instant_now;
  match instant_checked_add now timeout with
  | None => fail (error_new Usage "child drain deadline is out of range")
  | Some deadline => until_deadline deadline (drain_turn deadline preserved_roots) ()
  end.
End process.
