(* ===== verification/Owner.v ===== *)
(** The shim's ownership of its children ([firestone-core/src/shim.rs]): [OwnedVmm] and
    [OwnedSidecar], which signal, reap and drain them.  What the shim does is recorded in the
    order it does it. *)
From S2P Require Import Prelude RustStr RustPath Errors Atomic State Clock Process.
Open Scope Z_scope.

Definition CHILD_TERM_GRACE : Z := 5000000000.
Definition OWNER_ARMED : Z := 1.
Definition OWNER_REAPED : Z := 2.

(** ** What the shim keeps of its children *)

Record ProcessRecord : Set := {
  pid : Z;
  record_group : Z;
  executable : string;
  executable_dev : Z;
  executable_ino : Z;
  argv_hex : list string;
  launch_artifact : option string;
  launch_argv_hex : option (list string);
  launch_binding : option string;
  launch_sha256 : option string;
  uid : Z;
  record_start_time : option Z }.
#[export] Instance ProcessRecord_eq_dec : EqDecision ProcessRecord.
Proof. solve_decision. Defined.
Record ProcessIdentity : Set := {
  identity_version : Z;
  shim : ProcessRecord;
  vmm : option ProcessRecord;
  sidecars : gmap string ProcessRecord }.

Definition preserved_process_roots (records : list ProcessRecord) : PreservedProcessRoots :=
  foldl (λ roots record, <[pid record := record_start_time record]> roots) ∅ records.

(** [console] holds the console broker until it is shut down. *)
Record OwnedVmm : Set := {
  process : option ManagedProcess;
  vmm_record : ProcessRecord;
  reaped_status : option ExitStatus;
  preserved_children : PreservedProcessRoots;
  console : bool }.

Inductive RuntimeArtifactKind : Set := Socket | Regular.
Record RuntimeArtifact : Set := {
  artifact_path : string; artifact_uid : Z; artifact_mode : Z; artifact_kind : RuntimeArtifactKind }.
Record OwnedSidecar : Set := {
  sidecar_name : string;
  sidecar_process : option ManagedProcess;
  sidecar_record : ProcessRecord;
  sidecar_status : option ExitStatus;
  artifacts : list RuntimeArtifact }.

(** The record a process has before it was inspected. *)
Definition spawn_record (process : ManagedProcess) (executable : string) (owner : Z) : ProcessRecord := {|
  pid := managed_id process;
  record_group := from_option (λ g, g) (managed_id process) (process_group process);
  executable := executable; executable_dev := 0; executable_ino := 0; argv_hex := [];
  launch_artifact := Some executable; launch_argv_hex := None; launch_binding := None;
  launch_sha256 := None; uid := owner; record_start_time := None |}.

(** ** The shim while it supervises a VMM it started *)

(** What a client that asked for an operation is sent, in order. *)
Inductive Reply (Json : Type) : Type :=
  | EventReply (e : Event Json) | TerminalOk | TerminalError (i : ErrorInfo).
Arguments EventReply {Json}. Arguments TerminalOk {Json}. Arguments TerminalError {Json}.

Record Supervisor (Json : Type) : Type := {
  effects : list Effect;
  owned : OwnedVmm;
  owned_sidecars : list OwnedSidecar;
  machine : MachineState;
  identity : ProcessIdentity;
  (** [OWNER_EVIDENCE_PID] and [OWNER_EVIDENCE_STATE]. *)
  evidence : Z * Z;
  files : Atomic.World;
  shim_log : list string;
  replies : list (Reply Json) }.
Arguments effects {Json}. Arguments owned {Json}. Arguments owned_sidecars {Json}.
Arguments machine {Json}. Arguments identity {Json}. Arguments evidence {Json}.
Arguments files {Json}. Arguments shim_log {Json}. Arguments replies {Json}.

Section set.
Context {Json : Type} (s : Supervisor Json).
Definition set_effects v : Supervisor Json := {| effects := v; owned := owned s; owned_sidecars := owned_sidecars s; machine := machine s;
  identity := identity s; evidence := evidence s; files := files s; shim_log := shim_log s; replies := replies s |}.
Definition set_owned v : Supervisor Json := {| effects := effects s; owned := v; owned_sidecars := owned_sidecars s; machine := machine s;
  identity := identity s; evidence := evidence s; files := files s; shim_log := shim_log s; replies := replies s |}.
Definition set_sidecars v : Supervisor Json := {| effects := effects s; owned := owned s; owned_sidecars := v; machine := machine s;
  identity := identity s; evidence := evidence s; files := files s; shim_log := shim_log s; replies := replies s |}.
Definition set_machine v : Supervisor Json := {| effects := effects s; owned := owned s; owned_sidecars := owned_sidecars s; machine := v;
  identity := identity s; evidence := evidence s; files := files s; shim_log := shim_log s; replies := replies s |}.
Definition set_identity v : Supervisor Json := {| effects := effects s; owned := owned s; owned_sidecars := owned_sidecars s; machine := machine s;
  identity := v; evidence := evidence s; files := files s; shim_log := shim_log s; replies := replies s |}.
Definition set_evidence v : Supervisor Json := {| effects := effects s; owned := owned s; owned_sidecars := owned_sidecars s; machine := machine s;
  identity := identity s; evidence := v; files := files s; shim_log := shim_log s; replies := replies s |}.
Definition set_files v : Supervisor Json := {| effects := effects s; owned := owned s; owned_sidecars := owned_sidecars s; machine := machine s;
  identity := identity s; evidence := evidence s; files := v; shim_log := shim_log s; replies := replies s |}.
Definition set_log v : Supervisor Json := {| effects := effects s; owned := owned s; owned_sidecars := owned_sidecars s; machine := machine s;
  identity := identity s; evidence := evidence s; files := files s; shim_log := v; replies := replies s |}.
Definition set_replies v : Supervisor Json := {| effects := effects s; owned := owned s; owned_sidecars := owned_sidecars s; machine := machine s;
  identity := identity s; evidence := evidence s; files := files s; shim_log := shim_log s; replies := v |}.
End set.

#[export] Instance supervisor_recorder Json : Recorder (Supervisor Json) := {|
  record e s := set_effects s (effects s ++ [e]) |}.

Section owner.
Context `{Schedule} `{Kernel} {Json : Type}.
(** The console broker's threads: how their shutdown ends. *)
Context (console_shutdown : nat → result FirestoneError ()).
Local Abbreviation World := (Timed (Supervisor Json)).
Local Abbreviation Act := (M World (Stop FirestoneError)).

(** Reads and updates the supervisor's own state. *)
Definition get {A} (f : Supervisor Json → A) : Act A := λ w, (Ok (f (sink w)), w).
Definition modify (f : Supervisor Json → Supervisor Json) : Act () := λ w,
  (Ok (), {| time := time w; tick := tick w; sink := f (sink w) |}).
Definition write_shim_log (message : string) : Act () := modify (λ s, set_log s (shim_log s ++ [message])).

(** [deadline.min(overall)] of a phase that begins now. *)
Definition phase_deadline (grace overall_deadline : Z) : Act Z :=
  now ← instant_now;
  mret (from_option (λ deadline, Z.min deadline overall_deadline) overall_deadline (instant_checked_add now grace)).

(** [while Instant::now() < deadline && !process.observe_exit()? { sleep }]. *)
Definition wait_turn (observe : Act bool) (capped : bool) (deadline : Z) (_ : ()) : Act (() + ()) :=
  now ← instant_now;
  if deadline <=? now then mret (inr ()) else
  exited ← observe;
  if (exited : bool) then mret (inr ()) else
  (if capped then now ← instant_now; sleep (Z.min LOOP_INTERVAL (saturating_sub deadline now))
   else sleep LOOP_INTERVAL);;
  mret (inl ()).
Definition wait_exit (observe : Act bool) (capped : bool) (deadline : Z) : Act () :=
  until_deadline deadline (wait_turn observe capped deadline) ().

(** ** The VMM *)

Definition from_spawn (p : ManagedProcess) (executable : string) (preserved : PreservedProcessRoots)
    : OwnedVmm := {|
  process := Some p; vmm_record := spawn_record p executable own_uid; reaped_status := None;
  preserved_children := preserved; console := false |}.
(** What [from_spawn] leaves in the statics. *)
Definition armed (p : ManagedProcess) : Z * Z := (managed_id p, OWNER_ARMED).
Definition bind_record (r : ProcessRecord) : Act () := modify (λ s, set_owned s {|
  process := process (owned s); vmm_record := r; reaped_status := reaped_status (owned s);
  preserved_children := preserved_children (owned s); console := console (owned s) |}).
Definition attach_console : Act () := modify (λ s, set_owned s {|
  process := process (owned s); vmm_record := vmm_record (owned s); reaped_status := reaped_status (owned s);
  preserved_children := preserved_children (owned s); console := true |}).
Definition vmm_id (v : OwnedVmm) : Z := from_option managed_id (pid (vmm_record v)) (process v).
Definition is_fully_reaped (v : OwnedVmm) : bool :=
  bool_decide (process v = None) && bool_decide (is_Some (reaped_status v)).

Definition vmm_observe_exit : Act bool :=
  v ← get owned;
  match reaped_status v, process v with
  | Some _, _ => mret true
  | None, None => fail (error_new NotRunning "VMM child was reaped")
  | None, Some p => observe_exit p
  end.

Definition signal_cleanup_group (p : ManagedProcess) (signal : ProcessSignal) : Act () := signal_group p signal.

Definition kind_text (e : FirestoneError) : string := ErrorKind_as_str (kind e).
Definition snapshot_or_empty (v : OwnedVmm) : Act Descendants :=
  r ← try_ (snapshot_owned_descendants_preserving (pid (vmm_record v)) (preserved_children v));
  match r with
  | Ok descendants => mret descendants
  | Err error =>
      write_shim_log ("cannot snapshot all VMM descendants (" +:+ kind_text error +:+ "); group cleanup continues");;
      mret ∅
  end.
(** [if let Err(error) = m { write_shim_log(...) }]. *)
Definition log_failure (before after : string) (m : Act ()) : Act () :=
  r ← try_ m;
  match r with
  | Ok _ => mret ()
  | Err error => write_shim_log (before +:+ " (" +:+ kind_text error +:+ ")" +:+ after)
  end.

(** The first phase: the group is asked to terminate and given time. *)
Definition term_phase (p : ManagedProcess) (descendants : Descendants) (send_term : bool)
    (term_grace overall_deadline : Z) : Act () :=
  if negb send_term then mret () else
  exited ← observe_exit p;
  if (exited : bool) then mret () else
  signal_group p Terminate;;
  log_failure "cannot signal every VMM descendant with SIGTERM" "; cleanup continues"
    (signal_descendants descendants Terminate);;
  deadline ← phase_deadline term_grace overall_deadline;
  wait_exit (observe_exit p) false deadline.
(** The second: the group is killed while its leader still pins it. *)
Definition kill_phase (v : OwnedVmm) (p : ManagedProcess) (descendants : Descendants)
    (overall_deadline : Z) : Act () :=
  r ← try_ (snapshot_owned_descendants_preserving (pid (vmm_record v)) (preserved_children v));
  let descendants := match r with Ok new_descendants => new_descendants ∪ descendants | Err _ => descendants end in
  leader_exited ← observe_exit p;
  signal_cleanup_group p Kill;;
  log_failure "cannot signal every escaped VMM descendant with SIGKILL" "; drain continues"
    (signal_descendants descendants Kill);;
  deadline ← phase_deadline CHILD_TERM_GRACE overall_deadline;
  wait_exit (observe_exit p) false deadline.

(** What [self.reaped_status = Some(process.wait()?)] leaves. *)
Definition reaped_vmm (v : OwnedVmm) (p : ManagedProcess) (status : ExitStatus) : OwnedVmm := {|
  process := Some p; vmm_record := vmm_record v; reaped_status := Some status;
  preserved_children := preserved_children v; console := console v |}.
Definition reap_leader (send_term : bool) (term_grace overall_deadline : Z) (v : OwnedVmm) (p : ManagedProcess) : Act () :=
  descendants ← snapshot_or_empty v;
  term_phase p descendants send_term term_grace overall_deadline;;
  kill_phase v p descendants overall_deadline;;
  exited ← observe_exit p;
  if negb exited then
    fail (error_new Timeout ("VMM pid " +:+ dec (pid (vmm_record v)) +:+ " did not exit after SIGKILL"))
  else
  r ← wait p;
  modify (λ s, set_owned s (reaped_vmm v r.2 r.1)).

Definition shutdown_console : Act () :=
  v ← get owned;
  if console v then
    modify (λ s, set_owned s {|
      process := process v; vmm_record := vmm_record v; reaped_status := reaped_status v;
      preserved_children := preserved_children v; console := false |});;
    log_failure "console broker shutdown failed" "; VMM cleanup continues"
      (r ← ask console_shutdown; lift r)
  else mret ().

(** The child is gone: its pid and group are released. *)
Definition release_vmm (v : OwnedVmm) : OwnedVmm := {|
  process := None; vmm_record := vmm_record v; reaped_status := reaped_status v;
  preserved_children := preserved_children v; console := console v |}.
Definition terminate_and_reap_before (send_term : bool) (term_grace overall_deadline : Z) : Act ExitStatus :=
  v ← get owned;
  match process v with
  | None => lift (ok_or (reaped_status v) (error_new NotRunning "VMM child was already released"))
  | Some p =>
      match reaped_status v with
      | None => reap_leader send_term term_grace overall_deadline v p
      | Some _ => mret ()
      end;;
      shutdown_console;;
      now ← instant_now;
      drain_adopted_children_preserving (saturating_sub overall_deadline now) (preserved_children v);;
      v ← get owned;
      status ← lift (ok_or (reaped_status v) (error_new Generic "VMM exit status was not retained"));
      modify (λ s, set_owned (set_evidence s (pid (vmm_record v), OWNER_REAPED)) (release_vmm v));;
      mret status
  end.
Definition terminate_and_reap (send_term : bool) (term_grace : Z) : Act ExitStatus :=
  let cleanup_budget := term_grace + 2 * CHILD_TERM_GRACE in
  if duration_max <? cleanup_budget then fail (error_new Usage "VMM cleanup deadline is out of range") else
  now ← instant_now;
  match instant_checked_add now cleanup_budget with
  | None => fail (error_new Usage "VMM cleanup deadline is out of range")
  | Some deadline => terminate_and_reap_before send_term term_grace deadline
  end.
Definition reap_exited_group : Act ExitStatus := terminate_and_reap false 0.

(** [impl Drop for OwnedVmm]. *)
Definition drop_vmm : Act () :=
  v ← get owned;
  match process v with
  | None => mret ()
  | Some _ =>
      r ← try_ (terminate_and_reap false 0);
      match r with
      | Ok _ => mret ()
      | Err error => write_shim_log ("VMM ownership guard could not finish cleanup (" +:+ kind_text error
                       +:+ "); recovery evidence is preserved")
      end
  end.

(** The proof of a reap is taken once. *)
Definition take_owner_reap_proof (pid : Z) : Act bool :=
  e ← get evidence;
  if negb (e.1 =? pid) then mret false
  else if e.2 =? OWNER_REAPED then modify (λ s, set_evidence s (e.1, 0));; mret true
  else mret false.

(** ** Sidecars *)

Definition sidecar_from_spawn (name : string) (p : ManagedProcess) (executable : string)
    (artifacts : list RuntimeArtifact) : OwnedSidecar := {|
  sidecar_name := name; sidecar_process := Some p; sidecar_record := spawn_record p executable own_uid;
  sidecar_status := None; artifacts := artifacts |}.
Definition sidecar_id (s : OwnedSidecar) : Z := from_option managed_id (pid (sidecar_record s)) (sidecar_process s).

Definition sidecar_observe_exit (s : OwnedSidecar) : Act bool :=
  match sidecar_status s, sidecar_process s with
  | Some _, _ => mret true
  | None, None => fail (error_new NotRunning ("sidecar " +:+ sidecar_name s +:+ " child was reaped"))
  | None, Some p => observe_exit p
  end.
(** [reap]: the sidecar changes only when it succeeds. *)
Definition sidecar_reap (s : OwnedSidecar) : Act (ExitStatus * OwnedSidecar) :=
  match sidecar_status s, sidecar_process s with
  | Some status, _ => mret (status, s)
  | None, None => fail (error_new NotRunning "sidecar child is absent")
  | None, Some p =>
      r ← wait p;
      mret (r.1, {| sidecar_name := sidecar_name s; sidecar_process := None; sidecar_record := sidecar_record s;
                    sidecar_status := Some r.1; artifacts := artifacts s |})
  end.
Definition reap_exited (s : OwnedSidecar) : Act (ExitStatus * OwnedSidecar) :=
  exited ← sidecar_observe_exit s;
  if negb exited then fail (error_new Conflict ("sidecar " +:+ sidecar_name s +:+ " is still running"))
  else sidecar_reap s.
Definition sidecar_terminate_and_reap (s : OwnedSidecar) (overall_deadline : Z) : Act (ExitStatus * OwnedSidecar) :=
  match sidecar_process s with
  | None =>
      status ← lift (ok_or (sidecar_status s)
        (error_new NotRunning ("sidecar " +:+ sidecar_name s +:+ " child was already released")));
      mret (status, s)
  | Some p =>
      exited ← sidecar_observe_exit s;
      (if (exited : bool) then mret () else
       signal_group p Terminate;;
       term_deadline ← phase_deadline CHILD_TERM_GRACE overall_deadline;
       wait_exit (observe_exit p) true term_deadline;;
       exited ← observe_exit p;
       if (exited : bool) then mret () else
       signal_group p Kill;;
       kill_deadline ← phase_deadline CHILD_TERM_GRACE overall_deadline;
       wait_exit (observe_exit p) true kill_deadline);;
      exited ← sidecar_observe_exit s;
      if negb exited then
        fail (error_new Timeout ("sidecar " +:+ sidecar_name s +:+ " pid " +:+ dec (pid (sidecar_record s)) +:+ " did not exit"))
      else sidecar_reap s
  end.
(** [impl Drop for OwnedSidecar]. *)
Definition drop_sidecar (s : OwnedSidecar) : Act () :=
  match sidecar_process s with
  | None => mret ()
  | Some _ =>
      now ← instant_now;
      deadline ← match instant_checked_add now (2 * CHILD_TERM_GRACE) with
        | Some deadline => mret deadline
        | None => instant_now
        end;
      r ← try_ (sidecar_terminate_and_reap s deadline);
      match r with
      | Ok _ => mret ()
      | Err error => write_shim_log ("sidecar " +:+ sidecar_name s +:+ " ownership guard could not finish cleanup ("
                       +:+ kind_text error +:+ "); recovery evidence is preserved")
      end
  end.
End owner.
