(* ===== verification/OwnerSpec.v ===== *)
(** What the shim's ownership of its children guarantees ([firestone-core/src/shim.rs]): a
    group is signalled only while its leader, not yet reaped, pins the group's number; the
    processes kept for others are not reaped with the VMM's descendants; and every wait ends. *)
From S2P Require Import Prelude RustStr RustPath Errors Atomic State Clock Process Owner.
Open Scope Z_scope.

(** ** What an action does to processes *)

Section does.
Context `{Schedule} `{Kernel} {Json : Type}.
(** Every step takes time. *)
Context (Hlag : ∀ n, 0 < lag n).
Local Abbreviation World := (Timed (Supervisor Json)).
Local Abbreviation Act := (M World (Stop FirestoneError)).

(** From [w] to [w'] the effects [es] happened and nothing else changed, the log apart. *)
Definition grows (es : list Effect) (w w' : World) : Prop :=
  time w ≤ time w' ∧ ∃ log, sink w' = set_log (set_effects (sink w) (effects (sink w) ++ es)) log.
Lemma grows_refl w w' : time w ≤ time w' → sink w' = sink w → grows [] w w'.
Proof using Type.
  intros Ht E. split; [done|]. exists (shim_log (sink w)). rewrite E, app_nil_r. by destruct (sink w).
Qed.
Lemma grows_trans es es' w w1 w2 : grows es w w1 → grows es' w1 w2 → grows (es ++ es') w w2.
Proof using Type.
  intros (Ht & log & E) (Ht' & log' & E'). split; [lia|]. exists log'. rewrite E', E. simpl. by rewrite app_assoc.
Qed.

(** The action ends; whatever happens its effects all satisfy [P], and its result [R]. *)
Definition gives {A} (P : Effect → Prop) (R : A → Prop) (m : Act A) : Prop := ∀ w,
  wp m (λ r w', ∃ es, grows es w w' ∧ Forall P es ∧ match r with Ok a => R a | Err e => e ≠ OutOfFuel end) w.
Definition does {A} (P : Effect → Prop) (m : Act A) : Prop := gives P (λ _, True) m.

Section rules.
Context (P : Effect → Prop).
(** An action that changes nothing that is recorded. *)
Lemma gives_quiet {A} (R : A → Prop) (m : Act A) :
  (∀ w, time w ≤ time (m w).2 ∧ sink (m w).2 = sink w ∧ match (m w).1 with Ok a => R a | Err e => e ≠ OutOfFuel end) →
  gives P R m.
Proof using Type. intros Hm w. destruct (Hm w) as (? & ? & ?). exists []. split_and!; [by apply grows_refl|done|done]. Qed.
Lemma gives_ret {A} (R : A → Prop) (a : A) : R a → gives P R (mret a).
Proof using Type. intros. apply gives_quiet. by intros w. Qed.
Lemma gives_fail {A} (R : A → Prop) e : gives P R (fail (A := A) e).
Proof using Type. apply gives_quiet. by intros w. Qed.
Lemma gives_lift {A} (R : A → Prop) (r : result FirestoneError A) : (∀ a, r = Ok a → R a) → gives P R (lift r).
Proof using Type. intros HR. apply gives_quiet. intros w. split_and!; [done..|]. destruct r; simpl; auto. Qed.
Lemma gives_ask {A} (R : A → Prop) (f : nat → A) : (∀ n, R (f n)) → gives P R (ask f).
Proof using Type. intros HR. apply gives_quiet. intros w. split_and!; [apply time_pass_ge|done|apply HR]. Qed.
Lemma gives_now : does P instant_now.
Proof using Type. apply gives_quiet. intros w. split_and!; [apply time_pass_ge|done..]. Qed.
Lemma gives_sleep d : 0 ≤ d → does P (sleep d).
Proof using Type. intros Hd. apply gives_quiet. intros w. split_and!; [|done..]. pose proof (pass_later d w Hd). simpl in *. lia. Qed.
Lemma gives_get {A} (f : Supervisor Json → A) : does P (get f).
Proof using Type. apply gives_quiet. by intros w. Qed.
Lemma gives_note e : P e → does P (note e).
Proof using Type.
  intros He w. exists [e]. split_and!; [|by constructor|done]. split; [simpl; lia|]. simpl.
  exists (shim_log (sink w)). by destruct (sink w).
Qed.
Lemma gives_log message : does P (write_shim_log message).
Proof using Type.
  intros w. exists []. split_and!; [|done|done]. split; [simpl; lia|]. simpl. eexists. by rewrite app_nil_r.
Qed.
Lemma gives_weaken {A} (R R' : A → Prop) (m : Act A) : gives P R m → (∀ a, R a → R' a) → gives P R' m.
Proof using Type.
  intros Hm HR w. eapply wp_mono; [apply Hm|]. intros r w' (es & Hg & HP & Hr). exists es. split_and!; [done..|].
  destruct r; auto.
Qed.
Lemma gives_bind {A B} (R : A → Prop) (R' : B → Prop) (m : Act A) (k : A → Act B) :
  gives P R m → (∀ a, R a → gives P R' (k a)) → gives P R' (m ≫= k).
Proof using Type.
  intros Hm Hk w. apply wp_bind. eapply wp_mono; [apply Hm|]. intros [a|e] w1 (es & Hg & HP & He).
  - eapply wp_mono; [by apply Hk|]. intros r w2 (es' & Hg' & HP' & He').
    exists (es ++ es'). split_and!; [by eapply grows_trans|by apply Forall_app|done].
  - by exists es.
Qed.
Lemma does_bind {A B} (R : B → Prop) (m : Act A) (k : A → Act B) : does P m → (∀ a, gives P R (k a)) → gives P R (m ≫= k).
Proof using Type. intros Hm Hk. eapply gives_bind; [exact Hm|]. auto. Qed.
Lemma does_bind_lift {A B} (R : B → Prop) (r : result FirestoneError A) (k : A → Act B) :
  (∀ a, r = Ok a → gives P R (k a)) → gives P R (lift r ≫= k).
Proof using Type. intros Hk. eapply gives_bind; [apply (gives_lift (λ a, r = Ok a)); auto|done]. Qed.
Lemma does_try {A} (R : A → Prop) (m : Act A) :
  gives P R m → gives P (λ r, match r with Ok a => R a | Err _ => True end) (try_ m).
Proof using Type.
  intros Hm w. specialize (Hm w). unfold wp, try_ in *.
  destruct (m w) as [[a|[e|]] w']; destruct Hm as (es & Hg & HP & He); try done; by exists es.
Qed.
Lemma gives_fold {A St} (R : St → Prop) (f : St → A → Act St) l st :
  R st → (∀ st a, a ∈ l → R st → gives P R (f st a)) → gives P R (fold_act f st l).
Proof using Type.
  revert st. induction l as [|a l IH]; intros st HR Hf; cbn [fold_act]; [by apply gives_ret|].
  eapply gives_bind; [apply Hf; [left|done]|]. intros st' HR'. apply IH; [done|]. intros st1 a' Ha. apply Hf. by right.
Qed.
Lemma does_fold {A St} (f : St → A → Act St) l st : (∀ st a, does P (f st a)) → does P (fold_act f st l).
Proof using Type. intros Hf. apply gives_fold; [done|]. intros. apply Hf. Qed.

(** A loop with a measure. *)
Lemma gives_bounded {A St} (R : A → Prop) (I : St → Prop) (μ : St → Z) bound (body : St → Act (St + A)) st :
  (∀ st, I st → gives P (λ r, match r with inl st' => I st' ∧ μ st' < μ st | inr a => R a end) (body st)) →
  (∀ st, I st → 0 ≤ μ st) → I st → μ st ≤ bound → gives P R (bounded_loop bound body st).
Proof using Type.
  intros Hbody Hpos HI Hμ w.
  apply (wp_bounded _ _ (λ st0 w0, I st0 ∧ ∃ es, grows es w w0 ∧ Forall P es) (λ st0 _, μ st0)).
  2:{ intros st0 w0 [HI0 _]. auto. }
  2:{ split; [done|]. exists []. split; [by apply grows_refl|done]. }
  2:{ done. }
  intros st0 w0 (HI0 & es & Hg & HP). eapply wp_mono; [by apply Hbody|].
  intros r w1 (es1 & Hg1 & HP1 & Hr).
  assert (grows (es ++ es1) w w1 ∧ Forall P (es ++ es1)) as [? ?] by (split; [by eapply grows_trans|by apply Forall_app]).
  destruct r as [[st1|a]|e]; [destruct Hr; split; [split; [done|]|done]| |]; by exists (es ++ es1).
Qed.

(** A turn of a loop that runs while the clock is before [deadline]. *)
Definition ticks {St A} (deadline : Z) (body : St → Act (St + A)) : Prop := ∀ st w,
  wp (body st) (λ r w', ∃ es, grows es w w' ∧ Forall P es ∧ match r with
    | Ok (inl _) => time w < time w' ∧ time w < deadline
    | Ok (inr _) => True
    | Err e => e ≠ OutOfFuel
    end) w.
Lemma does_until {St A} deadline (body : St → Act (St + A)) st : ticks deadline body → does P (until_deadline deadline body st).
Proof using Type.
  intros Hbody w. apply (wp_until _ _ (λ _ w0, ∃ es, grows es w w0 ∧ Forall P es)).
  2:{ exists []. split; [by apply grows_refl|done]. }
  intros st0 w0 (es & Hg & HP). eapply wp_mono; [apply Hbody|].
  intros r w1 (es1 & Hg1 & HP1 & Hr).
  assert (grows (es ++ es1) w w1 ∧ Forall P (es ++ es1)) as [? ?] by (split; [by eapply grows_trans|by apply Forall_app]).
  destruct r as [[st1|a]|e]; [split; [|done]| |]; by exists (es ++ es1).
Qed.
(** A turn that reads the clock and stops unless it is early. *)
Lemma ticks_now {St A} deadline (late : St → Act (St + A)) (early : St → Z → Act (St + A)) :
  (∀ st, (∃ a, late st = mret (inr a)) ∨ ∃ e, late st = fail e) →
  (∀ st now, does P (early st now)) →
  ticks deadline (λ st, now ← instant_now; if deadline <=? now then late st else early st now).
Proof using Hlag.
  intros Hl He st w. unfold wp. rewrite bind_now. pose proof (Hlag (tick w)) as Hlt.
  assert (time w < time (pass 0 w)) by (rewrite time_pass; lia).
  assert (grows [] w (pass 0 w)) as Hg by (apply grows_refl; [lia|done]).
  destruct (Z.leb_spec deadline (time (pass 0 w))).
  - destruct (Hl st) as [[a ->]|[e ->]]; exists []; done.
  - specialize (He st (time (pass 0 w)) (pass 0 w)). unfold wp in He.
    destruct (early st _ _) as [[[st'|a]|e] w'] eqn:E; destruct He as (es & Hg' & HP & Hr);
      exists es; (split_and!; [apply (grows_trans [] _ _ _ _ Hg Hg')|done|try done]).
    destruct Hg' as [Ht _]. cbn [snd fst] in *. lia.
Qed.
End rules.

Lemma gives_mono {A} (P Q : Effect → Prop) (R : A → Prop) (m : Act A) : (∀ e, P e → Q e) → gives P R m → gives Q R m.
Proof using Type.
  intros HPQ Hm w. eapply wp_mono; [apply Hm|]. intros r w' (es & Hg & HP & He). exists es. split_and!; [done| |done].
  eapply Forall_impl; [done|]. auto.
Qed.

(** Splits an action into its steps. *)
Ltac does_step :=
  match goal with
  | |- does _ _ => unfold does
  | |- ∀ _, gives _ _ _ => intros ?
  | |- ∀ _, does _ _ => intros ?
  | |- gives _ _ (lift _ ≫= _) => apply does_bind_lift; intros ??
  | |- gives _ _ (_ ≫= _) => apply does_bind; [|intros ?]
  | |- gives _ _ (if ?b then _ else _) => destruct b eqn:?
  | |- gives _ _ (match ?x with _ => _ end) => destruct x eqn:?
  | |- gives _ _ (mret _) => apply gives_ret
  | |- gives _ _ (fail _) => apply gives_fail
  | |- gives _ _ (lift _) => apply gives_lift
  | |- gives _ _ (ask _) => apply gives_ask
  | |- gives _ _ instant_now => apply gives_now
  | |- gives _ _ (get _) => apply gives_get
  | |- gives _ _ (write_shim_log _) => apply gives_log
  | |- gives _ _ (sleep _) => apply gives_sleep; unfold saturating_sub, LOOP_INTERVAL; lia
  | |- gives _ _ (try_ _) => eapply gives_weaken; [apply does_try|]
  | |- gives _ _ (note _) => apply gives_note
  end.
Ltac does := repeat does_step; auto.

(** ** Processes and their descendants *)

Section process.
Context (P : Effect → Prop).

Lemma does_observe_exit p : does P (observe_exit p).
Proof using Hlag. unfold observe_exit. does. Qed.
Lemma does_signal_group p signal :
  (∀ group, process_group p = Some group → reaped p = false → P (GroupSignalled group signal)) → does P (signal_group p signal).
Proof using Hlag.
  intros Hg. unfold signal_group. destruct (reaped p) eqn:Hr; [by apply gives_fail|]. does.
  apply Hg; [|done]. unfold process_pid in *. inv_ok. by destruct (_ <=? _); simplify_eq.
Qed.
Lemma does_process_parent_and_start pid : does P (process_parent_and_start pid).
Proof using Hlag. unfold process_parent_and_start. does. Qed.
Lemma does_process_start_time pid : does P (process_start_time pid).
Proof using Hlag. unfold process_start_time. does. Qed.
Lemma does_thread_children children thread : does P (thread_children children thread).
Proof using Hlag. unfold thread_children. does. Qed.
Lemma does_linux_child_pids parent : does P (linux_child_pids parent).
Proof using Hlag.
  unfold linux_child_pids. does; apply does_fold; intros; apply does_thread_children.
Qed.

(** What the stat file of [pid] said about it at some time. *)
Definition shown (pid : Z) (identity : Z * Z) : Prop :=
  ∃ n stat, read_to_string n (stat_path pid) = Ok stat ∧ stat_parent_and_start pid stat = Ok identity.
Lemma gives_parent_and_start pid :
  gives P (λ r, match r with Some i => shown pid i | None => True end) (process_parent_and_start pid).
Proof using Type.
  unfold process_parent_and_start. eapply gives_bind.
  - apply (gives_ask P (λ r, ∃ n, read_to_string n (stat_path pid) = r)). by intros n; exists n.
  - intros [stat|source] [n Hn]; [|by does]. apply does_bind_lift. intros i Hi. apply gives_ret. by exists n, stat.
Qed.

Lemma parse_children_nonneg path text l : parse_children path text = Ok l → Forall (λ pid, 0 ≤ pid) l.
Proof using Type.
  unfold parse_children. set (f := λ _ _, _). apply (fold_result_inv f (λ _ l, Forall (λ pid, 0 ≤ pid) l)); [constructor|].
  intros done_ a rest l0 l1 _ Hl Hf. unfold f in Hf. inv_ok. apply Forall_app. split; [done|]. constructor; [|done].
  match goal with E : parse_u _ _ = Some _ |- _ => unfold parse_u, from_str_radix in E; rename E into Hp end.
  destruct (is_empty _); [done|]. destruct (parse_digits _ _ _) as [v|]; [|done].
  change (try_from_u u32_max v = Some r) in Hp. apply try_from_u_Some in Hp. lia.
Qed.
Lemma elem_of_dedup x l : x ∈ dedup l → x ∈ l.
Proof using Type.
  revert x. induction l as [|y l IH]; intros x; cbn [dedup]; [done|]. rewrite !elem_of_cons.
  intros [->|Hx]; [by left|right]. apply IH. destruct (dedup l) as [|z l']; [done|].
  destruct (y =? z); [by right|done].
Qed.
Lemma gives_linux_child_pids parent : gives P (λ l, ∀ pid, pid ∈ l → 0 ≤ pid) (linux_child_pids parent).
Proof using Type.
  unfold linux_child_pids. apply does_bind; [by does|]. intros [threads|source].
  2:{ does. by intros pid ?%elem_of_nil. }
  eapply gives_bind; [apply (gives_fold P (Forall (λ pid, 0 ≤ pid))); [constructor|]|].
  - intros children thread _ Hc. unfold thread_children. destruct thread; [|by apply gives_ret].
    apply does_bind; [by does|]. intros [text|e]; [|by does]. apply does_bind_lift. intros pids Hp%parse_children_nonneg.
    apply gives_ret. by apply Forall_app.
  - intros children Hc. apply gives_ret. intros pid Hpid%elem_of_dedup. rewrite merge_sort_Permutation in Hpid.
    by eapply Forall_forall in Hc.
Qed.

(** ** The walk over the descendants *)

Section walk.
Context (root_pid : Z) (roots : PreservedProcessRoots).

(** A process that [roots] keeps: its stat file never shows another start time. *)
Definition spared (pid : Z) : Prop := ∃ o, roots !! pid = Some o ∧
  ∀ expected parent start, o = Some expected → shown pid (parent, start) → start = expected.
Definition found_ok (m : Descendants) : Prop :=
  map_Forall (λ pid d, d_pid d = pid ∧ 0 < pid ≤ i32_max ∧ preserved roots pid (start_time_ticks d) = false ∧
    ∃ parent, shown pid (parent, start_time_ticks d)) m.
Lemma not_spared pid parent start : preserved roots pid start = false → shown pid (parent, start) → ¬ spared pid.
Proof using Type.
  intros Hpre Hshown (o & Ho & Hst). unfold preserved in Hpre. rewrite Ho in Hpre. destruct o as [expected|]; [|done].
  rewrite (Hst expected parent start) in Hpre by done. by rewrite Z.eqb_refl in Hpre.
Qed.
Definition PIDS : Z := i32_max + 1.
(** The turns the walk has left. *)
Definition turns_of (walk : Walk) : Z := Z.of_nat (length (pending walk)) + PIDS - Z.of_nat (size (found walk)).

Lemma found_size m : found_ok m → Z.of_nat (size m) ≤ PIDS.
Proof using Type.
  intros Hm. rewrite <- size_dom. unfold size, set_size, compose.
  assert (elements (dom m) ⊆+ seqZ 0 PIDS) as Hsub%submseteq_length.
  { apply NoDup_submseteq; [apply NoDup_elements|]. intros pid Hpid%elem_of_elements%elem_of_dom. destruct Hpid as [d Hd].
    destruct (Hm _ _ Hd) as (_ & ? & _). apply elem_of_seqZ. unfold PIDS. lia. }
  rewrite length_seqZ in Hsub. unfold PIDS, i32_max in *. lia.
Qed.

(** Looking at one more process keeps what was found and the turns that are left. *)
Definition walk_le (walk walk' : Walk) : Prop := found_ok (found walk') ∧ turns_of walk' ≤ turns_of walk.
Lemma gives_inspect_child parent pid fd walk :
  found_ok (found walk) → found walk !! pid = None → 0 < pid ≤ i32_max →
  gives P (walk_le walk) (inspect_child roots parent pid fd walk).
Proof using Type.
  intros Hok Hnew Hpid. assert (walk_le walk walk) as Hsame by (split; [done|lia]).
  unfold inspect_child. eapply gives_bind; [apply gives_parent_and_start|]. intros [[actual start]|] Hshown; [|by apply gives_ret].
  destruct (preserved roots pid start) eqn:Hpre; [by apply gives_ret|]. destruct (_ && _); [by apply gives_ret|].
  apply does_bind; [by does|]. intros [owner|source]; [|by does]. destruct (negb _); [by apply gives_ret|].
  apply does_bind; [by eapply gives_weaken; [apply gives_parent_and_start|]|]. intros again.
  destruct (bool_decide _); [|by apply gives_ret]. apply gives_ret. split; cbn [found pending].
  - apply map_Forall_insert; [done|]. split; [|done]. split_and!; [done|lia|lia|done|by exists actual].
  - unfold turns_of. cbn [found pending length]. rewrite map_size_insert_None by done. lia.
Qed.
Lemma gives_visit_child parent walk pid :
  found_ok (found walk) → 0 ≤ pid → gives P (walk_le walk) (visit_child root_pid roots parent walk pid).
Proof using Type.
  intros Hok Hpid. assert (walk_le walk walk) as Hsame by (split; [done|lia]).
  unfold visit_child. destruct (_ || _ || _) eqn:Hseen; [by apply gives_ret|]. bool_props.
  destruct (Z.ltb_spec i32_max pid); [by apply gives_fail|]. destruct (Z.eqb_spec pid 0); [by apply gives_ret|].
  apply does_bind; [by does|]. intros []; [|by apply gives_ret|by apply gives_fail].
  apply gives_inspect_child; [done| |lia]. by apply eq_None_not_Some.
Qed.
Lemma does_walk_turn walk :
  found_ok (found walk) →
  gives P (λ r, match r with inl walk' => found_ok (found walk') ∧ turns_of walk' < turns_of walk | inr m => found_ok m end)
    (walk_turn root_pid roots walk).
Proof using Type.
  intros Hok. unfold walk_turn. destruct (pending walk) as [|[parent start] rest] eqn:Hp; [by apply gives_ret|].
  apply does_bind; [by eapply gives_weaken; [apply gives_parent_and_start|]|]. intros current.
  set (walk0 := {| pending := rest; found := found walk |}).
  assert (turns_of walk0 < turns_of walk) by (unfold turns_of; rewrite Hp; cbn; lia).
  destruct (bool_decide _); [|by apply gives_ret].
  eapply gives_bind; [apply gives_linux_child_pids|]. intros children Hc.
  eapply gives_bind; [apply (gives_fold P (walk_le walk0))|].
  - split; [done|lia].
  - intros walk1 pid Hpid [Hok1 Hle]. eapply gives_weaken; [by apply gives_visit_child; [|apply Hc]|].
    intros walk2 [? ?]. split; [done|lia].
  - intros walk1 [? ?]. apply gives_ret. split; [done|lia].
Qed.
Lemma gives_snapshot : gives P found_ok (snapshot_owned_descendants_preserving root_pid roots).
Proof using Type.
  unfold snapshot_owned_descendants_preserving. apply does_bind; [by eapply gives_weaken; [apply gives_parent_and_start|]|].
  intros [[_ start]|]; [|by apply gives_fail].
  eapply (gives_bind P (λ pending, (length pending ≤ 2)%nat)).
  - destruct (_ && _); [|by apply gives_ret; simpl; lia].
    apply does_bind; [by eapply gives_weaken; [apply gives_parent_and_start|]|]. intros [[_ ?]|]; apply gives_ret; simpl; lia.
  - intros stack Hlen. apply (gives_bounded P found_ok (λ walk, found_ok (found walk)) turns_of).
    + intros walk Hok. by apply does_walk_turn.
    + intros walk Hok%found_size. unfold turns_of. lia.
    + apply map_Forall_empty.
    + unfold turns_of, PIDS, i32_max. cbn [pending found]. rewrite map_size_empty. lia.
Qed.
End walk.

(** ** Signalling and reaping the descendants *)

Context (Hpidfd : ∀ fd signal, P (PidfdSignalled fd signal)).

Lemma elem_of_values roots m d : found_ok roots m → d ∈ values m → 0 < d_pid d ∧ ¬ spared roots (d_pid d).
Proof using Type.
  intros Hm (pid & _ & Hd)%list_elem_of_omap. destruct (Hm _ _ Hd) as (-> & ? & ? & parent & ?).
  split; [lia|by eapply not_spared].
Qed.
Lemma does_signal_descendants m signal : does P (signal_descendants m signal).
Proof using Hlag Hpidfd.
  unfold signal_descendants. apply does_fold. intros [] d. unfold signal_descendant.
  apply does_bind; [by does|]. intros owner. apply does_bind.
  - destruct owner as [uid|]; [|by does]. destruct (negb _); [by does|]. apply does_bind; [apply does_process_start_time|]. intros start. by does.
  - does.
Qed.
Lemma does_log_failure before after m : does P m → does P (log_failure before after m).
Proof using Type. intros Hm. unfold log_failure. apply does_bind; [by eapply gives_weaken; [by apply does_try|]|]. does. Qed.

Lemma does_drain timeout roots :
  (∀ pid, 0 < pid → ¬ spared roots pid → P (AdoptedReaped pid)) →
  does P (drain_adopted_children_preserving timeout roots).
Proof using Hlag Hpidfd.
  intros Hadopt. unfold drain_adopted_children_preserving. apply does_bind; [by does|]. intros now.
  destruct (instant_checked_add now timeout) as [deadline|]; [|by does]. apply does_until. intros [] w. unfold drain_turn.
  apply wp_bind. eapply wp_mono; [apply (gives_snapshot 0 roots)|]. intros r w1 (es & Hg & HP & Hr).
  destruct r as [m|e]; [|by exists es]. destruct (bool_decide (m = ∅)); [by exists es|].
  apply wp_bind. eapply wp_mono; [apply does_signal_descendants|]. intros r w2 (es2 & Hg2 & HP2 & Hr2).
  pose proof (grows_trans _ _ _ _ _ Hg Hg2) as Hg02. assert (Forall P (es ++ es2)) as HP02 by by apply Forall_app.
  destruct r as [[]|e]; [|by exists (es ++ es2)].
  apply wp_bind. eapply wp_mono.
  { apply (gives_fold P (λ _, True)); [done|]. intros reaped_any d Hd _. unfold reap_descendant.
    destruct (elem_of_values _ _ _ Hr Hd). does. }
  intros r w3 (es3 & Hg3 & HP3 & Hr3). pose proof (grows_trans _ _ _ _ _ Hg02 Hg3) as Hg03.
  assert (Forall P ((es ++ es2) ++ es3)) as HP03 by by apply Forall_app.
  destruct r as [reaped_any|e]; [|by eexists].
  apply wp_bind. unfold wp at 1. cbn [fst snd]. unfold instant_now at 1 2. cbn [fst snd].
  assert (Ht : time w < time (pass 0 w3)) by (rewrite time_pass; specialize (Hlag (tick w3)); destruct Hg03; lia).
  assert (grows ((es ++ es2) ++ es3) w (pass 0 w3)) as Hg04.
  { destruct Hg03 as [_ Hs]. split; [lia|exact Hs]. }
  destruct (Z.leb_spec deadline (time (pass 0 w3))); [by eexists|].
  assert (does P ((if reaped_any then mret () else
    now ← instant_now; sleep (Z.min LOOP_INTERVAL (saturating_sub deadline now)));; mret (inl (B := ()) ()))) as Hlast by does.
  eapply wp_mono; [apply Hlast|]. intros r w5 (es5 & Hg5 & HP5 & Hr5). exists (((es ++ es2) ++ es3) ++ es5).
  split_and!; [by eapply grows_trans|by apply Forall_app|]. destruct Hg5 as [? _]. destruct r as [[[]|[]]|e]; [simpl in *; lia|done..].
Qed.

Lemma does_wait_exit observe capped deadline : does P observe → does P (wait_exit observe capped deadline).
Proof using Hlag.
  intros Ho. unfold wait_exit. apply does_until. unfold wait_turn.
  apply (ticks_now _ deadline (λ _ : (), mret (inr ())) (λ _ _, _)); [left; by eexists|]. intros [] now.
  apply does_bind; [done|]. does.
Qed.
End process.

(** ** The invariant of the children *)

(** A pid whose process was reaped: by its owner, or as an adopted child. *)
Definition reaped_in (l : list Effect) (pid : Z) : Prop := (∃ status, LeaderReaped pid status ∈ l) ∨ AdoptedReaped pid ∈ l.
(** No group is signalled once its leader was reaped: its number may be another group's. *)
Definition safe (l : list Effect) : Prop := ∀ l1 group signal l2,
  l = l1 ++ GroupSignalled group signal :: l2 → ¬ reaped_in l1 group.

(** A child that leads its own session and was not reaped. *)
Definition unreaped (l : list Effect) (p : ManagedProcess) : Prop :=
  process_group p = Some (managed_id p) ∧ reaped p = false ∧ child_status (child p) = None ∧ ¬ reaped_in l (managed_id p).
Definition vmm_ok (leader : Z) (l : list Effect) (v : OwnedVmm) : Prop :=
  (∀ status, reaped_status v = Some status → LeaderReaped leader status ∈ l) ∧
  match process v, reaped_status v with
  | Some p, None => managed_id p = leader ∧ unreaped l p
  | Some p, Some _ => reaped p = true
  | None, status => is_Some status
  end.
Definition sidecar_ok (l : list Effect) (x : OwnedSidecar) : Prop :=
  match sidecar_process x with
  | Some p => sidecar_status x = None ∧ unreaped l p
  | None => ∃ status, sidecar_status x = Some status
  end.
Definition vmm_live (v : OwnedVmm) : list Z :=
  match process v, reaped_status v with Some p, None => [managed_id p] | _, _ => [] end.
Definition live (l : list OwnedSidecar) : list Z := omap (λ x, managed_id <$> sidecar_process x) l.

(** [leader] is the VMM, [all] the pids of the sidecars there ever were, [loose] those taken off
    the list and not released yet. *)
Record Inv (leader : Z) (all : list Z) (loose : list OwnedSidecar) (s : Supervisor Json) : Prop := {
  inv_safe : safe (effects s);
  inv_vmm : vmm_ok leader (effects s) (owned s);
  inv_sidecars : Forall (sidecar_ok (effects s)) (loose ++ owned_sidecars s);
  inv_nodup : NoDup (vmm_live (owned s) ++ live (loose ++ owned_sidecars s));
  inv_spared : Forall (spared (preserved_children (owned s))) (live (loose ++ owned_sidecars s));
  inv_all : ∀ pid, pid ∈ all → pid ∈ live (loose ++ owned_sidecars s) ∨ ∃ status, LeaderReaped pid status ∈ effects s }.

(** What may be done while nothing is reaped by its owner. *)
Definition allowed (loose : list OwnedSidecar) (s : Supervisor Json) (e : Effect) : Prop :=
  match e with
  | GroupSignalled group _ => group ∈ vmm_live (owned s) ++ live (loose ++ owned_sidecars s)
  | LeaderReaped _ _ => False
  | AdoptedReaped pid => ¬ spared (preserved_children (owned s)) pid ∧ vmm_live (owned s) = []
  | _ => True
  end.

Lemma reaped_in_snoc l e pid : reaped_in (l ++ [e]) pid ↔
  reaped_in l pid ∨ (∃ status, e = LeaderReaped pid status) ∨ e = AdoptedReaped pid.
Proof using Type. unfold reaped_in. setoid_rewrite elem_of_app. setoid_rewrite list_elem_of_singleton. naive_solver. Qed.
Lemma safe_snoc l e : safe l → (∀ group signal, e = GroupSignalled group signal → ¬ reaped_in l group) → safe (l ++ [e]).
Proof using Type.
  intros Hl He l1 g sig l2 E. destruct l2 as [|e' l2 _] using rev_ind.
  - apply app_inj_tail in E as [-> ->]. by eapply He.
  - rewrite app_comm_cons, app_assoc in E. apply app_inj_tail in E as [-> ->]. by eapply Hl.
Qed.
Lemma elem_of_live x p l : x ∈ l → sidecar_process x = Some p → managed_id p ∈ live l.
Proof using Type. intros Hx Hp. apply list_elem_of_omap. exists x. by rewrite Hp. Qed.

(** A live child was not reaped. *)
Lemma live_unreaped leader all loose s pid :
  Inv leader all loose s → pid ∈ vmm_live (owned s) ++ live (loose ++ owned_sidecars s) → ¬ reaped_in (effects s) pid.
Proof using Type.
  intros [_ Hv Hs _ _ _] [Hin|Hin]%elem_of_app.
  - destruct Hv as [_ Hv]. unfold vmm_live in Hin. destruct (process (owned s)) as [p|]; [|by apply elem_of_nil in Hin].
    destruct (reaped_status (owned s)); [by apply elem_of_nil in Hin|]. apply list_elem_of_singleton in Hin as ->. apply Hv.
  - apply list_elem_of_omap in Hin as (x & Hx & Hp). eapply Forall_forall in Hs; [|done]. unfold sidecar_ok in Hs.
    destruct (sidecar_process x) as [p|]; [|done]. cbn in Hp. injection Hp as <-. apply Hs.
Qed.

(** An effect that leaves the live children unreaped keeps the invariant. *)
Lemma inv_effect leader all loose s e :
  Inv leader all loose s →
  (∀ group signal, e = GroupSignalled group signal → ¬ reaped_in (effects s) group) →
  (∀ pid, pid ∈ vmm_live (owned s) ++ live (loose ++ owned_sidecars s) → ¬ reaped_in (effects s ++ [e]) pid) →
  Inv leader all loose (set_effects s (effects s ++ [e])).
Proof using Type.
  intros HI Hg Hlive. pose proof HI as [H1 [Hst Hv] H3 H4 H5 H6]. split; cbn [set_effects effects owned owned_sidecars]; try done.
  - by apply safe_snoc.
  - split; [intros status Hs; apply elem_of_app; left; auto|].
    destruct (process (owned s)) as [p|] eqn:Hp; [|done]. destruct (reaped_status (owned s)) eqn:Hr; [done|].
    destruct Hv as [? (? & ? & ? & ?)]. repeat split; try done. apply Hlive. apply elem_of_app. left.
    unfold vmm_live. rewrite Hp, Hr. by apply list_elem_of_singleton.
  - apply Forall_forall. intros x Hx. pose proof (proj1 (Forall_forall _ _) H3 _ Hx) as Hok. unfold sidecar_ok in *.
    destruct (sidecar_process x) as [p|] eqn:Hp; [|done]. destruct Hok as (? & ? & ? & ? & ?). repeat split; try done.
    apply Hlive. apply elem_of_app. right. by eapply elem_of_live.
  - intros pid Hpid. destruct (H6 pid Hpid) as [|[status ?]]; [by left|right]. exists status. apply elem_of_app. by left.
Qed.
Lemma inv_allowed leader all loose s e :
  Inv leader all loose s → allowed loose s e → Inv leader all loose (set_effects s (effects s ++ [e])).
Proof using Type.
  intros HI He. apply inv_effect; [done| |].
  - intros group signal ->. by eapply live_unreaped.
  - intros pid Hpid [Hr|[[status ->]| ->]]%reaped_in_snoc; [by eapply live_unreaped|done|].
    destruct He as [Hns Hv]. rewrite Hv in Hpid. cbn in Hpid. apply Hns.
    by eapply (proj1 (Forall_forall _ _) (inv_spared _ _ _ _ HI)).
Qed.
Lemma inv_grows leader all loose es w w' :
  Inv leader all loose (sink w) → grows es w w' → Forall (allowed loose (sink w)) es → Inv leader all loose (sink w').
Proof using Type.
  intros HI (_ & log & E) Hes. assert (Inv leader all loose (set_effects (sink w) (effects (sink w) ++ es))) as HI'.
  { clear E. induction es as [|e es IH] using rev_ind.
    - rewrite app_nil_r. by destruct (sink w).
    - apply Forall_app in Hes as [Hes [He _]%Forall_cons]. rewrite app_assoc.
      exact (inv_allowed leader all loose (set_effects (sink w) (effects (sink w) ++ es)) e (IH Hes) He). }
  rewrite E. destruct HI'. by split.
Qed.

(** ** The VMM's owner *)

Section vmm.
Context (P : Effect → Prop) (Hpidfd : ∀ fd signal, P (PidfdSignalled fd signal)).

Lemma does_snapshot_or_empty v : does P (snapshot_or_empty v).
Proof using Type.
  unfold snapshot_or_empty. apply does_bind; [by eapply gives_weaken; [apply does_try, gives_snapshot|]|]. does.
Qed.
Lemma does_phase_deadline grace overall : does P (phase_deadline grace overall).
Proof using Type. unfold phase_deadline. does. Qed.
(** The signals a group gets while it is stopped. *)
Context (p : ManagedProcess).
Context (Hgroup : ∀ group signal, process_group p = Some group → reaped p = false → P (GroupSignalled group signal)).
Lemma does_term_phase descendants send_term term_grace overall : does P (term_phase p descendants send_term term_grace overall).
Proof using Hlag Hpidfd Hgroup.
  unfold term_phase. destruct (negb send_term); [by does|]. apply does_bind; [apply does_observe_exit|]. intros []; [by does|].
  apply does_bind; [apply does_signal_group; auto|]. intros _.
  apply does_bind; [by apply does_log_failure, does_signal_descendants|]. intros _.
  apply does_bind; [apply does_phase_deadline|]. intros deadline. apply does_wait_exit, does_observe_exit.
Qed.
Lemma does_kill_phase v descendants overall : does P (kill_phase v p descendants overall).
Proof using Hlag Hpidfd Hgroup.
  unfold kill_phase. apply does_bind; [by eapply gives_weaken; [apply does_try, gives_snapshot|]|]. intros r.
  apply does_bind; [apply does_observe_exit|]. intros _.
  apply does_bind; [apply does_signal_group; auto|]. intros _.
  apply does_bind; [by apply does_log_failure, does_signal_descendants|]. intros _.
  apply does_bind; [apply does_phase_deadline|]. intros deadline. apply does_wait_exit, does_observe_exit.
Qed.
End vmm.

(** What an owner's operation leaves as it was. *)
Definition kept (s s' : Supervisor Json) : Prop :=
  owned_sidecars s' = owned_sidecars s ∧ machine s' = machine s ∧ identity s' = identity s ∧
  files s' = files s ∧ replies s' = replies s ∧ preserved_children (owned s') = preserved_children (owned s) ∧
  vmm_record (owned s') = vmm_record (owned s) ∧ effects s `prefix_of` effects s'.
Lemma kept_refl s : kept s s.
Proof using Type. by repeat split. Qed.
Lemma kept_trans s1 s2 s3 : kept s1 s2 → kept s2 s3 → kept s1 s3.
Proof using Type.
  intros (? & ? & ? & ? & ? & ? & ? & ?) (? & ? & ? & ? & ? & ? & ? & ?). repeat split; try congruence. by etrans.
Qed.
Lemma kept_grows es w w' : grows es w w' → kept (sink w) (sink w').
Proof using Type. intros (_ & log & ->). repeat split. cbn. by apply prefix_app_r. Qed.

(** [m] ends, keeps the invariant and what is not the owner's, and [R] relates its result to
    what it leaves. *)
Definition keeps {A} (leader : Z) (all : list Z) (loose : list OwnedSidecar) (R : A → Supervisor Json → Prop)
    (m : Act A) (w : World) : Prop :=
  wp m (λ r w', time w ≤ time w' ∧ Inv leader all loose (sink w') ∧ kept (sink w) (sink w') ∧
    match r with Ok a => R a (sink w') | Err e => e ≠ OutOfFuel end) w.

Section keeps.
Context (leader : Z) (all : list Z) (loose : list OwnedSidecar).
Lemma owner_keeps_bind {A B} (R : A → Supervisor Json → Prop) (R' : B → Supervisor Json → Prop) (m : Act A) (k : A → Act B) w :
  keeps leader all loose R m w →
  (∀ a w', Inv leader all loose (sink w') → kept (sink w) (sink w') → R a (sink w') → keeps leader all loose R' (k a) w') →
  keeps leader all loose R' (m ≫= k) w.
Proof using Type.
  unfold keeps. intros Hm Hk. apply wp_bind. eapply wp_mono; [exact Hm|]. intros [a|e] w1 (Ht & HI & Hkept & HR); [|done].
  eapply wp_mono; [by apply Hk|]. intros r w2 (? & ? & ? & ?). split_and!; [lia|done|by eapply kept_trans|done].
Qed.
(** An action whose effects are allowed, as long as the owners do not change. *)
Lemma keeps_gives {A} (R : A → Prop) (m : Act A) w :
  Inv leader all loose (sink w) → gives (allowed loose (sink w)) R m →
  keeps leader all loose (λ a s, R a ∧ owned s = owned (sink w)) m w.
Proof using Type.
  intros HI Hm. eapply wp_mono; [apply Hm|]. intros r w' (es & Hg & HP & Hr).
  split_and!; [apply Hg|by eapply inv_grows|by eapply kept_grows|]. destruct Hg as (_ & log & ->). by destruct r.
Qed.
Lemma keeps_gives_bind {A B} (R : A → Prop) (R' : B → Supervisor Json → Prop) (m : Act A) (k : A → Act B) w :
  Inv leader all loose (sink w) → gives (allowed loose (sink w)) R m →
  (∀ a w', Inv leader all loose (sink w') → kept (sink w) (sink w') → owned (sink w') = owned (sink w) → R a →
    keeps leader all loose R' (k a) w') →
  keeps leader all loose R' (m ≫= k) w.
Proof using Type.
  intros HI Hm Hk. eapply owner_keeps_bind; [by eapply keeps_gives|]. intros a w' HI' Hkept [HR Ho]. by apply Hk.
Qed.
Lemma keeps_weaken {A} (R R' : A → Supervisor Json → Prop) (m : Act A) w :
  keeps leader all loose R m w → (∀ a s, R a s → R' a s) → keeps leader all loose R' m w.
Proof using Type.
  unfold keeps. intros Hm HR. eapply wp_mono; [exact Hm|]. intros r w' (? & ? & ? & ?). split_and!; [done..|]. destruct r; auto.
Qed.
Lemma keeps_try {A} (R : A → Supervisor Json → Prop) (m : Act A) w :
  keeps leader all loose R m w →
  keeps leader all loose (λ r s, match r with Ok a => R a s | Err _ => True end) (try_ m) w.
Proof using Type.
  unfold keeps, wp, try_. intros (? & ? & ? & Hr). destruct (m w) as [[a|[e|]] w']; cbn in *; by split_and!.
Qed.
End keeps.

Section terminate.
Context (console_shutdown : nat → result FirestoneError ()).
Context (leader : Z) (all : list Z) (loose : list OwnedSidecar).
Local Abbreviation keeps R m w := (keeps leader all loose R m w).

Lemma group_allowed w v p :
  Inv leader all loose (sink w) → owned (sink w) = v → process v = Some p → reaped_status v = None →
  ∀ group signal, process_group p = Some group → reaped p = false → allowed loose (sink w) (GroupSignalled group signal).
Proof using Type.
  intros [_ [_ Hv] _ _ _ _] <- Hp Hr group signal Hg _. rewrite Hp, Hr in Hv. destruct Hv as (_ & Hgroup & _).
  rewrite Hgroup in Hg. injection Hg as <-. cbn. unfold vmm_live. rewrite Hp, Hr. apply elem_of_app. left.
  by apply list_elem_of_singleton.
Qed.

(** Reaping the leader: it is the last thing done to its pid. *)
Lemma inv_reap s p status log :
  Inv leader all loose s → process (owned s) = Some p → reaped_status (owned s) = None →
  Inv leader all loose (set_owned (set_log (set_effects s (effects s ++ [LeaderReaped (managed_id p) status])) log)
    (reaped_vmm (owned s) {| child := {| child_id := child_id (child p); child_status := Some status |};
                             process_group := process_group p; reaped := true |} status)).
Proof using Type.
  intros HI Hp Hr. pose proof HI as [H1 [Hst Hv] H3 H4 H5 H6]. rewrite Hp, Hr in Hv. destruct Hv as [<- Hun].
  unfold vmm_live in H4. rewrite Hp, Hr in H4. cbn in H4. apply NoDup_cons in H4 as [Hnin Hnd].
  split; cbn [set_owned set_log set_effects effects owned owned_sidecars reaped_vmm process reaped_status preserved_children]; try done.
  - apply safe_snoc; [done|by intros].
  - split; [|done]. intros st [= <-]. apply elem_of_app. right. by apply list_elem_of_singleton.
  - apply Forall_forall. intros x Hx. pose proof (proj1 (Forall_forall _ _) H3 _ Hx) as Hok. unfold sidecar_ok in *.
    destruct (sidecar_process x) as [q|] eqn:Hq; [|done]. destruct Hok as (? & ? & ? & ? & Hnr). repeat split; try done.
    intros [?|[[st [= E _]]|?]]%reaped_in_snoc; [done| |done]. apply Hnin. rewrite E. by eapply elem_of_live.
  - intros pid Hpid. destruct (H6 pid Hpid) as [|[st ?]]; [by left|right]. exists st. apply elem_of_app. by left.
Qed.

Lemma owner_keeps_fail {A} (R : A → Supervisor Json → Prop) e w : Inv leader all loose (sink w) → keeps R (fail e) w.
Proof using Type. intros HI. split_and!; [done|done|apply kept_refl|done]. Qed.
Lemma keeps_wait p v w :
  Inv leader all loose (sink w) → owned (sink w) = v → process v = Some p → reaped_status v = None →
  keeps (λ _ s, is_Some (process (owned s)) ∧ is_Some (reaped_status (owned s)))
    (r ← wait p; modify (λ s, set_owned s (reaped_vmm v r.2 r.1))) w.
Proof using Type.
  intros HI Ho Hp Hr. assert (child_status (child p) = None) as Hc.
  { destruct (inv_vmm _ _ _ _ HI) as [_ Hv]. rewrite Ho, Hp, Hr in Hv. apply Hv. }
  unfold wait, child_wait. rewrite Hc. unfold ask, keeps. apply wp_bind, wp_bind, wp_bind. unfold wp at 1. cbn [fst snd observe].
  assert (time w ≤ time (pass 0 w)) by apply time_pass_ge.
  destruct (wait_ _ _) as [status|source]; cbn.
  - pose proof (inv_reap (sink w) p status (shim_log (sink w)) HI) as HI'. rewrite Ho in HI'. specialize (HI' Hp Hr).
    split_and!; [done|exact HI'| |done..]. repeat split; cbn; [by rewrite Ho..|by apply prefix_app_r].
  - split_and!; [done|done|apply kept_refl|done].
Qed.

Lemma keeps_reap_leader send_term grace overall p w :
  Inv leader all loose (sink w) → process (owned (sink w)) = Some p → reaped_status (owned (sink w)) = None →
  keeps (λ _ s, is_Some (process (owned s)) ∧ is_Some (reaped_status (owned s)))
    (reap_leader send_term grace overall (owned (sink w)) p) w.
Proof using Hlag.
  intros HI Hp Hr. set (v := owned (sink w)) in *. unfold reap_leader.
  pose proof (group_allowed w v p HI eq_refl Hp Hr) as Hgroup.
  eapply keeps_gives_bind; [done|by apply does_snapshot_or_empty|]. intros descendants w1 HI1 _ Ho1 _.
  pose proof (group_allowed w1 v p HI1 Ho1 Hp Hr) as Hg1.
  eapply keeps_gives_bind; [done|by apply does_term_phase|]. intros _ w2 HI2 _ Ho2 _. rewrite Ho1 in Ho2.
  pose proof (group_allowed w2 v p HI2 Ho2 Hp Hr) as Hg2.
  eapply keeps_gives_bind; [done|by apply does_kill_phase|]. intros _ w3 HI3 _ Ho3 _. rewrite Ho2 in Ho3.
  eapply keeps_gives_bind; [done|by apply does_observe_exit|]. intros exited w4 HI4 _ Ho4 _. rewrite Ho3 in Ho4.
  destruct (negb exited); [by apply owner_keeps_fail|].
  by apply keeps_wait.
Qed.

(** The owner's other fields. *)
Lemma inv_set_owned s v evidence :
  Inv leader all loose s → vmm_ok leader (effects s) v → vmm_live v = vmm_live (owned s) →
  preserved_children v = preserved_children (owned s) → Inv leader all loose (set_owned (set_evidence s evidence) v).
Proof using Type.
  intros [H1 H2 H3 H4 H5 H6] Hv Hl Hp. split; cbn [set_owned set_evidence effects owned owned_sidecars]; try done;
    rewrite ?Hl, ?Hp; done.
Qed.
Lemma keeps_modify_owned f v evidence w :
  Inv leader all loose (sink w) → f (sink w) = set_owned (set_evidence (sink w) evidence) v →
  vmm_ok leader (effects (sink w)) v → vmm_live v = vmm_live (owned (sink w)) →
  preserved_children v = preserved_children (owned (sink w)) → vmm_record v = vmm_record (owned (sink w)) →
  keeps (λ _ s, owned s = v) (modify f) w.
Proof using Type.
  intros HI Hf Hv Hl Hpre Hrec. unfold keeps, wp, modify. cbn. rewrite Hf. split_and!; [done|by apply inv_set_owned| |done].
  repeat split; cbn; done.
Qed.

Lemma keeps_get {A B} (f : Supervisor Json → A) (R : B → Supervisor Json → Prop) (k : A → Act B) w :
  keeps R (k (f (sink w))) w → keeps R (get f ≫= k) w.
Proof using Type. done. Qed.
Lemma owner_keeps_ret {A} (R : A → Supervisor Json → Prop) a w : Inv leader all loose (sink w) → R a (sink w) → keeps R (mret a) w.
Proof using Type. intros HI HR. split_and!; [done|done|apply kept_refl|done]. Qed.

Lemma keeps_shutdown_console w :
  Inv leader all loose (sink w) →
  keeps (λ _ s, process (owned s) = process (owned (sink w)) ∧ reaped_status (owned s) = reaped_status (owned (sink w)))
    (shutdown_console console_shutdown) w.
Proof using Type.
  intros HI. unfold shutdown_console. apply keeps_get. destruct (console (owned (sink w))); [|by apply owner_keeps_ret].
  eapply owner_keeps_bind.
  - eapply (keeps_modify_owned _ _ (evidence (sink w))); [done|reflexivity|by apply (inv_vmm _ _ _ _ HI)|done..].
  - intros a w1 HI1 _ Ho1. eapply keeps_weaken; [apply (keeps_gives _ _ _ (λ _, True)); [done|]|].
    + apply does_log_failure. by does.
    + intros b s [_ Ho]. by rewrite Ho, Ho1.
Qed.

Lemma keeps_drain timeout w :
  Inv leader all loose (sink w) → vmm_live (owned (sink w)) = [] →
  keeps (λ _ s, owned s = owned (sink w))
    (drain_adopted_children_preserving timeout (preserved_children (owned (sink w)))) w.
Proof using Hlag.
  intros HI Hl. eapply keeps_weaken; [apply keeps_gives; [done|]|by intros _ s [_ ?]].
  apply does_drain; [done|]. intros pid _ Hns. by split.
Qed.

Lemma keeps_terminate_and_reap_before send_term grace overall w :
  Inv leader all loose (sink w) →
  keeps (λ status s, process (owned s) = None ∧ reaped_status (owned s) = Some status)
    (terminate_and_reap_before console_shutdown send_term grace overall) w.
Proof using Hlag.
  intros HI. unfold terminate_and_reap_before. apply keeps_get.
  destruct (process (owned (sink w))) as [p|] eqn:Hp.
  2:{ destruct (reaped_status (owned (sink w))) as [status|] eqn:Hr; [by apply owner_keeps_ret|by apply owner_keeps_fail]. }
  apply (owner_keeps_bind _ _ _ (λ _ s, is_Some (process (owned s)) ∧ is_Some (reaped_status (owned s)))).
  { destruct (reaped_status (owned (sink w))) as [status|] eqn:Hr; [apply owner_keeps_ret; [done|by rewrite Hp, Hr]|].
    by apply keeps_reap_leader. }
  intros ? w1 HI1 Hk1 [[p1 Hp1] [status1 Hr1]].
  eapply owner_keeps_bind; [by apply keeps_shutdown_console|]. intros ? w2 HI2 Hk2 [Hp2 Hr2]. rewrite Hp1 in Hp2. rewrite Hr1 in Hr2.
  eapply keeps_gives_bind; [done|apply gives_now|]. intros now w3 HI3 Hk3 Ho3 _.
  assert (preserved_children (owned (sink w3)) = preserved_children (owned (sink w))) as Hpre.
  { destruct Hk1 as (_ & _ & _ & _ & _ & Hk1 & _), Hk2 as (_ & _ & _ & _ & _ & Hk2 & _). by rewrite Ho3, Hk2, Hk1. }
  rewrite <- Hpre. eapply owner_keeps_bind.
  { apply keeps_drain; [done|]. unfold vmm_live. by rewrite Ho3, Hp2, Hr2. }
  intros ? w4 HI4 Hk4 Ho4. rewrite Ho3 in Ho4. apply keeps_get. rewrite Ho4, Hr2. cbn [ok_or].
  change (keeps (λ status s, process (owned s) = None ∧ reaped_status (owned s) = Some status)
    (modify (λ s, set_owned (set_evidence s (pid (vmm_record (owned (sink w2))), OWNER_REAPED)) (release_vmm (owned (sink w2))));;
     mret status1) w4).
  eapply owner_keeps_bind.
  - eapply keeps_modify_owned; [done|done| |..]; cbn; rewrite ?Ho4; try done.
    + destruct (inv_vmm _ _ _ _ HI4) as [Hst _]. rewrite Ho4 in Hst. split; [done|]. cbn. by rewrite Hr2.
    + unfold vmm_live. by rewrite Hp2, Hr2.
  - intros ? w5 HI5 _ Ho5. apply owner_keeps_ret; [done|]. by rewrite Ho5.
Qed.

Lemma keeps_terminate_and_reap send_term grace w :
  Inv leader all loose (sink w) →
  keeps (λ status s, process (owned s) = None ∧ reaped_status (owned s) = Some status)
    (terminate_and_reap console_shutdown send_term grace) w.
Proof using Hlag.
  intros HI. unfold terminate_and_reap. destruct (_ <? _); [by apply owner_keeps_fail|].
  eapply keeps_gives_bind; [done|apply gives_now|]. intros now w1 HI1 _ _ _.
  destruct (instant_checked_add _ _); [by apply keeps_terminate_and_reap_before|by apply owner_keeps_fail].
Qed.
Lemma keeps_drop_vmm w : Inv leader all loose (sink w) → keeps (λ _ _, True) (drop_vmm console_shutdown) w.
Proof using Hlag.
  intros HI. unfold drop_vmm. apply keeps_get. destruct (process _); [|by apply owner_keeps_ret].
  eapply owner_keeps_bind; [by apply keeps_try, keeps_terminate_and_reap|]. intros r w1 HI1 _ _.
  destruct r; [by apply owner_keeps_ret|]. eapply keeps_weaken; [apply keeps_gives; [done|apply gives_log]|done].
Qed.
End terminate.

(** ** The owners of sidecars *)

Section sidecar.
Context (leader : Z) (all : list Z) (loose : list OwnedSidecar).

Lemma does_sidecar_observe_exit P x : does P (sidecar_observe_exit x).
Proof using Hlag. unfold sidecar_observe_exit. does; apply does_observe_exit. Qed.

(** Taking a sidecar that was reaped off the books. *)
Lemma inv_release x s : sidecar_process x = None → Inv leader all (x :: loose) s → Inv leader all loose s.
Proof using Type.
  intros Hx [H1 H2 H3 H4 H5 H6]. cbn in *. rewrite Hx in *. apply Forall_cons in H3 as [_ H3]. by split.
Qed.
Lemma inv_sidecar x p s :
  Inv leader all (x :: loose) s → sidecar_process x = Some p → sidecar_status x = None ∧ unreaped (effects s) p.
Proof using Type.
  intros HI Hp. pose proof (inv_sidecars _ _ _ _ HI) as [Hx _]%Forall_cons. unfold sidecar_ok in Hx. by rewrite Hp in Hx.
Qed.
(** Reaping a sidecar: it is the last thing done to its pid. *)
Lemma inv_reap_sidecar x p s status :
  Inv leader all (x :: loose) s → sidecar_process x = Some p →
  Inv leader all loose (set_effects s (effects s ++ [LeaderReaped (managed_id p) status])).
Proof using Type.
  intros HI Hp. destruct (inv_sidecar x p s HI Hp) as [_ Hun]. destruct HI as [H1 [Hst Hv] H3 H4 H5 H6].
  apply Forall_cons in H3 as [_ H3]. cbn in H4, H5, H6. rewrite Hp in H4, H5, H6. cbn in H4, H5, H6.
  rewrite <- Permutation_middle in H4. apply NoDup_cons in H4 as [Hnin Hnd]. rewrite elem_of_app in Hnin.
  assert (∀ pid, reaped_in (effects s ++ [LeaderReaped (managed_id p) status]) pid → reaped_in (effects s) pid ∨ pid = managed_id p) as Hre.
  { intros pid [?|[[st [= E _]]|?]]%reaped_in_snoc; [by left|by right|done]. }
  split; cbn [set_effects effects owned owned_sidecars]; try done.
  - apply safe_snoc; [done|by intros].
  - split; [intros st Hs; apply elem_of_app; left; auto|]. destruct (process (owned s)) as [q|] eqn:Hq; [|done].
    destruct (reaped_status (owned s)) eqn:Hr; [done|]. destruct Hv as [? (? & ? & ? & ?)]. repeat split; try done.
    intros [?|E]%Hre; [done|]. apply Hnin. left. unfold vmm_live. rewrite Hq, Hr, E. by apply list_elem_of_singleton.
  - apply Forall_forall. intros y Hy. pose proof (proj1 (Forall_forall _ _) H3 _ Hy) as Hok. unfold sidecar_ok in *.
    destruct (sidecar_process y) as [q|] eqn:Hq; [|done]. destruct Hok as (? & ? & ? & ? & ?). repeat split; try done.
    intros [?|E]%Hre; [done|]. apply Hnin. right. rewrite <- E. by eapply elem_of_live.
  - by apply Forall_cons in H5 as [_ H5].
  - intros pid Hpid. destruct (H6 pid Hpid) as [[->|?]%elem_of_cons|[st ?]]; [right; exists status|by left|right; exists st];
      apply elem_of_app; [right; by apply list_elem_of_singleton|by left].
Qed.

(** A sidecar's operation releases it, or fails and leaves it as it was. *)
Definition releases (x : OwnedSidecar) (m : Act (ExitStatus * OwnedSidecar)) (w : World) : Prop :=
  wp m (λ r w', time w ≤ time w' ∧ kept (sink w) (sink w') ∧ owned (sink w') = owned (sink w) ∧ match r with
    | Ok (status, x') => Inv leader all loose (sink w') ∧ sidecar_name x' = sidecar_name x ∧ artifacts x' = artifacts x
    | Err e => e ≠ OutOfFuel ∧ Inv leader all (x :: loose) (sink w')
    end) w.
Lemma wp_gives {A} l (R : A → Prop) (m : Act A) w :
  Inv leader all l (sink w) → gives (allowed l (sink w)) R m →
  wp m (λ r w', time w ≤ time w' ∧ kept (sink w) (sink w') ∧ owned (sink w') = owned (sink w) ∧
    Inv leader all l (sink w') ∧ match r with Ok a => R a | Err e => e ≠ OutOfFuel end) w.
Proof using Type.
  intros HI Hm. eapply wp_mono; [apply Hm|]. intros r w' (es & Hg & HP & Hr).
  split_and!; [apply Hg|by eapply kept_grows|by destruct Hg as (_ & log & ->)|by eapply inv_grows|done].
Qed.
Lemma releases_bind {A} x (R : A → Prop) (m : Act A) (k : A → Act (ExitStatus * OwnedSidecar)) w :
  Inv leader all (x :: loose) (sink w) → gives (allowed (x :: loose) (sink w)) R m →
  (∀ a w', Inv leader all (x :: loose) (sink w') → R a → releases x (k a) w') → releases x (m ≫= k) w.
Proof using Type.
  intros HI Hm Hk. unfold releases. apply wp_bind. eapply wp_mono; [by eapply wp_gives|].
  intros [a|e] w1 (Ht & Hkept & Ho & HI1 & Hr); [|done]. eapply wp_mono; [by apply Hk|].
  intros r w2 (? & ? & Ho2 & ?). split_and!; [lia|by eapply kept_trans|by rewrite Ho2|done].
Qed.
Lemma releases_fail x e w : Inv leader all (x :: loose) (sink w) → releases x (fail e) w.
Proof using Type. intros HI. split_and!; [done|apply kept_refl|done..]. Qed.
Lemma releases_reap x w : Inv leader all (x :: loose) (sink w) → releases x (sidecar_reap x) w.
Proof using Type.
  intros HI. unfold sidecar_reap. destruct (sidecar_process x) as [p|] eqn:Hp.
  2:{ assert (Inv leader all loose (sink w)) by by eapply inv_release.
      destruct (sidecar_status x); [|by apply releases_fail]. split_and!; [done|apply kept_refl|done..]. }
  destruct (inv_sidecar x p _ HI Hp) as [-> (_ & _ & Hc & _)].
  unfold wait, child_wait. rewrite Hc. unfold ask, releases. apply wp_bind, wp_bind, wp_bind. unfold wp at 1. cbn [fst snd observe].
  assert (time w ≤ time (pass 0 w)) by apply time_pass_ge.
  destruct (wait_ _ _) as [status|source]; cbn.
  - split_and!; [done|repeat split; cbn; by apply prefix_app_r|done|].
    split; [exact (inv_reap_sidecar x p (sink w) status HI Hp)|done].
  - split_and!; [done|apply kept_refl|done..].
Qed.
Lemma releases_reap_exited x w : Inv leader all (x :: loose) (sink w) → releases x (reap_exited x) w.
Proof using Hlag.
  intros HI. unfold reap_exited. eapply releases_bind; [done|by apply does_sidecar_observe_exit|]. intros exited w1 HI1 _.
  destruct (negb exited); [by apply releases_fail|by apply releases_reap].
Qed.
Lemma sidecar_group_allowed x p s l :
  Inv leader all l s → x ∈ l ++ owned_sidecars s → sidecar_process x = Some p →
  ∀ group signal, process_group p = Some group → reaped p = false → allowed l s (GroupSignalled group signal).
Proof using Type.
  intros HI Hx Hp group signal Hg _. pose proof (proj1 (Forall_forall _ _) (inv_sidecars _ _ _ _ HI) _ Hx) as Hok.
  unfold sidecar_ok in Hok. rewrite Hp in Hok. destruct Hok as (_ & Hgroup & _). rewrite Hgroup in Hg. injection Hg as <-.
  apply elem_of_app. right. by eapply elem_of_live.
Qed.
Lemma releases_terminate x overall w :
  Inv leader all (x :: loose) (sink w) → releases x (sidecar_terminate_and_reap x overall) w.
Proof using Hlag.
  intros HI. unfold sidecar_terminate_and_reap. destruct (sidecar_process x) as [p|] eqn:Hp.
  2:{ pose proof (inv_sidecars _ _ _ _ HI) as [Hx _]%Forall_cons. unfold sidecar_ok in Hx. rewrite Hp in Hx.
      destruct Hx as [status ->]. split_and!; [done|apply kept_refl|done|]. split; [by eapply (inv_release x)|done]. }
  assert (∀ w', Inv leader all (x :: loose) (sink w') → ∀ signal, does (allowed (x :: loose) (sink w')) (signal_group p signal)) as Hsig.
  { intros w' HI' signal. apply does_signal_group. intros. eapply sidecar_group_allowed; [done|by left|done..]. }
  assert (∀ P overall, does P (phase_deadline CHILD_TERM_GRACE overall)) as Hphase by (intros; apply does_phase_deadline).
  eapply releases_bind; [done|by apply does_sidecar_observe_exit|]. intros exited w1 HI1 _.
  eapply (releases_bind _ (λ _, True)); [done| |].
  { destruct exited; [by does|]. apply does_bind; [by apply Hsig|]. intros _. apply does_bind; [done|]. intros term_deadline.
    apply does_bind; [apply does_wait_exit, does_observe_exit|]. intros _. apply does_bind; [apply does_observe_exit|].
    intros []; [by does|]. apply does_bind; [by apply Hsig|]. intros _. apply does_bind; [done|]. intros kill_deadline.
    apply does_wait_exit, does_observe_exit. }
  intros [] w2 HI2 _. eapply releases_bind; [done|by apply does_sidecar_observe_exit|]. intros exited2 w3 HI3 _.
  destruct (negb exited2); [by apply releases_fail|by apply releases_reap].
Qed.

(** Dropping a sidecar that could not be stopped leaves it to nobody. *)
Lemma wp_drop_sidecar x w :
  Inv leader all (x :: loose) (sink w) →
  wp (drop_sidecar x) (λ r w', time w ≤ time w' ∧ kept (sink w) (sink w') ∧ owned (sink w') = owned (sink w) ∧
    r = Ok () ∧ ∃ lost, Inv leader all (lost ++ loose) (sink w')) w.
Proof using Hlag.
  intros HI. unfold drop_sidecar. destruct (sidecar_process x) as [p|] eqn:Hp.
  2:{ split_and!; [done|apply kept_refl|done..|]. by exists [x]. }
  apply wp_bind. unfold wp at 1. cbn [instant_now fst snd]. set (w1 := pass 0 w).
  assert (time w ≤ time w1) by apply time_pass_ge. apply wp_bind.
  assert (∀ deadline w2, time w1 ≤ time w2 → sink w2 = sink w →
    wp (r ← try_ (sidecar_terminate_and_reap x deadline);
        match r with
        | Ok _ => mret ()
        | Err error => write_shim_log ("sidecar " +:+ sidecar_name x +:+ " ownership guard could not finish cleanup ("
                         +:+ kind_text error +:+ "); recovery evidence is preserved")
        end) (λ r w', time w ≤ time w' ∧ kept (sink w) (sink w') ∧ owned (sink w') = owned (sink w) ∧
      r = Ok () ∧ ∃ lost, Inv leader all (lost ++ loose) (sink w')) w2) as Hrest.
  { intros deadline w2 Ht2 Hs2. apply wp_bind. pose proof (releases_terminate x deadline w2) as Hrel. rewrite Hs2 in Hrel.
    specialize (Hrel HI). unfold releases, wp, try_ in *.
    destruct (sidecar_terminate_and_reap x deadline w2) as [[[status x']|[e|]] w3]; cbn in *;
      destruct Hrel as (Ht3 & Hk3 & Ho3 & Hr3); rewrite Hs2 in *.
    - split_and!; [lia|done..|]. exists []. apply Hr3.
    - destruct Hr3 as [_ HI3]. split_and!; [lia| |done..|].
      + destruct Hk3 as (?&?&?&?&?&?&?&?). by repeat split.
      + exists [x]. by destruct HI3.
    - by destruct Hr3. }
  destruct (instant_checked_add _ _); (unfold wp at 1; cbn [fst snd mret M_ret instant_now]; apply Hrest; [|done]);
    [lia|apply time_pass_ge].
Qed.
End sidecar.
End does.
