(* ===== verification/Supervisor.v ===== *)
(** Stopping what the shim supervises ([firestone-core/src/shim.rs]): sidecars, the VMM's stop
    with its escalation, the records written at the end, the stop request and the supervisor's
    last cleanup, for a shim that started its own VMM.  It runs over the child processes of
    [Owner], the VMM's HTTP client of [VmmApi] and the atomic writes of [Atomic]. *)
From S2P Require Import Prelude RustStr RustPath Errors Atomic HttpHead Clock Stream VmmApi State Process Owner.
Open Scope Z_scope.

Definition MAX_STOP_TIMEOUT_SECONDS : Z := 60 * 60.
Definition STOP_API_PHASE_CAP : Z := 2000000000.
Definition MAX_PROCESS_IDENTITY_BYTES : Z := 2 * 1024 * 1024.
Definition VMM_API_UNRESPONSIVE : string := "vmm API unresponsive".
Definition SECOND : Z := 1000000000.

(** ** Timeouts *)

Record ShimTimeouts : Set := {
  api : Z; readiness : Z; control_io : Z; launch_request : Z; launch_overall : Z;
  first_boot_launch_request : Z; first_boot_launch_overall : Z }.
Definition default_timeouts : ShimTimeouts := {|
  api := 2 * SECOND; readiness := 10 * SECOND; control_io := 2 * SECOND; launch_request := 30 * SECOND;
  launch_overall := 30 * SECOND; first_boot_launch_request := 30 * SECOND; first_boot_launch_overall := 30 * SECOND |}.
Definition named_timeouts (t : ShimTimeouts) : list (string * Z) :=
  [("api", api t); ("readiness", readiness t); ("control_io", control_io t);
   ("launch_request", launch_request t); ("launch_overall", launch_overall t);
   ("first_boot_launch_request", first_boot_launch_request t);
   ("first_boot_launch_overall", first_boot_launch_overall t)].
Definition check_timeout (_ : ()) (entry : string * Z) : result FirestoneError () :=
  let '(name, duration) := entry in
  reject error_new Usage ("shim " +:+ name +:+ " timeout must be greater than zero") when (duration =? 0);
  reject error_new Usage ("shim " +:+ name +:+ " timeout exceeds the " +:+ dec MAX_STOP_TIMEOUT_SECONDS +:+ " second limit")
    when (MAX_STOP_TIMEOUT_SECONDS * SECOND <? duration);
  Ok ().
Definition validate_timeouts (t : ShimTimeouts) : result FirestoneError ShimTimeouts :=
  fold_result check_timeout () (named_timeouts t);; Ok t.

(** The timeouts of a launch plan, in milliseconds ([u64]). *)
Record PlanTimeouts : Set := {
  api_timeout_ms : Z; readiness_timeout_ms : Z; control_io_timeout_ms : Z;
  launch_request_timeout_ms : Z; launch_overall_timeout_ms : Z }.
Definition from_millis (ms : Z) : Z := ms * 1000000.
Definition timeouts (plan : PlanTimeouts) : result FirestoneError ShimTimeouts :=
  validate_timeouts {|
    api := from_millis (api_timeout_ms plan);
    readiness := from_millis (readiness_timeout_ms plan);
    control_io := from_millis (control_io_timeout_ms plan);
    launch_request := from_millis (launch_request_timeout_ms plan);
    launch_overall := from_millis (launch_overall_timeout_ms plan);
    first_boot_launch_request := from_millis (launch_request_timeout_ms plan);
    first_boot_launch_overall := from_millis (launch_overall_timeout_ms plan) |}.
Definition duration_millis (duration : Z) (label : string) : result FirestoneError Z :=
  ok_or (try_from_u u64_max (duration / 1000000))
    (error_new Usage ("shim " +:+ label +:+ " timeout does not fit u64 milliseconds")).

Definition checked_duration_add (a b : Z) : option Z := if a + b <=? duration_max then Some (a + b) else None.
Definition stop_overall_timeout (guest_timeout control_timeout : Z) : result FirestoneError Z :=
  ok_or (total ← checked_duration_add guest_timeout (STOP_API_PHASE_CAP * 3);
         total ← checked_duration_add total (CHILD_TERM_GRACE * 2);
         checked_duration_add total control_timeout)
    (error_new Usage "stop deadline is out of range").

(** ** The world around the shim *)

(** [fs::Metadata] of a runtime artifact. *)
Record FileMeta : Set := { is_socket : bool; is_regular : bool; owner_uid : Z; file_mode : Z }.

(** The answers of the rest of the system, by the time they are asked for: the file system, the
    disk's faults, the peers of the VMM's socket, and the parts of the shim not modelled here
    (the console broker and log, the runtime directory, the VMM's log). *)
Class Host := {
  symlink_metadata : nat → string → result IoError FileMeta;
  unlink : nat → string → result IoError ();
  disk_faults : nat → Faults;
  disk_write_fault : nat → option (nat * IoError);
  peer : nat → list Z;
  timestamp : nat → string;
  console_shutdown : nat → result FirestoneError ();
  merge_console_log : nat → result FirestoneError ();
  cleanup_after_shim : nat → result FirestoneError ();
  runtime_dir_exists_ : nat → result IoError bool;
  machine_name : string;
  machine_state_path : result FirestoneError string;
  machine_identity_path : result FirestoneError string;
  machine_api_socket : result FirestoneError string;
  machine_runtime_path : result FirestoneError string }.

Section supervisor.
Context `{Schedule} `{Kernel} `{VmmApi.Socket} `{Host} {Json : Type}.
(** [serde_json] on the records written, and on the VMM's answer; Unicode's [Debug]. *)
Context (state_to_vec : MachineState → result string (list Z))
        (identity_to_vec : ProcessIdentity → result string (list Z))
        (info_from_slice : list Z → result string (VmInfo Json))
        (unicode_debug : string → string).
Local Abbreviation World := (Timed (Supervisor Json)).
Local Abbreviation Act := (M World (Stop FirestoneError)).

Definition reply (r : Reply Json) : Act () := modify (λ s, set_replies s (replies s ++ [r])).
(** [events.emit(event)?] on a sink that does not fail. *)
Definition emit (e : Event Json) : Act () := reply (EventReply e).

(** One HTTP request of the VMM's client, on a connection of its own. *)
Definition api_call {A} (m : M (Timed Conn) (Stop FirestoneError) A) : Act (result FirestoneError A) := λ w,
  let '(r, w') := m {| time := time w; tick := tick w; sink := {| sent := []; incoming := peer (tick w) |} |} in
  (match r with
   | Ok a => Ok (Ok a)
   | Err (Clock.Failed e) => Ok (Err e)
   | Err OutOfFuel => Err OutOfFuel
   end, {| time := time w'; tick := tick w'; sink := sink w |}).

(** An atomic write. *)
Definition on_files {A} (m : Faults → option (nat * IoError) → M Atomic.World FirestoneError A) : Act A := λ w,
  let '(r, f) := m (disk_faults (tick w)) (disk_write_fault (tick w)) (files (sink w)) in
  let w' := pass 0 w in
  (map_err Clock.Failed r, {| time := time w'; tick := tick w'; sink := set_files (sink w) f |}).

Definition publish_process_identity : Act () :=
  identity ← get identity;
  bytes ← lift (map_err (with_source (generic "cannot serialize process identity")) (identity_to_vec identity));
  if MAX_PROCESS_IDENTITY_BYTES <? length_z bytes then
    fail (error_new Usage "process identity exceeds its durable read bound")
  else
  path ← lift machine_identity_path;
  on_files (λ faults write_fault, write_with_mode faults write_fault path bytes 384).
(** [StateStore::new(paths.machine_state(name)?).write_from_shim(state)]. *)
Definition write_machine_state : Act () :=
  path ← lift machine_state_path;
  state ← get machine;
  on_files (λ faults write_fault, write_from_shim state_to_vec faults write_fault {| store_path := path |} state).

(** ** Runtime artifacts *)

Definition remove_runtime_artifact (artifact : RuntimeArtifact) : Act () :=
  let path := artifact_path artifact in
  metadata ← ask (λ n, symlink_metadata n path);
  match metadata with
  | Err source =>
      if bool_decide (io_kind source = IoNotFound) then mret ()
      else fail (filesystem_error Generic ("cannot inspect sidecar artifact " +:+ path) source)
  | Ok metadata =>
      let type_matches := match artifact_kind artifact with
        | Owner.Socket => is_socket metadata
        | Regular => is_regular metadata
        end in
      let mode := Z.land (file_mode metadata) 4095 in
      if negb type_matches || negb (owner_uid metadata =? artifact_uid artifact) || negb (mode =? artifact_mode artifact) then
        fail (with_hint (error_new Conflict ("refusing to remove unverified sidecar artifact " +:+ path))
          "inspect the retained private runtime directory before retrying")
      else
      removed ← ask (λ n, unlink n path);
      match removed with
      | Ok _ => mret ()
      | Err source => fail (filesystem_error Generic ("cannot remove sidecar artifact " +:+ path) source)
      end
  end.
Definition cleanup_sidecar_artifacts (s : OwnedSidecar) : Act () :=
  fold_act (λ _, remove_runtime_artifact) () (artifacts s).

(** ** Sidecars *)

Definition forget_sidecar (name : string) : Act () := modify (λ s,
  let m := machine s in
  set_machine (set_identity s {| identity_version := identity_version (identity s); shim := shim (identity s);
                                 vmm := vmm (identity s); sidecars := delete name (sidecars (identity s)) |})
    {| status := status m; image := image m; mac := mac m; cid := cid m; instance_id := instance_id m;
       shim_pid := shim_pid m; vmm_pid := vmm_pid m; sidecar_pids := delete name (sidecar_pids m);
       runtime_dir := runtime_dir m; started_at := started_at m; forwards := forwards m;
       degraded := degraded m; last_exit := last_exit m |}).

Definition signal_running (signal : ProcessSignal) (_ : ()) (s : OwnedSidecar) : Act () :=
  exited ← sidecar_observe_exit s;
  if (exited : bool) then mret () else
  p ← lift (ok_or (sidecar_process s) (error_new NotRunning "sidecar child disappeared"));
  signal_group p signal.
Definition any_alive (l : list OwnedSidecar) : Act bool :=
  fold_act (λ (alive : bool) s, exited ← sidecar_observe_exit s; mret (alive || negb exited)) false l.
Definition all_exited (l : list OwnedSidecar) : Act bool := alive ← any_alive l; mret (negb alive).
(** [find] with [observe_exit().is_ok_and(|exited| !exited)]. *)
Fixpoint find_running (l : list OwnedSidecar) : Act (option OwnedSidecar) :=
  match l with
  | [] => mret None
  | s :: l =>
      r ← try_ (sidecar_observe_exit s);
      match r with
      | Ok false => mret (Some s)
      | _ => find_running l
      end
  end.
(** [while let Some(sidecar) = sidecars.pop()], over the sidecars from the last. *)
Fixpoint reap_popped (l : list OwnedSidecar) (artifact_error : option FirestoneError) : Act (option FirestoneError) :=
  match l with
  | [] => mret artifact_error
  | s :: l =>
      modify (λ w, set_sidecars w (reverse l));;
      r ← try_ (reap_exited s);
      match r with
      | Err error => drop_sidecar s;; fail error
      | Ok (_, s) =>
          cleaned ← try_ (cleanup_sidecar_artifacts s);
          forget_sidecar (sidecar_name s);;
          reap_popped l (match cleaned, artifact_error with
            | Err error, None => Some error
            | _, _ => artifact_error
            end)
      end
  end.
Definition stop_phase (signal : ProcessSignal) (deadline : Z) : Act () :=
  l ← get owned_sidecars;
  fold_act (signal_running signal) () l;;
  phase ← phase_deadline CHILD_TERM_GRACE deadline;
  wait_exit (all_exited l) true phase.
Definition stop_owned_sidecars (deadline : Z) : Act () :=
  stop_phase Terminate deadline;;
  stop_phase Kill deadline;;
  l ← get owned_sidecars;
  running ← find_running l;
  match running with
  | Some s => fail (error_new Timeout ("sidecar " +:+ sidecar_name s +:+ " pid " +:+ dec (sidecar_id s)
                +:+ " did not exit after SIGKILL"))
  | None =>
      artifact_error ← reap_popped (reverse l) None;
      publish_process_identity;;
      write_machine_state;;
      match artifact_error with Some error => fail error | None => mret () end
  end.

Definition sidecar_exit_marker (name : string) (status : ExitStatus) : string :=
  match exit_code status, exit_signal status with
  | Some code, _ => name +:+ " exited (code " +:+ dec code +:+ ")"
  | None, Some signal => name +:+ " exited (signal " +:+ dec signal +:+ ")"
  | None, None => name +:+ " exited (unknown status)"
  end.
Definition set_degraded (m : MachineState) (v : list string) : MachineState := {|
  status := status m; image := image m; mac := mac m; cid := cid m; instance_id := instance_id m;
  shim_pid := shim_pid m; vmm_pid := vmm_pid m; sidecar_pids := sidecar_pids m;
  runtime_dir := runtime_dir m; started_at := started_at m; forwards := forwards m;
  degraded := v; last_exit := last_exit m |}.
Definition mark_degraded (marker : string) (m : MachineState) : MachineState :=
  if existsb (String.eqb marker) (degraded m) then m else set_degraded m (degraded m ++ [marker]).
Definition set_vmm_api_degraded (m : MachineState) (unresponsive : bool) : MachineState :=
  let kept := filter (λ marker, marker ≠ VMM_API_UNRESPONSIVE) (degraded m) in
  set_degraded m (if unresponsive then kept ++ [VMM_API_UNRESPONSIVE] else kept).

(** [before] are the sidecars still running, [l] those not looked at yet. *)
Fixpoint reconcile_from (before l : list OwnedSidecar) : Act () :=
  match l with
  | [] => mret ()
  | s :: l =>
      exited ← sidecar_observe_exit s;
      if negb exited then reconcile_from (before ++ [s]) l else
      modify (λ w, set_sidecars w (before ++ l));;
      r ← try_ (reap_exited s);
      match r with
      | Err error => drop_sidecar s;; fail error
      | Ok (status, s) =>
          log_failure ("machine `" +:+ machine_name +:+ "` could not clean " +:+ sidecar_name s +:+ " artifacts")
            "; runtime entry retained" (cleanup_sidecar_artifacts s);;
          forget_sidecar (sidecar_name s);;
          let marker := sidecar_exit_marker (sidecar_name s) status in
          modify (λ w, set_machine w (mark_degraded marker (machine w)));;
          write_shim_log ("machine `" +:+ machine_name +:+ "` " +:+ marker);;
          publish_process_identity;;
          write_machine_state;;
          reconcile_from before l
      end
  end.
Definition reconcile_owned_sidecar_exits : Act () :=
  l ← get owned_sidecars; reconcile_from [] l.

(** ** The records written at the end *)

Definition make_last_exit (status : option ExitStatus) (reason : ExitReason) : Act LastExit :=
  at_ ← ask timestamp;
  mret {| at_ := at_; code := status ≫= exit_code; signal := status ≫= exit_signal; reason := reason |}.
Definition final_machine (m : MachineState) (status : MachineStatus) (exit : LastExit) : MachineState := {|
  status := status; image := image m; mac := mac m; cid := cid m; instance_id := instance_id m;
  shim_pid := None; vmm_pid := None; sidecar_pids := ∅; runtime_dir := runtime_dir m; started_at := None;
  forwards := forwards m; degraded := []; last_exit := Some exit |}.
Definition write_final_state (status : MachineStatus) (process_status : option ExitStatus) (reason : ExitReason) : Act () :=
  exit ← make_last_exit process_status reason;
  modify (λ s, set_machine s (final_machine (machine s) status exit));;
  write_machine_state.

Definition failed_exit (reason : string) : Act LastExit :=
  at_ ← ask timestamp;
  mret {| at_ := at_; code := None; signal := None; reason := Failure reason |}.
Definition write_recoverable_failed_state (record : ProcessRecord) (error : FirestoneError) : Act () :=
  exit ← failed_exit (message error +:+ "; VMM recovery evidence retained");
  modify (λ s, let m := machine s in set_machine s {|
    status := Failed; image := image m; mac := mac m; cid := cid m; instance_id := instance_id m;
    shim_pid := None; vmm_pid := Some (pid record); sidecar_pids := sidecar_pids m; runtime_dir := runtime_dir m;
    started_at := started_at m; forwards := forwards m; degraded := []; last_exit := Some exit |});;
  write_machine_state.
Definition write_ambiguous_failed_state (error : FirestoneError) : Act () :=
  exit ← failed_exit (message error +:+ "; process absence was not proven and runtime evidence was retained");
  modify (λ s, let m := machine s in set_machine s {|
    status := Failed; image := image m; mac := mac m; cid := cid m; instance_id := instance_id m;
    shim_pid := None; vmm_pid := vmm_pid m; sidecar_pids := sidecar_pids m; runtime_dir := runtime_dir m;
    started_at := started_at m; forwards := forwards m; degraded := degraded m; last_exit := Some exit |});;
  write_machine_state.

(** ** Stopping the VMM *)

Definition stop_phase_timeout (deadline cap : Z) : Act Z :=
  now ← instant_now;
  let remaining := saturating_sub deadline now in
  if remaining =? 0 then fail (error_new Timeout "overall shim stop deadline expired")
  else mret (Z.min cap remaining).

Definition set_status (v : MachineStatus) (m : MachineState) : MachineState := {|
  status := v; image := image m; mac := mac m; cid := cid m; instance_id := instance_id m;
  shim_pid := shim_pid m; vmm_pid := vmm_pid m; sidecar_pids := sidecar_pids m;
  runtime_dir := runtime_dir m; started_at := started_at m; forwards := forwards m;
  degraded := degraded m; last_exit := last_exit m |}.
Definition forget_vmm : Act () := modify (λ s, set_identity s {|
  identity_version := identity_version (identity s); shim := shim (identity s); vmm := None;
  sidecars := sidecars (identity s) |}).
Definition clear_vmm_pid : Act () := modify (λ s, let m := machine s in set_machine s {|
  status := status m; image := image m; mac := mac m; cid := cid m; instance_id := instance_id m;
  shim_pid := shim_pid m; vmm_pid := None; sidecar_pids := sidecar_pids m; runtime_dir := runtime_dir m;
  started_at := started_at m; forwards := forwards m; degraded := degraded m; last_exit := last_exit m |}).

Section stop.
Context (api_socket : string) (api_cap overall_deadline : Z).

Definition vmm_client (timeout : Z) : VmmApi.VmmApi := {| VmmApi.api_socket := api_socket; timeout := timeout |}.
Definition is_shutdown (r : result FirestoneError (VmInfo Json)) : bool :=
  match r with Ok info => match VmmApi.state _ info with VmmApi.Shutdown => true | _ => false end | Err _ => false end.

(** One turn of waiting for the guest: whether its VM was seen to have shut down. *)
Definition guest_turn (guest_deadline : Z) (vm_shutdown_observed : bool) : Act (bool + bool) :=
  now ← instant_now;
  if guest_deadline <=? now then mret (inr vm_shutdown_observed) else
  exited ← vmm_observe_exit;
  if (exited : bool) then mret (inr vm_shutdown_observed) else
  phase_timeout ← try_ (stop_phase_timeout overall_deadline api_cap);
  match phase_timeout with
  | Err _ => mret (inr vm_shutdown_observed)
  | Ok phase_timeout =>
      info ← api_call (vm_info unicode_debug info_from_slice (vmm_client phase_timeout));
      (if is_shutdown info then
         shutdown_timeout ← try_ (stop_phase_timeout overall_deadline api_cap);
         match shutdown_timeout with
         | Ok shutdown_timeout => api_call (vmm_shutdown unicode_debug (vmm_client shutdown_timeout));; mret ()
         | Err _ => mret ()
         end
       else mret ());;
      now ← instant_now;
      sleep (Z.min LOOP_INTERVAL (saturating_sub guest_deadline now));;
      mret (inl (vm_shutdown_observed || is_shutdown info))
  end.

(** The stop without force: the power button, the guest's time, then signals. *)
Definition graceful_stop (timeout : Z) : Act (ExitStatus * ExitReason) :=
  power_timeout ← stop_phase_timeout overall_deadline api_cap;
  power_result ← api_call (vm_power_button unicode_debug (vmm_client power_timeout));
  guest_deadline ← phase_deadline timeout overall_deadline;
  vm_shutdown_observed ← (if is_ok power_result
    then until_deadline guest_deadline (guest_turn guest_deadline) false else mret false);
  exited ← vmm_observe_exit;
  if (exited : bool) then
    status ← reap_exited_group console_shutdown; mret (status, GuestShutdown)
  else
  emit (StepUpdate "stop" "graceful stop did not complete; sending SIGTERM then SIGKILL if needed");;
  now ← instant_now;
  let term_grace := Z.min CHILD_TERM_GRACE (saturating_sub overall_deadline now) in
  status ← terminate_and_reap_before console_shutdown true term_grace overall_deadline;
  mret (status, Failure (
    if negb (is_ok power_result) then "VMM API failed during graceful stop"
    else if (vm_shutdown_observed : bool) then "VMM shutdown API did not terminate the process"
    else "graceful stop timed out")).
End stop.

Definition stop_vmm_process (plan : PlanTimeouts) (timeout : Z) (force : bool) (overall_deadline : Z)
    : Act (ExitStatus * ExitReason) :=
  api_socket ← lift machine_api_socket;
  plan_timeouts ← lift (timeouts plan);
  let api_cap := Z.min (api plan_timeouts) STOP_API_PHASE_CAP in
  if force then
    status ← terminate_and_reap_before console_shutdown false 0 overall_deadline;
    mret (status, Failure "forced stop")
  else graceful_stop api_socket api_cap overall_deadline timeout.

Definition stop_owned_vmm (plan : PlanTimeouts) (timeout : Z) (force : bool) (overall_deadline : Z) : Act () :=
  modify (λ s, set_machine s (set_status Stopping (machine s)));;
  emit (StepStart "stop" (if force then "force stop VMM" else "ACPI power button"));;
  write_shim_log ("machine `" +:+ machine_name +:+ "` stopping; force=" +:+ (if force then "true" else "false"));;
  identity ← get identity;
  recorded ← lift (ok_or (vmm identity) (error_new Conflict "running VMM has no process identity"));
  v ← get owned;
  if negb (bool_decide (recorded = vmm_record v)) then
    fail (error_new Conflict "running VMM identity does not match its owned child")
  else
  outcome ← stop_vmm_process plan timeout force overall_deadline;
  forget_vmm;;
  stop_owned_sidecars overall_deadline;;
  write_final_state Stopped (Some outcome.1) outcome.2;;
  state ← get machine;
  emit (StepDone "stop" (Some (from_option (λ exit, exit_reason_as_str (reason exit)) "stopped" (last_exit state))) 0).

(** [stop_recovered_sidecars] of a shim that recovered none. *)
Definition stop_recovered_none (deadline : Z) : Act () :=
  term_deadline ← phase_deadline CHILD_TERM_GRACE deadline;
  instant_now;;
  kill_deadline ← phase_deadline CHILD_TERM_GRACE deadline;
  instant_now;;
  publish_process_identity;;
  write_machine_state.

(** ** The stop request ([run_shim], for an owned VMM): [inr] ends the supervisor. *)

Definition finish_stop (c : ()) : Act (() + ()) :=
  (r ← ask merge_console_log; lift r);;
  (r ← ask cleanup_after_shim; lift r);;
  reply TerminalOk;;
  mret (inr ()).
Definition stop_failed (status_before_stop : MachineStatus) (operation_deadline : Z) (error : FirestoneError)
    : Act (() + ()) :=
  v ← get owned;
  completed_status ← (if is_fully_reaped v then mret (reaped_status v) else
    exited ← vmm_observe_exit;
    if (exited : bool) then status ← reap_exited_group console_shutdown; mret (Some status)
    else mret None);
  let runtime_alive := negb (is_fully_reaped v) && bool_decide (completed_status = None) in
  if runtime_alive then
    modify (λ s, set_machine s (set_status status_before_stop (machine s)));;
    write_machine_state;;
    reply (TerminalError (info error));;
    mret (inl ())
  else if bool_decide (is_Some completed_status) then
    forget_vmm;;
    clear_vmm_pid;;
    stop_owned_sidecars operation_deadline;;
    stop_recovered_none operation_deadline;;
    write_final_state Stopped completed_status GuestShutdown;;
    finish_stop ()
  else reply (TerminalError (info error));; mret (inl ()).
Definition handle_stop (plan : PlanTimeouts) (control_io timeout_s : Z) (force : bool) : Act (() + ()) :=
  if MAX_STOP_TIMEOUT_SECONDS <? timeout_s then
    reply (TerminalError (info (error_new Usage
      ("stop timeout exceeds the " +:+ dec MAX_STOP_TIMEOUT_SECONDS +:+ " second limit"))));;
    mret (inl ())
  else
  let guest_timeout := timeout_s * SECOND in
  total ← lift (stop_overall_timeout guest_timeout control_io);
  now ← instant_now;
  terminal_deadline ← lift (ok_or (instant_checked_add now total) (error_new Usage "stop deadline is out of range"));
  let operation_deadline := terminal_deadline - control_io in
  state ← get machine;
  r ← try_ (stop_owned_vmm plan guest_timeout force operation_deadline);
  match r with
  | Ok _ => finish_stop ()
  | Err error => stop_failed (status state) operation_deadline error
  end.

(** ** The last cleanup ([finalize_supervisor_result], for an owned VMM) *)

Definition retain_sidecars (primary cleanup_error : FirestoneError) (what : string) : Act () :=
  publish_process_identity;;
  write_ambiguous_failed_state primary;;
  write_shim_log ("machine `" +:+ machine_name +:+ "` " +:+ what +:+ " (" +:+ kind_text cleanup_error
    +:+ "); recovery evidence retained");;
  fail cleanup_error.
Definition finalize_supervisor_result (result_ : result FirestoneError ()) : Act () :=
  match result_ with
  | Ok _ => mret ()
  | Err primary =>
      state ← get machine;
      if negb (bool_decide (shim_pid state = Some own_pid)) then fail primary else
      runtime ← lift machine_runtime_path;
      exists_ ← ask runtime_dir_exists_;
      match exists_ with
      | Err source => fail (filesystem_error Generic
          ("cannot inspect machine `" +:+ machine_name +:+ "` runtime during final cleanup") source)
      | Ok false => fail primary
      | Ok true =>
          write_shim_log ("machine `" +:+ machine_name +:+ "` supervisor failed (" +:+ kind_text primary
            +:+ "); entering final cleanup");;
          v ← get owned;
          let retained_record := vmm_record v in
          vmm_cleanup ← try_ (terminate_and_reap console_shutdown true CHILD_TERM_GRACE);
          now ← instant_now;
          sidecar_deadline ← match instant_checked_add now (2 * CHILD_TERM_GRACE) with
            | Some deadline => mret deadline
            | None => instant_now
            end;
          sidecar_cleanup ← try_ (stop_owned_sidecars sidecar_deadline);
          recovered_sidecar_cleanup ← try_ (stop_recovered_none sidecar_deadline);
          match vmm_cleanup with
          | Err cleanup_error =>
              modify (λ s, set_identity s {| identity_version := identity_version (identity s); shim := shim (identity s);
                vmm := Some retained_record; sidecars := sidecars (identity s) |});;
              publish_process_identity;;
              write_recoverable_failed_state retained_record primary;;
              write_shim_log ("machine `" +:+ machine_name +:+ "` final VMM cleanup failed (" +:+ kind_text cleanup_error
                +:+ "); recovery evidence retained");;
              fail cleanup_error
          | Ok exit_status =>
              forget_vmm;;
              clear_vmm_pid;;
              match sidecar_cleanup with
              | Err cleanup_error => retain_sidecars primary cleanup_error "final sidecar cleanup failed"
              | Ok _ =>
                  match recovered_sidecar_cleanup with
                  | Err cleanup_error => retain_sidecars primary cleanup_error "final recovered-sidecar cleanup failed"
                  | Ok _ =>
                      write_final_state Failed (Some exit_status) (Failure (message primary));;
                      merged ← ask merge_console_log;
                      (r ← ask cleanup_after_shim; lift r);;
                      match merged with Err error => fail error | Ok _ => fail primary end
                  end
              end
          end
      end
  end.
End supervisor.
