(* ===== verification/SupervisorSpec.v ===== *)
(** What stopping a machine guarantees ([firestone-core/src/shim.rs]), whatever the VMM's API
    answers, whatever the kernel, the disk and the clock do: every operation of the supervisor
    ends; no signal goes to a group whose leader was reaped; and a stop that succeeds leaves no
    child, and the record that says how the VMM ended. *)
From S2P Require Import Prelude RustStr RustPath Errors Atomic HttpHead Clock Stream VmmApi State Process Owner.
From S2P Require Import VmmApiSpec OwnerSpec Supervisor.
Open Scope Z_scope.

Section spec.
Context `{Schedule} `{Kernel} `{VmmApi.Socket} `{Host} {Json : Type}.
Context (state_to_vec : MachineState → result string (list Z))
        (identity_to_vec : ProcessIdentity → result string (list Z))
        (info_from_slice : list Z → result string (VmInfo Json))
        (unicode_debug : string → string).
Context (Hlag : ∀ n, 0 < lag n).
Local Abbreviation World := (Timed (Supervisor Json)).
Local Abbreviation Act := (M World (Stop FirestoneError)).

(** ** Actions that leave the children alone *)

Definition outside (s s' : Supervisor Json) : Prop :=
  effects s' = effects s ∧ owned s' = owned s ∧ owned_sidecars s' = owned_sidecars s.
Definition quiet {A} (R : A → Prop) (m : Act A) : Prop := ∀ w,
  wp m (λ r w', time w ≤ time w' ∧ outside (sink w) (sink w') ∧ match r with Ok a => R a | Err e => e ≠ OutOfFuel end) w.
Lemma outside_refl s : outside s s.
Proof using Type. by repeat split. Qed.
Lemma outside_trans s1 s2 s3 : outside s1 s2 → outside s2 s3 → outside s1 s3.
Proof using Type. intros (? & ? & ?) (? & ? & ?). repeat split; congruence. Qed.

Lemma quiet_gives {A} (R : A → Prop) (m : Act A) : gives (λ _, False) R m → quiet R m.
Proof using Type.
  intros Hm w. eapply wp_mono; [apply Hm|]. intros r w' (es & (Ht & log & E) & HP & Hr).
  split_and!; [done| |done]. destruct es as [|e es]; [|by apply Forall_cons in HP as [[] _]].
  rewrite E. repeat split. cbn. by rewrite app_nil_r.
Qed.
Lemma quiet_bind {A B} (R : A → Prop) (R' : B → Prop) (m : Act A) (k : A → Act B) :
  quiet R m → (∀ a, R a → quiet R' (k a)) → quiet R' (m ≫= k).
Proof using Type.
  intros Hm Hk w. apply wp_bind. eapply wp_mono; [apply Hm|]. intros [a|e] w1 (Ht & Ho & Hr); [|done].
  eapply wp_mono; [by apply Hk|]. intros r w2 (? & ? & ?). split_and!; [lia|by eapply outside_trans|done].
Qed.
Lemma quiet_bind_ {A B} (R' : B → Prop) (m : Act A) (k : A → Act B) :
  quiet (λ _, True) m → (∀ a, quiet R' (k a)) → quiet R' (m ≫= k).
Proof using Type. intros Hm Hk. eapply quiet_bind; [exact Hm|]. auto. Qed.
Lemma quiet_weaken {A} (R R' : A → Prop) (m : Act A) : quiet R m → (∀ a, R a → R' a) → quiet R' m.
Proof using Type.
  intros Hm HR w. eapply wp_mono; [apply Hm|]. intros r w' (? & ? & ?). split_and!; [done..|]. destruct r; auto.
Qed.
Lemma quiet_ret {A} (R : A → Prop) a : R a → quiet R (mret a).
Proof using Type. intros HR w. split_and!; [done|apply outside_refl|done]. Qed.
Lemma quiet_fail {A} (R : A → Prop) e : quiet R (fail (A := A) e).
Proof using Type. intros w. split_and!; [done|apply outside_refl|done]. Qed.
Lemma quiet_lift {A} (R : A → Prop) (r : result FirestoneError A) : (∀ a, r = Ok a → R a) → quiet R (lift r).
Proof using Type. intros. apply quiet_gives, gives_lift. done. Qed.
Lemma quiet_ask {A} (R : A → Prop) (f : nat → A) : (∀ n, R (f n)) → quiet R (ask f).
Proof using Type. intros. by apply quiet_gives, gives_ask. Qed.
Lemma quiet_now : quiet (λ _, True) instant_now.
Proof using Type. apply quiet_gives, gives_now. Qed.
Lemma quiet_get {A} (f : Supervisor Json → A) : quiet (λ _, True) (get f).
Proof using Type. intros w. split_and!; [done|apply outside_refl|done]. Qed.
Lemma quiet_modify f : (∀ s, outside s (f s)) → quiet (λ _, True) (modify f).
Proof using Type. intros Hf w. split_and!; [done|apply Hf|done]. Qed.
Lemma quiet_log message : quiet (λ _, True) (write_shim_log message).
Proof using Type. by apply quiet_modify. Qed.
Lemma quiet_try {A} (R : A → Prop) (m : Act A) :
  quiet R m → quiet (λ r, match r with Ok a => R a | Err _ => True end) (try_ m).
Proof using Type.
  intros Hm w. specialize (Hm w). unfold wp, try_ in *. destruct (m w) as [[a|[e|]] w']; cbn in *; by destruct Hm as (? & ? & ?).
Qed.
Lemma quiet_log_failure before after m : quiet (λ _, True) m → quiet (λ _, True) (log_failure before after m).
Proof using Type.
  intros Hm. unfold log_failure. apply quiet_bind_; [by eapply quiet_weaken; [by apply quiet_try|]|].
  intros []; [by apply quiet_ret|apply quiet_log].
Qed.
Lemma quiet_fold {A St} (f : St → A → Act St) l st :
  (∀ st a, quiet (λ _, True) (f st a)) → quiet (λ _, True) (fold_act f st l).
Proof using Type.
  intros Hf. revert st. induction l as [|a l IH]; intros st; cbn [fold_act]; [by apply quiet_ret|]. by apply quiet_bind_.
Qed.
Lemma quiet_reply r : quiet (λ _, True) (reply r).
Proof using Type. by apply quiet_modify. Qed.
Lemma quiet_on_files {A} (m : Faults → option (nat * IoError) → M Atomic.World FirestoneError A) :
  quiet (λ _, True) (on_files m).
Proof using Type.
  intros w. unfold wp, on_files. destruct (m _ _ _) as [r f]. cbn. pose proof (time_pass_ge w).
  split_and!; [done|by repeat split|]. by destruct r.
Qed.

(** A request to the VMM's API. *)
Definition finishes {A} (m : M (Timed Conn) (Stop FirestoneError) A) : Prop := ∀ w,
  wp m (λ r w', time w ≤ time w' ∧ r ≠ Err OutOfFuel) w.
Lemma quiet_api_call {A} (m : M (Timed Conn) (Stop FirestoneError) A) : finishes m → quiet (λ _, True) (api_call m).
Proof using Type.
  intros Hm w. unfold wp, api_call. set (w0 := {| time := _ |}). specialize (Hm w0). unfold wp in Hm.
  destruct (m w0) as [[a|[e|]] w']; cbn in *; destruct Hm as [? Hr]; (split_and!; [done|apply outside_refl|done]).
Qed.
Lemma finishes_request api endpoint (A : Type) (k : HttpResponse → M (Timed Conn) (Stop ClientFailure) A) :
  has_request_body endpoint = false →
  (∀ response w, ∃ r, k response w = (r, w) ∧ r ≠ Err OutOfFuel) →
  finishes (reported api endpoint (response ← request_inner unicode_debug api endpoint None; k response)).
Proof using Hlag.
  intros Hbody Hk w. unfold reported. apply wp_map_err, wp_bind.
  assert (∃ header, request_header endpoint (from_option (length_z (A := Z)) 0 None) = Ok header) as [header Hheader].
  { unfold request_header. rewrite Hbody. cbn. by eexists. }
  eapply wp_mono; [by apply wp_request|]. intros r w' (p & b & _ & _ & _ & _ & Ht & Hr). destruct r as [response|e].
  - unfold wp. destruct (Hk response w') as (r & -> & Hr'). cbn. split; [done|]. by destruct r as [|[]].
  - destruct Hr as [f ->]. done.
Qed.
Lemma finishes_info api : finishes (vm_info unicode_debug info_from_slice api).
Proof using Hlag.
  apply finishes_request; [done|]. intros response w. unfold decode_json.
  destruct (info_from_slice _); eexists; (split; [done|done]).
Qed.
Lemma finishes_power_button api : finishes (vm_power_button unicode_debug api).
Proof using Hlag. apply finishes_request; [done|]. intros response w. by eexists. Qed.
Lemma finishes_vmm_shutdown api : finishes (vmm_shutdown unicode_debug api).
Proof using Hlag. apply finishes_request; [done|]. intros response w. by eexists. Qed.

Ltac quiet_step :=
  match goal with
  | |- ∀ _, quiet _ _ => intros ?
  | |- ∀ _ _, quiet _ _ => intros ? ?
  | |- quiet _ (_ ≫= _) => apply quiet_bind_
  | |- quiet _ (if ?b then _ else _) => destruct b
  | |- quiet _ (match ?x with _ => _ end) => destruct x
  | |- quiet _ (let '(_, _) := ?x in _) => destruct x
  | |- quiet _ (mret _) => apply quiet_ret
  | |- quiet _ (fail _) => apply quiet_fail
  | |- quiet _ (lift _) => apply quiet_lift
  | |- quiet _ (ask _) => apply quiet_ask
  | |- quiet _ instant_now => apply quiet_now
  | |- quiet _ (get _) => apply quiet_get
  | |- quiet _ (modify _) => apply quiet_modify; intros; by repeat split
  | |- quiet _ (write_shim_log _) => apply quiet_log
  | |- quiet _ (reply _) => apply quiet_reply
  | |- quiet _ (emit _) => apply quiet_reply
  | |- quiet _ (on_files _) => apply quiet_on_files
  | |- quiet _ (fold_act _ _ _) => apply quiet_fold
  | |- quiet _ (log_failure _ _ _) => apply quiet_log_failure
  | |- quiet _ (try_ _) => eapply quiet_weaken; [apply quiet_try|]
  | |- quiet _ _ => progress cbv beta zeta
  end.
Ltac quiet := repeat quiet_step; auto.

Lemma quiet_publish : quiet (λ _, True) (publish_process_identity identity_to_vec).
Proof using Type. unfold publish_process_identity. quiet. Qed.
Lemma quiet_write_state : quiet (λ _, True) (write_machine_state state_to_vec).
Proof using Type. unfold write_machine_state. quiet. Qed.
Lemma quiet_cleanup x : quiet (λ _, True) (cleanup_sidecar_artifacts x).
Proof using Type. unfold cleanup_sidecar_artifacts, remove_runtime_artifact. quiet. Qed.
Lemma quiet_forget name : quiet (λ _, True) (forget_sidecar name).
Proof using Type. unfold forget_sidecar. quiet. Qed.
Lemma quiet_final status process_status reason : quiet (λ _, True) (write_final_state state_to_vec status process_status reason).
Proof using Type. unfold write_final_state, make_last_exit. quiet. apply quiet_write_state. Qed.
Lemma quiet_recoverable record error : quiet (λ _, True) (write_recoverable_failed_state state_to_vec record error).
Proof using Type. unfold write_recoverable_failed_state, failed_exit. quiet. apply quiet_write_state. Qed.
Lemma quiet_ambiguous error : quiet (λ _, True) (write_ambiguous_failed_state state_to_vec error).
Proof using Type. unfold write_ambiguous_failed_state, failed_exit. quiet. apply quiet_write_state. Qed.
Lemma quiet_observe x : quiet (λ _, True) (sidecar_observe_exit x).
Proof using Hlag. by apply quiet_gives, does_sidecar_observe_exit. Qed.
Lemma quiet_phase_deadline grace overall : quiet (λ _, True) (phase_deadline grace overall).
Proof using Type. apply quiet_gives, does_phase_deadline. Qed.
Lemma quiet_stop_phase_timeout deadline cap : quiet (λ _, True) (stop_phase_timeout deadline cap).
Proof using Type. unfold stop_phase_timeout. quiet. Qed.

(** A loop that reads the clock first in every turn. *)
Lemma quiet_until {St A} deadline (out : St → A) (early : St → Act (St + A)) st :
  (∀ st, quiet (λ _, True) (early st)) →
  quiet (λ _, True) (until_deadline deadline (λ st, now ← instant_now; if deadline <=? now then mret (inr (out st)) else early st) st).
Proof using Hlag.
  intros He w. apply (wp_until _ _ (λ _ w0, time w ≤ time w0 ∧ outside (sink w) (sink w0))).
  2:{ split; [done|apply outside_refl]. }
  intros st0 w0 [Ht Ho]. unfold wp at 1. rewrite bind_now.
  assert (time w0 < time (pass 0 w0)) as Hlt by (rewrite time_pass; specialize (Hlag (tick w0)); lia).
  destruct (Z.leb_spec deadline (time (pass 0 w0))); [cbn; split_and!; [simpl in *; lia|done|done]|].
  specialize (He st0 (pass 0 w0)). unfold wp in He. destruct (early st0 _) as [[[st1|a]|e] w1];
    cbn [fst snd] in *; destruct He as (Ht1 & Ho1 & Hr1); pose proof (outside_trans _ _ _ Ho Ho1);
    (split_and!; try done; lia).
Qed.
Lemma quiet_vmm_observe : quiet (λ _, True) (vmm_observe_exit (Json := Json)).
Proof using Hlag.
  apply quiet_gives. unfold vmm_observe_exit. apply does_bind; [apply gives_get|]. intros v.
  destruct (reaped_status v); [by apply gives_ret|]. destruct (process v); [by apply does_observe_exit|by apply gives_fail].
Qed.
Lemma quiet_sleep d : 0 ≤ d → quiet (λ _, True) (sleep d).
Proof using Type. intros. by apply quiet_gives, gives_sleep. Qed.
Lemma quiet_guest_wait socket cap overall deadline observed :
  quiet (λ _, True) (until_deadline deadline (guest_turn info_from_slice unicode_debug socket cap overall deadline) observed).
Proof using Hlag.
  apply (quiet_until deadline (λ b, b)). intros b. apply quiet_bind_; [apply quiet_vmm_observe|]. intros []; [by apply quiet_ret|].
  apply quiet_bind_; [by eapply quiet_weaken; [apply quiet_try, quiet_stop_phase_timeout|]|]. intros [timeout|]; [|by apply quiet_ret].
  apply quiet_bind_; [apply quiet_api_call, finishes_info|]. intros info. apply quiet_bind_.
  - destruct (is_shutdown info); [|by apply quiet_ret].
    apply quiet_bind_; [by eapply quiet_weaken; [apply quiet_try, quiet_stop_phase_timeout|]|]. intros [t|]; [|by apply quiet_ret].
    apply quiet_bind_; [apply quiet_api_call, finishes_vmm_shutdown|]. intros _. by apply quiet_ret.
  - intros _. apply quiet_bind_; [apply quiet_now|]. intros now.
    apply quiet_bind_; [apply quiet_sleep; unfold saturating_sub, LOOP_INTERVAL; lia|]. intros _. by apply quiet_ret.
Qed.

(** ** The supervisor's operations *)

Section runs.
Context (leader : Z) (all : list Z).

(** [m] ends and keeps the invariant, with the sidecars [lost] on the way; [R] is about its result. *)
Definition runs {A} (loose : list OwnedSidecar) (R : list OwnedSidecar → A → Supervisor Json → Prop) (m : Act A) (w : World) : Prop :=
  wp m (λ r w', time w ≤ time w' ∧ ∃ lost, Inv leader all (lost ++ loose) (sink w') ∧
    match r with Ok a => R lost a (sink w') | Err e => e ≠ OutOfFuel end) w.

Lemma inv_outside loose (s s' : Supervisor Json) : Inv leader all loose s → outside s s' → Inv leader all loose s'.
Proof using Type. intros [? ? ? ? ? ?] (E1 & E2 & E3). split; rewrite ?E1, ?E2, ?E3; done. Qed.
(** A sidecar taken off the list. *)
Lemma inv_pop loose (s : Supervisor Json) x rest :
  Inv leader all loose s → owned_sidecars s ≡ₚ x :: rest → Inv leader all (x :: loose) (set_sidecars s rest).
Proof using Type.
  intros [H3 H4 H5 H6 H7 H8] Hp.
  assert (loose ++ owned_sidecars s ≡ₚ (x :: loose) ++ rest) as Hperm by (rewrite Hp; by rewrite <- Permutation_middle).
  assert (live (loose ++ owned_sidecars s) ≡ₚ live ((x :: loose) ++ rest)) as Hlive by (unfold live; by rewrite Hperm).
  split; cbn [set_sidecars effects owned owned_sidecars]; try done.
  - by rewrite <- Hperm.
  - by rewrite <- Hlive.
  - by rewrite <- Hlive.
  - intros pid Hpid. rewrite <- Hlive. by apply H8.
Qed.

Lemma runs_bind {A B} loose (R : list OwnedSidecar → A → Supervisor Json → Prop) R' (m : Act A) (k : A → Act B) w :
  runs loose R m w →
  (∀ lost a w', Inv leader all (lost ++ loose) (sink w') → R lost a (sink w') →
    runs (lost ++ loose) (λ lost', R' (lost' ++ lost)) (k a) w') →
  runs loose R' (m ≫= k) w.
Proof using Type.
  unfold runs. intros Hm Hk. apply wp_bind. eapply wp_mono; [exact Hm|].
  intros [a|e] w1 (Ht & lost & HI & HR); [|by split; [|exists lost]].
  eapply wp_mono; [by apply Hk|]. intros r w2 (Ht2 & lost2 & HI2 & HR2). split; [lia|].
  exists (lost2 ++ lost). rewrite <- app_assoc. by split.
Qed.
Lemma runs_weaken {A} loose (R R' : list OwnedSidecar → A → Supervisor Json → Prop) (m : Act A) w :
  runs loose R m w → (∀ lost a s, R lost a s → R' lost a s) → runs loose R' m w.
Proof using Type.
  unfold runs. intros Hm HR. eapply wp_mono; [exact Hm|]. intros r w' (? & lost & ? & ?). split; [done|]. exists lost.
  split; [done|]. destruct r; auto.
Qed.
Lemma runs_ret {A} loose (R : list OwnedSidecar → A → Supervisor Json → Prop) a w :
  Inv leader all loose (sink w) → R [] a (sink w) → runs loose R (mret a) w.
Proof using Type. intros HI HR. split; [done|]. by exists []. Qed.
Lemma runs_fail {A} loose (R : list OwnedSidecar → A → Supervisor Json → Prop) e w :
  Inv leader all loose (sink w) → runs loose R (fail e) w.
Proof using Type. intros HI. split; [done|]. by exists []. Qed.
Lemma runs_try {A} loose (R : list OwnedSidecar → A → Supervisor Json → Prop) (m : Act A) w :
  runs loose R m w → runs loose (λ lost r s, match r with Ok a => R lost a s | Err _ => True end) (try_ m) w.
Proof using Type.
  unfold runs, wp, try_. intros (Ht & lost & HI & HR). destruct (m w) as [[a|[e|]] w']; cbn in *; (split; [done|]); by exists lost.
Qed.
Lemma runs_quiet_bind {A B} loose (R : A → Prop) R' (m : Act A) (k : A → Act B) w :
  Inv leader all loose (sink w) → quiet R m →
  (∀ a w', Inv leader all loose (sink w') → outside (sink w) (sink w') → R a → runs loose R' (k a) w') →
  runs loose R' (m ≫= k) w.
Proof using Type.
  intros HI Hm Hk. unfold runs. apply wp_bind. eapply wp_mono; [apply Hm|]. intros [a|e] w1 (Ht & Ho & HR).
  - eapply wp_mono; [by eapply Hk; [eapply inv_outside| |]|]. intros r w2 (? & lost & ? & ?). split; [lia|]. by exists lost.
  - split; [done|]. exists []. split; [by eapply inv_outside|done].
Qed.
Lemma runs_quiet {A} loose (R : A → Prop) (m : Act A) w :
  Inv leader all loose (sink w) → quiet R m → runs loose (λ lost a s, lost = [] ∧ R a ∧ outside (sink w) s) m w.
Proof using Type.
  intros HI Hm. unfold runs. eapply wp_mono; [apply Hm|]. intros r w1 (Ht & Ho & HR). split; [done|]. exists [].
  split; [by eapply inv_outside|]. by destruct r.
Qed.
Lemma runs_keeps {A} loose (R : A → Supervisor Json → Prop) (m : Act A) w :
  keeps leader all loose R m w → runs loose (λ lost a s, lost = [] ∧ R a s ∧ kept (sink w) s) m w.
Proof using Type.
  unfold keeps, runs. intros Hm. eapply wp_mono; [exact Hm|]. intros r w' (? & ? & ? & ?). split; [done|]. exists [].
  split; [done|]. by destruct r.
Qed.
Lemma runs_get {A B} loose (f : Supervisor Json → A) R (k : A → Act B) w :
  runs loose R (k (f (sink w))) w → runs loose R (get f ≫= k) w.
Proof using Type. done. Qed.
Lemma runs_lift_bind {A B} loose (r : result FirestoneError A) R (k : A → Act B) w :
  Inv leader all loose (sink w) → (∀ a, r = Ok a → runs loose R (k a) w) → runs loose R (lift r ≫= k) w.
Proof using Type. intros HI Hk. destruct r as [a|e]; [by apply Hk|by apply runs_fail]. Qed.

(** ** Sidecars *)

Lemma does_stop_phase loose (w : World) signal deadline :
  Inv leader all loose (sink w) →
  does (Json := Json) (allowed loose (sink w)) (
    fold_act (signal_running signal) () (owned_sidecars (sink w));;
    phase ← phase_deadline CHILD_TERM_GRACE deadline;
    wait_exit (all_exited (owned_sidecars (sink w))) true phase).
Proof using Hlag.
  intros HI. apply does_bind.
  - apply gives_fold; [done|]. intros [] x Hx _. unfold signal_running.
    apply does_bind; [by apply does_sidecar_observe_exit|]. intros []; [by apply gives_ret|].
    apply does_bind_lift. intros p Hp%ok_or_Ok. apply does_signal_group; [done|].
    intros group Hg Hr. eapply sidecar_group_allowed; [done| |done..]. apply elem_of_app. by right.
  - intros _. apply does_bind; [apply does_phase_deadline|]. intros phase. apply does_wait_exit; [done|].
    unfold all_exited, any_alive. apply does_bind; [|intros alive; by apply gives_ret].
    apply does_fold. intros alive x. apply does_bind; [by apply does_sidecar_observe_exit|]. intros exited. by apply gives_ret.
Qed.
Lemma wp_get_bind {A B C} (f : Supervisor Json → A) (k1 : A → Act B) (k : B → Act C) Q w :
  wp (k1 (f (sink w)) ≫= k) Q w → wp ((get f ≫= k1) ≫= k) Q w.
Proof using Type. done. Qed.
Lemma runs_stop_phase {B} loose signal deadline R' (k : () → Act B) w :
  Inv leader all loose (sink w) →
  (∀ w', Inv leader all loose (sink w') → owned_sidecars (sink w') = owned_sidecars (sink w) →
    owned (sink w') = owned (sink w) → machine (sink w') = machine (sink w) → runs loose R' (k ()) w') →
  runs loose R' (stop_phase signal deadline ≫= k) w.
Proof using Hlag.
  intros HI Hk. unfold stop_phase, runs. apply wp_get_bind, wp_bind.
  eapply wp_mono; [eapply (wp_gives leader all loose (λ _, True)); [exact HI|exact (does_stop_phase loose w signal deadline HI)]|].
  intros [[]|e] w1 (Ht & (Hs & Hm & _) & Ho & HI1 & Hr).
  - eapply wp_mono; [by apply Hk|]. intros r w2 (? & lost & ? & ?). split; [lia|]. by exists lost.
  - split; [done|]. by exists [].
Qed.

(** Reaping a sidecar taken off the list: it is released, or dropped and the error reported. *)
Lemma runs_pop_reap {B} loose x rest R (k : ExitStatus → OwnedSidecar → Act B) w :
  Inv leader all loose (sink w) → owned_sidecars (sink w) ≡ₚ x :: rest →
  (∀ status x' w', Inv leader all loose (sink w') → owned_sidecars (sink w') = rest →
    owned (sink w') = owned (sink w) → runs loose R (k status x') w') →
  runs loose R (modify (λ s, set_sidecars s rest);;
    r ← try_ (reap_exited x);
    match r with Err error => drop_sidecar x;; fail error | Ok (status, x') => k status x' end) w.
Proof using Hlag.
  intros HI Hl Hk. set (w1 := {| time := time w; tick := tick w; sink := set_sidecars (sink w) rest |} : World).
  assert (Inv leader all (x :: loose) (sink w1)) as HI1 by by apply inv_pop.
  change (runs loose R (r ← try_ (reap_exited x);
    match r with Err error => drop_sidecar x;; fail error | Ok (status, x') => k status x' end) w1).
  unfold runs. apply wp_bind. pose proof (releases_reap_exited Hlag leader all loose x w1 HI1) as Hrel.
  unfold releases, wp, try_ in Hrel |- *. destruct (reap_exited x w1) as [[[status x']|[e|]] w2]; cbn [fst snd] in *;
    destruct Hrel as (Ht2 & Hk2 & Ho2 & Hr2); [destruct Hr2 as (HI2 & _ & _)|destruct Hr2 as [_ HI2]|by destruct Hr2].
  - destruct (Hk status x' w2 HI2) as (Ht & Hrest); [by destruct Hk2 as [-> _]|by rewrite Ho2|].
    split; [etrans; [exact Ht2|exact Ht]|exact Hrest].
  - apply wp_bind. eapply wp_mono; [by apply wp_drop_sidecar|]. intros r w3 (? & ? & ? & -> & lost & HI3).
    split; [simpl in *; lia|]. by exists lost.
Qed.
Lemma runs_reap_popped loose l error w :
  Inv leader all loose (sink w) → owned_sidecars (sink w) = reverse l →
  runs loose (λ lost _ s, lost = [] ∧ owned_sidecars s = [] ∧ owned s = owned (sink w)) (reap_popped l error) w.
Proof using Hlag.
  revert error w. induction l as [|x l IH]; intros error w HI Hl; cbn [reap_popped]; [by apply runs_ret|].
  apply (runs_pop_reap loose x (reverse l) _ (λ _ x', cleaned ← try_ (cleanup_sidecar_artifacts x');
    forget_sidecar (sidecar_name x');;
    reap_popped l (match cleaned, error with Err error, None => Some error | _, _ => error end))); [done| |].
  { rewrite Hl, reverse_cons. by rewrite Permutation_app_comm. }
  intros status x' w2 HI2 Hs2 Ho2.
  eapply runs_quiet_bind; [done|by apply quiet_try, quiet_cleanup|]. intros cleaned w3 HI3 (_ & Ho3 & Hs3) _.
  eapply runs_quiet_bind; [done|by apply quiet_forget|]. intros [] w4 HI4 (_ & Ho4 & Hs4) _.
  eapply runs_weaken; [apply IH; [done|by rewrite Hs4, Hs3]|].
  intros lost a s (? & ? & E). split_and!; [done..|]. by rewrite E, Ho4, Ho3, Ho2.
Qed.
Lemma quiet_find_running l : quiet (λ _, True) (find_running l).
Proof using Hlag.
  induction l as [|x l IH]; cbn [find_running]; [by apply quiet_ret|].
  apply quiet_bind_; [by eapply quiet_weaken; [apply quiet_try, quiet_observe|]|]. intros [[]|]; [done|by apply quiet_ret|done].
Qed.
Lemma runs_stop_owned_sidecars loose deadline w :
  Inv leader all loose (sink w) →
  runs loose (λ lost _ s, lost = [] ∧ owned_sidecars s = [] ∧ owned s = owned (sink w))
    (stop_owned_sidecars state_to_vec identity_to_vec deadline) w.
Proof using Hlag.
  intros HI. unfold stop_owned_sidecars. apply runs_stop_phase; [done|]. intros w1 HI1 Hs1 Ho1 _.
  apply runs_stop_phase; [done|]. intros w2 HI2 Hs2 Ho2 _. apply runs_get.
  eapply runs_quiet_bind; [done|apply quiet_find_running|]. intros [x|] w3 HI3 (_ & Ho3 & Hs3) _; [by apply runs_fail|].
  eapply runs_bind; [apply runs_reap_popped; [done|]; by rewrite reverse_involutive|].
  intros lost error w4 HI4 (-> & Hs4 & Ho4). cbn [app] in HI4 |- *.
  eapply runs_quiet_bind; [done|apply quiet_publish|]. intros [] w5 HI5 (_ & Ho5 & Hs5) _.
  eapply runs_quiet_bind; [done|apply quiet_write_state|]. intros [] w6 HI6 (_ & Ho6 & Hs6) _.
  destruct error; [by apply runs_fail|]. apply runs_ret; [done|]. rewrite Hs6, Hs5. split_and!; [done..|].
  by rewrite Ho6, Ho5, Ho4, Ho3, Ho2.
Qed.
Lemma runs_reconcile_from loose before l w :
  Inv leader all loose (sink w) → owned_sidecars (sink w) = before ++ l →
  runs loose (λ lost _ s, lost = []) (reconcile_from state_to_vec identity_to_vec before l) w.
Proof using Hlag.
  revert before w. induction l as [|x l IH]; intros before w HI Hl; cbn [reconcile_from]; [by apply runs_ret|].
  eapply runs_quiet_bind; [done|apply quiet_observe|]. intros exited w1 HI1 (_ & _ & Hs1) _.
  destruct (negb exited); [apply IH; [done|]; by rewrite Hs1, Hl, <- app_assoc|].
  apply (runs_pop_reap loose x (before ++ l) _ (λ status x', (log_failure ("machine `" +:+ machine_name +:+ "` could not clean " +:+ sidecar_name x' +:+ " artifacts")
      "; runtime entry retained" (cleanup_sidecar_artifacts x');;
    forget_sidecar (sidecar_name x');;
    let marker := sidecar_exit_marker (sidecar_name x') status in
    modify (λ w, set_machine w (mark_degraded marker (machine w)));;
    write_shim_log ("machine `" +:+ machine_name +:+ "` " +:+ marker);;
    publish_process_identity identity_to_vec;;
    write_machine_state state_to_vec;;
    reconcile_from state_to_vec identity_to_vec before l) : Act ())); [done|by rewrite Hs1, Hl, Permutation_middle|].
  intros status x' w3 HI3 Hs3 _.
  eapply runs_quiet_bind; [done|by apply quiet_log_failure, quiet_cleanup|]. intros [] w4 HI4 (_ & _ & Hs4) _.
  eapply runs_quiet_bind; [done|by apply quiet_forget|]. intros [] w5 HI5 (_ & _ & Hs5) _.
  eapply runs_quiet_bind; [done|by apply quiet_modify; repeat split|]. intros [] w6 HI6 (_ & _ & Hs6) _.
  eapply runs_quiet_bind; [done|apply quiet_log|]. intros [] w7 HI7 (_ & _ & Hs7) _.
  eapply runs_quiet_bind; [done|apply quiet_publish|]. intros [] w8 HI8 (_ & _ & Hs8) _.
  eapply runs_quiet_bind; [done|apply quiet_write_state|]. intros [] w9 HI9 (_ & _ & Hs9) _.
  apply IH; [done|]. by rewrite Hs9, Hs8, Hs7, Hs6, Hs5, Hs4, Hs3.
Qed.

(** ** The VMM *)

Definition reaped_with (status : ExitStatus) (s : Supervisor Json) : Prop :=
  process (owned s) = None ∧ reaped_status (owned s) = Some status.
(** The reason a stop gives. *)
Definition stop_reason (force : bool) (r : ExitReason) : Prop :=
  if force then r = Failure "forced stop"
  else r ∈ [GuestShutdown; Failure "VMM API failed during graceful stop";
            Failure "VMM shutdown API did not terminate the process"; Failure "graceful stop timed out"].

Lemma runs_terminate loose send_term grace overall w :
  Inv leader all loose (sink w) →
  runs loose (λ lost status s, lost = [] ∧ reaped_with status s)
    (terminate_and_reap_before console_shutdown send_term grace overall) w.
Proof using Hlag.
  intros HI. eapply runs_weaken; [by apply runs_keeps, keeps_terminate_and_reap_before|]. by intros lost a s (? & ? & ?).
Qed.
Lemma runs_reap_exited_group loose w :
  Inv leader all loose (sink w) →
  runs loose (λ lost status s, lost = [] ∧ reaped_with status s) (reap_exited_group console_shutdown) w.
Proof using Hlag.
  intros HI. eapply runs_weaken; [by apply runs_keeps, keeps_terminate_and_reap|]. by intros lost a s (? & ? & ?).
Qed.
Lemma runs_map {A B} loose (P : A → Supervisor Json → Prop) (R : B → Supervisor Json → Prop) (m : Act A) (f : A → B) w :
  runs loose (λ lost a s, lost = [] ∧ P a s) m w → (∀ a s, P a s → R (f a) s) →
  runs loose (λ lost b s, lost = [] ∧ R b s) (a ← m; mret (f a)) w.
Proof using Type.
  intros Hm HR. eapply runs_bind; [exact Hm|]. intros lost a w1 HI1 (-> & HP). apply runs_ret; [done|]. auto.
Qed.
Lemma runs_stop_vmm_process loose plan timeout force overall w :
  Inv leader all loose (sink w) →
  runs loose (λ lost p s, lost = [] ∧ reaped_with p.1 s ∧ stop_reason force p.2)
    (stop_vmm_process info_from_slice unicode_debug plan timeout force overall) w.
Proof using Hlag.
  intros HI. unfold stop_vmm_process. apply runs_lift_bind; [done|]. intros socket _. apply runs_lift_bind; [done|]. intros t _.
  destruct force; [by eapply runs_map; [by apply runs_terminate|]; intros status s ?|].
  unfold graceful_stop.
  eapply runs_quiet_bind; [done|apply quiet_stop_phase_timeout|]. intros power_timeout w1 HI1 _ _.
  eapply runs_quiet_bind; [done|apply quiet_api_call, finishes_power_button|]. intros power w2 HI2 _ _.
  eapply runs_quiet_bind; [done|apply quiet_phase_deadline|]. intros deadline w3 HI3 _ _.
  eapply (runs_quiet_bind _ (λ _, True)); [done|destruct (is_ok power); [apply quiet_guest_wait|by apply quiet_ret]|].
  intros observed w4 HI4 _ _. eapply runs_quiet_bind; [done|apply quiet_vmm_observe|]. intros [] w5 HI5 _ _.
  - eapply runs_map; [by apply runs_reap_exited_group|]. intros status s ?. split; [done|]. cbn. set_solver.
  - eapply runs_quiet_bind; [done|apply quiet_reply|]. intros [] w6 HI6 _ _.
    eapply runs_quiet_bind; [done|apply quiet_now|]. intros now w7 HI7 _ _.
    eapply runs_map; [by apply runs_terminate|]. intros status s ?. split; [done|]. cbn.
    destruct (is_ok power); cbn; [|set_solver]. destruct observed; set_solver.
Qed.

(** ** The record at the end *)

(** The state file was last written with the machine's state. *)
Definition written (s : Supervisor Json) : Prop := ∃ path faults write_fault before,
  machine_state_path = Ok path ∧
  write_from_shim state_to_vec faults write_fault {| store_path := path |} (machine s) before = (Ok (), files s).
(** The machine's state says that nothing runs, and how the VMM ended. *)
Definition recorded (status : MachineStatus) (exit : option ExitStatus) (why : ExitReason) (s : Supervisor Json) : Prop :=
  (∃ at_ m, machine s = final_machine m status
     {| at_ := at_; code := exit ≫= exit_code; signal := exit ≫= exit_signal; reason := why |}) ∧ written s.
Lemma wp_write_final_state status exit why w :
  wp (write_final_state state_to_vec status exit why) (λ r w', time w ≤ time w' ∧ outside (sink w) (sink w') ∧
    match r with Ok _ => recorded status exit why (sink w') | Err e => e ≠ OutOfFuel end) w.
Proof using Type.
  pose proof (quiet_final status exit why w) as Hq. unfold wp in *. destruct Hq as (Ht & Ho & Hr).
  split_and!; [done|done|]. destruct (write_final_state _ _ _ _ w) as [[[]|e] w'] eqn:E; cbn [fst snd] in *; [|done].
  clear -E. unfold write_final_state, make_last_exit, write_machine_state in E.
  destruct machine_state_path as [path|e] eqn:Hpath.
  2:{ unfold mbind, M_bind in E. cbn in E. discriminate. }
  unfold mbind, M_bind in E. cbn in E.
  match type of E with context [on_files ?f ?w] => set (w2 := w) in E; set (g := f) in E end.
  unfold on_files in E. destruct (g (disk_faults (tick w2)) (disk_write_fault (tick w2)) (files (sink w2))) as [r f] eqn:Hw.
  injection E as Er <-. destruct r as [[]|]; [|done]. split.
  - do 2 eexists. cbn. reflexivity.
  - exists path, (disk_faults (tick w2)), (disk_write_fault (tick w2)), (files (sink w2)). split; [done|]. cbn. exact Hw.
Qed.
Lemma runs_write_final_state {B} loose status exit why R (k : () → Act B) w :
  Inv leader all loose (sink w) →
  (∀ w', Inv leader all loose (sink w') → outside (sink w) (sink w') → recorded status exit why (sink w') → runs loose R (k ()) w') →
  runs loose R (write_final_state state_to_vec status exit why ≫= k) w.
Proof using Type.
  intros HI Hk. unfold runs. apply wp_bind. eapply wp_mono; [apply wp_write_final_state|].
  intros [[]|e] w1 (Ht & Ho & Hr).
  - eapply wp_mono; [by apply Hk; [eapply inv_outside| |]|]. intros r w2 (? & lost & ? & ?). split; [lia|]. by exists lost.
  - split; [done|]. exists []. split; [by eapply inv_outside|done].
Qed.

(** What a stop that succeeded leaves. *)
Definition stopped (force : bool) (s : Supervisor Json) : Prop := ∃ status why,
  reaped_with status s ∧ owned_sidecars s = [] ∧ recorded Stopped (Some status) why s ∧ stop_reason force why.
Lemma runs_stop_owned_vmm loose plan timeout force overall w :
  Inv leader all loose (sink w) →
  runs loose (λ lost _ s, lost = [] ∧ stopped force s)
    (stop_owned_vmm state_to_vec identity_to_vec info_from_slice unicode_debug plan timeout force overall) w.
Proof using Hlag.
  intros HI. unfold stop_owned_vmm.
  eapply runs_quiet_bind; [done|by apply quiet_modify; repeat split|]. intros [] w1 HI1 _ _.
  eapply runs_quiet_bind; [done|apply quiet_reply|]. intros [] w2 HI2 _ _.
  eapply runs_quiet_bind; [done|apply quiet_log|]. intros [] w3 HI3 _ _.
  apply runs_get. apply runs_lift_bind; [done|]. intros r _. apply runs_get. destruct (negb _); [by apply runs_fail|].
  eapply runs_bind; [by apply runs_stop_vmm_process|]. intros lost [status why] w4 HI4 (-> & Hw & Hreason).
  cbn [app fst snd] in HI4, Hw, Hreason |- *.
  eapply runs_quiet_bind; [done|by apply quiet_modify; repeat split|]. intros [] w5 HI5 (_ & Ho5 & _) _.
  eapply runs_bind; [by apply runs_stop_owned_sidecars|]. intros lost a w6 HI6 (-> & Hs6 & Ho6). cbn [app] in HI6 |- *.
  eapply runs_write_final_state; [done|]. intros w7 HI7 (_ & Ho7 & Hs7) Hrec. apply runs_get.
  split; [done|]. exists []. split; [by eapply inv_outside; [exact HI7|repeat split]|].
  split; [done|]. exists status, why. unfold reaped_with in *. cbn. rewrite Ho7, Ho6, Ho5, Hs7.
  by repeat split; try apply Hw; try apply Hrec.
Qed.

(** ** The stop request *)

(** What the client was last sent. *)
Definition told (r : Reply Json → Prop) (s : Supervisor Json) : Prop := ∃ x, last (replies s) = Some x ∧ r x.
Definition is_error (r : Reply Json) : Prop := ∃ i, r = TerminalError i.
(** The VMM's status is known, no sidecar is owned, and the record that was written says so. *)
Definition settled_as (why : ExitReason → Prop) (s : Supervisor Json) : Prop := ∃ status reason,
  reaped_with status s ∧ owned_sidecars s = [] ∧ recorded Stopped (Some status) reason s ∧ why reason.
Definition stop_answer (force : bool) (c : () + ()) (s : Supervisor Json) : Prop :=
  match c with
  | inr _ => told (λ r, r = TerminalOk) s ∧ settled_as (λ why, stop_reason force why ∨ why = GuestShutdown) s
  | inl _ => told is_error s
  end.

Lemma runs_reply {B} loose r (R : B → Supervisor Json → Prop) (b : B) w :
  Inv leader all loose (sink w) → R b (set_replies (sink w) (replies (sink w) ++ [r])) →
  runs loose (λ _, R) (reply r;; mret b) w.
Proof using Type.
  intros HI HR. split; [done|]. exists []. split; [by eapply inv_outside; [exact HI|repeat split]|exact HR].
Qed.
Lemma last_snoc_told (r : Reply Json) (P : Reply Json → Prop) s :
  P r → told P (set_replies s (replies s ++ [r])).
Proof using Type. intros HP. exists r. split; [by apply last_snoc|done]. Qed.

(** Asking leaves the supervisor as it is. *)
Lemma runs_ask {A B} loose (f : nat → A) R (k : A → Act B) w :
  (∀ a w', sink w' = sink w → runs loose R (k a) w') → runs loose R (ask f ≫= k) w.
Proof using Type.
  intros Hk. destruct (Hk (f (tick w)) (pass 0 w) eq_refl) as (Ht & lost & ?). split; [|by exists lost].
  etrans; [apply time_pass_ge|exact Ht].
Qed.
Lemma runs_finish_stop loose force w :
  Inv leader all loose (sink w) → settled_as (λ why, stop_reason force why ∨ why = GuestShutdown) (sink w) →
  runs loose (λ _, stop_answer force) (finish_stop ()) w.
Proof using Type.
  intros HI Hs. unfold finish_stop.
  assert (∀ (B : Type) (f : nat → result FirestoneError ()) (k : () → Act B) R w0, Inv leader all loose (sink w0) →
    (∀ w', sink w' = sink w0 → runs loose R (k ()) w') → runs loose R ((r ← ask f; lift r) ≫= k) w0) as Hstep.
  { intros B f k R w0 HI0 Hk. 
    assert (runs loose R (r ← ask f; lift r ≫= k) w0) as Hr.
    { apply runs_ask. intros a w' E. rewrite <- E in HI0. apply runs_lift_bind; [done|]. intros [] _. by apply Hk. }
    unfold runs, wp in *. unfold mbind, M_bind in *. unfold ask, observe in *. by destruct (f (tick w0)). }
  apply Hstep; [done|]. intros w1 E1. apply Hstep; [by rewrite E1|]. intros w2 E2. rewrite E1 in E2.
  apply runs_reply; [by rewrite E2|]. split; [by apply last_snoc_told|]. by rewrite E2.
Qed.
Lemma quiet_recovered_none deadline : quiet (λ _, True) (stop_recovered_none state_to_vec identity_to_vec deadline).
Proof using Type.
  unfold stop_recovered_none. apply quiet_bind_; [apply quiet_phase_deadline|]. intros _. apply quiet_bind_; [apply quiet_now|].
  intros _. apply quiet_bind_; [apply quiet_phase_deadline|]. intros _. apply quiet_bind_; [apply quiet_now|]. intros _.
  apply quiet_bind_; [apply quiet_publish|]. intros _. apply quiet_write_state.
Qed.

(** Whether the VMM's process is known to be over, and with what status. *)
Lemma runs_completed loose w :
  Inv leader all loose (sink w) →
  runs loose (λ lost o s, lost = [] ∧ match o with Some status => reaped_with status s | None => is_fully_reaped (owned (sink w)) = false end)
    (if is_fully_reaped (owned (sink w)) then mret (reaped_status (owned (sink w))) else
     exited ← vmm_observe_exit;
     if exited : bool then status ← reap_exited_group console_shutdown; mret (Some status) else mret None) w.
Proof using Hlag.
  intros HI. destruct (is_fully_reaped (owned (sink w))) eqn:Hf.
  - apply runs_ret; [done|]. unfold is_fully_reaped in Hf. apply andb_true_iff in Hf as [Hp Hs].
    apply bool_decide_eq_true in Hp, Hs. destruct Hs as [status Hs]. rewrite Hs. by split.
  - eapply runs_quiet_bind; [done|apply quiet_vmm_observe|]. intros [] w1 HI1 _ _; [|by apply runs_ret].
    eapply runs_bind; [by apply runs_reap_exited_group|]. intros lost status w2 HI2 [-> Hw]. by apply runs_ret.
Qed.
Lemma runs_stop_failed loose force before deadline error w :
  Inv leader all loose (sink w) →
  runs loose (λ _, stop_answer force) (stop_failed state_to_vec identity_to_vec before deadline error) w.
Proof using Hlag.
  intros HI. unfold stop_failed. apply runs_get.
  eapply runs_bind; [by apply runs_completed|]. intros lost o w1 HI1 [-> Ho]. cbn [app] in HI1 |- *.
  destruct o as [status|].
  - rewrite bool_decide_eq_false_2 by done. rewrite andb_false_r. rewrite bool_decide_eq_true_2 by done.
    eapply runs_quiet_bind; [done|by apply quiet_modify; repeat split|]. intros [] w2 HI2 (_ & Ho2 & _) _.
    eapply runs_quiet_bind; [done|by apply quiet_modify; repeat split|]. intros [] w3 HI3 (_ & Ho3 & _) _.
    eapply runs_bind; [by apply runs_stop_owned_sidecars|]. intros lost [] w4 HI4 (-> & Hs4 & Ho4). cbn [app] in HI4 |- *.
    eapply runs_quiet_bind; [done|apply quiet_recovered_none|]. intros [] w5 HI5 (_ & Ho5 & Hs5) _.
    eapply runs_write_final_state; [done|]. intros w6 HI6 (_ & Ho6 & Hs6) Hrec.
    eapply runs_weaken; [apply (runs_finish_stop loose force); [done|]|done].
    exists status, GuestShutdown. split_and!; [| |done|by right].
    + unfold reaped_with. by rewrite Ho6, Ho5, Ho4, Ho3, Ho2.
    + by rewrite Hs6, Hs5.
  - rewrite Ho. cbn [negb andb]. rewrite bool_decide_eq_true_2 by done.
    eapply runs_quiet_bind; [done|by apply quiet_modify; repeat split|]. intros [] w2 HI2 _ _.
    eapply runs_quiet_bind; [done|apply quiet_write_state|]. intros [] w3 HI3 _ _.
    apply runs_reply; [done|]. apply last_snoc_told. by eexists.
Qed.
Lemma runs_handle_stop loose plan control_io timeout_s force w :
  Inv leader all loose (sink w) →
  runs loose (λ _, stop_answer force)
    (handle_stop state_to_vec identity_to_vec info_from_slice unicode_debug plan control_io timeout_s force) w.
Proof using Hlag.
  intros HI. unfold handle_stop. destruct (_ <? _).
  { apply runs_reply; [done|]. apply last_snoc_told. by eexists. }
  apply runs_lift_bind; [done|]. intros total _. eapply runs_quiet_bind; [done|apply quiet_now|]. intros now w1 HI1 _ _.
  apply runs_lift_bind; [done|]. intros deadline _. apply runs_get.
  eapply runs_bind; [by apply runs_try, runs_stop_owned_vmm|]. intros lost [[]|error] w2 HI2 HR.
  - destruct HR as (-> & status & why & Hw & Hs & Hrec & Hreason). cbn [app] in *.
    eapply runs_weaken; [apply (runs_finish_stop loose force); [done|]|done]. exists status, why. by split_and!; [..|left].
  - eapply runs_weaken; [by apply (runs_stop_failed _ force)|done].
Qed.

(** ** The last cleanup *)

Lemma runs_finalize loose r w :
  Inv leader all loose (sink w) →
  runs loose (λ _ _ _, True) (finalize_supervisor_result state_to_vec identity_to_vec r) w.
Proof using Hlag.
  intros HI. unfold finalize_supervisor_result. destruct r as [|primary]; [by apply runs_ret|]. apply runs_get.
  destruct (negb _); [by apply runs_fail|]. apply runs_lift_bind; [done|]. intros _ _.
  apply runs_ask. intros [[]|] w1 E1; [|by apply runs_fail; rewrite E1..]. rewrite <- E1 in HI. clear E1.
  eapply runs_quiet_bind; [done|apply quiet_log|]. intros [] w2 HI2 _ _. apply runs_get.
  eapply runs_bind; [by apply runs_try, runs_keeps, keeps_terminate_and_reap|]. intros lost vmm_cleanup w3 HI3 _.
  eapply runs_quiet_bind; [done|apply quiet_now|]. intros now w4 HI4 _ _.
  eapply (runs_quiet_bind _ (λ _, True)); [done|destruct (instant_checked_add _ _); [by apply quiet_ret|apply quiet_now]|].
  intros deadline w5 HI5 _ _.
  eapply runs_bind; [by apply runs_try, runs_stop_owned_sidecars|]. intros lost6 sidecar_cleanup w6 HI6 _.
  eapply runs_quiet_bind; [done|by apply quiet_try, quiet_recovered_none|]. intros recovered w7 HI7 _ _.
  assert (∀ lost e what, quiet (λ _, True) (retain_sidecars (Json := Json) state_to_vec identity_to_vec lost e what)) as Hretain.
  { intros. unfold retain_sidecars. apply quiet_bind_; [apply quiet_publish|]. intros _. apply quiet_bind_; [apply quiet_ambiguous|].
    intros _. apply quiet_bind_; [apply quiet_log|]. intros _. apply quiet_fail. }
  eapply runs_weaken; [eapply (runs_quiet _ (λ _, True)); [done|]|done]. destruct vmm_cleanup as [status|e].
  - apply quiet_bind_; [by apply quiet_modify; repeat split|]. intros _. apply quiet_bind_; [by apply quiet_modify; repeat split|]. intros _.
    destruct sidecar_cleanup; [|apply Hretain]. destruct recovered; [|apply Hretain].
    apply quiet_bind_; [apply quiet_final|]. intros _. quiet.
  - apply quiet_bind_; [by apply quiet_modify; repeat split|]. intros _. apply quiet_bind_; [apply quiet_publish|]. intros _.
    apply quiet_bind_; [apply quiet_recoverable|]. intros _. quiet.
Qed.
End runs.

(** ** Any sequence of operations *)

Inductive ShimOperation : Type :=
  | ObserveVmm
  | TerminateVmm (send_term : bool) (grace deadline : Z)
  | ReapVmm
  | DropVmm
  | ReconcileSidecars
  | StopSidecars (deadline : Z)
  | StopVmm (plan : PlanTimeouts) (timeout : Z) (force : bool) (deadline : Z)
  | StopRequest (plan : PlanTimeouts) (control_io timeout_s : Z) (force : bool)
  | Finalize (outcome : result FirestoneError ()).
Definition run_operation (op : ShimOperation) : Act () :=
  match op with
  | ObserveVmm => vmm_observe_exit;; mret ()
  | TerminateVmm send_term grace deadline => terminate_and_reap_before console_shutdown send_term grace deadline;; mret ()
  | ReapVmm => reap_exited_group console_shutdown;; mret ()
  | DropVmm => drop_vmm console_shutdown
  | ReconcileSidecars => reconcile_owned_sidecar_exits state_to_vec identity_to_vec
  | StopSidecars deadline => stop_owned_sidecars state_to_vec identity_to_vec deadline
  | StopVmm plan timeout force deadline =>
      stop_owned_vmm state_to_vec identity_to_vec info_from_slice unicode_debug plan timeout force deadline
  | StopRequest plan control_io timeout_s force =>
      handle_stop state_to_vec identity_to_vec info_from_slice unicode_debug plan control_io timeout_s force;; mret ()
  | Finalize outcome => finalize_supervisor_result state_to_vec identity_to_vec outcome
  end.
(** One after the other, each whatever became of those before. *)
Definition run_operations (ops : list ShimOperation) : Act () :=
  fold_act (λ _ op, try_ (run_operation op);; mret ()) () ops.

Lemma runs_operation leader all loose op w :
  Inv leader all loose (sink w) → runs leader all loose (λ _ _ _, True) (run_operation op) w.
Proof using Hlag.
  intros HI. assert (∀ A (R : list OwnedSidecar → A → Supervisor Json → Prop) (m : Act A), runs leader all loose R m w →
    runs leader all loose (λ _ _ _, True) (m;; mret ()) w) as Hunit.
  { intros A R m Hm. eapply runs_bind; [exact Hm|]. intros lost a w1 HI1 _. by apply runs_ret. }
  assert (∀ (R : list OwnedSidecar → () → Supervisor Json → Prop) m, runs leader all loose R m w →
    runs leader all loose (λ _ _ _, True) m w) as Hweak by (intros R m Hm; by eapply runs_weaken).
  destruct op; cbn [run_operation].
  - eapply Hunit, runs_quiet; [done|apply quiet_vmm_observe].
  - by eapply Hunit, runs_terminate.
  - by eapply Hunit, runs_reap_exited_group.
  - by eapply Hweak, runs_keeps, keeps_drop_vmm.
  - eapply Hweak, runs_get, runs_reconcile_from; [done|]. done.
  - by eapply Hweak, runs_stop_owned_sidecars.
  - by eapply Hweak, runs_stop_owned_vmm.
  - by eapply Hunit, runs_handle_stop.
  - by apply runs_finalize.
Qed.
Lemma runs_operations leader all loose ops w :
  Inv leader all loose (sink w) →
  ∃ w' lost, run_operations ops w = (Ok (), w') ∧ Inv leader all lost (sink w').
Proof using Hlag.
  revert loose w. induction ops as [|op ops IH]; intros loose w HI; [by exists w, loose|].
  unfold run_operations. cbn [fold_act]. pose proof (runs_try _ _ _ _ _ _ (runs_operation leader all loose op w HI)) as (_ & lost & HI1 & Hr).
  destruct (try_ (run_operation op) w) as [[r|e] w1] eqn:E; cbn [fst snd] in *.
  - destruct (IH _ _ HI1) as (w' & lost' & Hrun & HI'). exists w', lost'. split; [|done].
    unfold mbind, M_bind in *. rewrite E. exact Hrun.
  - exfalso. apply Hr. unfold try_ in E. by destruct (run_operation op w) as [[|[]] ?]; simplify_eq.
Qed.
End spec.

(** ** Properties *)

(** A child just spawned into a session of its own. *)
Definition fresh (p : ManagedProcess) : Prop :=
  process_group p = Some (managed_id p) ∧ reaped p = false ∧ child_status (child p) = None.
(** The shim when its launch has succeeded: nothing was signalled or reaped yet, every child is
    fresh, and the VMM's owner is told to leave the sidecars alone. *)
Record Launched `{Kernel} {Json} (leader : Z) (s : Supervisor Json) : Prop := {
  no_effects : effects s = [];
  leader_fresh : ∃ p, process (owned s) = Some p ∧ managed_id p = leader ∧ fresh p;
  leader_running : reaped_status (owned s) = None;
  sidecars_fresh : ∀ x, x ∈ owned_sidecars s → sidecar_status x = None ∧ ∃ p, sidecar_process x = Some p ∧ fresh p;
  distinct : NoDup (leader :: live (owned_sidecars s));
  sidecars_spared : Forall (spared (preserved_children (owned s))) (live (owned_sidecars s)) }.

Lemma launched_inv `{Kernel} {Json} leader (s : Supervisor Json) :
  Launched leader s → Inv leader (live (owned_sidecars s)) [] s.
Proof.
  intros [He (p & Hp & Hl & Hg & Hre & Hst) Hr Hs Hd Hsp].
  assert (∀ pid, ¬ reaped_in (effects s) pid) as Hnone.
  { intros pid. rewrite He. intros [[status ?%elem_of_nil]|?%elem_of_nil]; done. }
  split; cbn [app].
  - intros l1 g sig l2 E. rewrite He in E. by destruct l1.
  - split; [by rewrite Hr|]. rewrite Hp, Hr. by repeat split.
  - apply Forall_forall. intros x Hx. destruct (Hs x Hx) as (Hxs & q & Hq & Hqg & Hqr & Hqs).
    unfold sidecar_ok. rewrite Hq. by repeat split.
  - unfold vmm_live. by rewrite Hp, Hr, Hl.
  - done.
  - by left.
Qed.

Section properties.
Context `{Schedule} `{Kernel} `{VmmApi.Socket} `{Host} {Json : Type}.
Context (state_to_vec : MachineState → result string (list Z))
        (identity_to_vec : ProcessIdentity → result string (list Z))
        (info_from_slice : list Z → result string (VmInfo Json))
        (unicode_debug : string → string).

(** C9: shim.rs, the rule its comments state ("no killpg is permitted after wait()"): whatever
    sequence of terminations, stop requests, sidecar reconciliations and cleanups runs after a
    launch, whatever fails on the way and whatever the kernel, the disk and the VMM answer,
    (except that it never shows another start time for a sidecar whose process id is held), the run
    ends, and no group is sent a signal after its leader was reaped, by its owner or as an adopted child; so a signal never reaches a group that took over the number. *)
Theorem group_signals_pinned leader ops (w : Timed (Supervisor Json)) :
  (∀ n, 0 < lag n) → Launched leader (sink w) →
  ∃ w', run_operations state_to_vec identity_to_vec info_from_slice unicode_debug ops w = (Ok (), w') ∧
    ∀ before group signal after, effects (sink w') = before ++ GroupSignalled group signal :: after →
      (∀ status, LeaderReaped group status ∉ before) ∧ AdoptedReaped group ∉ before.
Proof.
  intros Hlag HL%launched_inv.
  destruct (runs_operations state_to_vec identity_to_vec info_from_slice unicode_debug Hlag _ _ [] ops w HL) as (w' & lost & Hrun & HI).
  exists w'. split; [done|]. intros before group signal after E. pose proof (inv_safe _ _ _ _ HI _ _ _ _ E) as Hn.
  split; [intros status Hin; apply Hn; left; by exists status|intros Hin; apply Hn; by right].
Qed.

(** shim.rs, [stop_owned_vmm]: stopping a machine ends, whatever the guest, the VMM's API
    and the clock do; and if it succeeds every child was reaped by its owner and released, and
    the state file was last written with a record that says "stopped", names no process, and
    carries the very status the VMM's process ended with and the reason of this stop. *)
Theorem stop_leaves_nothing leader plan timeout force deadline (w : Timed (Supervisor Json)) r w' :
  (∀ n, 0 < lag n) → Launched leader (sink w) →
  stop_owned_vmm state_to_vec identity_to_vec info_from_slice unicode_debug plan timeout force deadline w = (r, w') →
  r ≠ Err OutOfFuel ∧ (r = Ok () → ∃ status why at_ m,
    LeaderReaped leader status ∈ effects (sink w') ∧ is_fully_reaped (owned (sink w')) = true ∧
    (∀ pid, pid ∈ live (owned_sidecars (sink w)) → ∃ status, LeaderReaped pid status ∈ effects (sink w')) ∧
    owned_sidecars (sink w') = [] ∧
    machine (sink w') = final_machine m Stopped
      {| at_ := at_; code := exit_code status; signal := exit_signal status; reason := why |} ∧
    written state_to_vec (sink w') ∧ stop_reason force why).
Proof.
  intros Hlag HL%launched_inv Hrun.
  pose proof (runs_stop_owned_vmm state_to_vec identity_to_vec info_from_slice unicode_debug Hlag _ _ [] plan timeout force deadline w HL)
    as (_ & lost & HI & Hr). rewrite Hrun in HI, Hr. cbn [fst snd] in HI, Hr. split; [by intros ->|].
  intros ->. destruct Hr as (-> & status & why & [Hp Hs] & Hnil & [(at_ & m & Hm) Hw] & Hreason). cbn [app] in HI.
  exists status, why, at_, m. split_and!; try done.
  - destruct (inv_vmm _ _ _ _ HI) as [Hst _]. by apply Hst.
  - unfold is_fully_reaped. by rewrite Hp, Hs.
  - intros pid Hpid. destruct (inv_all _ _ _ _ HI pid Hpid) as [Hin|?]; [|done].
    rewrite Hnil in Hin. by apply elem_of_nil in Hin.
Qed.

(** shim.rs, the stop request: handling one ends; when the supervisor goes on to exit, the
    client was told that the stop succeeded, the VMM's process was reaped, no sidecar is owned
    and the state file says how the VMM ended; when it goes on supervising, the client was
    told the error. *)
Theorem stop_request_answered leader plan control_io timeout_s force (w : Timed (Supervisor Json)) r w' :
  (∀ n, 0 < lag n) → Launched leader (sink w) →
  handle_stop state_to_vec identity_to_vec info_from_slice unicode_debug plan control_io timeout_s force w = (r, w') →
  match r with
  | Ok (inr _) => last (replies (sink w')) = Some TerminalOk ∧
      ∃ status why at_ m, LeaderReaped leader status ∈ effects (sink w') ∧ is_fully_reaped (owned (sink w')) = true ∧
        owned_sidecars (sink w') = [] ∧
        machine (sink w') = final_machine m Stopped
          {| at_ := at_; code := exit_code status; signal := exit_signal status; reason := why |} ∧
        written state_to_vec (sink w')
  | Ok (inl _) => ∃ i, last (replies (sink w')) = Some (TerminalError i)
  | Err e => e ≠ OutOfFuel
  end.
Proof.
  intros Hlag HL%launched_inv Hrun.
  pose proof (runs_handle_stop state_to_vec identity_to_vec info_from_slice unicode_debug Hlag _ _ [] plan control_io timeout_s force w HL)
    as (_ & lost & HI & Hr). rewrite Hrun in HI, Hr. cbn [fst snd] in HI, Hr. destruct r as [[[]|[]]|e]; [| |done].
  - destruct Hr as (x & Hx & i & ->). by exists i.
  - destruct Hr as [(x & Hx & ->) (status & why & [Hp Hs] & Hnil & [(at_ & m & Hm) Hw] & _)]. split; [done|].
    exists status, why, at_, m. split_and!; try done.
    + destruct (inv_vmm _ _ _ _ HI) as [Hst _]. by apply Hst.
    + unfold is_fully_reaped. by rewrite Hp, Hs.
Qed.
End properties.

(** shim.rs, the walk over the processes below the shim: it ends, whatever [/proc] shows and
    however processes come and go, does nothing to any process, and every process it finds has
    a pid that can be signalled and is none of those kept for other owners, told by pid and
    start time. *)
Theorem snapshot_spares_roots `{Schedule} `{Kernel} {Json} root_pid roots (w : Timed (Supervisor Json)) r w' :
  snapshot_owned_descendants_preserving root_pid roots w = (r, w') →
  r ≠ Err OutOfFuel ∧ effects (sink w') = effects (sink w) ∧
  ∀ m pid d, r = Ok m → m !! pid = Some d → d_pid d = pid ∧ 0 < pid ≤ i32_max ∧
    (∃ parent, shown pid (parent, start_time_ticks d)) ∧
    ∀ o, roots !! pid = Some o → ∃ expected, o = Some expected ∧ expected ≠ start_time_ticks d.
Proof.
  intros Hrun. pose proof (gives_snapshot (λ _, False) root_pid roots w) as (es & (_ & log & Hs) & Hes & Hr).
  rewrite Hrun in Hs, Hr. cbn [fst snd] in *. destruct es as [|e es]; [|by apply Forall_cons in Hes as [[] _]].
  split_and!; [by destruct r as [|[]]|by rewrite Hs; cbn; rewrite app_nil_r|].
  intros m pid d -> Hd. destruct (Hr _ _ Hd) as (? & ? & Hpre & Hshown). split_and!; [done|lia..|done|].
  intros o Ho. unfold preserved in Hpre. rewrite Ho in Hpre. destruct o as [expected|]; [|done].
  exists expected. split; [done|]. by apply Z.eqb_neq.
Qed.
(** ** A concrete shim *)

Definition demo_stat (parent start : Z) : string :=
  "7 (name) of it) S " +:+ dec parent +:+ " 0 0 0 0 0 0 0 0 0 0 0 0 0 0 0 0 0 " +:+ dec start +:+ " 0" +:+ one LF.
Definition missing : IoError := {| io_kind := IoNotFound; io_text := "not found" |}.
(** The shim is 50, the VMM 100, a sidecar 200; the VMM's child 300 outlives it for a while. *)
Definition demo_proc (n : nat) (path : string) : result IoError string :=
  if String.eqb path "/proc/50/stat" then Ok (demo_stat 1 500)
  else if String.eqb path "/proc/100/stat" then Ok (demo_stat 50 600)
  else if String.eqb path "/proc/200/stat" then Ok (demo_stat 50 700)
  else if String.eqb path "/proc/300/stat" then Ok (demo_stat (if (n <? 60)%nat then 100 else 50) 800)
  else if String.eqb path "/proc/50/task/50/children" then
    Ok (if (n <? 60)%nat then "100 200" else if (n <? 90)%nat then "200 300 " else "200 ")
  else if String.eqb path "/proc/100/task/100/children" then Ok "300 "
  else Err missing.
Definition demo_kernel (vmm_status : Z) : Kernel := {|
  waitid_ n pid := Ok (if (n <? 60)%nat then None else Some ChildExited);
  wait_ n pid := Ok (if pid =? 100 then vmm_status else 0);
  kill_ _ _ _ := Signalled; killpg_ _ _ _ := Signalled; getpgid_ _ pid := Ok pid;
  pidfd_open _ pid := PidfdOpen (Z.to_nat pid); pidfd_send_signal _ _ _ := Signalled;
  waitpid _ _ := ChildReaped;
  read_to_string := demo_proc; metadata_uid _ _ := Ok 1000;
  read_dir _ path := if String.eqb path "/proc/50/task" then Ok [Some "/proc/50/task/50"; None]
    else if String.eqb path "/proc/100/task" then Ok [Some "/proc/100/task/100"] else Err missing;
  own_pid := 50; own_uid := 1000 |}.
(** A file system whose sidecar socket has the given mode. *)
Definition demo_host (mode : Z) : Host := {|
  symlink_metadata _ _ := Ok {| is_socket := true; is_regular := false; owner_uid := 1000; file_mode := 49152 + mode |};
  unlink _ _ := Ok (); disk_faults _ := no_faults; disk_write_fault _ := None; peer _ := [];
  timestamp _ := "2026-01-01T00:00:00Z"; console_shutdown _ := Ok (); merge_console_log _ := Ok ();
  cleanup_after_shim _ := Ok (); runtime_dir_exists_ _ := Ok true; machine_name := "dev";
  machine_state_path := Ok "/m/dev/state.json"; machine_identity_path := Ok "/m/dev/process.json";
  machine_api_socket := Ok "/run/dev/vmm.sock"; machine_runtime_path := Ok "/run/dev" |}.

Definition demo_process (pid : Z) : ManagedProcess := {|
  child := {| child_id := pid; child_status := None |}; process_group := Some pid; reaped := false |}.
Definition demo_sidecar : OwnedSidecar := {|
  sidecar_name := "passt"; sidecar_process := Some (demo_process 200);
  sidecar_record := spawn_record (demo_process 200) "/usr/bin/passt" 1000; sidecar_status := None;
  artifacts := [{| artifact_path := "/run/dev/passt.sock"; artifact_uid := 1000; artifact_mode := 384; artifact_kind := Owner.Socket |}] |}.
Definition demo_vmm_record : ProcessRecord := spawn_record (demo_process 100) "/usr/bin/cloud-hypervisor" 1000.
Definition demo_supervisor : Supervisor () := {|
  effects := [];
  owned := {| process := Some (demo_process 100); vmm_record := demo_vmm_record; reaped_status := None;
    preserved_children := {[ 200 := Some 700 ]}; console := true |};
  owned_sidecars := [demo_sidecar]; machine := demo_state;
  identity := {| identity_version := 3; shim := demo_vmm_record; vmm := Some demo_vmm_record;
    sidecars := {[ "passt" := sidecar_record demo_sidecar ]} |};
  evidence := (100, OWNER_ARMED); files := start demo_fs; shim_log := []; replies := [] |}.
Definition demo_shim : Timed (Supervisor ()) := {| time := 0; tick := 0; sink := demo_supervisor |}.
Definition demo_plan : PlanTimeouts := {|
  api_timeout_ms := 2000; readiness_timeout_ms := 10000; control_io_timeout_ms := 2000;
  launch_request_timeout_ms := 30000; launch_overall_timeout_ms := 30000 |}.
Definition demo_vec {A} (_ : A) : result string (list Z) := Ok [123; 125].
Definition demo_info (_ : list Z) : result string (VmInfo ()) := Err "not JSON".

Lemma demo_launched status : Launched (H := demo_kernel status) 100 (sink demo_shim).
Proof.
  split; [done|by exists (demo_process 100)|done| | |].
  - intros x [->|[]%elem_of_nil]%elem_of_cons. split; [done|]. by exists (demo_process 200).
  - by vm_compute; repeat constructor; set_solver.
  - repeat constructor. exists (Some 700). split; [done|]. intros expected parent start [= <-] (n & stat & Hn & Hstat).
    assert (stat = demo_stat 50 700) as -> by (vm_compute in Hn |- *; congruence).
    vm_compute in Hstat. congruence.
Qed.

(** A stop request runs twice, and the final cleanup after it. *)
Definition demo_operations : list ShimOperation :=
  [ReconcileSidecars; StopRequest demo_plan 2000000000 30 true; StopVmm demo_plan 1000000000 false 90000000000;
   Finalize (Err (generic "lost"))].
Lemma group_signals_pinned_witness :
  ∃ w', run_operations (H := demo_schedule) (H0 := demo_kernel 9) (H1 := demo_socket) (H2 := demo_host 384)
      demo_vec demo_vec demo_info keep demo_operations demo_shim = (Ok (), w') ∧
    ∀ before group signal after, effects (sink w') = before ++ GroupSignalled group signal :: after →
      (∀ status, LeaderReaped group status ∉ before) ∧ AdoptedReaped group ∉ before.
Proof.
  apply (group_signals_pinned (H := demo_schedule) (H0 := demo_kernel 9) (H1 := demo_socket) (H2 := demo_host 384)
    demo_vec demo_vec demo_info keep 100 demo_operations demo_shim); [intros n; exact eq_refl|apply demo_launched].
Defined.

Lemma stop_leaves_nothing_witness :
  ∃ w', stop_owned_vmm (H := demo_schedule) (H0 := demo_kernel 9) (H1 := demo_socket) (H2 := demo_host 384)
      demo_vec demo_vec demo_info keep demo_plan 30000000000 false 90000000000 demo_shim = (Ok (), w') ∧
  ∃ status why at_ m,
    LeaderReaped 100 status ∈ effects (sink w') ∧ is_fully_reaped (owned (sink w')) = true ∧
    (∀ pid, pid ∈ [200] → ∃ status, LeaderReaped pid status ∈ effects (sink w')) ∧
    owned_sidecars (sink w') = [] ∧
    machine (sink w') = final_machine m Stopped
      {| at_ := at_; code := exit_code status; signal := exit_signal status; reason := why |} ∧
    written (H2 := demo_host 384) demo_vec (sink w') ∧ stop_reason false why.
Proof.
  destruct (stop_owned_vmm (H := demo_schedule) (H0 := demo_kernel 9) (H1 := demo_socket) (H2 := demo_host 384)
      demo_vec demo_vec demo_info keep demo_plan 30000000000 false 90000000000 demo_shim) as [r w'] eqn:Hrun.
  exists w'. assert (r = Ok ()) as -> by (apply (f_equal fst) in Hrun; vm_compute in Hrun; by subst r).
  split; [done|].
  apply (stop_leaves_nothing (H := demo_schedule) (H0 := demo_kernel 9) (H1 := demo_socket) (H2 := demo_host 384)
    demo_vec demo_vec demo_info keep 100 demo_plan 30000000000 false 90000000000 demo_shim (Ok ()) w');
    [intros n; exact eq_refl|apply demo_launched|exact Hrun|done].
Defined.

Lemma stop_request_answered_witness :
  ∃ w', handle_stop (H := demo_schedule) (H0 := demo_kernel 9) (H1 := demo_socket) (H2 := demo_host 384)
      demo_vec demo_vec demo_info keep demo_plan 2000000000 30 true demo_shim = (Ok (inr ()), w') ∧
  last (replies (sink w')) = Some TerminalOk ∧
  ∃ status why at_ m, LeaderReaped 100 status ∈ effects (sink w') ∧ is_fully_reaped (owned (sink w')) = true ∧
    owned_sidecars (sink w') = [] ∧
    machine (sink w') = final_machine m Stopped
      {| at_ := at_; code := exit_code status; signal := exit_signal status; reason := why |} ∧
    written (H2 := demo_host 384) demo_vec (sink w').
Proof.
  destruct (handle_stop (H := demo_schedule) (H0 := demo_kernel 9) (H1 := demo_socket) (H2 := demo_host 384)
      demo_vec demo_vec demo_info keep demo_plan 2000000000 30 true demo_shim) as [r w'] eqn:Hrun.
  exists w'. assert (r = Ok (inr ())) as -> by (apply (f_equal fst) in Hrun; vm_compute in Hrun; by subst r).
  split; [done|].
  exact (stop_request_answered (H := demo_schedule) (H0 := demo_kernel 9) (H1 := demo_socket) (H2 := demo_host 384)
    demo_vec demo_vec demo_info keep 100 demo_plan 2000000000 30 true demo_shim (Ok (inr ())) w'
    (λ _, eq_refl) (demo_launched 9) Hrun).
Defined.

(** Whether a snapshot has found exactly the given pids. *)
Lemma snapshot_spares_roots_witness :
  ∃ m w', snapshot_owned_descendants_preserving (H := demo_schedule) (H0 := demo_kernel 9) 100 {[ 200 := Some 700 ]} demo_shim = (Ok m, w') ∧
  is_Some (m !! 300) ∧ m !! 200 = None ∧
  (∀ pid d, m !! pid = Some d → d_pid d = pid ∧ 0 < pid ≤ i32_max ∧
    (∃ parent, shown (H0 := demo_kernel 9) pid (parent, start_time_ticks d)) ∧
    ∀ o, ({[ 200 := Some 700 ]} : PreservedProcessRoots) !! pid = Some o → ∃ expected, o = Some expected ∧ expected ≠ start_time_ticks d).
Proof.
  destruct (snapshot_owned_descendants_preserving (H := demo_schedule) (H0 := demo_kernel 9) 100 {[ 200 := Some 700 ]} demo_shim)
    as [r w'] eqn:Hrun.
  destruct (snapshot_spares_roots (H := demo_schedule) (H0 := demo_kernel 9) 100 {[ 200 := Some 700 ]} demo_shim r w' Hrun) as (_ & _ & Hm).
  pose proof (f_equal fst Hrun) as Hr. vm_compute in Hr. subst r. eexists _, w'. split; [done|].
  split; [by eexists|]. split; [done|]. intros pid d Hd. by apply (Hm _ pid d eq_refl).
Defined.

(** A forced stop whose artifacts cannot be removed: the client is told it succeeded, and the VMM,
    killed by the supervisor, is recorded as shut down by its guest. *)
Example forced_stop_recorded_as_guest_shutdown :
  let '(r, w) := handle_stop (H := demo_schedule) (H0 := demo_kernel 9) (H1 := demo_socket) (H2 := demo_host 511)
    demo_vec demo_vec demo_info keep demo_plan 2000000000 30 true demo_shim in
  r = Ok (inr ()) ∧ last (replies (sink w)) = Some TerminalOk ∧
  GroupSignalled 100 Kill ∈ effects (sink w) ∧
  last_exit (machine (sink w)) =
    Some {| at_ := "2026-01-01T00:00:00Z"; code := None; signal := Some 9; reason := GuestShutdown |}.
Proof. vm_compute. split_and!; [done|done|by left|done]. Qed.
