(* ===== verification/Control.v ===== *)
(** The shim's control protocol ([firestone-core/src/shim.rs]): newline-delimited JSON frames on
    a private Unix socket.  The client ([ShimClient]) sends one request and reads events until
    the terminal response; the shim authenticates the peer, reads one request, and answers
    through a [ProtocolSink] that outlives a client that went away. *)
From S2P Require Import Prelude RustStr Errors State Utf8 Clock Stream VmmApi Process Owner Supervisor.
Open Scope Z_scope.

Definition MAX_CONTROL_REQUEST_BYTES : Z := 4 * 1024.
Definition MAX_CONTROL_RESPONSE_BYTES : Z := 64 * 1024.
Definition MAX_CONTROL_STREAM_BYTES : Z := 4 * 1024 * 1024.

Definition protocol_error (message : string) : FirestoneError :=
  with_hint (error_new Generic message) "the socket must use Firestone's bounded newline-delimited JSON protocol".
Definition protocol_error_with_source (message source : string) : FirestoneError :=
  with_source (protocol_error message) source.
Definition start_interrupted_error : FirestoneError :=
  with_hint (error_new Interrupted "machine start interrupted by SIGINT") "retry the start command when ready".
Definition frame_timeout : FirestoneError :=
  error_new Timeout "shim control frame exceeded its absolute deadline".
Definition write_timeout : FirestoneError :=
  error_new Timeout "shim control write exceeded its absolute deadline".

Definition retryable (e : IoError) : bool :=
  match io_kind e with IoInterrupted | IoWouldBlock | IoTimedOut => true | _ => false end.

(** ** Messages *)

Module Request.
Inductive ControlRequest : Set := Launch | Status | Stop (timeout_s : Z) (force : bool) | Ping.
End Request.
Notation ControlRequest := Request.ControlRequest.

Record ShimPids : Set := { pids_shim : Z; pids_vmm : option Z; pids_sidecars : gmap string Z }.
Record ShimStatus : Set := {
  shim_status : MachineStatus; pids : ShimPids; shim_started_at : option string; shim_degraded : list string }.
Record OwnedStatusResponse : Set := {
  response_ok : bool; response_status : MachineStatus; response_pids : ShimPids;
  response_started_at : option string; response_degraded : list string }.
Definition into_status (r : OwnedStatusResponse) : ShimStatus := {|
  shim_status := response_status r; pids := response_pids r;
  shim_started_at := response_started_at r; shim_degraded := response_degraded r |}.

(** [serde_json] on the messages: their encodings, and what a frame says, as a [Value]. *)
Class ControlJson (Json Value : Type) := {
  event_to_vec : Event Json → result string (list Z);
  (** [OkResponse], [ErrorResponse] and [StatusResponse]. *)
  ok_to_vec : bool → result string (list Z);
  error_to_vec : ErrorInfo → result string (list Z);
  status_to_vec : ShimStatus → result string (list Z);
  (** [{"op": "stop", "timeout_s": .., "force": ..}]. *)
  stop_to_vec : Z → bool → result string (list Z);
  request_from_slice : list Z → result string ControlRequest;
  value_from_slice : list Z → result string Value;
  get_ : Value → string → option Value;
  as_bool : Value → option bool;
  is_object : Value → bool;
  event_from_value : Value → result string (Event Json);
  info_from_value : Value → result string ErrorInfo;
  status_from_value : Value → result string OwnedStatusResponse }.

(** The kernel's answers about a connection. *)
Class Peer := {
  set_nonblocking : nat → result IoError ();
  peer_credentials : nat → result IoError Z }.

(** ** Frames *)

Section frames.
Context `{Schedule} `{VmmApi.Socket} `{Peer}.
Local Abbreviation Act := (M (Timed Conn) (Stop FirestoneError)).

Definition frame_turn (limit deadline : Z) (cancellation : option (nat → bool)) (frame : list Z)
    : Act (list Z + list Z) :=
  cancelled ← match cancellation with Some flag => ask flag | None => mret false end;
  if cancelled : bool then fail start_interrupted_error else
  now ← instant_now;
  if deadline <=? now then fail frame_timeout else
  r ← sock_read 1;
  match r with
  | Ok [] => fail (protocol_error "shim control connection closed before newline")
  | Ok (byte :: _) =>
      if byte =? 10 then
        match frame with
        | [] => fail (protocol_error "shim control frame is empty")
        | _ => mret (inr frame)
        end
      else if length_z frame =? limit then fail (protocol_error "shim control frame exceeds its byte limit")
      else mret (inl (frame ++ [byte]))
  | Err source =>
      if retryable source then sleep LOOP_INTERVAL;; mret (inl frame)
      else fail (io_caused (generic "cannot read shim control frame") source)
  end.
Definition read_frame (limit deadline : Z) (cancellation : option (nat → bool)) : Act (list Z) :=
  until_deadline deadline (frame_turn limit deadline cancellation) [].

Definition write_turn (deadline : Z) (rest : list Z) : Act (list Z + ()) :=
  match rest with
  | [] => mret (inr ())
  | _ =>
      now ← instant_now;
      if deadline <=? now then fail write_timeout else
      r ← sock_write rest;
      match r with
      | Ok O => fail (protocol_error "shim control write made no progress")
      | Ok count => mret (inl (drop count rest))
      | Err source =>
          if retryable source then sleep LOOP_INTERVAL;; mret (inl rest)
          else fail (io_caused (generic "cannot write shim control frame") source)
      end
  end.
Definition write_control_bytes (bytes : list Z) (deadline : Z) : Act () :=
  until_deadline deadline (write_turn deadline) bytes.
Definition write_frame (bytes : list Z) (deadline : Z) : Act () :=
  write_control_bytes bytes deadline;; write_control_bytes [10] deadline.

Definition write_json_line (encoded : result string (list Z)) (timeout : Z) : Act () :=
  bytes ← lift (map_err (with_source (generic "cannot serialize shim control response")) encoded);
  if MAX_CONTROL_RESPONSE_BYTES <? length_z bytes then
    fail (protocol_error "shim control response exceeds its byte limit")
  else
  now ← instant_now;
  deadline ← lift (ok_or (instant_checked_add now timeout) (error_new Usage "control deadline is out of range"));
  write_frame bytes deadline.

(** ** Connecting *)

Definition connect_timeout (path : string) : FirestoneError :=
  with_hint (error_new Timeout ("timed out connecting to shim socket " +:+ path))
    "start the machine or inspect its shim log, then retry".
Definition connect_hint : string := "inspect the private runtime directory and shim socket permissions".
Definition interrupted : IoError := {| io_kind := IoInterrupted; io_text := "Interrupted system call (os error 4)" |}.

Definition wait_control_connect (deadline : Z) (path : string) : Act () :=
  now ← instant_now;
  if saturating_sub deadline now =? 0 then fail (connect_timeout path) else
  let poll_error := io_caused (generic ("cannot poll shim socket " +:+ path)) in
  ready ← ask poll_;
  match ready with
  | PollInterrupted => fail (poll_error interrupted)
  | PollFailed source => fail (poll_error source)
  | NotReady => fail (connect_timeout path)
  | PollReady =>
      pending ← ask pending_error;
      match pending with
      | Err source => fail (io_caused (generic ("cannot inspect shim socket " +:+ path +:+ " connection")) source)
      | Ok None => mret ()
      | Ok (Some source) =>
          let stale := bool_decide (io_kind source ∈ [IoNotFound; IoConnectionRefused; IoWouldBlock]) in
          let '(kind, hint) := if stale
            then (NotRunning, "start the machine or wait for its shim socket, then retry")
            else (Generic, connect_hint) in
          fail (io_caused (with_hint (error_new kind ("cannot connect to shim socket " +:+ path)) hint) source)
      end
  end.
Definition connect_turn (deadline : Z) (path : string) (_ : ()) : Act (() + ()) :=
  now ← instant_now;
  if deadline <=? now then fail (connect_timeout path) else
  let again := now ← instant_now; sleep (Z.min LOOP_INTERVAL (saturating_sub deadline now));; mret (inl ()) in
  created ← ask new_socket;
  match created with
  | Err source => fail (io_caused (generic "cannot create shim client socket") source)
  | Ok _ =>
      answer ← ask connect_;
      match answer with
      | Connected => mret (inr ())
      | InProgress => wait_control_connect deadline path;; mret (inr ())
      | TryAgain => again
      | ConnectFailed source =>
          if bool_decide (io_kind source ∈ [IoNotFound; IoConnectionRefused]) then again
          else fail (io_caused (with_hint (generic ("cannot connect to shim socket " +:+ path)) connect_hint) source)
      end
  end.
Definition connect_control_socket (path : string) (deadline : Z) : Act () :=
  match unix_addr path with
  | Err source => fail (io_caused (with_hint (error_new InvalidSpec ("cannot address shim socket " +:+ path))
                    "set FIRESTONE_RUNTIME_DIR to a shorter absolute path") source)
  | Ok _ => until_deadline deadline (connect_turn deadline path) ()
  end.
Definition authorize_peer (expected_uid : Z) : Act () :=
  credentials ← ask peer_credentials;
  match credentials with
  | Err source => fail (io_caused (error_new Conflict "cannot read shim peer credentials") source)
  | Ok uid =>
      if negb (uid =? expected_uid) then
        fail (error_new Conflict ("shim control peer uid " +:+ dec uid +:+ " does not match owner uid " +:+ dec expected_uid))
      else mret ()
  end.
End frames.

(** ** The client *)

Record ShimClient : Set := { socket : string; timeout : Z }.

(** The connection, and the sink the client's events go to. *)
Record Client (S : Type) : Type := { connection : Conn; events : S }.
Arguments connection {S}. Arguments events {S}. Arguments Build_Client {S}.

Section client.
Context `{Schedule} `{VmmApi.Socket} `{Peer} {Json Value : Type} `{ControlJson Json Value} {S : Type} `{EventSink Json S}.
Context (uid : Z).
Local Abbreviation Act := (M (Timed (Client S)) (Clock.Stop FirestoneError)).

Definition on_connection {A} (m : M (Timed Conn) (Clock.Stop FirestoneError) A) : Act A := λ w,
  let '(r, w') := m {| time := time w; tick := tick w; sink := connection (sink w) |} in
  (r, {| time := time w'; tick := tick w'; sink := {| connection := sink w'; events := events (sink w) |} |}).
(** [sink.emit(event)?]. *)
Definition deliver (event : Event Json) : Act () := λ w,
  let '(r, s) := Errors.emit event (events (sink w)) in
  (map_err Failed r, {| time := time w; tick := tick w; sink := {| connection := connection (sink w); events := s |} |}).

(** One frame of the response; [total] are the bytes read so far. *)
Definition response_turn (with_events : bool) (deadline : Z) (cancellation : option (nat → bool)) (total : Z)
    : Act (Z + Value) :=
  frame ← on_connection (read_frame MAX_CONTROL_RESPONSE_BYTES deadline cancellation);
  let total := total + length_z frame in
  if u64_max <? total then fail (protocol_error "shim response stream length overflowed usize") else
  if MAX_CONTROL_STREAM_BYTES <? total then fail (protocol_error "shim response stream exceeds the 4 MiB limit") else
  value ← lift (map_err (protocol_error_with_source "shim response is not valid JSON") (value_from_slice frame));
  match get_ value "type" with
  | Some _ =>
      event ← lift (map_err (protocol_error_with_source "shim event does not match the Event contract")
                      (event_from_value value));
      (if with_events then deliver event else mret ());;
      mret (inl total)
  | None => mret (inr value)
  end.
Definition request (c : ShimClient) (request : list Z) (with_events : bool) (timeout_ : Z)
    (cancellation : option (nat → bool)) : Act Value :=
  if MAX_CONTROL_REQUEST_BYTES <? length_z request then
    fail (protocol_error "shim request exceeds the 4096 byte limit")
  else
  now ← instant_now;
  deadline ← lift (ok_or (instant_checked_add now timeout_) (error_new Usage "shim request deadline is out of range"));
  on_connection (
    connect_control_socket (socket c) deadline;;
    authorize_peer uid;;
    write_frame request deadline);;
  bounded_loop MAX_CONTROL_STREAM_BYTES (response_turn with_events deadline cancellation) 0.

Definition error_from_terminal (value : Value) : result FirestoneError FirestoneError :=
  i ← ok_or (get_ value "error") (protocol_error "shim failure response has no error object");
  i ← map_err (protocol_error_with_source "shim failure error object is invalid") (info_from_value i);
  let error := error_new (info_kind i) (info_message i) in
  Ok (match info_hint i with Some hint => with_hint error hint | None => error end).
Definition terminal_ok_ (value : Value) : option bool := get_ value "ok" ≫= as_bool.
Definition require_ok_terminal (value : Value) : result FirestoneError () :=
  match terminal_ok_ value with
  | Some true => Ok ()
  | Some false => error ← error_from_terminal value; Err error
  | None => Err (protocol_error "shim terminal response has no boolean ok field")
  end.

(** [{"op":"..."}]. *)
Definition op (name : string) : list Z :=
  let quoted s := one QUOTE +:+ s +:+ one QUOTE in
  bytes_of ("{" +:+ quoted "op" +:+ ":" +:+ quoted name +:+ "}").
Definition ping (c : ShimClient) : Act () :=
  terminal ← request c (op "ping") false (timeout c) None; lift (require_ok_terminal terminal).
Definition launch (c : ShimClient) : Act () :=
  terminal ← request c (op "launch") true (timeout c) None; lift (require_ok_terminal terminal).
Definition launch_cancellable (c : ShimClient) (cancellation : nat → bool) : Act () :=
  terminal ← request c (op "launch") true (timeout c) (Some cancellation); lift (require_ok_terminal terminal).
Definition status (c : ShimClient) : Act ShimStatus :=
  terminal ← request c (op "status") false (timeout c) None;
  if negb (bool_decide (terminal_ok_ terminal = Some true)) then
    error ← lift (error_from_terminal terminal); fail error
  else if negb (is_object terminal) then fail (protocol_error "shim status response is not an object")
  else response ← lift (map_err (protocol_error_with_source "invalid shim status response") (status_from_value terminal));
  mret (into_status response).
Definition stop (c : ShimClient) (guest_timeout : Z) (force : bool) : Act () :=
  let timeout_s := guest_timeout / SECOND in
  if MAX_STOP_TIMEOUT_SECONDS <? timeout_s then
    fail (error_new Usage ("stop timeout exceeds the " +:+ dec MAX_STOP_TIMEOUT_SECONDS +:+ " second limit"))
  else
  encoded ← lift (map_err (with_source (generic "cannot encode shim stop request")) (stop_to_vec timeout_s force));
  total ← lift (stop_overall_timeout guest_timeout (timeout c));
  terminal ← request c encoded true total None;
  lift (require_ok_terminal terminal).
End client.

(** ** The shim's side *)

(** [ProtocolSink]: what it sends on, until a write fails. *)
Record ProtocolSink : Set := {
  stream : Conn; attached : bool; sink_timeout : Z; sink_deadline : option Z; sink_machine : string;
  write_failure_logged : bool; sink_log : list string }.
Definition with_deadline (stream : Conn) (deadline : Z) (machine : string) (log : list string) : ProtocolSink := {|
  stream := stream; attached := true; sink_timeout := 0; sink_deadline := Some deadline; sink_machine := machine;
  write_failure_logged := false; sink_log := log |}.

Definition ensure_launch_before_deadline `{Schedule} {S} (deadline : Z) (phase : string)
    : M (Timed S) (Clock.Stop FirestoneError) () :=
  now ← instant_now;
  if now <? deadline then mret ()
  else fail (error_new Timeout ("overall shim launch deadline expired while " +:+ phase)).

Section sink.
Context `{Schedule} `{VmmApi.Socket} {Json Value : Type} `{ControlJson Json Value}.
Local Abbreviation Act := (M (Timed ProtocolSink) (Clock.Stop FirestoneError)).

Definition set_stream (s : ProtocolSink) (c : Conn) (attached : bool) : ProtocolSink := {|
  stream := c; attached := attached; sink_timeout := sink_timeout s; sink_deadline := sink_deadline s;
  sink_machine := sink_machine s; write_failure_logged := write_failure_logged s; sink_log := sink_log s |}.
Definition on_stream {A} (m : M (Timed Conn) (Clock.Stop FirestoneError) A) : Act A := λ w,
  let '(r, w') := m {| time := time w; tick := tick w; sink := stream (sink w) |} in
  (r, {| time := time w'; tick := tick w'; sink := set_stream (sink w) (sink w') (attached (sink w)) |}).
Definition current : Act ProtocolSink := λ w, (Ok (sink w), w).
Definition update (f : ProtocolSink → ProtocolSink) : Act () := λ w,
  (Ok (), {| time := time w; tick := tick w; sink := f (sink w) |}).

Definition log_write_failure (kind : ErrorKind) : Act () := update (λ s,
  if write_failure_logged s then s else {|
    stream := stream s; attached := attached s; sink_timeout := sink_timeout s; sink_deadline := sink_deadline s;
    sink_machine := sink_machine s; write_failure_logged := true;
    sink_log := sink_log s ++ ["machine `" +:+ sink_machine s +:+ "` control response detached ("
      +:+ ErrorKind_as_str kind +:+ "); lifecycle continues"] |}).
(** What [write] sends, by which deadline. *)
Definition send_encoded (encoded : result string (list Z)) : Act () :=
  s ← current;
  bytes ← lift (map_err (with_source (generic "cannot encode shim event")) encoded);
  if MAX_CONTROL_RESPONSE_BYTES <? length_z bytes then fail (protocol_error "shim event exceeds its byte limit") else
  deadline ← match sink_deadline s with
    | Some deadline => ensure_launch_before_deadline deadline "writing launch response";; mret deadline
    | None =>
        now ← instant_now;
        lift (ok_or (instant_checked_add now (sink_timeout s)) (protocol_error "shim event deadline is out of range"))
    end;
  on_stream (write_frame bytes deadline).
Definition write (encoded : result string (list Z)) : Act () :=
  s ← current;
  if negb (attached s) then mret () else
  result ← try_ (send_encoded encoded);
  match result with
  | Ok _ => mret ()
  | Err error => update (λ s, set_stream s (stream s) false);; log_write_failure (kind error)
  end.
Definition terminal_ok : Act () := write (ok_to_vec true).
Definition terminal_error (i : ErrorInfo) : Act () := write (error_to_vec i).
(** [impl EventSink for ProtocolSink]. *)
Definition emit (event : Event Json) : Act () := write (event_to_vec event).

Definition write_reply (_ : ()) (r : Reply Json) : Act () :=
  match r with
  | EventReply event => emit event
  | TerminalOk => terminal_ok
  | TerminalError i => terminal_error i
  end.
(** What an operation tells its client, in order. *)
Definition write_replies (l : list (Reply Json)) : Act () := fold_act write_reply () l.
End sink.

(** A connection just accepted, and the shim's log. *)
Record Accepted : Set := { accepted : Conn; log : list string }.

Section server.
Context `{Schedule} `{VmmApi.Socket} `{Peer} {Json Value : Type} `{ControlJson Json Value}.
Local Abbreviation Act := (M (Timed Accepted) (Clock.Stop FirestoneError)).

Definition write_terminal_ok (timeout : Z) := write_json_line (ok_to_vec true) timeout.
Definition write_terminal_error (i : ErrorInfo) (timeout : Z) := write_json_line (error_to_vec i) timeout.
Definition status_pids (m : MachineState) (shim_pid : Z) : ShimPids := {|
  pids_shim := shim_pid; pids_vmm := vmm_pid m; pids_sidecars := sidecar_pids m |}.
Definition write_status (m : MachineState) (pids_ : ShimPids) (timeout : Z) :=
  write_json_line (status_to_vec {| shim_status := State.status m; pids := pids_;
    shim_started_at := started_at m; shim_degraded := degraded m |}) timeout.

Definition read_request (timeout : Z) : M (Timed Conn) (Clock.Stop FirestoneError) ControlRequest :=
  configured ← ask set_nonblocking;
  match configured with
  | Err source => fail (io_caused (generic "cannot make shim control connection nonblocking") source)
  | Ok _ =>
      now ← instant_now;
      deadline ← lift (ok_or (instant_checked_add now timeout) (error_new Usage "control deadline is out of range"));
      frame ← read_frame MAX_CONTROL_REQUEST_BYTES deadline None;
      trailing ← sock_read 1;
      match trailing with
      | Ok [] => mret ()
      | Ok _ => fail (protocol_error "shim connection contains more than one request frame")
      | Err source =>
          match io_kind source with
          | IoWouldBlock | IoInterrupted => mret ()
          | _ => fail (io_caused (generic "cannot inspect shim request framing") source)
          end
      end;;
      lift (map_err (protocol_error_with_source "invalid shim control request") (request_from_slice frame))
  end.

Definition on_accepted {A} (m : M (Timed Conn) (Clock.Stop FirestoneError) A) : Act A := λ w,
  let '(r, w') := m {| time := time w; tick := tick w; sink := accepted (sink w) |} in
  (r, {| time := time w'; tick := tick w'; sink := {| accepted := sink w'; log := log (sink w) |} |}).
Definition log_line (message : string) : Act () := λ w,
  (Ok (), {| time := time w; tick := tick w;
             sink := {| accepted := accepted (sink w); log := log (sink w) ++ [message] |} |}).
Definition isolate_client_write (name operation : string) (m : M (Timed Conn) (Clock.Stop FirestoneError) ()) : Act () :=
  result ← try_ (on_accepted m);
  match result with
  | Ok _ => mret ()
  | Err error => log_line ("machine `" +:+ name +:+ "` " +:+ operation +:+ " response detached ("
                   +:+ kind_text error +:+ "); supervisor continues")
  end.

(** What the supervisor's loop does with a connection: a request it must carry out, if any. *)
Definition control_connection (name : string) (uid control_io : Z) (m : MachineState) (shim_pid : Z) (launched : bool)
    : Act (option ControlRequest) :=
  configured ← ask set_nonblocking;
  match configured with
  | Err source =>
      let error := filesystem_error Generic ("cannot make machine `" +:+ name +:+ "` control connection nonblocking") source in
      log_line ("machine `" +:+ name +:+ "` control connection setup failed (" +:+ kind_text error +:+ "); connection dropped");;
      mret None
  | Ok _ =>
      authorized ← try_ (on_accepted (authorize_peer uid));
      match authorized with
      | Err error =>
          isolate_client_write name "authorization error" (write_terminal_error (info error) control_io);; mret None
      | Ok _ =>
          request ← try_ (on_accepted (read_request control_io));
          match request with
          | Err error =>
              isolate_client_write name "request error" (write_terminal_error (info error) control_io);; mret None
          | Ok Request.Ping => isolate_client_write name "ping" (write_terminal_ok control_io);; mret None
          | Ok Request.Status =>
              isolate_client_write name "status" (write_status m (status_pids m shim_pid) control_io);; mret None
          | Ok Request.Launch =>
              if launched then
                let error := error_new AlreadyRunning ("machine `" +:+ name +:+ "` launch was already requested") in
                isolate_client_write name "duplicate launch" (write_terminal_error (info error) control_io);; mret None
              else mret (Some Request.Launch)
          | Ok (Request.Stop timeout_s force) => mret (Some (Request.Stop timeout_s force))
          end
      end
  end.
End server.
