(* ===== verification/ControlSpec.v ===== *)
(** What the control protocol guarantees ([firestone-core/src/shim.rs]), whatever the kernel and
    the clock do: a client is told what the shim wrote, in order and whole, or sees an error; a
    request only reaches the supervisor from its owner and whole; and a stop the client hears
    succeeded is one the supervisor completed. *)
From S2P Require Import Prelude RustStr Errors State Utf8 Clock Stream VmmApi VmmApiSpec Process Owner Supervisor Control.
Open Scope Z_scope.

(** Frames on the wire. *)
Definition line (frame : list Z) : list Z := frame ++ [10].
Definition lines (frames : list (list Z)) : list Z := concat (line <$> frames).
Lemma lines_app a b : lines (a ++ b) = lines a ++ lines b.
Proof. unfold lines. by rewrite fmap_app, concat_app. Qed.
Lemma lines_cons f l : lines (f :: l) = f ++ 10 :: lines l.
Proof. unfold lines, line. cbn. by rewrite <- app_assoc. Qed.
Lemma lines_one f : lines [f] = line f.
Proof. unfold lines. cbn. apply app_nil_r. Qed.

(** A frame ends at the first newline. *)
Lemma frame_unique f f' (r r' : list Z) :
  10 ∉ f → 10 ∉ f' → f ++ 10 :: r = f' ++ 10 :: r' → f = f' ∧ r = r'.
Proof.
  revert f'. induction f as [|b f IH]; intros [|b' f'] Hf Hf' E; simplify_eq/=; [done|set_solver..|].
  destruct (IH f') as [-> ->]; [set_solver..|done|done].
Qed.
(** The lines a prefix of a stream of lines holds are the stream's first lines. *)
Lemma lines_prefix fs frames rest :
  Forall (λ f, 10 ∉ f) fs → Forall (λ f, 10 ∉ f) frames →
  (lines fs ++ rest) `prefix_of` lines frames →
  ∃ more, frames = fs ++ more ∧ rest `prefix_of` lines more.
Proof.
  revert frames. induction fs as [|f fs IH]; intros frames Hfs Hframes Hpre; [by exists frames|].
  apply Forall_cons in Hfs as [Hf Hfs]. rewrite lines_cons, <- app_assoc in Hpre. destruct Hpre as [tail E].
  destruct frames as [|g frames]; [by destruct f|]. apply Forall_cons in Hframes as [Hg Hframes].
  rewrite lines_cons, <- app_assoc in E. cbn [app] in E. apply frame_unique in E as [<- E]; [|done..].
  destruct (IH frames) as (more & -> & Hmore); [done..| |by exists more].
  exists tail. by rewrite E.
Qed.
Lemma wp_fail {S A} e (Q : result (Clock.Stop FirestoneError) A → Timed S → Prop) w : Q (Err (Failed e)) w → wp (fail e) Q w.
Proof. done. Qed.

Section spec.
Context `{Schedule} `{VmmApi.Socket} `{Peer}.
Context (Hlag : ∀ n, 0 < lag n).
Local Abbreviation Act := (M (Timed Conn) (Clock.Stop FirestoneError)).

Definition recv_failed (source : IoError) : Prop := ∃ n, recv n = Err source ∧ retryable source = false.
Definition send_failed (source : IoError) : Prop := ∃ n, send n = Err source ∧ retryable source = false.

(** Why a frame cannot be read from the bytes [i]. *)
Inductive frame_error (limit : Z) (cancellable : bool) (i : list Z) : FirestoneError → Prop :=
  | FrameCancelled : cancellable = true → frame_error limit cancellable i start_interrupted_error
  | FrameLate : frame_error limit cancellable i frame_timeout
  | FrameClosed : 10 ∉ i → frame_error limit cancellable i (protocol_error "shim control connection closed before newline")
  | FrameEmpty rest : i = 10 :: rest → frame_error limit cancellable i (protocol_error "shim control frame is empty")
  | FrameLong frame rest : i = frame ++ rest → 10 ∉ frame → limit < length_z frame →
      frame_error limit cancellable i (protocol_error "shim control frame exceeds its byte limit")
  | FrameFault source : recv_failed source →
      frame_error limit cancellable i (io_caused (generic "cannot read shim control frame") source).

Lemma passes (w : Timed Conn) d : 0 ≤ d → time w < time (pass d w).
Proof using Hlag. intros ?. rewrite time_pass. specialize (Hlag (tick w)). lia. Qed.

(** A stretch of reading: what was taken off the stream. *)
Definition took (w : Timed Conn) (p : list Z) (w' : Timed Conn) : Prop :=
  sent (sink w') = sent (sink w) ∧ incoming (sink w) = p ++ incoming (sink w') ∧ time w ≤ time w'.
Lemma took_app w p w1 q w2 : took w p w1 → took w1 q w2 → took w (p ++ q) w2.
Proof using Type.
  intros (Hs & Hi & Ht) (Hs' & Hi' & Ht'). unfold took. rewrite Hs', Hs, Hi, Hi', app_assoc. split_and!; [done|done|lia].
Qed.
Lemma took_nil w w' : sink w' = sink w → time w ≤ time w' → took w [] w'.
Proof using Type. intros E ?. unfold took. by rewrite E. Qed.

Lemma wp_read_byte (w : Timed Conn) Q :
  (∀ e, recv (tick w) = Err e → Q (Ok (Err e)) (pass 0 w)) →
  (incoming (sink w) = [] → Q (Ok (Ok [])) (after_read w [])) →
  (∀ byte rest, incoming (sink w) = byte :: rest → Q (Ok (Ok [byte])) (after_read w rest)) →
  wp (sock_read (E := Clock.Stop FirestoneError) 1) Q w.
Proof using Type.
  intros Herr Hend Hbyte. apply wp_sock_read; [lia|done|]. intros [|byte chunk] rest Hi Hlen Hempty.
  - rewrite Hempty in * by done. by apply Hend.
  - unfold length_z in Hlen. cbn in Hlen. assert (chunk = []) as -> by (destruct chunk; [done|cbn in Hlen; lia]).
    by apply Hbyte.
Qed.
Lemma wp_frame_turn limit deadline cancellation frame w :
  10 ∉ frame → length_z frame ≤ limit →
  wp (frame_turn limit deadline cancellation frame) (λ r w', ∃ p, took w p w' ∧
    match r with
    | Ok (inl frame') => frame' = frame ++ p ∧ 10 ∉ frame' ∧ length_z frame' ≤ limit ∧ time w < time w' ∧ time w < deadline
    | Ok (inr frame') => p = [10] ∧ frame' = frame ∧ frame ≠ []
    | Err e => ∃ error, e = Failed error ∧ frame_error limit (bool_decide (is_Some cancellation)) (frame ++ incoming (sink w)) error
    end) w.
Proof using Hlag.
  intros Hnl Hlen. unfold frame_turn. set (Q := λ r w', _). apply wp_bind.
  set (R := λ (r : result (Clock.Stop FirestoneError) bool) w1, sink w1 = sink w ∧ time w ≤ time w1 ∧
    match r with Ok c => c = true → is_Some cancellation | Err _ => False end).
  assert (wp (match cancellation with Some flag => ask flag | None => mret false end) R w) as Hc.
  { destruct cancellation as [flag|]; [split_and!; [done|apply time_pass_ge|by eexists]|split_and!; [done|cbn; lia|done]]. }
  eapply wp_mono; [exact Hc|]. clear Hc. intros [c|e] w1 (Hs1 & Ht1 & Hc); [|done].
  assert (Hfail : ∀ p error w', took w1 p w' →
    frame_error limit (bool_decide (is_Some cancellation)) (frame ++ incoming (sink w)) error → Q (Err (Failed error)) w').
  { intros p error w' Hw' He. exists p. split; [|by eexists]. eapply (took_app w [] w1); [by apply took_nil|done]. }
  destruct c; [apply wp_fail, (Hfail []); [by apply took_nil|]; apply FrameCancelled, bool_decide_eq_true; auto|].
  apply wp_bind, wp_now. pose proof (passes w1 0 ltac:(lia)) as Hp1. set (w2 := pass 0 w1) in *.
  destruct (Z.leb_spec deadline (time w2)) as [|Hd]; [apply wp_fail, (Hfail []); [apply took_nil; [done|lia]|apply FrameLate]|].
  assert (sink w2 = sink w) as Hs2 by done. pose proof (passes w2 0 ltac:(lia)) as Hp2.
  assert (Htook : ∀ p rest, incoming (sink w) = p ++ rest → took w1 p (after_read w2 rest)).
  { intros p rest Hi. split_and!; [done|by rewrite Hs1|cbn in *; lia]. }
  apply wp_bind, wp_read_byte.
  - intros e He. destruct (retryable e) eqn:Hretry.
    + apply wp_bind, wp_sleep, wp_ret. pose proof (passes (pass 0 w2) LOOP_INTERVAL ltac:(done)) as Hp3.
      exists []. rewrite app_nil_r. split_and!; [apply took_nil; [done|lia]|done..|lia|lia].
    + apply wp_fail, (Hfail []); [apply took_nil; [done|lia]|]. apply FrameFault. by exists (tick w2).
  - rewrite Hs2. intros Hi. apply wp_fail, (Hfail []); [by apply Htook|]. apply FrameClosed. by rewrite Hi, app_nil_r.
  - rewrite Hs2. intros byte rest Hi. destruct (Z.eqb_spec byte 10) as [->|Hb].
    + destruct frame as [|b frame].
      * apply wp_fail, (Hfail [10]); [by apply Htook|]. by eapply FrameEmpty.
      * apply wp_ret. exists [10]. split_and!; [|done..]. eapply (took_app w [] w1); [by apply took_nil|by apply Htook].
    + assert (10 ∉ frame ++ [byte]) as Hnl' by set_solver.
      destruct (Z.eqb_spec (length_z frame) limit) as [Hlimit|].
      * apply wp_fail, (Hfail [byte]); [by apply Htook|]. apply (FrameLong _ _ _ (frame ++ [byte]) rest); [by rewrite Hi, <- app_assoc|done|].
        unfold length_z in *. rewrite length_app. cbn. lia.
      * apply wp_ret. exists [byte]. split_and!; [|done..| |cbn in *; lia|lia].
        -- eapply (took_app w [] w1); [by apply took_nil|by apply Htook].
        -- unfold length_z in *. rewrite length_app. cbn. lia.
Qed.
Lemma wp_read_frame limit deadline cancellation w :
  0 ≤ limit →
  wp (read_frame limit deadline cancellation) (λ r w', ∃ p, took w p w' ∧
    match r with
    | Ok frame => p = line frame ∧ 10 ∉ frame ∧ frame ≠ [] ∧ length_z frame ≤ limit
    | Err e => ∃ error, e = Failed error ∧ frame_error limit (bool_decide (is_Some cancellation)) (incoming (sink w)) error
    end) w.
Proof using Hlag.
  intros Hl. unfold read_frame.
  apply (wp_until _ _ (λ frame w0, took w frame w0 ∧ 10 ∉ frame ∧ length_z frame ≤ limit)).
  2:{ split_and!; [apply took_nil; [done|lia]|set_solver|done]. }
  intros frame w0 (Hw0 & Hnl & Hlen). eapply wp_mono; [by apply wp_frame_turn|].
  intros r w1 (p & Hp & Hr). pose proof (took_app _ _ _ _ _ Hw0 Hp) as Hw1.
  destruct r as [[frame'|frame']|e].
  - destruct Hr as (-> & ? & ? & ? & ?). by split_and!.
  - destruct Hr as (-> & -> & ?). exists (frame ++ [10]). by split_and!.
  - exists (frame ++ p). split; [done|]. destruct Hr as (error & -> & He). exists error. split; [done|].
    destruct Hw0 as (_ & Hi & _). by rewrite Hi.
Qed.

(** ** Writing *)

Inductive write_error : FirestoneError → Prop :=
  | WriteLate : write_error write_timeout
  | WriteStuck n : send n = Ok O → write_error (protocol_error "shim control write made no progress")
  | WriteFault source : send_failed source →
      write_error (io_caused (generic "cannot write shim control frame") source).

Lemma wp_write_turn_ deadline rest w :
  wp (Control.write_turn deadline rest) (λ r w', ∃ p, wrote w p w' ∧ p `prefix_of` rest ∧
    match r with
    | Ok (inl rest') => rest = p ++ rest' ∧ time w < time w' ∧ time w < deadline
    | Ok (inr _) => p = [] ∧ rest = []
    | Err e => p = [] ∧ ∃ error, e = Failed error ∧ write_error error
    end) w.
Proof using Hlag.
  destruct rest as [|b rest]; cbn [Control.write_turn].
  { apply wp_ret. exists []. by split_and!; [apply wrote_nil|apply prefix_nil|..]. }
  set (r0 := b :: rest). set (Q := λ r w', _). apply wp_bind, wp_now. pose proof (passes w 0 ltac:(lia)) as Hp1.
  set (w1 := pass 0 w) in *. pose proof (passes w1 0 ltac:(lia)) as Hp2.
  assert (Hfail : ∀ error w', sink w' = sink w → time w ≤ time w' → write_error error → Q (Err (Failed error)) w').
  { intros error w' Hs Ht He. exists []. split_and!; [by apply wrote_nil|apply prefix_nil|done|by eexists]. }
  destruct (Z.leb_spec deadline (time w1)) as [|Hd]; [apply wp_fail, Hfail; [done|lia|apply WriteLate]|].
  apply wp_bind, wp_sock_write.
  - intros e He. destruct (retryable e) eqn:Hretry.
    + apply wp_bind, wp_sleep, wp_ret. pose proof (passes (pass 0 w1) LOOP_INTERVAL ltac:(done)) as Hp3.
      exists []. split_and!; [apply wrote_nil; [done|lia]|apply prefix_nil|done|lia..].
    + apply wp_fail, Hfail; [done|lia|]. apply WriteFault. by exists (tick w1).
  - intros k Hk. destruct (Nat.min k (length r0)) as [|count] eqn:Hcount.
    + apply wp_fail, Hfail; [cbn; rewrite app_nil_r; by destruct (sink w)|cbn in *; lia|].
      apply (WriteStuck (tick w1)). rewrite Hk. f_equal. cbn in Hcount. lia.
    + apply wp_ret. exists (take (S count) r0). split_and!; [|apply prefix_take|by rewrite take_drop|cbn in *; lia|lia].
      split_and!; [done|done|cbn in *; lia].
Qed.
Lemma wp_write_bytes bytes deadline w :
  wp (write_control_bytes bytes deadline) (λ r w', ∃ p, wrote w p w' ∧ p `prefix_of` bytes ∧
    match r with
    | Ok _ => p = bytes
    | Err e => ∃ error, e = Failed error ∧ write_error error
    end) w.
Proof using Hlag.
  unfold write_control_bytes. apply (wp_until _ _ (λ rest w0, ∃ p, wrote w p w0 ∧ bytes = p ++ rest)).
  2:{ exists []. by split; [apply wrote_nil|]. }
  intros rest w0 (p & Hp & ->). eapply wp_mono; [apply wp_write_turn_|]. intros r w1 (q & Hq & Hpre & Hr).
  pose proof (wrote_app _ _ _ _ _ Hp Hq) as Hpq. destruct r as [[rest'|[]]|e].
  - destruct Hr as (-> & ? & ?). split; [|done]. exists (p ++ q). by rewrite app_assoc.
  - destruct Hr as [-> ->]. by exists (p ++ []).
  - destruct Hr as [-> Hr]. exists (p ++ []). split_and!; [done|by apply prefix_app|done].
Qed.
Lemma wp_write_frame bytes deadline w :
  wp (write_frame bytes deadline) (λ r w', ∃ p, wrote w p w' ∧ p `prefix_of` line bytes ∧
    match r with
    | Ok _ => p = line bytes
    | Err e => ∃ error, e = Failed error ∧ write_error error
    end) w.
Proof using Hlag.
  unfold write_frame. apply wp_bind. eapply wp_mono; [apply wp_write_bytes|]. intros r w1 (p & Hp & Hpre & Hr).
  destruct r as [[]|e].
  - subst p. eapply wp_mono; [apply wp_write_bytes|]. intros r w2 (q & Hq & Hpre' & Hr).
    exists (bytes ++ q). split_and!; [by eapply wrote_app|by apply prefix_app|]. destruct r as [[]|e]; [by subst q|done].
  - exists p. split_and!; [done|by apply prefix_app_r|done].
Qed.

(** ** Connecting *)

(** An error the kernel reported. *)
Definition kernel_error (source : IoError) : Prop := ∃ n path,
  recv n = Err source ∨ send n = Err source ∨ unix_addr path = Err source ∨ new_socket n = Err source ∨
  connect_ n = ConnectFailed source ∨ poll_ n = PollFailed source ∨ poll_ n = PollInterrupted ∧ source = interrupted ∨
  pending_error n = Err source ∨ pending_error n = Ok (Some source) ∨ peer_credentials n = Err source ∨
  set_nonblocking n = Err source.
(** Errors that blame time, the kernel or the owner of the other end, and not what was said. *)
Inductive transport_error (uid : Z) : FirestoneError → Prop :=
  | TransportLate e : kind e = Timeout → transport_error uid e
  | TransportFault e source : kernel_error source → transport_error uid (io_caused e source)
  | TransportStuck n : send n = Ok O → transport_error uid (protocol_error "shim control write made no progress")
  | TransportPeer n other : peer_credentials n = Ok other → other ≠ uid →
      transport_error uid (error_new Conflict
        ("shim control peer uid " +:+ dec other +:+ " does not match owner uid " +:+ dec uid)).
Lemma write_transport uid e : write_error e → transport_error uid e.
Proof using Type.
  intros [|n Hn|source (n & Hn & _)]; [by apply TransportLate|by eapply TransportStuck|].
  apply TransportFault. exists n, "". tauto.
Qed.

(** Actions that move no bytes. *)
Definition still {A} (P : A → Prop) (uid : Z) (m : Act A) : Prop := ∀ w,
  wp m (λ r w', sink w' = sink w ∧ time w ≤ time w' ∧
    match r with Ok a => P a | Err e => ∃ error, e = Failed error ∧ transport_error uid error end) w.
Lemma still_bind {A B} (P : A → Prop) (R : B → Prop) uid (m : Act A) (k : A → Act B) :
  still P uid m → (∀ a, P a → still R uid (k a)) → still R uid (m ≫= k).
Proof using Type.
  intros Hm Hk w. apply wp_bind. eapply wp_mono; [apply Hm|]. intros [a|e] w1 (Hs & Ht & Hr); [|done].
  eapply wp_mono; [by apply Hk|]. intros r w2 (Hs2 & Ht2 & Hr2). split_and!; [by rewrite Hs2|lia|done].
Qed.
Lemma still_ret {A} (P : A → Prop) uid a : P a → still P uid (mret a).
Proof using Type. intros Ha w. apply wp_ret. split_and!; [done|lia|done]. Qed.
Lemma still_fail {A} (P : A → Prop) uid e : transport_error uid e → still P uid (fail (A := A) e).
Proof using Type. intros He w. apply wp_fail. split_and!; [done|lia|by eexists]. Qed.
Lemma still_now uid : still (λ _, True) uid instant_now.
Proof using Type. intros w. apply wp_now. split_and!; [done|apply time_pass_ge|done]. Qed.
Lemma still_ask {A} uid (f : nat → A) : still (λ a, ∃ n, f n = a) uid (ask f).
Proof using Type. intros w. apply wp_observe. split_and!; [done|apply time_pass_ge|by eexists]. Qed.
Lemma still_authorize uid : still (λ _, True) uid (authorize_peer uid).
Proof using Type.
  eapply still_bind; [apply still_ask|]. intros [other|source] [n Hn].
  - destruct (Z.eqb_spec other uid); [by apply still_ret|]. by eapply still_fail, TransportPeer.
  - apply still_fail, TransportFault. exists n, "". tauto.
Qed.
Lemma still_wait_connect uid deadline path : still (λ _, True) uid (wait_control_connect deadline path).
Proof using Type.
  eapply still_bind; [apply still_now|]. intros now _. destruct (_ =? 0); [by apply still_fail, TransportLate|].
  eapply still_bind; [apply still_ask|]. intros [| | |source] [n Hn].
  - by apply still_fail, TransportLate.
  - eapply still_bind; [apply still_ask|]. clear n Hn. intros [[source|]|source] [n Hn]; [|by apply still_ret|].
    + cbv zeta. case_match. apply still_fail, TransportFault. exists n, "". tauto.
    + apply still_fail, TransportFault. exists n, "". tauto.
  - apply still_fail, TransportFault. exists n, "". tauto.
  - apply still_fail, TransportFault. exists n, "". tauto.
Qed.
Lemma still_connect uid path deadline : still (λ _, True) uid (connect_control_socket path deadline).
Proof using Hlag.
  unfold connect_control_socket. destruct (unix_addr path) as [[]|source] eqn:Haddr.
  2:{ apply still_fail, TransportFault. exists O, path. tauto. }
  intros w. apply (wp_until _ _ (λ _ w0, sink w0 = sink w ∧ time w ≤ time w0)); [|split; [done|lia]].
  intros [] w0 [Hs Ht]. apply wp_bind, wp_now. pose proof (passes w0 0 ltac:(lia)) as Hp.
  set (w1 := pass 0 w0) in *. assert (sink w1 = sink w) as Hs1 by done.
  destruct (Z.leb_spec deadline (time w1)) as [|Hd]; [apply wp_fail; split_and!; [done|lia|by eexists; split; [|apply TransportLate]]|].
  assert (still (λ r : () + (), True) uid (
    created ← ask new_socket;
    match created with
    | Err source => fail (io_caused (generic "cannot create shim client socket") source)
    | Ok _ =>
        answer ← ask connect_;
        match answer with
        | Connected => mret (inr ())
        | InProgress => wait_control_connect deadline path;; mret (inr ())
        | TryAgain => now ← instant_now; sleep (Z.min LOOP_INTERVAL (saturating_sub deadline now));; mret (inl ())
        | ConnectFailed source =>
            if bool_decide (io_kind source ∈ [IoNotFound; IoConnectionRefused])
            then now ← instant_now; sleep (Z.min LOOP_INTERVAL (saturating_sub deadline now));; mret (inl ())
            else fail (io_caused (with_hint (generic ("cannot connect to shim socket " +:+ path)) connect_hint) source)
        end
    end)) as Hrest.
  { assert (∀ d, 0 ≤ d → still (λ _, True) uid (sleep d)) as Hsleep.
    { intros d Hd' w'. apply wp_sleep. pose proof (pass_later d w' Hd'). split_and!; [done|lia|done]. }
    assert (still (λ r : () + (), True) uid (now ← instant_now; sleep (Z.min LOOP_INTERVAL (saturating_sub deadline now));; mret (inl ()))) as Hagain.
    { eapply still_bind; [apply still_now|]. intros now _.
      eapply still_bind; [apply Hsleep; unfold LOOP_INTERVAL, saturating_sub; lia|]. intros _ _. by apply still_ret. }
    eapply still_bind; [apply still_ask|]. intros [[]|source] [n Hn].
    2:{ apply still_fail, TransportFault. exists n, "". tauto. }
    clear n Hn. eapply still_bind; [apply still_ask|]. intros [| | |source] [n Hn].
    - by apply still_ret.
    - eapply still_bind; [apply still_wait_connect|]. intros _ _. by apply still_ret.
    - exact Hagain.
    - destruct (bool_decide _); [exact Hagain|]. apply still_fail, TransportFault. exists n, "". tauto. }
  eapply wp_mono; [apply Hrest|]. intros [[[]|[]]|e] w2 (Hs2 & Ht2 & Hr); split_and!; try done; try lia; by rewrite Hs2.
Qed.

(** ** The client's request *)

Section client.
Context {Json Value : Type} `{ControlJson Json Value}.
Local Abbreviation ClientWorld := (Timed (Client (list (Event Json)))).
Local Abbreviation ClientAct := (M ClientWorld (Clock.Stop FirestoneError)).

Definition conn_of (w : ClientWorld) : Timed Conn := {| time := time w; tick := tick w; sink := connection (sink w) |}.
Definition events_of (w : ClientWorld) : list (Event Json) := events (sink w).
Definition with_conn (w : ClientWorld) (w' : Timed Conn) : ClientWorld :=
  {| time := time w'; tick := tick w'; sink := {| connection := sink w'; events := events (sink w) |} |}.
Lemma wp_on_connection {A} (m : Act A) (Q : result (Clock.Stop FirestoneError) A → ClientWorld → Prop) w :
  wp m (λ r w', Q r (with_conn w w')) (conn_of w) → wp (on_connection m) Q w.
Proof using Type. unfold wp, on_connection, conn_of. by destruct (m _). Qed.

(** A frame the client takes for an event. *)
Definition event_frame (frame : list Z) (e : Event Json) : Prop := ∃ v t,
  value_from_slice frame = Ok v ∧ get_ v "type" = Some t ∧ event_from_value v = Ok e.
Definition framed (frame : list Z) : Prop := 10 ∉ frame ∧ frame ≠ [] ∧ length_z frame ≤ MAX_CONTROL_RESPONSE_BYTES.
Definition size (frames : list (list Z)) : Z := length_z (concat frames).

(** Why the client gives up on the bytes [rest], after so many bytes of events. *)
Inductive response_error (cancellable : bool) (total : Z) (rest : list Z) : FirestoneError → Prop :=
  | BadFrame error : frame_error MAX_CONTROL_RESPONSE_BYTES cancellable rest error → response_error cancellable total rest error
  | BadTotal frame more : rest = line frame ++ more → framed frame → MAX_CONTROL_STREAM_BYTES < total + length_z frame →
      response_error cancellable total rest (protocol_error "shim response stream exceeds the 4 MiB limit")
  | BadJson frame more text : rest = line frame ++ more → framed frame → value_from_slice frame = Err text →
      response_error cancellable total rest (protocol_error_with_source "shim response is not valid JSON" text)
  | BadEvent frame more v t text : rest = line frame ++ more → framed frame → value_from_slice frame = Ok v →
      get_ v "type" = Some t → event_from_value v = Err text →
      response_error cancellable total rest (protocol_error_with_source "shim event does not match the Event contract" text).

Definition got (w : ClientWorld) (p : list Z) (es : list (Event Json)) (w' : ClientWorld) : Prop :=
  took (conn_of w) p (conn_of w') ∧ events_of w' = events_of w ++ es.
Lemma wp_response_turn with_events deadline cancellation total w :
  0 ≤ total ≤ MAX_CONTROL_STREAM_BYTES →
  wp (response_turn with_events deadline cancellation total) (λ r w', ∃ p es, got w p es w' ∧
    match r with
    | Ok (inl total') => ∃ frame e, p = line frame ∧ framed frame ∧ event_frame frame e ∧
        es = (if with_events then [e] else []) ∧ total' = total + length_z frame ∧ total' ≤ MAX_CONTROL_STREAM_BYTES
    | Ok (inr v) => ∃ frame, p = line frame ∧ framed frame ∧ value_from_slice frame = Ok v ∧ get_ v "type" = None ∧ es = []
    | Err e => es = [] ∧ ∃ error, e = Failed error ∧
        response_error (bool_decide (is_Some cancellation)) total (incoming (connection (sink w))) error
    end) w.
Proof using Hlag.
  intros Htotal. unfold response_turn. set (Q := λ r w', _). apply wp_bind, wp_on_connection.
  eapply wp_mono; [by apply wp_read_frame|]. intros r w1 (p & Hp & Hr).
  assert (Hgot : got w p [] (with_conn w w1)) by (split; [by destruct w1|by rewrite app_nil_r]).
  destruct r as [frame|e].
  2:{ exists p, []. split_and!; [done..|]. destruct Hr as (error & -> & He). exists error. split; [done|]. by apply BadFrame. }
  destruct Hr as (-> & Hnl & Hne & Hlen). assert (framed frame) as Hframed by done.
  assert (incoming (connection (sink w)) = line frame ++ incoming (sink w1)) as Hi by apply Hp.
  assert (Hfail : ∀ error, response_error (bool_decide (is_Some cancellation)) total (incoming (connection (sink w))) error →
    wp (fail (A := Z + Value) error) Q (with_conn w w1)).
  { intros error He. apply wp_fail. exists (line frame), []. split_and!; [done..|]. by exists error. }
  rewrite (proj2 (Z.ltb_ge _ _)).
  2:{ unfold MAX_CONTROL_RESPONSE_BYTES, MAX_CONTROL_STREAM_BYTES, u64_max in *. lia. }
  destruct (Z.ltb_spec MAX_CONTROL_STREAM_BYTES (total + length_z frame)); [by eapply Hfail, BadTotal|].
  destruct (value_from_slice frame) as [v|text] eqn:Hv; [|by eapply Hfail, BadJson].
  apply wp_bind, wp_ret. destruct (get_ v "type") as [t|] eqn:Ht.
  2:{ apply wp_ret. exists (line frame), []. split; [done|]. by exists frame. }
  destruct (event_from_value v) as [e|text] eqn:He; [|by eapply Hfail, BadEvent].
  apply wp_bind, wp_ret, wp_bind. assert (event_frame frame e) as Hev by (by exists v, t).
  destruct with_events.
  - apply wp_ret. exists (line frame), [e]. split; [|by exists frame, e]. split; [apply Hgot|done].
  - apply wp_ret, wp_ret. exists (line frame), []. split; [done|by exists frame, e].
Qed.
Lemma got_app w p es w1 q fs w2 : got w p es w1 → got w1 q fs w2 → got w (p ++ q) (es ++ fs) w2.
Proof using Type. intros [Hp He] [Hq Hf]. split; [by eapply took_app|]. by rewrite Hf, He, app_assoc. Qed.

(** What a response gave: frames that were events, then the terminal frame or a reason to give up. *)
Definition responded (with_events cancellable : bool) (w : ClientWorld)
    (r : result (Clock.Stop FirestoneError) Value) (w' : ClientWorld) : Prop :=
  ∃ frames es p, got w (lines frames ++ p) (if with_events then es else []) w' ∧
    Forall framed frames ∧ Forall2 event_frame frames es ∧
    match r with
    | Ok v => ∃ frame, p = line frame ∧ framed frame ∧ value_from_slice frame = Ok v ∧ get_ v "type" = None
    | Err e => ∃ error rest, e = Failed error ∧ incoming (connection (sink w)) = lines frames ++ rest ∧
        response_error cancellable (size frames) rest error
    end.
Lemma wp_responses with_events deadline cancellation w :
  wp (bounded_loop MAX_CONTROL_STREAM_BYTES (response_turn with_events deadline cancellation) 0)
    (responded with_events (bool_decide (is_Some cancellation)) w) w.
Proof using Hlag.
  set (Inv := λ total (w0 : ClientWorld), total ≤ MAX_CONTROL_STREAM_BYTES ∧ ∃ frames es,
    got w (lines frames) (if with_events then es else []) w0 ∧ Forall framed frames ∧ Forall2 event_frame frames es ∧
    total = size frames).
  apply (wp_bounded _ _ Inv (λ total _, MAX_CONTROL_STREAM_BYTES - total)); [|intros ? ? [? _]; lia| |lia].
  2:{ split; [done|]. exists [], []. split_and!; [|done..]. split; [apply took_nil; [done|lia]|]. by destruct with_events; rewrite app_nil_r. }
  intros total w0 [Hmax (frames & es & Hgot & Hframes & Hes & ->)].
  assert (0 ≤ size frames) by (unfold size, length_z; lia).
  eapply wp_mono; [by apply wp_response_turn|]. intros r w1 (p & fs & Hp & Hr).
  pose proof (got_app _ _ _ _ _ _ _ Hgot Hp) as Hpq. destruct r as [[total'|v]|e].
  - destruct Hr as (frame & e & -> & Hf & He & -> & -> & Hle).
    assert (0 < length_z frame) by (destruct Hf as (_ & Hne & _); destruct frame; [done|unfold length_z; cbn; lia]).
    split; [|lia]. split; [done|]. exists (frames ++ [frame]), (es ++ [e]). split_and!.
    + rewrite lines_app. unfold lines at 2. cbn. rewrite app_nil_r. by destruct with_events.
    + apply Forall_app_2; [done|by apply Forall_singleton].
    + apply Forall2_app; [done|by constructor].
    + unfold size, length_z. rewrite concat_app, length_app. cbn. rewrite app_nil_r. lia.
  - destruct Hr as (frame & -> & Hf & Hv & Ht & ->). exists frames, es, (line frame).
    rewrite app_nil_r in Hpq. split_and!; [done..|]. by exists frame.
  - destruct Hr as (-> & error & -> & He). exists frames, es, p. rewrite app_nil_r in Hpq. split_and!; [done..|].
    destruct Hgot as [(_ & Hi & _) _]. by exists error, (incoming (connection (sink w0))).
Qed.

(** Why a request is not sent. *)
Definition unsent (uid : Z) (bytes : list Z) (error : FirestoneError) : Prop :=
  MAX_CONTROL_REQUEST_BYTES < length_z bytes ∨ kind error = Usage ∨ transport_error uid error.
Lemma wp_shim_request uid c bytes with_events timeout_ cancellation w :
  wp (request uid c bytes with_events timeout_ cancellation) (λ r w', ∃ p q,
    sent (connection (sink w')) = sent (connection (sink w)) ++ p ∧ p `prefix_of` line bytes ∧
    incoming (connection (sink w)) = q ++ incoming (connection (sink w')) ∧
    ((∃ error, r = Err (Failed error) ∧ unsent uid bytes error) ∧ q = [] ∧ events_of w' = events_of w ∨
     p = line bytes ∧ ∃ w1, incoming (connection (sink w1)) = incoming (connection (sink w)) ∧ events_of w1 = events_of w ∧
       responded with_events (bool_decide (is_Some cancellation)) w1 r w')) w.
Proof using Hlag.
  unfold request. set (Q := λ r w', _).
  assert (Hfail : ∀ (w1 : ClientWorld) p error, wrote (conn_of w) p (conn_of w1) → p `prefix_of` line bytes →
    events_of w1 = events_of w → unsent uid bytes error → Q (Err (Failed error)) w1).
  { intros w1 p error (Hs & Hi & _) Hp He Hu. exists p, []. split_and!; [done..|]. left. split_and!; [by eexists|done..]. }
  destruct (Z.ltb_spec MAX_CONTROL_REQUEST_BYTES (length_z bytes));
    [apply wp_fail, (Hfail w []); [by apply wrote_nil|apply prefix_nil|done|by left]|].
  apply wp_bind, wp_now. set (w1 := pass 0 w).
  assert (wrote (conn_of w) [] (conn_of w1)) as Hw1 by (apply wrote_nil; [done|exact (time_pass_ge w)]).
  destruct (instant_checked_add _ _) as [deadline|]; [|apply wp_bind, wp_fail, (Hfail w1 []); [done|apply prefix_nil|done|by right; left]].
  apply wp_bind, wp_ret, wp_bind, wp_on_connection, wp_bind. eapply wp_mono; [apply (still_connect uid)|].
  intros r w2 (Hs2 & Ht2 & Hr2). assert (wrote (conn_of w) [] w2) as Hw2 by (eapply (wrote_app _ [] _ []); [done|by apply wrote_nil]).
  destruct r as [[]|e].
  2:{ destruct Hr2 as (error & -> & He). apply (Hfail (with_conn w1 w2) []); [by destruct w2|apply prefix_nil|done|by right; right]. }
  apply wp_bind. eapply wp_mono; [apply (still_authorize uid)|]. intros r w3 (Hs3 & Ht3 & Hr3).
  assert (wrote (conn_of w) [] w3) as Hw3 by (eapply (wrote_app _ [] _ []); [done|by apply wrote_nil]).
  destruct r as [[]|e].
  2:{ destruct Hr3 as (error & -> & He). apply (Hfail (with_conn w1 w3) []); [by destruct w3|apply prefix_nil|done|by right; right]. }
  eapply wp_mono; [apply wp_write_frame|]. intros r w4 (p & Hp & Hpre & Hr4).
  pose proof (wrote_app _ _ _ _ _ Hw3 Hp) as Hw4. cbn [app] in Hw4. set (w5 := with_conn w1 w4).
  assert (wrote (conn_of w) p (conn_of w5)) as Hw5 by (by destruct w4). destruct r as [[]|e].
  2:{ destruct Hr4 as (error & -> & He). apply (Hfail w5 p); [done..|]. right; right. by apply write_transport. }
  subst p. eapply wp_mono; [apply wp_responses|]. intros r w6 Hr6.
  destruct Hw5 as (Hs5 & Hi5 & _). pose proof Hr6 as (frames & es & p & [(Hs6 & Hi6 & _) He6] & _).
  exists (line bytes), (lines frames ++ p). split_and!; [by etrans; [exact Hs6|exact Hs5]|done|by etrans; [symmetry; exact Hi5|exact Hi6]|].
  right. split; [done|]. exists w5. split_and!; [exact Hi5|done|exact Hr6].
Qed.
End client.

(** ** The shim's answer *)

Section sink.
Context {Json Value : Type} `{ControlJson Json Value}.
Local Abbreviation SinkWorld := (Timed ProtocolSink).
Local Abbreviation SinkAct := (M SinkWorld (Clock.Stop FirestoneError)).

Definition encode (r : Reply Json) : result string (list Z) :=
  match r with EventReply e => event_to_vec e | TerminalOk => ok_to_vec true | TerminalError i => error_to_vec i end.
(** A message small enough to be sent. *)
Definition sends (encoded : result string (list Z)) (frame : list Z) : Prop :=
  encoded = Ok frame ∧ length_z frame ≤ MAX_CONTROL_RESPONSE_BYTES.
Definition wire (w : SinkWorld) : list Z := sent (stream (sink w)).

Lemma wp_on_stream {A} (m : Act A) (Q : result (Clock.Stop FirestoneError) A → SinkWorld → Prop) w :
  wp m (λ r w', Q r {| time := time w'; tick := tick w'; sink := set_stream (sink w) (sink w') (attached (sink w)) |})
    {| time := time w; tick := tick w; sink := stream (sink w) |} →
  wp (on_stream m) Q w.
Proof using Type. unfold wp, on_stream. by destruct (m _). Qed.
Lemma wp_try {S A} (m : M (Timed S) (Clock.Stop FirestoneError) A) (Q : result _ (result FirestoneError A) → Timed S → Prop) w :
  wp m (λ r w', match r with
    | Ok a => Q (Ok (Ok a)) w' | Err (Failed e) => Q (Ok (Err e)) w' | Err OutOfFuel => Q (Err OutOfFuel) w' end) w →
  wp (try_ m) Q w.
Proof using Type. unfold wp, try_. by destruct (m w) as [[a|[e|]] w']. Qed.

Lemma wp_send_encoded encoded w :
  wp (send_encoded encoded) (λ r w', ∃ p, wire w' = wire w ++ p ∧ attached (sink w') = attached (sink w) ∧
    match r with
    | Ok _ => ∃ frame, sends encoded frame ∧ p = line frame
    | Err e => (∃ error, e = Failed error) ∧ (p = [] ∨ ∃ frame, sends encoded frame ∧ p `prefix_of` line frame)
    end) w.
Proof using Hlag.
  unfold send_encoded. set (Q := λ r w', _).
  assert (Hfail : ∀ w' error, sink w' = sink w → Q (Err (Failed error)) w').
  { intros w' error Hs. exists []. unfold wire. rewrite Hs, app_nil_r. split_and!; [done..|by eexists|by left]. }
  apply wp_bind, (wp_mono _ (λ r w', r = Ok (sink w) ∧ w' = w)); [done|]. intros r w0 [-> ->].
  destruct encoded as [frame|text] eqn:Henc; [|by apply wp_bind, wp_fail, Hfail].
  apply wp_bind, wp_ret. destruct (Z.ltb_spec MAX_CONTROL_RESPONSE_BYTES (length_z frame)); [by apply wp_fail, Hfail|].
  apply wp_bind.
  assert (Hsend : ∀ deadline w1, sink w1 = sink w → wp (on_stream (write_frame frame deadline)) Q w1).
  { intros deadline w1 Hs1. apply wp_on_stream. eapply wp_mono; [apply wp_write_frame|].
    intros r w2 (p & (Hs & _ & _) & Hpre & Hr). exists p. rewrite Hs1 in *. split_and!; [done..|].
    destruct r as [[]|e]; [by exists frame|]. destruct Hr as (error & -> & _). split; [by eexists|]. right. by exists frame. }
  destruct (sink_deadline (sink w)) as [deadline|].
  - apply wp_bind, wp_bind, wp_now. destruct (_ <? _); [|by apply wp_fail, Hfail]. apply wp_ret, wp_ret. by apply Hsend.
  - apply wp_bind, wp_now. destruct (instant_checked_add _ _) as [deadline|]; [|by apply wp_fail, Hfail].
    apply wp_ret. by apply Hsend.
Qed.
Lemma wp_sink_write encoded w :
  wp (write encoded) (λ r w', r = Ok () ∧ ∃ p, wire w' = wire w ++ p ∧
    if attached (sink w) then
      if attached (sink w') then ∃ frame, sends encoded frame ∧ p = line frame
      else p = [] ∨ ∃ frame, sends encoded frame ∧ p `prefix_of` line frame
    else p = [] ∧ attached (sink w') = false) w.
Proof using Hlag.
  unfold write. apply wp_bind, (wp_mono _ (λ r w', r = Ok (sink w) ∧ w' = w)); [done|]. intros r w0 [-> ->].
  destruct (attached (sink w)) eqn:Ha; cbn [negb].
  2:{ apply wp_ret. split; [done|]. exists []. by rewrite app_nil_r, Ha. }
  apply wp_bind, wp_try. eapply wp_mono; [apply wp_send_encoded|]. intros r w1 (p & Hp & Ha1 & Hr). rewrite Ha in Ha1.
  destruct r as [[]|e].
  - apply wp_ret. split; [done|]. exists p. by rewrite Ha1.
  - destruct Hr as [(error & ->) Hr]. unfold wp. split; [done|]. exists p.
    unfold log_write_failure, update, mbind, M_bind, wire. cbn. destruct (write_failure_logged (sink w1)); by split.
Qed.
(** However its writes go, the sink leaves a prefix of the lines of the replies it was given, and
    all of them if it is still attached. *)
Definition answered (l : list (Reply Json)) (p : list Z) (whole : bool) : Prop :=
  ∃ done frames, done `prefix_of` l ∧ Forall2 sends (encode <$> done) frames ∧ p `prefix_of` lines frames ∧
    (whole = true → done = l ∧ p = lines frames).
Lemma answered_nil l whole : (whole = true → l = []) → answered l [] whole.
Proof using Type. intros Hl. exists [], []. split_and!; [apply prefix_nil|constructor|done|]. intros Hw. by rewrite Hl. Qed.
Lemma write_reply_eq x : write_reply () x = write (encode x).
Proof using Type. by destruct x. Qed.
Lemma wp_detached l w :
  attached (sink w) = false →
  wp (fold_act write_reply () l) (λ r w', r = Ok () ∧ wire w' = wire w ∧ attached (sink w') = false) w.
Proof using Hlag.
  revert w. induction l as [|x l IH]; intros w Ha; cbn [fold_act]; [by apply wp_ret|].
  apply wp_bind. rewrite write_reply_eq.
  eapply wp_mono; [apply wp_sink_write|]. intros r w2 (-> & p & Hp & Hr). rewrite Ha in Hr. destruct Hr as [-> Ha2].
  eapply wp_mono; [by apply IH|]. intros r w3 (-> & Hw & Ha3). by rewrite Hw, Hp, app_nil_r.
Qed.
Lemma wp_write_replies l w :
  attached (sink w) = true →
  wp (write_replies l) (λ r w', r = Ok () ∧ ∃ p, wire w' = wire w ++ p ∧ answered l p (attached (sink w'))) w.
Proof using Hlag.
  unfold write_replies. revert w. induction l as [|x l IH]; intros w Ha; cbn [fold_act].
  { apply wp_ret. split; [done|]. exists []. rewrite app_nil_r. split; [done|]. by apply answered_nil. }
  apply wp_bind. rewrite write_reply_eq.
  eapply wp_mono; [apply wp_sink_write|]. intros r w1 (-> & p & Hp & Hr). rewrite Ha in Hr.
  destruct (attached (sink w1)) eqn:Ha1.
  - destruct Hr as (frame & Hf & ->). eapply wp_mono; [by apply IH|]. intros r w2 (-> & q & Hq & done_ & frames & Hd & Hfs & Hpre & Hwhole).
    split; [done|]. exists (line frame ++ q). rewrite Hq, Hp, app_assoc. split; [done|].
    exists (x :: done_), (frame :: frames). unfold lines. cbn [fmap list_fmap concat]. split_and!.
    + by apply prefix_cons.
    + by constructor.
    + by apply prefix_app.
    + intros [-> ->]%Hwhole. done.
  - assert (answered (x :: l) p false) as Hans.
    { destruct Hr as [->|(frame & Hf & Hpre)]; [by apply answered_nil|].
      exists [x], [frame]. split_and!; [apply prefix_cons, prefix_nil|by constructor|by unfold lines; cbn; rewrite app_nil_r|done]. }
    eapply wp_mono; [by apply wp_detached|]. intros r w2 (-> & Hw & Ha2). split; [done|]. exists p. by rewrite Hw, Ha2.
Qed.
End sink.
End spec.

(** ** The shim's reading of a request *)

Section server.
Context `{Schedule} `{VmmApi.Socket} `{Peer} {Json Value : Type} `{ControlJson Json Value}.
Context (Hlag : ∀ n, 0 < lag n).
Local Abbreviation Act := (M (Timed Conn) (Clock.Stop FirestoneError)).
Local Abbreviation ServerAct := (M (Timed Accepted) (Clock.Stop FirestoneError)).

Definition accepted_conn (w : Timed Accepted) : Timed Conn := {| time := time w; tick := tick w; sink := accepted (sink w) |}.
Lemma wp_on_accepted {A} (m : Act A) (Q : result (Clock.Stop FirestoneError) A → Timed Accepted → Prop) w :
  wp m (λ r w', Q r {| time := time w'; tick := tick w'; sink := {| accepted := sink w'; log := log (sink w) |} |}) (accepted_conn w) →
  wp (on_accepted m) Q w.
Proof using Type. unfold wp, on_accepted, accepted_conn. by destruct (m _). Qed.

Lemma wp_write_json_line encoded timeout w :
  wp (write_json_line encoded timeout) (λ r w', incoming (sink w') = incoming (sink w) ∧
    match r with Ok _ => True | Err e => ∃ error, e = Failed error end) w.
Proof using Hlag.
  unfold write_json_line. apply wp_bind. destruct encoded as [bytes|text]; [|apply wp_fail; split; [done|by eexists]].
  apply wp_ret. destruct (_ <? _); [apply wp_fail; split; [done|by eexists]|]. apply wp_bind, wp_now, wp_bind.
  destruct (instant_checked_add _ _) as [deadline|]; [|apply wp_fail; split; [done|by eexists]]. apply wp_ret.
  eapply wp_mono; [by apply wp_write_frame|]. intros r w1 (p & (_ & Hi & _) & _ & Hr). split; [done|].
  destruct r as [[]|e]; [done|]. destruct Hr as (error & -> & _). by eexists.
Qed.
Lemma wp_isolate name operation encoded timeout w :
  wp (isolate_client_write name operation (write_json_line encoded timeout))
    (λ r w', r = Ok () ∧ incoming (accepted (sink w')) = incoming (accepted (sink w))) w.
Proof using Hlag.
  unfold isolate_client_write. apply wp_bind, wp_try, wp_on_accepted. eapply wp_mono; [apply wp_write_json_line|].
  intros [[]|e] w1 [Hi Hr]; [by apply wp_ret|]. destruct Hr as [error ->]. by split.
Qed.

(** A request read in full: one frame within the limit. *)
Definition requested (i : list Z) (req : ControlRequest) : Prop := ∃ frame rest,
  i = line frame ++ rest ∧ 10 ∉ frame ∧ frame ≠ [] ∧ length_z frame ≤ MAX_CONTROL_REQUEST_BYTES ∧ request_from_slice frame = Ok req.
Lemma wp_read_request timeout w :
  wp (read_request timeout) (λ r w', sent (sink w') = sent (sink w) ∧
    match r with Ok req => requested (incoming (sink w)) req | Err e => ∃ error, e = Failed error end) w.
Proof using Hlag.
  unfold read_request. apply wp_bind, wp_observe. destruct (set_nonblocking _) as [[]|source]; [|apply wp_fail; split; [done|by eexists]].
  apply wp_bind, wp_now, wp_bind. destruct (instant_checked_add _ _) as [deadline|]; [|apply wp_fail; split; [done|by eexists]].
  apply wp_ret, wp_bind. eapply wp_mono; [by apply wp_read_frame|]. intros r w1 (p & (Hs & Hi & _) & Hr). cbn [sink pass] in Hs, Hi.
  destruct r as [frame|e]; [|destruct Hr as (error & -> & _); split; [done|by eexists]]. destruct Hr as (-> & Hnl & Hne & Hlen).
  assert (Hdecode : ∀ w2, sent (sink w2) = sent (sink w) →
    wp (lift (map_err (protocol_error_with_source "invalid shim control request") (request_from_slice frame)))
      (λ r w', sent (sink w') = sent (sink w) ∧
        match r with Ok req => requested (incoming (sink w)) req | Err e => ∃ error, e = Failed error end) w2).
  { intros w2 Hs2. destruct (request_from_slice frame) as [req|text] eqn:Hreq; [|apply wp_fail; split; [done|by eexists]].
    apply wp_ret. split; [done|]. by exists frame, (incoming (sink w1)). }
  apply wp_bind, wp_read_byte.
  - intros e _. apply wp_bind. destruct (io_kind e); (apply wp_ret, Hdecode; exact Hs) || (apply wp_fail; split; [exact Hs|by eexists]).
  - intros _. apply wp_bind, wp_ret, Hdecode, Hs.
  - intros byte rest _. apply wp_bind, wp_fail. split; [exact Hs|by eexists].
Qed.
Lemma wp_control_connection name uid control_io m shim_pid launched w :
  wp (control_connection name uid control_io m shim_pid launched) (λ r w', ∃ o, r = Ok o ∧
    ((∀ n, peer_credentials n ≠ Ok uid) → incoming (accepted (sink w')) = incoming (accepted (sink w)) ∧ o = None) ∧
    match o with
    | Some req => requested (incoming (accepted (sink w))) req ∧ sent (accepted (sink w')) = sent (accepted (sink w)) ∧
        match req with Request.Launch => launched = false | Request.Stop _ _ => True | _ => False end
    | None => True
    end) w.
Proof using Hlag.
  unfold control_connection. set (Q := λ r w', _).
  assert (Hnone : ∀ operation encoded w1,
    ((∀ n, peer_credentials n ≠ Ok uid) → incoming (accepted (sink w1)) = incoming (accepted (sink w))) →
    wp (isolate_client_write name operation (write_json_line encoded control_io);; mret None) Q w1).
  { intros operation encoded w1 Hi. apply wp_bind. eapply wp_mono; [apply wp_isolate|]. intros r w2 [-> Hi2]. apply wp_ret.
    exists None. split; [done|]. split; [|done]. intros Hn. split; [|done]. rewrite Hi2. by apply Hi. }
  apply wp_bind, wp_observe. destruct (set_nonblocking _) as [[]|source].
  2:{ exists None. by split_and!. }
  apply wp_bind, wp_try, wp_on_accepted. unfold authorize_peer. apply wp_bind, wp_observe.
  destruct (peer_credentials _) as [other|source] eqn:Hpeer; [|by apply wp_fail, Hnone].
  destruct (Z.eqb_spec other uid) as [->|]; [|by apply wp_fail, Hnone]. apply wp_ret.
  assert (Hknown : ∀ P, (∀ n, peer_credentials n ≠ Ok uid) → P) by (intros P Hn; by destruct (Hn _ Hpeer)).
  apply wp_bind, wp_try, wp_on_accepted. eapply wp_mono; [apply wp_read_request|]. intros r w1 [Hs Hr].
  destruct r as [req|e]; [|destruct Hr as [error ->]; apply Hnone; intros Hn; by apply Hknown].
  assert (Hsome : match req with Request.Launch => launched = false | Request.Stop _ _ => True | _ => False end →
    Q (Ok (Some req)) {| time := time w1; tick := tick w1; sink := {| accepted := sink w1; log := log (sink w) |} |}).
  { intros Hreq. exists (Some req). split_and!; [done|intros Hn; by apply Hknown|done..]. }
  destruct req as [| |timeout_s force|].
  - destruct launched; [apply Hnone; intros Hn; by apply Hknown|]. apply wp_ret. by apply Hsome.
  - apply Hnone; intros Hn; by apply Hknown.
  - apply wp_ret. by apply Hsome.
  - apply Hnone; intros Hn; by apply Hknown.
Qed.
End server.

(** ** Both ends of a response *)

Section response.
Context `{VmmApi.Socket} `{Peer} {Json Value : Type} `{ControlJson Json Value}.

Definition terminal (r : Reply Json) : Prop := match r with EventReply _ => False | _ => True end.
(** What the client makes of a terminal response. *)
Definition terminal_result (r : Reply Json) : result FirestoneError () :=
  match r with
  | TerminalError i => Err {| kind := info_kind i; message := info_message i; hint := info_hint i; field := None; source := None |}
  | _ => Ok ()
  end.
(** What [serde_json] promises of a message: its text is one line, and reads back as it was. *)
Definition reads_back (r : Reply Json) : Prop := ∀ frame, encode r = Ok frame →
  frame ≠ [] ∧ 10 ∉ frame ∧ ∃ v, value_from_slice frame = Ok v ∧
    match r with
    | EventReply e => (∃ t, get_ v "type" = Some t) ∧ event_from_value v = Ok e
    | TerminalOk => get_ v "type" = None ∧ terminal_ok_ v = Some true
    | TerminalError i => get_ v "type" = None ∧ terminal_ok_ v = Some false ∧
        ∃ value, get_ v "error" = Some value ∧ info_from_value value = Ok i
    end.
Definition sent_as (r : Reply Json) (frame : list Z) : Prop := sends (encode r) frame.

Lemma sent_event r frame e : reads_back r → sent_as r frame → event_frame frame e → r = EventReply e.
Proof.
  intros Hback [Henc _] (v & t & Hv & Ht & He). destruct (Hback _ Henc) as (_ & _ & v' & Hv' & Hr).
  assert (v' = v) as -> by congruence. destruct r as [e'| |i]; destruct Hr; congruence.
Qed.
Lemma sent_terminal r frame v : reads_back r → sent_as r frame →
  value_from_slice frame = Ok v → get_ v "type" = None → terminal r ∧ require_ok_terminal v = terminal_result r.
Proof.
  intros Hback [Henc _] Hv Ht. destruct (Hback _ Henc) as (_ & _ & v' & Hv' & Hr).
  assert (v' = v) as -> by congruence. unfold require_ok_terminal, error_from_terminal. destruct r as [e'| |i].
  - destruct Hr as [[t ?] _]. congruence.
  - destruct Hr as [_ Hok]. by rewrite Hok.
  - destruct Hr as (_ & Hok & value & He & Hi). rewrite Hok, He. cbn. rewrite Hi. cbn. by destruct i as [? ? [] ?].
Qed.
Lemma sent_events d frames es :
  Forall reads_back d → Forall2 sent_as d frames → Forall2 event_frame frames es → d = EventReply <$> es.
Proof.
  intros Hd Hf. revert es. induction Hf as [|r frame d frames Hr Hf IH]; intros es Hes.
  { by apply Forall2_nil_inv_l in Hes as ->. }
  apply Forall2_cons_inv_l in Hes as (e & es' & He & Hes & ->). apply Forall_cons in Hd as [Hback Hd]. cbn.
  by rewrite (sent_event _ _ _ Hback Hr He), (IH Hd es').
Qed.
(** The events of a response, and its end. *)
Lemma events_prefix es (ts : list (Reply Json)) es' more :
  Forall terminal ts → ((EventReply <$> es') ++ more) `prefix_of` ((EventReply <$> es) ++ ts) →
  es' `prefix_of` es ∧ (∀ x more', more = x :: more' → terminal x → es' = es ∧ head ts = Some x).
Proof.
  intros Ht. revert es. induction es' as [|e es' IH]; intros es Hpre; cbn in Hpre.
  - split; [apply prefix_nil|]. intros x more' -> Hx. destruct es as [|e es]; cbn in Hpre.
    + destruct ts as [|t ts]; [by apply prefix_nil_not in Hpre|]. by apply prefix_cons_inv_1 in Hpre as ->.
    + by apply prefix_cons_inv_1 in Hpre as ->.
  - destruct es as [|e0 es]; cbn in Hpre.
    + destruct ts as [|t ts]; [by apply prefix_nil_not in Hpre|]. apply prefix_cons_inv_1 in Hpre as <-.
      by apply Forall_cons in Ht as [? _].
    + pose proof (prefix_cons_inv_1 _ _ _ _ Hpre) as E. apply prefix_cons_inv_2 in Hpre. simplify_eq.
      destruct (IH _ Hpre) as [Hes Hx]. split; [by apply prefix_cons|].
      intros x more' -> Htx. by destruct (Hx x more' eq_refl Htx) as [-> ->].
Qed.

Lemma sent_plain d frames : Forall reads_back d → Forall2 sent_as d frames → Forall (λ f, 10 ∉ f) frames.
Proof.
  intros Hd Hf. induction Hf as [|r f d frames Hr Hf IH]; [constructor|]. apply Forall_cons in Hd as [Hb Hd].
  constructor; [by apply (Hb f), Hr|auto].
Qed.

(** The bytes a client has not taken for events begin with the line of the reply after them. *)
Lemma rest_cases d frames rest :
  Forall reads_back d → Forall2 sent_as d frames → rest `prefix_of` lines frames →
  ∀ frame more, framed frame → rest = line frame ++ more →
  ∃ r d', d = r :: d' ∧ sent_as r frame ∧ reads_back r.
Proof.
  intros Hd Hf Hpre frame more (Hnl & _) ->.
  pose proof (sent_plain _ _ Hd Hf) as Hnls.
  destruct (lines_prefix [frame] frames more) as (more' & -> & _); [by constructor|done|by rewrite lines_one|].
  apply Forall2_cons_inv_r in Hf as (r & d' & Hr & _ & ->). apply Forall_cons in Hd as [Hb _]. by exists r, d'.
Qed.
Lemma first_line f fs frame more :
  10 ∉ f → 10 ∉ frame → lines (f :: fs) = line frame ++ more → frame = f.
Proof.
  intros Hf Hframe E. rewrite lines_cons in E. unfold line in E. rewrite <- app_assoc in E. cbn in E.
  symmetry in E. by apply frame_unique in E as [-> _].
Qed.
(** What is left of a complete answer does not make the client give up on what it says. *)
Lemma complete_error uid d frames total error :
  Forall reads_back d → Forall2 sent_as d frames → d ≠ [] →
  total + size frames ≤ MAX_CONTROL_STREAM_BYTES →
  response_error false total (lines frames) error → transport_error uid error.
Proof.
  intros Hd Hf Hne Htotal He. pose proof (sent_plain _ _ Hd Hf) as Hnls.
  destruct Hf as [|r f d frames Hr Hf]; [done|]. apply Forall_cons in Hnls as [Hnl Hnls].
  pose proof Hd as [Hback _]%Forall_cons. destruct (Hback f (proj1 Hr)) as (Hfne & _ & v & Hv & Hval).
  destruct He as [error He|frame more E Hframed Hlong|frame more text E Hframed Hbad|frame more v' t text E Hframed Hv' Ht Hbad].
  2-4: apply first_line in E as ->; [|done|apply Hframed].
  - destruct He as [?| |Hclosed|rest E|frame rest E Hframe Hlong|source (n & Hn & _)].
    + done.
    + by apply TransportLate.
    + rewrite lines_cons in Hclosed. set_solver.
    + rewrite lines_cons in E. destruct f; simplify_eq/=. set_solver.
    + exfalso. rewrite lines_cons in E. apply app_eq_inv in E as [(k & -> & _)|(k & -> & E)].
      * destruct Hr as [_ Hlen]. unfold length_z in *. rewrite length_app in Hlen. lia.
      * destruct k as [|b k]; simplify_eq/=; [|set_solver].
        destruct Hr as [_ Hlen]. rewrite app_nil_r in Hlong. lia.
    + apply TransportFault. exists n, "". tauto.
  - exfalso. unfold size in *. cbn in Htotal. unfold length_z in *. rewrite length_app in Htotal. lia.
  - congruence.
  - assert (v' = v) as -> by congruence. exfalso. destruct r as [e| |i]; destruct Hval; congruence.
Qed.

Lemma answer_received uid es ts p whole w1 r w' :
  Forall terminal ts → Forall reads_back ((EventReply <$> es) ++ ts) →
  answered ((EventReply <$> es) ++ ts) p whole → incoming (connection (sink w1)) = p →
  responded true false w1 r w' →
  ∃ told, events_of w' = events_of w1 ++ told ∧ told `prefix_of` es ∧
    match r with
    | Ok v => told = es ∧ ∃ t, head ts = Some t ∧ require_ok_terminal v = terminal_result t
    | Err e => ∃ error, e = Failed error ∧
        (whole = true → ts ≠ [] → length_z p ≤ MAX_CONTROL_STREAM_BYTES → transport_error uid error)
    end.
Proof.
  intros Ht Hall (d & fs & Hd & Hfs & Hp & Hwhole) Hi (frames & told & q & [(_ & Hgot & _) Hev] & Hframed & Htold & Hr).
  cbn in Hgot. rewrite Hi in Hgot. exists told. split; [done|].
  assert (Forall reads_back d) as Hback by (destruct Hd as [? E]; rewrite E in Hall; by apply Forall_app in Hall as [? _]).
  rewrite Forall2_fmap_l in Hfs. change (Forall2 sent_as d fs) in Hfs.
  destruct (lines_prefix frames fs (q ++ incoming (connection (sink w')))) as (more & -> & Hmore).
  { eapply Forall_impl; [exact Hframed|]. by intros ? [? _]. }
  { by eapply sent_plain. }
  { by rewrite app_assoc, <- Hgot. }
  apply Forall2_app_inv_r in Hfs as (d1 & d2 & Hd1 & Hd2 & ->). apply Forall_app in Hback as [Hb1 Hb2].
  rewrite (sent_events _ _ _ Hb1 Hd1 Htold) in *. destruct (events_prefix _ _ _ _ Ht Hd) as [Hpre Hend]. split; [done|].
  destruct r as [v|e].
  - destruct Hr as (frame & -> & Hf & Hv & Htype).
    destruct (rest_cases _ _ _ Hb2 Hd2 Hmore _ _ Hf eq_refl) as (r & d' & -> & Hr & Hrb).
    destruct (sent_terminal _ _ _ Hrb Hr Hv Htype) as [Htr ->]. destruct (Hend _ _ eq_refl Htr) as [-> Hts]. by split; [|exists r].
  - destruct Hr as (error & rest & -> & Hrest & He). exists error. split; [done|]. intros [Hl ->]%Hwhole Hts Hsize.
    rewrite Hi, lines_app in Hrest. apply app_inv_head in Hrest as <-. apply (complete_error uid d2 more (size frames)); [done|done| | |done].
    + intros ->. rewrite app_nil_r in Hl. destruct ts as [|t ts]; [done|].
      assert (t ∈ EventReply <$> told) as (e & -> & _)%list_elem_of_fmap by (rewrite Hl; set_solver). by apply Forall_cons in Ht as [? _].
    + assert (∀ l : list (list Z), size l ≤ length_z (lines l)) as Hle.
      { unfold size, length_z. induction l as [|f l IH]; [done|]. rewrite lines_cons. cbn. rewrite !length_app. cbn. lia. }
      pose proof (Hle more). pose proof (Hle frames). rewrite lines_app in Hsize. unfold length_z in *. rewrite length_app in Hsize. lia.
Qed.
End response.

(** ** Properties *)

Section properties.
Context {Json Value : Type} `{ControlJson Json Value}.

(** C11: shim.rs, the control stream: whatever the short writes, interruptions and delays on the
    shim's side and the fragmentation and delays on the client's, the events a client's sink is
    given are the first ones the shim emitted, in order; the client has a terminal response only
    after all of them, and takes from it exactly the shim's outcome; it always ends, and if the
    shim's writes all went through (an answer of at most 4 MiB to a request of at most 4096 bytes,
    with a deadline the clock can represent) it fails only for time, a kernel error, or the peer's owner. *)
Theorem response_stream_faithful (shim_clock : Schedule) (shim_socket : VmmApi.Socket)
    (clock : Schedule) (socket_ : VmmApi.Socket) (peer_ : Peer)
    es t (ws : Timed ProtocolSink) rs ws' uid c bytes timeout_ (w : Timed (Client (list (Event Json)))) r w' :
  (∀ n, 0 < lag (Schedule := shim_clock) n) → (∀ n, 0 < lag (Schedule := clock) n) →
  terminal t → Forall reads_back ((EventReply <$> es) ++ [t]) → attached (sink ws) = true → wire ws = [] →
  write_replies (H := shim_clock) (H0 := shim_socket) ((EventReply <$> es) ++ [t]) ws = (rs, ws') →
  incoming (connection (sink w)) = wire ws' →
  request (H := clock) (H0 := socket_) uid c bytes true timeout_ None w = (r, w') →
  rs = Ok () ∧ ∃ told, events (sink w') = events (sink w) ++ told ∧ told `prefix_of` es ∧
    match r with
    | Ok v => told = es ∧ require_ok_terminal v = terminal_result t ∧
        sent (connection (sink w')) = sent (connection (sink w)) ++ line bytes
    | Err e => ∃ error, e = Failed error ∧
        (attached (sink ws') = true → length_z (wire ws') ≤ MAX_CONTROL_STREAM_BYTES → unsent uid bytes error)
    end.
Proof.
  intros Hlag Hlag' Ht Hback Ha Hwire Hws Hi Hr.
  pose proof (wp_write_replies (H := shim_clock) (H0 := shim_socket) Hlag ((EventReply <$> es) ++ [t]) ws Ha) as Hs. unfold wp in Hs. rewrite Hws in Hs.
  destruct Hs as (Hrs & p & Hp & Hans). cbn [fst snd] in *. split; [done|]. rewrite Hwire in Hp. cbn in Hp. subst p.
  pose proof (wp_shim_request (H := clock) (H0 := socket_) Hlag' uid c bytes true timeout_ None w) as Hc. unfold wp in Hc. rewrite Hr in Hc. cbn [fst snd] in Hc.
  destruct Hc as (p & q & Hsent & _ & _ & [((error & -> & Hu) & _ & Hev)|(-> & w1 & Hi1 & Hev1 & Hresp)]); cbn [fst snd] in *.
  - exists []. rewrite app_nil_r. split_and!; [exact Hev|apply prefix_nil|]. by exists error.
  - destruct (answer_received (H := socket_) uid es [t] _ _ w1 r w' ltac:(by constructor) Hback Hans ltac:(by rewrite Hi1) Hresp) as (told & Hev & Hpre & Hend).
    exists told. rewrite Hev1 in Hev. split_and!; [exact Hev|done|]. destruct r as [v|e].
    + destruct Hend as (-> & t' & Ht' & Hv). cbn in Ht'. by simplify_eq.
    + destruct Hend as (error & -> & He). exists error. split; [done|]. intros. right; right. by apply He.
Qed.

(** C12: shim.rs, a connection to the shim: handling one never ends the supervisor; a request is
    carried out only if the peer is the machine's owner, it starts with one frame of at most 4096 bytes
    (what follows it is not read), and the frame reads as that request; a launch only when the caller
    says that none was made before; from anyone else not a byte is read. *)
Theorem request_admitted `{Schedule} `{VmmApi.Socket} `{Peer} name uid control_io m shim_pid launched w r w' :
  (∀ n, 0 < lag n) →
  control_connection name uid control_io m shim_pid launched w = (r, w') →
  ∃ o, r = Ok o ∧
    ((∀ n, peer_credentials n ≠ Ok uid) → incoming (accepted (sink w')) = incoming (accepted (sink w)) ∧ o = None) ∧
    match o with
    | Some req => requested (incoming (accepted (sink w))) req ∧ sent (accepted (sink w')) = sent (accepted (sink w)) ∧
        match req with Request.Launch => launched = false | Request.Stop _ _ => True | _ => False end
    | None => True
    end.
Proof.
  intros Hlag Hrun. pose proof (wp_control_connection Hlag name uid control_io m shim_pid launched w) as Hw.
  unfold wp in Hw. by rewrite Hrun in Hw.
Qed.
End properties.

(** ** A concrete codec, shim and client *)

(** A codec of two events and the terminal responses, one byte each. *)
Definition demo_start : Event () := StepStart "stop" "force stop VMM".
Definition demo_done : Event () := StepDone "stop" (Some "forced stop") 0.
Definition demo_failure : ErrorInfo := {|
  info_kind := Conflict; info_message := "refused"; info_hint := Some "retry"; info_field := None |}.
#[export] Instance demo_codec : ControlJson () (Reply ()) := {|
  event_to_vec e := match e with StepStart _ _ => Ok [65] | StepDone _ _ _ => Ok [66] | _ => Err "not in the demo" end;
  ok_to_vec _ := Ok [75];
  error_to_vec _ := Ok [69; 69];
  status_to_vec _ := Ok [88];
  stop_to_vec _ _ := Ok [83; 83];
  request_from_slice bytes := match bytes with [83; 83] => Ok (Request.Stop 30 true) | _ => Err "unknown" end;
  value_from_slice bytes := match bytes with
    | [65] => Ok (EventReply demo_start) | [66] => Ok (EventReply demo_done)
    | [75] => Ok TerminalOk | [69; 69] => Ok (TerminalError demo_failure) | _ => Err "not JSON" end;
  get_ v key := match v with
    | EventReply _ => if String.eqb key "type" then Some v else None
    | TerminalOk => if String.eqb key "ok" then Some v else None
    | TerminalError _ => if String.eqb key "ok" || String.eqb key "error" then Some v else None end;
  as_bool v := match v with TerminalOk => Some true | TerminalError _ => Some false | _ => None end;
  is_object _ := true;
  event_from_value v := match v with EventReply e => Ok e | _ => Err "not an event" end;
  info_from_value v := match v with TerminalError i => Ok i | _ => Err "not an error" end;
  status_from_value _ := Err "not a status" |}.
(** Both ends cut and interrupt everything. *)
Definition demo_control_socket : VmmApi.Socket := {|
  unix_addr _ := Ok (); new_socket _ := Ok (); connect_ n := if (n <? 4)%nat then TryAgain else Connected;
  pending_error _ := Ok None;
  socket_stream := {|
    send n := if Nat.even n then Err {| io_kind := IoWouldBlock; io_text := "would block" |} else Ok 1%nat;
    recv n := match Nat.modulo n 5 with 0%nat => Err {| io_kind := IoInterrupted; io_text := "interrupted" |} | _ => Ok 30%nat end |};
  poll_ _ := PollReady |}.
Definition demo_peer (owner : Z) : Peer := {| set_nonblocking _ := Ok (); peer_credentials _ := Ok owner |}.
Definition demo_sink : Timed ProtocolSink := {|
  time := 0; tick := 0; sink := with_deadline {| sent := []; incoming := [] |} 10000000000 "dev" [] |}.
Definition demo_client_of (bytes : list Z) : Timed (Client (list (Event ()))) := {|
  time := 0; tick := 1; sink := {| connection := {| sent := []; incoming := bytes |}; events := [] |} |}.
Definition demo_client : ShimClient := {| socket := "/run/dev/shim.sock"; timeout := 2 * SECOND |}.
Lemma demo_reads_back r : r ∈ [EventReply demo_start; EventReply demo_done; TerminalOk; TerminalError demo_failure] →
  reads_back (Value := Reply ()) r.
Proof.
  rewrite !elem_of_cons, elem_of_nil. intros [->|[->|[->|[->|[]]]]] frame [= <-];
    (split_and!; [done|set_solver|eexists; split; [done|]]); by repeat eexists.
Qed.

Lemma response_stream_faithful_witness :
  ∃ ws' w',
    write_replies (H := demo_schedule) (H0 := demo_control_socket)
      [EventReply demo_start; EventReply demo_done; TerminalError demo_failure] demo_sink = (Ok (), ws') ∧
    wire ws' = [65; 10; 66; 10; 69; 69; 10] ∧
    request (H := demo_schedule) (H0 := demo_control_socket) (H1 := demo_peer 1000) 1000 demo_client [83; 83] true (5 * SECOND) None
      (demo_client_of (wire ws')) = (Ok (TerminalError demo_failure), w') ∧
    ∃ told, events (sink w') = told ∧ told = [demo_start; demo_done] ∧
      sent (connection (sink w')) = [83; 83; 10].
Proof.
  destruct (write_replies (H := demo_schedule) (H0 := demo_control_socket)
    [EventReply demo_start; EventReply demo_done; TerminalError demo_failure] demo_sink) as [rs ws'] eqn:Hws.
  assert (wire ws' = [65; 10; 66; 10; 69; 69; 10]) as Hwire by (apply (f_equal (wire ∘ snd)) in Hws; by vm_compute in Hws |- *).
  destruct (request (H := demo_schedule) (H0 := demo_control_socket) (H1 := demo_peer 1000) 1000 demo_client [83; 83] true (5 * SECOND) None
    (demo_client_of [65; 10; 66; 10; 69; 69; 10])) as [r w'] eqn:Hr.
  assert (r = Ok (TerminalError demo_failure)) as -> by (apply (f_equal fst) in Hr; vm_compute in Hr; by subst r).
  exists ws', w'.
  destruct (response_stream_faithful demo_schedule demo_control_socket demo_schedule demo_control_socket (demo_peer 1000)
    [demo_start; demo_done] (TerminalError demo_failure) demo_sink rs ws' 1000 demo_client [83; 83] (5 * SECOND)
    (demo_client_of [65; 10; 66; 10; 69; 69; 10]) (Ok (TerminalError demo_failure)) w')
    as (-> & told & Hev & _ & -> & _ & Hsent).
  - intros n. exact eq_refl.
  - intros n. exact eq_refl.
  - done.
  - repeat apply Forall_cons_2; [apply demo_reads_back; rewrite !elem_of_cons; tauto..|constructor].
  - done.
  - done.
  - done.
  - by rewrite Hwire.
  - done.
  - rewrite Hwire. split_and!; [done..|]. exists [demo_start; demo_done]. by split_and!.
Defined.

Lemma request_admitted_witness :
  ∃ w', control_connection (H := demo_schedule) (H0 := demo_control_socket) (H1 := demo_peer 1000) "dev" 1000 (2 * SECOND)
      demo_state 50 true {| time := 0; tick := 0; sink := {| accepted := {| sent := []; incoming := [83; 83; 10] |}; log := [] |} |}
    = (Ok (Some (Request.Stop 30 true)), w') ∧
  requested [83; 83; 10] (Request.Stop 30 true).
Proof.
  destruct (control_connection (H := demo_schedule) (H0 := demo_control_socket) (H1 := demo_peer 1000) "dev" 1000 (2 * SECOND)
    demo_state 50 true {| time := 0; tick := 0; sink := {| accepted := {| sent := []; incoming := [83; 83; 10] |}; log := [] |} |})
    as [r w'] eqn:Hr.
  destruct (request_admitted (H0 := demo_schedule) (H1 := demo_control_socket) (H2 := demo_peer 1000) "dev" 1000 (2 * SECOND)
    demo_state 50 true {| time := 0; tick := 0; sink := {| accepted := {| sent := []; incoming := [83; 83; 10] |}; log := [] |} |} r w'
    (λ _, eq_refl) Hr) as (o & Ho & _ & Hreq).
  assert (r = Ok (Some (Request.Stop 30 true))) as -> by (apply (f_equal fst) in Hr; vm_compute in Hr; by subst r).
  injection Ho as <-. exists w'. split; [done|]. apply Hreq.
Defined.
