(* ===== verification/StopSpec.v ===== *)
(** Stopping a machine from end to end ([firestone-core/src/shim.rs]): the client's [stop] over
    the control protocol, the shim's handling of the request, and the bytes between them. *)
From S2P Require Import Prelude RustStr Errors Atomic State Clock Stream VmmApi Process Owner Supervisor Control.
From S2P Require Import VmmApiSpec OwnerSpec SupervisorSpec ControlSpec.
Open Scope Z_scope.

(** ** What a client is told while an operation runs *)

Create HintDb talks.

Section talks.
Context `{Schedule} `{Kernel} `{VmmApi.Socket} `{Host} {Json : Type}.
Context (state_to_vec : MachineState → result string (list Z))
        (identity_to_vec : ProcessIdentity → result string (list Z))
        (info_from_slice : list Z → result string (VmInfo Json))
        (unicode_debug : string → string).
Local Abbreviation World := (Timed (Supervisor Json)).
Local Abbreviation Act := (M World (Clock.Stop FirestoneError)).

(** The replies from one state to another are events. *)
Definition only_events (s s' : Supervisor Json) : Prop := ∃ es, replies s' = replies s ++ (EventReply <$> es).
Lemma only_events_refl s s' : replies s' = replies s → only_events s s'.
Proof using Type. intros E. exists []. by rewrite E, app_nil_r. Qed.
Lemma only_events_trans s1 s2 s3 : only_events s1 s2 → only_events s2 s3 → only_events s1 s3.
Proof using Type. intros [es E] [fs F]. exists (es ++ fs). by rewrite F, E, fmap_app, app_assoc. Qed.
Definition talks {A} (m : Act A) : Prop := ∀ w, only_events (sink w) (sink (m w).2).

Lemma talks_bind {A B} (m : Act A) (k : A → Act B) : talks m → (∀ a, talks (k a)) → talks (m ≫= k).
Proof using Type.
  intros Hm Hk w. unfold mbind, M_bind. specialize (Hm w). destruct (m w) as [[a|e] w1]; [|done].
  eapply only_events_trans; [exact Hm|apply Hk].
Qed.
Lemma talks_same {A} (m : Act A) : (∀ w, replies (sink (m w).2) = replies (sink w)) → talks m.
Proof using Type. intros Hm w. by apply only_events_refl. Qed.
Lemma talks_modify f : (∀ s, replies (f s) = replies s) → talks (modify f).
Proof using Type. intros Hf. apply talks_same. intros w. apply Hf. Qed.
Lemma talks_emit e : talks (Supervisor.emit e).
Proof using Type. intros w. by exists [e]. Qed.
Lemma talks_api_call {A} (m : M (Timed Conn) (Clock.Stop FirestoneError) A) : talks (api_call m).
Proof using Type. apply talks_same. intros w. unfold api_call. by destruct (m _) as [[|[]] ?]. Qed.
Lemma talks_on_files {A} (m : Faults → option (nat * IoError) → M Atomic.World FirestoneError A) : talks (on_files m).
Proof using Type. apply talks_same. intros w. unfold on_files. by destruct (m _ _ _) as [? ?]. Qed.
Lemma talks_try {A} (m : Act A) : talks m → talks (try_ m).
Proof using Type. intros Hm w. specialize (Hm w). unfold try_. by destruct (m w) as [[|[]] ?]. Qed.
Lemma talks_fold {A St} (f : St → A → Act St) l st : (∀ st a, talks (f st a)) → talks (fold_act f st l).
Proof using Type.
  intros Hf. revert st. induction l as [|a l IH]; intros st; cbn [fold_act]; [by apply talks_same|]. by apply talks_bind.
Qed.
Lemma talks_turns {St A} (body : St → Act (St + A)) n st : (∀ st, talks (body st)) → talks (turns body n st).
Proof using Type.
  intros Hb. revert st. induction n as [|n IH]; intros st; cbn [turns]; [done|].
  apply talks_bind; [done|]. intros []; [done|by apply talks_same].
Qed.
Lemma talks_bounded {St A} bound (body : St → Act (St + A)) st : (∀ st, talks (body st)) → talks (bounded_loop bound body st).
Proof using Type.
  intros Hb. unfold bounded_loop. apply talks_bind; [by apply talks_turns|]. intros []; by apply talks_same.
Qed.
Lemma talks_until {St A} deadline (body : St → Act (St + A)) st : (∀ st, talks (body st)) → talks (until_deadline deadline body st).
Proof using Type. intros Hb w. by apply talks_bounded. Qed.

Local Ltac talks_step :=
  match goal with
  | |- ∀ _, _ => intros ?
  | |- talks (_ ≫= _) => apply talks_bind
  | |- talks (if ?b then _ else _) => destruct b
  | |- talks (match ?x with _ => _ end) => destruct x
  | |- talks (let '(_, _) := ?x in _) => destruct x
  | |- talks (modify _) => apply talks_modify; intros; by repeat split
  | |- talks (Supervisor.emit _) => apply talks_emit
  | |- talks (api_call _) => apply talks_api_call
  | |- talks (on_files _) => apply talks_on_files
  | |- talks (try_ _) => apply talks_try
  | |- talks (fold_act _ _ _) => apply talks_fold
  | |- talks (bounded_loop _ _ _) => apply talks_bounded
  | |- talks (until_deadline _ _ _) => apply talks_until
  | |- talks (mret _) => by apply talks_same
  | |- talks (fail _) => by apply talks_same
  | |- talks (lift _) => by apply talks_same
  | |- talks (ask _) => by apply talks_same
  | |- talks (note _) => by apply talks_same
  | |- talks (get _) => by apply talks_same
  | |- talks instant_now => by apply talks_same
  | |- talks (sleep _) => by apply talks_same
  | |- talks _ => solve [auto with talks nocore]
  end.
Local Ltac talks := repeat talks_step.

Lemma talks_log message : talks (write_shim_log message).
Proof using Type. unfold write_shim_log. talks. Qed.
#[local] Hint Resolve talks_log : talks.
Lemma talks_observe p : talks (observe_exit p).
Proof using Type. unfold observe_exit. talks. Qed.
#[local] Hint Resolve talks_observe : talks.
Lemma talks_signal_group p signal : talks (signal_group p signal).
Proof using Type. unfold signal_group. talks. Qed.
#[local] Hint Resolve talks_signal_group : talks.
Lemma talks_parent_and_start pid : talks (process_parent_and_start pid).
Proof using Type. unfold process_parent_and_start. talks. Qed.
#[local] Hint Resolve talks_parent_and_start : talks.
Lemma talks_start_time pid : talks (process_start_time pid).
Proof using Type. unfold process_start_time. talks. Qed.
#[local] Hint Resolve talks_start_time : talks.
Lemma talks_thread children thread : talks (thread_children children thread).
Proof using Type. unfold thread_children. talks. Qed.
#[local] Hint Resolve talks_thread : talks.
Lemma talks_child_pids parent : talks (linux_child_pids parent).
Proof using Type. unfold linux_child_pids. talks. Qed.
#[local] Hint Resolve talks_child_pids : talks.
Lemma talks_inspect roots parent pid fd walk : talks (inspect_child roots parent pid fd walk).
Proof using Type. unfold inspect_child. talks. Qed.
#[local] Hint Resolve talks_inspect : talks.
Lemma talks_visit root roots parent walk pid : talks (visit_child root roots parent walk pid).
Proof using Type. unfold visit_child. talks. Qed.
#[local] Hint Resolve talks_visit : talks.
Lemma talks_walk root roots walk : talks (walk_turn root roots walk).
Proof using Type. unfold walk_turn. talks. Qed.
#[local] Hint Resolve talks_walk : talks.
Lemma talks_snapshot root roots : talks (snapshot_owned_descendants_preserving root roots).
Proof using Type. unfold snapshot_owned_descendants_preserving. talks. Qed.
#[local] Hint Resolve talks_snapshot : talks.
Lemma talks_signal_descendant signal u identity : talks (signal_descendant signal u identity).
Proof using Type. unfold signal_descendant. talks. Qed.
#[local] Hint Resolve talks_signal_descendant : talks.
Lemma talks_signal_descendants m signal : talks (signal_descendants m signal).
Proof using Type. unfold signal_descendants. talks. Qed.
#[local] Hint Resolve talks_signal_descendants : talks.
Lemma talks_reap_descendant any d : talks (reap_descendant any d).
Proof using Type. unfold reap_descendant. talks. Qed.
#[local] Hint Resolve talks_reap_descendant : talks.
Lemma talks_drain_turn deadline roots u : talks (drain_turn deadline roots u).
Proof using Type. unfold drain_turn. talks. Qed.
#[local] Hint Resolve talks_drain_turn : talks.
Lemma talks_drain timeout roots : talks (drain_adopted_children_preserving timeout roots).
Proof using Type. unfold drain_adopted_children_preserving. talks. Qed.
#[local] Hint Resolve talks_drain : talks.
Lemma talks_phase_deadline grace overall : talks (phase_deadline grace overall).
Proof using Type. unfold phase_deadline. talks. Qed.
#[local] Hint Resolve talks_phase_deadline : talks.
Lemma talks_child_wait c : talks (child_wait c).
Proof using Type. unfold child_wait. talks. Qed.
#[local] Hint Resolve talks_child_wait : talks.
Lemma talks_wait p : talks (Process.wait p).
Proof using Type. unfold Process.wait. talks. Qed.
#[local] Hint Resolve talks_wait : talks.
Lemma talks_vmm_observe : talks (vmm_observe_exit).
Proof using Type. unfold vmm_observe_exit. talks. Qed.
#[local] Hint Resolve talks_vmm_observe : talks.
Lemma talks_snapshot_or_empty v : talks (snapshot_or_empty v).
Proof using Type. unfold snapshot_or_empty. talks. Qed.
#[local] Hint Resolve talks_snapshot_or_empty : talks.
Lemma talks_wait_exit (observe : Act bool) capped deadline : talks observe → talks (wait_exit observe capped deadline).
Proof using Type. intros Ho. unfold wait_exit, wait_turn. talks. Qed.
#[local] Hint Resolve talks_wait_exit : talks.
Lemma talks_log_failure before after m : talks m → talks (log_failure before after m).
Proof using Type. intros Hm. unfold log_failure. talks. Qed.
Local Ltac talks ::= repeat first [talks_step | apply talks_log_failure].
Lemma talks_term_phase p descendants send grace overall : talks (term_phase p descendants send grace overall).
Proof using Type. unfold term_phase. talks. Qed.
#[local] Hint Resolve talks_term_phase : talks.
Lemma talks_kill_phase v p descendants overall : talks (kill_phase v p descendants overall).
Proof using Type. unfold kill_phase, signal_cleanup_group. talks. Qed.
#[local] Hint Resolve talks_kill_phase : talks.
Lemma talks_reap_leader send grace overall v p : talks (reap_leader send grace overall v p).
Proof using Type. unfold reap_leader. talks. Qed.
#[local] Hint Resolve talks_reap_leader : talks.
Lemma talks_shutdown_console : talks (Owner.shutdown_console console_shutdown).
Proof using Type. unfold Owner.shutdown_console. talks. Qed.
#[local] Hint Resolve talks_shutdown_console : talks.
Lemma talks_terminate_before send grace overall : talks (terminate_and_reap_before console_shutdown send grace overall).
Proof using Type. unfold terminate_and_reap_before. talks. Qed.
#[local] Hint Resolve talks_terminate_before : talks.
Lemma talks_terminate send grace : talks (terminate_and_reap console_shutdown send grace).
Proof using Type. unfold terminate_and_reap. talks. Qed.
#[local] Hint Resolve talks_terminate : talks.
Lemma talks_reap_exited_group : talks (reap_exited_group console_shutdown).
Proof using Type. unfold reap_exited_group. talks. Qed.
#[local] Hint Resolve talks_reap_exited_group : talks.
Lemma talks_sidecar_observe x : talks (sidecar_observe_exit x).
Proof using Type. unfold sidecar_observe_exit. talks. Qed.
#[local] Hint Resolve talks_sidecar_observe : talks.
Lemma talks_sidecar_reap x : talks (sidecar_reap x).
Proof using Type. unfold sidecar_reap. talks. Qed.
#[local] Hint Resolve talks_sidecar_reap : talks.
Lemma talks_reap_exited x : talks (reap_exited x).
Proof using Type. unfold reap_exited. talks. Qed.
#[local] Hint Resolve talks_reap_exited : talks.
Lemma talks_sidecar_terminate x overall : talks (sidecar_terminate_and_reap x overall).
Proof using Type. unfold sidecar_terminate_and_reap. talks. Qed.
#[local] Hint Resolve talks_sidecar_terminate : talks.
Lemma talks_drop_sidecar x : talks (drop_sidecar x).
Proof using Type. unfold drop_sidecar. talks. Qed.
#[local] Hint Resolve talks_drop_sidecar : talks.
Lemma talks_publish : talks (publish_process_identity identity_to_vec).
Proof using Type. unfold publish_process_identity. talks. Qed.
#[local] Hint Resolve talks_publish : talks.
Lemma talks_write_state : talks (write_machine_state state_to_vec).
Proof using Type. unfold write_machine_state. talks. Qed.
#[local] Hint Resolve talks_write_state : talks.
Lemma talks_remove_artifact a : talks (remove_runtime_artifact a).
Proof using Type. unfold remove_runtime_artifact. talks. Qed.
#[local] Hint Resolve talks_remove_artifact : talks.
Lemma talks_cleanup x : talks (cleanup_sidecar_artifacts x).
Proof using Type. unfold cleanup_sidecar_artifacts. talks. Qed.
#[local] Hint Resolve talks_cleanup : talks.
Lemma talks_signal_running signal u x : talks (signal_running signal u x).
Proof using Type. unfold signal_running. talks. Qed.
#[local] Hint Resolve talks_signal_running : talks.
Lemma talks_any_alive l : talks (any_alive l).
Proof using Type. unfold any_alive. talks. Qed.
#[local] Hint Resolve talks_any_alive : talks.
Lemma talks_all_exited l : talks (all_exited l).
Proof using Type. unfold all_exited. talks. Qed.
#[local] Hint Resolve talks_all_exited : talks.
Lemma talks_find_running l : talks (find_running l).
Proof using Type. induction l as [|x l IH]; cbn [find_running]; talks. Qed.
#[local] Hint Resolve talks_find_running : talks.
Lemma talks_reap_popped l error : talks (reap_popped l error).
Proof using Type. revert error. induction l as [|x l IH]; intros error; cbn [reap_popped]; unfold forget_sidecar; talks. Qed.
#[local] Hint Resolve talks_reap_popped : talks.
Lemma talks_stop_phase signal deadline : talks (stop_phase signal deadline).
Proof using Type. unfold stop_phase. talks. Qed.
#[local] Hint Resolve talks_stop_phase : talks.
Lemma talks_stop_sidecars deadline : talks (stop_owned_sidecars state_to_vec identity_to_vec deadline).
Proof using Type. unfold stop_owned_sidecars. talks. Qed.
#[local] Hint Resolve talks_stop_sidecars : talks.
Lemma talks_final status process reason : talks (write_final_state state_to_vec status process reason).
Proof using Type. unfold write_final_state, make_last_exit. talks. Qed.
#[local] Hint Resolve talks_final : talks.
Lemma talks_phase_timeout deadline cap : talks (stop_phase_timeout deadline cap).
Proof using Type. unfold stop_phase_timeout. talks. Qed.
#[local] Hint Resolve talks_phase_timeout : talks.
Lemma talks_guest_turn socket cap overall guest observed : talks (guest_turn info_from_slice unicode_debug socket cap overall guest observed).
Proof using Type. unfold guest_turn. talks. Qed.
#[local] Hint Resolve talks_guest_turn : talks.
Lemma talks_graceful socket cap overall timeout : talks (graceful_stop info_from_slice unicode_debug socket cap overall timeout).
Proof using Type. unfold graceful_stop. talks. Qed.
#[local] Hint Resolve talks_graceful : talks.
Lemma talks_stop_process plan timeout force deadline : talks (stop_vmm_process info_from_slice unicode_debug plan timeout force deadline).
Proof using Type. unfold stop_vmm_process. talks. Qed.
#[local] Hint Resolve talks_stop_process : talks.
Lemma talks_stop_vmm plan timeout force deadline : talks (stop_owned_vmm state_to_vec identity_to_vec info_from_slice unicode_debug plan timeout force deadline).
Proof using Type. unfold stop_owned_vmm, forget_vmm. talks. Qed.
#[local] Hint Resolve talks_stop_vmm : talks.
Lemma talks_recovered deadline : talks (stop_recovered_none state_to_vec identity_to_vec deadline).
Proof using Type. unfold stop_recovered_none. talks. Qed.
#[local] Hint Resolve talks_recovered : talks.

(** ** The end of a stop request's answer *)

(** How a request is answered: the operation that carries it out ends the supervisor, leaves it
    running, or fails. *)
Definition outcome (r : result (Clock.Stop FirestoneError) (() + ())) (ts : list (Reply Json)) : Prop :=
  match r with Ok (inr _) => ts = [TerminalOk] | Ok (inl _) => ∃ i, ts = [TerminalError i] | Err _ => ts = [] end.
Definition answers (m : Act (() + ())) : Prop := ∀ w, ∃ es ts,
  replies (sink (m w).2) = replies (sink w) ++ (EventReply <$> es) ++ ts ∧ outcome (m w).1 ts.
Lemma answers_bind {A} (m : Act A) (k : A → Act (() + ())) : talks m → (∀ a, answers (k a)) → answers (m ≫= k).
Proof using Type.
  intros Hm Hk w. unfold mbind, M_bind. specialize (Hm w). destruct (m w) as [[a|e] w1]; destruct Hm as [es E].
  - destruct (Hk a w1) as (fs & ts & F & Hts). exists (es ++ fs), ts. cbn in E. by rewrite F, E, fmap_app, <- !app_assoc.
  - exists es, []. by rewrite app_nil_r.
Qed.
Lemma answers_ok : answers (reply TerminalOk;; mret (inr ())).
Proof using Type. intros w. by exists [], [TerminalOk]. Qed.
Lemma answers_error i : answers (reply (TerminalError i);; mret (inl ())).
Proof using Type. intros w. exists [], [TerminalError i]. split; [done|]. by exists i. Qed.

Lemma answers_finish u : answers (finish_stop u).
Proof using Type.
  unfold finish_stop. do 2 (apply answers_bind; [talks|intros _]). apply answers_ok.
Qed.
Lemma answers_failed before deadline error : answers (stop_failed state_to_vec identity_to_vec before deadline error).
Proof using Type.
  unfold stop_failed. apply answers_bind; [talks|intros v]. apply answers_bind; [talks|intros completed].
  destruct (negb _ && _).
  - apply answers_bind; [talks|intros _]. apply answers_bind; [talks|intros _]. apply answers_error.
  - destruct (bool_decide _); [|apply answers_error]. do 5 (apply answers_bind; [unfold forget_vmm, clear_vmm_pid; talks|intros _]).
    apply answers_finish.
Qed.
Lemma answers_handle_stop plan control_io timeout_s force :
  answers (handle_stop state_to_vec identity_to_vec info_from_slice unicode_debug plan control_io timeout_s force).
Proof using Type.
  unfold handle_stop. destruct (_ <? _); [apply answers_error|]. do 4 (apply answers_bind; [talks|intros ?]).
  apply answers_bind; [talks|intros [[]|error]]; [apply answers_finish|apply answers_failed].
Qed.
End talks.

(** ** The client's stop *)

Section client.
Context `{Schedule} `{VmmApi.Socket} `{Peer} {Json Value : Type} `{ControlJson Json Value}.
Local Abbreviation ClientWorld := (Timed (Client (list (Event Json)))).

Lemma stop_runs uid c guest_timeout force (w : ClientWorld) rc w' :
  stop uid c guest_timeout force w = (rc, w') →
  (w' = w ∧ ∃ error, rc = Err (Failed error)) ∨
  ∃ encoded total r, stop_to_vec (guest_timeout / SECOND) force = Ok encoded ∧
    request uid c encoded true total None w = (r, w') ∧
    rc = match r with Ok v => map_err Failed (require_ok_terminal v) | Err e => Err e end.
Proof.
  unfold stop. destruct (_ <? _); [intros [= <- <-]; left; split; [done|by eexists]|].
  destruct (stop_to_vec _ _) as [encoded|text]; [|intros [= <- <-]; left; split; [done|by eexists]].
  rewrite (bind_run (lift _) _ w encoded w) by done.
  destruct (stop_overall_timeout _ _) as [total|e]; [|intros [= <- <-]; left; split; [done|by eexists]].
  rewrite (bind_run (lift _) _ w total w) by done. intros Hrun. right. exists encoded, total.
  unfold mbind, M_bind in Hrun. destruct (request _ _ _ _ _ _ w) as [[v|e] w1] eqn:Hr; injection Hrun as <- <-.
  - by exists (Ok v).
  - by exists (Err e).
Qed.
(** What the client makes of an answer. *)
Lemma stop_received uid c guest_timeout force es ts p whole (w : ClientWorld) rc w' :
  (∀ n, 0 < lag n) → Forall terminal ts → Forall reads_back ((EventReply <$> es) ++ ts) →
  answered ((EventReply <$> es) ++ ts) p whole → incoming (connection (sink w)) = p →
  stop uid c guest_timeout force w = (rc, w') →
  ∃ told, events (sink w') = events (sink w) ++ told ∧ told `prefix_of` es ∧ rc ≠ Err OutOfFuel ∧
    (rc = Ok () → ∃ t, head ts = Some t ∧ terminal_result t = Ok ()).
Proof.
  intros Hlag Hts Hback Hans Hi Hstop.
  destruct (stop_runs _ _ _ _ _ _ _ Hstop) as [[-> [error ->]]|(encoded & total & r & _ & Hr & ->)].
  { exists []. rewrite app_nil_r. by split_and!; [|apply prefix_nil|..]. }
  pose proof (wp_shim_request Hlag uid c encoded true total None w) as Hc. unfold wp in Hc. rewrite Hr in Hc. cbn [fst snd] in Hc.
  destruct Hc as (q & q' & _ & _ & _ & [((error & -> & _) & _ & Hev)|(_ & w1 & Hi1 & Hev1 & Hresp)]).
  { exists []. rewrite app_nil_r. by split_and!; [exact Hev|apply prefix_nil|..]. }
  rewrite <- Hi1 in Hi.
  destruct (answer_received uid es ts p whole w1 r w' Hts Hback Hans Hi Hresp) as (told & Hev & Hpre & Hend).
  rewrite Hev1 in Hev. exists told. split; [exact Hev|]. split; [done|]. destruct r as [v|e].
  - destruct Hend as (_ & t & Ht & ->). split; [by destruct (terminal_result t)|]. intros Hok. exists t. split; [done|].
    by destruct (terminal_result t) as [[]|].
  - destruct Hend as (error & -> & _). done.
Qed.
End client.

(** ** Properties *)

Section properties.
Context `{Kernel} `{Host} {Json Value : Type} `{ControlJson Json Value}.
Context (state_to_vec : MachineState → result string (list Z))
        (identity_to_vec : ProcessIdentity → result string (list Z))
        (info_from_slice : list Z → result string (VmInfo Json))
        (unicode_debug : string → string).

(** C8: shim.rs, a stop of a VMM the shim itself launched, from end to end: over any two clocks and sockets, with every write and
    read cut and delayed at will, the client's stop ends, and its events are the first ones the
    shim emitted; if it succeeds, the shim carried the request out to its end: the VMM's process
    was reaped, no sidecar is owned, and the state file last written says that the machine is
    stopped, names no process and tells how the VMM ended; a shim that goes on supervising is
    never reported as stopped. *)
Theorem stop_end_to_end (shim_clock : Schedule) (api_socket shim_socket : VmmApi.Socket)
    (clock : Schedule) (socket_ : VmmApi.Socket) (peer_ : Peer)
    leader plan control_io guest_timeout force (w : Timed (Supervisor Json)) r w'
    (ws : Timed ProtocolSink) rs ws' uid c (wc : Timed (Client (list (Event Json)))) rc wc' :
  (∀ n, 0 < lag (Schedule := shim_clock) n) → (∀ n, 0 < lag (Schedule := clock) n) →
  Launched leader (sink w) → replies (sink w) = [] →
  handle_stop (H := shim_clock) (H1 := api_socket) state_to_vec identity_to_vec info_from_slice unicode_debug
    plan control_io (guest_timeout / SECOND) force w = (r, w') →
  Forall reads_back (replies (sink w')) → attached (sink ws) = true → wire ws = [] →
  write_replies (H := shim_clock) (H0 := shim_socket) (replies (sink w')) ws = (rs, ws') →
  incoming (connection (sink wc)) = wire ws' →
  stop (H := clock) (H0 := socket_) uid c guest_timeout force wc = (rc, wc') →
  rc ≠ Err OutOfFuel ∧
  (∃ told es ts, events (sink wc') = events (sink wc) ++ told ∧ told `prefix_of` es ∧
    replies (sink w') = (EventReply <$> es) ++ ts ∧ outcome r ts) ∧
  (rc = Ok () → r = Ok (inr ()) ∧
    ∃ status why at_ m, LeaderReaped leader status ∈ effects (sink w') ∧ is_fully_reaped (owned (sink w')) = true ∧
      owned_sidecars (sink w') = [] ∧
      machine (sink w') = final_machine m Stopped
        {| at_ := at_; code := exit_code status; signal := exit_signal status; reason := why |} ∧
      written state_to_vec (sink w')).
Proof.
  intros Hlag Hlag' HL%launched_inv Hempty Hrun Hback Ha Hwire Hws Hi Hstop.
  destruct (answers_handle_stop (H := shim_clock) (H1 := api_socket) state_to_vec identity_to_vec info_from_slice unicode_debug
    plan control_io (guest_timeout / SECOND) force w) as (es & ts & Hreplies & Hout).
  rewrite Hrun in Hreplies, Hout. cbn [fst snd] in Hreplies, Hout. rewrite Hempty in Hreplies. cbn [app] in Hreplies.
  rewrite Hreplies in Hback, Hws.
  assert (Forall terminal ts) as Hts.
  { destruct r as [[|]|]; cbn in Hout; [destruct Hout as [i ->]|subst ts..]; by repeat constructor. }
  pose proof (wp_write_replies (H := shim_clock) (H0 := shim_socket) Hlag ((EventReply <$> es) ++ ts) ws Ha) as Hs.
  unfold wp in Hs. rewrite Hws in Hs. destruct Hs as (_ & p & Hp & Hans). cbn [fst snd] in *. rewrite Hwire in Hp. cbn in Hp. subst p.
  destruct (stop_received (H := clock) (H0 := socket_) uid c guest_timeout force es ts _ _ wc rc wc' Hlag' Hts Hback Hans Hi Hstop)
    as (told & Hev & Hpre & Hfuel & Hok).
  split_and!; [done|by exists told, es, ts|]. intros (t & Ht & Hres)%Hok.
  pose proof (runs_handle_stop (H := shim_clock) (H1 := api_socket) state_to_vec identity_to_vec info_from_slice unicode_debug
    Hlag _ _ [] plan control_io (guest_timeout / SECOND) force w HL) as (_ & lost & HI & Hr).
  rewrite Hrun in HI, Hr. cbn [fst snd] in HI, Hr. destruct r as [[[]|[]]|e]; cbn in Hout.
  - destruct Hout as [i ->]. cbn in Ht. by simplify_eq.
  - split; [done|]. destruct Hr as [_ (status & why & [Hp Hst] & Hnil & [(at_ & m & Hm) Hw] & _)].
    exists status, why, at_, m. split_and!; try done.
    + destruct (inv_vmm _ _ _ _ HI) as [Hreaped _]. by apply Hreaped.
    + unfold is_fully_reaped. by rewrite Hp, Hst.
  - by subst ts.
Qed.
End properties.

(** The forced stop of [SupervisorSpec]'s shim, asked for by a client over a socket that cuts and
    interrupts everything. *)
Lemma stop_end_to_end_witness :
  ∃ w' ws' wc',
    handle_stop (H := demo_schedule) (H0 := demo_kernel 9) (H1 := demo_socket) (H2 := demo_host 384)
      demo_vec demo_vec demo_info keep demo_plan (2 * SECOND) (30 * SECOND / SECOND) true demo_shim = (Ok (inr ()), w') ∧
    stop (H := demo_schedule) (H0 := demo_control_socket) (H1 := demo_peer 1000) 1000 demo_client (30 * SECOND) true
      (demo_client_of (wire ws')) = (Ok (), wc') ∧
    is_fully_reaped (owned (sink w')) = true ∧ owned_sidecars (sink w') = [] ∧ State.status (machine (sink w')) = Stopped.
Proof.
  destruct (handle_stop (H := demo_schedule) (H0 := demo_kernel 9) (H1 := demo_socket) (H2 := demo_host 384)
    demo_vec demo_vec demo_info keep demo_plan (2 * SECOND) (30 * SECOND / SECOND) true demo_shim) as [r w'] eqn:Hrun.
  assert (replies (sink w') = [EventReply demo_start; EventReply demo_done; TerminalOk]) as Hreplies
    by (apply (f_equal (replies ∘ sink ∘ snd)) in Hrun; vm_compute in Hrun; exact (eq_sym Hrun)).
  destruct (write_replies (H := demo_schedule) (H0 := demo_control_socket)
    [EventReply demo_start; EventReply demo_done; TerminalOk] demo_sink) as [rs ws'] eqn:Hws.
  assert (wire ws' = [65; 10; 66; 10; 75; 10]) as Hwire by (apply (f_equal (wire ∘ snd)) in Hws; by vm_compute in Hws |- *).
  destruct (stop (H := demo_schedule) (H0 := demo_control_socket) (H1 := demo_peer 1000) 1000 demo_client (30 * SECOND) true
    (demo_client_of [65; 10; 66; 10; 75; 10])) as [rc wc'] eqn:Hstop.
  assert (rc = Ok ()) as -> by (apply (f_equal fst) in Hstop; vm_compute in Hstop; exact (eq_sym Hstop)).
  destruct (stop_end_to_end (H := demo_kernel 9) (H0 := demo_host 384) demo_vec demo_vec demo_info keep
    demo_schedule demo_socket demo_control_socket demo_schedule demo_control_socket (demo_peer 1000)
    100 demo_plan (2 * SECOND) (30 * SECOND) true demo_shim r w' demo_sink rs ws' 1000 demo_client
    (demo_client_of [65; 10; 66; 10; 75; 10]) (Ok ()) wc') as (_ & _ & Hok).
  - intros n. exact eq_refl.
  - intros n. exact eq_refl.
  - apply demo_launched.
  - done.
  - exact Hrun.
  - rewrite Hreplies. repeat apply Forall_cons_2; [apply demo_reads_back; rewrite !elem_of_cons; tauto..|constructor].
  - done.
  - done.
  - rewrite Hreplies. exact Hws.
  - by rewrite Hwire.
  - exact Hstop.
  - destruct (Hok eq_refl) as (-> & status & why & at_ & m & _ & Hreaped & Hnil & Hm & _).
    exists w', ws', wc'. rewrite Hwire. split_and!; [done..|]. by rewrite Hm.
Defined.
