(* ===== verification/Sanitizer.v ===== *)
(** What may reach a terminal ([firestone/src/render.rs]): the writers that replace every control
    character, and the log sanitiser that lets colour through and destroys every other escape
    sequence.  The sanitiser is the code's state machine over characters; the second half gives
    the grammar of what it lets through and proves the machine equal to it. *)
From S2P Require Import Prelude RustStr Utf8 Chars.
Open Scope Z_scope.

(** ** Tables and one-line values *)

Definition REPLACEMENT : Z := 65533.
Definition ESCAPE : Z := 27.
Definition NEWLINE : Z := 10.

(** [write_safe_text] and [write_safe_output], as the bytes they write. *)
Definition safe_char (c : Z) : Z := if is_control c then REPLACEMENT else c.
Definition write_safe_text (value : string) : string := of_chars (safe_char <$> chars value).
Definition write_safe_output (value : string) : string :=
  of_chars ((λ c, if c =? NEWLINE then NEWLINE else safe_char c) <$> chars value).
(** [write_safe_cell]: [display_width] is a crate's. *)
Definition write_safe_cell (display_width : string → Z) (value : string) (width : Z) : string :=
  write_safe_text value +:+ utf8 (replicate (Z.to_nat (width - display_width value)) 32).

(** ** The log sanitiser *)

Definition MAX_CSI_PARAMETER_BYTES : Z := 16.

Inductive SanitizerState : Set := Text | Esc | Csi | CsiDiscard | EscIntermediate | StringBody | StringEsc.
#[export] Instance SanitizerState_eq_dec : EqDecision SanitizerState.
Proof. solve_decision. Defined.

Record TerminalSanitizer : Set := { state : SanitizerState; parameters : list Z }.
Definition new : TerminalSanitizer := {| state := Text; parameters := [] |}.

(** A step consumes a character and pushes some onto the output. *)
Definition Step : Set := TerminalSanitizer * list Z.
Definition set_state (s : SanitizerState) (t : TerminalSanitizer) : TerminalSanitizer :=
  {| state := s; parameters := parameters t |}.
Definition clear_parameters (t : TerminalSanitizer) : TerminalSanitizer :=
  {| state := state t; parameters := [] |}.
Definition emitting (out : list Z) (s : Step) : Step := (s.1, out ++ s.2).

Definition step_text (t : TerminalSanitizer) (c : Z) : Step :=
  if c =? ESCAPE then (set_state Esc t, [])
  else if (c =? 10) || (c =? 13) || (c =? 9) then (t, [c])
  else if is_control c then (t, [REPLACEMENT])
  else (t, [c]).

(** The sequence is aborted by a character that is not part of it. *)
Definition abort (t : TerminalSanitizer) (c : Z) : Step :=
  emitting [REPLACEMENT] (step_text (set_state Text t) c).

Definition step_escape (t : TerminalSanitizer) (c : Z) : Step :=
  let t := clear_parameters t in
  if c =? ESCAPE then (t, [REPLACEMENT])
  else if c =? 91 then (set_state Csi t, [])
  else if (c =? 93) || (c =? 80) || (c =? 95) || (c =? 94) || (c =? 88) then (set_state StringBody t, [])
  else if char_in 32 47 c then (set_state EscIntermediate t, [])
  else if is_control c then abort t c
  else (set_state Text t, [REPLACEMENT]).

Definition is_parameter (c : Z) : bool := char_in 48 57 c || (c =? 59).
Definition discard_csi (t : TerminalSanitizer) : TerminalSanitizer :=
  set_state CsiDiscard (clear_parameters t).
Definition step_csi (t : TerminalSanitizer) (c : Z) : Step :=
  if is_parameter c && (chars_len (parameters t) <? MAX_CSI_PARAMETER_BYTES)
  then ({| state := state t; parameters := parameters t ++ [c] |}, [])
  else if is_parameter c then (discard_csi t, [])
  else if c =? 109 then (set_state Text (clear_parameters t), [ESCAPE; 91] ++ parameters t ++ [109])
  else if char_in 64 126 c then (set_state Text (clear_parameters t), [REPLACEMENT])
  else if char_in 32 63 c then (discard_csi t, [])
  else if c =? ESCAPE then (set_state Esc (clear_parameters t), [REPLACEMENT])
  else if is_control c then abort (clear_parameters t) c
  else (discard_csi t, []).

Definition step_csi_discard (t : TerminalSanitizer) (c : Z) : Step :=
  if char_in 64 126 c then (set_state Text t, [REPLACEMENT])
  else if c =? ESCAPE then (set_state Esc t, [REPLACEMENT])
  else if is_control c then abort t c
  else (t, []).

Definition step_escape_intermediate (t : TerminalSanitizer) (c : Z) : Step :=
  if char_in 32 47 c then (t, [])
  else if c =? ESCAPE then (set_state Esc t, [REPLACEMENT])
  else if is_control c then abort t c
  else (set_state Text t, [REPLACEMENT]).

Definition step_string_body (t : TerminalSanitizer) (c : Z) : Step :=
  if c =? 7 then (set_state Text t, [REPLACEMENT])
  else if c =? ESCAPE then (set_state StringEsc t, [])
  else if is_control c then abort t c
  else (t, []).

Definition step_string_escape (t : TerminalSanitizer) (c : Z) : Step :=
  if c =? 92 then (set_state Text t, [REPLACEMENT])
  else if c =? ESCAPE then (t, [])
  else if is_control c then abort t c
  else (set_state StringBody t, []).

Definition step (t : TerminalSanitizer) (c : Z) : Step :=
  match state t with
  | Text => step_text t c
  | Esc => step_escape t c
  | Csi => step_csi t c
  | CsiDiscard => step_csi_discard t c
  | EscIntermediate => step_escape_intermediate t c
  | StringBody => step_string_body t c
  | StringEsc => step_string_escape t c
  end.

(** The loop of [push], on the characters of the chunk. *)
Fixpoint push_chars (t : TerminalSanitizer) (l : list Z) : Step :=
  match l with
  | [] => (t, [])
  | c :: l => let '(t, out) := step t c in emitting out (push_chars t l)
  end.
Definition push (t : TerminalSanitizer) (chunk : string) : TerminalSanitizer * string :=
  let '(t, out) := push_chars t (chars chunk) in (t, of_chars out).
Definition finish_chars (t : TerminalSanitizer) : Step :=
  (new, if decide (state t = Text) then [] else [REPLACEMENT]).
Definition finish (t : TerminalSanitizer) : TerminalSanitizer * string :=
  let '(t, out) := finish_chars t in (t, of_chars out).
Definition sanitize_terminal_output (value : string) : string :=
  let '(t, out) := push new value in out +:+ (finish t).2.

(** ** The grammar *)

(** What stays as it is: line structure, layout and everything that is not a control. *)
Definition is_layout (c : Z) : bool := (c =? 10) || (c =? 13) || (c =? 9).
Definition is_plain (c : Z) : bool := is_layout c || negb (is_control c).
(** [ESC [ 1 ; 3 1 m]: the sequence that only paints. *)
Definition is_colour (params : list Z) : bool :=
  forallb is_parameter params && (Z.of_nat (length params) <=? MAX_CSI_PARAMETER_BYTES).
Definition colour (params : list Z) : list Z := [ESCAPE; 91] ++ params ++ [109].
Definition introduces_string (c : Z) : bool :=
  (c =? 93) || (c =? 80) || (c =? 95) || (c =? 94) || (c =? 88).
(** A character that neither ends a control sequence nor breaks it off. *)
Definition csi_body (c : Z) : bool := negb (is_control c) && negb (char_in 64 126 c).

(** The text between the introducer and the terminator of a string; [escaped] says whether an
    escape character is waiting for the terminator's second half. *)
Inductive StringText : bool → list Z → Prop :=
  | string_nil : StringText false []
  | string_char body c : StringText false body → is_control c = false → StringText false (body ++ [c])
  | string_esc b body : StringText b body → StringText true (body ++ [ESCAPE])
  | string_back body c : StringText true body → is_control c = false → c ≠ 92 → StringText false (body ++ [c]).

(** A sequence that has begun and waits for more, by the state it is recognised in. *)
Inductive Begun : SanitizerState → list Z → Prop :=
  | begun_esc : Begun Esc [ESCAPE]
  | begun_csi params : is_colour params = true → Begun Csi ([ESCAPE; 91] ++ params)
  | begun_discard body :
      forallb csi_body body = true → is_colour body = false → Begun CsiDiscard ([ESCAPE; 91] ++ body)
  | begun_intermediate body :
      forallb (char_in 32 47) body = true → body ≠ [] → Begun EscIntermediate (ESCAPE :: body)
  | begun_string i body :
      introduces_string i = true → StringText false body → Begun StringBody (ESCAPE :: i :: body)
  | begun_string_esc i body :
      introduces_string i = true → StringText true body → Begun StringEsc (ESCAPE :: i :: body).

(** Sequences that are recognised and destroyed. *)
Inductive Foreign : list Z → Prop :=
  | foreign_pair c :
      is_control c = false → c ≠ 91 → introduces_string c = false → char_in 32 47 c = false →
      Foreign [ESCAPE; c]
  | foreign_csi params c :
      is_colour params = true → char_in 64 126 c = true → c ≠ 109 → Foreign ([ESCAPE; 91] ++ params ++ [c])
  | foreign_discard body c :
      forallb csi_body body = true → is_colour body = false → char_in 64 126 c = true →
      Foreign ([ESCAPE; 91] ++ body ++ [c])
  | foreign_intermediate body c :
      forallb (char_in 32 47) body = true → body ≠ [] → is_control c = false → char_in 32 47 c = false →
      Foreign (ESCAPE :: body ++ [c])
  | foreign_string i body t :
      introduces_string i = true → StringText false body → t = 7 → Foreign (ESCAPE :: i :: body ++ [t])
  | foreign_string_esc i body t :
      introduces_string i = true → StringText true body → t = 92 → Foreign (ESCAPE :: i :: body ++ [t]).

(** What breaks a sequence off: the end of the input, or a control that is not part of it. *)
Definition breaks_off (s : SanitizerState) (c : Z) : bool :=
  is_control c
  && match s with
     | Text => false
     | StringBody => negb (c =? 7) && negb (c =? ESCAPE)
     | StringEsc => negb (c =? ESCAPE)
     | _ => true
     end.
Definition broken (s : SanitizerState) (rest : list Z) : Prop :=
  match rest with [] => True | c :: _ => breaks_off s c = true end.

(** Reading a whole input, and what is shown for it. *)
Inductive Reads : list Z → list Z → Prop :=
  | reads_end : Reads [] []
  | reads_plain c rest out : is_plain c = true → Reads rest out → Reads (c :: rest) (c :: out)
  | reads_stray c rest out :
      is_plain c = false → c ≠ ESCAPE → Reads rest out → Reads (c :: rest) (REPLACEMENT :: out)
  | reads_colour params rest out :
      is_colour params = true → Reads rest out → Reads (colour params ++ rest) (colour params ++ out)
  | reads_foreign seq rest out :
      Foreign seq → Reads rest out → Reads (seq ++ rest) (REPLACEMENT :: out)
  | reads_broken s seq rest out :
      Begun s seq → broken s rest → Reads rest out → Reads (seq ++ rest) (REPLACEMENT :: out).

(** What is left on the screen: characters that are not controls, line structure, and colour. *)
Inductive Shown : list Z → Prop :=
  | shown_end : Shown []
  | shown_plain c out : is_plain c = true → Shown out → Shown (c :: out)
  | shown_colour params out : is_colour params = true → Shown out → Shown (colour params ++ out).

(** ** Steps and runs *)

(** Everything shown for [l] from [t] on. *)
Definition shown_from (t : TerminalSanitizer) (l : list Z) : list Z :=
  let '(t, out) := push_chars t l in out ++ (finish_chars t).2.
Definition at_state (s : SanitizerState) : TerminalSanitizer := {| state := s; parameters := [] |}.
Definition in_csi (params : list Z) : TerminalSanitizer := {| state := Csi; parameters := params |}.

Lemma push_chars_app t l l' :
  push_chars t (l ++ l') = emitting (push_chars t l).2 (push_chars (push_chars t l).1 l').
Proof.
  revert t. induction l as [|c l IH]; intros t; cbn [app push_chars fst snd].
  - by destruct (push_chars t l') as [? ?].
  - destruct (step t c) as [t1 out]. rewrite IH. unfold emitting. cbn [fst snd]. by rewrite app_assoc.
Qed.
Lemma shown_app t l l' :
  shown_from t (l ++ l') = (push_chars t l).2 ++ shown_from (push_chars t l).1 l'.
Proof.
  unfold shown_from. rewrite push_chars_app. destruct (push_chars t l) as [t1 out]. unfold emitting. cbn [fst snd].
  destruct (push_chars t1 l') as [t2 out']. cbn [fst snd]. by rewrite app_assoc.
Qed.
Lemma shown_cons t c l : shown_from t (c :: l) = (step t c).2 ++ shown_from (step t c).1 l.
Proof.
  change (c :: l) with ([c] ++ l). rewrite shown_app. cbn [push_chars]. destruct (step t c) as [t1 out]. cbn. by rewrite app_nil_r.
Qed.
Lemma sanitize_chars value : sanitize_terminal_output value = of_chars (shown_from new (chars value)).
Proof.
  unfold sanitize_terminal_output, push, finish, shown_from. destruct (push_chars new (chars value)) as [t out].
  cbn [finish_chars fst snd]. by rewrite of_chars_app.
Qed.

(** Consuming without output. *)
Definition silent (t : TerminalSanitizer) (l : list Z) (t' : TerminalSanitizer) : Prop :=
  push_chars t l = (t', []).
Lemma silent_app t l t1 l' t2 : silent t l t1 → silent t1 l' t2 → silent t (l ++ l') t2.
Proof. unfold silent. intros E1 E2. rewrite push_chars_app, E1. cbn [fst snd]. by rewrite E2. Qed.
Lemma silent_step t c t' : step t c = (t', []) → silent t [c] t'.
Proof. unfold silent. cbn. by intros ->. Qed.
Lemma silent_shown t l t' r : silent t l t' → shown_from t (l ++ r) = shown_from t' r.
Proof. intros E. by rewrite shown_app, E. Qed.
Lemma step_shown t l t1 c t2 out r :
  silent t l t1 → step t1 c = (t2, out) → shown_from t (l ++ c :: r) = out ++ shown_from t2 r.
Proof. intros E F. rewrite (silent_shown _ _ _ _ E), shown_cons, F. done. Qed.

(** ** Classes of characters *)

Ltac classes :=
  unfold csi_body, is_plain, is_layout, introduces_string, is_parameter, char_in, is_control, ESCAPE in *;
  rewrite ?orb_true_iff, ?orb_false_iff, ?andb_true_iff, ?andb_false_iff, ?negb_true_iff, ?negb_false_iff,
          ?orb_true_iff, ?orb_false_iff, ?andb_true_iff, ?andb_false_iff, ?Z.leb_le, ?Z.leb_gt, ?Z.eqb_eq, ?Z.eqb_neq in *;
  lia.
(** Decides the tests of a step from what is known of the character. *)
Ltac decide_test b v := let E := fresh in assert (b = v) as E by classes; rewrite E; clear E; cbv iota.
Ltac decide_tests :=
  cbn [step at_state in_csi new state parameters clear_parameters set_state];
  repeat match goal with |- context [if ?b then _ else _] => first [decide_test b true | decide_test b false] end.

Lemma colour_length params : is_colour params = true → chars_len params = Z.of_nat (length params).
Proof.
  unfold is_colour. intros [Hp _]%andb_true_iff. apply chars_len_ascii.
  rewrite forallb_forall in Hp. apply Forall_forall. intros c Hc. apply list_elem_of_In, Hp in Hc. classes.
Qed.
Lemma colour_nil : is_colour [] = true.
Proof. done. Qed.
Lemma colour_snoc params c :
  is_colour (params ++ [c]) = true ↔
  is_colour params = true ∧ is_parameter c = true ∧ Z.of_nat (length params) < MAX_CSI_PARAMETER_BYTES.
Proof.
  unfold is_colour. rewrite forallb_app, length_app, !andb_true_iff, !Z.leb_le. cbn [forallb length].
  rewrite andb_true_r, Nat2Z.inj_add. unfold MAX_CSI_PARAMETER_BYTES. intuition lia.
Qed.
Lemma colour_snoc_false params c :
  is_colour params = true → is_colour (params ++ [c]) = false →
  is_parameter c = false ∨ MAX_CSI_PARAMETER_BYTES ≤ Z.of_nat (length params).
Proof.
  intros Hp Hn. destruct (is_parameter c) eqn:Hc; [|by left]. right.
  destruct (decide (MAX_CSI_PARAMETER_BYTES ≤ Z.of_nat (length params))); [done|].
  rewrite (proj2 (colour_snoc params c)) in Hn; [done|]. auto with lia.
Qed.

Lemma colour_body params : is_colour params = true → forallb csi_body params = true.
Proof.
  unfold is_colour. intros [Hp _]%andb_true_iff. rewrite forallb_forall in *. intros c Hc. specialize (Hp c Hc). classes.
Qed.

(** ** Every sequence that has begun is held back *)

Definition held (s : SanitizerState) (seq : list Z) : TerminalSanitizer :=
  match s with Csi => in_csi (drop 2 seq) | _ => at_state s end.

Lemma step_esc : step new ESCAPE = (at_state Esc, []).
Proof. done. Qed.
Lemma step_csi_param params c :
  is_colour (params ++ [c]) = true → step (in_csi params) c = (in_csi (params ++ [c]), []).
Proof.
  intros (Hp & Hc & Hl)%colour_snoc. cbn [step in_csi state]. unfold step_csi. cbn [parameters state in_csi].
  rewrite Hc, colour_length by done. by_ltb (Z.of_nat (length params) <? MAX_CSI_PARAMETER_BYTES). reflexivity.
Qed.
Lemma step_csi_body params c :
  is_colour params = true → is_colour (params ++ [c]) = false → csi_body c = true →
  step (in_csi params) c = (at_state CsiDiscard, []).
Proof.
  intros Hp Hn Hc. pose proof (colour_snoc_false params c Hp Hn) as Hor.
  cbn [step in_csi state]. unfold step_csi. cbn [parameters state in_csi]. rewrite colour_length by done.
  destruct (is_parameter c) eqn:Hpar; cbn [andb].
  - destruct Hor as [|Hl]; [done|]. not_ltb (Z.of_nat (length params) <? MAX_CSI_PARAMETER_BYTES). done.
  - clear Hor Hn Hp. repeat (case_match; [first [done | exfalso; classes]|]). done.
Qed.
Lemma step_discard_body c : csi_body c = true → step (at_state CsiDiscard) c = (at_state CsiDiscard, []).
Proof. intros Hc. cbn [step at_state state]. unfold step_csi_discard. decide_tests. done. Qed.

Lemma silent_csi params : is_colour params = true → silent new ([ESCAPE; 91] ++ params) (in_csi params).
Proof.
  induction params as [|c params IH] using rev_ind; intros Hp; [done|].
  rewrite app_assoc. eapply silent_app; [apply IH; by apply colour_snoc in Hp as (? & _)|].
  by apply silent_step, step_csi_param.
Qed.
Lemma silent_discard body :
  forallb csi_body body = true → is_colour body = false →
  silent new ([ESCAPE; 91] ++ body) (at_state CsiDiscard).
Proof.
  induction body as [|c body IH] using rev_ind; intros Hb Hn; [done|].
  rewrite forallb_app, andb_true_iff in Hb. cbn [forallb] in Hb. rewrite andb_true_r in Hb. destruct Hb as [Hb Hc].
  rewrite app_assoc. destruct (is_colour body) eqn:Hcol.
  - eapply silent_app; [by apply silent_csi|]. by apply silent_step, step_csi_body.
  - eapply silent_app; [by apply IH|]. by apply silent_step, step_discard_body.
Qed.
Lemma silent_intermediate body :
  forallb (char_in 32 47) body = true → body ≠ [] → silent new (ESCAPE :: body) (at_state EscIntermediate).
Proof.
  induction body as [|c body IH] using rev_ind; intros Hb Hne; [done|]. clear Hne.
  rewrite forallb_app, andb_true_iff in Hb. cbn [forallb] in Hb. rewrite andb_true_r in Hb. destruct Hb as [Hb Hc].
  rewrite app_comm_cons. destruct (decide (body = [])) as [->|Hn].
  - apply (silent_app _ _ (at_state Esc)); [done|]. apply silent_step. cbn [step at_state state]. unfold step_escape. decide_tests. done.
  - eapply silent_app; [by apply IH|]. apply silent_step. cbn [step at_state state].
    unfold step_escape_intermediate. by rewrite Hc.
Qed.
Lemma silent_string i b body :
  introduces_string i = true → StringText b body →
  silent new (ESCAPE :: i :: body) (at_state (if b then StringEsc else StringBody)).
Proof.
  intros Hi Hs. induction Hs as [|body c Hs IH Hc|b body Hs IH|body c Hs IH Hc Hn]; rewrite ?app_comm_cons in *.
  - change (silent new ([ESCAPE] ++ [i]) (at_state StringBody)). apply (silent_app _ _ (at_state Esc)); [done|].
    apply silent_step. cbn [step at_state state]. unfold step_escape.
    decide_tests. done.
  - eapply silent_app; [exact IH|]. apply silent_step. cbn [step at_state state].
    unfold step_string_body. decide_tests. done.
  - eapply silent_app; [exact IH|]. by destruct b.
  - eapply silent_app; [exact IH|]. apply silent_step. cbn [step at_state state].
    unfold step_string_escape. decide_tests. done.
Qed.

Lemma begun_held s seq : Begun s seq → silent new seq (held s seq).
Proof.
  destruct 1; cbn [held]; [done|by apply silent_csi|by apply silent_discard|by apply silent_intermediate|..].
  - by apply (silent_string i false).
  - by apply (silent_string i true).
Qed.

(** ** How a sequence ends *)

(** A control that is not part of the sequence breaks it off. *)
Lemma step_breaks s seq c :
  Begun s seq → breaks_off s c = true → step (held s seq) c = emitting [REPLACEMENT] (step new c).
Proof.
  unfold breaks_off. intros Hb [Hc Hs]%andb_true_iff. destruct (decide (c = ESCAPE)) as [->|Hn].
  { by destruct Hb. }
  destruct Hb; cbn [held step at_state in_csi state new];
    unfold step_escape, step_csi, step_csi_discard, step_escape_intermediate, step_string_body, step_string_escape.
  - decide_tests. done.
  - cbn [app drop]. assert (Hp : is_parameter c = false) by (clear - Hc; classes). rewrite Hp. cbn [andb]. decide_tests. done.
  - decide_tests. done.
  - decide_tests. done.
  - decide_tests. done.
  - decide_tests. done.
Qed.
(** The last character of a sequence that is destroyed. *)
Lemma foreign_held seq :
  Foreign seq → ∃ s pre c, seq = pre ++ [c] ∧ Begun s pre ∧ step (held s pre) c = (new, [REPLACEMENT]).
Proof.
  destruct 1 as [c Hc Hn Hi Hr|params c Hp Hc Hn|body c Hb Hp Hc|body c Hb Hne Hc Hr|i body t Hi Hs ->|i body t Hi Hs ->].
  - exists Esc, [ESCAPE], c. split; [done|]. split; [constructor|]. cbn [held step at_state state].
    unfold step_escape. decide_tests. done.
  - exists Csi, ([ESCAPE; 91] ++ params), c. split; [by rewrite app_assoc|]. split; [by constructor|].
    cbn [held app drop step in_csi state]. unfold step_csi.
    destruct (is_parameter c) eqn:Hpar; [exfalso; clear Hp; classes|]. cbn [andb]. decide_tests. done.
  - exists CsiDiscard, ([ESCAPE; 91] ++ body), c. split; [by rewrite app_assoc|]. split; [by constructor|].
    cbn [held step at_state state]. unfold step_csi_discard. by rewrite Hc.
  - exists EscIntermediate, (ESCAPE :: body), c. split; [done|]. split; [by constructor|].
    cbn [held step at_state state]. unfold step_escape_intermediate. clear Hb. decide_tests. done.
  - exists StringBody, (ESCAPE :: i :: body), 7. split; [done|]. split; [by constructor|done].
  - exists StringEsc, (ESCAPE :: i :: body), 92. split; [done|]. split; [by constructor|done].
Qed.
Lemma step_plain c : is_plain c = true → step new c = (new, [c]).
Proof.
  intros Hc. cbn [step new state]. unfold step_text. destruct (is_layout c) eqn:Hl.
  - unfold is_layout in Hl. rewrite Hl. decide_tests. done.
  - decide_tests. done.
Qed.
Lemma step_stray c : is_plain c = false → c ≠ ESCAPE → step new c = (new, [REPLACEMENT]).
Proof. intros Hc Hn. cbn [step new state]. unfold step_text. decide_tests. done. Qed.
Lemma step_colour params : is_colour params = true → step (in_csi params) 109 = (new, colour params).
Proof. done. Qed.
Lemma begun_not_text s seq : Begun s seq → state (held s seq) ≠ Text.
Proof. by destruct 1. Qed.

(** The machine shows what the grammar reads ... *)
Lemma reads_shown l out : Reads l out → shown_from new l = out.
Proof.
  induction 1 as [|c l out Hc Hr IH|c l out Hc Hn Hr IH|params l out Hp Hr IH|seq l out Hf Hr IH|s seq l out Hb Hk Hr IH].
  - done.
  - by rewrite shown_cons, step_plain, <- IH.
  - by rewrite shown_cons, step_stray, <- IH.
  - replace (colour params ++ l) with (([ESCAPE; 91] ++ params) ++ 109 :: l) by (unfold colour; by rewrite <- !app_assoc).
    rewrite (step_shown _ _ (in_csi params) 109 new (colour params)); [by rewrite IH|by apply silent_csi|done].
  - apply foreign_held in Hf as (s & pre & c & -> & Hb & Hs). rewrite <- app_assoc. cbn [app].
    rewrite (step_shown _ _ (held s pre) c new [REPLACEMENT]); [by rewrite IH|by apply begun_held|done].
  - rewrite (silent_shown _ _ (held s seq)) by by apply begun_held. rewrite <- IH.
    destruct l as [|c l]; cbn [broken] in Hk.
    + unfold shown_from. cbn [push_chars finish_chars snd app]. rewrite decide_False by by apply begun_not_text. done.
    + rewrite !shown_cons, (step_breaks s seq c) by done. unfold emitting. cbn [fst snd]. done.
Qed.

(** ... and the grammar reads every input: from the start, and after a sequence has begun. *)
Definition reads_from (l : list Z) : Prop :=
  Reads l (shown_from new l) ∧ ∀ s seq, Begun s seq → Reads (seq ++ l) (shown_from (held s seq) l).

Lemma reads_extend s seq c l s' seq' :
  reads_from l → Begun s' seq' → seq' = seq ++ [c] → step (held s seq) c = (held s' seq', []) →
  Reads (seq ++ c :: l) (shown_from (held s seq) (c :: l)).
Proof.
  intros [_ Hl] Hb -> Hs. rewrite shown_cons, Hs. cbn [fst snd app]. specialize (Hl s' _ Hb).
  by rewrite <- app_assoc in Hl.
Qed.
Lemma reads_destroy s seq c l :
  reads_from l → Foreign (seq ++ [c]) → step (held s seq) c = (new, [REPLACEMENT]) →
  Reads (seq ++ c :: l) (shown_from (held s seq) (c :: l)).
Proof.
  intros [Hl _] Hf Hs. rewrite shown_cons, Hs. cbn [fst snd app].
  change (c :: l) with ([c] ++ l). rewrite app_assoc. by apply reads_foreign.
Qed.
Lemma reads_break s seq c l :
  Reads (c :: l) (shown_from new (c :: l)) → Begun s seq → breaks_off s c = true →
  Reads (seq ++ c :: l) (shown_from (held s seq) (c :: l)).
Proof.
  intros Hl Hb Hc. rewrite shown_cons, (step_breaks s seq c) by done.
  change (Reads (seq ++ c :: l) (REPLACEMENT :: (step new c).2 ++ shown_from (step new c).1 l)).
  rewrite <- shown_cons. by eapply reads_broken.
Qed.

Lemma reads_from_cons_text c l : reads_from l → Reads (c :: l) (shown_from new (c :: l)).
Proof.
  intros [Hl Hb]. destruct (decide (c = ESCAPE)) as [->|Hn].
  { rewrite shown_cons. exact (Hb Esc [ESCAPE] begun_esc). }
  destruct (is_plain c) eqn:Hc; rewrite shown_cons.
  - rewrite step_plain by done. by apply reads_plain.
  - rewrite step_stray by done. by apply reads_stray.
Qed.

Section cons.
Context (c : Z) (l : list Z) (Hl : reads_from l).
Local Notation goal s seq := (Reads (seq ++ c :: l) (shown_from (held s seq) (c :: l))) (only parsing).

Local Lemma breaks s seq : Begun s seq → breaks_off s c = true → goal s seq.
Proof. intros Hb Hc. by apply reads_break; [apply reads_from_cons_text|..]. Qed.
Lemma reads_cons_esc : goal Esc [ESCAPE].
Proof.
  destruct (is_control c) eqn:Hc; [apply breaks; [constructor|by unfold breaks_off; rewrite Hc]|].
  destruct (decide (c = 91)) as [->|H91].
  { apply (reads_extend _ _ _ _ Csi [ESCAPE; 91]); [done|exact (begun_csi [] colour_nil)|done..]. }
  destruct (introduces_string c) eqn:Hi.
  { apply (reads_extend _ _ _ _ StringBody [ESCAPE; c]); [done|by constructor; [|constructor]|done|].
    cbn [held step at_state state]. unfold step_escape. decide_tests. done. }
  destruct (char_in 32 47 c) eqn:Hr.
  { apply (reads_extend _ _ _ _ EscIntermediate [ESCAPE; c]); [done| |done|].
    - constructor; [cbn; by rewrite Hr|done].
    - cbn [held step at_state state]. unfold step_escape. decide_tests. done. }
  apply reads_destroy; [done|by constructor|]. cbn [held step at_state state]. unfold step_escape. decide_tests. done.
Qed.
Lemma reads_cons_csi params : is_colour params = true → goal Csi ([ESCAPE; 91] ++ params).
Proof.
  intros Hp. assert (Hb : Begun Csi ([ESCAPE; 91] ++ params)) by by constructor.
  destruct (is_control c) eqn:Hc; [apply breaks; [done|by unfold breaks_off; rewrite Hc]|].
  destruct (is_colour (params ++ [c])) eqn:Hpc.
  { eapply (reads_extend _ _ _ _ Csi ([ESCAPE; 91] ++ params ++ [c])); [done|by constructor|by rewrite app_assoc|].
    cbn [held app drop]. by apply step_csi_param. }
  destruct (char_in 64 126 c) eqn:Hr.
  - destruct (decide (c = 109)) as [->|H109].
    + rewrite shown_cons. cbn [held app drop]. rewrite step_colour by done. cbn [fst snd].
      replace (ESCAPE :: 91 :: params ++ 109 :: l) with (colour params ++ l).
      * apply reads_colour; [done|apply Hl].
      * unfold colour. by rewrite <- !app_assoc.
    + apply reads_destroy; [done|rewrite <- app_assoc; by constructor|]. cbn [held app drop step in_csi state].
      unfold step_csi. destruct (is_parameter c) eqn:Hpar; [exfalso; clear Hp Hpc; classes|]. cbn [andb]. decide_tests. done.
  - assert (Hbody : csi_body c = true) by (unfold csi_body; by rewrite Hc, Hr).
    eapply (reads_extend _ _ _ _ CsiDiscard ([ESCAPE; 91] ++ params ++ [c])); [done| |by rewrite app_assoc|].
    + constructor; [|done]. rewrite forallb_app. cbn. rewrite Hbody, !andb_true_r. by apply colour_body.
    + cbn [held app drop]. by apply step_csi_body.
Qed.
Lemma reads_cons_discard body :
  forallb csi_body body = true → is_colour body = false → goal CsiDiscard ([ESCAPE; 91] ++ body).
Proof.
  intros Hbd Hp. assert (Hb : Begun CsiDiscard ([ESCAPE; 91] ++ body)) by by constructor.
  destruct (is_control c) eqn:Hc; [apply breaks; [done|by unfold breaks_off; rewrite Hc]|].
  destruct (char_in 64 126 c) eqn:Hr.
  - apply reads_destroy; [done|rewrite <- app_assoc; by constructor|].
    cbn [held step at_state state]. unfold step_csi_discard. by rewrite Hr.
  - assert (Hbody : csi_body c = true) by (unfold csi_body; by rewrite Hc, Hr).
    eapply (reads_extend _ _ _ _ CsiDiscard ([ESCAPE; 91] ++ body ++ [c])); [done| |by rewrite app_assoc|].
    + constructor; [by rewrite forallb_app, Hbd; cbn; rewrite Hbody|].
      apply not_true_iff_false. intros (? & _)%colour_snoc. congruence.
    + by apply step_discard_body.
Qed.
Lemma reads_cons_intermediate body :
  forallb (char_in 32 47) body = true → body ≠ [] → goal EscIntermediate (ESCAPE :: body).
Proof.
  intros Hbd Hne. assert (Hb : Begun EscIntermediate (ESCAPE :: body)) by by constructor.
  destruct (is_control c) eqn:Hc; [apply breaks; [done|by unfold breaks_off; rewrite Hc]|].
  destruct (char_in 32 47 c) eqn:Hr.
  - eapply (reads_extend _ _ _ _ EscIntermediate (ESCAPE :: body ++ [c])); [done| |done|].
    + constructor; [by rewrite forallb_app, Hbd; cbn; rewrite Hr|by destruct body].
    + cbn [held step at_state state]. unfold step_escape_intermediate. by rewrite Hr.
  - apply reads_destroy; [done|by constructor|].
    cbn [held step at_state state]. unfold step_escape_intermediate. clear Hbd. decide_tests. done.
Qed.
Lemma reads_cons_string i body :
  introduces_string i = true → StringText false body → goal StringBody (ESCAPE :: i :: body).
Proof.
  intros Hi Hs. assert (Hb : Begun StringBody (ESCAPE :: i :: body)) by by constructor.
  destruct (decide (c = 7)) as [->|H7]; [apply reads_destroy; [done|by apply (foreign_string i body)|done]|].
  destruct (decide (c = ESCAPE)) as [->|He].
  { eapply (reads_extend _ _ _ _ StringEsc (ESCAPE :: i :: body ++ [ESCAPE])); [done| |done..].
    constructor; [done|by econstructor]. }
  destruct (is_control c) eqn:Hc.
  { apply breaks; [done|]. unfold breaks_off. rewrite Hc. classes. }
  eapply (reads_extend _ _ _ _ StringBody (ESCAPE :: i :: body ++ [c])); [done| |done|].
  - constructor; [done|by constructor].
  - cbn [held step at_state state]. unfold step_string_body. clear Hi. decide_tests. done.
Qed.
Lemma reads_cons_string_esc i body :
  introduces_string i = true → StringText true body → goal StringEsc (ESCAPE :: i :: body).
Proof.
  intros Hi Hs. assert (Hb : Begun StringEsc (ESCAPE :: i :: body)) by by constructor.
  destruct (decide (c = 92)) as [->|H92]; [apply reads_destroy; [done|by apply (foreign_string_esc i body)|done]|].
  destruct (decide (c = ESCAPE)) as [->|He].
  { eapply (reads_extend _ _ _ _ StringEsc (ESCAPE :: i :: body ++ [ESCAPE])); [done| |done..].
    constructor; [done|by econstructor]. }
  destruct (is_control c) eqn:Hc.
  { apply breaks; [done|]. unfold breaks_off. rewrite Hc. classes. }
  eapply (reads_extend _ _ _ _ StringBody (ESCAPE :: i :: body ++ [c])); [done| |done|].
  - constructor; [done|by apply string_back].
  - cbn [held step at_state state]. unfold step_string_escape. clear Hi. decide_tests. done.
Qed.
Lemma reads_from_cons : reads_from (c :: l).
Proof.
  split; [by apply reads_from_cons_text|]. intros s seq [].
  - apply reads_cons_esc.
  - by apply reads_cons_csi.
  - by apply reads_cons_discard.
  - by apply reads_cons_intermediate.
  - by apply reads_cons_string.
  - by apply reads_cons_string_esc.
Qed.
End cons.

Lemma reads_from_nil : reads_from [].
Proof.
  split; [constructor|]. intros s seq Hb. unfold shown_from. cbn [push_chars finish_chars snd app].
  rewrite decide_False by by apply begun_not_text. eapply reads_broken; [done|done|constructor].
Qed.
Lemma reads_all l : reads_from l.
Proof. induction l as [|c l IH]; [apply reads_from_nil|by apply reads_from_cons]. Qed.
Lemma shown_reads l : Reads l (shown_from new l).
Proof. apply reads_all. Qed.

(** ** The properties *)

Lemma reads_scalar l out :
  Reads l out → Forall (λ c, is_scalar c = true) l → Forall (λ c, is_scalar c = true) out.
Proof.
  induction 1; rewrite ?Forall_cons, ?Forall_app; naive_solver.
Qed.
Lemma reads_Shown l out : Reads l out → Shown out.
Proof. induction 1; try (constructor; done). Qed.
Lemma shown_Reads out : Shown out → Reads out out.
Proof. induction 1; by constructor. Qed.
Lemma shown_fixed out : Shown out → shown_from new out = out.
Proof. intros Hs. apply reads_shown. by apply shown_Reads. Qed.
(** A log that arrives in pieces. *)
Fixpoint push_all (t : TerminalSanitizer) (chunks : list string) : TerminalSanitizer * string :=
  match chunks with
  | [] => (t, "")
  | chunk :: chunks =>
      let '(t, out) := push t chunk in
      let '(t, rest) := push_all t chunks in (t, out +:+ rest)
  end.
Definition sanitize_chunks (chunks : list string) : string :=
  let '(t, out) := push_all new chunks in out +:+ (finish t).2.
Definition joined (chunks : list string) : string := foldr (λ c s, c +:+ s) "" chunks.
Lemma joined_valid chunks : Forall valid_str chunks → valid_str (joined chunks).
Proof. induction 1; [by exists []|]. by apply valid_str_app. Qed.
Lemma push_all_chars t chunks :
  Forall valid_str chunks →
  push_all t chunks = let '(t', out) := push_chars t (chars (joined chunks)) in (t', of_chars out).
Proof.
  intros Hc. revert t. induction Hc as [|chunk chunks Hv Hc IH]; intros t; [done|]. cbn [push_all joined foldr].
  change (foldr (λ c s, c +:+ s) "" chunks) with (joined chunks).
  rewrite chars_app by (done || by apply joined_valid). rewrite push_chars_app. unfold push.
  destruct (push_chars t (chars chunk)) as [t1 out1]. rewrite IH. cbn [fst snd].
  destruct (push_chars t1 (chars (joined chunks))) as [t2 out2]. unfold emitting. cbn [fst snd]. by rewrite of_chars_app.
Qed.
Lemma sanitize_chunks_joined chunks :
  Forall valid_str chunks → sanitize_chunks chunks = sanitize_terminal_output (joined chunks).
Proof.
  intros Hc. unfold sanitize_chunks, sanitize_terminal_output, push. rewrite push_all_chars by done.
  by destruct (push_chars new (chars (joined chunks))) as [t out].
Qed.
Lemma sanitized_chars value : valid_str value → chars (sanitize_terminal_output value) = shown_from new (chars value).
Proof.
  intros Hv. rewrite sanitize_chars. apply chars_of_chars. eapply reads_scalar; [apply shown_reads|by apply chars_scalar].
Qed.

(** C21: the log sanitiser is the grammar of what may reach a terminal: what it shows for a text is
    the one reading of that text in which characters and line structure stay, a sequence that only
    paints stays, and every other control, complete sequence or broken-off sequence becomes one
    replacement character.  Nothing else is ever shown, showing the result again changes nothing,
    and how the text was cut into chunks makes no difference. *)
Theorem sanitizer_grammar chunks value :
  Forall valid_str chunks → value = joined chunks →
  (∀ out, Reads (chars value) out ↔ chars (sanitize_chunks chunks) = out)
  ∧ Shown (chars (sanitize_chunks chunks))
  ∧ sanitize_terminal_output (sanitize_chunks chunks) = sanitize_chunks chunks.
Proof.
  intros Hc ->. pose proof (joined_valid _ Hc) as Hv. rewrite sanitize_chunks_joined by done. split_and!.
  - intros out. rewrite sanitized_chars by done. split; [by intros ?%reads_shown|]. intros <-. apply shown_reads.
  - rewrite sanitized_chars by done. eapply reads_Shown, shown_reads.
  - rewrite (sanitize_chars (sanitize_terminal_output _)), sanitized_chars by done.
    rewrite shown_fixed by (eapply reads_Shown, shown_reads). by rewrite <- sanitize_chars.
Qed.
(** A green word, a title sequence cut in two by the chunk boundary, and a bell. *)
Definition demo_log : list string :=
  [of_chars ([27; 91; 51; 50; 109; 111; 107] ++ [27; 93; 48; 59]); of_chars ([116; 27; 92; 10] ++ [7])].
Lemma sanitizer_grammar_witness :
  chars (sanitize_chunks demo_log) = [27; 91; 51; 50; 109; 111; 107; REPLACEMENT; 10; REPLACEMENT]
  ∧ Reads (chars (joined demo_log)) (chars (sanitize_chunks demo_log)).
Proof.
  split; [vm_compute; reflexivity|].
  apply (sanitizer_grammar demo_log (joined demo_log)); [|reflexivity..].
  repeat constructor; apply valid_of_chars; repeat constructor.
Defined.
