(* ===== verification/Dispatch.v ===== *)
(** How an action's events reach an HTTP response ([firestone/src/api.rs]): the sink the
    dispatcher writes to, the channel behind it, and the collectors that read the channel.  The
    dispatcher itself is any program that emits events and ends; the channel's receiver may be
    dropped at any moment and may keep the buffer full for a while. *)
From S2P Require Import Prelude RustStr Errors Clock.
Open Scope Z_scope.

Inductive DispatchMessage (Json : Type) : Type :=
  | DispatchEvent (event : Event Json)
  | DispatchError (error : FirestoneError).
Arguments DispatchEvent {Json}. Arguments DispatchError {Json}.

(** What the sending half of the channel sees, by the step it looks in: when the receiver is
    gone, and whether the buffer is full. *)
Class Receiver := {
  closed_from : option nat;
  full : nat → bool }.
Definition closed_at `{Receiver} (t : nat) : bool :=
  match closed_from with Some n => (n <=? t)%nat | None => false end.

Definition dispatch_contract_error (message : string) : FirestoneError :=
  with_hint (error_new Generic message) "retry the request; if it fails again, report a Firestone bug".

Section channel.
Context {Json : Type} `{Receiver}.

(** The sink, with the channel: what was delivered and the next step. *)
Record ChannelEventSink : Type := {
  delivered : list (DispatchMessage Json);
  step : nat;
  expected_result : string;
  result_event : option (Event Json);
  contract_violation : bool;
  disconnected : bool }.

Definition sink_new (expected : string) : ChannelEventSink :=
  {| delivered := []; step := 0; expected_result := expected; result_event := None;
     contract_violation := false; disconnected := false |}.

Definition set_disconnected (s : ChannelEventSink) : ChannelEventSink :=
  {| delivered := delivered s; step := step s; expected_result := expected_result s;
     result_event := result_event s; contract_violation := contract_violation s; disconnected := true |}.
Definition set_violation (s : ChannelEventSink) : ChannelEventSink :=
  {| delivered := delivered s; step := step s; expected_result := expected_result s;
     result_event := result_event s; contract_violation := true; disconnected := disconnected s |}.
Definition set_result (e : option (Event Json)) (s : ChannelEventSink) : ChannelEventSink :=
  {| delivered := delivered s; step := step s; expected_result := expected_result s;
     result_event := e; contract_violation := contract_violation s; disconnected := disconnected s |}.
Definition deliver (ms : list (DispatchMessage Json)) (s : ChannelEventSink) : ChannelEventSink :=
  {| delivered := delivered s ++ ms; step := S (step s); expected_result := expected_result s;
     result_event := result_event s; contract_violation := contract_violation s; disconnected := disconnected s |}.

Local Abbreviation Act := (M ChannelEventSink FirestoneError).
Definition update (f : ChannelEventSink → ChannelEventSink) : Act () := λ s, (Ok (), f s).

(** [self.disconnected || self.sender.is_closed()]: a look at the channel is a step. *)
Definition gone : Act bool := λ s,
  if disconnected s then (Ok true, s) else (Ok (closed_at (step s)), deliver [] s).
(** [self.sender.try_send(message)]. *)
Inductive TrySend : Set := Sent | Closed | Full.
Definition try_send (m : DispatchMessage Json) : Act TrySend := λ s,
  if closed_at (step s) then (Ok Closed, deliver [] s)
  else if full (step s) then (Ok Full, deliver [] s)
  else (Ok Sent, deliver [m] s).

(** One turn of the loop of [send]; between turns the thread sleeps. *)
Definition send_turn (m : DispatchMessage Json) (_ : ()) : Act (() + ()) :=
  is_gone ← gone;
  if is_gone : bool then _ ← update set_disconnected; mret (inr ())
  else
    sent ← try_send m;
    match sent with
    | Sent => mret (inr ())
    | Closed => _ ← update set_disconnected; mret (inr ())
    | Full => mret (inl ())
    end.
(** [send]: [fuel] turns; [None] when the buffer stayed full throughout. *)
Definition send (fuel : nat) (m : DispatchMessage Json) : Act (option ()) :=
  loop (send_turn m) fuel ().

(** [impl EventSink for ChannelEventSink]. *)
Definition emit (fuel : nat) (event : Event Json) : Act (option ()) :=
  is_gone ← gone;
  if is_gone : bool then _ ← update set_disconnected; mret (Some ())
  else match event with
  | Result action _ =>
      s ← M_get;
      if bool_decide (is_Some (result_event s)) || negb (String.eqb action (expected_result s))
      then _ ← update set_violation; mret (Some ())
      else _ ← update (set_result (Some event)); mret (Some ())
  | _ =>
      s ← M_get;
      _ ← (if bool_decide (is_Some (result_event s)) then update set_violation else mret ());
      send fuel (DispatchEvent event)
  end.
Definition is_cancelled : Act bool := gone.

(** [ChannelEventSink::finish]. *)
Definition finish (fuel : nat) (r : result FirestoneError ()) : Act (option ()) :=
  is_gone ← gone;
  if is_gone : bool then mret (Some ())
  else match r with
  | Err error => send fuel (DispatchError error)
  | Ok _ =>
      s ← M_get;
      if contract_violation s
      then send fuel (DispatchError (dispatch_contract_error
             "the dispatcher emitted an invalid terminal event sequence"))
      else
        _ ← update (set_result None);
        match result_event s with
        | Some event => send fuel (DispatchEvent event)
        | None => send fuel (DispatchError (dispatch_contract_error
                   "the dispatcher completed without a Result event"))
        end
  end.

(** ** A dispatcher

    [Dispatcher::run] seen from the sink: it emits, asks whether it is cancelled, and returns
    or panics; what it does next may depend on the answers. *)
Inductive Run : Type :=
  | Return (r : result FirestoneError ())
  | Panic
  | Emit (event : Event Json) (k : result FirestoneError () → Run)
  | AskCancelled (k : bool → Run).

Fixpoint run_events (fuel : nat) (d : Run) : Act (option (result FirestoneError () + ())) :=
  match d with
  | Return r => mret (Some (inl r))
  | Panic => mret (Some (inr ()))
  | Emit event k =>
      sent ← emit fuel event;
      match sent with Some _ => run_events fuel (k (Ok ())) | None => mret None end
  | AskCancelled k => cancelled ← is_cancelled; run_events fuel (k cancelled)
  end.
(** [spawn_dispatch]: what ends up in the channel.  [None] when the fuel was not enough. *)
Definition dispatched (fuel : nat) (d : Run) : Act (option ()) :=
  outcome ← run_events fuel d;
  match outcome with
  | None => mret None
  | Some (inl r) => finish fuel r
  | Some (inr _) =>
      finish fuel (Err (dispatch_contract_error "the dispatcher panicked while handling the request"))
  end.
Definition spawn_dispatch (fuel : nat) (d : Run) (expected : string) : option (list (DispatchMessage Json)) :=
  match dispatched fuel d (sink_new expected) with
  | (Ok (Some _), s) => Some (delivered s)
  | _ => None
  end.
End channel.
Arguments ChannelEventSink : clear implicits. Arguments Run : clear implicits.

(** ** The collectors

    [receiver.recv()] yields the messages in the order they were sent, then [None]. *)
Section collect.
Context {Json : Type}.

Record DispatchOutput : Type := { events : list (Event Json); result_of : Event Json }.
Definition ended_without_terminal : FirestoneError :=
  dispatch_contract_error "the dispatcher ended without a terminal event".

Fixpoint collect_from (events : list (Event Json)) (ms : list (DispatchMessage Json))
    : result FirestoneError DispatchOutput :=
  match ms with
  | DispatchEvent (Result a p) :: _ => Ok {| events := events; result_of := Result a p |}
  | DispatchEvent event :: ms => collect_from (events ++ [event]) ms
  | DispatchError error :: _ => Err error
  | [] => Err ended_without_terminal
  end.
Definition collect_action : list (DispatchMessage Json) → result FirestoneError DispatchOutput := collect_from [].

Fixpoint dispatch_payload (ms : list (DispatchMessage Json)) : result FirestoneError Json :=
  match ms with
  | DispatchEvent (Result _ payload) :: _ => Ok payload
  | DispatchEvent _ :: ms => dispatch_payload ms
  | DispatchError error :: _ => Err error
  | [] => Err ended_without_terminal
  end.

Fixpoint output_from (output : string) (ms : list (DispatchMessage Json)) : result FirestoneError string :=
  match ms with
  | DispatchEvent (Output data) :: ms => output_from (output +:+ data) ms
  | DispatchEvent (Result _ _) :: _ => Ok output
  | DispatchEvent _ :: ms => output_from output ms
  | DispatchError error :: _ => Err error
  | [] => if is_empty output then Err ended_without_terminal else Ok output
  end.
Definition dispatch_output : list (DispatchMessage Json) → result FirestoneError string := output_from "".
End collect.
Arguments DispatchOutput : clear implicits.

(** ** What the contract promises

    The events of a run that is never cancelled, and how it ends. *)
Section contract.
Context {Json : Type}.

Fixpoint trace (d : Run Json) : list (Event Json) * (result FirestoneError () + ()) :=
  match d with
  | Return r => ([], inl r)
  | Panic => ([], inr ())
  | Emit event k => let '(es, r) := trace (k (Ok ())) in (event :: es, r)
  | AskCancelled k => trace (k false)
  end.
Definition is_result (e : Event Json) : bool := match e with Result _ _ => true | _ => false end.
Definition progress (es : list (Event Json)) : list (Event Json) := filter (λ e, is_result e = false) es.

Definition results (es : list (Event Json)) : list (Event Json) := filter (λ e, is_result e = true) es.

(** The one message that ends a stream, from the whole run: the result only when it is the one
    result emitted, the last event, and of the action that was asked for. *)
Definition invalid_sequence : DispatchMessage Json :=
  DispatchError (dispatch_contract_error "the dispatcher emitted an invalid terminal event sequence").
Definition verdict (expected : string) (es : list (Event Json)) (r : result FirestoneError () + ())
    : DispatchMessage Json :=
  match r with
  | inr _ => DispatchError (dispatch_contract_error "the dispatcher panicked while handling the request")
  | inl (Err error) => DispatchError error
  | inl (Ok _) =>
      match results es, last es with
      | [], _ => DispatchError (dispatch_contract_error "the dispatcher completed without a Result event")
      | [_], Some (Result action payload) =>
          if String.eqb action expected then DispatchEvent (Result action payload) else invalid_sequence
      | _, _ => invalid_sequence
      end
  end.
End contract.

(** ** The contract holds *)

(** The receiver keeps reading until it is dropped: from any step on, the buffer has room or
    the receiver is gone within [patience] tries. *)
Class Drains `{Receiver} := {
  patience : nat;
  drains : ∀ t, ∃ k, (k < patience)%nat ∧ (full (t + 2 * k) = false ∨ closed_at (t + 2 * k) = true) }.

Lemma closed_mono `{Receiver} t t' : closed_at t = true → (t ≤ t')%nat → closed_at t' = true.
Proof. unfold closed_at. destruct closed_from; [|done]. rewrite !Nat.leb_le. lia. Qed.

Section sink.
Context {Json : Type} `{Receiver}.
Local Abbreviation Sink := (ChannelEventSink Json).

(** Nothing is delivered any more. *)
Definition dead (s : Sink) : Prop := closed_at (step s) = true.
Definition stays (s s' : Sink) : Prop := dead s' ∧ delivered s' = delivered s.
Lemma dead_deliver (s : Sink) : dead s → dead (deliver [] s).
Proof using Type. intros Hc. eapply closed_mono; [exact Hc|cbn; lia]. Qed.
Lemma stays_deliver (s : Sink) : dead s → stays s (deliver [] s).
Proof using Type. intros Hd. split; [by apply dead_deliver|]. cbn. by rewrite app_nil_r. Qed.
Lemma stays_trans (s1 s2 s3 : Sink) : stays s1 s2 → stays s2 s3 → stays s1 s3.
Proof using Type. intros [_ E1] [Hd E2]. split; [done|congruence]. Qed.
Lemma gone_dead (s : Sink) : dead s → ∃ s', gone s = (Ok true, s') ∧ stays s s'.
Proof using Type.
  unfold gone. intros Hd. destruct (disconnected s) eqn:E; [by exists s|].
  exists (deliver [] s). rewrite Hd. split; [done|]. by apply stays_deliver.
Qed.
Lemma emit_dead fuel e (s : Sink) : dead s → ∃ s', emit fuel e s = (Ok (Some ()), s') ∧ stays s s'.
Proof using Type.
  intros Hd. destruct (gone_dead s Hd) as (s1 & Hg & Hs). unfold emit. rewrite (bind_run _ _ _ _ _ Hg).
  by exists (set_disconnected s1).
Qed.
Lemma finish_dead fuel r (s : Sink) : dead s → ∃ s', finish fuel r s = (Ok (Some ()), s') ∧ stays s s'.
Proof using Type.
  intros Hd. destruct (gone_dead s Hd) as (s1 & Hg & Hs). unfold finish. rewrite (bind_run _ _ _ _ _ Hg). by exists s1.
Qed.
Lemma run_dead fuel (d : Run Json) s :
  dead s → ∃ o s', run_events fuel d s = (Ok (Some o), s') ∧ stays s s'.
Proof using Type.
  revert s. induction d as [r| |e k IH|k IH]; intros s Hd; cbn [run_events].
  - by exists (inl r), s.
  - by exists (inr ()), s.
  - destruct (emit_dead fuel e s Hd) as (s1 & He & Hs1). rewrite (bind_run _ _ _ _ _ He).
    destruct (IH (Ok ()) s1 (proj1 Hs1)) as (o & s2 & Hr & Hs2). exists o, s2. split; [done|]. by eapply stays_trans.
  - destruct (gone_dead s Hd) as (s1 & Hg & Hs1). unfold is_cancelled. rewrite (bind_run _ _ _ _ _ Hg).
    destruct (IH true s1 (proj1 Hs1)) as (o & s2 & Hr & Hs2). exists o, s2. split; [done|]. by eapply stays_trans.
Qed.

(** A live sink that has delivered some more, at a later step. *)
Definition moved (n : nat) (ms : list (DispatchMessage Json)) (s : Sink) : Sink :=
  {| delivered := delivered s ++ ms; step := n; expected_result := expected_result s;
     result_event := result_event s; contract_violation := contract_violation s; disconnected := disconnected s |}.
Definition or_dead (s : Sink) (P : Sink → Prop) (s' : Sink) : Prop := P s' ∨ stays s s'.

Lemma gone_live (s : Sink) : disconnected s = false →
  gone s = (Ok (closed_at (step s)), deliver [] s).
Proof using Type. unfold gone. by intros ->. Qed.
Lemma send_turn_live m (s : Sink) : disconnected s = false →
  send_turn m () s =
    let s1 := deliver [] s in
    if closed_at (step s) then (Ok (inr ()), set_disconnected s1)
    else if closed_at (S (step s)) then (Ok (inr ()), set_disconnected (deliver [] s1))
    else if full (S (step s)) then (Ok (inl ()), deliver [] s1)
    else (Ok (inr ()), deliver [m] s1).
Proof using Type.
  intros Hd. unfold send_turn. rewrite (bind_run _ _ _ _ _ (gone_live s Hd)).
  destruct (closed_at (step s)); [done|]. unfold try_send, mbind, M_bind. cbn [step deliver].
  destruct (closed_at _); [done|]. by destruct (full _).
Qed.
(** Hanging up after having looked [n] times. *)
Lemma stays_disconnected n (s s' : Sink) :
  closed_at n = true → (n ≤ step s')%nat → delivered s' = delivered s ++ [] → stays s (set_disconnected s').
Proof using Type.
  intros Hc Hn E. split; [by eapply closed_mono|]. cbn. by rewrite E, app_nil_r.
Qed.
Lemma send_turns k fuel m (s : Sink) :
  disconnected s = false → (k < fuel)%nat →
  full (step s + 1 + 2 * k) = false ∨ closed_at (step s + 1 + 2 * k) = true →
  ∃ s', send fuel m s = (Ok (Some ()), s') ∧ or_dead s (λ s', ∃ n, s' = moved n [m] s) s'.
Proof using Type.
  revert fuel s. induction k as [|k IH]; intros [|fuel] s Hd Hk Hdrain; try lia; unfold send; cbn [loop];
    unfold mbind, M_bind; rewrite send_turn_live by done; cbv zeta;
    (destruct (closed_at (step s)) eqn:Ec;
      [eexists; split; [reflexivity|]; right; by eapply stays_disconnected; [exact Ec|cbn; lia|]|]);
    (destruct (closed_at (S (step s))) eqn:Ec1;
      [eexists; split; [reflexivity|]; right; by eapply stays_disconnected; [exact Ec1|cbn; lia|cbn; rewrite app_nil_r]|]);
    (destruct (full (S (step s))) eqn:Ef;
      [|eexists; split; [reflexivity|]; left; exists (S (S (step s))); unfold moved, deliver; cbn; by rewrite app_nil_r]).
  - replace (step s + 1 + 2 * 0)%nat with (S (step s)) in Hdrain by lia. destruct Hdrain; congruence.
  - destruct (IH fuel (deliver [] (deliver [] s))) as (s' & Hs & Hor); [done|lia| |].
    { cbn [step deliver]. replace (S (S (step s)) + 1 + 2 * k)%nat with (step s + 1 + 2 * S k)%nat by lia. done. }
    exists s'. split; [exact Hs|]. destruct Hor as [[n ->]|[Hd' E]]; [left; exists n|right; split; [done|rewrite E]];
      unfold moved; cbn; by rewrite !app_nil_r.
Qed.

(** ** What the sink remembers of the events so far *)

Definition note (expected : string) (st : option (Event Json) * bool) (e : Event Json) : option (Event Json) * bool :=
  match e with
  | Result action _ =>
      if bool_decide (is_Some st.1) || negb (String.eqb action expected) then (st.1, true) else (Some e, st.2)
  | _ => (st.1, bool_decide (is_Some st.1) || st.2)
  end.
Definition notes (expected : string) (es : list (Event Json)) : option (Event Json) * bool :=
  foldl (note expected) (None, false) es.

Lemma results_app (es fs : list (Event Json)) : results (es ++ fs) = results es ++ results fs.
Proof using Type. apply filter_app. Qed.
Lemma progress_app (es fs : list (Event Json)) : progress (es ++ fs) = progress es ++ progress fs.
Proof using Type. apply filter_app. Qed.
Lemma notes_snoc expected es e : notes expected (es ++ [e]) = note expected (notes expected es) e.
Proof using Type. apply foldl_snoc. Qed.
Lemma results_one (e : Event Json) : results [e] = if is_result e then [e] else [].
Proof using Type. unfold results. rewrite filter_cons. by destruct (is_result e). Qed.
Lemma progress_one (e : Event Json) : progress [e] = if is_result e then [] else [e].
Proof using Type. unfold progress. rewrite filter_cons. by destruct (is_result e). Qed.

Definition noted (expected : string) (es : list (Event Json)) : Prop :=
  (results es = [] ∧ notes expected es = (None, false)) ∨
  (∃ p, results es = [Result expected p] ∧ last es = Some (Result expected p)
        ∧ notes expected es = (Some (Result expected p), false)) ∨
  (results es ≠ [] ∧ (notes expected es).2 = true
   ∧ ∀ p, results es = [Result expected p] → last es ≠ Some (Result expected p)).
Lemma noted_all expected es : noted expected es.
Proof using Type.
  induction es as [|e es IH] using rev_ind; [by left|]. unfold noted.
  rewrite results_app, results_one, notes_snoc, last_snoc.
  destruct IH as [[Hr ->]|[(p & Hr & _ & ->)|(Hr & Hv & _)]].
  - destruct e as [ | | | | | | | |a p]; cbn [is_result note fst snd]; rewrite ?app_nil_r; try by left. right.
    rewrite bool_decide_eq_false_2 by by intros []. rewrite Hr. cbn [orb app].
    destruct (String.eqb_spec a expected) as [->|Hn]; cbn [negb]; [left; by exists p|right].
    split; [done|]. split; [done|]. intros q [=]. congruence.
  - right; right. rewrite Hr. split; [by destruct e|].
    destruct e as [ | | | | | | | |a q]; cbn [is_result note fst snd]; (split; [done|]); try by intros ? _ [=].
    intros r [=].
  - right; right. destruct (notes expected es) as [res viol]. cbn [snd] in Hv. subst viol.
    split; [by destruct (results es)|].
    destruct e as [ | | | | | | | |a q]; cbn [is_result note fst snd]; rewrite ?orb_true_r;
      try (split; [done|]; by intros ? _ [=]).
    split; [by destruct (_ || _)|]. intros r E. destruct (results es) as [|x [|]]; [done|by injection E|done].
Qed.
(** The verdict of a run that returned normally is what the sink remembers. *)
Lemma verdict_notes expected es :
  verdict expected es (inl (Ok ())) =
    let '(res, violation) := notes expected es in
    if violation then invalid_sequence
    else match res with
    | Some e => DispatchEvent e
    | None => DispatchError (dispatch_contract_error "the dispatcher completed without a Result event")
    end.
Proof using Type.
  unfold verdict. destruct (noted_all expected es) as [[-> ->]|[(p & -> & -> & ->)|(Hr & Hv & Hl)]]; [done| |].
  - by rewrite String.eqb_refl.
  - destruct (notes expected es) as [res viol]. cbn [snd] in Hv. subst viol.
    destruct (results es) as [|x [|]] eqn:E; [done| |by destruct (last es)].
    destruct (last es) as [[ | | | | | | | |a p]|] eqn:El; try done.
    destruct (String.eqb_spec a expected) as [->|]; [|done]. exfalso. apply (Hl p); [|done].
    apply last_Some in El as [fs ->]. rewrite results_app, results_one in E. cbn [is_result] in E.
    destruct (results fs) as [|y [|]]; [|by injection E|by injection E]. injection E as <-. done.
Qed.

(** ** Following a live run *)

Definition tracks (expected : string) (es : list (Event Json)) (s : Sink) : Prop :=
  disconnected s = false ∧ expected_result s = expected ∧ delivered s = DispatchEvent <$> progress es
  ∧ (result_event s, contract_violation s) = notes expected es.
Lemma tracks_deliver expected es (s : Sink) : tracks expected es s → tracks expected es (deliver [] s).
Proof using Type. intros (Hd & He & Hs & Hn). repeat split; try done. cbn. by rewrite app_nil_r. Qed.
Lemma stays_after (s s' : Sink) : stays (deliver [] s) s' → stays s s'.
Proof using Type. intros [Hd E]. split; [done|]. rewrite E. cbn. by rewrite app_nil_r. Qed.

Context `{!Drains}.

Lemma send_live fuel m (s : Sink) :
  (patience ≤ fuel)%nat → disconnected s = false →
  ∃ s', send fuel m s = (Ok (Some ()), s') ∧ or_dead s (λ s', ∃ n, s' = moved n [m] s) s'.
Proof using Type*.
  intros Hf Hd. destruct (drains (step s + 1)) as (k & Hk & Hor). apply (send_turns k); [done|lia|done].
Qed.
Lemma emit_live fuel e expected es (s : Sink) :
  (patience ≤ fuel)%nat → tracks expected es s →
  ∃ s', emit fuel e s = (Ok (Some ()), s') ∧ or_dead s (tracks expected (es ++ [e])) s'.
Proof using Type*.
  intros Hf (Hd & He & Hs & Hn). unfold emit. rewrite (bind_run _ _ _ _ _ (gone_live s Hd)).
  destruct (closed_at (step s)) eqn:Ec.
  { eexists. split; [reflexivity|]. right. by eapply stays_disconnected; [exact Ec|cbn; lia|]. }
  unfold tracks. rewrite notes_snoc, progress_app, progress_one, <- Hn.
  destruct (is_result e) eqn:Hr.
  - destruct e; try done. unfold mbind, M_bind, M_get. cbn [result_event expected_result deliver note fst snd].
    rewrite app_nil_r, He, <- Hs. destruct (_ || _); (eexists; split; [reflexivity|]); left; cbn; by rewrite app_nil_r.
  - set (s1 := if bool_decide (is_Some (result_event s)) then set_violation (deliver [] s) else deliver [] s).
    destruct (send_live fuel (DispatchEvent e) s1) as (s' & Hsend & Hor); [done|by unfold s1; case_bool_decide|].
    exists s'. split.
    + rewrite <- Hsend. unfold s1. destruct e; try done; unfold mbind, M_bind, M_get; cbn [result_event deliver];
        by case_bool_decide.
    + destruct Hor as [[n ->]|[Hd' Hdel]]; [left|right; split; [done|]].
      * rewrite fmap_app, <- Hs. unfold s1, moved.
        destruct e; try done; cbn [note fst snd]; case_bool_decide; cbn; by rewrite app_nil_r.
      * rewrite Hdel. unfold s1. case_bool_decide; cbn; by rewrite app_nil_r.
Qed.

(** At the end of a run, either everything was followed or the receiver went away. *)
Definition followed (expected : string) (es : list (Event Json)) (s : Sink) : Prop :=
  tracks expected es s ∨ (dead s ∧ delivered s `prefix_of` DispatchEvent <$> progress es).
Lemma followed_stays expected es es' (s s' : Sink) :
  tracks expected es s → stays s s' → followed expected (es ++ es') s'.
Proof using Type.
  intros (_ & _ & E & _) [Hd E']. right. split; [done|]. rewrite E', E, progress_app, fmap_app. by apply prefix_app_r.
Qed.
Lemma run_live fuel (d : Run Json) expected es (s : Sink) :
  (patience ≤ fuel)%nat → tracks expected es s →
  ∃ o s', run_events fuel d s = (Ok (Some o), s') ∧ followed expected (es ++ (trace d).1) s'
          ∧ (tracks expected (es ++ (trace d).1) s' → dead s' ∨ o = (trace d).2).
Proof using Type*.
  intros Hf. revert es s. induction d as [r| |e k IH|k IH]; intros es s Ht; cbn [run_events trace fst snd].
  - exists (inl r), s. rewrite app_nil_r. repeat split; [by left|by right].
  - exists (inr ()), s. rewrite app_nil_r. repeat split; [by left|by right].
  - destruct (emit_live fuel e expected es s Hf Ht) as (s1 & He & [Ht1|Hs1]); rewrite (bind_run _ _ _ _ _ He).
    + destruct (IH (Ok ()) (es ++ [e]) s1 Ht1) as (o & s2 & Hr & Hfol & Ho). exists o, s2. split; [done|].
      destruct (trace (k (Ok ()))) as [es' r]. cbn [fst snd] in *. by rewrite <- app_assoc in Hfol, Ho.
    + destruct (run_dead fuel (k (Ok ())) s1 (proj1 Hs1)) as (o & s2 & Hr & Hs2). exists o, s2. split; [done|].
      split; [|left; apply Hs2]. eapply followed_stays; [done|]. by eapply stays_trans.
  - unfold is_cancelled. destruct Ht as (Hd & Ht). rewrite (bind_run _ _ _ _ _ (gone_live s Hd)).
    destruct (closed_at (step s)) eqn:Ec.
    + assert (Hs1 : stays s (deliver [] s)) by by apply stays_deliver.
      destruct (run_dead fuel (k true) (deliver [] s) (proj1 Hs1)) as (o & s2 & Hr & Hs2). exists o, s2.
      split; [done|]. split; [|left; apply Hs2]. eapply followed_stays; [done|]. by eapply stays_trans.
    + apply (IH false). apply tracks_deliver. done.
Qed.
Lemma finish_live fuel r expected es (s : Sink) :
  (patience ≤ fuel)%nat → tracks expected es s →
  ∃ s', finish fuel r s = (Ok (Some ()), s') ∧
    or_dead s (λ s', delivered s' = (DispatchEvent <$> progress es) ++ [verdict expected es (inl r)]) s'.
Proof using Type*.
  intros Hf (Hd & He & Hs & Hn). unfold finish. rewrite (bind_run _ _ _ _ _ (gone_live s Hd)).
  destruct (closed_at (step s)) eqn:Ec.
  { eexists. split; [reflexivity|]. right. by apply stays_deliver. }
  assert (Hsend : ∀ m (s1 : Sink), disconnected s1 = false → delivered s1 = delivered s →
    ∃ s', send fuel m s1 = (Ok (Some ()), s')
          ∧ or_dead s (λ s', delivered s' = (DispatchEvent <$> progress es) ++ [m]) s').
  { intros m s1 Hd1 Es. destruct (send_live fuel m s1 Hf Hd1) as (s' & Hsend & Hor). exists s'. split; [done|].
    destruct Hor as [[n ->]|[Hd' E]]; [left; cbn; by rewrite Es, Hs|right; split; [done|congruence]]. }
  destruct r as [[]|error]; [|apply Hsend; [done|cbn; by rewrite app_nil_r]].
  rewrite verdict_notes, <- Hn. unfold mbind, M_bind, M_get. cbn [contract_violation deliver].
  destruct (contract_violation s); [apply Hsend; [done|cbn; by rewrite app_nil_r]|].
  cbn [update result_event deliver]. destruct (result_event s); apply Hsend; done || (cbn; by rewrite app_nil_r).
Qed.
Lemma verdict_panic expected (es : list (Event Json)) :
  verdict expected es (inr ()) = verdict expected es (inl (Err (dispatch_contract_error
    "the dispatcher panicked while handling the request"))).
Proof using Type. done. Qed.

(** Everything a run sends, when nobody hangs up. *)
Definition whole (d : Run Json) (expected : string) : list (DispatchMessage Json) :=
  let '(es, r) := trace d in (DispatchEvent <$> progress es) ++ [verdict expected es r].
Lemma tracks_prefix expected es x (s : Sink) :
  tracks expected es s → delivered s `prefix_of` (DispatchEvent <$> progress es) ++ [x].
Proof using Type. intros (_ & _ & -> & _). by apply prefix_app_r. Qed.
Lemma spawn_whole fuel (d : Run Json) expected :
  (patience ≤ fuel)%nat →
  ∃ ms, spawn_dispatch fuel d expected = Some ms ∧ ms `prefix_of` whole d expected
        ∧ (closed_from = None → ms = whole d expected).
Proof using Type*.
  intros Hf. unfold spawn_dispatch, dispatched, whole.
  assert (Hopen : ∀ s : Sink, dead s → closed_from ≠ None) by (intros s Hd E; unfold dead, closed_at in Hd; by rewrite E in Hd).
  destruct (run_live fuel d expected [] (sink_new expected)) as (o & s1 & Hr & Hfol & Ho); [done|by repeat split|].
  rewrite (bind_run _ _ _ _ _ Hr). cbn [app] in *. destruct (trace d) as [es r]. cbn [fst snd] in *.
  set (r1 := match o with inl r => r | inr _ => Err (dispatch_contract_error
    "the dispatcher panicked while handling the request") end).
  replace (match o with inl r => finish fuel r | inr _ => _ end) with (finish (Json := Json) fuel r1) by by destruct o.
  destruct Hfol as [Ht|[Hd Hp]].
  - destruct (finish_live fuel r1 expected es s1 Hf Ht) as (s2 & Hfin & Hor). rewrite Hfin. exists (delivered s2).
    split; [done|]. destruct Hor as [E|[Hd E]].
    + destruct (Ho Ht) as [Hd| ->].
      * destruct (finish_dead fuel r1 s1 Hd) as (s3 & Hfin3 & Hs3). rewrite Hfin in Hfin3. injection Hfin3 as <-.
        destruct Hs3 as [Hd3 ->]. split; [by eapply tracks_prefix|]. intros Hn. by apply Hopen in Hd.
      * replace (verdict expected es r) with (verdict expected es (inl r1)); [by rewrite E|].
        subst r1. by destruct r as [|[]].
    + rewrite E. split; [by eapply tracks_prefix|]. intros Hn. by apply Hopen in Hd.
  - destruct (finish_dead fuel r1 s1 Hd) as (s2 & Hfin & [Hd2 E]). rewrite Hfin. exists (delivered s2).
    split; [done|]. rewrite E. split; [by apply prefix_app_r|]. intros Hn. by apply Hopen in Hd2.
Qed.
End sink.

(** ** What a client is told *)

Section collected.
Context {Json : Type}.
Implicit Types (es : list (Event Json)) (r : result FirestoneError () + ()).

Definition output_of es : string :=
  foldr (λ e s, match e with Output data => data +:+ s | _ => s end) "" es.
(** The one message of a verdict, as an answer. *)
Definition answer {A} (ok : Event Json → A) (m : DispatchMessage Json) : result FirestoneError A :=
  match m with DispatchEvent e => Ok (ok e) | DispatchError e => Err e end.

Lemma verdict_terminal expected es r :
  (∃ a p, verdict expected es r = DispatchEvent (Result a p)) ∨ ∃ e, verdict expected es r = DispatchError e.
Proof.
  unfold verdict, invalid_sequence. destruct r as [[]|]; eauto.
  destruct (results es) as [|? []]; eauto. destruct (last es) as [[]|]; eauto. case_match; eauto.
Qed.
Lemma collect_progress acc es m :
  (∃ a p, m = DispatchEvent (Result a p)) ∨ (∃ e, m = DispatchError e) →
  collect_from acc ((DispatchEvent <$> progress es) ++ [m])
  = answer (λ e, {| events := acc ++ progress es; result_of := e |}) m.
Proof.
  intros Hm. revert acc. induction es as [|e es IH]; intros acc.
  - cbn. rewrite app_nil_r. by destruct Hm as [(a & p & ->)|(e & ->)].
  - unfold progress in *. destruct (is_result e) eqn:He.
    + rewrite filter_cons_False by congruence. apply IH.
    + rewrite filter_cons_True by done. destruct e; try done; cbn; rewrite IH, <- app_assoc; done.
Qed.
Lemma payload_progress es m :
  (∃ a p, m = DispatchEvent (Result a p)) ∨ (∃ e, m = DispatchError e) →
  dispatch_payload ((DispatchEvent <$> progress es) ++ [m]) = dispatch_payload [m].
Proof.
  intros Hm. induction es as [|e es IH]; [done|]. unfold progress in *. destruct (is_result e) eqn:He.
  - rewrite filter_cons_False by congruence. apply IH.
  - rewrite filter_cons_True by done. by destruct e.
Qed.
Lemma output_progress acc es m :
  (∃ a p, m = DispatchEvent (Result a p)) ∨ (∃ e, m = DispatchError e) →
  output_from acc ((DispatchEvent <$> progress es) ++ [m]) = answer (λ _, acc +:+ output_of es) m.
Proof.
  intros Hm. revert acc. induction es as [|e es IH]; intros acc.
  - cbn. rewrite app_empty_r. by destruct Hm as [(a & p & ->)|(e & ->)].
  - unfold progress in *. destruct (is_result e) eqn:He.
    + rewrite filter_cons_False by congruence. rewrite IH. by destruct e.
    + rewrite filter_cons_True by done. destruct e; try done; cbn; rewrite IH; by rewrite ?app_assoc_str.
Qed.
End collected.

(** C13: the dispatch contract: whatever a dispatcher emits and however it ends, the channel carries
    its progress in order and then exactly one terminal message, as long as the client listens; a
    client that hangs up gets a prefix of that.  The message is the result only if the run returned
    normally and emitted exactly one result, as its last event and for the action that was asked
    for; every other run, a panic included, ends in an error.  The three collectors therefore answer
    with that result and the progress or output before it, or with that error. *)
Theorem dispatch_contract {Json} `{Drains} fuel (d : Run Json) expected :
  (patience ≤ fuel)%nat →
  let '(es, r) := trace d in
  ∃ ms, spawn_dispatch fuel d expected = Some ms ∧ ms `prefix_of` whole d expected
    ∧ (closed_from = None →
       ms = (DispatchEvent <$> progress es) ++ [verdict expected es r]
       ∧ collect_action ms = answer (λ e, {| events := progress es; result_of := e |}) (verdict expected es r)
       ∧ dispatch_payload ms = dispatch_payload [verdict expected es r]
       ∧ dispatch_output ms = answer (λ _, output_of es) (verdict expected es r)).
Proof.
  intros Hf. destruct (spawn_whole fuel d expected Hf) as (ms & Hs & Hp & Hw). revert Hw.
  pose proof (λ es r, verdict_terminal (Json := Json) expected es r) as Ht. unfold whole in *. destruct (trace d) as [es r].
  intros Hw. exists ms. split; [done|]. split; [done|]. intros Hn. rewrite (Hw Hn). split; [done|].
  split_and!; [by apply (collect_progress [])|by apply payload_progress|by apply (output_progress "")].
Qed.

(** A buffer that is full for its first three tries. *)
#[local] Instance demo_receiver : Receiver := {| closed_from := None; full t := (t <? 6)%nat |}.
#[local] Program Instance demo_drains : Drains := {| patience := 4 |}.
Next Obligation. intros t. exists 3%nat. split; [lia|]. left. cbn [full demo_receiver]. apply Nat.ltb_ge. lia. Qed.
Definition demo_run : Run bool := Emit (Output "hello ") (λ _, Emit (Output "world") (λ _,
  Emit (Result "machine_logs" true) (λ _, Return (Ok ())))).
Lemma dispatch_contract_witness :
  ∃ ms, spawn_dispatch 4 demo_run "machine_logs" = Some ms ∧ dispatch_output ms = Ok "hello world"
        ∧ dispatch_payload ms = Ok true.
Proof.
  destruct (dispatch_contract 4 demo_run "machine_logs") as (ms & Hs & _ & Hw); [cbn; lia|].
  exists ms. destruct (Hw eq_refl) as (_ & _ & -> & ->). split; [exact Hs|]. split; reflexivity.
Defined.
