(* ===== verification/Spec.v ===== *)
(** The machine specification ([firestone-core/src/spec.rs]): the desired state of a machine,
    the sparse patches that defaults, machine files, the command line and REST requests supply,
    and how layers of patches combine. *)
From S2P Require Import Prelude RustStr Errors Values IpAddr Ports.
Open Scope Z_scope.

(** ** The data *)

Inductive NetMode : Set := Passt | Tap | None_.
#[export] Instance NetMode_eq_dec : EqDecision NetMode.
Proof. solve_decision. Defined.

Module NetworkSpec.
Record NetworkSpec : Type := {
  mode : NetMode;
  forward : list PortForward;
  tap : option string;
  mac : option (list Z) }.
Definition set_forward (v : list PortForward) (s : NetworkSpec) : NetworkSpec :=
  {| mode := mode s; forward := v; tap := tap s; mac := mac s |}.
Definition set_tap (v : option string) (s : NetworkSpec) : NetworkSpec :=
  {| mode := mode s; forward := forward s; tap := v; mac := mac s |}.
Definition set_mac (v : option (list Z)) (s : NetworkSpec) : NetworkSpec :=
  {| mode := mode s; forward := forward s; tap := tap s; mac := v |}.
Definition default : NetworkSpec := {| mode := Passt; forward := []; tap := None; mac := None |}.
End NetworkSpec.

Module MountSpec.
Record MountSpec : Set := { host : string; guest : string; readonly : bool; tag : option string }.
Definition effective_tag (m : MountSpec) (index : Z) : string :=
  match tag m with Some t => t | None => "share" +:+ dec index end.
End MountSpec.

Module CloudInitSpec.
Record CloudInitSpec : Type := {
  user_data : option string;
  user_data_inline : option string;
  network_config : option string;
  ssh_keys : list string;
  ssh_authorized_keys : list string;
  password : option string;
  ssh_pwauth : bool;
  provisioning : bool }.
Definition set_user_data (v : option string) (s : CloudInitSpec) : CloudInitSpec :=
  {| user_data := v; user_data_inline := user_data_inline s; network_config := network_config s;
     ssh_keys := ssh_keys s; ssh_authorized_keys := ssh_authorized_keys s; password := password s;
     ssh_pwauth := ssh_pwauth s; provisioning := provisioning s |}.
Definition set_user_data_inline (v : option string) (s : CloudInitSpec) : CloudInitSpec :=
  {| user_data := user_data s; user_data_inline := v; network_config := network_config s;
     ssh_keys := ssh_keys s; ssh_authorized_keys := ssh_authorized_keys s; password := password s;
     ssh_pwauth := ssh_pwauth s; provisioning := provisioning s |}.
Definition set_network_config (v : option string) (s : CloudInitSpec) : CloudInitSpec :=
  {| user_data := user_data s; user_data_inline := user_data_inline s; network_config := v;
     ssh_keys := ssh_keys s; ssh_authorized_keys := ssh_authorized_keys s; password := password s;
     ssh_pwauth := ssh_pwauth s; provisioning := provisioning s |}.
Definition set_ssh_keys (v : list string) (s : CloudInitSpec) : CloudInitSpec :=
  {| user_data := user_data s; user_data_inline := user_data_inline s; network_config := network_config s;
     ssh_keys := v; ssh_authorized_keys := ssh_authorized_keys s; password := password s;
     ssh_pwauth := ssh_pwauth s; provisioning := provisioning s |}.
Definition set_ssh_authorized_keys (v : list string) (s : CloudInitSpec) : CloudInitSpec :=
  {| user_data := user_data s; user_data_inline := user_data_inline s; network_config := network_config s;
     ssh_keys := ssh_keys s; ssh_authorized_keys := v; password := password s; ssh_pwauth := ssh_pwauth s;
     provisioning := provisioning s |}.
Definition set_password (v : option string) (s : CloudInitSpec) : CloudInitSpec :=
  {| user_data := user_data s; user_data_inline := user_data_inline s; network_config := network_config s;
     ssh_keys := ssh_keys s; ssh_authorized_keys := ssh_authorized_keys s; password := v;
     ssh_pwauth := ssh_pwauth s; provisioning := provisioning s |}.
Definition default : CloudInitSpec :=
  {| user_data := None; user_data_inline := None; network_config := None; ssh_keys := [];
     ssh_authorized_keys := []; password := None; ssh_pwauth := false; provisioning := true |}.
End CloudInitSpec.

(** [serde_json::Value] of the configuration overlay. *)
Module VmmSpec.
Section json.
Context (Json : Type).
Record VmmSpec : Type := {
  binary : option string;
  firmware : Firmware.Firmware;
  extra_args : list string;
  config_overlay : option Json }.
Definition set_binary (v : option string) (s : VmmSpec) : VmmSpec :=
  {| binary := v; firmware := firmware s; extra_args := extra_args s; config_overlay := config_overlay s |}.
Definition set_extra_args (v : list string) (s : VmmSpec) : VmmSpec :=
  {| binary := binary s; firmware := firmware s; extra_args := v; config_overlay := config_overlay s |}.
Definition set_config_overlay (v : option Json) (s : VmmSpec) : VmmSpec :=
  {| binary := binary s; firmware := firmware s; extra_args := extra_args s; config_overlay := v |}.
Definition default : VmmSpec := {| binary := None; firmware := Firmware.Auto; extra_args := []; config_overlay := None |}.
End json.
Arguments binary {Json}. Arguments firmware {Json}. Arguments extra_args {Json}. Arguments config_overlay {Json}.
Arguments set_binary {Json}. Arguments set_extra_args {Json}. Arguments set_config_overlay {Json}.
Arguments Build_VmmSpec {Json}. Arguments default {Json}.
End VmmSpec.

Module MachineSpec.
Section json.
Context (Json : Type).
Record MachineSpec : Type := {
  image : string;
  arch : option Arch.Arch;
  cpus : Z;
  cpus_max : option Z;
  memory : Z;
  memory_max : option Z;
  disk : Z;
  user : string;
  network : NetworkSpec.NetworkSpec;
  mounts : list MountSpec.MountSpec;
  cloud_init : CloudInitSpec.CloudInitSpec;
  vmm : VmmSpec.VmmSpec Json }.
Definition set_arch (v : option Arch.Arch) (s : MachineSpec) : MachineSpec :=
  {| image := image s; arch := v; cpus := cpus s; cpus_max := cpus_max s; memory := memory s;
     memory_max := memory_max s; disk := disk s; user := user s; network := network s; mounts := mounts s;
     cloud_init := cloud_init s; vmm := vmm s |}.
Definition set_cpus_max (v : option Z) (s : MachineSpec) : MachineSpec :=
  {| image := image s; arch := arch s; cpus := cpus s; cpus_max := v; memory := memory s;
     memory_max := memory_max s; disk := disk s; user := user s; network := network s; mounts := mounts s;
     cloud_init := cloud_init s; vmm := vmm s |}.
Definition set_memory_max (v : option Z) (s : MachineSpec) : MachineSpec :=
  {| image := image s; arch := arch s; cpus := cpus s; cpus_max := cpus_max s; memory := memory s;
     memory_max := v; disk := disk s; user := user s; network := network s; mounts := mounts s;
     cloud_init := cloud_init s; vmm := vmm s |}.
Definition set_network (v : NetworkSpec.NetworkSpec) (s : MachineSpec) : MachineSpec :=
  {| image := image s; arch := arch s; cpus := cpus s; cpus_max := cpus_max s; memory := memory s;
     memory_max := memory_max s; disk := disk s; user := user s; network := v; mounts := mounts s;
     cloud_init := cloud_init s; vmm := vmm s |}.
Definition set_mounts (v : list MountSpec.MountSpec) (s : MachineSpec) : MachineSpec :=
  {| image := image s; arch := arch s; cpus := cpus s; cpus_max := cpus_max s; memory := memory s;
     memory_max := memory_max s; disk := disk s; user := user s; network := network s; mounts := v;
     cloud_init := cloud_init s; vmm := vmm s |}.
Definition set_cloud_init (v : CloudInitSpec.CloudInitSpec) (s : MachineSpec) : MachineSpec :=
  {| image := image s; arch := arch s; cpus := cpus s; cpus_max := cpus_max s; memory := memory s;
     memory_max := memory_max s; disk := disk s; user := user s; network := network s; mounts := mounts s;
     cloud_init := v; vmm := vmm s |}.
Definition set_vmm (v : VmmSpec.VmmSpec Json) (s : MachineSpec) : MachineSpec :=
  {| image := image s; arch := arch s; cpus := cpus s; cpus_max := cpus_max s; memory := memory s;
     memory_max := memory_max s; disk := disk s; user := user s; network := network s; mounts := mounts s;
     cloud_init := cloud_init s; vmm := v |}.
Definition default : MachineSpec :=
  {| image := ImageRef.default; arch := None; cpus := 2; cpus_max := None; memory := ByteSize.BUILTIN_MEMORY;
     memory_max := None; disk := ByteSize.BUILTIN_DISK; user := "root"; network := NetworkSpec.default;
     mounts := []; cloud_init := CloudInitSpec.default; vmm := VmmSpec.default |}.
End json.
Arguments image {Json}. Arguments arch {Json}. Arguments cpus {Json}. Arguments cpus_max {Json}.
Arguments memory {Json}. Arguments memory_max {Json}. Arguments disk {Json}. Arguments user {Json}.
Arguments network {Json}. Arguments mounts {Json}. Arguments cloud_init {Json}. Arguments vmm {Json}.
Arguments set_arch {Json}. Arguments set_cpus_max {Json}. Arguments set_memory_max {Json}. Arguments set_network {Json}.
Arguments set_mounts {Json}. Arguments set_cloud_init {Json}. Arguments set_vmm {Json}.
Arguments Build_MachineSpec {Json}. Arguments default {Json}.
End MachineSpec.

(** ** What a layer may clear *)

Inductive SpecClear : Set :=
  | ClearArch | ClearNetworkForward | ClearNetworkTap | ClearNetworkMac | ClearMount | ClearCloudInitUserData
  | ClearCloudInitUserDataInline | ClearCloudInitNetworkConfig | ClearCloudInitSshKeys
  | ClearCloudInitSshAuthorizedKeys | ClearCloudInitPassword | ClearVmmBinary | ClearVmmExtraArgs
  | ClearVmmConfigOverlay | ClearCpusMax | ClearMemoryMax.
#[export] Instance SpecClear_eq_dec : EqDecision SpecClear.
Proof. solve_decision. Defined.
Definition ALL : list SpecClear :=
  [ClearArch; ClearNetworkForward; ClearNetworkTap; ClearNetworkMac; ClearMount; ClearCloudInitUserData;
   ClearCloudInitUserDataInline; ClearCloudInitNetworkConfig; ClearCloudInitSshKeys;
   ClearCloudInitSshAuthorizedKeys; ClearCloudInitPassword; ClearVmmBinary; ClearVmmExtraArgs;
   ClearVmmConfigOverlay; ClearCpusMax; ClearMemoryMax].
Definition clear_as_str (c : SpecClear) : string :=
  match c with
  | ClearArch => "arch"
  | ClearNetworkForward => "network.forward"
  | ClearNetworkTap => "network.tap"
  | ClearNetworkMac => "network.mac"
  | ClearMount => "mount"
  | ClearCloudInitUserData => "cloud_init.user_data"
  | ClearCloudInitUserDataInline => "cloud_init.user_data_inline"
  | ClearCloudInitNetworkConfig => "cloud_init.network_config"
  | ClearCloudInitSshKeys => "cloud_init.ssh_keys"
  | ClearCloudInitSshAuthorizedKeys => "cloud_init.ssh_authorized_keys"
  | ClearCloudInitPassword => "cloud_init.password"
  | ClearVmmBinary => "vmm.binary"
  | ClearVmmExtraArgs => "vmm.extra_args"
  | ClearVmmConfigOverlay => "vmm.config_overlay"
  | ClearCpusMax => "cpus_max"
  | ClearMemoryMax => "memory_max"
  end.
(** [SpecClear::from_str]; the error keeps the text it could not read. *)
Definition clear_from_str (value : string) : result string SpecClear :=
  match List.find (λ f, String.eqb (clear_as_str f) value) ALL with Some f => Ok f | None => Err value end.

(** ** Patches *)

Inductive VectorMerge : Set := Append | Replace.
Definition merge_vector {A} (target values : list A) (merge : VectorMerge) : list A :=
  match merge with Replace => values | Append => target ++ values end.

Module NetworkSpecPatch.
Record NetworkSpecPatch : Type := {
  mode : option NetMode;
  forward : option (list PortForward);
  tap : option string;
  mac : option (list Z) }.
Definition apply_to (p : NetworkSpecPatch) (spec : NetworkSpec.NetworkSpec) (merge : VectorMerge) : NetworkSpec.NetworkSpec :=
  {| NetworkSpec.mode := from_option id (NetworkSpec.mode spec) (mode p);
     NetworkSpec.forward := match forward p with
       | Some forward => merge_vector (NetworkSpec.forward spec) forward merge
       | None => NetworkSpec.forward spec end;
     NetworkSpec.tap := match tap p with Some t => Some t | None => NetworkSpec.tap spec end;
     NetworkSpec.mac := match mac p with Some m => Some m | None => NetworkSpec.mac spec end |}.
End NetworkSpecPatch.

Module CloudInitSpecPatch.
Record CloudInitSpecPatch : Type := {
  user_data : option string;
  user_data_inline : option string;
  network_config : option string;
  ssh_keys : option (list string);
  ssh_authorized_keys : option (list string);
  password : option string;
  ssh_pwauth : option bool;
  provisioning : option bool }.
Definition apply_to (p : CloudInitSpecPatch) (spec : CloudInitSpec.CloudInitSpec) (merge : VectorMerge)
    : CloudInitSpec.CloudInitSpec :=
  {| CloudInitSpec.user_data := match user_data p with Some v => Some v | None => CloudInitSpec.user_data spec end;
     CloudInitSpec.user_data_inline :=
       match user_data_inline p with Some v => Some v | None => CloudInitSpec.user_data_inline spec end;
     CloudInitSpec.network_config :=
       match network_config p with Some v => Some v | None => CloudInitSpec.network_config spec end;
     CloudInitSpec.ssh_keys := match ssh_keys p with
       | Some keys => merge_vector (CloudInitSpec.ssh_keys spec) keys merge
       | None => CloudInitSpec.ssh_keys spec end;
     CloudInitSpec.ssh_authorized_keys := match ssh_authorized_keys p with
       | Some keys => merge_vector (CloudInitSpec.ssh_authorized_keys spec) keys merge
       | None => CloudInitSpec.ssh_authorized_keys spec end;
     CloudInitSpec.password := match password p with Some v => Some v | None => CloudInitSpec.password spec end;
     CloudInitSpec.ssh_pwauth := from_option id (CloudInitSpec.ssh_pwauth spec) (ssh_pwauth p);
     CloudInitSpec.provisioning := from_option id (CloudInitSpec.provisioning spec) (provisioning p) |}.
End CloudInitSpecPatch.

Module VmmSpecPatch.
Section json.
Context (Json : Type).
Record VmmSpecPatch : Type := {
  binary : option string;
  firmware : option Firmware.Firmware;
  extra_args : option (list string);
  config_overlay : option Json }.
Definition default : VmmSpecPatch := {| binary := None; firmware := None; extra_args := None; config_overlay := None |}.
Definition apply_to (p : VmmSpecPatch) (spec : VmmSpec.VmmSpec Json) (merge : VectorMerge) : VmmSpec.VmmSpec Json :=
  {| VmmSpec.binary := match binary p with Some v => Some v | None => VmmSpec.binary spec end;
     VmmSpec.firmware := from_option id (VmmSpec.firmware spec) (firmware p);
     VmmSpec.extra_args := match extra_args p with
       | Some args => merge_vector (VmmSpec.extra_args spec) args merge
       | None => VmmSpec.extra_args spec end;
     VmmSpec.config_overlay :=
       match config_overlay p with Some v => Some v | None => VmmSpec.config_overlay spec end |}.
End json.
Arguments binary {Json}. Arguments firmware {Json}. Arguments extra_args {Json}. Arguments config_overlay {Json}.
Arguments Build_VmmSpecPatch {Json}. Arguments default {Json}. Arguments apply_to {Json}.
End VmmSpecPatch.

(** [serde_json::Value], as far as the overlay needs it. *)
Class OverlayJson (Json : Type) := {
  is_object : Json → bool;
  json_to_string : Json → result string string;
  json_from_str : string → result string Json }.
Definition validate_overlay `{OverlayJson Json} (overlay : Json) (key : string) : result FirestoneError () :=
  if is_object overlay then Ok ()
  else Err (with_hint (error_new InvalidSpec (key +:+ " must be a JSON object"))
             ("set " +:+ key +:+ " to a JSON object such as {}")).

Module MachineSpecPatch.
Section json.
Context (Json : Type).
Record MachineSpecPatch : Type := {
  clear : list SpecClear;
  image : option string;
  arch : option Arch.Arch;
  cpus : option Z;
  cpus_max : option Z;
  memory : option Z;
  memory_max : option Z;
  disk : option Z;
  user : option string;
  network : option NetworkSpecPatch.NetworkSpecPatch;
  mounts : option (list MountSpec.MountSpec);
  cloud_init : option CloudInitSpecPatch.CloudInitSpecPatch;
  vmm : option (VmmSpecPatch.VmmSpecPatch Json) }.
Definition default : MachineSpecPatch :=
  {| clear := []; image := None; arch := None; cpus := None; cpus_max := None; memory := None; memory_max := None;
     disk := None; user := None; network := None; mounts := None; cloud_init := None; vmm := None |}.

(** Whether the patch gives a value to what [c] would clear. *)
Definition sets (p : MachineSpecPatch) (c : SpecClear) : bool :=
  let net {A} (f : NetworkSpecPatch.NetworkSpecPatch → option A) := bool_decide (is_Some (network p ≫= f)) in
  let ci {A} (f : CloudInitSpecPatch.CloudInitSpecPatch → option A) := bool_decide (is_Some (cloud_init p ≫= f)) in
  let vm {A} (f : VmmSpecPatch.VmmSpecPatch Json → option A) := bool_decide (is_Some (vmm p ≫= f)) in
  match c with
  | ClearArch => bool_decide (is_Some (arch p))
  | ClearNetworkForward => net NetworkSpecPatch.forward
  | ClearNetworkTap => net NetworkSpecPatch.tap
  | ClearNetworkMac => net NetworkSpecPatch.mac
  | ClearMount => bool_decide (is_Some (mounts p))
  | ClearCloudInitUserData => ci CloudInitSpecPatch.user_data
  | ClearCloudInitUserDataInline => ci CloudInitSpecPatch.user_data_inline
  | ClearCloudInitSshAuthorizedKeys => ci CloudInitSpecPatch.ssh_authorized_keys
  | ClearCloudInitPassword => ci CloudInitSpecPatch.password
  | ClearCloudInitNetworkConfig => ci CloudInitSpecPatch.network_config
  | ClearCloudInitSshKeys => ci CloudInitSpecPatch.ssh_keys
  | ClearVmmBinary => vm VmmSpecPatch.binary
  | ClearVmmExtraArgs => vm VmmSpecPatch.extra_args
  | ClearVmmConfigOverlay => vm VmmSpecPatch.config_overlay
  | ClearCpusMax => bool_decide (is_Some (cpus_max p))
  | ClearMemoryMax => bool_decide (is_Some (memory_max p))
  end.

(** The loop of [validate]; [seen] is the set of paths met so far. *)
Fixpoint validate_clears (p : MachineSpecPatch) (seen clears : list SpecClear) : result FirestoneError () :=
  match clears with
  | [] => Ok ()
  | c :: clears =>
      if bool_decide (c ∈ seen)
      then Err (with_hint (error_new InvalidSpec
             ("clear path '" +:+ clear_as_str c +:+ "' appears more than once"))
             ("keep one '" +:+ clear_as_str c +:+ "' entry in clear"))
      else if sets p c
      then Err (with_hint (error_new InvalidSpec
             ("patch sets and clears '" +:+ clear_as_str c +:+ "' in the same layer"))
             ("remove '" +:+ clear_as_str c +:+ "' from clear or omit its value"))
      else validate_clears p (c :: seen) clears
  end.
Definition validate `{OverlayJson Json} (p : MachineSpecPatch) : result FirestoneError () :=
  match vmm p ≫= VmmSpecPatch.config_overlay with
  | Some overlay => validate_overlay overlay "vmm.config_overlay"
  | None => Ok ()
  end;;
  validate_clears p [] (clear p).

Definition apply_clear (spec : MachineSpec.MachineSpec Json) (c : SpecClear) : MachineSpec.MachineSpec Json :=
  let net f := MachineSpec.set_network (f (MachineSpec.network spec)) spec in
  let ci f := MachineSpec.set_cloud_init (f (MachineSpec.cloud_init spec)) spec in
  let vm f := MachineSpec.set_vmm (f (MachineSpec.vmm spec)) spec in
  match c with
  | ClearArch => MachineSpec.set_arch None spec
  | ClearNetworkForward => net (NetworkSpec.set_forward [])
  | ClearNetworkTap => net (NetworkSpec.set_tap None)
  | ClearNetworkMac => net (NetworkSpec.set_mac None)
  | ClearMount => MachineSpec.set_mounts [] spec
  | ClearCloudInitUserData => ci (CloudInitSpec.set_user_data None)
  | ClearCloudInitUserDataInline => ci (CloudInitSpec.set_user_data_inline None)
  | ClearCloudInitNetworkConfig => ci (CloudInitSpec.set_network_config None)
  | ClearCloudInitSshKeys => ci (CloudInitSpec.set_ssh_keys [])
  | ClearCloudInitSshAuthorizedKeys => ci (CloudInitSpec.set_ssh_authorized_keys [])
  | ClearCloudInitPassword => ci (CloudInitSpec.set_password None)
  | ClearVmmBinary => vm (VmmSpec.set_binary None)
  | ClearVmmExtraArgs => vm (VmmSpec.set_extra_args [])
  | ClearVmmConfigOverlay => vm (VmmSpec.set_config_overlay None)
  | ClearCpusMax => MachineSpec.set_cpus_max None spec
  | ClearMemoryMax => MachineSpec.set_memory_max None spec
  end.
Definition apply_clears (p : MachineSpecPatch) (spec : MachineSpec.MachineSpec Json) : MachineSpec.MachineSpec Json :=
  foldl apply_clear spec (clear p).

Definition apply_to_with_vectors `{OverlayJson Json} (p : MachineSpecPatch) (spec : MachineSpec.MachineSpec Json)
    (merge : VectorMerge) : result FirestoneError (MachineSpec.MachineSpec Json) :=
  validate p;;
  let spec := apply_clears p spec in
  Ok {| MachineSpec.image := from_option id (MachineSpec.image spec) (image p);
        MachineSpec.arch := match arch p with Some v => Some v | None => MachineSpec.arch spec end;
        MachineSpec.cpus := from_option id (MachineSpec.cpus spec) (cpus p);
        MachineSpec.cpus_max := match cpus_max p with Some v => Some v | None => MachineSpec.cpus_max spec end;
        MachineSpec.memory := from_option id (MachineSpec.memory spec) (memory p);
        MachineSpec.memory_max := match memory_max p with Some v => Some v | None => MachineSpec.memory_max spec end;
        MachineSpec.disk := from_option id (MachineSpec.disk spec) (disk p);
        MachineSpec.user := from_option id (MachineSpec.user spec) (user p);
        MachineSpec.network := match network p with
          | Some network => NetworkSpecPatch.apply_to network (MachineSpec.network spec) merge
          | None => MachineSpec.network spec end;
        MachineSpec.mounts := match mounts p with
          | Some mounts => merge_vector (MachineSpec.mounts spec) mounts merge
          | None => MachineSpec.mounts spec end;
        MachineSpec.cloud_init := match cloud_init p with
          | Some cloud_init => CloudInitSpecPatch.apply_to cloud_init (MachineSpec.cloud_init spec) merge
          | None => MachineSpec.cloud_init spec end;
        MachineSpec.vmm := match vmm p with
          | Some vmm => VmmSpecPatch.apply_to vmm (MachineSpec.vmm spec) merge
          | None => MachineSpec.vmm spec end |}.
Definition apply_to `{OverlayJson Json} (p : MachineSpecPatch) (spec : MachineSpec.MachineSpec Json)
    : result FirestoneError (MachineSpec.MachineSpec Json) :=
  apply_to_with_vectors p spec Append.

(** [impl From<&MachineSpec> for MachineSpecPatch]. *)
Definition from_spec (spec : MachineSpec.MachineSpec Json) : MachineSpecPatch :=
  let absent {A} (v : option A) (c : SpecClear) := match v with Some _ => [] | None => [c] end in
  let n := MachineSpec.network spec in
  let c := MachineSpec.cloud_init spec in
  let v := MachineSpec.vmm spec in
  {| clear := absent (MachineSpec.arch spec) ClearArch ++ absent (NetworkSpec.tap n) ClearNetworkTap
       ++ absent (NetworkSpec.mac n) ClearNetworkMac
       ++ absent (CloudInitSpec.user_data c) ClearCloudInitUserData
       ++ absent (CloudInitSpec.user_data_inline c) ClearCloudInitUserDataInline
       ++ absent (CloudInitSpec.network_config c) ClearCloudInitNetworkConfig
       ++ absent (CloudInitSpec.password c) ClearCloudInitPassword
       ++ absent (VmmSpec.binary v) ClearVmmBinary ++ absent (VmmSpec.config_overlay v) ClearVmmConfigOverlay
       ++ absent (MachineSpec.cpus_max spec) ClearCpusMax ++ absent (MachineSpec.memory_max spec) ClearMemoryMax;
     image := Some (MachineSpec.image spec); arch := MachineSpec.arch spec; cpus := Some (MachineSpec.cpus spec);
     cpus_max := MachineSpec.cpus_max spec; memory := Some (MachineSpec.memory spec);
     memory_max := MachineSpec.memory_max spec; disk := Some (MachineSpec.disk spec);
     user := Some (MachineSpec.user spec);
     network := Some {| NetworkSpecPatch.mode := Some (NetworkSpec.mode n);
       NetworkSpecPatch.forward := Some (NetworkSpec.forward n); NetworkSpecPatch.tap := NetworkSpec.tap n;
       NetworkSpecPatch.mac := NetworkSpec.mac n |};
     mounts := Some (MachineSpec.mounts spec);
     cloud_init := Some {| CloudInitSpecPatch.user_data := CloudInitSpec.user_data c;
       CloudInitSpecPatch.user_data_inline := CloudInitSpec.user_data_inline c;
       CloudInitSpecPatch.network_config := CloudInitSpec.network_config c;
       CloudInitSpecPatch.ssh_keys := Some (CloudInitSpec.ssh_keys c);
       CloudInitSpecPatch.ssh_authorized_keys := Some (CloudInitSpec.ssh_authorized_keys c);
       CloudInitSpecPatch.password := CloudInitSpec.password c;
       CloudInitSpecPatch.ssh_pwauth := Some (CloudInitSpec.ssh_pwauth c);
       CloudInitSpecPatch.provisioning := Some (CloudInitSpec.provisioning c) |};
     vmm := Some {| VmmSpecPatch.binary := VmmSpec.binary v; VmmSpecPatch.firmware := Some (VmmSpec.firmware v);
       VmmSpecPatch.extra_args := Some (VmmSpec.extra_args v);
       VmmSpecPatch.config_overlay := VmmSpec.config_overlay v |} |}.
End json.
Arguments clear {Json}. Arguments image {Json}. Arguments arch {Json}. Arguments cpus {Json}.
Arguments cpus_max {Json}. Arguments memory {Json}. Arguments memory_max {Json}. Arguments disk {Json}.
Arguments user {Json}. Arguments network {Json}. Arguments mounts {Json}. Arguments cloud_init {Json}.
Arguments vmm {Json}. Arguments Build_MachineSpecPatch {Json}. Arguments default {Json}. Arguments sets {Json}.
Arguments validate_clears {Json}. Arguments apply_clear {Json}. Arguments apply_clears {Json}. Arguments from_spec {Json}.
Arguments validate {Json _}. Arguments apply_to_with_vectors {Json _}. Arguments apply_to {Json _}.
End MachineSpecPatch.

(** ** Layers *)

Section layers.
Context `{OverlayJson Json}.

(** [MachineSpec::from_layers]. *)
Definition from_layers (global_defaults machine patch : MachineSpecPatch.MachineSpecPatch Json)
    : result FirestoneError (MachineSpec.MachineSpec Json) :=
  spec ← MachineSpecPatch.apply_to_with_vectors global_defaults MachineSpec.default Append;
  spec ← MachineSpecPatch.apply_to_with_vectors machine spec Replace;
  MachineSpecPatch.apply_to_with_vectors patch spec Append.
Definition to_persisted_patch : MachineSpec.MachineSpec Json → MachineSpecPatch.MachineSpecPatch Json :=
  MachineSpecPatch.from_spec.
End layers.

(** ** The command line's field inventory *)

Module FieldMetadata.
Inductive PatchMerge : Set := MergeReplace | MergeAppend.
Record SpecFieldMetadata : Set := {
  key : string; long : string; short : option ascii; merge : PatchMerge; composite : bool }.
Definition field (key long : string) (short : option ascii) (merge : PatchMerge) (composite : bool) : SpecFieldMetadata :=
  {| key := key; long := long; short := short; merge := merge; composite := composite |}.
Definition SPEC_FIELD_METADATA : list SpecFieldMetadata := [
  field "image" "image" None MergeReplace false;
  field "arch" "arch" None MergeReplace false;
  field "cpus" "cpus" None MergeReplace false;
  field "cpus_max" "cpus-max" None MergeReplace false;
  field "memory" "memory" None MergeReplace false;
  field "memory_max" "memory-max" None MergeReplace false;
  field "disk" "disk" None MergeReplace false;
  field "user" "user" None MergeReplace false;
  field "network.mode" "net" None MergeReplace false;
  field "network.forward" "forward" (Some "p"%char) MergeAppend false;
  field "network.tap" "tap" None MergeReplace false;
  field "network.mac" "network-mac" None MergeReplace false;
  field "mount" "mount" None MergeAppend true;
  field "cloud_init.user_data" "user-data" None MergeReplace false;
  field "cloud_init.user_data_inline" "user-data-inline" None MergeReplace false;
  field "cloud_init.network_config" "cloud-init-network-config" None MergeReplace false;
  field "cloud_init.ssh_keys" "ssh-key" None MergeAppend false;
  field "cloud_init.ssh_authorized_keys" "ssh-authorized-key" None MergeAppend false;
  field "cloud_init.password" "password-file" None MergeReplace false;
  field "cloud_init.ssh_pwauth" "ssh-pwauth" None MergeReplace false;
  field "cloud_init.provisioning" "no-provisioning" None MergeReplace false;
  field "vmm.binary" "vmm-binary" None MergeReplace false;
  field "vmm.firmware" "vmm-firmware" None MergeReplace false;
  field "vmm.extra_args" "vmm-arg" None MergeAppend false;
  field "vmm.config_overlay" "vmm-config" None MergeReplace false].
End FieldMetadata.

(** ** What a layer does to each field

    A field that the layer sets takes the layer's value (a vector is appended to or replaced);
    a field that it clears is absent or empty; every other field stays. *)
Definition or_clear {A} (cleared : bool) (new old : option A) : option A :=
  match new with Some v => Some v | None => if cleared then None else old end.
Definition or_clear_vector {A} (merge : VectorMerge) (cleared : bool) (new : option (list A)) (old : list A) : list A :=
  match new, merge with
  | Some vs, Append => old ++ vs
  | Some vs, Replace => vs
  | None, _ => if cleared then [] else old
  end.

Section layer.
Context {Json : Type}.
Local Abbreviation Patch := (MachineSpecPatch.MachineSpecPatch Json).
Local Abbreviation Spec := (MachineSpec.MachineSpec Json).

Definition patch_network {A} (p : Patch) (f : NetworkSpecPatch.NetworkSpecPatch → option A) : option A :=
  MachineSpecPatch.network p ≫= f.
Definition patch_cloud_init {A} (p : Patch) (f : CloudInitSpecPatch.CloudInitSpecPatch → option A) : option A :=
  MachineSpecPatch.cloud_init p ≫= f.
Definition patch_vmm {A} (p : Patch) (f : VmmSpecPatch.VmmSpecPatch Json → option A) : option A :=
  MachineSpecPatch.vmm p ≫= f.
Definition clears (p : Patch) (c : SpecClear) : bool := bool_decide (c ∈ MachineSpecPatch.clear p).

Definition layered (p : Patch) (m : VectorMerge) (s : Spec) : Spec :=
  let n := MachineSpec.network s in
  let i := MachineSpec.cloud_init s in
  let v := MachineSpec.vmm s in
  {| MachineSpec.image := from_option id (MachineSpec.image s) (MachineSpecPatch.image p);
     MachineSpec.arch := or_clear (clears p ClearArch) (MachineSpecPatch.arch p) (MachineSpec.arch s);
     MachineSpec.cpus := from_option id (MachineSpec.cpus s) (MachineSpecPatch.cpus p);
     MachineSpec.cpus_max := or_clear (clears p ClearCpusMax) (MachineSpecPatch.cpus_max p) (MachineSpec.cpus_max s);
     MachineSpec.memory := from_option id (MachineSpec.memory s) (MachineSpecPatch.memory p);
     MachineSpec.memory_max :=
       or_clear (clears p ClearMemoryMax) (MachineSpecPatch.memory_max p) (MachineSpec.memory_max s);
     MachineSpec.disk := from_option id (MachineSpec.disk s) (MachineSpecPatch.disk p);
     MachineSpec.user := from_option id (MachineSpec.user s) (MachineSpecPatch.user p);
     MachineSpec.network :=
       {| NetworkSpec.mode := from_option id (NetworkSpec.mode n) (patch_network p NetworkSpecPatch.mode);
          NetworkSpec.forward := or_clear_vector m (clears p ClearNetworkForward)
            (patch_network p NetworkSpecPatch.forward) (NetworkSpec.forward n);
          NetworkSpec.tap := or_clear (clears p ClearNetworkTap) (patch_network p NetworkSpecPatch.tap) (NetworkSpec.tap n);
          NetworkSpec.mac := or_clear (clears p ClearNetworkMac) (patch_network p NetworkSpecPatch.mac) (NetworkSpec.mac n) |};
     MachineSpec.mounts := or_clear_vector m (clears p ClearMount) (MachineSpecPatch.mounts p) (MachineSpec.mounts s);
     MachineSpec.cloud_init :=
       {| CloudInitSpec.user_data := or_clear (clears p ClearCloudInitUserData)
            (patch_cloud_init p CloudInitSpecPatch.user_data) (CloudInitSpec.user_data i);
          CloudInitSpec.user_data_inline := or_clear (clears p ClearCloudInitUserDataInline)
            (patch_cloud_init p CloudInitSpecPatch.user_data_inline) (CloudInitSpec.user_data_inline i);
          CloudInitSpec.network_config := or_clear (clears p ClearCloudInitNetworkConfig)
            (patch_cloud_init p CloudInitSpecPatch.network_config) (CloudInitSpec.network_config i);
          CloudInitSpec.ssh_keys := or_clear_vector m (clears p ClearCloudInitSshKeys)
            (patch_cloud_init p CloudInitSpecPatch.ssh_keys) (CloudInitSpec.ssh_keys i);
          CloudInitSpec.ssh_authorized_keys := or_clear_vector m (clears p ClearCloudInitSshAuthorizedKeys)
            (patch_cloud_init p CloudInitSpecPatch.ssh_authorized_keys) (CloudInitSpec.ssh_authorized_keys i);
          CloudInitSpec.password := or_clear (clears p ClearCloudInitPassword)
            (patch_cloud_init p CloudInitSpecPatch.password) (CloudInitSpec.password i);
          CloudInitSpec.ssh_pwauth :=
            from_option id (CloudInitSpec.ssh_pwauth i) (patch_cloud_init p CloudInitSpecPatch.ssh_pwauth);
          CloudInitSpec.provisioning :=
            from_option id (CloudInitSpec.provisioning i) (patch_cloud_init p CloudInitSpecPatch.provisioning) |};
     MachineSpec.vmm :=
       {| VmmSpec.binary := or_clear (clears p ClearVmmBinary) (patch_vmm p VmmSpecPatch.binary) (VmmSpec.binary v);
          VmmSpec.firmware := from_option id (VmmSpec.firmware v) (patch_vmm p VmmSpecPatch.firmware);
          VmmSpec.extra_args := or_clear_vector m (clears p ClearVmmExtraArgs)
            (patch_vmm p VmmSpecPatch.extra_args) (VmmSpec.extra_args v);
          VmmSpec.config_overlay := or_clear (clears p ClearVmmConfigOverlay)
            (patch_vmm p VmmSpecPatch.config_overlay) (VmmSpec.config_overlay v) |} |}.

(** What only the clears do. *)
Definition emptied {A} (b : bool) (old : list A) : list A := if b then [] else old.
Definition unset {A} (b : bool) (old : option A) : option A := if b then None else old.
Definition cleared_with (f : SpecClear → bool) (s : Spec) : Spec :=
  let n := MachineSpec.network s in
  let i := MachineSpec.cloud_init s in
  let v := MachineSpec.vmm s in
  {| MachineSpec.image := MachineSpec.image s; MachineSpec.arch := unset (f ClearArch) (MachineSpec.arch s);
     MachineSpec.cpus := MachineSpec.cpus s; MachineSpec.cpus_max := unset (f ClearCpusMax) (MachineSpec.cpus_max s);
     MachineSpec.memory := MachineSpec.memory s;
     MachineSpec.memory_max := unset (f ClearMemoryMax) (MachineSpec.memory_max s);
     MachineSpec.disk := MachineSpec.disk s; MachineSpec.user := MachineSpec.user s;
     MachineSpec.network :=
       {| NetworkSpec.mode := NetworkSpec.mode n;
          NetworkSpec.forward := emptied (f ClearNetworkForward) (NetworkSpec.forward n);
          NetworkSpec.tap := unset (f ClearNetworkTap) (NetworkSpec.tap n);
          NetworkSpec.mac := unset (f ClearNetworkMac) (NetworkSpec.mac n) |};
     MachineSpec.mounts := emptied (f ClearMount) (MachineSpec.mounts s);
     MachineSpec.cloud_init :=
       {| CloudInitSpec.user_data := unset (f ClearCloudInitUserData) (CloudInitSpec.user_data i);
          CloudInitSpec.user_data_inline := unset (f ClearCloudInitUserDataInline) (CloudInitSpec.user_data_inline i);
          CloudInitSpec.network_config := unset (f ClearCloudInitNetworkConfig) (CloudInitSpec.network_config i);
          CloudInitSpec.ssh_keys := emptied (f ClearCloudInitSshKeys) (CloudInitSpec.ssh_keys i);
          CloudInitSpec.ssh_authorized_keys :=
            emptied (f ClearCloudInitSshAuthorizedKeys) (CloudInitSpec.ssh_authorized_keys i);
          CloudInitSpec.password := unset (f ClearCloudInitPassword) (CloudInitSpec.password i);
          CloudInitSpec.ssh_pwauth := CloudInitSpec.ssh_pwauth i;
          CloudInitSpec.provisioning := CloudInitSpec.provisioning i |};
     MachineSpec.vmm :=
       {| VmmSpec.binary := unset (f ClearVmmBinary) (VmmSpec.binary v); VmmSpec.firmware := VmmSpec.firmware v;
          VmmSpec.extra_args := emptied (f ClearVmmExtraArgs) (VmmSpec.extra_args v);
          VmmSpec.config_overlay := unset (f ClearVmmConfigOverlay) (VmmSpec.config_overlay v) |} |}.

Lemma cleared_with_ext f g (s : Spec) : (∀ c, f c = g c) → cleared_with f s = cleared_with g s.
Proof using Type. intros E. unfold cleared_with. by rewrite !E. Qed.
Lemma cleared_with_none (s : Spec) : cleared_with (λ _, false) s = s.
Proof using Type. by destruct s as [??????? ? [] ? [] []]. Qed.
Lemma apply_clear_cleared f (s : Spec) c :
  MachineSpecPatch.apply_clear (cleared_with f s) c = cleared_with (λ c', f c' || bool_decide (c = c')) s.
Proof using Type.
  unfold cleared_with. destruct c; cbn; rewrite ?orb_false_r, ?orb_true_r; reflexivity.
Qed.
Lemma fold_clears f (s : Spec) l :
  foldl MachineSpecPatch.apply_clear (cleared_with f s) l = cleared_with (λ c, f c || bool_decide (c ∈ l)) s.
Proof using Type.
  revert f. induction l as [|c l IH]; intros f; cbn [foldl].
  - apply cleared_with_ext. intros c. by rewrite orb_false_r.
  - rewrite apply_clear_cleared, IH. apply cleared_with_ext. intros c'. rewrite <- orb_assoc. f_equal.
    apply eq_bool_prop_intro. rewrite orb_True, !bool_decide_spec, elem_of_cons. naive_solver.
Qed.
Lemma apply_clears_cleared (p : Patch) s : MachineSpecPatch.apply_clears p s = cleared_with (clears p) s.
Proof using Type.
  unfold MachineSpecPatch.apply_clears. rewrite <- (cleared_with_none s) at 1. by rewrite fold_clears.
Qed.
End layer.

Section validity.
Context `{OverlayJson Json}.
Local Abbreviation Patch := (MachineSpecPatch.MachineSpecPatch Json).
Local Abbreviation Spec := (MachineSpec.MachineSpec Json).

(** A layer that can be applied: no path is cleared twice, or set and cleared, and the overlay
    is an object. *)
Record patch_ok (p : Patch) : Prop := {
  ok_overlay : ∀ o, patch_vmm p VmmSpecPatch.config_overlay = Some o → is_object o = true;
  ok_distinct : NoDup (MachineSpecPatch.clear p);
  ok_disjoint : ∀ c, c ∈ MachineSpecPatch.clear p → MachineSpecPatch.sets p c = false }.

Lemma validate_clears_ok (p : Patch) seen l :
  MachineSpecPatch.validate_clears p seen l = Ok () ↔
  NoDup l ∧ (∀ c, c ∈ l → c ∉ seen) ∧ ∀ c, c ∈ l → MachineSpecPatch.sets p c = false.
Proof using Type.
  revert seen. induction l as [|c l IH]; intros seen; cbn [MachineSpecPatch.validate_clears].
  - split; [intros _; repeat split; [constructor|set_solver..]|done].
  - case_bool_decide as Hs; [split; [done|]; intros (_ & Hn & _); destruct (Hn c); set_solver|].
    destruct (MachineSpecPatch.sets p c) eqn:Hset.
    + split; [done|]. intros (_ & _ & Hf). rewrite (Hf c) in Hset; [done|set_solver].
    + rewrite IH, NoDup_cons. setoid_rewrite elem_of_cons. split.
      * intros (Hd & Hn & Hf). repeat split; [intros Hc; by apply (Hn c Hc); left|done|naive_solver..].
      * intros ([Hc Hd] & Hn & Hf). repeat split; naive_solver.
Qed.
Lemma validate_ok (p : Patch) : MachineSpecPatch.validate p = Ok () ↔ patch_ok p.
Proof using Type.
  unfold MachineSpecPatch.validate. split.
  - intros Hv. apply bind_Ok in Hv as ([] & Ho & (Hd & _ & Hf)%validate_clears_ok). split; [|done..].
    intros o E. unfold patch_vmm in E. rewrite E in Ho. unfold validate_overlay in Ho. by destruct (is_object o).
  - intros [Ho Hd Hf]. apply bind_Ok. exists (). split; [|apply validate_clears_ok; set_solver].
    unfold patch_vmm in Ho. destruct (MachineSpecPatch.vmm p ≫= _) as [o|]; [|done].
    unfold validate_overlay. by rewrite Ho.
Qed.

(** A cleared path is not set. *)
Lemma cleared_not_set (p : Patch) c : patch_ok p → clears p c = true → MachineSpecPatch.sets p c = false.
Proof using Type. unfold clears. intros Hp Hc%bool_decide_eq_true. by apply (ok_disjoint p). Qed.
Lemma vector_cleared {A} m (b set : bool) (new : option (list A)) old :
  (b = true → set = false) → set = bool_decide (is_Some new) →
  match new with Some vs => merge_vector (emptied b old) vs m | None => emptied b old end
  = or_clear_vector m b new old.
Proof using Type.
  intros Hb ->. destruct new as [vs|]; [|done]. unfold or_clear_vector, emptied. destruct b; [|by destruct m].
  by specialize (Hb eq_refl).
Qed.

Lemma apply_layered (p : Patch) m s :
  MachineSpecPatch.apply_to_with_vectors p s m =
    match MachineSpecPatch.validate p with Ok _ => Ok (layered p m s) | Err e => Err e end.
Proof using Type.
  unfold MachineSpecPatch.apply_to_with_vectors. destruct (MachineSpecPatch.validate p) as [[]|e] eqn:Hv; [|done].
  apply validate_ok in Hv. cbn [mbind result_bind]. rewrite apply_clears_cleared. f_equal.
  pose proof (λ c, cleared_not_set p c Hv) as Hc. unfold layered, cleared_with. cbn [MachineSpec.network
    MachineSpec.mounts MachineSpec.cloud_init MachineSpec.vmm MachineSpec.image MachineSpec.arch MachineSpec.cpus
    MachineSpec.cpus_max MachineSpec.memory MachineSpec.memory_max MachineSpec.disk MachineSpec.user].
  f_equal.
  - pose proof (Hc ClearNetworkForward) as Hf. unfold patch_network, MachineSpecPatch.sets in *.
    destruct (MachineSpecPatch.network p) as [n|]; [|done]. unfold NetworkSpecPatch.apply_to. cbn in *. f_equal.
    by eapply vector_cleared.
  - pose proof (Hc ClearMount) as Hf. by eapply vector_cleared.
  - pose proof (Hc ClearCloudInitSshKeys) as Hk. pose proof (Hc ClearCloudInitSshAuthorizedKeys) as Ha.
    unfold patch_cloud_init, MachineSpecPatch.sets in *. destruct (MachineSpecPatch.cloud_init p) as [i|]; [|done].
    unfold CloudInitSpecPatch.apply_to. cbn in *. f_equal; by eapply vector_cleared.
  - pose proof (Hc ClearVmmExtraArgs) as Ha. unfold patch_vmm, MachineSpecPatch.sets in *.
    destruct (MachineSpecPatch.vmm p) as [v|]; [|done]. unfold VmmSpecPatch.apply_to. cbn in *. f_equal.
    by eapply vector_cleared.
Qed.

(** *** The persisted layer *)

Definition optional_paths : list SpecClear :=
  [ClearArch; ClearNetworkTap; ClearNetworkMac; ClearCloudInitUserData; ClearCloudInitUserDataInline;
   ClearCloudInitNetworkConfig; ClearCloudInitPassword; ClearVmmBinary; ClearVmmConfigOverlay; ClearCpusMax;
   ClearMemoryMax].
Lemma absent_filter {A} (P : SpecClear → Prop) `{∀ c, Decision (P c)} (v : option A) c l l' :
  (P c ↔ v = None) → l = filter P l' →
  match v with Some _ => [] | None => [c] end ++ l = filter P (c :: l').
Proof using Type.
  intros Hv ->. rewrite filter_cons. destruct v; case_decide as Hp; naive_solver.
Qed.
Lemma sets_false {A} (v : option A) : bool_decide (is_Some v) = false ↔ v = None.
Proof using Type. rewrite bool_decide_eq_false. by rewrite eq_None_not_Some. Qed.
Lemma persisted_clears (s : Spec) :
  MachineSpecPatch.clear (to_persisted_patch s)
  = filter (λ c, MachineSpecPatch.sets (to_persisted_patch s) c = false) optional_paths.
Proof using Type.
  unfold to_persisted_patch at 1, MachineSpecPatch.from_spec. cbn [MachineSpecPatch.clear]. unfold optional_paths.
  do 10 (apply absent_filter; [cbn; apply sets_false|]).
  rewrite <- (app_nil_r (match MachineSpec.memory_max s with Some _ => _ | None => _ end)).
  by apply absent_filter; [cbn; apply sets_false|].
Qed.
Definition overlay_object (s : Spec) : Prop :=
  ∀ o, VmmSpec.config_overlay (MachineSpec.vmm s) = Some o → is_object o = true.
Lemma persisted_ok (s : Spec) : overlay_object s → patch_ok (to_persisted_patch s).
Proof using Type.
  intros Ho. split; [exact Ho| |]; rewrite persisted_clears.
  - apply NoDup_filter. by apply (bool_decide_unpack _).
  - intros c [Hc _]%list_elem_of_filter. done.
Qed.
Lemma persisted_clears_in (s : Spec) c :
  c ∈ optional_paths → MachineSpecPatch.sets (to_persisted_patch s) c = false → clears (to_persisted_patch s) c = true.
Proof using Type. intros Hc Hs. apply bool_decide_eq_true. rewrite persisted_clears. by apply list_elem_of_filter. Qed.
Lemma persisted_field {A} (s : Spec) c (v old : option A) :
  bool_decide (c ∈ optional_paths) = true →
  MachineSpecPatch.sets (to_persisted_patch s) c = bool_decide (is_Some v) →
  or_clear (clears (to_persisted_patch s) c) v old = v.
Proof using Type.
  intros Hc%bool_decide_eq_true Hs. destruct v; [done|]. cbn. by rewrite persisted_clears_in.
Qed.
(** The persisted layer determines the whole specification. *)
Lemma layered_persisted (s s0 : Spec) : layered (to_persisted_patch s) Replace s0 = s.
Proof using Type.
  unfold layered. rewrite !persisted_field by reflexivity. by destruct s as [??????? ? [] ? [] []].
Qed.

(** The empty layer. *)
Lemma layered_default m (s : Spec) : layered MachineSpecPatch.default m s = s.
Proof using Type. by destruct s as [??????? ? [] ? [] []]. Qed.

(** Every overlay a layer leaves is an object. *)
Lemma layered_overlay (p : Patch) m s : patch_ok p → overlay_object s → overlay_object (layered p m s).
Proof using Type.
  intros Hp Hs o. unfold layered. cbn. unfold or_clear.
  destruct (patch_vmm p VmmSpecPatch.config_overlay) as [v|] eqn:E; [intros [= <-]; by apply (ok_overlay p)|].
  destruct (clears p ClearVmmConfigOverlay); [done|]. apply Hs.
Qed.
End validity.

(** ** Properties *)

(** C27: layers combine field by field, in their order: a specification comes out of the defaults,
    the machine file and the patch exactly when each of the three is a layer that clears no path
    twice, sets nothing it clears and carries only an object as overlay, and it then has in every
    field what the last layer that sets or clears the field says, vectors being appended to by the
    defaults and the patch and replaced by the machine file. *)
Theorem layers_fieldwise `{OverlayJson Json} (g m p : MachineSpecPatch.MachineSpecPatch Json) s :
  from_layers g m p = Ok s ↔
  patch_ok g ∧ patch_ok m ∧ patch_ok p
  ∧ s = layered p Append (layered m Replace (layered g Append MachineSpec.default)).
Proof.
  unfold from_layers. rewrite apply_layered, <- !validate_ok.
  destruct (MachineSpecPatch.validate g) as [[]|e]; cbn [mbind result_bind]; [|naive_solver].
  rewrite apply_layered. destruct (MachineSpecPatch.validate m) as [[]|e]; cbn [mbind result_bind]; [|naive_solver].
  rewrite apply_layered. destruct (MachineSpecPatch.validate p) as [[]|e]; naive_solver.
Qed.

(** a persisted specification is lossless: the machine layer written for a specification,
    loaded over any global defaults that can be applied and under any patch, gives what the patch
    makes of that very specification. *)
Theorem persisted_spec_reloads `{OverlayJson Json} (s : MachineSpec.MachineSpec Json) g p :
  overlay_object s → patch_ok g →
  from_layers g (to_persisted_patch s) p = MachineSpecPatch.apply_to p s.
Proof.
  intros Ho Hg. unfold from_layers. rewrite apply_layered, (proj2 (validate_ok g) Hg). cbn [mbind result_bind].
  rewrite apply_layered, (proj2 (validate_ok _) (persisted_ok s Ho)). cbn [mbind result_bind].
  by rewrite layered_persisted.
Qed.

(** ** A concrete instance *)

#[export] Instance bool_json : OverlayJson bool := {|
  is_object := id; json_to_string _ := Ok "{}"; json_from_str _ := Ok true |}.
(** Defaults with vectors and options of their own, all overridden by the persisted layer. *)
Definition demo_defaults : MachineSpecPatch.MachineSpecPatch bool :=
  {| MachineSpecPatch.clear := [ClearMount]; MachineSpecPatch.image := Some "fedora"; MachineSpecPatch.arch := None;
     MachineSpecPatch.cpus := Some 8; MachineSpecPatch.cpus_max := Some 16; MachineSpecPatch.memory := None;
     MachineSpecPatch.memory_max := None; MachineSpecPatch.disk := None; MachineSpecPatch.user := None;
     MachineSpecPatch.network := None; MachineSpecPatch.mounts := None;
     MachineSpecPatch.cloud_init := None;
     MachineSpecPatch.vmm := Some {| VmmSpecPatch.binary := Some "/opt/ch"; VmmSpecPatch.firmware := None;
       VmmSpecPatch.extra_args := Some ["-v"]; VmmSpecPatch.config_overlay := Some true |} |}.
Lemma persisted_spec_reloads_witness :
  from_layers demo_defaults (to_persisted_patch MachineSpec.default) MachineSpecPatch.default
  = Ok MachineSpec.default.
Proof.
  rewrite (persisted_spec_reloads (MachineSpec.default (Json := bool)) demo_defaults MachineSpecPatch.default).
  - reflexivity.
  - intros o. discriminate.
  - apply validate_ok. reflexivity.
Defined.
