(* ===== verification/Edit.v ===== *)
(** Edit distance: the two dynamic programs the sources use for spelling suggestions
    ([edit_distance] in firestone-core/src/spec.rs, [levenshtein] in firestone-core/src/catalog.rs)
    and the shortest edit script they both compute. *)
From S2P Require Import Prelude RustStr Utf8 Chars.
Open Scope nat_scope.

(** ** The programs

    A row of the table is filled from the row before it; [cell] combines the entry on the
    diagonal, the one to the left and the one above. *)
Definition Cell : Set := bool → nat → nat → nat → nat.
Fixpoint fill (cell : Cell) (c : Z) (rs : list Z) (previous : list nat) (left_entry : nat) : list nat :=
  match rs, previous with
  | r :: rs, diagonal :: ((above :: _) as previous) =>
      let entry := cell (c =? r)%Z diagonal left_entry above in
      entry :: fill cell c rs previous entry
  | _, _ => []
  end.
Fixpoint rows (cell : Cell) (left_index : nat) (ls rs : list Z) (previous : list nat) : list nat :=
  match ls with
  | [] => previous
  | c :: ls => rows cell (S left_index) ls rs (S left_index :: fill cell c rs previous (S left_index))
  end.
Definition table (cell : Cell) (ls rs : list Z) : nat :=
  default 0 (rows cell 0 ls rs (seq 0 (S (length rs))) !! length rs).

(** [edit_distance]. *)
Definition edit_distance (ls rs : string) : nat :=
  table (λ same diagonal ls above, if same then diagonal else 1 + Nat.min (Nat.min diagonal ls) above)
    (chars ls) (chars rs).
(** [levenshtein]. *)
Definition levenshtein (ls rs : string) : nat :=
  table (λ same diagonal ls above,
      Nat.min (Nat.min (diagonal + (if same then 0 else 1)) (ls + 1)) (above + 1))
    (chars ls) (chars rs).

(** ** Edit scripts *)

Inductive Edits : list Z → list Z → nat → Prop :=
  | edits_done : Edits [] [] 0
  | edits_keep c s t n : Edits s t n → Edits (c :: s) (c :: t) n
  | edits_replace c d s t n : Edits s t n → Edits (c :: s) (d :: t) (S n)
  | edits_delete c s t n : Edits s t n → Edits (c :: s) t (S n)
  | edits_insert d s t n : Edits s t n → Edits s (d :: t) (S n).
(** [n] is the length of a shortest script. *)
Definition distance (s t : list Z) (n : nat) : Prop := Edits s t n ∧ ∀ m, Edits s t m → n ≤ m.

(** ** The recursive definition *)

Fixpoint lev (s : list Z) : list Z → nat :=
  match s with
  | [] => length
  | c :: s' =>
      fix go (t : list Z) : nat :=
        match t with
        | [] => S (length s')
        | d :: t' => if (c =? d)%Z then lev s' t' else S (Nat.min (Nat.min (lev s' t') (go t')) (lev s' t))
        end
  end.
Lemma lev_nil_r s : lev s [] = length s.
Proof. by destruct s. Qed.
Lemma lev_cons c s d t :
  lev (c :: s) (d :: t) =
    if (c =? d)%Z then lev s t else S (Nat.min (Nat.min (lev s t) (lev (c :: s) t)) (lev s (d :: t))).
Proof. done. Qed.

(** One character more changes the distance by at most one. *)
Lemma lev_step s t :
  (∀ c, lev s t ≤ S (lev (c :: s) t) ∧ lev (c :: s) t ≤ S (lev s t))
  ∧ (∀ d, lev s t ≤ S (lev s (d :: t)) ∧ lev s (d :: t) ≤ S (lev s t)).
Proof.
  remember (length s + length t) as n eqn:Hn. revert s t Hn.
  induction n as [n IH] using lt_wf_ind. intros s t ->.
  assert (Hc : ∀ c, lev s t ≤ S (lev (c :: s) t) ∧ lev (c :: s) t ≤ S (lev s t)).
  { intros c. destruct t as [|d t]; [rewrite !lev_nil_r; cbn; lia|]. rewrite lev_cons.
    destruct (IH (length s + length t)) with (s := s) (t := t) as [H1 H2]; [cbn; lia|done|].
    specialize (H1 c). specialize (H2 d). destruct (c =? d)%Z; lia. }
  split; [exact Hc|]. intros d. destruct s as [|c s]; [cbn; lia|]. rewrite lev_cons.
  destruct (IH (length s + length t)) with (s := s) (t := t) as [H1 H2]; [cbn; lia|done|].
  specialize (H1 c). specialize (H2 d). destruct (c =? d)%Z; lia.
Qed.
(** Equal characters may be kept, but no script is worse off for not doing so. *)
Lemma lev_min c s d t :
  lev (c :: s) (d :: t) =
    Nat.min (Nat.min (lev s t + (if (c =? d)%Z then 0 else 1)) (lev (c :: s) t + 1)) (lev s (d :: t) + 1).
Proof.
  rewrite lev_cons. destruct (lev_step s t) as [H1 H2]. specialize (H1 c). specialize (H2 d).
  destruct (c =? d)%Z; lia.
Qed.

Lemma edits_lev s t : Edits s t (lev s t).
Proof.
  revert t. induction s as [|c s IH]; intros t.
  - induction t as [|d t IHt]; [constructor|]. by apply edits_insert.
  - induction t as [|d t IHt]; [specialize (IH []); rewrite lev_nil_r in *; by apply edits_delete|].
    rewrite lev_cons. destruct (Z.eqb_spec c d) as [->|Hn]; [by apply edits_keep|].
    destruct (Nat.min_spec (Nat.min (lev s t) (lev (c :: s) t)) (lev s (d :: t))) as [[_ ->]|[_ ->]].
    + destruct (Nat.min_spec (lev s t) (lev (c :: s) t)) as [[_ ->]|[_ ->]];
        [by apply edits_replace|by apply edits_insert].
    + by apply edits_delete.
Qed.
Lemma lev_least s t n : Edits s t n → lev s t ≤ n.
Proof.
  induction 1 as [|c s t n _ IH|c d s t n _ IH|c s t n _ IH|d s t n _ IH]; [done|..].
  - rewrite lev_cons, Z.eqb_refl. done.
  - rewrite lev_min. destruct (c =? d)%Z; lia.
  - destruct (lev_step s t) as [H1 _]. specialize (H1 c). lia.
  - destruct (lev_step s t) as [_ H2]. specialize (H2 d). lia.
Qed.
Lemma lev_distance s t : distance s t (lev s t).
Proof. split; [apply edits_lev|apply lev_least]. Qed.
Lemma distance_unique s t n m : distance s t n → distance s t m → n = m.
Proof. intros [He Hl] [He' Hl']. apply Nat.le_antisymm; auto. Qed.

(** Scripts read the same from the end. *)
Lemma edits_app s t n s' t' m : Edits s t n → Edits s' t' m → Edits (s ++ s') (t ++ t') (n + m).
Proof. intros H Hs. induction H; cbn; [done|by constructor..]. Qed.
Lemma edits_rev s t n : Edits s t n → Edits (rev s) (rev t) n.
Proof.
  induction 1 as [|c s t n _ IH|c d s t n _ IH|c s t n _ IH|d s t n _ IH]; cbn [rev]; [constructor|..].
  - rewrite <- (Nat.add_0_r n). apply edits_app; [done|by repeat constructor].
  - rewrite <- Nat.add_1_r. apply edits_app; [done|by repeat constructor].
  - rewrite <- (app_nil_r (rev t)), <- Nat.add_1_r. apply edits_app; [done|by repeat constructor].
  - rewrite <- (app_nil_r (rev s)), <- Nat.add_1_r. apply edits_app; [done|by repeat constructor].
Qed.
Lemma distance_rev s t n : distance (rev s) (rev t) n → distance s t n.
Proof.
  intros [He Hl]. split.
  - apply edits_rev in He. by rewrite !rev_involutive in He.
  - intros m Hm. by apply Hl, edits_rev.
Qed.

(** ** The table *)

(** The row of the table for the reversed prefix [P], from the column of the reversed prefix [Q]. *)
Fixpoint row (P Q rs : list Z) : list nat :=
  lev P Q :: match rs with [] => [] | r :: rs => row P (r :: Q) rs end.
Definition fills (cell : Cell) : Prop :=
  ∀ c P d Q, cell (c =? d)%Z (lev P Q) (lev (c :: P) Q) (lev P (d :: Q)) = lev (c :: P) (d :: Q).

Lemma row_head P Q rs : row P Q rs = lev P Q :: tail (row P Q rs).
Proof. by destruct rs. Qed.
Lemma fill_row cell c P Q rs :
  fills cell → fill cell c rs (row P Q rs) (lev (c :: P) Q) = tail (row (c :: P) Q rs).
Proof.
  intros Hcell. revert Q. induction rs as [|r rs IH]; intros Q; [done|].
  change (row P Q (r :: rs)) with (lev P Q :: row P (r :: Q) rs).
  change (tail (row (c :: P) Q (r :: rs))) with (row (c :: P) (r :: Q) rs).
  rewrite (row_head P (r :: Q) rs). cbn [fill]. rewrite Hcell, <- row_head, (row_head (c :: P) (r :: Q) rs).
  f_equal. apply IH.
Qed.
Lemma rows_row cell ls rs P :
  fills cell → rows cell (length P) ls rs (row P [] rs) = row (rev ls ++ P) [] rs.
Proof.
  intros Hcell. revert P. induction ls as [|c ls IH]; intros P; [done|]. cbn [rows rev].
  change (S (length P)) with (lev (c :: P) []). rewrite fill_row by done.
  rewrite <- row_head. rewrite <- app_assoc. apply (IH (c :: P)).
Qed.
Lemma first_row Q rs : row [] Q rs = seq (length Q) (S (length rs)).
Proof. revert Q. induction rs as [|r rs IH]; intros Q; [done|]. cbn [row]. by rewrite IH. Qed.
Lemma row_last P Q rs : row P Q rs !! length rs = Some (lev P (rev rs ++ Q)).
Proof.
  revert Q. induction rs as [|r rs IH]; intros Q; [done|]. cbn [row length rev].
  by rewrite <- app_assoc, <- IH.
Qed.
Lemma table_lev cell ls rs : fills cell → table cell ls rs = lev (rev ls) (rev rs).
Proof.
  intros Hcell. unfold table. pose proof (first_row [] rs) as Hfirst. cbn [length] in Hfirst. rewrite <- Hfirst.
  pose proof (rows_row cell ls rs [] Hcell) as Hrows. cbn [length] in Hrows. rewrite Hrows.
  by rewrite row_last, !app_nil_r.
Qed.
Lemma table_distance cell ls rs : fills cell → distance ls rs (table cell ls rs).
Proof. intros Hcell. rewrite table_lev by done. apply distance_rev, lev_distance. Qed.

Lemma edit_distance_spec ls rs : distance (chars ls) (chars rs) (edit_distance ls rs).
Proof. apply table_distance. intros c P d Q. by rewrite lev_cons. Qed.
Lemma levenshtein_spec ls rs : distance (chars ls) (chars rs) (levenshtein ls rs).
Proof. apply table_distance. intros c P d Q. by rewrite lev_min. Qed.

(** both dynamic programs compute the edit distance: the number they return is the length of
    an edit script of replacements, insertions and deletions from one text to the other, no
    script is shorter, and the two programs agree. *)
Theorem edit_distances_exact ls rs :
  distance (chars ls) (chars rs) (edit_distance ls rs)
  ∧ distance (chars ls) (chars rs) (levenshtein ls rs)
  ∧ edit_distance ls rs = levenshtein ls rs.
Proof.
  split; [apply edit_distance_spec|]. split; [apply levenshtein_spec|].
  eapply distance_unique; [apply edit_distance_spec|apply levenshtein_spec].
Qed.
