(* ===== verification/Paths.v ===== *)
(** Where things live ([firestone-core/src/paths.rs]): the base directories chosen once from the
    environment, the name of every file below them, and the paths a user writes.  Creating and
    checking the directories on disk is not part of this file. *)
From S2P Require Import Prelude RustStr Errors RustPath Utf8.
Open Scope Z_scope.

Record PathInputs : Set := {
  current_dir : string;
  input_home : option string;
  firestone_home : option string;
  firestone_config_dir : option string;
  firestone_data_dir : option string;
  firestone_runtime_dir : option string;
  xdg_config_home : option string;
  xdg_data_home : option string;
  xdg_runtime_dir : option string;
  input_uid : Z }.
Inductive RuntimeProvenance : Set :=
  | FirestoneHome | FirestoneRuntimeDir | XdgRuntimeDir (base : string) | Fallback.
#[export] Instance RuntimeProvenance_eq_dec : EqDecision RuntimeProvenance.
Proof. solve_decision. Defined.
Record Paths : Set := {
  config_dir : string;
  data_dir : string;
  runtime_dir : string;
  home_dir : option string;
  uid : Z;
  runtime_provenance : RuntimeProvenance }.

(** [PathInputs::capture]: the process environment as its [current_dir], [var_os] and [getuid]. *)
Definition capture (cwd : result IoError string) (var_os : string → option string) (getuid : Z)
    : result FirestoneError PathInputs :=
  current_dir ← map_err (λ e, with_source (with_hint (error_new Dependency
      ("cannot read the process current directory: " +:+ io_text e))
      "change to an accessible directory and retry") (io_text e)) cwd;
  Ok {| current_dir := current_dir; input_home := var_os "HOME"; firestone_home := var_os "FIRESTONE_HOME";
        firestone_config_dir := var_os "FIRESTONE_CONFIG_DIR"; firestone_data_dir := var_os "FIRESTONE_DATA_DIR";
        firestone_runtime_dir := var_os "FIRESTONE_RUNTIME_DIR"; xdg_config_home := var_os "XDG_CONFIG_HOME";
        xdg_data_home := var_os "XDG_DATA_HOME"; xdg_runtime_dir := var_os "XDG_RUNTIME_DIR"; input_uid := getuid |}.

Definition selected_override (path : option string) (variable : string) : result FirestoneError (option string) :=
  match path with
  | Some p =>
      if is_empty p
      then Err (with_hint (error_new InvalidSpec (variable +:+ " is set to an empty path"))
             ("set " +:+ variable +:+ " to a directory or unset it"))
      else Ok (Some p)
  | None => Ok None
  end.
Definition selected_xdg (path : option string) : option string :=
  match path with Some p => if negb (is_empty p) && is_absolute p then Some p else None | None => None end.
Definition absolute_path (path current_dir : string) : string :=
  if is_absolute path then path else path_join current_dir path.
Fixpoint to_ascii_uppercase (s : string) : string :=
  match s with
  | EmptyString => EmptyString
  | String a s => String (if is_ascii_lowercase a then Ascii.ascii_of_N (Z.to_N (code a - 32)) else a) (to_ascii_uppercase s)
  end.
(** The loop over [end]: while more than one byte is left and the last is a separator. *)
Fixpoint trim_separators (n : nat) (path : string) : string :=
  match n with
  | O => path
  | S n =>
      if (1 <? len path) && bool_decide (last_byte path = Some "/"%char)
      then trim_separators n (but_last path) else path
  end.
Definition trim_trailing_separators (path : string) : string := trim_separators (String.length path) path.
Definition home_default (home : option string) (relative_base purpose : string) : result FirestoneError string :=
  home ← ok_or home
    (with_hint (error_new Dependency
       ("cannot resolve the " +:+ purpose +:+ " directory because HOME is not set"))
       ("set FIRESTONE_HOME, FIRESTONE_" +:+ to_ascii_uppercase purpose +:+ "_DIR, or HOME"));
  Ok (path_join (path_join home relative_base) "firestone").

(** The configuration and the data directory, which are found alike. *)
Definition base_dir (override : option string) (variable : string) (xdg home : option string)
    (relative_base purpose current_dir : string) : result FirestoneError string :=
  over ← selected_override override variable;
  match over with
  | Some path => Ok (absolute_path path current_dir)
  | None =>
      match selected_xdg xdg with
      | Some path => Ok (path_join path "firestone")
      | None => home_default home relative_base purpose
      end
  end.
Definition choose_runtime_dir (inputs : PathInputs) : result FirestoneError (string * RuntimeProvenance) :=
  over ← selected_override (firestone_runtime_dir inputs) "FIRESTONE_RUNTIME_DIR";
  match over with
  | Some path => Ok (trim_trailing_separators (absolute_path path (current_dir inputs)), FirestoneRuntimeDir)
  | None =>
      match selected_xdg (xdg_runtime_dir inputs) with
      | Some path =>
          let base := trim_trailing_separators path in
          Ok (path_join base "firestone", XdgRuntimeDir base)
      | None => Ok ("/tmp/firestone-" +:+ dec (input_uid inputs), Fallback)
      end
  end.
Definition captured_home (inputs : PathInputs) : option string :=
  match input_home inputs with
  | Some p => if is_empty p then None else Some (absolute_path p (current_dir inputs))
  | None => None
  end.
(** [Paths::from_inputs]. *)
Definition from_inputs (inputs : PathInputs) : result FirestoneError Paths :=
  if negb (is_absolute (current_dir inputs))
  then Err (with_hint (error_new InvalidSpec
         ("path resolution current directory is not absolute: '" +:+ current_dir inputs +:+ "'"))
         "supply an absolute current directory")
  else
    let home_dir := captured_home inputs in
    home ← selected_override (firestone_home inputs) "FIRESTONE_HOME";
    match home with
    | Some home =>
        let home := absolute_path home (current_dir inputs) in
        Ok {| config_dir := path_join home "config"; data_dir := path_join home "data";
              runtime_dir := path_join home "run"; home_dir := home_dir; uid := input_uid inputs;
              runtime_provenance := FirestoneHome |}
    | None =>
        config_dir ← base_dir (firestone_config_dir inputs) "FIRESTONE_CONFIG_DIR" (xdg_config_home inputs)
          home_dir ".config" "config" (current_dir inputs);
        data_dir ← base_dir (firestone_data_dir inputs) "FIRESTONE_DATA_DIR" (xdg_data_home inputs)
          home_dir ".local/share" "data" (current_dir inputs);
        '(runtime_dir, provenance) ← choose_runtime_dir inputs;
        Ok {| config_dir := config_dir; data_dir := data_dir; runtime_dir := runtime_dir; home_dir := home_dir;
              uid := input_uid inputs; runtime_provenance := provenance |}
    end.

(** ** Paths the user writes *)

Definition invalid_input_path (key message hint : string) : FirestoneError :=
  with_hint (error_new InvalidSpec ("invalid '" +:+ key +:+ "': " +:+ message)) hint.
(** [Component::as_os_str]. *)
Definition component_text (c : Component) : string :=
  match c with RootDir => "/" | CurDir => "." | ParentDir => ".." | Normal s => s end.
Definition expand_home (paths : Paths) (path key : string) : result FirestoneError string :=
  match components path with
  | Normal value :: rest =>
      if String.eqb value "~"
      then
        home ← ok_or (home_dir paths)
          (invalid_input_path key "cannot expand '~' because the home directory is unavailable"
             "use an absolute path or set HOME");
        Ok (foldl (λ p c, path_join p (component_text c)) home rest)
      else if bool_decide (first_byte value = Some "~"%char)
      then Err (invalid_input_path key ("user-home syntax is not supported in '" +:+ path +:+ "'")
             "use '~/' for the current user or an absolute path")
      else Ok path
  | _ => Ok path
  end.
Definition resolve_input_path (paths : Paths) (path base_dir key : string) : result FirestoneError string :=
  if is_empty path
  then Err (invalid_input_path key "path is empty"
         "set a non-empty absolute path or a path relative to the input file")
  else
    expanded ← expand_home paths path key;
    if is_absolute expanded then Ok expanded else Ok (path_join base_dir expanded).

(** ** The layout *)

Definition uses_runtime_fallback (p : Paths) : bool := bool_decide (runtime_provenance p = Fallback).
Definition config_file (p : Paths) : string := path_join (config_dir p) "config.toml".
Definition catalog_file (p : Paths) : string := path_join (config_dir p) "catalog.toml".
Definition docker_config_file (p : Paths) : option string :=
  (λ home, path_join (path_join home ".docker") "config.json") <$> home_dir p.
Definition machines_dir (p : Paths) : string := path_join (data_dir p) "machines".
Definition images_dir (p : Paths) : string := path_join (data_dir p) "images".
Definition bin_dir (p : Paths) : string := path_join (data_dir p) "bin".
Definition apparmor_staging_dir (p : Paths) : string := path_join (data_dir p) "apparmor".
Definition apparmor_passt_staged_profile (p : Paths) : string :=
  path_join (apparmor_staging_dir p) "firestone-passt-2025_02_17.a1e48a0".
Definition apparmor_passt_executable : string := "/usr/libexec/firestone/passt-2025_02_17.a1e48a0".
Definition apparmor_passt_profile : string := "/etc/apparmor.d/firestone-passt-2025_02_17.a1e48a0".
Definition apparmor_loaded_profiles : string := "/sys/kernel/security/apparmor/profiles".
Definition ssh_dir (p : Paths) : string := path_join (data_dir p) "ssh".
Definition ssh_private_key (p : Paths) : string := path_join (ssh_dir p) "id_ed25519".
Definition ssh_public_key (p : Paths) : string := path_join (ssh_dir p) "id_ed25519.pub".
Definition ssh_identity_lock (p : Paths) : string := path_join (data_dir p) ".ssh-identity.lock".
Definition ssh_generation_marker (p : Paths) : string := path_join (ssh_dir p) ".generating".
Definition serve_socket (p : Paths) : string := path_join (runtime_dir p) "serve.sock".
Definition serve_lock (p : Paths) : string := path_join (runtime_dir p) ".serve.lock".
Definition snapshot_metadata (snapshot_dir : string) : string := path_join snapshot_dir "metadata.json".
Definition snapshot_disk (snapshot_dir : string) : string := path_join snapshot_dir "disk.qcow2".
Definition snapshot_disk_partial (snapshot_dir : string) : string := path_join snapshot_dir "disk.qcow2.partial".
Definition snapshot_spec (snapshot_dir : string) : string := path_join snapshot_dir "spec.toml".
Definition snapshot_vmconfig (snapshot_dir : string) : string := path_join snapshot_dir "vmconfig.json".
Definition snapshot_vmstate_dir (snapshot_dir : string) : string := path_join snapshot_dir "vmstate".

(** [value] is one plain component: the test of [checked_join]. *)
Definition single_component (value : string) : bool :=
  match components value with
  | [Normal _] => negb (has_char "/" value) && negb (has_control value)
  | _ => false
  end.

Section layout.
Context (unicode_debug : string → string).
Local Abbreviation Res := (result FirestoneError string).

Definition checked_join (base label value : string) : Res :=
  if single_component value then Ok (path_join base value)
  else Err (with_hint (error_new InvalidSpec
         (label +:+ " must be one non-empty path component: " +:+ debug_str unicode_debug value))
         "remove path separators, '.' components, and control characters").

Definition binary_file (p : Paths) (file_name : string) : Res := checked_join (bin_dir p) "binary file name" file_name.
Definition image_file (p : Paths) (file_name : string) : Res := checked_join (images_dir p) "image file name" file_name.
Definition image_store_lock (p : Paths) : Res := image_file p ".lock".
Definition image_base (p : Paths) (id : string) : Res := image_file p (id +:+ ".qcow2").
Definition image_metadata (p : Paths) (id : string) : Res := image_file p (id +:+ ".json").
Definition image_base_removal (p : Paths) (id : string) : Res := image_file p (id +:+ ".qcow2.removing").
Definition image_metadata_removal (p : Paths) (id : string) : Res := image_file p (id +:+ ".json.removing").
Definition image_source_partial (p : Paths) (operation : string) : Res :=
  image_file p (".pull-" +:+ operation +:+ ".source.partial").
Definition image_stored_partial (p : Paths) (operation : string) : Res :=
  image_file p (".pull-" +:+ operation +:+ ".stored.partial").
Definition image_layer_partial (p : Paths) (operation : string) (index : Z) : Res :=
  image_file p (".pull-" +:+ operation +:+ ".layer" +:+ dec index +:+ ".partial").
Definition image_rootfs_tar_partial (p : Paths) (operation : string) : Res :=
  image_file p (".pull-" +:+ operation +:+ ".tar.partial").

Definition machine_dir (p : Paths) (name : string) : Res := checked_join (machines_dir p) "machine name" name.
Definition machine_removal_dir (p : Paths) (name : string) : Res :=
  checked_join (machines_dir p) "machine removal name" (".removing-" +:+ name).
(** A file of the machine's directory. *)
Definition in_machine (file : string) (p : Paths) (name : string) : Res := d ← machine_dir p name; Ok (path_join d file).
Definition machine_spec := in_machine "firestone.toml".
Definition machine_state := in_machine "state.json".
Definition machine_lock := in_machine "lock".
Definition machine_disk := in_machine "disk.qcow2".
Definition machine_disk_partial := in_machine "disk.qcow2.partial".
Definition machine_seed_image := in_machine "seed.img".
Definition machine_vmconfig := in_machine "vmconfig.json".
Definition machine_vmm_executable := in_machine "vmm.bin".
Definition machine_seed_dir := in_machine "seed".
Definition machine_seed_file (p : Paths) (name file_name : string) : Res :=
  d ← machine_seed_dir p name; checked_join d "seed file name" file_name.
Definition machine_config_image := in_machine "config.img".
Definition machine_config_dir := in_machine "config".
Definition machine_config_file (p : Paths) (name file_name : string) : Res :=
  d ← machine_config_dir p name; checked_join d "config file name" file_name.
Definition machine_user_data := in_machine "user-data.yaml".
Definition machine_known_hosts := in_machine "known_hosts".
Definition machine_console_log := in_machine "console.log".
Definition machine_console_previous_log := in_machine "console.log.previous".
Definition machine_vmm_log := in_machine "vmm.log".
Definition machine_shim_log := in_machine "shim.log".
Definition machine_passt_log := in_machine "passt.log".
Definition machine_virtiofsd_log (p : Paths) (name : string) (index : Z) : Res :=
  in_machine ("virtiofsd-" +:+ dec index +:+ ".log") p name.
Definition machine_snapshots_dir := in_machine "snapshots".
Definition machine_snapshot_dir (p : Paths) (name snapshot : string) : Res :=
  d ← machine_snapshots_dir p name; checked_join d "snapshot name" snapshot.
Definition machine_snapshot_partial_dir (p : Paths) (name snapshot : string) : Res :=
  d ← machine_snapshots_dir p name; checked_join d "snapshot partial name" (".partial-" +:+ snapshot).
Definition machine_snapshot_removal_dir (p : Paths) (name snapshot : string) : Res :=
  d ← machine_snapshots_dir p name; checked_join d "snapshot removal name" (".removing-" +:+ snapshot).
Definition machine_snapshot_lock (p : Paths) (name : string) : Res :=
  d ← machine_snapshots_dir p name; Ok (path_join d ".lock").
Definition machine_restore_request := in_machine "restore-request.json".

Definition machine_runtime_dir (p : Paths) (name : string) : Res := checked_join (runtime_dir p) "machine name" name.
(** A file of the machine's runtime directory. *)
Definition in_runtime (file : string) (p : Paths) (name : string) : Res :=
  d ← machine_runtime_dir p name; Ok (path_join d file).
Definition machine_shim_socket := in_runtime "shim.sock".
Definition machine_api_socket := in_runtime "api.sock".
Definition machine_vsock_socket := in_runtime "vsock.sock".
Definition machine_console_socket := in_runtime "console.sock".
Definition machine_console_pty_log := in_runtime "console.pty.log".
Definition machine_net_socket := in_runtime "net.sock".
Definition machine_fs_socket (p : Paths) (name : string) (index : Z) : Res :=
  in_runtime ("fs" +:+ dec index +:+ ".sock") p name.
Definition machine_fs_pid_file (p : Paths) (name : string) (index : Z) : Res :=
  in_runtime ("fs" +:+ dec index +:+ ".sock.pid") p name.
Definition machine_shim_pid := in_runtime "shim.pid".
Definition machine_shim_plan := in_runtime "launch.json".
Definition machine_process_identity := in_runtime "identity.json".
End layout.

(** ** The base directories *)

Lemma base_dir_absolute override variable xdg home relative purpose cwd d :
  is_absolute cwd = true → (∀ h, home = Some h → is_absolute h = true) →
  base_dir override variable xdg home relative purpose cwd = Ok d → is_absolute d = true.
Proof.
  intros Hc Hh. unfold base_dir, absolute_path, selected_xdg, home_default. intros Hd. inv_ok. destruct r as [path|].
  - injection Hd1 as <-. destruct (is_absolute path) eqn:E; [done|by apply path_join_absolute].
  - destruct xdg as [x|]; [destruct (negb (is_empty x) && is_absolute x) eqn:E|].
    + injection Hd1 as <-. apply andb_true_iff in E as [_ E]. by apply path_join_absolute.
    + inv_ok. by do 2 apply path_join_absolute; apply Hh.
    + inv_ok. by do 2 apply path_join_absolute; apply Hh.
Qed.
Lemma absolute_path_absolute path cwd : is_absolute cwd = true → is_absolute (absolute_path path cwd) = true.
Proof.
  intros Hc. unfold absolute_path. destruct (is_absolute path) eqn:E; [done|by apply path_join_absolute].
Qed.
Lemma trim_separators_absolute n path : is_absolute path = true → is_absolute (trim_separators n path) = true.
Proof.
  revert path. induction n as [|n IH]; intros path Ha; cbn [trim_separators]; [done|].
  destruct (_ && _) eqn:E; [|done]. apply IH. apply andb_true_iff in E as [El _]. apply Z.ltb_lt in El.
  apply is_absolute_spec in Ha as [[|a r] ->]; [done|]. apply is_absolute_spec. cbn [but_last]. by eexists.
Qed.
Lemma runtime_dir_absolute i d v : is_absolute (current_dir i) = true → choose_runtime_dir i = Ok (d, v) → is_absolute d = true.
Proof.
  intros Hc. unfold choose_runtime_dir, selected_xdg, trim_trailing_separators. intros Hd. inv_ok. destruct r as [path|].
  - injection Hd1 as <- _. by apply trim_separators_absolute, absolute_path_absolute.
  - destruct (xdg_runtime_dir i) as [x|]; [destruct (negb (is_empty x) && is_absolute x) eqn:E|].
    + injection Hd1 as <- _. apply andb_true_iff in E as [_ E]. by apply path_join_absolute, trim_separators_absolute.
    + by injection Hd1 as <- _.
    + by injection Hd1 as <- _.
Qed.
Lemma captured_home_absolute i h : is_absolute (current_dir i) = true → captured_home i = Some h → is_absolute h = true.
Proof.
  intros Hc. unfold captured_home. destruct (input_home i) as [p|]; [|done]. destruct (is_empty p); [done|].
  intros [= <-]. by apply absolute_path_absolute.
Qed.

(** Every directory of a layout is absolute. *)
Record rooted (p : Paths) : Prop := {
  rooted_config : is_absolute (config_dir p) = true;
  rooted_data : is_absolute (data_dir p) = true;
  rooted_runtime : is_absolute (runtime_dir p) = true;
  rooted_home : ∀ h, home_dir p = Some h → is_absolute h = true }.
Lemma from_inputs_rooted i p : from_inputs i = Ok p → rooted p.
Proof.
  unfold from_inputs. destruct (is_absolute (current_dir i)) eqn:Hc; [|done]. cbn [negb]. intros Hp. inv_ok.
  pose proof (λ h, captured_home_absolute i h Hc) as Hh. destruct r as [home|].
  - injection Hp1 as <-. pose proof (absolute_path_absolute home _ Hc).
    split; cbn [config_dir data_dir runtime_dir home_dir]; try done; by apply path_join_absolute.
  - inv_ok. destruct r1 as [rd v]. inv_ok. split; cbn [config_dir data_dir runtime_dir home_dir].
    + by eapply base_dir_absolute.
    + by eapply base_dir_absolute.
    + by eapply runtime_dir_absolute.
    + done.
Qed.

(** ** Paths the user writes *)

Lemma parts_of_components l : Forall (λ c, match c with Normal x => has_char "/" x = false | _ => True end) l →
  Forall (λ c, c ≠ RootDir ∧ c ≠ CurDir) l → Forall (λ c, c ≠ Normal "" ∧ c ≠ Normal "." ∧ c ≠ Normal "..") l →
  l ≫= (λ c, path_parts (component_text c)) = l.
Proof.
  induction l as [|c l IH]; [done|]. intros [Hc Hl]%Forall_cons [Hk Hk']%Forall_cons [Hn Hn']%Forall_cons.
  rewrite bind_cons, IH by done. destruct Hk, Hn as (? & ? & ?). destruct c as [| | |x]; try done. cbn [component_text].
  unfold path_parts. rewrite split_no_sep by done. cbn. unfold part_component.
  rewrite (proj2 (is_empty_false x)) by congruence. rewrite !(proj2 (String.eqb_neq _ _)) by congruence. done.
Qed.
Lemma part_component_inv x c : has_char "/" x = false → c ∈ part_component x →
  c = ParentDir ∨ ∃ n, c = Normal n ∧ has_char "/" n = false ∧ n ≠ "" ∧ n ≠ "." ∧ n ≠ "..".
Proof.
  intros Hx. unfold part_component. destruct (is_empty x) eqn:He; [by intros ?%elem_of_nil|].
  destruct (String.eqb_spec x "."); [by intros ?%elem_of_nil|]. cbn [orb].
  destruct (String.eqb_spec x ".."); intros ->%list_elem_of_singleton; [by left|]. right. exists x.
  split_and!; try done. by apply is_empty_false.
Qed.
Lemma path_parts_inv p c : c ∈ path_parts p →
  c = ParentDir ∨ ∃ n, c = Normal n ∧ has_char "/" n = false ∧ n ≠ "" ∧ n ≠ "." ∧ n ≠ "..".
Proof.
  unfold path_parts. intros (x & Hc & Hx)%list_elem_of_bind. apply (part_component_inv x); [|done].
  pose proof (split_no_char "/" p) as Hs. rewrite Forall_forall in Hs. by apply Hs.
Qed.
(** What [push] of each remaining component gives. *)
Lemma pushed_parts home l :
  is_absolute home = true →
  Forall (λ c, c = ParentDir ∨ ∃ n, c = Normal n ∧ has_char "/" n = false ∧ n ≠ "" ∧ n ≠ "." ∧ n ≠ "..") l →
  let p := foldl (λ p c, path_join p (component_text c)) home l in
  is_absolute p = true ∧ path_parts p = path_parts home ++ l.
Proof.
  intros Ha Hl. cbv zeta. revert home Ha. induction Hl as [|c l Hc Hl IH]; intros home Ha; cbn [foldl].
  - by rewrite app_nil_r.
  - destruct (IH (path_join home (component_text c))) as [H1 ->]; [by apply path_join_absolute|]. split; [done|].
    rewrite path_parts_join; [| done |].
    + rewrite <- app_assoc. f_equal. change (c :: l) with ([c] ++ l). f_equal.
      destruct Hc as [->|(n & -> & Hs & He & Hd & Hdd)]; [done|]. cbn [component_text]. unfold path_parts.
      rewrite split_no_sep by done. cbn. rewrite app_nil_r. unfold part_component.
      rewrite (proj2 (is_empty_false n)) by done. by rewrite !(proj2 (String.eqb_neq _ _)) by done.
    + destruct Hc as [->|(n & -> & Hs & _)]; [done|]. apply not_true_iff_false. cbn. intros [r ->]%is_absolute_spec.
      by apply has_char_cons in Hs as [].
Qed.
Lemma components_relative path : is_absolute path = false → path ≠ "" →
  path_parts path = match components path with CurDir :: rest => rest | l => l end.
Proof.
  intros Ha He. unfold components, path_parts. rewrite Ha. cbn [app]. destruct (split "/" path) as [|x rest] eqn:E; [done|].
  rewrite bind_cons. destruct (String.eqb_spec x ".") as [->|Hd]; [done|]. unfold part_component at 1 3.
  destruct (is_empty x) eqn:Ex.
  - exfalso. apply is_empty_true in Ex as ->. pose proof (join_split "/" path) as Hj. rewrite E in Hj.
    destruct rest as [|y rest]; [by subst path|]. rewrite join_cons in Hj by done. subst path. done.
  - rewrite (proj2 (String.eqb_neq x ".")) by done. cbn [orb]. by destruct (String.eqb x "..").
Qed.
(** The three forms of a path the user may write, and where each leads. *)
Definition leads_to (paths : Paths) (path base target : string) : Prop :=
  if is_absolute path then target = path
  else match components path with
       | Normal t :: rest =>
           if String.eqb t "~"
           then ∃ home, home_dir paths = Some home ∧ components target = components home ++ rest
           else components target = components base ++ Normal t :: rest
       | _ => components target = components base ++ path_parts path
       end.
Lemma resolve_input_path_leads paths path base key target :
  rooted paths → is_absolute base = true → resolve_input_path paths path base key = Ok target →
  is_absolute target = true ∧ leads_to paths path base target.
Proof.
  intros Hr Hb. unfold resolve_input_path, expand_home, leads_to. destruct (is_empty path) eqn:He; [done|].
  intros Ht. apply bind_Ok in Ht as (expanded & Hx & Ht).
  assert (Hrel : is_absolute path = false → expanded = path → is_absolute target = true
      ∧ components target = components base ++ path_parts path).
  { intros Ha ->. rewrite Ha in Ht. injection Ht as <-. split; [by apply path_join_absolute|].
    rewrite !components_absolute by (try apply path_join_absolute; done). by rewrite path_parts_join. }
  destruct (is_absolute path) eqn:Ha.
  - rewrite components_absolute in Hx by done. injection Hx as <-. rewrite Ha in Ht. by injection Ht as <-.
  - apply is_empty_false in He. pose proof (components_relative path Ha He) as Hparts.
    destruct (components path) as [|[| | |t] rest] eqn:Hc; try (injection Hx as <-; by apply Hrel).
    destruct (String.eqb_spec t "~") as [->|Hn].
    + inv_ok. pose proof (rooted_home _ Hr _ Hx0) as Hh.
      destruct (pushed_parts r rest Hh) as [H1 H2].
      { apply Forall_forall. intros c Hin. apply (path_parts_inv path). rewrite Hparts. by apply list_elem_of_further. }
      rewrite H1 in Ht. injection Ht as <-. split; [done|]. exists r. split; [done|].
      by rewrite !components_absolute, H2 by done.
    + rewrite <- Hparts. case_bool_decide; [done|]. injection Hx as <-. by apply Hrel.
Qed.

(** wherever the environment points the program, its three base directories are absolute, and
    a path the user writes resolves to an absolute path: an absolute one to itself, one that starts
    with a bare [~] below the captured home directory, any other one below the directory the input
    came from, component by component. *)
Theorem input_paths_resolve inputs paths :
  from_inputs inputs = Ok paths →
  rooted paths ∧
  ∀ path base key target, is_absolute base = true → resolve_input_path paths path base key = Ok target →
    is_absolute target = true ∧ leads_to paths path base target.
Proof.
  intros Hp%from_inputs_rooted. split; [done|]. intros path base key target. by apply resolve_input_path_leads.
Qed.
Definition demo_inputs : PathInputs :=
  {| current_dir := "/work"; input_home := Some "/home/ada"; firestone_home := None; firestone_config_dir := None;
     firestone_data_dir := Some "data"; firestone_runtime_dir := None; xdg_config_home := None; xdg_data_home := None;
     xdg_runtime_dir := Some "/run/user/1000//"; input_uid := 1000 |}.
Definition demo_paths : Paths :=
  {| config_dir := "/home/ada/.config/firestone"; data_dir := "/work/data"; runtime_dir := "/run/user/1000/firestone";
     home_dir := Some "/home/ada"; uid := 1000; runtime_provenance := XdgRuntimeDir "/run/user/1000" |}.
Lemma input_paths_resolve_witness :
  rooted demo_paths ∧ is_absolute "/home/ada/keys/id.pub" = true
  ∧ leads_to demo_paths "~/keys//id.pub" "/work/machines" "/home/ada/keys/id.pub".
Proof.
  destruct (input_paths_resolve demo_inputs demo_paths) as [Hr Hp]; [vm_compute; reflexivity|]. split; [exact Hr|].
  apply (Hp "~/keys//id.pub" "/work/machines" "key" "/home/ada/keys/id.pub"); vm_compute; reflexivity.
Defined.

(** ** Names below a directory *)

Lemma has_control_no_slash v : single_component v = true → has_char "/" v = false.
Proof.
  unfold single_component. destruct (components v) as [|[| | |s] [|]]; try done. by intros [H _]%andb_true_iff; apply negb_true_iff.
Qed.
Lemma single_component_name v : single_component v = true → v ≠ "" ∧ v ≠ "." ∧ v ≠ "..".
Proof. intros Hv. split_and!; intros ->; vm_compute in Hv; discriminate Hv. Qed.
Lemma join_single base v : is_absolute base = true → single_component v = true →
  is_absolute (path_join base v) = true ∧ components (path_join base v) = components base ++ [Normal v].
Proof.
  intros Hb Hv. destruct (single_component_name v Hv) as (? & ? & ?). split; [by apply path_join_absolute|].
  apply components_join; try done. by apply has_control_no_slash.
Qed.
(** [p] lies at or below the entry [x] of [d]. *)
Definition below (d x p : string) : Prop :=
  is_absolute p = true ∧ ∃ rest, components p = components d ++ Normal x :: rest.
Lemma below_join d x p f : below d x p → single_component f = true → below d x (path_join p f).
Proof.
  intros [Ha [rest Hp]] Hf. destruct (join_single p f Ha Hf) as [Ha' Hc]. split; [done|]. exists (rest ++ [Normal f]).
  rewrite Hc, Hp, <- app_assoc. done.
Qed.

Section layout_lemmas.
Context (ud : string → string).

Lemma checked_join_Ok base label v p :
  checked_join ud base label v = Ok p ↔ single_component v = true ∧ p = path_join base v.
Proof. unfold checked_join. destruct (single_component v); naive_solver. Qed.
Lemma checked_join_below d x p f label q : below d x p → checked_join ud p label f = Ok q → below d x q.
Proof. intros Hp [Hf ->]%checked_join_Ok. by apply below_join. Qed.
Lemma checked_name_below d label x p : is_absolute d = true → checked_join ud d label x = Ok p → below d x p.
Proof. intros Hd [Hx ->]%checked_join_Ok. destruct (join_single d x Hd Hx) as [Ha Hc]. split; [done|]. by exists []. Qed.

(** The fixed files of a machine's directory, and of its runtime directory. *)
Definition machine_files : list string :=
  ["firestone.toml"; "state.json"; "lock"; "disk.qcow2"; "disk.qcow2.partial"; "seed.img"; "vmconfig.json"; "vmm.bin";
   "seed"; "config.img"; "config"; "user-data.yaml"; "known_hosts"; "console.log"; "console.log.previous"; "vmm.log";
   "shim.log"; "passt.log"; "snapshots"; "restore-request.json"].
Definition runtime_files : list string :=
  ["shim.sock"; "api.sock"; "vsock.sock"; "console.sock"; "console.pty.log"; "net.sock"; "shim.pid"; "launch.json";
   "identity.json"].
(** What the program may touch on behalf of the machine [name]. *)
Inductive MachinePath (P : Paths) (name p : string) : Prop :=
  | at_dir : machine_dir ud P name = Ok p → MachinePath P name p
  | at_removal : machine_removal_dir ud P name = Ok p → MachinePath P name p
  | at_file f : f ∈ machine_files → in_machine ud f P name = Ok p → MachinePath P name p
  | at_share_log i : 0 ≤ i → machine_virtiofsd_log ud P name i = Ok p → MachinePath P name p
  | at_seed f : machine_seed_file ud P name f = Ok p → MachinePath P name p
  | at_config f : machine_config_file ud P name f = Ok p → MachinePath P name p
  | at_snapshot s : machine_snapshot_dir ud P name s = Ok p → MachinePath P name p
  | at_snapshot_partial s : machine_snapshot_partial_dir ud P name s = Ok p → MachinePath P name p
  | at_snapshot_removal s : machine_snapshot_removal_dir ud P name s = Ok p → MachinePath P name p
  | at_snapshot_lock : machine_snapshot_lock ud P name = Ok p → MachinePath P name p.
Inductive RuntimePath (P : Paths) (name p : string) : Prop :=
  | at_runtime_dir : machine_runtime_dir ud P name = Ok p → RuntimePath P name p
  | at_runtime_file f : f ∈ runtime_files → in_runtime ud f P name = Ok p → RuntimePath P name p
  | at_fs_socket i : 0 ≤ i → machine_fs_socket ud P name i = Ok p → RuntimePath P name p
  | at_fs_pid i : 0 ≤ i → machine_fs_pid_file ud P name i = Ok p → RuntimePath P name p.

Lemma files_single : forallb single_component (machine_files ++ runtime_files) = true.
Proof. vm_compute. reflexivity. Qed.
Lemma file_single f : f ∈ machine_files ++ runtime_files → single_component f = true.
Proof. intros Hf. pose proof (proj1 (forallb_forall _ _) files_single) as H. by apply H, list_elem_of_In. Qed.
Lemma graphic_no_control s : all_bytes is_ascii_graphic s = true → has_control s = false.
Proof.
  induction s as [|a s IH]; [done|]. cbn [all_bytes has_control]. intros [Ha Hs]%andb_true_iff. rewrite IH by done.
  unfold is_ascii_graphic, byte_in in *. apply andb_true_iff in Ha as [H1%Z.leb_le H2%Z.leb_le].
  rewrite (proj2 (Z.leb_gt (code a) 31)) by lia. rewrite (proj2 (Z.leb_gt 127 (code a))) by lia.
  rewrite (proj2 (Z.leb_gt 194 (code a))) by lia. by rewrite !andb_false_r.
Qed.
(** A prefix, a number and a suffix make one component. *)
Lemma indexed_single a s i t :
  all_bytes is_ascii_graphic (String a s) = true → has_char "/" (String a s) = false → a ≠ "."%char →
  all_bytes is_ascii_graphic t = true → has_char "/" t = false → 0 ≤ i →
  single_component (String a s +:+ dec i +:+ t) = true.
Proof.
  intros Hg Hs Ha Ht Hts Hi. set (x := String a s +:+ dec i +:+ t).
  assert (Hdot : ∀ r, x ≠ String "." r) by (intros r; unfold x; rewrite app_cons; congruence).
  assert (Hx : has_char "/" x = false).
  { unfold x. rewrite !has_char_app, Hs, Hts, orb_false_r. cbn [orb]. by apply dec_no_char. }
  unfold single_component. rewrite components_no_slash; [|done|unfold x; rewrite app_cons; discriminate|by apply (Hdot "")|by apply (Hdot ".")].
  rewrite Hx. cbn [negb andb]. rewrite graphic_no_control; [done|]. unfold x. rewrite !all_bytes_app, Hg, Ht, andb_true_r.
  cbn [andb]. eapply all_bytes_impl; [|by apply dec_digits]. intros b. apply digit_graphic.
Qed.

Lemma in_machine_below P name f p : rooted P → single_component f = true →
  in_machine ud f P name = Ok p → below (machines_dir P) name p.
Proof.
  intros Hr Hf Hp. unfold in_machine, machine_dir in Hp. inv_ok. apply below_join; [|done].
  eapply checked_name_below; [|done]. apply path_join_absolute, Hr.
Qed.
Ltac fixed_file f := eapply (in_machine_below _ _ f); [done|vm_compute; reflexivity|done].
(** The name of the directory a machine is renamed to while it is removed. *)
Definition tombstone (name : string) : string := ".removing-" +:+ name.
Lemma machine_path_below P name p : rooted P → MachinePath P name p →
  ∃ x, x ∈ [name; tombstone name] ∧ below (machines_dir P) x p.
Proof.
  intros Hr Hp. assert (Hd : is_absolute (machines_dir P) = true) by apply path_join_absolute, Hr.
  destruct Hp as [Hp|Hp|f Hf Hp|i Hi Hp|f Hp|f Hp|s Hp|s Hp|s Hp|Hp];
    [exists name|exists (tombstone name)|exists name..]; (split; [set_solver|]).
  - by eapply checked_name_below.
  - by eapply checked_name_below.
  - eapply in_machine_below; [done| |done]. apply file_single, elem_of_app. by left.
  - eapply in_machine_below; [done| |done]. by apply indexed_single.
  - unfold machine_seed_file, machine_seed_dir in Hp. inv_ok. eapply checked_join_below; [|done]. fixed_file "seed".
  - unfold machine_config_file, machine_config_dir in Hp. inv_ok. eapply checked_join_below; [|done]. fixed_file "config".
  - unfold machine_snapshot_dir, machine_snapshots_dir in Hp. inv_ok. eapply checked_join_below; [|done]. fixed_file "snapshots".
  - unfold machine_snapshot_partial_dir, machine_snapshots_dir in Hp. inv_ok.
    eapply checked_join_below; [|done]. fixed_file "snapshots".
  - unfold machine_snapshot_removal_dir, machine_snapshots_dir in Hp. inv_ok.
    eapply checked_join_below; [|done]. fixed_file "snapshots".
  - unfold machine_snapshot_lock, machine_snapshots_dir in Hp. inv_ok. apply below_join; [|vm_compute; reflexivity]. fixed_file "snapshots".
Qed.
Lemma in_runtime_below P name f p : rooted P → single_component f = true →
  in_runtime ud f P name = Ok p → below (runtime_dir P) name p.
Proof.
  intros Hr Hf Hp. unfold in_runtime, machine_runtime_dir in Hp. inv_ok. apply below_join; [|done].
  eapply checked_name_below; [|done]. apply Hr.
Qed.
Lemma runtime_path_below P name p : rooted P → RuntimePath P name p → below (runtime_dir P) name p.
Proof.
  intros Hr [Hp|f Hf Hp|i Hi Hp|i Hi Hp].
  - eapply checked_name_below; [|done]. apply Hr.
  - eapply in_runtime_below; [done| |done]. apply file_single, elem_of_app. by right.
  - eapply in_runtime_below; [done| |done]. by apply indexed_single.
  - eapply in_runtime_below; [done| |done]. by apply indexed_single.
Qed.
Lemma below_apart d x y p q : below d x p → below d y q → x ≠ y → apart p q.
Proof. intros [_ [l Hp]] [_ [l' Hq]]. by apply (apart_below d x y l l'). Qed.
Lemma below_apart_dirs d d' x y p q : apart d d' → below d x p → below d' y q → apart p q.
Proof using Type.
  intros [H1 H2] [_ [l Hp]] [_ [l' Hq]]. unfold apart. rewrite Hp, Hq.
  assert (Hpre : ∀ a b r s : list Component, a ++ r `prefix_of` b ++ s → a `prefix_of` b ∨ b `prefix_of` a).
  { intros a b r s [k Hk]. rewrite <- app_assoc in Hk.
    destruct (app_eq_inv _ _ _ _ Hk) as [(m & -> & _)|(m & -> & _)]; [left|right]; by exists m. }
  split; intros Hc; apply Hpre in Hc as [|]; [by apply H1|by apply H2|by apply H2|by apply H1].
Qed.
Lemma removal_is_machine_dir P name p : machine_removal_dir ud P name = Ok p ↔ machine_dir ud P (tombstone name) = Ok p.
Proof. unfold machine_removal_dir, machine_dir, tombstone. by rewrite !checked_join_Ok. Qed.
End layout_lemmas.

(** C17: two machines share no files, unless one has the name of the directory the other is renamed to while it
    is removed: then nothing the path table gives for one of them (its directory and everything in it, that
    removal directory, its runtime directory) is, contains or lies below anything it gives for the other;
    across the data and the runtime directory this needs those two to be apart.  The exception is real: the
    removal directory of a machine is the directory of the machine with its name.  The files of one machine
    have different paths. *)
Theorem machine_trees_apart ud inputs paths name other :
  from_inputs inputs = Ok paths →
  (name ≠ other → name ≠ tombstone other → other ≠ tombstone name →
     (∀ p q, MachinePath ud paths name p → MachinePath ud paths other q → apart p q)
     ∧ (∀ p q, RuntimePath ud paths name p → RuntimePath ud paths other q → apart p q))
  ∧ (apart (machines_dir paths) (runtime_dir paths) →
     ∀ p q, MachinePath ud paths name p → RuntimePath ud paths other q → apart p q)
  ∧ (∀ p, machine_removal_dir ud paths name = Ok p ↔ machine_dir ud paths (tombstone name) = Ok p)
  ∧ (∀ f g p, f ∈ machine_files → g ∈ machine_files →
       in_machine ud f paths name = Ok p → in_machine ud g paths name = Ok p → f = g).
Proof.
  intros Hr%from_inputs_rooted. split_and!.
  - intros Hn Ht Ht'. split; intros p q Hp Hq.
    + apply machine_path_below in Hp as (x & Hx & Hp); [|done]. apply machine_path_below in Hq as (y & Hy & Hq); [|done].
      eapply below_apart; [done..|]. intros ->.
      repeat (apply elem_of_cons in Hx as [->|Hx]; [repeat (apply elem_of_cons in Hy as [Hy|Hy]; [|])|]);
        try (by apply elem_of_nil in Hx); try (by apply elem_of_nil in Hy); try congruence.
      unfold tombstone in Hy. rewrite !app_cons, !app_empty_l in Hy. congruence.
    + by eapply below_apart; [eapply runtime_path_below..|].
  - intros Hd p q Hp Hq. apply machine_path_below in Hp as (x & _ & Hp); [|done].
    by eapply below_apart_dirs; [exact Hd|exact Hp|eapply runtime_path_below].
  - intros p. apply removal_is_machine_dir.
  - intros f g p Hf Hg Hp Hq. unfold in_machine in *. inv_ok. rewrite Hp0 in Hq0. injection Hq0 as ->.
    assert (Hname : ∀ h d, h ∈ machine_files → file_name (path_join d h) = Some h).
    { intros h d Hh. assert (Hs : single_component h = true) by (apply file_single, elem_of_app; by left).
      destruct (single_component_name h Hs) as (? & ? & ?). apply file_name_join; try done. by apply has_control_no_slash. }
    pose proof (Hname f r Hf) as E. rewrite Hp1, (Hname g r Hg) in E. by injection E.
Qed.
Lemma machine_trees_apart_witness :
  apart "/work/data/machines/web/snapshots/before" "/work/data/machines/web-2/snapshots"
  ∧ apart "/work/data/machines/.removing-web" "/work/data/machines/web-2/lock"
  ∧ apart "/run/user/1000/firestone/web/fs0.sock" "/run/user/1000/firestone/web-2"
  ∧ apart "/work/data/machines/web/lock" "/run/user/1000/firestone/web-2"
  ∧ machine_dir (λ s, s) demo_paths ".removing-web" = machine_removal_dir (λ s, s) demo_paths "web".
Proof.
  destruct (machine_trees_apart (λ s, s) demo_inputs demo_paths "web" "web-2") as (Hm & Hc & Ht & _); [vm_compute; reflexivity|].
  destruct Hm as [Hm Hr]; [discriminate..|]. split_and!.
  - apply Hm; [apply at_snapshot with "before"|apply at_file with "snapshots"]; vm_compute; try reflexivity. by repeat constructor.
  - apply Hm; [apply at_removal|apply at_file with "lock"]; vm_compute; try reflexivity. by repeat constructor.
  - apply Hr; [apply at_fs_socket with 0|apply at_runtime_dir]; vm_compute; try reflexivity. discriminate.
  - apply Hc; [|apply at_file with "lock"|apply at_runtime_dir]; try (vm_compute; reflexivity); [|by repeat constructor].
    split; intros [k Hk]; vm_compute in Hk; discriminate.
  - apply (Ht "/work/data/machines/.removing-web"). vm_compute. reflexivity.
Defined.
