(* ===== verification/SpecToml.v ===== *)
(** Machine and global configuration files ([firestone-core/src/spec.rs]): the known-key check
    with its suggestions, the JSON text that carries the configuration overlay through TOML, and
    reading and writing the layers.  The TOML crate's parser, printer and derived (de)serializers
    are parameters. *)
From S2P Require Import Prelude RustStr Errors Values Utf8 Chars Edit BTree OciRef Spec.
Open Scope Z_scope.

(** ** TOML values *)

(** [toml::Value]; floats and dates are kept as their text. *)
Inductive TomlValue : Type :=
  | TString (s : string)
  | TInteger (z : Z)
  | TFloat (text : string)
  | TBoolean (b : bool)
  | TDatetime (text : string)
  | TArray (values : list TomlValue)
  | TTable (table : list (string * TomlValue)).
(** [toml::map::Map]: entries in the order of their keys. *)
Definition Table : Type := list (string * TomlValue).
Fixpoint table_get (k : string) (t : Table) : option TomlValue :=
  match t with [] => None | (k', v) :: t => if String.eqb k k' then Some v else table_get k t end.
Fixpoint table_remove (k : string) (t : Table) : Table :=
  match t with [] => [] | (k', v) :: t => if String.eqb k k' then t else (k', v) :: table_remove k t end.
Fixpoint table_insert (k : string) (v : TomlValue) (t : Table) : Table :=
  match t with
  | [] => [(k, v)]
  | (k', v') :: t =>
      if String.eqb k k' then (k, v) :: t
      else if str_ltb k k' then (k, v) :: (k', v') :: t
      else (k', v') :: table_insert k v t
  end.

(** The crate: [str::parse::<toml::Value>] and [toml::to_string_pretty]. *)
Class Toml := {
  parse : string → result string TomlValue;
  to_string_pretty : TomlValue → result string string }.
(** Its derived conversions for a type: [toml::Value::try_from] and [serde_path_to_error] over
    the deserializer, whose error is the path and what was wrong there. *)
Class TomlType (T : Type) := {
  try_from : T → result string TomlValue;
  deserialize : string → result (string * string) T }.

(** ** Which keys are known *)

Inductive TomlSchema : Set := MachineFile | GlobalFile.
Inductive TableSchema : Set := Machine | Network | Mount | CloudInit | Vmm | Global | Start | Stop | Ui | Images.
#[export] Instance TableSchema_eq_dec : EqDecision TableSchema.
Proof. solve_decision. Defined.
Definition keys (s : TableSchema) : list string :=
  match s with
  | Machine => ["clear"; "image"; "arch"; "cpus"; "cpus_max"; "memory"; "memory_max"; "disk"; "user"; "network";
                "mount"; "cloud_init"; "vmm"]
  | Network => ["mode"; "forward"; "tap"; "mac"]
  | Mount => ["host"; "guest"; "readonly"; "tag"]
  | CloudInit => ["user_data"; "user_data_inline"; "network_config"; "ssh_keys"; "ssh_authorized_keys"; "password";
                  "ssh_pwauth"; "provisioning"]
  | Vmm => ["binary"; "firmware"; "extra_args"; "config_overlay"]
  | Global => ["defaults"; "start"; "stop"; "ui"; "images"]
  | Start => ["timeout_first_boot"; "timeout"]
  | Stop => ["timeout"]
  | Ui => ["color"]
  | Images => ["catalog"; "insecure_registries"]
  end.
Definition child (s : TableSchema) (key : string) : option TableSchema :=
  match s with
  | Machine =>
      if String.eqb key "network" then Some Network
      else if String.eqb key "mount" then Some Mount
      else if String.eqb key "cloud_init" then Some CloudInit
      else if String.eqb key "vmm" then Some Vmm else None
  | Global =>
      if String.eqb key "defaults" then Some Machine
      else if String.eqb key "start" then Some Start
      else if String.eqb key "stop" then Some Stop
      else if String.eqb key "ui" then Some Ui
      else if String.eqb key "images" then Some Images else None
  | _ => None
  end.

(** [Iterator::min_by_key] over the candidates with their distance: the first smallest one. *)
Fixpoint first_min (best : string * nat) (l : list (string * nat)) : string * nat :=
  match l with
  | [] => best
  | x :: l => first_min (if (x.2 <? best.2)%nat then x else best) l
  end.
Definition closest_key (unknown : string) (candidates : list string) : option string :=
  match filter (λ x, x.2 <= 3)%nat ((λ c, (c, edit_distance unknown c)) <$> candidates) with
  | [] => None
  | x :: l => Some (first_min x l).1
  end.

Definition key_path (prefix key : string) : string :=
  if is_empty prefix then key else prefix +:+ "." +:+ key.
Definition unknown_key (s : TableSchema) (prefix key file : string) : FirestoneError :=
  let path := key_path prefix key in
  let error := error_new InvalidSpec ("unknown key '" +:+ path +:+ "' in " +:+ file) in
  match closest_key key (keys s) with
  | Some candidate => with_hint error ("did you mean '" +:+ key_path prefix candidate +:+ "'?")
  | None => with_hint error ("remove '" +:+ path +:+ "' or use a key documented in " +:+ file)
  end.

Fixpoint validate_table_keys (value : TomlValue) (schema : TableSchema) (prefix file : string) {struct value}
    : result FirestoneError () :=
  match value with
  | TTable table =>
      (fix entries (table : list (string * TomlValue)) : result FirestoneError () :=
         match table with
         | [] => Ok ()
         | (key, child_value) :: table =>
             let path := key_path prefix key in
             if negb (bool_decide (key ∈ keys schema)) then Err (unknown_key schema prefix key file)
             else
               match child schema key with
               | None => Ok ()
               | Some child_schema =>
                   match child_value with
                   | TArray values =>
                       if decide (child_schema = Mount)
                       then (fix each (index : Z) (values : list TomlValue) : result FirestoneError () :=
                               match values with
                               | [] => Ok ()
                               | value :: values =>
                                   validate_table_keys value child_schema
                                     (path +:+ "[" +:+ dec index +:+ "]") file;;
                                   each (index + 1) values
                               end) 0 values
                       else validate_table_keys child_value child_schema path file
                   | _ => validate_table_keys child_value child_schema path file
                   end
               end;;
               entries table
         end) table
  | _ => Ok ()
  end.

(** ** The overlay in TOML: JSON text under a path *)

(** [take_toml_path]: what is left, and what was taken. *)
Fixpoint take_under (value : TomlValue) (parents : list string) (leaf : string) : TomlValue * option TomlValue :=
  match parents with
  | [] =>
      match value with
      | TTable t => (TTable (table_remove leaf t), table_get leaf t)
      | _ => (value, None)
      end
  | parent :: parents =>
      match value with
      | TTable t =>
          match table_get parent t with
          | Some current => let '(current, taken) := take_under current parents leaf in
                            (TTable (table_insert parent current t), taken)
          | None => (value, None)
          end
      | _ => (value, None)
      end
  end.
Definition take_toml_path (value : TomlValue) (path : list string) : TomlValue * option TomlValue :=
  match last path with
  | Some leaf => take_under value (removelast path) leaf
  | None => (value, None)
  end.

Definition not_a_table (part file : string) : FirestoneError :=
  with_hint (error_new Generic ("cannot encode '" +:+ part +:+ "' as a TOML table in " +:+ file))
    "report this Firestone serialization error".
Fixpoint insert_under (value : TomlValue) (parents : list string) (leaf : string) (inserted : TomlValue) (file : string)
    : result FirestoneError TomlValue :=
  match parents with
  | [] =>
      match value with
      | TTable t => Ok (TTable (table_insert leaf inserted t))
      | _ => Err (not_a_table leaf file)
      end
  | parent :: parents =>
      match value with
      | TTable t =>
          let current := default (TTable []) (table_get parent t) in
          current ← insert_under current parents leaf inserted file;
          Ok (TTable (table_insert parent current t))
      | _ => Err (not_a_table parent file)
      end
  end.
Definition insert_toml_path (value : TomlValue) (path : list string) (inserted : TomlValue) (file : string)
    : result FirestoneError TomlValue :=
  match last path with
  | Some leaf => insert_under value (removelast path) leaf inserted file
  | None => Err (with_hint (error_new Generic ("cannot encode an empty TOML key path for " +:+ file))
                  "report this Firestone serialization error")
  end.

Definition dotted (path : list string) : string := join "." path.
Definition overlay_from_text `{OverlayJson Json} (text key file : string) : result FirestoneError Json :=
  map_err (λ error,
    with_source
      (with_hint (error_new InvalidSpec ("invalid JSON text for '" +:+ key +:+ "' in " +:+ file +:+ ": " +:+ error))
        ("set '" +:+ key +:+ "' to a JSON object")) error)
    (json_from_str text).
Definition decode_toml_overlay `{OverlayJson Json} (value : TomlValue) (file : string) (path : list string)
    : result FirestoneError Json :=
  let key := dotted path in
  overlay ← match value with
    | TString text => overlay_from_text text key file
    | _ => Err (with_hint (error_new InvalidSpec ("'" +:+ key +:+ "' in " +:+ file +:+ " must be canonical JSON text"))
                 ("set '" +:+ key +:+ "' to JSON text such as '{}'"))
    end;
  validate_overlay overlay key;;
  Ok overlay.

(** ** Reading and writing *)

Section files.
Context `{Toml} `{OverlayJson Json}.

Definition serialization_error (file message source : string) : FirestoneError :=
  with_source (with_hint (error_new Generic (message +:+ " for " +:+ file)) "report this Firestone serialization error") source.
Definition syntax_error (file error : string) : FirestoneError :=
  with_hint (error_new InvalidSpec ("cannot parse " +:+ file +:+ ": " +:+ error)) ("fix the TOML syntax in " +:+ file).
Definition parse_toml (input file : string) : result FirestoneError TomlValue :=
  map_err (λ error, with_source (syntax_error file error) error) (parse input).
Definition encode_toml_value (value : TomlValue) (file : string) : result FirestoneError string :=
  map_err (serialization_error file "cannot encode TOML document") (to_string_pretty value).
Definition deserialize_toml `{TomlType T} (input file : string) : result FirestoneError T :=
  map_err (λ '(path, inner),
    let path := if is_empty path then "<root>" else path in
    with_hint (error_new InvalidSpec ("invalid value for '" +:+ path +:+ "' in " +:+ file +:+ ": " +:+ inner))
      ("correct '" +:+ path +:+ "' in " +:+ file))
    (deserialize input).
Definition validate_known_keys (input : string) (schema : TomlSchema) (file : string) : result FirestoneError () :=
  value ← map_err (syntax_error file) (parse input);
  validate_table_keys value (match schema with MachineFile => Machine | GlobalFile => Global end) "" file.

(** [patch.vmm.get_or_insert_with(default).config_overlay = ...]. *)
Definition with_overlay (o : option Json) (p : MachineSpecPatch.MachineSpecPatch Json) : MachineSpecPatch.MachineSpecPatch Json :=
  let v := default VmmSpecPatch.default (MachineSpecPatch.vmm p) in
  {| MachineSpecPatch.clear := MachineSpecPatch.clear p; MachineSpecPatch.image := MachineSpecPatch.image p;
     MachineSpecPatch.arch := MachineSpecPatch.arch p; MachineSpecPatch.cpus := MachineSpecPatch.cpus p;
     MachineSpecPatch.cpus_max := MachineSpecPatch.cpus_max p; MachineSpecPatch.memory := MachineSpecPatch.memory p;
     MachineSpecPatch.memory_max := MachineSpecPatch.memory_max p; MachineSpecPatch.disk := MachineSpecPatch.disk p;
     MachineSpecPatch.user := MachineSpecPatch.user p; MachineSpecPatch.network := MachineSpecPatch.network p;
     MachineSpecPatch.mounts := MachineSpecPatch.mounts p; MachineSpecPatch.cloud_init := MachineSpecPatch.cloud_init p;
     MachineSpecPatch.vmm := Some {| VmmSpecPatch.binary := VmmSpecPatch.binary v;
       VmmSpecPatch.firmware := VmmSpecPatch.firmware v; VmmSpecPatch.extra_args := VmmSpecPatch.extra_args v;
       VmmSpecPatch.config_overlay := o |} |}.
(** [value.vmm.as_mut().and_then(|vmm| vmm.config_overlay.take())]. *)
Definition take_overlay (p : MachineSpecPatch.MachineSpecPatch Json)
    : MachineSpecPatch.MachineSpecPatch Json * option Json :=
  match MachineSpecPatch.vmm p with
  | Some v => (with_overlay None p, VmmSpecPatch.config_overlay v)
  | None => (p, None)
  end.

Definition OVERLAY_PATH : list string := ["vmm"; "config_overlay"].
Definition GLOBAL_OVERLAY_PATH : list string := ["defaults"; "vmm"; "config_overlay"].

Definition deserialize_patch_toml `{TomlType (MachineSpecPatch.MachineSpecPatch Json)}
    (input file : string) (overlay_path : list string)
    : result FirestoneError (MachineSpecPatch.MachineSpecPatch Json) :=
  value ← parse_toml input file;
  let '(value, taken) := take_toml_path value overlay_path in
  overlay ← match taken with
    | Some text => Some <$> decode_toml_overlay text file overlay_path
    | None => Ok None
    end;
  input_without_overlay ← encode_toml_value value file;
  patch ← deserialize_toml input_without_overlay file;
  let patch := match overlay with Some overlay => with_overlay (Some overlay) patch | None => patch end in
  MachineSpecPatch.validate patch;;
  Ok patch.
Definition serialize_toml_with_overlay `{TomlType T} (value : T) (overlay : option Json) (overlay_path : list string)
    (file : string) : result FirestoneError string :=
  value ← map_err (serialization_error file "cannot encode values as TOML") (try_from value);
  value ← match overlay with
    | Some overlay =>
        validate_overlay overlay (dotted overlay_path);;
        text ← map_err (serialization_error file "cannot encode vmm.config_overlay as JSON") (json_to_string overlay);
        insert_toml_path value overlay_path (TString text) file
    | None => Ok value
    end;
  encode_toml_value value file.

(** [MachineSpecPatch::from_toml] and [to_toml]. *)
Definition patch_from_toml `{TomlType (MachineSpecPatch.MachineSpecPatch Json)} (input : string)
    : result FirestoneError (MachineSpecPatch.MachineSpecPatch Json) :=
  validate_known_keys input MachineFile "firestone.toml";;
  deserialize_patch_toml input "firestone.toml" OVERLAY_PATH.
Definition patch_to_toml `{TomlType (MachineSpecPatch.MachineSpecPatch Json)} (p : MachineSpecPatch.MachineSpecPatch Json)
    : result FirestoneError string :=
  MachineSpecPatch.validate p;;
  let '(value, overlay) := take_overlay p in
  serialize_toml_with_overlay value overlay OVERLAY_PATH "firestone.toml".
(** [MachineSpec::from_toml] and [to_toml]. *)
Definition spec_from_toml `{TomlType (MachineSpecPatch.MachineSpecPatch Json)} (input : string)
    : result FirestoneError (MachineSpec.MachineSpec Json) :=
  patch ← patch_from_toml input;
  from_layers MachineSpecPatch.default patch MachineSpecPatch.default.
Definition spec_to_toml `{TomlType (MachineSpecPatch.MachineSpecPatch Json)} (s : MachineSpec.MachineSpec Json)
    : result FirestoneError string :=
  patch_to_toml (MachineSpecPatch.from_spec s).

(** ** config.toml *)

Inductive ColorMode : Set := Auto | Always | Never.
Record GlobalConfig : Type := {
  defaults : MachineSpecPatch.MachineSpecPatch Json;
  start_timeout_first_boot : Z;
  start_timeout : Z;
  stop_timeout : Z;
  ui_color : ColorMode;
  images_catalog : list string;
  images_insecure_registries : list string }.
Definition with_defaults (d : MachineSpecPatch.MachineSpecPatch Json) (g : GlobalConfig) : GlobalConfig :=
  {| defaults := d; start_timeout_first_boot := start_timeout_first_boot g; start_timeout := start_timeout g;
     stop_timeout := stop_timeout g; ui_color := ui_color g; images_catalog := images_catalog g;
     images_insecure_registries := images_insecure_registries g |}.
Definition global_default : GlobalConfig :=
  {| defaults := MachineSpecPatch.default; start_timeout_first_boot := HumanDuration.DEFAULT_FIRST_BOOT_TIMEOUT;
     start_timeout := HumanDuration.DEFAULT_START_TIMEOUT; stop_timeout := HumanDuration.DEFAULT_STOP_TIMEOUT;
     ui_color := Auto; images_catalog := []; images_insecure_registries := [] |}.

(** [ImagesConfig::validate]. *)
Definition images_validate (registries : list string) : result FirestoneError () :=
  fold_result (λ _ entry,
    map_err (λ error,
      with_hint (error_new InvalidSpec ("images.insecure_registries: " +:+ message error))
        (default "write a bare 'host' or 'host:port' entry" (hint error)))
      (OciRef.validate_registry_host entry)) () registries.

Definition deserialize_global_toml `{TomlType GlobalConfig} (input file : string) : result FirestoneError GlobalConfig :=
  value ← parse_toml input file;
  let '(value, taken) := take_toml_path value GLOBAL_OVERLAY_PATH in
  overlay ← match taken with
    | Some text => Some <$> decode_toml_overlay text file GLOBAL_OVERLAY_PATH
    | None => Ok None
    end;
  input_without_overlay ← encode_toml_value value file;
  global ← deserialize_toml input_without_overlay file;
  let global := match overlay with
    | Some overlay => with_defaults (with_overlay (Some overlay) (defaults global)) global
    | None => global end in
  MachineSpecPatch.validate (defaults global);;
  Ok global.
Definition global_from_toml `{TomlType GlobalConfig} (input : string) : result FirestoneError GlobalConfig :=
  validate_known_keys input GlobalFile "config.toml";;
  config ← deserialize_global_toml input "config.toml";
  images_validate (images_insecure_registries config);;
  Ok config.
Definition global_to_toml `{TomlType GlobalConfig} (g : GlobalConfig) : result FirestoneError string :=
  MachineSpecPatch.validate (defaults g);;
  let '(d, overlay) := take_overlay (defaults g) in
  serialize_toml_with_overlay (with_defaults d g) overlay GLOBAL_OVERLAY_PATH "config.toml".
End files.

(** ** Known keys, declaratively *)

Lemma then_Ok {E} (m k : result E ()) : (m;; k) = Ok () ↔ m = Ok () ∧ k = Ok ().
Proof. destruct m as [[]|e]; cbn; naive_solver. Qed.

Inductive Known : TableSchema → TomlValue → Prop :=
  | known_leaf s v : (∀ t, v ≠ TTable t) → Known s v
  | known_table s t : (∀ k v, (k, v) ∈ t → KnownEntry s k v) → Known s (TTable t)
with KnownEntry : TableSchema → string → TomlValue → Prop :=
  | entry_plain s k v : k ∈ keys s → child s k = None → KnownEntry s k v
  | entry_table s k v c :
      k ∈ keys s → child s k = Some c → c ≠ Mount ∨ (∀ vs, v ≠ TArray vs) → Known c v → KnownEntry s k v
  | entry_mounts s k vs :
      k ∈ keys s → child s k = Some Mount → (∀ v, v ∈ vs → Known Mount v) → KnownEntry s k (TArray vs).

Section induction.
Context (P : TomlValue → Prop).
Context (Hleaf : ∀ v, (∀ l, v ≠ TArray l) → (∀ t, v ≠ TTable t) → P v).
Context (Harray : ∀ l, (∀ v, v ∈ l → P v) → P (TArray l)).
Context (Htable : ∀ t, (∀ k v, (k, v) ∈ t → P v) → P (TTable t)).
Fixpoint TomlValue_nested (v : TomlValue) : P v.
Proof using Hleaf Harray Htable.
  destruct v as [s|z|s|b|s|l|t]; [by apply Hleaf..| |].
  - apply Harray. induction l as [|v l IH]; intros x Hx; [destruct (not_elem_of_nil x Hx)|].
    apply elem_of_cons in Hx as [->|Hx]; [apply TomlValue_nested|by apply IH].
  - apply Htable. induction t as [|[k v] t IH]; intros k' x Hx; [destruct (not_elem_of_nil (k', x) Hx)|].
    apply elem_of_cons in Hx as [[= -> ->]|Hx]; [apply TomlValue_nested|by eapply IH].
Defined.
End induction.

Definition exact (v : TomlValue) : Prop :=
  ∀ s prefix file, validate_table_keys v s prefix file = Ok () ↔ Known s v.
(** The array of mounts and the entries of a table, as the inner loops see them. *)
Definition each_ok (s : TableSchema) (file path : string) :=
  fix each (index : Z) (values : list TomlValue) : result FirestoneError () :=
    match values with
    | [] => Ok ()
    | value :: values =>
        validate_table_keys value s (path +:+ "[" +:+ dec index +:+ "]") file;;
        each (index + 1) values
    end.
Lemma each_ok_spec s file path index vs :
  (∀ v, v ∈ vs → exact v) → each_ok s file path index vs = Ok () ↔ ∀ v, v ∈ vs → Known s v.
Proof.
  revert index. induction vs as [|v vs IH]; intros index He; cbn [each_ok].
  { split; [intros _ v Hv; by apply not_elem_of_nil in Hv|done]. }
  rewrite then_Ok. fold (each_ok s file path). pose proof (He v (list_elem_of_here _ _) s) as Hv.
  rewrite IH, Hv by (intros; apply He; by constructor).
  setoid_rewrite elem_of_cons. naive_solver.
Qed.
Definition entries_ok (s : TableSchema) (prefix file : string) :=
  fix entries (table : list (string * TomlValue)) : result FirestoneError () :=
    match table with
    | [] => Ok ()
    | (key, child_value) :: table =>
        let path := key_path prefix key in
        if negb (bool_decide (key ∈ keys s)) then Err (unknown_key s prefix key file)
        else
          match child s key with
          | None => Ok ()
          | Some child_schema =>
              match child_value with
              | TArray values =>
                  if decide (child_schema = Mount) then each_ok child_schema file path 0 values
                  else validate_table_keys child_value child_schema path file
              | _ => validate_table_keys child_value child_schema path file
              end
          end;;
          entries table
    end.
Lemma validate_table s prefix file t : validate_table_keys (TTable t) s prefix file = entries_ok s prefix file t.
Proof. done. Qed.

(** A value and the elements of an array are checked exactly. *)
Definition exact_deep (v : TomlValue) : Prop := exact v ∧ ∀ vs, v = TArray vs → ∀ x, x ∈ vs → exact x.
Lemma entry_exact s prefix file k v :
  exact_deep v →
  (if negb (bool_decide (k ∈ keys s)) then Err (unknown_key s prefix k file)
   else match child s k with
     | None => Ok ()
     | Some c =>
         match v with
         | TArray values => if decide (c = Mount) then each_ok c file (key_path prefix k) 0 values
                            else validate_table_keys v c (key_path prefix k) file
         | _ => validate_table_keys v c (key_path prefix k) file
         end
     end) = Ok () ↔ KnownEntry s k v.
Proof.
  intros [He Hdeep]. case_bool_decide as Hk; cbn [negb]; [|split; [done|by destruct 1]].
  destruct (child s k) as [c|] eqn:Hc; [|split; [by constructor|done]].
  assert (Htable : c ≠ Mount ∨ (∀ vs, v ≠ TArray vs) →
    validate_table_keys v c (key_path prefix k) file = Ok () ↔ KnownEntry s k v).
  { intros Hor. rewrite (He c). split; [intros Hv; by eapply entry_table|].
    destruct 1 as [?? v Hk' Hc'|?? v c' Hk' Hc' Hor' Hv|?? vs Hk' Hc' Hv]; [congruence| |].
    - rewrite Hc in Hc'. by injection Hc' as ->.
    - rewrite Hc in Hc'. injection Hc' as ->. destruct Hor as [|Hn]; [done|]. by destruct (Hn vs). }
  destruct v as [| | | | |vs|]; try (apply Htable; right; done).
  destruct (decide (c = Mount)) as [->|Hn]; [|apply Htable; by left].
  rewrite each_ok_spec by (by apply Hdeep). split; [intros Hv; by apply entry_mounts|].
  inversion 1; simplify_eq; try done. match goal with H : _ ∨ _ |- _ => destruct H as [|Hn]; [done|by destruct (Hn vs)] end.
Qed.
Lemma entries_exact s prefix file t :
  (∀ k v, (k, v) ∈ t → exact_deep v) →
  entries_ok s prefix file t = Ok () ↔ ∀ k v, (k, v) ∈ t → KnownEntry s k v.
Proof.
  induction t as [|[k v] t IH]; intros He; cbn [entries_ok].
  { split; [intros _ k v Hv; by apply not_elem_of_nil in Hv|done]. }
  fold (entries_ok s prefix file).
  assert (Hv : exact_deep v) by (apply (He k); by constructor).
  assert (Ht : ∀ k' v', (k', v') ∈ t → exact_deep v') by (intros k' v' Hin; apply (He k'); by constructor).
  specialize (IH Ht). pose proof (entry_exact s prefix file k v Hv) as Hentry.
  destruct (negb _).
  { split; [done|]. intros Hall. by apply Hentry, Hall, list_elem_of_here. }
  cbv zeta. rewrite then_Ok, IH, Hentry. setoid_rewrite elem_of_cons. naive_solver.
Qed.
Lemma table_keys_exact v : exact_deep v.
Proof.
  induction v as [v Ha Ht|l IH|t IH] using TomlValue_nested.
  - split; [|intros vs ->; by destruct (Ha vs)]. intros s prefix file.
    split; [intros _; by constructor|]. intros _. destruct v; try done. by destruct (Ht table).
  - split; [|intros vs [= ->] x Hx; by apply IH]. intros s prefix file. split; [by constructor|done].
  - split; [|done]. intros s prefix file. rewrite validate_table, entries_exact by done.
    split; [by constructor|]. inversion 1 as [?? Hn|]; [by destruct (Hn t)|done].
Qed.

(** ** Suggestions *)

Lemma first_min_spec best l :
  let r := first_min best l in
  r ∈ best :: l ∧ ∀ x, x ∈ best :: l → (r.2 <= x.2)%nat.
Proof.
  revert best. induction l as [|x l IH]; intros best; cbn [first_min]; cbv zeta.
  { split; [by constructor|]. intros y Hy. apply elem_of_cons in Hy as [->|Hy]; [done|by apply not_elem_of_nil in Hy]. }
  destruct (IH (if (x.2 <? best.2)%nat then x else best)) as [Hin Hle]. split.
  - apply elem_of_cons in Hin as [->|Hin]; [destruct (_ <? _)%nat; set_solver|set_solver].
  - intros y Hy. destruct (Nat.ltb_spec x.2 best.2).
    + apply elem_of_cons in Hy as [->|Hy]; [|by apply Hle].
      specialize (Hle x (list_elem_of_here _ _)). lia.
    + apply elem_of_cons in Hy as [->|Hy]; [by apply Hle; constructor|].
      apply elem_of_cons in Hy as [->|Hy]; [|apply Hle; by constructor].
      specialize (Hle best (list_elem_of_here _ _)). lia.
Qed.
Lemma closest_key_Some u cs c :
  closest_key u cs = Some c →
  c ∈ cs ∧ (edit_distance u c ≤ 3)%nat ∧ ∀ c', c' ∈ cs → (edit_distance u c ≤ edit_distance u c')%nat.
Proof.
  unfold closest_key. destruct (filter _ _) as [|x l] eqn:E; [done|]. intros [= <-].
  destruct (first_min_spec x l) as [Hin Hle]. rewrite <- E in Hin, Hle.
  apply list_elem_of_filter in Hin as [H3 Hin]. apply list_elem_of_fmap in Hin as (c & Hr & Hc).
  rewrite Hr in *. cbn in *. split; [done|]. split; [done|]. intros c' Hc'.
  destruct (decide (edit_distance u c' ≤ 3)%nat) as [Hd|Hd]; [|lia].
  apply (Hle (c', edit_distance u c')). apply list_elem_of_filter. split; [done|]. apply list_elem_of_fmap. by exists c'.
Qed.
Lemma closest_key_None u cs : closest_key u cs = None ↔ ∀ c, c ∈ cs → (3 < edit_distance u c)%nat.
Proof.
  unfold closest_key. destruct (filter _ _) as [|x l] eqn:E.
  - split; [|done]. intros _ c Hc. destruct (decide (edit_distance u c ≤ 3)%nat) as [Hd|Hd]; [|lia].
    assert (Hin : (c, edit_distance u c) ∈ filter (λ x, x.2 <= 3)%nat ((λ c, (c, edit_distance u c)) <$> cs)).
    { apply list_elem_of_filter. split; [done|]. apply list_elem_of_fmap. by exists c. }
    rewrite E in Hin. by apply not_elem_of_nil in Hin.
  - split; [done|]. intros Hn. assert (Hx : x ∈ x :: l) by by constructor. rewrite <- E in Hx.
    apply list_elem_of_filter in Hx as [H3 Hx]. apply list_elem_of_fmap in Hx as (c & -> & Hc).
    specialize (Hn c Hc). cbn in H3. lia.
Qed.

(** ** The overlay's place in a table *)

Definition sorted_table (t : Table) : Prop := StronglySorted str_lt t.*1.

Lemma table_get_insert k v t : table_get k (table_insert k v t) = Some v.
Proof.
  induction t as [|[k' v'] t IH]; cbn [table_insert]; [by cbn; rewrite String.eqb_refl|].
  destruct (String.eqb k k') eqn:E; [by cbn; rewrite String.eqb_refl|].
  destruct (str_ltb k k'); cbn [table_get]; [by rewrite String.eqb_refl|by rewrite E].
Qed.
Lemma table_remove_insert k v t : table_get k t = None → table_remove k (table_insert k v t) = t.
Proof.
  induction t as [|[k' v'] t IH]; cbn [table_insert table_get]; [by cbn; rewrite String.eqb_refl|].
  destruct (String.eqb k k') eqn:E; [done|]. intros Hn.
  destruct (str_ltb k k'); cbn [table_remove]; [by rewrite String.eqb_refl|]. by rewrite E, IH.
Qed.
Lemma table_insert_insert k v v' t : table_insert k v (table_insert k v' t) = table_insert k v t.
Proof.
  induction t as [|[k' w] t IH]; cbn [table_insert]; [by cbn; rewrite String.eqb_refl|].
  destruct (String.eqb k k') eqn:E; [by cbn; rewrite String.eqb_refl|].
  destruct (str_ltb k k') eqn:El; cbn [table_insert]; [by rewrite String.eqb_refl|]. by rewrite E, El, IH.
Qed.
Lemma table_get_in k v t : table_get k t = Some v → (k, v) ∈ t.
Proof.
  induction t as [|[k' v'] t IH]; cbn [table_get]; [done|].
  destruct (String.eqb_spec k k') as [->|Hn]; [intros [= ->]; by constructor|]. intros Hg. constructor. by apply IH.
Qed.
Lemma table_insert_id k v t : sorted_table t → table_get k t = Some v → table_insert k v t = t.
Proof.
  unfold sorted_table. induction t as [|[k' v'] t IH]; cbn [table_insert table_get]; [done|]. intros Hs Hg.
  destruct (String.eqb_spec k k') as [->|Hn]; [by injection Hg as ->|].
  cbn in Hs. apply StronglySorted_inv in Hs as [Hs Hall]. rewrite IH by done.
  assert (Hk : str_lt k' k).
  { rewrite Forall_forall in Hall. apply Hall. apply table_get_in in Hg. apply list_elem_of_fmap. by exists (k, v). }
  destruct (str_ltb k k') eqn:E; [|done]. destruct (str_lt_irrefl k). by eapply str_lt_trans.
Qed.
Lemma table_remove_id k t : table_get k t = None → table_remove k t = t.
Proof.
  induction t as [|[k' v'] t IH]; cbn [table_get table_remove]; [done|].
  destruct (String.eqb k k'); [done|]. intros Hn. by rewrite IH.
Qed.
Lemma elem_of_table_insert k v t x : x ∈ table_insert k v t → x = (k, v) ∨ x ∈ t.
Proof.
  induction t as [|[k' v'] t IH]; cbn [table_insert]; [set_solver|].
  destruct (String.eqb k k'); [set_solver|]. destruct (str_ltb k k'); set_solver.
Qed.

(** The tables on the way exist and the leaf is free, or the leaf is not there to be taken. *)
Fixpoint has_room (v : TomlValue) (parents : list string) (leaf : string) : Prop :=
  match parents with
  | [] => ∃ t, v = TTable t ∧ table_get leaf t = None
  | p :: ps => ∃ t c, v = TTable t ∧ sorted_table t ∧ table_get p t = Some c ∧ has_room c ps leaf
  end.
Fixpoint lacks (v : TomlValue) (parents : list string) (leaf : string) : Prop :=
  match parents with
  | [] => ∀ t, v = TTable t → table_get leaf t = None
  | p :: ps => ∀ t c, v = TTable t → table_get p t = Some c → sorted_table t ∧ lacks c ps leaf
  end.
Lemma insert_then_take v parents leaf x file v' :
  has_room v parents leaf → insert_under v parents leaf x file = Ok v' →
  take_under v' parents leaf = (v, Some x).
Proof.
  revert v v'. induction parents as [|p ps IH]; intros v v'; cbn [has_room insert_under].
  - intros (t & -> & Hn) [= <-]. cbn [take_under]. by rewrite table_get_insert, table_remove_insert.
  - intros (t & c & -> & Hs & Hg & Hr). rewrite Hg. cbn [default from_option id].
    destruct (insert_under c ps leaf x file) as [c'|] eqn:Hc; cbn [mbind result_bind]; [|done]. intros [= <-].
    cbn [take_under]. rewrite table_get_insert, (IH c c') by done. by rewrite table_insert_insert, table_insert_id.
Qed.
Lemma take_lacks v parents leaf : lacks v parents leaf → take_under v parents leaf = (v, None).
Proof.
  revert v. induction parents as [|p ps IH]; intros v; cbn [lacks take_under]; destruct v; try done.
  - intros Hn. specialize (Hn _ eq_refl). by rewrite Hn, table_remove_id.
  - intros Hl. destruct (table_get p table) as [c|] eqn:Hg; [|done]. destruct (Hl _ _ eq_refl Hg) as [Hs Hc].
    by rewrite IH, table_insert_id.
Qed.
Lemma insert_room v parents leaf x file : has_room v parents leaf → ∃ v', insert_under v parents leaf x file = Ok v'.
Proof.
  revert v. induction parents as [|p ps IH]; intros v; cbn [has_room insert_under].
  - intros (t & -> & _). by eexists.
  - intros (t & c & -> & _ & Hg & Hr). rewrite Hg. cbn [default from_option id]. destruct (IH c Hr) as [c' ->]. by eexists.
Qed.

(** The text under [vmm] is one of the known keys. *)
Lemma known_insert v text file v' :
  Known Machine v → has_room v ["vmm"] "config_overlay" →
  insert_under v ["vmm"] "config_overlay" (TString text) file = Ok v' → Known Machine v'.
Proof.
  intros Hk (t & c & -> & _ & Hg & vt & -> & _) Hi. cbn [insert_under] in Hi. rewrite Hg in Hi.
  cbn [default from_option id mbind result_bind insert_under] in Hi. injection Hi as <-.
  inversion Hk as [?? Hn|?? Ht]; subst; [by destruct (Hn t)|]. apply known_table.
  intros k v [[= -> ->]|Hin]%elem_of_table_insert; [|by apply Ht].
  apply table_get_in in Hg. apply (entry_table _ _ _ Vmm); [set_solver|done|by right|]. apply known_table.
  intros k' w [[= -> ->]|Hin]%elem_of_table_insert; [apply entry_plain; [set_solver|done]|].
  apply Ht in Hg. inversion Hg as [| ???? _ Hc _ Hv|]; simplify_eq. inversion Hv as [?? Hn|?? Hvt]; subst; [by destruct (Hn vt)|].
  injection Hc as <-. by apply Hvt.
Qed.

(** ** Properties *)

(** the known-key check is exact at every depth: a document passes exactly when each of its
    tables, down to every entry of the array of mounts, has only keys of its own schema. *)
Theorem known_keys_exact value schema prefix file :
  validate_table_keys value schema prefix file = Ok () ↔ Known schema value.
Proof. apply table_keys_exact. Qed.

(** the suggestion for an unknown key is a key of the table that no other key is closer to,
    within three edits in the sense of shortest edit scripts, and there is none exactly when
    every key is further away. *)
Theorem closest_key_nearest unknown candidates :
  (∀ c, closest_key unknown candidates = Some c →
    c ∈ candidates ∧ ∃ n, distance (chars unknown) (chars c) n ∧ (n ≤ 3)%nat
      ∧ ∀ c' m, c' ∈ candidates → distance (chars unknown) (chars c') m → (n ≤ m)%nat)
  ∧ (closest_key unknown candidates = None ↔
     ∀ c m, c ∈ candidates → distance (chars unknown) (chars c) m → (3 < m)%nat).
Proof.
  split.
  - intros c (Hc & H3 & Hle)%closest_key_Some. split; [done|]. exists (edit_distance unknown c).
    split; [apply edit_distance_spec|]. split; [done|]. intros c' m Hc' Hm.
    rewrite (distance_unique _ _ _ _ Hm (edit_distance_spec _ _)). by apply Hle.
  - rewrite closest_key_None. split.
    + intros Hn c m Hc Hm. rewrite (distance_unique _ _ _ _ Hm (edit_distance_spec _ _)). by apply Hn.
    + intros Hn c Hc. eapply Hn; [done|apply edit_distance_spec].
Qed.

Section roundtrip.
Context `{Toml} `{OverlayJson Json} `{!TomlType (MachineSpecPatch.MachineSpecPatch Json)}.
Local Abbreviation Patch := (MachineSpecPatch.MachineSpecPatch Json).

(** What the TOML crate and the derived conversions promise for a layer without overlay: its
    keys are the schema's, the table of [vmm] is there when the layer has one and has no overlay,
    and its printed form reads back. *)
Record renders (q : Patch) (v : TomlValue) : Prop := {
  renders_known : Known Machine v;
  renders_vmm : match MachineSpecPatch.vmm q with
    | Some _ => has_room v ["vmm"] "config_overlay"
    | None => True end;
  renders_lacks : lacks v ["vmm"] "config_overlay";
  renders_back : ∃ text, to_string_pretty v = Ok text ∧ deserialize text = Ok q }.

Lemma with_overlay_back (p : Patch) v :
  MachineSpecPatch.vmm p = Some v →
  with_overlay (VmmSpecPatch.config_overlay v) (with_overlay None p) = p.
Proof. intros E. destruct p, v. cbn in *. subst. done. Qed.
Lemma take_overlay_none (p : Patch) : (take_overlay p).2 = None → (take_overlay p).1 = p.
Proof.
  unfold take_overlay. destruct (MachineSpecPatch.vmm p) as [v|] eqn:E; [|done]. cbn. intros Ho.
  rewrite <- (with_overlay_back p v E) at 2. by rewrite Ho.
Qed.

Lemma read_layer text v' v taken o t0 q p :
  parse text = Ok v' → Known Machine v' → take_toml_path v' OVERLAY_PATH = (v, taken) →
  match taken with
  | Some x => Some <$> decode_toml_overlay x "firestone.toml" OVERLAY_PATH
  | None => Ok None
  end = Ok o →
  to_string_pretty v = Ok t0 → deserialize t0 = Ok q →
  match o with Some overlay => with_overlay (Some overlay) q | None => q end = p →
  MachineSpecPatch.validate p = Ok () → patch_from_toml text = Ok p.
Proof.
  intros Hp Hk Ht Ho Ht0 Hq Hw Hv. unfold patch_from_toml, validate_known_keys, deserialize_patch_toml, parse_toml.
  rewrite Hp. cbn [map_err mbind result_bind]. rewrite (proj2 (proj1 (table_keys_exact v') Machine "" _) Hk).
  cbn [mbind result_bind]. rewrite Ht. cbv beta iota. rewrite Ho. cbn [mbind result_bind].
  unfold encode_toml_value, deserialize_toml. rewrite Ht0. cbn [map_err mbind result_bind]. rewrite Hq.
  cbn [map_err mbind result_bind]. cbv zeta. rewrite Hw, Hv. done.
Qed.
Lemma taken_vmm (p : Patch) o : (take_overlay p).2 = Some o →
  ∃ v, MachineSpecPatch.vmm p = Some v ∧ VmmSpecPatch.config_overlay v = Some o ∧ (take_overlay p).1 = with_overlay None p.
Proof. unfold take_overlay. destruct (MachineSpecPatch.vmm p) as [v|]; [|done]. by exists v. Qed.

(** a layer survives its file: what [to_toml] writes for a layer, the overlay smuggled in as
    JSON text included, [from_toml] reads back as the same layer, given that the TOML printer and
    the derived conversions are faithful on the layer without its overlay. *)
Theorem patch_toml_roundtrip (p : Patch) text :
  (∀ v t, to_string_pretty v = Ok t → parse t = Ok v) →
  (∀ o t, (take_overlay p).2 = Some o → json_to_string o = Ok t → json_from_str t = Ok o) →
  (∀ v, try_from (take_overlay p).1 = Ok v → renders (take_overlay p).1 v) →
  patch_to_toml p = Ok text → patch_from_toml text = Ok p.
Proof.
  intros Hparse Hjson Hrender Hto. unfold patch_to_toml in Hto. apply bind_Ok in Hto as ([] & Hvalid & Hto).
  pose proof (take_overlay_none p) as Hnone. pose proof (taken_vmm p) as Htaken.
  destruct (take_overlay p) as [q o]. cbn [fst snd] in *. unfold serialize_toml_with_overlay in Hto.
  apply bind_Ok in Hto as (v & Htry%map_err_Ok & Hto). destruct (Hrender v Htry) as [Hk Hroom Hlacks (t0 & Ht0 & Hback)].
  apply bind_Ok in Hto as (v' & Hins & Htext%map_err_Ok). apply Hparse in Htext. destruct o as [o|].
  - destruct (Htaken o eq_refl) as (w & Hw & Hov & ->). cbn [MachineSpecPatch.vmm with_overlay] in Hroom.
    apply bind_Ok in Hins as ([] & Hobj & Hins). apply bind_Ok in Hins as (jt & Hjt%map_err_Ok & Hins).
    change (insert_under v ["vmm"] "config_overlay" (TString jt) "firestone.toml" = Ok v') in Hins.
    apply (read_layer text v' v (Some (TString jt)) (Some o) t0 (with_overlay None p)); try done.
    + by apply (known_insert v jt "firestone.toml").
    + change (take_under v' ["vmm"] "config_overlay" = (v, Some (TString jt))). by eapply insert_then_take.
    + unfold decode_toml_overlay, overlay_from_text. cbv beta iota. rewrite (Hjson o jt eq_refl Hjt).
      unfold validate_overlay in *. destruct (is_object o) eqn:Eo; [|done]. cbn [map_err mbind result_bind]. rewrite Eo. done.
    + rewrite <- Hov. by apply with_overlay_back.
  - injection Hins as <-. rewrite (Hnone eq_refl) in *.
    apply (read_layer text v v None None t0 p); try done. by apply take_lacks.
Qed.
End roundtrip.

(** A concrete codec, for layers that only have an overlay. *)
Definition overlay_layer : MachineSpecPatch.MachineSpecPatch bool := with_overlay (Some true) MachineSpecPatch.default.
#[export] Instance demo_toml : Toml := {|
  parse t :=
    if String.eqb t "[vmm]" then Ok (TTable [("vmm", TTable [])])
    else match strip_prefix "[vmm] config_overlay = " t with
    | Some s => Ok (TTable [("vmm", TTable [("config_overlay", TString s)])])
    | None => Err "unsupported"
    end;
  to_string_pretty v :=
    match v with
    | TTable [(k, TTable [])] => if String.eqb k "vmm" then Ok "[vmm]" else Err "unsupported"
    | TTable [(k, TTable [(k', TString s)])] =>
        if String.eqb k "vmm" && String.eqb k' "config_overlay"
        then Ok ("[vmm] config_overlay = " +:+ s) else Err "unsupported"
    | _ => Err "unsupported"
    end |}.
#[export] Instance demo_layer_type : TomlType (MachineSpecPatch.MachineSpecPatch bool) := {|
  try_from _ := Ok (TTable [("vmm", TTable [])]);
  deserialize _ := Ok (with_overlay None MachineSpecPatch.default) |}.
Lemma patch_toml_roundtrip_witness : patch_from_toml "[vmm] config_overlay = {}" = Ok overlay_layer.
Proof.
  apply (patch_toml_roundtrip overlay_layer "[vmm] config_overlay = {}").
  - intros [| | | | | |[|[k [| | | | | |[|[k' [s| | | | | |]] [|]]]] [|]]] t; cbn; try discriminate.
    + destruct (String.eqb_spec k "vmm") as [->|]; [|discriminate]. intros [= <-]. reflexivity.
    + destruct (String.eqb_spec k "vmm") as [->|]; [|discriminate].
      destruct (String.eqb_spec k' "config_overlay") as [->|]; [|discriminate]. intros [= <-]. reflexivity.
  - intros o t [= <-] [= <-]. reflexivity.
  - intros v [= <-]. split.
    + apply (proj1 (table_keys_exact _) Machine "" "firestone.toml"). reflexivity.
    + exists [("vmm", TTable [])], (TTable []). repeat split; [repeat constructor|]. by exists [].
    + intros t c [= <-] [= <-]. split; [repeat constructor|]. by intros t [= <-].
    + exists "[vmm]". split; reflexivity.
  - reflexivity.
Defined.
