(* ===== verification/Catalog.v ===== *)
(** The image catalog ([firestone-core/src/catalog.rs]): documents of entries, the checks that
    make a set of entries a catalog, how later documents override earlier ones, and how a
    reference such as [ubuntu] or [ubuntu:noble] finds its entry.  The TOML and URL crates and the
    file system are parameters. *)
From stdpp Require Import gmap sorting.
From S2P Require Import Prelude RustStr Errors Values Utf8 Chars Edit BTree.
Open Scope Z_scope.

Definition CATALOG_FILE_HINT : string := "fix the catalog file and retry".
Definition DEFAULT_SSHD_PATH : string := "/usr/sbin/sshd".

(** ** SshdPath: [None] stands for the default *)

Definition SshdPath : Set := option string.
Definition sshd_byte (a : ascii) : bool :=
  is_ascii_alphanumeric a || Ascii.eqb a "." || Ascii.eqb a "_" || Ascii.eqb a "+" || Ascii.eqb a "-".
Definition sshd_valid (value : string) : bool :=
  match strip_prefix "/" value with
  | Some relative =>
      negb (is_empty relative)
      && forallb (λ c, negb (is_empty c) && negb (String.eqb c "." || String.eqb c "..") && all_bytes sshd_byte c)
           (split "/" relative)
  | None => false
  end.
Definition sshd_new (value : string) : result FirestoneError SshdPath :=
  if negb (sshd_valid value) || (4096 <? len value)
  then Err (with_hint (error_new InvalidSpec
         "sshd_path must be an absolute POSIX executable path using only +                 [A-Za-z0-9._+-] components")
         "set sshd_path to the absolute sshd executable inside the guest")
  else Ok (if String.eqb value DEFAULT_SSHD_PATH then None else Some value).
Definition sshd_as_str (p : SshdPath) : string := default DEFAULT_SSHD_PATH p.
Definition sshd_is_default (p : SshdPath) : bool := match p with None => true | Some _ => false end.

(** ** Entries *)

Inductive CatalogFirmware : Set := Rhf | Edk2.
Inductive ImageFormat : Set := Qcow2 | Raw.
Inductive ChecksumAlgorithm : Set := Sha256 | Sha512.
#[export] Instance ChecksumAlgorithm_eq_dec : EqDecision ChecksumAlgorithm.
Proof. solve_decision. Defined.
Inductive CatalogChecksum : Set := ManifestUrl (url : string) | DirectSha256 (digest : string).
Record CatalogArchSource : Set := {
  url : string;
  checksum : CatalogChecksum;
  checksum_algorithm : ChecksumAlgorithm;
  firmware_override : option CatalogFirmware }.
Record CatalogEntry : Type := {
  distro : string;
  version : string;
  aliases : list string;
  is_default : bool;
  firmware : CatalogFirmware;
  format : ImageFormat;
  sshd_path : SshdPath;
  arch : gmap string CatalogArchSource }.
Definition canonical_reference (e : CatalogEntry) : string := distro e +:+ ":" +:+ version e.
Record ResolvedCatalogEntry : Set := {
  resolved_reference : string;
  resolved_source : CatalogArchSource;
  resolved_algorithm : ChecksumAlgorithm;
  resolved_firmware : CatalogFirmware;
  resolved_format : ImageFormat;
  resolved_sshd_path : SshdPath;
  resolved_architecture : string }.

(** [Catalog]: a [BTreeMap] by canonical reference. *)
Notation Entries := (gmap string CatalogEntry).
Definition values (entries : Entries) : list CatalogEntry := (iter entries).*2.

(** ** What the crates do *)

(** [url::Url]: what the checks look at, and whether parsing met a syntax violation. *)
Record ParsedUrl : Set := {
  syntax_violation : bool;
  scheme : string;
  has_host : bool;
  username : string;
  has_password : bool;
  authority : string;
  has_fragment : bool }.
(** [Url::options().parse]; an error is known by its text. *)
Class UrlCrate := { url_parse : string → result string ParsedUrl }.

Record RawArchSource : Set := {
  raw_url : string;
  checksum_url : option string;
  sha256 : option string;
  raw_firmware : option CatalogFirmware;
  checksum_alg : ChecksumAlgorithm }.
Record RawCatalogEntry : Type := {
  raw_distro : string;
  raw_version : string;
  raw_aliases : list string;
  raw_default : bool;
  raw_entry_firmware : CatalogFirmware;
  raw_format : ImageFormat;
  raw_sshd_path : SshdPath;
  raw_arch : gmap string RawArchSource }.
(** [toml::from_str::<CatalogDocument>]. *)
Class CatalogToml := { catalog_from_str : string → result string (list RawCatalogEntry) }.

(** ** Checks on one document *)

Definition with_catalog_hint (e : FirestoneError) (user_editable : bool) : FirestoneError :=
  if user_editable then with_hint e CATALOG_FILE_HINT else e.
Definition invalid_catalog (source detail : string) (user_editable : bool) : FirestoneError :=
  with_catalog_hint (error_new InvalidSpec ("invalid " +:+ source +:+ ": " +:+ detail)) user_editable.

Definition reference_byte (a : ascii) : bool :=
  is_ascii_alphanumeric a || Ascii.eqb a "." || Ascii.eqb a "_" || Ascii.eqb a "+" || Ascii.eqb a "-".
Definition is_reference_component (value : string) : bool :=
  match value with
  | EmptyString => false
  | String a rest => is_ascii_alphanumeric a && all_bytes reference_byte rest
  end.
Definition validate_reference_component (field value source : string) (user_editable : bool) : result FirestoneError () :=
  if is_reference_component value then Ok ()
  else Err (invalid_catalog source
         (field +:+ " '" +:+ value +:+ "' is not a valid catalog reference component") user_editable).
Definition validate_architecture_name (architecture reference source : string) (user_editable : bool)
    : result FirestoneError () :=
  if String.eqb architecture "x86_64" || String.eqb architecture "aarch64" then Ok ()
  else Err (invalid_catalog source
         ("image '" +:+ reference +:+ "' key 'image.arch." +:+ architecture
          +:+ "' is unsupported; expected x86_64 or aarch64") user_editable).

Section documents.
Context `{UrlCrate} `{CatalogToml}.

Definition parse_https_url (value : string) : option ParsedUrl :=
  if existsb is_whitespace (chars value) then None
  else
    parsed ← res_ok (url_parse value);
    if syntax_violation parsed || negb (String.eqb (scheme parsed) "https") || negb (has_host parsed)
       || negb (is_empty (username parsed)) || has_password parsed || has_char "@" (authority parsed)
       || has_fragment parsed
    then None else Some parsed.
Definition is_https_url (value : string) : bool := bool_decide (is_Some (parse_https_url value)).

Definition hex_digit_byte (a : ascii) : bool := is_ascii_digit a || byte_in 65 70 a || byte_in 97 102 a.
Definition convert_arch_source (raw : RawArchSource) (reference architecture source : string) (user_editable : bool)
    : result FirestoneError CatalogArchSource :=
  let field_context := "image '" +:+ reference +:+ "' architecture '" +:+ architecture +:+ "'" in
  let error detail := invalid_catalog source (field_context +:+ detail) user_editable in
  if negb (is_https_url (raw_url raw))
  then Err (error (" has invalid image URL '" +:+ raw_url raw
             +:+ "'; expected HTTPS with a host and without credentials or a fragment"))
  else
    checksum ← match checksum_url raw, sha256 raw with
      | Some manifest, None =>
          if negb (is_https_url manifest)
          then Err (error (" has invalid checksum URL '" +:+ manifest
                     +:+ "'; expected HTTPS with a host and without credentials or a fragment"))
          else Ok (ManifestUrl manifest)
      | None, Some digest =>
          if negb (bool_decide (checksum_alg raw = Sha256))
          then Err (error " uses direct sha256 with a non-sha256 algorithm")
          else if negb (len digest =? 64) || negb (all_bytes hex_digit_byte digest)
          then Err (error " has an invalid sha256 digest")
          else Ok (DirectSha256 (to_ascii_lowercase digest))
      | Some _, Some _ => Err (error " sets both checksum_url and sha256")
      | None, None => Err (error " requires checksum_url or sha256")
      end;
    Ok {| url := raw_url raw; checksum := checksum; checksum_algorithm := checksum_alg raw;
          firmware_override := raw_firmware raw |}.

(** The aliases as a [BTreeSet]. *)
Definition sorted_set (s : gset string) : list string := merge_sort str_le (elements s).
Definition add_alias (reference source : string) (user_editable : bool) (aliases : gset string) (alias : string)
    : result FirestoneError (gset string) :=
  validate_reference_component "alias" alias source user_editable;;
  if bool_decide (alias ∈ aliases)
  then Err (invalid_catalog source ("image '" +:+ reference +:+ "' repeats alias '" +:+ alias +:+ "'") user_editable)
  else Ok ({[alias]} ∪ aliases).
Definition add_arch (reference source : string) (user_editable : bool) (m : gmap string CatalogArchSource)
    (x : string * RawArchSource) : result FirestoneError (gmap string CatalogArchSource) :=
  validate_architecture_name x.1 reference source user_editable;;
  s ← convert_arch_source x.2 reference x.1 source user_editable;
  Ok (<[x.1 := s]> m).
Definition convert_entry (raw : RawCatalogEntry) (source : string) (user_editable : bool)
    : result FirestoneError CatalogEntry :=
  validate_reference_component "distro" (raw_distro raw) source user_editable;;
  validate_reference_component "version" (raw_version raw) source user_editable;;
  let reference := raw_distro raw +:+ ":" +:+ raw_version raw in
  aliases ← fold_result (add_alias reference source user_editable) ∅ (raw_aliases raw);
  if bool_decide (raw_arch raw = ∅)
  then Err (invalid_catalog source ("image '" +:+ reference +:+ "' has no architecture sources") user_editable)
  else
    arch ← fold_result (add_arch reference source user_editable) ∅ (iter (raw_arch raw));
    Ok {| distro := raw_distro raw; version := raw_version raw; aliases := sorted_set aliases;
          is_default := raw_default raw; firmware := raw_entry_firmware raw; format := raw_format raw;
          sshd_path := raw_sshd_path raw; arch := arch |}.

Definition add_entry (source : string) (user_editable : bool) (st : gset string * list CatalogEntry)
    (raw : RawCatalogEntry) : result FirestoneError (gset string * list CatalogEntry) :=
  entry ← convert_entry raw source user_editable;
  let reference := canonical_reference entry in
  if bool_decide (reference ∈ st.1)
  then Err (invalid_catalog source ("duplicate canonical reference '" +:+ reference +:+ "'") user_editable)
  else Ok ({[reference]} ∪ st.1, st.2 ++ [entry]).
Definition parse_document (input source : string) (user_editable : bool) : result FirestoneError (list CatalogEntry) :=
  document ← map_err (λ error,
      with_catalog_hint (with_source (error_new InvalidSpec ("cannot parse " +:+ source +:+ ": " +:+ error)) error)
        user_editable)
    (catalog_from_str input);
  st ← fold_result (add_entry source user_editable) (∅, []) document;
  Ok st.2.

(** ** Checks on the whole catalog *)

Definition join_names (l : list string) : string := String.concat ", " l.
(** Entries grouped by distro, in order. *)
Definition by_distro (entries : list CatalogEntry) : gmap string (list CatalogEntry) :=
  foldl (λ m e, <[distro e := default [] (m !! distro e) ++ [e]]> m) ∅ entries.
Definition check_distro (_ : ()) (x : string * list CatalogEntry) : result FirestoneError () :=
  let defaults := canonical_reference <$> filter (λ e, is_default e = true) x.2 in
  if negb (Z.of_nat (length defaults) =? 1)
  then Err (with_hint (error_new InvalidSpec
         ("catalog distro '" +:+ x.1 +:+ "' must have exactly one default release; found "
          +:+ dec (Z.of_nat (length defaults)) +:+ " across " +:+ join_names (canonical_reference <$> x.2)))
         CATALOG_FILE_HINT)
  else Ok ().
Definition validate_defaults (entries : Entries) : result FirestoneError () :=
  fold_result check_distro () (iter (by_distro (values entries))).

(** [Vec::dedup]. *)
Fixpoint dedup (l : list string) : list string :=
  match l with
  | a :: ((b :: _) as l') => if String.eqb a b then dedup l' else a :: dedup l'
  | l => l
  end.
Definition selectors (e : CatalogEntry) : list string := dedup (merge_sort str_le (aliases e ++ [version e])).
Definition add_name (e : CatalogEntry) (names : gmap (string * string) string) (selector : string)
    : result FirestoneError (gmap (string * string) string) :=
  let name := (distro e, selector) in
  let reference := canonical_reference e in
  match names !! name with
  | Some previous =>
      if String.eqb previous reference then Ok (<[name := reference]> names)
      else Err (with_hint (error_new InvalidSpec
             ("catalog name '" +:+ distro e +:+ ":" +:+ selector +:+ "' is ambiguous between '" +:+ previous
              +:+ "' and '" +:+ reference +:+ "'")) CATALOG_FILE_HINT)
  | None => Ok (<[name := reference]> names)
  end.
Definition add_names (names : gmap (string * string) string) (e : CatalogEntry)
    : result FirestoneError (gmap (string * string) string) :=
  fold_result (add_name e) names (selectors e).
Definition validate_reference_names (entries : Entries) : result FirestoneError () :=
  fold_result add_names ∅ (values entries);;
  Ok ().
Definition validate (entries : Entries) : result FirestoneError Entries :=
  validate_defaults entries;;
  validate_reference_names entries;;
  Ok entries.

Definition add_by_reference (m : Entries) (e : CatalogEntry) : Entries := <[canonical_reference e := e]> m.
Definition entries_by_reference (l : list CatalogEntry) : Entries := foldl add_by_reference ∅ l.

(** ** Loading *)

(** The file system: [fs::read_to_string], and whether nothing is at the path. *)
Class CatalogFiles := {
  read_to_string : string → result IoError string;
  nothing_at : string → bool }.
Definition merge_catalog_file `{CatalogFiles} (optional : bool) (entries : Entries) (path : string)
    : result FirestoneError Entries :=
  match read_to_string path with
  | Ok input =>
      parsed ← parse_document input ("catalog '" +:+ path +:+ "'") true;
      Ok (foldl add_by_reference entries parsed)
  | Err error =>
      if optional && (bool_decide (io_kind error = IoNotFound) && nothing_at path) then Ok entries
      else Err (with_source (with_hint
             (error_new (if bool_decide (io_kind error = IoNotFound) then NotFound else Generic)
               ("cannot read catalog '" +:+ path +:+ "': " +:+ io_text error))
             "check the catalog path and file permissions") (io_text error))
  end.
Definition built_in (document : string) : result FirestoneError Entries :=
  entries ← parse_document document "built-in catalog" false;
  validate (entries_by_reference entries).
Definition load `{CatalogFiles} (document config_catalog : string) (extra_catalogs : list string)
    : result FirestoneError Entries :=
  built_in ← parse_document document "built-in catalog" false;
  entries ← merge_catalog_file true (entries_by_reference built_in) config_catalog;
  entries ← fold_result (merge_catalog_file false) entries extra_catalogs;
  validate entries.

(** ** Lookup *)

Definition names_entry (distro_ : string) (selector : option string) (e : CatalogEntry) : bool :=
  String.eqb (distro e) distro_
  && match selector with
     | Some s => String.eqb (version e) s || existsb (String.eqb s) (aliases e)
     | None => is_default e
     end.
Definition split_reference (reference : string) : string * option string :=
  match split_once ":" reference with
  | Some (d, s) => (d, Some s)
  | None => (reference, None)
  end.
Definition find (entries : Entries) (reference : string) : option CatalogEntry :=
  let '(d, s) := split_reference reference in List.find (names_entry d s) (values entries).
Definition contains_reference (entries : Entries) (reference : string) : bool :=
  bool_decide (is_Some (find entries reference)).

(** Every name of the catalog, then the nearest by edit distance and name. *)
Definition entry_names (e : CatalogEntry) : list string :=
  canonical_reference e :: (if is_default e then [distro e] else [])
  ++ ((λ alias, distro e +:+ ":" +:+ alias) <$> aliases e).
Definition all_names (entries : Entries) : gset string := list_to_set (concat (entry_names <$> values entries)).
Definition rank_le (p q : nat * string) : Prop := (p.1 < q.1)%nat ∨ (p.1 = q.1 ∧ str_le p.2 q.2).
#[export] Instance rank_le_dec p q : Decision (rank_le p q).
Proof. unfold rank_le. apply _. Defined.
Definition closest_names (entries : Entries) (reference : string) (limit : nat) : list string :=
  (take limit (merge_sort rank_le ((λ n, (levenshtein reference n, n)) <$> sorted_set (all_names entries)))).*2.
Definition unknown_image (entries : Entries) (reference : string) : FirestoneError :=
  let closest := join_names (closest_names entries reference 3) in
  with_hint (error_new NotFound
    (if is_empty closest then "unknown image '" +:+ reference +:+ "'"
     else "unknown image '" +:+ reference +:+ "'; closest catalog images: " +:+ closest))
    "run `firestone catalog` to list catalog images, or pull a container image by writing `docker://nginx`".

(** [Catalog::resolve]. *)
Definition resolve (entries : Entries) (reference host_architecture : string) : result FirestoneError ResolvedCatalogEntry :=
  entry ← ok_or (find entries reference) (unknown_image entries reference);
  let canonical := canonical_reference entry in
  source ← ok_or (arch entry !! host_architecture)
    (with_hint (error_new NotFound
       ("image '" +:+ canonical +:+ "' has no source for architecture '" +:+ host_architecture
        +:+ "'; available architectures: " +:+ join_names (iter (arch entry)).*1))
       "use a host with one of the available architectures");
  Ok {| resolved_reference := canonical; resolved_source := source;
        resolved_algorithm := checksum_algorithm source;
        resolved_firmware := default (firmware entry) (firmware_override source);
        resolved_format := format entry; resolved_sshd_path := sshd_path entry;
        resolved_architecture := host_architecture |}.
End documents.

(** ** Names *)

Lemma elem_of_dedup_names x l : x ∈ dedup l ↔ x ∈ l.
Proof.
  induction l as [|a l IH]; [done|]. cbn [dedup]. destruct l as [|b l]; [done|].
  destruct (String.eqb_spec a b) as [->|Hn]; rewrite ?elem_of_cons, IH, ?elem_of_cons; naive_solver.
Qed.
Lemma elem_of_selectors s e : s ∈ selectors e ↔ s = version e ∨ s ∈ aliases e.
Proof. unfold selectors. rewrite elem_of_dedup_names, merge_sort_Permutation, elem_of_app, list_elem_of_singleton. naive_solver. Qed.
Lemma names_entry_Some d s e : names_entry d (Some s) e = true ↔ distro e = d ∧ s ∈ selectors e.
Proof.
  unfold names_entry. rewrite andb_true_iff, orb_true_iff, !String.eqb_eq, elem_of_selectors, existsb_exists.
  setoid_rewrite String.eqb_eq. setoid_rewrite <- list_elem_of_In. naive_solver.
Qed.
Lemma names_entry_None d e : names_entry d None e = true ↔ distro e = d ∧ is_default e = true.
Proof. unfold names_entry. by rewrite andb_true_iff, String.eqb_eq. Qed.

(** *** What the map of names says after some entries *)

Definition named (es : list CatalogEntry) (names : gmap (string * string) string) : Prop :=
  ∀ e s, e ∈ es → s ∈ selectors e → names !! (distro e, s) = Some (canonical_reference e).
Lemma add_name_Ok e names s names' :
  add_name e names s = Ok names' →
  names' = <[(distro e, s) := canonical_reference e]> names
  ∧ (names !! (distro e, s) = None ∨ names !! (distro e, s) = Some (canonical_reference e)).
Proof.
  unfold add_name. destruct (names !! _) as [p|] eqn:Hp; [|intros [= <-]; auto].
  destruct (String.eqb_spec p (canonical_reference e)) as [->|]; [intros [= <-]; auto|done].
Qed.
Lemma add_name_keeps e names s names' k r :
  add_name e names s = Ok names' → names !! k = Some r → names' !! k = Some r.
Proof.
  intros [-> Hor]%add_name_Ok Hk. destruct (decide (k = (distro e, s))) as [->|Hn]; [|by rewrite lookup_insert_ne].
  rewrite lookup_insert_eq. destruct Hor as [E|E]; congruence.
Qed.
Lemma add_names_Ok names e names' :
  add_names names e = Ok names' →
  (∀ k r, names !! k = Some r → names' !! k = Some r) ∧ named [e] names'.
Proof.
  unfold add_names, named. intros Hf. 
  cut ((∀ k r, names !! k = Some r → names' !! k = Some r)
       ∧ ∀ s, s ∈ selectors e → names' !! (distro e, s) = Some (canonical_reference e)).
  { intros [Hk Hn]. split; [done|]. intros e' s ->%list_elem_of_singleton. apply Hn. }
  revert Hf. apply (fold_result_inv (add_name e) (λ done_ names',
    (∀ k r, names !! k = Some r → names' !! k = Some r)
    ∧ ∀ s, s ∈ done_ → names' !! (distro e, s) = Some (canonical_reference e))).
  - split; [done|]. intros s Hs. by apply not_elem_of_nil in Hs.
  - intros done_ s rest n n' _ [Hk Hn] Hadd. split; [intros; by eapply add_name_keeps, Hk|].
    intros s' [Hs| ->%list_elem_of_singleton]%elem_of_app; [by eapply add_name_keeps, Hn|].
    apply add_name_Ok in Hadd as [-> _]. by rewrite lookup_insert_eq.
Qed.
Lemma reference_names_named entries :
  validate_reference_names entries = Ok () → ∃ names, named (values entries) names.
Proof.
  unfold validate_reference_names. intros (names & Hf & _)%bind_Ok. exists names. revert Hf.
  apply (fold_result_inv add_names (λ done_ names, named done_ names)).
  - intros e s He. by apply not_elem_of_nil in He.
  - intros done_ e rest n n' _ Hn [Hk He]%add_names_Ok e' s [Hd|Hd]%elem_of_app Hs; [by apply Hk, Hn|by apply He].
Qed.

(** *** Defaults *)

Lemma by_distro_lookup es d :
  default [] (by_distro es !! d) = filter (λ e, distro e = d) es
  ∧ (by_distro es !! d = None → filter (λ e, distro e = d) es = []).
Proof.
  unfold by_distro. induction es as [|e es IH] using rev_ind; [done|].
  rewrite foldl_snoc, filter_app, filter_cons, filter_nil. destruct IH as [IH1 IH2].
  destruct (decide (distro e = d)) as [<-|Hn].
  - rewrite lookup_insert_eq. split; [|done]. cbn. by rewrite IH1.
  - rewrite lookup_insert_ne, app_nil_r by done. done.
Qed.
Lemma defaults_unique entries d :
  validate_defaults entries = Ok () → (∃ e, e ∈ values entries ∧ distro e = d) →
  ∃ e, filter (λ e, is_default e = true) (filter (λ e, distro e = d) (values entries)) = [e].
Proof.
  unfold validate_defaults. intros Hf (e & He & Hd).
  destruct (by_distro_lookup (values entries) d) as [Hl Hn].
  destruct (by_distro (values entries) !! d) as [l|] eqn:Hlk.
  2: { exfalso. specialize (Hn eq_refl). assert (Hin : e ∈ filter (λ e, distro e = d) (values entries))
         by by apply list_elem_of_filter. rewrite Hn in Hin. by apply not_elem_of_nil in Hin. }
  cbn in Hl. subst l. apply elem_of_iter in Hlk.
  assert (Hall : ∀ x, x ∈ iter (by_distro (values entries)) → check_distro () x = Ok ()).
  { revert Hf. apply (fold_result_inv check_distro (λ done_ _, ∀ x, x ∈ done_ → check_distro () x = Ok ())).
    - intros x Hx. by apply not_elem_of_nil in Hx.
    - intros done_ x rest [] [] _ Hd' Hx y [Hy| ->%list_elem_of_singleton]%elem_of_app; [by apply Hd'|done]. }
  specialize (Hall _ Hlk). unfold check_distro in Hall. cbn [fst snd] in Hall. rewrite length_fmap in Hall.
  destruct (filter (λ e, is_default e = true) _) as [|x [|]]; [done|by exists x|].
  exfalso. revert Hall. destruct (Z.eqb_spec (Z.of_nat (length (x :: c :: l))) 1) as [E|]; [cbn in E; lia|done].
Qed.

(** ** Catalogs *)

Definition keyed (entries : Entries) : Prop := ∀ k e, entries !! k = Some e → k = canonical_reference e.
Lemma elem_of_catalog_values entries e : e ∈ values entries ↔ ∃ k, entries !! k = Some e.
Proof.
  unfold values. rewrite list_elem_of_fmap. split.
  - intros ([k e'] & -> & Hin%elem_of_iter). by exists k.
  - intros [k Hk%elem_of_iter]. by exists (k, e).
Qed.
Lemma keyed_values entries e :
  keyed entries → e ∈ values entries → entries !! canonical_reference e = Some e.
Proof. intros Hk [k He]%elem_of_catalog_values. by rewrite <- (Hk k e He). Qed.
Lemma keyed_unique entries e e' :
  keyed entries → e ∈ values entries → e' ∈ values entries → canonical_reference e = canonical_reference e' → e = e'.
Proof.
  intros Hk He%keyed_values He'%keyed_values E; [|done..]. rewrite E in He. congruence.
Qed.
Lemma catalog_validate_Ok entries c :
  validate entries = Ok c → c = entries ∧ validate_defaults entries = Ok () ∧ validate_reference_names entries = Ok ().
Proof. unfold validate. intros H. inv_ok. by destruct r, r0. Qed.

(** Two entries that answer to the same name are the same entry. *)
Lemma names_unique entries d s e e' :
  keyed entries → validate entries = Ok entries → e ∈ values entries → e' ∈ values entries →
  names_entry d s e = true → names_entry d s e' = true → e = e'.
Proof.
  intros Hk (_ & Hdef & Hnames)%catalog_validate_Ok He He'. destruct s as [s|].
  - rewrite !names_entry_Some. intros [<- Hs] [Hd Hs']. apply reference_names_named in Hnames as [names Hn].
    apply (keyed_unique entries); [done..|]. pose proof (Hn e s He Hs) as E. pose proof (Hn e' s He' Hs') as E'.
    rewrite Hd in E'. congruence.
  - rewrite !names_entry_None. intros [Hd Hf] [Hd' Hf'].
    destruct (defaults_unique entries d Hdef) as [x Hx]; [by exists e|].
    assert (Hin : ∀ y, y ∈ values entries → distro y = d → is_default y = true → y = x).
    { intros y Hy Hyd Hyf. assert (H : y ∈ filter (λ e, is_default e = true) (filter (λ e, distro e = d) (values entries))).
      { apply list_elem_of_filter. split; [done|]. by apply list_elem_of_filter. }
      rewrite Hx in H. by apply list_elem_of_singleton in H. }
    rewrite (Hin e), (Hin e') by done. done.
Qed.
Lemma find_Some entries reference e :
  keyed entries → validate entries = Ok entries →
  find entries reference = Some e ↔
    e ∈ values entries ∧ names_entry (split_reference reference).1 (split_reference reference).2 e = true.
Proof.
  intros Hk Hv. unfold find. destruct (split_reference reference) as [d s]. cbn [fst snd]. split.
  - intros Hf. apply List.find_some in Hf as [Hin Hn]. by apply list_elem_of_In in Hin.
  - intros [Hin Hn]. destruct (List.find (names_entry d s) (values entries)) as [e'|] eqn:E.
    + apply List.find_some in E as [Hin'%list_elem_of_In Hn']. f_equal. by eapply names_unique.
    + apply list_elem_of_In in Hin. by rewrite (List.find_none _ _ E e Hin) in Hn.
Qed.

(** ** What a document yields *)

Lemma is_reference_no_colon s : is_reference_component s = true → has_char ":" s = false.
Proof.
  destruct s as [|a s]; [done|]. cbn [is_reference_component]. intros [Ha Hs]%andb_true_iff.
  apply has_char_cons. split; [by intros ->|]. by apply (all_bytes_no_char reference_byte).
Qed.
Lemma hex_lower a : hex_digit_byte a = true → is_ascii_digit (to_ascii_lower a) || byte_in 97 102 (to_ascii_lower a) = true.
Proof. by destruct a as [[] [] [] [] [] [] [] []]. Qed.
Lemma lower_hex d : all_bytes hex_digit_byte d = true →
  all_bytes (λ a, is_ascii_digit a || byte_in 97 102 a) (to_ascii_lowercase d) = true ∧ len (to_ascii_lowercase d) = len d.
Proof.
  unfold len. induction d as [|a d IH]; [done|]. cbn [all_bytes to_ascii_lowercase]. intros [Ha Hd]%andb_true_iff.
  destruct (IH Hd) as [IH1 IH2]. rewrite hex_lower, IH1 by done. split; [done|]. cbn. lia.
Qed.

Section wellformed.
Context `{UrlCrate} `{CatalogToml}.

Definition source_wf (s : CatalogArchSource) : Prop :=
  is_https_url (url s) = true ∧
  match checksum s with
  | ManifestUrl u => is_https_url u = true
  | DirectSha256 d => checksum_algorithm s = Sha256 ∧ len d = 64
                      ∧ all_bytes (λ a, is_ascii_digit a || byte_in 97 102 a) d = true
  end.
Record entry_wf (e : CatalogEntry) : Prop := {
  wf_distro : is_reference_component (distro e) = true;
  wf_version : is_reference_component (version e) = true;
  wf_aliases : Forall (λ a, is_reference_component a = true) (aliases e) ∧ NoDup (aliases e);
  wf_some_arch : arch e ≠ ∅;
  wf_arch : map_Forall (λ a s, (a = "x86_64" ∨ a = "aarch64") ∧ source_wf s) (arch e) }.

Lemma convert_arch_source_wf raw reference a source editable s :
  convert_arch_source raw reference a source editable = Ok s → source_wf s.
Proof using Type.
  unfold convert_arch_source, source_wf. destruct (is_https_url (raw_url raw)) eqn:Hu; [|done]. cbn [negb].
  intros (ck & Hck & [= <-])%bind_Ok. cbn. split; [done|].
  destruct (checksum_url raw) as [m|], (sha256 raw) as [d|]; try done.
  - destruct (is_https_url m) eqn:Hm; [|done]. by injection Hck as <-.
  - destruct (bool_decide_reflect (checksum_alg raw = Sha256)) as [Ha|]; [|done]. cbn [negb] in Hck.
    destruct (negb (len d =? 64) || negb (all_bytes hex_digit_byte d)) eqn:E; [done|]. injection Hck as <-.
    bool_props. destruct (lower_hex d) as [Hx Hl]; [done|]. by rewrite Hl.
Qed.
Lemma validate_component_Ok f v source editable :
  validate_reference_component f v source editable = Ok () → is_reference_component v = true.
Proof using Type. unfold validate_reference_component. by destruct (is_reference_component v). Qed.
Lemma aliases_Ok reference source editable l s :
  fold_result (add_alias reference source editable) ∅ l = Ok s → ∀ a, a ∈ s → is_reference_component a = true.
Proof using Type.
  apply (fold_result_inv _ (λ _ (s : gset string), ∀ a, a ∈ s → is_reference_component a = true)); [set_solver|].
  intros _ a _ s0 s1 _ Hs Hadd. unfold add_alias in Hadd. apply bind_Ok in Hadd as ([] & Hc%validate_component_Ok & Hadd).
  case_bool_decide; [done|]. injection Hadd as <-. set_solver.
Qed.
Lemma archs_Ok reference source editable (raws : gmap string RawArchSource) m :
  fold_result (add_arch reference source editable) ∅ (iter raws) = Ok m →
  map_Forall (λ a s, (a = "x86_64" ∨ a = "aarch64") ∧ source_wf s) m ∧ (raws ≠ ∅ → m ≠ ∅).
Proof using Type.
  intros Hf. cut (map_Forall (λ a s, (a = "x86_64" ∨ a = "aarch64") ∧ source_wf s) m
    ∧ ∀ x, x ∈ iter raws → is_Some (m !! x.1)).
  { intros [Hm Hx]. split; [done|]. intros Hne ->. apply map_choose in Hne as (a & r & Har%elem_of_iter).
    specialize (Hx _ Har). cbn in Hx. rewrite lookup_empty in Hx. by destruct Hx. }
  revert Hf. apply (fold_result_inv _ (λ done_ m,
    map_Forall (λ a s, (a = "x86_64" ∨ a = "aarch64") ∧ source_wf s) m ∧ ∀ x, x ∈ done_ → is_Some (m !! x.1))).
  - split; [apply map_Forall_empty|]. intros x Hx. by apply not_elem_of_nil in Hx.
  - intros done_ [a r] rest m0 m1 _ [Hm Hd] Hadd. unfold add_arch in Hadd. cbn [fst snd] in Hadd.
    apply bind_Ok in Hadd as ([] & Ha & Hadd). apply bind_Ok in Hadd as (s & Hs%convert_arch_source_wf & Hadd).
    injection Hadd as <-. split.
    + apply map_Forall_insert_2; [|done]. split; [|done]. unfold validate_architecture_name in Ha.
      destruct (String.eqb_spec a "x86_64"); [by left|]. destruct (String.eqb_spec a "aarch64"); [by right|done].
    + intros x [Hx| ->%list_elem_of_singleton]%elem_of_app; cbn [fst]; [|rewrite lookup_insert_eq; done].
      destruct (decide (a = x.1)) as [->|Hne]; [by rewrite lookup_insert_eq|]. rewrite lookup_insert_ne by done. by apply Hd.
Qed.
Lemma convert_entry_wf raw source editable e : convert_entry raw source editable = Ok e → entry_wf e.
Proof using Type.
  unfold convert_entry. intros Hc. apply bind_Ok in Hc as ([] & Hd%validate_component_Ok & Hc).
  apply bind_Ok in Hc as ([] & Hv%validate_component_Ok & Hc). apply bind_Ok in Hc as (s & Hs & Hc).
  case_bool_decide as Hne; [done|]. apply bind_Ok in Hc as (m & Hm%archs_Ok & [= <-]).
  split; cbn; [done|done| |by apply Hm|apply Hm].
  pose proof (aliases_Ok _ _ _ _ _ Hs) as Ha. unfold sorted_set. split.
  - rewrite merge_sort_Permutation. apply Forall_forall. intros a Hin. by apply Ha, elem_of_elements.
  - rewrite merge_sort_Permutation. apply NoDup_elements.
Qed.
Lemma parse_document_wf input source editable l : parse_document input source editable = Ok l → Forall entry_wf l.
Proof using Type.
  unfold parse_document. intros (raws & _ & Hp)%bind_Ok. apply bind_Ok in Hp as (st & Hf & [= <-]). revert Hf.
  apply (fold_result_inv _ (λ _ st, Forall entry_wf st.2)); [constructor|].
  intros _ raw _ st0 st1 _ Hwf Hadd. unfold add_entry in Hadd.
  apply bind_Ok in Hadd as (e & He%convert_entry_wf & Hadd). case_bool_decide; [done|]. injection Hadd as <-. cbn.
  apply Forall_app. split; [done|]. by constructor.
Qed.

(** ** What loading yields *)

Context `{CatalogFiles}.

Definition last_of (k : string) (l : list CatalogEntry) : option CatalogEntry :=
  last (filter (λ e, canonical_reference e = k) l).
Lemma last_app {A} (l l' : list A) : last (l ++ l') = match last l' with Some x => Some x | None => last l end.
Proof using Type.
  destruct l' as [|x l' _] using rev_ind; [by rewrite app_nil_r|]. by rewrite app_assoc, !last_snoc.
Qed.
Lemma last_of_app k l l' : last_of k (l ++ l') = match last_of k l' with Some e => Some e | None => last_of k l end.
Proof using Type. unfold last_of. by rewrite filter_app, last_app. Qed.
Lemma fold_add_lookup m l k :
  foldl add_by_reference m l !! k = match last_of k l with Some e => Some e | None => m !! k end.
Proof using Type.
  induction l as [|e l IH] using rev_ind; [done|]. rewrite foldl_snoc, last_of_app.
  set (m' := foldl _ m l) in *. unfold add_by_reference. replace (last_of k [e]) with (last (filter (λ e, canonical_reference e = k) [e])) by done.
  rewrite filter_cons, filter_nil. destruct (decide (canonical_reference e = k)) as [<-|Hn].
  - by rewrite lookup_insert_eq.
  - by rewrite lookup_insert_ne.
Qed.
Lemma last_of_Some k l e : last_of k l = Some e → e ∈ l ∧ canonical_reference e = k.
Proof using Type.
  intros (l' & E)%last_Some. assert (Hin : e ∈ filter (λ e, canonical_reference e = k) l).
  { unfold last_of in *. rewrite E. set_solver. }
  by apply list_elem_of_filter in Hin as [-> ?].
Qed.

(** The entries a file contributes. *)
Definition contributes (optional : bool) (path : string) (es : list CatalogEntry) : Prop :=
  (∃ input, read_to_string path = Ok input ∧ parse_document input ("catalog '" +:+ path +:+ "'") true = Ok es)
  ∨ (optional = true ∧ es = [] ∧ nothing_at path = true
     ∧ ∃ e, read_to_string path = Err e ∧ io_kind e = IoNotFound).
Lemma merge_file_Ok optional m path m' :
  merge_catalog_file optional m path = Ok m' → ∃ es, contributes optional path es ∧ m' = foldl add_by_reference m es.
Proof using Type.
  unfold merge_catalog_file. destruct (read_to_string path) as [input|e] eqn:Hr.
  - intros (es & Hp & [= <-])%bind_Ok. exists es. split; [left; by exists input|done].
  - destruct (optional && (bool_decide (io_kind e = IoNotFound) && nothing_at path)) eqn:E; [|done].
    intros [= <-]. bool_props. exists []. split; [right|done]. repeat split; try done. by exists e.
Qed.
Lemma merge_files_Ok m paths m' :
  fold_result (merge_catalog_file false) m paths = Ok m' →
  ∃ ess, Forall2 (contributes false) paths ess ∧ m' = foldl add_by_reference m (concat ess).
Proof using Type.
  apply (fold_result_inv _ (λ done_ m', ∃ ess, Forall2 (contributes false) done_ ess
    ∧ m' = foldl add_by_reference m (concat ess))).
  - exists []. split; [constructor|done].
  - intros done_ path rest m0 m1 _ (ess & Hf & ->) (es & Hc & ->)%merge_file_Ok. exists (ess ++ [es]). split.
    + apply Forall2_app; [done|]. by constructor.
    + rewrite concat_app, foldl_app. cbn [concat]. by rewrite app_nil_r.
Qed.
Lemma load_Ok document config extras c :
  load document config extras = Ok c →
  validate c = Ok c ∧ ∃ d0 d1 ds,
    parse_document document "built-in catalog" false = Ok d0 ∧ contributes true config d1
    ∧ Forall2 (contributes false) extras ds ∧ ∀ k, c !! k = last_of k (d0 ++ d1 ++ concat ds).
Proof using Type.
  unfold load. intros (d0 & Hp0 & Hl)%bind_Ok. apply bind_Ok in Hl as (m1 & (d1 & Hp1 & ->)%merge_file_Ok & Hl).
  apply bind_Ok in Hl as (m2 & (ds & Hp2 & ->)%merge_files_Ok & Hv).
  pose proof (catalog_validate_Ok _ _ Hv) as (-> & _). split; [done|]. exists d0, d1, ds. repeat split; try done.
  intros k. rewrite <- foldl_app. unfold entries_by_reference. rewrite <- foldl_app, fold_add_lookup.
  rewrite lookup_empty. by destruct (last_of k _).
Qed.
Lemma contributes_wf optional path es : contributes optional path es → Forall entry_wf es.
Proof using Type. intros [(input & _ & Hp)|(_ & -> & _)]; [by eapply parse_document_wf|constructor]. Qed.
Lemma load_wf document config extras c :
  load document config extras = Ok c → ∀ k e, c !! k = Some e → k = canonical_reference e ∧ entry_wf e.
Proof using Type.
  intros (_ & d0 & d1 & ds & Hp0 & Hp1 & Hp2 & Hc)%load_Ok k e. rewrite Hc. intros [Hin <-]%last_of_Some. split; [done|].
  apply parse_document_wf in Hp0. apply contributes_wf in Hp1.
  assert (Hds : Forall entry_wf (concat ds)).
  { apply Forall_concat. clear - Hp2. induction Hp2; constructor; [by eapply contributes_wf|done]. }
  assert (Hall : Forall entry_wf (d0 ++ d1 ++ concat ds)) by (rewrite !Forall_app; done).
  rewrite Forall_forall in Hall. by apply Hall.
Qed.
End wellformed.

(** ** Properties *)

(** later documents override earlier ones: a loaded catalog holds under every canonical
    reference the last entry of that name in the built-in document, the optional user catalog
    and the extra catalogs, in that order; only the user catalog may be absent, and then it
    contributes nothing. *)
Theorem catalog_load_layers `{UrlCrate} `{CatalogToml} `{CatalogFiles} document config extras c :
  load document config extras = Ok c →
  ∃ builtin user extra,
    parse_document document "built-in catalog" false = Ok builtin ∧ contributes true config user
    ∧ Forall2 (contributes false) extras extra
    ∧ ∀ k, c !! k = last_of k (builtin ++ user ++ concat extra).
Proof. intros (_ & Hl)%load_Ok. exact Hl. Qed.

(** C29: every entry of a loaded catalog is well formed: it is stored under its own canonical
    reference, its names are reference components, its aliases are distinct, and it has a source
    for at least one supported architecture and none for another, each fetched over HTTPS and
    checked against an HTTPS manifest or a lower-case SHA-256 digest. *)
Theorem catalog_entries_wf `{UrlCrate} `{CatalogToml} `{CatalogFiles} document config extras c :
  load document config extras = Ok c →
  ∀ k e, c !! k = Some e → k = canonical_reference e ∧ entry_wf e.
Proof. apply load_wf. Qed.

Lemma find_named `{UrlCrate} (c : Entries) e s :
  keyed c → validate c = Ok c → entry_wf e → e ∈ values c → s = version e ∨ s ∈ aliases e →
  find c (distro e +:+ ":" +:+ s) = Some e.
Proof.
  intros Hk Hv Hwf He Hs. apply find_Some; [done..|]. unfold split_reference.
  change (distro e +:+ ":" +:+ s) with (distro e +:+ String ":" s).
  rewrite split_once_app by (apply is_reference_no_colon, Hwf). cbn [fst snd]. split; [done|].
  apply names_entry_Some. by rewrite elem_of_selectors.
Qed.
Lemma find_default `{UrlCrate} (c : Entries) e :
  keyed c → validate c = Ok c → entry_wf e → e ∈ values c →
  ∃ e', find c (distro e) = Some e' ∧ e' ∈ values c ∧ distro e' = distro e ∧ is_default e' = true.
Proof.
  intros Hk Hv Hwf He. destruct (catalog_validate_Ok _ _ Hv) as (_ & Hdef & _).
  destruct (defaults_unique c (distro e) Hdef) as [e' He']; [by exists e|].
  assert (Hin : e' ∈ filter (λ x, is_default x = true) (filter (λ x, distro x = distro e) (values c))) by (rewrite He'; set_solver).
  apply list_elem_of_filter in Hin as [Hd (Hn & Hin)%list_elem_of_filter]. exists e'. repeat split; try done.
  apply find_Some; [done..|]. unfold split_reference.
  rewrite (proj2 (split_once_None _ _)) by (apply is_reference_no_colon, Hwf). cbn [fst snd]. split; [done|].
  by apply names_entry_None.
Qed.

(** names of a loaded catalog are unambiguous and complete: a reference finds an entry
    exactly when that entry answers to it, so at most one does; every entry is found under its
    version and under each of its aliases, and the bare name of its distribution finds a default
    release of that distribution. *)
Theorem catalog_names_unambiguous `{UrlCrate} `{CatalogToml} `{CatalogFiles} document config extras c :
  load document config extras = Ok c →
  (∀ reference e, find c reference = Some e ↔
     e ∈ values c ∧ names_entry (split_reference reference).1 (split_reference reference).2 e = true)
  ∧ ∀ e, e ∈ values c →
    (∀ s, s = version e ∨ s ∈ aliases e → find c (distro e +:+ ":" +:+ s) = Some e)
    ∧ ∃ e', find c (distro e) = Some e' ∧ e' ∈ values c ∧ distro e' = distro e ∧ is_default e' = true.
Proof.
  intros Hl. pose proof (load_wf _ _ _ _ Hl) as Hwf. apply load_Ok in Hl as [Hv _].
  assert (Hk : keyed c) by (intros k e He; by apply Hwf). split; [intros; by apply find_Some|].
  intros e He. assert (He' : entry_wf e) by (by eapply Hwf, keyed_values).
  split; [intros s Hs; by apply find_named|by apply find_default].
Qed.

(** ** A catalog of one release *)

Definition demo_digest : string := "ABCDEF0123456789ABCDEF0123456789ABCDEF0123456789ABCDEF0123456789".
Definition demo_raw : RawCatalogEntry := {|
  raw_distro := "ubuntu"; raw_version := "24.04"; raw_aliases := ["noble"; "lts"]; raw_default := true;
  raw_entry_firmware := Edk2; raw_format := Qcow2; raw_sshd_path := None;
  raw_arch := {["x86_64" := {| raw_url := "https://example.invalid/u.img"; checksum_url := None;
    sha256 := Some demo_digest; raw_firmware := None; checksum_alg := Sha256 |}]} |}.
#[export] Instance demo_urls : UrlCrate := {|
  url_parse _ := Ok {| syntax_violation := false; scheme := "https"; has_host := true; username := "";
    has_password := false; authority := "example.invalid"; has_fragment := false |} |}.
#[export] Instance demo_documents : CatalogToml := {| catalog_from_str _ := Ok [demo_raw] |}.
#[export] Instance demo_files : CatalogFiles := {|
  read_to_string _ := Err {| io_kind := IoNotFound; io_text := "No such file or directory" |};
  nothing_at _ := true |}.
Definition demo_entry : CatalogEntry := {|
  distro := "ubuntu"; version := "24.04"; aliases := ["lts"; "noble"]; is_default := true; firmware := Edk2;
  format := Qcow2; sshd_path := None;
  arch := {["x86_64" := {| url := "https://example.invalid/u.img";
    checksum := DirectSha256 (to_ascii_lowercase demo_digest); checksum_algorithm := Sha256;
    firmware_override := None |}]} |}.
Definition demo_catalog : Entries := {["ubuntu:24.04" := demo_entry]}.
Lemma catalog_load_layers_witness : ∃ builtin, demo_catalog !! "ubuntu:24.04" = last_of "ubuntu:24.04" builtin.
Proof.
  destruct (catalog_load_layers "[[image]]" "/etc/catalog.toml" [] demo_catalog) as (b & u & e & _ & _ & _ & Hk).
  - vm_compute. reflexivity.
  - exists (b ++ u ++ concat e). apply Hk.
Defined.
Lemma catalog_entries_wf_witness : entry_wf demo_entry.
Proof.
  apply (catalog_entries_wf "[[image]]" "/etc/catalog.toml" [] demo_catalog) with (k := "ubuntu:24.04").
  - vm_compute. reflexivity.
  - vm_compute. reflexivity.
Defined.
Lemma catalog_names_unambiguous_witness : find demo_catalog "ubuntu:noble" = Some demo_entry.
Proof.
  destruct (catalog_names_unambiguous "[[image]]" "/etc/catalog.toml" [] demo_catalog) as [_ Hn].
  - vm_compute. reflexivity.
  - apply (Hn demo_entry).
    + apply elem_of_catalog_values. exists "ubuntu:24.04". vm_compute. reflexivity.
    + right. apply list_elem_of_further, list_elem_of_here.
Defined.
