(* ===== verification/Network.v ===== *)
(** Network configuration ([firestone-core/src/network.rs]): which sets of port forwards passt
    can serve, the arguments that tell it about them, when a running machine's forwards differ
    from the configured ones, and the checks on an existing tap interface.  The interface itself
    is observed through [TapHost]. *)
From stdpp Require Import sorting.
From S2P Require Import Prelude RustStr Errors Values IpAddr Ports BTree Spec.
Open Scope Z_scope.

Definition invalid_network (key message hint : string) : FirestoneError :=
  with_hint (error_new InvalidSpec ("invalid '" +:+ key +:+ "': " +:+ message)) hint.

(** ** Port forwards *)

Definition validate_translation_bounds (f : PortForward) : result FirestoneError () :=
  let span := end_ (host f) - start (host f) in
  let mapped_end :=
    match checked_add u32_max (start (guest f)) span with
    | Some e => if e <=? u16_max then Some e else None
    | None => None
    end in
  if negb (bool_decide (mapped_end = Some (end_ (guest f))))
  then Err (invalid_network "network.forward"
         ("port translation '" +:+ forward_display f +:+ "' overflows the valid port range")
         "use equal-length host and guest ranges within ports 1 through 65535")
  else Ok ().

(** The two loops of [validate_forward_set]; [earlier] are the forwards before the current one. *)
Definition conflicts (earlier later : PortForward) : bool :=
  negb (bool_decide (protocol earlier ≠ protocol later)
        || (end_ (host earlier) <? start (host later)) || (end_ (host later) <? start (host earlier))).
Definition indexed (i : Z) : string := "network.forward[" +:+ dec i +:+ "]".
Definition check_pair (later_index : Z) (later : PortForward) (earlier_index : Z) (earlier : PortForward)
    : result FirestoneError () :=
  if negb (conflicts earlier later) then Ok ()
  else if bool_decide (earlier = later)
  then Err (invalid_network (indexed later_index)
         ("duplicate " +:+ protocol_as_str (protocol later) +:+ " host-port mapping '" +:+ range_display (host later)
          +:+ "' also appears at " +:+ indexed earlier_index)
         "remove the duplicate network.forward entry")
  else Err (invalid_network (indexed later_index)
         (protocol_as_str (protocol later) +:+ " host ports '" +:+ range_display (host later)
          +:+ "' conflict with " +:+ indexed earlier_index +:+ " host ports '" +:+ range_display (host earlier) +:+ "'")
         "use non-overlapping host ports for each protocol; bind addresses do not create separate passt mappings").
Fixpoint check_earlier (later_index : Z) (later : PortForward) (i : Z) (earlier : list PortForward)
    : result FirestoneError () :=
  match earlier with
  | [] => Ok ()
  | e :: earlier => check_pair later_index later i e;; check_earlier later_index later (i + 1) earlier
  end.
Fixpoint check_forwards (earlier rest : list PortForward) : result FirestoneError () :=
  match rest with
  | [] => Ok ()
  | later :: rest =>
      validate_translation_bounds later;;
      check_earlier (Z.of_nat (length earlier)) later 0 earlier;;
      check_forwards (earlier ++ [later]) rest
  end.
Definition validate_forward_set (forwards : list PortForward) : result FirestoneError () := check_forwards [] forwards.

Definition reject_forwards_without_passt (spec : NetworkSpec.NetworkSpec) : result FirestoneError () :=
  match NetworkSpec.forward spec with
  | [] => Ok ()
  | _ => Err (invalid_network "network.forward" "port forwards require network.mode = 'passt'"
                "clear network.forward or select network.mode = 'passt'")
  end.

(** [passt_forward_argument]. *)
Definition passt_forward_argument (f : PortForward) : result FirestoneError string :=
  validate_translation_bounds f;;
  let mapping := range_display (host f) +:+ ":" +:+ range_display (guest f) in
  Ok (match bind f with
      | None => mapping
      | Some (V4 a) => IpAddr.display (V4 a) +:+ "/" +:+ mapping
      | Some (V6 a) => "[" +:+ IpAddr.display (V6 a) +:+ "]/" +:+ mapping
      end).
(** The part of [prepare_passt] that turns the forwards into arguments. *)
Definition forward_flag (p : Protocol) : string := match p with Tcp => "-t" | Udp => "-u" end.
Definition add_forward (arguments : list string) (f : PortForward) : result FirestoneError (list string) :=
  argument ← passt_forward_argument f;
  Ok (arguments ++ [forward_flag (protocol f); argument]).
Definition forward_arguments (forwards : list PortForward) : result FirestoneError (list string) :=
  arguments ← fold_result add_forward [] (filter (λ f, protocol f = Tcp) forwards);
  fold_result add_forward arguments (filter (λ f, protocol f = Udp) forwards).

(** [forwards_differ]: both sides in canonical form, sorted. *)
Definition canonical_forward (recorded : string) : string :=
  match forward_from_str recorded with Ok f => forward_display f | Err _ => recorded end.
Definition forwards_differ (configured : list PortForward) (applied : list string) : bool :=
  negb (bool_decide (merge_sort str_le (forward_display <$> configured) = merge_sort str_le (canonical_forward <$> applied))).

(** ** Tap interfaces *)

Class TapHost := {
  tap_device_is_tap : string → result IoError bool;
  tun_is_accessible : result IoError () }.
Definition IFNAMSIZ : Z := 16.
Definition validate_tap_name (name : string) : result FirestoneError () :=
  let max_bytes := saturating_sub IFNAMSIZ 1 in
  if is_empty name || (max_bytes <? len name) || has_char "/" name || has_char NUL name
     || (String.eqb name "." || String.eqb name "..")
  then Err (invalid_network "network.tap" ("tap interface name '" +:+ name +:+ "' is invalid")
         ("use a Linux interface name of at most " +:+ dec max_bytes
          +:+ " bytes, such as 'tap0', without path separators"))
  else Ok ().
Definition validate_tap `{TapHost} (name : string) : result FirestoneError () :=
  validate_tap_name name;;
  exists_ ← map_err (λ e,
      with_source (with_hint (error_new Dependency
        ("invalid 'network.tap': cannot inspect TAP interface '" +:+ name +:+ "'"))
        "check that /sys/class/net is mounted and readable") (io_text e))
    (tap_device_is_tap name);
  if negb exists_
  then Err (invalid_network "network.tap"
         ("interface '" +:+ name +:+ "' does not exist or is not a TAP device")
         ("create a user-owned tap named '" +:+ name +:+ "' or choose network.mode = 'passt'"))
  else
    map_err (λ e,
      with_source (with_hint (error_new Dependency
        "invalid 'network.tap': /dev/net/tun is not accessible for tap mode")
        "grant this user read/write access to /dev/net/tun or choose network.mode = 'passt'") (io_text e))
      tun_is_accessible.

(** ** What an accepted set of forwards guarantees *)

(** The host port [h] of protocol [p] is forwarded, and to which guest port. *)
Definition forwards_port (f : PortForward) (p : Protocol) (h : Z) : Prop :=
  protocol f = p ∧ start (host f) ≤ h ≤ end_ (host f).
Definition guest_port (f : PortForward) (h : Z) : Z := start (guest f) + (h - start (host f)).
Definition translation_ok (f : PortForward) : Prop :=
  end_ (guest f) = start (guest f) + (end_ (host f) - start (host f)) ∧ 0 ≤ end_ (guest f) ≤ u16_max.

Lemma translation_bounds_Ok f : validate_translation_bounds f = Ok () ↔ translation_ok f.
Proof.
  unfold validate_translation_bounds, translation_ok, checked_add, try_from_u, is_u, u32_max, u16_max. cbv zeta.
  set (m := start (guest f) + (end_ (host f) - start (host f))).
  destruct (Z.leb_spec 0 m), (Z.leb_spec m 4294967295); cbn [andb];
    try destruct (Z.leb_spec m 65535); case_bool_decide as Hb; cbn [negb]; split; try done; try lia;
    try (intros [E Hr]; exfalso; lia).
  - injection Hb as Hb. lia.
  - intros [E _]. by rewrite E in Hb.
Qed.
Definition separate (e l : PortForward) : Prop :=
  protocol e ≠ protocol l ∨ end_ (host e) < start (host l) ∨ end_ (host l) < start (host e).
Lemma conflicts_false e l : conflicts e l = false ↔ separate e l.
Proof.
  unfold conflicts, separate. rewrite negb_false_iff, !orb_true_iff, bool_decide_eq_true, !Z.ltb_lt. tauto.
Qed.
Lemma check_pair_Ok i l j e : check_pair i l j e = Ok () ↔ separate e l.
Proof.
  unfold check_pair. rewrite <- conflicts_false. destruct (conflicts e l); cbn [negb]; [|done].
  by case_bool_decide.
Qed.
Lemma seq_Ok {E} (m k : result E ()) : (m;; k) = Ok () ↔ m = Ok () ∧ k = Ok ().
Proof. destruct m as [[]|e]; cbn; naive_solver. Qed.
Lemma check_earlier_Ok i l j es : check_earlier i l j es = Ok () ↔ Forall (λ e, separate e l) es.
Proof.
  revert j. induction es as [|e es IH]; intros j; cbn [check_earlier]; [by rewrite Forall_nil|].
  by rewrite seq_Ok, check_pair_Ok, IH, Forall_cons.
Qed.
Lemma check_forwards_Ok earlier rest :
  check_forwards earlier rest = Ok () ↔
  Forall translation_ok rest ∧ Forall (λ l, Forall (λ e, separate e l) earlier) rest
  ∧ ForallOrdPairs separate rest.
Proof.
  revert earlier. induction rest as [|l rest IH]; intros earlier; cbn [check_forwards].
  - split; [intros _; repeat split; constructor|done].
  - rewrite !seq_Ok, translation_bounds_Ok, check_earlier_Ok, IH, !Forall_cons. 
    setoid_rewrite Forall_app. setoid_rewrite Forall_singleton. rewrite Forall_and. split.
    + intros (Ht & He & Hts & [Hes Hl] & Hp). split_and!; try done. by constructor.
    + intros ([Ht Hts] & [He Hes] & Hp). inversion Hp; subst. split_and!; done.
Qed.
Lemma forward_set_Ok fs :
  validate_forward_set fs = Ok () ↔ Forall translation_ok fs ∧ ForallOrdPairs separate fs.
Proof.
  unfold validate_forward_set. rewrite check_forwards_Ok. split; [tauto|]. intros [Ht Hp].
  split_and!; try done. by apply Forall_forall.
Qed.
Lemma separate_sym e l : separate e l → separate l e.
Proof. unfold separate. intuition congruence. Qed.
Lemma pairs_nth {A} (R : relation A) (Hsym : ∀ x y, R x y → R y x) l i j x y :
  ForallOrdPairs R l → l !! i = Some x → l !! j = Some y → i ≠ j → R x y.
Proof.
  intros Hl. revert i j. induction Hl as [|a l Ha Hl IH]; intros i j Hi Hj Hn; [done|]. rewrite Forall_forall in Ha.
  destruct i as [|i], j as [|j]; [done|..].
  - injection Hi as ->. apply Ha. by eapply list_elem_of_lookup_2.
  - injection Hj as ->. apply Hsym, Ha. by eapply list_elem_of_lookup_2.
  - apply (IH i j); [done|done|congruence].
Qed.

(** What [PortRange] alone promises of a forward: both sides are ranges of valid ports, of any lengths. *)
Definition ranged (f : PortForward) : Prop := range_wf (host f) ∧ range_wf (guest f).
(** Every host port of [f] has a guest port of [f], and every guest port comes from exactly one of them. *)
Definition maps_onto (f : PortForward) : Prop :=
  (∀ h, start (host f) ≤ h ≤ end_ (host f) → start (guest f) ≤ guest_port f h ≤ end_ (guest f)) ∧
  ∀ g, start (guest f) ≤ g ≤ end_ (guest f) → exists! h, start (host f) ≤ h ≤ end_ (host f) ∧ guest_port f h = g.
Lemma translation_maps_onto f : ranged f → translation_ok f ↔ maps_onto f.
Proof.
  intros [[Hh Hh'] [Hg Hg']]. unfold translation_ok, maps_onto, guest_port, u16_max in *. split.
  - intros [E _]. split; [lia|]. intros g Hin. exists (g - start (guest f) + start (host f)). split; [lia|]. intros h [_ <-]. lia.
  - intros [Hin Hon]. pose proof (Hin (end_ (host f)) ltac:(lia)). destruct (Hon (end_ (guest f)) ltac:(lia)) as (h & [? ?] & _). lia.
Qed.
Lemma separate_ports f g :
  ranged f → ranged g → separate f g ↔ ∀ p h, forwards_port f p h → ¬ forwards_port g p h.
Proof.
  intros [[Hf _] _] [[Hg _] _]. unfold separate, forwards_port. split; [intros Hs p h [<- ?] [? ?]; destruct Hs as [|[]]; [congruence|lia..]|].
  intros Hno. destruct (decide (protocol f = protocol g)) as [Hp|]; [|by left]. right.
  destruct (decide (end_ (host f) < start (host g))); [by left|]. destruct (decide (end_ (host g) < start (host f))); [by right|].
  destruct (Hno (protocol f) (Z.max (start (host f)) (start (host g)))); (split; [done|lia]).
Qed.
Lemma ForallOrdPairs_nth {A} (R : relation A) l :
  (∀ i j x y, (i < j)%nat → l !! i = Some x → l !! j = Some y → R x y) → ForallOrdPairs R l.
Proof.
  induction l as [|x l IH]; intros Hl; constructor.
  - apply Forall_forall. intros y [j Hy]%list_elem_of_lookup. apply (Hl 0%nat (S j)); [lia|done..].
  - apply IH. intros i j y z Hij. apply (Hl (S i) (S j)). lia.
Qed.

(** C30: a set of forwards, whose host and guest ranges may have any lengths, is accepted if and only if it
    is a function from host ports onto guest ports: every forward maps its host range one to one onto its
    whole guest range, and no host port of a protocol belongs to two forwards. *)
Theorem forward_set_is_function fs :
  Forall ranged fs →
  validate_forward_set fs = Ok () ↔
  Forall maps_onto fs ∧
  ∀ i j f g p h, fs !! i = Some f → fs !! j = Some g → forwards_port f p h → forwards_port g p h → i = j.
Proof.
  intros Hwf. rewrite forward_set_Ok. rewrite Forall_forall in Hwf.
  assert (Hat : ∀ i f, fs !! i = Some f → ranged f) by (intros i f Hf; by eapply Hwf, list_elem_of_lookup_2).
  assert (Forall translation_ok fs ↔ Forall maps_onto fs) as ->.
  { rewrite !Forall_forall. split; intros Ht f Hf; specialize (Ht f Hf); by apply (translation_maps_onto f (Hwf f Hf)). }
  split; (intros [Ht Hp]; split; [done|]).
  - intros i j f g p h Hi Hj Hpf Hpg. destruct (decide (i = j)) as [|Hn]; [done|]. exfalso.
    pose proof (pairs_nth separate separate_sym fs i j f g Hp Hi Hj Hn) as Hs.
    by apply (proj1 (separate_ports f g (Hat _ _ Hi) (Hat _ _ Hj)) Hs p h).
  - apply ForallOrdPairs_nth. intros i j f g Hij Hi Hj. apply separate_ports; [by eapply Hat..|].
    intros p h Hpf Hpg. pose proof (Hp i j f g p h Hi Hj Hpf Hpg). lia.
Qed.

(** ** What a running machine serves *)

Lemma str_sorted_unique l l' : merge_sort str_le l = merge_sort str_le l' ↔ l ≡ₚ l'.
Proof.
  split.
  - intros E. rewrite <- (merge_sort_Permutation str_le l), E. apply merge_sort_Permutation.
  - intros Hp. apply (StronglySorted_unique str_le); try apply (StronglySorted_merge_sort _); try apply _.
    by rewrite !merge_sort_Permutation.
Qed.
Lemma forwards_differ_false c a :
  forwards_differ c a = false ↔ (forward_display <$> c) ≡ₚ (canonical_forward <$> a).
Proof. unfold forwards_differ. by rewrite negb_false_iff, bool_decide_eq_true, str_sorted_unique. Qed.
Lemma canonical_display f : forward_wf f → canonical_forward (forward_display f) = forward_display f.
Proof. intros Hf. unfold canonical_forward. by rewrite forward_display_parse. Qed.
(** The forwards a list of texts stands for. *)
Definition parsed (texts : list string) : list PortForward := omap (λ t, res_ok (forward_from_str t)) texts.
Lemma parsed_display fs : Forall forward_wf fs → parsed (forward_display <$> fs) = fs.
Proof.
  unfold parsed. induction 1 as [|f fs Hf Hfs IH]; [done|]. cbn. rewrite forward_display_parse by done. cbn. by f_equal.
Qed.

(** the running set differs from the configured one exactly when the forwards do: the texts
    recorded for the forwards that were applied, in the order they were applied, count as
    unchanged just when the configuration holds the same forwards, in whatever order. *)
Theorem forwards_differ_exact configured applied :
  Forall forward_wf configured → Forall forward_wf applied →
  forwards_differ configured (forward_display <$> applied) = false ↔ configured ≡ₚ applied.
Proof.
  intros Hc Ha. rewrite forwards_differ_false. rewrite <- list_fmap_compose.
  replace (canonical_forward ∘ forward_display <$> applied) with (forward_display <$> applied).
  2: { apply list_fmap_ext. intros i f Hf. symmetry. apply canonical_display.
       rewrite Forall_forall in Ha. by eapply Ha, list_elem_of_lookup_2. }
  split; [|by intros ->]. intros Hp.
  rewrite <- (parsed_display configured Hc), <- (parsed_display applied Ha). unfold parsed. by rewrite Hp.
Qed.
Lemma forwards_differ_exact_witness :
  let f h g := {| protocol := Tcp; bind := None; host := {| start := h; end_ := h |}; guest := {| start := g; end_ := g |} |} in
  forwards_differ [f 8080 80; f 2222 22] (forward_display <$> [f 2222 22; f 8080 80]) = false.
Proof.
  intros f. assert (Hf : ∀ h g, 1 ≤ h ≤ u16_max → 1 ≤ g ≤ u16_max → forward_wf (f h g)).
  { intros h g Hh Hg. unfold forward_wf, range_wf, range_len. cbn. repeat split; try lia. }
  apply forwards_differ_exact; [repeat constructor; apply Hf; unfold u16_max; lia..|].
  apply perm_swap.
Defined.
Lemma forward_set_is_function_witness :
  let f h g n := {| protocol := Tcp; bind := None; host := {| start := h; end_ := h + 10 |};
                    guest := {| start := g; end_ := g + n |} |} in
  (validate_forward_set [f 8000 9000 10; f 8100 9000 10] = Ok ()
   ∧ ∀ g p h, [f 8000 9000 10; f 8100 9000 10] !! 1%nat = Some g → forwards_port (f 8000 9000 10) p h → forwards_port g p h → 0%nat = 1%nat)
  ∧ ¬ maps_onto (f 8000 9000 20).
Proof.
  intros f. assert (Hf : ∀ h g n, 1 ≤ h ≤ 9000 → 1 ≤ g ≤ 9000 → 0 ≤ n ≤ 20 → ranged (f h g n)).
  { intros h g n Hh Hg Hn. unfold ranged, range_wf, u16_max; cbn; repeat split; lia. }
  assert (Hv : validate_forward_set [f 8000 9000 10; f 8100 9000 10] = Ok ()) by reflexivity.
  split; [split; [exact Hv|]|].
  - intros g p h Hg. assert (Hfs : Forall ranged [f 8000 9000 10; f 8100 9000 10]) by (repeat constructor; apply Hf; lia).
    destruct (proj1 (forward_set_is_function _ Hfs) Hv) as [_ Hone]. by apply (Hone 0%nat 1%nat).
  - intros Hm. assert (Hfs : Forall ranged [f 8000 9000 20]) by (repeat constructor; apply Hf; lia).
    assert (Hbad : validate_forward_set [f 8000 9000 20] = Ok ()); [|by vm_compute in Hbad].
    apply (forward_set_is_function _ Hfs). split; [by constructor|].
    intros [|i] [|j] g k p h Hi Hj; [done|..]; by destruct i || destruct j.
Defined.

(** ** Arguments *)

Definition forward_argument (f : PortForward) : string :=
  match bind f with
  | None => ""
  | Some (V4 a) => IpAddr.display (V4 a) +:+ "/"
  | Some (V6 a) => "[" +:+ IpAddr.display (V6 a) +:+ "]/"
  end +:+ range_display (host f) +:+ ":" +:+ range_display (guest f).
Lemma passt_argument_Ok f : translation_ok f → passt_forward_argument f = Ok (forward_argument f).
Proof.
  intros Ht%translation_bounds_Ok. unfold passt_forward_argument, forward_argument. rewrite Ht. cbn [mbind result_bind].
  f_equal. destruct (bind f) as [[a|a]|]; rewrite ?app_assoc_str; done.
Qed.
Lemma add_forwards_Ok args fs :
  Forall translation_ok fs →
  fold_result add_forward args fs = Ok (args ++ (fs ≫= λ f, [forward_flag (protocol f); forward_argument f])).
Proof.
  intros Hfs. revert args. induction Hfs as [|f fs Hf Hfs IH]; intros args; cbn [fold_result]; [by rewrite app_nil_r|].
  replace (add_forward args f) with (Ok (E := FirestoneError) (args ++ [forward_flag (protocol f); forward_argument f]));
    [|unfold add_forward; by rewrite passt_argument_Ok].
  cbn [mbind result_bind]. rewrite IH.
  cbn. by rewrite <- app_assoc.
Qed.
(** The arguments for an accepted set: first every TCP forward, then every UDP forward, each in
    the configured order behind its flag. *)
Lemma forward_arguments_Ok fs :
  validate_forward_set fs = Ok () →
  forward_arguments fs = Ok (
    (filter (λ f, protocol f = Tcp) fs ++ filter (λ f, protocol f = Udp) fs)
    ≫= λ f, [forward_flag (protocol f); forward_argument f]).
Proof.
  intros [Ht _]%forward_set_Ok. unfold forward_arguments.
  assert (Hsub : ∀ p, Forall translation_ok (filter (λ f, protocol f = p) fs)).
  { intros p. rewrite Forall_forall in *. intros f [_ Hf]%list_elem_of_filter. by apply Ht. }
  rewrite add_forwards_Ok by apply Hsub. cbn [mbind result_bind]. rewrite add_forwards_Ok by apply Hsub.
  by rewrite bind_app.
Qed.
