(* ===== verification/Virtiofs.v ===== *)
(** Shared directories ([firestone-core/src/virtiofs.rs]): the layout checks on the configured
    mounts, which decide what the guest sees before any virtiofsd is started. *)
From stdpp Require Import gmap.
From S2P Require Import Prelude RustStr Errors RustPath Values Ports Utf8 Chars Spec.
Open Scope Z_scope.

Definition MAX_VIRTIOFS_MOUNTS : Z := 16.
Definition VIRTIOFS_TAG_MAX_BYTES : Z := 36.
Definition VIRTIOFS_PATH_MAX_BYTES : Z := 4095.
Definition VIRTIOFS_COMPONENT_MAX_BYTES : Z := 255.

Record MountShape : Set := { shape_tag : string; shape_guest : string }.

(** ** Errors *)

Definition mount_error (index : Z) (field message hint : string) : FirestoneError :=
  with_hint (error_new InvalidSpec ("'mount[" +:+ dec index +:+ "]." +:+ field +:+ "': " +:+ message)) hint.
Definition noncanonical_path_error (index : Z) (field path : string) : FirestoneError :=
  mount_error index field (field +:+ " path '" +:+ path +:+ "' is not canonical")
    ("remove '.', '..', duplicate separators, and trailing separators from mount." +:+ field).

(** ** One mount *)

Definition tag_byte (a : ascii) : bool :=
  is_ascii_alphanumeric a || (Ascii.eqb a "." || Ascii.eqb a "_" || Ascii.eqb a "-").
Definition valid_tag (tag : string) : bool :=
  negb (is_empty tag) && (len tag <=? VIRTIOFS_TAG_MAX_BYTES)
  && match first_byte tag with Some a => is_ascii_alphanumeric a | None => false end
  && all_bytes tag_byte tag.
Definition validate_tag (tag : string) (index : Z) : result FirestoneError () :=
  if valid_tag tag then Ok ()
  else Err (mount_error index "tag"
         ("tag '" +:+ tag +:+ "' must be 1 to " +:+ dec VIRTIOFS_TAG_MAX_BYTES
          +:+ " ASCII bytes and contain only letters, digits, '.', '_', or '-'")
         "use a tag such as 'source' or omit it to use share0, share1, and so on").

(** The components of a path that are names. *)
Definition names (path : string) : list string :=
  omap (λ c, match c with Normal value => Some value | _ => None end) (components path).
Definition utf8_ok (path : string) : bool := bool_decide (is_Some (scalars (bytes_of path))).
Definition check_component (index : Z) (field : string) (_ : ()) (value : string) : result FirestoneError () :=
  if VIRTIOFS_COMPONENT_MAX_BYTES <? len value
  then Err (mount_error index field
         (field +:+ " path component is " +:+ dec (len value) +:+ " bytes; Linux permits at most "
          +:+ dec VIRTIOFS_COMPONENT_MAX_BYTES)
         ("shorten the mount " +:+ field +:+ " path component"))
  else Ok ().
Definition validate_path_bytes (path : string) (index : Z) (field : string) : result FirestoneError () :=
  if negb (utf8_ok path)
  then Err (mount_error index field (field +:+ " path '" +:+ path +:+ "' is not UTF-8")
         ("use a UTF-8 mount " +:+ field +:+ " path"))
  else if VIRTIOFS_PATH_MAX_BYTES <? len path
  then Err (mount_error index field
         (field +:+ " path is " +:+ dec (len path) +:+ " bytes; Linux permits at most " +:+ dec VIRTIOFS_PATH_MAX_BYTES)
         ("use a shorter mount " +:+ field +:+ " path"))
  else if has_char NUL path
  then Err (mount_error index field (field +:+ " path contains a NUL byte")
         ("remove the NUL byte from the mount " +:+ field +:+ " path"))
  else fold_result (check_component index field) () (names path).
Definition canonical_spelling (path : string) : bool :=
  negb ((1 <? len path) && (ends_with "/" path || contains_str "//" path))
  && negb (existsb (λ c, String.eqb c "." || String.eqb c "..") (split "/" path)).
Definition validate_canonical_spelling (path : string) (index : Z) (field : string) : result FirestoneError () :=
  if (1 <? len path) && (ends_with "/" path || contains_str "//" path)
  then Err (noncanonical_path_error index field path)
  else if existsb (λ c, String.eqb c "." || String.eqb c "..") (split "/" path)
  then Err (noncanonical_path_error index field path)
  else Ok ().
Definition validate_host_spelling (path : string) (index : Z) : result FirestoneError () :=
  if negb (is_absolute path)
  then Err (mount_error index "host" ("host path '" +:+ path +:+ "' is not absolute")
         "resolve the host path through Paths before preparing virtiofsd")
  else
    validate_path_bytes path index "host";;
    validate_canonical_spelling path index "host".
Definition check_guest_component (path : string) (index : Z) (_ : ()) (value : string) : result FirestoneError () :=
  if negb (all_bytes (λ a, negb (is_ascii_control a)) value)
  then Err (mount_error index "guest" ("guest path '" +:+ path +:+ "' contains a control byte")
         "remove control bytes from the guest mount point")
  else Ok ().
Definition validate_guest_path (path : string) (index : Z) : result FirestoneError string :=
  if negb (is_absolute path)
  then Err (mount_error index "guest" ("guest path '" +:+ path +:+ "' is not absolute")
         "use an absolute guest path such as '/work'")
  else if path_eqb path "/"
  then Err (mount_error index "guest" "guest path '/' would replace the guest root filesystem"
         "use a dedicated mount point such as '/work'")
  else
    validate_path_bytes path index "guest";;
    validate_canonical_spelling path index "guest";;
    fold_result (check_guest_component path index) () (names path);;
    Ok path.

(** ** The whole set *)

(** [Path::starts_with] compares components. *)
Definition path_starts_with (p q : string) : bool := bool_decide (components q `prefix_of` components p).
Definition paths_overlap (p q : string) : bool := path_eqb p q || path_starts_with p q || path_starts_with q p.

(** The inner loops: the first earlier path that overlaps. *)
Fixpoint check_overlap (index : Z) (field hint path : string) (previous_index : Z)
    (previous : list string) : result FirestoneError () :=
  match previous with
  | [] => Ok ()
  | p :: previous =>
      if paths_overlap p path
      then Err (mount_error index field
             (field +:+ " path '" +:+ path +:+ "' overlaps mount[" +:+ dec previous_index +:+ "]." +:+ field +:+ " '"
              +:+ p +:+ "'") hint)
      else check_overlap index field hint path (previous_index + 1) previous
  end.
Definition mount_turn (index : Z) (earlier : list MountSpec.MountSpec) (tags : gmap string Z) (shapes : list MountShape)
    (mount : MountSpec.MountSpec) : result FirestoneError (gmap string Z * list MountShape) :=
  let tag := MountSpec.effective_tag mount index in
  validate_tag tag index;;
  match tags !! tag with
  | Some previous =>
      Err (mount_error index "tag" ("tag '" +:+ tag +:+ "' conflicts with mount[" +:+ dec previous +:+ "].tag")
        "set a unique tag or omit tags to use share0, share1, and so on")
  | None => Ok ()
  end;;
  validate_host_spelling (MountSpec.host mount) index;;
  check_overlap index "host" "use disjoint host directories for separate virtio-fs devices" (MountSpec.host mount) 0
    (MountSpec.host <$> earlier);;
  guest ← validate_guest_path (MountSpec.guest mount) index;
  check_overlap index "guest" "use disjoint absolute guest mount points" guest 0 (shape_guest <$> shapes);;
  Ok (<[tag := index]> tags, shapes ++ [{| shape_tag := tag; shape_guest := guest |}]).
Fixpoint mount_loop (index : Z) (earlier : list MountSpec.MountSpec) (tags : gmap string Z) (shapes : list MountShape)
    (mounts : list MountSpec.MountSpec) : result FirestoneError (list MountShape) :=
  match mounts with
  | [] => Ok shapes
  | mount :: mounts =>
      '(tags, shapes) ← mount_turn index earlier tags shapes mount;
      mount_loop (index + 1) (earlier ++ [mount]) tags shapes mounts
  end.
Definition mount_shapes (mounts : list MountSpec.MountSpec) : result FirestoneError (list MountShape) :=
  if MAX_VIRTIOFS_MOUNTS <? Z.of_nat (length mounts)
  then Err (with_hint (error_new InvalidSpec
         ("'mount': has " +:+ dec (Z.of_nat (length mounts)) +:+ " entries; at most " +:+ dec MAX_VIRTIOFS_MOUNTS
          +:+ " are supported"))
         "remove mounts until no more than 16 virtiofsd sidecars are required")
  else mount_loop 0 [] ∅ [] mounts.
Definition validate_mount_spec_layout (mounts : list MountSpec.MountSpec) : result FirestoneError () :=
  mount_shapes mounts;; Ok ().

(** ** What is accepted *)

Definition path_ok (path : string) : Prop :=
  is_absolute path = true ∧ valid_str path ∧ len path ≤ VIRTIOFS_PATH_MAX_BYTES ∧ has_char NUL path = false
  ∧ Forall (λ c, len c ≤ VIRTIOFS_COMPONENT_MAX_BYTES) (names path) ∧ canonical_spelling path = true.
Definition guest_ok (path : string) : Prop :=
  path_ok path ∧ components path ≠ components "/"
  ∧ Forall (λ c, all_bytes (λ a, negb (is_ascii_control a)) c = true) (names path).
Record layout_ok (shapes : list MountShape) (mounts : list MountSpec.MountSpec) : Prop := {
  layout_shapes : shapes = imap (λ i m, {| shape_tag := MountSpec.effective_tag m (Z.of_nat i);
                                           shape_guest := MountSpec.guest m |}) mounts;
  layout_tags : Forall (λ s, valid_tag (shape_tag s) = true) shapes ∧ NoDup (shape_tag <$> shapes);
  layout_paths : Forall (λ m, path_ok (MountSpec.host m) ∧ guest_ok (MountSpec.guest m)) mounts;
  layout_hosts : ForallOrdPairs (λ m m', apart (MountSpec.host m) (MountSpec.host m')) mounts;
  layout_guests : ForallOrdPairs (λ m m', apart (MountSpec.guest m) (MountSpec.guest m')) mounts }.

Lemma path_bytes_Ok path index field :
  validate_path_bytes path index field = Ok () ↔
  valid_str path ∧ len path ≤ VIRTIOFS_PATH_MAX_BYTES ∧ has_char NUL path = false
  ∧ Forall (λ c, len c ≤ VIRTIOFS_COMPONENT_MAX_BYTES) (names path).
Proof.
  unfold validate_path_bytes, utf8_ok, valid_str.
  rewrite !if_err_Ok, negb_false_iff, bool_decide_eq_true, Z.ltb_ge.
  rewrite (fold_units_Ok _ (λ c, len c ≤ VIRTIOFS_COMPONENT_MAX_BYTES)); [tauto|].
  intros c. unfold check_component. rewrite if_err_Ok, Z.ltb_ge. naive_solver.
Qed.
Lemma spelling_Ok path index field :
  validate_canonical_spelling path index field = Ok () ↔ canonical_spelling path = true.
Proof.
  unfold validate_canonical_spelling, canonical_spelling. rewrite !if_err_Ok, andb_true_iff, !negb_true_iff. tauto.
Qed.
Lemma host_spelling_Ok path index : validate_host_spelling path index = Ok () ↔ path_ok path.
Proof.
  unfold validate_host_spelling, path_ok. rewrite if_err_Ok, negb_false_iff, unit_seq_Ok, path_bytes_Ok, spelling_Ok. tauto.
Qed.
Lemma guest_path_Ok path index g : validate_guest_path path index = Ok g ↔ g = path ∧ guest_ok path.
Proof.
  unfold validate_guest_path, guest_ok, path_ok, path_eqb.
  rewrite !if_err_Ok, !unit_seq_Ok, negb_false_iff, bool_decide_eq_false, path_bytes_Ok, spelling_Ok.
  rewrite (fold_units_Ok _ (λ c, all_bytes (λ a, negb (is_ascii_control a)) c = true)); [naive_solver|].
  intros c. unfold check_guest_component. rewrite if_err_Ok, negb_false_iff. naive_solver.
Qed.
Lemma overlap_false p q : paths_overlap p q = false ↔ apart p q.
Proof.
  unfold paths_overlap, path_starts_with, path_eqb, apart. rewrite !orb_false_iff, !bool_decide_eq_false.
  split; [tauto|]. intros [H1 H2]. repeat split; try done. intros E. apply H1. by rewrite E.
Qed.
Lemma check_overlap_Ok index field h path i previous :
  check_overlap index field h path i previous = Ok () ↔ Forall (λ p, apart p path) previous.
Proof.
  revert i. induction previous as [|p previous IH]; intros i; cbn [check_overlap]; [by rewrite Forall_nil|].
  by rewrite if_err_Ok, overlap_false, IH, Forall_cons.
Qed.

(** *** The loop *)

Lemma pairs_snoc {A} (R : relation A) l x :
  ForallOrdPairs R (l ++ [x]) ↔ ForallOrdPairs R l ∧ Forall (λ y, R y x) l.
Proof.
  induction l as [|y l IH]; cbn.
  - split; [intros _; repeat constructor|intros _; repeat constructor].
  - rewrite Forall_cons. split.
    + intros Hp. inversion Hp as [|?? Hy Hp']; subst. apply IH in Hp' as [Hp' Hx].
      apply Forall_app in Hy as [Hy Hyx]. rewrite Forall_singleton in Hyx. split; [by constructor|]. by split.
    + intros [Hp [Hyx Hx]]. inversion Hp; subst. constructor; [apply Forall_app; by rewrite Forall_singleton|by apply IH].
Qed.
Definition shape_of (i : nat) (m : MountSpec.MountSpec) : MountShape :=
  {| shape_tag := MountSpec.effective_tag m (Z.of_nat i); shape_guest := MountSpec.guest m |}.
(** What the next mount must satisfy. *)
Record fits (shapes : list MountShape) (earlier : list MountSpec.MountSpec) (m : MountSpec.MountSpec) : Prop := {
  fits_tag : valid_tag (MountSpec.effective_tag m (Z.of_nat (length earlier))) = true
    ∧ MountSpec.effective_tag m (Z.of_nat (length earlier)) ∉ shape_tag <$> shapes;
  fits_paths : path_ok (MountSpec.host m) ∧ guest_ok (MountSpec.guest m);
  fits_hosts : Forall (λ e, apart (MountSpec.host e) (MountSpec.host m)) earlier;
  fits_guests : Forall (λ e, apart (MountSpec.guest e) (MountSpec.guest m)) earlier }.
Lemma layout_snoc shapes earlier m :
  layout_ok shapes (earlier ++ [m]) ↔
  ∃ shapes0, layout_ok shapes0 earlier ∧ fits shapes0 earlier m ∧ shapes = shapes0 ++ [shape_of (length earlier) m].
Proof.
  split.
  - intros [Hs [Ht Hd] Hp Hh Hg]. rewrite imap_app in Hs. cbn in Hs. rewrite Nat.add_0_r in Hs.
    exists (imap shape_of earlier). subst shapes. rewrite fmap_app in Hd. cbn in Hd.
    apply NoDup_app in Hd as (Hd & Hn & _). apply Forall_app in Ht as [Ht Ht1]. rewrite Forall_singleton in Ht1.
    apply Forall_app in Hp as [Hp Hp1]. rewrite Forall_singleton in Hp1.
    apply pairs_snoc in Hh as [Hh Hh1]. apply pairs_snoc in Hg as [Hg Hg1].
    split; [by split|]. split; [|done]. split; [|done..]. split; [done|]. intros Hin. apply (Hn _ Hin). set_solver.
  - intros (shapes0 & [Hs [Ht Hd] Hp Hh Hg] & [[Hft Hfn] Hfp Hfh Hfg] & ->). split.
    + rewrite imap_app, Hs. cbn. by rewrite Nat.add_0_r.
    + split; [apply Forall_app; by rewrite Forall_singleton|]. rewrite fmap_app. cbn. apply NoDup_app.
      split; [done|]. split; [|apply NoDup_singleton]. intros x Hx Hx'. apply list_elem_of_singleton in Hx' as ->. done.
    + apply Forall_app. by rewrite Forall_singleton.
    + by apply pairs_snoc.
    + by apply pairs_snoc.
Qed.
Lemma layout_prefix shapes earlier later :
  layout_ok shapes (earlier ++ later) → ∃ shapes0, layout_ok shapes0 earlier.
Proof.
  revert shapes. induction later as [|m later IH] using rev_ind; intros shapes.
  - rewrite app_nil_r. by exists shapes.
  - rewrite app_assoc. intros (shapes0 & Hl & _)%layout_snoc. by apply IH in Hl.
Qed.
Lemma layout_determines s s' ms : layout_ok s ms → layout_ok s' ms → s = s'.
Proof. intros [Hs _ _ _ _] [Hs' _ _ _ _]. congruence. Qed.

Lemma imap_fmap_const {A B} (f : A → B) (l : list A) : imap (λ _, f) l = f <$> l.
Proof. induction l as [|x l IH]; [done|]. rewrite imap_cons, fmap_cons. f_equal. exact IH. Qed.
Definition tags_of (tags : gmap string Z) (shapes : list MountShape) : Prop :=
  ∀ t, tags !! t = None ↔ t ∉ shape_tag <$> shapes.
Lemma mount_turn_Ok earlier tags shapes m tags' shapes' :
  tags_of tags shapes → layout_ok shapes earlier →
  mount_turn (Z.of_nat (length earlier)) earlier tags shapes m = Ok (tags', shapes') ↔
  fits shapes earlier m
  ∧ tags' = <[MountSpec.effective_tag m (Z.of_nat (length earlier)) := Z.of_nat (length earlier)]> tags
  ∧ shapes' = shapes ++ [shape_of (length earlier) m].
Proof.
  intros Htags Hl. unfold mount_turn. set (t := MountSpec.effective_tag m _).
  assert (Hguests : shape_guest <$> shapes = MountSpec.guest <$> earlier).
  { rewrite (layout_shapes _ _ Hl), fmap_imap. apply (imap_fmap_const MountSpec.guest). }
  rewrite !unit_seq_Ok, bind_Ok. setoid_rewrite guest_path_Ok. setoid_rewrite unit_seq_Ok.
  rewrite host_spelling_Ok, check_overlap_Ok. setoid_rewrite check_overlap_Ok. rewrite Hguests, Forall_fmap.
  assert (Hfree : (match tags !! t with Some previous => Err (mount_error (Z.of_nat (length earlier)) "tag"
      ("tag '" +:+ t +:+ "' conflicts with mount[" +:+ dec previous +:+ "].tag")
      "set a unique tag or omit tags to use share0, share1, and so on") | None => Ok () end) = Ok () ↔ t ∉ shape_tag <$> shapes).
  { rewrite <- (Htags t). by destruct (tags !! t). }
  rewrite Hfree. unfold validate_tag. destruct (valid_tag t) eqn:Ht; [|split; [by intros [? _]|intros ([[Hv _] _ _ _] & _); unfold t in Ht; congruence]].
  split.
  - intros (_ & Hn & Hh & Hho & g & [-> Hg] & Hgo & [= <- <-]). split; [|done]. split; try done.
    by rewrite Forall_fmap in Hgo.
  - intros ([[_ Hn] [Hh Hg] Hho Hgo] & -> & ->). split_and!; try done. exists (MountSpec.guest m).
    split; [done|]. split; [by rewrite Forall_fmap|done].
Qed.
Lemma mount_loop_Ok earlier tags shapes mounts out :
  tags_of tags shapes → layout_ok shapes earlier →
  mount_loop (Z.of_nat (length earlier)) earlier tags shapes mounts = Ok out ↔ layout_ok out (earlier ++ mounts).
Proof.
  revert earlier tags shapes. induction mounts as [|m mounts IH]; intros earlier tags shapes Htags Hl; cbn [mount_loop].
  - rewrite app_nil_r. split; [by intros [= <-]|]. intros Hl'. f_equal. by eapply layout_determines.
  - rewrite bind_Ok. change (m :: mounts) with ([m] ++ mounts). rewrite app_assoc. split.
    + intros ([tags' shapes'] & (Hf & -> & ->)%mount_turn_Ok & Hr); [|done..]. revert Hr.
      replace (Z.of_nat (length earlier) + 1) with (Z.of_nat (length (earlier ++ [m]))) by (rewrite length_app; cbn; lia).
      apply IH.
      * intros t. rewrite lookup_insert_None, (Htags t), fmap_app. cbn. unfold shape_of. cbn. set_solver.
      * apply layout_snoc. by exists shapes.
    + intros Ho. destruct (layout_prefix _ _ _ Ho) as [s (s0 & Hl0 & Hf & ->)%layout_snoc].
      rewrite (layout_determines _ _ _ Hl0 Hl) in Hf. eexists (_, _).
      split; [by apply mount_turn_Ok|]. cbn beta iota.
      replace (Z.of_nat (length earlier) + 1) with (Z.of_nat (length (earlier ++ [m]))) by (rewrite length_app; cbn; lia).
      apply IH; [| |done].
      * intros t. rewrite lookup_insert_None, (Htags t), fmap_app. cbn. unfold shape_of. cbn. set_solver.
      * apply layout_snoc. by exists shapes.
Qed.

(** the mount layout check is exact: it accepts at most sixteen mounts, and those in which
    every tag is well formed and unlike the others, every host and guest path is an absolute
    canonical path within the kernel's limits, no host directory contains another and no guest
    mount point contains another or is the root; the shapes it returns are the mounts' own. *)
Theorem mount_layout_exact mounts shapes :
  mount_shapes mounts = Ok shapes ↔ (length mounts ≤ 16)%nat ∧ layout_ok shapes mounts.
Proof.
  unfold mount_shapes, MAX_VIRTIOFS_MOUNTS. rewrite if_err_Ok, Z.ltb_ge.
  change (0) with (Z.of_nat (length (A := MountSpec.MountSpec) [])).
  rewrite (mount_loop_Ok [] ∅ []); [cbn [app]; split; intros [? ?]; split; try done; lia| |].
  - intros t. rewrite lookup_empty. cbn. set_solver.
  - split; try constructor; constructor.
Qed.
