(* ===== verification/Validation.v ===== *)
(** Validation of a machine specification ([firestone-core/src/spec/validation.rs]): the paths of a
    specification are resolved, its image reference is classified and normalised, and every rule
    that can be checked before a machine exists is checked against the host.  The host's calls, the
    URL and the SSH key crates are parameters; the real host is built from its system calls. *)
From stdpp Require Import gmap.
From S2P Require Import Prelude RustStr Errors RustPath Bounded Values Ports Utf8 Chars OciRef Paths Edit BTree Spec SpecToml Catalog Network Virtiofs.
Open Scope Z_scope.

#[local] Existing Instance Arch.Arch_eq_dec.

Record SpecWarning : Set := { warning_key : string; warning_message : string }.

(** [trait ValidationHost]. *)
Class ValidationHost := {
  architecture : result FirestoneError Arch.Arch;
  cpu_count : Z;
  path_exists : string → result IoError bool;
  path_is_readable : string → result IoError bool;
  path_is_file : string → result IoError bool;
  canonicalize_regular_nofollow : string → result IoError string;
  path_is_executable : string → result IoError bool;
  read_regular_file : string → Z → result IoError string;
  host_tap :: TapHost }.

(** ** The real host *)

Record FileType : Set := { type_is_file : bool; type_is_symlink : bool }.
(** The system calls: each is what it answers at the time of the check.  [open_nonblock] is the
    file type and the contents behind the descriptor. *)
Class HostSyscalls := {
  consts_arch : string;
  available_parallelism : option Z;
  fs_metadata : string → result IoError FileType;
  fs_symlink_metadata : string → result IoError FileType;
  fs_canonicalize : string → result IoError string;
  file_open : string → result IoError ();
  access_x_ok : string → result Z ();
  from_raw_os_error : Z → IoError;
  open_nonblock : string → result IoError (result IoError FileType * Reader);
  fs_read_to_string : string → result IoError string;
  open_dev_net_tun : result IoError () }.
Definition EACCES : Z := 13.
Definition EPERM : Z := 1.

(** The text of [ParseIntError] for an unsigned type. *)
Fixpoint digits_error (max radix acc : Z) (s : string) : string :=
  match s with
  | EmptyString => ""
  | String a s =>
      match digit_value radix a with
      | None => "invalid digit found in string"
      | Some d =>
          if max <? acc * radix + d then "number too large to fit in target type"
          else digits_error max radix (acc * radix + d) s
      end
  end.
Definition parse_int_error (max radix : Z) (s : string) : string :=
  if is_empty s then "cannot parse integer from empty string"
  else if String.eqb s "+" || String.eqb s "-" then "invalid digit found in string"
  else digits_error max radix 0 (default s (strip_prefix "+" s)).
(** [RealValidationHost::tap_device_is_tap], from the text of [tun_flags]. *)
Definition tun_flags_are_tap (text : string) : result IoError bool :=
  let '(flags, radix) := match strip_prefix "0x" (trim text) with
    | Some flags => (flags, 16)
    | None => (trim text, 10) end in
  flags ← ok_or (from_str_radix u32_max radix flags)
    {| io_kind := IoInvalidData; io_text := "invalid tun_flags: " +:+ parse_int_error u32_max radix flags |};
  Ok (negb (Z.land flags 2 =? 0)).

(** An error of kind [k] means [false], any other is passed on. *)
Definition false_when (k : IoKind) (r : result IoError ()) : result IoError bool :=
  match r with
  | Ok _ => Ok true
  | Err e => if bool_decide (io_kind e = k) then Ok false else Err e
  end.
Definition unit_of {A} (r : result IoError A) : result IoError () := match r with Ok _ => Ok () | Err e => Err e end.
#[export] Instance RealTapHost `{HostSyscalls} : TapHost := {|
  tap_device_is_tap name :=
    match fs_read_to_string (path_join (path_join "/sys/class/net" name) "tun_flags") with
    | Err e => if bool_decide (io_kind e = IoNotFound) then Ok false else Err e
    | Ok flags => tun_flags_are_tap flags
    end;
  tun_is_accessible := open_dev_net_tun |}.
#[export] Instance RealValidationHost `{HostSyscalls} : ValidationHost := {|
  architecture := map_err (λ message,
      with_hint (error_new Dependency message) "run Firestone on an x86_64 or aarch64 Linux host")
    (Arch.current consts_arch);
  cpu_count := default 1 available_parallelism;
  path_exists path := false_when IoNotFound (unit_of (fs_metadata path));
  path_is_readable path := false_when IoPermissionDenied (file_open path);
  path_is_file path := metadata ← fs_metadata path; Ok (type_is_file metadata);
  canonicalize_regular_nofollow path :=
    metadata ← fs_symlink_metadata path;
    if negb (type_is_file metadata) || type_is_symlink metadata
    then Err {| io_kind := IoInvalidInput; io_text := "path is not a non-symlink regular file" |}
    else fs_canonicalize path;
  path_is_executable path :=
    match access_x_ok path with
    | Ok _ => Ok true
    | Err errno => if (errno =? EACCES) || (errno =? EPERM) then Ok false else Err (from_raw_os_error errno)
    end;
  read_regular_file path limit :=
    '(metadata, contents) ← open_nonblock path;
    metadata ← metadata;
    if negb (type_is_file metadata)
    then Err {| io_kind := IoInvalidInput; io_text := "'" +:+ path +:+ "' is not a regular file" |}
    else
      match read_to_end contents limit with
      | Ok bytes => Ok (utf8 bytes)
      | Err (Io e) => Err e
      | Err LimitExceeded =>
          Err {| io_kind := IoInvalidData; io_text := "'" +:+ path +:+ "' exceeds the read limit" |}
      end;
  host_tap := RealTapHost |}.

(** ** The context *)

(** [ssh_key::PublicKey::from_openssh]. *)
Class SshKeyCrate := { from_openssh : string → result string () }.
Record ValidationContext : Type := {
  paths : Paths.Paths;
  machine_dir : string;
  catalog : Entries;
  base_image_virtual_size : option Z;
  pinned_image_ref : option string }.
Definition new (paths : Paths.Paths) (machine_dir : string) (catalog : Entries) : ValidationContext :=
  {| paths := paths; machine_dir := machine_dir; catalog := catalog; base_image_virtual_size := None;
     pinned_image_ref := None |}.
Definition with_base_image_virtual_size (c : ValidationContext) (size : Z) : ValidationContext :=
  {| paths := paths c; machine_dir := machine_dir c; catalog := catalog c; base_image_virtual_size := Some size;
     pinned_image_ref := pinned_image_ref c |}.
Definition with_pinned_image_ref (c : ValidationContext) (reference : string) : ValidationContext :=
  {| paths := paths c; machine_dir := machine_dir c; catalog := catalog c;
     base_image_virtual_size := base_image_virtual_size c; pinned_image_ref := Some reference |}.

Definition invalid (key message hint : string) : FirestoneError :=
  with_field (with_hint (error_new InvalidSpec ("invalid '" +:+ key +:+ "': " +:+ message)) hint) key.
Definition invalid_with_source (key message hint source : string) : FirestoneError :=
  with_source (invalid key message hint) source.

(** *** Host checks *)

Section host.
Context `{ValidationHost}.

Definition host_path_exists (key path : string) : result FirestoneError bool :=
  map_err (λ e, invalid_with_source key ("cannot inspect '" +:+ path +:+ "'")
      "check the path and its parent-directory permissions" (io_text e))
    (path_exists path).
Definition require_readable (key path hint : string) : result FirestoneError () :=
  match path_is_readable path with
  | Ok true => Ok ()
  | Ok false => Err (invalid key ("'" +:+ path +:+ "' is not readable") hint)
  | Err e => Err (invalid_with_source key ("cannot open '" +:+ path +:+ "'") hint (io_text e))
  end.
Definition require_regular_file (key path hint : string) : result FirestoneError () :=
  match path_is_file path with
  | Ok true => Ok ()
  | Ok false => Err (invalid key ("'" +:+ path +:+ "' is not a regular file") hint)
  | Err e => Err (invalid_with_source key ("cannot inspect file type for '" +:+ path +:+ "'") hint (io_text e))
  end.
Definition require_executable (key path hint : string) : result FirestoneError () :=
  match path_is_executable path with
  | Ok true => Ok ()
  | Ok false => Err (invalid key ("'" +:+ path +:+ "' is not executable by the current user") hint)
  | Err e => Err (invalid_with_source key ("cannot check execute access for '" +:+ path +:+ "'") hint (io_text e))
  end.
Definition read_failure (path limit_label : string) (k : IoKind) : string :=
  match k with
  | IoNotFound => "file '" +:+ path +:+ "' does not exist"
  | IoInvalidInput => "'" +:+ path +:+ "' is not a regular file"
  | IoInvalidData => "file '" +:+ path +:+ "' exceeds " +:+ limit_label
  | IoPermissionDenied => "'" +:+ path +:+ "' is not readable by the current user"
  | _ => "cannot read '" +:+ path +:+ "'"
  end.
Definition read_required_file (key path : string) (limit : Z) (limit_label hint : string) : result FirestoneError string :=
  map_err (λ e, invalid_with_source key (read_failure path limit_label (io_kind e)) hint (io_text e))
    (read_regular_file path limit).
End host.

(** ** Paths of a specification and of a patch *)

Section resolve.
Context {Json : Type}.
Local Abbreviation Spec := (MachineSpec.MachineSpec Json).
Local Abbreviation S := (M Spec FirestoneError).

Definition context_path (path key : string) (c : ValidationContext) : result FirestoneError string :=
  resolve_input_path (paths c) path (machine_dir c) key.
Definition with_host (m : MountSpec.MountSpec) (host : string) : MountSpec.MountSpec :=
  {| MountSpec.host := host; MountSpec.guest := MountSpec.guest m; MountSpec.readonly := MountSpec.readonly m;
     MountSpec.tag := MountSpec.tag m |}.
Definition modify (f : Spec → Spec) : S () := λ s, (Ok (), f s).
(** The loop over [iter_mut]: [earlier] is resolved in place, [mounts] is not yet. *)
Fixpoint resolve_mounts (c : ValidationContext) (index : Z) (earlier mounts : list MountSpec.MountSpec) : S () :=
  match mounts with
  | [] => mret ()
  | m :: mounts =>
      host ← M_lift (context_path (MountSpec.host m) ("mount[" +:+ dec index +:+ "].host") c);
      modify (MachineSpec.set_mounts (earlier ++ with_host m host :: mounts));;
      resolve_mounts c (index + 1) (earlier ++ [with_host m host]) mounts
  end.
Definition set_cloud (f : CloudInitSpec.CloudInitSpec → CloudInitSpec.CloudInitSpec) (s : Spec) : Spec :=
  MachineSpec.set_cloud_init (f (MachineSpec.cloud_init s)) s.
Definition set_vm (f : VmmSpec.VmmSpec Json → VmmSpec.VmmSpec Json) (s : Spec) : Spec :=
  MachineSpec.set_vmm (f (MachineSpec.vmm s)) s.
Definition set_firmware (firmware : Firmware.Firmware) (v : VmmSpec.VmmSpec Json) : VmmSpec.VmmSpec Json :=
  {| VmmSpec.binary := VmmSpec.binary v; VmmSpec.firmware := firmware; VmmSpec.extra_args := VmmSpec.extra_args v;
     VmmSpec.config_overlay := VmmSpec.config_overlay v |}.
(** [if let Some(path) = &mut field]. *)
Definition resolve_field (c : ValidationContext) (field : option string) (key : string) (set_ : option string → Spec → Spec)
    : S () :=
  match field with
  | None => mret ()
  | Some path => path ← M_lift (context_path path key c); modify (set_ (Some path))
  end.
Fixpoint resolve_keys (c : ValidationContext) (index : Z) (earlier keys : list string) : S () :=
  match keys with
  | [] => mret ()
  | key :: keys =>
      path ← M_lift (context_path key ("cloud_init.ssh_keys[" +:+ dec index +:+ "]") c);
      modify (set_cloud (CloudInitSpec.set_ssh_keys (earlier ++ path :: keys)));;
      resolve_keys c (index + 1) (earlier ++ [path]) keys
  end.
(** The text of [ParseFirmwareError], and [Firmware::path] of a path whose bytes need not be text. *)
Definition PARSE_FIRMWARE_ERROR : string :=
  "firmware must be 'auto', 'rhf', 'edk2', or a non-empty UTF-8 path; prefix a reserved path with './'".
Definition firmware_path (resolved : string) : result FirestoneError Firmware.Firmware :=
  map_err (λ _, invalid_with_source "vmm.firmware" "firmware path is empty"
      "set a non-empty firmware path or choose 'auto', 'rhf', or 'edk2'" PARSE_FIRMWARE_ERROR)
    (if utf8_ok resolved then Firmware.path resolved else Err Firmware.ParseFirmwareError_).
Definition resolve_spec_paths (c : ValidationContext) : S () :=
  spec ← M_get;
  resolve_mounts c 0 [] (MachineSpec.mounts spec);;
  let ci := MachineSpec.cloud_init spec in
  resolve_field c (CloudInitSpec.user_data ci) "cloud_init.user_data" (λ v, set_cloud (CloudInitSpec.set_user_data v));;
  resolve_field c (CloudInitSpec.network_config ci) "cloud_init.network_config"
    (λ v, set_cloud (CloudInitSpec.set_network_config v));;
  resolve_keys c 0 [] (CloudInitSpec.ssh_keys ci);;
  resolve_field c (VmmSpec.binary (MachineSpec.vmm spec)) "vmm.binary" (λ v, set_vm (VmmSpec.set_binary v));;
  match Firmware.as_path (VmmSpec.firmware (MachineSpec.vmm spec)) with
  | None => mret ()
  | Some path =>
      resolved ← M_lift (context_path path "vmm.firmware" c);
      firmware ← M_lift (firmware_path resolved);
      modify (set_vm (set_firmware firmware))
  end.

(** [resolve_patch_paths]; the patch is a clone which an error discards. *)
Fixpoint resolve_list (p : Paths.Paths) (base_dir prefix suffix : string) (index : Z) (l : list string)
    : result FirestoneError (list string) :=
  match l with
  | [] => Ok []
  | path :: l =>
      path ← resolve_input_path p path base_dir (prefix +:+ "[" +:+ dec index +:+ "]" +:+ suffix);
      l ← resolve_list p base_dir prefix suffix (index + 1) l;
      Ok (path :: l)
  end.
Definition resolve_option (p : Paths.Paths) (base_dir key : string) (field : option string)
    : result FirestoneError (option string) :=
  match field with
  | None => Ok None
  | Some path => path ← resolve_input_path p path base_dir key; Ok (Some path)
  end.
Definition in_option {A} (f : A → result FirestoneError A) (o : option A) : result FirestoneError (option A) :=
  match o with None => Ok None | Some a => a ← f a; Ok (Some a) end.
Definition resolve_patch_mounts (p : Paths.Paths) (base_dir : string) (mounts : list MountSpec.MountSpec)
    : result FirestoneError (list MountSpec.MountSpec) :=
  hosts ← resolve_list p base_dir "mount" ".host" 0 (MountSpec.host <$> mounts);
  Ok (zip_with with_host mounts hosts).
Definition resolve_patch_cloud_init (p : Paths.Paths) (base_dir : string) (c : CloudInitSpecPatch.CloudInitSpecPatch)
    : result FirestoneError CloudInitSpecPatch.CloudInitSpecPatch :=
  user_data ← resolve_option p base_dir "cloud_init.user_data" (CloudInitSpecPatch.user_data c);
  network_config ← resolve_option p base_dir "cloud_init.network_config" (CloudInitSpecPatch.network_config c);
  ssh_keys ← in_option (resolve_list p base_dir "cloud_init.ssh_keys" "" 0) (CloudInitSpecPatch.ssh_keys c);
  Ok {| CloudInitSpecPatch.user_data := user_data;
        CloudInitSpecPatch.user_data_inline := CloudInitSpecPatch.user_data_inline c;
        CloudInitSpecPatch.network_config := network_config; CloudInitSpecPatch.ssh_keys := ssh_keys;
        CloudInitSpecPatch.ssh_authorized_keys := CloudInitSpecPatch.ssh_authorized_keys c;
        CloudInitSpecPatch.password := CloudInitSpecPatch.password c;
        CloudInitSpecPatch.ssh_pwauth := CloudInitSpecPatch.ssh_pwauth c;
        CloudInitSpecPatch.provisioning := CloudInitSpecPatch.provisioning c |}.
Definition resolve_patch_vmm (p : Paths.Paths) (base_dir : string) (v : VmmSpecPatch.VmmSpecPatch Json)
    : result FirestoneError (VmmSpecPatch.VmmSpecPatch Json) :=
  binary ← resolve_option p base_dir "vmm.binary" (VmmSpecPatch.binary v);
  firmware ← in_option (λ firmware,
      match Firmware.as_path firmware with
      | None => Ok firmware
      | Some path => resolved ← resolve_input_path p path base_dir "vmm.firmware"; firmware_path resolved
      end) (VmmSpecPatch.firmware v);
  Ok {| VmmSpecPatch.binary := binary; VmmSpecPatch.firmware := firmware;
        VmmSpecPatch.extra_args := VmmSpecPatch.extra_args v; VmmSpecPatch.config_overlay := VmmSpecPatch.config_overlay v |}.
Definition resolve_patch_paths (patch : MachineSpecPatch.MachineSpecPatch Json) (p : Paths.Paths) (base_dir : string)
    : result FirestoneError (MachineSpecPatch.MachineSpecPatch Json) :=
  mounts ← in_option (resolve_patch_mounts p base_dir) (MachineSpecPatch.mounts patch);
  cloud_init ← in_option (resolve_patch_cloud_init p base_dir) (MachineSpecPatch.cloud_init patch);
  vmm ← in_option (resolve_patch_vmm p base_dir) (MachineSpecPatch.vmm patch);
  Ok {| MachineSpecPatch.clear := MachineSpecPatch.clear patch; MachineSpecPatch.image := MachineSpecPatch.image patch;
        MachineSpecPatch.arch := MachineSpecPatch.arch patch; MachineSpecPatch.cpus := MachineSpecPatch.cpus patch;
        MachineSpecPatch.cpus_max := MachineSpecPatch.cpus_max patch; MachineSpecPatch.memory := MachineSpecPatch.memory patch;
        MachineSpecPatch.memory_max := MachineSpecPatch.memory_max patch; MachineSpecPatch.disk := MachineSpecPatch.disk patch;
        MachineSpecPatch.user := MachineSpecPatch.user patch; MachineSpecPatch.network := MachineSpecPatch.network patch;
        MachineSpecPatch.mounts := mounts; MachineSpecPatch.cloud_init := cloud_init; MachineSpecPatch.vmm := vmm |}.
End resolve.

(** ** The image *)

Definition looks_like_path (reference : string) : bool :=
  is_absolute reference || starts_with "." reference || starts_with "~" reference || has_char "/" reference
  || existsb (λ suffix, ends_with suffix reference) [".qcow2"; ".raw"; ".img"].
Definition looks_like_url (reference : string) : bool := contains_str "://" reference.

Section image.
Context `{ValidationHost} `{UrlCrate}.

Definition validate_https_url (reference : string) : result FirestoneError () :=
  if existsb is_whitespace (chars reference)
  then Err (invalid "image" ("image URL '" +:+ reference +:+ "' is malformed")
         "use a complete https:// URL without whitespace")
  else
    parsed ← map_err (λ e, invalid_with_source "image" ("image URL '" +:+ reference +:+ "' is malformed")
        "use a complete https:// URL" e)
      (url_parse reference);
    if negb (String.eqb (scheme parsed) "https")
    then Err (invalid "image" ("image URL '" +:+ reference +:+ "' does not use HTTPS")
           "use https://; insecure downloads are not supported")
    else if syntax_violation parsed || negb (has_host parsed) || negb (is_empty (username parsed))
            || has_password parsed || has_char "@" (authority parsed) || has_fragment parsed
    then Err (invalid "image" ("image URL '" +:+ reference +:+ "' is incomplete or malformed")
           "use a complete https:// URL with a host and without credentials or a fragment")
    else Ok ().
Definition image_ref_from_path (path : string) : result FirestoneError string :=
  if utf8_ok path then Ok (ImageRef.new path)
  else Err (invalid "image" ("local image path '" +:+ path +:+ "' is not valid UTF-8")
         "move the image under a UTF-8 path before adding it to firestone.toml").
Definition image_path (reference : string) (c : ValidationContext) (base_dir : string) : result FirestoneError string :=
  resolve_input_path (paths c) reference base_dir "image".

(** An existing file: the reference becomes its canonical path. *)
Definition local_image (candidate : string) : result FirestoneError string :=
  require_regular_file "image" candidate "choose a qcow2 or raw image file, not a directory";;
  require_readable "image" candidate "make the image file readable or choose another image";;
  canonical ← map_err (λ e, invalid_with_source "image" ("cannot canonicalize local image '" +:+ candidate +:+ "'")
      "use a readable non-symlink regular image file" (io_text e))
    (canonicalize_regular_nofollow candidate);
  image_ref_from_path canonical.
(** A name: what the catalog says, with an error that fits what the user may have meant. *)
Definition catalog_image (reference candidate : string) (arch : Arch.Arch) (c : ValidationContext)
    : result FirestoneError () :=
  match Catalog.resolve (catalog c) reference (Arch.as_str arch) with
  | Ok _ => Ok ()
  | Err e =>
      Err (if contains_reference (catalog c) reference
           then invalid_with_source "image" (Errors.message e)
                  (default "choose an image available for this host architecture" (Errors.hint e)) (Errors.error_display e)
           else if looks_like_path reference
           then invalid_with_source "image" ("local image '" +:+ candidate +:+ "' does not exist")
                  "correct the image path or choose a catalog reference such as 'ubuntu:24.04'" (Errors.error_display e)
           else invalid_with_source "image" (Errors.message e)
                  (default "choose an image listed by `firestone images ls`" (Errors.hint e)) (Errors.error_display e))
  end.
Definition url_or_catalog_image (reference candidate : string) (arch : Arch.Arch) (c : ValidationContext)
    : result FirestoneError () :=
  if looks_like_url reference then validate_https_url reference else catalog_image reference candidate arch c.
(** No such file: a container reference, or else a URL or a name. *)
Definition oci_or_named (reference candidate : string) (arch : Arch.Arch) (c : ValidationContext) : result FirestoneError string :=
  match OciRef.classify reference with
  | Some classification =>
      match OciRef.parse reference with
      | Ok parsed => Ok (ImageRef.new (OciRef.display parsed))
      | Err e =>
          if is_explicit classification
          then Err (invalid_with_source "image" (Errors.message e)
                 (default "write an OCI reference such as 'docker://nginx:latest'" (Errors.hint e)) (Errors.error_display e))
          else url_or_catalog_image reference candidate arch c;; Ok reference
      end
  | None => url_or_catalog_image reference candidate arch c;; Ok reference
  end.
(** [validate_image]: the reference the specification then holds. *)
Definition validate_image (reference : string) (arch : Arch.Arch) (c : ValidationContext) (image_base_dir : string)
    : result FirestoneError string :=
  if is_empty (trim reference)
  then Err (invalid "image" "image reference is empty"
         "set image to a catalog reference, an https URL, or an existing local file")
  else if bool_decide (pinned_image_ref c = Some reference) then Ok reference
  else
    candidate ← image_path reference c image_base_dir;
    present ← host_path_exists "image" candidate;
    if present : bool then local_image candidate
    else
      oci_or_named reference candidate arch c.
End image.

(** ** The rules *)

Definition MAX_USER_DATA_BYTES : Z := 1024 * 1024.
Definition MAX_INLINE_USER_DATA_BYTES : Z := 32 * 1024.
Definition MAX_PASSWORD_BYTES : Z := 256.
Definition MAX_NETWORK_CONFIG_BYTES : Z := 1024 * 1024.
Definition MAX_SSH_KEY_FILE_BYTES : Z := 64 * 1024.

Definition user_byte (a : ascii) : bool :=
  is_ascii_lowercase a || is_ascii_digit a || (Ascii.eqb a "_" || Ascii.eqb a "-").
Definition validate_user (user : string) : result FirestoneError () :=
  let '(valid_first, valid_rest) := match user with
    | EmptyString => (false, true)
    | String a rest => (is_ascii_lowercase a || Ascii.eqb a "_", all_bytes user_byte rest) end in
  if negb valid_first || negb valid_rest
  then Err (invalid "user" ("login user '" +:+ user +:+ "' is invalid") "use a name matching [a-z_][a-z0-9_-]*")
  else Ok ().

(** The first line, without a carriage return, is one that cloud-init dispatches on. *)
Definition first_line (text : string) : string := strip_cr (default "" (head (split LF text))).
Definition user_data_head (text : string) : bool :=
  String.eqb (first_line text) "#cloud-config" || starts_with "#!" (first_line text).
Definition validate_inline_user_data (inline : string) : result FirestoneError () :=
  if MAX_INLINE_USER_DATA_BYTES <? len inline
  then Err (invalid "cloud_init.user_data_inline" ("inline user-data is " +:+ dec (len inline) +:+ " bytes")
         "reduce inline user-data to 32 KiB or move it to a 'cloud_init.user_data' file")
  else if negb (user_data_head inline)
  then Err (invalid "cloud_init.user_data_inline" "inline user-data has an unsupported first line"
         "start inline user-data with '#cloud-config' or '#!'; set provisioning = false when using a raw shell script")
  else Ok ().
Definition validate_password (password : string) : result FirestoneError () :=
  if is_empty password
  then Err (invalid "cloud_init.password" "password is empty" "set a non-empty password or clear 'cloud_init.password'")
  else if MAX_PASSWORD_BYTES <? len password
  then Err (invalid "cloud_init.password" ("password is " +:+ dec (len password) +:+ " bytes")
         "use a password of 256 bytes or less")
  else if existsb is_control (chars password)
  then Err (invalid "cloud_init.password" "password contains a control character"
         "use a password without newlines, tabs, or other control characters")
  else Ok ().
Definition first_cloud_init_input (c : CloudInitSpec.CloudInitSpec) : option string :=
  if bool_decide (is_Some (CloudInitSpec.user_data c)) then Some "cloud_init.user_data"
  else if bool_decide (is_Some (CloudInitSpec.user_data_inline c)) then Some "cloud_init.user_data_inline"
  else if bool_decide (is_Some (CloudInitSpec.network_config c)) then Some "cloud_init.network_config"
  else if bool_decide (CloudInitSpec.ssh_keys c ≠ []) then Some "cloud_init.ssh_keys"
  else if bool_decide (CloudInitSpec.ssh_authorized_keys c ≠ []) then Some "cloud_init.ssh_authorized_keys"
  else if bool_decide (is_Some (CloudInitSpec.password c)) then Some "cloud_init.password"
  else if CloudInitSpec.ssh_pwauth c then Some "cloud_init.ssh_pwauth"
  else if negb (CloudInitSpec.provisioning c) then Some "cloud_init.provisioning"
  else None.
Definition image_is_oci (reference : string) : bool :=
  bool_decide (is_Some (OciRef.classify reference))
  && match OciRef.parse reference with Ok parsed => String.eqb (OciRef.display parsed) reference | Err _ => false end.
(** A check that holds of each element of a list, told its index. *)
Fixpoint each {A} (check : Z → A → result FirestoneError ()) (index : Z) (l : list A) : result FirestoneError () :=
  match l with [] => Ok () | a :: l => check index a;; each check (index + 1) l end.
Definition on_some {A} (o : option A) (check : A → result FirestoneError ()) : result FirestoneError () :=
  match o with Some a => check a | None => Ok () end.

Section rules.
Context {Json : Type} `{OverlayJson Json} `{ValidationHost} `{UrlCrate} `{SshKeyCrate}.
Local Abbreviation Spec := (MachineSpec.MachineSpec Json).

Definition validate_arch (spec : Spec) : result FirestoneError Arch.Arch :=
  host_arch ← architecture;
  match MachineSpec.arch spec with
  | Some arch =>
      if bool_decide (arch ≠ host_arch)
      then Err (invalid "arch"
             ("guest architecture '" +:+ Arch.display arch +:+ "' does not match host architecture '"
              +:+ Arch.display host_arch +:+ "'")
             "remove 'arch' or set it to the host architecture; cross-architecture emulation is not supported")
      else Ok arch
  | None => Ok host_arch
  end.

Definition validate_capacity (spec : Spec) (c : ValidationContext) : result FirestoneError (list SpecWarning) :=
  let cpus := MachineSpec.cpus spec in
  let memory := MachineSpec.memory spec in
  if cpus =? 0 then Err (invalid "cpus" "CPU count must be at least 1" "set cpus to 1 or more")
  else
    let warnings := if cpu_count <? cpus
      then [{| warning_key := "cpus";
               warning_message := "configured " +:+ dec cpus +:+ " vCPUs but the host reports " +:+ dec cpu_count
                 +:+ " logical CPUs" |}] else [] in
    on_some (MachineSpec.cpus_max spec) (λ cpus_max,
      if cpus_max <? cpus
      then Err (invalid "cpus_max" ("cpus_max " +:+ dec cpus_max +:+ " is below the boot cpus " +:+ dec cpus)
             ("set cpus_max to " +:+ dec cpus +:+ " or more, or remove it"))
      else Ok ());;
    (if memory <? ByteSize.MINIMUM_MEMORY
     then Err (invalid "memory" ("memory " +:+ ByteSize.display memory +:+ " is below the 128M minimum")
            "set memory to at least '128M'")
     else Ok ());;
    on_some (MachineSpec.memory_max spec) (λ memory_max,
      if memory_max <? memory
      then Err (invalid "memory_max"
             ("memory_max " +:+ ByteSize.display memory_max +:+ " is below the boot memory " +:+ ByteSize.display memory)
             ("set memory_max to at least '" +:+ ByteSize.display memory +:+ "', or remove it"))
      else Ok ());;
    on_some (base_image_virtual_size c) (λ base_size,
      if MachineSpec.disk spec <? base_size
      then Err (invalid "disk"
             ("disk " +:+ ByteSize.display (MachineSpec.disk spec) +:+ " is smaller than the base image virtual size "
              +:+ ByteSize.display base_size)
             ("set disk to at least '" +:+ ByteSize.display base_size +:+ "'"))
      else Ok ());;
    Ok warnings.

Definition validate_network (spec : Spec) : result FirestoneError () :=
  let network := MachineSpec.network spec in
  if bool_decide (NetworkSpec.mode network ≠ Tap) then Ok ()
  else
    tap ← ok_or (NetworkSpec.tap network)
      (invalid "network.tap" "tap mode requires an existing tap interface"
         "set network.tap to a user-owned interface such as 'tap0'");
    validate_tap tap.

Definition validate_mount_source (index : Z) (m : MountSpec.MountSpec) : result FirestoneError () :=
  let host_key := "mount[" +:+ dec index +:+ "].host" in
  present ← host_path_exists host_key (MountSpec.host m);
  if negb present
  then Err (invalid host_key ("mount source '" +:+ MountSpec.host m +:+ "' does not exist")
         "correct the host path or create it before starting the machine")
  else Ok ().
Definition validate_mounts (spec : Spec) : result FirestoneError () :=
  validate_mount_spec_layout (MachineSpec.mounts spec);;
  each validate_mount_source 0 (MachineSpec.mounts spec).

Definition refuse_cloud_init_on_oci (spec : Spec) : result FirestoneError () :=
  if negb (image_is_oci (MachineSpec.image spec)) then Ok ()
  else
    match first_cloud_init_input (MachineSpec.cloud_init spec) with
    | None => Ok ()
    | Some field =>
        Err (invalid field
          (field +:+ " cannot be used by an OCI machine: image '" +:+ MachineSpec.image spec
           +:+ "' boots firestone-init, not cloud-init")
          "remove the cloud_init keys; an OCI machine takes its hostname, network, disk size, entrypoint, cmd, env, workdir and user from the config disk")
    end.
Definition validate_inline_authorized_key (index : Z) (key : string) : result FirestoneError () :=
  let field := "cloud_init.ssh_authorized_keys[" +:+ dec index +:+ "]" in
  let line := trim key in
  if is_empty line || starts_with "#" line
  then Err (invalid field "inline authorized key is empty or a comment"
         "supply one OpenSSH public key such as 'ssh-ed25519 AAAA… user@host'")
  else if negb (Nat.eqb (length (lines line)) 1)
  then Err (invalid field "inline authorized key contains more than one line"
         "supply exactly one OpenSSH public key per entry")
  else if MAX_SSH_KEY_FILE_BYTES <? len line
  then Err (invalid field ("inline authorized key is " +:+ dec (len line) +:+ " bytes")
         "supply an OpenSSH public key of 64 KiB or less")
  else map_err (λ e, invalid_with_source field "inline authorized key is not a valid OpenSSH public key"
         "replace the entry with an OpenSSH public key" e) (from_openssh line).
(** The error text of [str::from_utf8] is not looked at further. *)
Context (utf8_error : string → string).
Definition validate_user_data_file (path : string) : result FirestoneError () :=
  contents ← read_required_file "cloud_init.user_data" path MAX_USER_DATA_BYTES "1 MiB"
    "correct the path and provide UTF-8 user-data of 1 MiB or less";
  if negb (utf8_ok contents)
  then Err (invalid_with_source "cloud_init.user_data" ("user-data file '" +:+ path +:+ "' is not UTF-8")
         "save user-data as UTF-8 without changing its cloud-init header" (utf8_error contents))
  else if negb (user_data_head contents)
  then Err (invalid "cloud_init.user_data" ("user-data file '" +:+ path +:+ "' has an unsupported first line")
         "start the file with '#cloud-config' or '#!'; set provisioning = false when using a raw shell script")
  else Ok ().
Definition validate_network_config_file (path : string) : result FirestoneError () :=
  contents ← read_required_file "cloud_init.network_config" path MAX_NETWORK_CONFIG_BYTES "1 MiB"
    "correct the path and provide UTF-8 network-config of 1 MiB or less";
  if negb (utf8_ok contents)
  then Err (invalid_with_source "cloud_init.network_config" ("network-config file '" +:+ path +:+ "' is not UTF-8")
         "save network-config as UTF-8 YAML" (utf8_error contents))
  else Ok ().
(** The lines of a key file that hold a key. *)
Definition key_lines (text : string) : list string :=
  filter (λ line, negb (is_empty line) && negb (starts_with "#" line) = true) (trim <$> lines text).
Definition validate_key_file (index : Z) (path : string) : result FirestoneError () :=
  let key := "cloud_init.ssh_keys[" +:+ dec index +:+ "]" in
  contents ← read_required_file key path MAX_SSH_KEY_FILE_BYTES "64 KiB"
    "correct the path and provide an OpenSSH public-key file of 64 KiB or less";
  if negb (utf8_ok contents)
  then Err (invalid_with_source key ("public-key file '" +:+ path +:+ "' is not UTF-8")
         "replace it with an OpenSSH public-key file" (utf8_error contents))
  else
    parsed ← fold_result (λ parsed line,
        map_err (λ e, invalid_with_source key ("public-key file '" +:+ path +:+ "' contains an invalid OpenSSH key")
          "replace the invalid line with an OpenSSH public key" e) (from_openssh line);;
        Ok (parsed + 1)) 0 (key_lines contents);
    if parsed =? 0
    then Err (invalid key ("public-key file '" +:+ path +:+ "' contains no keys") "add at least one OpenSSH public key")
    else Ok ().
Definition validate_cloud_init (spec : Spec) : result FirestoneError () :=
  let c := MachineSpec.cloud_init spec in
  refuse_cloud_init_on_oci spec;;
  (if bool_decide (is_Some (CloudInitSpec.user_data c) ∧ is_Some (CloudInitSpec.user_data_inline c))
   then Err (invalid "cloud_init.user_data_inline"
          "'cloud_init.user_data' and 'cloud_init.user_data_inline' are both set"
          "keep one user part: clear 'cloud_init.user_data' or 'cloud_init.user_data_inline'")
   else Ok ());;
  on_some (CloudInitSpec.user_data_inline c) validate_inline_user_data;;
  each validate_inline_authorized_key 0 (CloudInitSpec.ssh_authorized_keys c);;
  on_some (CloudInitSpec.password c) validate_password;;
  on_some (CloudInitSpec.user_data c) validate_user_data_file;;
  on_some (CloudInitSpec.network_config c) validate_network_config_file;;
  each validate_key_file 0 (CloudInitSpec.ssh_keys c).

Definition validate_vmm (spec : Spec) : result FirestoneError () :=
  let v := MachineSpec.vmm spec in
  on_some (VmmSpec.binary v) (λ path,
    present ← host_path_exists "vmm.binary" path;
    (if negb present
     then Err (invalid "vmm.binary" ("VMM binary '" +:+ path +:+ "' does not exist")
            "correct the path or remove vmm.binary to use the vendored VMM")
     else Ok ());;
    require_regular_file "vmm.binary" path "set vmm.binary to an executable file or remove the override";;
    require_executable "vmm.binary" path "grant execute access to the VMM binary or remove the override");;
  on_some (Firmware.as_path (VmmSpec.firmware v)) (λ path,
    present ← host_path_exists "vmm.firmware" path;
    (if negb present
     then Err (invalid "vmm.firmware" ("firmware path '" +:+ path +:+ "' does not exist")
            "correct the path or choose 'auto', 'rhf', or 'edk2'")
     else Ok ());;
    require_regular_file "vmm.firmware" path "set vmm.firmware to a firmware file or choose a named firmware";;
    require_readable "vmm.firmware" path "make the firmware file readable or choose a named firmware");;
  on_some (VmmSpec.config_overlay v) (λ overlay,
    if is_object overlay then Ok ()
    else Err (invalid "vmm.config_overlay" "VMM config overlay must be a JSON object"
           "set vmm.config_overlay to a JSON object or remove it")).

(** ** Validation and loading *)

Definition with_image (s : Spec) (image : string) : Spec :=
  {| MachineSpec.image := image; MachineSpec.arch := MachineSpec.arch s; MachineSpec.cpus := MachineSpec.cpus s;
     MachineSpec.cpus_max := MachineSpec.cpus_max s; MachineSpec.memory := MachineSpec.memory s;
     MachineSpec.memory_max := MachineSpec.memory_max s; MachineSpec.disk := MachineSpec.disk s;
     MachineSpec.user := MachineSpec.user s; MachineSpec.network := MachineSpec.network s;
     MachineSpec.mounts := MachineSpec.mounts s; MachineSpec.cloud_init := MachineSpec.cloud_init s;
     MachineSpec.vmm := MachineSpec.vmm s |}.
Definition validate_machine_spec_with_image_base (c : ValidationContext) (image_base_dir : string)
    : M Spec FirestoneError (list SpecWarning) :=
  resolve_spec_paths c;;
  spec ← M_get;
  arch ← M_lift (validate_arch spec);
  image ← M_lift (validate_image (MachineSpec.image spec) arch c image_base_dir);
  modify (λ s, with_image s image);;
  spec ← M_get;
  warnings ← M_lift (validate_capacity spec c);
  M_lift (validate_user (MachineSpec.user spec));;
  M_lift (validate_network spec);;
  M_lift (validate_mounts spec);;
  M_lift (validate_cloud_init spec);;
  M_lift (validate_vmm spec);;
  mret warnings.
Definition validate_machine_spec (c : ValidationContext) : M Spec FirestoneError (list SpecWarning) :=
  validate_machine_spec_with_image_base c (machine_dir c).

Record LoadedMachineSpec : Type := { loaded_spec : Spec; loaded_warnings : list SpecWarning }.
(** [MachineSpec::load]. *)
Definition load `{Toml} `{!TomlType (MachineSpecPatch.MachineSpecPatch Json)} (input : string)
    (global : GlobalConfig (Json := Json)) (patch : MachineSpecPatch.MachineSpecPatch Json) (patch_base_dir : string)
    (c : ValidationContext) : result FirestoneError LoadedMachineSpec :=
  machine ← patch_from_toml input;
  resolved_patch ← resolve_patch_paths patch (paths c) patch_base_dir;
  spec ← from_layers (defaults global) machine resolved_patch;
  let image_base_dir := if bool_decide (is_Some (MachineSpecPatch.image resolved_patch))
    then patch_base_dir else machine_dir c in
  match validate_machine_spec_with_image_base c image_base_dir spec with
  | (Ok warnings, spec) => Ok {| loaded_spec := spec; loaded_warnings := warnings |}
  | (Err e, _) => Err e
  end.
End rules.

(** ** What the rules accept *)

Lemma each_Ok {A} (check : Z → A → result FirestoneError ()) (P : A → Prop) i l :
  (∀ i a, check i a = Ok () ↔ P a) → each check i l = Ok () ↔ Forall P l.
Proof.
  intros Hc. revert i. induction l as [|a l IH]; intros i; cbn [each]; [by rewrite Forall_nil|].
  by rewrite unit_seq_Ok, Hc, IH, Forall_cons.
Qed.
Lemma on_some_Ok {A} (o : option A) check (P : A → Prop) :
  (∀ a, check a = Ok () ↔ P a) → on_some o check = Ok () ↔ (∀ a, o = Some a → P a).
Proof. intros Hc. destruct o as [a|]; cbn [on_some]; [rewrite Hc|]; naive_solver. Qed.
Lemma if_else_Ok {E A} (b : bool) (e : E) (k : result E A) a : (if b then k else Err e) = Ok a ↔ b = true ∧ k = Ok a.
Proof. destruct b; naive_solver. Qed.
Lemma Ok_unit {E} (u : ()) : @Ok E () u = Ok () ↔ True.
Proof. by destruct u. Qed.

Section accepted.
Context `{ValidationHost} `{UrlCrate} `{SshKeyCrate}.

Lemma host_path_exists_Ok key path b : host_path_exists key path = Ok b ↔ path_exists path = Ok b.
Proof. unfold host_path_exists. apply map_err_Ok. Qed.
Lemma require_readable_Ok key path h : require_readable key path h = Ok () ↔ path_is_readable path = Ok true.
Proof. unfold require_readable. destruct (path_is_readable path) as [[]|]; naive_solver. Qed.
Lemma require_regular_Ok key path h : require_regular_file key path h = Ok () ↔ path_is_file path = Ok true.
Proof. unfold require_regular_file. destruct (path_is_file path) as [[]|]; naive_solver. Qed.
Lemma require_executable_Ok key path h : require_executable key path h = Ok () ↔ path_is_executable path = Ok true.
Proof. unfold require_executable. destruct (path_is_executable path) as [[]|]; naive_solver. Qed.
Lemma read_required_Ok key path limit label h contents :
  read_required_file key path limit label h = Ok contents ↔ read_regular_file path limit = Ok contents.
Proof. unfold read_required_file. apply map_err_Ok. Qed.
Lemma utf8_ok_valid text : utf8_ok text = true ↔ valid_str text.
Proof. unfold utf8_ok. apply bool_decide_eq_true. Qed.

(** *** The image *)

(** What a reference may be, in the order in which the forms are tried, and what it becomes. *)
Inductive Settles (c : ValidationContext) (base : string) (arch : Arch.Arch) (reference : string) : string → Prop :=
  | settles_pinned : pinned_image_ref c = Some reference → Settles c base arch reference reference
  | settles_local candidate canonical :
      pinned_image_ref c ≠ Some reference → image_path reference c base = Ok candidate →
      path_exists candidate = Ok true → path_is_file candidate = Ok true → path_is_readable candidate = Ok true →
      canonicalize_regular_nofollow candidate = Ok canonical → valid_str canonical →
      Settles c base arch reference canonical
  | settles_oci candidate r :
      pinned_image_ref c ≠ Some reference → image_path reference c base = Ok candidate →
      path_exists candidate = Ok false → is_Some (OciRef.classify reference) → OciRef.parse reference = Ok r →
      Settles c base arch reference (OciRef.display r)
  | settles_url candidate :
      pinned_image_ref c ≠ Some reference → image_path reference c base = Ok candidate →
      path_exists candidate = Ok false → image_is_oci reference = false →
      (∀ k, OciRef.classify reference = Some k → is_explicit k = false ∧ ∃ e, OciRef.parse reference = Err e) →
      looks_like_url reference = true → is_https_url reference = true → Settles c base arch reference reference
  | settles_catalog candidate entry :
      pinned_image_ref c ≠ Some reference → image_path reference c base = Ok candidate →
      path_exists candidate = Ok false → image_is_oci reference = false →
      (∀ k, OciRef.classify reference = Some k → is_explicit k = false ∧ ∃ e, OciRef.parse reference = Err e) →
      looks_like_url reference = false → Catalog.resolve (catalog c) reference (Arch.as_str arch) = Ok entry →
      Settles c base arch reference reference.

Lemma https_url_Ok reference : validate_https_url reference = Ok () ↔ is_https_url reference = true.
Proof.
  unfold validate_https_url, is_https_url, parse_https_url. rewrite bool_decide_eq_true.
  destruct (existsb is_whitespace (chars reference)); [split; [done|by intros []]|].
  destruct (url_parse reference) as [p|e]; cbn [map_err res_ok mbind result_bind option_bind]; [|split; [done|by intros []]].
  destruct (String.eqb (scheme p) "https"), (syntax_violation p); cbn [negb orb]; try (split; [done|by intros []]).
  by destruct (_ || _).
Qed.
Lemma catalog_image_Ok reference candidate arch c :
  catalog_image reference candidate arch c = Ok () ↔ ∃ entry, Catalog.resolve (catalog c) reference (Arch.as_str arch) = Ok entry.
Proof. unfold catalog_image. destruct (Catalog.resolve _ _ _); naive_solver. Qed.
Lemma not_oci reference :
  (∀ k, OciRef.classify reference = Some k → is_explicit k = false ∧ ∃ e, OciRef.parse reference = Err e) →
  image_is_oci reference = false.
Proof.
  intros Hk. unfold image_is_oci. destruct (OciRef.classify reference) as [k|]; [|done].
  destruct (Hk k eq_refl) as [_ [e ->]]. by rewrite andb_false_r.
Qed.
Lemma url_or_catalog_settles reference candidate arch c base image :
  pinned_image_ref c ≠ Some reference → image_path reference c base = Ok candidate →
  path_exists candidate = Ok false →
  (∀ k, OciRef.classify reference = Some k → is_explicit k = false ∧ ∃ e, OciRef.parse reference = Err e) →
  (url_or_catalog_image reference candidate arch c;; Ok reference) = Ok image → Settles c base arch reference image.
Proof.
  intros Hp Hc Hx Hk. pose proof (not_oci _ Hk) as Hno. unfold url_or_catalog_image. rewrite unit_seq_Ok.
  intros [Hu [= <-]]. destruct (looks_like_url reference) eqn:Hl.
  - apply https_url_Ok in Hu. by eapply settles_url.
  - apply catalog_image_Ok in Hu as [entry Hu]. by eapply settles_catalog.
Qed.
Lemma oci_skipped reference candidate arch c :
  (∀ k, OciRef.classify reference = Some k → is_explicit k = false ∧ ∃ e, OciRef.parse reference = Err e) →
  oci_or_named reference candidate arch c = (url_or_catalog_image reference candidate arch c;; Ok reference).
Proof.
  intros Hk. unfold oci_or_named. destruct (OciRef.classify reference) as [k|]; [|done].
  by destruct (Hk k eq_refl) as [-> [e ->]].
Qed.
Lemma local_image_Ok candidate canonical :
  local_image candidate = Ok canonical ↔ path_is_file candidate = Ok true ∧ path_is_readable candidate = Ok true
    ∧ canonicalize_regular_nofollow candidate = Ok canonical ∧ valid_str canonical.
Proof.
  unfold local_image, image_ref_from_path, ImageRef.new.
  rewrite !unit_seq_Ok, require_regular_Ok, require_readable_Ok, bind_Ok. setoid_rewrite map_err_Ok.
  setoid_rewrite if_else_Ok. setoid_rewrite utf8_ok_valid. naive_solver.
Qed.
Lemma settled_image_Ok reference arch c base image :
  validate_image reference arch c base = Ok image ↔ is_empty (trim reference) = false ∧ Settles c base arch reference image.
Proof.
  unfold validate_image. rewrite if_err_Ok. apply and_iff_compat_l. case_bool_decide as Hp.
  { split; [intros [= <-]; by constructor|by intros []]. }
  rewrite bind_Ok. setoid_rewrite bind_Ok. setoid_rewrite host_path_exists_Ok. split.
  - intros (candidate & Hc & [|] & Hx & Hrest).
    + apply local_image_Ok in Hrest as (? & ? & ? & ?). by eapply settles_local.
    + unfold oci_or_named in Hrest. destruct (OciRef.classify reference) as [k|] eqn:Hk.
      * destruct (OciRef.parse reference) as [r|e] eqn:Hr.
        { injection Hrest as <-. by eapply settles_oci. }
        destruct (is_explicit k) eqn:He; [done|]. eapply url_or_catalog_settles; try done. rewrite Hk. intros ? [= <-]. eauto.
      * eapply url_or_catalog_settles; try done. by rewrite Hk.
  - intros []; [done| | | |]; eexists; (split; [eassumption|]); eexists; (split; [eassumption|]); cbv iota.
    + by apply local_image_Ok.
    + unfold oci_or_named. destruct (OciRef.classify reference) as [k|] eqn:Hk; [|by apply is_Some_None in H5].
      by rewrite H6.
    + rewrite oci_skipped by done. apply unit_seq_Ok. split; [|done]. unfold url_or_catalog_image. rewrite H7.
      by apply https_url_Ok.
    + rewrite oci_skipped by done. apply unit_seq_Ok. split; [|done]. unfold url_or_catalog_image. rewrite H7.
      apply catalog_image_Ok. eauto.
Qed.
(** Only the container form yields a reference that the later rules take for a container. *)
Lemma settled_oci reference r :
  OciRef.parse reference = Ok r → image_is_oci (OciRef.display r) = true.
Proof.
  intros [Hc Hp]%parse_canonical. unfold image_is_oci. rewrite Hc, Hp. by rewrite String.eqb_refl.
Qed.

(** *** The rules on the other fields *)

Context {Json : Type} `{OverlayJson Json}.
Local Abbreviation Spec := (MachineSpec.MachineSpec Json).

(** [a-z_][a-z0-9_-]*. *)
Definition user_name (user : string) : Prop :=
  ∃ a rest, user = String a rest ∧ (is_ascii_lowercase a = true ∨ a = "_"%char) ∧ all_bytes user_byte rest = true.
Lemma validate_user_Ok user : validate_user user = Ok () ↔ user_name user.
Proof.
  unfold validate_user, user_name. destruct user as [|a rest]; [split; [done|by intros (? & ? & ? & _)]|].
  rewrite if_err_Ok, orb_false_iff, !negb_false_iff, orb_true_iff, Ascii.eqb_eq. naive_solver.
Qed.
Definition arch_settles (spec : Spec) (arch : Arch.Arch) : Prop :=
  architecture = Ok arch ∧ ∀ a, MachineSpec.arch spec = Some a → a = arch.
Lemma validate_arch_Ok (spec : Spec) arch : validate_arch spec = Ok arch ↔ arch_settles spec arch.
Proof.
  unfold validate_arch, arch_settles. rewrite bind_Ok. destruct (MachineSpec.arch spec) as [a|].
  - setoid_rewrite if_err_Ok. setoid_rewrite bool_decide_eq_false. split.
    + intros (h & Hh & Hd & [= <-]). apply dec_stable in Hd as ->. naive_solver.
    + intros [Hh Ha]. rewrite (Ha a eq_refl) in *. exists arch. split; [done|]. split; [naive_solver|done].
  - naive_solver.
Qed.
(** The ceilings are above the boot values, and the disk holds the image. *)
Record capacity_ok (c : ValidationContext) (spec : Spec) : Prop := {
  cpus_positive : MachineSpec.cpus spec ≠ 0;
  cpus_ceiling : ∀ m, MachineSpec.cpus_max spec = Some m → MachineSpec.cpus spec ≤ m;
  memory_floor : 128 * 1024 * 1024 ≤ MachineSpec.memory spec;
  memory_ceiling : ∀ m, MachineSpec.memory_max spec = Some m → MachineSpec.memory spec ≤ m;
  disk_floor : ∀ b, base_image_virtual_size c = Some b → b ≤ MachineSpec.disk spec }.
Definition cpu_warnings (spec : Spec) : list SpecWarning :=
  if cpu_count <? MachineSpec.cpus spec
  then [{| warning_key := "cpus";
           warning_message := "configured " +:+ dec (MachineSpec.cpus spec) +:+ " vCPUs but the host reports "
             +:+ dec cpu_count +:+ " logical CPUs" |}] else [].
Lemma validate_capacity_Ok (spec : Spec) c ws :
  validate_capacity spec c = Ok ws ↔ capacity_ok c spec ∧ ws = cpu_warnings spec.
Proof.
  unfold validate_capacity. fold (cpu_warnings spec). rewrite if_err_Ok, Z.eqb_neq, !unit_seq_Ok.
  rewrite (on_some_Ok _ _ (λ m, MachineSpec.cpus spec ≤ m)) by (intros m; rewrite if_err_Ok, Z.ltb_ge; naive_solver).
  rewrite if_err_Ok, Z.ltb_ge.
  rewrite (on_some_Ok _ _ (λ m, MachineSpec.memory spec ≤ m)) by (intros m; rewrite if_err_Ok, Z.ltb_ge; naive_solver).
  rewrite (on_some_Ok _ _ (λ b, b ≤ MachineSpec.disk spec)) by (intros m; rewrite if_err_Ok, Z.ltb_ge; naive_solver).
  split.
  - intros (? & ? & [? _] & ? & ? & [= <-]). by repeat split.
  - intros [[] ->]. by repeat split.
Qed.
Definition tap_ok (spec : Spec) : Prop :=
  NetworkSpec.mode (MachineSpec.network spec) = Tap →
  ∃ tap, NetworkSpec.tap (MachineSpec.network spec) = Some tap ∧ validate_tap_name tap = Ok ()
         ∧ tap_device_is_tap tap = Ok true ∧ tun_is_accessible = Ok ().
Lemma validate_network_Ok (spec : Spec) : validate_network spec = Ok () ↔ tap_ok spec.
Proof.
  unfold validate_network, tap_ok. case_bool_decide as Hm; [naive_solver|].
  rewrite bind_Ok. setoid_rewrite ok_or_Ok. unfold validate_tap. setoid_rewrite unit_seq_Ok. setoid_rewrite bind_Ok.
  setoid_rewrite map_err_Ok. split.
  - intros (tap & Ht & Hn & b & Hb & Hu) _. exists tap. destruct b; cbn [negb] in Hu; [|done].
    by apply map_err_Ok in Hu.
  - intros Ht. destruct (Ht Hm) as (tap & Hs & Hn & Hb & Hu). exists tap. split; [done|]. split; [done|]. exists true.
    split; [done|]. by apply map_err_Ok.
Qed.
Definition mounts_ok (spec : Spec) : Prop :=
  is_Some (res_ok (mount_shapes (MachineSpec.mounts spec)))
  ∧ Forall (λ m, path_exists (MountSpec.host m) = Ok true) (MachineSpec.mounts spec).
Lemma validate_mounts_Ok (spec : Spec) : validate_mounts spec = Ok () ↔ mounts_ok spec.
Proof.
  unfold validate_mounts, mounts_ok. rewrite unit_seq_Ok, (each_Ok _ (λ m, path_exists (MountSpec.host m) = Ok true)).
  - apply and_iff_compat_r. unfold validate_mount_spec_layout. destruct (mount_shapes _); cbn; [naive_solver|]. split; [done|by intros []].
  - intros i m. unfold validate_mount_source. rewrite bind_Ok. setoid_rewrite host_path_exists_Ok.
    setoid_rewrite if_err_Ok. split; [intros ([] & ? & ? & _); done|]. intros Hm. by exists true.
Qed.
(** *** Cloud-init *)

Definition authorized_key_ok (key : string) : Prop :=
  trim key ≠ "" ∧ starts_with "#" (trim key) = false ∧ length (lines (trim key)) = 1%nat
  ∧ len (trim key) ≤ 64 * 1024 ∧ from_openssh (trim key) = Ok ().
Definition key_file_ok (path : string) : Prop :=
  ∃ text, read_regular_file path (64 * 1024) = Ok text ∧ valid_str text ∧ key_lines text ≠ []
          ∧ Forall (λ line, from_openssh line = Ok ()) (key_lines text).
Record cloud_init_ok (spec : Spec) (ci : CloudInitSpec.CloudInitSpec) : Prop := {
  ci_container : image_is_oci (MachineSpec.image spec) = true → ci = CloudInitSpec.default;
  ci_one_part : CloudInitSpec.user_data ci = None ∨ CloudInitSpec.user_data_inline ci = None;
  ci_inline : ∀ text, CloudInitSpec.user_data_inline ci = Some text → len text ≤ 32 * 1024 ∧ user_data_head text = true;
  ci_authorized : Forall authorized_key_ok (CloudInitSpec.ssh_authorized_keys ci);
  ci_password : ∀ p, CloudInitSpec.password ci = Some p →
    p ≠ "" ∧ len p ≤ 256 ∧ Forall (λ c, is_control c = false) (chars p);
  ci_user_data : ∀ path, CloudInitSpec.user_data ci = Some path →
    ∃ text, read_regular_file path (1024 * 1024) = Ok text ∧ valid_str text ∧ user_data_head text = true;
  ci_network : ∀ path, CloudInitSpec.network_config ci = Some path →
    ∃ text, read_regular_file path (1024 * 1024) = Ok text ∧ valid_str text;
  ci_keys : Forall key_file_ok (CloudInitSpec.ssh_keys ci) }.

Lemma first_input_None ci : first_cloud_init_input ci = None ↔ ci = CloudInitSpec.default.
Proof.
  unfold first_cloud_init_input, CloudInitSpec.default. destruct ci as [[] [] [] [|] [|] [] [] []]; cbn; split; try done; by intros [= ?].
Qed.
Lemma refuse_Ok (spec : Spec) :
  refuse_cloud_init_on_oci spec = Ok () ↔
  (image_is_oci (MachineSpec.image spec) = true → MachineSpec.cloud_init spec = CloudInitSpec.default).
Proof.
  unfold refuse_cloud_init_on_oci. destruct (image_is_oci _); cbn [negb]; [|naive_solver].
  rewrite <- first_input_None. destruct (first_cloud_init_input _); naive_solver.
Qed.
Lemma inline_user_data_Ok text :
  validate_inline_user_data text = Ok () ↔ len text ≤ 32 * 1024 ∧ user_data_head text = true.
Proof. unfold validate_inline_user_data. rewrite !if_err_Ok, Z.ltb_ge, negb_false_iff. naive_solver. Qed.
Lemma validate_password_Ok p :
  validate_password p = Ok () ↔ p ≠ "" ∧ len p ≤ 256 ∧ Forall (λ c, is_control c = false) (chars p).
Proof.
  unfold validate_password. rewrite !if_err_Ok, Z.ltb_ge, is_empty_false, Ok_unit.
  assert (existsb is_control (chars p) = false ↔ Forall (λ c, is_control c = false) (chars p)) as ->; [|naive_solver].
  induction (chars p) as [|c l IH]; cbn [existsb]; [by rewrite Forall_nil|]. by rewrite orb_false_iff, IH, Forall_cons.
Qed.
Lemma authorized_key_Ok i key : validate_inline_authorized_key i key = Ok () ↔ authorized_key_ok key.
Proof.
  unfold validate_inline_authorized_key, authorized_key_ok.
  rewrite !if_err_Ok, orb_false_iff, negb_false_iff, Nat.eqb_eq, Z.ltb_ge, is_empty_false, map_err_Ok. naive_solver.
Qed.
Section files.
Context (utf8_error : string → string).
Lemma user_data_file_Ok path :
  validate_user_data_file utf8_error path = Ok () ↔
  ∃ text, read_regular_file path (1024 * 1024) = Ok text ∧ valid_str text ∧ user_data_head text = true.
Proof.
  unfold validate_user_data_file. rewrite bind_Ok. setoid_rewrite read_required_Ok. setoid_rewrite if_err_Ok.
  setoid_rewrite if_err_Ok. setoid_rewrite negb_false_iff. setoid_rewrite utf8_ok_valid. naive_solver.
Qed.
Lemma network_config_file_Ok path :
  validate_network_config_file utf8_error path = Ok () ↔
  ∃ text, read_regular_file path (1024 * 1024) = Ok text ∧ valid_str text.
Proof.
  unfold validate_network_config_file. rewrite bind_Ok. setoid_rewrite read_required_Ok. setoid_rewrite if_err_Ok.
  setoid_rewrite negb_false_iff. setoid_rewrite utf8_ok_valid. naive_solver.
Qed.
Lemma parsed_lines key path n l m :
  fold_result (λ parsed line,
    map_err (λ e, invalid_with_source key ("public-key file '" +:+ path +:+ "' contains an invalid OpenSSH key")
      "replace the invalid line with an OpenSSH public key" e) (from_openssh line);;
    Ok (parsed + 1)) n l = Ok m ↔ m = n + Z.of_nat (length l) ∧ Forall (λ line, from_openssh line = Ok ()) l.
Proof.
  revert n. induction l as [|line l IH]; intros n; cbn [fold_result length].
  - rewrite Forall_nil. split; [intros [= <-]; split; [lia|done]|]. intros [-> _]. f_equal. lia.
  - rewrite bind_Ok, Forall_cons. setoid_rewrite IH. setoid_rewrite unit_seq_Ok. setoid_rewrite map_err_Ok. split.
    + intros (k & (Hl & [= <-]) & -> & Hr). split; [lia|done].
    + intros (-> & Hl & Hr). exists (n + 1). repeat split; try done. lia.
Qed.
Lemma key_file_Ok i path : validate_key_file utf8_error i path = Ok () ↔ key_file_ok path.
Proof.
  unfold validate_key_file, key_file_ok. rewrite bind_Ok. setoid_rewrite read_required_Ok. setoid_rewrite if_err_Ok.
  setoid_rewrite negb_false_iff. setoid_rewrite utf8_ok_valid. setoid_rewrite bind_Ok. setoid_rewrite parsed_lines.
  setoid_rewrite if_err_Ok. setoid_rewrite Z.eqb_neq. split.
  - intros (text & Hr & Hv & n & (-> & Hf) & Hn & _). exists text. split_and!; try done. intros E. by rewrite E in Hn.
  - intros (text & Hr & Hv & Hn & Hf). exists text. split_and!; try done. eexists. split; [by split|]. split; [|done].
    destruct (key_lines text); [done|]. cbn [length]. lia.
Qed.
Lemma validate_cloud_init_Ok (spec : Spec) :
  validate_cloud_init utf8_error spec = Ok () ↔ cloud_init_ok spec (MachineSpec.cloud_init spec).
Proof.
  unfold validate_cloud_init. set (ci := MachineSpec.cloud_init spec).
  rewrite !unit_seq_Ok, refuse_Ok, if_err_Ok, bool_decide_eq_false.
  rewrite (on_some_Ok _ _ _ inline_user_data_Ok), (each_Ok _ _ _ _ authorized_key_Ok), (on_some_Ok _ _ _ validate_password_Ok).
  rewrite (on_some_Ok _ _ _ user_data_file_Ok), (on_some_Ok _ _ _ network_config_file_Ok), (each_Ok _ _ _ _ key_file_Ok).
  split.
  - intros (H3' & [H4' _] & H5' & H6' & H7' & H8' & H9' & H10'). split; try done.
    destruct (CloudInitSpec.user_data ci); [|by left]. right. destruct (CloudInitSpec.user_data_inline ci); [|done]. exfalso. eauto.
  - intros [H3' H4' H5' H6' H7' H8' H9' H10']. split_and!; try done. intros [[x Hx] [y Hy]]. destruct H4'; congruence.
Qed.
End files.
Definition binary_ok (path : string) : Prop :=
  path_exists path = Ok true ∧ path_is_file path = Ok true ∧ path_is_executable path = Ok true.
Definition firmware_file_ok (path : string) : Prop :=
  path_exists path = Ok true ∧ path_is_file path = Ok true ∧ path_is_readable path = Ok true.
Record vmm_ok (v : VmmSpec.VmmSpec Json) : Prop := {
  vmm_binary : ∀ path, VmmSpec.binary v = Some path → binary_ok path;
  vmm_firmware : ∀ path, Firmware.as_path (VmmSpec.firmware v) = Some path → firmware_file_ok path;
  vmm_overlay : ∀ o, VmmSpec.config_overlay v = Some o → is_object o = true }.
Lemma validate_vmm_Ok (spec : Spec) : validate_vmm spec = Ok () ↔ vmm_ok (MachineSpec.vmm spec).
Proof.
  unfold validate_vmm. rewrite !unit_seq_Ok. rewrite (on_some_Ok _ _ binary_ok), (on_some_Ok _ _ firmware_file_ok).
  - rewrite (on_some_Ok _ _ (λ o, is_object o = true)) by (intros o; rewrite if_else_Ok; naive_solver).
    split; [intros (? & ? & ?); by split|by intros []].
  - intros path. unfold firmware_file_ok. rewrite bind_Ok. setoid_rewrite host_path_exists_Ok. setoid_rewrite unit_seq_Ok.
    setoid_rewrite if_err_Ok. setoid_rewrite unit_seq_Ok. setoid_rewrite require_regular_Ok. setoid_rewrite require_readable_Ok.
    split; [intros ([] & ? & [? _] & ?); done|]. intros (? & ? & ?). by exists true.
  - intros path. unfold binary_ok. rewrite bind_Ok. setoid_rewrite host_path_exists_Ok. setoid_rewrite unit_seq_Ok.
    setoid_rewrite if_err_Ok. setoid_rewrite unit_seq_Ok. setoid_rewrite require_regular_Ok. setoid_rewrite require_executable_Ok.
    split; [intros ([] & ? & [? _] & ?); done|]. intros (? & ? & ?). by exists true.
Qed.

(** ** The whole validation *)

Lemma run_bind {S E A B} (m : M S E A) (k : A → M S E B) s b s2 :
  (m ≫= k) s = (Ok b, s2) ↔ ∃ a s1, m s = (Ok a, s1) ∧ k a s1 = (Ok b, s2).
Proof. unfold mbind, M_bind. destruct (m s) as [[a|e] s1]; naive_solver. Qed.
Lemma run_lift {S E A} (r : result E A) (s : S) a s1 : M_lift r s = (Ok a, s1) ↔ r = Ok a ∧ s1 = s.
Proof. unfold M_lift. naive_solver. Qed.
Lemma run_get {S E} (s a s1 : S) : M_get (E := E) s = (Ok a, s1) ↔ a = s ∧ s1 = s.
Proof. unfold M_get. naive_solver. Qed.
Lemma run_modify f (s : Spec) u s1 : modify f s = (Ok u, s1) ↔ s1 = f s.
Proof. unfold modify. destruct u. naive_solver. Qed.
Lemma run_ret {S E A} (a b : A) (s s1 : S) : mret (M := M S E) a s = (Ok b, s1) ↔ b = a ∧ s1 = s.
Proof. unfold mret, M_ret. naive_solver. Qed.

(** What an accepted specification satisfies, against the host it was checked on. *)
Record valid (c : ValidationContext) (spec : Spec) : Prop := {
  valid_capacity : capacity_ok c spec;
  valid_user : user_name (MachineSpec.user spec);
  valid_tap : tap_ok spec;
  valid_mounts : mounts_ok spec;
  valid_cloud_init : cloud_init_ok spec (MachineSpec.cloud_init spec);
  valid_vmm : vmm_ok (MachineSpec.vmm spec) }.

Lemma run_rules utf8_error c (spec spec' : Spec) ws :
  (warnings ← M_lift (validate_capacity spec c);
   M_lift (validate_user (MachineSpec.user spec));;
   M_lift (validate_network spec);;
   M_lift (validate_mounts spec);;
   M_lift (validate_cloud_init utf8_error spec);;
   M_lift (validate_vmm spec);;
   mret warnings) spec = (Ok ws, spec') ↔ valid c spec ∧ spec' = spec ∧ ws = cpu_warnings spec.
Proof.
  rewrite run_bind. setoid_rewrite run_lift. setoid_rewrite validate_capacity_Ok. split.
  - intros (w & s1 & ((Hc & ->) & ->) & Hr). apply run_bind in Hr as ([] & ? & [Hu ->]%run_lift & Hr).
    apply run_bind in Hr as ([] & ? & [Hn ->]%run_lift & Hr). apply run_bind in Hr as ([] & ? & [Hm ->]%run_lift & Hr).
    apply run_bind in Hr as ([] & ? & [Hci ->]%run_lift & Hr). apply run_bind in Hr as ([] & ? & [Hv ->]%run_lift & Hret).
    apply run_ret in Hret as [-> ->]. split; [|done]. split; try done.
    + by apply validate_user_Ok.
    + by apply validate_network_Ok.
    + by apply validate_mounts_Ok.
    + by apply (validate_cloud_init_Ok utf8_error).
    + by apply validate_vmm_Ok.
  - intros ([Hc Hu Hn Hm Hci Hv] & -> & ->). exists (cpu_warnings spec), spec. split; [done|].
    apply validate_user_Ok in Hu. apply validate_network_Ok in Hn. apply validate_mounts_Ok in Hm.
    apply (validate_cloud_init_Ok utf8_error) in Hci. apply validate_vmm_Ok in Hv.
    unfold mbind, M_bind, M_lift. rewrite Hu, Hn, Hm, Hci, Hv. done.
Qed.


(** ** Where the paths lead *)

(** [q] is where the path [p] of a specification leads. *)
Definition anchors (c : ValidationContext) (p q : string) : Prop :=
  is_absolute q = true ∧ leads_to (paths c) p (machine_dir c) q.
Definition firmware_anchors (c : ValidationContext) (f f' : Firmware.Firmware) : Prop :=
  match Firmware.as_path f with
  | None => f' = f
  | Some p => ∃ q, f' = Firmware.Path q ∧ anchors c p q
  end.
Record anchored (c : ValidationContext) (s s' : Spec) : Prop := {
  anchored_rest : ∃ image, s = MachineSpec.set_vmm (MachineSpec.vmm s) (MachineSpec.set_cloud_init (MachineSpec.cloud_init s)
    (MachineSpec.set_mounts (MachineSpec.mounts s) (with_image s' image)));
  anchored_mounts : Forall2 (λ m m', m' = with_host m (MountSpec.host m') ∧ anchors c (MountSpec.host m) (MountSpec.host m'))
    (MachineSpec.mounts s) (MachineSpec.mounts s');
  anchored_cloud : ∃ u n k, MachineSpec.cloud_init s' = CloudInitSpec.set_ssh_keys k (CloudInitSpec.set_network_config n
      (CloudInitSpec.set_user_data u (MachineSpec.cloud_init s)))
    ∧ option_Forall2 (anchors c) (CloudInitSpec.user_data (MachineSpec.cloud_init s)) u
    ∧ option_Forall2 (anchors c) (CloudInitSpec.network_config (MachineSpec.cloud_init s)) n
    ∧ Forall2 (anchors c) (CloudInitSpec.ssh_keys (MachineSpec.cloud_init s)) k;
  anchored_vmm : ∃ b f, MachineSpec.vmm s' = set_firmware f (VmmSpec.set_binary b (MachineSpec.vmm s))
    ∧ option_Forall2 (anchors c) (VmmSpec.binary (MachineSpec.vmm s)) b
    ∧ firmware_anchors c (VmmSpec.firmware (MachineSpec.vmm s)) f }.

(** What the image reference [i] becomes: it is kept when it is the one pinned before; otherwise it leads
    somewhere, and becomes the canonical path of the file there, or stays the name of an image
    elsewhere when there is none. *)
Definition image_anchored (c : ValidationContext) (i i' : string) : Prop :=
  (pinned_image_ref c = Some i ∧ i' = i) ∨
  ∃ q, anchors c i q ∧
    ((path_exists q = Ok true ∧ canonicalize_regular_nofollow q = Ok i' ∧ is_absolute i' = true) ∨
     (path_exists q = Ok false ∧ (i' = i ∨ ∃ r, OciRef.parse i = Ok r ∧ i' = OciRef.display r))).

Section anchor.
Context (c : ValidationContext) (Hroot : rooted (paths c)) (Hdir : is_absolute (machine_dir c) = true).

Lemma context_path_anchors p key q : context_path p key c = Ok q → anchors c p q.
Proof using Hroot Hdir. intros Hq. by apply (resolve_input_path_leads (paths c) p (machine_dir c) key q). Qed.
Lemma resolve_mounts_Ok i earlier mounts (s s' : Spec) u :
  resolve_mounts c i earlier mounts s = (Ok u, s') → MachineSpec.mounts s = earlier ++ mounts →
  ∃ mounts', s' = MachineSpec.set_mounts (earlier ++ mounts') s
    ∧ Forall2 (λ m m', m' = with_host m (MountSpec.host m') ∧ anchors c (MountSpec.host m) (MountSpec.host m')) mounts mounts'.
Proof using Hroot Hdir.
  revert i earlier s. induction mounts as [|m mounts IH]; intros i earlier s; cbn [resolve_mounts].
  - intros [_ ->]%run_ret Hs. exists []. split; [|done]. rewrite <- Hs. by destruct s.
  - intros (h & ? & [Hh%context_path_anchors ->]%run_lift & Hk)%run_bind Hs.
    apply run_bind in Hk as ([] & ? & ->%run_modify & Hk). apply IH in Hk as (mounts' & -> & Hf); [|by cbn; rewrite <- app_assoc].
    exists (with_host m h :: mounts'). rewrite <- app_assoc. split; [by destruct s|]. by constructor.
Qed.
Lemma resolve_keys_Ok i earlier keys (s s' : Spec) u :
  resolve_keys c i earlier keys s = (Ok u, s') → CloudInitSpec.ssh_keys (MachineSpec.cloud_init s) = earlier ++ keys →
  ∃ keys', s' = set_cloud (CloudInitSpec.set_ssh_keys (earlier ++ keys')) s ∧ Forall2 (anchors c) keys keys'.
Proof using Hroot Hdir.
  revert i earlier s. induction keys as [|k keys IH]; intros i earlier s; cbn [resolve_keys].
  - intros [_ ->]%run_ret Hs. exists []. split; [|done]. rewrite <- Hs. by destruct s as [???????? ?? [] ?].
  - intros (h & ? & [Hh%context_path_anchors ->]%run_lift & Hk)%run_bind Hs.
    apply run_bind in Hk as ([] & ? & ->%run_modify & Hk). apply IH in Hk as (keys' & -> & Hf); [|by cbn; rewrite <- app_assoc].
    exists (h :: keys'). rewrite <- app_assoc. split; [by destruct s|]. by constructor.
Qed.
Lemma resolve_field_Ok field key set_ (s s' : Spec) u :
  resolve_field c field key set_ s = (Ok u, s') → set_ field s = s →
  ∃ field', s' = set_ field' s ∧ option_Forall2 (anchors c) field field'.
Proof using Hroot Hdir.
  unfold resolve_field. destruct field as [p|].
  - intros (q & ? & [Hq%context_path_anchors ->]%run_lift & ->%run_modify)%run_bind _. exists (Some q). split; [done|by constructor].
  - intros [_ ->]%run_ret Hs. exists None. split; [done|constructor].
Qed.
Lemma resolved_firmware_Ok q f : firmware_path q = Ok f → f = Firmware.Path q.
Proof using Type.
  unfold firmware_path. intros Hf. apply map_err_Ok in Hf. destruct (utf8_ok q); [|done]. unfold Firmware.path in Hf. inv_ok. done.
Qed.
Lemma settles_anchored arch i i' :
  (∀ p q, canonicalize_regular_nofollow p = Ok q → is_absolute q = true) →
  Settles c (machine_dir c) arch i i' → image_anchored c i i'.
Proof using Hroot Hdir.
  intros Hcanon Hs. destruct Hs; [by left|right..]; exists candidate; (split; [by eapply context_path_anchors|]).
  - left. eauto.
  - right. eauto.
  - by right; split; [|left].
  - by right; split; [|left].
Qed.
Lemma resolve_spec_paths_anchored (s s' : Spec) u image :
  resolve_spec_paths c s = (Ok u, s') → anchored c s (with_image s' image) ∧ MachineSpec.image s' = MachineSpec.image s.
Proof using Hroot Hdir.
  unfold resolve_spec_paths. intros (? & ? & [-> ->]%run_get & Hk)%run_bind.
  apply run_bind in Hk as ([] & ? & (ms & -> & Hms)%resolve_mounts_Ok & Hk); [|done]. cbv zeta in Hk.
  apply run_bind in Hk as ([] & ? & (ud & -> & Hud)%resolve_field_Ok & Hk); [|by destruct s as [???????? ?? [] ?]].
  apply run_bind in Hk as ([] & ? & (nc & -> & Hnc)%resolve_field_Ok & Hk); [|by destruct s as [???????? ?? [] ?]].
  apply run_bind in Hk as ([] & ? & (ks & -> & Hks)%resolve_keys_Ok & Hk); [|done].
  apply run_bind in Hk as ([] & ? & (b & -> & Hb)%resolve_field_Ok & Hk); [|by destruct s as [???????? ?? ? []]].
  assert (Hf : ∃ f, s' = set_vm (set_firmware f) (set_vm (VmmSpec.set_binary b) (set_cloud (CloudInitSpec.set_ssh_keys ([] ++ ks))
      (set_cloud (CloudInitSpec.set_network_config nc) (set_cloud (CloudInitSpec.set_user_data ud) (MachineSpec.set_mounts ([] ++ ms) s)))))
      ∧ firmware_anchors c (VmmSpec.firmware (MachineSpec.vmm s)) f).
  { unfold firmware_anchors. destruct (Firmware.as_path _) as [p|].
    - apply run_bind in Hk as (q & ? & [Hq%context_path_anchors ->]%run_lift & Hk).
      apply run_bind in Hk as (f & ? & [->%resolved_firmware_Ok ->]%run_lift & ->%run_modify). eauto.
    - apply run_ret in Hk as [_ ->]. exists (VmmSpec.firmware (MachineSpec.vmm s)). split; [|done]. by destruct s as [???????? ?? ? []]. }
  destruct Hf as (f & -> & Hf). split; [|by destruct s]. split.
  - exists (MachineSpec.image s). by destruct s.
  - done.
  - by exists ud, nc, ks.
  - by exists b, f.
Qed.
End anchor.

(** C28: an accepted specification no longer depends on where it was read or on the environment: every
    host path in it is absolute, and is the written one as it was if that was absolute, and otherwise
    the home directory (after ~) or the machine's directory with the written components added one by
    one ([..] among them is kept, so a path may lead outside); a local image becomes the canonical
    path of the file its reference leads to (given that canonical paths are absolute), and any other
    reference stays as it is or in its canonical spelling; and nothing but paths and the image
    reference has changed. *)
Theorem validated_paths_anchored utf8_error inputs c (spec spec' : Spec) ws :
  from_inputs inputs = Ok (paths c) → is_absolute (machine_dir c) = true →
  (∀ p q, canonicalize_regular_nofollow p = Ok q → is_absolute q = true) →
  validate_machine_spec utf8_error c spec = (Ok ws, spec') →
  anchored c spec spec' ∧ image_anchored c (MachineSpec.image spec) (MachineSpec.image spec').
Proof.
  intros Hroot%from_inputs_rooted Hdir Hcanon. unfold validate_machine_spec, validate_machine_spec_with_image_base.
  intros ([] & r & Hr & Hk)%run_bind. apply run_bind in Hk as (? & ? & [-> ->]%run_get & Hk).
  apply run_bind in Hk as (arch & ? & [_ ->]%run_lift & Hk). apply run_bind in Hk as (image & ? & [[_ Hi]%settled_image_Ok ->]%run_lift & Hk).
  apply run_bind in Hk as ([] & ? & ->%run_modify & Hk). apply run_bind in Hk as (? & ? & [-> ->]%run_get & Hk).
  apply run_rules in Hk as (_ & -> & _). destruct (resolve_spec_paths_anchored c Hroot Hdir spec r () image Hr) as [Ha <-].
  split; [done|]. by apply (settles_anchored c Hroot Hdir arch).
Qed.
End accepted.

#[local] Instance demo_host : ValidationHost := {|
  architecture := Ok Arch.X86_64; cpu_count := 1; path_exists p := Ok (String.eqb p "/home/ada/src" || String.eqb p "/work/data/machines/web/disk.img");
  path_is_readable _ := Ok true; path_is_file _ := Ok true;
  canonicalize_regular_nofollow p := if is_absolute p then Ok p else Err {| io_kind := IoNotFound; io_text := "" |};
  path_is_executable _ := Ok true; read_regular_file _ _ := Ok "#cloud-config";
  host_tap := {| tap_device_is_tap _ := Ok true; tun_is_accessible := Ok () |} |}.
#[local] Instance demo_keys : SshKeyCrate := {| from_openssh _ := Ok () |}.
Definition demo_context : ValidationContext := new demo_paths "/work/data/machines/web" demo_catalog.
Definition demo_mount (host : string) : MountSpec.MountSpec :=
  {| MountSpec.host := host; MountSpec.guest := "/src"; MountSpec.readonly := false; MountSpec.tag := None |}.
Definition demo_spec (host user_data : string) : MachineSpec.MachineSpec bool :=
  MachineSpec.set_mounts [demo_mount host]
    (set_cloud (CloudInitSpec.set_user_data (Some user_data)) MachineSpec.default).
Lemma validated_paths_anchored_witness :
  let spec := with_image (demo_spec "~/src" "../user-data.yaml") "disk.img" in
  let spec' := with_image (demo_spec "/home/ada/src" "/work/data/machines/web/../user-data.yaml") "/work/data/machines/web/disk.img" in
  anchored demo_context spec spec' ∧ image_anchored demo_context (MachineSpec.image spec) (MachineSpec.image spec').
Proof.
  apply (validated_paths_anchored (λ s, s) demo_inputs demo_context
    (with_image (demo_spec "~/src" "../user-data.yaml") "disk.img")
    (with_image (demo_spec "/home/ada/src" "/work/data/machines/web/../user-data.yaml") "/work/data/machines/web/disk.img")
    [{| warning_key := "cpus"; warning_message := "configured 2 vCPUs but the host reports 1 logical CPUs" |}]);
    [vm_compute; reflexivity..| |vm_compute; reflexivity].
  intros p q. cbn. destruct (is_absolute p) eqn:Hp; [|discriminate]. intros [= <-]. exact Hp.
Defined.
