(* ===== verification/Rest.v ===== *)
(** The REST adapter ([firestone/src/api.rs]) and the actions it asks for
    ([firestone-core/src/action.rs]): what each route makes of a request, the limits it enforces
    before anything is dispatched, and the response built from what the dispatcher sends.  HTTP,
    routing and JSON belong to crates and are parameters; the dispatcher is known by the messages
    its channel carries ([Dispatch]). *)
From S2P Require Import Prelude RustStr Errors Values Utf8 Chars Ports Spec SpecToml Dispatch Sanitizer.
Open Scope Z_scope.

Definition MAX_JSON_BODY_BYTES : Z := 1024 * 1024.
Definition MAX_TIMEOUT_SECONDS : Z := 60 * 60.
Definition MAX_LOG_LINES : Z := 100000.
Definition DEFAULT_LOG_LINES : Z := 200.
Definition JSON_CONTENT_TYPE : string := "application/json".
Definition NDJSON_CONTENT_TYPE : string := "application/x-ndjson".
Definition TEXT_CONTENT_TYPE : string := "text/plain".

(** ** Actions *)

Inductive Action (Json : Type) : Type :=
  | Create (name : string) (spec : MachineSpec.MachineSpec Json)
  | Start (name : string) (wait : bool) (timeout : Z)
  | Stop (name : string) (timeout : Z) (force : bool)
  | Restart (name : string) (timeout : Z)
  | Remove (names : list string) (force : bool)
  | List_
  | Show (name : string) (vmconfig : bool)
  | SetSpec (name : string) (spec : MachineSpec.MachineSpec Json)
  | PatchSpec (name : string) (patch : MachineSpecPatch.MachineSpecPatch Json)
  | Logs (name : string) (source : LogSource) (lines : Z) (follow : bool)
  | Cp (source target : string) (recursive : bool)
  | Metrics (name : string)
  | HostMetrics
  | CatalogList
  | ImageList
  | ImagePull (ref : string) (sha256 : option string)
  | ImageRemove (id : string) (force : bool)
  | ImageInspect (id : string)
  | ImagePrune
  | Doctor (fix_ elevation_confirmed : bool)
  | Version
  | Clone (source dest : string) (fresh_disk : bool)
  | Resize (name : string) (cpus memory : option Z)
  | SnapshotCreate (name : string) (snapshot : option string)
  | SnapshotList (name : string)
  | SnapshotRestore (name snapshot : string) (force start : bool) (timeout : Z)
  | SnapshotRemove (name snapshot : string)
  | SystemPrune (machines images force dry_run : bool).
Arguments Create {Json}. Arguments Start {Json}. Arguments Stop {Json}. Arguments Restart {Json}.
Arguments Remove {Json}. Arguments List_ {Json}. Arguments Show {Json}. Arguments SetSpec {Json}.
Arguments PatchSpec {Json}. Arguments Logs {Json}. Arguments Cp {Json}. Arguments Metrics {Json}.
Arguments HostMetrics {Json}. Arguments CatalogList {Json}. Arguments ImageList {Json}. Arguments ImagePull {Json}.
Arguments ImageRemove {Json}. Arguments ImageInspect {Json}. Arguments ImagePrune {Json}. Arguments Doctor {Json}.
Arguments Version {Json}. Arguments Clone {Json}. Arguments Resize {Json}. Arguments SnapshotCreate {Json}.
Arguments SnapshotList {Json}. Arguments SnapshotRestore {Json}. Arguments SnapshotRemove {Json}.
Arguments SystemPrune {Json}.

(** ** Requests *)

(** A request: its headers by lower-case name in order, and its body, of the HTTP crate's type. *)
Class HttpCrates := {
  Body : Type;
  to_str : string → option string;
  to_bytes : Body → Z → option string }.
Record Request `{HttpCrates} : Type := { headers : list (string * string); body : Body }.
Definition header_values (name : string) (headers : list (string * string)) : list string :=
  snd <$> filter (λ h, h.1 = name) headers.

Definition media_type (value : string) : string := default value (head (split ";" value)).
Definition names_json (value : string) : bool := eq_ignore_ascii_case (trim (media_type value)) JSON_CONTENT_TYPE.

Section requests.
Context `{HttpCrates}.

Definition is_json_content_type (headers : list (string * string)) : bool :=
  match mbind (M := option) to_str (head (header_values "content-type" headers)) with
  | Some value => names_json value
  | None => false
  end.
Definition accepts_json (headers : list (string * string)) : bool :=
  existsb names_json (concat (split "," <$> omap (M := list) to_str (header_values "accept" headers))).

Definition body_limit_error (label : string) : FirestoneError :=
  with_hint (error_new Usage
    (label +:+ " request body exceeds the " +:+ dec MAX_JSON_BODY_BYTES +:+ " byte limit"))
    "send a smaller JSON object".
Definition declared_length (headers : list (string * string)) : option Z :=
  mbind (M := option) (parse_u u64_max) (mbind (M := option) to_str (head (header_values "content-length" headers))).
Definition request_body_untyped (request : Request) (label : string) : result FirestoneError string :=
  if match declared_length (headers request) with Some n => MAX_JSON_BODY_BYTES <? n | None => false end
  then Err (body_limit_error label)
  else ok_or (to_bytes (body request) MAX_JSON_BODY_BYTES) (body_limit_error label).
Definition request_body (request : Request) (label : string) : result FirestoneError string :=
  let is_json := is_json_content_type (headers request) in
  bytes ← request_body_untyped request label;
  if negb (is_empty bytes) && negb is_json
  then Err (with_hint (error_new Usage (label +:+ " request body must use application/json"))
         "set Content-Type: application/json")
  else Ok bytes.
Definition require_empty_body (request : Request) (label : string) : result FirestoneError () :=
  bytes ← request_body_untyped request label;
  if is_empty bytes then Ok ()
  else Err (with_hint (error_new Usage (label +:+ " does not accept a request body"))
         "send the request with an empty body").
Definition invalid_body (label : string) : FirestoneError :=
  with_hint (error_new Usage (label +:+ " request body is not valid for this route"))
    "send one application/json object with only the documented fields".
(** [from_slice] is the derived conversion of the body's type. *)
Definition parse_required_json {T} (from_slice : string → option T) (request : Request) (label : string)
    : result FirestoneError T :=
  bytes ← request_body request label;
  if is_empty bytes
  then Err (with_hint (error_new Usage (label +:+ " requires a JSON request body"))
         "send one application/json object matching the route body")
  else ok_or (from_slice bytes) (invalid_body label).
Definition parse_optional_json {T} (from_slice : string → option T) (default_ : T) (request : Request) (label : string)
    : result FirestoneError T :=
  bytes ← request_body request label;
  if is_empty bytes then Ok default_ else ok_or (from_slice bytes) (invalid_body label).
(** [uri.query()], and the derived conversion of the query's type. *)
Definition parse_query {T} (try_from_uri : string → option T) (default_ : T) (query : option string) (label : string)
    : result FirestoneError T :=
  match query with
  | None => Ok default_
  | Some q =>
      if is_empty q then Ok default_
      else ok_or (try_from_uri q)
        (with_hint (error_new Usage (label +:+ " query is not valid for this route"))
          "use each documented query field once with its expected value type")
  end.
Definition request_timeout (requested_seconds : option Z) (default_ : Z) : result FirestoneError Z :=
  let seconds := default default_ requested_seconds in
  if (seconds =? 0) || (MAX_TIMEOUT_SECONDS <? seconds)
  then Err (with_hint (error_new Usage
         ("timeout_s must be between 1 and " +:+ dec MAX_TIMEOUT_SECONDS +:+ " seconds"))
         ("set timeout_s to a whole number from 1 through " +:+ dec MAX_TIMEOUT_SECONDS))
  else Ok seconds.
End requests.

Definition is_ascii_hexdigit (a : ascii) : bool := is_ascii_digit a || byte_in 65 70 a || byte_in 97 102 a.
(** The loop over [index]. *)
Fixpoint valid_percent_encoding (value : string) : bool :=
  match value with
  | EmptyString => true
  | String a rest =>
      if Ascii.eqb a "%"
      then match rest with
           | String h1 (String h2 rest) =>
               is_ascii_hexdigit h1 && is_ascii_hexdigit h2 && valid_percent_encoding rest
           | _ => false
           end
      else valid_percent_encoding rest
  end.

(** ** Request bodies and queries *)

Record CreateMachineBody (Json : Type) : Type :=
  { create_name : string; create_spec : MachineSpecPatch.MachineSpecPatch Json }.
Arguments create_name {Json}. Arguments create_spec {Json}.
Record StartBody : Set := { start_wait : option bool; start_timeout_s : option Z }.
Record StopBody : Set := { stop_timeout_s : option Z; stop_force : option bool }.
Record ResizeBody : Set := { resize_cpus : option Z; resize_memory : option Z }.
Record CloneMachineBody : Set := { clone_name : string; clone_fresh_disk : option bool }.
Record CreateSnapshotBody : Set := { snapshot_name : option string }.
Record RestoreSnapshotBody : Set :=
  { restore_force : option bool; restore_start : option bool; restore_timeout_s : option Z }.
Record PruneSystemBody : Set :=
  { prune_machines : option bool; prune_images_ : option bool; prune_force : option bool; prune_dry_run : option bool }.
Record PullImageBody : Set := { pull_reference : string; pull_sha256 : option string }.
Record ForceQuery : Set := { query_force : option bool }.
Record LogsQuery : Set := { query_source : option LogSource; query_follow : option bool; query_lines : option Z }.

(** The derived conversions. *)
Class RestJson (Json : Type) := {
  create_from_slice : string → option (CreateMachineBody Json);
  spec_from_slice : string → option (MachineSpec.MachineSpec Json);
  patch_from_slice : string → option (MachineSpecPatch.MachineSpecPatch Json);
  start_from_slice : string → option StartBody;
  stop_from_slice : string → option StopBody;
  resize_from_slice : string → option ResizeBody;
  clone_from_slice : string → option CloneMachineBody;
  create_snapshot_from_slice : string → option CreateSnapshotBody;
  restore_from_slice : string → option RestoreSnapshotBody;
  prune_from_slice : string → option PruneSystemBody;
  pull_from_slice : string → option PullImageBody;
  force_from_uri : string → option ForceQuery;
  logs_from_uri : string → option LogsQuery;
  value_to_vec : Json → option string;
  output_to_vec : DispatchOutput Json → option string;
  event_to_vec : Event Json → option string;
  error_to_vec : ErrorInfo → option string }.

(** ** Handlers

    What a handler has decided when it has not refused: the action, the name of the result it
    expects, and the form of the response. *)
Inductive Reply : Set :=
  | PayloadReply (status : Z)
  | ActionReply (aggregate : bool)
  | DeleteReply (aggregate : bool)
  | NoContentReply
  | LogsReply.
Record Dispatched (Json : Type) : Type := { action : Action Json; expected : string; reply : Reply }.
Arguments action {Json}. Arguments expected {Json}. Arguments reply {Json}. Arguments Build_Dispatched {Json}.

Record RestConfig (Json : Type) : Type := {
  create_defaults : MachineSpecPatch.MachineSpecPatch Json;
  config_start_timeout : Z;
  config_stop_timeout : Z }.
Arguments create_defaults {Json}. Arguments config_start_timeout {Json}. Arguments config_stop_timeout {Json}.

Definition OK : Z := 200.
Definition CREATED : Z := 201.
Definition NO_CONTENT : Z := 204.

Section handlers.
Context {Json : Type} `{OverlayJson Json} `{HttpCrates} `{RestJson Json} (config : RestConfig Json).
Local Abbreviation Handled := (result FirestoneError (Dispatched Json)).

Definition rest_config (g : GlobalConfig (Json := Json)) : RestConfig Json :=
  {| create_defaults := defaults g; config_start_timeout := start_timeout g; config_stop_timeout := stop_timeout g |}.
Definition dispatch (a : Action Json) (e : string) (r : Reply) : Handled :=
  Ok {| action := a; expected := e; reply := r |}.

Definition version : Handled := dispatch Version "version" (PayloadReply OK).
Definition doctor : Handled := dispatch (Doctor false false) "doctor" (PayloadReply OK).
Definition machines : Handled := dispatch List_ "list" (PayloadReply OK).
Definition create_machine (request : Request) : Handled :=
  body ← parse_required_json create_from_slice request "create machine";
  spec ← from_layers (create_defaults config) MachineSpecPatch.default (create_spec body);
  dispatch (Create (create_name body) spec) "create" (PayloadReply CREATED).
Definition machine (name : string) : Handled := dispatch (Show name false) "show" (PayloadReply OK).
Definition set_machine_spec (name : string) (request : Request) : Handled :=
  spec ← parse_required_json spec_from_slice request "replace machine spec";
  dispatch (SetSpec name spec) "edit" (PayloadReply OK).
Definition patch_machine_spec (name : string) (request : Request) : Handled :=
  patch ← parse_required_json patch_from_slice request "patch machine spec";
  dispatch (PatchSpec name patch) "edit" (PayloadReply OK).
Definition remove_machine (name : string) (query : option string) (headers : list (string * string)) : Handled :=
  query ← parse_query force_from_uri {| query_force := None |} query "remove machine";
  dispatch (Remove [name] (default false (query_force query))) "rm" (DeleteReply (accepts_json headers)).
Definition start_machine (name : string) (request : Request) : Handled :=
  let aggregate := accepts_json (headers request) in
  body ← parse_optional_json start_from_slice {| start_wait := None; start_timeout_s := None |} request "start machine";
  timeout ← request_timeout (start_timeout_s body) (config_start_timeout config);
  dispatch (Start name (default true (start_wait body)) timeout) "start" (ActionReply aggregate).
Definition stop_machine (name : string) (request : Request) : Handled :=
  let aggregate := accepts_json (headers request) in
  body ← parse_optional_json stop_from_slice {| stop_timeout_s := None; stop_force := None |} request "stop machine";
  timeout ← request_timeout (stop_timeout_s body) (config_stop_timeout config);
  dispatch (Stop name timeout (default false (stop_force body))) "stop" (ActionReply aggregate).
Definition restart_machine (name : string) (request : Request) : Handled :=
  let aggregate := accepts_json (headers request) in
  require_empty_body request "restart machine";;
  timeout ← request_timeout None (config_start_timeout config);
  dispatch (Restart name timeout) "restart" (ActionReply aggregate).
Definition clone_machine (name : string) (request : Request) : Handled :=
  let aggregate := accepts_json (headers request) in
  body ← parse_required_json clone_from_slice request "clone machine";
  dispatch (Clone name (clone_name body) (default false (clone_fresh_disk body))) "clone" (ActionReply aggregate).
Definition machine_snapshots (name : string) : Handled := dispatch (SnapshotList name) "snapshot-list" (PayloadReply OK).
Definition create_machine_snapshot (name : string) (request : Request) : Handled :=
  let aggregate := accepts_json (headers request) in
  body ← parse_optional_json create_snapshot_from_slice {| snapshot_name := None |} request "create snapshot";
  dispatch (SnapshotCreate name (snapshot_name body)) "snapshot-create" (ActionReply aggregate).
Definition restore_machine_snapshot (name snapshot : string) (request : Request) : Handled :=
  let aggregate := accepts_json (headers request) in
  body ← parse_optional_json restore_from_slice
    {| restore_force := None; restore_start := None; restore_timeout_s := None |} request "restore snapshot";
  timeout ← request_timeout (restore_timeout_s body) (config_stop_timeout config);
  dispatch (SnapshotRestore name snapshot (default false (restore_force body)) (default false (restore_start body)) timeout)
    "snapshot-restore" (ActionReply aggregate).
Definition remove_machine_snapshot (name snapshot : string) : Handled :=
  dispatch (SnapshotRemove name snapshot) "snapshot-rm" NoContentReply.
Definition resize_machine (name : string) (request : Request) : Handled :=
  let aggregate := accepts_json (headers request) in
  body ← parse_required_json resize_from_slice request "resize machine";
  dispatch (Resize name (resize_cpus body) (resize_memory body)) "resize" (ActionReply aggregate).
Definition machine_logs (name : string) (query : option string) : Handled :=
  query ← parse_query logs_from_uri {| query_source := None; query_follow := None; query_lines := None |} query "machine logs";
  let lines := default DEFAULT_LOG_LINES (query_lines query) in
  if MAX_LOG_LINES <? lines
  then Err (with_hint (error_new Usage
         ("log line count exceeds the " +:+ dec MAX_LOG_LINES +:+ " line limit"))
         ("set lines to " +:+ dec MAX_LOG_LINES +:+ " or fewer"))
  else dispatch (Logs name (default Console (query_source query)) lines (default false (query_follow query))) "logs" LogsReply.
Definition machine_vmconfig (name : string) : Handled := dispatch (Show name true) "show-vmconfig" (PayloadReply OK).
Definition machine_metrics (name : string) : Handled := dispatch (Metrics name) "metrics" (PayloadReply OK).
Definition host_metrics : Handled := dispatch HostMetrics "host-metrics" (PayloadReply OK).
Definition catalog : Handled := dispatch CatalogList "catalog" (PayloadReply OK).
Definition images : Handled := dispatch ImageList "images-ls" (PayloadReply OK).
Definition pull_image (request : Request) : Handled :=
  let aggregate := accepts_json (headers request) in
  body ← parse_required_json pull_from_slice request "pull image";
  dispatch (ImagePull (pull_reference body) (pull_sha256 body)) "images-pull" (ActionReply aggregate).
Definition remove_image (id : string) (query : option string) : Handled :=
  query ← parse_query force_from_uri {| query_force := None |} query "remove image";
  dispatch (ImageRemove id (default false (query_force query))) "images-rm" NoContentReply.
Definition prune_images (request : Request) : Handled :=
  require_empty_body request "prune images";;
  dispatch ImagePrune "images-prune" (PayloadReply OK).
Definition prune_system (request : Request) : Handled :=
  let aggregate := accepts_json (headers request) in
  body ← parse_optional_json prune_from_slice
    {| prune_machines := None; prune_images_ := None; prune_force := None; prune_dry_run := None |} request "prune system";
  dispatch (SystemPrune (default false (prune_machines body)) (default false (prune_images_ body))
      (default false (prune_force body)) (default false (prune_dry_run body))) "system-prune" (ActionReply aggregate).
Definition not_found : Handled :=
  Err (with_hint (error_new NotFound "no REST route matches this request")
         "check the HTTP method and the /v1 route path").
(** The routing table: the path is matched first, literal segments before captured ones, then the
    method.  A captured segment arrives percent-decoded, which fails when it is not UTF-8.  The two
    WebSocket upgrades, which dispatch no action, are not among the routes here. *)
Definition only (method : string) (allowed : list (string * Handled)) : Handled :=
  match List.find (λ x, String.eqb x.1 method) allowed with Some x => x.2 | None => not_found end.
Context (decode : string → option string).
Definition captured (hint : string) (segment : string) (k : string → Handled) : Handled :=
  match decode segment with
  | Some value => k value
  | None => Err (with_hint (error_new Usage "the route path is not valid UTF-8") hint)
  end.
Definition captured_name : string → (string → Handled) → Handled :=
  captured "percent-encode one UTF-8 machine name or image id".
Definition captured_snapshot (name snapshot : string) (k : string → string → Handled) : Handled :=
  let hint := "percent-encode one UTF-8 machine name and snapshot name" in
  captured hint name (λ name, captured hint snapshot (k name)).

Definition collection_route (collection method : string) (request : Request) : Handled :=
  if String.eqb collection "version" then only method [("GET", version)]
  else if String.eqb collection "doctor" then only method [("GET", doctor)]
  else if String.eqb collection "machines" then only method [("GET", machines); ("POST", create_machine request)]
  else if String.eqb collection "catalog" then only method [("GET", catalog)]
  else if String.eqb collection "images" then only method [("GET", images)]
  else not_found.
Definition item_route (collection item method : string) (request : Request) (query : option string) : Handled :=
  if String.eqb collection "machines" then
    only method [("GET", captured_name item machine);
      ("PUT", captured_name item (λ name, set_machine_spec name request));
      ("PATCH", captured_name item (λ name, patch_machine_spec name request));
      ("DELETE", captured_name item (λ name, remove_machine name query (headers request)))]
  else if String.eqb collection "host" && String.eqb item "metrics" then only method [("GET", host_metrics)]
  else if String.eqb collection "images" then
    if String.eqb item "pull" then only method [("POST", pull_image request)]
    else if String.eqb item "prune" then only method [("POST", prune_images request)]
    else only method [("DELETE", captured_name item (λ id, remove_image id query))]
  else if String.eqb collection "system" && String.eqb item "prune" then only method [("POST", prune_system request)]
  else not_found.
Definition machine_route (item verb method : string) (request : Request) (query : option string) : Handled :=
  let post (handler : string → Request → Handled) := only method [("POST", captured_name item (λ name, handler name request))] in
  let get (handler : string → Handled) := only method [("GET", captured_name item handler)] in
  if String.eqb verb "start" then post start_machine
  else if String.eqb verb "stop" then post stop_machine
  else if String.eqb verb "restart" then post restart_machine
  else if String.eqb verb "resize" then post resize_machine
  else if String.eqb verb "clone" then post clone_machine
  else if String.eqb verb "logs" then get (λ name, machine_logs name query)
  else if String.eqb verb "vmconfig" then get machine_vmconfig
  else if String.eqb verb "metrics" then get machine_metrics
  else if String.eqb verb "snapshots" then
    only method [("GET", captured_name item machine_snapshots);
      ("POST", captured_name item (λ name, create_machine_snapshot name request))]
  else not_found.
Definition route (method : string) (segments : list string) (request : Request) (query : option string) : Handled :=
  match segments with
  | [v1; collection] => if String.eqb v1 "v1" then collection_route collection method request else not_found
  | [v1; collection; item] => if String.eqb v1 "v1" then item_route collection item method request query else not_found
  | [v1; collection; item; verb] =>
      if String.eqb v1 "v1" && String.eqb collection "machines" then machine_route item verb method request query
      else not_found
  | [v1; collection; item; kind; snapshot] =>
      if String.eqb v1 "v1" && String.eqb collection "machines" && String.eqb kind "snapshots"
      then only method [("DELETE", captured_snapshot item snapshot remove_machine_snapshot)] else not_found
  | [v1; collection; item; kind; snapshot; verb] =>
      if String.eqb v1 "v1" && String.eqb collection "machines" && String.eqb kind "snapshots" && String.eqb verb "restore"
      then only method [("POST", captured_snapshot item snapshot (λ n s, restore_machine_snapshot n s request))]
      else not_found
  | _ => not_found
  end.
(** [validate_request_uri], around every handler. *)
Definition validate_request_uri (path : string) (query : option string) (next : Handled) : Handled :=
  if valid_percent_encoding path && match query with Some q => valid_percent_encoding q | None => true end
  then next
  else Err (with_hint (error_new Usage "the request URI has invalid percent encoding")
         "encode every percent sign as '%' followed by two hexadecimal digits").
End handlers.

(** ** Responses *)

Record Response : Set := { status : Z; content_type : option string; response_body : string }.

Definition status_for_error (k : ErrorKind) : Z :=
  match k with
  | Usage | InvalidSpec => 400
  | NotFound => 404
  | Conflict | AlreadyRunning | Busy => 409
  | Timeout => 504
  | Dependency => 503
  | Checksum => 502
  | Generic | NotRunning | AlreadyExists | Interrupted => 500
  end.
Definition INTERNAL_ERROR_JSON : string :=
  "{" +:+ quoted "error" +:+ ":{" +:+ quoted "kind" +:+ ":" +:+ quoted "generic" +:+ "," +:+ quoted "message" +:+ ":"
  +:+ quoted "the REST adapter could not serialize a response" +:+ "," +:+ quoted "hint" +:+ ":"
  +:+ quoted "retry the request; if it fails again, report a Firestone bug" +:+ "}}".
Definition INTERNAL_ERROR_NDJSON : string := INTERNAL_ERROR_JSON +:+ one LF.

Definition response_with_content_type (status : Z) (content_type body : string) : Response :=
  {| status := status; content_type := Some content_type; response_body := body |}.
Definition text_response (status : Z) (body : string) : Response := response_with_content_type status TEXT_CONTENT_TYPE body.
Definition empty_response (status : Z) : Response := {| status := status; content_type := None; response_body := "" |}.
Definition sanitized_output (data : string) : string := sanitize_terminal_output data.

Section responses.
Context {Json : Type} `{RestJson Json}.
Local Abbreviation Messages := (list (DispatchMessage Json)).

(** [serde_json::to_vec] has answered [body]. *)
Definition json_response (status : Z) (body : option string) : Response :=
  match body with
  | Some body => response_with_content_type status JSON_CONTENT_TYPE body
  | None => response_with_content_type 500 JSON_CONTENT_TYPE INTERNAL_ERROR_JSON
  end.
Definition error_response (e : FirestoneError) : Response :=
  json_response (status_for_error (kind e)) (error_to_vec (info e)).
Definition encode_event_ndjson (e : Event Json) : string :=
  match event_to_vec e with Some bytes => bytes +:+ one LF | None => INTERNAL_ERROR_NDJSON end.
Definition encode_error_ndjson (e : FirestoneError) : string :=
  match error_to_vec (info e) with Some bytes => bytes +:+ one LF | None => INTERNAL_ERROR_NDJSON end.
Definition ndjson_error_response (e : FirestoneError) : Response :=
  response_with_content_type (status_for_error (kind e)) NDJSON_CONTENT_TYPE (encode_error_ndjson e).
Definition encode_message_ndjson (m : DispatchMessage Json) : string :=
  match m with DispatchEvent e => encode_event_ndjson e | DispatchError e => encode_error_ndjson e end.
(** The stream of the first event and of what the channel carries after it. *)
Definition ndjson_stream_response (first : Event Json) (ms : Messages) : Response :=
  response_with_content_type OK NDJSON_CONTENT_TYPE
    (encode_event_ndjson first +:+ foldr (λ m s, encode_message_ndjson m +:+ s) "" ms).
Definition contract_error_response : Response :=
  error_response (dispatch_contract_error "the dispatcher returned an invalid terminal event").
Definition contract_error_ndjson_response : Response :=
  ndjson_error_response (dispatch_contract_error "the dispatcher ended without a terminal event").

(** The chunks of a log after the first one: only output is shown, and the end flushes what a
    truncated sequence left behind. *)
Fixpoint text_stream (t : TerminalSanitizer) (ms : Messages) : string :=
  match ms with
  | DispatchEvent (Output data) :: ms => let '(t, chunk) := push t data in chunk +:+ text_stream t ms
  | _ :: ms => text_stream t ms
  | [] => (Sanitizer.finish t).2
  end.
Definition text_stream_response (first : string) (ms : Messages) (t : TerminalSanitizer) : Response :=
  text_response OK (first +:+ text_stream t ms).
Fixpoint logs_response (ms : Messages) : Response :=
  match ms with
  | DispatchEvent (Output data) :: ms =>
      let '(t, first) := push new data in text_stream_response first ms t
  | DispatchEvent (Result _ _) :: _ => text_response OK ""
  | DispatchEvent _ :: ms => logs_response ms
  | DispatchError e :: _ => error_response e
  | [] => contract_error_response
  end.

Definition payload_response (status : Z) (ms : Messages) : Response :=
  match collect_action ms with
  | Ok output =>
      match result_of output with
      | Result _ payload => json_response status (value_to_vec payload)
      | _ => contract_error_response
      end
  | Err e => error_response e
  end.
Definition action_response (aggregate : bool) (ms : Messages) : Response :=
  if aggregate then
    match collect_action ms with
    | Ok output => json_response OK (output_to_vec output)
    | Err e => error_response e
    end
  else
    match ms with
    | DispatchEvent e :: ms => ndjson_stream_response e ms
    | DispatchError e :: _ => ndjson_error_response e
    | [] => contract_error_ndjson_response
    end.
Definition conditional_delete_response (aggregate : bool) (ms : Messages) : Response :=
  if aggregate then
    match collect_action ms with
    | Ok output =>
        if bool_decide (length (events output) = 0%nat) then empty_response NO_CONTENT
        else json_response OK (output_to_vec output)
    | Err e => error_response e
    end
  else
    match ms with
    | DispatchEvent (Result _ _) :: _ => empty_response NO_CONTENT
    | DispatchEvent e :: ms => ndjson_stream_response e ms
    | DispatchError e :: _ => ndjson_error_response e
    | [] => contract_error_ndjson_response
    end.
Definition no_content_response (ms : Messages) : Response :=
  match collect_action ms with Ok _ => empty_response NO_CONTENT | Err e => error_response e end.
Definition reply_response (r : Reply) (ms : Messages) : Response :=
  match r with
  | PayloadReply status => payload_response status ms
  | ActionReply aggregate => action_response aggregate ms
  | DeleteReply aggregate => conditional_delete_response aggregate ms
  | NoContentReply => no_content_response ms
  | LogsReply => logs_response ms
  end.
(** A handler's whole answer; [channel] is [dispatch_channel] and its messages. *)
Definition respond (channel : Action Json → string → Messages) (h : result FirestoneError (Dispatched Json)) : Response :=
  match h with
  | Err e => error_response e
  | Ok d => reply_response (reply d) (channel (action d) (expected d))
  end.
End responses.

(** ** What a route may ask for *)

Section limits.
Context {Json : Type} `{OverlayJson Json} `{HttpCrates} `{RestJson Json}.
Implicit Types (a : Action Json) (h : result FirestoneError (Dispatched Json)).

(** Deadlines of one second to one hour, and a bounded number of log lines. *)
Definition within_limits a : Prop :=
  match a with
  | Start _ _ timeout | Stop _ timeout _ | Restart _ timeout | SnapshotRestore _ _ _ _ timeout => 1 ≤ timeout ≤ 3600
  | Logs _ _ lines _ => lines ≤ 100000
  | _ => True
  end.
Definition read_only a : Prop :=
  match a with
  | List_ | Show _ _ | Logs _ _ _ _ | Metrics _ | HostMetrics | CatalogList | ImageList | ImageInspect _ | Version
  | SnapshotList _ | Doctor false _ => True
  | _ => False
  end.
(** What is asked of the actions of a handler. *)
Definition asks (P : Action Json → Prop) h : Prop := ∀ d, h = Ok d → P (action d).

Lemma asks_dispatch (P : Action Json → Prop) a e r : P a → asks P (dispatch a e r).
Proof. intros HP d [= <-]. done. Qed.
Lemma asks_bind {A} (P : Action Json → Prop) (m : result FirestoneError A) k :
  (∀ x, m = Ok x → asks P (k x)) → asks P (m ≫= k).
Proof. intros Hk d (x & Hm & Hd)%bind_Ok. by apply (Hk x). Qed.
Lemma asks_err (P : Action Json → Prop) e : asks P (Err e).
Proof. done. Qed.
Lemma asks_only (P : Action Json → Prop) method allowed :
  Forall (λ x, asks P x.2) allowed → asks P (only method allowed).
Proof.
  intros Ha. unfold only. destruct (List.find _ allowed) as [x|] eqn:E; [|done].
  apply find_some in E as [Hx%list_elem_of_In _]. rewrite Forall_forall in Ha. by apply Ha.
Qed.
Lemma asks_only_get (P : Action Json → Prop) allowed :
  Forall (λ x, x.1 = "GET" → asks P x.2) allowed → asks P (only "GET" allowed).
Proof.
  intros Ha. unfold only. destruct (List.find _ allowed) as [x|] eqn:E; [|done].
  apply find_some in E as [Hx%list_elem_of_In Hm%String.eqb_eq]. rewrite Forall_forall in Ha. by apply Ha.
Qed.
Lemma asks_captured (P : Action Json → Prop) decode hint segment k :
  (∀ v, asks P (k v)) → asks P (captured decode hint segment k).
Proof. intros Hk. unfold captured. by destruct (decode segment). Qed.
Lemma asks_if (P : Action Json → Prop) (b : bool) h1 h2 : asks P h1 → asks P h2 → asks P (if b then h1 else h2).
Proof. by destruct b. Qed.
Lemma request_timeout_Ok r d t : 0 ≤ default d r → request_timeout r d = Ok t → 1 ≤ t ≤ 3600.
Proof.
  intros Hn. unfold request_timeout, MAX_TIMEOUT_SECONDS. rewrite if_err_Ok, orb_false_iff, Z.eqb_neq, Z.ltb_ge.
  intros [[? ?] [= <-]]. lia.
Qed.

(** A [u64] field of a body is not negative. *)
Class RestJsonLaws : Prop := {
  start_seconds : ∀ s b t, start_from_slice s = Some b → start_timeout_s b = Some t → 0 ≤ t;
  stop_seconds : ∀ s b t, stop_from_slice s = Some b → stop_timeout_s b = Some t → 0 ≤ t;
  restore_seconds : ∀ s b t, restore_from_slice s = Some b → restore_timeout_s b = Some t → 0 ≤ t }.
Context `{!RestJsonLaws} (config : RestConfig Json) (decode : string → option string).
Context (Hstart : 0 ≤ config_start_timeout config) (Hstop : 0 ≤ config_stop_timeout config).

Lemma optional_json_Ok {T} (from_slice : string → option T) default_ request label b :
  parse_optional_json from_slice default_ request label = Ok b → b = default_ ∨ ∃ s, from_slice s = Some b.
Proof.
  unfold parse_optional_json. intros (s & _ & Hb)%bind_Ok. destruct (is_empty s); [left; congruence|].
  apply ok_or_Ok in Hb. eauto.
Qed.
Ltac asks_step := repeat first [apply asks_err | apply asks_dispatch; done | apply asks_bind; intros ? ?].
Lemma timeout_asks r d k :
  0 ≤ default d r → (∀ t, 1 ≤ t ≤ 3600 → asks within_limits (k t)) → asks within_limits (request_timeout r d ≫= k).
Proof. intros Hn Hk. apply asks_bind. intros t Ht. apply Hk. by eapply request_timeout_Ok. Qed.
Lemma start_limits name request : asks within_limits (start_machine config name request).
Proof.
  apply asks_bind. intros b Hb. apply timeout_asks; [|intros t Ht; by apply asks_dispatch].
  apply optional_json_Ok in Hb as [->|[s Hb]]; [done|]. destruct (start_timeout_s b) eqn:E; [|done]. by eapply start_seconds.
Qed.
Lemma stop_limits name request : asks within_limits (stop_machine config name request).
Proof.
  apply asks_bind. intros b Hb. apply timeout_asks; [|intros t Ht; by apply asks_dispatch].
  apply optional_json_Ok in Hb as [->|[s Hb]]; [done|]. destruct (stop_timeout_s b) eqn:E; [|done]. by eapply stop_seconds.
Qed.
Lemma restore_limits name snapshot request : asks within_limits (restore_machine_snapshot config name snapshot request).
Proof.
  apply asks_bind. intros b Hb. apply timeout_asks; [|intros t Ht; by apply asks_dispatch].
  apply optional_json_Ok in Hb as [->|[s Hb]]; [done|]. destruct (restore_timeout_s b) eqn:E; [|done]. by eapply restore_seconds.
Qed.
Lemma restart_limits name request : asks within_limits (restart_machine config name request).
Proof. apply asks_bind. intros [] _. apply timeout_asks; [done|]. intros t Ht. by apply asks_dispatch. Qed.
Lemma logs_limits name query : asks within_limits (machine_logs name query).
Proof.
  apply asks_bind. intros b _. cbv zeta. destruct (Z.ltb_spec MAX_LOG_LINES (default DEFAULT_LOG_LINES (query_lines b))); [done|].
  by apply asks_dispatch.
Qed.
Ltac limits :=
  repeat first
    [ done | apply start_limits | apply stop_limits | apply restart_limits | apply restore_limits | apply logs_limits
    | apply asks_captured; intros ? | progress asks_step ].
Ltac all_routes := apply asks_only; repeat (constructor; [cbn [snd]; limits|]); constructor.
Ltac get_routes :=
  apply asks_only_get; repeat (constructor; [cbn [fst snd]; first [discriminate | intros _; limits]|]); constructor.

Lemma route_limits method segments request query : asks within_limits (route config decode method segments request query).
Proof.
  unfold route. destruct segments as [|? [|? [|? [|? [|? [|? []]]]]]]; try done; (apply asks_if; [|done]).
  - unfold collection_route. repeat (apply asks_if; [all_routes|]). done.
  - unfold item_route. repeat (apply asks_if; [first [all_routes | repeat (apply asks_if; [all_routes|]); all_routes]|]). done.
  - unfold machine_route. repeat (apply asks_if; [all_routes|]). done.
  - all_routes.
  - all_routes.
Qed.
Lemma logs_read_only name query : asks read_only (machine_logs name query).
Proof. apply asks_bind. intros b _. cbv zeta. apply asks_if; [done|]. by apply asks_dispatch. Qed.
Ltac limits ::=
  repeat first [ done | apply logs_read_only | apply asks_captured; intros ? | progress asks_step ].
Lemma route_read_only segments request query : asks read_only (route config decode "GET" segments request query).
Proof using Type.
  unfold route. destruct segments as [|? [|? [|? [|? [|? [|? []]]]]]]; try done; (apply asks_if; [|done]).
  - unfold collection_route. repeat (apply asks_if; [get_routes|]). done.
  - unfold item_route. repeat (apply asks_if; [first [get_routes | repeat (apply asks_if; [get_routes|]); get_routes]|]). done.
  - unfold machine_route. repeat (apply asks_if; [get_routes|]). done.
  - get_routes.
  - get_routes.
Qed.
End limits.

(** whatever a client sends, an action that reaches the dispatcher is within the adapter's
    limits, every deadline between one second and one hour and at most 100000 log lines, and a GET
    request never dispatches an action that changes anything. *)
Theorem rest_actions_bounded {Json} `{OverlayJson Json} `{HttpCrates} `{RestJson Json} `{!RestJsonLaws}
    (config : RestConfig Json) decode method path segments request query d :
  0 ≤ config_start_timeout config → 0 ≤ config_stop_timeout config →
  validate_request_uri path query (route config decode method segments request query) = Ok d →
  within_limits (action d) ∧ (method = "GET" → read_only (action d)).
Proof.
  intros Hs Ht. unfold validate_request_uri. destruct (_ && _); [|done]. intros Hd. split.
  - by eapply route_limits.
  - intros ->. by eapply route_read_only.
Qed.

(** ** Logs *)

Section log_text.
Context {Json : Type} `{RestJson Json}.
Implicit Types (es : list (Event Json)) (m : DispatchMessage Json).

Fixpoint outputs es : list string :=
  match es with
  | [] => []
  | Output data :: es => data :: outputs es
  | _ :: es => outputs es
  end.
Lemma output_of_outputs es : output_of es = joined (outputs es).
Proof.
  unfold output_of, joined. induction es as [|e es IH]; [done|]. destruct e; cbn [foldr outputs]; try done. by rewrite IH.
Qed.
Lemma outputs_progress es : outputs (progress es) = outputs es.
Proof.
  unfold progress. induction es as [|e es IH]; [done|]. destruct (is_result e) eqn:He.
  - rewrite filter_cons_False by congruence. by destruct e.
  - rewrite filter_cons_True by done. destruct e; cbn [outputs]; try done. by rewrite IH.
Qed.
Definition terminal m : Prop := (∃ a p, m = DispatchEvent (Result a p)) ∨ ∃ e, m = DispatchError e.
Lemma text_stream_progress t es m :
  terminal m → text_stream t ((DispatchEvent <$> progress es) ++ [m])
  = let '(t', out) := push_all t (outputs es) in out +:+ (Sanitizer.finish t').2.
Proof.
  intros Hm. rewrite <- outputs_progress. generalize (progress es). clear es. intros es. revert t.
  induction es as [|e es IH]; intros t.
  - cbn. destruct Hm as [(a & p & ->)|(e & ->)]; done.
  - destruct e; cbn [fmap list_fmap app text_stream outputs push_all]; try apply IH.
    destruct (push t data) as [t1 chunk]. rewrite IH. destruct (push_all t1 (outputs es)) as [t2 rest]. by rewrite app_assoc_str.
Qed.
Lemma logs_response_progress es m :
  terminal m → Forall (λ s, valid_str s) (outputs es) →
  logs_response ((DispatchEvent <$> progress es) ++ [m])
  = if bool_decide (outputs es = [])
    then match m with DispatchEvent _ => text_response OK "" | DispatchError e => error_response e end
    else text_response OK (sanitize_terminal_output (output_of es)).
Proof.
  intros Hm Hv. rewrite output_of_outputs. assert (Hp := outputs_progress es).
  assert (Hnr : Forall (λ e, is_result e = false) (progress es)).
  { apply Forall_forall. by intros e [? _]%list_elem_of_filter. }
  assert (Hts : ∀ t es', progress es' = es' → text_stream t ((DispatchEvent <$> es') ++ [m])
      = let '(t', out) := push_all t (outputs es') in out +:+ (Sanitizer.finish t').2).
  { intros t es' E. rewrite <- E at 1. by apply text_stream_progress. }
  rewrite <- Hp in Hv |- *. clear Hp. induction Hnr as [|e es' He Hnr IH].
  - cbn. destruct Hm as [(a & p & ->)|(e & ->)]; done.
  - destruct e; try done; cbn [fmap list_fmap app logs_response outputs] in *; try (by apply IH).
    rewrite bool_decide_eq_false_2 by done. rewrite <- sanitize_chunks_joined by done. unfold sanitize_chunks. cbn [push_all].
    destruct (push new data) as [t first]. unfold text_stream_response. rewrite Hts.
    + destruct (push_all t (outputs es')) as [t' rest]. by rewrite app_assoc_str.
    + clear -Hnr. unfold progress. induction Hnr; [done|]. rewrite filter_cons_True by done. by f_equal.
Qed.
End log_text.

(** the log a client sees, end to end: when the client stays, a [logs] request whose run
    produces any output is answered with status 200 and exactly the sanitised concatenation of that
    output, however the run cut it into events and whatever sequence straddled two of them; a run
    that produces none is answered with its verdict.  The text the web page shows for the same run
    is the same text. *)
Theorem log_response_exact {Json} `{RestJson Json} `{Drains} fuel (d : Run Json) :
  (patience ≤ fuel)%nat → closed_from = None → Forall (λ s, valid_str s) (outputs (trace d).1) →
  let text := sanitize_terminal_output (output_of (trace d).1) in
  ∃ ms, spawn_dispatch fuel d "logs" = Some ms
    ∧ logs_response ms = (if bool_decide (outputs (trace d).1 = [])
        then match verdict "logs" (trace d).1 (trace d).2 with
             | DispatchEvent _ => text_response OK ""
             | DispatchError e => error_response e end
        else text_response OK text)
    ∧ ∀ page, dispatch_output ms = Ok page → sanitized_output page = text ∧ logs_response ms = text_response OK text.
Proof.
  intros Hf Hn Hv. cbv zeta. destruct (spawn_whole fuel d "logs" Hf) as (ms & Hs & _ & Hw). rewrite (Hw Hn) in *.
  pose proof (verdict_terminal "logs" (trace d).1 (trace d).2) as Ht. unfold whole in *.
  destruct (trace d) as [es r]. cbn [fst snd] in *. eexists. split; [done|]. pose proof (logs_response_progress es _ Ht Hv) as Hl.
  split; [exact Hl|]. intros page Hpage. unfold dispatch_output in Hpage. rewrite (output_progress "" es _ Ht) in Hpage.
  destruct Ht as [(a & p & E)|(e & E)]; rewrite E in *; [|done]. injection Hpage as <-. split; [done|].
  case_bool_decide as Ho; [|done]. rewrite Hl. by rewrite output_of_outputs, Ho.
Qed.

(** ** Concrete requests *)

#[local] Instance demo_http : HttpCrates := {| Body := string; to_str := Some; to_bytes b n := if len b <=? n then Some b else None |}.
#[local] Instance demo_json : RestJson bool := {|
  create_from_slice _ := None; spec_from_slice _ := None; patch_from_slice _ := None;
  start_from_slice _ := Some {| start_wait := Some false; start_timeout_s := Some 90 |};
  stop_from_slice _ := None; resize_from_slice _ := None; clone_from_slice _ := None; create_snapshot_from_slice _ := None;
  restore_from_slice _ := None; prune_from_slice _ := None; pull_from_slice _ := None; force_from_uri _ := None;
  logs_from_uri _ := None; value_to_vec _ := Some "true"; output_to_vec _ := Some "{}"; event_to_vec _ := Some "{}";
  error_to_vec _ := Some "{}" |}.
#[local] Instance demo_json_laws : RestJsonLaws (Json := bool).
Proof. by split; intros s b t [= <-] [= <-]. Qed.
Definition demo_config : RestConfig bool :=
  {| create_defaults := MachineSpecPatch.default; config_start_timeout := 60; config_stop_timeout := 30 |}.
Definition demo_request : Request :=
  {| headers := [("accept", "text/html, Application/JSON; q=0.9"); ("content-type", "application/json; charset=utf-8")];
     body := "{}" |}.
Lemma rest_actions_bounded_witness :
  within_limits (Start (Json := bool) "web" false 90) ∧ ("POST" = "GET" → read_only (Start (Json := bool) "web" false 90)).
Proof.
  apply (rest_actions_bounded demo_config Some "POST" "/v1/machines/web/start" ["v1"; "machines"; "web"; "start"]
    demo_request None {| action := Start "web" false 90; expected := "start"; reply := ActionReply true |});
    [discriminate|discriminate|vm_compute; reflexivity].
Defined.
(** The demonstration run of [Dispatch], asked for as logs. *)
Definition demo_logs : Run bool := Emit (Output (of_chars [27; 91; 51; 49])) (λ _, Emit (Output (of_chars [109; 111; 107; 7]))
  (λ _, Emit (Result "logs" true) (λ _, Return (Ok ())))).
#[local] Existing Instances demo_receiver demo_drains.
Lemma log_response_exact_witness :
  ∃ ms, spawn_dispatch 4 demo_logs "logs" = Some ms
        ∧ logs_response ms = text_response 200 (of_chars [27; 91; 51; 49; 109; 111; 107; REPLACEMENT]).
Proof.
  destruct (log_response_exact 4 demo_logs) as (ms & Hs & Hl & _).
  - cbn. lia.
  - reflexivity.
  - repeat constructor; apply valid_of_chars; repeat constructor.
  - exists ms. split; [exact Hs|]. rewrite Hl. vm_compute. reflexivity.
Defined.
