(* ===== verification/Auth.v ===== *)
(** The gate in front of the browser-reachable transport ([firestone/src/ui/auth.rs]): session
    tokens, the decision taken for every request on a loopback listener, the login that moves a
    token from the address bar into a cookie, the headers every response carries, and the token
    file.  Header text belongs to the HTTP crate; the file and the random device are parameters. *)
From S2P Require Import Prelude RustStr Errors Utf8.
Open Scope Z_scope.

Definition TOKEN_BYTES : Z := 32.
Definition COOKIE_NAME : string := "firestone_session".
Definition URANDOM : string := "/dev/urandom".
Definition JSON_CONTENT_TYPE : string := "application/json".
Definition COOKIE_ATTRIBUTES : string := "; Path=/; HttpOnly; SameSite=Strict; Max-Age=86400".
Definition CONTENT_SECURITY_POLICY : string :=
  "default-src 'none'; script-src 'self'; style-src 'self'; " +:+
  "img-src 'self' data:; font-src 'self'; connect-src 'self'; frame-src 'self'; " +:+
  "base-uri 'none'; form-action 'self'; frame-ancestors 'none'".
Definition TERMINAL_CONTENT_SECURITY_POLICY : string :=
  "default-src 'none'; script-src 'self' 'wasm-unsafe-eval'; style-src 'self'; " +:+
  "img-src 'self' data:; font-src 'self'; connect-src 'self'; frame-src 'self'; " +:+
  "base-uri 'none'; form-action 'self'; frame-ancestors 'none'".
Definition TERMINAL_EMBED_CONTENT_SECURITY_POLICY : string :=
  "default-src 'none'; script-src 'self' 'wasm-unsafe-eval'; style-src 'self'; " +:+
  "img-src 'self' data:; font-src 'self'; connect-src 'self'; frame-src 'self'; " +:+
  "base-uri 'none'; form-action 'self'; frame-ancestors 'self'".

Inductive WasmPolicy : Set := Standalone | Embedded.

(** ** Session tokens

    The 32 bytes of a token. *)
Definition SessionToken : Set := list Z.

Definition hex_digit (value : Z) : ascii :=
  Ascii.ascii_of_N (Z.to_N (if value <=? 9 then 48 + value else 97 + value - 10)).
Definition hex_value (byte : ascii) : option Z :=
  if byte_in 48 57 byte then Some (code byte - 48)
  else if byte_in 97 102 byte then Some (code byte - 97 + 10)
  else if byte_in 65 70 byte then Some (code byte - 65 + 10)
  else None.
Fixpoint to_hex (token : SessionToken) : string :=
  match token with
  | [] => EmptyString
  | byte :: token =>
      String (hex_digit (Z.shiftr byte 4)) (String (hex_digit (Z.land byte 15)) (to_hex token))
  end.
(** The loop over [chunks_exact(2)]. *)
Fixpoint hex_pairs (s : string) : option (list Z) :=
  match s with
  | String a (String b rest) =>
      high ← hex_value a;
      low ← hex_value b;
      token ← hex_pairs rest;
      Some (Z.lor (wrap 8 (Z.shiftl high 4)) low :: token)
  | _ => Some []
  end.
Definition parse_hex (value : string) : option SessionToken :=
  if negb (len value =? TOKEN_BYTES * 2) then None else hex_pairs value.
Definition from_hex (value : string) : result FirestoneError SessionToken :=
  ok_or (parse_hex value)
    (with_hint (error_new Usage
       ("a session token must be exactly " +:+ dec (TOKEN_BYTES * 2) +:+ " hexadecimal characters"))
       "regenerate the token file, or delete it and let firestone create one").
(** The bits in which the bytes differ, gathered without an early exit. *)
Definition difference (left right : SessionToken) : Z :=
  foldl (λ acc index, Z.lor acc (Z.lxor (left !!! index) (right !!! index))) 0 (seq 0 (Z.to_nat TOKEN_BYTES)).
Definition constant_time_eq (left right : SessionToken) : bool := difference left right =? 0.

(** ** Requests and responses

    Headers are listed by lower-case name in the order they came; the text of a value, and the
    value of a text, are the HTTP crate's. *)
Class HeaderText := { to_str : string → option string; from_str : string → option string }.
Abbreviation Headers := (list (string * string)).
Definition get_all (name : string) (headers : Headers) : list string := snd <$> filter (λ h, h.1 = name) headers.
Definition insert_header (name value : string) (headers : Headers) : Headers :=
  filter (λ h, h.1 ≠ name) headers ++ [(name, value)].
Record Uri : Set := { path : string; query : option string }.
Record Request : Set := { method : string; uri : Uri; request_headers : Headers }.
Record Response : Set :=
  { status : Z; response_headers : Headers; response_body : string; extension : option WasmPolicy }.
Definition OK : Z := 200.
Definition SEE_OTHER : Z := 303.
Definition UNAUTHORIZED : Z := 401.
Definition FORBIDDEN : Z := 403.

Record LoopbackGate : Set := { token : SessionToken; port : Z }.
(** [UiAuth]: the token, if the transport has one. *)
Definition UiAuth : Set := option SessionToken.
Definition is_trusted (auth : UiAuth) : bool := match auth with None => true | Some _ => false end.
Definition gate (auth : UiAuth) (bound_port : Z) : option LoopbackGate :=
  (λ t, {| token := t; port := bound_port |}) <$> auth.

Record Rejection : Set := { rejected_status : Z; rejected_message : string; rejected_hint : string }.
Inductive Decision : Set :=
  | Allow
  | Bootstrap (location token : string)
  | Reject (rejection : Rejection).
Definition unauthorized : Rejection :=
  {| rejected_status := UNAUTHORIZED;
     rejected_message := "the request did not carry the Firestone session token";
     rejected_hint := "open the URL printed by `firestone ui`, or send Authorization: Bearer <token>" |}.

Definition is_read (method : string) : bool := String.eqb method "GET" || String.eqb method "HEAD".

(** ** The decision *)

Section gate.
Context `{HeaderText}.

(** [headers.get(name).and_then(to_str)]. *)
Definition get (name : string) (headers : Headers) : option string :=
  mbind (M := option) to_str (head (get_all name headers)).
Definition host_is_loopback (g : LoopbackGate) (headers : Headers) : bool :=
  match get "host" headers with
  | None => false
  | Some host =>
      String.eqb host ("127.0.0.1:" +:+ dec (port g)) || String.eqb host ("localhost:" +:+ dec (port g))
      || String.eqb host ("[::1]:" +:+ dec (port g))
  end.
Definition origin_is_loopback (g : LoopbackGate) (origin : string) : bool :=
  String.eqb origin ("http://127.0.0.1:" +:+ dec (port g)) || String.eqb origin ("http://localhost:" +:+ dec (port g))
  || String.eqb origin ("http://[::1]:" +:+ dec (port g)).
Definition is_same_site (g : LoopbackGate) (headers : Headers) : bool :=
  match get "sec-fetch-site" headers with
  | Some site => String.eqb site "same-origin" || String.eqb site "none"
  | None => from_option (origin_is_loopback g) false (get "origin" headers)
  end.
Definition header_list_contains (headers : Headers) (name token : string) : bool :=
  existsb (λ value, match to_str value with
                    | Some value => existsb (λ entry, eq_ignore_ascii_case (trim entry) token) (split "," value)
                    | None => false
                    end) (get_all name headers).
Definition is_protocol_upgrade (headers : Headers) : bool :=
  header_list_contains headers "upgrade" "websocket" || header_list_contains headers "connection" "upgrade".

(** The inner loop over the pairs of one header: what the function returns from it, if it does. *)
Fixpoint cookie_in (pairs : list string) : option (option SessionToken) :=
  match pairs with
  | [] => None
  | entry :: pairs =>
      match split_once "=" entry with
      | Some (name, value) => if String.eqb (trim name) COOKIE_NAME then Some (parse_hex (trim value)) else cookie_in pairs
      | None => cookie_in pairs
      end
  end.
Fixpoint cookie_among (values : list string) : option SessionToken :=
  match values with
  | [] => None
  | value :: values =>
      match to_str value with
      | None => cookie_among values
      | Some text => match cookie_in (split ";" text) with Some found => found | None => cookie_among values end
      end
  end.
Definition cookie_token (headers : Headers) : option SessionToken := cookie_among (get_all "cookie" headers).
Definition bearer_token (headers : Headers) : option SessionToken :=
  value ← get "authorization" headers;
  parts ← split_once " " value;
  if negb (eq_ignore_ascii_case parts.1 "Bearer") then None else parse_hex (trim parts.2).
Fixpoint token_among (pairs : list string) : option string :=
  match pairs with
  | [] => None
  | entry :: pairs => match strip_prefix "token=" entry with Some value => Some value | None => token_among pairs end
  end.
Definition query_token (u : Uri) : option string := q ← query u; token_among (split "&" q).

Definition matches_ (g : LoopbackGate) (candidate : option SessionToken) : bool :=
  from_option (constant_time_eq (token g)) false candidate.

(** Steps 4 and 5 of [decide]: where the request came from. *)
Definition decide_origin (g : LoopbackGate) (method : string) (headers : Headers) : Decision :=
  if is_protocol_upgrade headers && negb (is_same_site g headers)
  then Reject {| rejected_status := FORBIDDEN;
         rejected_message := "the protocol upgrade was not proven to come from this origin";
         rejected_hint := "open the terminal from the Firestone UI page, or send Origin: http://127.0.0.1:PORT" |}
  else if negb (is_read method)
          && negb (match get "sec-fetch-site" headers with
                   | Some site => String.eqb site "same-origin"
                   | None => from_option (origin_is_loopback g) true (get "origin" headers)
                   end)
  then Reject {| rejected_status := FORBIDDEN; rejected_message := "the request was issued from another origin";
         rejected_hint := "drive mutations from the Firestone UI page itself" |}
  else Allow.
Definition decide (g : LoopbackGate) (method : string) (u : Uri) (headers : Headers) : Decision :=
  if negb (host_is_loopback g headers)
  then Reject {| rejected_status := FORBIDDEN;
         rejected_message := "the request Host header is not the bound loopback address";
         rejected_hint := "open the printed http://127.0.0.1:PORT/ URL directly" |}
  else
    let cookie_ok := matches_ g (cookie_token headers) in
    let bearer_ok := matches_ g (bearer_token headers) in
    let header_ok := cookie_ok || bearer_ok in
    match query_token u with
    | Some candidate =>
        if negb (matches_ g (parse_hex candidate)) then Reject unauthorized
        else if is_read method then Bootstrap (path u) candidate
        else decide_origin g method headers
    | None => if negb header_ok then Reject unauthorized else decide_origin g method headers
    end.

(** ** Responses *)

Definition security_headers (response : Response) : Response :=
  let policy := match extension response with
    | Some Standalone => TERMINAL_CONTENT_SECURITY_POLICY
    | Some Embedded => TERMINAL_EMBED_CONTENT_SECURITY_POLICY
    | None => CONTENT_SECURITY_POLICY
    end in
  {| status := status response;
     response_headers := foldl (λ headers nv, insert_header nv.1 nv.2 headers) (response_headers response)
       [("content-security-policy", policy); ("referrer-policy", "no-referrer");
        ("x-content-type-options", "nosniff"); ("cross-origin-opener-policy", "same-origin");
        ("cross-origin-resource-policy", "same-origin")];
     response_body := response_body response; extension := extension response |}.
Definition bootstrap_response (location token_ : string) : Response :=
  let headers := match from_str location with Some value => insert_header "location" value [] | None => [] end in
  let headers := match from_str (COOKIE_NAME +:+ "=" +:+ token_ +:+ COOKIE_ATTRIBUTES) with
    | Some value => insert_header "set-cookie" value headers
    | None => headers
    end in
  {| status := SEE_OTHER; response_headers := headers; response_body := ""; extension := None |}.

(** [serde_json::to_vec] of the envelope has answered [encode]. *)
Variable encode : ErrorInfo → option string.
Definition INTERNAL_ERROR_JSON : string :=
  "{" +:+ quoted "error" +:+ ":{" +:+ quoted "kind" +:+ ":" +:+ quoted "generic" +:+ "," +:+ quoted "message" +:+ ":"
  +:+ quoted "the loopback gate could not serialize a response" +:+ "," +:+ quoted "hint" +:+ ":"
  +:+ quoted "retry the request; if it fails again, report a Firestone bug" +:+ "}}".
Definition into_response (r : Rejection) : Response :=
  {| status := rejected_status r;
     response_headers := insert_header "content-type" JSON_CONTENT_TYPE [];
     response_body := default INTERNAL_ERROR_JSON
       (encode {| info_kind := Usage; info_message := rejected_message r; info_hint := Some (rejected_hint r);
                  info_field := None |});
     extension := None |}.

Definition enforce (g : LoopbackGate) (next : Request → Response) (request : Request) : Response :=
  match decide g (method request) (uri request) (request_headers request) with
  | Allow => next request
  | Bootstrap location token_ => bootstrap_response location token_
  | Reject rejection => into_response rejection
  end.
Definition secured (app : Request → Response) (g : option LoopbackGate) (request : Request) : Response :=
  security_headers (match g with Some g => enforce g app request | None => app request end).
End gate.

(** ** The token file

    The file at the token's path, if there is one. *)
Record TokenFile : Set := { is_file : bool; owner : Z; mode : Z; contents : string }.
(** The kernel's answers: a refusal to open other than for a missing file, failures of the later
    calls, the random device, and the file a [create_new] makes.  A failed write or [sync_all]
    has written a part of the text. *)
Class TokenHost := {
  open_error : option IoError;
  metadata_error : option IoError;
  read_error : string → option IoError;
  urandom_open_error : option IoError;
  urandom_read : result IoError (list Z);
  create_error : option IoError;
  euid : Z;
  umask : Z;
  write_fault : option (nat * IoError) }.

Section token_file.
Context `{TokenHost}.
Local Abbreviation Act := (M (option TokenFile) FirestoneError).

Definition caused (e : FirestoneError) (h : string) (source : IoError) : FirestoneError :=
  with_source (with_hint e h) (io_text source).
Definition generate : result FirestoneError SessionToken :=
  match urandom_open_error with
  | Some source => Err (caused (error_new Dependency ("cannot open '" +:+ URANDOM +:+ "' to generate a session token"))
      "check that /dev/urandom exists and is readable" source)
  | None =>
      map_err (caused (error_new Dependency
          ("cannot read " +:+ dec TOKEN_BYTES +:+ " random bytes from '" +:+ URANDOM +:+ "'"))
        "check that /dev/urandom is a working character device") urandom_read
  end.
Definition token_file_error (operation path : string) (source : IoError) : FirestoneError :=
  with_source (error_new Dependency ("cannot " +:+ operation +:+ " serve token file '" +:+ path +:+ "'")) (io_text source).
Definition private_directory : string := "choose a token path inside a private, writable directory".
(** [OpenOptions::create_new] with mode 0600, when the path is free. *)
Definition create_new (path : string) : Act () :=
  match create_error with
  | Some source => M_fail (with_hint (token_file_error "create" path source) private_directory)
  | None => M_put (Some {| is_file := true; owner := euid; mode := Z.ldiff 384 umask; contents := "" |})
  end.
(** The two [write_all]s and the [sync_all]. *)
Definition write_text (path text : string) : Act () :=
  f ← M_get;
  let store text := M_put ((λ f, {| is_file := is_file f; owner := owner f; mode := mode f; contents := text |}) <$> f) in
  match write_fault with
  | None => store text
  | Some (n, source) =>
      store (String.substring 0 n text);;
      M_fail (with_hint (token_file_error "write" path source) private_directory)
  end.
Definition load_or_create_token_file (path : string) (uid : Z) : Act SessionToken :=
  f ← M_get;
  match open_error, f with
  | Some source, _ => M_fail (with_hint (token_file_error "open" path source) "check the token file's owner and permissions")
  | None, Some f =>
      match metadata_error with
      | Some source => M_fail (with_hint (token_file_error "inspect" path source) "check the token file's owner")
      | None =>
          if negb (is_file f) || negb (owner f =? uid) || negb (Z.land (mode f) 4095 =? 384)
          then M_fail (with_hint (error_new Dependency
                 ("serve token file '" +:+ path +:+ "' must be a current-user regular file with mode 0600"))
                 "run `chmod 600` on the token file, or delete it and retry")
          else
            match read_error (contents f) with
            | Some source => M_fail (with_hint (token_file_error "read" path source)
                "store the token as 64 hexadecimal characters")
            | None => M_lift (from_hex (trim (contents f)))
            end
      end
  | None, None =>
      token ← M_lift generate;
      create_new path;;
      write_text path (to_hex token +:+ one LF);;
      mret token
  end.
End token_file.

(** ** What tokens spell *)

Definition token_wf (t : SessionToken) : Prop := length t = 32%nat ∧ bytes_ok t.
(** The texts that stand for a token: its 64 digits in either case. *)
Definition spells (s : string) (t : SessionToken) : Prop := to_ascii_lowercase s = to_hex t.

Lemma hex_value_Some a v : hex_value a = Some v ↔ 0 ≤ v ≤ 15 ∧ to_ascii_lower a = hex_digit v.
Proof.
  assert (∀ n, n ∈ seq 0 16 → ∀ a, hex_value a = Some (Z.of_nat n) ↔ to_ascii_lower a = hex_digit (Z.of_nat n)) as Hn.
  { intros n Hn. do 16 (apply elem_of_cons in Hn as [->|Hn]; [clear; by_bytes|]). by apply elem_of_nil in Hn. }
  assert (∀ a v, hex_value a = Some v → 0 ≤ v ≤ 15) as Hr.
  { clear. intros a v. unfold hex_value, byte_in. repeat case_match; bool_props; intros [= <-]; lia. }
  split.
  - intros Hv. pose proof (Hr a v Hv). split; [done|].
    specialize (Hn (Z.to_nat v)). rewrite Z2Nat.id in Hn by lia. apply Hn; [apply elem_of_seq; lia|done].
  - intros [Hb Ha]. specialize (Hn (Z.to_nat v)). rewrite Z2Nat.id in Hn by lia. apply Hn; [apply elem_of_seq; lia|done].
Qed.

(** The two digits of a byte, and the byte of two digits. *)
Lemma nibbles_table :
  forallb (λ h, forallb (λ l,
    let b := Z.lor (wrap 8 (Z.shiftl (Z.of_nat h) 4)) (Z.of_nat l) in
    is_u u8_max b && (Z.shiftr b 4 =? Z.of_nat h) && (Z.land b 15 =? Z.of_nat l)
    && (Z.of_nat (16 * h + l) =? b)) (seq 0 16)) (seq 0 16) = true.
Proof. by vm_compute. Qed.
Lemma nibbles h l :
  0 ≤ h ≤ 15 → 0 ≤ l ≤ 15 →
  let b := Z.lor (wrap 8 (Z.shiftl h 4)) l in 0 ≤ b ≤ 255 ∧ Z.shiftr b 4 = h ∧ Z.land b 15 = l ∧ b = 16 * h + l.
Proof.
  intros Hh Hl. pose proof nibbles_table as H. rewrite forallb_forall in H. specialize (H (Z.to_nat h)).
  rewrite in_seq, forallb_forall in H. specialize (H ltac:(lia) (Z.to_nat l)). rewrite in_seq in H.
  specialize (H ltac:(lia)). rewrite !Z2Nat.id in H by lia. cbn zeta in H.
  rewrite !andb_true_iff, is_u_spec, !Z.eqb_eq in H. unfold u8_max in H. cbn zeta. lia.
Qed.
Lemma byte_nibbles b :
  0 ≤ b ≤ 255 →
  0 ≤ Z.shiftr b 4 ≤ 15 ∧ 0 ≤ Z.land b 15 ≤ 15 ∧ Z.lor (wrap 8 (Z.shiftl (Z.shiftr b 4) 4)) (Z.land b 15) = b.
Proof.
  intros Hb. assert (Z.shiftr b 4 = b / 16) as Hs by (by rewrite Z.shiftr_div_pow2).
  assert (Z.land b 15 = b mod 16) as Hl by (exact (Z.land_ones b 4 ltac:(lia))).
  assert (0 ≤ b / 16 ≤ 15 ∧ 0 ≤ b mod 16 ≤ 15) as [Hh Hm] by (Z.to_euclidean_division_equations; lia).
  rewrite Hs, Hl. split; [done|]. split; [done|].
  destruct (nibbles (b / 16) (b mod 16) Hh Hm) as (_ & _ & _ & ->). Z.to_euclidean_division_equations; lia.
Qed.

Lemma hex_pairs_exact t s :
  bytes_ok t → String.length s = (2 * length t)%nat → hex_pairs s = Some t ↔ spells s t.
Proof.
  unfold spells. intros Ht. revert s. induction Ht as [|b t Hb Ht IH]; intros s Hs.
  { destruct s; [done|discriminate]. }
  destruct s as [|x [|y s]]; [simpl in Hs; lia..|]. cbn [hex_pairs to_hex to_ascii_lowercase].
  cbn [String.length length] in Hs. specialize (IH s ltac:(lia)).
  destruct (byte_nibbles b Hb) as (Hh & Hl & Hb').
  split.
  - intros (h & Hx & (l & Hy & (u & Hu & [= Hhl ->])%bind_Some)%bind_Some)%bind_Some.
    apply hex_value_Some in Hx as [Hxr Hx], Hy as [Hyr Hy]. rewrite Hx, Hy.
    destruct (nibbles h l Hxr Hyr) as (_ & Eh & El & _).
    rewrite Hhl in Eh, El. rewrite Eh, El. do 2 f_equal. by apply IH.
  - intros [= Hx Hy Hu]. assert (hex_value x = Some (Z.shiftr b 4)) as -> by (by apply hex_value_Some).
    assert (hex_value y = Some (Z.land b 15)) as -> by (by apply hex_value_Some).
    cbn [mbind option_bind]. rewrite (proj2 IH Hu). cbn [mbind option_bind]. by rewrite Hb'.
Qed.
Lemma hex_pairs_wf n s t : String.length s = (2 * n)%nat → hex_pairs s = Some t → length t = n ∧ bytes_ok t.
Proof.
  revert s t. induction n as [|n IH]; intros [|x [|y s]] t Hs; cbn [String.length] in Hs; try lia.
  { intros [= <-]. split; [done|constructor]. }
  cbn [hex_pairs]. intros (h & Hx & (l & Hy & (u & Hu & [= <-])%bind_Some)%bind_Some)%bind_Some.
  apply hex_value_Some in Hx as [Hx _], Hy as [Hy _]. destruct (IH s u ltac:(lia) Hu) as [Hl Hu'].
  split; [simpl; lia|]. constructor; [|done]. by destruct (nibbles h l Hx Hy) as [? _].
Qed.
Lemma length_to_hex t : String.length (to_hex t) = (2 * length t)%nat.
Proof. induction t as [|b t IH]; [done|]. cbn [to_hex String.length length]. lia. Qed.
Lemma length_lowercase s : String.length (to_ascii_lowercase s) = String.length s.
Proof. induction s; simpl; congruence. Qed.

(** What [parse_hex] reads as a token is exactly what spells it. *)
Lemma parse_hex_spells t s : token_wf t → parse_hex s = Some t ↔ spells s t.
Proof.
  intros [Hl Ht]. unfold parse_hex. destruct (len s =? TOKEN_BYTES * 2) eqn:E; cbn [negb].
  - apply hex_pairs_exact; [done|]. unfold len, TOKEN_BYTES in E. lia.
  - split; [done|]. intros Hs. apply (f_equal String.length) in Hs. rewrite length_lowercase, length_to_hex in Hs.
    unfold len, TOKEN_BYTES in E. lia.
Qed.
Lemma parse_hex_wf s t : parse_hex s = Some t → token_wf t.
Proof.
  unfold parse_hex. destruct (len s =? TOKEN_BYTES * 2) eqn:E; cbn [negb]; [|done]. apply hex_pairs_wf.
  unfold len, TOKEN_BYTES in E. lia.
Qed.
Lemma to_ascii_lowercase_idemp s : to_ascii_lowercase (to_ascii_lowercase s) = to_ascii_lowercase s.
Proof. induction s as [|a s IH]; [done|]. cbn. by rewrite to_ascii_lower_idemp, IH. Qed.
Lemma digit_bytes v : 0 ≤ v ≤ 15 →
  to_ascii_lower (hex_digit v) = hex_digit v ∧ is_ascii_alphanumeric (hex_digit v) = true.
Proof.
  intros Hv. assert (Z.to_nat v ∈ seq 0 16) as Hn by (apply elem_of_seq; lia).
  replace v with (Z.of_nat (Z.to_nat v)) by lia. generalize dependent (Z.to_nat v). clear. intros n Hn.
  do 16 (apply elem_of_cons in Hn as [->|Hn]; [done|]). by apply elem_of_nil in Hn.
Qed.
Lemma to_hex_spells t : bytes_ok t → spells (to_hex t) t ∧ all_bytes is_ascii_alphanumeric (to_hex t) = true.
Proof.
  unfold spells. induction 1 as [|b t Hb Ht [IH IHa]]; [done|]. cbn [to_hex to_ascii_lowercase all_bytes].
  destruct (byte_nibbles b Hb) as (Hh & Hl & _). destruct (digit_bytes _ Hh) as [-> ->], (digit_bytes _ Hl) as [-> ->].
  by rewrite IH, IHa.
Qed.
Lemma lower_alphanumeric a : is_ascii_alphanumeric (to_ascii_lower a) = is_ascii_alphanumeric a.
Proof. revert a. by_bytes. Qed.
Lemma spells_alphanumeric s t : bytes_ok t → spells s t → all_bytes is_ascii_alphanumeric s = true.
Proof.
  intros Ht Hs. destruct (to_hex_spells t Ht) as [_ Ha]. rewrite <- Hs in Ha. clear Hs.
  induction s as [|a s IH]; [done|]. cbn in *. rewrite lower_alphanumeric in Ha.
  apply andb_true_iff in Ha as [-> Hs]. by apply IH.
Qed.

(** The comparison is equality. *)
Lemma lor_all_zero {A} (f : A → Z) l acc :
  foldl (λ acc a, Z.lor acc (f a)) acc l = 0 ↔ acc = 0 ∧ Forall (λ a, f a = 0) l.
Proof.
  revert acc. induction l as [|a l IH]; intros acc; cbn [foldl].
  - split; [by intros ->|by intros [-> _]].
  - rewrite IH, Z.lor_eq_0_iff, Forall_cons. tauto.
Qed.
Lemma constant_time_eq_exact t u : token_wf t → token_wf u → constant_time_eq t u = true ↔ t = u.
Proof.
  intros [Ht _] [Hu _]. unfold constant_time_eq, difference. rewrite Z.eqb_eq, lor_all_zero, Forall_forall.
  setoid_rewrite Z.lxor_eq_0_iff. split; [|by intros ->]. intros [_ E]. apply list_eq_same_length with 32%nat; [done..|].
  intros i x y Hi Hx Hy. assert (t !!! i = u !!! i) as E'.
  { apply E, elem_of_seq. change (Z.to_nat TOKEN_BYTES) with 32%nat. lia. }
  apply list_lookup_total_correct in Hx, Hy. rewrite <- Hx, <- Hy. exact E'.
Qed.
Lemma matches_exact g c : token_wf (token g) → (∀ u, c = Some u → token_wf u) → matches_ g c = true ↔ c = Some (token g).
Proof.
  intros Hg Hc. unfold matches_. destruct c as [u|]; cbn [from_option]; [|done].
  rewrite (constant_time_eq_exact (token g) u) by auto. split; congruence.
Qed.
Lemma matches_parse_hex g s : token_wf (token g) → matches_ g (parse_hex s) = true ↔ spells s (token g).
Proof.
  intros Hg. rewrite matches_exact by (try done; intros u; apply parse_hex_wf). by apply parse_hex_spells.
Qed.

(** ** The gate, in terms of what a request carries *)

Section carries.
Context `{HeaderText}.

Definition own_host (g : LoopbackGate) (headers : Headers) : Prop :=
  ∃ name, name ∈ ["127.0.0.1"; "localhost"; "[::1]"] ∧ get "host" headers = Some (name +:+ ":" +:+ dec (port g)).
Definition own_origin (g : LoopbackGate) (origin : string) : Prop :=
  ∃ name, name ∈ ["127.0.0.1"; "localhost"; "[::1]"] ∧ origin = "http://" +:+ name +:+ ":" +:+ dec (port g).
(** The [name=value] pairs of every readable cookie header, in order. *)
Definition cookies (headers : Headers) : list (string * string) :=
  concat ((λ text, (λ p, (trim p.1, trim p.2)) <$> omap (split_once "=") (split ";" text))
          <$> omap to_str (get_all "cookie" headers)).
(** The value of the first session cookie, which spells the token. *)
Definition session_cookie (cookies : list (string * string)) : option string :=
  snd <$> head (filter (λ p, p.1 = COOKIE_NAME) cookies).
Definition cookie_spells (g : LoopbackGate) (headers : Headers) : Prop :=
  ∃ value, session_cookie (cookies headers) = Some value ∧ spells value (token g).
Definition bearer_spells (g : LoopbackGate) (headers : Headers) : Prop :=
  ∃ scheme credential, get "authorization" headers = Some (scheme +:+ " " +:+ credential)
    ∧ has_char " " scheme = false ∧ to_ascii_lowercase scheme = "bearer" ∧ spells (trim credential) (token g).
(** Proven to come from the page: the browser says so, or an origin does. *)
Definition same_site (g : LoopbackGate) (headers : Headers) : Prop :=
  match get "sec-fetch-site" headers with
  | Some site => site = "same-origin" ∨ site = "none"
  | None => ∃ origin, get "origin" headers = Some origin ∧ own_origin g origin
  end.
(** Not known to come from another page. *)
Definition not_foreign (g : LoopbackGate) (headers : Headers) : Prop :=
  match get "sec-fetch-site" headers with
  | Some site => site = "same-origin"
  | None => ∀ origin, get "origin" headers = Some origin → own_origin g origin
  end.
Definition asks_for (name token : string) (headers : Headers) : Prop :=
  ∃ value text entry, value ∈ get_all name headers ∧ to_str value = Some text ∧ entry ∈ split "," text
    ∧ to_ascii_lowercase (trim entry) = token.
Definition upgrades (headers : Headers) : Prop :=
  asks_for "upgrade" "websocket" headers ∨ asks_for "connection" "upgrade" headers.
Definition reads (method : string) : Prop := method = "GET" ∨ method = "HEAD".

Lemma own_host_exact g headers : host_is_loopback g headers = true ↔ own_host g headers.
Proof.
  unfold host_is_loopback, own_host. destruct (get "host" headers) as [h|]; [|split; [done|by intros (? & _ & ?)]].
  rewrite !orb_true_iff, !String.eqb_eq. setoid_rewrite elem_of_cons. setoid_rewrite elem_of_cons.
  setoid_rewrite list_elem_of_singleton. split.
  - intros [[->| ->]| ->]; eauto 10.
  - intros (n & [->|[->| ->]] & [= ->]); auto.
Qed.
Lemma own_origin_exact g o : origin_is_loopback g o = true ↔ own_origin g o.
Proof.
  unfold origin_is_loopback, own_origin. rewrite !orb_true_iff, !String.eqb_eq. setoid_rewrite elem_of_cons.
  setoid_rewrite elem_of_cons. setoid_rewrite list_elem_of_singleton. split.
  - intros [[->| ->]| ->]; eauto 10.
  - intros (n & [->|[->| ->]] & ->); auto.
Qed.
Lemma same_site_exact g headers : is_same_site g headers = true ↔ same_site g headers.
Proof.
  unfold is_same_site, same_site. destruct (get "sec-fetch-site" headers) as [s|].
  - by rewrite orb_true_iff, !String.eqb_eq.
  - destruct (get "origin" headers) as [o|]; cbn [from_option].
    + rewrite own_origin_exact. split; [by exists o|by intros (? & [= ->] & ?)].
    + split; [done|by intros (? & ? & _)].
Qed.
Lemma not_foreign_exact g headers :
  (match get "sec-fetch-site" headers with
   | Some site => String.eqb site "same-origin"
   | None => from_option (origin_is_loopback g) true (get "origin" headers)
   end) = true ↔ not_foreign g headers.
Proof.
  unfold not_foreign. destruct (get "sec-fetch-site" headers) as [s|]; [apply String.eqb_eq|].
  destruct (get "origin" headers) as [o|]; cbn [from_option]; [|done].
  rewrite own_origin_exact. split; [by intros ? ? [= <-]|auto].
Qed.
Lemma asks_for_exact name token headers :
  to_ascii_lowercase token = token → header_list_contains headers name token = true ↔ asks_for name token headers.
Proof.
  intros Ht. unfold header_list_contains, asks_for. rewrite existsb_exists. split.
  - intros (v & Hv%list_elem_of_In & E). destruct (to_str v) as [text|] eqn:Hs; [|done].
    apply existsb_exists in E as (entry & He%list_elem_of_In & E). exists v, text, entry.
    unfold eq_ignore_ascii_case in E. rewrite Ht in E. by apply String.eqb_eq in E.
  - intros (v & text & entry & Hv & Hs & He & E). exists v. split; [by apply list_elem_of_In|]. rewrite Hs.
    apply existsb_exists. exists entry. split; [by apply list_elem_of_In|].
    unfold eq_ignore_ascii_case. rewrite Ht. by apply String.eqb_eq.
Qed.
Lemma upgrades_exact headers : is_protocol_upgrade headers = true ↔ upgrades headers.
Proof. unfold is_protocol_upgrade, upgrades. by rewrite orb_true_iff, !asks_for_exact by reflexivity. Qed.
Lemma reads_exact m : is_read m = true ↔ reads m.
Proof. unfold is_read, reads. by rewrite orb_true_iff, !String.eqb_eq. Qed.
End carries.

Section decides.
Context `{HeaderText}.

Lemma session_cookie_app l l' :
  session_cookie (l ++ l') = match session_cookie l with Some v => Some v | None => session_cookie l' end.
Proof. unfold session_cookie. rewrite filter_app. by destruct (filter _ l) as [|[]]. Qed.
Lemma cookie_in_first pairs :
  cookie_in pairs = parse_hex <$> session_cookie ((λ p, (trim p.1, trim p.2)) <$> omap (split_once "=") pairs).
Proof.
  induction pairs as [|x pairs IH]; [done|]. cbn [cookie_in]. unfold session_cookie in *. cbn [omap list_omap].
  destruct (split_once "=" x) as [[name value]|]; [|done]. cbn [fmap list_fmap fst snd].
  rewrite filter_cons. cbn [fst]. destruct (String.eqb_spec (trim name) COOKIE_NAME) as [E|E].
  - by rewrite decide_True.
  - by rewrite decide_False.
Qed.
Lemma cookie_token_first headers : cookie_token headers = session_cookie (cookies headers) ≫= parse_hex.
Proof.
  unfold cookie_token, cookies. induction (get_all "cookie" headers) as [|v vs IH]; [done|].
  cbn [cookie_among omap list_omap]. destruct (to_str v) as [text|]; [|done].
  cbn [fmap list_fmap concat]. rewrite session_cookie_app, cookie_in_first.
  destruct (session_cookie (_ <$> omap _ _)) as [value|]; [done|]. apply IH.
Qed.
Lemma cookie_spells_exact g headers :
  token_wf (token g) → matches_ g (cookie_token headers) = true ↔ cookie_spells g headers.
Proof.
  intros Hg. rewrite cookie_token_first. unfold cookie_spells. destruct (session_cookie _) as [v|]; cbn [mbind option_bind].
  - rewrite matches_parse_hex by done. split; [by exists v|by intros (? & [= ->] & ?)].
  - split; [done|by intros (? & ? & _)].
Qed.
Lemma bearer_spells_exact g headers :
  token_wf (token g) → matches_ g (bearer_token headers) = true ↔ bearer_spells g headers.
Proof.
  intros Hg. unfold bearer_token, bearer_spells. destruct (get "authorization" headers) as [v|]; cbn [mbind option_bind].
  2: { split; [done|by intros (? & ? & ? & _)]. }
  destruct (split_once " " v) as [[s c]|] eqn:Hs; cbn [mbind option_bind fst snd].
  - apply split_once_Some in Hs as [-> Hn]. unfold eq_ignore_ascii_case.
    change (to_ascii_lowercase "Bearer") with "bearer". destruct (String.eqb_spec (to_ascii_lowercase s) "bearer") as [E|E]; cbn [negb].
    + rewrite matches_parse_hex by done. split; [by exists s, c|]. intros (s' & c' & [= Hv] & Hn' & _ & Hc).
      assert (Some (s, c) = Some (s', c')) as [= -> ->]; [|done]. rewrite <- (split_once_app " " s c), <- (split_once_app " " s' c') by done.
      by f_equal.
    + split; [done|]. intros (s' & c' & [= Hv] & Hn' & E' & _). exfalso. apply E.
      assert (Some (s, c) = Some (s', c')) as [= -> ->]; [|done]. rewrite <- (split_once_app " " s c), <- (split_once_app " " s' c') by done.
      by f_equal.
  - apply split_once_None in Hs. split; [done|]. intros (s' & c' & [= ->] & _ & _ & _).
    by rewrite !has_char_app, orb_true_r in Hs.
Qed.

Lemma decide_origin_Allow g m headers :
  decide_origin g m headers = Allow ↔ (upgrades headers → same_site g headers) ∧ (¬ reads m → not_foreign g headers).
Proof.
  unfold decide_origin. rewrite <- upgrades_exact, <- same_site_exact, <- reads_exact, <- not_foreign_exact.
  destruct (is_protocol_upgrade headers), (is_same_site g headers), (is_read m);
    (destruct (match get "sec-fetch-site" headers with Some _ => _ | None => _ end)); cbn;
    split; try done; intros [H1 H2]; (discriminate (H1 eq_refl) || (exfalso; by apply H2) || idtac).
  all: discriminate (H2 ltac:(done)).
Qed.
Lemma decide_origin_no_bootstrap g m headers l t : decide_origin g m headers ≠ Bootstrap l t.
Proof. unfold decide_origin. by repeat case_match. Qed.
End decides.

(** ** Texts within texts *)

Definition within (s t : string) : Prop := ∃ a b, t = a +:+ s +:+ b.
Lemma within_refl s : within s s.
Proof. exists "", "". by rewrite app_empty_l, app_empty_r. Qed.
Lemma within_trans s t u : within s t → within t u → within s u.
Proof. intros (a & b & ->) (c & d & ->). exists (c +:+ a), (b +:+ d). by rewrite !app_assoc_str. Qed.
Lemma within_app_l s t u : within s t → within s (t +:+ u).
Proof. intros (a & b & ->). exists a, (b +:+ u). by rewrite !app_assoc_str. Qed.
Lemma within_app_r s t u : within s t → within s (u +:+ t).
Proof. intros (a & b & ->). exists (u +:+ a), b. by rewrite !app_assoc_str. Qed.
Lemma within_split c s x : x ∈ split c s → within x s.
Proof.
  intros Hx. rewrite <- (join_split c s). induction (split c s) as [|y l IH]; [by apply elem_of_nil in Hx|].
  destruct l as [|z l].
  - apply list_elem_of_singleton in Hx as ->. apply within_refl.
  - rewrite join_cons by done. apply elem_of_cons in Hx as [->|Hx]; [by apply within_app_l, within_refl|].
    apply within_app_r. change (String c ?t) with (one c +:+ t). by apply within_app_r, IH.
Qed.
Lemma within_split_once c s x y : split_once c s = Some (x, y) → within x s ∧ within y s.
Proof.
  intros [-> _]%split_once_Some. split; [by apply within_app_l, within_refl|].
  apply within_app_r. change (String c y) with (one c +:+ y). by apply within_app_r, within_refl.
Qed.
Lemma within_trim_start s : within (trim_start s) s.
Proof.
  unfold trim_start. generalize (String.length s). intros n. revert s. induction n as [|n IH]; intros s; cbn [trim_start_fuel]; [apply within_refl|].
  destruct (strip_any whitespace s) as [r|] eqn:Hr; [|apply within_refl].
  apply strip_any_Some in Hr as (p & _ & ->). by apply within_app_r.
Qed.
Lemma within_trim_end s : within (trim_end s) s.
Proof.
  assert (∃ b, s = trim_end s +:+ b) as (b & Hb).
  { induction s as [|a s [b Hb]]; [by exists ""|]. cbn [trim_end]. destruct (is_empty (trim_start (String a s))); [by exists (String a s)|].
    exists b. rewrite app_cons. by f_equal. }
  exists "", b. by rewrite app_empty_l.
Qed.
Lemma within_trim s : within (trim s) s.
Proof. unfold trim. eapply within_trans; [apply within_trim_end|apply within_trim_start]. Qed.
Lemma elem_of_get_all name v headers : v ∈ get_all name headers ↔ (name, v) ∈ headers.
Proof.
  unfold get_all. rewrite list_elem_of_fmap. setoid_rewrite list_elem_of_filter. split.
  - intros ([n w] & -> & [<- ?]). done.
  - intros Hv. by exists (name, v).
Qed.

(** A text some part of the request contains. *)
Definition carried (request : Request) (s : string) : Prop :=
  (∃ n v, (n, v) ∈ request_headers request ∧ within s v) ∨ (∃ q, query (uri request) = Some q ∧ within s q).

Section carried.
Context `{HeaderText}.
Hypothesis to_str_text : ∀ v t, to_str v = Some t → t = v.

Lemma carried_get request name t s : get name (request_headers request) = Some t → within s t → carried request s.
Proof using to_str_text.
  unfold get. intros (v & Hv & Ht)%bind_Some Hs. apply to_str_text in Ht as ->. left. exists name, v.
  split; [|done]. apply elem_of_get_all. destruct (get_all name _); [done|]. injection Hv as ->. apply list_elem_of_here.
Qed.
Lemma cookie_carried request g :
  cookie_spells g (request_headers request) → ∃ s, spells s (token g) ∧ carried request s.
Proof using to_str_text.
  intros (s & Hs & Hg). exists s. split; [done|]. unfold session_cookie in Hs.
  apply fmap_Some in Hs as ([n v] & Hh & ->). cbn [snd].
  assert ((n, v) ∈ cookies (request_headers request)) as Hc.
  { destruct (filter _ _) as [|y l] eqn:Hf; [done|]. injection Hh as ->.
    assert ((n, v) ∈ (n, v) :: l) as Hin by apply list_elem_of_here. rewrite <- Hf in Hin. by apply list_elem_of_filter in Hin as [_ ?]. }
  unfold cookies in Hc. apply list_elem_of_In, in_concat in Hc as (l & Ht%list_elem_of_In & Hl%list_elem_of_In).
  apply list_elem_of_fmap in Ht as (text & -> & Ht).
  apply list_elem_of_fmap in Hl as ([x y] & [= -> ->] & Hp).
  apply list_elem_of_omap in Hp as (p & Hp & Hsp). apply list_elem_of_omap in Ht as (value & Hv & Hto).
  apply to_str_text in Hto as ->. left. exists "cookie", value. split; [by apply elem_of_get_all|].
  eapply within_trans; [apply within_trim|]. eapply within_trans; [by eapply within_split_once|]. by eapply within_split.
Qed.
Lemma bearer_carried request g :
  bearer_spells g (request_headers request) → ∃ s, spells s (token g) ∧ carried request s.
Proof using to_str_text.
  intros (scheme & c & Hg & _ & _ & Hs). exists (trim c). split; [done|]. eapply carried_get; [done|].
  eapply within_trans; [apply within_trim|]. by apply within_app_r, within_app_r, within_refl.
Qed.
Lemma query_carried request t : query_token (uri request) = Some t → carried request t.
Proof using Type.
  unfold query_token. intros (q & Hq & Ht)%bind_Some. right. exists q. split; [done|].
  assert (∃ p, p ∈ split "&" q ∧ within t p) as (p & Hp & Hw).
  { induction (split "&" q) as [|x l IH]; [done|]. cbn [token_among] in Ht.
    destruct (strip_prefix "token=" x) as [v|] eqn:Hx.
    - injection Ht as ->. apply strip_prefix_Some in Hx as ->. eexists. split; [apply list_elem_of_here|].
      by apply within_app_r, within_refl.
    - destruct (IH Ht) as (p & ? & ?). exists p. split; [by apply list_elem_of_further|done]. }
  eapply within_trans; [done|]. by eapply within_split.
Qed.
End carried.

(** ** Properties *)

Lemma get_all_cons name h headers :
  get_all name (h :: headers) = if String.eqb h.1 name then h.2 :: get_all name headers else get_all name headers.
Proof.
  unfold get_all. rewrite filter_cons. destruct (String.eqb_spec h.1 name) as [E|E].
  - by rewrite decide_True.
  - by rewrite decide_False.
Qed.
Lemma get_all_insert name name' v headers :
  get_all name (insert_header name' v headers) = if String.eqb name' name then [v] else get_all name headers.
Proof.
  unfold insert_header. induction headers as [|h headers IH].
  - cbn [filter list_filter app]. by rewrite get_all_cons.
  - rewrite filter_cons. case_decide as E.
    + cbn [app]. rewrite !get_all_cons, IH. destruct (String.eqb_spec name' name) as [->|]; [|done].
      by destruct (String.eqb_spec h.1 name).
    + rewrite IH. rewrite get_all_cons, E. by destruct (String.eqb name' name).
Qed.

(** A response carries the headers every response has, with the policy [policy]. *)
Definition hardened (policy : string) (r : Response) : Prop :=
  get_all "content-security-policy" (response_headers r) = [policy]
  ∧ get_all "referrer-policy" (response_headers r) = ["no-referrer"]
  ∧ get_all "x-content-type-options" (response_headers r) = ["nosniff"]
  ∧ get_all "cross-origin-opener-policy" (response_headers r) = ["same-origin"]
  ∧ get_all "cross-origin-resource-policy" (response_headers r) = ["same-origin"].
Lemma security_headers_hardened r :
  extension r = None → hardened CONTENT_SECURITY_POLICY (security_headers r) ∧ status (security_headers r) = status r
  ∧ ∀ name, name ∉ ["content-security-policy"; "referrer-policy"; "x-content-type-options";
                     "cross-origin-opener-policy"; "cross-origin-resource-policy"] →
      get_all name (response_headers (security_headers r)) = get_all name (response_headers r).
Proof.
  intros He. unfold security_headers. rewrite He. cbn [response_headers status foldl fst snd]. unfold hardened.
  cbn [response_headers]. rewrite !get_all_insert. split; [done|]. split; [done|]. intros name Hn.
  rewrite !get_all_insert. repeat (rewrite not_elem_of_cons in Hn; destruct Hn as [? Hn]).
  by repeat (rewrite (proj2 (String.eqb_neq _ _)) by done).
Qed.

Section properties.
Context `{HeaderText} (encode : ErrorInfo → option string).

(** The request may have been sent by the holder of the token. *)
Definition logged_in (g : LoopbackGate) (r : Request) : Prop :=
  match query_token (uri r) with
  | Some value => spells value (token g)
  | None => cookie_spells g (request_headers r) ∨ bearer_spells g (request_headers r)
  end.
Lemma logged_in_carried g r :
  (∀ v t, to_str v = Some t → t = v) → logged_in g r → ∃ s, spells s (token g) ∧ carried r s.
Proof using Type.
  intros Hlaw. unfold logged_in. destruct (query_token (uri r)) as [value|] eqn:Hq.
  - exists value. split; [done|]. by apply query_carried.
  - intros [Hc|Hb]; [by apply cookie_carried|by apply bearer_carried].
Qed.
Lemma logged_in_exact g r :
  token_wf (token g) →
  match query_token (uri r) with
  | Some value => matches_ g (parse_hex value)
  | None => matches_ g (cookie_token (request_headers r)) || matches_ g (bearer_token (request_headers r))
  end = true ↔ logged_in g r.
Proof using Type.
  intros Hg. unfold logged_in. destruct (query_token (uri r)); [by apply matches_parse_hex|].
  by rewrite orb_true_iff, cookie_spells_exact, bearer_spells_exact.
Qed.
Lemma decide_cases g m u headers :
  token_wf (token g) →
  let r := {| method := m; uri := u; request_headers := headers |} in
  (decide g m u headers = Allow ↔
     own_host g headers ∧ logged_in g r ∧ (is_Some (query_token u) → ¬ reads m)
     ∧ (upgrades headers → same_site g headers) ∧ (¬ reads m → not_foreign g headers))
  ∧ ∀ l t, decide g m u headers = Bootstrap l t ↔
     own_host g headers ∧ logged_in g r ∧ reads m ∧ query_token u = Some t ∧ l = path u.
Proof using Type.
  intros Hg. cbn zeta. unfold decide.
  setoid_rewrite <- own_host_exact. setoid_rewrite <- (logged_in_exact g _ Hg). cbn [uri request_headers].
  rewrite <- decide_origin_Allow. setoid_rewrite <- reads_exact.
  destruct (host_is_loopback g headers); cbn [negb]; [|naive_solver].
  destruct (query_token u) as [c|].
  - destruct (matches_ g (parse_hex c)); cbn [negb]; [|naive_solver].
    destruct (is_read m) eqn:Hm.
    + split; [|naive_solver]. split; [done|]. intros (_ & _ & Hn & _). by destruct Hn.
    + split; [|split; [by intros ?%decide_origin_no_bootstrap|naive_solver]]. naive_solver.
  - destruct (_ || _); cbn [negb]; [|naive_solver]. split; [|split; [by intros ?%decide_origin_no_bootstrap|naive_solver]].
    split; [intros Ha|naive_solver]. by split_and!.
Qed.

Lemma rejected_status_of g m u headers rej :
  decide g m u headers = Reject rej → rejected_status rej = UNAUTHORIZED ∨ rejected_status rej = FORBIDDEN.
Proof using Type. unfold decide, decide_origin. intros Hd. repeat case_match; simplify_eq; auto. Qed.

(** C24: the gate of a loopback listener is exact: a request reaches the program just when it names
    this listener as its host, carries the token (in its query, if it has one there and is neither GET
    nor HEAD, else in its first session cookie or its bearer credential), is proven to come from
    the page when it asks to leave HTTP, and is not known to come from another page unless it is a GET
    or a HEAD; a GET or a HEAD with the token in its query is answered with the login that moves it
    into a cookie; a wrong token in a query is refused whatever else the request carries.  Everything
    that does not pass or log in is refused, and no part of the program sees it. *)
Theorem gate_exact g app r :
  token_wf (token g) →
  let headers := request_headers r in
  let passes := own_host g headers ∧ logged_in g r ∧ (is_Some (query_token (uri r)) → ¬ reads (method r))
    ∧ (upgrades headers → same_site g headers) ∧ (¬ reads (method r) → not_foreign g headers) in
  let logs_in t := own_host g headers ∧ logged_in g r ∧ reads (method r) ∧ query_token (uri r) = Some t in
  (passes → secured encode app (Some g) r = security_headers (app r))
  ∧ (∀ t, logs_in t → secured encode app (Some g) r = security_headers (bootstrap_response (path (uri r)) t))
  ∧ (¬ passes → (∀ t, ¬ logs_in t) →
     let answer := secured encode app (Some g) r in
     (status answer = UNAUTHORIZED ∨ status answer = FORBIDDEN) ∧ hardened CONTENT_SECURITY_POLICY answer
     ∧ ∀ app', secured encode app' (Some g) r = answer).
Proof using Type.
  intros Hg headers passes logs_in. destruct r as [m u hs]. subst headers passes logs_in. cbn [request_headers uri method].
  destruct (decide_cases g m u hs Hg) as [Ha Hb]. unfold secured, enforce. cbn [request_headers uri method].
  split; [by intros ->%Ha|]. split.
  - intros t (Hh & Hl & Hm & Hq). assert (decide g m u hs = Bootstrap (path u) t) as -> by (by apply Hb). done.
  - intros Hna Hnb. destruct (decide g m u hs) as [|l t|rej] eqn:Hd.
    + destruct Hna. by apply Ha.
    + destruct (Hnb t). destruct (proj1 (Hb l t) eq_refl) as (? & ? & ? & ? & _). done.
    + destruct (security_headers_hardened (into_response encode rej)) as (Hh & Hs & _); [done|]. rewrite Hs.
      split; [|done]. by eapply rejected_status_of.
Qed.

(** nothing gets in without the token: if no header value and no query of a request contains
    the token's digits in any case, it is refused whatever else it carries, the answer does not
    depend on the program behind the gate, and it has the headers every response has. *)
Theorem token_required g app app' r :
  token_wf (token g) → (∀ v t, to_str v = Some t → t = v) →
  (∀ s, spells s (token g) → ¬ carried r s) →
  let answer := secured encode app (Some g) r in
  (status answer = UNAUTHORIZED ∨ status answer = FORBIDDEN) ∧ hardened CONTENT_SECURITY_POLICY answer
  ∧ secured encode app' (Some g) r = answer.
Proof using Type.
  intros Hg Hlaw Hno.
  assert (¬ logged_in g r) as Hl by (by intros (s & Hs & Hc)%logged_in_carried; [apply (Hno s)|..]).
  destruct r as [m u hs]. destruct (decide_cases g m u hs Hg) as [Ha Hb].
  unfold secured, enforce. cbn [request_headers uri method].
  destruct (decide g m u hs) as [|l t|rej] eqn:Hd.
  - by destruct Hl, (proj1 Ha eq_refl) as (_ & ? & _).
  - by destruct Hl, (proj1 (Hb l t) eq_refl) as (_ & ? & _).
  - destruct (security_headers_hardened (into_response encode rej)) as (Hh & Hs & _); [done|]. rewrite Hs.
    split; [|done]. by eapply rejected_status_of.
Qed.

(** The cookie header a browser sends after it has stored [cookie]: its first pair among pairs of
    other names. *)
Definition sends_cookie (cookie : string) (headers : Headers) : Prop :=
  ∃ before space pair after value,
    head (split ";" cookie) = Some pair ∧ space ∈ [""; " "]
    ∧ get_all "cookie" headers = [value] ∧ to_str value = Some value
    ∧ value = join ";" (before ++ (space +:+ pair) :: after)
    ∧ Forall (λ p, has_char ";" p = false) (before ++ after)
    ∧ Forall (λ p, ∀ n v, split_once "=" p = Some (n, v) → trim n ≠ COOKIE_NAME) before.
Lemma set_cookie_pair t :
  has_char ";" t = false →
  head (split ";" (COOKIE_NAME +:+ "=" +:+ t +:+ COOKIE_ATTRIBUTES)) = Some (COOKIE_NAME +:+ "=" +:+ t).
Proof using Type.
  intros Ht. unfold COOKIE_ATTRIBUTES.
  change ("; Path=/; HttpOnly; SameSite=Strict; Max-Age=86400") with (String ";" " Path=/; HttpOnly; SameSite=Strict; Max-Age=86400").
  replace (COOKIE_NAME +:+ "=" +:+ t +:+ String ";" " Path=/; HttpOnly; SameSite=Strict; Max-Age=86400")
    with ((COOKIE_NAME +:+ "=" +:+ t) +:+ String ";" " Path=/; HttpOnly; SameSite=Strict; Max-Age=86400")
    by (by rewrite !app_assoc_str).
  by rewrite split_app_sep by (by rewrite !has_char_app, Ht).
Qed.
Lemma session_pair space t :
  space ∈ [""; " "] → all_bytes is_ascii_alphanumeric t = true →
  session_cookie ((λ p, (trim p.1, trim p.2)) <$> omap (split_once "=") [space +:+ COOKIE_NAME +:+ "=" +:+ t]) = Some t.
Proof using Type.
  intros Hs Ht. assert (split_once "=" (space +:+ COOKIE_NAME +:+ String "=" t) = Some (space +:+ COOKIE_NAME, t)) as E.
  { rewrite <- app_assoc_str. apply split_once_app. rewrite has_char_app.
    by apply elem_of_cons in Hs as [->| ->%list_elem_of_singleton]. }
  cbn [omap list_omap]. change (COOKIE_NAME +:+ "=" +:+ t) with (COOKIE_NAME +:+ String "=" t). rewrite E.
  cbn [fmap list_fmap fst snd]. assert (trim (space +:+ COOKIE_NAME) = COOKIE_NAME) as ->.
  { by apply elem_of_cons in Hs as [->| ->%list_elem_of_singleton]. }
  unfold session_cookie. cbn. by rewrite trim_all_graphic by (by apply (all_bytes_impl is_ascii_alphanumeric), Ht; by_bytes).
Qed.
Lemma session_none parts :
  Forall (λ p, ∀ n v, split_once "=" p = Some (n, v) → trim n ≠ COOKIE_NAME) parts →
  session_cookie ((λ p, (trim p.1, trim p.2)) <$> omap (split_once "=") parts) = None.
Proof using Type.
  induction 1 as [|x parts Hx Hp IH]; [done|]. cbn [omap list_omap].
  destruct (split_once "=" x) as [[n v]|] eqn:E; [|done]. cbn [fmap list_fmap fst snd]. unfold session_cookie in *.
  rewrite filter_cons_False; [done|]. cbn [fst]. by eapply Hx.
Qed.
Lemma sends_session t headers :
  all_bytes is_ascii_alphanumeric t = true → sends_cookie (COOKIE_NAME +:+ "=" +:+ t +:+ COOKIE_ATTRIBUTES) headers →
  session_cookie (cookies headers) = Some t.
Proof using Type.
  intros Ht (before & space & pair & after & value & Hp & Hs & Hc & Hto & -> & Hno & Hb).
  assert (has_char ";" t = false) as Hsemi by (by apply (all_bytes_no_char is_ascii_alphanumeric)).
  rewrite set_cookie_pair in Hp by done. injection Hp as <-.
  unfold cookies. rewrite Hc. cbn [omap list_omap]. rewrite Hto. cbn [fmap list_fmap concat]. rewrite app_nil_r.
  rewrite split_join; [|by destruct before|].
  - rewrite omap_app, fmap_app, session_cookie_app, session_none by done.
    change ((space +:+ ?p) :: after) with ([space +:+ p] ++ after).
    by rewrite omap_app, fmap_app, session_cookie_app, session_pair.
  - apply Forall_app in Hno as [Hb' Ha']. rewrite Forall_app, Forall_cons. split; [done|]. split; [|done].
    rewrite !has_char_app, Hsemi. by apply elem_of_cons in Hs as [->| ->%list_elem_of_singleton].
Qed.

(** the login hands over the token: opening the printed address is answered with a redirect to
    the same path without the token and with a cookie, and whatever the browser then asks for with
    that cookie, among cookies of other names, reaches the program, as long as it does not come
    from another page. *)
Theorem login_opens_session g app r t :
  token_wf (token g) → (∀ s, all_bytes (byte_in 32 126) s = true → from_str s = Some s) →
  own_host g (request_headers r) → reads (method r) → query_token (uri r) = Some t → spells t (token g) →
  all_bytes (byte_in 32 126) (path (uri r)) = true →
  let answer := secured encode app (Some g) r in
  status answer = SEE_OTHER ∧ get_all "location" (response_headers answer) = [path (uri r)]
  ∧ ∃ cookie, get_all "set-cookie" (response_headers answer) = [cookie] ∧
    ∀ r', sends_cookie cookie (request_headers r') → own_host g (request_headers r') → query_token (uri r') = None →
      (upgrades (request_headers r') → same_site g (request_headers r')) →
      (¬ reads (method r') → not_foreign g (request_headers r')) →
      secured encode app (Some g) r' = security_headers (app r').
Proof using Type.
  intros Hg Hlaw Hh Hm Hq Hs Hp.
  assert (all_bytes is_ascii_alphanumeric t = true) as Ht by (by eapply spells_alphanumeric; [apply Hg|]).
  destruct (gate_exact g app r Hg) as (_ & Hlogin & _). cbn zeta. rewrite (Hlogin t).
  2: { split_and!; try done. unfold logged_in. by rewrite Hq. }
  destruct (security_headers_hardened (bootstrap_response (path (uri r)) t)) as (_ & -> & Hget); [done|].
  rewrite !Hget by (rewrite !not_elem_of_cons; split_and!; try done; apply not_elem_of_nil).
  unfold bootstrap_response. rewrite !Hlaw; [|done|].
  2: { assert (∀ a, is_ascii_alphanumeric a = true → byte_in 32 126 a = true) as Hb by by_bytes.
       by rewrite !all_bytes_app, (all_bytes_impl _ _ _ Hb Ht). }
  cbn [status response_headers]. rewrite !get_all_insert. split; [done|]. split; [done|].
  eexists. split; [done|]. intros r' Hc Hh' Hq' Hup Hfor.
  destruct (gate_exact g app r' Hg) as (Hpass & _). apply Hpass. split_and!; try done.
  - unfold logged_in. rewrite Hq'. left. exists t. split; [|done]. by apply sends_session.
  - rewrite Hq'. by intros [].
Qed.
End properties.

Lemma ldiff_clear a u : Z.land u a = 0 → Z.ldiff a u = a.
Proof.
  intros Hu. apply Z.bits_inj'. intros n _. rewrite Z.ldiff_spec. assert (Z.testbit (Z.land u a) n = false) as E by (by rewrite Hu, Z.bits_0).
  rewrite Z.land_spec in E. by destruct (Z.testbit a n), (Z.testbit u n).
Qed.
Lemma trim_line s : is_empty s = false → all_bytes is_ascii_graphic s = true → trim (s +:+ one LF) = s.
Proof.
  intros Hne Hs. unfold trim. destruct s as [|a s]; [done|]. rewrite app_cons.
  pose proof Hs as [Ha _]%andb_true_iff. rewrite trim_start_graphic by done. rewrite <- app_cons. clear Hne Ha.
  revert Hs. generalize (String a s). clear. intros s. induction s as [|a s IH]; [done|].
  intros [Ha Hs]%andb_true_iff. rewrite app_cons. cbn [trim_end]. rewrite trim_start_graphic by done. cbn [is_empty String.eqb].
  by rewrite IH.
Qed.
Lemma token_line t : token_wf t → from_hex (trim (to_hex t +:+ one LF)) = Ok t.
Proof.
  intros [Hl Ht]. destruct (to_hex_spells t Ht) as [Hs Ha]. rewrite trim_line.
  - unfold from_hex. by rewrite (proj2 (parse_hex_spells t (to_hex t) (conj Hl Ht)) Hs).
  - destruct t; [discriminate|done].
  - apply (all_bytes_impl is_ascii_alphanumeric); [by_bytes|done].
Qed.

(** C25: a token file keeps the token and its secrecy, for a process that runs as the user with a umask
    that takes no permission from the owner: whenever the call returns a token, whether it
    read the file or made it, there is a regular file of the user's own that nobody else may read
    or write, the token is 32 bytes, and every later call that the kernel lets through returns
    that same token and changes nothing. *)
Theorem token_file_keeps_token (first later : TokenHost) path uid f t f' :
  euid (TokenHost := first) = uid → Z.land (umask (TokenHost := first)) 384 = 0 →
  (∀ bytes, urandom_read (TokenHost := first) = Ok bytes → token_wf bytes) →
  open_error (TokenHost := later) = None → metadata_error (TokenHost := later) = None →
  (∀ text, read_error (TokenHost := later) text = None) →
  load_or_create_token_file (H := first) path uid f = (Ok t, f') →
  token_wf t ∧ (∃ file, f' = Some file ∧ is_file file = true ∧ owner file = uid ∧ Z.land (mode file) 4095 = 384)
  ∧ load_or_create_token_file (H := later) path uid f' = (Ok t, f').
Proof.
  intros Hu Hmask Hrandom Ho Hm Hr. unfold load_or_create_token_file at 1. unfold mbind at 1, M_bind at 1, M_get at 1. cbn -[Z.ldiff].
  destruct (open_error (TokenHost := first)) as [e|]; [done|]. destruct f as [file|].
  - destruct (metadata_error (TokenHost := first)) as [e|]; [done|].
    destruct (negb (is_file file) || negb (owner file =? uid) || negb (Z.land (mode file) 4095 =? 384)) eqn:Hsafe; [done|].
    destruct (read_error (TokenHost := first) (contents file)) as [e|]; [done|]. intros [= Ht <-].
    assert (token_wf t) as Hw.
    { unfold from_hex in Ht. apply ok_or_Ok in Ht. by eapply parse_hex_wf. }
    pose proof Hsafe as Hsafe'. rewrite !orb_false_iff, !negb_false_iff, !Z.eqb_eq in Hsafe'.
    split; [done|]. split; [exists file; naive_solver|].
    unfold load_or_create_token_file, mbind, M_bind, M_get. rewrite Ho, Hm, Hsafe, Hr. unfold M_lift. by rewrite Ht.
  - unfold M_lift. destruct (generate (H := first)) as [t0|e] eqn:Hgen; [|done].
    unfold create_new, write_text, M_fail, M_put. rewrite (ldiff_clear 384) by done. destruct (create_error (TokenHost := first)) as [e|]; [done|]. cbn -[Z.ldiff].
    destruct (write_fault (TokenHost := first)) as [[n e]|]; [done|]. intros [= <- <-].
    assert (token_wf t0) as Hw.
    { apply Hrandom. unfold generate in Hgen. destruct (urandom_open_error (TokenHost := first)); [done|].
      by apply map_err_Ok in Hgen. }
    split; [done|]. rewrite Hu. split; [eexists; split; [done|]; done|].
    unfold load_or_create_token_file, mbind, M_bind, M_get. rewrite Ho, Hm. cbn [is_file owner mode contents].
    rewrite Z.eqb_refl. cbn [negb orb]. change (Z.land 384 4095 =? 384) with true. cbn [negb]. rewrite Hr. unfold M_lift.
    by rewrite token_line.
Qed.

(** ** The theorems at concrete inputs *)

Definition visible (s : string) : option string := if all_bytes (byte_in 32 126) s then Some s else None.
#[local] Instance demo_text : HeaderText := {| to_str := visible; from_str := visible |}.
Lemma visible_text v t : to_str v = Some t → t = v.
Proof. cbn. unfold visible. case_match; congruence. Qed.
Lemma visible_from s : all_bytes (byte_in 32 126) s = true → from_str s = Some s.
Proof. cbn. unfold visible. by intros ->. Qed.
Definition demo_token : SessionToken := Z.of_nat <$> seq 160 32.
Definition demo_gate : LoopbackGate := {| token := demo_token; port := 7878 |}.
Lemma demo_token_wf : token_wf (token demo_gate).
Proof. split; [done|]. by apply (bool_decide_unpack (Forall (λ b, 0 ≤ b ≤ 255) demo_token)). Qed.
Definition demo_host : string * string := ("host", "127.0.0.1:7878").
Definition demo_app (r : Request) : Response :=
  {| status := OK; response_headers := []; response_body := method r; extension := None |}.
Lemma demo_own_host l : own_host demo_gate (demo_host :: l).
Proof. exists "127.0.0.1". split; [apply elem_of_cons; by left|]. unfold get. by rewrite get_all_cons. Qed.
Lemma within_length s t : within s t → (String.length s ≤ String.length t)%nat.
Proof. intros (a & b & ->). rewrite !length_app_str. lia. Qed.

Lemma gate_exact_witness :
  let r := {| method := "POST"; uri := {| path := "/v1/machines"; query := None |};
              request_headers := [demo_host; ("authorization", "bearer  " +:+ to_hex demo_token)] |} in
  secured (λ _, None) demo_app (Some demo_gate) r = security_headers (demo_app r).
Proof.
  destruct (gate_exact (λ _, None) demo_gate demo_app
    {| method := "POST"; uri := {| path := "/v1/machines"; query := None |};
       request_headers := [demo_host; ("authorization", "bearer  " +:+ to_hex demo_token)] |} demo_token_wf) as [Hpass _].
  apply Hpass. split; [apply demo_own_host|]. split.
  - right. exists "bearer", (" " +:+ to_hex demo_token). split_and!; try reflexivity; by vm_compute.
  - split; [by intros []|]. split; [by intros Hu%upgrades_exact|]. by intros _ origin.
Defined.
Lemma token_required_witness :
  let r := {| method := "GET"; uri := {| path := "/"; query := Some "token=a0a1" |}; request_headers := [demo_host] |} in
  status (secured (λ _, None) demo_app (Some demo_gate) r) = UNAUTHORIZED
  ∧ hardened CONTENT_SECURITY_POLICY (secured (λ _, None) demo_app (Some demo_gate) r).
Proof.
  destruct (token_required (λ _, None) demo_gate demo_app demo_app
    {| method := "GET"; uri := {| path := "/"; query := Some "token=a0a1" |}; request_headers := [demo_host] |}
    demo_token_wf visible_text) as (_ & Hh & _); [|by split].
  intros s Hs Hc. assert (String.length s = 64%nat) as Hlen.
  { rewrite <- length_lowercase. rewrite Hs. reflexivity. }
  destruct Hc as [(n & v & [= -> ->]%list_elem_of_singleton & Hw)|(q & [= <-] & Hw)]; apply within_length in Hw;
    rewrite Hlen in Hw; cbn in Hw; lia.
Defined.
Lemma login_opens_session_witness :
  let r := {| method := "GET"; uri := {| path := "/machines"; query := Some ("a=b&token=" +:+ to_hex demo_token) |};
              request_headers := [demo_host] |} in
  status (secured (λ _, None) demo_app (Some demo_gate) r) = SEE_OTHER
  ∧ get_all "location" (response_headers (secured (λ _, None) demo_app (Some demo_gate) r)) = ["/machines"].
Proof.
  destruct (login_opens_session (λ _, None) demo_gate demo_app
    {| method := "GET"; uri := {| path := "/machines"; query := Some ("a=b&token=" +:+ to_hex demo_token) |};
       request_headers := [demo_host] |} (to_hex demo_token) demo_token_wf visible_from) as (Hs & Hl & _); [..|by split].
  - apply demo_own_host.
  - by left.
  - by vm_compute.
  - by apply to_hex_spells, demo_token_wf.
  - by vm_compute.
Defined.
Definition quiet_host : TokenHost := {|
  open_error := None; metadata_error := None; read_error := λ _, None; urandom_open_error := None;
  urandom_read := Ok demo_token; create_error := None; euid := 1000; umask := 18; write_fault := None |}.
Lemma token_file_keeps_token_witness :
  ∃ f, load_or_create_token_file (H := quiet_host) "/run/token" 1000 None = (Ok demo_token, f)
    ∧ load_or_create_token_file (H := quiet_host) "/run/token" 1000 f = (Ok demo_token, f).
Proof.
  eexists. split; [by vm_compute|].
  refine (proj2 (proj2 (token_file_keeps_token quiet_host quiet_host "/run/token" 1000 None demo_token _
    eq_refl eq_refl _ eq_refl eq_refl (λ _, eq_refl) _))); [|by vm_compute].
  intros bytes [= <-]. apply demo_token_wf.
Defined.
