(* ===== verification/Console.v ===== *)
(** The machine console ([firestone-core/src/console.rs]): the relay between a user's terminal
    and the broker's socket, and the broker that owns the guest's terminal, records everything the
    guest prints and serves one client at a time.  What the kernel answers in one turn of a loop,
    readiness, the bytes a read returns, how much a write takes, every failure, is a record; a run
    is a list of such turns. *)
From S2P Require Import Prelude RustStr Errors.
Open Scope Z_scope.

Definition CONSOLE_BUFFER_BYTES : Z := 16 * 1024.
Definition MAX_PENDING_CLIENT_OUTPUT : Z := 1024 * 1024.
Definition CONSOLE_REPLY_MAX_BYTES : Z := 32.
Definition CONSOLE_OK : list Z := [79; 75; 10].
Definition CONSOLE_BUSY : list Z := [66; 85; 83; 89; 10].
(** Ctrl-]. *)
Definition DETACH : Z := 29.

Inductive ConsoleAck : Set := Ready | Busy_ | Invalid.
Definition classify (reply : list Z) : ConsoleAck :=
  if bool_decide (reply = CONSOLE_OK) then Ready
  else if bool_decide (reply = CONSOLE_BUSY) then Busy_
  else Invalid.

Definition console_invalid_ack (name : string) : FirestoneError :=
  with_hint (error_new Conflict ("machine `" +:+ name +:+ "` console broker returned an invalid acknowledgement"))
    "restart the machine to replace the stale console broker".
Definition console_io_error (name phase : string) (source : IoError) : FirestoneError :=
  with_source (with_hint (error_new Generic ("cannot " +:+ phase +:+ " for machine `" +:+ name +:+ "`"))
    "retry the console connection; if it fails again, inspect the machine shim and console logs") (io_text source).
Definition console_not_running (name path : string) (source : IoError) : FirestoneError :=
  with_source (with_hint (error_new NotRunning ("machine `" +:+ name +:+ "` console is unavailable at '" +:+ path +:+ "'"))
    ("start the machine with `firestone start " +:+ name +:+ "` and retry")) (io_text source).
Definition console_closed (source : IoError) : bool :=
  match io_kind source with
  | IoBrokenPipe | IoConnectionAborted | IoConnectionReset | IoNotConnected => true
  | _ => false
  end.
Definition would_block (source : IoError) : bool := bool_decide (io_kind source = IoWouldBlock).

(** ** The handshake

    What reading the socket a byte at a time answers, in order: a failure, or the next byte; the
    end of the list is the end of the stream. *)
Fixpoint reply_loop (name : string) (fuel : nat) (reads : list (result IoError Z)) (reply : list Z)
    : result FirestoneError (list Z) :=
  match fuel, reads with
  | O, _ | _, [] => Ok reply
  | S fuel, Err source :: _ => Err (console_io_error name "read the console broker acknowledgement" source)
  | S fuel, Ok byte :: reads =>
      if byte =? 10 then Ok (reply ++ [byte]) else reply_loop name fuel reads (reply ++ [byte])
  end.
Definition read_reply (name : string) (reads : list (result IoError Z)) : result FirestoneError (list Z) :=
  reply_loop name (Z.to_nat CONSOLE_REPLY_MAX_BYTES) reads [].
(** The failures of the calls that configure the stream. *)
Record ConnectCalls : Set := {
  connect_error : option IoError; set_timeout_errors : list (option IoError);
  reads : list (result IoError Z); clear_timeout_errors : list (option IoError); nonblocking_error : option IoError }.
Definition first_failure (name phase : string) (errors : list (option IoError)) : result FirestoneError () :=
  fold_result (λ _ e, match e with Some source => Err (console_io_error name phase source) | None => Ok () end) () errors.
Definition connect (name socket : string) (calls : ConnectCalls) : result FirestoneError () :=
  match connect_error calls with
  | Some source => Err (console_not_running name socket source)
  | None =>
      first_failure name "set the console handshake timeout" (set_timeout_errors calls);;
      reply ← read_reply name (reads calls);
      (if bool_decide (reply = CONSOLE_OK) then Ok ()
       else if bool_decide (reply = CONSOLE_BUSY)
       then Err (with_hint (error_new Busy ("machine `" +:+ name +:+ "` console already has an attached client"))
              "detach the other console with Ctrl-] and retry")
       else Err (console_invalid_ack name));;
      first_failure name "clear the console handshake timeout" (clear_timeout_errors calls);;
      first_failure name "make the console connection nonblocking" [nonblocking_error calls]
  end.

(** ** Buffers being written

    Bytes with the offset up to which they were written ([pending] and [pending_offset]). *)
Record Pending : Set := { bytes : list Z; offset : nat }.
Definition empty_pending : Pending := {| bytes := []; offset := 0 |}.
Definition unsent (p : Pending) : list Z := drop (offset p) (bytes p).
Definition has_unsent (p : Pending) : bool := (offset p <? length (bytes p))%nat.
(** The offset after a write that took [n] bytes; a buffer that was written in full is cleared. *)
Definition written (n : nat) (p : Pending) : Pending := {| bytes := bytes p; offset := offset p + n |}.
Definition clear_if_done (p : Pending) : Pending :=
  if (offset p =? length (bytes p))%nat then empty_pending else p.
Definition extend (data : list Z) (p : Pending) : Pending := {| bytes := bytes p ++ data; offset := offset p |}.

(** What [poll] found ready on a descriptor. *)
Record Events : Set := { pollin : bool; pollout : bool; pollhup : bool; pollerr : bool }.
Definition no_events : Events := {| pollin := false; pollout := false; pollhup := false; pollerr := false |}.
Definition broken (e : Events) : bool := pollhup e || pollerr e.

(** ** The relay *)

Inductive ConsoleResult : Set := Detached | Disconnected.
(** What [poll], the reads and the writes of one turn answer.  A read answers a chunk, empty at
    the end of its stream; a write, how many bytes it would take. *)
Record RelayTurn : Set := {
  cancelled : bool; cancelled_later : bool;
  polled : result IoError (Events * Events);
  pending_write : result IoError nat;
  input_read : result IoError (list Z);
  flush_writes : nat → result IoError nat;
  socket_read : result IoError (list Z);
  output_error : option (nat * IoError) }.
(** The loop's buffer, and all that has passed so far: read from the terminal, written to the
    socket, read from it, and shown. *)
Record Relay : Set := { pending : Pending; typed : list Z; sent : list Z; received : list Z; shown : list Z }.
Definition relay_start : Relay := {| pending := empty_pending; typed := []; sent := []; received := []; shown := [] |}.
Definition set_pending (p : Pending) (w : Relay) : Relay :=
  {| pending := p; typed := typed w; sent := sent w; received := received w; shown := shown w |}.
Definition add_typed (data : list Z) (w : Relay) : Relay :=
  {| pending := pending w; typed := typed w ++ data; sent := sent w; received := received w; shown := shown w |}.
Definition add_sent (data : list Z) (w : Relay) : Relay :=
  {| pending := pending w; typed := typed w; sent := sent w ++ data; received := received w; shown := shown w |}.
Definition add_received (data : list Z) (w : Relay) : Relay :=
  {| pending := pending w; typed := typed w; sent := sent w; received := received w ++ data; shown := shown w |}.
Definition add_shown (data : list Z) (w : Relay) : Relay :=
  {| pending := pending w; typed := typed w; sent := sent w; received := received w; shown := shown w ++ data |}.

Definition modify {S E} (f : S → S) : M S E () := λ s, (Ok (), f s).
(** A part of a turn that may end the loop. *)
Definition then_ {S E A} (m : M S E (option A)) (k : M S E (option A)) : M S E (option A) :=
  r ← m; match r with Some a => mret (Some a) | None => k end.

Section relay.
Context (name : string).
Local Abbreviation Act := (M Relay FirestoneError).
Local Abbreviation fail phase source := (M_fail (console_io_error name phase source)).

(** [stream.write(&pending[offset..])] took [n] bytes. *)
Definition take_pending (n : nat) : Act () :=
  modify (λ w, let n := Nat.min n (length (unsent (pending w))) in
    set_pending (written n (pending w)) (add_sent (take n (unsent (pending w))) w)).
Fixpoint flush_loop (fuel : nat) (answers : nat → result IoError nat) (i : nat) : Act () :=
  match fuel with
  | O => mret ()
  | S fuel =>
      w ← M_get;
      if negb (has_unsent (pending w)) then mret ()
      else match answers i with
        | Ok O => mret ()
        | Ok n => take_pending n;; flush_loop fuel answers (S i)
        | Err source =>
            if would_block source then mret ()
            else if console_closed source then mret ()
            else fail "write console input" source
        end
  end.
(** Each write takes at least one byte, so there are at most as many as there are bytes. *)
Definition flush_pending (answers : nat → result IoError nat) : Act () :=
  w ← M_get; flush_loop (length (unsent (pending w))) answers 0.
Definition write_pending (t : RelayTurn) (socket_events : Events) : Act (option ConsoleResult) :=
  w ← M_get;
  if pollout socket_events && has_unsent (pending w)
  then match pending_write t with
       | Ok O => mret (Some Disconnected)
       | Ok n => take_pending n;; modify (λ w, set_pending (clear_if_done (pending w)) w);; mret None
       | Err source =>
           if would_block source then mret None
           else if console_closed source then mret (Some Disconnected)
           else fail "write console input" source
       end
  else mret None.
Definition read_input (t : RelayTurn) (input_events : Events) : Act (option ConsoleResult) :=
  w ← M_get;
  if pollin input_events && (offset (pending w) =? length (bytes (pending w)))%nat
  then match input_read t with
       | Err source => fail "read terminal input" source
       | Ok [] => mret (Some Detached)
       | Ok data =>
           modify (add_typed data);;
           match list_find (λ byte, byte = DETACH) data with
           | Some (escape, _) =>
               (if (0 <? escape)%nat
                then modify (λ w, set_pending (extend (take escape data) (pending w)) w);; flush_pending (flush_writes t)
                else mret ());;
               mret (Some Detached)
           | None =>
               modify (λ w, set_pending (extend data (pending w)) w);;
               flush_pending (flush_writes t);;
               modify (λ w, set_pending (clear_if_done (pending w)) w);;
               mret None
           end
       end
  else mret None.
Definition show_output (t : RelayTurn) (socket_events : Events) : Act (option ConsoleResult) :=
  if pollin socket_events
  then match socket_read t with
       | Ok [] => mret (Some Disconnected)
       | Ok data =>
           modify (add_received data);;
           match output_error t with
           | None => modify (add_shown data);; mret None
           | Some (n, source) => modify (add_shown (take n data));; fail "write console output" source
           end
       | Err source =>
           if would_block source then mret None
           else if console_closed source then mret (Some Disconnected)
           else fail "read console output" source
       end
  else mret None.
Definition relay_turn (t : RelayTurn) : Act (option ConsoleResult) :=
  if cancelled t then
    M_fail (error_new Interrupted ("console attachment for machine `" +:+ name +:+ "` was interrupted"))
  else match polled t with
  | Err source =>
      if bool_decide (io_kind source = IoInterrupted) && cancelled_later t
      then M_fail (error_new Interrupted ("console attachment for machine " +:+ name +:+ " was interrupted"))
      else fail "poll the terminal and console socket" source
  | Ok (input_events, socket_events) =>
      then_ (write_pending t socket_events)
        (then_ (read_input t input_events)
           (then_ (show_output t socket_events)
              (mret (if broken socket_events then Some Disconnected else None))))
  end.
(** A run of as many turns as there are answers; [None] while the loop goes on. *)
Fixpoint relay_console (turns : list RelayTurn) : Act (option ConsoleResult) :=
  match turns with
  | [] => mret None
  | t :: turns => then_ (relay_turn t) (relay_console turns)
  end.
End relay.

(** ** The broker *)

(** A client's connection: what it was sent, the acknowledgement included, what was read from it,
    and how much the guest had printed when it attached. *)
Record Client : Set := { got : list Z; gave : list Z; since : nat }.
(** One connection waiting at the listener: the failures of the calls that follow its acceptance,
    and how much of the acknowledgement is written when that fails. *)
Record Arrival : Set := {
  bound_error : option IoError; ack_fault : option (nat * IoError);
  unbound_error : option IoError; client_nonblocking_error : option IoError }.
Record BrokerTurn : Set := {
  stopped : bool;
  broker_polled : result IoError (Events * Events * Events);
  arrivals : list Arrival; accept_error : option IoError;
  pty_write : result IoError nat;
  client_write : result IoError nat;
  pty_read : result IoError (list Z);
  log_error : option (nat * IoError);
  client_read : result IoError (list Z) }.
(** The loop's variables, and all that has passed so far: read from the guest's terminal, written
    to it, read from clients, logged, and the clients that are gone. *)
Record Broker : Set := {
  active : option Client; guest_input : Pending; client_output : Pending;
  printed : list Z; to_guest : list Z; from_clients : list Z; log : list Z; gone : list Client }.
Definition broker_start : Broker := {|
  active := None; guest_input := empty_pending; client_output := empty_pending;
  printed := []; to_guest := []; from_clients := []; log := []; gone := [] |}.
Definition set_active (c : option Client) (w : Broker) : Broker :=
  {| active := c; guest_input := guest_input w; client_output := client_output w; printed := printed w;
     to_guest := to_guest w; from_clients := from_clients w; log := log w; gone := gone w |}.
Definition set_guest_input (p : Pending) (w : Broker) : Broker :=
  {| active := active w; guest_input := p; client_output := client_output w; printed := printed w;
     to_guest := to_guest w; from_clients := from_clients w; log := log w; gone := gone w |}.
Definition set_client_output (p : Pending) (w : Broker) : Broker :=
  {| active := active w; guest_input := guest_input w; client_output := p; printed := printed w;
     to_guest := to_guest w; from_clients := from_clients w; log := log w; gone := gone w |}.
Definition add_printed (data : list Z) (w : Broker) : Broker :=
  {| active := active w; guest_input := guest_input w; client_output := client_output w; printed := printed w ++ data;
     to_guest := to_guest w; from_clients := from_clients w; log := log w; gone := gone w |}.
Definition add_to_guest (data : list Z) (w : Broker) : Broker :=
  {| active := active w; guest_input := guest_input w; client_output := client_output w; printed := printed w;
     to_guest := to_guest w ++ data; from_clients := from_clients w; log := log w; gone := gone w |}.
Definition add_from_clients (data : list Z) (w : Broker) : Broker :=
  {| active := active w; guest_input := guest_input w; client_output := client_output w; printed := printed w;
     to_guest := to_guest w; from_clients := from_clients w ++ data; log := log w; gone := gone w |}.
Definition add_log (data : list Z) (w : Broker) : Broker :=
  {| active := active w; guest_input := guest_input w; client_output := client_output w; printed := printed w;
     to_guest := to_guest w; from_clients := from_clients w; log := log w ++ data; gone := gone w |}.
Definition add_gone (c : Client) (w : Broker) : Broker :=
  {| active := active w; guest_input := guest_input w; client_output := client_output w; printed := printed w;
     to_guest := to_guest w; from_clients := from_clients w; log := log w; gone := gone w ++ [c] |}.
(** [active = None]: the client's connection is closed. *)
Definition detach (w : Broker) : Broker :=
  match active w with Some c => set_active None (add_gone c w) | None => w end.
Definition client_sent (data : list Z) (c : Client) : Client :=
  {| got := got c ++ data; gave := gave c; since := since c |}.
Definition client_gave (data : list Z) (c : Client) : Client :=
  {| got := got c; gave := gave c ++ data; since := since c |}.

Section broker.
Context (raw_os_error : IoError → option Z) (name : string).
Local Abbreviation Act := (M Broker FirestoneError).
Local Abbreviation fail phase source := (M_fail (console_io_error name phase source)).
Definition EIO : Z := 5.

Definition accept_client (a : Arrival) : Act () :=
  match bound_error a with
  | Some source => fail "bound a console acknowledgement" source
  | None =>
      w ← M_get;
      match active w with
      | Some _ =>
          (** [let _ = client.write_all(CONSOLE_BUSY)]: the connection is dropped either way. *)
          modify (add_gone {| got := match ack_fault a with Some (n, _) => take n CONSOLE_BUSY | None => CONSOLE_BUSY end;
                              gave := []; since := length (printed w) |})
      | None =>
          match ack_fault a with
          | Some (_, source) => fail "acknowledge a console client" source
          | None =>
              match unbound_error a, client_nonblocking_error a with
              | Some source, _ => fail "clear the console acknowledgement timeout" source
              | None, Some source => fail "make a console client nonblocking" source
              | None, None => modify (set_active (Some {| got := CONSOLE_OK; gave := []; since := length (printed w) |}))
              end
          end
      end
  end.
Fixpoint accept_loop (waiting : list Arrival) (last : option IoError) : Act () :=
  match waiting with
  | [] => match last with Some source => fail "accept a console client" source | None => mret () end
  | a :: waiting => accept_client a;; accept_loop waiting last
  end.
Definition accept_clients (t : BrokerTurn) : Act () := accept_loop (arrivals t) (accept_error t).
Definition write_guest (t : BrokerTurn) (pty_events : Events) : Act () :=
  w ← M_get;
  if pollout pty_events && has_unsent (guest_input w)
  then match pty_write t with
       | Ok O => mret ()
       | Ok n => modify (λ w, let n := Nat.min n (length (unsent (guest_input w))) in
           set_guest_input (clear_if_done (written n (guest_input w))) (add_to_guest (take n (unsent (guest_input w))) w))
       | Err source => if would_block source then mret () else fail "write the console PTY" source
       end
  else mret ().
Definition write_client (t : BrokerTurn) (client_events : Events) : Act () :=
  w ← M_get;
  if pollout client_events && has_unsent (client_output w)
  then match active w with
       | None => mret ()
       | Some c =>
           match client_write t with
           | Ok O => modify detach
           | Ok n => modify (λ w, let n := Nat.min n (length (unsent (client_output w))) in
               set_client_output (clear_if_done (written n (client_output w)))
                 (set_active (Some (client_sent (take n (unsent (client_output w))) c)) w))
           | Err source =>
               if would_block source then mret ()
               else if console_closed source then modify detach
               else fail "relay PTY output to the console client" source
           end
       end
  else mret ().
(** The staged output for the client: what was written is dropped, and a client that has fallen
    too far behind is dropped too. *)
Definition stage_output (data : list Z) (w : Broker) : Broker :=
  match active w with
  | None => w
  | Some _ =>
      let staged := if (0 <? offset (client_output w))%nat
        then {| bytes := unsent (client_output w); offset := 0 |} else client_output w in
      if MAX_PENDING_CLIENT_OUTPUT <? Z.of_nat (length (bytes staged)) + Z.of_nat (length data)
      then set_client_output {| bytes := []; offset := offset staged |} (detach w)
      else set_client_output (extend data staged) w
  end.
Definition read_guest (t : BrokerTurn) (pty_events : Events) : Act () :=
  if pollin pty_events
  then match pty_read t with
       | Ok [] => mret ()
       | Ok data =>
           modify (add_printed data);;
           match log_error t with
           | Some (n, source) => modify (add_log (take n data));; fail "append PTY output to its staging log" source
           | None => modify (add_log data);; modify (stage_output data)
           end
       | Err source =>
           if would_block source then mret ()
           else if bool_decide (raw_os_error source = Some EIO) then mret ()
           else fail "read the console PTY" source
       end
  else mret ().
Definition read_client (t : BrokerTurn) (client_events : Events) : Act () :=
  w ← M_get;
  if pollin client_events && (offset (guest_input w) =? length (bytes (guest_input w)))%nat
  then match active w with
       | None => mret ()
       | Some c =>
           match client_read t with
           | Ok [] => modify detach
           | Ok data => modify (λ w, add_from_clients data
               (set_guest_input (extend data (guest_input w)) (set_active (Some (client_gave data c)) w)))
           | Err source =>
               if would_block source then mret ()
               else if console_closed source then modify detach
               else fail "read input from the console client" source
           end
       end
  else mret ().
(** One turn of the loop; [Some] when it was told to stop. *)
Definition broker_turn (t : BrokerTurn) : Act (option ()) :=
  if stopped t then mret (Some ()) else
  w ← M_get;
  (if bool_decide (active w = None) then modify (set_client_output empty_pending) else mret ());;
  match broker_polled t with
  | Err source => fail "poll the console broker" source
  | Ok (listener_events, pty_events, client_ready) =>
      let client_events := if bool_decide (active w = None) then no_events else client_ready in
      (if pollin listener_events then accept_clients t else mret ());;
      write_guest t pty_events;;
      write_client t client_events;;
      read_guest t pty_events;;
      read_client t client_events;;
      (if broken client_events then modify (λ w, set_client_output empty_pending (detach w)) else mret ());;
      mret None
  end.
Fixpoint broker_loop (turns : list BrokerTurn) : Act (option ()) :=
  match turns with
  | [] => mret None
  | t :: turns => then_ (broker_turn t) (broker_loop turns)
  end.
End broker.
