(* ===== verification/ConsoleSpec.v ===== *)
(** What the console's two loops guarantee ([Console]): the relay forwards exactly what was typed
    before Ctrl-] and shows exactly what arrived; the broker records everything the guest printed
    and gives each client, one at a time, all of it from the moment it attached. *)
From S2P Require Import Prelude RustStr Errors Clock Console.
Open Scope Z_scope.

Lemma wp_modify {W E} (f : W → W) (Q : result E () → W → Prop) w : Q (Ok ()) (f w) → wp (modify f) Q w.
Proof. done. Qed.
Lemma wp_get {W E} (Q : result E W → W → Prop) w : Q (Ok w) w → wp M_get Q w.
Proof. done. Qed.
Lemma wp_io_fail {W E A} (e : E) (Q : result E A → W → Prop) w : Q (Err e) w → wp (M_fail e) Q w.
Proof. done. Qed.
Lemma wp_then {W E A} (m k : M W E (option A)) (Q : result E (option A) → W → Prop) w :
  wp m (λ r w', match r with Ok None => wp k Q w' | _ => Q r w' end) w → wp (then_ m k) Q w.
Proof.
  intros Hm. apply wp_bind. eapply wp_mono; [exact Hm|]. by intros [[a|]|e] w'.
Qed.

(** ** Buffers *)

Definition pending_ok (p : Pending) : Prop := (offset p ≤ length (bytes p))%nat.
Lemma unsent_written n p : unsent (written n p) = drop n (unsent p).
Proof. unfold unsent, written. cbn. by rewrite drop_drop. Qed.
Lemma written_ok n p : pending_ok p → pending_ok (written (Nat.min n (length (unsent p))) p).
Proof. unfold pending_ok, written, unsent. cbn. rewrite length_drop. lia. Qed.
Lemma unsent_extend data p : pending_ok p → unsent (extend data p) = unsent p ++ data.
Proof. unfold unsent, extend. cbn. intros Hp. by rewrite drop_app_le. Qed.
Lemma extend_ok data p : pending_ok p → pending_ok (extend data p).
Proof. unfold pending_ok, extend. cbn. rewrite length_app. lia. Qed.
Lemma clear_if_done_unsent p : unsent (clear_if_done p) = unsent p.
Proof. unfold clear_if_done. case_match eqn:E; [|done]. apply Nat.eqb_eq in E. unfold unsent. by rewrite E, drop_all. Qed.
Lemma clear_if_done_ok p : pending_ok p → pending_ok (clear_if_done p).
Proof. unfold clear_if_done. case_match; [|done]. unfold pending_ok. cbn. lia. Qed.
Lemma nothing_unsent p : (offset p =? length (bytes p))%nat = true → unsent p = [].
Proof. intros E%Nat.eqb_eq. unfold unsent. by rewrite E, drop_all. Qed.

(** ** The relay *)

(** What a user typed before the first Ctrl-]. *)
Definition before_detach (l : list Z) : list Z :=
  match list_find (λ byte, byte = DETACH) l with Some (i, _) => take i l | None => l end.
(** Everything typed was sent or waits in the buffer, everything that arrived was shown. *)
Record relay_ok (w : Relay) : Prop := {
  relay_pending : pending_ok (pending w);
  relay_sent : sent w ++ unsent (pending w) = typed w;
  relay_typed : DETACH ∉ typed w;
  relay_shown : shown w = received w }.
(** A run that has ended. *)
Definition relay_ended {E} (r : result E (option ConsoleResult)) (w : Relay) : Prop :=
  sent w `prefix_of` before_detach (typed w) ∧ shown w `prefix_of` received w
  ∧ (∀ c, r = Ok c → shown w = received w)
  ∧ (DETACH ∈ typed w → r = Ok (Some Detached) ∨ ∃ e, r = Err e).
Definition relay_post {E} (r : result E (option ConsoleResult)) (w : Relay) : Prop :=
  match r with Ok None => relay_ok w | _ => relay_ended r w end.

Lemma before_detach_id l : DETACH ∉ l → before_detach l = l.
Proof.
  intros Hl. unfold before_detach. destruct (list_find _ l) as [[i x]|] eqn:E; [|done].
  apply list_find_Some in E as (Hi & -> & _). destruct Hl. by eapply list_elem_of_lookup_2.
Qed.
Lemma before_detach_app l data i x :
  DETACH ∉ l → list_find (λ byte, byte = DETACH) data = Some (i, x) → before_detach (l ++ data) = l ++ take i data.
Proof.
  intros Hl Hi. unfold before_detach. rewrite list_find_app_r, Hi; [|].
  - cbn. rewrite take_app_ge by lia. do 2 f_equal. lia.
  - apply list_find_None. rewrite Forall_forall. by intros y Hy ->.
Qed.
Lemma relay_ok_ended {E} (r : result E (option ConsoleResult)) w : relay_ok w → relay_ended r w.
Proof.
  intros [Hp Hs Ht Hsh]. unfold relay_ended. rewrite before_detach_id by done. split; [by exists (unsent (pending w))|].
  by rewrite Hsh.
Qed.
(** During a turn the bytes to be forwarded may run ahead of what is known to be typed. *)
Record half (x : list Z) (w0 w : Relay) : Prop := {
  half_pending : pending_ok (pending w);
  half_sent : sent w ++ unsent (pending w) = x;
  half_typed : typed w = typed w0;
  half_received : received w = received w0;
  half_shown : shown w = shown w0 }.

Ltac relay_simpl :=
  cbn [pending typed sent received shown set_pending add_typed add_sent add_received add_shown] in *.

Section relay.
Context (name : string).

Lemma half_take x w0 w n :
  half x w0 w →
  half x w0 (set_pending (written (Nat.min n (length (unsent (pending w)))) (pending w))
               (add_sent (take (Nat.min n (length (unsent (pending w)))) (unsent (pending w))) w)).
Proof using Type.
  intros [Hp Hs Ht Hr Hsh]. split; try done; cbn [set_pending add_sent pending sent].
  - by apply written_ok.
  - rewrite unsent_written, <- Hs. by rewrite <- app_assoc, take_drop.
Qed.
Lemma wp_flush_loop fuel answers i x w0 w :
  half x w0 w → wp (flush_loop name fuel answers i) (λ _ w', half x w0 w') w.
Proof using Type.
  revert i w. induction fuel as [|fuel IH]; intros i w Hw; cbn [flush_loop]; [by apply wp_ret|].
  apply wp_bind, wp_get. cbn beta iota. destruct (negb (has_unsent (pending w))); [by apply wp_ret|].
  destruct (answers i) as [[|n]|e].
  - by apply wp_ret.
  - apply wp_bind. apply wp_modify. apply IH. by apply half_take.
  - destruct (would_block e); [by apply wp_ret|]. destruct (console_closed e); [by apply wp_ret|by apply wp_io_fail].
Qed.
Lemma wp_write_pending t ev w : relay_ok w → wp (write_pending name t ev) relay_post w.
Proof using Type.
  intros Hw. unfold write_pending. apply wp_bind, wp_get. cbn beta iota. destruct (_ && _); [|by apply wp_ret].
  destruct (pending_write t) as [[|n]|e].
  - apply wp_ret. by apply relay_ok_ended.
  - do 2 apply wp_bind, wp_modify. apply wp_ret.
    pose proof (half_take (typed w) w w (S n)) as [Hp Hs Ht Hr Hsh].
    { destruct Hw. by split. }
    destruct Hw as [_ _ Hn Hshown]. split; cbn [pending set_pending sent add_sent typed shown received] in *; try done.
    + by apply clear_if_done_ok.
    + by rewrite clear_if_done_unsent.
  - destruct (would_block e); [by apply wp_ret|]. destruct (console_closed e); [apply wp_ret|apply wp_io_fail]; by apply relay_ok_ended.
Qed.
Lemma wp_read_input t ev w : relay_ok w → wp (read_input name t ev) relay_post w.
Proof using Type.
  intros Hw. unfold read_input. apply wp_bind, wp_get. cbn beta iota.
  destruct (pollin ev && _) eqn:E; [|by apply wp_ret]. apply andb_true_iff in E as [_ E].
  apply nothing_unsent in E. pose proof Hw as [Hp Hs Ht Hsh]. rewrite E, app_nil_r in Hs.
  destruct (input_read t) as [[|b data]|e].
  - apply wp_ret. by apply relay_ok_ended.
  - set (d := b :: data). apply wp_bind, wp_modify. destruct (list_find _ d) as [[i x]|] eqn:Hf.
    + assert (before_detach (typed w ++ d) = typed w ++ take i d) as Hbd by by eapply before_detach_app.
      assert (∀ r : result FirestoneError (option ConsoleResult), (r = Ok (Some Detached) ∨ ∃ e, r = Err e) →
        ∀ w', half (typed w ++ take i d) (add_typed d w) w' → relay_ended r w') as Hend.
      { intros r Hr w' [Hp' Hs' Ht' Hr' Hsh']. unfold relay_ended. rewrite Ht', Hr', Hsh'. relay_simpl. rewrite Hbd, <- Hs'.
        split; [by exists (unsent (pending w'))|]. rewrite Hsh. by repeat split. }
      apply wp_bind. destruct (0 <? i)%nat eqn:Hi.
      * apply wp_bind, wp_modify. unfold flush_pending. apply wp_bind, wp_get.
        eapply wp_mono; [apply (wp_flush_loop _ _ _ (typed w ++ take i d) (add_typed d w))|].
        -- split; relay_simpl; try done; [by apply extend_ok|]. by rewrite unsent_extend, E, Hs by done.
        -- intros [[]|e] w' Hh; [apply wp_ret|]; apply Hend; eauto.
      * apply wp_ret, wp_ret. apply Hend; [by left|]. apply Nat.ltb_ge in Hi. assert (i = 0%nat) as -> by lia.
        split; relay_simpl; try done. by rewrite E, Hs.
    + apply list_find_None in Hf. assert (DETACH ∉ d) as Hd by (intros Hd; rewrite Forall_forall in Hf; by eapply Hf).
      apply wp_bind, wp_modify. unfold flush_pending. do 2 apply wp_bind. apply wp_get.
      eapply wp_mono; [apply (wp_flush_loop _ _ _ (typed w ++ d) (add_typed d w))|].
      { split; relay_simpl; try done; [by apply extend_ok|]. by rewrite unsent_extend, E, Hs by done. }
      * intros [[]|e] w' [Hp' Hs' Ht' Hr' Hsh']; cbn in Ht', Hr', Hsh'.
        -- apply wp_bind, wp_modify, wp_ret. split; relay_simpl; rewrite ?Ht', ?Hr', ?Hsh'; try done.
           ++ by apply clear_if_done_ok.
           ++ by rewrite clear_if_done_unsent.
           ++ rewrite elem_of_app. tauto.
        -- unfold relay_post, relay_ended. rewrite Ht', Hr', Hsh'. rewrite before_detach_id by (rewrite elem_of_app; tauto).
           rewrite <- Hs'. split; [by exists (unsent (pending w'))|]. rewrite Hsh. split; [done|]. split; [done|]. eauto.
  - apply wp_io_fail. by apply relay_ok_ended.
Qed.
Lemma wp_show_output t ev w : relay_ok w → wp (show_output name t ev) relay_post w.
Proof using Type.
  intros Hw. unfold show_output. destruct (pollin ev); [|by apply wp_ret]. pose proof Hw as [Hp Hs Ht Hsh].
  destruct (socket_read t) as [[|b data]|e].
  - apply wp_ret. by apply relay_ok_ended.
  - apply wp_bind, wp_modify. destruct (output_error t) as [[n e]|].
    + apply wp_bind, wp_modify, wp_io_fail. unfold relay_post, relay_ended. cbn. rewrite before_detach_id by done. rewrite <- Hs.
      split; [by exists (unsent (pending w))|]. split; [rewrite Hsh; apply prefix_app, prefix_take|]. split; [done|eauto].
    + apply wp_bind, wp_modify, wp_ret. split; relay_simpl; try done. by rewrite Hsh.
  - destruct (would_block e); [by apply wp_ret|]. destruct (console_closed e); [apply wp_ret|apply wp_io_fail]; by apply relay_ok_ended.
Qed.
Lemma wp_then_relay (m k : M Relay FirestoneError (option ConsoleResult)) w :
  wp m relay_post w → (∀ w', relay_ok w' → wp k relay_post w') → wp (then_ m k) relay_post w.
Proof using Type.
  intros Hm Hk. apply wp_then. eapply wp_mono; [exact Hm|]. intros [[c|]|e] w' Hw'; [done|by apply Hk|done].
Qed.
Lemma wp_relay_turn t w : relay_ok w → wp (relay_turn name t) relay_post w.
Proof using Type.
  intros Hw. unfold relay_turn. destruct (cancelled t); [by apply wp_io_fail, relay_ok_ended|].
  destruct (polled t) as [[iev sev]|e]; [|destruct (_ && _); by apply wp_io_fail, relay_ok_ended].
  apply wp_then_relay; [by apply wp_write_pending|]. intros w1 H1.
  apply wp_then_relay; [by apply wp_read_input|]. intros w2 H2.
  apply wp_then_relay; [by apply wp_show_output|]. intros w3 H3.
  apply wp_ret. destruct (broken sev); [by apply relay_ok_ended|done].
Qed.
Lemma wp_relay_console turns w : relay_ok w → wp (relay_console name turns) relay_post w.
Proof using Type.
  revert w. induction turns as [|t turns IH]; intros w Hw; cbn [relay_console]; [by apply wp_ret|].
  apply wp_then_relay; [by apply wp_relay_turn|done].
Qed.
End relay.

(** ** The broker *)

(** What the guest printed since a client attached, after its acknowledgement. *)
Definition owed (printed : list Z) (c : Client) : list Z := CONSOLE_OK ++ drop (since c) printed.
(** A client got the beginning of that, or was turned away. *)
Definition fair (printed : list Z) (c : Client) : Prop :=
  got c `prefix_of` owed printed c ∨ gave c = [] ∧ got c `prefix_of` CONSOLE_BUSY.
Definition clients (w : Broker) : list Client := gone w ++ option_list (active w).
(** A buffer with nothing left to write is empty. *)
Definition settled (p : Pending) : Prop := p = empty_pending ∨ (offset p < length (bytes p))%nat.
Record broker_fair (w : Broker) : Prop := {
  fair_log : log w `prefix_of` printed w;
  fair_input : to_guest w `prefix_of` from_clients w;
  fair_order : from_clients w = concat (gave <$> clients w);
  fair_clients : Forall (fair (printed w)) (clients w) }.
Record broker_ok (w : Broker) : Prop := {
  ok_log : log w = printed w;
  ok_input : to_guest w ++ unsent (guest_input w) = from_clients w;
  ok_order : from_clients w = concat (gave <$> clients w);
  ok_gone : Forall (fair (printed w)) (gone w);
  ok_since : ∀ c, active w = Some c → (since c ≤ length (printed w))%nat;
  ok_active : ∀ c, active w = Some c → got c ++ unsent (client_output w) = owed (printed w) c;
  ok_settled : settled (guest_input w) ∧ pending_ok (client_output w);
  ok_bounds : Z.of_nat (length (bytes (guest_input w))) ≤ CONSOLE_BUFFER_BYTES
    ∧ Z.of_nat (length (bytes (client_output w))) ≤ MAX_PENDING_CLIENT_OUTPUT }.
(** Output staged for nobody is gone before a client is accepted. *)
Definition clean (w : Broker) : Prop := active w = None → client_output w = empty_pending.

Lemma settled_ok p : settled p → pending_ok p.
Proof. intros [->|Hp]; unfold pending_ok; [done|lia]. Qed.
Lemma settled_done p : settled p → (offset p =? length (bytes p))%nat = true → p = empty_pending.
Proof. intros [->|Hp] E%Nat.eqb_eq; [done|lia]. Qed.
Lemma settled_clear p : pending_ok p → settled (clear_if_done p).
Proof.
  unfold clear_if_done, pending_ok. destruct (_ =? _)%nat eqn:E; [by left|]. apply Nat.eqb_neq in E. right. lia.
Qed.
Lemma owed_more printed data c :
  (since c ≤ length printed)%nat → owed (printed ++ data) c = owed printed c ++ data.
Proof. intros Hc. unfold owed. by rewrite drop_app_le, app_assoc. Qed.
Lemma fair_more printed data c : fair printed c → fair (printed ++ data) c.
Proof.
  intros [Hc|Hc]; [left|by right]. etrans; [done|]. unfold owed. apply prefix_app.
  rewrite drop_app. by apply prefix_app_r.
Qed.
Lemma active_fair w c : broker_ok w → active w = Some c → fair (printed w) c.
Proof. intros Hw Hc. left. rewrite <- (ok_active w Hw c Hc). by apply prefix_app_r. Qed.
Lemma broker_ok_fair w : broker_ok w → broker_fair w.
Proof.
  intros Hw. split.
  - by rewrite (ok_log w Hw).
  - rewrite <- (ok_input w Hw). by apply prefix_app_r.
  - apply (ok_order w Hw).
  - apply Forall_app. split; [apply (ok_gone w Hw)|]. destruct (active w) as [c|] eqn:Hc; [|by constructor].
    cbn. rewrite Forall_singleton. by apply active_fair.
Qed.
Lemma clients_detach w : clients (detach w) = clients w.
Proof. unfold clients, detach. destruct (active w) eqn:E; [|by rewrite E]. cbn. by rewrite app_nil_r. Qed.
Ltac broker_simpl :=
  cbn [active guest_input client_output printed to_guest from_clients log gone set_active set_guest_input
       set_client_output add_printed add_to_guest add_from_clients add_log add_gone got gave since
       client_sent client_gave bytes offset written extend empty_pending] in *.

Lemma detach_ok w : broker_ok w → broker_ok (detach w).
Proof.
  intros Hw. pose proof (clients_detach w) as Hcl. unfold detach in *. destruct (active w) as [c|] eqn:Hc; [|done].
  destruct Hw as [Hl Hi Ho Hg Hs Ha Hse Hb]. split; broker_simpl; try done.
  - by rewrite Hcl.
  - rewrite Forall_app, Forall_singleton. split; [done|]. left. rewrite <- (Ha c) by done. by apply prefix_app_r.
Qed.
Lemma set_output_ok p w :
  broker_ok w → active w = None → pending_ok p → Z.of_nat (length (bytes p)) ≤ MAX_PENDING_CLIENT_OUTPUT →
  broker_ok (set_client_output p w).
Proof.
  intros [Hl Hi Ho Hg Hs Ha Hse Hb] Hn Hp Hpb. split; broker_simpl; try done; [|by destruct Hse|by destruct Hb].
  intros c Hc. congruence.
Qed.
Lemma clear_output_ok w : broker_ok w → active w = None → broker_ok (set_client_output empty_pending w).
Proof. intros Hw Hn. apply set_output_ok; [done|done|apply le_n|by vm_compute]. Qed.
Lemma detach_none w : active (detach w) = None.
Proof. unfold detach. by destruct (active w) eqn:E. Qed.

Section broker.
Context (raw_os_error : IoError → option Z) (name : string).

Definition broker_post {A} (r : result FirestoneError A) (w : Broker) : Prop :=
  match r with Ok _ => broker_ok w | Err _ => broker_fair w end.
Lemma post_fail {A} (e : FirestoneError) w : broker_ok w → wp (M_fail e : M Broker FirestoneError A) broker_post w.
Proof using Type. intros Hw. by apply wp_io_fail, broker_ok_fair. Qed.
Lemma wp_seq {A B} (m : M Broker FirestoneError A) (k : A → M Broker FirestoneError B) w :
  wp m broker_post w → (∀ a w', broker_ok w' → wp (k a) broker_post w') → wp (m ≫= k) broker_post w.
Proof using Type.
  intros Hm Hk. apply wp_bind. eapply wp_mono; [exact Hm|]. intros [a|e] w'; cbn; [apply Hk|done].
Qed.

Lemma wp_accept_client a w :
  broker_ok w → clean w → wp (accept_client name a)
    (λ r w', broker_post r w' ∧ (∀ x, r = Ok x → clean w')) w.
Proof using Type.
  intros Hw Hcl. unfold accept_client. destruct (bound_error a) as [e|]; [by split; [apply broker_ok_fair|]|].
  apply wp_bind, wp_get. cbn beta iota. destruct (active w) as [c|] eqn:Hc.
  - apply wp_modify. split; [|intros _ _; unfold clean; broker_simpl; congruence].
    destruct Hw as [Hl Hi Ho Hg Hs Ha Hse Hb]. split; broker_simpl; try done.
    + rewrite Ho. unfold clients. broker_simpl. rewrite !fmap_app, !concat_app. cbn. by rewrite app_nil_r.
    + rewrite Forall_app, Forall_singleton. split; [done|]. right. split; [done|]. broker_simpl.
      destruct (ack_fault a) as [[n ?]|]; [apply prefix_take|done].
  - destruct (ack_fault a) as [[n e]|]; [by split; [apply broker_ok_fair|]|].
    destruct (unbound_error a) as [e|]; [by split; [apply broker_ok_fair|]|].
    destruct (client_nonblocking_error a) as [e|]; [by split; [apply broker_ok_fair|]|].
    apply wp_modify. split; [|by intros _ _].
    specialize (Hcl Hc). destruct Hw as [Hl Hi Ho Hg Hs Ha Hse Hb]. split; broker_simpl; try done.
    + rewrite Ho. unfold clients. broker_simpl. rewrite Hc. cbn [option_list]. rewrite !fmap_app, !concat_app. cbn. by rewrite !app_nil_r.
    + by intros c [= <-].
    + intros c [= <-]. broker_simpl. rewrite Hcl. unfold owed. broker_simpl. by rewrite drop_all, !app_nil_r.
Qed.
Lemma wp_accept_loop waiting last w :
  broker_ok w → clean w → wp (accept_loop name waiting last) broker_post w.
Proof using Type.
  revert w. induction waiting as [|a waiting IH]; intros w Hw Hcl; cbn [accept_loop].
  - destruct last; [by apply post_fail|by apply wp_ret].
  - apply wp_bind. eapply wp_mono; [by apply wp_accept_client|]. intros [x|e] w' [Hp Hc]; [|done]. cbn in Hp. apply IH; eauto.
Qed.
Lemma wp_write_guest t ev w : broker_ok w → wp (write_guest name t ev) broker_post w.
Proof using Type.
  intros Hw. unfold write_guest. apply wp_bind, wp_get. cbn beta iota. destruct (_ && _); [|by apply wp_ret].
  destruct (pty_write t) as [[|n]|e]; [by apply wp_ret| |destruct (would_block e); [by apply wp_ret|by apply post_fail]].
  apply wp_modify. destruct Hw as [Hl Hi Ho Hg Hs Ha [Hse Hco] [Hb Hb']]. split; broker_simpl; try done.
  - rewrite clear_if_done_unsent, unsent_written, <- Hi. by rewrite <- app_assoc, take_drop.
  - split; [|done]. apply settled_clear, written_ok, settled_ok, Hse.
  - split; [|done]. unfold clear_if_done. case_match; cbn; [unfold CONSOLE_BUFFER_BYTES; lia|done].
Qed.
Lemma wp_write_client t ev w : broker_ok w → wp (write_client name t ev) broker_post w.
Proof using Type.
  intros Hw. unfold write_client. apply wp_bind, wp_get. cbn beta iota. destruct (_ && _); [|by apply wp_ret].
  destruct (active w) as [c|] eqn:Hc; [|by apply wp_ret].
  destruct (client_write t) as [[|n]|e].
  - apply wp_modify. by apply detach_ok.
  - apply wp_modify. destruct Hw as [Hl Hi Ho Hg Hs Ha [Hse Hco] [Hb Hb']]. split; broker_simpl; try done.
    + rewrite Ho. unfold clients. broker_simpl. rewrite Hc. cbn [option_list]. rewrite !fmap_app, !concat_app. done.
    + intros c' [= <-]. by apply (Hs c).
    + intros c' [= <-]. broker_simpl. rewrite clear_if_done_unsent, unsent_written. rewrite <- app_assoc, take_drop. exact (Ha c Hc).
    + split; [done|]. by apply clear_if_done_ok, written_ok.
    + split; [done|]. unfold clear_if_done. case_match; cbn; [unfold MAX_PENDING_CLIENT_OUTPUT; lia|done].
  - destruct (would_block e); [by apply wp_ret|]. destruct (console_closed e); [apply wp_modify; by apply detach_ok|by apply post_fail].
Qed.
(** The output read from the guest reaches the log; what is staged for the client follows. *)
Lemma printed_ok d p w :
  broker_ok w → pending_ok p → Z.of_nat (length (bytes p)) ≤ MAX_PENDING_CLIENT_OUTPUT →
  (∀ c, active w = Some c → unsent p = unsent (client_output w) ++ d) →
  broker_ok (set_client_output p (add_log d (add_printed d w))).
Proof using Type.
  intros [Hl Hi Ho Hg Hs Ha [Hse Hco] [Hb Hb']] Hp Hpb Hu. split; broker_simpl; try done.
  - by rewrite Hl.
  - eapply Forall_impl; [exact Hg|]. intros c. apply fair_more.
  - intros c Hc. rewrite length_app. specialize (Hs c Hc). lia.
  - intros c Hc. rewrite owed_more by auto. rewrite <- (Ha c Hc), (Hu c Hc). by rewrite app_assoc.
Qed.
Lemma stage_output_ok d w : broker_ok w → broker_ok (stage_output d (add_log d (add_printed d w))).
Proof using Type.
  intros Hw. pose proof Hw as [_ _ _ _ _ _ [_ Hco] [_ Hb]]. unfold stage_output. broker_simpl.
  destruct (active w) as [c|] eqn:Hc.
  2: { pose proof (printed_ok d (client_output w) w Hw Hco Hb) as Hn. rewrite Hc in Hn. exact (Hn ltac:(done)). }
  set (staged := if (0 <? offset (client_output w))%nat then _ else _).
  assert (offset staged = 0%nat ∧ bytes staged = unsent (client_output w)) as [Hso Hsb].
  { subst staged. destruct (Nat.ltb_spec 0 (offset (client_output w))) as [|E]; [done|]. assert (offset (client_output w) = 0%nat) as E0 by lia.
    split; [done|]. unfold unsent. by rewrite E0, drop_0. }
  destruct (_ <? _) eqn:Hfull.
  - pose proof (detach_ok w Hw) as Hd. apply (printed_ok d {| bytes := []; offset := offset staged |}) in Hd.
    + unfold detach in *. broker_simpl. rewrite Hc in *. exact Hd.
    + unfold pending_ok. cbn. lia.
    + unfold MAX_PENDING_CLIENT_OUTPUT. cbn. lia.
    + intros c'. by rewrite detach_none.
  - apply Z.ltb_ge in Hfull. apply printed_ok; [done|..].
    + unfold pending_ok, extend. cbn. lia.
    + unfold extend. cbn. rewrite length_app. lia.
    + intros _ _. rewrite unsent_extend by (unfold pending_ok; lia). unfold unsent at 1. by rewrite Hso, Hsb, drop_0.
Qed.
Lemma wp_read_guest t ev w : broker_ok w → wp (read_guest raw_os_error name t ev) broker_post w.
Proof using Type.
  intros Hw. unfold read_guest. destruct (pollin ev); [|by apply wp_ret].
  destruct (pty_read t) as [[|b data]|e]; [by apply wp_ret| |].
  - set (d := b :: data). apply wp_bind, wp_modify. destruct (log_error t) as [[n e]|].
    + apply wp_bind, wp_modify, wp_io_fail. destruct (broker_ok_fair w Hw) as [Hl Hi Ho Hf]. split; broker_simpl; try done.
      * rewrite (ok_log w Hw). apply prefix_app, prefix_take.
      * eapply Forall_impl; [exact Hf|]. intros c. apply fair_more.
    + apply wp_bind, wp_modify, wp_modify.
      by apply stage_output_ok.
  - destruct (would_block e); [by apply wp_ret|]. case_bool_decide; [by apply wp_ret|by apply post_fail].
Qed.
Lemma wp_read_client t ev w :
  (∀ data, client_read t = Ok data → Z.of_nat (length data) ≤ CONSOLE_BUFFER_BYTES) →
  broker_ok w → wp (read_client name t ev) broker_post w.
Proof using Type.
  intros Hchunk Hw. unfold read_client. apply wp_bind, wp_get. cbn beta iota.
  destruct (pollin ev && _) eqn:E; [|by apply wp_ret]. apply andb_true_iff in E as [_ E].
  destruct (active w) as [c|] eqn:Hc; [|by apply wp_ret].
  destruct (client_read t) as [[|b data]|e].
  - apply wp_modify. by apply detach_ok.
  - apply wp_modify. specialize (Hchunk _ eq_refl). set (d := b :: data) in *.
    destruct Hw as [Hl Hi Ho Hg Hs Ha [Hse Hco] [Hb Hb']]. apply settled_done in E; [|done]. rewrite E in *.
    split; broker_simpl; try done.
    + cbn in Hi. rewrite app_nil_r in Hi. by rewrite Hi.
    + rewrite Ho. unfold clients. broker_simpl. rewrite Hc. cbn [option_list]. rewrite !fmap_app, !concat_app. cbn.
      by rewrite !app_nil_r, app_assoc.
    + intros c' [= <-]. by apply (Hs c).
    + intros c' [= <-]. exact (Ha c Hc).
    + split; [|done]. right. cbn. lia.
  - destruct (would_block e); [by apply wp_ret|]. destruct (console_closed e); [apply wp_modify; by apply detach_ok|by apply post_fail].
Qed.
Definition turn_ok (t : BrokerTurn) : Prop :=
  ∀ data, client_read t = Ok data → Z.of_nat (length data) ≤ CONSOLE_BUFFER_BYTES.
Lemma wp_broker_turn t w : turn_ok t → broker_ok w → wp (broker_turn raw_os_error name t) broker_post w.
Proof using Type.
  intros Ht Hw. unfold broker_turn. destruct (stopped t); [by apply wp_ret|]. apply wp_bind, wp_get. cbn beta iota.
  assert (∃ w', wp (if bool_decide (active w = None) then modify (set_client_output empty_pending) else mret () : M Broker FirestoneError ())
      (λ r w'', r = Ok () ∧ w'' = w') w ∧ broker_ok w' ∧ clean w') as (w1 & Hset & Hw1 & Hcl).
  { case_bool_decide as Hn.
    - exists (set_client_output empty_pending w). split; [done|]. split; [|done].
      by apply clear_output_ok.
    - exists w. split; [done|]. split; [done|]. by intros ?. }
  apply wp_bind. eapply wp_mono; [exact Hset|]. intros _ _ [-> ->].
  destruct (broker_polled t) as [[[lev pev] cev]|e]; [|by apply post_fail].
  apply wp_seq; [destruct (pollin lev); [by apply wp_accept_loop|by apply wp_ret]|]. intros _ w2 H2.
  apply wp_seq; [by apply wp_write_guest|]. intros _ w3 H3.
  apply wp_seq; [by apply wp_write_client|]. intros _ w4 H4.
  apply wp_seq; [by apply wp_read_guest|]. intros _ w5 H5.
  apply wp_seq; [by apply wp_read_client|]. intros _ w6 H6.
  apply wp_seq; [|by intros _ w7 H7; apply wp_ret]. destruct (broken _); [|by apply wp_ret]. apply wp_modify.
  apply clear_output_ok; [by apply detach_ok|apply detach_none].
Qed.
Lemma wp_broker_loop turns w : Forall turn_ok turns → broker_ok w → wp (broker_loop raw_os_error name turns) broker_post w.
Proof using Type.
  intros Ht. revert w. induction Ht as [|t turns Ht _ IH]; intros w Hw; cbn [broker_loop]; [by apply wp_ret|].
  apply wp_then. eapply wp_mono; [by apply wp_broker_turn|]. intros [[x|]|e] w' Hw'; [done|by apply IH|done].
Qed.
End broker.

(** *** The log *)

Section logged.
Context (raw_os_error : IoError → option Z) (name : string).
Definition logged (w : Broker) : Prop := log w = printed w.
(** [m] reads nothing from the guest that it does not log, whether it fails or not. *)
Definition logs {A} (m : M Broker FirestoneError A) : Prop := ∀ w, logged w → wp m (λ _ w', logged w') w.
Lemma logs_bind {A B} (m : M Broker FirestoneError A) (k : A → M Broker FirestoneError B) : logs m → (∀ a, logs (k a)) → logs (m ≫= k).
Proof using Type. intros Hm Hk w Hw. apply wp_bind. eapply wp_mono; [by apply Hm|]. intros [a|e] w'; [apply Hk|done]. Qed.
Lemma logs_get {A} (k : Broker → M Broker FirestoneError A) : (∀ w, logs (k w)) → logs (M_get ≫= k).
Proof using Type. intros Hk w Hw. apply wp_bind, wp_get. by apply Hk. Qed.
Lemma logs_modify f : (∀ w, logged w → logged (f w)) → logs (modify f).
Proof using Type. intros Hf w Hw. apply wp_modify. by apply Hf. Qed.
Lemma logs_ret {A} (a : A) : logs (mret a).
Proof using Type. intros w Hw. by apply wp_ret. Qed.
Lemma logs_fail {A} e : logs (M_fail e : M Broker FirestoneError A).
Proof using Type. intros w Hw. by apply wp_io_fail. Qed.
Lemma logged_detach w : logged w → logged (detach w).
Proof using Type. unfold detach, logged. by destruct (active w). Qed.
Lemma logged_stage d w : logged w → logged (stage_output d w).
Proof using Type.
  unfold stage_output. intros Hw. destruct (active w); [|done]. destruct (_ <? _); [exact (logged_detach w Hw)|exact Hw].
Qed.
Ltac logs := repeat match goal with
  | |- logs (mret _) => apply logs_ret
  | |- logs (M_fail _) => apply logs_fail
  | |- logs (M_get ≫= _) => apply logs_get; intros ?
  | |- logs (modify _) => apply logs_modify; first [exact logged_detach | let H := fresh in intros ? H; exact H]
  | |- logs (match ?x with _ => _ end) => destruct x
  end.
Lemma logs_accept_client a : logs (accept_client name a).
Proof using Type. unfold accept_client. logs. Qed.
Lemma logs_accept_loop waiting last : logs (accept_loop name waiting last).
Proof using Type. induction waiting; cbn [accept_loop]; [logs|]. apply logs_bind; [apply logs_accept_client|done]. Qed.
Lemma logs_write_guest t ev : logs (write_guest name t ev).
Proof using Type. unfold write_guest. logs. Qed.
Lemma logs_write_client t ev : logs (write_client name t ev).
Proof using Type. unfold write_client. logs. Qed.
Lemma logs_read_client t ev : logs (read_client name t ev).
Proof using Type. unfold read_client. logs. Qed.
Lemma logs_read_guest t ev : log_error t = None → logs (read_guest raw_os_error name t ev).
Proof using Type.
  intros Hn. unfold read_guest. rewrite Hn. destruct (pollin ev); [|logs]. destruct (pty_read t) as [[|b data]|e]; [logs| |logs].
  intros w Hw. apply wp_bind, wp_modify, wp_bind, wp_modify, wp_modify. apply logged_stage. unfold logged in *. broker_simpl. by rewrite Hw.
Qed.
Lemma logs_broker_turn t : log_error t = None → logs (broker_turn raw_os_error name t).
Proof using Type.
  intros Hn. unfold broker_turn. destruct (stopped t); [logs|]. apply logs_get. intros w.
  apply logs_bind; [logs|intros _]. destruct (broker_polled t) as [[[lev pev] cev]|e]; [|logs].
  apply logs_bind; [destruct (pollin lev); [apply logs_accept_loop|logs]|intros _].
  apply logs_bind; [apply logs_write_guest|intros _]. apply logs_bind; [apply logs_write_client|intros _].
  apply logs_bind; [by apply logs_read_guest|intros _]. apply logs_bind; [apply logs_read_client|intros _].
  apply logs_bind; [|intros _; logs]. destruct (broken _); [|logs]. apply logs_modify. intros w' Hw'. exact (logged_detach w' Hw').
Qed.
Lemma logs_broker_loop turns : Forall (λ t, log_error t = None) turns → logs (broker_loop raw_os_error name turns).
Proof using Type.
  induction 1 as [|t turns Ht _ IH]; cbn [broker_loop]; [logs|]. intros w Hw. apply wp_then.
  eapply wp_mono; [by apply logs_broker_turn|]. intros [[x|]|e] w' Hw'; [done|by apply IH|done].
Qed.
End logged.

(** One client that hangs up before it is acknowledged ends the broker, and with it the console
    and its log, for every later client. *)
Lemma hangup_ends_broker raw_os_error name w t a waiting n e listener pty client rest :
  active w = None → stopped t = false → broker_polled t = Ok (listener, pty, client) → pollin listener = true →
  arrivals t = a :: waiting → bound_error a = None → ack_fault a = Some (n, e) →
  ∃ w', broker_loop raw_os_error name (t :: rest) w = (Err (console_io_error name "acknowledge a console client" e), w').
Proof.
  intros Hn Hs Hp Hl Ha Hb Hf. eexists. cbn [broker_loop]. unfold then_, broker_turn, mbind, M_bind, M_get. rewrite Hs, Hn, Hp.
  cbn. rewrite Hl. unfold accept_clients. rewrite Ha. cbn. unfold accept_client, mbind, M_bind, M_get. rewrite Hb. cbn.
  rewrite ?Hn. cbn. rewrite Hf. done.
Qed.

(** ** Properties *)

(** C22: the console relay is faithful: however the kernel splits, delays and refuses reads and writes,
    the broker is sent a prefix of what the user typed before the detach key (byte 29), in order and
    without a gap, and as long as the relay runs nothing typed is lost; what it shows is what
    arrived; and that key ends it, detached, unless a failure did. *)
Theorem relay_faithful name turns r w :
  relay_console name turns relay_start = (r, w) →
  sent w `prefix_of` before_detach (typed w) ∧ shown w `prefix_of` received w
  ∧ (∀ c, r = Ok c → shown w = received w)
  ∧ (DETACH ∈ typed w → r = Ok (Some Detached) ∨ ∃ e, r = Err e)
  ∧ (r = Ok None → sent w ++ unsent (pending w) = typed w ∧ DETACH ∉ typed w).
Proof.
  intros Hr. assert (relay_ok relay_start) as H0 by (split; [apply le_n|done|apply not_elem_of_nil|done]).
  pose proof (wp_run _ _ _ _ _ Hr (wp_relay_console name turns relay_start H0)) as Hp.
  destruct r as [[c|]|e]; cbn in Hp.
  - destruct Hp as (Hs & Hsh & Hok & Hd). by repeat split.
  - pose proof (relay_ok_ended (Ok None) w Hp : relay_ended (E := FirestoneError) _ _) as (Hs & Hsh & Hok & Hd).
    destruct Hp as [_ Hsent Ht _]. by repeat split.
  - destruct Hp as (Hs & Hsh & Hok & Hd). by repeat split.
Qed.
Definition typing : RelayTurn := {|
  cancelled := false; cancelled_later := false;
  polled := Ok ({| pollin := true; pollout := false; pollhup := false; pollerr := false |},
                {| pollin := true; pollout := true; pollhup := false; pollerr := false |});
  pending_write := Ok 1%nat; input_read := Ok [108; 115; 10]; flush_writes := λ i, if (i =? 0)%nat then Ok 2%nat else Err {| io_kind := IoWouldBlock; io_text := "" |};
  socket_read := Ok [36; 32]; output_error := None |}.
Definition leaving : RelayTurn := {|
  cancelled := false; cancelled_later := false; polled := polled typing; pending_write := Ok 5%nat;
  input_read := Ok [104; 105; 29; 120]; flush_writes := λ _, Ok 1%nat; socket_read := Ok []; output_error := None |}.
Definition relay_end : Relay := Eval vm_compute in (relay_console "dev" [typing; leaving] relay_start).2.
Lemma relay_run : relay_console "dev" [typing; leaving] relay_start = (Ok (Some Detached), relay_end).
Proof. by vm_compute. Qed.
Lemma relay_faithful_witness :
  relay_console "dev" [typing; leaving] relay_start = (Ok (Some Detached), relay_end)
  ∧ sent relay_end `prefix_of` [108; 115; 10; 104; 105] ∧ shown relay_end = received relay_end.
Proof.
  destruct (relay_faithful "dev" [typing; leaving] _ _ relay_run) as (Hs & _ & Hok & _).
  split; [exact relay_run|]. split; [exact Hs|exact (Hok _ eq_refl)].
Defined.

(** C23: the console broker is faithful: everything it read from the guest is in the log, in order and once,
    whoever comes and goes and however it ends, unless writing the log failed (then the log is a prefix of
    it).  Each client was sent an unbroken piece of what was read that starts where the client attached,
    all of it but what is staged if it still is attached (one that falls a mebibyte behind is dropped), or
    was turned away with nothing read from it; and the guest is given what clients typed, in the order of
    their sessions: a prefix of it if the broker failed, else all but what is staged for it.  The broker
    does fail on some things a client can do, such as hanging up before it is acknowledged
    ([hangup_ends_broker]); nothing is read from the guest after that. *)
Theorem broker_faithful raw_os_error name turns r w :
  Forall turn_ok turns → broker_loop raw_os_error name turns broker_start = (r, w) →
  log w `prefix_of` printed w ∧ (∀ x, r = Ok x → log w = printed w)
  ∧ (Forall (λ t, log_error t = None) turns → log w = printed w)
  ∧ to_guest w `prefix_of` from_clients w ∧ from_clients w = concat (gave <$> clients w)
  ∧ Forall (fair (printed w)) (clients w)
  ∧ ∀ x, r = Ok x →
      to_guest w ++ unsent (guest_input w) = from_clients w
      ∧ Z.of_nat (length (bytes (guest_input w))) ≤ CONSOLE_BUFFER_BYTES
      ∧ Z.of_nat (length (bytes (client_output w))) ≤ MAX_PENDING_CLIENT_OUTPUT
      ∧ ∀ c, active w = Some c → got c ++ unsent (client_output w) = owed (printed w) c.
Proof.
  intros Ht Hr. assert (broker_ok broker_start) as H0.
  { split; try done. split; [by left|apply le_n]. }
  pose proof (wp_run _ _ _ _ _ Hr (wp_broker_loop raw_os_error name turns broker_start Ht H0)) as Hp.
  assert (broker_fair w) as [Hl Hi Ho Hf] by (destruct r; [by apply broker_ok_fair|done]).
  split; [done|]. split; [intros x ->; apply (ok_log w Hp)|].
  split; [intros Hn; by apply (wp_run _ _ _ _ _ Hr (logs_broker_loop raw_os_error name turns Hn broker_start eq_refl))|].
  do 3 (split; [done|]). intros x ->. split; [apply (ok_input w Hp)|]. destruct (ok_bounds w Hp). do 2 (split; [done|]). apply (ok_active w Hp).
Qed.
Definition welcome : Arrival := {| bound_error := None; ack_fault := None; unbound_error := None; client_nonblocking_error := None |}.
Definition ready : Events := {| pollin := true; pollout := true; pollhup := false; pollerr := false |}.
(** A turn in which somebody comes, the guest prints [x] and the client types [y]. *)
Definition busy_turn (visitors : list Arrival) (x y : list Z) : BrokerTurn := {|
  stopped := false; broker_polled := Ok (ready, ready, ready); arrivals := visitors; accept_error := None;
  pty_write := Ok 1%nat; client_write := Ok 2%nat; pty_read := Ok x; log_error := None; client_read := Ok y |}.
Definition visits : list BrokerTurn :=
  [busy_turn [] [1; 2] []; busy_turn [welcome] [3; 4] [7]; busy_turn [welcome] [5] [8; 9]].
Definition broker_end : Broker := Eval vm_compute in (broker_loop (λ _, None) "dev" visits broker_start).2.
Lemma broker_run : broker_loop (λ _, None) "dev" visits broker_start = (Ok None, broker_end).
Proof. by vm_compute. Qed.
Lemma visits_ok : Forall turn_ok visits.
Proof. repeat constructor; intros data [= <-]; vm_compute; discriminate. Qed.
(** A visitor that hangs up unacknowledged ends the broker; what was read until then is logged. *)
Definition hangup_turn : BrokerTurn :=
  busy_turn [{| bound_error := None; ack_fault := Some (0%nat, {| io_kind := IoBrokenPipe; io_text := "broken pipe" |});
                unbound_error := None; client_nonblocking_error := None |}] [6] [].
Definition cut_short : list BrokerTurn := [busy_turn [] [1; 2] []; hangup_turn; busy_turn [] [7] []].
Lemma broker_faithful_witness :
  (broker_loop (λ _, None) "dev" visits broker_start = (Ok None, broker_end)
   ∧ log broker_end = [1; 2; 3; 4; 5] ∧ Forall (fair [1; 2; 3; 4; 5]) (clients broker_end) ∧ length (clients broker_end) = 2%nat)
  ∧ let '(r, w) := broker_loop (λ _, None) "dev" cut_short broker_start in is_ok r = false ∧ log w = printed w ∧ printed w = [1; 2].
Proof.
  destruct (broker_faithful (λ _, None) "dev" visits _ _ visits_ok broker_run) as (_ & Hl & _ & _ & _ & Hf & _).
  split; [split; [exact broker_run|]; split; [exact (Hl _ eq_refl)|]; split; [exact Hf|reflexivity]|].
  assert (Forall turn_ok cut_short) as Hok by (repeat constructor; intros data [= <-]; vm_compute; discriminate).
  assert (Forall (λ t, log_error t = None) cut_short) as Hn by repeat constructor.
  pose proof (broker_faithful (λ _, None) "dev" cut_short _ _ Hok (surjective_pairing _)) as (_ & _ & Hlog & _).
  specialize (Hlog Hn). destruct (broker_loop _ _ cut_short _) as [r w] eqn:E. split; [|split; [exact Hlog|]].
  - apply (f_equal fst) in E. vm_compute in E. by subst.
  - apply (f_equal snd) in E. vm_compute in E. by subst.
Defined.
