(* ===== verification/Tree.v ===== *)
(** The file system as the machine store sees it ([std::fs]): a tree of nodes with owners and
    modes, the calls that look at it and change it, and the atomic writes of [Atomic] on it.

    A path names the node at its components; a symbolic link is a node of its own that is never
    followed, so a path that goes through one leads nowhere.  Every call can fail, the order in
    which a directory lists its entries is the host's, and every tree a run passes through is
    recorded, so that stopping at any point can be reasoned about. *)
From stdpp Require Import gmap sorting.
From S2P Require Import Prelude RustStr RustPath Errors Clock Atomic.
Open Scope Z_scope.

(** ** Nodes and trees *)

Abbreviation Path := (list string).
Inductive NodeKind : Set := Regular (data : list Z) | Directory | Symlink | Special.
Record Node : Set := { node_kind : NodeKind; uid : Z; mode : Z }.
Abbreviation Tree :=
  (@gmap Path (@list_eq_dec string String.eq_dec) (@list_countable string String.eq_dec String.countable) Node).

#[export] Instance NodeKind_eq_dec : EqDecision NodeKind.
Proof. solve_decision. Defined.
#[export] Instance Node_eq_dec : EqDecision Node.
Proof. solve_decision. Defined.

Definition is_dir (n : Node) : bool := match node_kind n with Directory => true | _ => false end.
Definition is_file (n : Node) : bool := match node_kind n with Regular _ => true | _ => false end.
Definition is_symlink (n : Node) : bool := match node_kind n with Symlink => true | _ => false end.
(** [metadata.mode() & 0o7777]. *)
Definition permissions (n : Node) : Z := Z.land (mode n) 4095.
Definition with_mode (m : Z) (n : Node) : Node := {| node_kind := node_kind n; uid := uid n; mode := m |}.
Definition data_of (n : Node) : list Z := match node_kind n with Regular data => data | _ => [] end.

(** The node a path leads to, as the names on the way from the root. *)
Definition go (k : Path) (c : Component) : Path :=
  match c with Normal x => k ++ [x] | ParentDir => removelast k | RootDir | CurDir => k end.
Definition resolve (p : string) : Path := foldl go [] (components p).

(** The names below [d] that lead to [k]. *)
Fixpoint strip (d k : Path) : option Path :=
  match d, k with
  | [], _ => Some k
  | x :: d, y :: k => if String.eqb x y then strip d k else None
  | _ :: _, [] => None
  end.
Definition entries (d : Path) (t : Tree) : list string :=
  omap (λ kn, match strip d kn.1 with Some [x] => Some x | _ => None end) (map_to_list t).
Definition subtree (d : Path) (t : Tree) : list Path :=
  filter (λ k, is_Some (strip d k)) (map_to_list t).*1.

Definition directory_at (t : Tree) (k : Path) : bool := from_option is_dir false (t !! k).
Definition in_directory (t : Tree) (k : Path) : bool := directory_at t (removelast k).

Definition ENOENT : IoError := {| io_kind := IoNotFound; io_text := "No such file or directory (os error 2)" |}.
Definition ENOTDIR : IoError := {| io_kind := IoNotADirectory; io_text := "Not a directory (os error 20)" |}.
Definition EEXIST : IoError := {| io_kind := IoAlreadyExists; io_text := "File exists (os error 17)" |}.
Definition EISDIR : IoError := {| io_kind := IoOther; io_text := "Is a directory (os error 21)" |}.
Definition EINVAL : IoError := {| io_kind := IoInvalidInput; io_text := "Invalid argument (os error 22)" |}.
Definition ENOTEMPTY : IoError := {| io_kind := IoOther; io_text := "Directory not empty (os error 39)" |}.
Definition ELOOP : IoError := {| io_kind := IoOther; io_text := "Too many levels of symbolic links (os error 40)" |}.

(** Why [k] leads nowhere: something on the way is not a directory, or it is not there. *)
Definition no_entry (t : Tree) (k : Path) : IoError :=
  if existsb (λ n, from_option (λ m, negb (is_dir m)) false (t !! take n k)) (seq 0 (length k))
  then ENOTDIR else ENOENT.

(** The tree with what is at and below [from] moved to [to], in the place of what was there. *)
Definition swap (a b k : Path) : Path :=
  match strip a k with
  | Some r => b ++ r
  | None => match strip b k with Some r => a ++ r | None => k end
  end.
Definition move (from to : Path) (t : Tree) : Tree :=
  kmap (swap from to) (filter (λ kn, strip to kn.1 = None) t).

(** ** Runs *)

(** The host: the error of the n-th call, if it fails; the order in which it lists names and in
    which a tree is removed; what happens to the system calls of the n-th atomic write; the mode a
    file gets that is created without one. *)
Class Host := {
  fault : nat → option IoError;
  atomic_fault : nat → Faults;
  short_write : nat → option (nat * IoError);
  listing : nat → list string → list string;
  listing_perm n l : listing n l ≡ₚ l;
  removal_order : nat → list Path → list Path;
  removal_perm n l : removal_order n l ≡ₚ l;
  umask : Z;
  euid : Z }.
Definition file_mode `{Host} : Z := Z.ldiff 438 umask.

Record World (Sink : Type) : Type := { tree : Tree; calls : nat; past : list Tree; timed : Timed Sink }.
Arguments tree {Sink}. Arguments calls {Sink}. Arguments past {Sink}. Arguments timed {Sink}.
Arguments Build_World {Sink}.

Section calls.
Context {Sink : Type} `{Host}.
Local Abbreviation World := (World Sink).
Local Abbreviation Io := (M World IoError).
Local Abbreviation Act := (M World FirestoneError).

Definition counted (w : World) : World :=
  {| tree := tree w; calls := S (calls w); past := past w; timed := timed w |}.
Definition commit (t : Tree) (w : World) : World :=
  {| tree := t; calls := calls w; past := past w ++ [t]; timed := timed w |}.

(** A call that only looks, and one that changes the tree. *)
Definition ask {A} (f : nat → Tree → result IoError A) : Io A := λ w,
  (match fault (calls w) with Some e => Err e | None => f (calls w) (tree w) end, counted w).
Definition change (f : nat → Tree → result IoError Tree) : Io () := λ w,
  match fault (calls w) with
  | Some e => (Err e, counted w)
  | None => match f (calls w) (tree w) with
            | Ok t => (Ok (), commit t (counted w))
            | Err e => (Err e, counted w)
            end
  end.

(** A part of the world that acts on its own: the clock and the events. *)
Definition on_clock {E A} (m : M (Timed Sink) E A) : M World E A := λ w,
  let '(r, c) := m (timed w) in (r, {| tree := tree w; calls := calls w; past := past w; timed := c |}).
Definition emit_ {Json} `{EventSink Json Sink} (e : Event Json) : Act () := on_clock (emit_event e).

(** *** Looking *)

Definition symlink_metadata (p : string) : Io Node :=
  ask (λ _ t, match t !! resolve p with Some n => Ok n | None => Err (no_entry t (resolve p)) end).
Definition read_dir (p : string) : Io (list string) :=
  ask (λ i t, match t !! resolve p with
    | Some n => if is_dir n then Ok (listing i (entries (resolve p) t)) else Err ENOTDIR
    | None => Err (no_entry t (resolve p))
    end).
Definition read (p : string) : Io (list Z) :=
  ask (λ _ t, match t !! resolve p with
    | Some n => match node_kind n with
                | Regular data => Ok data | Directory => Err EISDIR | Symlink | Special => Err ELOOP end
    | None => Err (no_entry t (resolve p))
    end).
(** [File::open(directory)] and [sync_all]. *)
Definition sync_all (p : string) : Io () :=
  ask (λ _ t, if directory_at t (resolve p) then Ok () else Err (no_entry t (resolve p)));;
  ask (λ _ _, Ok ()).

(** *** Changing *)

Definition put (k : Path) (n : Node) : Io () := change (λ _ t, Ok (<[k := n]> t)).
Definition unlink (k : Path) : Io () :=
  change (λ _ t, match t !! k with
    | Some n => if is_dir n then if bool_decide (entries k t = []) then Ok (delete k t) else Err ENOTEMPTY
                else Ok (delete k t)
    | None => Err (no_entry t k)
    end).
Definition remove_file (p : string) : Io () :=
  change (λ _ t, match t !! resolve p with
    | Some n => if is_dir n then Err EISDIR else Ok (delete (resolve p) t)
    | None => Err (no_entry t (resolve p))
    end).
Definition remove_dir (p : string) : Io () :=
  change (λ _ t, match t !! resolve p with
    | Some n => if negb (is_dir n) then Err ENOTDIR
                else if bool_decide (entries (resolve p) t = []) then Ok (delete (resolve p) t) else Err ENOTEMPTY
    | None => Err (no_entry t (resolve p))
    end).
Fixpoint unlink_all (keys : list Path) : Io () :=
  match keys with [] => mret () | k :: keys => unlink k;; unlink_all keys end.
(** Entries go one by one; which of them are gone when a call fails is the host's. *)
Definition remove_dir_all (p : string) : Io () :=
  keys ← ask (λ i t, match t !! resolve p with
    | Some _ => Ok (removal_order i (subtree (resolve p) t))
    | None => Err (no_entry t (resolve p))
    end);
  unlink_all keys.
Definition rename (from to : string) : Io () :=
  change (λ _ t,
    let a := resolve from in let b := resolve to in
    match t !! a with
    | None => Err (no_entry t a)
    | Some n =>
        if bool_decide (a = b) then Ok t
        else if bool_decide (is_Some (strip a b)) then Err EINVAL
        else if negb (in_directory t b) then Err (no_entry t b)
        else match t !! b with
             | None => Ok (move a b t)
             | Some m =>
                 if is_dir m then
                   if negb (is_dir n) then Err EISDIR
                   else if bool_decide (entries b t = []) then Ok (move a b t) else Err ENOTEMPTY
                 else if is_dir n then Err ENOTDIR else Ok (move a b t)
             end
    end).
(** [DirBuilder::create], not recursive. *)
Definition create_dir (p : string) (m : Z) : Io () :=
  change (λ _ t,
    match t !! resolve p with
    | Some _ => Err EEXIST
    | None => if in_directory t (resolve p)
              then Ok (<[resolve p := {| node_kind := Directory; uid := euid; mode := Z.ldiff m umask |}]> t)
              else Err (no_entry t (resolve p))
    end).
Definition set_permissions (p : string) (m : Z) : Io () :=
  change (λ _ t, match t !! resolve p with
    | Some n => Ok (<[resolve p := with_mode m n]> t)
    | None => Err (no_entry t (resolve p))
    end).
(** Opening a file for writing, creating it with mode [m] when it is missing. *)
Definition open_create (p : string) (m : Z) (truncate : bool) : Io () :=
  change (λ _ t, match t !! resolve p with
    | Some n => match node_kind n with
                | Regular data => Ok (if truncate then <[resolve p := {| node_kind := Regular []; uid := uid n; mode := mode n |}]> t else t)
                | Directory => Err EISDIR | Symlink | Special => Err ELOOP end
    | None => if in_directory t (resolve p)
              then Ok (<[resolve p := {| node_kind := Regular []; uid := euid; mode := Z.ldiff m umask |}]> t)
              else Err (no_entry t (resolve p))
    end).
(** [file.write_all]: all the bytes, or a prefix of them and an error. *)
Definition write_all (p : string) (bytes : list Z) : Io () := λ w,
  let fault := short_write (calls w) in
  let written := match fault with Some (k, _) => take k bytes | None => bytes end in
  let t := alter (λ n, {| node_kind := Regular (data_of n ++ written); uid := uid n; mode := mode n |}) (resolve p) (tree w) in
  (match fault with Some (_, e) => Err e | None => Ok () end, commit t (counted w)).
(** [fs::write]. *)
Definition write (p : string) (bytes : list Z) : Io () := open_create p 438 true;; write_all p bytes.

(** *** Atomic writes

    [Atomic] works on the file at [p] and on its temporary sibling; the tree follows the states it
    passes through. *)
Definition file_of (n : Node) : File := {| contents := data_of n; synced := true; Atomic.mode := Some (mode n) |}.
Definition known {A} (name : string) (i : nat) (o : option A) : gmap string nat := if o then {[ name := i ]} else ∅.
Definition view (p q : string) (t : Tree) : Fs :=
  let o := t !! resolve p in let u := t !! resolve q in
  {| inodes := (if o is Some n then {[ 0%nat := file_of n ]} else ∅) ∪ (if u is Some n then {[ 1%nat := file_of n ]} else ∅);
     dir := known p 0 o ∪ known q 1 u; durable := known p 0 o ∪ known q 1 u; next := 2 |}.
Definition node_at (p q : string) (t : Tree) (s : Fs) (name : string) : option Node :=
  match dir s !! name with
  | None => None
  | Some 0%nat => t !! resolve p
  | Some 1%nat => t !! resolve q
  | Some i => f ← inodes s !! i;
      Some {| node_kind := Regular (contents f); uid := euid; mode := default file_mode (Atomic.mode f) |}
  end.
Definition set_node (k : Path) (o : option Node) (t : Tree) : Tree := partial_alter (λ _, o) k t.
Definition back (p q : string) (t : Tree) (s : Fs) : Tree :=
  set_node (resolve p) (node_at p q t s p) (set_node (resolve q) (node_at p q t s q) t).
(** The failures of the host, and those the tree itself brings about. *)
Definition tree_faults (p q : string) (t : Tree) (faults : Faults) (call : Syscall) : option IoError :=
  match faults call, call with
  | Some e, _ => Some e
  | None, OpenParent => if bool_decide (is_Some (t !! removelast (resolve p))) then None else Some (no_entry t (resolve p))
  | None, RemoveStale => if negb (in_directory t (resolve p)) then Some ENOTDIR
                         else if directory_at t (resolve q) then Some EISDIR else None
  | None, RenameTemp => if directory_at t (resolve p) then Some EISDIR else None
  | None, _ => None
  end.
Definition atomically {A} (p : string)
    (m : Faults → option (nat * IoError) → M Atomic.World FirestoneError A) : Act A :=
  match temp_path p with
  | Ok q => λ w, let t := tree w in
      let '(r, a) := m (tree_faults p q t (atomic_fault (calls w))) (short_write (calls w)) {| now := view p q t; history := [] |} in
      (r, {| tree := back p q t (now a); calls := S (calls w); past := past w ++ map (back p q t) (history a); timed := timed w |})
  | Err _ => (** Nothing is written: only the error is wanted. *)
      λ w, ((m (λ _, None) None {| now := {| inodes := ∅; dir := ∅; durable := ∅; next := 0 |}; history := [] |}).1, w)
  end.
Definition atomic_write (p : string) (bytes : list Z) : Act () :=
  atomically p (λ faults short, Atomic.write faults short p bytes).
Definition atomic_write_with_mode (p : string) (bytes : list Z) (m : Z) : Act () :=
  atomically p (λ faults short, write_with_mode faults short p bytes m).
End calls.

(** ** Paths *)

Definition plain (x : string) : Prop := has_char "/" x = false ∧ x ≠ "" ∧ x ≠ "." ∧ x ≠ "..".

Lemma resolve_join d x : is_absolute d = true → plain x → resolve (path_join d x) = resolve d ++ [x].
Proof. intros Hd (? & ? & ? & ?). unfold resolve. by rewrite components_join, foldl_app by done. Qed.

(** The parts [drop_trivial] drops carry no component, and it keeps the first part. *)
Lemma drop_trivial_parts l : rev (drop_trivial l) ≫= part_component = rev l ≫= part_component.
Proof.
  induction l as [|x [|y l] IH]; [done..|]. cbn [drop_trivial]. case_match eqn:Ht; [|done].
  cbn [drop_trivial rev] in *. rewrite IH, !bind_app. cbn [mbind list_bind]. unfold part_component at 5. rewrite Ht. simpl.
  by rewrite !app_nil_r.
Qed.
Lemma drop_trivial_sub l : drop_trivial l `suffix_of` l.
Proof.
  induction l as [|y [|z l] IH]; [done..|]. cbn [drop_trivial]. case_match; [|done]. by apply suffix_cons_r.
Qed.
Lemma drop_trivial_last l x : last l = Some x → last (drop_trivial l) = Some x.
Proof.
  induction l as [|y [|z l] IH]; [done..|]. intros Hl. cbn [drop_trivial]. case_match; [|done]. by apply IH.
Qed.
(** Parts that start with the empty one spell an absolute path. *)
Lemma text_of_absolute l :
  last l = Some "" → Forall (λ x, has_char "/" x = false) l →
  is_absolute (text_of_reversed l) = true ∧
  components (text_of_reversed l) = RootDir :: (rev l ≫= part_component).
Proof.
  intros Hl Hs. assert (∃ m, rev l = "" :: m) as [m Hm].
  { apply last_Some in Hl as [l' ->]. rewrite rev_app_distr. by eexists. }
  destruct l as [|x [|y l]]; [done| |].
  - injection Hl as ->. done.
  - assert (Forall (λ x, has_char "/" x = false) ("" :: m)) as Hs'.
    { rewrite <- Hm. by apply Forall_rev. }
    assert (m ≠ []) as Hne. { intros ->. apply (f_equal length) in Hm. rewrite length_rev in Hm. done. }
    unfold text_of_reversed. rewrite Hm, join_cons, app_empty_l by done.
    split; [done|]. rewrite components_absolute by done. unfold path_parts.
    change (String "/" (join "/" m)) with ("" +:+ String "/" (join "/" m)).
    rewrite <- (join_cons "/" "" m), split_join by done. done.
Qed.

Lemma parent_join d x :
  is_absolute d = true → plain x →
  ∃ d', parent (path_join d x) = Some d' ∧ is_absolute d' = true ∧ components d' = components d.
Proof.
  intros Hd (Hx & Hne & Hdot & _).
  assert (∃ parts, split "/" (path_join d x) = parts ++ [x] ∧ head parts = Some "" ∧
    Forall (λ x, has_char "/" x = false) parts ∧ RootDir :: (parts ≫= part_component) = components d)
    as (parts & Hsp & Hh & Hf & Hc).
  { pose proof (split_no_char "/" (path_join d x)) as Hno.
    assert (is_absolute x = false) as Hxa.
    { apply not_true_iff_false. intros [r ->]%is_absolute_spec. by rewrite has_char_cons in Hx; destruct Hx. }
    apply is_absolute_spec in Hd as [r Hd].
    assert (Hsd : components d = RootDir :: path_parts d) by (apply components_absolute, is_absolute_spec; by eexists).
    unfold path_join in *. rewrite Hxa in *. assert (is_empty d = false) as Hde by (by rewrite Hd). rewrite Hde in *.
    destruct (ends_with "/" d) eqn:He.
    - unfold ends_with in He. apply bool_decide_eq_true in He as [b ->%strip_suffix_Some].
      rewrite app_assoc_str, (app_cons "/"), app_empty_l in *. rewrite split_app_last in * by done.
      apply Forall_app in Hno as [Hno _]. exists (split "/" b). split_and!; try done.
      + destruct b as [|c b]; [done|]. rewrite app_cons in Hd. injection Hd as -> _. by destruct (split "/" b) eqn:E; [apply split_ne in E|cbn; rewrite E].
      + rewrite Hsd. unfold path_parts. rewrite split_app, bind_app. simpl. by rewrite app_nil_r.
    - rewrite (app_cons "/"), app_empty_l in *. rewrite split_app_last in * by done. apply Forall_app in Hno as [Hno _].
      exists (split "/" d). split_and!; [done| |done|by rewrite Hsd].
      rewrite Hd. by destruct (split "/" r) eqn:E; [apply split_ne in E|cbn; rewrite E]. }
  unfold parent. rewrite Hsp, rev_app_distr. simpl.
  assert (∃ p0 ps, rev parts = p0 :: ps) as (p0 & ps & Hps).
  { destruct (rev parts) eqn:E; [|by eexists _, _]. apply (f_equal (@rev _)) in E. rewrite rev_involutive in E. by subst. }
  rewrite Hps. assert (is_empty x || String.eqb x "." = false) as Ht.
  { rewrite (proj2 (is_empty_false x)), (proj2 (String.eqb_neq x ".")) by done. done. }
  rewrite Ht. cbv beta iota.
  destruct (text_of_absolute (drop_trivial (p0 :: ps))) as [Ha Hcc].
  - apply drop_trivial_last. rewrite <- Hps. destruct parts; [done|]. injection Hh as ->. simpl. by rewrite last_snoc.
  - destruct (drop_trivial_sub (p0 :: ps)) as [k Hk]. apply Forall_rev in Hf. rewrite Hps, Hk in Hf.
    by apply Forall_app in Hf as [_ Hf].
  - eexists. split_and!; [done|done|]. rewrite Hcc, drop_trivial_parts, <- Hps, rev_involutive. done.
Qed.

Lemma file_name_text p n : file_name p = Some n → plain n → temp_path p = Ok (with_file_name p (n +:+ ".tmp")).
Proof. intros Hp _. unfold temp_path. by rewrite Hp. Qed.
Lemma plain_app x s : plain x → has_char "/" s = false → (2 < String.length s)%nat → plain (x +:+ s).
Proof.
  intros (Hx & _) Hs Hl. split; [by rewrite has_char_app, Hx|].
  split_and!; intros H%(f_equal String.length); rewrite length_app_str in H; simpl in H; lia.
Qed.
Lemma temp_path_join d x :
  is_absolute d = true → plain x →
  ∃ q, temp_path (path_join d x) = Ok q ∧ resolve q = resolve d ++ [x +:+ ".tmp"].
Proof.
  intros Hd Hx. pose proof Hx as (? & ? & ? & ?).
  assert (file_name (path_join d x) = Some x) as Hf by (by apply file_name_join).
  eexists. split; [by apply file_name_text|]. unfold with_file_name. rewrite Hf.
  destruct (parent_join d x Hd Hx) as (d' & -> & Ha & Hc).
  rewrite resolve_join by (done || by apply plain_app; [|done|cbn; lia]). unfold resolve. by rewrite Hc.
Qed.

(** ** Trees *)

Lemma strip_Some d k r : strip d k = Some r ↔ k = d ++ r.
Proof.
  revert k. induction d as [|x d IH]; intros k; simpl; [naive_solver|]. destruct k as [|y k]; [done|].
  destruct (String.eqb_spec x y) as [->|Hne]; [rewrite IH; naive_solver|naive_solver].
Qed.
Lemma strip_None d k : strip d k = None ↔ ¬ ∃ r, k = d ++ r.
Proof.
  rewrite eq_None_not_Some. unfold is_Some. by setoid_rewrite strip_Some.
Qed.
Lemma strip_app d r : strip d (d ++ r) = Some r.
Proof. by apply strip_Some. Qed.
Lemma elem_of_entries x d (t : Tree) : x ∈ entries d t ↔ is_Some (t !! (d ++ [x])).
Proof.
  unfold entries. rewrite list_elem_of_omap. split.
  - intros ([k n] & Hk%elem_of_map_to_list & Hx). simpl in Hx.
    destruct (strip d k) as [[|y [|]]|] eqn:Hs; try done. injection Hx as ->. apply strip_Some in Hs as ->. by eexists.
  - intros [n Hn]. exists (d ++ [x], n). split; [by apply elem_of_map_to_list|]. simpl. by rewrite strip_app.
Qed.
Lemma NoDup_entries d (t : Tree) : NoDup (entries d t).
Proof.
  unfold entries. assert (NoDup (map_to_list t).*1) as Hd by apply NoDup_fst_map_to_list.
  induction (map_to_list t) as [|[k n] l IH]; [constructor|]. apply NoDup_cons in Hd as [Hk Hl]. specialize (IH Hl).
  cbn [omap list_omap fst] in *. destruct (strip d k) as [[|x [|]]|] eqn:Hs; try done.
  constructor; [|done]. clear IH. apply strip_Some in Hs as ->.
  rewrite list_elem_of_omap. intros ([k' n'] & Hin & Hx). simpl in Hx.
  destruct (strip d k') as [[|y [|]]|] eqn:Hs'; try done. injection Hx as ->. apply strip_Some in Hs' as ->.
  apply Hk, list_elem_of_fmap. by exists (d ++ [x], n').
Qed.
Lemma elem_of_subtree k d (t : Tree) : k ∈ subtree d t ↔ (∃ r, k = d ++ r) ∧ is_Some (t !! k).
Proof.
  unfold subtree. rewrite list_elem_of_filter, list_elem_of_fmap. unfold is_Some at 1. setoid_rewrite strip_Some. split.
  - intros [Hr ([k' n] & -> & Hk%elem_of_map_to_list)]. split; [done|by eexists].
  - intros [Hr [n Hn]]. split; [done|]. exists (k, n). split; [done|by apply elem_of_map_to_list].
Qed.

(** Neither place is inside the other. *)
Definition separate (a b : Path) : Prop := strip a b = None ∧ strip b a = None.
Lemma separate_strip a b r s : separate a b → a ++ r ≠ b ++ s.
Proof.
  intros [Ha Hb] He. rewrite strip_None in Ha, Hb.
  destruct (app_eq_inv a r b s He) as [(k & -> & _)|(k & -> & _)]; [apply Hb|apply Ha]; by eexists.
Qed.
#[export] Instance swap_inj a b : separate a b → Inj (=) (=) (swap a b).
Proof.
  intros Hs x y. unfold swap.
  destruct (strip a x) eqn:Hx; [|destruct (strip b x) eqn:Hx'];
    (destruct (strip a y) eqn:Hy; [|destruct (strip b y) eqn:Hy']); intros E.
  all: repeat match goal with H : strip _ _ = Some _ |- _ => apply strip_Some in H; subst end.
  all: try (apply app_inv_head in E; by subst).
  all: try (symmetry in E; by apply separate_strip in E).
  all: try (by apply separate_strip in E).
  all: first [done|subst; rewrite strip_app in *; done].
Qed.
Lemma lookup_move a b (t : Tree) k :
  separate a b →
  move a b t !! k = match strip b k with
                    | Some r => t !! (a ++ r)
                    | None => match strip a k with Some _ => None | None => t !! k end
                    end.
Proof.
  intros Hs. pose proof (swap_inj a b Hs).
  assert (∀ j, k = swap a b j → move a b t !! k = if decide (strip b j = None) then t !! j else None) as Hk.
  { intros j ->. unfold move. etrans; [exact (lookup_kmap (M1 := gmap Path) (M2 := gmap Path) (swap a b) (filter (λ kn, strip b kn.1 = None) t) j)|]. case_decide.
    - destruct (t !! j) as [n|] eqn:Hj; [by apply map_lookup_filter_Some|]. by apply map_lookup_filter_None_2; left.
    - apply map_lookup_filter_None_2. right. by intros n _. }
  assert (∀ r, strip b (a ++ r) = None) as Har.
  { intros r. apply strip_None. intros [s He]. by apply separate_strip in He. }
  assert (∀ r, strip a (b ++ r) = None) as Hbr.
  { intros r. apply strip_None. intros [s He]. symmetry in He. by apply separate_strip in He. }
  destruct (strip b k) as [r|] eqn:Hb; [|destruct (strip a k) as [r|] eqn:Ha].
  - apply strip_Some in Hb as ->. rewrite (Hk (a ++ r)); [|by unfold swap; rewrite strip_app].
    by rewrite decide_True by done.
  - apply strip_Some in Ha as ->. rewrite (Hk (b ++ r)); [|by unfold swap; rewrite Hbr, strip_app].
    rewrite decide_False; [done|]. by rewrite strip_app.
  - rewrite (Hk k); [|by unfold swap; rewrite Ha, Hb]. by rewrite decide_True.
Qed.
Lemma separate_swap a b : separate a b → separate b a.
Proof. by intros []. Qed.
Lemma separate_siblings d x y : x ≠ y → separate (d ++ [x]) (d ++ [y]).
Proof.
  intros Hne. split; apply strip_None; intros [r Hr]; rewrite <- app_assoc in Hr; apply app_inv_head in Hr; by injection Hr.
Qed.
Lemma separate_app a b r s : separate a b → separate (a ++ r) (b ++ s).
Proof.
  intros Hs. split; apply strip_None; intros [x Hx]; rewrite <- app_assoc in Hx;
    [symmetry in Hx|]; by apply separate_strip in Hx.
Qed.
Lemma separate_ne a b : separate a b → a ≠ b.
Proof. intros Hs ->. by apply (separate_strip b b [] [] Hs). Qed.

(** ** Reasoning about runs *)

(** Started in [t], [m] passes only through trees that satisfy [I] and ends as [Q] says. *)
Definition safe {Sink E A : Type} (I : Tree → Prop) (m : M (World Sink) E A) (t : Tree) (Q : result E A → Tree → Prop) : Prop :=
  ∀ w, tree w = t → Forall I (past w) → Forall I (past (m w).2) ∧ Q (m w).1 (tree (m w).2).

(** A failing call is not an answer about what is there. *)
Class RealFaults `{Host} := {
  fault_real n e : fault n = Some e → io_kind e ≠ IoNotFound ∧ io_kind e ≠ IoAlreadyExists }.

(** The host fails some call this way. *)
Definition faulty `{Host} (e : IoError) : Prop := ∃ n, fault n = Some e.

Section rules.
Context {Sink : Type} `{RealFaults} {I : Tree → Prop}.
Local Abbreviation World := (World Sink).

Lemma safe_bind {E A B} (m : M World E A) (k : A → M World E B) (t : Tree) Q :
  safe I m t (λ r t', match r with Ok a => safe I (k a) t' Q | Err e => Q (Err e) t' end) → safe I (m ≫= k) t Q.
Proof using Type.
  intros Hm w Hw HI. specialize (Hm w Hw HI). unfold mbind, M_bind. destruct (m w) as [[a|e] w']; [|done].
  destruct Hm as [HI' Hk]. by apply Hk.
Qed.
Lemma safe_mono {E A} (m : M World E A) (t : Tree) (Q Q' : result E A → Tree → Prop) :
  safe I m t Q → (∀ r t', Q r t' → Q' r t') → safe I m t Q'.
Proof using Type. intros Hm HQ w Hw HI. destruct (Hm w Hw HI). eauto. Qed.
Lemma safe_ret {E A} (a : A) (t : Tree) (Q : result E A → Tree → Prop) : Q (Ok a) t → safe (Sink := Sink) I (mret a) t Q.
Proof using Type. by intros HQ w <- HI. Qed.
Lemma safe_fail {E A} (e : E) (t : Tree) (Q : result E A → Tree → Prop) : Q (Err e) t → safe (Sink := Sink) I (M_fail e) t Q.
Proof using Type. by intros HQ w <- HI. Qed.
Lemma safe_lift {E A} (r : result E A) (t : Tree) (Q : result E A → Tree → Prop) : Q r t → safe (Sink := Sink) I (M_lift r) t Q.
Proof using Type. by intros HQ w <- HI. Qed.
Lemma safe_map_err {E F A} (f : E → F) (m : M World E A) (t : Tree) (Q : result F A → Tree → Prop) :
  safe I m t (λ r, Q (map_err f r)) → safe I (M_map_err f m) t Q.
Proof using Type. intros Hm w Hw HI. specialize (Hm w Hw HI). unfold M_map_err. by destruct (m w). Qed.
Lemma safe_on_clock {E A} (m : M (Timed Sink) E A) (t : Tree) (Q : result E A → Tree → Prop) :
  (∀ r, Q r t) → safe (Sink := Sink) I (on_clock m) t Q.
Proof using Type. intros HQ w <- HI. unfold on_clock. by destruct (m (timed w)). Qed.
Lemma safe_ask {A} (f : nat → Tree → result IoError A) (t : Tree) (Q : result IoError A → Tree → Prop) :
  (∀ i, Q (f i t) t) → (∀ e, faulty e → io_kind e ≠ IoNotFound → io_kind e ≠ IoAlreadyExists → Q (Err e) t) →
  safe (Sink := Sink) I (ask f) t Q.
Proof using H0.
  intros Hf He w <- HI. unfold ask. cbn. split; [done|]. destruct (fault (calls w)) eqn:Hn; [|done].
  pose proof Hn as []%fault_real. apply He; [by eexists|done..].
Qed.
Lemma safe_change (f : nat → Tree → result IoError Tree) (t : Tree) (Q : result IoError () → Tree → Prop) :
  (∀ i, match f i t with Ok t' => I t' ∧ Q (Ok ()) t' | Err e => Q (Err e) t end) →
  (∀ e, io_kind e ≠ IoNotFound → io_kind e ≠ IoAlreadyExists → Q (Err e) t) → safe (Sink := Sink) I (change f) t Q.
Proof using H0.
  intros Hf He w <- HI. unfold change. destruct (fault (calls w)) eqn:Hn.
  - apply fault_real in Hn as []. split; [done|]. by apply He.
  - specialize (Hf (calls w)). destruct (f (calls w) (tree w)); [|done]. cbn. rewrite Forall_app. naive_solver.
Qed.
End rules.

(** *** Atomic writes on a tree *)

Section atomic_write.
Context (faults : Faults) (p q : string) (Hq : temp_path p = Ok q) (d0 : option nat) (m : option Z).
Context (wr : list Z * option IoError).

(** Nothing was published yet; the temporary file is written; the file is published. *)
Definition unpublished (s : Fs) : Prop := dir s !! p = d0 ∧ (2 ≤ next s)%nat.
Definition staged (i : nat) (F : File → Prop) (s : Fs) : Prop :=
  unpublished s ∧ dir s !! q = Some i ∧ (2 ≤ i)%nat ∧ ∃ f, inodes s !! i = Some f ∧ Atomic.mode f = m ∧ F f.
Definition published (s : Fs) : Prop :=
  dir s !! q = None ∧ wr.2 = None ∧
  ∃ i f, dir s !! p = Some i ∧ (2 ≤ i)%nat ∧ inodes s !! i = Some f ∧ Atomic.mode f = m ∧ contents f = wr.1.
Definition stage (s : Fs) : Prop := unpublished s ∨ published s.
Local Abbreviation triple := (spec stage).

Lemma q_ne_p : q ≠ p.
Proof using Hq. by apply temp_path_ne. Qed.
Lemma unpublished_remove s : unpublished s → unpublished (set_dir (delete q (dir s)) s).
Proof using Hq. intros [Hd Hn]. split; [|done]. cbn. rewrite lookup_delete_ne by apply q_ne_p. done. Qed.
Lemma remove_temp call : triple unpublished (Atomic.remove_file faults call q) (λ _, unpublished).
Proof using Hq.
  apply spec_remove_file; [|done]. intros s Hs%unpublished_remove. split; [by left|done].
Qed.
Lemma create_temp :
  triple unpublished (create_new faults q m)
    (λ r s, match r with Ok i => staged i (λ _, True) s | Err _ => unpublished s end).
Proof using Hq.
  intros w HI [Hd Hn]. unfold create_new. destruct (faults CreateTemp); [done|].
  destruct (dir (now w) !! q); [done|]. cbn.
  assert (staged (next (now w)) (λ _, True) {| inodes := <[next (now w) := {| contents := []; synced := false; Atomic.mode := m |}]> (inodes (now w));
    dir := <[q := next (now w)]> (dir (now w)); durable := durable (now w); next := S (next (now w)) |}) as HT.
  { split; [split; cbn; [by rewrite lookup_insert_ne by apply q_ne_p|lia]|]. cbn. rewrite !lookup_insert_eq. naive_solver. }
  split; [|exact HT]. apply Forall_app; split; [done|]. constructor; [|done]. left. apply HT.
Qed.
Lemma cleaned {A} op P (k : M Atomic.World IoError A) (Q : A → Fs → Prop) :
  triple P k (λ r s, match r with Ok a => Q a s | Err _ => unpublished s end) →
  triple P (or_clean faults op q k) (λ r s, match r with Ok a => Q a s | Err _ => unpublished s end).
Proof using Hq.
  intros Hk w HI HP. specialize (Hk w HI HP). unfold or_clean. destruct (k w) as [[a|e] w']; [done|].
  destruct Hk as [HI' HP']. pose proof (remove_temp RemoveFailed w' HI' HP') as Hr. unfold fail_before_rename.
  by destruct (Atomic.remove_file faults RemoveFailed q w').
Qed.
Lemma staged_set i (F G : File → Prop) f' s : staged i F s → Atomic.mode f' = m → G f' → staged i G (set_inode i f' s).
Proof using Type.
  intros ((Hd & Hn) & Hi & Hle & _) Hm HG. split; [done|]. split; [done|]. split; [done|]. exists f'. cbn.
  by rewrite lookup_insert_eq.
Qed.
Lemma staged_sys i (F G : File → Prop) call g :
  (∀ f, Atomic.mode f = m → F f → Atomic.mode (g f) = m ∧ G (g f)) →
  triple (staged i F) (sys faults call (λ s, match inodes s !! i with Some f => set_inode i (g f) s | None => s end))
    (λ r s, match r with Ok _ => staged i G s | Err _ => unpublished s end).
Proof using Type.
  intros Hg. apply spec_sys; [|by intros ?? [? _]]. intros s HT _. pose proof HT as (_ & _ & _ & f & Hi & Hm & HF). rewrite Hi.
  destruct (Hg f Hm HF). assert (staged i G (set_inode i (g f) s)) as HT' by (by eapply staged_set).
  split; [left; apply HT'|done].
Qed.
Lemma written_staged i :
  triple (staged i (λ _, True)) (run_writer i wr)
    (λ r s, match r with Ok _ => staged i (λ f, contents f = wr.1) s ∧ wr.2 = None | Err _ => unpublished s end).
Proof using Type.
  intros w HI HT. pose proof HT as (_ & _ & _ & f & Hi & Hm & _). unfold run_writer. cbn.
  assert (staged i (λ f, contents f = wr.1) (store_data i wr.1 (now w))) as HT'.
  { unfold store_data. rewrite Hi. by eapply staged_set. }
  assert (Forall stage (history w ++ [store_data i wr.1 (now w)])).
  { apply Forall_app; split; [done|]. constructor; [left; apply HT'|done]. }
  destruct wr.2; (split; [done|]); [apply HT'|done].
Qed.
Lemma publish i s :
  staged i (λ f, contents f = wr.1) s → wr.2 = None → published (set_dir (<[p := i]> (delete q (dir s))) s).
Proof using Hq.
  intros (_ & Hi & Hle & f & Hf & Hm & Hc) Hw. pose proof q_ne_p. split; [|split; [done|]]; cbn.
  - by rewrite lookup_insert_ne, lookup_delete_eq.
  - exists i, f. by rewrite lookup_insert_eq.
Qed.
(** Publication is one step, and a run that reports success has made it. *)
Lemma write_publishes bytes readable write_bytes :
  write_bytes bytes = wr →
  triple unpublished (write_with_options faults p bytes m readable write_bytes)
    (λ r s, match r with Ok _ => published s | Err _ => stage s end).
Proof using Hq.
  intros Hw. unfold write_with_options. rewrite Hq, Hw.
  assert (HE : ∀ s, unpublished s → stage s) by (by left).
  destruct (invalid_mode m); [intros w HI HP; split; [done|by apply HE]|].
  apply spec_lift_bind; [intros; by apply HE|intros parent _].
  apply spec_lift_bind; [done|intros temp [= <-]].
  apply (spec_bind _ _ (λ _, unpublished)); [|intros; by apply HE|intros _].
  { apply spec_map_err, spec_sys; [|done]. intros s Hs _. split; [by left|done]. }
  apply (spec_bind _ _ (λ _, unpublished)); [|intros; by apply HE|intros _].
  { intros w HI HP. pose proof (remove_temp RemoveStale w HI HP) as Hr. unfold remove_known_temp.
    destruct (Atomic.remove_file faults RemoveStale q w) as [[] ?]; [done|]. by destruct (bool_decide _). }
  eapply (spec_bind _ _ (λ r s, match r with Ok i => staged i (λ _, True) s | Err _ => unpublished s end));
    [|intros; by apply HE|intros i].
  { apply spec_map_err. eapply spec_conseq; [apply create_temp|by intros []]. }
  eapply (spec_bind _ _ (λ r s, match r with Ok _ => staged i (λ _, True) s | Err _ => unpublished s end));
    [|intros; by apply HE|intros _].
  { destruct m as [v|] eqn:Hm; [|by apply spec_ret]. apply cleaned, staged_sys. naive_solver. }
  eapply (spec_bind _ _ (λ r s, match r with
    | Ok _ => staged i (λ f, contents f = wr.1) s ∧ wr.2 = None | Err _ => unpublished s end)); [|intros; by apply HE|intros _].
  { apply cleaned, written_staged. }
  apply spec_pure. intros Hnone.
  eapply (spec_bind _ _ (λ r s, match r with Ok _ => staged i (λ f, contents f = wr.1) s | Err _ => unpublished s end));
    [|intros; by apply HE|intros _].
  { apply cleaned, staged_sys. naive_solver. }
  eapply (spec_bind _ _ (λ r s, match r with Ok _ => published s | Err _ => unpublished s end));
    [|intros; by apply HE|intros _].
  { apply cleaned, spec_sys; [|by intros ?? [? _]]. intros s HT _. pose proof HT as (_ & Hi & _). rewrite Hi.
    assert (published (set_dir (<[p:=i]> (delete q (dir s))) s)) by (by apply publish). split; [by right|done]. }
  apply spec_map_err, spec_sys; [|intros; by right].
  intros s Hs _. assert (published {| inodes := inodes s; dir := dir s; durable := dir s; next := next s |}) by done.
  split; [by right|done].
Qed.
End atomic_write.

Section on_tree.
Context `{Host} (p q : string) (t : Tree).
Context (Hq : temp_path p = Ok q) (Hne : resolve p ≠ resolve q).

Definition written_node (bytes : list Z) (m : option Z) : Node :=
  {| node_kind := Regular bytes; uid := euid; mode := default file_mode m |}.
Lemma lookup_known_p : dir (view p q t) !! p = (λ _, 0%nat) <$> t !! resolve p.
Proof using Hq.
  pose proof (temp_path_ne _ _ Hq). unfold view, known. cbn.
  destruct (t !! resolve p), (t !! resolve q); cbn; simplify_map_eq; rewrite ?lookup_union; simplify_map_eq; done.
Qed.
Lemma back_unpublished s :
  dir s !! p = dir (view p q t) !! p → back p q t s = set_node (resolve q) (node_at p q t s q) t.
Proof using Hq Hne.
  intros Hs. unfold back. assert (node_at p q t s p = t !! resolve p) as ->.
  { unfold node_at. rewrite Hs, lookup_known_p. by destruct (t !! resolve p). }
  unfold set_node. apply map_eq. intros k. destruct (decide (k = resolve p)) as [->|Hk].
  - by rewrite lookup_partial_alter_eq, lookup_partial_alter_ne by done.
  - by rewrite lookup_partial_alter_ne by done.
Qed.
Lemma back_published bytes m s :
  published p q m (bytes, None) s → back p q t s = <[resolve p := written_node bytes m]> (delete (resolve q) t).
Proof using Type.
  intros (Hdq & _ & i & f & Hd & Hi & Hf & Hm & Hc). unfold back, node_at. rewrite Hd, Hdq.
  destruct i as [|[|i]]; [lia..|]. rewrite Hf. cbn in *. subst. done.
Qed.
Lemma view_unpublished : unpublished p (dir (view p q t) !! p) (view p q t).
Proof using Type. split; [done|]. cbn. lia. Qed.
End on_tree.

Section atomic_rule.
Context {Sink : Type} `{Host} {I : Tree → Prop}.

(** An atomic write leaves the file as it was, or complete; only its temporary sibling can differ
    besides, and is gone when the file is published. *)
Lemma safe_atomically p q (t : Tree) (m : option Z) bytes
    (act : Faults → option (nat * IoError) → M Atomic.World FirestoneError ()) (Q : result FirestoneError () → Tree → Prop) :
  temp_path p = Ok q → resolve p ≠ resolve q →
  (∀ faults short w, act faults short w = write_with_options faults p bytes m false (Atomic.write_all short) w) →
  (∀ u, I (set_node (resolve q) u t)) → I (<[resolve p := written_node bytes m]> (delete (resolve q) t)) →
  Q (Ok ()) (<[resolve p := written_node bytes m]> (delete (resolve q) t)) →
  (∀ e u, Q (Err e) (set_node (resolve q) u t)) →
  (∀ e, Q (Err e) (<[resolve p := written_node bytes m]> (delete (resolve q) t))) →
  safe (Sink := Sink) I (atomically p act) t Q.
Proof using Type.
  intros Hq Hne Hact HIu HIp Hok Herr Herr' w Hw HI. unfold atomically. rewrite Hq, Hact, Hw.
  set (wr := Atomic.write_all (short_write (calls w)) bytes).
  set (faults := tree_faults _ _ _ _).
  pose proof (write_publishes faults p q Hq (dir (view p q t) !! p) m wr bytes false (Atomic.write_all (short_write (calls w))) eq_refl
    {| now := view p q t; history := [] |} (Forall_nil_2 _) (view_unpublished p q t)) as Hrun.
  destruct (write_with_options _ _ _ _ _ _ _) as [r a]. destruct Hrun as [Hh Hr].
  assert (Hst : ∀ s, stage p q (dir (view p q t) !! p) m wr s →
    back p q t s = set_node (resolve q) (node_at p q t s q) t
    ∨ back p q t s = <[resolve p := written_node bytes m]> (delete (resolve q) t)).
  { intros s [[Hs _]|Hs]; [left; by apply back_unpublished|right]. apply back_published.
    assert (wr = (bytes, None)) as <-; [|done]. destruct Hs as (_ & Hw2 & _). unfold wr, Atomic.write_all in *.
    by destruct (short_write (calls w)) as [[]|]. }
  cbn. split.
  - apply Forall_app; split; [done|]. apply Forall_map. eapply Forall_impl; [exact Hh|]. cbn. intros s Hs.
    destruct (Hst s Hs) as [-> | ->]; done.
  - destruct r as [[]|e]; [destruct (Hst _ (or_intror Hr)) as [E|E]|destruct (Hst _ Hr) as [-> | ->]]; [|by rewrite E|done..].
    destruct Hr as (Hdq & Hw2 & i & f & Hd & Hi & Hf & Hm & Hc).
    rewrite (back_published p q t bytes m); [done|]. assert (wr = (bytes, None)) as <-.
    { unfold wr, Atomic.write_all in *. by destruct (short_write (calls w)) as [[]|]. }
    split; [done|]. split; [done|]. by exists i, f.
Qed.
End atomic_rule.

(** *** Calls *)

(** [t'] is [t] without some of what is at or below [d]. *)
Definition pruned (d : Path) (t t' : Tree) : Prop :=
  ∀ k, t' !! k = t !! k ∨ (t' !! k = None ∧ ∃ r, k = d ++ r).
Lemma pruned_refl d (t : Tree) : pruned d t t.
Proof. by left. Qed.
Lemma pruned_delete d (t t' : Tree) r : pruned d t t' → pruned d t (delete (d ++ r) t').
Proof.
  intros Ht k. destruct (decide (k = d ++ r)) as [->|Hk].
  - right. rewrite lookup_delete_eq. eauto.
  - rewrite lookup_delete_ne by done. apply Ht.
Qed.

Section call_rules.
Context {Sink : Type} `{RealFaults} {I : Tree → Prop}.
Local Abbreviation safe := (safe (Sink := Sink) I).
Implicit Types t : Tree.

Lemma safe_metadata p t (Q : result IoError Node → Tree → Prop) :
  (∀ n, t !! resolve p = Some n → Q (Ok n) t) →
  (∀ e, (io_kind e = IoNotFound → t !! resolve p = None) → Q (Err e) t) → safe (symlink_metadata p) t Q.
Proof using H0.
  intros Hok He. apply safe_ask; [|intros e _ Hn _; by apply He].
  intros _. destruct (t !! resolve p) eqn:Hp; [by apply Hok|]. by apply He.
Qed.
Lemma safe_metadata_exact p t (Q : result IoError Node → Tree → Prop) :
  (∀ n, t !! resolve p = Some n → Q (Ok n) t) →
  (t !! resolve p = None → Q (Err (no_entry t (resolve p))) t) →
  (∀ e, faulty e → io_kind e ≠ IoNotFound → Q (Err e) t) → safe (symlink_metadata p) t Q.
Proof using H0.
  intros Hok Hno He. apply safe_ask; [|intros e Hf Hn _; by apply He]. intros _. destruct (t !! resolve p); naive_solver.
Qed.
Lemma safe_read_dir p t (Q : result IoError (list string) → Tree → Prop) :
  (∀ n l, t !! resolve p = Some n → is_dir n = true → l ≡ₚ entries (resolve p) t → Q (Ok l) t) →
  (∀ e, (io_kind e = IoNotFound → t !! resolve p = None) → Q (Err e) t) → safe (read_dir p) t Q.
Proof using H0.
  intros Hok He. apply safe_ask; [|intros e _ Hn _; by apply He].
  intros i. destruct (t !! resolve p) as [n|] eqn:Hp; [|by apply He].
  destruct (is_dir n) eqn:Hd; [|by apply He]. by eapply Hok; [..|apply listing_perm].
Qed.
Lemma safe_read p t (Q : result IoError (list Z) → Tree → Prop) :
  (∀ n data, t !! resolve p = Some n → node_kind n = Regular data → Q (Ok data) t) →
  (∀ e, Q (Err e) t) → safe (read p) t Q.
Proof using H0.
  intros Hok He. apply safe_ask; [|intros e _ _ _; apply He].
  intros _. destruct (t !! resolve p) as [n|] eqn:Hp; [|apply He]. destruct (node_kind n) eqn:Hn; [by eapply Hok|apply He..].
Qed.
Lemma safe_sync_all p t (Q : result IoError () → Tree → Prop) : (∀ r, Q r t) → safe (sync_all p) t Q.
Proof using H0.
  intros HQ. apply safe_bind, safe_ask; [|intros e _ _ _; apply HQ]. intros _. destruct (directory_at _ _); [|apply HQ].
  apply safe_ask; [intros _; apply HQ|intros e _ _ _; apply HQ].
Qed.
Lemma safe_remove_file p t (Q : result IoError () → Tree → Prop) :
  (∀ n, t !! resolve p = Some n → is_dir n = false → I (delete (resolve p) t) ∧ Q (Ok ()) (delete (resolve p) t)) →
  (∀ e, (io_kind e = IoNotFound → t !! resolve p = None) → Q (Err e) t) → safe (remove_file p) t Q.
Proof using H0.
  intros Hok He. apply safe_change; [|intros e Hn _; by apply He].
  intros _. destruct (t !! resolve p) as [n|] eqn:Hp; [|by apply He].
  destruct (is_dir n) eqn:Hd; [by apply He|by eapply Hok].
Qed.
Lemma safe_create_dir p m t (Q : result IoError () → Tree → Prop) :
  (t !! resolve p = None → directory_at t (removelast (resolve p)) = true →
   let t' := <[resolve p := {| node_kind := Directory; uid := euid; mode := Z.ldiff m umask |}]> t in I t' ∧ Q (Ok ()) t') →
  (∀ e, (io_kind e = IoAlreadyExists → is_Some (t !! resolve p)) → Q (Err e) t) → safe (create_dir p m) t Q.
Proof using H0.
  intros Hok He. apply safe_change; [|intros e _ Hn; by apply He].
  intros _. destruct (t !! resolve p) as [n|] eqn:Hp; [by apply He|].
  unfold in_directory. destruct (directory_at t _) eqn:Hd; [by apply Hok|]. apply He. unfold no_entry. by case_match.
Qed.
Lemma safe_set_permissions p m t (Q : result IoError () → Tree → Prop) :
  (∀ n, t !! resolve p = Some n → let t' := <[resolve p := with_mode m n]> t in I t' ∧ Q (Ok ()) t') →
  (∀ e, Q (Err e) t) → safe (set_permissions p m) t Q.
Proof using H0.
  intros Hok He. apply safe_change; [|intros; apply He]. intros _. destruct (t !! resolve p) as [n|] eqn:Hp; [by apply Hok|apply He].
Qed.
Lemma safe_rename from to t (Q : result IoError () → Tree → Prop) :
  resolve from ≠ resolve to →
  (∀ n, t !! resolve from = Some n → strip (resolve from) (resolve to) = None →
    directory_at t (removelast (resolve to)) = true →
    (∀ m, t !! resolve to = Some m → is_dir m = is_dir n ∧ (is_dir m = true → entries (resolve to) t = [])) →
    I (move (resolve from) (resolve to) t) ∧ Q (Ok ()) (move (resolve from) (resolve to) t)) →
  (∀ e, Q (Err e) t) → safe (rename from to) t Q.
Proof using H0.
  intros Hne Hok He. apply safe_change; [|intros; apply He]. intros _. cbn zeta.
  destruct (t !! resolve from) as [n|] eqn:Ha; [|apply He]. rewrite bool_decide_eq_false_2 by done.
  case_bool_decide as Hs; [apply He|]. apply eq_None_not_Some in Hs.
  unfold in_directory. destruct (directory_at t _) eqn:Hd; [|apply He]. cbn.
  destruct (t !! resolve to) as [m|] eqn:Hb.
  - destruct (is_dir m) eqn:Hm, (is_dir n) eqn:Hn; cbn; try apply He.
    + case_bool_decide; [|apply He]. apply (Hok n); [done..|]. intros ? [= <-]. by rewrite Hm, Hn.
    + apply (Hok n); [done..|]. intros ? [= <-]. by rewrite Hm, Hn.
  - by apply (Hok n).
Qed.

Lemma safe_unlink_all d keys t0 t (Q : result IoError () → Tree → Prop) :
  (∀ t', pruned d t0 t' → I t') → Forall (λ k, ∃ r, k = d ++ r) keys → pruned d t0 t →
  (∀ t', pruned d t t' → Forall (λ k, t' !! k = None) keys → Q (Ok ()) t') →
  (∀ e t', pruned d t0 t' → Q (Err e) t') → safe (unlink_all keys) t Q.
Proof using H0.
  intros HI Hk Ht Hok He. revert t Ht Hok. induction Hk as [|k keys [r ->] _ IH]; intros t Ht Hok; cbn [unlink_all].
  - apply safe_ret, Hok; [apply pruned_refl|done].
  - apply safe_bind, safe_change; [|intros; by apply He]. intros _.
    destruct (t !! (d ++ r)) as [n|] eqn:Hn; [|by apply He].
    assert (I (delete (d ++ r) t) ∧ safe (unlink_all keys) (delete (d ++ r) t) Q) as Hgo.
    { split; [by apply HI, pruned_delete|]. apply IH; [by apply pruned_delete|]. intros t' Ht' Hkeys. apply Hok.
      - intros k. destruct (Ht' k) as [->|]; [|by right]. destruct (decide (k = d ++ r)) as [->|Hne].
        + rewrite lookup_delete_eq. right. eauto.
        + rewrite lookup_delete_ne by done. by left.
      - constructor; [|done]. destruct (Ht' (d ++ r)) as [->|[]]; [by rewrite lookup_delete_eq|done]. }
    destruct (is_dir n); [case_bool_decide; [done|by apply He]|done].
Qed.
Lemma safe_remove_dir_all p t (Q : result IoError () → Tree → Prop) :
  (∀ t', pruned (resolve p) t t' → I t') →
  (∀ t', pruned (resolve p) t t' → (∀ r, t' !! (resolve p ++ r) = None) → Q (Ok ()) t') →
  (∀ e t', pruned (resolve p) t t' → Q (Err e) t') → safe (remove_dir_all p) t Q.
Proof using H0.
  intros HI Hok He. apply safe_bind, safe_ask; [|intros; by apply He, pruned_refl].
  intros i. destruct (t !! resolve p) as [n|] eqn:Hn; [|by apply He, pruned_refl].
  apply (safe_unlink_all (resolve p) _ t); [done| |apply pruned_refl| |done].
  - rewrite removal_perm, Forall_forall. intros k Hk%elem_of_subtree. apply Hk.
  - intros t' Ht'. rewrite removal_perm, Forall_forall. intros Hgone. apply Hok; [done|]. intros r.
    destruct (Ht' (resolve p ++ r)) as [E|[]]; [|done]. rewrite E. apply eq_None_not_Some. intros Hsome.
    specialize (Hgone (resolve p ++ r)). rewrite elem_of_subtree in Hgone. rewrite E in Hgone.
    rewrite Hgone in Hsome by eauto. by destruct Hsome.
Qed.

Lemma safe_open_create p m (truncate : bool) t (Q : result IoError () → Tree → Prop) :
  (t !! resolve p = None → directory_at t (removelast (resolve p)) = true →
   let t' := <[resolve p := {| node_kind := Regular []; uid := euid; mode := Z.ldiff m umask |}]> t in I t' ∧ Q (Ok ()) t') →
  (∀ n data, t !! resolve p = Some n → node_kind n = Regular data →
   let t' := if truncate then <[resolve p := {| node_kind := Regular []; uid := uid n; mode := mode n |}]> t else t in
   I t' ∧ Q (Ok ()) t') →
  (∀ e, Q (Err e) t) → safe (open_create p m truncate) t Q.
Proof using H0.
  intros Hnew Hold He. apply safe_change; [|intros; apply He]. intros _. destruct (t !! resolve p) as [n|] eqn:Hp.
  - destruct (node_kind n) eqn:Hn; [by eapply Hold|apply He..].
  - unfold in_directory. destruct (directory_at t _) eqn:Hd; [by apply Hnew|apply He].
Qed.
(** Writing a new file: it is there with a prefix of its contents, or with all of them. *)
Lemma safe_write p bytes t (Q : result IoError () → Tree → Prop) :
  t !! resolve p = None →
  let file data := <[resolve p := {| node_kind := Regular data; uid := euid; mode := file_mode |}]> t in
  (∀ data, I (file data)) → Q (Ok ()) (file bytes) → (∀ e, Q (Err e) t) → (∀ e data, Q (Err e) (file data)) →
  safe (write p bytes) t Q.
Proof using H0.
  intros Hp file HI Hok He He'. apply safe_bind, safe_open_create; [|by rewrite Hp|done].
  intros _ _. split; [apply HI|]. intros w Hw HIw. unfold write_all. cbn. rewrite Hw.
  assert (∀ data, alter (λ n, {| node_kind := Regular (data_of n ++ data); uid := uid n; mode := mode n |}) (resolve p)
    (<[resolve p := {| node_kind := Regular []; uid := euid; mode := file_mode |}]> t) = file data) as Ha.
  { intros data. rewrite alter_insert_eq. done. }
  rewrite Ha. split; [apply Forall_app; split; [done|]; constructor; [apply HI|done]|]. destruct (short_write (calls w)) as [[n e]|]; [apply He'|done].
Qed.
End call_rules.

Definition deeper (j k : Path) : Prop := (length k ≤ length j)%nat.
#[export] Instance deeper_dec : RelDecision deeper.
Proof. intros j k. unfold deeper. apply le_dec. Defined.
(** A host where every call succeeds. *)
#[export] Instance quiet_host : Host := {|
  fault := λ _, None; atomic_fault := λ _ _, None; short_write := λ _, None;
  listing := λ _ l, l; listing_perm := λ _ l, Permutation_refl l;
  removal_order := λ _ l, merge_sort deeper l;
  removal_perm := λ _ l, merge_sort_Permutation _ l;
  umask := 18; euid := 1000 |}.
#[export] Instance quiet_faults : RealFaults.
Proof. by constructor. Qed.
Definition dir_node (u m : Z) : Node := {| node_kind := Directory; uid := u; mode := m |}.
Definition file_node (data : list Z) (m : Z) : Node := {| node_kind := Regular data; uid := 1000; mode := m |}.
