(* ===== verification/DataDirs.v ===== *)
(** The directories Firestone owns, on disk ([firestone-core/src/paths.rs]): who may own what lies on
    the way to them, their creation, and the runtime directory of a machine. *)
From stdpp Require Import gmap sorting.
From S2P Require Import Prelude RustStr RustPath Errors Clock Atomic Paths BTree Tree.
Open Scope Z_scope.

(** ** Errors *)

Definition dependency (message hint : string) : FirestoneError := with_hint (error_new Dependency message) hint.
Definition mode_text (m : Z) : string := octal 11 m "".
Definition directory_io_error (operation label path : string) (source : IoError) : FirestoneError :=
  with_source (dependency ("cannot " +:+ operation +:+ " " +:+ label +:+ " '" +:+ path +:+ "': " +:+ io_text source)
    "check the parent directory permissions and run 'firestone doctor --fix'") (io_text source).
Definition runtime_io_error (operation path : string) (source : IoError) : FirestoneError :=
  directory_io_error operation "runtime directory" path source.
(** [Errno::ELOOP] and [Errno::ENOTDIR] are known apart. *)
Definition descriptor_directory_open_error (operation label path : string) (source : IoError) : FirestoneError :=
  if bool_decide (source = ELOOP) || bool_decide (source = ENOTDIR)
  then dependency (label +:+ " '" +:+ path +:+ "' is not a directory or contains a symbolic link")
         "replace the symbolic link or non-directory path and retry"
  else directory_io_error operation label path source.
Definition insecure_runtime_ancestry_error (path message : string) : FirestoneError :=
  dependency (message +:+ ": '" +:+ path +:+ "'")
    "move the runtime directory below private user-owned ancestry or a root-owned protected directory".

Definition validate_directory_type (path label : string) (metadata : Node) : result FirestoneError () :=
  if is_symlink metadata
  then Err (dependency (label +:+ " '" +:+ path +:+ "' is a symbolic link")
         "replace it with a directory owned by the Firestone user")
  else if is_dir metadata then Ok ()
  else Err (dependency (label +:+ " '" +:+ path +:+ "' is not a directory")
         "move the existing path and run 'firestone doctor --fix'").

Section directories.
Context {Sink : Type} `{Host} (self : Paths).
Local Abbreviation World := (World Sink).
Local Abbreviation Io := (M World IoError).
Local Abbreviation Act := (M World FirestoneError).

(** The result of a call, for code that looks at its error. *)
Definition attempt {A} (m : Io A) : Act (result IoError A) := λ w, let '(r, w) := m w in (Ok r, w).
Definition or_fail {A} (operation label path : string) (m : Io A) : Act A :=
  M_map_err (directory_io_error operation label path) m.
Definition or_runtime {A} (operation path : string) (m : Io A) : Act A := M_map_err (runtime_io_error operation path) m.
Definition not_found (e : IoError) : bool := bool_decide (io_kind e = IoNotFound).
Definition already_exists (e : IoError) : bool := bool_decide (io_kind e = IoAlreadyExists).

(** ** Who may own a directory *)

Definition validate_trusted_ancestor_metadata (path label : string) (metadata : Node) : result FirestoneError () :=
  let actual_uid := uid metadata in
  let actual_mode := permissions metadata in
  let trusted_owner := (actual_uid =? Paths.uid self) || (actual_uid =? 0) in
  let writable_by_other_users := negb (Z.land actual_mode 18 =? 0) in
  let safe_sticky_root := (actual_uid =? 0) && negb (Z.land actual_mode 512 =? 0) in
  if trusted_owner && (negb writable_by_other_users || safe_sticky_root) then Ok ()
  else Err (dependency
    (label +:+ " '" +:+ path +:+ "' has insecure ancestry: expected uid " +:+ dec (Paths.uid self)
       +:+ " or root with protected rename permissions, found uid " +:+ dec actual_uid +:+ " and mode " +:+ mode_text actual_mode)
    "move the directory below private user-owned ancestry or a root-owned protected directory").
Definition validate_owned_directory_metadata (path label : string) (metadata : Node) : result FirestoneError () :=
  let actual_uid := uid metadata in
  let actual_mode := permissions metadata in
  if (actual_uid =? Paths.uid self) && (Z.land actual_mode 18 =? 0) then Ok ()
  else Err (dependency
    (label +:+ " '" +:+ path +:+ "' is insecure: expected uid " +:+ dec (Paths.uid self)
       +:+ " without group/world write access, found uid " +:+ dec actual_uid +:+ " and mode " +:+ mode_text actual_mode)
    "move the existing directory aside or restrict it to its owning user").

(** The loop over the components: [current] is the path so far. *)
Fixpoint validate_components (label : string) (allow_missing owned_final : bool) (current : string)
    (components : list Component) : Act () :=
  match components with
  | [] => mret ()
  | component :: components =>
      let current := path_join current (component_text component) in
      let is_final := bool_decide (components = []) in
      metadata ← attempt (symlink_metadata current);
      match metadata with
      | Err source =>
          if allow_missing && not_found source
          then validate_components label allow_missing owned_final current components
          else M_fail (directory_io_error "inspect" label current source)
      | Ok metadata =>
          M_lift (validate_directory_type current label metadata);;
          M_lift (if owned_final && is_final then validate_owned_directory_metadata current label metadata
                  else validate_trusted_ancestor_metadata current label metadata);;
          validate_components label allow_missing owned_final current components
      end
  end.
Definition not_absolute (path label : string) : FirestoneError :=
  dependency (label +:+ " '" +:+ path +:+ "' is not absolute") "use an absolute Firestone data directory".
Definition validate_directory_path (path label : string) (allow_missing owned_final : bool) : Act () :=
  if negb (is_absolute path) then M_fail (not_absolute path label)
  else validate_components label allow_missing owned_final "" (components path).
Definition validate_owned_data_directory (path label : string) (allow_missing : bool) : Act () :=
  validate_directory_path path label allow_missing true.

(** ** Creating a data directory *)

(** [openat] of a directory that is not a link. *)
Definition open_directory (p : string) : Io Node :=
  ask (λ _ t, match t !! resolve p with
    | Some n => if is_dir n then Ok n else if is_symlink n then Err ELOOP else Err ENOTDIR
    | None => Err (no_entry t (resolve p))
    end).
(** [file.metadata()] of the open directory. *)
Definition open_metadata (p : string) : Io Node :=
  ask (λ _ t, match t !! resolve p with Some n => Ok n | None => Err (no_entry t (resolve p)) end).

Definition open_or_create (label directory current : string) (may_create : bool) : Act bool :=
  opened ← attempt (open_directory current);
  match opened with
  | Ok _ => mret false
  | Err source =>
      if not_found source && may_create then
        made ← attempt (create_dir current 448);
        created ← M_lift (match made with
          | Ok _ => Ok true
          | Err source => if already_exists source then Ok false else Err (directory_io_error "create" label current source)
          end);
        (if (created : bool) then or_fail "set initial mode 0700 on created" label current (set_permissions current 448) else mret ());;
        M_map_err (descriptor_directory_open_error "open created" label current) (open_directory current);;
        (if (created : bool) then
           or_fail "set mode 0700 on created" label current (set_permissions current 448);;
           or_fail "fsync parent of" label current (sync_all directory)
         else mret ());;
        mret created
      else M_fail (descriptor_directory_open_error "open" label current source)
  end.
Definition check_created (label current : string) (is_final created : bool) (metadata : Node) : result FirestoneError () :=
  validate_directory_type current label metadata;;
  if is_final then
    validate_owned_directory_metadata current label metadata;;
    reject error_new Dependency ("created " +:+ label +:+ " '" +:+ current +:+ "' has mode " +:+ mode_text (permissions metadata)
        +:+ "; expected 0700")
      when (created && negb (permissions metadata =? 448));
    Ok ()
  else
    validate_trusted_ancestor_metadata current label metadata;;
    reject error_new Dependency ("created " +:+ label +:+ " ancestor '" +:+ current +:+ "' is insecure")
      when (created && (negb (uid metadata =? Paths.uid self) || negb (permissions metadata =? 448)));
    Ok ().
(** The loop over the names below the root; the result says whether the last one was created. *)
Fixpoint ensure_components (label : string) (recursive : bool) (directory : string) (names : list string) (created : bool) : Act bool :=
  match names with
  | [] => mret created
  | name :: names =>
      let is_final := bool_decide (names = []) in
      let current := path_join directory name in
      created ← open_or_create label directory current (recursive || is_final);
      metadata ← or_fail "inspect open" label current (open_metadata current);
      M_lift (check_created label current is_final created metadata);;
      ensure_components label recursive current names created
  end.
Fixpoint normal_names (label path : string) (l : list Component) : result FirestoneError (list string) :=
  match l with
  | [] => Ok []
  | RootDir :: l => normal_names label path l
  | Normal value :: l => rest ← normal_names label path l; Ok (value :: rest)
  | (CurDir | ParentDir) :: _ =>
      Err (dependency (label +:+ " '" +:+ path +:+ "' contains an unsafe path component")
        "use an absolute path without dot or parent components")
  end.
Definition ensure_owned_data_directory (path label : string) (recursive : bool) : Act bool :=
  if negb (is_absolute path) then M_fail (not_absolute path label)
  else
    names ← M_lift (normal_names label path (components path));
    if bool_decide (names = []) then M_fail (error_new Dependency (label +:+ " cannot be the filesystem root"))
    else
      or_fail "open root for" label path (open_directory "/");;
      root_metadata ← or_fail "inspect root for" label path (open_metadata "/");
      M_lift (validate_trusted_ancestor_metadata "/" label root_metadata);;
      ensure_components label recursive "/" names false.

(** ** Data files *)

Definition validate_owned_data_file (path label : string) (expected_mode : Z) (allow_missing : bool) : Act () :=
  parent ← M_lift (ok_or (parent path) (dependency (label +:+ " '" +:+ path +:+ "' has no parent directory")
    "use a file below the Firestone data directory"));
  validate_owned_data_directory parent (label +:+ " parent") false;;
  metadata ← attempt (symlink_metadata path);
  match metadata with
  | Err source =>
      if allow_missing && not_found source then mret () else M_fail (directory_io_error "inspect" label path source)
  | Ok metadata =>
      if negb (is_file metadata)
      then M_fail (dependency (label +:+ " '" +:+ path +:+ "' is not a regular owned file")
             "replace the symlink or special file with a regular Firestone-owned file")
      else if negb (uid metadata =? Paths.uid self) || negb (permissions metadata =? expected_mode)
      then M_fail (dependency
             (label +:+ " '" +:+ path +:+ "' is insecure: expected uid " +:+ dec (Paths.uid self) +:+ " and mode "
                +:+ mode_text expected_mode +:+ ", found uid " +:+ dec (uid metadata) +:+ " and mode " +:+ mode_text (permissions metadata))
             "replace the file with one owned and protected by the Firestone user")
      else mret ()
  end.
Definition validate_owned_data_file_handle (path label : string) (expected_mode : Z) : Act () :=
  parent ← M_lift (ok_or (parent path) (dependency (label +:+ " '" +:+ path +:+ "' has no parent directory")
    "use a file below the Firestone data directory"));
  validate_owned_data_directory parent (label +:+ " parent") false;;
  metadata ← or_fail "inspect open" label path (open_metadata path);
  if negb (is_file metadata)
  then M_fail (dependency (label +:+ " '" +:+ path +:+ "' is not a regular owned file")
         "replace the special file with a regular Firestone-owned file")
  else if negb (uid metadata =? Paths.uid self) || negb (permissions metadata =? expected_mode)
  then M_fail (dependency
         (label +:+ " '" +:+ path +:+ "' is insecure: expected uid " +:+ dec (Paths.uid self) +:+ " and mode "
            +:+ mode_text expected_mode +:+ ", found uid " +:+ dec (uid metadata) +:+ " and mode " +:+ mode_text (permissions metadata))
         "replace the file with one owned and protected by the Firestone user")
  else mret ().
Context (uni_debug : string → string).
Definition validate_machine_data_directory (name : string) : Act string :=
  validate_owned_data_directory (data_dir self) "data directory" false;;
  validate_owned_data_directory (machines_dir self) "machines directory" false;;
  machine_dir ← M_lift (machine_dir uni_debug self name);
  validate_owned_data_directory machine_dir "machine directory" false;;
  mret machine_dir.
Definition validate_owned_data_subdirectory (path label : string) : Act () :=
  validate_owned_data_directory (data_dir self) "data directory" false;;
  validate_owned_data_directory path label false.
Definition validate_ssh_data_directory : Act () := validate_owned_data_subdirectory (ssh_dir self) "SSH directory".
Definition validate_bin_data_directory : Act () := validate_owned_data_subdirectory (bin_dir self) "binary directory".

(** ** The runtime directory *)

Definition validate_runtime_ancestry (parent : string) : Act () :=
  validate_directory_path parent "runtime directory ancestor" false false.
Definition validate_xdg_runtime_base (base : string) : Act () :=
  metadata ← or_runtime "inspect XDG_RUNTIME_DIR" base (symlink_metadata base);
  M_lift (validate_directory_type base "XDG_RUNTIME_DIR" metadata);;
  if (uid metadata =? Paths.uid self) && (permissions metadata =? 448) then mret ()
  else M_fail (dependency
    ("XDG_RUNTIME_DIR '" +:+ base +:+ "' is insecure: expected uid " +:+ dec (Paths.uid self)
       +:+ " and mode 0700, found uid " +:+ dec (uid metadata) +:+ " and mode " +:+ mode_text (permissions metadata))
    "set XDG_RUNTIME_DIR to the private runtime directory created for this uid").
Definition validate_runtime_prerequisites : Act () :=
  match runtime_provenance self with
  | XdgRuntimeDir base =>
      parent ← M_lift (ok_or (parent base) (insecure_runtime_ancestry_error base "XDG_RUNTIME_DIR has no parent directory"));
      validate_runtime_ancestry parent;;
      validate_xdg_runtime_base base
  | FirestoneHome | FirestoneRuntimeDir | Fallback =>
      parent ← M_lift (ok_or (parent (runtime_dir self))
        (insecure_runtime_ancestry_error (runtime_dir self) "runtime directory has no parent directory"));
      validate_runtime_ancestry parent
  end.
Definition validate_runtime_metadata (metadata : Node) : result FirestoneError () :=
  validate_directory_type (runtime_dir self) "runtime directory" metadata;;
  if (uid metadata =? Paths.uid self) && (permissions metadata =? 448) then Ok ()
  else Err (dependency
    ("runtime directory '" +:+ runtime_dir self +:+ "' is insecure: expected uid " +:+ dec (Paths.uid self)
       +:+ " and mode 0700, found uid " +:+ dec (uid metadata) +:+ " and mode " +:+ mode_text (permissions metadata))
    ("check the directory contents, remove '" +:+ runtime_dir self +:+ "', then run 'firestone doctor --fix'")).
Definition inspect_runtime_dir : Act () :=
  metadata ← or_runtime "inspect" (runtime_dir self) (symlink_metadata (runtime_dir self));
  M_lift (validate_runtime_metadata metadata).
Definition create_runtime_dir : Act () :=
  made ← attempt (create_dir (runtime_dir self) 448);
  match made with
  | Err source =>
      if already_exists source then inspect_runtime_dir else M_fail (runtime_io_error "create" (runtime_dir self) source)
  | Ok _ =>
      metadata ← or_runtime "inspect" (runtime_dir self) (symlink_metadata (runtime_dir self));
      M_lift (validate_directory_type (runtime_dir self) "runtime directory" metadata);;
      or_runtime "set mode 0700 on" (runtime_dir self) (set_permissions (runtime_dir self) 448);;
      inspect_runtime_dir
  end.
Definition ensure_runtime_dir : Act () :=
  validate_runtime_prerequisites;;
  metadata ← attempt (symlink_metadata (runtime_dir self));
  match metadata with
  | Ok metadata => M_lift (validate_runtime_metadata metadata)
  | Err source =>
      if not_found source then create_runtime_dir else M_fail (runtime_io_error "inspect" (runtime_dir self) source)
  end.
Definition validate_runtime_dir : Act () := validate_runtime_prerequisites;; inspect_runtime_dir.

(** *** The runtime directory of one machine *)

Definition validate_private_runtime_directory (path : string) (metadata : Node) : result FirestoneError () :=
  validate_directory_type path "machine runtime directory" metadata;;
  if negb (uid metadata =? Paths.uid self) || negb (permissions metadata =? 448)
  then Err (dependency
    ("machine runtime directory '" +:+ path +:+ "' is insecure: expected uid " +:+ dec (Paths.uid self)
       +:+ " and mode 0700, found uid " +:+ dec (uid metadata) +:+ " and mode " +:+ mode_text (permissions metadata))
    "remove the stale runtime directory and retry")
  else Ok ().
Definition ensure_machine_runtime_dir (name : string) : Act string :=
  ensure_runtime_dir;;
  path ← M_lift (machine_runtime_dir uni_debug self name);
  metadata ← attempt (symlink_metadata path);
  match metadata with
  | Ok metadata => M_lift (validate_private_runtime_directory path metadata);; mret path
  | Err source =>
      if not_found source then
        made ← attempt (create_dir path 448);
        created ← M_lift (match made with
          | Ok _ => Ok true
          | Err source => if already_exists source then Ok false else Err (runtime_io_error "create" path source)
          end);
        (if (created : bool) then
           or_runtime "set mode 0700 on" path (set_permissions path 448);;
           or_runtime "fsync" (runtime_dir self) (sync_all (runtime_dir self))
         else mret ());;
        metadata ← or_runtime "inspect" path (symlink_metadata path);
        M_lift (validate_private_runtime_directory path metadata);;
        mret path
      else M_fail (runtime_io_error "inspect" path source)
  end.
Definition validate_machine_runtime_dir (name : string) : Act string :=
  validate_runtime_dir;;
  path ← M_lift (machine_runtime_dir uni_debug self name);
  metadata ← or_runtime "inspect" path (symlink_metadata path);
  M_lift (validate_private_runtime_directory path metadata);;
  mret path.

(** The loop over the sorted entries of [path]. *)
Fixpoint clear_entries (path : string) (names : list string) : Act () :=
  match names with
  | [] => mret ()
  | name :: names =>
      let entry_path := path_join path name in
      metadata ← or_runtime "inspect" entry_path (symlink_metadata entry_path);
      if is_dir metadata
      then M_fail (dependency ("machine runtime debris '" +:+ entry_path +:+ "' is a directory")
             "remove the unexpected nested directory and retry")
      else
        or_runtime "remove" entry_path (remove_file entry_path);;
        clear_entries path names
  end.
Definition clear_machine_runtime_dir (name : string) (remove_directory : bool) : Act () :=
  validate_runtime_dir;;
  path ← M_lift (machine_runtime_dir uni_debug self name);
  metadata ← attempt (symlink_metadata path);
  match metadata with
  | Err source => if not_found source then mret () else M_fail (runtime_io_error "inspect" path source)
  | Ok metadata =>
      M_lift (validate_private_runtime_directory path metadata);;
      names ← or_runtime "read" path (read_dir path);
      clear_entries path (merge_sort str_le names);;
      or_runtime "fsync" path (sync_all path);;
      if remove_directory then
        or_runtime "remove" path (remove_dir path);;
        or_runtime "fsync" (runtime_dir self) (sync_all (runtime_dir self))
      else mret ()
  end.
End directories.

(** ** What the checks establish *)

Lemma resolve_parts p : is_absolute p = true → resolve p = foldl go [] (path_parts p).
Proof. intros Ha. unfold resolve. by rewrite components_absolute. Qed.
Definition step_component (c : Component) : Prop :=
  c = ParentDir ∨ ∃ n, c = Normal n ∧ has_char "/" n = false ∧ n ≠ "" ∧ n ≠ "." ∧ n ≠ "..".
Lemma resolve_push current c :
  is_absolute current = true → step_component c →
  is_absolute (path_join current (component_text c)) = true ∧
  resolve (path_join current (component_text c)) = go (resolve current) c.
Proof.
  intros Ha Hc. destruct (pushed_parts current [c] Ha) as [Ha' Hp]; [by constructor|]. cbn [foldl] in Ha', Hp.
  split; [done|]. rewrite !resolve_parts by done. by rewrite Hp, foldl_app.
Qed.
(** Pushing the components one by one walks the tree. *)
Fixpoint follows (current : string) (l : list Component) : Prop :=
  match l with
  | [] => True
  | c :: l => resolve (path_join current (component_text c)) = go (resolve current) c
              ∧ follows (path_join current (component_text c)) l
  end.
Lemma step_components p : Forall step_component (path_parts p).
Proof. apply Forall_forall. intros c. apply path_parts_inv. Qed.
Lemma follows_components p : is_absolute p = true → follows "" (components p).
Proof.
  intros Ha. rewrite components_absolute by done. split; [reflexivity|]. change (follows "/" (path_parts p)).
  assert (is_absolute "/" = true) as Hr by reflexivity. revert Hr. generalize "/"%string as current.
  pose proof (step_components p) as Hs. induction Hs as [|c l Hc Hl IH]; intros current Hr; [done|].
  destruct (resolve_push current c Hr Hc) as [Hr' Hc']. split; [done|]. by apply IH.
Qed.

Lemma safe_attempt {Sink A} (I : Tree → Prop) (m : M (World Sink) IoError A) (t : Tree) (Q : result FirestoneError (result IoError A) → Tree → Prop) :
  safe I m t (λ r t', Q (Ok r) t') → safe I (attempt m) t Q.
Proof. intros Hm w Hw HI. specialize (Hm w Hw HI). unfold attempt. by destruct (m w). Qed.

Section checked.
Context {Sink : Type} `{RealFaults} (self : Paths).
Local Abbreviation safe := (safe (Sink := Sink)).
Implicit Types t : Tree.

(** A directory only its owner can change the entries of; a directory whose entries only their
    owners can change, though others may add to it. *)
Definition owned (n : Node) : Prop :=
  is_dir n = true ∧ uid n = Paths.uid self ∧ Z.land (permissions n) 18 = 0.
Definition trusted (n : Node) : Prop :=
  is_dir n = true ∧ (uid n = Paths.uid self ∨ uid n = 0) ∧
  (Z.land (permissions n) 18 = 0 ∨ uid n = 0 ∧ Z.land (permissions n) 512 ≠ 0).
Lemma validate_directory_type_Ok path label n : validate_directory_type path label n = Ok () ↔ is_dir n = true.
Proof using Type. unfold validate_directory_type, is_symlink, is_dir. by destruct (node_kind n). Qed.
Lemma validate_owned_Ok path label n :
  validate_owned_directory_metadata self path label n = Ok () ↔ uid n = Paths.uid self ∧ Z.land (permissions n) 18 = 0.
Proof using Type. unfold validate_owned_directory_metadata. destruct (_ && _) eqn:E; bool_props; naive_solver lia. Qed.
Lemma validate_trusted_Ok path label n :
  validate_trusted_ancestor_metadata self path label n = Ok () ↔
  (uid n = Paths.uid self ∨ uid n = 0) ∧ (Z.land (permissions n) 18 = 0 ∨ uid n = 0 ∧ Z.land (permissions n) 512 ≠ 0).
Proof using Type.
  unfold validate_trusted_ancestor_metadata.
  destruct (Z.eqb_spec (uid n) (Paths.uid self)), (Z.eqb_spec (uid n) 0), (Z.eqb_spec (Z.land (permissions n) 18) 0),
    (Z.eqb_spec (Z.land (permissions n) 512) 0); cbn; naive_solver.
Qed.

(** Every directory on the way from [k] passes its check; with [missing], it may not be there. *)
Fixpoint way (missing owned_final : bool) (t : Tree) (k : Path) (l : list Component) : Prop :=
  match l with
  | [] => True
  | c :: l =>
      match t !! go k c with
      | Some n => is_dir n = true ∧ (if owned_final && bool_decide (l = []) then owned n else trusted n)
      | None => missing = true ∧ no_entry t (go k c) = ENOENT
      end ∧ way missing owned_final t (go k c) l
  end.

(** The checks look, and accept just the ways that pass, unless a call fails. *)
Lemma validate_components_exact I label missing owned_final current l t :
  follows current l →
  safe I (validate_components self label missing owned_final current l) t (λ r t',
    t' = t ∧ match r with
             | Ok _ => way missing owned_final t (resolve current) l
             | Err e => ¬ way missing owned_final t (resolve current) l ∨ ∃ p io, faulty io ∧ e = directory_io_error "inspect" label p io
             end).
Proof using All.
  revert current. induction l as [|c l IH]; intros current Hl; cbn [validate_components way].
  - by apply safe_ret.
  - destruct Hl as [Hr Ha']. set (next := path_join current (component_text c)) in *.
    specialize (IH next Ha'). rewrite Hr in IH. apply safe_bind.
    apply safe_attempt, safe_metadata_exact; [rewrite Hr|rewrite Hr|].
    + intros n Hn. rewrite Hn. apply safe_bind, safe_lift.
      destruct (validate_directory_type next label n) as [[]|e] eqn:Ht;
        [apply validate_directory_type_Ok in Ht|].
      * apply safe_bind, safe_lift. destruct (owned_final && bool_decide (l = [])) eqn:Hf.
        -- destruct (validate_owned_directory_metadata self next label n) as [[]|e] eqn:Ho.
           ++ apply validate_owned_Ok in Ho. eapply safe_mono; [exact IH|]. intros [[]|e] t' [-> Hq]; (split; [done|]);
                unfold owned; naive_solver.
           ++ split; [done|]. left. intros [[_ (_ & H1 & H2)] _]. pose proof (proj2 (validate_owned_Ok next label n) (conj H1 H2)). congruence.
        -- destruct (validate_trusted_ancestor_metadata self next label n) as [[]|e] eqn:Ho.
           ++ apply validate_trusted_Ok in Ho. eapply safe_mono; [exact IH|]. intros [[]|e] t' [-> Hq]; (split; [done|]);
                unfold trusted; naive_solver.
           ++ split; [done|]. left. intros [[_ (_ & H1 & H2)] _]. pose proof (proj2 (validate_trusted_Ok next label n) (conj H1 H2)). congruence.
      * split; [done|]. left. intros [[Hd _] _]. pose proof (proj2 (validate_directory_type_Ok next label n) Hd). congruence.
    + intros Hn. rewrite Hn. unfold no_entry, not_found. destruct (existsb _ _) eqn:Hex.
      * rewrite andb_false_r. apply safe_fail. split; [done|]. left. intros [[_ ?] _]. done.
      * rewrite andb_true_r. destruct missing.
        -- eapply safe_mono; [exact IH|]. intros [[]|e] t' [-> Hq]; (split; [done|]); naive_solver.
        -- apply safe_fail. split; [done|]. left. by intros [[? _] _].
    + intros e Hf Hn. unfold not_found. rewrite bool_decide_eq_false_2, andb_false_r by done.
      apply safe_fail. split; [done|]. right. eauto.
Qed.

Lemma validate_directory_path_exact I path label missing owned_final t :
  is_absolute path = true →
  safe I (validate_directory_path self path label missing owned_final) t (λ r t',
    t' = t ∧ match r with
             | Ok _ => way missing owned_final t [] (components path)
             | Err e => ¬ way missing owned_final t [] (components path) ∨ ∃ p io, faulty io ∧ e = directory_io_error "inspect" label p io
             end).
Proof using All.
  intros Ha. unfold validate_directory_path. rewrite Ha. apply (validate_components_exact I label missing owned_final "").
  by apply follows_components.
Qed.

(** ** Nobody else can redirect a checked path

    Another user can create, remove, rename and replace the entries of a directory it may write to;
    in a sticky directory only those it owns.  It can do anything to its own files, and write to
    files others may write to. *)
Definition may_write (u : Z) (n : Node) : Prop := uid n = u ∨ Z.land (permissions n) 18 ≠ 0.
Definition may_change (u : Z) (t : Tree) (k : Path) : Prop :=
  ∃ d, k ≠ [] ∧ t !! removelast k = Some d ∧ is_dir d = true ∧ may_write u d ∧
    (Z.land (permissions d) 512 ≠ 0 → uid d = u ∨ ∀ n, t !! k = Some n → uid n = u).
Inductive user_step (u : Z) (t : Tree) : Tree → Prop :=
  | change_entry k t' : may_change u t k → (∀ j, strip k j = None → t' !! j = t !! j) → user_step u t t'
  | change_own k n n' : t !! k = Some n → uid n = u → user_step u t (<[k := n']> t)
  | write_shared k n data :
      t !! k = Some n → is_file n = true → may_write u n →
      user_step u t (<[k := {| node_kind := Regular data; uid := uid n; mode := mode n |}]> t).
(** A step of a user that is neither root nor the owner of the paths. *)
Definition other_step (t t' : Tree) : Prop := ∃ u, u ≠ 0 ∧ u ≠ Paths.uid self ∧ user_step u t t'.

(** [d] and the directories it lies in are [owned] and [trusted]. *)
Definition sealed (t : Tree) (d : Path) : Prop :=
  (∃ n, t !! d = Some n ∧ owned n) ∧ ∀ k x r, d = k ++ x :: r → ∃ n, t !! k = Some n ∧ trusted n.

Lemma owned_trusted n : owned n → trusted n.
Proof using Type. unfold owned, trusted. naive_solver. Qed.
Lemma go_prefix k c j x r : go k c = j ++ x :: r → ∃ s, k = j ++ s.
Proof using Type.
  destruct c; cbn [go]; [eauto..| |].
  - intros Hj. destruct (decide (k = [])) as [->|Hk]; [by destruct j|].
    rewrite (app_removelast_last "" Hk), Hj, <- app_assoc. by eexists.
  - intros Hj. destruct (decide (r = [])) as [->|Hr].
    + apply app_inj_tail in Hj as [-> _]. exists []. by rewrite app_nil_r.
    + destruct (exists_last Hr) as (r' & y & ->). rewrite app_comm_cons, app_assoc in Hj.
      apply app_inj_tail in Hj as [-> _]. by eexists.
Qed.
Lemma way_prefixes owned_final t k l :
  way false owned_final t k l →
  (∀ j r, k = j ++ r → ∃ n, t !! j = Some n ∧ trusted n) →
  (∀ j x r, foldl go k l = j ++ x :: r → ∃ n, t !! j = Some n ∧ trusted n) ∧
  (l ≠ [] → owned_final = true → ∃ n, t !! foldl go k l = Some n ∧ owned n).
Proof using Type.
  revert k. induction l as [|c l IH]; intros k Hw Hk; cbn [foldl].
  { split; [|done]. intros j x r Hj. by eapply Hk. }
  destruct Hw as [Hc Hw]. destruct (t !! go k c) as [n|] eqn:Hn; [|by destruct Hc]. destruct Hc as [Hd Hc].
  assert (trusted n) as Ht by (destruct (owned_final && _); [by apply owned_trusted|done]).
  assert (Hk' : ∀ j r, go k c = j ++ r → ∃ n, t !! j = Some n ∧ trusted n).
  { intros j [|x r] Hj; [rewrite app_nil_r in Hj; subst; eauto|]. destruct (go_prefix _ _ _ _ _ Hj) as [s Hs]. by eapply Hk. }
  destruct (IH _ Hw Hk') as [H1 H2]. split; [done|]. intros _ Hof. destruct l as [|c' l]; [|by apply H2].
  cbn [foldl]. rewrite Hof in Hc. cbn in Hc. eauto.
Qed.
(** What the check of an owned directory means. *)
Lemma way_sealed t p :
  is_absolute p = true → way false true t [] (components p) → sealed t (resolve p).
Proof using Type.
  intros Ha. unfold resolve. rewrite components_absolute by done. intros Hw.
  destruct (decide (path_parts p = [])) as [Hp|Hp].
  - rewrite Hp in *. destruct Hw as [Hc _]. cbn in *. destruct (t !! []) as [n|] eqn:Hn; [|by destruct Hc].
    split; [naive_solver|]. by intros [|? ?] ?? ?.
  - destruct Hw as [Hc Hw]. cbn [go] in *. destruct (t !! []) as [n|] eqn:Hn; [|by destruct Hc].
    rewrite bool_decide_eq_false_2 in Hc by done. cbn in Hc.
    destruct (way_prefixes true t [] _ Hw) as [H1 H2].
    { intros j r Hj. symmetry in Hj. apply app_eq_nil in Hj as [-> _]. exists n. by destruct Hc. }
    split; [by apply H2|done].
Qed.

(** No step of another user changes a directory on the way, or an entry of [d] that it does not own
    and may not write to, or makes a new one there. *)
Lemma sealed_step t t' d :
  sealed t d → other_step t t' →
  (∀ k r, d = k ++ r → t' !! k = t !! k) ∧
  (∀ x, (∀ n, t !! (d ++ [x]) = Some n → uid n = Paths.uid self ∧ Z.land (permissions n) 18 = 0) → t' !! (d ++ [x]) = t !! (d ++ [x])).
Proof using Type.
  intros [(nd & Hnd & Hdo) Hpre] (u & Hu0 & Hus & Hstep).
  assert (Hall : ∀ k r, d = k ++ r → ∃ n, t !! k = Some n ∧ trusted n).
  { intros k [|x r] Hk; [rewrite app_nil_r in Hk; subst k; eauto using owned_trusted|by eapply Hpre]. }
  (* Entries of a trusted directory that are trusted themselves stay. *)
  assert (Hkeep : ∀ k x n, t !! k = Some n → trusted n → (owned n ∨ ∃ m, t !! (k ++ [x]) = Some m ∧ uid m ≠ u) → ¬ may_change u t (k ++ [x])).
  { intros k x n Hn (Hd & Hown & Hw) Hx (d' & _ & Hd' & _ & Hmw & Hst). rewrite removelast_last, Hn in Hd'. injection Hd' as <-.
    destruct Hmw as [Hmw|Hmw]; [destruct Hown; congruence|]. destruct Hw as [Hw|[Hroot Hsticky]]; [done|].
    destruct Hx as [(_ & _ & Hx)|(m & Hm & Hmu)]; [done|]. destruct (Hst Hsticky) as [E|E]; [congruence|]. by apply Hmu, E. }
  assert (Huid : ∀ n, trusted n → uid n ≠ u) by (intros n (_ & [E|E] & _); congruence).
  destruct Hstep as [k0 t' Hmay Hsame|k0 n0 n0' Hk0 Hown0|k0 n0 data Hk0 Hf0 Hw0].
  - assert (Hno : ∀ k r, d = k ++ r → strip k0 k = None).
    { intros k r Hk. apply strip_None. intros [s ->]. destruct (decide (k0 = [])) as [->|Hne]; [by destruct Hmay as (? & ? & _)|].
      destruct (exists_last Hne) as (k1 & x & ->). rewrite <- !app_assoc in Hk. cbn in Hk.
      destruct (Hall _ _ Hk) as (n & Hn & Htr). destruct (Hall (k1 ++ [x]) (s ++ r)) as (m & Hm & Htm).
      { by rewrite <- app_assoc. }
      apply (Hkeep k1 x n Hn Htr); [|done]. right. eauto. }
    split; [intros k r Hk; by eapply Hsame, Hno|]. intros x Hx. apply Hsame, strip_None. intros [s Hs].
    destruct (decide (s = [])) as [->|Hne].
    + rewrite app_nil_r in Hs. subst k0. apply (Hkeep d x nd Hnd (owned_trusted _ Hdo)); [by left|done].
    + destruct (exists_last Hne) as (s' & y & ->). rewrite app_assoc in Hs. apply app_inj_tail in Hs as [Hs _].
      specialize (Hno d [] (eq_sym (app_nil_r d))). rewrite strip_None in Hno. apply Hno. by exists s'.
  - split.
    + intros k r Hk. destruct (Hall _ _ Hk) as (n & Hn & Htr). rewrite lookup_insert_ne; [done|]. intros ->. apply (Huid n Htr). congruence.
    + intros x Hx. rewrite lookup_insert_ne; [done|]. intros ->. destruct (Hx _ Hk0). congruence.
  - split.
    + intros k r Hk. destruct (Hall _ _ Hk) as (n & Hn & Hd & _). rewrite lookup_insert_ne; [done|]. intros ->.
      rewrite Hk0 in Hn. injection Hn as ->. unfold is_dir, is_file in *. by destruct (node_kind n).
    + intros x Hx. rewrite lookup_insert_ne; [done|]. intros ->. destruct (Hx _ Hk0). destruct Hw0; congruence.
Qed.
Lemma sealed_steps t t' d :
  sealed t d → rtc other_step t t' →
  (∀ k r, d = k ++ r → t' !! k = t !! k) ∧
  (∀ x, (∀ n, t !! (d ++ [x]) = Some n → uid n = Paths.uid self ∧ Z.land (permissions n) 18 = 0) → t' !! (d ++ [x]) = t !! (d ++ [x])).
Proof using Type.
  intros Hs Hsteps. revert Hs. induction Hsteps as [t|t t1 t' Hstep _ IH]; intros Hs; [done|].
  destruct (sealed_step _ _ _ Hs Hstep) as [H1 H2]. destruct IH as [H3 H4].
  { destruct Hs as [(nd & Hnd & Hdo) Hpre]. split; [exists nd; rewrite (H1 d []) by (by rewrite app_nil_r); done|].
    intros k x r Hk. destruct (Hpre _ _ _ Hk) as (n & ? & ?). exists n. by rewrite (H1 k (x :: r)). }
  split; [intros k r Hk; by rewrite (H3 k r), (H1 k r)|]. intros x Hx. rewrite H4, H2; [done|done|].
  intros n. rewrite H2 by done. apply Hx.
Qed.
End checked.

(** ** Creation *)

Section created.
Context {Sink : Type} `{RealFaults} (self : Paths) (l : Path).
Local Abbreviation safe := (safe (Sink := Sink)).
Implicit Types t : Tree.

(** A directory a run has just made: nobody else may write to it. *)
Definition fresh_directory (n : Node) : Prop :=
  is_dir n = true ∧ uid n = euid ∧ (mode n = 448 ∨ mode n = Z.ldiff 448 umask).
(** [t'] is [t] with fresh directories on the way to [l], where nothing was. *)
Definition grown t t' : Prop :=
  ∀ k, t' !! k = t !! k ∨ (t !! k = None ∧ (∃ r, l = k ++ r) ∧ ∃ n, t' !! k = Some n ∧ fresh_directory n).
Lemma grown_refl t : grown t t.
Proof using Type. by left. Qed.
Lemma grown_keeps t t' k (n : Node) : grown t t' → t !! k = Some n → t' !! k = Some n.
Proof using Type. intros Hg Hk. destruct (Hg k) as [->|(Hn & _)]; congruence. Qed.
Lemma grown_insert t t' k r n' :
  grown t t' → t !! k = None → l = k ++ r → fresh_directory n' → grown t (<[k := n']> t').
Proof using Type.
  intros Hg Hk Hl Hn' j. destruct (decide (j = k)) as [->|Hj]; [|rewrite lookup_insert_ne by done; apply Hg].
  right. rewrite lookup_insert_eq. naive_solver.
Qed.

Lemma safe_open_directory I p t (Q : result IoError Node → Tree → Prop) :
  (∀ n, t !! resolve p = Some n → is_dir n = true → Q (Ok n) t) →
  (∀ e, (io_kind e = IoNotFound → t !! resolve p = None) → Q (Err e) t) → safe I (open_directory p) t Q.
Proof using H0.
  intros Hok He. apply safe_ask; [|intros e _ Hn _; by apply He]. intros _.
  destruct (t !! resolve p) as [n|] eqn:Hp; [|by apply He]. destruct (is_dir n) eqn:Hd; [by apply Hok|].
  destruct (is_symlink n); by apply He.
Qed.
Lemma safe_open_metadata I p t (Q : result IoError Node → Tree → Prop) :
  (∀ n, t !! resolve p = Some n → Q (Ok n) t) → (∀ e, Q (Err e) t) → safe I (open_metadata p) t Q.
Proof using H0.
  intros Hok He. apply safe_ask; [|intros; apply He]. intros _. destruct (t !! resolve p) as [n|] eqn:Hp; [by apply Hok|apply He].
Qed.

Context (I : Tree → Prop) (t0 : Tree) (HI : ∀ t, grown t0 t → I t).

(** What opening or making the directory [current] leaves. *)
Definition opened t current (res : result FirestoneError bool) t' : Prop :=
  grown t0 t' ∧ ((∀ k n, t !! k = Some n → t' !! k = Some n) ∧ (∀ k, k ≠ resolve current → t' !! k = t !! k)) ∧
  match res with
  | Ok created => directory_at t' (resolve current) = true ∧ (created = true ↔ t !! resolve current = None)
  | Err _ => True
  end.
Lemma open_or_create_spec label directory current may_create t r :
  grown t0 t → l = resolve current ++ r → safe I (open_or_create label directory current may_create) t (opened t current).
Proof using All.
  intros Hg Hl. unfold open_or_create. set (k := resolve current) in *.
  apply safe_bind, safe_attempt, safe_open_directory; fold k.
  - intros n Hn Hd. apply safe_ret. split; [done|]. split; [done|]. unfold directory_at. fold k. rewrite Hn. cbn. by rewrite Hd.
  - intros e He. destruct (not_found e && may_create) eqn:Hc; [|by apply safe_fail].
    bool_props. unfold not_found in *. bool_props. specialize (He ltac:(done)).
    assert (Hf : ∀ m, m = 448 ∨ m = Z.ldiff 448 umask → fresh_directory {| node_kind := Directory; uid := euid; mode := m |}) by done.
    assert (H00 : t0 !! k = None). { destruct (t0 !! k) eqn:E; [|done]. pose proof (grown_keeps _ _ _ _ Hg E). congruence. }
    assert (Hg' : ∀ m t1, m = 448 ∨ m = Z.ldiff 448 umask → grown t0 t1 →
      grown t0 (<[k := {| node_kind := Directory; uid := euid; mode := m |}]> t1)).
    { intros m t1 Hm Ht1. eapply grown_insert; [done..|by apply Hf]. }
    assert (Hkeep : ∀ n, (∀ j m, t !! j = Some m → <[k := n]> t !! j = Some m) ∧ (∀ j, j ≠ k → <[k := n]> t !! j = t !! j)).
    { intros n. split; [intros j m Hj; rewrite lookup_insert_ne; [done|]; congruence|]. intros j Hj. by rewrite lookup_insert_ne. }
    apply safe_bind, safe_attempt, safe_create_dir; fold k.
    + intros _ _. split; [by apply HI, Hg'; [right|]|]. apply safe_bind, safe_lift.
      assert (∀ e t1, t1 = <[k:={| node_kind := Directory; uid := euid; mode := Z.ldiff 448 umask |}]> t
        ∨ t1 = <[k:={| node_kind := Directory; uid := euid; mode := 448 |}]> t → opened t current (Err e) t1) as Herr.
      { intros e1 t1 [-> | ->]; split; [apply Hg'; [naive_solver|done]| |apply Hg'; [naive_solver|done]|]. all: split; [by apply Hkeep|done]. }
      assert (∀ n m, with_mode m n = {| node_kind := node_kind n; uid := uid n; mode := m |}) as Hwm by done.
      apply safe_bind, safe_map_err, safe_set_permissions; fold k; [|intros; apply Herr; by left].
      intros n. rewrite lookup_insert_eq. intros [= <-]. rewrite insert_insert_eq.
      split; [by apply HI, Hg'; [left|]|]. cbn [with_mode node_kind uid].
      apply safe_bind, safe_map_err, safe_open_directory; fold k; [|intros; apply Herr; by right]. intros n _ _.
      apply safe_bind, safe_bind, safe_map_err, safe_set_permissions; fold k; [|intros; apply Herr; by right].
      intros n'. rewrite lookup_insert_eq. intros [= <-]. rewrite insert_insert_eq.
      split; [by apply HI, Hg'; [left|]|]. cbn [with_mode node_kind uid].
      apply safe_map_err, safe_sync_all. intros [[]|e1]; [|apply Herr; by right].
      apply safe_ret. split; [by apply Hg'; [left|]|]. split; [by apply Hkeep|]. unfold directory_at. fold k. by rewrite lookup_insert_eq.
    + intros e1 He1. destruct (already_exists e1) eqn:Ha; [|by apply safe_bind, safe_lift; split].
      unfold already_exists in Ha. bool_props. destruct He1 as [? ?]; [done|congruence].
Qed.

Lemma directory_at_Some t k : directory_at t k = true → ∃ n, t !! k = Some n ∧ is_dir n = true.
Proof using Type. unfold directory_at. destruct (t !! k) as [n|]; [|done]. by exists n. Qed.
Lemma check_created_Ok label current is_final created n :
  check_created self label current is_final created n = Ok () →
  is_dir n = true ∧ (if is_final then owned self n else trusted self n) ∧ (is_final = true → created = true → permissions n = 448).
Proof using Type.
  unfold check_created. destruct (validate_directory_type current label n) as [[]|] eqn:Ht; [|done].
  apply validate_directory_type_Ok in Ht. cbn [mbind result_bind]. split; [done|]. destruct is_final.
  - destruct (validate_owned_directory_metadata self current label n) as [[]|] eqn:Ho; [|done]. apply validate_owned_Ok in Ho.
    cbn in *. unfold reject_if in *. destruct (created && _) eqn:Hc; [done|]. split; [unfold owned; naive_solver|].
    intros _ ->. cbn in Hc. by bool_props.
  - destruct (validate_trusted_ancestor_metadata self current label n) as [[]|] eqn:Ho; [|done]. apply validate_trusted_Ok in Ho.
    split; [unfold trusted; naive_solver|done].
Qed.
Lemma ensure_components_spec label recursive current names created t :
  is_absolute current = true → Forall plain names → l = resolve current ++ names → grown t0 t →
  safe I (ensure_components self label recursive current names created) t (λ r t',
    grown t0 t' ∧ (∀ k n, t !! k = Some n → t' !! k = Some n) ∧
    match r with
    | Ok c => way self false true t' (resolve current) (Normal <$> names)
              ∧ (names ≠ [] → (c = true ↔ t !! l = None) ∧ (c = true → from_option permissions 0 (t' !! l) = 448))
              ∧ (names = [] → c = created ∧ t' = t)
    | Err _ => True
    end).
Proof using All.
  intros Ha Hn. revert current created t Ha. induction Hn as [|x names Hx Hn IH]; intros current created t Ha Hl Hg;
    cbn [ensure_components].
  - by apply safe_ret.
  - set (next := path_join current x). assert (Ha' : is_absolute next = true) by by apply path_join_absolute.
    assert (Hr : resolve next = resolve current ++ [x]) by by apply resolve_join.
    assert (Hl' : l = resolve next ++ names) by by rewrite Hr, <- app_assoc.
    apply safe_bind. eapply safe_mono; [by eapply open_or_create_spec|]. intros [c|e] t1 (Hg1 & [Hk1 Ho1] & Hres); [|done].
    destruct Hres as [Hd Hc]. apply directory_at_Some in Hd as (n & Hn1 & Hd).
    apply safe_bind, safe_map_err, safe_open_metadata; [|done]. rewrite Hn1. intros ? [= <-].
    apply safe_bind, safe_lift. destruct (check_created self label next _ c n) as [[]|] eqn:Hchk; [|done].
    apply check_created_Ok in Hchk as (_ & Hchk & Hperm).
    eapply safe_mono; [by apply (IH next c t1)|]. intros [c'|e] t2 (Hg2 & Hk2 & Hres); (split; [done|]); (split; [by eauto|]); [|done].
    destruct Hres as (Hw & Hc' & Hnil). split_and!; [| |done].
    + cbn [way fmap list_fmap go]. rewrite Hr in *. split; [|done]. rewrite (Hk2 _ _ Hn1). split; [done|]. cbn.
      destruct names; [done|]. done.
    + intros _. destruct (decide (names = [])) as [->|Hne].
      * destruct (Hnil eq_refl) as [-> ->]. rewrite app_nil_r in Hl'. rewrite Hl'. split; [done|]. intros ->. rewrite Hn1. by apply Hperm.
      * destruct (Hc' Hne) as [H1 H2]. split; [|done]. rewrite H1, Ho1; [done|]. rewrite Hl'. intros E.
        apply (f_equal length) in E. rewrite length_app in E. destruct names; [done|]. cbn in E. lia.
Qed.
End created.

Lemma normal_names_Ok label path l names :
  Forall step_component l → normal_names label path l = Ok names → l = Normal <$> names ∧ Forall plain names.
Proof.
  intros Hl. revert names. induction Hl as [|c l Hc Hl IH]; cbn [normal_names]; intros names Hn; [by injection Hn as <-|].
  destruct Hc as [->|(x & -> & Hx)]; [done|]. inv_ok. destruct (IH _ ltac:(eassumption)) as [-> ?]. split; [done|]. by constructor.
Qed.
Lemma go_names k names : foldl go k (Normal <$> names) = k ++ names.
Proof.
  revert k. induction names as [|x names IH]; intros k; cbn [fmap list_fmap foldl]; [by rewrite app_nil_r|].
  rewrite IH. cbn [go]. by rewrite <- app_assoc.
Qed.

Section results.
Context {Sink : Type} `{RealFaults} (self : Paths).
Local Abbreviation World := (World Sink).

(** C18: paths.rs, [validate_owned_data_directory]: the check changes nothing and succeeds just when
    every directory from the root to the path is a real directory that root or the user owns and
    nobody else can rename entries of, the last one owned by the user and writable by nobody else
    (or a call fails).  After it succeeded, whatever other unprivileged users do to the tree, in any
    number of steps, every directory on the way stays what it was, and so do the entries of the last
    one that belong to the user and only the user may write to, the missing ones staying missing. *)
Theorem directory_check_protects path label (w : World) :
  is_absolute path = true →
  let '(r, w') := validate_owned_data_directory self path label false w in
  tree w' = tree w ∧
  match r with
  | Ok _ => way self false true (tree w) [] (components path) ∧ sealed self (tree w) (resolve path) ∧
      ∀ t', rtc (other_step self) (tree w) t' →
        (∀ k r, resolve path = k ++ r → t' !! k = tree w !! k) ∧
        (∀ x, (∀ n, tree w !! (resolve path ++ [x]) = Some n → uid n = Paths.uid self ∧ Z.land (permissions n) 18 = 0) →
           t' !! (resolve path ++ [x]) = tree w !! (resolve path ++ [x]))
  | Err e => ¬ way self false true (tree w) [] (components path) ∨ ∃ p io, faulty io ∧ e = directory_io_error "inspect" label p io
  end.
Proof using All.
  intros Ha. unfold validate_owned_data_directory.
  pose proof (validate_directory_path_exact (Sink := Sink) self (λ _, True) path label false true (tree w) Ha w eq_refl) as [_ Hr].
  { by apply Forall_true. }
  destruct (validate_directory_path _ _ _ _ _ w) as [[[]|e] w']; destruct Hr as [Ht Hr]; (split; [done|]); [|done].
  pose proof (way_sealed self _ _ Ha Hr) as Hs. split; [done|]. split; [done|]. intros t' Ht'. by apply sealed_steps.
Qed.

Lemma ensure_owned_data_directory_safe (I : Tree → Prop) path label recursive t :
  (∀ t', grown (resolve path) t t' → I t') →
  safe (Sink := Sink) I (ensure_owned_data_directory self path label recursive) t (λ r t',
    grown (resolve path) t t' ∧
    match r with
    | Ok created => sealed self t' (resolve path) ∧ (created = true ↔ t !! resolve path = None)
                    ∧ (created = true → from_option permissions 0 (t' !! resolve path) = 448)
    | Err _ => True
    end).
Proof using All.
  intros HI. unfold ensure_owned_data_directory. pose proof (grown_refl (resolve path) t) as Hg0.
  destruct (is_absolute path) eqn:Ha; [cbn [negb]|by apply safe_fail].
  rewrite (components_absolute path) by done. cbn [normal_names].
  apply safe_bind, safe_lift. destruct (normal_names label path (path_parts path)) as [names|] eqn:Hn; [|done].
  destruct (normal_names_Ok _ _ _ _ (step_components path) Hn) as [Hp Hplain].
  case_bool_decide as Hne; [by apply safe_fail|].
  assert (Hl : resolve path = resolve "/" ++ names) by (rewrite resolve_parts, Hp, go_names by done; done).
  apply safe_bind, safe_map_err, safe_open_directory; [|done]. intros n Hroot Hd.
  apply safe_bind, safe_map_err, safe_open_metadata; [|done]. rewrite Hroot. intros ? [= <-].
  apply safe_bind, safe_lift. destruct (validate_trusted_ancestor_metadata self "/" label n) as [[]|] eqn:Ht; [|done].
  apply validate_trusted_Ok in Ht.
  eapply safe_mono; [by apply (ensure_components_spec self (resolve path) I t HI label recursive "/" names false t)|].
  intros [c|e] t' (Hg & Hk & Hres); (split; [done|]); [|done]. destruct Hres as (Hw & Hc & _). split; [|by apply Hc].
  apply way_sealed; [done|]. rewrite components_absolute by done. rewrite Hp. cbn [way go].
  change (resolve "/") with (@nil string) in *. split; [|done]. rewrite (Hk _ _ Hroot). split; [done|].
  rewrite bool_decide_eq_false_2 by (intros E; apply Hne; by destruct names). unfold trusted. naive_solver.
Qed.
(** C19: paths.rs, [ensure_owned_data_directory]: on every outcome, and at every moment before it, the
    tree differs from the first one by nothing but directories that were missing on the way to the
    path, made by this run and writable by nobody else; when it succeeds, every directory on the way
    passes the checks, and the result says whether the last one is new, and then its mode is 0700. *)
Theorem data_directory_created path label recursive n t c :
  let '(r, w') := ensure_owned_data_directory self path label recursive (Build_World (Sink := Sink) t n [] c) in
  Forall (grown (resolve path) t) (past w') ∧ grown (resolve path) t (tree w') ∧
  match r with
  | Ok created => sealed self (tree w') (resolve path) ∧ (created = true ↔ t !! resolve path = None)
                  ∧ (created = true → from_option permissions 0 (tree w' !! resolve path) = 448)
  | Err _ => True
  end.
Proof using All.
  pose proof (ensure_owned_data_directory_safe _ path label recursive t (λ _ H, H) (Build_World t n [] c) eq_refl (Forall_nil_2 _)) as [HI Hr].
  by destruct (ensure_owned_data_directory _ _ _ _ _).
Qed.

Lemma validate_owned_data_directory_safe (I : Tree → Prop) path label missing t :
  safe (Sink := Sink) I (validate_owned_data_directory self path label missing) t (λ r t',
    t' = t ∧ (r = Ok () → is_absolute path = true ∧ way self missing true t [] (components path))).
Proof using All.
  unfold validate_owned_data_directory. destruct (is_absolute path) eqn:Ha.
  - eapply safe_mono; [by apply validate_directory_path_exact|]. intros [[]|e] t' [-> Hr]; (split; [done|]); [|done]. done.
  - unfold validate_directory_path. rewrite Ha. apply safe_fail. by split.
Qed.
Lemma validate_owned_data_file_safe (I : Tree → Prop) path label m missing t :
  safe (Sink := Sink) I (validate_owned_data_file self path label m missing) t (λ r t',
    t' = t ∧ (r = Ok () → match t !! resolve path with
                          | Some n => is_file n = true ∧ uid n = Paths.uid self ∧ permissions n = m
                          | None => missing = true
                          end)).
Proof using All.
  unfold validate_owned_data_file. apply safe_bind, safe_lift. destruct (ok_or _ _) as [d|]; [|done].
  apply safe_bind. eapply safe_mono; [apply validate_owned_data_directory_safe|]. intros [[]|e] t' [-> _]; [|done].
  apply safe_bind, safe_attempt, safe_metadata.
  - intros n ->. destruct (is_file n) eqn:Hf; [cbn [negb]|by apply safe_fail].
    destruct (negb (uid n =? _) || _) eqn:Hc; [by apply safe_fail|]. bool_props. by apply safe_ret.
  - intros e He. destruct (missing && not_found e) eqn:Hc; [|by apply safe_fail]. unfold not_found in Hc. bool_props.
    rewrite He by done. by apply safe_ret.
Qed.
Lemma validate_owned_data_file_handle_safe (I : Tree → Prop) path label m t :
  safe (Sink := Sink) I (validate_owned_data_file_handle self path label m) t (λ r t',
    t' = t ∧ (r = Ok () → ∃ n, t !! resolve path = Some n ∧ is_file n = true ∧ uid n = Paths.uid self ∧ permissions n = m)).
Proof using All.
  unfold validate_owned_data_file_handle. apply safe_bind, safe_lift. destruct (ok_or _ _) as [d|]; [|done].
  apply safe_bind. eapply safe_mono; [apply validate_owned_data_directory_safe|]. intros [[]|e] t' [-> _]; [|done].
  apply safe_bind, safe_map_err, safe_open_metadata; [|done]. intros n Hn. cbn [map_err].
  destruct (is_file n) eqn:Hf; [cbn [negb]|by apply safe_fail].
  destruct (negb (uid n =? _) || _) eqn:Hc; [by apply safe_fail|]. bool_props. apply safe_ret. split; [done|]. intros _. by exists n.
Qed.

(** *** Clearing a runtime directory *)

Context (uni_debug : string → string).
(** Every name in a directory is one component. *)
Definition names_ok (t : Tree) : Prop := ∀ k n, t !! k = Some n → Forall plain k.
(** [t'] is [t] without some of the files in [d], and maybe [d]. *)
Definition cleared (d : Path) (t t' : Tree) : Prop :=
  ∀ k, t' !! k = t !! k ∨ (t' !! k = None ∧ (k = d ∨ ∃ x n, k = d ++ [x] ∧ t !! k = Some n ∧ is_dir n = false)).
Lemma cleared_refl d t : cleared d t t.
Proof using Type. by left. Qed.
Lemma cleared_file d (t t' : Tree) x n :
  cleared d t t' → t' !! (d ++ [x]) = Some n → is_dir n = false → cleared d t (delete (d ++ [x]) t').
Proof using Type.
  intros Hc Hn Hd k. destruct (decide (k = d ++ [x])) as [->|Hk]; [|rewrite lookup_delete_ne by done; apply Hc].
  right. rewrite lookup_delete_eq. split; [done|]. right. exists x, n. split; [done|]. split; [|done].
  destruct (Hc (d ++ [x])) as [<-|[E _]]; [done|congruence].
Qed.
Lemma clear_entries_safe (I : Tree → Prop) path names t0 t :
  is_absolute path = true → Forall plain names → (∀ t', cleared (resolve path) t0 t' → I t') → cleared (resolve path) t0 t →
  safe (Sink := Sink) I (clear_entries path names) t (λ r t',
    cleared (resolve path) t0 t' ∧ (∀ k, t !! k = None → t' !! k = None) ∧
    (r = Ok () → ∀ x, x ∈ names → t' !! (resolve path ++ [x]) = None)).
Proof using H0.
  intros Ha Hn HI. revert t. induction Hn as [|x names Hx Hn IH]; intros t Hc; cbn [clear_entries].
  - apply safe_ret. split; [done|]. split; [done|]. intros _ x []%elem_of_nil.
  - assert (Hr : resolve (path_join path x) = resolve path ++ [x]) by by apply resolve_join.
    apply safe_bind, safe_map_err, safe_metadata; [|done]. intros n Hx1. cbn [map_err]. destruct (is_dir n) eqn:Hd; [by apply safe_fail|].
    apply safe_bind, safe_map_err, safe_remove_file; rewrite Hr in *; [|done]. intros m Hm Hmd.
    assert (cleared (resolve path) t0 (delete (resolve path ++ [x]) t)) as Hc' by by eapply cleared_file.
    split; [by apply HI|]. eapply safe_mono; [by apply IH|]. intros r t' (H1 & H2 & H3). split; [done|]. split.
    + intros k Hk. apply H2. destruct (decide (k = resolve path ++ [x])) as [->|]; [apply lookup_delete_eq|by rewrite lookup_delete_ne].
    + intros -> y [->|Hy]%elem_of_cons; [apply H2, lookup_delete_eq|by apply H3].
Qed.
Lemma validate_runtime_dir_safe (I : Tree → Prop) t :
  safe (Sink := Sink) I (validate_runtime_dir self) t (λ _ t', t' = t).
Proof using All.
  assert (Hv : ∀ p a b, safe (Sink := Sink) I (validate_directory_path self p a b false) t (λ _ t', t' = t)).
  { intros p a b. destruct (is_absolute p) eqn:Ha.
    - eapply safe_mono; [by apply validate_directory_path_exact|]. by intros r t' [? _].
    - unfold validate_directory_path. rewrite Ha. by apply safe_fail. }
  unfold validate_runtime_dir, validate_runtime_prerequisites, inspect_runtime_dir, validate_runtime_ancestry, validate_xdg_runtime_base.
  assert (Hi : safe (Sink := Sink) I (metadata ← or_runtime "inspect" (runtime_dir self) (symlink_metadata (runtime_dir self));
    M_lift (validate_runtime_metadata self metadata)) t (λ _ t', t' = t)).
  { apply safe_bind, safe_map_err, safe_metadata; [|done]. intros n _. by apply safe_lift. }
  apply safe_bind. destruct (runtime_provenance self) as [| |base|].
  all: apply safe_bind, safe_lift; destruct (ok_or _ _) as [d|]; [|done].
  1, 2, 4: eapply safe_mono; [apply Hv|]; by intros [[]|e] t' ->.
  apply safe_bind. eapply safe_mono; [apply Hv|]. intros [[]|e] t' ->; [|done].
  apply safe_bind, safe_map_err, safe_metadata; [|done]. intros n _. apply safe_bind, safe_lift.
  destruct (validate_directory_type _ _ _); [|done]. case_match; [by apply safe_ret|by apply safe_fail].
Qed.
Lemma clear_machine_runtime_dir_safe (I : Tree → Prop) name remove p t :
  machine_runtime_dir uni_debug self name = Ok p → is_absolute p = true → names_ok t → (∀ t', cleared (resolve p) t t' → I t') →
  safe (Sink := Sink) I (clear_machine_runtime_dir self uni_debug name remove) t (λ r t',
    cleared (resolve p) t t' ∧
    (r = Ok () → entries (resolve p) t' = entries (resolve p) ∅ ∨ t !! resolve p = None) ∧
    (r = Ok () → remove = true → t' !! resolve p = None)).
Proof using All.
  intros Hp Ha Hok HI. set (Post := λ (r : result FirestoneError ()) t', _).
  assert (Hbad : ∀ e t', cleared (resolve p) t t' → Post (Err e) t') by (by intros; split_and!).
  pose proof (cleared_refl (resolve p) t) as Hc0. unfold clear_machine_runtime_dir.
  apply safe_bind. eapply safe_mono; [apply validate_runtime_dir_safe|]. intros [[]|e] t' ->; [|by apply Hbad].
  apply safe_bind, safe_lift. rewrite Hp. apply safe_bind, safe_attempt, safe_metadata.
  2: { intros e He. unfold not_found. case_bool_decide; [|by apply safe_fail, Hbad]. apply safe_ret. split; [done|].
    split; [right; by apply He|]. intros _ _. by apply He. }
  intros n Hn. apply safe_bind, safe_lift. destruct (validate_private_runtime_directory self p n) as [[]|]; [|by apply Hbad].
  apply safe_bind, safe_map_err, safe_read_dir; [|intros; by apply Hbad]. intros n' names _ _ Hperm.
  assert (Hplain : Forall plain (merge_sort str_le names)).
  { rewrite merge_sort_Permutation, Hperm, Forall_forall. intros x [m Hx]%elem_of_entries. apply Hok in Hx.
    apply Forall_app in Hx as [_ Hx]. by inversion_clear Hx. }
  apply safe_bind. eapply safe_mono; [by apply (clear_entries_safe I p _ t t)|]. intros [[]|e] t1 (Hc & Hkeep & Hgone); [|by apply Hbad].
  specialize (Hgone eq_refl). setoid_rewrite merge_sort_Permutation in Hgone. setoid_rewrite Hperm in Hgone.
  assert (He : entries (resolve p) t1 = []).
  { destruct (entries (resolve p) t1) as [|x l] eqn:E; [done|]. exfalso. assert (x ∈ entries (resolve p) t1) as [m Hm]%elem_of_entries by (rewrite E; left).
    destruct (t !! (resolve p ++ [x])) as [m'|] eqn:Ht; [|by rewrite Hkeep in Hm].
    rewrite Hgone in Hm; [done|]. apply elem_of_entries. by rewrite Ht. }
  apply safe_bind, safe_map_err, safe_sync_all. intros [[]|e]; [|by apply Hbad].
  destruct remove; [|apply safe_ret; split; [done|]; split; [by left|done]].
  apply safe_bind, safe_map_err, safe_change; [|intros; by apply Hbad]. intros _. destruct (t1 !! resolve p) as [m|] eqn:Hm; [|by apply Hbad].
  destruct (negb (is_dir m)); [by apply Hbad|]. case_bool_decide; [|by apply Hbad].
  assert (cleared (resolve p) t (delete (resolve p) t1)) as Hc'.
  { intros k. destruct (decide (k = resolve p)) as [->|Hk]; [right; rewrite lookup_delete_eq; by split; [|left]|].
    rewrite lookup_delete_ne by done. apply Hc. }
  split; [by apply HI|]. apply safe_map_err, safe_sync_all. intros [[]|e]; [|by apply Hbad]. split; [done|].
  rewrite lookup_delete_eq. split; [|done]. left. destruct (entries (resolve p) (delete (resolve p) t1)) as [|x l] eqn:E; [done|].
  exfalso. assert (x ∈ entries (resolve p) (delete (resolve p) t1)) as [m' Hm']%elem_of_entries by (rewrite E; left).
  rewrite lookup_delete_ne in Hm'. 2: { intros E'. apply (f_equal length) in E'. rewrite length_app in E'. cbn in E'. lia. }
  assert (x ∈ entries (resolve p) t1) as Hin by (apply elem_of_entries; by eexists). rewrite He in Hin. by apply elem_of_nil in Hin.
Qed.
End results.

(** ** Concrete runs *)

Definition demo_root : Tree :=
  list_to_map [([], dir_node 0 493); (["tmp"], dir_node 0 1023); (["home"], dir_node 0 493); (["home"; "me"], dir_node 1000 493)].
Definition demo_self : Paths :=
  {| config_dir := "/home/me/config"; data_dir := "/home/me/data"; runtime_dir := "/tmp/firestone-1000"; home_dir := Some "/home/me";
     Paths.uid := 1000; runtime_provenance := Fallback |}.
Definition demo_world (t : Tree) : World () :=
  {| tree := t; calls := 0; past := []; timed := {| time := 0; tick := 0; sink := () |} |}.
(** The data directory is made in a sticky /tmp, and another user then writes to /tmp. *)
Definition demo_shared : Tree := <[["tmp"; "data"] := dir_node 1000 448]> demo_root.
Lemma directory_check_protects_witness :
  let '(r, w') := validate_owned_data_directory demo_self "/tmp/data" "data directory" false (demo_world demo_shared) in
  r = Ok () ∧ tree w' = demo_shared ∧
  ∃ t', rtc (other_step demo_self) demo_shared t' ∧ is_Some (t' !! ["tmp"; "other"]) ∧ t' !! ["tmp"; "data"] = Some (dir_node 1000 448).
Proof.
  pose proof (directory_check_protects demo_self "/tmp/data" "data directory" (demo_world demo_shared) eq_refl) as H.
  assert ((validate_owned_data_directory demo_self "/tmp/data" "data directory" false (demo_world demo_shared)).1 = Ok ()) as Hr
    by (vm_compute; reflexivity).
  destruct (validate_owned_data_directory _ _ _ _ _) as [r w']. cbn in Hr. subst r. destruct H as (Ht & _ & _ & H).
  split; [reflexivity|]. split; [exact Ht|]. set (t' := <[["tmp"; "other"] := dir_node 1001 448]> demo_shared).
  assert (rtc (other_step demo_self) demo_shared t') as Hs.
  { apply rtc_once. exists 1001. split; [lia|]. split; [done|]. apply (change_entry _ _ ["tmp"; "other"]).
    - exists (dir_node 0 1023). split; [done|]. split; [by vm_compute|]. split; [done|]. split; [right; by vm_compute|]. intros _. right.
      intros n Hn. by vm_compute in Hn.
    - intros j Hj. unfold t'. rewrite lookup_insert_ne; [done|]. intros <-. by vm_compute in Hj. }
  exists t'. split; [exact Hs|]. split; [by vm_compute; eexists|]. destruct (H t' Hs) as [H1 _].
  rewrite (H1 ["tmp"; "data"] []); [by vm_compute|by vm_compute].
Defined.
Lemma data_directory_created_witness :
  let '(r, w') := ensure_owned_data_directory demo_self "/home/me/data/machines" "machines directory" true (demo_world demo_root) in
  r = Ok true ∧ sealed demo_self (tree w') ["home"; "me"; "data"; "machines"] ∧ length (past w') = 6%nat.
Proof.
  pose proof (data_directory_created demo_self "/home/me/data/machines" "machines directory" true 0 demo_root (timed (demo_world demo_root))) as H.
  assert (let '(r, w') := ensure_owned_data_directory demo_self "/home/me/data/machines" "machines directory" true (demo_world demo_root) in
    r = Ok true ∧ length (past w') = 6%nat) as Hr by (vm_compute; by split).
  change (Build_World demo_root 0 [] (timed (demo_world demo_root))) with (demo_world demo_root) in H.
  destruct (ensure_owned_data_directory _ _ _ _ _) as [r w']. destruct Hr as [-> Hl]. destruct H as (_ & _ & H & _).
  split; [reflexivity|]. split; [exact H|exact Hl].
Defined.
