(* ===== verification/Helpers.v ===== *)
(** The helper programs a release carries ([firestone-core/src/embedded_helpers.rs]): publishing one
    in the data directory's [bin], under a lock, checked against the digest recorded at build time.

    The bytes and digests a build embeds, SHA-256 and the random part of a temporary name are
    parameters; the files are those of [Tree]. *)
From stdpp Require Import gmap sorting.
From S2P Require Import Prelude RustStr RustPath Errors Clock Paths Tree DataDirs.
Open Scope Z_scope.

Definition HELPER_LOCK_NAME : string := ".embedded-helpers.lock".
Definition EXECUTABLE_MODE : Z := 493.
Definition LOCK_MODE : Z := 384.

Inductive ArtifactOrigin : Set := Embedded | Pinned.
Definition adjective (o : ArtifactOrigin) : string := match o with Embedded => "embedded" | Pinned => "pinned" end.
Definition mismatch_hint (o : ArtifactOrigin) : string :=
  match o with
  | Embedded => "remove the named file and retry with an intact Firestone release"
  | Pinned => "remove the named file and retry from a trusted network"
  end.
Record ArtifactIdentity : Set := {
  identity_dependency : string; identity_install_name : string; identity_sha256 : string; identity_mode : Z;
  expected_length : option Z; origin : ArtifactOrigin }.

Inductive InternalHelper : Set := CloudHypervisor | Passt | QemuImg | FirestoneInit.
Definition helper_dependency (h : InternalHelper) : string :=
  match h with
  | CloudHypervisor => "cloud-hypervisor" | Passt => "passt" | QemuImg => "qemu-img" | FirestoneInit => "firestone-init"
  end.
Record EmbeddedHelper : Set := {
  helper_kind : InternalHelper; version : string; install_name : string; sha256 : string; helper_bytes : list Z }.
Definition embedded (helper : EmbeddedHelper) : ArtifactIdentity :=
  {| identity_dependency := helper_dependency (helper_kind helper); identity_install_name := install_name helper;
     identity_sha256 := sha256 helper; identity_mode := EXECUTABLE_MODE;
     expected_length := Some (Z.of_nat (length (helper_bytes helper))); origin := Embedded |}.

(** The constants the build writes, the digest of some bytes in lower case hexadecimal, and the
    letters a temporary name gets. *)
Class Release := {
  BUILD_EMBEDDED_CLOUD_HYPERVISOR : option EmbeddedHelper;
  BUILD_EMBEDDED_PASST : option EmbeddedHelper;
  BUILD_EMBEDDED_QEMU_IMG : option EmbeddedHelper;
  BUILD_EMBEDDED_FIRESTONE_INIT : option EmbeddedHelper;
  sha256_bytes : list Z → string;
  temp_letters : nat → string;
  temp_letters_plain n : has_char "/" (temp_letters n) = false }.
Definition embedded_helper `{Release} (kind : InternalHelper) : option EmbeddedHelper :=
  match kind with
  | CloudHypervisor => BUILD_EMBEDDED_CLOUD_HYPERVISOR
  | Passt => BUILD_EMBEDDED_PASST
  | QemuImg => BUILD_EMBEDDED_QEMU_IMG
  | FirestoneInit => BUILD_EMBEDDED_FIRESTONE_INIT
  end.

Definition artifact_io_error (identity : ArtifactIdentity) (operation path : string) (source : IoError) : FirestoneError :=
  with_source (dependency ("cannot " +:+ operation +:+ " for " +:+ adjective (origin identity) +:+ " '"
      +:+ identity_dependency identity +:+ "' at " +:+ path)
    "check the Firestone data directory permissions and free space") (io_text source).
Definition lock_io_error (operation path : string) (source : IoError) : FirestoneError :=
  with_source (dependency ("cannot " +:+ operation +:+ " embedded helper lock " +:+ path)
    "check the Firestone binary directory permissions") (io_text source).

(** What the bin directory holds under an artifact's name. *)
Inductive InstalledState : Set := Absent | Matches | Superseded (reason : string).

Section helpers.
Context {Sink : Type} `{Host} `{Release} (uni_debug : string → string) (self : Paths).
Local Abbreviation World := (World Sink).
Local Abbreviation Io := (M World IoError).
Local Abbreviation Act := (M World FirestoneError).

(** [open] with [O_CREAT | O_EXCL]. *)
Definition create_new (p : string) (m : Z) : Io () :=
  change (λ _ t, match t !! resolve p with
    | Some _ => Err EEXIST
    | None => if in_directory t (resolve p)
              then Ok (<[resolve p := {| node_kind := Regular []; uid := euid; mode := Z.ldiff m umask |}]> t)
              else Err (no_entry t (resolve p))
    end).
(** [open] of what is there, not following a link, for reading and maybe for writing. *)
Definition open_nofollow (p : string) (writing : bool) : Io () :=
  ask (λ _ t, match t !! resolve p with
    | Some n => match node_kind n with
                | Regular _ | Special => Ok ()
                | Directory => if writing then Err EISDIR else Ok ()
                | Symlink => Err ELOOP end
    | None => Err (no_entry t (resolve p))
    end).
(** [sync_all], [seek] and [flock] of an open file: nothing to see in the tree. *)
Definition on_open_file : Io () := ask (λ _ _, Ok ()).
Definition sha256_reader (p : string) : Io string := λ w, let '(r, w') := read p w in
  (match r with Ok data => Ok (sha256_bytes data) | Err e => Err e end, w').
Definition sync_plain_directory (p : string) : Io () := sync_all p.

(** A temporary file in [dir]; [tempfile] makes it at mode 0600. *)
Definition tempfile_in (dir prefix suffix : string) : Io string := λ w,
  let p := path_join dir (prefix +:+ temp_letters (calls w) +:+ suffix) in
  let '(r, w') := create_new p 384 w in
  (match r with Ok _ => Ok p | Err e => Err e end, w').
(** A temporary file that goes out of scope is removed, and an error of that is ignored. *)
Definition drop_file (p : string) : Act () := λ w, (Ok (), (remove_file p w).2).
Definition dropping {A} (p : string) (m : Act A) : Act A := λ w,
  let '(r, w') := m w in
  match r with Ok a => (Ok a, w') | Err e => (Err e, (remove_file p w').2) end.
(** [renameat2] with [RENAME_NOREPLACE]. *)
Definition rename_noreplace (from to : string) : Io () :=
  change (λ _ t, match t !! resolve from with
    | None => Err (no_entry t (resolve from))
    | Some n => match t !! resolve to with
                | Some _ => Err EEXIST
                | None => if in_directory t (resolve to) then Ok (<[resolve to := n]> (delete (resolve from) t))
                          else Err (no_entry t (resolve to))
                end
    end).

Definition verify_payload (helper : EmbeddedHelper) : result FirestoneError () :=
  let actual := sha256_bytes (helper_bytes helper) in
  if String.eqb actual (sha256 helper) then Ok ()
  else Err (with_hint (error_new Checksum ("embedded `" +:+ helper_dependency (helper_kind helper)
         +:+ "` checksum mismatch: expected " +:+ sha256 helper +:+ ", got " +:+ actual))
         "replace the Firestone executable with an intact signed release").

Definition lock_failed {A} (operation path : string) (m : Io A) : Act A := M_map_err (lock_io_error operation path) m.
Definition acquire_helper_lock : Act () :=
  lock_path ← M_lift (binary_file uni_debug self HELPER_LOCK_NAME);
  created ← attempt (create_new lock_path LOCK_MODE);
  match created with
  | Ok _ =>
      lock_failed "set mode" lock_path (set_permissions lock_path LOCK_MODE);;
      lock_failed "sync" lock_path on_open_file;;
      lock_failed "sync parent of" lock_path (sync_plain_directory (bin_dir self))
  | Err source =>
      if already_exists source then lock_failed "open" lock_path (open_nofollow lock_path true)
      else M_fail (lock_io_error "create" lock_path source)
  end;;
  validate_owned_data_file_handle self lock_path "embedded helper lock" LOCK_MODE;;
  lock_failed "acquire" lock_path on_open_file.

Section artifact.
Context (identity : ArtifactIdentity).
Definition failed {A} (operation path : string) (m : Io A) : Act A := M_map_err (artifact_io_error identity operation path) m.
Definition inspect_installed (destination : string) : Act InstalledState :=
  opened ← attempt (open_nofollow destination false);
  match opened with
  | Err source =>
      if not_found source then mret Absent else M_fail (artifact_io_error identity "open installed file" destination source)
  | Ok _ =>
      validate_owned_data_file_handle self destination
        (adjective (origin identity) +:+ " " +:+ identity_dependency identity) (identity_mode identity);;
      metadata ← failed "inspect installed file" destination (open_metadata destination);
      let len := Z.of_nat (length (data_of metadata)) in
      let compare :=
        actual ← failed "hash installed file" destination (sha256_reader destination);
        mret (if String.eqb actual (identity_sha256 identity) then Matches
              else Superseded ("has checksum " +:+ actual +:+ "; expected " +:+ identity_sha256 identity)) in
      match expected_length identity with
      | Some expected =>
          if negb (len =? expected) then mret (Superseded ("has length " +:+ dec len +:+ "; expected " +:+ dec expected)) else compare
      | None => compare
      end
  end.
Definition verify_installed (destination : string) : Act bool :=
  installed ← inspect_installed destination;
  match installed with
  | Matches => mret true
  | Absent => mret false
  | Superseded reason =>
      M_fail (with_hint (error_new Checksum (adjective (origin identity) +:+ " '" +:+ identity_dependency identity
        +:+ "' at " +:+ destination +:+ " " +:+ reason)) (mismatch_hint (origin identity)))
  end.
(** From the new temporary file to one that is written, synced and read back. *)
Definition write_partial (partial : string) (write_source : string → Act ()) : Act () :=
  write_source partial;;
  failed "flush partial file" partial (mret ());;
  failed "set partial mode" partial (set_permissions partial (identity_mode identity));;
  failed "sync partial file" partial on_open_file;;
  failed "rewind partial file" partial on_open_file;;
  readback ← failed "hash partial file" partial (sha256_reader partial);
  if String.eqb readback (identity_sha256 identity) then mret ()
  else M_fail (with_hint (error_new Checksum (adjective (origin identity) +:+ " '" +:+ identity_dependency identity
         +:+ "' partial checksum mismatch: expected " +:+ identity_sha256 identity +:+ ", got " +:+ readback))
         (mismatch_hint (origin identity))).
(** [persist] replaces a superseded file; [persist_noclobber] publishes where nothing was. *)
Definition publish_partial (partial destination : string) (superseded : bool) : Act () :=
  if superseded then
    dropping partial (failed "replace superseded file" destination (rename partial destination));;
    failed "sync published file" destination on_open_file
  else
    moved ← attempt (rename_noreplace partial destination);
    match moved with
    | Ok _ => failed "sync published file" destination on_open_file
    | Err source =>
        drop_file partial;;
        if already_exists source then mret () else M_fail (artifact_io_error identity "publish partial file" destination source)
    end.
(** The rest of [materialize_with], when the file there is not the one wanted. *)
Definition install (destination : string) (superseded : bool) (write_source : string → Act ()) : Act string :=
  partial ← failed "create partial file" (bin_dir self)
    (tempfile_in (bin_dir self) ("." +:+ identity_install_name identity +:+ ".") ".partial");
  dropping partial (write_partial partial write_source);;
  publish_partial partial destination superseded;;
  failed "sync binary directory" (bin_dir self) (sync_plain_directory (bin_dir self));;
  present ← verify_installed destination;
  if (present : bool) then mret destination
  else M_fail (dependency (adjective (origin identity) +:+ " '" +:+ identity_dependency identity
         +:+ "' was not present after publication at " +:+ destination)
         "check the Firestone data directory permissions and free space").
Definition materialize_with (write_source : string → Act ()) : Act string :=
  ensure_owned_data_directory self (bin_dir self) "binary directory" true;;
  validate_bin_data_directory self;;
  acquire_helper_lock;;
  validate_bin_data_directory self;;
  destination ← M_lift (binary_file uni_debug self (identity_install_name identity));
  installed ← inspect_installed destination;
  match installed with
  | Matches => mret destination
  | Superseded _ => install destination true write_source
  | Absent => install destination false write_source
  end.
End artifact.

Definition materialize (helper : EmbeddedHelper) : Act string :=
  M_lift (verify_payload helper);;
  let identity := embedded helper in
  materialize_with identity (λ output, M_map_err (artifact_io_error identity "write partial file" (bin_dir self))
    (write_all output (helper_bytes helper))).
Definition materialize_embedded_helper (kind : InternalHelper) : Act (option string) :=
  match embedded_helper kind with
  | Some helper => path ← materialize helper; mret (Some path)
  | None => mret None
  end.
End helpers.

(** ** What publishing a helper does to the files *)

Section frame.
Context {Sink : Type} `{RealFaults} `{Release} (uni_debug : string → string) (self : Paths).
Context (Hdata : is_absolute (data_dir self) = true).
Local Abbreviation safe := (safe (Sink := Sink)).
Implicit Types t : Tree.

Definition bin_at : Path := resolve (bin_dir self).
(** What is in the bin directory, and directories that were missing on the way to it. *)
Definition helper_file (t : Tree) (k : Path) : Prop := (∃ r, k = bin_at ++ r) ∨ (t !! k = None ∧ ∃ r, bin_at = k ++ r).
(** Nothing else differs. *)
Definition helped t t' : Prop := ∀ k, t' !! k = t !! k ∨ helper_file t k.
Lemma helped_refl t : helped t t.
Proof using Type. by left. Qed.
Lemma helped_trans t t1 t2 : helped t t1 → helped t1 t2 → helped t t2.
Proof using Type.
  intros Ht1 Ht2 k. destruct (Ht1 k) as [E1|]; [|by right]. destruct (Ht2 k) as [E2|[E2|[Hn E2]]]; [left; congruence|right; by left|].
  right. right. split; [congruence|done].
Qed.
Lemma helped_grown t t' : grown bin_at t t' → helped t t'.
Proof using Type. intros Hg k. destruct (Hg k) as [|(Hn & Hr & _)]; [by left|]. right. by right. Qed.
Lemma helped_at t t' x u : helped t t' → helped t (set_node (bin_at ++ [x]) u t').
Proof using Type.
  intros Ht k. unfold set_node. destruct (decide (k = bin_at ++ [x])) as [->|Hk]; [right; left; by eexists|].
  rewrite lookup_partial_alter_ne by done. apply Ht.
Qed.
Lemma bin_absolute : is_absolute (bin_dir self) = true.
Proof using Hdata. by apply path_join_absolute. Qed.
Lemma resolve_in_bin x : plain x → resolve (path_join (bin_dir self) x) = bin_at ++ [x].
Proof using Hdata. intros Hx. apply resolve_join; [apply bin_absolute|done]. Qed.
Lemma binary_file_Ok x p : binary_file uni_debug self x = Ok p → plain x ∧ p = path_join (bin_dir self) x.
Proof using Type.
  intros [Hx ->]%checked_join_Ok. split; [|done]. split; [by apply has_control_no_slash|by apply single_component_name].
Qed.

(** *** The steps *)

Context (I : Tree → Prop) (t0 : Tree) (HI : ∀ t, helped t0 t → I t).

Lemma in_bin_insert t x n : helped t0 t → helped t0 (<[bin_at ++ [x] := n]> t).
Proof using Type. apply (helped_at t0 t x (Some n)). Qed.
Lemma in_bin_delete t x : helped t0 t → helped t0 (delete (bin_at ++ [x]) t).
Proof using Type. apply (helped_at t0 t x None). Qed.
Lemma on_open_file_safe t (Q : result IoError () → Tree → Prop) : (∀ r, Q r t) → safe I on_open_file t Q.
Proof using H0. intros HQ. apply safe_ask; intros; apply HQ. Qed.
Lemma open_nofollow_safe p writing t (Q : result IoError () → Tree → Prop) : (∀ r, Q r t) → safe I (open_nofollow p writing) t Q.
Proof using H0. intros HQ. apply safe_ask; intros; apply HQ. Qed.
Lemma create_new_safe x m t :
  plain x → helped t0 t → safe I (create_new (path_join (bin_dir self) x) m) t (λ _ t', helped t0 t').
Proof using H0 HI Hdata.
  intros Hx Ht. apply safe_change; [|done]. intros _. rewrite resolve_in_bin by done.
  destruct (t !! _); [done|]. destruct (in_directory _ _); [|done]. split; [apply HI|]; by apply in_bin_insert.
Qed.
Lemma set_permissions_in_safe x m t :
  plain x → helped t0 t → safe I (set_permissions (path_join (bin_dir self) x) m) t (λ _ t', helped t0 t').
Proof using H0 HI Hdata.
  intros Hx Ht. apply safe_set_permissions; [|done]. rewrite resolve_in_bin by done. intros n _.
  split; [apply HI|]; by apply in_bin_insert.
Qed.
Lemma remove_file_in_safe x t :
  plain x → helped t0 t → safe I (remove_file (path_join (bin_dir self) x)) t (λ _ t', helped t0 t').
Proof using H0 HI Hdata.
  intros Hx Ht. apply safe_remove_file; [|done]. rewrite resolve_in_bin by done. intros n _ _.
  split; [apply HI|]; by apply in_bin_delete.
Qed.
Lemma write_all_in_safe x bytes t :
  plain x → helped t0 t → safe I (write_all (path_join (bin_dir self) x) bytes) t (λ _ t', helped t0 t').
Proof using HI Hdata.
  intros Hx Ht w <- Hw. unfold write_all. cbn. rewrite resolve_in_bin by done.
  assert (Ha : ∀ f, helped t0 (alter f (bin_at ++ [x]) (tree w))).
  { intros f. intros k. destruct (decide (k = bin_at ++ [x])) as [->|Hk]; [right; left; by eexists|].
    rewrite lookup_alter_ne by done. apply Ht. }
  split; [|apply Ha]. apply Forall_app. split; [done|]. constructor; [apply HI, Ha|done].
Qed.
Lemma validate_bin_safe t : safe I (validate_bin_data_directory self) t (λ _ t', t' = t).
Proof using All.
  unfold validate_bin_data_directory, validate_owned_data_subdirectory.
  apply safe_bind. eapply safe_mono; [apply validate_owned_data_directory_safe|]. intros [[]|e] t' [-> _]; [|done].
  eapply safe_mono; [apply validate_owned_data_directory_safe|]. by intros r t' [-> _].
Qed.
Lemma acquire_helper_lock_safe t :
  helped t0 t → safe I (acquire_helper_lock uni_debug self) t (λ _ t', helped t0 t').
Proof using All.
  intros Ht. unfold acquire_helper_lock. apply safe_bind, safe_lift.
  destruct (binary_file _ _ _) as [p|] eqn:Hp; [|done]. apply binary_file_Ok in Hp as [Hx ->].
  apply safe_bind, safe_attempt. eapply safe_mono; [by apply create_new_safe|]. intros created t1 Ht1.
  apply safe_bind. eapply (safe_mono _ _ (λ _ t', helped t0 t')).
  { destruct created as [[]|source].
    - apply safe_bind, safe_map_err. eapply safe_mono; [by apply set_permissions_in_safe|]. intros [[]|e] t2 Ht2; [|done].
      apply safe_bind, safe_map_err, on_open_file_safe. intros [[]|e]; [|done]. by apply safe_map_err, safe_sync_all.
    - destruct (already_exists source); [|by apply safe_fail]. by apply safe_map_err, open_nofollow_safe. }
  intros [[]|e] t2 Ht2; [|done].
  apply safe_bind. eapply safe_mono; [apply validate_owned_data_file_handle_safe|]. intros [[]|e] t' [-> _]; [|done].
  by apply safe_map_err, on_open_file_safe.
Qed.

Section artifact_frame.
Context (identity : ArtifactIdentity).
(** A file of the user, with the digest and the mode the build recorded. *)
Definition installed (destination : string) t : Prop :=
  ∃ n data, t !! resolve destination = Some n ∧ node_kind n = Regular data ∧ uid n = Paths.uid self ∧
    permissions n = identity_mode identity ∧ sha256_bytes data = identity_sha256 identity.
Lemma sha256_reader_safe p t :
  safe I (sha256_reader p) t (λ r t', t' = t ∧ ∀ d, r = Ok d → ∃ n data, t !! resolve p = Some n ∧ node_kind n = Regular data ∧ d = sha256_bytes data).
Proof using H0.
  intros w Hw HI'. unfold sha256_reader. assert (safe I (read p) t (λ r t', t' = t ∧ ∀ data, r = Ok data →
    ∃ n, t !! resolve p = Some n ∧ node_kind n = Regular data)) as Hr.
  { apply safe_read; [|done]. intros n data Hn Hd. split; [done|]. intros ? [= <-]. by exists n. }
  specialize (Hr w Hw HI'). destruct (read p w) as [[data|e] w']; destruct Hr as (Hp & Ht & Hd); (split; [done|]); (split; [done|]); [|done].
  intros ? [= <-]. destruct (Hd data eq_refl) as (n & ? & ?). by exists n, data.
Qed.
Lemma inspect_installed_safe destination t :
  safe I (inspect_installed self identity destination) t (λ r t', t' = t ∧ (r = Ok Matches → installed destination t)).
Proof using H0.
  unfold inspect_installed. apply safe_bind, safe_attempt, open_nofollow_safe. intros [[]|e]; [|by case_match; [apply safe_ret|apply safe_fail]].
  apply safe_bind. eapply safe_mono; [apply validate_owned_data_file_handle_safe|]. intros [[]|e] t' [-> Hv]; [|done].
  destruct (Hv eq_refl) as (n & Hn & Hf & Hu & Hm). apply safe_bind, safe_map_err, safe_open_metadata; [|done].
  intros n' _. cbn [map_err]. set (compare := _ ≫= _).
  assert (safe I compare t (λ r t', t' = t ∧ (r = Ok Matches → installed destination t))) as Hc.
  { apply safe_bind, safe_map_err. eapply safe_mono; [apply sha256_reader_safe|]. intros [d|e] t' [-> Hd]; cbn [map_err]; [|done].
    apply safe_ret. split; [done|]. destruct (String.eqb_spec d (identity_sha256 identity)) as [->|]; [|done]. intros _.
    destruct (Hd _ eq_refl) as (n1 & data & Hn1 & Hk & Hs). assert (n1 = n) as -> by congruence. by exists n, data. }
  destruct (expected_length identity); [|done]. case_match; [by apply safe_ret|done].
Qed.
Lemma verify_installed_safe destination t :
  safe I (verify_installed self identity destination) t (λ r t', t' = t ∧ (r = Ok true → installed destination t)).
Proof using H0.
  apply safe_bind. eapply safe_mono; [apply inspect_installed_safe|]. intros [[| |reason]|e] t' [-> Hi]; [|..|done].
  - by apply safe_ret.
  - apply safe_ret. auto.
  - by apply safe_fail.
Qed.
Lemma dropping_safe {A} x (m : M (World Sink) FirestoneError A) t :
  plain x → safe I m t (λ _ t', helped t0 t') → safe I (dropping (path_join (bin_dir self) x) m) t (λ _ t', helped t0 t').
Proof using H0 HI Hdata.
  intros Hx Hm w Hw Hp. specialize (Hm w Hw Hp). unfold dropping. destruct (m w) as [[a|e] w']; [done|].
  destruct Hm as [Hp' Ht]. by apply (remove_file_in_safe x (tree w') Hx Ht w').
Qed.
Lemma drop_file_safe x t :
  plain x → helped t0 t → safe I (drop_file (path_join (bin_dir self) x)) t (λ _ t', helped t0 t').
Proof using H0 HI Hdata. intros Hx Ht w Hw Hp. unfold drop_file. cbn. by apply (remove_file_in_safe x t Hx Ht w). Qed.
Lemma partial_plain x n : plain x → plain (("." +:+ x +:+ ".") +:+ temp_letters n +:+ ".partial").
Proof using Type.
  intros (Hx & _). split; [by rewrite !has_char_app, Hx, temp_letters_plain|].
  split_and!; intros E%(f_equal String.length); rewrite !length_app_str in E; cbn in E; lia.
Qed.
Lemma tempfile_in_safe x t :
  plain x → helped t0 t →
  safe I (tempfile_in (bin_dir self) ("." +:+ x +:+ ".") ".partial") t (λ r t', helped t0 t' ∧
    ∀ p, r = Ok p → ∃ y, p = path_join (bin_dir self) y ∧ plain y ∧ y ≠ x).
Proof using H0 HI Hdata.
  intros Hx Ht w Hw Hp. unfold tempfile_in. set (y := ("." +:+ x +:+ ".") +:+ _).
  assert (Hy : plain y) by by apply partial_plain.
  pose proof (create_new_safe y 384 t Hy Ht w Hw Hp) as Hr. destruct (create_new _ _ w) as [[[]|e] w']; destruct Hr as [Hp' Ht'];
    (split; [done|]); (split; [done|]); [|done].
  intros ? [= <-]. exists y. split; [done|]. split; [done|]. intros E%(f_equal String.length).
  unfold y in E. rewrite !length_app_str in E. cbn in E. lia.
Qed.
Lemma write_partial_safe x write_source t :
  plain x → (∀ t, helped t0 t → safe I (write_source (path_join (bin_dir self) x)) t (λ _ t', helped t0 t')) → helped t0 t →
  safe I (write_partial identity (path_join (bin_dir self) x) write_source) t (λ _ t', helped t0 t').
Proof using H0 HI Hdata.
  intros Hx Hw Ht. unfold write_partial. apply safe_bind. eapply safe_mono; [by apply Hw|]. intros [[]|e] t1 Ht1; [|done].
  apply safe_bind, safe_map_err, safe_ret. cbn [map_err].
  apply safe_bind, safe_map_err. eapply safe_mono; [by apply set_permissions_in_safe|]. intros [[]|e] t2 Ht2; [|done].
  apply safe_bind, safe_map_err, on_open_file_safe. intros [[]|e]; [|done].
  apply safe_bind, safe_map_err, on_open_file_safe. intros [[]|e]; [|done].
  apply safe_bind, safe_map_err. eapply safe_mono; [apply sha256_reader_safe|]. intros [d|e] t' [-> _]; [|done]. cbn [map_err].
  case_match; [by apply safe_ret|by apply safe_fail].
Qed.
Lemma in_bin_move y x t : x ≠ y → helped t0 t → helped t0 (move (bin_at ++ [y]) (bin_at ++ [x]) t).
Proof using Type.
  intros Hne Ht k. rewrite lookup_move by by apply separate_siblings.
  destruct (strip (bin_at ++ [x]) k) as [r|] eqn:Hx; [|destruct (strip (bin_at ++ [y]) k) as [r|] eqn:Hy; [|apply Ht]].
  1: apply strip_Some in Hx as ->. 2: apply strip_Some in Hy as ->.
  all: right; left; rewrite <- app_assoc; by eexists.
Qed.
Lemma publish_partial_safe y x superseded t :
  plain x → plain y → y ≠ x → helped t0 t →
  safe I (publish_partial identity (path_join (bin_dir self) y) (path_join (bin_dir self) x) superseded) t (λ _ t', helped t0 t').
Proof using H0 HI Hdata.
  intros Hx Hy Hne Ht. unfold publish_partial. destruct superseded.
  - apply safe_bind. eapply (safe_mono _ _ (λ _ t', helped t0 t')).
    { apply dropping_safe; [done|]. apply safe_map_err, safe_rename; rewrite ?resolve_in_bin by done; [|intros n _ _ _ _|done].
      + intros E. apply app_inj_tail in E as [_ E]. done.
      + pose proof (in_bin_move y x t ltac:(done) Ht). split; [by apply HI|done]. }
    intros [[]|e] t1 Ht1; [|done]. by apply safe_map_err, on_open_file_safe.
  - apply safe_bind, safe_attempt. eapply (safe_mono _ _ (λ _ t', helped t0 t')).
    { apply safe_change; [|done]. intros _. rewrite !resolve_in_bin by done. destruct (t !! _) as [n|]; [|done].
      destruct (t !! _); [done|]. destruct (in_directory _ _); [|done].
      pose proof (in_bin_insert _ x n (in_bin_delete t y Ht)). split; [by apply HI|done]. }
    intros [[]|source] t1 Ht1; [by apply safe_map_err, on_open_file_safe|].
    apply safe_bind. eapply safe_mono; [by apply drop_file_safe|]. intros [[]|e] t2 Ht2; [|done].
    destruct (already_exists source); [by apply safe_ret|by apply safe_fail].
Qed.
Lemma install_safe x superseded write_source t :
  plain x → (∀ x t, plain x → helped t0 t → safe I (write_source (path_join (bin_dir self) x)) t (λ _ t', helped t0 t')) →
  x = identity_install_name identity → helped t0 t →
  safe I (install self identity (path_join (bin_dir self) x) superseded write_source) t
    (λ r t', helped t0 t' ∧ ∀ p, r = Ok p → installed p t').
Proof using H0 HI Hdata.
  intros Hx Hw -> Ht. unfold install.
  apply safe_bind, safe_map_err. eapply safe_mono; [by apply tempfile_in_safe|]. intros [partial|e] t3 [Ht3 Hp]; [|done].
  destruct (Hp _ eq_refl) as (y & -> & Hy & Hne). cbn [map_err].
  apply safe_bind. eapply safe_mono; [apply dropping_safe; [done|apply write_partial_safe; auto]|]. intros [[]|e] t4 Ht4; [|done].
  apply safe_bind. eapply safe_mono; [by apply publish_partial_safe|]. intros [[]|e] t5 Ht5; [|done].
  apply safe_bind, safe_map_err, safe_sync_all. intros [[]|e]; [|done]. cbn [map_err].
  apply safe_bind. eapply safe_mono; [apply verify_installed_safe|]. intros [[]|e] t' [-> Hv]; [| |done].
  - apply safe_ret. split; [done|]. intros ? [= <-]. by apply Hv.
  - by apply safe_fail.
Qed.
Lemma materialize_with_safe write_source t :
  (∀ x t, plain x → helped t0 t → safe I (write_source (path_join (bin_dir self) x)) t (λ _ t', helped t0 t')) → helped t0 t →
  safe I (materialize_with uni_debug self identity write_source) t (λ r t', helped t0 t' ∧ ∀ p, r = Ok p → installed p t').
Proof using All.
  intros Hw Ht. unfold materialize_with.
  assert (Hg : ∀ t', grown bin_at t t' → helped t0 t') by (intros t' Hg; by eapply helped_trans, helped_grown).
  apply safe_bind. eapply safe_mono; [apply ensure_owned_data_directory_safe; intros t' Ht'; by apply HI, Hg|].
  intros [created|e] t1 [Ht1%Hg _]; [clear Hg|done].
  apply safe_bind. eapply safe_mono; [apply validate_bin_safe|]. intros [[]|e] t' ->; [|done].
  apply safe_bind. eapply safe_mono; [by apply acquire_helper_lock_safe|]. intros [[]|e] t2 Ht2; [|done].
  apply safe_bind. eapply safe_mono; [apply validate_bin_safe|]. intros [[]|e] t' ->; [|done].
  apply safe_bind, safe_lift. destruct (binary_file _ _ _) as [destination|] eqn:Hb; [|done]. apply binary_file_Ok in Hb as [Hx ->].
  apply safe_bind. eapply safe_mono; [apply inspect_installed_safe|]. intros [[| |reason]|e] t' [-> Hi]; [| | |done].
  - by apply install_safe.
  - apply safe_ret. split; [done|]. intros ? [= <-]. by apply Hi.
  - by apply install_safe.
Qed.
End artifact_frame.

Lemma materialize_embedded_helper_safe kind t :
  helped t0 t →
  safe I (materialize_embedded_helper uni_debug self kind) t (λ r t', helped t0 t' ∧ (embedded_helper kind = None → t' = t) ∧
    match r with
    | Ok (Some p) => ∃ helper, embedded_helper kind = Some helper ∧ installed (embedded helper) p t'
    | Ok None => embedded_helper kind = None
    | Err _ => True
    end).
Proof using All.
  intros Ht. unfold materialize_embedded_helper. destruct (embedded_helper kind) as [helper|] eqn:Hk; [|by apply safe_ret].
  apply safe_bind, safe_bind, safe_lift. destruct (verify_payload helper) as [[]|]; [|done].
  eapply safe_mono; [apply materialize_with_safe; [|done]|].
  - intros x t' Hx Ht'. by apply safe_map_err, write_all_in_safe.
  - intros [p|e] t' [Ht' Hp]; [|done]. apply safe_ret. split; [done|]. split; [done|]. exists helper. split; [done|]. by apply Hp.
Qed.
End frame.
