(* ===== verification/Store.v ===== *)
(** The machine store ([firestone/src/store.rs]): how a machine comes to be, is listed and goes.

    Machines are directories below one directory.  A machine that is being made carries the marker
    [.creating] in its directory; it is published by removing the marker, and unpublished by renaming
    its directory.  The directory's checks are [DataDirs], the files are written by [Atomic], the lock
    is [Lock], the state file [State], the specification [Validation] and [SpecToml]. *)
From stdpp Require Import gmap sorting.
From S2P Require Import Prelude RustStr RustPath Errors Clock Bounded Values Ports Atomic Lock State BTree Utf8.
From S2P Require Import Spec SpecToml Catalog Validation Paths Tree DataDirs.
Open Scope Z_scope.

(** ** What the store relies on *)

(** Specifications as text, as [spec.rs] and [spec/validation.rs] provide them. *)
Class SpecText (Json : Type) := {
  validate_spec : ValidationContext → M (MachineSpec.MachineSpec Json) FirestoneError (list SpecWarning);
  load_spec : string → GlobalConfig (Json := Json) → MachineSpecPatch.MachineSpecPatch Json → string → ValidationContext →
    result FirestoneError (LoadedMachineSpec (Json := Json));
  spec_text : MachineSpec.MachineSpec Json → result FirestoneError string }.
#[export] Instance toml_specs {Json} `{OverlayJson Json} `{ValidationHost} `{UrlCrate} `{SshKeyCrate} `{Toml}
    `{!TomlType (MachineSpecPatch.MachineSpecPatch Json)} (utf8_error : string → string) : SpecText Json := {|
  validate_spec := validate_machine_spec utf8_error;
  load_spec := load utf8_error;
  spec_text := spec_to_toml |}.
(** serde_json on a state and on what the store reports. *)
Class StateJson := {
  to_vec_pretty : MachineState → result string (list Z);
  from_slice : list Z → result string MachineState }.
(** The rest of the host: the kernel's answers to [flock], /proc, the VMM's socket and the clock. *)
Class LiveHost := {
  flock : nat → FlockResult;
  read_proc : nat → string → result IoError string;
  pings : nat → string → result FirestoneError bool;
  timestamp : nat → string;
  host_arch : string;
  utf8_error : list Z → string;
  uni_debug : string → string }.

(** ** Errors *)

Definition filesystem_error (k : ErrorKind) (message hint : string) (source : IoError) : FirestoneError :=
  with_source (with_hint (error_new k message) hint) (io_text source).
Definition machine_already_exists_error (name : string) : FirestoneError :=
  with_hint (error_new AlreadyExists ("machine `" +:+ name +:+ "` already exists"))
    ("use `firestone show " +:+ name +:+ "` or choose another name").
Definition machine_status_word (s : MachineStatus) : string :=
  match s with
  | Created => "created" | Starting => "starting" | Running => "running"
  | Stopping => "stopping" | Stopped => "stopped" | Failed => "failed"
  end.
Definition ensure_clonable (name : string) (status : MachineStatus) : result FirestoneError () :=
  match status with
  | Created | Stopped => Ok ()
  | _ => Err (with_hint (error_new Conflict ("machine `" +:+ name +:+ "` is " +:+ machine_status_word status +:+ " and cannot be cloned"))
           ("run `firestone stop " +:+ name +:+ "` and clone the stopped machine"))
  end.
Fixpoint find_repeated (seen names : list string) : option string :=
  match names with
  | [] => None
  | name :: names => if bool_decide (name ∈ seen) then Some name else find_repeated (name :: seen) names
  end.
Definition validate_remove_names (debug : string → string) (names : list string) : result FirestoneError () :=
  if bool_decide (names = []) then Err (error_new Usage "rm requires at least one machine name")
  else match find_repeated [] names with
       | Some name => Err (with_hint (error_new Usage ("machine " +:+ debug name +:+ " is repeated in rm arguments")) "list each machine once")
       | None => Ok ()
       end.
Definition pinned_image_reference (state : MachineState) : option string :=
  match State.id (State.image state), State.sha256 (State.image state) with
  | Some _, Some _ => Some (State.ref (State.image state))
  | _, _ => None
  end.

(** ** Files *)

Section files.
Context {Sink : Type} `{Host} `{LiveHost}.
Local Abbreviation World := (World Sink).
Local Abbreviation Act := (M World FirestoneError).

Definition creation_marker_exists (path name : string) : Act bool :=
  metadata ← attempt (symlink_metadata path);
  match metadata with
  | Ok metadata =>
      if Tree.is_file metadata then mret true
      else M_fail (dependency ("creation marker for machine `" +:+ name +:+ "` is not a regular file")
             "move the invalid machine directory aside and retry")
  | Err source =>
      if not_found source then mret false
      else M_fail (filesystem_error Generic ("cannot inspect creation marker for machine `" +:+ name +:+ "`")
             "check the machine directory permissions" source)
  end.
Definition validate_creation_lock_file (path name : string) (allow_missing : bool) : Act () :=
  metadata ← attempt (symlink_metadata path);
  match metadata with
  | Ok metadata =>
      if Tree.is_file metadata then mret ()
      else M_fail (dependency ("machine lock for `" +:+ name +:+ "` is not a regular file")
             "move the invalid machine directory aside and retry")
  | Err source =>
      if allow_missing && not_found source then mret ()
      else M_fail (filesystem_error Generic ("cannot inspect machine lock for `" +:+ name +:+ "`")
             "check the machine directory permissions" source)
  end.
Definition read_entries (machine_dir name : string) : Act (list string) :=
  M_map_err (filesystem_error Generic ("cannot inspect incomplete machine `" +:+ name +:+ "`")
    "check the machine directory permissions") (read_dir machine_dir).
(** The loop over the entries: all but the lock and the marker go. *)
Fixpoint clear_stale (machine_dir : string) (names : list string) : Act () :=
  match names with
  | [] => mret ()
  | file_name :: names =>
      if String.eqb file_name "lock" || String.eqb file_name ".creating" then clear_stale machine_dir names
      else
        let path := path_join machine_dir file_name in
        metadata ← M_map_err (filesystem_error Generic ("cannot inspect stale machine path " +:+ path)
          "check the machine directory permissions") (symlink_metadata path);
        M_map_err (filesystem_error Generic ("cannot remove stale machine path " +:+ path)
          "check the machine directory permissions")
          (if is_dir metadata then remove_dir_all path else remove_file path);;
        clear_stale machine_dir names
  end.
Definition clear_incomplete_machine (machine_dir name : string) : Act () :=
  names ← read_entries machine_dir name;
  clear_stale machine_dir names.
Definition machine_has_non_lock_entries (machine_dir name : string) : Act bool :=
  names ← read_entries machine_dir name;
  mret (existsb (λ file_name, negb (String.eqb file_name "lock")) names).
Definition owned_file_ready (path : string) : Act bool :=
  metadata ← attempt (symlink_metadata path);
  match metadata with
  | Ok metadata => mret (Tree.is_file metadata)
  | Err source =>
      if not_found source then mret false
      else M_fail (filesystem_error Generic ("cannot inspect owned file " +:+ path) "check the machine directory permissions" source)
  end.
Definition ensure_owned_regular_file (path label : string) (k : ErrorKind) : Act () :=
  metadata ← M_map_err (filesystem_error k ("cannot inspect " +:+ label +:+ " " +:+ path)
    "check that the file exists and is readable") (symlink_metadata path);
  if Tree.is_file metadata then mret ()
  else M_fail (with_hint (error_new k (label +:+ " " +:+ path +:+ " is not a regular owned file"))
         "replace the symlink or special file with a regular Firestone-owned file").
Definition read_file (path label : string) (k : ErrorKind) : Act (list Z) :=
  ensure_owned_regular_file path label k;;
  M_map_err (filesystem_error k ("cannot read " +:+ label +:+ " " +:+ path) "check that the file exists and is readable") (Tree.read path).
Definition remove_candidate (path : string) : Act () :=
  removed ← attempt (remove_file path);
  match removed with
  | Ok _ => mret ()
  | Err source =>
      if not_found source then mret ()
      else M_fail (filesystem_error Generic ("cannot remove edit candidate " +:+ path) "remove the stale edit file before retrying" source)
  end.
Definition sync_directory (path : string) : Act () :=
  M_map_err (filesystem_error Generic ("cannot sync directory " +:+ path) "check the Firestone data directory permissions") (sync_all path).
(** Going on with what an action comes to. *)
Definition caught {A} (m : Act A) : Act (result FirestoneError A) := λ w, let '(r, w) := m w in (Ok r, w).
(** [std::str::from_utf8] on a document. *)
Definition utf8_text (bytes : list Z) (what : string) : result FirestoneError string :=
  ok_or (from_utf8 bytes)
    (with_source (with_hint (error_new InvalidSpec (what +:+ " is not UTF-8")) "save firestone.toml as UTF-8 TOML") (utf8_error bytes)).

(** *** Taking a machine's lock: [MachineLock::acquire] *)

Definition lock_fuel : nat := 404.
Definition acquire_lock {Json} `{Schedule} `{EventSink Json Sink} (name path : string) : Act MachineLock :=
  M_map_err (lock_io_failure "open" path) (open_create path 384 false);;
  granted ← on_clock (acquire_with_timing (Ok ()) flock name path PRODUCTION lock_fuel);
  match granted with
  | Some lock => mret lock
  | None => M_fail (busy name) (** Never: [lock_fuel] turns are enough. *)
  end.

(** *** The state file: [StateStore] *)

Context `{StateJson}.
(** What opening a path gives [StateStore::read]. *)
Definition open_node (w : World) (p : string) : result IoError OpenedFile :=
  match fault (calls w) with
  | Some e => Err e
  | None =>
      match tree w !! Tree.resolve p with
      | Some n => match node_kind n with
                  | Regular data => Ok {| State.is_file := Ok true; stream := {| Bounded.data := data; fails := None |} |}
                  | Directory | Special => Ok {| State.is_file := Ok false; stream := {| Bounded.data := []; fails := None |} |}
                  | Symlink => Err ELOOP
                  end
      | None => Err (no_entry (tree w) (Tree.resolve p))
      end
  end.
Definition read_state (path : string) : Act MachineState := λ w,
  (State.read from_slice {| store_path := path |} (open_node w), counted w).
Definition write_state (path : string) (state : MachineState) (lock : MachineLock) : Act () :=
  atomically path (λ faults short, write_from_locked_action to_vec_pretty faults short {| store_path := path |} state lock).
End files.

(** ** The dispatcher

    The programs it runs and how long it waits for a start are left out. *)

(** [templates/firestone.toml], line by line. *)
Definition SPEC_TEMPLATE : string := join LF [
  "# Firestone machine specification.";
  "#";
  "# `image` accepts a catalog reference, HTTPS URL, local qcow2/raw path, or an";
  "# OCI reference such as `docker://nginx` or `ghcr.io/owner/app:v1`. Registries";
  "# reachable only over plain HTTP go in `[images].insecure_registries` in";
  "# `~/.config/firestone/config.toml`, as bare `host` or `host:port` entries.";
  "# `arch` defaults to the host and may be `x86_64` or `aarch64`.";
  "# CPU, memory, and disk values can also be set by `firestone create` flags.";
  "#";
  "# `cpus_max` and `memory_max` are optional headroom for `firestone resize`.";
  "# When set they must be at least `cpus` and `memory`, they are declared to the";
  "# VMM at boot, and only then can a running machine be resized live. Raising";
  "# `disk` grows the overlay on the next start; lowering it is refused.";
  "#";
  "# Network modes: `passt` (default), `tap`, or `none`. Repeat `forward`";
  "# entries for port mappings such as `8080:80` or `udp:5353:53`.";
  "#";
  "# Add `[[mount]]` tables for shared directories. Cloud-init paths are resolved";
  "# relative to this file. `vmm.config_overlay` is an advanced JSON merge patch.";
  "#";
  "# Cloud-init takes one user part: either `cloud_init.user_data` (a file) or";
  "# `cloud_init.user_data_inline` (up to 32 KiB inline). Both start with";
  "# `#cloud-config` or `#!`. `ssh_keys` lists public key files and";
  "# `ssh_authorized_keys` lists key lines; duplicates across both are dropped.";
  "#";
  "# `cloud_init.password` is the plaintext login password for `user`, applied";
  "# with cloud-init `chpasswd`. This file is written mode 0600 because of it.";
  "# Console and local login accept it; guest SSH password authentication stays";
  "# off until `cloud_init.ssh_pwauth = true`. Changing either re-provisions the";
  "# guest on the next start.";
  "#";
  "# The effective values for this machine follow.";
  ""].

Record LocalDispatcher {Json : Type} : Type := {
  paths : Paths;
  global : GlobalConfig (Json := Json);
  catalog : Entries;
  source_base : string;
  qemu_img : string }.
Arguments LocalDispatcher Json : clear implicits.
Record MachineRecord {Json : Type} : Type := {
  record_name : string; record_spec : MachineSpec.MachineSpec Json; record_state : MachineState }.
Arguments MachineRecord Json : clear implicits.
Record LiveMachineState : Set := { state : MachineState; supervision : option Supervision }.
(** [serde_json::to_value] of a payload. *)
Class PayloadJson (Json A : Type) := { to_value : A → result string Json }.

Section dispatcher.
Context {Sink Json : Type} `{Host} `{LiveHost} `{StateJson} `{Schedule} `{EventSink Json Sink} `{SpecText Json}.
Context (self : LocalDispatcher Json).
Local Abbreviation World := (World Sink).
Local Abbreviation Act := (M World FirestoneError).
Local Abbreviation Spec := (MachineSpec.MachineSpec Json).

Definition emit_result `{PayloadJson Json A} (action : string) (payload : A) : Act () :=
  payload ← M_lift (map_err (λ source, with_source (with_hint
    (error_new Generic ("cannot serialize `" +:+ action +:+ "` result")) "report this Firestone serialization bug") source) (to_value payload));
  emit_ (Json := Json) (Result action payload).
Fixpoint emit_spec_warnings (warnings : list SpecWarning) : Act () :=
  match warnings with
  | [] => mret ()
  | warning :: warnings =>
      emit_ (Json := Json) (Log Warn (warning_key warning +:+ ": " +:+ warning_message warning));;
      emit_spec_warnings warnings
  end.

(** *** Specifications *)

Definition spec_context (machine_dir : string) (pinned : option string) : ValidationContext :=
  let context := Validation.new (paths self) machine_dir (catalog self) in
  match pinned with Some reference => with_pinned_image_ref context reference | None => context end.
Definition load_spec_text_with_patch (text machine_dir patch_base_dir : string) (pinned : option string)
    (patch : MachineSpecPatch.MachineSpecPatch Json) : result FirestoneError (LoadedMachineSpec (Json := Json)) :=
  load_spec text (global self) patch patch_base_dir (spec_context machine_dir pinned).
Definition load_spec_text_with_pinned (text machine_dir patch_base_dir : string) (pinned : option string)
    : result FirestoneError (LoadedMachineSpec (Json := Json)) :=
  load_spec_text_with_patch text machine_dir patch_base_dir pinned MachineSpecPatch.default.
Definition validate_action_spec (pinned : option string) (spec : Spec) : result FirestoneError (list SpecWarning) * Spec :=
  validate_spec (spec_context (source_base self) pinned) spec.

(** *** What a machine does now *)

Definition try_exists (w : World) (p : string) : result IoError bool :=
  match fault (calls w) with
  | Some e => Err e
  | None => Ok (bool_decide (is_Some (tree w !! Tree.resolve p)))
  end.
Definition observe_machine (name : string) (state : MachineState) (runtime_dir api_socket : string) : Act LivenessObservation := λ w,
  (observe_liveness (read_proc (calls w)) (try_exists w) (H := {| ping := pings (calls w) |}) name state runtime_dir api_socket "/proc",
   counted w).
Definition with_status (status : MachineStatus) (s : MachineState) : MachineState :=
  {| State.status := status; State.image := State.image s; State.mac := State.mac s; State.cid := State.cid s;
     State.instance_id := State.instance_id s; State.shim_pid := State.shim_pid s; State.vmm_pid := State.vmm_pid s;
     State.sidecar_pids := State.sidecar_pids s; State.runtime_dir := State.runtime_dir s; State.started_at := State.started_at s;
     State.forwards := State.forwards s; State.degraded := State.degraded s; State.last_exit := State.last_exit s |}.
(** The part under the lock: the shim may have written its last state meanwhile. *)
Definition settle_locked (name reconciled_at state_path runtime_dir api_socket : string) (lock : MachineLock) : Act LiveMachineState :=
  state ← read_state state_path;
  observation ← observe_machine name state runtime_dir api_socket;
  let reconciliation := reconcile (State.status state) observation in
  match reconciled_state state reconciliation reconciled_at with
  | Some effective =>
      write_state state_path effective lock;;
      mret {| state := effective; supervision := State.supervision reconciliation |}
  | None => mret {| state := with_status (report_status reconciliation) state; supervision := State.supervision reconciliation |}
  end.
Definition read_reconciled_machine_state_with (name reconciled_at : string) (held_lock : option MachineLock) : Act LiveMachineState :=
  state_path ← M_lift (machine_state uni_debug (paths self) name);
  runtime_dir ← M_lift (machine_runtime_dir uni_debug (paths self) name);
  api_socket ← M_lift (machine_api_socket uni_debug (paths self) name);
  state ← read_state state_path;
  observation ← observe_machine name state runtime_dir api_socket;
  let reconciliation := reconcile (State.status state) observation in
  match State.rewrite reconciliation with
  | None => mret {| state := with_status (report_status reconciliation) state; supervision := State.supervision reconciliation |}
  | Some _ =>
      lock ← match held_lock with
        | Some lock => mret lock
        | None =>
            lock_path ← M_lift (machine_lock uni_debug (paths self) name);
            (** Its events go nowhere. *)
            M_map_err (lock_io_failure "open" lock_path) (open_create lock_path 384 false);;
            granted ← (λ w, let '(r, c) := acquire_with_timing (Json := Json) (Sink := list (Event Json)) (Ok ()) flock name lock_path PRODUCTION lock_fuel
                               {| time := time (timed w); tick := tick (timed w); sink := [] |} in
                         (r, {| tree := tree w; calls := calls w; past := past w;
                                timed := {| time := time c; tick := tick c; sink := sink (timed w) |} |}));
            match granted with Some lock => mret lock | None => M_fail (busy name) end
        end;
      settle_locked name reconciled_at state_path runtime_dir api_socket lock
  end.
Definition now_text : Act string := λ w, (Ok (timestamp (tick (timed w))), w).
Definition read_live_state (name : string) : Act LiveMachineState :=
  state_path ← M_lift (machine_state uni_debug (paths self) name);
  ensure_owned_regular_file state_path "machine state" Generic;;
  reconciled_at ← now_text;
  read_reconciled_machine_state_with name reconciled_at None.
Definition read_live_state_locked (name : string) (lock : MachineLock) : Act LiveMachineState :=
  state_path ← M_lift (machine_state uni_debug (paths self) name);
  ensure_owned_regular_file state_path "machine state" Generic;;
  reconciled_at ← now_text;
  read_reconciled_machine_state_with name reconciled_at (Some lock).

(** *** Publication *)

Definition validate_machine_storage : Act () :=
  validate_owned_data_directory (paths self) (data_dir (paths self)) "data directory" true;;
  validate_owned_data_directory (paths self) (machines_dir (paths self)) "machines directory" true.
Definition ensure_machine_exists (name machine_dir : string) : Act () :=
  metadata ← attempt (symlink_metadata machine_dir);
  match metadata with
  | Ok _ =>
      validate_owned_data_directory (paths self) machine_dir "machine directory" false;;
      marker ← attempt (symlink_metadata (path_join machine_dir ".creating"));
      match marker with
      | Ok _ => M_fail (with_hint (error_new Busy ("machine `" +:+ name +:+ "` is still being created")) "wait for create to finish and retry")
      | Err source =>
          if not_found source then mret ()
          else M_fail (filesystem_error Generic ("cannot inspect creation marker for machine `" +:+ name +:+ "`")
                 "check the machine directory permissions" source)
      end
  | Err source =>
      if not_found source
      then M_fail (with_hint (error_new NotFound ("no machine named `" +:+ name +:+ "`")) "run `firestone ls` to list machines")
      else M_fail (filesystem_error Generic ("cannot inspect machine directory " +:+ machine_dir) "check the machine directory permissions" source)
  end.

Definition created_state (name : string) (spec : Spec) : result FirestoneError MachineState :=
  architecture ← match MachineSpec.arch spec with
    | Some architecture => Ok architecture
    | None => map_err (λ message, with_hint (error_new Dependency message) "run Firestone on an x86_64 or aarch64 host")
                (Arch.current host_arch)
    end;
  image_reference ← (if contains_reference (catalog self) (MachineSpec.image spec)
    then resolved ← Catalog.resolve (catalog self) (MachineSpec.image spec) (Arch.as_str architecture); Ok (resolved_reference resolved)
    else Ok (MachineSpec.image spec));
  runtime_dir ← machine_runtime_dir uni_debug (paths self) name;
  Ok {| State.status := Created; State.image := {| State.ref := image_reference; State.id := None; State.sha256 := None |};
        State.mac := MacAddr.display <$> NetworkSpec.mac (MachineSpec.network spec); State.cid := 3; State.instance_id := None;
        State.shim_pid := None; State.vmm_pid := None; State.sidecar_pids := ∅; State.runtime_dir := runtime_dir;
        State.started_at := None; State.forwards := forward_display <$> NetworkSpec.forward (MachineSpec.network spec);
        State.degraded := []; State.last_exit := None |}.
Definition render_spec (spec : Spec) : result FirestoneError string :=
  effective ← spec_text spec; Ok (SPEC_TEMPLATE +:+ one LF +:+ effective).
Definition MACHINE_SPEC_FILE_MODE : Z := 384.
Definition initialize_machine (name : string) (spec : Spec) (lock : MachineLock) : Act (MachineRecord Json) :=
  state ← M_lift (created_state name spec);
  let spec := Validation.with_image spec (State.ref (State.image state)) in
  spec_document ← M_lift (render_spec spec);
  spec_path ← M_lift (machine_spec uni_debug (paths self) name);
  atomic_write_with_mode spec_path (bytes_of spec_document) MACHINE_SPEC_FILE_MODE;;
  state_path ← M_lift (machine_state uni_debug (paths self) name);
  write_state state_path state lock;;
  mret {| record_name := name; record_spec := spec; record_state := state |}.
Definition machine_publication_complete (name machine_dir : string) : Act bool :=
  spec_path ← M_lift (machine_spec uni_debug (paths self) name);
  state_path ← M_lift (machine_state uni_debug (paths self) name);
  spec_ready ← owned_file_ready spec_path;
  state_ready ← (if (spec_ready : bool) then owned_file_ready state_path else mret false);
  if negb (spec_ready && state_ready) then mret false
  else
    source ← read_file spec_path "machine spec" InvalidSpec;
    text ← M_lift (utf8_text source ("machine spec for `" +:+ name +:+ "`"));
    state ← read_state state_path;
    M_lift (load_spec_text_with_pinned text machine_dir machine_dir (pinned_image_reference state));;
    mret true.
Definition prepare_machine_creation (name machine_dir : string) : Act (MachineLock * string) :=
  ensure_owned_data_directory (paths self) machine_dir "machine directory" false;;
  let creating_marker := path_join machine_dir ".creating" in
  lock_path ← M_lift (machine_lock uni_debug (paths self) name);
  validate_creation_lock_file lock_path name true;;
  lock ← acquire_lock (Json := Json) name lock_path;
  validate_owned_data_directory (paths self) machine_dir "machine directory" false;;
  validate_creation_lock_file lock_path name false;;
  marker_exists ← creation_marker_exists creating_marker name;
  complete ← machine_publication_complete name machine_dir;
  if (complete : bool) then
    (if (marker_exists : bool)
     then M_map_err (filesystem_error Generic ("cannot finalize machine `" +:+ name +:+ "` after interrupted creation")
            "check the machine directory permissions") (remove_file creating_marker)
     else mret ());;
    M_fail (machine_already_exists_error name)
  else
    (if (marker_exists : bool) then clear_incomplete_machine machine_dir name
     else
       others ← machine_has_non_lock_entries machine_dir name;
       if (others : bool) then M_fail (machine_already_exists_error name) else mret ());;
    (if (marker_exists : bool) then mret ()
     else M_map_err (filesystem_error Generic ("cannot mark machine `" +:+ name +:+ "` as being created")
            "check the machine directory permissions") (Tree.write creating_marker (bytes_of ("creating" +:+ one LF))));;
    mret (lock, creating_marker).
Definition publish_machine (name creating_marker : string) : Act () :=
  M_map_err (filesystem_error Generic ("cannot publish machine `" +:+ name +:+ "`") "check the machine directory permissions")
    (remove_file creating_marker).

(** *** Editing a specification

    What one run of the editor comes to: its outcome, and what it leaves at the file's place. *)
Record Session : Set := { outcome : result FirestoneError (); leaves : option Node }.
Definition run_editor (candidate : string) (s : Session) : Act () := λ w,
  (outcome s, commit (set_node (Tree.resolve candidate) (leaves s) (tree w)) (counted w)).
Record SpecResult : Type := { result_spec : Spec; result_warnings : list SpecWarning }.
(** The loop of editing and checking; [None] when the user is still at it after these sessions. *)
Fixpoint edit_sessions (sessions : list Session) (name machine_dir candidate spec_path : string) (pinned : option string)
    : Act (option SpecResult) :=
  match sessions with
  | [] => mret None
  | session :: sessions =>
      run_editor candidate session;;
      candidate_bytes ← read_file candidate "edited machine spec" Generic;
      candidate_text ← M_lift (ok_or (from_utf8 candidate_bytes)
        (with_source (with_hint (error_new InvalidSpec ("edited machine spec " +:+ candidate +:+ " is not UTF-8"))
           "save the machine spec as UTF-8 TOML") (utf8_error candidate_bytes)));
      match load_spec_text_with_pinned candidate_text machine_dir machine_dir pinned with
      | Ok loaded =>
          atomic_write_with_mode spec_path candidate_bytes MACHINE_SPEC_FILE_MODE;;
          mret (Some {| result_spec := loaded_spec loaded; result_warnings := loaded_warnings loaded |})
      | Err error =>
          let hint := match Errors.hint error with Some hint => "; hint: " +:+ hint | None => "" end in
          emit_ (Json := Json) (Log Warn ("machine `" +:+ name +:+ "` was not saved: " +:+ message error +:+ hint +:+ "; reopening editor"));;
          edit_sessions sessions name machine_dir candidate spec_path pinned
      end
  end.
Definition edit_candidate (editor : result FirestoneError ()) := λ sessions name machine_dir candidate spec_path pinned,
  M_lift (S := World) editor;; edit_sessions sessions name machine_dir candidate spec_path pinned.
(** The part of [create] that lets the user edit the specification before it is published. *)
Definition edit_created (editor : result FirestoneError ()) (sessions : list Session) (name machine_dir : string)
    (lock : MachineLock) (record : MachineRecord Json) : Act (option (MachineRecord Json)) :=
  spec_path ← M_lift (machine_spec uni_debug (paths self) name);
  let candidate := path_join machine_dir "firestone.toml.edit" in
  original ← read_file spec_path "machine spec" Generic;
  atomic_write_with_mode candidate original MACHINE_SPEC_FILE_MODE;;
  edited ← caught (edit_candidate editor sessions name machine_dir candidate spec_path None);
  match edited with
  | Ok None => mret None
  | _ =>
      cleanup ← caught (remove_candidate candidate);
      match edited, cleanup with
      | Ok (Some edited), Ok _ =>
          emit_spec_warnings (result_warnings edited);;
          state ← M_lift (created_state name (result_spec edited));
          state_path ← M_lift (machine_state uni_debug (paths self) name);
          write_state state_path state lock;;
          mret (Some {| record_name := record_name record; record_spec := result_spec edited; record_state := state |})
      | Ok _, Err error | Err error, _ => M_fail error
      | Ok None, Ok _ => mret None
      end
  end.

(** *** Creating a machine: [edit] is given when the user edits the specification first *)

Context `{!PayloadJson Json (MachineRecord Json)}.
Definition create_internal (name : string) (spec : Spec) (edit : option (result FirestoneError () * list Session))
    : Act (option ()) :=
  machine_dir ← M_lift (machine_dir uni_debug (paths self) name);
  '(warnings, spec) ← M_lift (match validate_action_spec None spec with
    | (Ok warnings, spec) => Ok (warnings, spec) | (Err error, _) => Err error end);
  emit_spec_warnings warnings;;
  ensure_owned_data_directory (paths self) (data_dir (paths self)) "data directory" true;;
  ensure_owned_data_directory (paths self) (machines_dir (paths self)) "machines directory" false;;
  '(lock, creating_marker) ← prepare_machine_creation name machine_dir;
  record ← initialize_machine name spec lock;
  record ← match edit with
    | Some (editor, sessions) => edit_created editor sessions name machine_dir lock record
    | None => mret (Some record)
    end;
  match record with
  | None => mret None
  | Some record =>
      publish_machine name creating_marker;;
      emit_result "create" record;;
      mret (Some ())
  end.
Definition create (name : string) (spec : Spec) : Act (option ()) := create_internal name spec None.
Definition create_with_edit (editor : result FirestoneError ()) (sessions : list Session) (name : string) (spec : Spec) : Act (option ()) :=
  create_internal name spec (Some (editor, sessions)).
End dispatcher.

Section listing.
Context {Sink Json : Type} `{Host} `{LiveHost} `{StateJson} `{Schedule} `{EventSink Json Sink} `{SpecText Json}.
Context (self : LocalDispatcher Json).
Local Abbreviation World := (World Sink).
Local Abbreviation Act := (M World FirestoneError).

(** *** Listing *)

Definition machine_files_ready (name : string) : Act bool :=
  machine_dir ← M_lift (machine_dir uni_debug (paths self) name);
  validate_owned_data_directory (paths self) machine_dir "machine directory" false;;
  let marker := path_join machine_dir ".creating" in
  metadata ← attempt (symlink_metadata marker);
  match metadata with
  | Ok _ => mret false
  | Err source =>
      if not_found source then
        spec_path ← M_lift (machine_spec uni_debug (paths self) name);
        spec_ready ← owned_file_ready spec_path;
        if (spec_ready : bool)
        then state_path ← M_lift (machine_state uni_debug (paths self) name); owned_file_ready state_path
        else mret false
      else M_fail (filesystem_error Generic ("cannot inspect creation marker " +:+ marker) "check the machine directory permissions" source)
  end.
(** The loop over the entries of the machines directory. *)
Fixpoint names_among (entries : list string) (names : list string) : Act (list string) :=
  match entries with
  | [] => mret names
  | entry :: entries =>
      let path := path_join (machines_dir (paths self)) entry in
      file_type ← M_map_err (filesystem_error Generic ("cannot inspect machine path " +:+ path) "check the machine directory permissions")
        (symlink_metadata path);
      if negb (is_dir file_type) then names_among entries names
      else match from_utf8 (bytes_of entry) with
      | None => names_among entries names
      | Some name =>
          if negb (is_ok (machine_dir uni_debug (paths self) name)) then names_among entries names
          else
            ready ← machine_files_ready name;
            names_among entries (if (ready : bool) then names ++ [name] else names)
      end
  end.
Definition machine_names : Act (list string) :=
  validate_machine_storage self;;
  entries ← attempt (read_dir (machines_dir (paths self)));
  match entries with
  | Err source =>
      if not_found source then mret []
      else M_fail (filesystem_error Generic ("cannot read machines directory " +:+ machines_dir (paths self))
             "check the Firestone data directory permissions" source)
  | Ok entries =>
      names ← names_among entries [];
      mret (merge_sort str_le names)
  end.

(** *** Removing *)

(** [fuel] bounds the depth of the tree. *)
Fixpoint validate_removal_entry (fuel : nat) (path : string) : Act () :=
  match fuel with
  | O => M_fail (dependency ("cannot inspect removal entry " +:+ path) "")
  | S fuel =>
      metadata ← M_map_err (filesystem_error Dependency ("cannot inspect removal entry " +:+ path)
        "repair the owned machine directory before removing it") (symlink_metadata path);
      if negb (Tree.uid metadata =? Paths.uid (paths self))
      then M_fail (dependency ("refusing to remove " +:+ path +:+ " because uid " +:+ dec (Tree.uid metadata)
             +:+ " does not match Firestone uid " +:+ dec (Paths.uid (paths self)))
             "move the unsafe machine directory aside and inspect it manually")
      else if is_symlink metadata
      then M_fail (dependency ("refusing to remove symlink " +:+ path) "remove the symlink manually and retry")
      else if is_dir metadata then
        if negb (permissions metadata =? 448)
        then M_fail (dependency ("refusing to remove directory " +:+ path +:+ " with mode " +:+ mode_text (permissions metadata)
               +:+ "; expected 0700") "restore the owned directory mode to 0700 and retry")
        else
          entries ← M_map_err (filesystem_error Dependency ("cannot read removal directory " +:+ path)
            "repair the owned machine directory before removing it") (read_dir path);
          (fix each (names : list string) : Act () :=
             match names with
             | [] => mret ()
             | name :: names => validate_removal_entry fuel (path_join path name);; each names
             end) (merge_sort str_le entries)
      else if negb (Tree.is_file metadata)
      then M_fail (dependency ("refusing to remove special file " +:+ path) "remove the special file manually and retry")
      else mret ()
  end.
(** A tree is no deeper than it has nodes. *)
Definition validate_removal_tree (root label : string) : Act () :=
  validate_owned_data_directory (paths self) root label false;;
  w ← M_get;
  validate_removal_entry (S (size (tree w))) root.
Definition remove_one (name : string) : Act () :=
  machine_dir ← M_lift (machine_dir uni_debug (paths self) name);
  lock_path ← M_lift (machine_lock uni_debug (paths self) name);
  validate_owned_data_file (paths self) lock_path "machine lock" 384 false;;
  lock ← acquire_lock (Json := Json) name lock_path;
  ensure_machine_exists self name machine_dir;;
  live ← read_live_state_locked self name lock;
  if is_active (State.status (state live))
  then M_fail (with_hint (error_new Conflict ("machine " +:+ debug_str uni_debug name +:+ " became active during removal"))
         ("stop " +:+ name +:+ " and retry"))
  else
    validate_machine_data_directory (paths self) uni_debug name;;
    validate_removal_tree machine_dir "machine directory";;
    runtime ← attempt (symlink_metadata (runtime_dir (paths self)));
    (match runtime with
     | Ok _ => clear_machine_runtime_dir (paths self) uni_debug name true
     | Err source =>
         if not_found source then mret ()
         else M_fail (filesystem_error Dependency ("cannot inspect runtime directory " +:+ runtime_dir (paths self))
                "check the Firestone runtime directory permissions" source)
     end);;
    tombstone ← M_lift (machine_removal_dir uni_debug (paths self) name);
    stale ← attempt (symlink_metadata tombstone);
    (match stale with
     | Ok _ =>
         validate_removal_tree tombstone "machine removal directory";;
         M_map_err (filesystem_error Generic ("cannot clear stale removal " +:+ tombstone) "remove the stale owned directory and retry")
           (remove_dir_all tombstone);;
         sync_directory (machines_dir (paths self))
     | Err source =>
         if not_found source then mret ()
         else M_fail (filesystem_error Generic ("cannot inspect removal path " +:+ tombstone) "check the machines directory permissions" source)
     end);;
    M_map_err (filesystem_error Generic ("cannot unpublish machine " +:+ debug_str uni_debug name) "check the machines directory permissions")
      (rename machine_dir tombstone);;
    sync_directory (machines_dir (paths self));;
    M_map_err (filesystem_error Generic ("cannot finish removing machine " +:+ debug_str uni_debug name)
      "remove the owned removal directory and retry") (remove_dir_all tombstone);;
    sync_directory (machines_dir (paths self)).
End listing.
