(* ===== verification/StoreSpec.v ===== *)
(** What the machine store promises: a machine is listed only when all of it is there, whatever
    fails and wherever a run stops; making one machine touches no other; removing one is a single
    step. *)
From stdpp Require Import gmap sorting.
From S2P Require Import Prelude RustStr RustPath Errors Clock Bounded Values Ports Atomic Lock State BTree Utf8.
From S2P Require Import Spec SpecToml Catalog Validation Paths Tree DataDirs Store.
Open Scope Z_scope.

(** ** The store's helpers *)

Section helpers.
Context {Sink : Type} `{RealFaults} `{LiveHost}.
Local Abbreviation safe := (safe (Sink := Sink)).
Implicit Types t : Tree.

Definition regular_at t (k : Path) : bool := from_option Tree.is_file false (t !! k).
Lemma regular_at_Some t k : regular_at t k = true ↔ ∃ n data, t !! k = Some n ∧ node_kind n = Regular data.
Proof.
  unfold regular_at. split.
  - destruct (t !! k) as [n|]; [|done]. cbn. unfold Tree.is_file. destruct (node_kind n) eqn:E; try done. eauto.
  - intros (n & data & -> & E). cbn. unfold Tree.is_file. by rewrite E.
Qed.

Lemma creation_marker_exists_safe I path name t :
  safe I (creation_marker_exists path name) t (λ r t', t' = t ∧ match r with
    | Ok true => regular_at t (Tree.resolve path) = true
    | Ok false => t !! Tree.resolve path = None
    | Err _ => True
    end).
Proof using All.
  apply safe_bind, safe_attempt, safe_metadata.
  - intros n Hn. unfold regular_at. rewrite Hn. cbn. destruct (Tree.is_file n) eqn:E; [by apply safe_ret|by apply safe_fail].
  - intros e He. destruct (not_found e) eqn:E; [|by apply safe_fail]. unfold not_found in E. bool_props. apply safe_ret. auto.
Qed.
Lemma validate_creation_lock_file_safe I path name missing t :
  safe I (validate_creation_lock_file path name missing) t (λ _ t', t' = t).
Proof using All.
  apply safe_bind, safe_attempt, safe_metadata; intros.
  - destruct (Tree.is_file n); [by apply safe_ret|by apply safe_fail].
  - destruct (_ && _); [by apply safe_ret|by apply safe_fail].
Qed.
Lemma owned_file_ready_safe I path t :
  safe I (owned_file_ready path) t (λ r t', t' = t ∧ ∀ b, r = Ok b → b = regular_at t (Tree.resolve path)).
Proof using All.
  apply safe_bind, safe_attempt, safe_metadata.
  - intros n Hn. apply safe_ret. split; [done|]. intros b [= <-]. unfold regular_at. by rewrite Hn.
  - intros e He. destruct (not_found e) eqn:E; [|by apply safe_fail]. unfold not_found in E. bool_props. apply safe_ret.
    split; [done|]. intros b [= <-]. unfold regular_at. by rewrite He.
Qed.
Lemma read_file_safe I path label k t :
  safe I (read_file path label k) t (λ r t', t' = t ∧ ∀ bytes, r = Ok bytes →
    ∃ n, t !! Tree.resolve path = Some n ∧ node_kind n = Regular bytes).
Proof using All.
  apply safe_bind. apply safe_bind, safe_map_err, safe_metadata; [|done]. intros n Hn. cbn [map_err].
  destruct (Tree.is_file n); [|by apply safe_fail]. apply safe_ret. apply safe_map_err, safe_read; [|done].
  intros n' data Hn' Hd. split; [done|]. intros bytes [= <-]. eauto.
Qed.
Lemma remove_candidate_safe (I : Tree → Prop) path t (Q : result FirestoneError () → Tree → Prop) :
  (∀ n, t !! Tree.resolve path = Some n → is_dir n = false → I (delete (Tree.resolve path) t) ∧ Q (Ok ()) (delete (Tree.resolve path) t)) →
  (t !! Tree.resolve path = None → Q (Ok ()) t) → (∀ e, Q (Err e) t) → safe I (remove_candidate path) t Q.
Proof using All.
  intros Hok Hno He. apply safe_bind, safe_attempt, safe_remove_file.
  - intros n Hn Hd. destruct (Hok n Hn Hd). split; [done|]. by apply safe_ret.
  - intros e Hnf. destruct (not_found e) eqn:E; [|by apply safe_fail, He]. unfold not_found in E. bool_props. apply safe_ret, Hno. auto.
Qed.
Lemma sync_directory_safe I path t (Q : result FirestoneError () → Tree → Prop) : (∀ r, Q r t) → safe I (sync_directory path) t Q.
Proof using All. intros HQ. apply safe_map_err, safe_sync_all. intros []; apply HQ. Qed.

Context `{StateJson}.
Lemma read_state_safe I path t :
  safe I (read_state path) t (λ r t', t' = t ∧ ∀ s, r = Ok s →
    ∃ n data, t !! Tree.resolve path = Some n ∧ node_kind n = Regular data ∧ from_slice data = Ok s ∧ state_wf s).
Proof using All.
  intros w <- HI. unfold read_state. cbn. split; [done|]. split; [done|]. intros s Hs.
  unfold State.read in Hs. inv_ok. repeat match goal with u : () |- _ => destruct u end.
  apply read_to_end_Ok in Hs3 as (-> & _); [|done]. apply negb_false_iff in Hs1 as ->.
  unfold open_node in Hs0. cbn [store_path] in Hs0. destruct (fault (calls w)); [done|].
  destruct (tree w !! Tree.resolve path) as [n|] eqn:Hn; [|done].
  destruct (node_kind n) as [data| | |] eqn:Hk; try done; injection Hs0 as <-; [|done..].
  exists n, data. split_and!; [done..|]. by apply validate_Ok.
Qed.

(** An atomic write of the file [x] of a directory. *)
Lemma safe_write_in (I : Tree → Prop) d x (m : option Z) bytes t
    (act : Faults → option (nat * IoError) → M Atomic.World FirestoneError ()) (Q : result FirestoneError () → Tree → Prop) :
  is_absolute d = true → plain x →
  (∀ faults short w, act faults short w = write_with_options faults (path_join d x) bytes m false (Atomic.write_all short) w) →
  let k := Tree.resolve d ++ [x] in let q := Tree.resolve d ++ [x +:+ ".tmp"] in
  let t' := <[k := written_node bytes m]> (delete q t) in
  (∀ u, I (set_node q u t) ∧ ∀ e, Q (Err e) (set_node q u t)) → I t' → (∀ r, Q r t') →
  safe I (atomically (path_join d x) act) t Q.
Proof using Type.
  intros Hd Hx Hact k q t' Hu HI HQ. destruct (temp_path_join d x Hd Hx) as (p & Hp & Hr).
  assert (Hne : k ≠ q).
  { unfold k, q. intros E. apply app_inj_tail in E as [_ E]. apply (f_equal String.length) in E. rewrite length_app_str in E. cbn in E. lia. }
  assert (Hk : Tree.resolve (path_join d x) = k) by by apply resolve_join.
  apply (safe_atomically _ p _ m bytes); rewrite ?Hk, ?Hr; try done.
  - intros u. apply Hu.
  - intros e u. apply Hu.
Qed.
Lemma write_state_safe (I : Tree → Prop) d x state lock t (Q : result FirestoneError () → Tree → Prop) :
  is_absolute d = true → plain x →
  let k := Tree.resolve d ++ [x] in let q := Tree.resolve d ++ [x +:+ ".tmp"] in
  (∀ u, I (set_node q u t) ∧ ∀ e, Q (Err e) (set_node q u t)) → (∀ e, Q (Err e) t) →
  (∀ bytes, to_vec_pretty state = Ok bytes → state_wf state →
    let t' := <[k := written_node (bytes ++ [10]) None]> (delete q t) in I t' ∧ ∀ r, Q r t') →
  safe I (write_state (path_join d x) state lock) t Q.
Proof using Type.
  intros Hd Hx k q Hu He Hok. unfold write_state.
  destruct (temp_path_join d x Hd Hx) as (p & Hp & Hr).
  assert (Hfail : ∀ e, (∀ faults short w, write_from_locked_action to_vec_pretty faults short {| store_path := path_join d x |} state lock w = (Err e, w)) →
    safe I (atomically (Sink := Sink) (path_join d x) (λ faults short, write_from_locked_action to_vec_pretty faults short {| store_path := path_join d x |} state lock)) t Q).
  { intros e Hfail w <- HI. unfold atomically. rewrite Hp, Hfail. cbn. rewrite app_nil_r. split; [done|].
    rewrite back_unpublished; [|done| |done].
    - rewrite Hr. apply Hu.
    - rewrite (resolve_join d x Hd Hx), Hr. intros E. apply app_inj_tail in E as [_ E]. apply (f_equal String.length) in E.
      rewrite length_app_str in E. cbn in E. lia. }
  destruct (negb (path_eqb (Lock.path lock) (path_join (match parent (path_join d x) with Some p => p | None => "." end) "lock"))) eqn:Hl.
  { eapply Hfail. intros faults short w. unfold write_from_locked_action. cbn [store_path]. by rewrite Hl. }
  destruct (State.validate state) as [[]|e] eqn:Hv.
  2: { apply (Hfail e). intros faults short w. unfold write_from_locked_action. cbn [store_path]. rewrite Hl, Hv. done. }
  destruct (serialize_json to_vec_pretty (path_join d x) state) as [bytes|e] eqn:Hs.
  2: { apply (Hfail e). intros faults short w. unfold write_from_locked_action, write_json. cbn [store_path]. rewrite Hl, Hv, Hs. done. }
  pose proof Hs as Hb. unfold serialize_json in Hb. inv_ok. destruct (Hok _ Hb0) as [HI HQ]; [by apply validate_Ok|].
  apply (safe_write_in _ _ _ None (r ++ [10])); [done..| |done|done|done].
  intros faults short w. unfold write_from_locked_action, write_json. cbn [store_path]. rewrite Hl, Hv, Hs. done.
Qed.

Definition lock_node : Node := {| node_kind := Regular []; Tree.uid := euid; Tree.mode := Z.ldiff 384 umask |}.
Lemma acquire_lock_safe {Json} `{Schedule} `{EventSink Json Sink} (I : Tree → Prop) name path t (Q : result FirestoneError MachineLock → Tree → Prop) :
  I t → (∀ r, Q r t) →
  (t !! Tree.resolve path = None → directory_at t (removelast (Tree.resolve path)) = true →
   I (<[Tree.resolve path := lock_node]> t) ∧ ∀ r, Q r (<[Tree.resolve path := lock_node]> t)) →
  safe I (acquire_lock (Json := Json) name path) t Q.
Proof using H0.
  intros HI HQ Hnew.
  assert (Hgo : ∀ t', (∀ r, Q r t') → safe I (granted ← on_clock (acquire_with_timing (Ok ()) flock name path PRODUCTION lock_fuel);
    match granted with Some lock => mret lock | None => M_fail (busy name) end) t' Q).
  { intros t' HQ'. apply safe_bind, safe_on_clock. intros [[l|]|e]; [apply safe_ret, HQ'|apply safe_fail, HQ'|apply HQ']. }
  apply safe_bind, safe_map_err, safe_open_create.
  - intros Hn Hd. destruct (Hnew Hn Hd). split; [done|]. by apply Hgo.
  - intros n data _ _. split; [done|]. by apply Hgo.
  - intros e. apply HQ.
Qed.

(** Clearing an incomplete machine spares its marker and its lock. *)
Definition spared (m : Path) t t' : Prop :=
  pruned m t t' ∧ t' !! m = t !! m ∧ ∀ x r, x = "lock" ∨ x = ".creating" → t' !! (m ++ x :: r) = t !! (m ++ x :: r).
Lemma spared_refl m t : spared m t t.
Proof using Type. split; [apply pruned_refl|done]. Qed.
Lemma spared_prune m x t t1 t' :
  x ≠ "lock" → x ≠ ".creating" → spared m t t1 → pruned (m ++ [x]) t1 t' → spared m t t'.
Proof using Type.
  intros Hl Hc (Hp & Hm & Hs) Hx. split_and!.
  - intros k. destruct (Hx k) as [->|[-> [r ->]]]; [apply Hp|]. right. split; [done|]. rewrite <- app_assoc. by eexists.
  - destruct (Hx m) as [->|[_ [r E]]]; [done|]. apply (f_equal length) in E. rewrite !length_app in E. cbn in E. lia.
  - intros y r Hy. destruct (Hx (m ++ y :: r)) as [->|[_ [s E]]]; [by apply Hs|]. rewrite <- app_assoc in E. apply app_inv_head in E.
    injection E as -> _. by destruct Hy.
Qed.
Lemma pruned_file k t : pruned k t (delete k t).
Proof using Type. rewrite <- (app_nil_r k) at 2. apply pruned_delete, pruned_refl. Qed.
Lemma clear_stale_safe (I : Tree → Prop) d names t0 t :
  is_absolute d = true → Forall plain names → (∀ t', spared (Tree.resolve d) t0 t' → I t') → spared (Tree.resolve d) t0 t →
  safe I (clear_stale d names) t (λ _ t', spared (Tree.resolve d) t0 t').
Proof using H0.
  intros Hd Hn HI. revert t. induction Hn as [|x names Hx Hn IH]; intros t Ht; cbn [clear_stale]; [by apply safe_ret|].
  destruct (String.eqb_spec x "lock") as [|Hl]; [by apply IH|]. destruct (String.eqb_spec x ".creating") as [|Hc]; [by apply IH|]. cbn [orb].
  assert (Hr : Tree.resolve (path_join d x) = Tree.resolve d ++ [x]) by by apply resolve_join.
  assert (Hsp : ∀ t', pruned (Tree.resolve d ++ [x]) t t' → spared (Tree.resolve d) t0 t') by (intros; by eapply spared_prune).
  apply safe_bind, safe_map_err, safe_metadata; [|done]. intros n _. cbn [map_err].
  apply safe_bind, safe_map_err. destruct (is_dir n).
  - apply safe_remove_dir_all; rewrite Hr; [by eauto| |by eauto]. intros t' Ht' _. apply IH. by apply Hsp.
  - apply safe_remove_file; rewrite Hr; [|done]. intros n' _ _. pose proof (Hsp _ (pruned_file (Tree.resolve d ++ [x]) t)).
    split; [by apply HI|]. by apply IH.
Qed.
End helpers.

(** ** Making a machine *)

Section machine.
Context {Sink Json : Type} `{RealFaults} `{LiveHost} `{StateJson} `{Schedule} `{EventSink Json Sink} `{SpecText Json}.
Context (self : LocalDispatcher Json) (name : string).
Local Abbreviation safe := (safe (Sink := Sink)).
Implicit Types t : Tree.
Context (Hdata : is_absolute (data_dir (paths self)) = true) (Hname : single_component name = true).

Definition dir_text : string := path_join (machines_dir (paths self)) name.
Definition machine : Path := Tree.resolve (machines_dir (paths self)) ++ [name].
Definition spec_at : Path := machine ++ ["firestone.toml"].
Definition state_at : Path := machine ++ ["state.json"].
Definition marker_at : Path := machine ++ [".creating"].
Definition lock_at : Path := machine ++ ["lock"].

Lemma machines_dir_absolute : is_absolute (machines_dir (paths self)) = true.
Proof using Hdata. by apply path_join_absolute. Qed.
Lemma single_plain x : single_component x = true → plain x.
Proof using Type. intros Hx. split; [by apply has_control_no_slash|by apply single_component_name]. Qed.
Lemma dir_text_absolute : is_absolute dir_text = true.
Proof using Hdata. apply path_join_absolute, machines_dir_absolute. Qed.
Lemma resolve_dir_text : Tree.resolve dir_text = machine.
Proof using Hdata Hname. apply resolve_join; [apply machines_dir_absolute|by apply single_plain]. Qed.
Lemma resolve_in x : plain x → Tree.resolve (path_join dir_text x) = machine ++ [x].
Proof using Hdata Hname. intros Hx. rewrite resolve_join by (done || apply dir_text_absolute). by rewrite resolve_dir_text. Qed.
Lemma machine_dir_Ok : machine_dir uni_debug (paths self) name = Ok dir_text.
Proof using Hname. unfold machine_dir. by apply checked_join_Ok. Qed.
Lemma in_machine_Ok x : in_machine uni_debug x (paths self) name = Ok (path_join dir_text x).
Proof using Hname. unfold in_machine. by rewrite machine_dir_Ok. Qed.

(** A machine is listed when its specification and its state are there and the marker is not. *)
Definition listed t : Prop := t !! marker_at = None ∧ regular_at t spec_at = true ∧ regular_at t state_at = true.
(** Its specification and state are there and mean something. *)
Definition whole t : Prop :=
  ∃ ns nst bytes data text s loaded,
    t !! spec_at = Some ns ∧ node_kind ns = Regular bytes ∧ from_utf8 bytes = Some text ∧
    t !! state_at = Some nst ∧ node_kind nst = Regular data ∧ from_slice data = Ok s ∧ state_wf s ∧
    load_spec_text_with_pinned self text dir_text dir_text (pinned_image_reference s) = Ok loaded.

Lemma machine_publication_complete_safe I t :
  safe I (machine_publication_complete self name dir_text) t (λ r t', t' = t ∧ match r with
    | Ok true => whole t
    | Ok false => regular_at t spec_at && regular_at t state_at = false
    | Err _ => True
    end).
Proof using H0 Hdata Hname.
  pose proof (resolve_in "firestone.toml" ltac:(by split_and!)) as Hspec.
  pose proof (resolve_in "state.json" ltac:(by split_and!)) as Hstate.
  unfold machine_publication_complete. apply safe_bind, safe_lift. unfold machine_spec. rewrite in_machine_Ok.
  apply safe_bind, safe_lift. unfold machine_state. rewrite in_machine_Ok.
  apply safe_bind. eapply safe_mono; [apply owned_file_ready_safe|]. intros [a|e] t' [-> Ha]; [|done].
  specialize (Ha a eq_refl). rewrite Hspec in Ha. fold spec_at in Ha.
  apply safe_bind. eapply (safe_mono _ _ (λ r t', t' = t ∧ ∀ b, r = Ok b → a && b = a && regular_at t state_at)).
  { destruct a; [|by apply safe_ret]. eapply safe_mono; [apply owned_file_ready_safe|]. intros r t' [-> Hb]. split; [done|].
    intros b ->. rewrite (Hb b eq_refl), Hstate. done. }
  intros [b|e] t' [-> Hb]; [|done]. rewrite (Hb b eq_refl), Ha. destruct (regular_at t spec_at && regular_at t state_at) eqn:Hboth;
    [|by apply safe_ret]. cbn [negb].
  apply safe_bind. eapply safe_mono; [apply read_file_safe|]. intros [bytes|e] t' [-> Hread]; [|done].
  destruct (Hread _ eq_refl) as (ns & Hns & Hbytes). rewrite Hspec in Hns.
  apply safe_bind, safe_lift. unfold utf8_text. destruct (from_utf8 bytes) as [text|] eqn:Htext; [|done]. cbn [ok_or].
  apply safe_bind. eapply safe_mono; [apply read_state_safe|]. intros [s|e] t' [-> Hrs]; [|done].
  destruct (Hrs _ eq_refl) as (nst & data & Hnst & Hdat & Hfrom & Hwf). rewrite Hstate in Hnst.
  apply safe_bind, safe_lift. destruct (load_spec_text_with_pinned _ _ _ _ _) as [loaded|] eqn:Hload; [|done].
  apply safe_ret. split; [done|]. by exists ns, nst, bytes, data, text, s, loaded.
Qed.

Context (t0 : Tree) (Hnames : names_ok t0).

(** Besides the machine's directory, only missing directories on the way to it are made. *)
Definition outside t : Prop :=
  ∀ k, strip machine k = None →
    t !! k = t0 !! k ∨ (t0 !! k = None ∧ (∃ r, machine = k ++ r) ∧ ∃ n, t !! k = Some n ∧ fresh_directory n).
(** Nothing but the directory and the lock was made. *)
Definition before t : Prop :=
  outside t ∧ (∀ x r, x :: r ≠ ["lock"] → t !! (machine ++ x :: r) = t0 !! (machine ++ x :: r)) ∧
  (is_Some (t0 !! machine) → t !! machine = t0 !! machine) ∧ (is_Some (t0 !! lock_at) → t !! lock_at = t0 !! lock_at).
Definition marked t : Prop := outside t ∧ is_Some (t !! marker_at).

Lemma before_start : before t0.
Proof using Type. split_and!; try done. by left. Qed.
Lemma machine_app_ne r k : strip machine k = None → machine ++ r ≠ k.
Proof using Type. intros Hk <-. by rewrite strip_app in Hk. Qed.
Lemma before_grown l t t' : (∃ r, machine = l ++ r) → before t → grown l t t' → before t'.
Proof using Type.
  intros [r0 Hl] (Ho & Hu & Hm & Hlk) Hg.
  assert (Hin : ∀ x r, t' !! (machine ++ x :: r) = t !! (machine ++ x :: r)).
  { intros x r. destruct (Hg (machine ++ x :: r)) as [->|(_ & [s E] & _)]; [done|]. exfalso. rewrite Hl in E.
    apply (f_equal length) in E. rewrite !length_app in E. cbn in E. lia. }
  split_and!.
  - intros k Hk. destruct (Hg k) as [->|(Hn & [s Hs] & n & Hn' & Hf)]; [by apply Ho|]. destruct (Ho k Hk) as [E|(_ & _ & n' & E & _)]; [|congruence].
    right. rewrite <- E. split; [done|]. split; [exists (s ++ r0); by rewrite app_assoc, <- Hs|]. by exists n.
  - intros x r Hx. rewrite Hin. by apply Hu.
  - intros [n Hn]. specialize (Hm (ex_intro _ n Hn)). rewrite Hn in Hm. rewrite (grown_keeps _ _ _ _ _ Hg Hm). by rewrite Hn.
  - intros Hs. unfold lock_at. rewrite Hin. by apply Hlk.
Qed.
Lemma lock_at_in k : strip machine k = None → lock_at ≠ k.
Proof using Type. by apply machine_app_ne. Qed.
Lemma before_lock t : before t → t !! lock_at = None → before (<[lock_at := lock_node]> t).
Proof using Type.
  intros (Ho & Hu & Hm & Hlk) Hn. split_and!.
  - intros k Hk. rewrite lookup_insert_ne by by apply lock_at_in. by apply Ho.
  - intros x r Hx. rewrite lookup_insert_ne; [by apply Hu|]. intros E. apply app_inv_head in E. by injection E as <- <-.
  - intros Hs. rewrite lookup_insert_ne; [by apply Hm|]. intros E. apply (f_equal length) in E. unfold lock_at in E. rewrite length_app in E. cbn in E. lia.
  - intros Hs. rewrite (Hlk Hs) in Hn. by rewrite Hn in Hs; destruct Hs.
Qed.
Lemma resolve_plain p : is_absolute p = true → Forall plain (Tree.resolve p).
Proof using Type.
  intros Ha. rewrite resolve_parts by done. pose proof (step_components p) as Hs. revert Hs.
  assert (Forall plain (@nil string)) as Hk by constructor. revert Hk. generalize (@nil string) as k. generalize (path_parts p) as l.
  intros l. induction l as [|c l IH]; intros k Hk Hl; cbn [foldl]; [done|]. apply Forall_cons in Hl as [Hc Hl]. apply IH; [|done].
  destruct Hc as [->|(x & -> & Hx)]; cbn [go].
  - destruct (decide (k = [])) as [->|Hne]; [done|]. rewrite (app_removelast_last "" Hne) in Hk. by apply Forall_app in Hk as [? _].
  - apply Forall_app. split; [done|]. by constructor.
Qed.
Lemma before_names t : before t → names_ok t.
Proof using Hnames Hdata Hname.
  intros (Ho & Hu & _) k n Hk.
  assert (Forall plain machine) as Hm.
  { apply Forall_app. split; [apply resolve_plain, machines_dir_absolute|]. constructor; [by apply single_plain|done]. }
  destruct (strip machine k) as [[|x r]|] eqn:Hs.
  - apply strip_Some in Hs as ->. by rewrite app_nil_r.
  - apply strip_Some in Hs as ->. destruct (decide (x :: r = ["lock"])) as [E|E].
    + rewrite E. apply Forall_app. split; [done|]. constructor; [by split_and!|done].
    + rewrite Hu in Hk by done. by eapply Hnames.
  - destruct (Ho k Hs) as [E|(_ & [r E] & _)]; [rewrite E in Hk; by eapply Hnames|]. rewrite E in Hm. by apply Forall_app in Hm as [? _].
Qed.
Lemma before_listed t : before t → listed t → listed t0.
Proof using Type.
  intros (_ & Hu & _) (Hm & Hs & Hst). unfold listed, regular_at, marker_at, spec_at, state_at in *.
  rewrite !Hu in * by done. done.
Qed.
Lemma before_whole t : before t → whole t → whole t0.
Proof using Type.
  intros (_ & Hu & _) (ns & nst & Hw). unfold whole, spec_at, state_at in *. rewrite !Hu in Hw by done. by exists ns, nst.
Qed.

(** *** What a run of [create] passes through *)

(** An interrupted creation that had got as far as its state file is finished by the next one. *)
Definition recovered t : Prop := ∃ tb, before tb ∧ t = delete marker_at tb ∧ is_Some (t0 !! marker_at) ∧ whole t0.
(** The specification and the state are those of the record. *)
Definition written (record : MachineRecord Json) t : Prop :=
  ∃ text bytes data,
    t !! spec_at = Some (written_node bytes (Some MACHINE_SPEC_FILE_MODE)) ∧
    t !! state_at = Some (written_node (data ++ [10]) None) ∧
    to_vec_pretty (record_state record) = Ok data ∧ state_wf (record_state record) ∧
    (∃ spec, created_state self name spec = Ok (record_state record)) ∧
    (render_spec (record_spec record) = Ok text ∧ bytes = bytes_of text
     ∨ from_utf8 bytes = Some text ∧
       ∃ loaded, load_spec_text_with_pinned self text dir_text dir_text None = Ok loaded ∧ loaded_spec loaded = record_spec record).
Definition published record t : Prop := outside t ∧ written record t ∧ t !! marker_at = None.
Definition stage t : Prop :=
  before t ∨ ¬ listed t0 ∧ (marked t ∨ recovered t ∨ ∃ record, published record t).

Lemma stage_grown l t t' : (∃ r, machine = l ++ r) → before t → grown l t t' → stage t'.
Proof using Type. left. by eapply before_grown. Qed.
Lemma outside_spared t t' : outside t → spared machine t t' → outside t'.
Proof using Type.
  intros Ho (Hp & _) k Hk. destruct (Hp k) as [->|[_ [r E]]]; [by apply Ho|]. subst k. by rewrite strip_app in Hk.
Qed.
Lemma outside_insert t r n : outside t → outside (<[machine ++ r := n]> t).
Proof using Type. intros Ho k Hk. rewrite lookup_insert_ne by by apply machine_app_ne. by apply Ho. Qed.
Lemma outside_set t r u : outside t → outside (set_node (machine ++ r) u t).
Proof using Type. intros Ho k Hk. unfold set_node. rewrite lookup_partial_alter_ne by by apply machine_app_ne. by apply Ho. Qed.
Lemma outside_delete t r : outside t → outside (delete (machine ++ r) t).
Proof using Type. intros Ho k Hk. rewrite lookup_delete_ne by by apply machine_app_ne. by apply Ho. Qed.

Lemma prepare_safe t :
  before t →
  safe stage (prepare_machine_creation (Json := Json) self name dir_text) t (λ r t', match r with
    | Ok (_, creating_marker) => creating_marker = path_join dir_text ".creating" ∧ marked t' ∧ ¬ listed t0
    | Err _ => stage t'
    end).
Proof using All.
  intros Hb. pose proof (resolve_in ".creating" ltac:(by split_and!)) as Hmk. pose proof (resolve_in "lock" ltac:(by split_and!)) as Hlk.
  assert (Hst : ∀ t, before t → stage t) by (by left).
  unfold prepare_machine_creation. apply safe_bind. eapply safe_mono.
  { apply (ensure_owned_data_directory_safe (Sink := Sink)). intros t' Hg. rewrite resolve_dir_text in Hg.
    eapply stage_grown; [exists []; by rewrite app_nil_r|done|done]. }
  rewrite resolve_dir_text. intros r t1 [Hg _]. assert (before t1) as Hb1 by (eapply before_grown; [exists []; by rewrite app_nil_r|done|done]).
  destruct r as [_|e]; [|by apply Hst]. clear t Hb Hg. rename t1 into t, Hb1 into Hb.
  apply safe_bind, safe_lift. unfold machine_lock. rewrite in_machine_Ok.
  apply safe_bind. eapply safe_mono; [apply validate_creation_lock_file_safe|]. intros [[]|e] t' ->; [|by apply Hst].
  apply safe_bind. eapply (safe_mono _ _ (λ _ t', before t')).
  { apply acquire_lock_safe; [by apply Hst|done|]. rewrite Hlk. intros Hn _. pose proof (before_lock _ Hb Hn). split; [by apply Hst|done]. }
  intros [lock|e] t1 Hb1; [|by apply Hst]. clear t Hb. rename t1 into t, Hb1 into Hb.
  apply safe_bind. eapply safe_mono; [apply validate_owned_data_directory_safe|]. intros [[]|e] t' [-> _]; [|by apply Hst].
  apply safe_bind. eapply safe_mono; [apply validate_creation_lock_file_safe|]. intros [[]|e] t' ->; [|by apply Hst].
  apply safe_bind. eapply safe_mono; [apply creation_marker_exists_safe|]. rewrite Hmk. fold marker_at.
  intros [marker|e] t' [-> Hmarker]; [|by apply Hst].
  apply safe_bind. eapply safe_mono; [apply machine_publication_complete_safe|]. intros [complete|e] t' [-> Hc]; [|by apply Hst].
  assert (Hm0 : t0 !! marker_at = t !! marker_at) by (destruct Hb as (_ & Hu & _); symmetry; by apply Hu).
  assert (Hl0 : complete = false → ¬ listed t0).
  { intros -> (_ & Hs & Ht). destruct Hb as (_ & Hu & _). unfold regular_at, spec_at, state_at in *. rewrite <- !Hu in * by done.
    rewrite Hs, Ht in Hc. done. }
  destruct complete.
  - apply safe_bind. destruct marker.
    + apply safe_map_err, safe_remove_file; rewrite Hmk; fold marker_at; [|intros; by apply Hst].
      intros n Hn _. assert (recovered (delete marker_at t)) as Hr.
      { exists t. split_and!; [done..|by rewrite Hm0|by eapply before_whole]. }
      assert (¬ listed t0) as Hnl by (intros [E _]; congruence).
      assert (stage (delete marker_at t)) as Hs by (right; split; [done|]; right; by left). split; [done|]. by apply safe_fail.
    + apply safe_ret, safe_fail. by apply Hst.
  - specialize (Hl0 eq_refl). destruct marker; apply safe_bind.
    + assert (Hmt : marked t) by (split; [apply Hb|]; unfold regular_at in Hmarker; by destruct (t !! marker_at)).
      assert (Hspared : ∀ t', spared machine t t' → marked t').
      { intros t' Hs. split; [by eapply outside_spared; [apply Hb|]|]. destruct Hs as (_ & _ & Hs). unfold marker_at in *.
        rewrite Hs by by right. apply Hmt. }
      assert (Hms : ∀ t', marked t' → stage t') by (intros; right; split; [done|]; by left).
      eapply (safe_mono _ _ (λ r t', marked t')).
      { unfold clear_incomplete_machine. apply safe_bind, safe_map_err, safe_read_dir; rewrite resolve_dir_text; [|done].
        intros n names _ _ Hperm. cbn [map_err]. rewrite <- resolve_dir_text in Hspared.
        eapply safe_mono; [apply (clear_stale_safe stage dir_text names t t); [apply dir_text_absolute| |by eauto|apply spared_refl]|by eauto].
        rewrite Hperm, Forall_forall. intros x [m Hx]%elem_of_entries. apply (before_names _ Hb) in Hx. apply Forall_app in Hx as [_ Hx].
        by inversion_clear Hx. }
      intros [[]|e] t' Hm'; [|by apply Hms]. apply safe_bind, safe_ret, safe_ret. done.
    + eapply (safe_mono _ _ (λ r t', t' = t)).
      { apply safe_bind. apply safe_bind, safe_map_err, safe_read_dir; [|done]. intros n names _ _ _. cbn [map_err].
        apply safe_ret. destruct (existsb _ _); [by apply safe_fail|by apply safe_ret]. }
      intros [[]|e] t' ->; [|by apply Hst].
      assert (Hms : ∀ data, marked (<[marker_at := {| node_kind := Regular data; Tree.uid := euid; Tree.mode := file_mode |}]> t)).
      { intros data. split; [apply outside_insert, Hb|]. by rewrite lookup_insert_eq. }
      assert (Hss : ∀ t', marked t' → stage t') by (intros; right; split; [done|]; by left).
      apply safe_bind, safe_map_err, safe_write; rewrite ?Hmk; fold marker_at;
        [done|intros; by apply Hss, Hms| |intros; by apply Hst|intros; by apply Hss, Hms].
      cbn [map_err]. by apply safe_ret.
Qed.

Lemma marked_stage t : ¬ listed t0 → marked t → stage t.
Proof using Type. intros Hl Hm. right. split; [done|]. by left. Qed.
Lemma marked_set t x r u : x ≠ ".creating" → marked t → marked (set_node (machine ++ x :: r) u t).
Proof using Type.
  intros Hx [Ho Hm]. split; [by apply outside_set|]. unfold set_node. rewrite lookup_partial_alter_ne; [done|].
  intros E. apply app_inv_head in E. by injection E.
Qed.
Lemma marked_insert t x r n : x ≠ ".creating" → marked t → marked (<[machine ++ x :: r := n]> t).
Proof using Type. intros Hx Hm. by apply (marked_set t x r (Some n)). Qed.
Lemma marked_delete t x r : x ≠ ".creating" → marked t → marked (delete (machine ++ x :: r) t).
Proof using Type. intros Hx Hm. by apply (marked_set t x r None). Qed.

(** An atomic write in the machine's directory while the marker is there. *)
Lemma marked_write x bytes m t :
  plain x → x ≠ ".creating" → x +:+ ".tmp" ≠ ".creating" → ¬ listed t0 → marked t →
  safe stage (atomic_write_with_mode (path_join dir_text x) bytes m) t (λ r t', marked t' ∧
    match r with
    | Ok _ => t' = <[machine ++ [x] := written_node bytes (Some m)]> (delete (machine ++ [x +:+ ".tmp"]) t)
    | Err _ => True
    end).
Proof using Hdata Hname.
  intros Hx Hc Ht Hl Hm. unfold atomic_write_with_mode.
  assert (Hw : marked (<[machine ++ [x] := written_node bytes (Some m)]> (delete (machine ++ [x +:+ ".tmp"]) t)))
    by by apply marked_insert, marked_delete.
  pose proof resolve_dir_text as Hr.
  apply (safe_write_in stage dir_text x (Some m) bytes); rewrite ?Hr; [apply dir_text_absolute|done|done|..].
  - intros u. pose proof (marked_set t (x +:+ ".tmp") [] u Ht Hm). split; [by apply marked_stage|done].
  - by apply marked_stage.
  - by intros [].
Qed.
Lemma marked_write_state state lock t :
  ¬ listed t0 → marked t →
  safe stage (write_state (path_join dir_text "state.json") state lock) t (λ r t', marked t' ∧
    match r with
    | Ok _ => ∃ data, to_vec_pretty state = Ok data ∧ state_wf state ∧
        t' = <[state_at := written_node (data ++ [10]) None]> (delete (machine ++ ["state.json.tmp"]) t)
    | Err _ => True
    end).
Proof using Hdata Hname.
  intros Hl Hm. apply write_state_safe; rewrite ?resolve_dir_text; [apply dir_text_absolute|by split_and!|..].
  - intros u. change ("state.json" +:+ ".tmp") with "state.json.tmp". pose proof (marked_set t "state.json.tmp" [] u ltac:(done) Hm).
    split; [by apply marked_stage|done].
  - done.
  - intros data Hd Hwf. change ("state.json" +:+ ".tmp") with "state.json.tmp".
    assert (marked (<[state_at := written_node (data ++ [10]) None]> (delete (machine ++ ["state.json.tmp"]) t)))
      by by apply marked_insert, marked_delete.
    split; [by apply marked_stage|]. intros [[]|e]; (split; [done|]); [|done]. by exists data.
Qed.

Lemma initialize_safe spec lock t :
  ¬ listed t0 → marked t →
  safe stage (initialize_machine self name spec lock) t (λ r t', marked t' ∧
    match r with Ok record => written record t' | Err _ => True end).
Proof using Hdata Hname.
  intros Hl Hm. unfold initialize_machine. apply safe_bind, safe_lift.
  destruct (created_state self name spec) as [state|e] eqn:Hstate; [|done].
  apply safe_bind, safe_lift. destruct (render_spec _) as [text|e] eqn:Htext; [|done].
  apply safe_bind, safe_lift. unfold machine_spec. rewrite in_machine_Ok.
  apply safe_bind. eapply safe_mono; [by apply (marked_write "firestone.toml"); [by split_and!|..]|].
  intros [[]|e] t1 [Hm1 Ht1]; [|done]. apply safe_bind, safe_lift. unfold machine_state. rewrite in_machine_Ok.
  apply safe_bind. eapply safe_mono; [by apply marked_write_state|]. intros [[]|e] t2 [Hm2 Ht2]; [|done].
  destruct Ht2 as (data & Hdat & Hwf & ->). apply safe_ret. split; [done|]. exists text, (bytes_of text), data. cbn [record_state record_spec].
  assert (Hin : ∀ x y : string, x ≠ y → machine ++ [x] ≠ machine ++ [y]) by (intros x y Hxy E; by apply app_inj_tail in E as [_ ?]).
  split_and!; [|by rewrite lookup_insert_eq|done|done|by exists spec|by left].
  unfold state_at, spec_at. rewrite lookup_insert_ne, lookup_delete_ne by by apply Hin. rewrite Ht1. by rewrite lookup_insert_eq.
Qed.

(** *** Editing the specification before it is published *)

Lemma marked_in x y : x ≠ y → machine ++ [x] ≠ machine ++ [y].
Proof using Type. intros Hxy E. by apply app_inj_tail in E as [_ ?]. Qed.
Definition edited_to (spec : MachineSpec.MachineSpec Json) t : Prop :=
  ∃ bytes text loaded, t !! spec_at = Some (written_node bytes (Some MACHINE_SPEC_FILE_MODE)) ∧ from_utf8 bytes = Some text ∧
    load_spec_text_with_pinned self text dir_text dir_text None = Ok loaded ∧ loaded_spec loaded = spec.
Definition candidate_text : string := path_join dir_text "firestone.toml.edit".
Lemma candidate_in : Tree.resolve candidate_text = machine ++ ["firestone.toml.edit"].
Proof using Hdata Hname. by apply resolve_in; split_and!. Qed.
Lemma edit_sessions_safe sessions t :
  ¬ listed t0 → marked t →
  safe stage (edit_sessions self sessions name dir_text candidate_text (path_join dir_text "firestone.toml") None) t
    (λ r t', marked t' ∧ ∀ edited, r = Ok (Some edited) → edited_to (result_spec edited) t').
Proof using H0 Hdata Hname.
  intros Hl. revert t. induction sessions as [|s sessions IH]; intros t Hm; cbn [edit_sessions]; [by apply safe_ret|].
  apply safe_bind. eapply (safe_mono _ _ (λ _ t', marked t')).
  { intros w <- HI. assert (marked (set_node (Tree.resolve candidate_text) (leaves s) (tree w))) as Hm'
      by (rewrite candidate_in; by apply marked_set).
    cbn. split; [|done]. apply Forall_app. split; [done|]. constructor; [by apply marked_stage|done]. }
  intros [[]|e] t1 Hm1; [|done]. apply safe_bind. eapply safe_mono; [apply read_file_safe|]. intros [bytes|e] t' [-> _]; [|done].
  apply safe_bind, safe_lift. destruct (from_utf8 bytes) as [text|] eqn:Htext; [|done]. cbn [ok_or].
  destruct (load_spec_text_with_pinned _ _ _ _ _) as [loaded|error] eqn:Hload.
  - apply safe_bind. eapply safe_mono; [by apply (marked_write "firestone.toml"); [by split_and!|..]|].
    intros [[]|e] t2 [Hm2 Ht2]; [|done]. apply safe_ret. split; [done|]. intros edited [= <-]. exists bytes, text, loaded.
    split_and!; [|done..]. rewrite Ht2. by rewrite lookup_insert_eq.
  - apply safe_bind, safe_on_clock. intros [[]|e]; [by apply IH|done].
Qed.
Lemma safe_caught {A} (I : Tree → Prop) (m : M (World Sink) FirestoneError A) t Q :
  safe I m t (λ r t', Q (Ok r) t') → safe I (caught m) t Q.
Proof using Type. intros Hm w Hw HI. specialize (Hm w Hw HI). unfold caught. by destruct (m w). Qed.
Lemma emit_spec_warnings_safe (I : Tree → Prop) warnings t :
  safe I (emit_spec_warnings (Json := Json) warnings) t (λ _ t', t' = t).
Proof using Type.
  induction warnings as [|x warnings IH]; cbn [emit_spec_warnings]; [by apply safe_ret|].
  apply safe_bind, safe_on_clock. by intros [[]|e].
Qed.
Lemma edit_created_safe editor sessions lock record t :
  ¬ listed t0 → marked t → 
  safe stage (edit_created self editor sessions name dir_text lock record) t (λ r t', marked t' ∧
    ∀ record, r = Ok (Some record) → written record t').
Proof using H0 Hdata Hname.
  intros Hl Hm. unfold edit_created. apply safe_bind, safe_lift. unfold machine_spec. rewrite in_machine_Ok.
  apply safe_bind. eapply safe_mono; [apply read_file_safe|]. intros [original|e] t' [-> _]; [|done].
  apply safe_bind. eapply safe_mono; [by apply (marked_write "firestone.toml.edit"); [by split_and!|..]|].
  intros [[]|e] t1 [Hm1 _]; [|done]. clear t Hm.
  apply safe_bind, safe_caught, safe_bind, safe_lift.
  destruct editor as [[]|e1].
  2: { apply safe_bind, safe_caught, remove_candidate_safe; fold candidate_text; rewrite ?candidate_in; intros; try by apply safe_fail.
       assert (marked (delete (machine ++ ["firestone.toml.edit"]) t1)) by by apply marked_delete.
       split; [by apply marked_stage|by apply safe_fail]. }
  eapply safe_mono; [by apply edit_sessions_safe|]. fold candidate_text. intros edited t2 [Hm2 Hed].
  assert (Hfail : ∀ t' e, marked t' → safe stage (M_fail e) t' (λ (r : result FirestoneError (option (MachineRecord Json))) t', marked t' ∧
    ∀ record, r = Ok (Some record) → written record t')) by (intros; by apply safe_fail).
  destruct edited as [[edited|]|e]; [|by apply safe_ret|].
  - specialize (Hed _ eq_refl) as (bytes & text & loaded & Hspec & Htext & Hload & Heq).
    apply safe_bind, safe_caught. eapply (safe_mono _ _ (λ _ t', marked t' ∧ t' !! spec_at = t2 !! spec_at)).
    { apply remove_candidate_safe; rewrite ?candidate_in; [|done..]. intros n _ _.
      assert (marked (delete (machine ++ ["firestone.toml.edit"]) t2)) by by apply marked_delete.
      split; [by apply marked_stage|]. split; [done|]. by rewrite lookup_delete_ne by by apply marked_in. }
    intros [[]|e] t3 [Hm3 Hs3]; [|by apply Hfail]. rewrite Hspec in Hs3.
    apply safe_bind. eapply safe_mono; [apply emit_spec_warnings_safe|]. intros [[]|e] t' ->; [|done].
    apply safe_bind, safe_lift. destruct (created_state self name _) as [state|e] eqn:Hstate; [|done].
    apply safe_bind, safe_lift. unfold machine_state. rewrite in_machine_Ok.
    apply safe_bind. eapply safe_mono; [by apply marked_write_state|]. intros [[]|e] t4 [Hm4 Ht4]; [|done].
    destruct Ht4 as (data & Hdat & Hwf & ->). apply safe_ret. split; [done|]. intros r [= <-]. exists text, bytes, data.
    cbn [record_state record_spec]. split_and!; [|by rewrite lookup_insert_eq|done|done|by eexists|right; by eauto].
    unfold state_at. rewrite lookup_insert_ne, lookup_delete_ne by by apply marked_in. done.
  - apply safe_bind, safe_caught, remove_candidate_safe; rewrite ?candidate_in; intros; try by apply safe_fail.
    assert (marked (delete (machine ++ ["firestone.toml.edit"]) t2)) by by apply marked_delete.
    split; [by apply marked_stage|by apply safe_fail].
Qed.

(** *** The whole of [create] *)

Lemma machine_below_data : ∃ r, machine = Tree.resolve (data_dir (paths self)) ++ r.
Proof using Hdata. exists ["machines"; name]. unfold machine, machines_dir. rewrite resolve_join by (done || by split_and!). by rewrite <- app_assoc. Qed.
Lemma publish_safe record creating_marker t :
  ¬ listed t0 → marked t → written record t → creating_marker = path_join dir_text ".creating" →
  safe stage (publish_machine name creating_marker) t (λ r t', match r with Ok _ => published record t' | Err _ => stage t' end).
Proof using All.
  intros Hl Hm Hw ->. pose proof (resolve_in ".creating" ltac:(by split_and!)) as Hmk.
  apply safe_map_err, safe_remove_file; rewrite Hmk; fold marker_at; [|intros; by apply marked_stage].
  intros n _ _. assert (published record (delete marker_at t)) as Hp.
  { split_and!; [apply outside_delete, Hm| |by rewrite lookup_delete_eq].
    destruct Hw as (text & bytes & data & Hs & Hst & Hw). exists text, bytes, data. unfold marker_at, spec_at, state_at in *.
    by rewrite !lookup_delete_ne by by apply marked_in. }
  split; [|done]. right. split; [done|]. right. right. by exists record.
Qed.
Context `{!PayloadJson Json (MachineRecord Json)}.
Lemma create_internal_safe spec edit :
  safe stage (create_internal self name spec edit) t0 (λ r t', stage t' ∧ (r = Ok (Some ()) → ¬ listed t0 ∧ ∃ record, published record t')).
Proof using All.
  assert (Hst : ∀ t, before t → stage t) by (by left). pose proof before_start as Hb.
  unfold create_internal. apply safe_bind, safe_lift. rewrite machine_dir_Ok. fold dir_text.
  apply safe_bind, safe_lift. destruct (validate_action_spec self None spec) as [[warnings|e] spec']; [|split; [by apply Hst|done]].
  apply safe_bind. eapply safe_mono; [apply emit_spec_warnings_safe|]. intros [[]|e] t' ->; [|split; [by apply Hst|done]].
  destruct machine_below_data as [rd Hrd].
  assert (Hrm : machine = Tree.resolve (machines_dir (paths self)) ++ [name]) by done.
  apply safe_bind. eapply safe_mono.
  { apply (ensure_owned_data_directory_safe (Sink := Sink)). intros t' Hg. eapply stage_grown; [by exists rd|exact Hb|done]. }
  intros r t1 [Hg1 _]. assert (before t1) as Hb1 by (eapply before_grown; [by exists rd|done|done]).
  destruct r as [_|e]; [|split; [by apply Hst|done]].
  apply safe_bind. eapply safe_mono.
  { apply (ensure_owned_data_directory_safe (Sink := Sink)). intros t' Hg. eapply stage_grown; [by exists [name]|exact Hb1|done]. }
  intros r t2 [Hg2 _]. assert (before t2) as Hb2 by (eapply before_grown; [by exists [name]|done|done]).
  destruct r as [_|e]; [|split; [by apply Hst|done]].
  apply safe_bind. eapply safe_mono; [by apply prepare_safe|]. intros [[lock marker]|e] t3; [|by split].
  intros (Hmarker & Hm & Hl). apply safe_bind. eapply safe_mono; [by apply initialize_safe|].
  intros [record|e] t4 [Hm4 Hw]; [|split; [by apply marked_stage|done]].
  apply safe_bind. eapply (safe_mono _ _ (λ r t', marked t' ∧ ∀ record, r = Ok (Some record) → written record t')).
  { destruct edit as [[editor sessions]|]; [by apply edit_created_safe|]. apply safe_ret. split; [done|]. by intros r [= <-]. }
  intros [[record'|]|e] t5 [Hm5 Hw5]; [|apply safe_ret; split; [by apply marked_stage|done]|split; [by apply marked_stage|done]].
  apply safe_bind. eapply safe_mono; [by apply (publish_safe record'); [..|by apply Hw5|]|].
  intros [[]|e] t6 Hp; [|by split].
  assert (stage t6) by (right; split; [done|]; right; right; by exists record').
  apply safe_bind, safe_bind, safe_lift. destruct (map_err _ (to_value record')); [|by split].
  apply safe_on_clock. intros [[]|e']; [|by split]. apply safe_ret. split; [done|]. intros _. split; [done|]. by exists record'.
Qed.

(** What holds of every tree a run passes through: nothing else changes, a listed machine stays as it
    is, and one that is listed is as it was, or was found whole, or has just been published. *)
Definition sound t : Prop :=
  outside t ∧ (listed t0 → before t) ∧ (listed t → before t ∨ recovered t ∨ ∃ record, published record t).
Lemma stage_sound t : stage t → sound t.
Proof using Type.
  intros [Hb|[Hl Hs]]; [by split_and!; [apply Hb|..]; auto|]. split_and!; [|done|].
  - destruct Hs as [[? _]|[(tb & [Hb _] & -> & _)|(record & ? & _)]]; [done|by apply outside_delete|done].
  - intros (Hm & _). destruct Hs as [[_ Hs]|]; [by rewrite Hm in Hs; destruct Hs|by right].
Qed.
End machine.

Section creation.
Context {Sink Json : Type} `{RealFaults} `{LiveHost} `{StateJson} `{Schedule} `{EventSink Json Sink} `{SpecText Json}.
Context `{!PayloadJson Json (MachineRecord Json)}.

(** C4: wherever [create] is stopped and whatever fails, a machine is listed (specification and state
    there, no marker) only when it is as it was before, or was found whole with the marker of an earlier
    run, or is the machine being made with all of its files written; a machine that was listed is not
    touched, nothing outside the machine's directory changes but for missing directories on the way to
    it, and [create] succeeds only by publishing a machine that was not listed. *)
Theorem create_publishes_whole (self : LocalDispatcher Json) name spec edit (w : World Sink) :
  is_absolute (data_dir (paths self)) = true → single_component name = true → names_ok (tree w) → past w = [] →
  let '(r, w') := create_internal self name spec edit w in
  Forall (sound self name (tree w)) (past w' ++ [tree w']) ∧
  (r = Ok (Some ()) → ¬ listed self name (tree w) ∧ ∃ record, published self name (tree w) record (tree w')).
Proof using All.
  intros Hd Hn Hnames Hp. pose proof (create_internal_safe self name Hd Hn (tree w) Hnames spec edit w eq_refl) as Hs.
  rewrite Hp in Hs. specialize (Hs (Forall_nil_2 _)). destruct (create_internal _ _ _ _ w) as [r w'].
  destruct Hs as (Hpast & Hst & Hok). split; [|done].
  apply Forall_app. split; [|constructor; [by apply stage_sound|done]]. eapply Forall_impl; [done|]. apply stage_sound.
Qed.
End creation.

(** ** A concrete run *)

#[local] Instance demo_specs : SpecText bool := {|
  validate_spec _ := λ spec, (Ok [], spec);
  load_spec _ _ _ _ _ := Ok {| loaded_spec := MachineSpec.default; loaded_warnings := [] |};
  spec_text _ := Ok "cpus = 2" |}.
Definition demo_state : MachineState := {|
  State.status := Created; State.image := {| State.ref := "ubuntu"; State.id := None; State.sha256 := None |};
  State.mac := None; State.cid := 3; State.instance_id := None; State.shim_pid := None; State.vmm_pid := None;
  State.sidecar_pids := ∅; State.runtime_dir := "/tmp/firestone-1000/web"; State.started_at := None; State.forwards := [];
  State.degraded := []; State.last_exit := None |}.
#[local] Instance demo_json : StateJson := {| to_vec_pretty _ := Ok [123; 125]; from_slice _ := Ok demo_state |}.
#[local] Instance demo_live : LiveHost := {|
  flock _ := Locked; read_proc _ _ := Err ENOENT; pings _ _ := Ok false; timestamp _ := "2025-01-01T00:00:00Z";
  host_arch := "x86_64"; Store.utf8_error _ := "invalid utf-8"; uni_debug s := s |}.
#[local] Instance demo_schedule : Schedule := {| lag _ := 0; lag_nonneg _ := Z.le_refl 0 |}.
#[local] Instance demo_payload : PayloadJson bool (MachineRecord bool) := {| to_value _ := Ok true |}.
Definition demo_dispatcher : LocalDispatcher bool :=
  {| paths := demo_self; global := global_default; catalog := ∅; source_base := "/home/me"; qemu_img := "qemu-img" |}.
Definition demo_start : World (list (Event bool)) :=
  {| tree := demo_root; calls := 0; past := []; timed := {| time := 0; tick := 0; sink := [] |} |}.
Lemma demo_names : names_ok demo_root.
Proof.
  intros k n Hk. apply elem_of_list_to_map_2 in Hk. repeat (apply elem_of_cons in Hk as [Hk|Hk]); [..|by apply elem_of_nil in Hk];
    injection Hk as -> ->; repeat constructor; done.
Qed.
Lemma create_publishes_whole_witness :
  let '(r, w') := create_internal demo_dispatcher "web" MachineSpec.default None demo_start in
  r = Ok (Some ()) ∧ Forall (sound demo_dispatcher "web" demo_root) (past w') ∧
  ∃ record, published demo_dispatcher "web" demo_root record (tree w').
Proof.
  pose proof (create_publishes_whole demo_dispatcher "web" MachineSpec.default None demo_start eq_refl) as H.
  assert ((create_internal demo_dispatcher "web" MachineSpec.default None demo_start).1 = Ok (Some ())) as Hr
    by (vm_compute; reflexivity).
  destruct (create_internal _ _ _ _ _) as [r w']. cbn in Hr. subst r.
  destruct (H eq_refl demo_names eq_refl) as [Hs Hp]. split; [reflexivity|].
  apply Forall_app in Hs as [Hs _]. split; [exact Hs|]. by apply Hp.
Defined.

(** ** Removing a machine *)

Section tree_checks.
Context {Sink Json : Type} `{RealFaults} `{LiveHost}.
Context (self : LocalDispatcher Json).
Local Abbreviation safe := (safe (Sink := Sink)).
Implicit Types t : Tree.

(** A file or a directory that may be removed: it belongs to Firestone's user and no link or device is it. *)
Definition removable (n : Node) : Prop :=
  Tree.uid n = Paths.uid (paths self) ∧ (Tree.is_file n = true ∨ is_dir n = true ∧ permissions n = 448).
(** The directories on the way from [d] along [r] are there. *)
Fixpoint reached t (d r : Path) : Prop :=
  match r with [] => True | x :: r => directory_at t d = true ∧ reached t (d ++ [x]) r end.
Lemma safe_get {E} (I : Tree → Prop) t (Q : result E (World Sink) → Tree → Prop) : (∀ w, tree w = t → Q (Ok w) t) → safe I M_get t Q.
Proof using Type. intros HQ w <- HI. split; [done|]. by apply HQ. Qed.
Lemma validate_removal_entry_safe (I : Tree → Prop) fuel path t :
  is_absolute path = true → names_ok t →
  safe I (validate_removal_entry self fuel path) t (λ r t', t' = t ∧ (r = Ok () →
    ∀ s n, reached t (Tree.resolve path) s → t !! (Tree.resolve path ++ s) = Some n → removable n)).
Proof using H0.
  intros Ha Hnames. revert path Ha. induction fuel as [|fuel IH]; intros path Ha; cbn [validate_removal_entry]; [by apply safe_fail|].
  apply safe_bind, safe_map_err, safe_metadata; [|done]. intros m Hm. cbn [map_err].
  destruct (Tree.uid m =? Paths.uid (paths self)) eqn:Hu; cbn [negb]; [apply Z.eqb_eq in Hu|by apply safe_fail].
  destruct (is_symlink m) eqn:Hl; [by apply safe_fail|]. destruct (is_dir m) eqn:Hd.
  - destruct (permissions m =? 448) eqn:Hp; cbn [negb]; [apply Z.eqb_eq in Hp|by apply safe_fail].
    apply safe_bind, safe_map_err, safe_read_dir; [|done]. intros m' names _ _ Hperm. cbn [map_err].
    assert (Hsub : ∀ x, is_Some (t !! (Tree.resolve path ++ [x])) → plain x).
    { intros x [n Hn]. apply Hnames in Hn. apply Forall_app in Hn as [_ Hn]. by inversion_clear Hn. }
    assert (Hall : Forall plain (merge_sort str_le names)).
    { rewrite merge_sort_Permutation, Hperm, Forall_forall. intros x Hx%elem_of_entries. by apply Hsub. }
    assert (Heach : safe I ((fix each (names : list string) : M (World Sink) FirestoneError () :=
        match names with [] => mret () | name :: names => validate_removal_entry self fuel (path_join path name);; each names end)
        (merge_sort str_le names)) t (λ r t', t' = t ∧ (r = Ok () → ∀ x s n, x ∈ merge_sort str_le names →
          reached t (Tree.resolve path ++ [x]) s → t !! (Tree.resolve path ++ x :: s) = Some n → removable n))).
    { clear Hperm. induction Hall as [|x l Hx _ IHl]; [by apply safe_ret; split; [|intros _ ? ? ? []%elem_of_nil]|].
      assert (Hr : Tree.resolve (path_join path x) = Tree.resolve path ++ [x]) by by apply resolve_join.
      apply safe_bind. eapply safe_mono; [by apply IH, path_join_absolute|]. rewrite Hr. intros [[]|e] t' [-> Hx']; [|done].
      eapply safe_mono; [apply IHl|]. intros r t' [-> Hrest]. split; [done|]. intros -> y s n [->|Hy]%elem_of_cons Hs Hn.
      - apply (Hx' eq_refl s n Hs). by rewrite <- app_assoc.
      - by eapply Hrest. }
    eapply safe_mono; [exact Heach|]. intros r t' [-> Hr]. split; [done|]. intros -> s n Hs Hn. destruct s as [|x s].
    + rewrite app_nil_r, Hm in Hn. injection Hn as <-. by split; [|right].
    + destruct Hs as [_ Hs]. apply (Hr eq_refl x s n); [|done..]. rewrite merge_sort_Permutation, Hperm. apply elem_of_entries.
      destruct s as [|y s]; [by eexists|]. destruct Hs as [Hdx _]. unfold directory_at in Hdx. by destruct (t !! (Tree.resolve path ++ [x])).
  - destruct (Tree.is_file m) eqn:Hf; [|by apply safe_fail]. apply safe_ret. split; [done|]. intros _ [|x s] n Hs Hn.
    + rewrite app_nil_r, Hm in Hn. injection Hn as <-. by split; [|left].
    + destruct Hs as [Hs _]. unfold directory_at in Hs. rewrite Hm in Hs. cbn in Hs. congruence.
Qed.
Lemma validate_removal_tree_safe (I : Tree → Prop) root label t :
  is_absolute root = true → names_ok t →
  safe I (validate_removal_tree self root label) t (λ r t', t' = t ∧ (r = Ok () →
    ∀ s n, reached t (Tree.resolve root) s → t !! (Tree.resolve root ++ s) = Some n → removable n)).
Proof using All.
  intros Ha Hn. apply safe_bind. eapply safe_mono; [apply validate_owned_data_directory_safe|]. intros [[]|e] t' [-> _]; [|done].
  apply safe_bind, safe_get. intros w <-. by apply validate_removal_entry_safe.
Qed.

(** The check needs no more fuel than the tree has nodes. *)
Definition below (d : Path) t : nat := length (subtree d t).
Lemma below_child d x t : is_Some (t !! d) → (below (d ++ [x]) t < below d t)%nat.
Proof using Type.
  intros Hd. unfold below.
  assert (Hnd : ∀ d, NoDup (subtree d t)) by (intros; apply NoDup_filter, NoDup_fst_map_to_list).
  assert (Hsub : d :: subtree (d ++ [x]) t ⊆+ subtree d t); [|by apply submseteq_length in Hsub; cbn in Hsub; lia].
  apply NoDup_submseteq.
  - constructor; [|apply Hnd]. rewrite elem_of_subtree. intros [[r E] _]. apply (f_equal length) in E. rewrite !length_app in E. cbn in E. lia.
  - intros k [->|Hk]%elem_of_cons; apply elem_of_subtree; [by split; [exists []; rewrite app_nil_r|]|].
    apply elem_of_subtree in Hk as [[r ->] Hk]. split; [|done]. rewrite <- app_assoc. by eexists.
Qed.
Lemma validate_removal_entry_fuel fuel path (w : World Sink) :
  is_absolute path = true → names_ok (tree w) → (below (Tree.resolve path) (tree w) < fuel)%nat →
  validate_removal_entry self (S fuel) path w = validate_removal_entry self fuel path w.
Proof using H0.
  revert path w. induction fuel as [|fuel IH]; intros path w Ha Hnames Hf; [lia|].
  remember (S fuel) as n eqn:En. rewrite En at 2. cbn [validate_removal_entry].
  unfold mbind, M_bind. set (m := M_map_err _ (symlink_metadata path) w).
  assert (Hm : tree m.2 = tree w ∧ ∀ x, m.1 = Ok x → is_Some (tree w !! Tree.resolve path)).
  { unfold m, M_map_err, symlink_metadata, ask. cbn. split; [done|]. intros x. destruct (fault _); [done|].
    by destruct (tree w !! Tree.resolve path). }
  destruct m as [[x|e] w1]; [|done]. destruct Hm as [Hw1 Hx]. specialize (Hx x eq_refl). cbn in Hw1.
  destruct (negb _); [done|]. destruct (is_symlink x); [done|]. destruct (is_dir x); [|done]. destruct (negb _); [done|].
  set (l := M_map_err _ (read_dir path) w1).
  assert (Hl : tree l.2 = tree w ∧ ∀ names, l.1 = Ok names → Forall plain names).
  { unfold l, M_map_err, read_dir, ask. cbn. rewrite Hw1. split; [done|]. intros names. destruct (fault _); [done|].
    destruct (tree w !! Tree.resolve path); [|done]. destruct (is_dir _); [|done]. intros [= <-]. rewrite listing_perm.
    apply Forall_forall. intros y [z Hy]%elem_of_entries. apply Hnames in Hy. apply Forall_app in Hy as [_ Hy]. by inversion_clear Hy. }
  destruct l as [[names|e] w2]; [|done]. destruct Hl as [Hw2 Hp]. specialize (Hp names eq_refl). cbn in Hw2.
  assert (Hp' : Forall plain (merge_sort str_le names)) by by rewrite merge_sort_Permutation.
  clear - Hp' Hw2 Hx IH Ha Hnames Hf En H0. revert w2 Hw2. induction Hp' as [|y l Hy _ IHl]; intros w2 Hw2; [done|].
  assert (Hr : Tree.resolve (path_join path y) = Tree.resolve path ++ [y]) by by apply resolve_join.
  subst n. rewrite IH; [|by apply path_join_absolute|by rewrite Hw2|rewrite Hw2, Hr; pose proof (below_child _ y _ Hx); lia].
  pose proof (validate_removal_entry_safe (λ _, True) fuel (path_join path y) (tree w) (path_join_absolute _ _ Ha) Hnames w2 Hw2
    ltac:(by apply Forall_true)) as [_ [Ht _]].
  destruct (validate_removal_entry self fuel (path_join path y) w2) as [[[]|e] w3]; [|done]. by apply IHl.
Qed.
End tree_checks.

Section removal.
Context {Sink Json : Type} `{RealFaults} `{LiveHost} `{StateJson} `{Schedule} `{EventSink Json Sink} `{SpecText Json}.
Context (self : LocalDispatcher Json) (name : string).
Local Abbreviation safe := (safe (Sink := Sink)).
Local Abbreviation machine := (machine self name).
Implicit Types t : Tree.
Context (Hdata : is_absolute (data_dir (paths self)) = true) (Hname : single_component name = true).
Context (Hrundir : is_absolute (runtime_dir (paths self)) = true).

Definition tombstone : Path := Tree.resolve (machines_dir (paths self)) ++ [".removing-" +:+ name].
Definition runtime : Path := Tree.resolve (runtime_dir (paths self)) ++ [name].
Definition state_file (r : Path) : Prop := ∃ x s, r = x :: s ∧ (x = "state.json" ∨ x = "state.json.tmp").
Lemma removal_plain : plain (".removing-" +:+ name).
Proof using Hname.
  destruct (single_plain name Hname) as (Hs & _). split; [by rewrite has_char_app, Hs|].
  split_and!; intros E%(f_equal String.length); rewrite length_app_str in E; cbn in E; lia.
Qed.
Lemma tombstone_in : Tree.resolve (path_join (machines_dir (paths self)) (".removing-" +:+ name)) = tombstone.
Proof using Hdata Hname. apply resolve_join; [by apply machines_dir_absolute|apply removal_plain]. Qed.
Lemma machine_tombstone : separate machine tombstone.
Proof using Type. apply separate_siblings. intros E%(f_equal String.length). rewrite length_app_str in E. cbn in E. lia. Qed.

(** What a look at the machine's state changes: at most the state file and its temporary sibling. *)
Definition touched t t' : Prop := ∀ k, k ≠ state_at self name → k ≠ machine ++ ["state.json.tmp"] → t' !! k = t !! k.
Lemma touched_state t u : touched t (set_node (machine ++ ["state.json.tmp"]) u t).
Proof using Type. intros k _ Hk. unfold set_node. by rewrite lookup_partial_alter_ne. Qed.
Lemma touched_names t t' : names_ok t → touched t t' → names_ok t'.
Proof using Hdata Hname.
  intros Hn Ht k n Hk.
  assert (Hp : ∀ x, plain x → Forall plain (machine ++ [x])).
  { intros x Hx. apply Forall_app. split; [|by constructor]. apply Forall_app. split; [by apply resolve_plain, machines_dir_absolute|].
    constructor; [by apply single_plain|done]. }
  destruct (decide (k = state_at self name)) as [->|Hk1]; [apply Hp; by split_and!|].
  destruct (decide (k = machine ++ ["state.json.tmp"])) as [->|Hk2]; [apply Hp; by split_and!|].
  rewrite Ht in Hk by done. by eapply Hn.
Qed.
Lemma observe_safe (I : Tree → Prop) state run api t : safe I (observe_machine name state run api) t (λ _ t', t' = t).
Proof using Type. by intros w <- HI. Qed.
Lemma settle_locked_safe (I : Tree → Prop) at_ run api lock t :
  (∀ t', touched t t' → I t') →
  safe I (settle_locked name at_ (path_join (dir_text self name) "state.json") run api lock) t (λ _ t', touched t t').
Proof using H0 Hdata Hname.
  intros HI. assert (Ht : touched t t) by done. unfold settle_locked.
  apply safe_bind. eapply safe_mono; [apply read_state_safe|]. intros [state|e] t' [-> _]; [|done].
  apply safe_bind. eapply safe_mono; [apply observe_safe|]. intros [observation|e] t' ->; [|done].
  destruct (reconciled_state _ _ _) as [effective|]; [|by apply safe_ret].
  apply safe_bind, write_state_safe; rewrite ?resolve_dir_text by done; [by apply dir_text_absolute|by split_and!|..].
  - intros u. pose proof (touched_state t u). split; [by apply HI|done].
  - done.
  - intros bytes _ _. assert (touched t (<[machine ++ ["state.json"] := written_node (bytes ++ [10]) None]> (delete (machine ++ ["state.json.tmp"]) t))) as Hd.
    { intros k Hk1 Hk2. rewrite lookup_insert_ne by (unfold state_at in Hk1; congruence). by rewrite lookup_delete_ne by congruence. }
    split; [by apply HI|]. intros [[]|]; [by apply safe_ret|done].
Qed.
Lemma read_reconciled_locked_safe (I : Tree → Prop) at_ lock t :
  (∀ t', touched t t' → I t') →
  safe I (read_reconciled_machine_state_with self name at_ (Some lock)) t (λ _ t', touched t t').
Proof using H0 Hdata Hname.
  intros HI. assert (Ht : touched t t) by done. unfold read_reconciled_machine_state_with.
  apply safe_bind, safe_lift. unfold machine_state. rewrite in_machine_Ok by done.
  apply safe_bind, safe_lift. destruct (machine_runtime_dir _ _ _) as [run|]; [|done].
  apply safe_bind, safe_lift. destruct (machine_api_socket _ _ _) as [api|]; [|done].
  apply safe_bind. eapply safe_mono; [apply read_state_safe|]. intros [state|e] t' [-> _]; [|done].
  apply safe_bind. eapply safe_mono; [apply observe_safe|]. intros [observation|e] t' ->; [|done].
  destruct (State.rewrite _); [|by apply safe_ret].
  by apply safe_bind, safe_ret, settle_locked_safe.
Qed.
Lemma read_live_state_locked_safe (I : Tree → Prop) lock t :
  (∀ t', touched t t' → I t') → safe I (read_live_state_locked self name lock) t (λ _ t', touched t t').
Proof using H0 Hdata Hname.
  intros HI. unfold read_live_state_locked. apply safe_bind, safe_lift. unfold machine_state. rewrite in_machine_Ok by done.
  apply safe_bind. eapply (safe_mono _ _ (λ _ t', t' = t)).
  { apply safe_bind, safe_map_err, safe_metadata; [|done]. intros n _. cbn [map_err]. destruct (Tree.is_file n); [by apply safe_ret|by apply safe_fail]. }
  intros [[]|e] t' ->; [|done]. apply safe_bind. intros w <- Hw. split; [done|]. by apply read_reconciled_locked_safe.
Qed.
Lemma ensure_machine_exists_safe (I : Tree → Prop) t :
  safe I (ensure_machine_exists self name (dir_text self name)) t (λ r t', t' = t ∧ (r = Ok () → t !! marker_at self name = None)).
Proof using H0 Hdata Hname.
  unfold ensure_machine_exists. apply safe_bind, safe_attempt, safe_metadata.
  - intros n _. apply safe_bind. eapply safe_mono; [apply validate_owned_data_directory_safe|]. intros [[]|e] t' [-> _]; [|done].
    apply safe_bind, safe_attempt, safe_metadata; rewrite resolve_in by (done || by split_and!).
    + intros m _. by apply safe_fail.
    + intros e He. destruct (not_found e) eqn:E; [|by apply safe_fail]. unfold not_found in E. bool_props. apply safe_ret.
      split; [done|]. intros _. by apply He.
  - intros e _. destruct (not_found e); by apply safe_fail.
Qed.

Context (t0 : Tree) (Hnames : names_ok t0).
Context (Hsep : separate (Tree.resolve (machines_dir (paths self))) (Tree.resolve (runtime_dir (paths self)))).

(** Nothing changes outside the machine's directory, its tombstone and its runtime directory, and the
    runtime directory only loses files. *)
Definition elsewhere t : Prop :=
  (∀ k, strip machine k = None → strip tombstone k = None → strip runtime k = None → t !! k = t0 !! k) ∧
  (∀ r, t !! (runtime ++ r) = t0 !! (runtime ++ r) ∨ t !! (runtime ++ r) = None).
Definition kept t : Prop := ∀ r, ¬ state_file r → t !! (machine ++ r) = t0 !! (machine ++ r).
Definition gone t : Prop := ∀ r, t !! (machine ++ r) = None.
Definition checked : Prop :=
  ∀ r n, ¬ state_file r → reached t0 machine r → t0 !! (machine ++ r) = Some n → removable self n.
Definition removal_step t : Prop := elsewhere t ∧ (kept t ∨ gone t ∧ checked).

Lemma machine_runtime r s : machine ++ r ≠ runtime ++ s.
Proof using Hsep. apply separate_strip, separate_app, Hsep. Qed.
Lemma tombstone_runtime r s : tombstone ++ r ≠ runtime ++ s.
Proof using Hsep. apply separate_strip, separate_app, Hsep. Qed.
Lemma elsewhere_machine t t' : (∀ k, strip machine k = None → t' !! k = t !! k) → elsewhere t → elsewhere t'.
Proof using Hsep.
  intros Ht [Ho Hr]. split; [intros k Hm; by rewrite Ht by done; apply Ho|]. intros r. rewrite Ht; [apply Hr|].
  apply strip_None. intros [s E]. symmetry in E. by apply machine_runtime in E.
Qed.
Lemma touched_elsewhere t t' : touched t t' → elsewhere t → elsewhere t'.
Proof using Hsep.
  intros Ht. apply elsewhere_machine. intros k Hk. apply Ht; intros ->; [unfold state_at in Hk|]; by rewrite strip_app in Hk.
Qed.
Lemma touched_kept t t' : touched t t' → kept t → kept t'.
Proof using Type.
  intros Ht Hk r Hr. rewrite Ht; [by apply Hk|..]; intros E; apply Hr; [unfold state_at in E|]; apply app_inv_head in E; subst r;
    eexists _, []; (split; [done|]); auto.
Qed.
Lemma cleared_removal t t' : cleared runtime t t' → elsewhere t → kept t → elsewhere t' ∧ kept t'.
Proof using Hsep.
  intros Hc [Ho Hr] Hk.
  assert (Hc' : ∀ k, t' !! k = t !! k ∨ (t' !! k = None ∧ ∃ s, k = runtime ++ s)).
  { intros k. destruct (Hc k) as [|(E & [->|(x & n & -> & _)])]; [by left|right..]; (split; [done|]); [exists []; by rewrite app_nil_r|by exists [x]]. }
  split; [split|].
  - intros k Hm Ht Hn. destruct (Hc' k) as [->|[_ [s ->]]]; [by apply Ho|by rewrite strip_app in Hn].
  - intros r. destruct (Hc' (runtime ++ r)) as [->|[E _]]; [apply Hr|by right].
  - intros r Hf. destruct (Hc' (machine ++ r)) as [->|[_ [s E]]]; [by apply Hk|by apply machine_runtime in E].
Qed.
Lemma pruned_elsewhere t t' : pruned tombstone t t' → elsewhere t → elsewhere t'.
Proof using Hsep.
  intros Hp [Ho Hr]. split.
  - intros k Hm Ht Hn. destruct (Hp k) as [->|[_ [s ->]]]; [by apply Ho|by rewrite strip_app in Ht].
  - intros r. destruct (Hp (runtime ++ r)) as [->|[E _]]; [apply Hr|by right].
Qed.
Lemma pruned_tombstone t t' r : pruned tombstone t t' → t' !! (machine ++ r) = t !! (machine ++ r).
Proof using Type.
  intros Hp. destruct (Hp (machine ++ r)) as [->|[_ [s E]]]; [done|]. by apply (separate_strip _ _ _ _ machine_tombstone) in E.
Qed.
Lemma moved_gone t : elsewhere t → elsewhere (move machine tombstone t) ∧ gone (move machine tombstone t).
Proof using Hsep.
  pose proof machine_tombstone as Hs. intros [Ho Hr]. split; [split|].
  - intros k Hm Ht Hn. rewrite lookup_move, Ht, Hm by done. by apply Ho.
  - intros r. rewrite lookup_move by done.
    assert (strip tombstone (runtime ++ r) = None) as -> by (apply strip_None; intros [s E]; symmetry in E; by apply tombstone_runtime in E).
    assert (strip machine (runtime ++ r) = None) as -> by (apply strip_None; intros [s E]; symmetry in E; by apply machine_runtime in E). done.
  - intros r. rewrite lookup_move, strip_app by done.
    assert (strip tombstone (machine ++ r) = None) as ->; [|done]. apply strip_None. intros [s E]. by apply separate_strip in E.
Qed.
Lemma kept_reached t p r : kept t → ¬ state_file (p ++ r) → reached t0 (machine ++ p) r → reached t (machine ++ p) r.
Proof using Type.
  intros Hk. revert p. induction r as [|x r IH]; intros p Hf; cbn [reached]; [done|]. intros [Hd Hr]. split.
  - unfold directory_at in *. rewrite Hk; [done|]. intros (y & s & -> & Hy). apply Hf. exists y, (s ++ x :: r). done.
  - rewrite <- app_assoc in *. apply (IH (p ++ [x])); [by rewrite <- app_assoc|done].
Qed.
Lemma kept_checked t :
  kept t → (∀ s n, reached t machine s → t !! (machine ++ s) = Some n → removable self n) → checked.
Proof using Type.
  intros Hk Ht r n Hf Hr Hn. apply (Ht r n); [|by rewrite Hk].
  pose proof (kept_reached t [] r Hk Hf) as H'. rewrite app_nil_r in H'. by apply H'.
Qed.

Lemma safe_assoc {A B C} (I : Tree → Prop) (m : M (World Sink) FirestoneError A) (f : A → M (World Sink) FirestoneError B)
    (g : B → M (World Sink) FirestoneError C) t Q :
  safe I ((m ≫= f) ≫= g) t Q → safe I (m ≫= λ a, f a ≫= g) t Q.
Proof using Type. intros Hs w Hw HI. specialize (Hs w Hw HI). unfold mbind, M_bind in *. by destruct (m w) as [[a|e] w']. Qed.
Lemma clear_runtime_safe t :
  elsewhere t → kept t → names_ok t →
  safe removal_step (runtime ← attempt (symlink_metadata (runtime_dir (paths self)));
    match runtime with
    | Ok _ => clear_machine_runtime_dir (paths self) uni_debug name true
    | Err source =>
        if not_found source then mret ()
        else M_fail (filesystem_error Dependency ("cannot inspect runtime directory " +:+ runtime_dir (paths self))
               "check the Firestone runtime directory permissions" source)
    end) t (λ _ t', elsewhere t' ∧ kept t' ∧ names_ok t').
Proof using All.
  intros He Hk Hn. apply safe_bind, safe_attempt, safe_metadata.
  - intros _ _.
    assert (Hr : machine_runtime_dir uni_debug (paths self) name = Ok (path_join (runtime_dir (paths self)) name)) by by apply checked_join_Ok.
    assert (Hrr : Tree.resolve (path_join (runtime_dir (paths self)) name) = runtime) by (apply resolve_join; [done|by apply single_plain]).
    assert (Hc : ∀ t', cleared runtime t t' → elsewhere t' ∧ kept t' ∧ names_ok t').
    { intros t' Ht'. destruct (cleared_removal t t' Ht' He Hk). split; [done|]. split; [done|]. intros k n Hkn.
      destruct (Ht' k) as [E|[E _]]; [rewrite E in Hkn; by eapply Hn|congruence]. }
    eapply safe_mono; [eapply clear_machine_runtime_dir_safe; [exact Hr|by apply path_join_absolute|done|rewrite Hrr]|rewrite Hrr].
    + intros t' Ht'. destruct (Hc t' Ht') as (? & ? & _). by split; [|left].
    + intros r t' [Ht' _]. by apply Hc.
  - intros e _. destruct (not_found e); [by apply safe_ret|by apply safe_fail].
Qed.
Lemma clear_tombstone_safe path t :
  elsewhere t → kept t → names_ok t → is_absolute path = true → Tree.resolve path = tombstone →
  safe removal_step (stale ← attempt (symlink_metadata path);
    match stale with
    | Ok _ =>
        validate_removal_tree self path "machine removal directory";;
        M_map_err (filesystem_error Generic ("cannot clear stale removal " +:+ path) "remove the stale owned directory and retry")
          (remove_dir_all path);;
        sync_directory (machines_dir (paths self))
    | Err source =>
        if not_found source then mret ()
        else M_fail (filesystem_error Generic ("cannot inspect removal path " +:+ path) "check the machines directory permissions" source)
    end) t (λ _ t', pruned tombstone t t').
Proof using All.
  intros He Hk Hn Ha Hp. pose proof (pruned_refl tombstone t) as Hp0.
  apply safe_bind, safe_attempt, safe_metadata.
  - intros _ _. apply safe_bind. eapply safe_mono; [by apply validate_removal_tree_safe|]. intros [[]|e] t' [-> _]; [|done].
    apply safe_bind, safe_map_err, safe_remove_dir_all; rewrite Hp; [| |done].
    + intros t' Ht'. split; [by eapply pruned_elsewhere|left]. intros r Hf. rewrite (pruned_tombstone t) by done. by apply Hk.
    + intros t' Ht' _. by apply sync_directory_safe.
  - intros e _. destruct (not_found e); [by apply safe_ret|by apply safe_fail].
Qed.
Lemma remove_one_safe :
  safe removal_step (remove_one self name) t0 (λ r t', removal_step t' ∧ (r = Ok () →
    gone t' ∧ checked ∧ (∀ s, t' !! (tombstone ++ s) = None) ∧ t0 !! marker_at self name = None)).
Proof using All.
  assert (Hk0 : elsewhere t0 ∧ kept t0) by (by split; [split; [|by left]|]). pose proof Hk0 as [He0 Hkk0].
  assert (Hst : ∀ t, elsewhere t ∧ kept t → removal_step t) by (by intros t []; split; [|left]).
  unfold remove_one. apply safe_bind, safe_lift. rewrite machine_dir_Ok by done. fold (dir_text self name).
  apply safe_bind, safe_lift. unfold machine_lock. rewrite in_machine_Ok by done.
  apply safe_bind. eapply safe_mono; [apply validate_owned_data_file_safe|]. intros [[]|e] t' [-> Hlock]; [|split; [by apply Hst|done]].
  specialize (Hlock eq_refl). rewrite resolve_in in Hlock by (done || by split_and!).
  apply safe_bind. eapply (safe_mono _ _ (λ _ t', t' = t0)).
  { apply acquire_lock_safe; [by apply Hst|done|]. rewrite resolve_in by (done || by split_and!). intros Hn _. rewrite Hn in Hlock. discriminate. }
  intros [lock|e] t' ->; [|split; [by apply Hst|done]].
  apply safe_bind. eapply safe_mono; [apply ensure_machine_exists_safe|]. intros [[]|e] t' [-> Hmark]; [|split; [by apply Hst|done]].
  specialize (Hmark eq_refl).
  apply safe_bind. eapply safe_mono.
  { apply read_live_state_locked_safe. intros t' Ht. apply Hst. split; [exact (touched_elsewhere _ _ Ht He0)|exact (touched_kept _ _ Ht Hkk0)]. }
  intros r t Ht. assert (Hkt : elsewhere t ∧ kept t) by (split; [exact (touched_elsewhere _ _ Ht He0)|exact (touched_kept _ _ Ht Hkk0)]).
  assert (Hn : names_ok t) by by eapply touched_names.
  destruct r as [live|e]; [|split; [by apply Hst|done]].
  destruct (is_active _); [apply safe_fail; split; [by apply Hst|done]|].
  apply safe_bind. eapply (safe_mono _ _ (λ _ t', t' = t)).
  { unfold validate_machine_data_directory. apply safe_bind. eapply safe_mono; [apply validate_owned_data_directory_safe|]. intros [[]|e] t' [-> _]; [|done].
    apply safe_bind. eapply safe_mono; [apply validate_owned_data_directory_safe|]. intros [[]|e] t' [-> _]; [|done].
    apply safe_bind, safe_lift. destruct (machine_dir _ _ _) as [d|]; [|done].
    apply safe_bind. eapply safe_mono; [apply validate_owned_data_directory_safe|]. intros [[]|e] t' [-> _]; [|done]. by apply safe_ret. }
  intros [_|e] t' ->; [|split; [by apply Hst|done]].
  apply safe_bind. eapply safe_mono; [apply validate_removal_tree_safe; [by apply dir_text_absolute|done]|].
  intros [[]|e] t' [-> Hchk]; [|split; [by apply Hst|done]]. rewrite resolve_dir_text in Hchk by done.
  assert (Hc : checked) by (eapply kept_checked; [apply Hkt|by apply Hchk]). clear Hchk.
  apply safe_assoc, safe_bind. eapply (safe_mono _ _ (λ _ t', elsewhere t' ∧ kept t' ∧ names_ok t')); [by destruct Hkt; apply clear_runtime_safe|].
  clear t Ht Hkt Hn. intros r t (He & Hk & Hn). destruct r as [[]|e]; [|split; [by apply Hst|done]].
  apply safe_bind, safe_lift. destruct (machine_removal_dir _ _ _) as [p|] eqn:Hp; [|split; [by apply Hst|done]].
  apply checked_join_Ok in Hp as [_ ->]. pose proof tombstone_in as Htomb.
  assert (Habs : is_absolute (path_join (machines_dir (paths self)) (".removing-" +:+ name)) = true) by by apply path_join_absolute, machines_dir_absolute.
  revert Htomb Habs. generalize (path_join (machines_dir (paths self)) (".removing-" +:+ name)) as path. intros path Htomb Habs.
  apply safe_assoc, safe_bind. eapply (safe_mono _ _ (λ _ t', pruned tombstone t t')); [by apply clear_tombstone_safe|].
  intros r t1 Hp. assert (He1 : elsewhere t1) by by eapply pruned_elsewhere.
  assert (Hk1 : kept t1) by (intros s Hs; rewrite (pruned_tombstone t) by done; by apply Hk). clear t He Hk Hn Hp.
  destruct r as [[]|e]; [|split; [by apply Hst|done]].
  assert (Hgs : ∀ t, elsewhere t → gone t → removal_step t) by (by intros; split; [|right]).
  destruct (moved_gone t1 He1) as [Hem Hgm].
  apply safe_bind, safe_map_err, safe_rename; rewrite ?(resolve_dir_text self name Hdata Hname), ?Htomb;
    [apply separate_ne, machine_tombstone| |intros; split; [by apply Hst|done]].
  intros _ _ _ _ _. split; [by apply Hgs|]. revert Hem Hgm. generalize (move machine tombstone t1) as t. clear t1 He1 Hk1. intros t He Hg.
  apply safe_bind, sync_directory_safe. intros [[]|e]; [|split; [by apply Hgs|done]].
  assert (Hp : ∀ t', pruned tombstone t t' → elsewhere t' ∧ gone t').
  { intros t' Ht'. split; [by eapply pruned_elsewhere|]. intros s. by rewrite (pruned_tombstone t). }
  apply safe_bind, safe_map_err, safe_remove_dir_all; rewrite ?Htomb.
  - intros t' Ht'. destruct (Hp t' Ht'). by apply Hgs.
  - intros t' Ht' Hno. destruct (Hp t' Ht'). apply sync_directory_safe. intros r. split; [by apply Hgs|]. by intros _.
  - intros e t' Ht'. destruct (Hp t' Ht'). split; [by apply Hgs|done].
Qed.
End removal.

Section removing.
Context {Sink Json : Type} `{RealFaults} `{LiveHost} `{StateJson} `{Schedule} `{EventSink Json Sink} `{SpecText Json}.

(** C5: removing a machine is a single step, when the machines and the runtime directory are apart:
    wherever it is stopped and whatever fails, the machine's directory is all there (but for its state file, which a look at the machine may bring up to date), or
    all of it is gone and every node in it had been checked to be a file or a private directory of
    Firestone's user; nothing changes outside the directory, its tombstone and its runtime directory,
    which only loses files; and when [rm] succeeds the directory and the tombstone are gone, and the
    machine was not one that was still being made. *)
Theorem remove_is_one_step (self : LocalDispatcher Json) name (w : World Sink) :
  is_absolute (data_dir (paths self)) = true → is_absolute (runtime_dir (paths self)) = true →
  separate (Tree.resolve (machines_dir (paths self))) (Tree.resolve (runtime_dir (paths self))) →
  single_component name = true → names_ok (tree w) → past w = [] →
  let '(r, w') := remove_one self name w in
  Forall (removal_step self name (tree w)) (past w' ++ [tree w']) ∧
  (r = Ok () → gone self name (tree w') ∧ checked self name (tree w) ∧
    (∀ s, tree w' !! (tombstone self name ++ s) = None) ∧ tree w !! marker_at self name = None).
Proof using All.
  intros Hd Hrun Hsep Hn Hnames Hp.
  pose proof (remove_one_safe self name Hd Hn Hrun (tree w) Hnames Hsep w eq_refl) as Hs.
  rewrite Hp in Hs. specialize (Hs (Forall_nil_2 _)). destruct (remove_one _ _ w) as [r w'].
  destruct Hs as (Hpast & Hst & Hok). split; [|done]. apply Forall_app. split; [done|]. by constructor.
Qed.
End removing.

Definition plain_name (x : string) : bool :=
  negb (has_char "/" x) && negb (String.eqb x "") && negb (String.eqb x ".") && negb (String.eqb x "..").
Lemma names_checked (t : Tree) : forallb (λ kn, forallb plain_name kn.1) (map_to_list t) = true → names_ok t.
Proof.
  intros Hf k n Hk. apply elem_of_map_to_list, list_elem_of_In in Hk. rewrite forallb_forall in Hf. specialize (Hf _ Hk). cbn in Hf.
  apply Forall_forall. intros x Hx%list_elem_of_In. rewrite forallb_forall in Hf. specialize (Hf _ Hx). unfold plain_name in Hf.
  bool_props. split_and!; [done|by apply String.eqb_neq..].
Qed.
(** The machine of the run above is removed. *)
Definition demo_made : Tree := tree (create_internal demo_dispatcher "web" MachineSpec.default None demo_start).2.
Definition demo_removal : World (list (Event bool)) :=
  {| tree := demo_made; calls := 0; past := []; timed := {| time := 0; tick := 0; sink := [] |} |}.
Lemma remove_is_one_step_witness :
  let '(r, w') := remove_one demo_dispatcher "web" demo_removal in
  r = Ok () ∧ Forall (removal_step demo_dispatcher "web" demo_made) (past w') ∧ gone demo_dispatcher "web" (tree w').
Proof.
  pose proof (remove_is_one_step demo_dispatcher "web" demo_removal eq_refl eq_refl) as H.
  assert ((remove_one demo_dispatcher "web" demo_removal).1 = Ok ()) as Hr by (vm_compute; reflexivity).
  destruct (remove_one _ _ _) as [r w']. cbn in Hr. subst r.
  destruct H as [Hs Hok]; [by split; vm_compute|reflexivity|by apply names_checked; vm_compute|reflexivity|].
  split; [reflexivity|]. apply Forall_app in Hs as [Hs _]. split; [exact Hs|]. by destruct (Hok eq_refl).
Defined.

(** ** Listing the machines *)

Section listing.
Context {Sink Json : Type} `{RealFaults} `{LiveHost} `{StateJson} `{Schedule} `{EventSink Json Sink} `{SpecText Json}.
Context (self : LocalDispatcher Json).
Local Abbreviation safe := (safe (Sink := Sink)).
Implicit Types t : Tree.
Context (Hdata : is_absolute (data_dir (paths self)) = true).

(** The directory [name] of the machines directory holds a machine that is listed: its name is a string
    (UTF-8) that can name a machine. *)
Definition published_machine t (name : string) : Prop :=
  from_utf8 (bytes_of name) = Some name ∧ single_component name = true ∧ directory_at t (machine self name) = true ∧ listed self name t.
Lemma from_utf8_bytes_of name name' : from_utf8 (bytes_of name) = Some name' → name' = name.
Proof using Type. unfold from_utf8. destruct (scalars _); cbn; [|done]. intros [= <-]. apply utf8_bytes_of. Qed.
Lemma machine_files_ready_safe (I : Tree → Prop) name t :
  single_component name = true →
  safe I (machine_files_ready self name) t (λ r t', t' = t ∧ ∀ b, r = Ok b → (b = true ↔ listed self name t)).
Proof using All.
  intros Hn. unfold machine_files_ready. apply safe_bind, safe_lift. rewrite machine_dir_Ok by done. fold (dir_text self name).
  apply safe_bind. eapply safe_mono; [apply validate_owned_data_directory_safe|]. intros [[]|e] t' [-> _]; [|done].
  apply safe_bind, safe_attempt, safe_metadata; rewrite resolve_in by (done || by split_and!); fold (marker_at self name).
  { intros m Hm. apply safe_ret. split; [done|]. intros b [= <-]. split; [done|]. intros [E _]. congruence. }
  intros e He. destruct (not_found e) eqn:E; [|by apply safe_fail]. unfold not_found in E. bool_props. specialize (He E).
  apply safe_bind, safe_lift. unfold machine_spec. rewrite in_machine_Ok by done.
  apply safe_bind. eapply safe_mono; [apply owned_file_ready_safe|]. intros [a|e'] t' [-> Ha]; [|done]. specialize (Ha a eq_refl).
  rewrite resolve_in in Ha by (done || by split_and!). fold (spec_at self name) in Ha. unfold listed. rewrite <- Ha. destruct a.
  - apply safe_bind, safe_lift. unfold machine_state. rewrite in_machine_Ok by done.
    eapply safe_mono; [apply owned_file_ready_safe|]. intros r t' [-> Hb]. split; [done|]. intros b ->. specialize (Hb b eq_refl).
    rewrite resolve_in in Hb by (done || by split_and!). fold (state_at self name) in Hb. rewrite Hb. naive_solver.
  - apply safe_ret. split; [done|]. intros b [= <-]. naive_solver.
Qed.
Lemma names_among_safe (I : Tree → Prop) l acc t :
  Forall plain l →
  safe I (names_among self l acc) t (λ r t', t' = t ∧ ∀ names, r = Ok names →
    ∃ found, names = acc ++ found ∧ found `sublist_of` l ∧ ∀ x, x ∈ found ↔ x ∈ l ∧ published_machine t x).
Proof using All.
  intros Hl. revert acc. induction Hl as [|x l Hx Hl IH]; intros acc; cbn [names_among].
  { apply safe_ret. split; [done|]. intros names [= <-]. exists []. rewrite app_nil_r. split; [done|]. split; [constructor|].
    intros x. rewrite elem_of_nil. tauto. }
  assert (Hr : Tree.resolve (path_join (machines_dir (paths self)) x) = machine self x)
    by (apply resolve_join; [by apply machines_dir_absolute|done]).
  assert (Hskip : ¬ published_machine t x → safe I (names_among self l acc) t (λ r t', t' = t ∧ ∀ names, r = Ok names →
    ∃ found, names = acc ++ found ∧ found `sublist_of` x :: l ∧ ∀ y, y ∈ found ↔ y ∈ x :: l ∧ published_machine t y)).
  { intros Hno. eapply safe_mono; [apply IH|]. intros r t' [-> Hf]. split; [done|]. intros names ->.
    destruct (Hf names eq_refl) as (found & -> & Hs & Hin). exists found. split; [done|]. split; [by apply sublist_cons|].
    intros y. rewrite Hin, elem_of_cons. split; [tauto|]. intros [[->|?] ?]; tauto. }
  apply safe_bind, safe_map_err, safe_metadata; [|done]. rewrite Hr. intros n Hn. cbn [map_err].
  destruct (is_dir n) eqn:Hd; cbn [negb].
  2: { apply Hskip. intros (_ & _ & Hdir & _). unfold directory_at in Hdir. rewrite Hn in Hdir. cbn in Hdir. congruence. }
  assert (Hdir : directory_at t (machine self x) = true) by (unfold directory_at; by rewrite Hn).
  destruct (from_utf8 (bytes_of x)) as [x'|] eqn:Hutf; [pose proof (from_utf8_bytes_of _ _ Hutf) as ->|by apply Hskip; intros []; congruence].
  destruct (is_ok (machine_dir _ _ _)) eqn:Hok; cbn [negb].
  2: { apply Hskip. intros (_ & Hsc & _). by rewrite machine_dir_Ok in Hok. }
  assert (Hsc : single_component x = true).
  { destruct (machine_dir _ _ _) eqn:E; [|done]. by apply checked_join_Ok in E as []. }
  apply safe_bind. eapply safe_mono; [by apply machine_files_ready_safe|]. intros [b|e] t' [-> Hb]; [|done].
  specialize (Hb b eq_refl). destruct b; [|apply Hskip; intros (_ & _ & _ & HL); by apply Hb in HL].
  eapply safe_mono; [apply IH|]. intros r t' [-> Hf]. split; [done|]. intros names ->.
  destruct (Hf names eq_refl) as (found & -> & Hs & Hin). exists (x :: found). split; [by rewrite <- app_assoc|].
  split; [by constructor|]. intros y. rewrite !elem_of_cons, Hin. split; [|tauto].
  intros [->|?]; [|tauto]. split; [by left|]. do 3 (split; [done|]). by apply Hb.
Qed.

Lemma Sorted_str_lt l : Sorted str_le l → NoDup l → Sorted str_lt l.
Proof using Type.
  induction 1 as [|x l Hs IH Hx]; intros Hnd; [done|]. apply NoDup_cons in Hnd as [Hn Hnd]. constructor; [by apply IH|].
  inversion Hx as [|y l' Hy]; subst; constructor. apply str_le_lt in Hy as [->|]; [|done]. destruct Hn. left.
Qed.
Lemma validate_machine_storage_safe (I : Tree → Prop) t : safe I (validate_machine_storage self) t (λ _ t', t' = t).
Proof using All.
  apply safe_bind. eapply safe_mono; [apply validate_owned_data_directory_safe|]. intros [[]|e] t' [-> _]; [|done].
  eapply safe_mono; [apply validate_owned_data_directory_safe|]. by intros r t' [-> _].
Qed.
Lemma machine_names_safe (I : Tree → Prop) t :
  names_ok t →
  safe I (machine_names self) t (λ r t', t' = t ∧ ∀ names, r = Ok names → Sorted str_lt names ∧
    ∀ x, x ∈ names ↔ directory_at t (Tree.resolve (machines_dir (paths self))) = true ∧ published_machine t x).
Proof using All.
  intros Hnames. unfold machine_names. apply safe_bind. eapply safe_mono; [apply validate_machine_storage_safe|].
  intros [[]|e] t' ->; [|done]. apply safe_bind, safe_attempt, safe_read_dir.
  - intros n l Hn Hd Hperm. apply safe_bind. eapply safe_mono; [apply (names_among_safe I l [] t)|].
    + rewrite Hperm. apply Forall_forall. intros x [m Hx]%elem_of_entries. apply Hnames in Hx. apply Forall_app in Hx as [_ Hx]. by inversion_clear Hx.
    + intros [names|e] t' [-> Hf]; [|done]. destruct (Hf names eq_refl) as (found & -> & Hs & Hin). apply safe_ret.
      split; [done|]. intros names [= <-]. cbn [app]. split.
      * apply Sorted_str_lt; [apply Sorted_merge_sort, _|]. rewrite merge_sort_Permutation. eapply sublist_NoDup; [|exact Hs].
        rewrite Hperm. apply NoDup_entries.
      * intros x. rewrite merge_sort_Permutation, Hin, Hperm, elem_of_entries. unfold directory_at at 1. rewrite Hn. cbn.
        split; [tauto|]. intros (_ & Hp). split; [|done]. destruct Hp as (_ & _ & Hdir & _). unfold directory_at, machine in Hdir.
        destruct (t !! (Tree.resolve (machines_dir (paths self)) ++ [x])); [by eexists|done].
  - intros e He. destruct (not_found e) eqn:E; [|by apply safe_fail]. unfold not_found in E. bool_props. apply safe_ret.
    split; [done|]. intros names [= <-]. split; [done|]. intros x. unfold directory_at at 1. rewrite (He E). split; [by intros ?%elem_of_nil|by intros [? _]].
Qed.
End listing.

Section listed.
Context {Sink Json : Type} `{RealFaults} `{LiveHost} `{StateJson} `{Schedule} `{EventSink Json Sink} `{SpecText Json}.
(** C20: a listing changes nothing and, when it succeeds, names exactly the directories of the machines
    directory that hold a specification and a state and no marker, and whose name is UTF-8 and a single
    path component without control characters; each once, in byte order.  A tombstone that an interrupted
    removal left is one of them. *)
Theorem machine_names_exact (self : LocalDispatcher Json) (w : World Sink) :
  is_absolute (data_dir (paths self)) = true → names_ok (tree w) → past w = [] →
  let '(r, w') := machine_names self w in
  tree w' = tree w ∧ past w' = [] ∧
  ∀ names, r = Ok names → Sorted str_lt names ∧
    ∀ x, x ∈ names ↔ directory_at (tree w) (Tree.resolve (machines_dir (paths self))) = true ∧ published_machine self (tree w) x.
Proof using All.
  intros Hd Hnames Hp. pose proof (machine_names_safe self Hd (λ _, False) (tree w) Hnames w eq_refl) as Hs.
  rewrite Hp in Hs. specialize (Hs (Forall_nil_2 _)). destruct (machine_names self w) as [r w']. destruct Hs as (Hpast & Ht & Hr).
  split; [done|]. split; [|done]. cbn in Hpast. destruct (past w'); [done|]. by inversion Hpast.
Qed.
End listed.

(** The removal of "web" stopped right after its directory was renamed: the tombstone is listed. *)
Definition demo_stopped : World (list (Event bool)) :=
  {| tree := move ["home"; "me"; "data"; "machines"; "web"] ["home"; "me"; "data"; "machines"; ".removing-web"] demo_made;
     calls := 0; past := []; timed := {| time := 0; tick := 0; sink := [] |} |}.
Lemma machine_names_exact_witness :
  let '(r, w') := machine_names demo_dispatcher demo_stopped in
  tree w' = tree demo_stopped ∧ r = Ok [".removing-web"] ∧ published_machine demo_dispatcher (tree demo_stopped) ".removing-web" ∧
  tree demo_stopped ∈ past (remove_one demo_dispatcher "web" demo_removal).2.
Proof.
  pose proof (machine_names_exact demo_dispatcher demo_stopped eq_refl) as H.
  assert ((machine_names demo_dispatcher demo_stopped).1 = Ok [".removing-web"]) as Hr by (vm_compute; reflexivity).
  destruct (machine_names _ _) as [r w']. cbn in Hr. subst r.
  assert (forallb (λ kn, forallb plain_name kn.1) (map_to_list (tree demo_stopped)) = true) as Hn by (vm_compute; reflexivity).
  specialize (H (names_checked _ Hn) eq_refl).
  destruct H as (Ht & _ & Hex). split; [exact Ht|]. split; [reflexivity|].
  destruct (Hex _ eq_refl) as [_ Hin]. split; [apply (Hin ".removing-web"), list_elem_of_here|].
  apply (bool_decide_unpack (tree demo_stopped ∈ past (remove_one demo_dispatcher "web" demo_removal).2)). vm_compute. exact I.
Defined.
