(* ===== verification/StoreActions.v ===== *)
(** The machine store's actions on a machine that is there ([firestone/src/store.rs]): showing and
    listing machines, and the three ways to write a specification (a whole one, a patch, an editor). *)
From stdpp Require Import gmap sorting.
From S2P Require Import Prelude RustStr RustPath Errors Clock Values Ports Network Atomic Lock State BTree Utf8.
From S2P Require Import Spec SpecToml Catalog Validation Paths Tree DataDirs Helpers Store.
Open Scope Z_scope.

#[export] Instance CloudInitSpec_eq_dec : EqDecision CloudInitSpec.CloudInitSpec.
Proof. solve_decision. Defined.

(** The virtual size a program's [info] reports of an image, asked for a shared image or not; the
    clock's seconds; the seconds of a time stamp. *)
Class ActionHost := {
  qemu_info : nat → string → string → bool → result FirestoneError Z;
  now_second : nat → Z;
  parse_second : string → option Z }.

(** ** What a machine looks like *)

Section views.
Context {Json : Type} `{ActionHost}.
Local Abbreviation Spec := (MachineSpec.MachineSpec Json).

Definition display_status (status : MachineStatus) (degraded : bool) (supervision : option Supervision) : string :=
  match status with
  | Running =>
      let base := if degraded then "running!" else "running" in
      match supervision with Some Unsupervised => base +:+ " (unsupervised)" | _ => base end
  | Created => "created" | Starting => "starting" | Stopping => "stopping" | Stopped => "stopped" | Failed => "failed"
  end.
Definition format_uptime_seconds (seconds : Z) : string :=
  if seconds <? 60 then dec seconds +:+ "s"
  else if seconds <? 3600 then dec (seconds / 60) +:+ "m"
  else if seconds <? 86400 then dec (seconds / 3600) +:+ "h"
  else dec (seconds / 86400) +:+ "d".
Definition display_uptime (state : MachineState) (now : Z) : option string :=
  if negb (is_active (State.status state)) then None
  else
    started_at ← State.started_at state;
    second ← parse_second started_at;
    if now - second <? 0 then None else Some (format_uptime_seconds (now - second)).
Definition display_forward (forward : string) : string :=
  match rsplit_once ":" forward with Some (host, guest) => host +:+ "→" +:+ guest | None => forward end.
Definition forwards_pending (spec : Spec) (state : MachineState) : bool :=
  bool_decide (State.status state = Running) && forwards_differ (NetworkSpec.forward (MachineSpec.network spec)) (State.forwards state).
Definition canonical_image_reference (catalog : Entries) (reference : string) : string :=
  match find catalog reference with Some entry => canonical_reference entry | None => reference end.
Definition image_pending (catalog : Entries) (spec : Spec) (state : MachineState) : bool :=
  bool_decide (State.status state = Running) &&
  negb (String.eqb (canonical_image_reference catalog (MachineSpec.image spec)) (State.ref (State.image state))).
Record MachineSummary : Set := {
  summary_name : string; summary_status : string; summary_image : string; summary_cpus : Z; summary_memory : string;
  summary_uptime : option string; summary_forwards : list string; summary_forwards_pending : bool }.
Record MachineView : Type := {
  view_spec : Spec; view_state : MachineState; view_supervision : option Supervision;
  view_forwards_pending : bool; view_image_pending : bool }.
Definition summary (name : string) (spec : Spec) (live : LiveMachineState) (now : Z) : MachineSummary :=
  let state := Store.state live in
  {| summary_name := name;
     summary_status := display_status (State.status state) (negb (bool_decide (State.degraded state = []))) (Store.supervision live);
     summary_image := State.ref (State.image state); summary_cpus := MachineSpec.cpus spec;
     summary_memory := ByteSize.display (MachineSpec.memory spec); summary_uptime := display_uptime state now;
     summary_forwards := display_forward <$> State.forwards state; summary_forwards_pending := forwards_pending spec state |}.
End views.
Arguments MachineView Json : clear implicits.
Definition disk_shrink_error (name : string) (current requested : Z) : FirestoneError :=
  with_hint (error_new InvalidSpec ("disk shrink is not supported: machine `" +:+ name +:+ "` already has a " +:+ dec current
     +:+ "-byte overlay and disk requests " +:+ dec requested +:+ " bytes"))
    ("set disk to " +:+ dec current +:+ " bytes or more, or create a new machine with the smaller disk").

(** ** Actions *)

Section actions.
Context {Sink Json : Type} `{Host} `{LiveHost} `{ActionHost} `{Release} `{StateJson} `{Schedule} `{EventSink Json Sink} `{SpecText Json}.
Context `{!PayloadJson Json (list MachineSummary), !PayloadJson Json (MachineView Json), !PayloadJson Json (SpecResult (Json := Json))}.
Context (self : LocalDispatcher Json).
Local Abbreviation World := (World Sink).
Local Abbreviation Io := (M World IoError).
Local Abbreviation Act := (M World FirestoneError).
Local Abbreviation Spec := (MachineSpec.MachineSpec Json).

Definition warn (message : string) : Act () := emit_ (Json := Json) (Log Warn message).
Definition emit_running_spec_warning (state : MachineState) : Act () :=
  if bool_decide (State.status state = Running) then warn "machine is running; spec changes take effect on next start" else mret ().
Definition emit_forward_restart_warning (spec : Spec) (state : MachineState) : Act () :=
  if forwards_pending spec state then warn "port forwards apply on restart" else mret ().
Definition emit_credential_change_warning (previous : option Spec) (next : Spec) : Act () :=
  match previous with
  | None => mret ()
  | Some previous =>
      let changed :=
        (if negb (String.eqb (MachineSpec.user previous) (MachineSpec.user next)) then ["user"] else []) ++
        (if negb (bool_decide (MachineSpec.cloud_init previous = MachineSpec.cloud_init next)) then ["cloud_init"] else []) in
      if bool_decide (changed = []) then mret ()
      else warn (String.concat " and " changed +:+ " changed; cloud-init reprovisions the guest, so this applies on next start")
  end.

(** *** Reading *)

Definition read_spec_text (name : string) (what : string) : Act string :=
  spec_path ← M_lift (machine_spec uni_debug (paths self) name);
  source ← read_file spec_path "machine spec" NotFound;
  M_lift (utf8_text source what).
Definition load_machine (name : string) : Act (Spec * LiveMachineState) :=
  validate_machine_storage self;;
  machine_dir ← M_lift (machine_dir uni_debug (paths self) name);
  ensure_machine_exists self name machine_dir;;
  live ← read_live_state self name;
  text ← read_spec_text name ("machine spec for `" +:+ name +:+ "`");
  loaded ← M_lift (load_spec_text_with_pinned self text machine_dir machine_dir (pinned_image_reference (state live)));
  mret (loaded_spec loaded, live).
Definition load_machine_spec (name : string) (state : MachineState) : Act Spec :=
  machine_dir ← M_lift (machine_dir uni_debug (paths self) name);
  text ← read_spec_text name ("machine spec for " +:+ debug_str uni_debug name);
  loaded ← M_lift (load_spec_text_with_pinned self text machine_dir machine_dir (pinned_image_reference state));
  mret (loaded_spec loaded).
Definition now_seconds : Act Z := λ w, (Ok (now_second (tick (timed w))), w).
Fixpoint summaries (now : Z) (names : list string) (machines : list MachineSummary) : Act (list MachineSummary) :=
  match names with
  | [] => mret machines
  | name :: names =>
      '(spec, live) ← load_machine name;
      summaries now names (machines ++ [summary name spec live now])
  end.
Definition list_machines : Act () :=
  names ← machine_names self;
  now ← now_seconds;
  machines ← summaries now names [];
  emit_result "list" machines.
Definition show (name : string) : Act () :=
  '(spec, live) ← load_machine name;
  emit_result "show" {| view_spec := spec; view_state := state live; view_supervision := supervision live;
    view_forwards_pending := forwards_pending spec (state live); view_image_pending := image_pending (catalog self) spec (state live) |}.
Definition prunable_machine_names : Act (list string) :=
  names ← machine_names self;
  mret (filter (λ name, starts_with "." name = false) names).
Fixpoint active_among (names running : list string) : Act (list string) :=
  match names with
  | [] => mret running
  | name :: names =>
      live ← read_live_state self name;
      active_among names (if is_active (State.status (state live)) then running ++ [name] else running)
  end.
Definition running_machine_names : Act (list string) :=
  validate_machine_storage self;;
  names ← prunable_machine_names;
  active_among names [].

(** *** Writing a specification *)

Definition open_spec_write (name machine_dir : string) : Act (option MachineLock * LiveMachineState * bool) :=
  preliminary ← read_live_state self name;
  if bool_decide (State.status (state preliminary) = Running) then mret (None, preliminary, true)
  else
    lock_path ← M_lift (machine_lock uni_debug (paths self) name);
    lock ← acquire_lock (Json := Json) name lock_path;
    ensure_machine_exists self name machine_dir;;
    observed ← read_live_state_locked self name lock;
    if bool_decide (State.status (state observed) = Running)
    then M_fail (with_hint (error_new Conflict ("machine `" +:+ name +:+ "` started while its specification was being written"))
           ("retry the change to machine " +:+ debug_str uni_debug name))
    else mret (Some lock, observed, false).
Definition image_file_error (operation path : string) (source : IoError) : FirestoneError :=
  with_source (with_hint (error_new (if not_found source then NotFound else Generic)
    ("cannot " +:+ operation +:+ " image file '" +:+ path +:+ "'")) "check the Firestone data directory permissions and free space") (io_text source).
Definition measure (qemu_img overlay : string) (force_share : bool) : Act Z := λ w, (qemu_info (calls w) qemu_img overlay force_share, counted w).
Definition exists_at (path : string) : Io bool := λ w, (try_exists w path, counted w).
(** [overlay_virtual_size] and [overlay_virtual_size_shared]. *)
Definition overlay_virtual_size_with (qemu_img overlay : string) (force_share : bool) : Act (option Z) :=
  metadata ← attempt (symlink_metadata overlay);
  match metadata with
  | Ok _ => size ← measure qemu_img overlay force_share; mret (Some size)
  | Err source =>
      if not_found source then mret None
      else M_fail (image_file_error "inspect" overlay source)
  end.
(** The program this process runs; a release publishes the one it carries first. *)
Definition qemu_img_program : Act string :=
  if String.eqb (qemu_img self) "qemu-img"
  then published ← materialize_embedded_helper uni_debug (paths self) QemuImg; mret (default (qemu_img self) published)
  else mret (qemu_img self).
Definition refuse_disk_shrink (name : string) (spec : Spec) (running : bool) : Act () :=
  overlay ← M_lift (machine_disk uni_debug (paths self) name);
  present ← M_map_err (filesystem_error Generic ("cannot inspect machine overlay " +:+ overlay) "check the machine directory permissions")
    (exists_at overlay);
  if negb present then mret ()
  else
    qemu_img ← qemu_img_program;
    measured ← overlay_virtual_size_with qemu_img overlay running;
    match measured with
    | None => mret ()
    | Some current =>
        if MachineSpec.disk spec <? current then M_fail (disk_shrink_error name current (MachineSpec.disk spec)) else mret ()
    end.
Definition previous_spec_when_running (name : string) (state : MachineState) : Act (option Spec) :=
  if bool_decide (State.status state = Running) then spec ← load_machine_spec name state; mret (Some spec) else mret None.
(** What [set_spec] and [patch_spec] do with the checked specification. *)
Definition write_spec (name : string) (spec : Spec) (warnings : list SpecWarning) (observed : MachineState) (running : bool) : Act () :=
  refuse_disk_shrink name spec running;;
  previous ← previous_spec_when_running name observed;
  document ← M_lift (render_spec spec);
  spec_path ← M_lift (machine_spec uni_debug (paths self) name);
  atomic_write_with_mode spec_path (bytes_of document) MACHINE_SPEC_FILE_MODE;;
  emit_running_spec_warning observed;;
  emit_forward_restart_warning spec observed;;
  emit_credential_change_warning previous spec;;
  emit_spec_warnings (Json := Json) warnings;;
  emit_result "edit" {| result_spec := spec; result_warnings := warnings |}.
Definition set_spec (name : string) (spec : Spec) : Act () :=
  validate_machine_storage self;;
  machine_dir ← M_lift (machine_dir uni_debug (paths self) name);
  ensure_machine_exists self name machine_dir;;
  '(_, observed, running) ← open_spec_write name machine_dir;
  '(warnings, spec) ← M_lift (match validate_action_spec self (pinned_image_reference (state observed)) spec with
    | (Ok warnings, spec) => Ok (warnings, spec) | (Err error, _) => Err error end);
  write_spec name spec warnings (state observed) running.
Definition patch_spec (name : string) (patch : MachineSpecPatch.MachineSpecPatch Json) : Act () :=
  validate_machine_storage self;;
  machine_dir ← M_lift (machine_dir uni_debug (paths self) name);
  ensure_machine_exists self name machine_dir;;
  '(_, observed, running) ← open_spec_write name machine_dir;
  text ← read_spec_text name ("machine spec for " +:+ debug_str uni_debug name);
  loaded ← M_lift (load_spec_text_with_patch self text machine_dir (source_base self) (pinned_image_reference (state observed)) patch);
  write_spec name (loaded_spec loaded) (loaded_warnings loaded) (state observed) running.
Definition edit (editor : result FirestoneError ()) (sessions : list Session) (name : string) : Act (option ()) :=
  validate_machine_storage self;;
  machine_dir ← M_lift (machine_dir uni_debug (paths self) name);
  spec_path ← M_lift (machine_spec uni_debug (paths self) name);
  ensure_machine_exists self name machine_dir;;
  '(_, observed, _) ← open_spec_write name machine_dir;
  original ← read_file spec_path "machine spec" NotFound;
  let candidate := path_join machine_dir "firestone.toml.edit" in
  atomic_write_with_mode candidate original MACHINE_SPEC_FILE_MODE;;
  edited ← caught (edit_candidate self editor sessions name machine_dir candidate spec_path (pinned_image_reference (state observed)));
  match edited with
  | Ok None => mret None
  | _ =>
      cleanup ← caught (remove_candidate candidate);
      match edited, cleanup with
      | Ok (Some result), Ok _ =>
          emit_running_spec_warning (state observed);;
          emit_forward_restart_warning (result_spec result) (state observed);;
          emit_spec_warnings (Json := Json) (result_warnings result);;
          emit_result "edit" result;;
          mret (Some ())
      | Ok _, Err error | Err error, _ => M_fail error
      | Ok None, Ok _ => mret None
      end
  end.
End actions.
