(* ===== verification/StoreActionsSpec.v ===== *)
(** What the store promises of a specification that is written: the file is the old one or all of the new
    one, what is written was checked against the machine it is for, and no other file changes. *)
From stdpp Require Import gmap sorting.
From S2P Require Import Prelude RustStr RustPath Errors Clock Values Ports Network Atomic Lock State BTree Utf8.
From S2P Require Import Spec SpecToml Catalog Validation Paths Tree DataDirs Helpers Store StoreSpec StoreActions.
Open Scope Z_scope.

Section machine.
Context {Sink Json : Type} `{RealFaults} `{LiveHost} `{ActionHost} `{Release} `{StateJson} `{Schedule} `{EventSink Json Sink} `{SpecText Json}.
Context (self : LocalDispatcher Json) (name : string).
Local Abbreviation safe := (safe (Sink := Sink)).
Local Abbreviation machine := (machine self name).
Implicit Types t : Tree.
Context (Hdata : is_absolute (data_dir (paths self)) = true) (Hname : single_component name = true).

(** Files that looking at a machine may change: its state, when it is out of date, and its lock, when it is missing. *)
Definition looked (k : Path) : Prop :=
  k = state_at self name ∨ k = machine ++ ["state.json.tmp"] ∨ k = lock_at self name.
Definition quiet t t' : Prop := ∀ k, ¬ looked k → t' !! k = t !! k.
Lemma quiet_refl t : quiet t t.
Proof using Type. done. Qed.
Lemma quiet_trans t t1 t2 : quiet t t1 → quiet t1 t2 → quiet t t2.
Proof using Type. intros Hq1 Hq2 k Hk. by rewrite Hq2, Hq1. Qed.
Lemma touched_quiet t t' : touched self name t t' → quiet t t'.
Proof using Type. intros Ht k Hk. apply Ht; intros ->; apply Hk; unfold looked; auto. Qed.
Lemma lock_quiet t n : quiet t (<[lock_at self name := n]> t).
Proof using Type. intros k Hk. rewrite lookup_insert_ne; [done|]. intros <-. apply Hk. unfold looked. auto. Qed.

Lemma lock_safe (I : Tree → Prop) t :
  (∀ t', quiet t t' → I t') → safe I (acquire_lock (Json := Json) name (path_join (dir_text self name) "lock")) t (λ _ t', quiet t t').
Proof using H0 Hdata Hname.
  intros HI. pose proof (quiet_refl t). apply acquire_lock_safe; [by apply HI|done|].
  rewrite resolve_in by (done || by split_and!). intros _ _. pose proof (lock_quiet t lock_node). split; [by apply HI|done].
Qed.
Lemma read_reconciled_safe (I : Tree → Prop) at_ t :
  (∀ t', quiet t t' → I t') →
  safe I (read_reconciled_machine_state_with self name at_ None) t (λ _ t', quiet t t').
Proof using H0 Hdata Hname.
  intros HI. pose proof (quiet_refl t) as Ht. unfold read_reconciled_machine_state_with.
  apply safe_bind, safe_lift. unfold machine_state. rewrite in_machine_Ok by done.
  apply safe_bind, safe_lift. destruct (machine_runtime_dir _ _ _) as [run|]; [|done].
  apply safe_bind, safe_lift. destruct (machine_api_socket _ _ _) as [api|]; [|done].
  apply safe_bind. eapply safe_mono; [apply read_state_safe|]. intros [state|e] t' [-> _]; [|done].
  apply safe_bind. eapply safe_mono; [apply observe_safe|]. intros [observation|e] t' ->; [|done].
  destruct (State.rewrite _); [|by apply safe_ret].
  apply safe_bind. eapply (safe_mono _ _ (λ _ t', quiet t t')).
  { apply safe_bind, safe_lift. unfold machine_lock. rewrite in_machine_Ok by done.
    assert (Hgrant : ∀ t', quiet t t' → safe I (granted ← (λ w, let '(r, c) := acquire_with_timing (Json := Json) (Sink := list (Event Json)) (Ok ()) flock name
        (path_join (dir_text self name) "lock") PRODUCTION lock_fuel {| time := time (timed w); tick := tick (timed w); sink := [] |} in
        (r, {| tree := tree w; calls := calls w; past := past w;
               timed := {| time := time c; tick := tick c; sink := sink (timed w) |} |}));
      match granted with Some lock => mret lock | None => M_fail (busy name) end) t' (λ _ t', quiet t t')).
    { intros t' Hq. apply safe_bind. intros w <- HIw. destruct (acquire_with_timing _ _ _ _ _ _ _) as [[[lock|]|e] c]; cbn; (split; [done|]);
        [by apply safe_ret|by apply safe_fail|done]. }
    apply safe_bind, safe_map_err, safe_open_create; rewrite ?resolve_in by (done || by split_and!).
    - intros _ _. pose proof (lock_quiet t lock_node) as Hq. split; [by apply HI|]. by apply Hgrant.
    - intros n data _ _. split; [by apply HI|]. by apply Hgrant.
    - done. }
  intros [lock|e] t1 Ht1; [|done]. eapply safe_mono; [apply settle_locked_safe; [done..|]|].
  - intros t' Hq. apply HI. by eapply quiet_trans, touched_quiet.
  - intros ? t' Hq. by eapply quiet_trans, touched_quiet.
Qed.
Lemma ensure_owned_regular_file_safe (I : Tree → Prop) path label k t :
  safe I (ensure_owned_regular_file path label k) t (λ _ t', t' = t).
Proof using H0.
  apply safe_bind, safe_map_err, safe_metadata; [|done]. intros n _. cbn [map_err]. destruct (Tree.is_file n); [by apply safe_ret|by apply safe_fail].
Qed.
Lemma now_text_safe (I : Tree → Prop) t : safe I now_text t (λ r t', t' = t).
Proof using Type. by intros w <- HI. Qed.
Lemma read_live_state_safe (I : Tree → Prop) t :
  (∀ t', quiet t t' → I t') → safe I (read_live_state self name) t (λ _ t', quiet t t').
Proof using H0 Hdata Hname.
  intros HI. unfold read_live_state. apply safe_bind, safe_lift. unfold machine_state. rewrite in_machine_Ok by done.
  apply safe_bind. eapply safe_mono; [apply ensure_owned_regular_file_safe|]. intros [[]|e] t' ->; [|done].
  apply safe_bind. eapply safe_mono; [apply now_text_safe|]. intros [at_|e] t' ->; [|done]. by apply read_reconciled_safe.
Qed.
Lemma open_spec_write_safe (I : Tree → Prop) t :
  (∀ t', quiet t t' → I t') → safe I (open_spec_write self name (dir_text self name)) t (λ _ t', quiet t t').
Proof using All.
  intros HI. unfold open_spec_write. apply safe_bind. eapply safe_mono; [by apply read_live_state_safe|].
  intros [preliminary|e] t1 Ht1; [|done]. case_bool_decide; [by apply safe_ret|].
  assert (Hnext : ∀ t', quiet t1 t' → quiet t t') by (intros t' Ht'; by eapply quiet_trans).
  apply safe_bind, safe_lift. unfold machine_lock. rewrite in_machine_Ok by done.
  apply safe_bind. eapply safe_mono; [apply lock_safe; eauto|]. intros [lock|e] t2 Ht2; [|by apply Hnext].
  apply Hnext in Ht2. clear Hnext. assert (Hnext : ∀ t', quiet t2 t' → quiet t t') by (intros t' Ht'; by eapply quiet_trans).
  apply safe_bind. eapply safe_mono; [by apply ensure_machine_exists_safe|]. intros [[]|e] t' [-> _]; [|done].
  apply safe_bind. eapply safe_mono; [apply read_live_state_locked_safe; [done..|]|].
  - intros t' Ht'. by apply HI, Hnext, touched_quiet.
  - intros [observed|e] t' Ht'%touched_quiet%Hnext; [|done]. case_bool_decide; [by apply safe_fail|by apply safe_ret].
Qed.

(** *** Writing *)

Context (t0 : Tree).
Definition disk_at : Path := machine ++ ["disk.qcow2"].
(** No smaller than the disk that is there. *)
Definition disk_fits (spec : MachineSpec.MachineSpec Json) t : Prop :=
  t !! disk_at = None ∨ ∃ i program force size, qemu_info i program (path_join (dir_text self name) "disk.qcow2") force = Ok size ∧ size <= MachineSpec.disk spec.
(** The program is a release that carries the [qemu-img] it runs, which it publishes first. *)
Definition carries : Prop := qemu_img self = "qemu-img" ∧ is_Some (embedded_helper QemuImg).
Definition published_helper t t' : Prop := if decide carries then helped (paths self) t t' else t' = t.
(** Only the files a look may change, the specification, the editor's file and the helper programs'
    directory of a release differ. *)
Definition spec_file (k : Path) : Prop :=
  k = spec_at self name ∨ k = machine ++ ["firestone.toml.tmp"] ∨ k = machine ++ ["firestone.toml.edit"] ∨
  k = machine ++ ["firestone.toml.edit.tmp"].
Definition others_kept t : Prop := ∀ k, ¬ looked k → ¬ spec_file k → ¬ (carries ∧ helper_file (paths self) t0 k) → t !! k = t0 !! k.
Definition spec_step (accepted : list Z → Prop) t : Prop :=
  others_kept t ∧ (t !! spec_at self name = t0 !! spec_at self name ∨
    ∃ bytes, t !! spec_at self name = Some (written_node bytes (Some MACHINE_SPEC_FILE_MODE)) ∧ accepted bytes).
Definition rewritten (accepted : list Z → Prop) t : Prop :=
  others_kept t ∧ ∃ bytes, t !! spec_at self name = Some (written_node bytes (Some MACHINE_SPEC_FILE_MODE)) ∧ accepted bytes.
Definition unwritten t : Prop := others_kept t ∧ t !! spec_at self name = t0 !! spec_at self name.

Lemma spec_not_looked : ¬ looked (spec_at self name).
Proof using Type. intros [E|[E|E]]; apply app_inj_tail in E as [_ E]; done. Qed.
Lemma disk_not_touched : ¬ looked disk_at ∧ ¬ spec_file disk_at.
Proof using Type. split; intros E; repeat destruct E as [E|E]; apply app_inj_tail in E as [_ E]; done. Qed.
Lemma machine_not_helper t x : ¬ helper_file (paths self) t (machine ++ [x]).
Proof using Hdata.
  assert (Hs : separate (Tree.resolve (data_dir (paths self)) ++ ["machines"]) (Tree.resolve (data_dir (paths self)) ++ ["bin"]))
    by by apply separate_siblings.
  unfold helper_file, bin_at, bin_dir, machine, machines_dir. rewrite !resolve_join by (done || by split_and!).
  intros [[r E]|(_ & r & E)]; rewrite <- !app_assoc in E.
  - rewrite !app_assoc, <- (app_assoc _ [name]) in E. by apply (separate_strip _ _ _ _ Hs) in E.
  - apply app_inv_head in E. done.
Qed.
Lemma unwritten_start : unwritten t0.
Proof using Type. done. Qed.
Lemma unwritten_quiet t t' : unwritten t → quiet t t' → unwritten t'.
Proof using Type.
  intros [Ho Hs] Hq. split; [|by rewrite Hq by apply spec_not_looked]. intros k Hk Hsp Hh. rewrite Hq by done. by apply Ho.
Qed.
Lemma published_refl t : published_helper t t.
Proof using Type. unfold published_helper. case_decide; [apply helped_refl|done]. Qed.
Lemma published_same t t' x : published_helper t t' → t' !! (machine ++ [x]) = t !! (machine ++ [x]).
Proof using Hdata.
  unfold published_helper. case_decide; [|by intros ->]. intros Hq. by destruct (Hq (machine ++ [x])) as [|[]%machine_not_helper].
Qed.
Lemma unwritten_published t t' : unwritten t → published_helper t t' → unwritten t'.
Proof using Hdata.
  intros [Ho Hs] Hq. split; [|by unfold spec_at in *; rewrite (published_same t t')]. unfold published_helper in Hq. case_decide as Hc; [|by subst].
  intros k Hk Hsp Hh. specialize (Ho k Hk Hsp Hh).
  destruct (Hq k) as [->|Hf]; [done|]. destruct Hh. split; [done|]. destruct Hf as [|[Hn ?]]; [by left|right; split; [congruence|done]].
Qed.
Lemma unwritten_step accepted t : unwritten t → spec_step accepted t.
Proof using Type. intros [Ho Hs]. split; [done|by left]. Qed.
Lemma rewritten_step accepted t : rewritten accepted t → spec_step accepted t.
Proof using Type. intros [Ho Hs]. split; [done|by right]. Qed.
Lemma others_set t k u : spec_file k → others_kept t → others_kept (set_node k u t).
Proof using Type. intros Hk Ho j Hl Hs Hh. unfold set_node. rewrite lookup_partial_alter_ne by congruence. by apply Ho. Qed.
Lemma unwritten_set t k u : spec_file k → k ≠ spec_at self name → unwritten t → unwritten (set_node k u t).
Proof using Type. intros Hk Hne [Ho Hs]. split; [by apply others_set|]. unfold set_node. by rewrite lookup_partial_alter_ne. Qed.
Lemma rewritten_set accepted t k u : spec_file k → k ≠ spec_at self name → rewritten accepted t → rewritten accepted (set_node k u t).
Proof using Type. intros Hk Hne [Ho Hs]. split; [by apply others_set|]. unfold set_node. by rewrite lookup_partial_alter_ne. Qed.
Lemma publish_spec_safe (accepted : list Z → Prop) bytes t :
  unwritten t → accepted bytes →
  safe (spec_step accepted) (atomic_write_with_mode (path_join (dir_text self name) "firestone.toml") bytes MACHINE_SPEC_FILE_MODE) t
    (λ r t', match r with Ok _ => rewritten accepted t' | Err _ => spec_step accepted t' end).
Proof using Hdata Hname.
  intros Hu Ha. assert (Htmp : ∀ u, unwritten (set_node (machine ++ ["firestone.toml.tmp"]) u t)).
  { intros u. apply unwritten_set; [by right; left| |done]. intros E. by apply app_inj_tail in E as [_ E]. }
  assert (Hw : rewritten accepted (<[spec_at self name := written_node bytes (Some MACHINE_SPEC_FILE_MODE)]> (delete (machine ++ ["firestone.toml.tmp"]) t))).
  { destruct (Htmp None) as [Ho _]. split; [|exists bytes; by rewrite lookup_insert_eq].
    apply (others_set _ (spec_at self name) (Some (written_node bytes (Some MACHINE_SPEC_FILE_MODE)))) in Ho; [done|by left]. }
  unfold atomic_write_with_mode.
  apply (safe_write_in (spec_step accepted) (dir_text self name) "firestone.toml" (Some MACHINE_SPEC_FILE_MODE) bytes); rewrite ?resolve_dir_text by done;
    [by apply dir_text_absolute|by split_and!|done|..].
  - intros u. pose proof (unwritten_step accepted _ (Htmp u)). split; [done|]. by intros e.
  - by apply rewritten_step.
  - intros [[]|e]; [done|by apply rewritten_step].
Qed.

(** *** The actions *)

Context `{!PayloadJson Json (SpecResult (Json := Json))}.
Lemma quiet_same t k t' : quiet t t' → ¬ looked k → t' !! k = t !! k.
Proof using Type. intros Hq. apply Hq. Qed.
Lemma qemu_img_program_safe (I : Tree → Prop) t :
  (∀ t', published_helper t t' → I t') → safe I (qemu_img_program self) t (λ _ t', published_helper t t').
Proof using H0 Hdata.
  intros HI. pose proof (published_refl t) as Hr. unfold qemu_img_program. destruct (String.eqb_spec (qemu_img self) "qemu-img") as [Hp|]; [|by apply safe_ret].
  destruct (embedded_helper QemuImg) as [helper|] eqn:He.
  - assert (carries) as Hc by by split; [|rewrite He].
    apply safe_bind. eapply safe_mono; [apply (materialize_embedded_helper_safe uni_debug (paths self) Hdata I t)|].
    + intros t' Ht'. apply HI. unfold published_helper. by rewrite decide_True.
    + apply helped_refl.
    + intros [published|e] t' (Ht' & _); [apply safe_ret|]; unfold published_helper; by rewrite decide_True.
  - unfold materialize_embedded_helper. rewrite He. by apply safe_bind, safe_ret, safe_ret.
Qed.
Lemma refuse_disk_shrink_safe (I : Tree → Prop) spec running t :
  (∀ t', published_helper t t' → I t') →
  safe I (refuse_disk_shrink self name spec running) t (λ r t', published_helper t t' ∧ (r = Ok () → disk_fits spec t)).
Proof using All.
  intros HI. pose proof (published_refl t). unfold refuse_disk_shrink, machine_disk. apply safe_bind, safe_lift. rewrite in_machine_Ok by done.
  pose proof (resolve_in self name Hdata Hname "disk.qcow2" ltac:(by split_and!)) as Hr. fold disk_at in Hr.
  apply safe_bind, safe_map_err. eapply (safe_mono _ _ (λ r t', t' = t ∧ ∀ b, r = Ok b → b = bool_decide (is_Some (t !! disk_at)))).
  { intros w <- HIw. unfold exists_at, try_exists. cbn. split; [done|]. split; [done|]. intros b. destruct (fault _); [done|]. rewrite Hr. by intros [= <-]. }
  intros [b|e] t' [-> Hb]; cbn [map_err]; [|done]. rewrite (Hb b eq_refl). case_bool_decide as Hd; cbn [negb].
  2: { apply safe_ret. split; [done|]. intros _. left. by apply eq_None_not_Some. }
  apply safe_bind. eapply safe_mono; [by apply qemu_img_program_safe|]. intros [program|e] t1 Ht1; [|done].
  assert (Hdisk : t1 !! disk_at = t !! disk_at) by by apply published_same.
  apply safe_bind, safe_bind, safe_attempt, safe_metadata; rewrite ?Hr, ?Hdisk.
  - intros n Hn. apply safe_bind. intros w <- HIw. unfold measure. cbn. split; [done|].
    destruct (qemu_info _ _ _ _) as [size|e] eqn:Hq; [|done]. apply safe_ret.
    destruct (MachineSpec.disk spec <? size) eqn:Hlt; [by apply safe_fail|apply safe_ret]. split; [done|]. intros _. right.
    eexists _, _, _, size. split; [exact Hq|]. by apply Z.ltb_ge in Hlt.
  - intros e He. destruct (not_found e) eqn:E; [|by apply safe_fail]. unfold not_found in E. bool_props. apply safe_ret, safe_ret.
    split; [done|]. intros _. left. by apply He.
Qed.
Lemma read_spec_text_safe (I : Tree → Prop) what t :
  safe I (read_spec_text self name what) t (λ r t', t' = t ∧ ∀ text, r = Ok text →
    ∃ n bytes, t !! spec_at self name = Some n ∧ node_kind n = Regular bytes ∧ from_utf8 bytes = Some text).
Proof using H0 Hdata Hname.
  unfold read_spec_text, machine_spec. apply safe_bind, safe_lift. rewrite in_machine_Ok by done.
  apply safe_bind. eapply safe_mono; [apply read_file_safe|]. intros [bytes|e] t' [-> Hr]; [|done].
  destruct (Hr _ eq_refl) as (n & Hn & Hb). rewrite resolve_in in Hn by (done || by split_and!).
  apply safe_lift. unfold utf8_text. destruct (from_utf8 bytes) as [text|] eqn:Ht; [|done]. split; [done|]. intros ? [= <-]. by exists n, bytes.
Qed.
Lemma previous_spec_safe (I : Tree → Prop) state t :
  safe I (previous_spec_when_running self name state) t (λ _ t', t' = t).
Proof using H0 Hdata Hname.
  unfold previous_spec_when_running. case_bool_decide; [|by apply safe_ret]. unfold load_machine_spec.
  apply safe_bind, safe_bind, safe_lift. destruct (machine_dir _ _ _) as [d|]; [|done].
  apply safe_bind. eapply safe_mono; [apply read_spec_text_safe|]. intros [text|e] t' [-> _]; [|done].
  apply safe_bind, safe_lift. destruct (load_spec_text_with_pinned _ _ _ _ _); [|done]. by apply safe_ret, safe_ret.
Qed.
Lemma warn_safe (I : Tree → Prop) message t : safe I (warn (Json := Json) message) t (λ _ t', t' = t).
Proof using Type. by apply safe_on_clock. Qed.
Lemma if_warn_safe (I : Tree → Prop) (b : bool) message t : safe I (if b then warn (Json := Json) message else mret ()) t (λ _ t', t' = t).
Proof using Type. destruct b; [apply warn_safe|by apply safe_ret]. Qed.
(** What a document says was checked: it is the rendering of a specification that [P] holds of. *)
Definition renders (P : MachineSpec.MachineSpec Json → Prop) (bytes : list Z) : Prop :=
  ∃ spec text, bytes = bytes_of text ∧ render_spec spec = Ok text ∧ P spec ∧ disk_fits spec t0.
Lemma write_spec_safe (P : MachineSpec.MachineSpec Json → Prop) spec warnings observed running t :
  unwritten t → P spec →
  safe (spec_step (renders P)) (write_spec self name spec warnings observed running) t
    (λ r t', spec_step (renders P) t' ∧ (r = Ok () → rewritten (renders P) t')).
Proof using All.
  intros Hu HP. pose proof (unwritten_step (renders P) t Hu) as Hst. unfold write_spec.
  apply safe_bind. eapply safe_mono; [apply refuse_disk_shrink_safe; intros t' Ht'; by eapply unwritten_step, unwritten_published|].
  intros r t1 [Ht1 Hfit]. assert (Hfit0 : r = Ok () → disk_fits spec t0).
  { intros E. destruct (Hfit E) as [En|]; [|by right]. left. destruct Hu as [Ho _].
    rewrite <- Ho; [done|apply disk_not_touched..|by intros [_ []%machine_not_helper]]. }
  assert (Hu1 : unwritten t1) by by eapply unwritten_published. clear t Hu Hst Ht1 Hfit.
  pose proof (unwritten_step (renders P) t1 Hu1) as Hst. destruct r as [[]|e]; [specialize (Hfit0 eq_refl)|done].
  apply safe_bind. eapply safe_mono; [apply previous_spec_safe|]. intros [previous|e] t' ->; [|done].
  apply safe_bind, safe_lift. destruct (render_spec spec) as [text|e] eqn:Hr; [|done].
  apply safe_bind, safe_lift. unfold machine_spec. rewrite in_machine_Ok by done.
  apply safe_bind. eapply safe_mono; [apply (publish_spec_safe (renders P) (bytes_of text)); [done|by exists spec, text]|].
  intros [[]|e] t2 Ht2; [|done]. pose proof (rewritten_step _ _ Ht2) as Hst2.
  apply safe_bind. eapply safe_mono; [apply if_warn_safe|]. intros [[]|e] t' ->; [|done].
  apply safe_bind. eapply safe_mono; [apply if_warn_safe|]. intros [[]|e] t' ->; [|done].
  apply safe_bind. eapply (safe_mono _ _ (λ _ t', t' = t2)).
  { unfold emit_credential_change_warning. destruct previous; [|by apply safe_ret]. case_bool_decide; [by apply safe_ret|apply warn_safe]. }
  intros [[]|e] t' ->; [|done].
  apply safe_bind. eapply safe_mono; [apply emit_spec_warnings_safe|]. intros [[]|e] t' ->; [|done].
  apply safe_bind, safe_lift. destruct (map_err _ _); [|done]. by apply safe_on_clock.
Qed.
Lemma opened_safe {A} accepted (Q : result FirestoneError A → Tree → Prop)
    (k : string → option MachineLock * LiveMachineState * bool → M (World Sink) FirestoneError A) :
  (∀ x t, unwritten t → safe (spec_step accepted) (k (dir_text self name) x) t Q) → (∀ e t, unwritten t → Q (Err e) t) →
  safe (spec_step accepted) (validate_machine_storage self;;
    machine_dir ← M_lift (machine_dir uni_debug (paths self) name);
    ensure_machine_exists self name machine_dir;;
    x ← open_spec_write self name machine_dir;
    k machine_dir x) t0 Q.
Proof using All.
  intros Hk He. pose proof unwritten_start as Hu.
  apply safe_bind. eapply safe_mono; [by apply validate_machine_storage_safe|]. intros [[]|e] t' ->; [|by apply He].
  apply safe_bind, safe_lift. rewrite machine_dir_Ok by done. fold (dir_text self name).
  apply safe_bind. eapply safe_mono; [by apply ensure_machine_exists_safe|]. intros [[]|e] t' [-> _]; [|by apply He].
  apply safe_bind. eapply safe_mono; [apply open_spec_write_safe; intros t' Ht'; by eapply unwritten_step, unwritten_quiet|].
  intros [x|e] t' Ht'; [apply Hk|apply He]; by eapply unwritten_quiet.
Qed.
(** The specifications a call to [set_spec] or [patch_spec] may write. *)
Definition may_set (spec spec' : MachineSpec.MachineSpec Json) : Prop :=
  ∃ pinned warnings, validate_action_spec self pinned spec = (Ok warnings, spec').
Definition may_patch (patch : MachineSpecPatch.MachineSpecPatch Json) (spec' : MachineSpec.MachineSpec Json) : Prop :=
  ∃ n bytes text pinned loaded, t0 !! spec_at self name = Some n ∧ node_kind n = Regular bytes ∧ from_utf8 bytes = Some text ∧
    load_spec_text_with_patch self text (dir_text self name) (source_base self) pinned patch = Ok loaded ∧ loaded_spec loaded = spec'.
Lemma set_spec_safe spec :
  safe (spec_step (renders (may_set spec))) (set_spec self name spec) t0
    (λ r t', spec_step (renders (may_set spec)) t' ∧ (r = Ok () → rewritten (renders (may_set spec)) t')).
Proof using All.
  apply (opened_safe _ _ (λ _ _, _)); [|intros e t Hu; split; [by apply unwritten_step|done]]. intros [[lock observed] running] t Hu.
  apply safe_bind, safe_lift. destruct (validate_action_spec _ _ _) as [[warnings|e] spec'] eqn:Hv; [|split; [by apply unwritten_step|done]].
  apply write_spec_safe; [done|]. by eexists _, _.
Qed.
Lemma patch_spec_safe patch :
  safe (spec_step (renders (may_patch patch))) (patch_spec self name patch) t0
    (λ r t', spec_step (renders (may_patch patch)) t' ∧ (r = Ok () → rewritten (renders (may_patch patch)) t')).
Proof using All.
  pose proof (λ t, unwritten_step (renders (may_patch patch)) t) as Hst.
  apply opened_safe; [|intros e t Hu; split; [by apply Hst|done]]. intros [[lock observed] running] t Hu.
  apply safe_bind. eapply safe_mono; [apply read_spec_text_safe|]. intros [text|e] t' [-> Htext]; [|split; [by apply Hst|done]].
  destruct (Htext _ eq_refl) as (n & bytes & Hn & Hb & Hutf). destruct Hu as [Ho Hs]. rewrite Hs in Hn.
  apply safe_bind, safe_lift. destruct (load_spec_text_with_patch _ _ _ _ _ _) as [loaded|e] eqn:Hload; [|split; [by apply Hst|done]].
  apply write_spec_safe; [done|]. by exists n, bytes, text, (pinned_image_reference (state observed)), loaded.
Qed.

(** What an editor's document says was checked. *)
Definition loads (bytes : list Z) : Prop :=
  ∃ text pinned loaded, from_utf8 bytes = Some text ∧
    load_spec_text_with_pinned self text (dir_text self name) (dir_text self name) pinned = Ok loaded.
Definition edit_at : Path := machine ++ ["firestone.toml.edit"].
Lemma edit_is_spec_file : spec_file edit_at ∧ edit_at ≠ spec_at self name.
Proof using Type. split; [by right; right; left|]. intros E. by apply app_inj_tail in E as [_ E]. Qed.
Lemma step_set accepted t u : spec_step accepted t → spec_step accepted (set_node edit_at u t).
Proof using Type.
  destruct edit_is_spec_file. intros [Ho [Hs|Hs]].
  - apply unwritten_step, unwritten_set; [done..|by split].
  - apply rewritten_step, rewritten_set; [done..|by split].
Qed.
Lemma candidate_resolved : Tree.resolve (path_join (dir_text self name) "firestone.toml.edit") = edit_at.
Proof using Hdata Hname. by apply resolve_in; [..|split_and!]. Qed.
Lemma edit_loop_safe sessions pinned t :
  unwritten t →
  safe (spec_step loads) (edit_sessions self sessions name (dir_text self name) (path_join (dir_text self name) "firestone.toml.edit")
      (path_join (dir_text self name) "firestone.toml") pinned) t
    (λ r t', match r with Ok (Some _) => rewritten loads t' | _ => spec_step loads t' end).
Proof using All.
  destruct edit_is_spec_file as [Hsf Hne]. revert t. induction sessions as [|s sessions IH]; intros t Hu; cbn [edit_sessions];
    [by apply safe_ret, unwritten_step|].
  apply safe_bind. eapply (safe_mono _ _ (λ _ t', unwritten t')).
  { intros w <- HI. assert (unwritten (set_node (Tree.resolve (path_join (dir_text self name) "firestone.toml.edit")) (leaves s) (tree w))) as Hu'
      by (rewrite candidate_resolved; by apply unwritten_set).
    cbn. split; [|done]. apply Forall_app. split; [done|]. constructor; [by apply unwritten_step|done]. }
  intros [[]|e] t1 Hu1; [|by apply unwritten_step]. apply safe_bind. eapply safe_mono; [apply read_file_safe|].
  intros [bytes|e] t' [-> _]; [|by apply unwritten_step].
  apply safe_bind, safe_lift. destruct (from_utf8 bytes) as [text|] eqn:Htext; [|by apply unwritten_step]. cbn [ok_or].
  destruct (load_spec_text_with_pinned _ _ _ _ _) as [loaded|error] eqn:Hload.
  - apply safe_bind. eapply safe_mono; [by apply publish_spec_safe; [|exists text, pinned, loaded]|].
    intros [[]|e] t2 Ht2; [|done]. by apply safe_ret.
  - apply safe_bind, safe_on_clock. intros [[]|e]; [by apply IH|by apply unwritten_step].
Qed.
Lemma edit_safe editor sessions :
  safe (spec_step loads) (edit self editor sessions name) t0 (λ r t', spec_step loads t' ∧ (r = Ok (Some ()) → rewritten loads t')).
Proof using All.
  destruct edit_is_spec_file as [Hsf Hne]. pose proof unwritten_start as Hu.
  assert (Hbad : ∀ (r : result FirestoneError (option ())) t, r ≠ Ok (Some ()) → spec_step loads t → spec_step loads t ∧ (r = Ok (Some ()) → rewritten loads t)) by (by intros).
  unfold edit. apply safe_bind. eapply safe_mono; [by apply validate_machine_storage_safe|]. intros [[]|e] t' ->; [|by apply Hbad, unwritten_step].
  apply safe_bind, safe_lift. rewrite machine_dir_Ok by done. fold (dir_text self name).
  apply safe_bind, safe_lift. unfold machine_spec. rewrite in_machine_Ok by done.
  apply safe_bind. eapply safe_mono; [by apply ensure_machine_exists_safe|]. intros [[]|e] t' [-> _]; [|by apply Hbad, unwritten_step].
  apply safe_bind. eapply safe_mono; [apply open_spec_write_safe; intros t' Ht'; by eapply unwritten_step, unwritten_quiet|].
  intros r t Ht. assert (Hut : unwritten t) by (by eapply unwritten_quiet). clear Ht. destruct r as [[[lock observed] running]|e]; [|by apply Hbad, unwritten_step].
  apply safe_bind. eapply safe_mono; [apply read_file_safe|]. intros [original|e] t' [-> _]; [|by apply Hbad, unwritten_step].
  apply safe_bind. eapply (safe_mono _ _ (λ _ t', unwritten t')).
  { unfold atomic_write_with_mode.
    assert (Htmp : ∀ u, unwritten (set_node (machine ++ ["firestone.toml.edit.tmp"]) u t)).
    { intros u. apply unwritten_set; [by right; right; right| |done]. intros E. by apply app_inj_tail in E as [_ E]. }
    assert (Hw : unwritten (<[edit_at := written_node original (Some MACHINE_SPEC_FILE_MODE)]> (delete (machine ++ ["firestone.toml.edit.tmp"]) t)))
      by (apply (unwritten_set _ edit_at (Some _)); [done..|apply (Htmp None)]).
    apply (safe_write_in (spec_step loads) (dir_text self name) "firestone.toml.edit" (Some MACHINE_SPEC_FILE_MODE) original); rewrite ?resolve_dir_text by done;
      [by apply dir_text_absolute|by split_and!|done|..].
    - intros u. split; [by apply unwritten_step, Htmp|]. intros e. apply Htmp.
    - by apply unwritten_step.
    - done. }
  clear t Hut. intros [[]|e] t Hut; [|by apply Hbad, unwritten_step].
  apply safe_bind, safe_caught.
  eapply (safe_mono _ _ (λ r t', match r with Ok (Some _) => rewritten loads t' | _ => spec_step loads t' end)).
  { unfold edit_candidate. apply safe_bind, safe_lift. destruct editor as [[]|e]; [by apply edit_loop_safe|by apply unwritten_step]. }
  clear t Hut. intros edited t Ht.
  assert (Hclean : ∀ P : Tree → Prop, P t → P (delete edit_at t) → (∀ t, P t → spec_step loads t) →
    safe (spec_step loads) (caught (remove_candidate (path_join (dir_text self name) "firestone.toml.edit"))) t (λ r t', is_ok r = true ∧ P t')).
  { intros P HP HP' Hall. apply safe_caught, remove_candidate_safe; rewrite ?candidate_resolved; auto. }
  destruct edited as [[result|]|e].
  - apply safe_bind. eapply safe_mono; [apply (Hclean (rewritten loads)); [done| |apply rewritten_step]|].
    { apply (rewritten_set loads t edit_at None Hsf Hne Ht). }
    intros [cleanup|e] t1 [? Ht1]; [|done]. pose proof (rewritten_step _ _ Ht1) as Hs1. destruct cleanup as [[]|e]; [|by apply safe_fail, Hbad].
    apply safe_bind. eapply safe_mono; [apply if_warn_safe|]. intros [[]|e] t' ->; [|by apply Hbad].
    apply safe_bind. eapply safe_mono; [apply if_warn_safe|]. intros [[]|e] t' ->; [|by apply Hbad].
    apply safe_bind. eapply safe_mono; [apply emit_spec_warnings_safe|]. intros [[]|e] t' ->; [|by apply Hbad].
    apply safe_bind, safe_bind, safe_lift. destruct (map_err _ _); [|by apply Hbad]. apply safe_on_clock. intros [[]|e]; [by apply safe_ret|by apply Hbad].
  - by apply safe_ret, Hbad.
  - apply safe_bind. eapply safe_mono; [apply (Hclean (spec_step loads)); [done| |done]|].
    { apply (step_set loads t None Ht). }
    intros [[[]|?]|?] t1 [? Ht1]; [by apply safe_fail, Hbad..|done].
Qed.
End machine.

Section writing.
Context {Sink Json : Type} `{RealFaults} `{LiveHost} `{ActionHost} `{Release} `{StateJson} `{Schedule} `{EventSink Json Sink} `{SpecText Json}.
Context `{!PayloadJson Json (SpecResult (Json := Json))}.

(** A run that started in [t0] kept to [spec_step], and wrote the specification if it succeeded. *)
Definition writes_whole {A} (self : LocalDispatcher Json) name (t0 : Tree) (accepted : list Z → Prop) (ok : A) (run : result FirestoneError A * World Sink) : Prop :=
  Forall (spec_step self name t0 accepted) (past run.2 ++ [tree run.2]) ∧ (run.1 = Ok ok → rewritten self name t0 accepted (tree run.2)).
Lemma safe_writes {A} (self : LocalDispatcher Json) name (accepted : list Z → Prop) (ok : A) (m : M (World Sink) FirestoneError A) (w : World Sink) :
  past w = [] →
  safe (spec_step self name (tree w) accepted) m (tree w)
    (λ r t', spec_step self name (tree w) accepted t' ∧ (r = Ok ok → rewritten self name (tree w) accepted t')) →
  writes_whole self name (tree w) accepted ok (m w).
Proof using Type.
  intros Hp Hs. specialize (Hs w eq_refl). rewrite Hp in Hs. destruct (Hs (Forall_nil_2 _)) as (Hpast & Hst & Hok).
  split; [|done]. apply Forall_app. split; [done|]. by constructor.
Qed.

(** C6: a specification is written whole or not at all, whatever fails and wherever a run stops:
    firestone.toml is the old file or, at mode 0600, all of a new one, which for [set_spec] and
    [patch_spec] is the rendering of a specification that passed validation (of the one given, or of the
    patch on top of the file that was there) and does not shrink the disk, and for [edit] is a
    document that loads; when the action succeeds it is the new one; and no file changes but the
    specification, the editor's copy, a stale state file, a missing lock, and in a release that carries
    the [qemu-img] it runs the helper programs' directory [data/bin], where it is published before the
    disk is measured. *)
Theorem spec_write_whole (self : LocalDispatcher Json) name (w : World Sink) :
  is_absolute (data_dir (paths self)) = true → single_component name = true → past w = [] →
  (∀ spec, writes_whole self name (tree w) (renders self name (tree w) (may_set self spec)) () (set_spec self name spec w)) ∧
  (∀ patch, writes_whole self name (tree w) (renders self name (tree w) (may_patch self name (tree w) patch)) () (patch_spec self name patch w)) ∧
  (∀ editor sessions, writes_whole self name (tree w) (loads self name) (Some ()) (edit self editor sessions name w)).
Proof using All.
  intros Hd Hn Hp. split_and!; intros; apply safe_writes; [done|..].
  - by apply set_spec_safe.
  - done.
  - by apply patch_spec_safe.
  - done.
  - by apply edit_safe.
Qed.
End writing.

#[local] Instance demo_actions : ActionHost := {| qemu_info _ _ _ _ := Ok 0; now_second _ := 0; parse_second _ := None |}.
#[local] Existing Instances demo_specs demo_json demo_live demo_schedule.
(** A release that carries a [qemu-img], whose digest is the number of its bytes. *)
#[local] Instance demo_release : Release := {|
  BUILD_EMBEDDED_CLOUD_HYPERVISOR := None; BUILD_EMBEDDED_PASST := None;
  BUILD_EMBEDDED_QEMU_IMG := Some {| helper_kind := QemuImg; version := "10"; install_name := "qemu-img-10"; sha256 := "2"; helper_bytes := [127; 69] |};
  BUILD_EMBEDDED_FIRESTONE_INIT := None; sha256_bytes l := dec (Z.of_nat (length l));
  temp_letters _ := "aB3dE9"; temp_letters_plain _ := eq_refl |}.
#[local] Instance demo_result : PayloadJson bool (SpecResult (Json := bool)) := {| to_value _ := Ok true |}.
(** A machine that has a disk, in a data directory without [bin]. *)
Definition demo_disk : World (list (Event bool)) :=
  {| tree := <[resolve "/home/me/data/machines/web/disk.qcow2" := file_node [0] 384]> demo_made; calls := 0; past := []; timed := timed demo_removal |}.
Lemma spec_write_whole_witness :
  let '(r, w') := set_spec demo_dispatcher "web" MachineSpec.default demo_disk in
  r = Ok () ∧ tree w' !! resolve "/home/me/data/bin/qemu-img-10" = Some (file_node [127; 69] 493) ∧
  rewritten demo_dispatcher "web" (tree demo_disk) (renders demo_dispatcher "web" (tree demo_disk) (may_set demo_dispatcher MachineSpec.default)) (tree w').
Proof.
  destruct (spec_write_whole demo_dispatcher "web" demo_disk eq_refl eq_refl eq_refl) as [H _]. specialize (H MachineSpec.default).
  assert (let '(r, w') := set_spec demo_dispatcher "web" MachineSpec.default demo_disk in
    r = Ok () ∧ tree w' !! resolve "/home/me/data/bin/qemu-img-10" = Some (file_node [127; 69] 493)) as Hr by (vm_compute; by split).
  destruct (set_spec _ _ _ _) as [r w']. destruct Hr as [-> Hb]. split; [reflexivity|]. split; [exact Hb|]. by apply H.
Defined.
