(* ===== verification/Overlay.v ===== *)
(** Merging OCI layers, pass one ([firestone-core/src/oci/layers.rs]): entry paths,
    the overlay whiteout rules, the repair plan of hard links, and the path an
    injected member is written under.  A [Vec<u8>] path is a [string].  The specification
    is the union of layers an overlay file system shows. *)
From S2P Require Import Prelude RustStr Errors BTree.
Open Scope Z_scope.

Definition MEDIA_TYPE_DOCKER_LAYER_GZIP := "application/vnd.docker.image.rootfs.diff.tar.gzip".
Definition MEDIA_TYPE_OCI_LAYER_GZIP := "application/vnd.oci.image.layer.v1.tar+gzip".
Definition MEDIA_TYPE_OCI_LAYER_ZSTD := "application/vnd.oci.image.layer.v1.tar+zstd".
Definition DEFAULT_MAX_UNCOMPRESSED_BYTES : Z := 8 * 1024 * 1024 * 1024.
Definition DEFAULT_MAX_ENTRIES : Z := 1000000.
Definition FIRESTONE_INIT_PATH := "sbin/firestone-init".
Definition FIRESTONE_OCI_MARKER_PATH := "etc/firestone-oci".
Definition METADATA_ENTRY_BYTES : Z := 4096.
Definition WHITEOUT_PREFIX := ".wh.".
Definition OPAQUE_MARKER := ".wh..wh..opq".
Definition USTAR_LINK_NAME_LIMIT : Z := 100.
Definition REPULL_HINT := "re-pull the image; the layer tar is malformed".
Definition MAX_INJECTION_LINK_HOPS : nat := 8.

Inductive LayerCompression : Set := Gzip.

Definition classify_layer_media_type (media_type : string) : result FirestoneError LayerCompression :=
  if String.eqb media_type MEDIA_TYPE_DOCKER_LAYER_GZIP
     || String.eqb media_type MEDIA_TYPE_OCI_LAYER_GZIP then Ok Gzip
  else if String.eqb media_type MEDIA_TYPE_OCI_LAYER_ZSTD then
    Err (with_hint (error_new Dependency ("unsupported OCI layer media type " +:+ media_type))
      "firestone reads gzip layers only; pull a gzip-compressed copy of the image")
  else
    Err (with_hint (error_new Dependency ("unsupported OCI layer media type " +:+ media_type))
      ("supported layer media types are " +:+ MEDIA_TYPE_DOCKER_LAYER_GZIP +:+ " and "
        +:+ MEDIA_TYPE_OCI_LAYER_GZIP)).

Record OciImageConfig : Set := {
  env : list string; entrypoint : list string; cmd : list string;
  working_dir : option string; user : option string }.

Record MergeLimits : Set := { max_uncompressed_bytes : Z; max_entries : Z }.
Definition default_limits : MergeLimits :=
  {| max_uncompressed_bytes := DEFAULT_MAX_UNCOMPRESSED_BYTES; max_entries := DEFAULT_MAX_ENTRIES |}.

(** [tar::EntryType], as far as the source tells its values apart. *)
Inductive EntryType : Set :=
  | TRegular | TContinuous | TDirectory | TSymlink | TLink
  | TGNULongName | TGNULongLink | TXHeader | TXGlobalHeader | TGNUSparse | TOther.
#[export] Instance EntryType_eq_dec : EqDecision EntryType.
Proof. solve_decision. Defined.
Definition is_file_type (t : EntryType) : bool :=
  bool_decide (t = TRegular) || bool_decide (t = TContinuous).

Inductive MergedKind : Set := Directory | Regular | Symlink | HardLink | Other.
#[export] Instance MergedKind_eq_dec : EqDecision MergedKind.
Proof. solve_decision. Defined.

Record MergedEntry : Set := {
  layer : nat; ordinal : Z; kind : MergedKind; link_target : option string;
  local_target : option (Z * Z); symlink_target : option string }.

Inductive EmitMode : Set :=
  | Relink (target : string)
  | Promote (ordinal size : Z).

(** The part of a tar member that pass one looks at. *)
Record Member (Header Extension : Type) : Type := {
  header : Header; extensions : list Extension;
  member_path : string; link : option string; entry_type : EntryType;
  data_size : Z; member_ordinal : Z }.
Arguments header {_ _}. Arguments extensions {_ _}. Arguments member_path {_ _}.
Arguments link {_ _}. Arguments entry_type {_ _}. Arguments data_size {_ _}.
Arguments member_ordinal {_ _}. Arguments Build_Member {_ _}.

Definition classify_entry (t : EntryType) : MergedKind :=
  match t with
  | TDirectory => Directory
  | TRegular | TContinuous => Regular
  | TSymlink => Symlink
  | TLink => HardLink
  | _ => Other
  end.

(** ** Errors *)

Definition layer_error (message hint : string) : FirestoneError :=
  with_hint (error_new Dependency message) hint.
Definition cap_error (message : string) : FirestoneError :=
  with_hint (error_new Dependency message) "raise the OCI merge limits or use a smaller image".

Section overlay.
(** [String::from_utf8_lossy], which only shapes messages here. *)
Context (lossy : string → string).

Definition traversal_error (raw label reason : string) : FirestoneError :=
  with_hint (error_new Dependency
    ("layer " +:+ label +:+ " holds the unsafe entry path `" +:+ lossy raw +:+ "`: " +:+ reason))
    "firestone refuses layer entries that could escape the image root".

(** ** Paths *)

Definition split_last_component (path : string) : string * string :=
  match rsplit_once "/" path with
  | Some (parent, name) => (parent, name)
  | None => ("", path)
  end.

Definition join_path (parent name : string) : string :=
  if is_empty parent then name else parent +:+ String "/" name.

Fixpoint push_components (raw label : string) (parts components : list string)
    : result FirestoneError (list string) :=
  match parts with
  | [] => Ok components
  | c :: parts =>
      if is_empty c || String.eqb c "." then push_components raw label parts components
      else if String.eqb c ".." then
        Err (traversal_error raw label "the path contains a `..` component")
      else push_components raw label parts (components ++ [c])
  end.
Definition normalize_relative (raw label : string) : result FirestoneError (option string) :=
  reject traversal_error raw label "the path is empty" when (is_empty raw);
  reject traversal_error raw label "the path contains a NUL byte" when (has_char NUL raw);
  components ← push_components raw label (split "/" raw) [];
  match components with
  | [] => Ok None
  | _ => Ok (Some (join "/" components))
  end.
Definition normalize_entry_path (raw label : string) : result FirestoneError (option string) :=
  reject traversal_error raw label "the path is absolute" when (starts_with "/" raw);
  normalize_relative raw label.
Definition normalize_link_target (raw label : string) : result FirestoneError string :=
  let trimmed := from_option id raw (strip_prefix "/" raw) in
  p ← normalize_relative trimmed label;
  ok_or p (traversal_error raw label "the path resolves to the archive root").

(** ** The overlay rules *)

(** The loop over [entries.range(prefix..)], up to its [break]. *)
Fixpoint doomed_under (prefix : string) (layer_ : nat) (range : list (string * MergedEntry))
    : list string :=
  match range with
  | [] => []
  | (key, entry) :: range =>
      if negb (starts_with prefix key) then []
      else (if (layer entry <? layer_)%nat then [key] else []) ++ doomed_under prefix layer_ range
  end.
Definition drop_lower_subtree (entries : gmap string MergedEntry) (path : string) (layer_ : nat)
    (include_self : bool) : gmap string MergedEntry :=
  let self := match entries !! path with
    | Some entry => if include_self && negb (is_empty path) && (layer entry <? layer_)%nat
                    then [path] else []
    | None => []
    end in
  let prefix := if is_empty path then path else path +:+ "/" in
  foldr delete entries (self ++ doomed_under prefix layer_ (range_from prefix entries)).

(** One member of a layer that passed the caps: the body of [build_plan]'s inner loop
    between reading the header and skipping the payload. *)
Definition apply_member {H X} (label : string) (layer_ : nat)
    (st : gmap string MergedEntry * gmap string (Z * Z)) (member : Member H X)
    : result FirestoneError (gmap string MergedEntry * gmap string (Z * Z)) :=
  let '(entries, local_files) := st in
  p ← normalize_entry_path (member_path member) label;
  match p with
  | None => Ok (entries, local_files)
  | Some path =>
      let '(parent, name) := split_last_component path in
      if String.eqb name OPAQUE_MARKER then
        Ok (drop_lower_subtree entries parent layer_ false, local_files)
      else match strip_prefix WHITEOUT_PREFIX name with
      | Some removed =>
          reject layer_error ("layer " +:+ label +:+ " has an empty whiteout name") REPULL_HINT
            when (is_empty removed);
          Ok (drop_lower_subtree entries (join_path parent removed) layer_ true, local_files)
      | None =>
          let kind := classify_entry (entry_type member) in
          let local_files :=
            if is_file_type (entry_type member)
            then <[path := (member_ordinal member, data_size member)]> local_files
            else local_files in
          let entries :=
            if bool_decide (kind = Directory) then entries
            else drop_lower_subtree entries path layer_ false in
          link_target ←
            (if bool_decide (kind = HardLink)
             then t ← normalize_link_target (from_option id "" (link member)) label; Ok (Some t)
             else Ok None);
          Ok (<[path := {|
                layer := layer_; ordinal := member_ordinal member; kind := kind;
                link_target := link_target;
                local_target := link_target ≫= λ t, local_files !! t;
                symlink_target := if bool_decide (kind = Symlink) then link member else None |}]>
              entries, local_files)
      end
  end.

(** ** Hard links *)

Definition plan_hardlink (entries : gmap string MergedEntry)
    (st : gmap string EmitMode * gmap (nat * Z) string) (p : string * MergedEntry)
    : result FirestoneError (gmap string EmitMode * gmap (nat * Z) string) :=
  let '(overrides, representatives) := st in
  let '(path, entry) := p in
  if negb (bool_decide (kind entry = HardLink)) then Ok st else
  target ← ok_or (link_target entry)
    (layer_error ("hardlink " +:+ lossy path +:+ " has no target") REPULL_HINT);
  let winner := entries !! target in
  if from_option (λ found, Nat.eqb (layer found) (layer entry)) false winner then Ok st else
  match local_target entry with
  | Some (ordinal, size) =>
      let key := (layer entry, ordinal) in
      let '(mode, representatives) :=
        match representatives !! key with
        | Some representative =>
            if len representative <=? USTAR_LINK_NAME_LIMIT
            then (Relink representative, representatives)
            else (Promote ordinal size, representatives)
        | None => (Promote ordinal size, <[key := path]> representatives)
        end in
      Ok (<[path := mode]> overrides, representatives)
  | None =>
      if from_option (λ found, bool_decide (kind found = Regular)) false winner then Ok st
      else Err (layer_error ("hardlink " +:+ lossy path +:+ " points at the missing entry "
                 +:+ lossy target) REPULL_HINT)
  end.
Definition plan_hardlinks (entries : gmap string MergedEntry)
    : result FirestoneError (gmap string EmitMode) :=
  st ← fold_result (plan_hardlink entries) (∅, ∅) (iter entries);
  Ok st.1.
End overlay.

(** ** Where the injected members go *)

(** [components.pop()] and [components.push()]. *)
Definition pop_components (components : list string) : list string := take (length components - 1) components.
Definition join_component (components : list string) (c : string) : list string :=
  if is_empty c || String.eqb c "." then components
  else if String.eqb c ".." then pop_components components
  else components ++ [c].
Definition lexical_join (base target : string) : string :=
  let sources := if starts_with "/" target then [""; target] else [base; target] in
  join "/" (foldl join_component [] (sources ≫= split "/")).

(** The loop over the [hops] links one component may traverse. *)
Fixpoint follow_links (entries : gmap string MergedEntry) (hops : nat) (candidate : string) : string :=
  match hops with
  | O => candidate
  | S hops =>
      match entries !! candidate ≫= symlink_target with
      | None => candidate
      | Some target =>
          let '(link_parent, _) := split_last_component candidate in
          let next := lexical_join link_parent target in
          if is_empty next || String.eqb next candidate then candidate
          else follow_links entries hops next
      end
  end.
Definition resolve_component (entries : gmap string MergedEntry) (resolved component : string) : string :=
  if is_empty component then resolved
  else follow_links entries MAX_INJECTION_LINK_HOPS (join_path resolved component).
Definition resolve_injection_path (entries : gmap string MergedEntry) (path : string) : string :=
  let '(parent, name) := split_last_component path in
  join_path (foldl (resolve_component entries) "" (split "/" parent)) name.

(** ** The specification: what one layer does to the tree below it *)

(** [below dir key]: [key] names something strictly inside [dir]; [""] is the root. *)
Definition below (dir key : string) : bool := is_empty dir || starts_with (dir +:+ "/") key.

Inductive Action : Set :=
  | Opaque (dir : string)
  | Whiteout (target : string)
  | Put (path : string) (entry : MergedEntry).

(** Whether an action of a layer hides the key of a lower layer. *)
Definition hides (key : string) (a : Action) : bool :=
  match a with
  | Opaque dir => below dir key
  | Whiteout target => String.eqb key target || below target key
  | Put path entry => negb (bool_decide (kind entry = Directory)) && below path key
  end.
Definition puts (key : string) (o : option MergedEntry) (a : Action) : option MergedEntry :=
  match a with Put path entry => if String.eqb path key then Some entry else o | _ => o end.
Definition last_put (acts : list Action) (key : string) : option MergedEntry :=
  foldl (puts key) None acts.

(** The union of a lower tree with one layer, whatever the order of the layer's members. *)
Definition overlay (lower : string → option MergedEntry) (acts : list Action) (key : string)
    : option MergedEntry :=
  match last_put acts key with
  | Some entry => Some entry
  | None => if existsb (hides key) acts then None else lower key
  end.
Definition merged (layers : list (list Action)) : string → option MergedEntry :=
  foldl overlay (λ _, None) layers.

(** How the action of a layer's member is carried out on the plan. *)
Definition run_action (layer_ : nat) (a : Action) (entries : gmap string MergedEntry)
    : gmap string MergedEntry :=
  match a with
  | Opaque dir => drop_lower_subtree entries dir layer_ false
  | Whiteout target => drop_lower_subtree entries target layer_ true
  | Put path entry =>
      <[path := entry]> (if bool_decide (kind entry = Directory) then entries
                         else drop_lower_subtree entries path layer_ false)
  end.
Definition action_ok (layer_ : nat) (a : Action) : Prop :=
  match a with
  | Opaque _ => True
  | Whiteout target => target ≠ ""
  | Put path entry => path ≠ "" ∧ layer entry = layer_
  end.
Definition layers_below (layer_ : nat) (entries : gmap string MergedEntry) : Prop :=
  ∀ key entry, entries !! key = Some entry → (layer entry < layer_)%nat.

(** ** Dropping a subtree *)

Lemma foldr_delete_lookup {V} (l : list string) (m : gmap string V) k :
  foldr delete m l !! k = if decide (k ∈ l) then None else m !! k.
Proof.
  induction l as [|x l IH]; [by rewrite decide_False by set_solver|]. simpl foldr.
  destruct (decide (k = x)) as [->|Hne].
  - rewrite lookup_delete_eq, decide_True; set_solver.
  - rewrite lookup_delete_ne, IH by done. do 2 case_decide; set_solver.
Qed.

Lemma elem_of_doomed prefix layer_ range k :
  StronglySorted entry_le range → Forall (λ p, str_le prefix p.1) range →
  k ∈ doomed_under prefix layer_ range ↔
    ∃ e, (k, e) ∈ range ∧ starts_with prefix k = true ∧ (layer e < layer_)%nat.
Proof.
  intros Hs Hf. induction Hs as [|[key entry] range Hs IH Hle]; [simpl; set_solver|].
  apply Forall_cons in Hf as [Hp Hf]. simpl in *. destruct (starts_with prefix key) eqn:Hk; simpl.
  - rewrite elem_of_app, (IH Hf). setoid_rewrite elem_of_cons.
    destruct (Nat.ltb_spec (layer entry) layer_); split.
    + intros [->%list_elem_of_singleton|(e & ? & ?)]; naive_solver.
    + intros (e & [[= -> ->]|?] & ?); [left; set_solver|right; eauto].
    + intros [?|(e & ? & ?)]; [set_solver|eauto].
    + intros (e & [[= -> ->]|?] & ? & ?); [lia|right; eauto].
  - split; [set_solver|]. intros (e & Hin & Hst & _). exfalso.
    apply elem_of_cons in Hin as [[= -> ->]|Hin]; [congruence|].
    rewrite Forall_forall in Hle. specialize (Hle _ Hin). unfold entry_le in Hle. simpl in Hle.
    apply starts_with_spec in Hst as [r ->]. destruct (str_le_between prefix key r Hp Hle) as [r' ->].
    assert (starts_with prefix (prefix +:+ r') = true) by (apply starts_with_spec; eauto). congruence.
Qed.

Lemma elem_of_doomed_range prefix layer_ entries k :
  k ∈ doomed_under prefix layer_ (range_from prefix entries) ↔
    ∃ e, entries !! k = Some e ∧ starts_with prefix k = true ∧ (layer e < layer_)%nat.
Proof.
  rewrite elem_of_doomed; [|apply range_sorted|].
  - setoid_rewrite elem_of_range. split; [naive_solver|]. intros (e & ? & Hk & ?). exists e.
    split_and!; try done. apply starts_with_spec in Hk as [r ->]. apply str_le_prefix.
  - apply Forall_forall. intros [k' e] [? _]%elem_of_range. done.
Qed.

Lemma below_prefix path k :
  starts_with (if is_empty path then path else path +:+ "/") k = below path k.
Proof.
  unfold below. destruct (is_empty path) eqn:Hp; [|done]. apply is_empty_true in Hp as ->.
  apply starts_with_spec. by exists k.
Qed.

(** [drop_lower_subtree] as a map: exactly the lower-layer entries inside [path], and
    [path] itself for a whiteout, are gone. *)
Lemma lookup_drop_subtree entries path layer_ include_self k :
  drop_lower_subtree entries path layer_ include_self !! k =
    e ← entries !! k;
    if (layer e <? layer_)%nat
       && ((include_self && negb (is_empty path) && String.eqb k path) || below path k)
    then None else Some e.
Proof.
  unfold drop_lower_subtree. rewrite foldr_delete_lookup.
  set (doomed := doomed_under _ _ _). 
  assert (Hd : k ∈ doomed ↔ ∃ e, entries !! k = Some e ∧ below path k = true ∧ (layer e < layer_)%nat).
  { unfold doomed. rewrite elem_of_doomed_range. by rewrite below_prefix. }
  destruct (entries !! k) as [e|] eqn:Hk; simpl; [|by case_decide].
  destruct (decide _) as [Hin|Hin]; rewrite elem_of_app, Hd in Hin.
  - destruct Hin as [Hself|(e' & [= ->] & -> & Hl)].
    + destruct (entries !! path) as [e'|] eqn:Hp; [|set_solver].
      destruct (include_self && negb (is_empty path) && (layer e' <? layer_)%nat) eqn:Hc; [|set_solver].
      apply list_elem_of_singleton in Hself as ->. rewrite Hk in Hp. injection Hp as ->.
      bool_props. repeat match goal with H : _ = true |- _ => rewrite H end.
      rewrite String.eqb_refl. by destruct (is_empty path).
    + apply Nat.ltb_lt in Hl. rewrite Hl. by rewrite orb_true_r.
  - destruct (Nat.ltb_spec (layer e) layer_) as [Hl|]; [|done]. simpl.
    destruct (below path k) eqn:Hb; [destruct Hin; right; eauto|].
    rewrite orb_false_r. destruct (String.eqb_spec k path) as [->|]; [|by rewrite andb_false_r].
    rewrite andb_true_r. destruct (include_self && negb (is_empty path)) eqn:Hs; [|done].
    destruct Hin. left. rewrite Hk. apply Nat.ltb_lt in Hl. rewrite Hl. set_solver.
Qed.

(** ** One layer refines the overlay *)

Lemma last_put_snoc acts a k : last_put (acts ++ [a]) k = puts k (last_put acts k) a.
Proof. unfold last_put. by rewrite foldl_app. Qed.
Lemma existsb_snoc {A} (f : A → bool) l a : existsb f (l ++ [a]) = existsb f l || f a.
Proof. rewrite existsb_app. simpl. by rewrite orb_false_r. Qed.

Lemma last_put_layer layer_ acts k e :
  Forall (action_ok layer_) acts → last_put acts k = Some e → layer e = layer_.
Proof.
  induction acts as [|a acts IH] using rev_ind; [done|]. rewrite Forall_app, Forall_singleton, last_put_snoc.
  intros [Hacts Ha]. destruct a; simpl; auto. destruct (String.eqb path k); [|auto].
  intros [= <-]. apply Ha.
Qed.

(** Carrying out a layer's actions one by one over a tree of lower layers gives the
    overlay of the tree and the layer: the order of whiteouts and additions does not
    matter, and a layer never hides its own entries. *)
Lemma run_actions layer_ acts entries :
  layers_below layer_ entries → Forall (action_ok layer_) acts →
  ∀ k, foldl (λ m a, run_action layer_ a m) entries acts !! k = overlay (λ k, entries !! k) acts k.
Proof.
  intros Hlow. induction acts as [|a acts IH] using rev_ind; intros Hok k; [done|].
  rewrite Forall_app, Forall_singleton in Hok. destruct Hok as [Hacts Ha]. rewrite foldl_app. simpl.
  unfold overlay. rewrite last_put_snoc, existsb_snoc. specialize (IH Hacts).
  assert (Hkeep : ∀ path incl, drop_lower_subtree (foldl (λ m a, run_action layer_ a m) entries acts)
      path layer_ incl !! k =
    match last_put acts k with
    | Some e => Some e
    | None => if existsb (hides k) acts || (incl && negb (is_empty path) && String.eqb k path || below path k)
              then None else entries !! k
    end).
  { intros path incl. rewrite lookup_drop_subtree, IH. unfold overlay.
    destruct (last_put acts k) as [e|] eqn:Hl; simpl.
    - apply (last_put_layer layer_) in Hl; [|done]. by rewrite Hl, Nat.ltb_irrefl.
    - destruct (existsb (hides k) acts); [done|]. destruct (entries !! k) as [e|] eqn:Hk; simpl.
      + apply Hlow in Hk as He. apply Nat.ltb_lt in He. rewrite He. simpl. by case_match.
      + by case_match. }
  destruct a as [dir|target|path entry]; simpl in *.
  - by rewrite Hkeep.
  - rewrite Hkeep. apply is_empty_false in Ha. rewrite Ha. done.
  - destruct (String.eqb_spec path k) as [->|Hne]; [by rewrite lookup_insert_eq|].
    rewrite lookup_insert_ne by done. destruct (bool_decide (kind entry = Directory)); simpl.
    + rewrite orb_false_r, IH. done.
    + rewrite Hkeep. simpl. done.
Qed.

Lemma run_actions_below layer_ acts entries :
  layers_below layer_ entries → Forall (action_ok layer_) acts →
  layers_below (S layer_) (foldl (λ m a, run_action layer_ a m) entries acts).
Proof.
  intros Hlow Hok k e. rewrite run_actions by done. unfold overlay.
  destruct (last_put acts k) as [e'|] eqn:Hl.
  - intros [= <-]. apply (last_put_layer layer_) in Hl; [lia|done].
  - case_match; [done|]. intros Hk%Hlow. lia.
Qed.

(** An entry survives in the union exactly when some layer puts it last and no later
    layer puts or hides its path. *)
Lemma merged_survivor layers k e :
  merged layers k = Some e ↔
    ∃ i acts, layers !! i = Some acts ∧ last_put acts k = Some e ∧
      ∀ j acts', (i < j)%nat → layers !! j = Some acts' →
        last_put acts' k = None ∧ existsb (hides k) acts' = false.
Proof.
  unfold merged. induction layers as [|acts layers IH] using rev_ind.
  - split; [done|]. by intros (i & acts & ? & _).
  - rewrite foldl_app. simpl. unfold overlay at 1. split.
    + destruct (last_put acts k) as [e'|] eqn:Hl.
      * intros [= ->]. exists (length layers), acts. split_and!; [|done|].
        -- by rewrite lookup_app_r, Nat.sub_diag by lia.
        -- intros j acts' Hj Hlt. apply lookup_lt_Some in Hlt. rewrite length_app in Hlt. simpl in Hlt. lia.
      * destruct (existsb (hides k) acts) eqn:Hh; [done|].
        intros (i & acts0 & Hi & Hp & Hlater)%IH. exists i, acts0.
        split_and!; [by apply lookup_app_l_Some|done|]. intros j acts' Hj [Hl'|[? Hl']]%lookup_app_Some; eauto.
        destruct (j - length layers)%nat; by simplify_eq/=.
    + intros (i & acts0 & Hi & Hp & Hlater). apply lookup_app_Some in Hi as [Hi|[? Hi]].
      * destruct (Hlater (length layers) acts) as [-> ->].
        -- by apply lookup_lt_Some in Hi.
        -- by rewrite lookup_app_r, Nat.sub_diag by lia.
        -- apply IH. exists i, acts0. split_and!; try done. intros. eapply Hlater; [done|].
           by apply lookup_app_l_Some.
      * destruct (i - length layers)%nat; simplify_eq/=. by rewrite Hp.
Qed.

(** ** Entry paths *)

Definition plain_component (c : string) : Prop :=
  c ≠ "" ∧ c ≠ "." ∧ c ≠ ".." ∧ has_char "/" c = false.
(** A relative path that stays inside the root it is joined to. *)
Definition clean (p : string) : Prop := Forall plain_component (split "/" p).

Lemma push_components_Ok lossy raw label parts acc cs :
  push_components lossy raw label parts acc = Ok cs →
  Forall (λ c, has_char "/" c = false) parts → Forall plain_component acc →
  Forall plain_component cs ∧ Forall (λ c, c ≠ "..") parts ∧
  cs = acc ++ filter (λ c, c ≠ "" ∧ c ≠ ".") parts.
Proof.
  revert acc; induction parts as [|c parts IH]; intros acc; simpl.
  - intros [= ->] _ Hacc. by rewrite app_nil_r.
  - intros H [Hc Hparts]%Forall_cons Hacc. rewrite filter_cons.
    destruct (is_empty c || String.eqb c ".") eqn:Hskip.
    + apply IH in H as (? & ? & ->); [|done..]. apply orb_true_iff in Hskip.
      rewrite is_empty_true, String.eqb_eq in Hskip.
      split_and!; [done|constructor; naive_solver|]. rewrite decide_False by tauto. done.
    + bool_props. destruct (String.eqb_spec c "..") as [|Hdd]; [done|].
      match goal with E : is_empty c = false |- _ => apply is_empty_false in E as He end.
      match goal with E : String.eqb c "." = false |- _ => apply String.eqb_neq in E as Hd end.
      apply IH in H as (? & ? & ->); [|done|].
      * rewrite decide_True by done. split_and!; [done|by constructor|by rewrite <- app_assoc].
      * apply Forall_app. split; [done|]. by apply Forall_singleton.
Qed.

Lemma normalize_relative_Ok lossy raw label p :
  normalize_relative lossy raw label = Ok (Some p) →
  clean p ∧ has_char NUL p = false ∧ ".." ∉ split "/" raw ∧
  split "/" p = filter (λ c, c ≠ "" ∧ c ≠ ".") (split "/" raw).
Proof.
  unfold normalize_relative. intros H. inv_ok. bool_props.
  match goal with E : push_components _ _ _ _ _ = Ok _ |- _ => 
    apply push_components_Ok in E as (Hcs & Hdd & ->); [|apply split_no_char|constructor] end.
  simpl in *. set (cs := filter _ _) in *. assert (cs ≠ [] ∧ p = join "/" cs) as [Hne ->].
  { destruct cs; [done|]. by simplify_eq. }
  assert (split "/" (join "/" cs) = cs) as Hsp.
  { apply split_join; [done|]. eapply Forall_impl; [exact Hcs|]. by intros ? (? & ? & ? & ?). }
  unfold clean. rewrite Hsp. split_and!; [done| |by rewrite Forall_forall in Hdd; intros ?%Hdd|done].
  rewrite has_char_join by done. apply not_true_iff_false. rewrite existsb_exists.
  intros (c & Hin%list_elem_of_In & Hc). subst cs. apply list_elem_of_filter in Hin as [_ Hin].
  match goal with E : has_char NUL raw = false |- _ => rewrite <- (join_split "/" raw), has_char_join in E by done;
    apply not_true_iff_false in E; apply E end.
  apply existsb_exists. exists c. by rewrite <- list_elem_of_In.
Qed.

Lemma clean_ne p : clean p → p ≠ "".
Proof. unfold clean. intros H ->. apply Forall_cons in H as [(? & _) _]. done. Qed.
Lemma plain_clean x : plain_component x → clean x.
Proof. intros Hx. unfold clean. rewrite split_no_sep by apply Hx. by apply Forall_singleton. Qed.
Lemma clean_app a b : clean (a +:+ String "/" b) ↔ clean a ∧ clean b.
Proof. unfold clean. by rewrite split_app, Forall_app. Qed.
Lemma clean_join_path parent name :
  (parent = "" ∨ clean parent) → clean name → clean (join_path parent name).
Proof.
  unfold join_path. destruct (is_empty parent) eqn:Hp; [done|]. apply is_empty_false in Hp.
  intros [?|?] ?; [done|]. by apply clean_app.
Qed.
Lemma split_last_clean path parent name :
  clean path → split_last_component path = (parent, name) →
  (parent = "" ∨ clean parent) ∧ plain_component name ∧ path = join_path parent name.
Proof.
  unfold split_last_component. intros Hc. destruct (rsplit_once "/" path) as [[a b]|] eqn:Hr.
  - intros [= -> ->]. apply rsplit_once_Some in Hr as [-> Hb]. apply clean_app in Hc as [Ha Hn].
    split; [by right|split].
    + unfold clean in Hn. rewrite split_no_sep in Hn by done. by rewrite Forall_singleton in Hn.
    + unfold join_path. destruct (is_empty parent) eqn:E; [|done]. apply is_empty_true in E as ->.
      by apply clean_ne in Ha.
  - intros [= <- <-]. apply rsplit_once_None in Hr. split; [by left|]. split; [|done].
    unfold clean in Hc. rewrite split_no_sep in Hc by done. by rewrite Forall_singleton in Hc.
Qed.

(** ** Members as actions *)

(** The action a member stands for, and the regular files of its layer so far. *)
Definition member_action {H X} (lossy : string → string) (label : string) (layer_ : nat)
    (local_files : gmap string (Z * Z)) (member : Member H X)
    : result FirestoneError (option Action * gmap string (Z * Z)) :=
  p ← normalize_entry_path lossy (member_path member) label;
  match p with
  | None => Ok (None, local_files)
  | Some path =>
      let '(parent, name) := split_last_component path in
      if String.eqb name OPAQUE_MARKER then Ok (Some (Opaque parent), local_files)
      else match strip_prefix WHITEOUT_PREFIX name with
      | Some removed =>
          reject layer_error ("layer " +:+ label +:+ " has an empty whiteout name") REPULL_HINT
            when (is_empty removed);
          Ok (Some (Whiteout (join_path parent removed)), local_files)
      | None =>
          let kind := classify_entry (entry_type member) in
          let local_files := if is_file_type (entry_type member)
            then <[path := (member_ordinal member, data_size member)]> local_files else local_files in
          link_target ←
            (if bool_decide (kind = HardLink)
             then t ← normalize_link_target lossy (from_option id "" (link member)) label; Ok (Some t)
             else Ok None);
          Ok (Some (Put path {|
                layer := layer_; ordinal := member_ordinal member; kind := kind;
                link_target := link_target; local_target := link_target ≫= λ t, local_files !! t;
                symlink_target := if bool_decide (kind = Symlink) then link member else None |}), local_files)
      end
  end.

Lemma apply_member_action {H X} lossy label layer_ entries local_files (member : Member H X) :
  apply_member lossy label layer_ (entries, local_files) member =
    r ← member_action lossy label layer_ local_files member;
    Ok (from_option (λ a, run_action layer_ a entries) entries r.1, r.2).
Proof.
  unfold apply_member, member_action. destruct (normalize_entry_path _ _ _) as [[path|]|]; [|done..].
  cbn [mbind result_bind]. destruct (split_last_component path) as [parent name].
  destruct (String.eqb name OPAQUE_MARKER); [done|]. destruct (strip_prefix WHITEOUT_PREFIX name) as [removed|]; [by destruct (is_empty removed)|].
  by match goal with |- (?b ≫= _) = _ => destruct b end.
Qed.

Lemma member_action_ok {H X} lossy label layer_ local_files (member : Member H X) a local_files' :
  member_action lossy label layer_ local_files member = Ok (Some a, local_files') → action_ok layer_ a.
Proof.
  unfold member_action, normalize_entry_path. intros Hm. inv_ok.
  destruct r as [path|]; [|by simplify_eq].
  match goal with E : normalize_relative _ _ _ = Ok _ |- _ => apply normalize_relative_Ok in E as (Hc & _) end.
  destruct (split_last_component path) as [parent name] eqn:Hs.
  apply (split_last_clean path) in Hs as (Hp & Hn & ->); [|done].
  destruct (String.eqb name OPAQUE_MARKER); [by simplify_eq|].
  destruct (strip_prefix WHITEOUT_PREFIX name) as [removed|].
  - inv_ok. simpl. unfold join_path.
    match goal with E : is_empty removed = false |- _ => apply is_empty_false in E end.
    destruct (is_empty parent); [done|]. by destruct parent.
  - inv_ok. simpl. split; [by apply clean_ne|done].
Qed.

(** ** Hard links are never left dangling *)

(** How the merged tar resolves a surviving hard link: it keeps its target, which
    survives in its own layer or as a regular file; or it carries the content of the file of its
    own layer; or it points at an earlier member that carries that very content. *)
Definition resolved (entries : gmap string MergedEntry) (overrides : gmap string EmitMode)
    (path : string) (e : MergedEntry) : Prop :=
  ∃ target, link_target e = Some target ∧
  match overrides !! path with
  | None => ∃ w, entries !! target = Some w ∧ (layer w = layer e ∨ kind w = Regular)
  | Some (Promote o s) => local_target e = Some (o, s)
  | Some (Relink r) => ∃ er o s, entries !! r = Some er ∧ str_lt r path ∧ len r <= USTAR_LINK_NAME_LIMIT ∧
      kind er = HardLink ∧ layer er = layer e ∧ option_map fst (local_target e) = Some o ∧
      overrides !! r = Some (Promote o s)
  end.

Definition hardlinks_inv (entries : gmap string MergedEntry) (l : list (string * MergedEntry))
    (st : gmap string EmitMode * gmap (nat * Z) string) : Prop :=
  (∀ path e, (path, e) ∈ l → kind e = HardLink → resolved entries st.1 path e) ∧
  (∀ path, is_Some (st.1 !! path) → ∃ e, (path, e) ∈ l ∧ kind e = HardLink) ∧
  (∀ lay o r, st.2 !! (lay, o) = Some r → ∃ e s, (r, e) ∈ l ∧ kind e = HardLink ∧ layer e = lay ∧
     st.1 !! r = Some (Promote o s)).

Lemma resolved_insert entries overrides path e path' mode :
  path' ∉ dom overrides → resolved entries overrides path e → path ≠ path' →
  resolved entries (<[path' := mode]> overrides) path e.
Proof.
  intros Hfresh (target & Ht & Hr) Hne. exists target. split; [done|]. rewrite lookup_insert_ne by done.
  destruct (overrides !! path) as [[r|o s]|]; [|done..].
  destruct Hr as (er & o & s & ? & ? & ? & ? & ? & ? & Ho). exists er, o, s. split_and!; try done.
  rewrite lookup_insert_ne; [done|]. intros ->. apply Hfresh, elem_of_dom. by rewrite Ho.
Qed.

(** The iteration visits keys in strictly ascending order. *)
Lemma iter_before entries (l1 l2 : list (string * MergedEntry)) path e path' e' :
  iter entries = l1 ++ (path, e) :: l2 → (path', e') ∈ l1 → str_lt path' path.
Proof.
  intros Hi Hin. pose proof (iter_sorted entries) as Hs. pose proof (iter_NoDup entries) as Hnd.
  rewrite Hi in Hs, Hnd. apply list_elem_of_split in Hin as (la & lb & ->).
  rewrite <- app_assoc in Hs, Hnd. simpl in Hs, Hnd. apply StronglySorted_app_1_r in Hs as Hs'.
  apply StronglySorted_inv in Hs' as [_ Hle]. rewrite Forall_forall in Hle.
  assert (str_le path' path) as [->|?]%str_le_lt; [|exfalso|done].
  { apply (Hle (path, e)). rewrite elem_of_app, elem_of_cons. auto. }
  rewrite fmap_app in Hnd. simpl in Hnd. apply NoDup_app in Hnd as (_ & _ & Hnd).
  apply NoDup_cons in Hnd as [Hnd _]. apply Hnd. rewrite fmap_app. set_solver.
Qed.

Lemma plan_hardlink_inv lossy entries l1 p l2 st st' :
  iter entries = l1 ++ p :: l2 → hardlinks_inv entries l1 st →
  plan_hardlink lossy entries st p = Ok st' → hardlinks_inv entries (l1 ++ [p]) st'.
Proof.
  destruct p as [path e], st as [overrides reps]. intros Hi (Hres & Hdom & Hreps) Hstep.
  assert (Hfresh : path ∉ dom overrides).
  { intros Hin%elem_of_dom. apply Hdom in Hin as (e' & Hin & _).
    by apply (iter_before _ _ _ _ _ _ _ Hi), str_lt_irrefl in Hin. }
  assert (Hother : ∀ path' e', (path', e') ∈ l1 → path' ≠ path).
  { intros path' e' Hin ->. by apply (iter_before _ _ _ _ _ _ _ Hi), str_lt_irrefl in Hin. }
  (** One more override, for this hard link, keeps everything else. *)
  assert (Hgrow : ∀ mode reps', resolved entries (<[path := mode]> overrides) path e → kind e = HardLink →
    (∀ lay o r, reps' !! (lay, o) = Some r → reps !! (lay, o) = Some r ∨
       r = path ∧ lay = layer e ∧ ∃ s, mode = Promote o s) →
    hardlinks_inv entries (l1 ++ [(path, e)]) (<[path := mode]> overrides, reps')).
  { intros mode reps' Hr Hk Hnew. split_and!; simpl.
    - intros path' e' [Hin|[= -> ->]%list_elem_of_singleton]%elem_of_app Hk'; [|done].
      apply resolved_insert; eauto.
    - intros path' [mode' [[<- _]|[_ Hm]]%lookup_insert_Some].
      + exists e. set_solver.
      + destruct (Hdom path') as (e' & ? & ?); [by eexists|]. exists e'. set_solver.
    - intros lay o r [Hold|(-> & -> & s & ->)]%Hnew.
      + destruct (Hreps lay o r Hold) as (e' & s & Hin & ? & ? & ?). exists e', s.
        split_and!; [set_solver|done..|]. rewrite lookup_insert_ne; [done|]. apply Hother in Hin; congruence.
      + exists e, s. rewrite lookup_insert_eq. set_solver. }
  (** Nothing recorded for this entry. *)
  assert (Hkeep : (kind e = HardLink → resolved entries overrides path e) →
    hardlinks_inv entries (l1 ++ [(path, e)]) (overrides, reps)).
  { intros Hr. split_and!; simpl.
    - intros path' e' [Hin|[= -> ->]%list_elem_of_singleton]%elem_of_app Hk'; eauto.
    - intros path' Hm. destruct (Hdom path' Hm) as (e' & ? & ?). exists e'. set_solver.
    - intros lay o r Hold. destruct (Hreps lay o r Hold) as (e' & s & ? & ? & ? & ?). exists e', s. set_solver. }
  unfold plan_hardlink in Hstep. case_bool_decide as Hk; simpl in Hstep; [|simplify_eq; by apply Hkeep].
  apply bind_Ok in Hstep as (target & Ht%ok_or_Ok & Hstep).
  apply not_elem_of_dom in Hfresh as Hnone.
  assert (Hfound : (∃ w, entries !! target = Some w ∧ (layer w = layer e ∨ kind w = Regular)) →
    st' = (overrides, reps) → hardlinks_inv entries (l1 ++ [(path, e)]) st').
  { intros Hw ->. apply Hkeep. intros _. exists target. by rewrite Hnone. }
  destruct (from_option (λ found, Nat.eqb (layer found) (layer e)) false (entries !! target)) eqn:Hw.
  { simplify_eq. apply Hfound; [|done]. destruct (entries !! target) as [w|]; [|done].
    apply Nat.eqb_eq in Hw. eauto. }
  destruct (local_target e) as [[o s]|] eqn:Hl.
  2:{ destruct (from_option _ _ _) eqn:Hw' in Hstep; [|done]. simplify_eq. apply Hfound; [|done].
      destruct (entries !! target) as [w|]; [|done]. simpl in Hw'. apply bool_decide_eq_true in Hw'. eauto. }
  assert (Hpromote : resolved entries (<[path := Promote o s]> overrides) path e).
  { exists target. rewrite lookup_insert_eq. done. }
  destruct (reps !! (layer e, o)) as [r|] eqn:Hr.
  - destruct (Z.leb_spec (len r) USTAR_LINK_NAME_LIMIT); simplify_eq; apply Hgrow; try done; eauto.
    destruct (Hreps _ _ _ Hr) as (er & s' & Hin & ? & ? & ?). exists target. rewrite lookup_insert_eq.
    split; [done|]. exists er, o, s'. rewrite lookup_insert_ne by (apply not_eq_sym; eauto).
    rewrite Hl. split_and!; try done.
    + apply elem_of_iter. rewrite Hi. set_solver.
    + by apply (iter_before _ _ _ _ _ _ _ Hi) in Hin.
  - simplify_eq. apply Hgrow; [done..|]. intros lay o' r [[[= <- <-] <-]|[_ ?]]%lookup_insert_Some; eauto.
Qed.

Lemma plan_hardlinks_inv lossy entries overrides :
  plan_hardlinks lossy entries = Ok overrides →
  (∀ path e, entries !! path = Some e → kind e = HardLink → resolved entries overrides path e) ∧
  (∀ path, is_Some (overrides !! path) → ∃ e, entries !! path = Some e ∧ kind e = HardLink).
Proof.
  unfold plan_hardlinks. rewrite bind_Ok. intros (st & Hfold & [= <-]).
  apply (fold_result_inv _ (hardlinks_inv entries)) in Hfold.
  - destruct Hfold as (H1 & H2 & _). setoid_rewrite elem_of_iter in H1.
    split; [done|]. intros path Hp. destruct (H2 path Hp) as (e & He%elem_of_iter & ?). eauto.
  - split_and!; simpl; [set_solver| |]; intros *; rewrite ?lookup_empty; [by intros [? ?]|done].
  - intros. by eapply plan_hardlink_inv.
Qed.

(** ** Injected members stay inside the tree *)

Lemma join_component_plain cs c :
  Forall plain_component cs → has_char "/" c = false → Forall plain_component (join_component cs c).
Proof.
  intros Hcs Hc. unfold join_component, pop_components.
  destruct (is_empty c || String.eqb c ".") eqn:Hskip; [done|]. bool_props.
  destruct (String.eqb_spec c ".."); [by apply Forall_take|].
  apply Forall_app. split; [done|]. apply Forall_singleton.
  split_and!; [by apply is_empty_false|by apply String.eqb_neq|done|done].
Qed.
Lemma lexical_join_clean base target :
  lexical_join base target = "" ∨ clean (lexical_join base target).
Proof.
  unfold lexical_join. set (sources := if starts_with "/" target then _ else _).
  assert (Hf : ∀ parts cs, Forall (λ c, has_char "/" c = false) parts → Forall plain_component cs →
    Forall plain_component (foldl join_component cs parts)).
  { induction parts as [|c parts IH]; intros cs; simpl; [done|]. intros [? ?]%Forall_cons ?.
    apply IH; [done|]. by apply join_component_plain. }
  assert (Forall plain_component (foldl join_component [] (sources ≫= split "/"))) as Hp.
  { apply Hf; [|constructor]. apply Forall_bind, Forall_forall. intros s _. apply split_no_char. }
  destruct (foldl _ _ _) as [|c cs]; [by left|right]. unfold clean. rewrite split_join; [done|done|].
  eapply Forall_impl; [exact Hp|]. by intros ? (? & ? & ? & ?).
Qed.
Lemma follow_links_clean entries hops candidate :
  clean candidate → clean (follow_links entries hops candidate).
Proof.
  revert candidate; induction hops as [|hops IH]; intros candidate Hc; simpl; [done|].
  destruct (entries !! candidate ≫= symlink_target) as [target|]; [|done].
  destruct (split_last_component candidate) as [link_parent name].
  destruct (is_empty _ || String.eqb _ _) eqn:Hstop; [done|]. bool_props. apply IH.
  destruct (lexical_join_clean link_parent target) as [E|]; [|done].
  match goal with H : is_empty _ = false |- _ => by apply is_empty_false in H end.
Qed.

(** Whatever links the tree holds, a member is injected under its own name at a path
    inside the tree. *)
Lemma resolve_injection_clean entries path parent name :
  clean path → split_last_component path = (parent, name) →
  ∃ dir, (dir = "" ∨ clean dir) ∧ resolve_injection_path entries path = join_path dir name ∧
    clean (join_path dir name).
Proof.
  intros Hp Hs. unfold resolve_injection_path. rewrite Hs.
  apply split_last_clean in Hs as (Hd & Hn & _); [|done].
  assert (Hf : ∀ parts dir, Forall (λ c, c = "" ∨ plain_component c) parts → dir = "" ∨ clean dir →
    foldl (resolve_component entries) dir parts = "" ∨ clean (foldl (resolve_component entries) dir parts)).
  { induction parts as [|c parts IH]; intros dir; simpl; [done|]. intros [Hc ?]%Forall_cons ?. apply IH; [done|].
    unfold resolve_component. destruct (is_empty c) eqn:He; [done|]. apply is_empty_false in He.
    right. apply follow_links_clean, clean_join_path; [done|]. apply plain_clean. naive_solver. }
  eexists. split_and!; [|done|].
  - apply Hf; [|by left]. destruct Hd as [->|Hd]; [repeat constructor|].
    eapply Forall_impl; [exact Hd|]. by right.
  - apply clean_join_path; [|by apply plain_clean]. apply Hf; [|by left].
    destruct Hd as [->|Hd]; [repeat constructor; by left|]. eapply Forall_impl; [exact Hd|]. by right.
Qed.
