(* ===== verification/Tar.v ===== *)
(** Reading a tar stream ([firestone-core/src/oci/layers.rs]): PAX records, extension
    headers, the layer cursor.  The tar crate's header accessors are a class of functions on
    512-byte blocks; the gzip decoder's output is a [Reader].  Loops carry fuel and report
    [OutOfFuel]; [Merge] proves that they never do. *)
From S2P Require Import Prelude RustStr Errors Bounded Utf8 Overlay.
Open Scope Z_scope.

Definition BLOCK : Z := 512.
Definition MAX_EXTENSION_BYTES : Z := 1024 * 1024.

(** [tar::Header]: a block of 512 bytes and the crate's accessors on it. *)
Class TarCrate := {
  cksum : list Z → result IoError Z;
  header_type : list Z → EntryType;
  entry_size : list Z → result IoError Z;
  path_bytes : list Z → string;
  link_name_bytes : list Z → option string;
  set_link_name_literal : string → list Z → result IoError (list Z);
  set_entry_type : EntryType → list Z → list Z;
  set_size : Z → list Z → list Z;
  set_cksum : list Z → list Z;
  new_ustar : list Z;
  set_path : string → list Z → result IoError (list Z);
  set_username : string → list Z → result IoError (list Z);
  set_groupname : string → list Z → result IoError (list Z);
  set_mode : Z → list Z → list Z;
  set_uid : Z → list Z → list Z;
  set_gid : Z → list Z → list Z;
  set_mtime : Z → list Z → list Z;
  (** The size is a [u64]. *)
  entry_size_range : ∀ header size, entry_size header = Ok size → 0 ≤ size ≤ u64_max;
}.

(** An error of the source, or a loop that needs more turns than it was given. *)
Inductive Stop : Set := Fault (e : FirestoneError) | OutOfFuel.
Definition lift {S A} (r : result FirestoneError A) : M S Stop A := M_lift (map_err Fault r).

Definition length_z {A} (l : list A) : Z := Z.of_nat (length l).

Definition padding_for (size : Z) : Z :=
  let remainder := size mod BLOCK in if remainder =? 0 then 0 else BLOCK - remainder.

Definition signed_byte (b : Z) : Z := if 128 <=? b then b - 256 else b.
(** The sums with the checksum field read as spaces.  An [i32] is its bits, as a [u32]. *)
Definition checksum_matches (block : list Z) (stored : Z) : bool :=
  let values := imap (λ i b, if (148 <=? Z.of_nat i) && (Z.of_nat i <? 156) then 32 else b) block in
  let unsigned := foldl (λ s b, wrap 32 (s + b)) 0 values in
  let signed := foldl (λ s b, wrap 32 (s + signed_byte b)) 0 values in
  (unsigned =? stored) || (signed =? stored).

Definition trim_nul (data : string) : string :=
  match split_once NUL data with Some (s, _) => s | None => data end.

Definition read_error (e : IoError) : FirestoneError :=
  with_source (with_hint (error_new Dependency "cannot read an OCI layer")
    "re-pull the image and merge it again") (io_text e).
Definition write_error (e : IoError) : FirestoneError :=
  with_source (with_hint (error_new Dependency "cannot write the merged OCI tar")
    "check free space in the firestone image store") (io_text e).

(** ** PAX records *)

Fixpoint parse_pax_records (fuel : nat) (rest : string) : result Stop (list string) :=
  match fuel with
  | O => Err OutOfFuel
  | S fuel =>
      if is_empty rest then Ok [] else
      match split_once " " rest with
      | None => Err (Fault (layer_error "a PAX extended header record has no length prefix" REPULL_HINT))
      | Some (prefix, _) =>
          length ← ok_or (parse_u u64_max prefix)
            (Fault (layer_error "a PAX extended header record has an unreadable length" REPULL_HINT));
          if (length <=? len prefix + 1) || (len rest <? length) then
            Err (Fault (layer_error "a PAX extended header record has an out-of-range length" REPULL_HINT))
          else
            let space := String.length prefix in
            let n := Z.to_nat length in
            records ← parse_pax_records fuel (String.substring n (String.length rest - n) rest);
            Ok (String.substring (space + 1) (n - 1 - (space + 1)) rest :: records)
      end
  end.

(** [records.iter().find_map(..)]: the first record with the key. *)
Fixpoint pax_value (records : list string) (key : string) : option string :=
  match records with
  | [] => None
  | record :: records =>
      match split_once "=" record with
      | Some (k, v) => if String.eqb k key then Some v else pax_value records key
      | None => pax_value records key
      end
  end.

(** The search for the length that counts its own digits. *)
Fixpoint record_length (fuel : nat) (record_len length : Z) : option Z :=
  match fuel with
  | O => None
  | S fuel =>
      let candidate := len (dec length) + 1 + record_len + 1 in
      if candidate =? length then Some length else record_length fuel record_len candidate
  end.
Definition RECORD_FUEL : nat := 3.
Definition record_bytes (record : string) : result Stop string :=
  match record_length RECORD_FUEL (len record) (len record + 2) with
  | Some length => Ok (dec length +:+ " " +:+ record +:+ one LF)
  | None => Err OutOfFuel
  end.

(** ** Extension headers *)

Record ExtensionHeader : Set := { ext_header : list Z; ext_data : string }.
Abbreviation TarMember := (Member (list Z) ExtensionHeader).

Section tar.
Context `{TarCrate}.

Definition keep_record (promoted : bool) (record : string) : bool :=
  let key := match split_once "=" record with Some (k, _) => k | None => record end in
  negb (String.eqb key "linkpath" || promoted && String.eqb key "size").

Fixpoint render_records (records : list string) : result Stop string :=
  match records with
  | [] => Ok ""
  | r :: records => b ← record_bytes r; rest ← render_records records; Ok (b +:+ rest)
  end.
Fixpoint filter_extensions (extensions : list ExtensionHeader) (promoted : bool)
    : result Stop (list ExtensionHeader) :=
  match extensions with
  | [] => Ok []
  | e :: extensions =>
      kept ←
        match header_type (ext_header e) with
        | TGNULongLink => Ok []
        | TXHeader =>
            records ← parse_pax_records (S (String.length (ext_data e))) (ext_data e);
            data ← render_records (filter (λ r, keep_record promoted r = true) records);
            Ok (if is_empty data then []
                else [{| ext_header := set_cksum (set_size (len data) (ext_header e)); ext_data := data |}])
        | _ => Ok [e]
        end;
      rest ← filter_extensions extensions promoted;
      Ok (kept ++ rest)
  end.

(** ** The cursor *)

Record Cursor : Set := {
  reader : option Reader; next_ordinal : Z; pending_data : option Z; bytes_read : Z }.
Definition new_cursor : Cursor :=
  {| reader := None; next_ordinal := 0; pending_data := None; bytes_read := 0 |}.

(** [source.open()] wrapped in the decoder, and the cursor's label. *)
Context (open : result FirestoneError Reader) (label : string).
Abbreviation Act := (M Cursor Stop).

Definition truncated (what : string) : FirestoneError :=
  layer_error ("layer " +:+ label +:+ what) "re-pull the image; the layer tar is truncated".

Definition reopen : Act () := λ c,
  match open with
  | Err e => (Err (Fault e), c)
  | Ok r => (Ok (), {| reader := Some r; next_ordinal := 0; pending_data := None;
                       bytes_read := bytes_read c |})
  end.

(** Reading up to [n] bytes: short reads and interruptions are retried, so it ends at [n]
    bytes, at the end of the stream, or with the stream's error. *)
Definition pull (n : Z) (r : Reader) : result IoError (list Z * Reader) :=
  if n <=? length_z (data r) then
    Ok (take (Z.to_nat n) (data r), {| data := drop (Z.to_nat n) (data r); fails := fails r |})
  else match fails r with
  | Some e => Err e
  | None => Ok (data r, {| data := []; fails := None |})
  end.

(** A read of up to [n] bytes through the cursor, which counts what it got. *)
Definition read_some (n : Z) : Act (list Z) := λ c,
  match reader c with
  | None => (Err (Fault (with_hint (error_new Dependency "an OCI layer reader is not open")
                           "report this as a firestone bug")), c)
  | Some r =>
      match pull n r with
      | Err e => (Err (Fault (read_error e)), c)
      | Ok (bytes, r) => (Ok bytes, {| reader := Some r; next_ordinal := next_ordinal c;
          pending_data := pending_data c;
          bytes_read := saturating_add u64_max (bytes_read c) (length_z bytes) |})
      end
  end.

Definition read_block : Act (option (list Z)) :=
  block ← read_some BLOCK;
  if length_z block =? 0 then mret None
  else if length_z block <? BLOCK then M_fail (Fault (truncated " ends inside a tar header"))
  else mret (Some block).

Definition skip_padding (size : Z) : Act () :=
  let padding := padding_for size in
  if padding =? 0 then mret () else
  discard ← read_some padding;
  if length_z discard <? padding then M_fail (Fault (truncated " ends inside entry padding"))
  else mret ().

Definition read_exact_padded (size : Z) : Act (list Z) :=
  data ← read_some size;
  if negb (length_z data =? size) then M_fail (Fault (truncated " is truncated inside an entry"))
  else skip_padding size;; mret data.

Definition take_pending : Act Z := λ c,
  match pending_data c with
  | None => (Err (Fault (layer_error ("layer " +:+ label +:+ " has no entry payload pending")
                           "report this as a firestone bug")), c)
  | Some size => (Ok size, {| reader := reader c; next_ordinal := next_ordinal c;
                              pending_data := None; bytes_read := bytes_read c |})
  end.

Definition skip_data : Act () :=
  size ← take_pending;
  read_exact_padded size;;
  mret ().

(** What [read_header] has collected from the extension headers so far. *)
Record Pending : Set := {
  exts : list ExtensionHeader; long_name : option string; long_link : option string;
  pax_path : option string; pax_link : option string }.
Definition no_pending : Pending :=
  {| exts := []; long_name := None; long_link := None; pax_path := None; pax_link := None |}.

Definition is_extension_type (t : EntryType) : bool :=
  bool_decide (t = TGNULongName) || bool_decide (t = TGNULongLink)
  || bool_decide (t = TXHeader) || bool_decide (t = TXGlobalHeader).

(** The effect of one extension header's payload. *)
Definition apply_extension (t : EntryType) (header : list Z) (data : string) (p : Pending)
    : result Stop Pending :=
  p ← match t with
      | TGNULongName => Ok {| exts := exts p; long_name := Some (trim_nul data); long_link := long_link p;
                              pax_path := pax_path p; pax_link := pax_link p |}
      | TGNULongLink => Ok {| exts := exts p; long_name := long_name p; long_link := Some (trim_nul data);
                              pax_path := pax_path p; pax_link := pax_link p |}
      | TXHeader =>
          records ← parse_pax_records (S (String.length data)) data;
          Ok {| exts := exts p; long_name := long_name p; long_link := long_link p;
                pax_path := pax_value records "path"; pax_link := pax_value records "linkpath" |}
      | _ => Ok p
      end;
  if bool_decide (t = TXGlobalHeader) then Ok p
  else Ok {| exts := exts p ++ [{| ext_header := header; ext_data := data |}];
             long_name := long_name p; long_link := long_link p;
             pax_path := pax_path p; pax_link := pax_link p |}.

Definition first_some {A} (a b : option A) : option A := match a with Some _ => a | None => b end.

Fixpoint read_header_loop (fuel : nat) (p : Pending) : Act (option TarMember) :=
  match fuel with
  | O => M_fail OutOfFuel
  | S fuel =>
      block ← read_block;
      match block with
      | None =>
          match exts p with
          | [] => mret None
          | _ => M_fail (Fault (truncated " ends after an extension header"))
          end
      | Some header =>
          if forallb (λ b, b =? 0) header then mret None else
          stored ← lift (map_err (λ e, with_source
            (layer_error ("layer " +:+ label +:+ " has an unreadable header checksum") REPULL_HINT)
            (io_text e)) (cksum header));
          if negb (checksum_matches header stored) then
            M_fail (Fault (layer_error ("layer " +:+ label +:+ " has a header checksum mismatch") REPULL_HINT))
          else
          let t := header_type header in
          if bool_decide (t = TGNUSparse) then
            M_fail (Fault (layer_error ("layer " +:+ label +:+ " holds a GNU sparse entry")
              "rebuild the image without sparse tar entries"))
          else
          size ← lift (map_err (λ e, with_source
            (layer_error ("layer " +:+ label +:+ " has an unreadable entry size") REPULL_HINT)
            (io_text e)) (entry_size header));
          if is_extension_type t then
            if MAX_EXTENSION_BYTES <? size then
              M_fail (Fault (cap_error ("layer " +:+ label +:+ " has an extension header above "
                +:+ dec MAX_EXTENSION_BYTES +:+ " bytes")))
            else
              data ← read_exact_padded size;
              p ← M_lift (apply_extension t header (utf8 data) p);
              read_header_loop fuel p
          else λ c,
            (Ok (Some {| header := header; extensions := exts p;
               member_path := from_option id (path_bytes header) (first_some (pax_path p) (long_name p));
               link := first_some (first_some (pax_link p) (long_link p)) (link_name_bytes header);
               entry_type := t; data_size := size; member_ordinal := next_ordinal c |}),
             {| reader := reader c; next_ordinal := next_ordinal c + 1; pending_data := Some size;
                bytes_read := bytes_read c |})
      end
  end.

(** Every turn of a loop consumes at least one block of what is left. *)
Definition turns (c : Cursor) : nat :=
  S (from_option (λ r, length (data r)) 0%nat (reader c)).

Definition read_header : Act (option TarMember) :=
  c ← M_get;
  (match reader c with None => reopen | Some _ => mret () end);;
  c ← M_get;
  (match pending_data c with Some _ => skip_data | None => mret () end);;
  c ← M_get;
  read_header_loop (turns c) no_pending.

Fixpoint seek_loop (fuel : nat) (ordinal : Z) : Act TarMember :=
  match fuel with
  | O => M_fail OutOfFuel
  | S fuel =>
      m ← read_header;
      match m with
      | None => M_fail (Fault (layer_error ("layer " +:+ label +:+ " ended before entry " +:+ dec ordinal)
                                 "re-pull the image and merge it again"))
      | Some member =>
          if member_ordinal member =? ordinal then mret member
          else skip_data;; seek_loop fuel ordinal
      end
  end.
Definition seek_to (ordinal : Z) : Act TarMember :=
  c ← M_get;
  (if bool_decide (reader c = None) || (ordinal <? next_ordinal c) then reopen else mret ());;
  c ← M_get;
  seek_loop (turns c) ordinal.

(** ** The reference: what a layer holds *)

(** The payload of the member just read. *)
Definition payload : Act (list Z) :=
  size ← take_pending;
  read_exact_padded size.
(** All the members from the cursor on, with their payloads. *)
Fixpoint contents (fuel : nat) : Act (list (TarMember * list Z)) :=
  match fuel with
  | O => M_fail OutOfFuel
  | S fuel =>
      m ← read_header;
      match m with
      | None => mret []
      | Some member => data ← payload; rest ← contents fuel; mret ((member, data) :: rest)
      end
  end.

(** ** Cursor actions do not look at the byte count *)

Definition agree (c1 c2 : Cursor) : Prop :=
  reader c1 = reader c2 ∧ next_ordinal c1 = next_ordinal c2 ∧ pending_data c1 = pending_data c2.
#[export] Instance agree_equivalence : Equivalence agree.
Proof. unfold agree. split; [intros ?|intros ?? (?&?&?)|intros ??? (?&?&?) (?&?&?)]; naive_solver congruence. Qed.

Definition blind {A} (m : Act A) : Prop :=
  ∀ c1 c2, agree c1 c2 → (m c1).1 = (m c2).1 ∧ agree (m c1).2 (m c2).2.

Lemma blind_ret {A} (a : A) : blind (mret a).
Proof. done. Qed.
Lemma blind_fail {A} e : blind (M_fail e : Act A).
Proof. done. Qed.
Lemma blind_pure {A} (r : result Stop A) : blind (M_lift r).
Proof. done. Qed.
Lemma blind_bind {A B} (m : Act A) (k : A → Act B) :
  blind m → (∀ a, blind (k a)) → blind (m ≫= k).
Proof.
  intros Hm Hk c1 c2 Hc. destruct (Hm c1 c2 Hc) as [Hr Hc']. unfold mbind, M_bind.
  destruct (m c1) as [r1 c1'], (m c2) as [r2 c2']. simpl in *. subst r2.
  destruct r1 as [a|e]; [by apply Hk|done].
Qed.
Lemma blind_get {B} (k : Cursor → Act B) :
  (∀ c1 c2, agree c1 c2 → k c1 = k c2) → (∀ c, blind (k c)) → blind (c ← M_get; k c).
Proof. intros Heq Hk c1 c2 Hc. unfold mbind, M_bind, M_get. rewrite (Heq c1 c2 Hc). by apply Hk. Qed.
Lemma blind_reopen : blind reopen.
Proof. intros c1 c2 Hc. unfold reopen. destruct open; done. Qed.
Lemma blind_read_some n : blind (read_some n).
Proof.
  intros c1 c2 Hc. destruct c1, c2, Hc as (Hr & Ho & Hp). simpl in *. subst. unfold read_some. simpl.
  case_match; [|done]. by destruct (pull _ _) as [[? ?]|].
Qed.
Lemma blind_take_pending : blind take_pending.
Proof.
  intros c1 c2 Hc. destruct c1, c2, Hc as (Hr & Ho & Hp). simpl in *. subst. unfold take_pending. simpl.
  by case_match.
Qed.

Create HintDb blind discriminated.
Hint Resolve blind_ret blind_fail blind_pure blind_bind blind_reopen blind_read_some blind_take_pending : blind.
Ltac blind := repeat (intros; first [progress eauto with blind | apply blind_bind | case_match]).

Lemma blind_skip_padding size : blind (skip_padding size).
Proof. unfold skip_padding. blind. Qed.
Lemma blind_read_exact_padded size : blind (read_exact_padded size).
Proof. pose proof blind_skip_padding. unfold read_exact_padded. blind. Qed.
Lemma blind_skip_data : blind skip_data.
Proof. pose proof blind_read_exact_padded. unfold skip_data. blind. Qed.
Lemma blind_payload : blind payload.
Proof. pose proof blind_read_exact_padded. unfold payload. blind. Qed.
Hint Resolve blind_skip_padding blind_read_exact_padded blind_skip_data blind_payload : blind.
Lemma blind_read_block : blind read_block.
Proof. unfold read_block. blind. Qed.
Hint Resolve blind_read_block : blind.

Lemma blind_read_header_loop fuel p : blind (read_header_loop fuel p).
Proof.
  revert p; induction fuel as [|fuel IH]; intros p; simpl; [apply blind_fail|]. unfold lift. blind.
  intros c1 c2 Hc. destruct c1, c2, Hc as (Hr & Ho & Hp). simpl in *. by subst.
Qed.
Hint Resolve blind_read_header_loop : blind.
Lemma turns_agree c1 c2 : agree c1 c2 → turns c1 = turns c2.
Proof. unfold turns. by intros (-> & _ & _). Qed.
Lemma blind_read_header : blind read_header.
Proof.
  unfold read_header. apply blind_get; [by intros ?? (-> & _ & _)|]. intros c. apply blind_bind; [blind|]. intros _.
  apply blind_get; [by intros ?? (_ & _ & ->)|]. intros c'. apply blind_bind; [blind|]. intros _.
  apply blind_get; [by intros ?? ->%turns_agree|]. intros. apply blind_read_header_loop.
Qed.
Hint Resolve blind_read_header : blind.
Lemma blind_seek_loop fuel ordinal : blind (seek_loop fuel ordinal).
Proof. induction fuel as [|fuel IH]; simpl; blind. Qed.
Lemma blind_seek_to ordinal : blind (seek_to ordinal).
Proof.
  unfold seek_to. apply blind_get; [by intros ?? (-> & -> & _)|]. intros c. apply blind_bind; [blind|]. intros _.
  apply blind_get; [by intros ?? ->%turns_agree|]. intros. apply blind_seek_loop.
Qed.
Lemma blind_contents fuel : blind (contents fuel).
Proof. induction fuel as [|fuel IH]; simpl; blind. Qed.
End tar.

(** ** PAX records: the length that counts its own digits *)

Lemma length_pretty_N_go k n s :
  (10 ^ N.of_nat k ≤ n < 10 ^ N.of_nat (S k))%N →
  String.length (pretty_N_go n s) = (S k + String.length s)%nat.
Proof.
  revert n s; induction k as [|k IH]; intros n s [Hlo Hhi].
  - rewrite pretty_N_go_step by (simpl in *; lia). rewrite N.div_small by (simpl in *; lia). done.
  - rewrite pretty_N_go_step.
    2:{ assert (10 ^ N.of_nat (S k) ≠ 0)%N by (apply N.pow_nonzero; lia). lia. }
    rewrite IH; [simpl; lia|]. rewrite Nat2N.inj_succ, N.pow_succ_r' in Hlo, Hhi. split.
    + apply N.div_le_lower_bound; lia.
    + apply N.Div0.div_lt_upper_bound. lia.
Qed.
Lemma len_dec k z : 10 ^ Z.of_nat k ≤ z < 10 ^ Z.of_nat (S k) → len (dec z) = Z.of_nat (S k).
Proof.
  intros Hz. assert (0 < 10 ^ Z.of_nat k) by (apply Z.pow_pos_nonneg; lia).
  rewrite dec_nonneg by lia. unfold pretty, pretty_N. rewrite decide_False by lia.
  unfold len. rewrite (length_pretty_N_go k); [simpl; lia|].
  assert (∀ m, 10 ^ N.of_nat m = Z.to_N (10 ^ Z.of_nat m))%N as Hp.
  { intros m. rewrite <- nat_N_Z, <- (N2Z.inj_pow 10), N2Z.id. done. }
  rewrite !Hp. split; [apply Z2N.inj_le|apply Z2N.inj_lt]; lia.
Qed.
Lemma digits_exist z : 1 ≤ z → ∃ k, 10 ^ Z.of_nat k ≤ z < 10 ^ Z.of_nat (S k).
Proof.
  intros Hz. revert Hz. induction (Z.lt_wf 0 z) as [z _ IH]. intros Hz.
  destruct (Z.ltb_spec z 10); [by exists 0%nat|].
  assert (1 ≤ z / 10) by (apply Z.div_le_lower_bound; lia).
  assert (z / 10 < z) by (apply Z.div_lt; lia).
  destruct (IH (z / 10)) as [k [Hlo Hhi]]; [lia..|]. exists (S k).
  pose proof (Z.div_mod z 10). pose proof (Z.mod_pos_bound z 10).
  rewrite !Nat2Z.inj_succ, !Z.pow_succ_r in * by lia. lia.
Qed.

(** The search ends within three turns, at a length that counts its own digits. *)
Lemma record_length_Some n :
  0 ≤ n → ∃ l, record_length RECORD_FUEL n (n + 2) = Some l ∧ l = len (dec l) + n + 2.
Proof.
  intros Hn. destruct (digits_exist (n + 2)) as [k Hk]; [lia|]. pose proof (len_dec k _ Hk) as H0.
  assert (Hbig : Z.of_nat (S k) + 1 ≤ 9 * 10 ^ Z.of_nat (S k)).
  { clear. induction k as [|k IH]; [simpl; lia|]. rewrite (Nat2Z.inj_succ (S k)), Z.pow_succ_r by lia. lia. }
  assert (Hup : 10 ^ Z.of_nat (S (S k)) = 10 * 10 ^ Z.of_nat (S k)) by (by rewrite Nat2Z.inj_succ, Z.pow_succ_r by lia).
  unfold RECORD_FUEL. cbn [record_length]. rewrite H0.
  destruct (Z.eqb_spec (Z.of_nat (S k) + 1 + n + 1) (n + 2)); [lia|].
  set (x1 := Z.of_nat (S k) + 1 + n + 1) in *.
  destruct (Z.ltb_spec x1 (10 ^ Z.of_nat (S k))) as [Hlt|Hge].
  - rewrite (len_dec k x1) by lia. rewrite (proj2 (Z.eqb_eq _ _)) by lia. exists x1. split; [done|].
    rewrite (len_dec k x1); lia.
  - rewrite (len_dec (S k) x1) by lia.
    destruct (Z.eqb_spec (Z.of_nat (S (S k)) + 1 + n + 1) x1); [lia|].
    set (x2 := Z.of_nat (S (S k)) + 1 + n + 1) in *.
    rewrite (len_dec (S k) x2) by lia. rewrite (proj2 (Z.eqb_eq _ _)) by lia. exists x2. split; [done|].
    rewrite (len_dec (S k) x2); lia.
Qed.

(** A record as it is written: its own length, a space, the record, a line feed. *)
Lemma record_bytes_Ok r :
  ∃ b, record_bytes r = Ok b ∧ b = dec (len b) +:+ " " +:+ r +:+ one LF.
Proof.
  unfold record_bytes. destruct (record_length_Some (len r)) as (l & -> & Hl); [unfold len; lia|].
  eexists. split; [done|]. rewrite !len_app. change (len " ") with 1. change (len (one LF)) with 1.
  replace (len (dec l) + (1 + (len r + 1))) with l by lia. done.
Qed.

Lemma substring_app_l s t : String.substring 0 (String.length s) (s +:+ t) = s.
Proof. induction s as [|a s IH]; [by destruct t|]. rewrite app_cons. simpl. by rewrite IH. Qed.
Lemma substring_app_r s t n m :
  n = String.length s → String.substring n m (s +:+ t) = String.substring 0 m t.
Proof. intros ->. induction s as [|a s IH]; [done|]. rewrite app_cons. simpl. done. Qed.
Lemma substring_all s n : n = String.length s → String.substring 0 n s = s.
Proof. intros ->. rewrite <- (app_empty_r s) at 2. apply substring_app_l. Qed.

(** Reading one written record back. *)
Lemma parse_pax_record fuel b r rest :
  b = dec (len b) +:+ " " +:+ r +:+ one LF → len b ≤ u64_max →
  parse_pax_records (S fuel) (b +:+ rest) = rs ← parse_pax_records fuel rest; Ok (r :: rs).
Proof.
  intros Hb Hmax. assert (0 < len b).
  { rewrite Hb, !len_app. change (len " ") with 1. unfold len. lia. }
  simpl. assert (is_empty (b +:+ rest) = false) as ->.
  { apply is_empty_false. intros E. apply (f_equal len) in E. rewrite len_app in E. unfold len in *. simpl in E. lia. }
  assert (split_once " " (b +:+ rest) = Some (dec (len b), r +:+ one LF +:+ rest)) as ->.
  { apply split_once_Some. split.
    - rewrite Hb at 1. by rewrite !app_assoc_str, app_cons, app_empty_l.
    - apply dec_no_char; [done|lia]. }
  rewrite parse_dec by lia. cbn [ok_or mbind result_bind].
  assert (Hlen : len b = len (dec (len b)) + 1 + len r + 1).
  { rewrite Hb at 1. rewrite !len_app. change (len " ") with 1. change (len (one LF)) with 1. lia. }
  rewrite (proj2 (Z.leb_gt _ _)) by (unfold len in *; lia).
  rewrite (proj2 (Z.ltb_ge _ _)) by (rewrite len_app; unfold len in *; lia). cbn [orb].
  assert (Z.to_nat (len b) = String.length b) as Hn by (unfold len; lia). rewrite Hn.
  rewrite (substring_app_r b rest (String.length b)) by done.
  rewrite length_app_str, substring_all by lia. 
  replace (String.substring (String.length (dec (len b)) + 1) (String.length b - 1 - (String.length (dec (len b)) + 1)) (b +:+ rest))
    with r; [done|].
  replace (b +:+ rest) with ((dec (len b) +:+ " ") +:+ r +:+ (one LF +:+ rest))
    by (rewrite Hb at 2; by rewrite !app_assoc_str).
  rewrite substring_app_r by (by rewrite length_app_str).
  replace (String.length b - 1 - _)%nat with (String.length r) by (unfold len in *; lia).
  by rewrite substring_app_l.
Qed.

Lemma render_records_parse rs :
  ∃ text, render_records rs = Ok text ∧
    ∀ fuel, (String.length text < fuel)%nat → len text ≤ u64_max → parse_pax_records fuel text = Ok rs.
Proof.
  induction rs as [|r rs (text & Ht & IH)].
  - exists "". split; [done|]. by intros [|fuel]; [lia|].
  - destruct (record_bytes_Ok r) as (b & Hr & Hb). exists (b +:+ text).
    simpl. rewrite Hr. simpl. rewrite Ht. split; [done|]. intros [|fuel] Hf Hmax; [lia|].
    assert (0 < len b) by (rewrite Hb, !len_app; change (len " ") with 1; unfold len; lia).
    rewrite len_app in Hmax. rewrite length_app_str in Hf.
    rewrite (parse_pax_record _ b r text); [|done|unfold len in *; lia].
    rewrite IH; [done|unfold len in *; lia..].
Qed.

Lemma parse_pax_ends fuel text :
  (String.length text < fuel)%nat → parse_pax_records fuel text ≠ Err OutOfFuel.
Proof.
  revert text; induction fuel as [|fuel IH]; intros text Hf; [lia|]. simpl.
  destruct (is_empty text); [done|]. destruct (split_once " " text) as [[prefix r]|]; [|done].
  destruct (parse_u u64_max prefix) as [length|]; [|done]. simpl.
  destruct (Z.leb_spec length (len prefix + 1)) as [|Hlo]; [done|].
  destruct (Z.ltb_spec (len text) length) as [|Hhi]; [done|]. simpl.
  intros [E|(? & _ & E)]%bind_Err; [|done]. revert E. apply IH.
  rewrite length_substring; unfold len in *; lia.
Qed.
Arguments parse_pax_records : simpl never.
Lemma render_records_Ok rs : ∃ text, render_records rs = Ok text.
Proof. destruct (render_records_parse rs) as (text & ? & _). eauto. Qed.
Lemma filter_extensions_ends `{TarCrate} l promoted : filter_extensions l promoted ≠ Err OutOfFuel.
Proof.
  induction l as [|e l IH]; [done|]. simpl. intros [E|(? & _ & [E|(? & _ & E)]%bind_Err)]%bind_Err; [|done..].
  destruct (header_type (ext_header e)); try done.
  apply bind_Err in E as [E|(rs & _ & E)]; [revert E; apply parse_pax_ends; lia|].
  destruct (render_records_Ok (filter (λ r, keep_record promoted r = true) rs)) as [text Ht].
  rewrite Ht in E. done.
Qed.
Lemma apply_extension_ends t header data p : apply_extension t header data p ≠ Err OutOfFuel.
Proof.
  unfold apply_extension. intros [E|(? & _ & E)]%bind_Err; [|by case_match].
  destruct t; try done. apply bind_Err in E as [E|(? & _ & E)]; [|done]. revert E. apply parse_pax_ends. lia.
Qed.

(** ** Progress: reading consumes the stream, and no loop runs out of turns *)

Definition left_of (c : Cursor) : nat := from_option (λ r, length (data r)) 0%nat (reader c).

Section progress.
Context `{TarCrate} (open : result FirestoneError Reader) (label : string).
Abbreviation Act := (M Cursor Stop).

(** From an open reader, [m] does not run out of turns; and when it succeeds with [a] it has
    consumed at least [need a] bytes. *)
Definition ends {A} (m : Act A) (need : A → nat) (c : Cursor) : Prop :=
  is_Some (reader c) →
  match m c with
  | (Ok a, c') => is_Some (reader c') ∧ (left_of c' + need a ≤ left_of c)%nat
  | (Err e, _) => e ≠ OutOfFuel
  end.

Lemma ends_bind {A B} (m : Act A) (k : A → Act B) n1 n2 need c :
  ends m n1 c →
  (∀ a c', m c = (Ok a, c') → (left_of c' + n1 a ≤ left_of c)%nat → ends (k a) n2 c' ∧ ∀ b, (need b ≤ n1 a + n2 b)%nat) →
  ends (m ≫= k) need c.
Proof.
  intros Hm Hk Hr. specialize (Hm Hr). unfold mbind, M_bind. destruct (m c) as [[a|e] c'] eqn:Em; [|done].
  destruct Hm as [Hr' Hl]. destruct (Hk a c' eq_refl Hl) as [He Hn]. specialize (He Hr').
  destruct (k a c') as [[b|e] c'']; [|done]. destruct He. specialize (Hn b). split; [done|lia].
Qed.
Lemma ends_pure {A} (r : result Stop A) c : r ≠ Err OutOfFuel → ends (M_lift r) (λ _, 0%nat) c.
Proof. intros Hr Hc. simpl. destruct r as [|e]; [split; [done|lia]|congruence]. Qed.
Lemma ends_ret {A} (a : A) c : ends (mret a) (λ _, 0%nat) c.
Proof. intros Hc. simpl. split; [done|lia]. Qed.
Lemma ends_fail {A} e need c : ends (M_fail (Fault e) : Act A) need c.
Proof. by intros Hc. Qed.
Lemma ends_weaken {A} (m : Act A) n1 need c : ends m n1 c → (∀ a, (need a ≤ n1 a)%nat) → ends m need c.
Proof.
  intros Hm Hn Hr. specialize (Hm Hr). destruct (m c) as [[a|] c']; [|done]. specialize (Hn a).
  destruct Hm. split; [done|lia].
Qed.
Lemma ends_seq {A B} (m : Act A) (k : A → Act B) n1 n2 c :
  ends m n1 c → (∀ a c', ends (k a) n2 c') → ends (m ≫= k) n2 c.
Proof. intros Hm Hk. eapply ends_bind; [done|]. intros a c' _ _. split; [apply Hk|lia]. Qed.

Lemma pull_length n r bytes r' :
  pull n r = Ok (bytes, r') → data r = bytes ++ data r' ∧ length_z bytes <= Z.max 0 n.
Proof.
  unfold pull, length_z. destruct (Z.leb_spec n (Z.of_nat (length (data r)))).
  - intros [= <- <-]. simpl. rewrite take_drop, length_take. split; [done|lia].
  - destruct (fails r); [done|]. intros [= <- <-]. simpl. rewrite app_nil_r. split; [done|lia].
Qed.
Lemma ends_read_some n c : ends (read_some n) length c.
Proof.
  intros [r Hr]. unfold read_some. rewrite Hr. destruct (pull n r) as [[bytes r']|e] eqn:Hp; [|done].
  apply pull_length in Hp as [Hd _]. split; [by eexists|]. unfold left_of. rewrite Hr. simpl.
  rewrite Hd, length_app. lia.
Qed.
Lemma ends_take_pending c : ends (take_pending label) (λ _, 0%nat) c.
Proof.
  intros Hr. unfold take_pending. destruct (pending_data c); [|done]. split; [done|]. unfold left_of. simpl. lia.
Qed.
Lemma ends_skip_padding size c : ends (skip_padding label size) (λ _, 0%nat) c.
Proof.
  unfold skip_padding. case_match; [apply ends_ret|]. eapply ends_seq; [apply ends_read_some|].
  intros a c'. case_match; [apply ends_fail|apply ends_ret].
Qed.
Lemma ends_read_exact size c : ends (read_exact_padded label size) (λ _, 0%nat) c.
Proof.
  unfold read_exact_padded. eapply ends_seq; [apply ends_read_some|]. intros a c'.
  case_match; [apply ends_fail|]. eapply ends_seq; [apply ends_skip_padding|]. intros. apply ends_ret.
Qed.
Lemma ends_payload c : ends (payload label) (λ _, 0%nat) c.
Proof. unfold payload. eapply ends_seq; [apply ends_take_pending|]. intros. apply ends_read_exact. Qed.
Lemma ends_skip_data c : ends (skip_data label) (λ _, 0%nat) c.
Proof.
  unfold skip_data. eapply ends_seq; [apply ends_take_pending|]. intros.
  eapply ends_seq; [apply ends_read_exact|]. intros. apply ends_ret.
Qed.
Definition block_need (b : option (list Z)) : nat := if b then 512%nat else 0%nat.
Lemma ends_read_block c : ends (read_block label) block_need c.
Proof.
  intros Hr. pose proof (ends_read_some BLOCK c Hr) as Hs. unfold read_block, mbind, M_bind.
  destruct (read_some BLOCK c) as [[b|e] c']; [|done]. destruct Hs as [Hr' Hl].
  destruct (Z.eqb_spec (length_z b) 0); simpl; [split; [done|lia]|].
  destruct (Z.ltb_spec (length_z b) BLOCK); simpl; [done|]. split; [done|].
  unfold length_z, BLOCK in *. lia.
Qed.

Definition member_need {A} (m : option A) : nat := if m then 512%nat else 0%nat.
Lemma ends_read_header_loop fuel p c :
  (left_of c < fuel)%nat → ends (read_header_loop label fuel p) member_need c.
Proof.
  revert p c; induction fuel as [|fuel IH]; intros p c Hf; [lia|]. simpl.
  intros Hr. pose proof (ends_read_block c Hr) as Hb. unfold mbind at 1, M_bind at 1.
  destruct (read_block label c) as [[[block|]|e] c']; [| |done].
  2:{ destruct (exts p); simpl; [|done]. destruct Hb. split; [done|lia]. }
  destruct Hb as [Hr' Hl]. simpl in Hl. destruct (forallb _ block); [simpl; split; [done|lia]|].
  unfold lift. unfold mbind at 1, M_bind at 1, M_lift at 1.
  destruct (cksum block) as [stored|]; [|done]. simpl.
  destruct (negb (checksum_matches block stored)); [done|].
  case_bool_decide; [done|]. unfold mbind at 1, M_bind at 1.
  destruct (entry_size block) as [size|]; [|done]. simpl.
  destruct (is_extension_type (header_type block)).
  2:{ simpl. split; [done|]. unfold left_of in *. simpl. lia. }
  destruct (MAX_EXTENSION_BYTES <? size); [done|].
  pose proof (ends_read_exact size c' Hr') as Hx. unfold mbind at 1, M_bind at 1.
  destruct (read_exact_padded label size c') as [[ext|e] c'']; [|done]. destruct Hx as [Hr'' Hl'].
  unfold mbind, M_bind, M_lift.
  pose proof (apply_extension_ends (header_type block) block (utf8 ext) p) as Ha.
  destruct (apply_extension _ _ _ _) as [p'|e]; [|congruence].
  pose proof (IH p' c'' ltac:(lia) Hr'') as Hn.
  destruct (read_header_loop label fuel p' c'') as [[m|e] c3]; [|done]. destruct Hn. split; [done|lia].
Qed.
Lemma ends_read_header c : ends (read_header open label) member_need c.
Proof.
  intros [r Hr]. unfold read_header, mbind, M_bind, M_get. rewrite Hr. cbn [mret M_ret].
  pose proof (ends_skip_data c ltac:(by eexists)) as Hs.
  destruct (pending_data c) as [size|].
  - destruct (skip_data label c) as [[u|e] c']; [|done]. destruct Hs as [Hr' Hl].
    pose proof (ends_read_header_loop (turns c') no_pending c' ltac:(unfold turns, left_of; lia) Hr') as Hn.
    destruct (read_header_loop label (turns c') no_pending c') as [[m|e] c'']; [|done].
    destruct Hn. split; [done|lia].
  - cbn [mret M_ret]. by apply ends_read_header_loop; [unfold turns, left_of; lia|eexists].
Qed.

(** A closed cursor is opened first. *)
Lemma read_header_opens c :
  reader c = None → 
  match open with
  | Err e => read_header open label c = (Err (Fault e), c)
  | Ok r => read_header open label c = read_header open label
      {| reader := Some r; next_ordinal := 0; pending_data := None; bytes_read := bytes_read c |}
  end.
Proof.
  intros Hr. unfold read_header, mbind, M_bind, M_get, reopen. rewrite Hr. by destruct open.
Qed.

Lemma ends_seek_loop fuel ordinal c :
  (left_of c < fuel)%nat → ends (seek_loop open label fuel ordinal) (λ _, 0%nat) c.
Proof.
  revert c; induction fuel as [|fuel IH]; intros c Hf; [lia|]. simpl. intros Hr.
  pose proof (ends_read_header c Hr) as Hh. unfold mbind at 1, M_bind at 1.
  destruct (read_header open label c) as [[[m|]|e] c']; [|done|done]. destruct Hh as [Hr' Hl]. simpl in Hl.
  destruct (member_ordinal m =? ordinal); [simpl; split; [done|lia]|].
  pose proof (ends_skip_data c' Hr') as Hs. unfold mbind, M_bind.
  destruct (skip_data label c') as [[u|e] c'']; [|done]. destruct Hs as [Hr'' Hl'].
  pose proof (IH c'' ltac:(lia) Hr'') as Hn.
  destruct (seek_loop open label fuel ordinal c'') as [[m'|e] c3]; [|done]. destruct Hn. split; [done|lia].
Qed.
(** Seeking never runs out of turns, from any cursor. *)
Lemma seek_to_ends ordinal c c' : seek_to open label ordinal c ≠ (Err OutOfFuel, c').
Proof.
  unfold seek_to. unfold mbind at 1, M_bind at 1, M_get at 1.
  assert (Hloop : ∀ c, is_Some (reader c) → ∀ c', (c ← M_get; seek_loop open label (turns c) ordinal) c ≠ (Err OutOfFuel, c')).
  { intros c0 Hr c1. unfold mbind, M_bind, M_get.
    pose proof (ends_seek_loop (turns c0) ordinal c0 ltac:(unfold turns, left_of; lia) Hr) as Hn.
    destruct (seek_loop _ _ _ _ _) as [[m|e] c2]; [done|congruence]. }
  destruct (bool_decide (reader c = None) || (ordinal <? next_ordinal c)) eqn:Hb.
  - unfold mbind at 1, M_bind at 1, reopen. destruct open; [|done]. apply Hloop. by eexists.
  - apply orb_false_iff in Hb as [Hb _]. apply bool_decide_eq_false in Hb.
    apply Hloop. destruct (reader c); [by eexists|done].
Qed.

Lemma ends_contents fuel c :
  (left_of c < fuel)%nat → ends (contents open label fuel) (λ _, 0%nat) c.
Proof.
  revert c; induction fuel as [|fuel IH]; intros c Hf; [lia|]. simpl. intros Hr.
  pose proof (ends_read_header c Hr) as Hh. unfold mbind at 1, M_bind at 1.
  destruct (read_header open label c) as [[[m|]|e] c']; [|by simpl; destruct Hh; split; [|lia]|done].
  destruct Hh as [Hr' Hl]. simpl in Hl. pose proof (ends_payload c' Hr') as Hs. unfold mbind, M_bind.
  destruct (payload label c') as [[u|e] c'']; [|done]. destruct Hs as [Hr'' Hl'].
  pose proof (IH c'' ltac:(lia) Hr'') as Hn.
  destruct (contents open label fuel c'') as [[m'|e] c3]; [|done]. destruct Hn. split; [done|simpl; lia].
Qed.
End progress.
