(* ===== verification/Merge.v ===== *)
(** Merging OCI layers ([firestone-core/src/oci/layers.rs]): [merge_layers], its planning
    pass and its writing pass.  The output is the bytes written so far; any write may fail.  The theorems
    relate the two streaming passes to random access: the plan is the overlay union of the
    members each layer holds, and the output is the surviving members' bytes in path order. *)
From S2P Require Import Prelude RustStr Errors Bounded Utf8 BTree Overlay Tar.
Open Scope Z_scope.

Record LayerSource : Set := { open : result FirestoneError Reader; source_label : string }.
Record MergeRequest : Set := {
  layers : list LayerSource; config : OciImageConfig; limits : MergeLimits;
  injected_init : option (list Z) }.
Record MergeSummary : Set := {
  entries_written : Z; uncompressed_bytes_read : Z; unpacked_bytes : Z; summary_config : OciImageConfig }.
Record MergePlan : Set := {
  entries : gmap string MergedEntry; overrides : gmap string EmitMode; plan_bytes_read : Z }.

(** [LayerCursor::label]. *)
Definition cursor_label (index : nat) (source : LayerSource) : string :=
  source_label source +:+ " (index " +:+ dec (Z.of_nat index) +:+ ")".

(** What has been written, and how many writes were made. *)
Record Out : Set := { written : list Z; writes : nat }.

Section merge.
Context `{TarCrate} (lossy : string → string).
(** The writer's failures, by the number of the write. *)
Context (write_fault : nat → option IoError).

(** ** Pass one *)

Fixpoint member_loop (fuel : nat) (limits : MergeLimits) (index : nat) (source : LayerSource)
    (total_bytes : Z) (st : gmap string MergedEntry * gmap string (Z * Z)) (members_read : Z)
    : M Cursor Stop (gmap string MergedEntry * Z) :=
  match fuel with
  | O => M_fail OutOfFuel
  | S fuel =>
      let label := cursor_label index source in
      m ← read_header (open source) label;
      match m with
      | None => mret (st.1, members_read)
      | Some member =>
          let members_read := members_read + 1 in
          if max_entries limits <? members_read then
            M_fail (Fault (cap_error ("the OCI layers hold more than "
              +:+ dec (max_entries limits) +:+ " entries")))
          else
          c ← M_get;
          let projected := saturating_add u64_max
            (saturating_add u64_max total_bytes (bytes_read c)) (data_size member) in
          if max_uncompressed_bytes limits <? projected then
            M_fail (Fault (cap_error ("the OCI layers expand beyond "
              +:+ dec (max_uncompressed_bytes limits) +:+ " uncompressed bytes")))
          else
          st ← lift (apply_member lossy label index st member);
          skip_data label;;
          member_loop fuel limits index source total_bytes st members_read
      end
  end.

(** Fuel for a walk over a layer: one turn per byte, and one more. *)
Definition layer_turns (source : LayerSource) : nat :=
  S (match open source with Ok r => length (data r) | Err _ => 0%nat end).

Fixpoint layer_loop (limits : MergeLimits) (index : nat) (sources : list LayerSource)
    (entries : gmap string MergedEntry) (total_bytes members_read : Z)
    : result Stop (gmap string MergedEntry * Z) :=
  match sources with
  | [] => Ok (entries, total_bytes)
  | source :: sources =>
      match member_loop (layer_turns source) limits index source total_bytes (entries, ∅) members_read
              new_cursor with
      | (Err e, _) => Err e
      | (Ok (entries, members_read), c) =>
          layer_loop limits (S index) sources entries
            (saturating_add u64_max total_bytes (bytes_read c)) members_read
      end
  end.

Definition build_plan (request : MergeRequest) : result Stop MergePlan :=
  '(entries, total) ← layer_loop (limits request) 0 (layers request) ∅ 0 0;
  overrides ← map_err Fault (plan_hardlinks lossy entries);
  Ok {| entries := entries; overrides := overrides; plan_bytes_read := total |}.

(** ** Writing *)

Definition raw_write (bytes : list Z) : M Out IoError () := λ o,
  match write_fault (writes o) with
  | Some e => (Err e, {| written := written o; writes := S (writes o) |})
  | None => (Ok (), {| written := written o ++ bytes; writes := S (writes o) |})
  end.
Definition write_all (bytes : list Z) : M Out Stop () :=
  M_map_err (λ e, Fault (write_error e)) (raw_write bytes).

Definition write_padding (size : Z) : M Out Stop () :=
  let padding := padding_for size in
  if padding =? 0 then mret () else write_all (replicate (Z.to_nat padding) 0).

Definition write_extension (e : ExtensionHeader) : M Out Stop () :=
  write_all (ext_header e);;
  write_all (bytes_of (ext_data e));;
  write_padding (len (ext_data e)).
Fixpoint write_extensions (l : list ExtensionHeader) : M Out Stop () :=
  match l with
  | [] => mret ()
  | e :: l => write_extension e;; write_extensions l
  end.

Definition injection_error (path : string) (e : IoError) : FirestoneError :=
  with_source (layer_error ("cannot build the injected header for /" +:+ path)
    "report this as a firestone bug") (io_text e).
Definition injected_header (path : string) (mode size : Z) : result FirestoneError (list Z) :=
  let path := lossy path in
  h ← map_err (injection_error path) (set_path path new_ustar);
  h ← map_err (injection_error path) (set_username "root" h);
  h ← map_err (injection_error path) (set_groupname "root" h);
  Ok (set_cksum (set_size size (set_mtime 0 (set_gid 0 (set_uid 0 (set_mode mode
    (set_entry_type TRegular h))))))).

Definition write_injected_marker (path : string) : M Out Stop () :=
  header ← lift (injected_header path 420 0);
  write_all header.
Definition write_injected_init (path : string) (init_binary : list Z) : M Out Stop () :=
  let size := length_z init_binary in
  header ← lift (injected_header path 493 size);
  write_all header;;
  write_all init_binary;;
  write_padding size.
Definition write_injected (path init_path : string) (init_binary : list Z) : M Out Stop Z :=
  if String.eqb path init_path then
    write_injected_init path init_binary;;
    mret (length_z init_binary)
  else
    write_injected_marker path;;
    mret 0.
Definition append_firestone_init (init_binary : list Z) : M Out Stop () :=
  write_injected_marker FIRESTONE_OCI_MARKER_PATH;;
  write_injected_init FIRESTONE_INIT_PATH init_binary.

(** Running a cursor's or the writer's action inside a pass. *)
Definition on_cursor {A} (m : M Cursor Stop A) : M (Cursor * Out) Stop A := λ w,
  let '(r, c) := m w.1 in (r, (c, w.2)).
Definition on_out {S A} (m : M Out Stop A) : M (S * Out) Stop A := λ w,
  let '(r, o) := m w.2 in (r, (w.1, o)).

Definition copy_error (e : IoError) : FirestoneError :=
  with_source (with_hint (error_new Dependency "cannot copy an OCI layer entry")
    "re-pull the image and merge it again") (io_text e).
(** [io::copy(&mut reader.take(size), output)]: what the reader has is written before its
    failure is reported. *)
Definition io_copy (size : Z) : M (Cursor * Out) Stop Z := λ w,
  let '(c, o) := w in
  match reader c with
  | None => (Err (Fault (with_hint (error_new Dependency "an OCI layer reader is not open")
                           "report this as a firestone bug")), w)
  | Some r =>
      let n := Z.to_nat (Z.min size (length_z (data r))) in
      let c' := {| reader := Some {| data := drop n (data r); fails := fails r |};
                   next_ordinal := next_ordinal c; pending_data := pending_data c;
                   bytes_read := bytes_read c |} in
      match raw_write (take n (data r)) o with
      | (Err e, o) => (Err (Fault (copy_error e)), (c', o))
      | (Ok _, o) =>
          match (if size <=? length_z (data r) then None else fails r) with
          | Some e => (Err (Fault (copy_error e)), (c', o))
          | None => (Ok (Z.of_nat n), (c', o))
          end
      end
  end.
Definition count_bytes (copied : Z) : M Cursor Stop () := λ c,
  (Ok (), {| reader := reader c; next_ordinal := next_ordinal c; pending_data := pending_data c;
             bytes_read := saturating_add u64_max (bytes_read c) copied |}).
Definition copy_data (label : string) : M (Cursor * Out) Stop () :=
  size ← on_cursor (take_pending label);
  copied ← io_copy size;
  on_cursor (count_bytes copied);;
  if negb (copied =? size) then M_fail (Fault (truncated label " is truncated inside an entry"))
  else
    on_cursor (skip_padding label size);;
    on_out (write_padding size).

(** ** Pass two *)

Abbreviation Pass := (list Cursor * Out)%type.

Definition out_of_range (index : nat) : FirestoneError :=
  layer_error ("layer index " +:+ dec (Z.of_nat index) +:+ " is out of range") "report this as a firestone bug".

(** [cursors.get_mut(index)] and an action on that cursor and the output. *)
Definition with_cursor {A} (index : nat) (m : M (Cursor * Out) Stop A) : M Pass Stop A := λ w,
  match w.1 !! index with
  | None => (Err (Fault (out_of_range index)), w)
  | Some c => let '(r, (c, o)) := m (c, w.2) in (r, (<[index := c]> w.1, o))
  end.

Definition member_unpacked (kind : MergedKind) (size : Z) : Z :=
  match kind with
  | Regular => size
  | Directory | Symlink | HardLink => METADATA_ENTRY_BYTES
  | Other => 0
  end.

(** The content a promoted hard link carries, read through a cursor of its own. *)
Definition copy_content (path : string) (index : nat) (source : LayerSource) (ordinal size : Z)
    : M Out Stop () := λ o,
  let label := cursor_label index source in
  let '(r, (_, o)) :=
    (target ← on_cursor (seek_to (open source) label ordinal);
     if negb (is_file_type (entry_type target)) || negb (data_size target =? size) then
       M_fail (Fault (layer_error ("hardlink " +:+ lossy path +:+ " has an unusable content source")
                        REPULL_HINT))
     else copy_data label) (new_cursor, o) in
  (r, o).

Definition write_entry (request : MergeRequest) (plan : MergePlan) (path : string) (entry : MergedEntry)
    : M Pass Stop Z :=
  let index := layer entry in
  match layers request !! index with
  | None => M_fail (Fault (out_of_range index))
  | Some source =>
      let label := cursor_label index source in
      member ← with_cursor index (on_cursor (seek_to (open source) label (ordinal entry)));
      observed ← lift (normalize_entry_path lossy (member_path member) label);
      if negb (bool_decide (observed = Some path)) then
        M_fail (Fault (layer_error ("layer " +:+ label +:+ " changed while it was being merged")
                         "re-pull the image and merge it again"))
      else
      match overrides plan !! path with
      | None =>
          on_out (write_extensions (extensions member));;
          on_out (write_all (header member));;
          with_cursor index (copy_data label);;
          mret (member_unpacked (kind entry) (data_size member))
      | Some (Relink target) =>
          kept ← M_lift (filter_extensions (extensions member) false);
          on_out (write_extensions kept);;
          header ← lift (map_err (λ e : IoError, with_source (layer_error
            ("cannot re-point hardlink " +:+ lossy path) REPULL_HINT) (io_text e))
            (set_link_name_literal target (header member)));
          on_out (write_all (set_cksum header));;
          with_cursor index (on_cursor (skip_data label));;
          mret METADATA_ENTRY_BYTES
      | Some (Promote ordinal size) =>
          kept ← M_lift (filter_extensions (extensions member) true);
          on_out (write_extensions kept);;
          header ← lift (map_err (λ e : IoError, with_source (layer_error
            ("cannot promote hardlink " +:+ lossy path) REPULL_HINT) (io_text e))
            (set_link_name_literal "" (set_size size (set_entry_type TRegular (header member)))));
          on_out (write_all (set_cksum header));;
          with_cursor index (on_cursor (skip_data label));;
          on_out (copy_content path index source ordinal size);;
          mret size
      end
  end.

(** The injected members due before or at [path]: what remains of them, and whether one of
    them takes the place of [path]. *)
Fixpoint flush_injected (init_path : string) (init_binary : list Z) (injected : list string)
    (path : string) (shadowed : bool) (count unpacked : Z) : M Pass Stop (list string * bool * Z * Z) :=
  match injected with
  | next :: rest =>
      if bool_decide (str_le next path) then
        size ← on_out (write_injected next init_path init_binary);
        flush_injected init_path init_binary rest path (shadowed || String.eqb next path)
          (count + 1) (saturating_add u64_max unpacked size)
      else mret (injected, shadowed, count, unpacked)
  | [] => mret ([], shadowed, count, unpacked)
  end.

Fixpoint write_entries (request : MergeRequest) (plan : MergePlan) (init_path : string)
    (init_binary : list Z) (l : list (string * MergedEntry)) (injected : list string)
    (count unpacked : Z) : M Pass Stop (list string * Z * Z) :=
  match l with
  | [] => mret (injected, count, unpacked)
  | (path, entry) :: l =>
      st ← flush_injected init_path init_binary injected path false count unpacked;
      let '(injected, shadowed, count, unpacked) := st in
      if (shadowed : bool) then write_entries request plan init_path init_binary l injected count unpacked
      else
        size ← write_entry request plan path entry;
        write_entries request plan init_path init_binary l injected (count + 1)
          (saturating_add u64_max unpacked size)
  end.
Fixpoint write_rest (init_path : string) (init_binary : list Z) (injected : list string)
    (count unpacked : Z) : M Out Stop (Z * Z) :=
  match injected with
  | [] => mret (count, unpacked)
  | next :: injected =>
      size ← write_injected next init_path init_binary;
      write_rest init_path init_binary injected (count + 1) (saturating_add u64_max unpacked size)
  end.

Definition injected_paths (request : MergeRequest) (plan : MergePlan) : list string :=
  let init_path := resolve_injection_path (entries plan) FIRESTONE_INIT_PATH in
  let marker_path := resolve_injection_path (entries plan) FIRESTONE_OCI_MARKER_PATH in
  match injected_init request with
  | Some _ => merge_sort str_le [marker_path; init_path]
  | None => []
  end.

Definition write_merged (request : MergeRequest) (plan : MergePlan) : M Out Stop (Z * Z) := λ o,
  let init_path := resolve_injection_path (entries plan) FIRESTONE_INIT_PATH in
  let init_binary := from_option id [] (injected_init request) in
  let '(r, (_, o)) :=
    (st ← write_entries request plan init_path init_binary (iter (entries plan))
            (injected_paths request plan) 0 0;
     let '(injected, count, unpacked) := st in
     on_out (write_rest init_path init_binary injected count unpacked))
    ((λ _, new_cursor) <$> layers request, o) in
  (r, o).

(** The writer is flushed at the end, which is one more call that may fail. *)
Definition merge_layers (request : MergeRequest) : M Out Stop MergeSummary :=
  plan ← M_lift (build_plan request);
  counts ← write_merged request plan;
  write_all (replicate (Z.to_nat (BLOCK * 2)) 0);;
  write_all [];;
  mret {| entries_written := counts.1; uncompressed_bytes_read := plan_bytes_read plan;
          unpacked_bytes := counts.2; summary_config := config request |}.
End merge.

(** ** The reference: layers as lists of members, and their actions *)

Section reference.
Context `{TarCrate} (lossy : string → string).

(** Everything a layer's stream holds. *)
Definition layer_contents (index : nat) (source : LayerSource) : result Stop (list (TarMember * list Z)) :=
  (contents (open source) (cursor_label index source) (layer_turns source) new_cursor).1.

Fixpoint layer_actions (label : string) (index : nat) (local_files : gmap string (Z * Z))
    (members : list TarMember) : result FirestoneError (list Action) :=
  match members with
  | [] => Ok []
  | member :: members =>
      '(a, local_files) ← member_action lossy label index local_files member;
      acts ← layer_actions label index local_files members;
      Ok (option_list a ++ acts)
  end.

(** The layers' actions, each read from its own stream. *)
Inductive reads_as : nat → list LayerSource → list (list (TarMember * list Z)) → list (list Action) → Prop :=
  | reads_nil index : reads_as index [] [] []
  | reads_cons index source sources members layers acts actions :
      layer_contents index source = Ok members →
      layer_actions (cursor_label index source) index ∅ members.*1 = Ok acts →
      reads_as (S index) sources layers actions →
      reads_as index (source :: sources) (members :: layers) (acts :: actions).

Lemma skip_data_payload label c :
  skip_data label c = match payload label c with (Ok _, c') => (Ok (), c') | (Err e, c') => (Err e, c') end.
Proof.
  unfold skip_data, payload, mbind, M_bind. destruct (take_pending label c) as [[size|e] c']; [|done].
  by destruct (read_exact_padded label size c') as [[d|e] c''].
Qed.

Lemma contents_S open_ label fuel c :
  contents open_ label (S fuel) c =
    match read_header open_ label c with
    | (Ok None, c1) => (Ok [], c1)
    | (Ok (Some m), c1) =>
        match payload label c1 with
        | (Ok d, c2) =>
            match contents open_ label fuel c2 with
            | (Ok l, c3) => (Ok ((m, d) :: l), c3)
            | (Err e, c3) => (Err e, c3)
            end
        | (Err e, c2) => (Err e, c2)
        end
    | (Err e, c1) => (Err e, c1)
    end.
Proof.
  cbn [contents]. unfold mbind, M_bind. destruct (read_header open_ label c) as [[[m|]|] c1]; [|done..].
  destruct (payload label c1) as [[d|] c2]; [|done]. by destruct (contents open_ label fuel c2) as [[l|] c3].
Qed.

Lemma contents_opens index source fuel :
  contents (open source) (cursor_label index source) (S fuel) new_cursor =
    match open source with
    | Err e => (Err (Fault e), new_cursor)
    | Ok r => contents (open source) (cursor_label index source) (S fuel)
        {| reader := Some r; next_ordinal := 0; pending_data := None; bytes_read := 0 |}
    end.
Proof.
  pose proof (read_header_opens (open source) (cursor_label index source) new_cursor eq_refl) as Ho.
  cbn [contents]. unfold mbind at 1 3, M_bind at 1 3. destruct (open source); by rewrite Ho.
Qed.

Lemma member_loop_opens fuel limits index source total st n :
  member_loop lossy (S fuel) limits index source total st n new_cursor =
    match open source with
    | Err e => (Err (Fault e), new_cursor)
    | Ok r => member_loop lossy (S fuel) limits index source total st n
        {| reader := Some r; next_ordinal := 0; pending_data := None; bytes_read := 0 |}
    end.
Proof.
  pose proof (read_header_opens (open source) (cursor_label index source) new_cursor eq_refl) as Ho.
  cbn [member_loop]. unfold mbind at 1 3, M_bind at 1 3. destruct (open source); by rewrite Ho.
Qed.

(** The planning loop reads exactly the layer's members, applies them in order, and
    accepts no more of them than the cap allows. *)
Lemma member_loop_contents fuel limits index source total st n c e' n' c' :
  member_loop lossy fuel limits index source total st n c = (Ok (e', n'), c') →
  ∃ members lf',
    contents (open source) (cursor_label index source) fuel c = (Ok members, c') ∧
    fold_result (apply_member lossy (cursor_label index source) index) st members.*1 = Ok (e', lf') ∧
    n' = n + length_z members ∧ (members = [] ∨ n' <= max_entries limits).
Proof.
  revert st n c; induction fuel as [|fuel IH]; intros st n c; [done|]. rewrite contents_S.
  cbn [member_loop]. unfold mbind, M_bind.
  destruct (read_header _ _ c) as [[[m|]|e] c1]; [| |done].
  2:{ destruct st as [entries lf]. intros [= <- <- <-]. exists [], lf.
      unfold length_z. simpl. split_and!; [done|done|lia|by left]. }
  case_match eqn:Hcap; [done|]. cbn [M_get]. case_match; [done|].
  unfold lift, M_lift. destruct (apply_member _ _ _ st m) as [st'|] eqn:Ha; [|done]. cbn [map_err].
  rewrite skip_data_payload. destruct (payload _ c1) as [[d|] c2]; [|done].
  intros (members & lf' & Hc & Hf & -> & Hn)%IH. rewrite Hc. exists ((m, d) :: members), lf'.
  cbn [fold_result fmap list_fmap fst]. rewrite Ha. cbn [mbind result_bind]. apply Z.ltb_ge in Hcap.
  unfold length_z in *. cbn [length]. split_and!; [done|done|lia|right].
  destruct Hn as [->|]; simpl in *; lia.
Qed.

Lemma fold_apply_actions label index entries lf members e' lf' :
  fold_result (apply_member lossy label index) (entries, lf) members = Ok (e', lf') →
  ∃ acts, layer_actions label index lf members = Ok acts ∧
    e' = foldl (λ m a, run_action index a m) entries acts ∧ Forall (action_ok index) acts.
Proof.
  revert entries lf; induction members as [|m members IH]; intros entries lf; cbn [fold_result layer_actions].
  - intros [= <- <-]. by exists [].
  - rewrite apply_member_action. intros Hf. inv_ok. 
    match goal with E : member_action _ _ _ _ _ = Ok _ |- _ => rename E into Hm end.
    destruct r0 as [a lf1]. cbn [fst snd] in *.
    match goal with E : fold_result _ _ _ = Ok _ |- _ => apply IH in E as (acts & Hacts & -> & Hok) end.
    rewrite Hm. cbn [mbind result_bind]. rewrite Hacts. cbn [mbind result_bind].
    eexists. split; [done|]. destruct a as [a|]; simpl; [|done].
    split; [done|]. constructor; [|done]. by eapply member_action_ok.
Qed.
End reference.

(** ** The plan is the overlay of the layers *)

Section plan.
Context `{TarCrate} (lossy : string → string).

Lemma layer_loop_overlay limits index sources entries total members_read entries' total' :
  layers_below index entries → members_read <= max_entries limits →
  layer_loop lossy limits index sources entries total members_read = Ok (entries', total') →
  ∃ layers actions, reads_as lossy index sources layers actions ∧
    (∀ k, entries' !! k = foldl overlay (λ k, entries !! k) actions k) ∧
    members_read + foldr (λ l n, length_z l + n) 0 layers <= max_entries limits ∧
    layers_below (index + length sources) entries'.
Proof.
  revert index entries total members_read; induction sources as [|source sources IH];
    intros index entries total members_read Hlow Hn; cbn [layer_loop].
  - intros [= <- <-]. exists [], []. split_and!; [constructor|done|simpl; lia|].
    by rewrite Nat.add_0_r.
  - destruct (member_loop _ _ _ _ _ _ _ _ _) as [[[entries1 n1]|e] c] eqn:Hm; [|done].
    apply member_loop_contents in Hm as (members & lf & Hc & Hf & -> & Hcap).
    apply fold_apply_actions in Hf as (acts & Hacts & -> & Hok).
    intros (layers & actions & Hreads & Hover & Hsum & Hbelow)%IH.
    + exists (members :: layers), (acts :: actions). split_and!.
      * econstructor; [|done|done]. unfold layer_contents. by rewrite Hc.
      * intros k. rewrite Hover. cbn [foldl]. clear -Hlow Hok.
        assert (∀ f g k, (∀ k, f k = g k) → foldl overlay f actions k = foldl overlay g actions k) as Hext.
        { induction actions as [|a actions IH]; intros f g k0 Hfg; [apply Hfg|]. cbn [foldl]. apply IH.
          intros k1. unfold overlay. by rewrite Hfg. }
        apply Hext. intros k0. by apply run_actions.
      * simpl. lia.
      * cbn [length]. by rewrite Nat.add_succ_r.
    + by apply run_actions_below.
    + destruct Hcap as [->|]; [unfold length_z; simpl; lia|done].
Qed.

(** Pass one reads every layer to its end and plans the overlay of what it read: a path
    survives with the last entry of the highest layer that has it, unless a later layer
    hides it; every surviving hard link resolves to content that survives; and the entry cap holds. *)
Lemma build_plan_overlay request plan :
  0 <= max_entries (limits request) →
  build_plan lossy request = Ok plan →
  ∃ layers_ actions, reads_as lossy 0 (layers request) layers_ actions ∧
    (∀ k, entries plan !! k = merged actions k) ∧
    foldr (λ l n, length_z l + n) 0 layers_ <= max_entries (limits request) ∧
    plan_hardlinks lossy (entries plan) = Ok (overrides plan) ∧
    layers_below (length (layers request)) (entries plan).
Proof.
  intros Hmax. unfold build_plan. intros Hb. inv_ok. destruct r as [entries total]. inv_ok.
  match goal with E : layer_loop _ _ _ _ _ _ _ = Ok _ |- _ =>
    apply layer_loop_overlay in E as (layers_ & actions & Hreads & Hover & Hsum & Hlow) end.
  - exists layers_, actions. split_and!; try done.
  - done.
  - done.
Qed.

(** ** The planning pass ends *)

Lemma apply_member_fault {S} label index st m (s s' : S) :
  lift (apply_member (H := list Z) (X := ExtensionHeader) lossy label index st m) s ≠ (Err OutOfFuel, s').
Proof. unfold lift, M_lift. by destruct (apply_member _ _ _ _ _). Qed.

Lemma ends_member_loop fuel limits index source total st n c c' :
  is_Some (reader c) → (left_of c < fuel)%nat →
  member_loop lossy fuel limits index source total st n c ≠ (Err OutOfFuel, c').
Proof.
  revert st n c; induction fuel as [|fuel IH]; intros st n c Hr Hf; [lia|]. cbn [member_loop].
  unfold mbind, M_bind. pose proof (ends_read_header (open source) (cursor_label index source) c Hr) as Hh.
  destruct (read_header _ _ c) as [[[m|]|e] c1]; [|done|congruence]. destruct Hh as [Hr1 Hl]. simpl in Hl.
  case_match; [done|]. cbn [M_get]. case_match; [done|].
  pose proof (apply_member_fault (cursor_label index source) index st m c1) as Ha.
  destruct (lift _ c1) as [[st'|e] c2] eqn:El; [|intros [= -> ->]; by eapply Ha].
  unfold lift, M_lift in El. injection El as _ <-.
  pose proof (ends_skip_data (cursor_label index source) c1 Hr1) as Hs.
  destruct (skip_data _ c1) as [[u|e] c2]; [|congruence]. destruct Hs as [Hr2 Hl2].
  apply IH; [done|lia].
Qed.

Lemma layer_loop_ends limits index sources entries total n :
  layer_loop lossy limits index sources entries total n ≠ Err OutOfFuel.
Proof.
  revert index entries total n; induction sources as [|source sources IH]; intros index entries total n;
    cbn [layer_loop]; [done|].
  assert (∀ c', member_loop lossy (layer_turns source) limits index source total (entries, ∅) n new_cursor
    ≠ (Err OutOfFuel, c')) as Hm.
  { intros c'. unfold layer_turns. rewrite member_loop_opens. destruct (open source) as [r|]; [|done].
    apply ends_member_loop; [by eexists|]. unfold left_of. simpl. lia. }
  destruct (member_loop _ _ _ _ _ _ _ _ _) as [[[e n']|err] c]; [apply IH|].
  intros [= ->]. by eapply Hm.
Qed.

Lemma build_plan_ends request : build_plan lossy request ≠ Err OutOfFuel.
Proof.
  unfold build_plan. intros [E|([entries total] & _ & E)]%bind_Err; [by eapply layer_loop_ends|].
  apply bind_Err in E as [E|(? & _ & E)]; [|done]. by destruct (plan_hardlinks lossy entries).
Qed.
End plan.
