(* ===== verification/MergeWrite.v ===== *)
(** The writing pass of the OCI merge ([firestone-core/src/oci/layers.rs]): seeking with
    restartable cursors is random access to the members a layer holds, and the merged tar
    is the surviving and injected members' bytes in ascending path order. *)
From S2P Require Import Prelude RustStr Errors Bounded Utf8 BTree Overlay Tar Merge.
Open Scope Z_scope.

(** ** Seeking is random access *)

Section seek.
Context `{TarCrate} (open : result FirestoneError Reader) (label : string).
Context (members : list (TarMember * list Z)).

(** The cursor stands before the n-th member. *)
Definition ready (n : nat) (c : Cursor) : Prop :=
  is_Some (reader c) ∧ next_ordinal c = Z.of_nat n ∧ pending_data c = None ∧
  ∃ fuel c', contents open label fuel c = (Ok (drop n members), c').
(** The cursor has read the n-th member's header. *)
Definition loaded (n : nat) (c : Cursor) : Prop :=
  is_Some (reader c) ∧ next_ordinal c = Z.of_nat (S n) ∧
  ∃ m d c', members !! n = Some (m, d) ∧ pending_data c = Some (data_size m) ∧
    payload label c = (Ok d, c') ∧ ready (S n) c'.
Definition cursor_ok (c : Cursor) : Prop :=
  reader c = None ∨ (∃ n, ready n c) ∨ (∃ n, loaded n c).

Lemma ready_agree n c1 c2 : agree c1 c2 → ready n c1 → ready n c2.
Proof.
  intros Hc (Hr & Ho & Hp & fuel & c' & Hk). destruct (blind_contents open label fuel c1 c2 Hc) as [E _].
  destruct Hc as (Er & Eo & Ep). split_and!; [by rewrite <- Er|congruence|congruence|].
  rewrite Hk in E. exists fuel, (contents open label fuel c2).2. simpl in E. rewrite E. by destruct (contents _ _ _ c2).
Qed.

(** Actions that leave the ordinal and the pending payload alone. *)
Definition keeps {A} (m : M Cursor Stop A) : Prop :=
  ∀ c a c', m c = (Ok a, c') → next_ordinal c' = next_ordinal c ∧ pending_data c' = pending_data c.
Lemma keeps_ret {A} (a : A) : keeps (mret a).
Proof. by intros c a' c' [= _ <-]. Qed.
Lemma keeps_fail {A} e : keeps (M_fail e : M Cursor Stop A).
Proof. done. Qed.
Lemma keeps_bind {A B} (m : M Cursor Stop A) (k : A → M Cursor Stop B) :
  keeps m → (∀ a, keeps (k a)) → keeps (m ≫= k).
Proof.
  intros Hm Hk c b c2. unfold mbind, M_bind. destruct (m c) as [[a|] c1] eqn:E; [|done].
  apply Hm in E as [??]. intros [??]%Hk. split; congruence.
Qed.
Lemma keeps_read_some n : keeps (read_some n).
Proof.
  intros c b c'. unfold read_some. destruct (reader c) as [r|]; [|done].
  destruct (pull n r) as [[bytes r']|]; [|done]. by intros [= <- <-].
Qed.
Lemma keeps_skip_padding size : keeps (skip_padding label size).
Proof.
  unfold skip_padding. case_match; [apply keeps_ret|]. apply keeps_bind; [apply keeps_read_some|].
  intros. case_match; [apply keeps_fail|apply keeps_ret].
Qed.
Lemma keeps_read_exact size : keeps (read_exact_padded label size).
Proof.
  apply keeps_bind; [apply keeps_read_some|]. intros. case_match; [apply keeps_fail|].
  apply keeps_bind; [apply keeps_skip_padding|]. intros. apply keeps_ret.
Qed.
Lemma keeps_read_block : keeps (read_block label).
Proof.
  apply keeps_bind; [apply keeps_read_some|]. intros. case_match; [apply keeps_ret|].
  case_match; [apply keeps_fail|apply keeps_ret].
Qed.

(** What reading a header does to the cursor's position. *)
Lemma read_header_loop_pos fuel p c m c' :
  read_header_loop label fuel p c = (Ok (Some m), c') →
  member_ordinal m = next_ordinal c ∧ next_ordinal c' = next_ordinal c + 1 ∧
  pending_data c' = Some (data_size m) ∧ 0 <= data_size m.
Proof.
  revert p c; induction fuel as [|fuel IH]; intros p c; [done|]. cbn [read_header_loop].
  unfold mbind, M_bind. destruct (read_block label c) as [[[block|]|] c1] eqn:Hb; [| |done].
  2:{ by destruct (exts p). }
  apply keeps_read_block in Hb as [Hn1 Hp1].
  destruct (forallb _ block); [done|]. unfold lift, M_lift. destruct (cksum block); [|done]. cbn [map_err].
  case_match; [done|]. case_match; [done|]. destruct (entry_size block) as [size|] eqn:Hsize; [|done]. cbn [map_err].
  destruct (is_extension_type _).
  - case_match; [done|]. destruct (read_exact_padded label size c1) as [[ext|] c2] eqn:Hx; [|done].
    apply keeps_read_exact in Hx as [Hn2 _].
    destruct (apply_extension _ _ _ _) as [p'|]; [|done]. intros (? & ? & ? & ?)%IH. by rewrite <- Hn1, <- Hn2.
  - intros [= <- <-]. simpl. apply entry_size_range in Hsize. split_and!; [done|congruence|done|lia].
Qed.
Lemma payload_pos c d c' :
  payload label c = (Ok d, c') → next_ordinal c' = next_ordinal c ∧ pending_data c' = None ∧
  (is_Some (reader c) → is_Some (reader c')).
Proof.
  intros Hp. split_and!.
  3:{ intros Hr. pose proof (ends_payload label c Hr) as He. rewrite Hp in He. apply He. }
  all: revert Hp; unfold payload, take_pending, mbind, M_bind; destruct (pending_data c); [|done];
    intros [??]%keeps_read_exact; simpl in *; congruence.
Qed.

(** Reading the header of the next member, or the end of the layer. *)
Lemma ready_read_header n c :
  ready n c →
  match members !! n with
  | Some (m, d) => ∃ c', read_header open label c = (Ok (Some m), c') ∧ loaded n c' ∧
      member_ordinal m = Z.of_nat n ∧ (left_of c' < left_of c)%nat
  | None => ∃ c', read_header open label c = (Ok None, c')
  end.
Proof.
  intros (Hr & Ho & Hp & fuel & ce & Hc). destruct fuel as [|fuel]; [done|]. rewrite contents_S in Hc.
  pose proof (ends_read_header open label c Hr) as He.
  destruct (read_header open label c) as [[[m|]|e] c1] eqn:Hh; [| |done].
  - destruct (payload label c1) as [[d|] c2] eqn:Hpay; [|done].
    destruct (contents open label fuel c2) as [[l|] c3] eqn:Hrest; [|done].
    injection Hc as Hl _. assert (members !! n = Some (m, d)) as Hm.
    { rewrite <- (Nat.add_0_r n), <- lookup_drop, <- Hl. done. }
    rewrite Hm. exists c1. destruct He as [Hr1 Hleft]. simpl in Hleft.
    assert (Hpos : ∃ fuel p, read_header_loop label fuel p c = (Ok (Some m), c1)).
    { revert Hh. unfold read_header, mbind, M_bind, M_get. destruct (reader c) eqn:Er; [|by destruct Hr].
      cbn [mret M_ret]. rewrite Hp. cbn [mret M_ret]. eauto. }
    destruct Hpos as (f & p & (Hord & Hnext & Hpend & _)%read_header_loop_pos).
    apply payload_pos in Hpay as Hpay'. destruct Hpay' as (Hn2 & Hp2 & Hr2).
    split_and!; [done| |congruence|lia]. split; [done|]. split; [rewrite Hnext, Ho; lia|].
    exists m, d, c2. split_and!; [done..|]. split_and!; [by apply Hr2|rewrite Hn2, Hnext, Ho; lia|done|].
    exists fuel, c3. rewrite Hrest. f_equal. f_equal.
    apply (f_equal (drop 1)) in Hl. simpl in Hl. rewrite drop_0, drop_drop in Hl. by rewrite Hl, Nat.add_comm.
  - injection Hc as Hl _. assert (members !! n = None) as ->; [|eauto].
    rewrite <- (Nat.add_0_r n), <- lookup_drop, <- Hl. done.
Qed.

(** A cursor with a payload pending steps over it first. *)
Lemma loaded_read_header n c :
  loaded n c → ∃ c1, ready (S n) c1 ∧ read_header open label c = read_header open label c1 ∧
    (left_of c1 <= left_of c)%nat.
Proof.
  intros (Hr & Ho & m & d & c1 & Hm & Hp & Hpay & Hready). exists c1.
  pose proof (ends_payload label c Hr) as He. rewrite Hpay in He. destruct He as [[r1 Hr1] Hleft].
  split_and!; [done| |lia]. destruct Hr as [r Hr]. pose proof Hready as (_ & _ & Hp1 & _).
  unfold read_header, mbind, M_bind, M_get. rewrite Hr, Hr1. cbn [mret M_ret]. rewrite Hp, Hp1.
  rewrite skip_data_payload, Hpay. done.
Qed.

Lemma seek_loop_ready fuel k c o m d :
  ready k c → (k <= o)%nat → members !! o = Some (m, d) → (left_of c < fuel)%nat →
  ∃ c', seek_loop open label fuel (Z.of_nat o) c = (Ok m, c') ∧ loaded o c'.
Proof.
  revert k c; induction fuel as [|fuel IH]; intros k c Hready Hk Ho Hf; [lia|].
  pose proof (ready_read_header k c Hready) as Hh. cbn [seek_loop]. unfold mbind, M_bind.
  destruct (members !! k) as [[m' d']|] eqn:Hm.
  2:{ apply lookup_ge_None in Hm. apply lookup_lt_Some in Ho. lia. }
  destruct Hh as (c1 & -> & Hload & Hord & Hleft). rewrite Hord.
  destruct (Z.eqb_spec (Z.of_nat k) (Z.of_nat o)) as [E|E].
  - apply Nat2Z.inj in E as ->. exists c1. rewrite Hm in Ho. by injection Ho as -> _.
  - rewrite skip_data_payload. destruct Hload as (Hr & _ & m1 & d1 & c2 & _ & _ & Hpay & Hready').
    pose proof (ends_payload label c1 Hr) as He. rewrite Hpay in He |- *. destruct He as [_ Hl].
    apply (IH (S k) c2); [done|lia|done|lia].
Qed.
Lemma seek_loop_loaded k c o m d :
  loaded k c → (k < o)%nat → members !! o = Some (m, d) →
  ∃ c', seek_loop open label (turns c) (Z.of_nat o) c = (Ok m, c') ∧ loaded o c'.
Proof.
  intros Hload Hk Ho. destruct (loaded_read_header k c Hload) as (c1 & Hready & Hh & Hl).
  destruct (seek_loop_ready (turns c) (S k) c1 o m d) as (c' & Hs & Hl'); [done|lia|done|unfold turns, left_of in *; lia|].
  exists c'. split; [|done]. rewrite <- Hs. unfold turns. cbn [seek_loop]. unfold mbind, M_bind. by rewrite Hh.
Qed.

Context (Hmembers : ∃ fuel c', contents open label fuel new_cursor = (Ok members, c')).

Lemma reopen_ready c : ∃ c', reopen open c = (Ok (), c') ∧ ready 0 c'.
Proof.
  destruct Hmembers as (fuel & ce & Hc). destruct fuel as [|fuel]; [done|].
  pose proof (read_header_opens open label new_cursor eq_refl) as Hh.
  rewrite contents_S in Hc. unfold reopen. destruct open as [r|e] eqn:Eo; [|by rewrite Hh in Hc].
  eexists. split; [done|]. rewrite Hh, <- contents_S in Hc.
  apply (ready_agree 0 {| reader := Some r; next_ordinal := 0; pending_data := None; bytes_read := bytes_read new_cursor |});
    [done|].  split_and!; [by eexists|done|done|]. exists (S fuel), ce. by rewrite drop_0, Eo.
Qed.

(** Whatever the cursor did before, seeking an ordinal gives the member the layer holds there. *)
Lemma seek_to_member c o m d :
  cursor_ok c → members !! o = Some (m, d) →
  ∃ c', seek_to open label (Z.of_nat o) c = (Ok m, c') ∧ loaded o c'.
Proof.
  intros Hc Ho. unfold seek_to. unfold mbind at 1, M_bind at 1, M_get at 1.
  assert (Hreopen : ∃ c', (reopen open ≫= λ _, c ← M_get; seek_loop open label (turns c) (Z.of_nat o)) c = (Ok m, c')
            ∧ loaded o c').
  { destruct (reopen_ready c) as (c1 & Hr & Hready). unfold mbind, M_bind, M_get. rewrite Hr.
    eapply seek_loop_ready; [done|lia|done|unfold turns, left_of; lia]. }
  destruct (bool_decide (reader c = None) || (Z.of_nat o <? next_ordinal c)) eqn:Hb; [done|]. clear Hreopen.
  apply orb_false_iff in Hb as [Hb Hn]. apply bool_decide_eq_false in Hb. apply Z.ltb_ge in Hn.
  unfold mbind, M_bind, M_get. cbn [mret M_ret]. destruct Hc as [?|[[n Hr]|[n Hl]]]; [done| |].
  - pose proof Hr as (_ & Hord & _). eapply seek_loop_ready; [done|lia|done|unfold turns, left_of; lia].
  - pose proof Hl as (_ & Hord & _). apply (seek_loop_loaded n c o m d); [done|lia|done].
Qed.
End seek.

(** ** What an action appends to the output *)

(** The bytes an action writes with its value, or the error it fails with. *)
Abbreviation Written A := (result Stop (list Z * A)).
Definition w_ret {A} (a : A) : Written A := Ok ([], a).
Definition w_bytes (b : list Z) : Written () := Ok (b, ()).
Definition w_lift {A} (r : result Stop A) : Written A := match r with Ok a => Ok ([], a) | Err e => Err e end.
Definition w_bind {A B} (m : Written A) (k : A → Written B) : Written B :=
  match m with
  | Err e => Err e
  | Ok (b, a) => match k a with Err e => Err e | Ok (b', a') => Ok (b ++ b', a') end
  end.

Section emits.
Context (write_fault : nat → option IoError).

(** From a state in [P], [m] appends what [spec] says and ends in [Q]; it fails only where
    [spec] does or when a write fails, and never for lack of turns. *)
Definition emits {S A} (P : S → Prop) (m : M (S * Out) Stop A) (spec : Written A) (Q : S → Prop) : Prop :=
  ∀ s o, P s →
  match m (s, o) with
  | (Ok a, (s', o')) => Q s' ∧ ∃ bytes, spec = Ok (bytes, a) ∧ written o' = written o ++ bytes
  | (Err e, _) => e ≠ OutOfFuel ∧ ((∀ n, write_fault n = None) → ∃ e', spec = Err e')
  end.
(** The same for an action on the output alone. *)
Definition emits_out {A} (m : M Out Stop A) (spec : Written A) : Prop :=
  emits (S := ()) (λ _, True) (on_out m) spec (λ _, True).

Lemma emits_bind {S A B} (P Q R : S → Prop) (m : M (S * Out) Stop A) (k : A → M (S * Out) Stop B) spec speck :
  emits P m spec Q → (∀ bytes a, spec = Ok (bytes, a) → emits Q (k a) (speck a) R) →
  emits P (m ≫= k) (w_bind spec speck) R.
Proof.
  intros Hm Hk s o HP. specialize (Hm s o HP). unfold mbind, M_bind. destruct (m (s, o)) as [[a|e] [s1 o1]].
  - destruct Hm as (HQ & bytes & -> & Hw). specialize (Hk bytes a eq_refl s1 o1 HQ). simpl.
    destruct (k a (s1, o1)) as [[b|e] [s2 o2]].
    + destruct Hk as (HR & bytes' & -> & Hw'). split; [done|]. eexists. split; [done|].
      by rewrite Hw', Hw, app_assoc.
    + destruct Hk as [? Hk]. split; [done|]. intros Hf. destruct (Hk Hf) as [e' ->]. by eexists.
  - destruct Hm as [? Hm]. split; [done|]. intros Hf. destruct (Hm Hf) as [e' ->]. by eexists.
Qed.
Lemma emits_ret {S A} (P : S → Prop) (a : A) : emits P (mret a) (w_ret a) P.
Proof. intros s o HP. simpl. split; [done|]. eexists. by rewrite app_nil_r. Qed.
Lemma emits_fail {S A} (P Q : S → Prop) e : emits P (M_fail (Fault e) : M (S * Out) Stop A) (Err (Fault e)) Q.
Proof. intros s o HP. simpl. split; [done|]. by eexists. Qed.
Lemma emits_pure {S A} (P : S → Prop) (r : result Stop A) :
  r ≠ Err OutOfFuel → emits P (M_lift r) (w_lift r) P.
Proof.
  intros Hr s o HP. unfold M_lift. destruct r as [a|e]; simpl.
  - split; [done|]. eexists. by rewrite app_nil_r.
  - split; [congruence|]. by eexists.
Qed.
Lemma emits_lift {S A} (P : S → Prop) (r : result FirestoneError A) :
  emits P (lift r) (w_lift (map_err Fault r)) P.
Proof. apply emits_pure. by destruct r. Qed.
Lemma emits_on_out {S A} (P : S → Prop) (m : M Out Stop A) spec :
  emits_out m spec → emits P (on_out m) spec P.
Proof.
  intros Hm s o HP. specialize (Hm () o I). unfold on_out in *. simpl in *.
  destruct (m o) as [[a|e] o']; [|done]. destruct Hm as [_ Hm]. done.
Qed.
Lemma emits_out_bind {A B} (m : M Out Stop A) (k : A → M Out Stop B) spec speck :
  emits_out m spec → (∀ bytes a, spec = Ok (bytes, a) → emits_out (k a) (speck a)) →
  emits_out (m ≫= k) (w_bind spec speck).
Proof.
  intros Hm Hk. assert (emits (S := ()) (λ _, True) (on_out m ≫= λ a, on_out (k a)) (w_bind spec speck) (λ _, True))
    as He by (by eapply emits_bind).
  intros s o HP. specialize (He s o HP). revert He. unfold mbind, M_bind, on_out. simpl.
  by destruct (m o) as [[a|e] o1]; simpl.
Qed.
Lemma emits_out_ret {A} (a : A) : emits_out (mret a) (w_ret a).
Proof. intros s o _. simpl. split; [done|]. eexists. by rewrite app_nil_r. Qed.
Lemma emits_out_lift {A} (r : result FirestoneError A) : emits_out (lift r) (w_lift (map_err Fault r)).
Proof.
  intros s o _. unfold on_out, lift, M_lift. simpl. destruct r as [a|e]; simpl.
  - split; [done|]. eexists. by rewrite app_nil_r.
  - split; [done|]. by eexists.
Qed.
Lemma emits_out_ext {A} (m : M Out Stop A) spec spec' : spec = spec' → emits_out m spec → emits_out m spec'.
Proof. by intros ->. Qed.

Lemma raw_write_spec bytes o :
  match raw_write write_fault bytes o with
  | (Ok _, o') => written o' = written o ++ bytes
  | (Err e, _) => ¬ ∀ n, write_fault n = None
  end.
Proof.
  unfold raw_write. destruct (write_fault (writes o)) eqn:Hf; [|done]. intros Hn. congruence.
Qed.
Lemma emits_write_all bytes : emits_out (write_all write_fault bytes) (w_bytes bytes).
Proof.
  intros s o _. pose proof (raw_write_spec bytes o) as Hw. unfold on_out, write_all, M_map_err. simpl.
  destruct (raw_write write_fault bytes o) as [[[]|e] o']; simpl; [|by split].
  split; [done|]. by eexists.
Qed.

(** The block padding of a payload. *)
Definition zeros (size : Z) : list Z := replicate (Z.to_nat (padding_for size)) 0.
Lemma emits_write_padding size : emits_out (write_padding write_fault size) (w_bytes (zeros size)).
Proof.
  unfold write_padding, zeros. destruct (Z.eqb_spec (padding_for size) 0) as [->|]; [apply emits_out_ret|].
  apply emits_write_all.
Qed.
End emits.

(** ** One member *)

Definition ext_bytes (e : ExtensionHeader) : list Z :=
  ext_header e ++ bytes_of (ext_data e) ++ zeros (len (ext_data e)).
(** A member as the merged tar repeats it. *)
Definition member_bytes (m : TarMember) (d : list Z) : list Z :=
  concat (ext_bytes <$> extensions m) ++ header m ++ d ++ zeros (data_size m).

Section member.
Context `{TarCrate} (lossy : string → string) (write_fault : nat → option IoError).
Abbreviation emits := (emits write_fault).
Abbreviation emits_out := (emits_out write_fault).

Lemma emits_weaken {S A} (P P' Q Q' : S → Prop) (m : M (S * Out) Stop A) spec :
  (∀ s, P' s → P s) → (∀ s, Q s → Q' s) → emits P m spec Q → emits P' m spec Q'.
Proof.
  intros HP HQ Hm s o Hs. specialize (Hm s o (HP s Hs)). destruct (m (s, o)) as [[a|e] [s' o']]; [|done].
  destruct Hm as [? Hm]. split; [by apply HQ|done].
Qed.
Lemma emits_ext {S A} (P Q : S → Prop) (m : M (S * Out) Stop A) spec spec' :
  spec = spec' → emits P m spec Q → emits P m spec' Q.
Proof. by intros ->. Qed.

Lemma emits_out_seq {B} (m : M Out Stop ()) (k : M Out Stop B) b spec :
  emits_out m (w_bytes b) → emits_out k spec → emits_out (m;; k) (w_bind (w_bytes b) (λ _, spec)).
Proof. intros Hm Hk. eapply emits_out_bind; [done|]. by intros. Qed.

Lemma emits_write_extensions l : emits_out (write_extensions write_fault l) (w_bytes (concat (ext_bytes <$> l))).
Proof.
  induction l as [|e l IH]; [apply emits_out_ret|]. cbn [write_extensions].
  change (w_bytes (concat (ext_bytes <$> e :: l))) with
    (w_bind (w_bytes (ext_bytes e)) (λ _, w_bytes (concat (ext_bytes <$> l)))).
  apply emits_out_seq; [|done]. unfold write_extension.
  change (w_bytes (ext_bytes e)) with (w_bind (w_bytes (ext_header e)) (λ _,
    w_bind (w_bytes (bytes_of (ext_data e))) (λ _, w_bytes (zeros (len (ext_data e)))))).
  apply emits_out_seq; [apply emits_write_all|]. apply emits_out_seq; [apply emits_write_all|].
  apply emits_write_padding.
Qed.

(** Copying the payload of the member just read. *)
Lemma copy_data_payload label c d c' :
  payload label c = (Ok d, c') →
  ∃ size, pending_data c = Some size ∧ ∀ o, ∃ c'',
    copy_data write_fault label (c, o) =
      match raw_write write_fault d o with
      | (Err e, o1) => (Err (Fault (copy_error e)), (c'', o1))
      | (Ok _, o1) => let '(r, o2) := write_padding write_fault size o1 in (r, (c', o2))
      end.
Proof.
  unfold payload, copy_data, on_cursor, mbind, M_bind. unfold take_pending.
  destruct (pending_data c) as [size|] eqn:Hpend; [|done]. intros Hx. exists size. split; [done|].
  intros o. simpl. rewrite Hpend.
  set (c0 := {| reader := reader c; next_ordinal := next_ordinal c; pending_data := None; bytes_read := bytes_read c |}) in *.
  revert Hx. unfold read_exact_padded, mbind, M_bind, read_some at 1, io_copy, mret, M_ret. simpl.
  destruct (reader c) as [r|]; [|done]. unfold pull.
  destruct (Z.leb_spec size (length_z (data r))) as [Hle|Hgt].
  - set (c1 := {| reader := Some _; next_ordinal := _; pending_data := None; bytes_read := saturating_add _ _ _ |}).
    destruct (Z.eqb_spec (length_z (take (Z.to_nat size) (data r))) size) as [Hsz|]; [simpl|done].
    destruct (skip_padding label size c1) as [[[]|e] c2] eqn:Hpad; [|done]. intros [= <- <-].
    unfold length_z in *. assert (0 <= size) as Hpos by lia.
    rewrite Z.min_l by lia. eexists.
    destruct (raw_write write_fault (take (Z.to_nat size) (data r)) o) as [[[]|e] o1]; [|reflexivity]. simpl.
    rewrite Z2Nat.id by lia. rewrite Z.eqb_refl. simpl.
    assert ({| reader := Some {| data := drop (Z.to_nat size) (data r); fails := fails r |};
       next_ordinal := next_ordinal c; pending_data := None; bytes_read := saturating_add u64_max (bytes_read c) size |} = c1) as ->.
    { unfold c1. by rewrite Hsz. }
    rewrite Hpad. unfold on_out. simpl. by destruct (write_padding write_fault size o1).
  - destruct (fails r); [done|]. simpl. destruct (Z.eqb_spec (length_z (data r)) size); [lia|done].
Qed.

(** Reading a member through its cursor, and copying or skipping its payload. *)
Section cursor.
Context (open : result FirestoneError Reader) (label : string) (members : list (TarMember * list Z)).
Context (Hmembers : ∃ fuel c', contents open label fuel new_cursor = (Ok members, c')).
Abbreviation ok := (cursor_ok open label members).

Lemma emits_seek o m d :
  members !! o = Some (m, d) →
  emits ok (on_cursor (seek_to open label (Z.of_nat o))) (w_ret m) (loaded open label members o).
Proof.
  intros Ho c out Hc. destruct (seek_to_member open label members Hmembers c o m d Hc Ho) as (c' & Hs & Hl).
  unfold on_cursor. simpl. rewrite Hs. split; [done|]. exists []. by rewrite app_nil_r.
Qed.
Lemma emits_copy o m d :
  members !! o = Some (m, d) →
  emits (loaded open label members o) (copy_data write_fault label) (w_bytes (d ++ zeros (data_size m))) ok.
Proof.
  intros Ho c out (Hr & Hn & m' & d' & c' & Hm & Hp & Hpay & Hready).
  rewrite Ho in Hm. injection Hm as <- <-.
  destruct (copy_data_payload label c d c' Hpay) as (size & Hsize & Hcopy). rewrite Hp in Hsize.
  injection Hsize as <-. destruct (Hcopy out) as [c'' ->]. pose proof (raw_write_spec write_fault d out) as Hw.
  destruct (raw_write write_fault d out) as [[[]|e] o1]; [|by split].
  pose proof (emits_write_padding write_fault (data_size m) () o1 I) as He. unfold on_out in He. simpl in He.
  destruct (write_padding write_fault (data_size m) o1) as [[[]|e] o2].
  - destruct He as (_ & b & Hb & Hw2). injection Hb as <-. split; [right; left; by exists (S o)|].
    eexists. split; [done|]. by rewrite Hw2, Hw, app_assoc.
  - destruct He as [? He]. split; [done|]. intros Hf. destruct (He Hf) as [e' ?]. done.
Qed.
Lemma emits_skip o : emits (loaded open label members o) (on_cursor (skip_data label)) (w_ret ()) ok.
Proof.
  intros c out (Hr & Hn & m' & d' & c' & Hm & Hp & Hpay & Hready). unfold on_cursor. simpl.
  rewrite skip_data_payload, Hpay. split; [right; left; by exists (S o)|]. exists []. by rewrite app_nil_r.
Qed.
End cursor.

(** ** All the cursors *)

Context (sources : list LayerSource) (layers_ : list (list (TarMember * list Z))).
(** [layers_] is what the layers' streams hold. *)
Definition holds : Prop :=
  length layers_ = length sources ∧
  ∀ i source members, sources !! i = Some source → layers_ !! i = Some members →
    layer_contents i source = Ok members.
Context (Hholds : holds).

Definition layer_ok (i : nat) (c : Cursor) : Prop :=
  ∀ source members, sources !! i = Some source → layers_ !! i = Some members →
    cursor_ok (open source) (cursor_label i source) members c.
Definition cursors_ok (cs : list Cursor) : Prop :=
  length cs = length sources ∧ ∀ i c, cs !! i = Some c → layer_ok i c.
Definition at_layer (i : nat) (P : Cursor → Prop) (cs : list Cursor) : Prop :=
  length cs = length sources ∧ (∃ c, cs !! i = Some c ∧ P c) ∧
  ∀ j c, j ≠ i → cs !! j = Some c → layer_ok j c.

Lemma emits_with_cursor {A} i (P Q : Cursor → Prop) (m : M (Cursor * Out) Stop A) spec :
  emits P m spec Q → emits (at_layer i P) (with_cursor i m) spec (at_layer i Q).
Proof.
  intros Hm cs o (Hlen & (c & Hc & HP) & Hothers). unfold with_cursor. simpl. rewrite Hc.
  specialize (Hm c o HP). destruct (m (c, o)) as [[a|e] [c' o']]; [|done].
  destruct Hm as [HQ Hm]. split; [|done]. split_and!.
  - by rewrite length_insert.
  - exists c'. split; [|done]. apply list_lookup_insert_eq. by eapply lookup_lt_Some.
  - intros j c1 Hj. rewrite list_lookup_insert_ne by done. by apply Hothers.
Qed.
Lemma at_layer_ok i cs :
  (i < length sources)%nat → cursors_ok cs → at_layer i (layer_ok i) cs.
Proof.
  intros Hi [Hlen Hok]. split_and!; [done| |by eauto].
  destruct (lookup_lt_is_Some_2 cs i) as [c Hc]; [lia|]. eauto.
Qed.
Lemma at_layer_done i cs : at_layer i (layer_ok i) cs → cursors_ok cs.
Proof.
  intros (Hlen & (c & Hc & Hi) & Hothers). split; [done|]. intros j c' Hj.
  destruct (decide (j = i)) as [->|]; [|by eapply Hothers]. rewrite Hc in Hj. by injection Hj as <-.
Qed.
Lemma at_layer_weaken i (P Q : Cursor → Prop) cs :
  (∀ c, P c → Q c) → at_layer i P cs → at_layer i Q cs.
Proof. intros HPQ (? & (c & ? & ?) & ?). split_and!; eauto. Qed.

(** ** One entry of the merged tar *)

Definition content_written (path : string) (members : list (TarMember * list Z)) (ordinal size : Z)
    : Written () :=
  match members !! Z.to_nat ordinal with
  | None => Err OutOfFuel
  | Some (target, d) =>
      if negb (is_file_type (entry_type target)) || negb (data_size target =? size) then
        Err (Fault (layer_error ("hardlink " +:+ lossy path +:+ " has an unusable content source") REPULL_HINT))
      else w_bytes (d ++ zeros (data_size target))
  end.
(** A repaired header: its extensions without those it contradicts, and its new link name. *)
Definition repaired_written (m : TarMember) (promoted : bool) (what : string)
    (relinked : result IoError (list Z)) : Written () :=
  w_bind (w_lift (filter_extensions (extensions m) promoted)) (λ kept,
  w_bind (w_bytes (concat (ext_bytes <$> kept))) (λ _,
  w_bind (w_lift (map_err Fault (map_err (λ e : IoError,
    with_source (layer_error what REPULL_HINT) (io_text e)) relinked))) (λ header,
  w_bytes (set_cksum header)))).
Definition entry_written (overrides : gmap string EmitMode) (path : string) (kind : MergedKind)
    (members : list (TarMember * list Z)) (m : TarMember) (d : list Z) : Written Z :=
  match overrides !! path with
  | None => w_bind (w_bytes (member_bytes m d)) (λ _, w_ret (member_unpacked kind (data_size m)))
  | Some (Relink target) =>
      w_bind (repaired_written m false ("cannot re-point hardlink " +:+ lossy path)
        (set_link_name_literal target (header m))) (λ _, w_ret METADATA_ENTRY_BYTES)
  | Some (Promote ordinal size) =>
      w_bind (repaired_written m true ("cannot promote hardlink " +:+ lossy path)
        (set_link_name_literal "" (set_size size (set_entry_type TRegular (header m))))) (λ _,
      w_bind (content_written path members ordinal size) (λ _, w_ret size))
  end.

Lemma emits_bind' {S A B} (P Q R : S → Prop) (m : M (S * Out) Stop A) (k : A → M (S * Out) Stop B) spec speck :
  emits P m spec Q → (∀ a, emits Q (k a) (speck a) R) → emits P (m ≫= k) (w_bind spec speck) R.
Proof. intros Hm Hk. eapply emits_bind; [done|]. intros. apply Hk. Qed.

Lemma w_bind_assoc {A B C} (m : Written A) (k : A → Written B) (f : B → Written C) :
  w_bind (w_bind m k) f = w_bind m (λ a, w_bind (k a) f).
Proof.
  destruct m as [[b a]|]; [|done]. simpl. destruct (k a) as [[b' a']|]; [|done]. simpl.
  destruct (f a') as [[b'' a'']|]; [|done]. by rewrite app_assoc.
Qed.

Lemma emits_content path i source members ordinal size :
  sources !! i = Some source → layers_ !! i = Some members →
  0 <= ordinal → is_Some (members !! Z.to_nat ordinal) →
  emits_out (copy_content lossy write_fault path i source ordinal size)
    (content_written path members ordinal size).
Proof.
  intros Hsource Hlayer Hpos [[target d] Ht]. destruct Hholds as [_ Hh].
  specialize (Hh i source members Hsource Hlayer). unfold layer_contents in Hh.
  assert (Hmembers : ∃ fuel c', contents (open source) (cursor_label i source) fuel new_cursor = (Ok members, c')).
  { exists (layer_turns source). destruct (contents _ _ _ _) as [r c']. exists c'. simpl in Hh. by rewrite Hh. }
  assert (He : emits (λ c, c = new_cursor)
    (target ← on_cursor (seek_to (open source) (cursor_label i source) ordinal);
     if negb (is_file_type (entry_type target)) || negb (data_size target =? size) then
       M_fail (Fault (layer_error ("hardlink " +:+ lossy path +:+ " has an unusable content source") REPULL_HINT))
     else copy_data write_fault (cursor_label i source)) (content_written path members ordinal size) (λ _, True)).
  { unfold content_written. rewrite Ht.
    eapply emits_ext with (spec := w_bind (w_ret target) (λ t,
      if negb (is_file_type (entry_type t)) || negb (data_size t =? size) then
        Err (Fault (layer_error ("hardlink " +:+ lossy path +:+ " has an unusable content source") REPULL_HINT))
      else w_bytes (d ++ zeros (data_size target)))); [cbn [w_bind w_ret]; by match goal with |- context [if ?b then Err _ else _] => destruct b end|].
    eapply emits_bind.
    - rewrite <- (Z2Nat.id ordinal) at 1 by done.
      eapply emits_weaken; [|intros c Hc; exact Hc|by eapply emits_seek]. intros c ->. by left.
    - intros _ t [= _ <-]. case_match; [apply emits_fail|].
      eapply emits_weaken; [intros c Hc; exact Hc|done|by eapply emits_copy]. }
  intros [] o _. specialize (He new_cursor o eq_refl). unfold copy_content, on_out. simpl.
  match type of He with context [?m (new_cursor, o)] => destruct (m (new_cursor, o)) as [[[]|e] [c' o']] end;
    simpl; [|done]. by destruct He as [_ He].
Qed.

Lemma w_ret_bind {A B} (a : A) (k : A → Written B) : w_bind (w_ret a) k = k a.
Proof. cbn [w_bind w_ret]. by destruct (k a) as [[b a']|]. Qed.

Lemma bind_assoc {S A B C} (m : M S Stop A) (k : A → M S Stop B) (f : B → M S Stop C) s :
  ((m ≫= k) ≫= f) s = (m ≫= λ a, k a ≫= f) s.
Proof. unfold mbind, M_bind. by destruct (m s) as [[a|] s']. Qed.
Lemma emits_eq {S A} (P Q : S → Prop) (m m' : M (S * Out) Stop A) spec :
  (∀ w, m w = m' w) → emits P m' spec Q → emits P m spec Q.
Proof. intros Hm He s o HP. rewrite Hm. by apply He. Qed.

(** Writing a repaired header and going on, from any state. *)
Lemma emits_repaired {S A} (P Q : S → Prop) m promoted what relinked (rest : M (S * Out) Stop A) spec :
  emits P rest spec Q →
  emits P (kept ← M_lift (filter_extensions (extensions m) promoted);
           on_out (write_extensions write_fault kept);;
           header ← lift (map_err (λ e : IoError, with_source (layer_error what REPULL_HINT) (io_text e)) relinked);
           on_out (write_all write_fault (set_cksum header));;
           rest)
    (w_bind (repaired_written m promoted what relinked) (λ _, spec)) Q.
Proof.
  intros Hrest. unfold repaired_written. rewrite w_bind_assoc.
  eapply emits_bind'; [apply emits_pure, filter_extensions_ends|]. intros kept. rewrite w_bind_assoc.
  eapply emits_bind'; [apply emits_on_out, emits_write_extensions|]. intros _. rewrite w_bind_assoc.
  eapply emits_bind'; [apply emits_lift|]. intros header.
  eapply emits_bind'; [apply emits_on_out, emits_write_all|]. by intros _.
Qed.

(** The member an entry of the plan stands for. *)
Definition planned (overrides : gmap string EmitMode) (path : string) (e : MergedEntry)
    (source : LayerSource) (members : list (TarMember * list Z)) (m : TarMember) (d : list Z) : Prop :=
  sources !! layer e = Some source ∧ layers_ !! layer e = Some members ∧
  0 <= ordinal e ∧ members !! Z.to_nat (ordinal e) = Some (m, d) ∧
  normalize_entry_path lossy (member_path m) (cursor_label (layer e) source) = Ok (Some path) ∧
  ∀ o s, overrides !! path = Some (Promote o s) → 0 <= o ∧ ∃ m' d', members !! Z.to_nat o = Some (m', d') ∧
    is_file_type (entry_type m') = true ∧ data_size m' = s.

Lemma emits_write_entry request plan path e source members m d :
  layers request = sources → planned (overrides plan) path e source members m d →
  emits cursors_ok (write_entry lossy write_fault request plan path e)
    (entry_written (overrides plan) path (kind e) members m d) cursors_ok.
Proof.
  intros Hreq (Hsource & Hlayer & Hord & Hm & Hnorm & Hpromote).
  unfold write_entry. rewrite Hreq, Hsource. set (i := layer e) in *. set (label := cursor_label i source) in *.
  destruct Hholds as [_ Hh]. specialize (Hh i source members Hsource Hlayer). unfold layer_contents in Hh.
  assert (Hmembers : ∃ fuel c', contents (open source) label fuel new_cursor = (Ok members, c')).
  { exists (layer_turns source). unfold label. destruct (contents _ _ _ _) as [r c']. exists c'. simpl in Hh. by rewrite Hh. }
  assert (Hokl : ∀ c, layer_ok i c ↔ cursor_ok (open source) label members c).
  { intros c. unfold layer_ok. split; [intros Hl; by apply Hl|]. intros Hc source' members'. rewrite Hsource, Hlayer.
    by intros [= <-] [= <-]. }
  apply lookup_lt_Some in Hsource as Hi.
  rewrite <- (w_ret_bind m (λ m, entry_written (overrides plan) path (kind e) members m d)).
  eapply emits_bind with (Q := at_layer i (loaded (open source) label members (Z.to_nat (ordinal e)))).
  { rewrite <- (Z2Nat.id (ordinal e)) at 1 by done.
    eapply emits_weaken; [intros cs; by apply at_layer_ok|intros cs Hcs; exact Hcs|].
    apply emits_with_cursor. eapply emits_weaken; [intros c; apply Hokl|intros c Hc; exact Hc|by eapply emits_seek]. }
  intros _ a [= _ <-]. rewrite Hnorm.
  rewrite <- (w_ret_bind (Some path) (λ _, entry_written (overrides plan) path (kind e) members m d)).
  eapply emits_bind; [apply (emits_lift _ _ (Ok (Some path)))|]. intros _ observed [= _ <-].
  rewrite bool_decide_eq_true_2 by done. cbn [negb]. unfold entry_written.
  assert (Hdone : ∀ cs, at_layer i (layer_ok i) cs → cursors_ok cs) by apply at_layer_done.
  assert (Hskip : emits (at_layer i (loaded (open source) label members (Z.to_nat (ordinal e))))
            (with_cursor i (on_cursor (skip_data label))) (w_ret ()) cursors_ok).
  { eapply emits_weaken; [intros cs Hcs; exact Hcs|exact Hdone|]. apply emits_with_cursor.
    eapply emits_weaken; [intros c Hc; exact Hc|intros c; apply Hokl|apply emits_skip]. }
  destruct (overrides plan !! path) as [[target|o s]|] eqn:Hov.
  - apply emits_repaired. rewrite <- (w_ret_bind () (λ _, w_ret METADATA_ENTRY_BYTES)).
    eapply emits_bind'; [exact Hskip|]. intros _. apply emits_ret.
  - destruct (Hpromote o s eq_refl) as (Ho & m' & d' & Hc & _). apply emits_repaired.
    rewrite <- (w_ret_bind () (λ _, w_bind (content_written path members o s) (λ _, w_ret s))).
    eapply emits_bind'; [exact Hskip|]. intros _.
    eapply emits_bind'; [|intros _; apply emits_ret]. apply emits_on_out.
    eapply emits_content; try done; by eexists.
  - assert (Hcopy : emits (at_layer i (loaded (open source) label members (Z.to_nat (ordinal e))))
              (with_cursor i (copy_data write_fault label)) (w_bytes (d ++ zeros (data_size m))) cursors_ok).
    { eapply emits_weaken; [intros cs Hcs; exact Hcs|exact Hdone|]. apply emits_with_cursor.
      eapply emits_weaken; [intros c Hc; exact Hc|intros c; apply Hokl|by eapply emits_copy]. }
    eapply emits_ext with (spec := w_bind (w_bytes (concat (ext_bytes <$> extensions m))) (λ _,
      w_bind (w_bytes (header m)) (λ _, w_bind (w_bytes (d ++ zeros (data_size m))) (λ _,
      w_ret (member_unpacked (kind e) (data_size m)))))); [unfold member_bytes; simpl; by rewrite !app_nil_r|].
    eapply emits_bind'; [apply emits_on_out, emits_write_extensions|]. intros _.
    eapply emits_bind'; [apply emits_on_out, emits_write_all|]. intros _.
    eapply emits_bind'; [exact Hcopy|]. intros _. apply emits_ret.
Qed.

(** ** The whole tar *)

(** What stands at a path of the merged tar. *)
Inductive Item : Set := Injected | Entry (e : MergedEntry).

Definition injected_written (init_path : string) (init_binary : list Z) (path : string) : Written Z :=
  if String.eqb path init_path then
    w_bind (w_lift (map_err Fault (injected_header lossy path 493 (length_z init_binary)))) (λ header,
    w_bind (w_bytes (header ++ init_binary ++ zeros (length_z init_binary))) (λ _, w_ret (length_z init_binary)))
  else
    w_bind (w_lift (map_err Fault (injected_header lossy path 420 0))) (λ header,
    w_bind (w_bytes header) (λ _, w_ret 0)).
Definition item_written (init_path : string) (init_binary : list Z) (overrides : gmap string EmitMode)
    (path : string) (item : Item) : Written Z :=
  match item with
  | Injected => injected_written init_path init_binary path
  | Entry e =>
      match layers_ !! layer e ≫= λ members, pair members <$> members !! Z.to_nat (ordinal e) with
      | Some (members, (m, d)) => entry_written overrides path (kind e) members m d
      | None => Err OutOfFuel
      end
  end.
(** The items one after the other, counted and sized. *)
Fixpoint items_written (init_path : string) (init_binary : list Z) (overrides : gmap string EmitMode)
    (l : list (string * Item)) (count unpacked : Z) : Written (Z * Z) :=
  match l with
  | [] => w_ret (count, unpacked)
  | (path, item) :: l =>
      w_bind (item_written init_path init_binary overrides path item) (λ size,
      items_written init_path init_binary overrides l (count + 1) (saturating_add u64_max unpacked size))
  end.

(** The injected paths due at [path], and the tar's items in the order of the writing loop. *)
Fixpoint due (path : string) (injected : list string) : list string :=
  match injected with
  | next :: rest => if bool_decide (str_le next path) then next :: due path rest else []
  | [] => []
  end.
Fixpoint later (path : string) (injected : list string) : list string :=
  match injected with
  | next :: rest => if bool_decide (str_le next path) then later path rest else injected
  | [] => []
  end.
Definition inject (path : string) : string * Item := (path, Injected).
Fixpoint interleave (l : list (string * MergedEntry)) (injected : list string) : list (string * Item) :=
  match l with
  | [] => inject <$> injected
  | (path, e) :: l =>
      (inject <$> due path injected) ++
      (if bool_decide (path ∈ due path injected) then [] else [(path, Entry e)]) ++
      interleave l (later path injected)
  end.

Lemma emits_write_injected init_path init_binary path :
  emits_out (write_injected lossy write_fault path init_path init_binary)
    (injected_written init_path init_binary path).
Proof.
  unfold write_injected, injected_written. destruct (String.eqb path init_path).
  - unfold write_injected_init. intros s o HP. rewrite <- (w_bind_assoc _ _ (λ _, w_ret (length_z init_binary))).
    revert s o HP. eapply emits_out_bind; [|intros; apply emits_out_ret].
    eapply emits_out_bind; [apply emits_out_lift|]. intros _ header _.
    change (w_bytes (header ++ init_binary ++ zeros (length_z init_binary))) with
      (w_bind (w_bytes header) (λ _, w_bind (w_bytes init_binary) (λ _, w_bytes (zeros (length_z init_binary))))).
    apply emits_out_seq; [apply emits_write_all|]. apply emits_out_seq; [apply emits_write_all|].
    apply emits_write_padding.
  - unfold write_injected_marker. intros s o HP. rewrite <- (w_bind_assoc _ _ (λ _, w_ret 0)).
    revert s o HP. eapply emits_out_bind; [|intros; apply emits_out_ret].
    eapply emits_out_bind; [apply emits_out_lift|]. intros. apply emits_write_all.
Qed.

Section loop.
Context (request : MergeRequest) (plan : MergePlan) (init_path : string) (init_binary : list Z).
Abbreviation items := (items_written init_path init_binary (overrides plan)).

Lemma emits_flush {A} path injected shadowed count unpacked
    (k : list string * bool * Z * Z → M (list Cursor * Out) Stop A) (spec : Z → Z → Written A) tail :
  (∀ count unpacked,
     emits cursors_ok (k (later path injected, shadowed || bool_decide (path ∈ due path injected), count, unpacked))
       (w_bind (items tail count unpacked) (λ r, spec r.1 r.2)) cursors_ok) →
  emits cursors_ok (flush_injected lossy write_fault init_path init_binary injected path shadowed count unpacked ≫= k)
    (w_bind (items ((inject <$> due path injected) ++ tail) count unpacked) (λ r, spec r.1 r.2)) cursors_ok.
Proof.
  revert shadowed count unpacked. induction injected as [|next injected IH]; intros shadowed count unpacked Hk;
    cbn [flush_injected due later] in *.
  - specialize (Hk count unpacked). rewrite bool_decide_eq_false_2, orb_false_r in Hk by set_solver.
    simpl. by apply (emits_eq _ _ _ (k ([], shadowed, count, unpacked))).
  - destruct (bool_decide (str_le next path)) eqn:Hle.
    + cbn [fmap list_fmap app items_written inject]. rewrite w_bind_assoc.
      eapply emits_eq; [intros w; apply bind_assoc|]. eapply emits_bind'.
      * apply emits_on_out, emits_write_injected.
      * intros size. apply IH. intros count' unpacked'. specialize (Hk count' unpacked').
        replace (shadowed || String.eqb next path || bool_decide (path ∈ due path injected))
          with (shadowed || bool_decide (path ∈ next :: due path injected)); [done|].
        rewrite <- orb_assoc. f_equal. apply eq_bool_prop_intro. rewrite orb_True, !bool_decide_spec, elem_of_cons.
        destruct (String.eqb_spec next path) as [->|]; simpl; naive_solver.
    + specialize (Hk count unpacked). rewrite bool_decide_eq_false_2, orb_false_r in Hk by set_solver.
      simpl. by apply (emits_eq _ _ _ (k (next :: injected, shadowed, count, unpacked))).
Qed.

Lemma emits_write_rest injected count unpacked :
  emits_out (write_rest lossy write_fault init_path init_binary injected count unpacked)
    (items (inject <$> injected) count unpacked).
Proof.
  revert count unpacked; induction injected as [|next injected IH]; intros count unpacked; [apply emits_out_ret|].
  cbn [write_rest fmap list_fmap items_written inject].
  eapply emits_out_bind; [apply emits_write_injected|]. intros _ size _. apply IH.
Qed.

(** The writing loop followed by the rest of the injected members. *)
Lemma emits_write_entries l injected count unpacked :
  layers request = sources →
  (∀ path e, (path, e) ∈ l → ∃ source members m d, planned (overrides plan) path e source members m d) →
  emits cursors_ok
    (st ← write_entries lossy write_fault request plan init_path init_binary l injected count unpacked;
     let '(injected, count, unpacked) := st in
     on_out (write_rest lossy write_fault init_path init_binary injected count unpacked))
    (items (interleave l injected) count unpacked) cursors_ok.
Proof.
  intros Hreq. revert injected count unpacked.
  induction l as [|[path e] l IH]; intros injected count unpacked Hplan; cbn [write_entries interleave].
  - apply (emits_eq _ _ _ (on_out (write_rest lossy write_fault init_path init_binary injected count unpacked)));
      [done|]. apply emits_on_out, emits_write_rest.
  - specialize (IH (later path injected)). 
    eapply emits_ext with (spec := w_bind (items ((inject <$> due path injected) ++
      (if bool_decide (path ∈ due path injected) then [] else [(path, Entry e)]) ++
      interleave l (later path injected)) count unpacked) (λ r, w_ret (r.1, r.2))).
    { match goal with |- w_bind ?x _ = _ => destruct x as [[b [c1 u1]]|] end; simpl; [by rewrite app_nil_r|done]. }
    eapply emits_eq; [intros w; apply bind_assoc|]. apply (emits_flush _ _ _ _ _ _ (λ c u, w_ret (c, u))).
    intros count' unpacked'. cbn [orb].
    assert (Hl : ∀ path e, (path, e) ∈ l → ∃ source members m d, planned (overrides plan) path e source members m d).
    { intros path' e' ?. apply Hplan. set_solver. }
    assert (Hid : ∀ spec : Written (Z * Z), w_bind spec (λ r, w_ret (r.1, r.2)) = spec).
    { intros [[b [c1 u1]]|]; simpl; [by rewrite app_nil_r|done]. }
    rewrite Hid. case_bool_decide; cbn [app].
    + apply IH, Hl.
    + cbn [items_written]. destruct (Hplan path e) as (source & members & m & d & Hp); [set_solver|].
      eapply emits_eq; [intros w; apply bind_assoc|]. eapply emits_bind'; [|intros size; apply IH, Hl].
      unfold item_written. pose proof Hp as (_ & -> & _ & Hm & _). simpl. rewrite Hm. by eapply emits_write_entry.
Qed.

Lemma emits_write_merged :
  layers request = sources →
  init_path = resolve_injection_path (entries plan) FIRESTONE_INIT_PATH →
  init_binary = from_option id [] (injected_init request) →
  (∀ path e, entries plan !! path = Some e → ∃ source members m d, planned (overrides plan) path e source members m d) →
  emits_out (write_merged lossy write_fault request plan)
    (items (interleave (iter (entries plan)) (injected_paths request plan)) 0 0).
Proof.
  intros Hreq Hi Hb Hplan [] o _.
  pose proof (emits_write_entries (iter (entries plan)) (injected_paths request plan) 0 0 Hreq) as He.
  assert (Hcs : cursors_ok ((λ _, new_cursor) <$> sources)).
  { split; [by rewrite length_fmap|].
    intros i c Hc. rewrite list_lookup_fmap in Hc. destruct (sources !! i); [|done]. injection Hc as <-. by left. }
  specialize (He ltac:(intros path e Hin%elem_of_iter; by apply Hplan) _ o Hcs).
  unfold write_merged, on_out in *. simpl in *. rewrite Hreq, <- Hi, <- Hb.
  match type of He with match ?x with _ => _ end => destruct x as [[a|e] [cs o']] end; [|exact He].
  by destruct He as [_ He].
Qed.
End loop.
End member.

(** ** The order of the merged tar *)

Lemma due_later path injected : injected = due path injected ++ later path injected.
Proof. induction injected as [|next injected IH]; simpl; [done|]. case_bool_decide; [simpl; by f_equal|done]. Qed.
Lemma due_le path injected : Forall (λ p, str_le p path) (due path injected).
Proof. induction injected as [|next injected IH]; simpl; [done|]. case_bool_decide; by constructor. Qed.
Lemma later_gt path injected :
  StronglySorted str_lt injected → Forall (λ p, str_lt path p) (later path injected).
Proof.
  induction 1 as [|next injected Hs IH Hn]; simpl; [done|]. case_bool_decide as Hle; [done|].
  assert (str_lt path next) as Hlt.
  { destruct (str_trichotomy path next) as [|[->|]]; [done|..]; destruct Hle; apply str_le_lt; auto. }
  constructor; [done|]. eapply Forall_impl; [exact Hn|]. intros p Hp. by eapply str_lt_trans.
Qed.

Lemma elem_of_inject path item (injected : list string) :
  (path, item) ∈ inject <$> injected ↔ item = Injected ∧ path ∈ injected.
Proof. rewrite list_elem_of_fmap. unfold inject. naive_solver. Qed.
Lemma inject_sorted (injected : list string) : StronglySorted str_lt injected → StronglySorted key_lt (inject <$> injected).
Proof.
  induction 1 as [|p inj Hs IH Hp]; [constructor|]. constructor; [done|]. by apply Forall_fmap.
Qed.
Lemma str_le_lt_trans s t u : str_le s t → str_lt t u → str_lt s u.
Proof. intros [->|?]%str_le_lt ?; [done|by eapply str_lt_trans]. Qed.

Lemma elem_of_interleave l injected :
  StronglySorted key_lt l → StronglySorted str_lt injected →
  ∀ path item, (path, item) ∈ interleave l injected ↔
    (item = Injected ∧ path ∈ injected) ∨ (∃ e, item = Entry e ∧ (path, e) ∈ l ∧ path ∉ injected).
Proof.
  revert injected; induction l as [|[path e] l IH]; intros injected Hl Hs p i; cbn [interleave].
  - rewrite elem_of_inject. set_solver.
  - apply StronglySorted_inv in Hl as [Hl Hpath]. pose proof (due_le path injected) as Hle.
    pose proof (later_gt path injected Hs) as Hgt. pose proof (due_later path injected) as Hd.
    set (du := due path injected) in *. set (la := later path injected) in *. rewrite Hd in Hs |- *.
    rewrite !Forall_forall in *.
    rewrite !elem_of_app, elem_of_inject, (IH la Hl) by (by eapply StronglySorted_app_1_r).
    assert (Hla : path ∉ la) by (intros Hin%Hgt; by destruct (str_lt_irrefl path)).
    assert (Hlp : ∀ e', (p, e') ∈ l → p ∉ du ∧ p ≠ path).
    { intros e' Hin%Hpath. unfold key_lt in Hin. simpl in Hin. split; [intros Hdue%Hle|intros ->].
      - destruct (str_lt_irrefl p). by eapply str_le_lt_trans.
      - by destruct (str_lt_irrefl path). }
    setoid_rewrite elem_of_cons. setoid_rewrite elem_of_app. split.
    + intros [[-> ?]|[Hin|[[-> ?]|(e' & -> & Hin & Hn)]]]; [tauto| |tauto|].
      * case_bool_decide; [set_solver|]. apply list_elem_of_singleton in Hin. injection Hin as -> ->.
        right. exists e. tauto.
      * right. exists e'. pose proof (Hlp e' Hin). tauto.
    + intros [[-> Hin]|(e' & -> & [[= -> ->]|Hin] & Hn)]; [tauto| |].
      * right. left. rewrite bool_decide_eq_false_2 by tauto. by apply list_elem_of_singleton.
      * right. right. right. exists e'. tauto.
Qed.

(** The items of the tar come in strictly ascending path order. *)
Lemma interleave_sorted l injected :
  StronglySorted key_lt l → StronglySorted str_lt injected → StronglySorted key_lt (interleave l injected).
Proof.
  revert injected; induction l as [|[path e] l IH]; intros injected Hl Hs; cbn [interleave]; [by apply inject_sorted|].
  apply StronglySorted_inv in Hl as [Hl Hpath]. pose proof (due_le path injected) as Hle.
  pose proof (later_gt path injected Hs) as Hgt. pose proof (due_later path injected) as Hd.
  set (du := due path injected) in *. set (la := later path injected) in *.
  assert (StronglySorted str_lt du) as Hs1 by (rewrite Hd in Hs; by eapply StronglySorted_app_1_l).
  assert (StronglySorted str_lt la) as Hs2 by (rewrite Hd in Hs; by eapply StronglySorted_app_1_r).
  rewrite !Forall_forall in *.
  assert (Htail : ∀ q, q ∈ interleave l la → str_lt path q.1).
  { intros [p i] [[_ Hp]|(e' & _ & Hp & _)]%elem_of_interleave; [by apply Hgt|by apply (Hpath (p, e'))|done|done]. }
  apply StronglySorted_app_2; [|by apply inject_sorted|].
  - intros [p1 i1] [p2 i2] [_ H1]%elem_of_inject H2. apply Hle in H1 as Hp1. unfold key_lt. simpl. rewrite elem_of_app in H2.
    destruct H2 as [H2|H2%Htail]; [|by eapply str_le_lt_trans].
    case_bool_decide as Hin; [set_solver|]. apply list_elem_of_singleton in H2. injection H2 as -> ->.
    apply str_le_lt in Hp1 as [->|]; done.
  - case_bool_decide; cbn [app]; [by apply IH|]. constructor; [by apply IH|]. rewrite Forall_forall. exact Htail.
Qed.
