(* ===== verification/MergeSpec.v ===== *)
(** What merging OCI layers guarantees ([firestone-core/src/oci/layers.rs]): the plan is the
    overlay union of the layers' members, hard links keep their content, injected members stay inside the
    tree, and the merged tar is the surviving and injected members in path order. *)
From S2P Require Import Prelude RustStr Errors Bounded Utf8 BTree Overlay Tar Merge MergeWrite.
Open Scope Z_scope.

(** ** The members behind the plan *)

Lemma last_put_elem acts k e : last_put acts k = Some e → Put k e ∈ acts.
Proof.
  induction acts as [|a acts IH] using rev_ind; [done|]. rewrite last_put_snoc.
  destruct a as [| |path e']; simpl; [set_solver..|]. destruct (String.eqb_spec path k) as [->|]; [|set_solver].
  intros [= ->]. set_solver.
Qed.

Section members.
Context `{TarCrate} (lossy : string → string).

Lemma contents_ordinal open_ label fuel c members c' i m d :
  is_Some (reader c) → pending_data c = None →
  contents open_ label fuel c = (Ok members, c') → members !! i = Some (m, d) →
  member_ordinal m = next_ordinal c + Z.of_nat i.
Proof.
  revert c members i c'; induction fuel as [|fuel IH]; intros c members i c' Hr Hp; [done|]. rewrite contents_S.
  pose proof (ends_read_header open_ label c Hr) as He.
  destruct (read_header open_ label c) as [[[m0|]|] c1] eqn:Hh; [| |done].
  2:{ by intros [= <- _]. }
  destruct (payload label c1) as [[d0|] c2] eqn:Hpay; [|done].
  destruct (contents open_ label fuel c2) as [[l|] c3] eqn:Hc; [|done]. intros [= <- _].
  assert (Hpos : member_ordinal m0 = next_ordinal c ∧ next_ordinal c1 = next_ordinal c + 1).
  { revert Hh. unfold read_header, mbind, M_bind, M_get. destruct (reader c); [|by destruct Hr].
    cbn [mret M_ret]. rewrite Hp. cbn [mret M_ret]. intros Hl. apply read_header_loop_pos in Hl. tauto. }
  destruct Hpos as [Hm Hn]. destruct i as [|i]; simpl.
  - intros [= -> ->]. lia.
  - apply payload_pos in Hpay as (Hn2 & Hp2 & Hr2). intros Hi.
    destruct He as [Hr1 _]. rewrite (IH c2 l i c3 (Hr2 Hr1) Hp2 Hc Hi). lia.
Qed.
Lemma layer_contents_ordinal index source members i m d :
  layer_contents index source = Ok members → members !! i = Some (m, d) → member_ordinal m = Z.of_nat i.
Proof.
  unfold layer_contents, layer_turns. rewrite contents_opens. destruct (open source) as [r|e] eqn:Ho; [|done].
  destruct (contents _ _ _ _) as [res c'] eqn:Hc. simpl. intros ->. intros Hi.
  eapply contents_ordinal in Hc; [|by eexists|done|exact Hi]. simpl in Hc. lia.
Qed.

(** What the actions of a layer say about its members. *)
Definition member_file (members : list TarMember) (o s : Z) : Prop :=
  ∃ m, m ∈ members ∧ is_file_type (entry_type m) = true ∧ member_ordinal m = o ∧ data_size m = s.
(** The target of a hard link is the normalised link name of its member. *)
Definition linked (label : string) (e : MergedEntry) (m : TarMember) : Prop :=
  kind e = HardLink → ∃ t, link_target e = Some t ∧ normalize_link_target lossy (from_option id "" (link m)) label = Ok t.
Definition put_from (label : string) (index : nat) (members : list TarMember) (path : string) (e : MergedEntry) : Prop :=
  ∃ m, m ∈ members ∧ normalize_entry_path lossy (member_path m) label = Ok (Some path) ∧
    ordinal e = member_ordinal m ∧ kind e = classify_entry (entry_type m) ∧ layer e = index ∧
    (∀ o s, local_target e = Some (o, s) → member_file members o s) ∧ linked label e m.

Lemma layer_actions_put label index seen lf members acts path e :
  layer_actions lossy label index lf members = Ok acts →
  (∀ t o s, lf !! t = Some (o, s) → member_file seen o s) →
  Put path e ∈ acts → put_from label index (seen ++ members) path e.
Proof.
  revert lf seen acts; induction members as [|m members IH]; intros lf seen acts; cbn [layer_actions].
  - intros [= <-] _ Hin. set_solver.
  - intros Ha Hlf Hin. apply bind_Ok in Ha as ([a lf1] & Hm & Ha).
    apply bind_Ok in Ha as (acts1 & Hrest & [= <-]).
    assert (Hlf1 : ∀ t o s, lf1 !! t = Some (o, s) → member_file (seen ++ [m]) o s).
    { intros t o s Ht. revert Hm. unfold member_action. intros Hm. apply bind_Ok in Hm as (p & _ & Hm).
      assert (Hold : lf !! t = Some (o, s) → member_file (seen ++ [m]) o s).
      { intros (m' & Hin' & Hrest')%Hlf. exists m'. split; [set_solver|done]. }
      destruct p as [path'|]; [|by simplify_eq; apply Hold].
      destruct (split_last_component path') as [parent name].
      destruct (String.eqb name OPAQUE_MARKER); [by simplify_eq; apply Hold|].
      destruct (strip_prefix WHITEOUT_PREFIX name) as [removed|].
      - apply reject_if_Ok in Hm as [_ Hm]. by simplify_eq; apply Hold.
      - apply bind_Ok in Hm as (lt & _ & [= _ <-]). destruct (is_file_type (entry_type m)) eqn:Hft; [|by apply Hold].
        apply lookup_insert_Some in Ht as [[_ [= <- <-]]|[_ Ht]]; [|by apply Hold].
        exists m. split_and!; [set_solver|done..]. }
    rewrite elem_of_app in Hin. destruct Hin as [Hin|Hin].
    + destruct a as [a|]; [|set_solver]. simpl in Hin. apply list_elem_of_singleton in Hin as <-.
      revert Hm. unfold member_action. intros Hm. apply bind_Ok in Hm as (p & Hnorm & Hm).
      destruct p as [path'|]; [|done]. destruct (split_last_component path') as [parent name].
      destruct (String.eqb name OPAQUE_MARKER); [done|].
      destruct (strip_prefix WHITEOUT_PREFIX name) as [removed|]; [by apply reject_if_Ok in Hm as [_ Hm]|].
      apply bind_Ok in Hm as (lt & Hlt & [= -> <- <-]). exists m. split_and!; try done; [set_solver|..].
      * simpl. intros o s. destruct lt as [t|]; [|done]. simpl. intros Ht.
        destruct (Hlf1 t o s Ht) as (m' & Hin' & Hrest'). exists m'. split; [set_solver|done].
      * intros Hk. cbn in Hk. rewrite bool_decide_eq_true_2 in Hlt by done. apply bind_Ok in Hlt as (t & Ht & [= <-]). by exists t.
    + replace (seen ++ m :: members) with ((seen ++ [m]) ++ members) by (by rewrite <- app_assoc).
      by eapply IH.
Qed.

Lemma reads_as_lookup index sources layers_ actions i acts :
  reads_as lossy index sources layers_ actions → actions !! i = Some acts →
  ∃ source members, sources !! i = Some source ∧ layers_ !! i = Some members ∧
    layer_contents (index + i) source = Ok members ∧
    layer_actions lossy (cursor_label (index + i) source) (index + i) ∅ members.*1 = Ok acts.
Proof.
  intros Hr. revert i; induction Hr as [|index source sources members layers_ acts' actions Hc Ha Hr IH]; intros i; [done|].
  destruct i as [|i]; simpl.
  - intros [= ->]. rewrite Nat.add_0_r. eauto 10.
  - intros (source' & members' & ? & ? & ? & ?)%IH. rewrite Nat.add_succ_r. eauto 10.
Qed.
Lemma reads_as_holds index sources layers_ actions :
  reads_as lossy index sources layers_ actions →
  length layers_ = length sources ∧ length actions = length sources ∧
  ∀ i source members, sources !! i = Some source → layers_ !! i = Some members →
    layer_contents (index + i) source = Ok members.
Proof.
  induction 1 as [|index source sources members layers_ acts' actions Hc Ha Hr (IH1 & IH2 & IH3)]; [done|].
  simpl. split_and!; [lia|lia|]. intros [|i] source' members'; simpl.
  - intros [= ->] [= ->]. by rewrite Nat.add_0_r.
  - rewrite Nat.add_succ_r. apply IH3.
Qed.
End members.

(** ** Everything the plan keeps is a member of a layer *)

Section spec.
Context `{TarCrate} (lossy : string → string).

Lemma plan_planned request plan layers_ actions path e :
  build_plan lossy request = Ok plan →
  reads_as lossy 0 (layers request) layers_ actions →
  (∀ k, entries plan !! k = merged actions k) →
  plan_hardlinks lossy (entries plan) = Ok (overrides plan) →
  entries plan !! path = Some e →
  ∃ source members m d, planned lossy (layers request) layers_ (overrides plan) path e source members m d ∧
    linked lossy (cursor_label (layer e) source) e m.
Proof.
  intros _ Hreads Hmerged Hhard He. apply plan_hardlinks_inv in Hhard as [Hres Hdom].
  pose proof He as Hm. rewrite Hmerged in Hm. apply merged_survivor in Hm as (i & acts & Hi & Hput & _).
  destruct (reads_as_lookup lossy _ _ _ _ _ _ Hreads Hi) as (source & members & Hs & Hms & Hc & Ha). simpl in Hc, Ha.
  apply last_put_elem in Hput. eapply (layer_actions_put lossy _ _ []) in Hput as (m & Hin & Hnorm & Hord & Hkind & Hlayer & Hlocal & Hlink);
    [|done|by intros *; rewrite lookup_empty]. subst i.
  assert (Hat : ∀ m, m ∈ members.*1 → ∃ j d, members !! j = Some (m, d) ∧ member_ordinal m = Z.of_nat j).
  { intros m' Hm'. apply list_elem_of_fmap in Hm' as ([m1 d1] & -> & Hm'). apply list_elem_of_lookup in Hm' as [j Hj].
    exists j, d1. split; [done|]. by eapply layer_contents_ordinal. }
  simpl in Hin. destruct (Hat m Hin) as (j & d & Hj & Hmo). exists source, members, m, d.
  rewrite Hmo in Hord. split; [|done]. split_and!; try done; [lia|by rewrite Hord, Nat2Z.id|].
  intros o s Hov. destruct (Hdom path (mk_is_Some _ _ Hov)) as (e' & He' & Hhl). rewrite He in He'. injection He' as <-.
  destruct (Hres path e He Hhl) as (target & _ & Hr). rewrite Hov in Hr.
  destruct (Hlocal o s Hr) as (m' & Hin' & Hft & Ho & Hsz). simpl in Hin'.
  destruct (Hat m' Hin') as (j' & d' & Hj' & Hmo'). rewrite <- Ho, Hmo', Nat2Z.id. split; [lia|by exists m', d'].
Qed.

(** ** The paths of the injected members *)

Lemma split_join_path dir name :
  plain_component name → last (split "/" (join_path dir name)) = Some name.
Proof using Type.
  clear lossy.
  intros Hn. unfold join_path. destruct (is_empty dir).
  - by rewrite split_no_sep by apply Hn.
  - rewrite split_app_last by apply Hn. by rewrite last_snoc.
Qed.
Lemma injected_distinct (entries_ : gmap string MergedEntry) :
  resolve_injection_path entries_ FIRESTONE_INIT_PATH ≠ resolve_injection_path entries_ FIRESTONE_OCI_MARKER_PATH.
Proof using Type.
  clear lossy.
  intros E. apply (f_equal (λ p, last (split "/" p))) in E. revert E.
  assert (Hc : ∀ path parent name, clean path → split_last_component path = (parent, name) →
    last (split "/" (resolve_injection_path entries_ path)) = Some name).
  { intros path parent name Hp Hs. destruct (resolve_injection_clean entries_ path parent name Hp Hs) as (dir & _ & -> & _).
    apply split_join_path. by apply split_last_clean in Hs as (_ & ? & _). }
  rewrite (Hc FIRESTONE_INIT_PATH "sbin" "firestone-init"), (Hc FIRESTONE_OCI_MARKER_PATH "etc" "firestone-oci");
    try done; by repeat constructor.
Qed.
Lemma injected_paths_sorted request plan : StronglySorted str_lt (injected_paths request plan).
Proof using Type.
  clear lossy.
  unfold injected_paths. destruct (injected_init request); [|constructor].
  assert (Hstrict : ∀ l, StronglySorted str_le l → NoDup l → StronglySorted str_lt l).
  { induction 1 as [|x l0 Hs IH Hx]; [constructor|]. intros [Hn Hnd]%NoDup_cons. constructor; [by apply IH|].
    rewrite Forall_forall in *. intros y Hy. destruct (proj1 (str_le_lt x y) (Hx y Hy)) as [->|]; done. }
  apply Hstrict; [apply StronglySorted_merge_sort; apply _|]. rewrite merge_sort_Permutation.
  pose proof (injected_distinct (entries plan)). apply NoDup_cons. split; [set_solver|]. apply NoDup_singleton.
Qed.
Lemma elem_of_injected_paths request plan p :
  p ∈ injected_paths request plan ↔ is_Some (injected_init request) ∧
    (p = resolve_injection_path (entries plan) FIRESTONE_INIT_PATH ∨
     p = resolve_injection_path (entries plan) FIRESTONE_OCI_MARKER_PATH).
Proof using Type.
  clear lossy.
  unfold injected_paths. destruct (injected_init request); [|rewrite elem_of_nil; split; [done|by intros [[? ?] _]]].
  rewrite merge_sort_Permutation. rewrite !elem_of_cons, elem_of_nil. split; [naive_solver|tauto].
Qed.

(** What stands in the merged tar at each path: the injected members take the place of entries. *)
Definition tar_items (request : MergeRequest) (plan : MergePlan) : gmap string Item :=
  let base := Entry <$> entries plan in
  match injected_init request with
  | Some _ => <[resolve_injection_path (entries plan) FIRESTONE_INIT_PATH := Injected]>
              (<[resolve_injection_path (entries plan) FIRESTONE_OCI_MARKER_PATH := Injected]> base)
  | None => base
  end.
Lemma lookup_tar_items request plan p item :
  tar_items request plan !! p = Some item ↔
    (item = Injected ∧ p ∈ injected_paths request plan) ∨
    (∃ e, item = Entry e ∧ entries plan !! p = Some e ∧ p ∉ injected_paths request plan).
Proof using Type.
  clear lossy.
  setoid_rewrite elem_of_injected_paths. unfold tar_items.
  destruct (injected_init request) as [init|].
  - set (a := resolve_injection_path _ FIRESTONE_INIT_PATH).
    set (b := resolve_injection_path (entries plan) FIRESTONE_OCI_MARKER_PATH).
    rewrite !lookup_insert_Some, lookup_fmap, fmap_Some. assert (is_Some (Some init)) as Hi by eauto.
    destruct (decide (p = a)), (decide (p = b)); split; naive_solver.
  - assert (¬ is_Some (@None (list Z))) by (by intros [? ?]). rewrite lookup_fmap, fmap_Some. naive_solver.
Qed.
(** The writing loop visits exactly these items in path order. *)
Lemma interleave_tar_items request plan :
  interleave (iter (entries plan)) (injected_paths request plan) = iter (tar_items request plan).
Proof using Type.
  clear lossy.
  pose proof (iter_strict (entries plan)) as H1. pose proof (injected_paths_sorted request plan) as H2.
  apply (sorted_ext key_lt).
  - intros [p i]. apply str_lt_irrefl.
  - intros ???. apply str_lt_trans.
  - by apply interleave_sorted.
  - apply iter_strict.
  - intros [p i]. rewrite elem_of_interleave, elem_of_iter, lookup_tar_items by done.
    by setoid_rewrite elem_of_iter.
Qed.

Lemma items_written_count layers_ init_path init_binary overrides l count unpacked bytes count' unpacked' :
  items_written lossy layers_ init_path init_binary overrides l count unpacked = Ok (bytes, (count', unpacked')) →
  count' = count + length_z l.
Proof.
  revert count unpacked bytes; induction l as [|[p i] l IH]; intros count unpacked bytes; cbn [items_written].
  - intros [= _ <- _]. unfold length_z. simpl. lia.
  - unfold w_bind. destruct (item_written _ _ _ _ _ _ _) as [[b size]|]; [|done].
    destruct (items_written _ _ _ _ _ _ _ _) as [[b' [c u]]|] eqn:Hr; [|done].
    intros [= _ <- <-]. apply IH in Hr. unfold length_z in *. cbn [length]. lia.
Qed.

(** What [merge_layers] does, against a plan that is the overlay of the layers. *)
Lemma merge_layers_spec write_fault request o :
  0 <= max_entries (limits request) →
  match merge_layers lossy write_fault request o with
  | (Ok summary, o') => ∃ plan layers_ actions bytes,
      build_plan lossy request = Ok plan ∧ reads_as lossy 0 (layers request) layers_ actions ∧
      (∀ k, entries plan !! k = merged actions k) ∧
      items_written lossy layers_ (resolve_injection_path (entries plan) FIRESTONE_INIT_PATH)
        (from_option id [] (injected_init request)) (overrides plan) (iter (tar_items request plan)) 0 0 =
        Ok (bytes, (entries_written summary, unpacked_bytes summary)) ∧
      written o' = written o ++ bytes ++ replicate 1024 0 ∧
      entries_written summary = length_z (iter (tar_items request plan)) ∧
      summary_config summary = config request
  | (Err e, _) => e ≠ OutOfFuel
  end.
Proof.
  intros Hmax. unfold merge_layers. unfold mbind at 1, M_bind at 1, M_lift at 1.
  destruct (build_plan lossy request) as [plan|e] eqn:Hplan; [|by intros ->; apply (build_plan_ends lossy request)].
  destruct (build_plan_overlay lossy request plan Hmax Hplan) as (layers_ & actions & Hreads & Hmerged & _ & Hhard & _).
  destruct (reads_as_holds lossy _ _ _ _ Hreads) as (Hlen & _ & Hholds).
  pose proof (emits_write_merged lossy write_fault (layers request) layers_ (conj Hlen Hholds) request plan
    _ _ eq_refl eq_refl eq_refl) as He.
  specialize (He ltac:(intros path e Hin; destruct (plan_planned request plan layers_ actions path e) as (? & ? & ? & ? & ? & _); eauto)).
  set (items := items_written _ _ _ _ _ _ _ _) in He.
  assert (Hend : emits_out write_fault
    (counts ← write_merged lossy write_fault request plan;
     write_all write_fault (replicate (Z.to_nat (BLOCK * 2)) 0);;
     write_all write_fault [];;
     mret {| entries_written := counts.1; uncompressed_bytes_read := plan_bytes_read plan;
             unpacked_bytes := counts.2; summary_config := config request |})
    (w_bind items (λ counts, w_bind (w_bytes (replicate (Z.to_nat (BLOCK * 2)) 0)) (λ _, w_bind (w_bytes []) (λ _,
       w_ret {| entries_written := counts.1; uncompressed_bytes_read := plan_bytes_read plan;
                unpacked_bytes := counts.2; summary_config := config request |}))))).
  { eapply emits_out_bind; [exact He|]. intros _ counts _.
    apply emits_out_seq; [apply emits_write_all|]. apply emits_out_seq; [apply emits_write_all|]. apply emits_out_ret. }
  match type of Hend with emits_out _ ?act _ => set (m := act) in * end.
  specialize (Hend () o I). unfold on_out in Hend. cbn [fst snd] in Hend.
  match goal with |- match ?x with _ => _ end => change x with (m o) end.
  destruct (m o) as [[summary|e] o']; [|by destruct Hend].
  destruct Hend as (_ & bytes & Hspec & Hw). subst items. rewrite interleave_tar_items in Hspec.
  unfold w_bind at 1 in Hspec.
  destruct (items_written _ _ _ _ _ _ _ _) as [[b [count unpacked]]|] eqn:Hitems in Hspec; [|done].
  injection Hspec as <- <-. exists plan, layers_, actions, b. cbn [fst snd entries_written unpacked_bytes summary_config].
  split_and!; [done|done|done|exact Hitems|exact Hw| |done].
  - apply items_written_count in Hitems. lia.
Qed.
End spec.

(** ** Properties *)

(** C2: layers.rs, [build_plan]: for whatever layers, the streaming plan is the overlay union
    of the layers' members, of every type (devices and FIFOs too: layers.rs keeps them, as its
    module documentation says, where SPEC §8.5 would have them dropped).  A path survives exactly when some layer puts it, as that
    layer's last entry for it, and no later layer puts it again or hides it by a whiteout,
    an opaque directory above it or a non-directory above it; and no more members are read than the cap allows. *)
Theorem build_plan_is_overlay `{TarCrate} lossy request plan :
  0 <= max_entries (limits request) → build_plan lossy request = Ok plan →
  ∃ layers_ actions, reads_as lossy 0 (layers request) layers_ actions ∧
    (∀ path e, entries plan !! path = Some e ↔
      ∃ i acts, actions !! i = Some acts ∧ last_put acts path = Some e ∧
        ∀ j acts', (i < j)%nat → actions !! j = Some acts' →
          last_put acts' path = None ∧ existsb (hides path) acts' = false) ∧
    foldr (λ l n, length_z l + n) 0 layers_ <= max_entries (limits request).
Proof.
  intros Hmax Hplan. destruct (build_plan_overlay lossy request plan Hmax Hplan) as (layers_ & actions & ? & Hm & ? & _).
  exists layers_, actions. split_and!; [done| |done]. intros path e. rewrite Hm. apply merged_survivor.
Qed.

(** layers.rs, [plan_hardlinks]: no hard link of the merged tar dangles.  A surviving hard link
    keeps a target that survives, in its own layer or as a regular file; or carries the
    content of the regular file of its own layer it named, with that file's size; or is
    re-pointed at an earlier member of the tar that carries that content, with a name that
    fits the header. *)
Theorem hardlinks_resolved `{TarCrate} lossy request plan path e :
  0 <= max_entries (limits request) → build_plan lossy request = Ok plan →
  entries plan !! path = Some e → kind e = HardLink →
  resolved (entries plan) (overrides plan) path e ∧
  ∃ layers_ actions, reads_as lossy 0 (layers request) layers_ actions ∧
  ∀ o s, overrides plan !! path = Some (Promote o s) → ∃ members m d,
    layers_ !! layer e = Some members ∧ members !! Z.to_nat o = Some (m, d) ∧
    is_file_type (entry_type m) = true ∧ data_size m = s.
Proof.
  intros Hmax Hplan He Hk.
  destruct (build_plan_overlay lossy request plan Hmax Hplan) as (layers_ & actions & Hr & Hm & _ & Hh & _).
  split; [by apply plan_hardlinks_inv in Hh as [Hres _]; apply Hres|]. exists layers_, actions. split; [done|].
  intros o s Ho. destruct (plan_planned lossy request plan layers_ actions path e Hplan Hr Hm Hh He)
    as (source & members & m & d & (_ & Hl & _ & _ & _ & Hp) & _).
  destruct (Hp o s Ho) as (_ & m' & d' & ?). eauto 10.
Qed.

(** C3: layers.rs, [merge_layers]: a merge that succeeds appends exactly the bytes of the
    surviving and the injected members, each once and in strictly ascending path order, an
    injected member in place of an entry at its path, then two zero blocks; seeking with
    restartable cursors has become random access, and the summary counts the members.  A member is
    written with its header and extension records as they are in its layer, whatever its type and
    its records, but for a hard link that is repaired. *)
Theorem merged_tar_exact `{TarCrate} lossy write_fault request o summary o' :
  0 <= max_entries (limits request) →
  merge_layers lossy write_fault request o = (Ok summary, o') →
  ∃ plan layers_ actions bytes,
    build_plan lossy request = Ok plan ∧ reads_as lossy 0 (layers request) layers_ actions ∧
    StronglySorted key_lt (iter (tar_items request plan)) ∧
    items_written lossy layers_ (resolve_injection_path (entries plan) FIRESTONE_INIT_PATH)
      (from_option id [] (injected_init request)) (overrides plan) (iter (tar_items request plan)) 0 0 =
      Ok (bytes, (entries_written summary, unpacked_bytes summary)) ∧
    written o' = written o ++ bytes ++ replicate 1024 0 ∧
    entries_written summary = length_z (iter (tar_items request plan)).
Proof.
  intros Hmax Hm. pose proof (merge_layers_spec lossy write_fault request o Hmax) as Hs. rewrite Hm in Hs.
  destruct Hs as (plan & layers_ & actions & bytes & ? & ? & _ & ? & ? & ? & _). exists plan, layers_, actions, bytes.
  split_and!; try done. apply iter_strict.
Qed.

(** C35: layers.rs, termination: merging ends on every stream, whatever its bytes, where it
    breaks off and which write fails; one turn per byte of a layer is enough for every loop
    of both passes. *)
Theorem merge_layers_ends `{TarCrate} lossy write_fault request o :
  0 <= max_entries (limits request) →
  ∃ r o', merge_layers lossy write_fault request o = (r, o') ∧ r ≠ Err OutOfFuel.
Proof.
  intros Hmax. pose proof (merge_layers_spec lossy write_fault request o Hmax) as Hs.
  destruct (merge_layers lossy write_fault request o) as [[summary|e] o']; eexists _, _; split; try done. congruence.
Qed.

(** [raw] is a spelling of the path [p], which stays below the root it is joined to: no [..], and
    nothing but [.] and empty components besides those of [p]. *)
Definition spells (raw p : string) : Prop :=
  clean p ∧ has_char NUL p = false ∧ ".." ∉ split "/" raw ∧ split "/" p = filter (λ c, c ≠ "" ∧ c ≠ ".") (split "/" raw).

(** C14: layers.rs, path hardening: every path of the plan and of the injected members is a relative
    path of plain components, and the tar holds nothing else: what is written at the path of an entry
    is a member of a layer (copied as it is, unless a hard link is repaired), whose recorded path is not
    absolute, has no [..], and differs from the entry's by [.] and empty components at most; and the
    link name of a hard link is such a spelling of its target, after one leading slash.  The targets
    of symbolic links are not looked at. *)
Theorem merged_paths_confined `{TarCrate} lossy request plan path item :
  0 <= max_entries (limits request) → build_plan lossy request = Ok plan →
  tar_items request plan !! path = Some item →
  clean path ∧
  match item with
  | Injected => path = resolve_injection_path (entries plan) FIRESTONE_INIT_PATH ∨
                path = resolve_injection_path (entries plan) FIRESTONE_OCI_MARKER_PATH
  | Entry e => ∃ layers_ actions members m d,
      reads_as lossy 0 (layers request) layers_ actions ∧ layers_ !! layer e = Some members ∧
      members !! Z.to_nat (ordinal e) = Some (m, d) ∧
      (overrides plan !! path = None → ∀ init_path init_binary,
        item_written lossy layers_ init_path init_binary (overrides plan) path item
          = Ok (member_bytes m d, member_unpacked (kind e) (data_size m))) ∧
      starts_with "/" (member_path m) = false ∧ spells (member_path m) path ∧
      (kind e = HardLink → ∃ target, link_target e = Some target ∧
        let name := from_option id "" (link m) in spells (from_option id name (strip_prefix "/" name)) target)
  end.
Proof.
  intros Hmax Hplan Hi. destruct (build_plan_overlay lossy request plan Hmax Hplan) as (layers_ & actions & Hr & Hm & _ & Hh & _).
  apply lookup_tar_items in Hi as [[-> Hin]|(e & -> & He & _)].
  - apply elem_of_injected_paths in Hin as [_ Hin]. split; [|done]. destruct Hin as [->| ->].
    + destruct (resolve_injection_clean (entries plan) FIRESTONE_INIT_PATH "sbin" "firestone-init") as (dir & _ & -> & ?);
        [by repeat constructor|done|done].
    + destruct (resolve_injection_clean (entries plan) FIRESTONE_OCI_MARKER_PATH "etc" "firestone-oci") as (dir & _ & -> & ?);
        [by repeat constructor|done|done].
  - destruct (plan_planned lossy request plan layers_ actions path e Hplan Hr Hm Hh He)
      as (source & members & m & d & (_ & Hl & _ & Hmem & Hn & _) & Hlink).
    unfold normalize_entry_path in Hn. apply reject_if_Ok in Hn as [Habs Hn].
    apply normalize_relative_Ok in Hn as (Hc & Hnul & Hdd & Hs). split; [done|].
    exists layers_, actions, members, m, d. split; [done|]. split; [done|]. split; [done|]. split; [|split; [done|split; [by split_and!|]]].
    + intros Hov init_path init_binary. unfold item_written. rewrite Hl. cbn. rewrite Hmem. cbn.
      unfold entry_written. rewrite Hov. cbn. by rewrite app_nil_r.
    + intros Hk. destruct (Hlink Hk) as (t & Ht & Hnorm). exists t. split; [done|]. cbv zeta.
      unfold normalize_link_target in Hnorm. apply bind_Ok in Hnorm as (p & Hp & ->%ok_or_Ok). by apply normalize_relative_Ok in Hp.
Qed.

(** layers.rs, [record_bytes] and [parse_pax_records]: the search for the length that counts
    its own digits ends within three turns, and records that are written are read back as they
    were, whatever bytes they hold. *)
Theorem pax_records_roundtrip rs :
  ∃ text, render_records rs = Ok text ∧
    (len text <= u64_max → parse_pax_records (S (String.length text)) text = Ok rs).
Proof.
  destruct (render_records_parse rs) as (text & Ht & Hp). exists text. split; [done|]. intros. apply Hp; [lia|done].
Qed.

(** ** A concrete image *)

Definition demo_sum (h : list Z) : Z :=
  foldl (λ s b, s + b) 0 (imap (λ i b, if (148 <=? Z.of_nat i) && (Z.of_nat i <? 156) then 32 else b) h).
Lemma demo_size_range (h : list Z) size :
  Ok (E := IoError) (Z.max 0 (Z.min 255 (nth 124 h 0))) = Ok size → 0 <= size <= u64_max.
Proof. intros [= <-]. unfold u64_max. lia. Qed.
(** A header format with the name, the size, the type and the link name where ustar has them. *)
Definition demo_crate : TarCrate := {|
  cksum h := Ok (demo_sum h);
  header_type h :=
    let t := nth 156 h 0 in
    if t =? 53 then TDirectory else if t =? 49 then TLink else if t =? 50 then TSymlink else TRegular;
  entry_size h := Ok (Z.max 0 (Z.min 255 (nth 124 h 0)));
  path_bytes h := trim_nul (utf8 (take 100 h));
  link_name_bytes h := Some (trim_nul (utf8 (take 100 (drop 157 h))));
  set_link_name_literal _ h := Ok h; set_entry_type _ h := h; set_size _ h := h; set_cksum h := h;
  new_ustar := replicate 512 0; set_path _ h := Ok h; set_username _ h := Ok h; set_groupname _ h := Ok h;
  set_mode _ h := h; set_uid _ h := h; set_gid _ h := h; set_mtime _ h := h;
  entry_size_range := demo_size_range |}.

Definition demo_field (s : string) : list Z := bytes_of s ++ replicate (100 - String.length s) 0.
Definition demo_header (name : string) (t size : Z) (target : string) : list Z :=
  demo_field name ++ replicate 24 0 ++ [size] ++ replicate 31 0 ++ [t] ++ demo_field target ++ replicate 255 0.
Definition demo_pad (d : list Z) : list Z := d ++ replicate (512 - length d) 0.
Definition demo_layer (name : string) (blocks : list (list Z)) : LayerSource :=
  {| open := Ok {| data := concat blocks; fails := None |}; source_label := name |}.
(** The upper layer removes [app/a], whose content the lower layer also has as [app/b]. *)
Definition demo_request : MergeRequest := {|
  layers := [demo_layer "lower" [demo_header "app/" 53 0 ""; demo_header "app/a" 48 3 ""; demo_pad [1; 2; 3];
                                 demo_header "app/b" 49 0 "app/a"; demo_header "sbin" 50 0 "usr/sbin"];
             demo_layer "upper" [demo_header "app/.wh.a" 48 0 ""; demo_header "etc/c" 48 1 ""; demo_pad [7]]];
  config := {| env := []; entrypoint := []; cmd := []; working_dir := None; user := None |};
  limits := default_limits; injected_init := Some [9] |}.
Definition demo_plan : MergePlan :=
  match build_plan (H := demo_crate) id demo_request with
  | Ok plan => plan
  | Err _ => {| entries := ∅; overrides := ∅; plan_bytes_read := 0 |}
  end.
Definition demo_out : Out := {| written := []; writes := 0 |}.
Lemma demo_planned : build_plan (H := demo_crate) id demo_request = Ok demo_plan.
Proof. vm_compute. done. Qed.

Lemma build_plan_is_overlay_witness :
  entries demo_plan !! "app/a" = None ∧ is_Some (entries demo_plan !! "app/b") ∧
  ∃ actions, merged actions "app/a" = None ∧ is_Some (merged actions "etc/c").
Proof.
  destruct (build_plan_is_overlay (H := demo_crate) id demo_request demo_plan) as (layers_ & actions & _ & Hm & _);
    [done|exact demo_planned|].
  split; [by vm_compute|]. split; [eexists; vm_compute; reflexivity|]. exists actions.
  assert (∀ k, entries demo_plan !! k = merged actions k) as E.
  { intros k. apply option_eq. intros e. by rewrite Hm, <- merged_survivor. }
  rewrite <- !E. split; [by vm_compute|eexists; vm_compute; reflexivity].
Defined.
Lemma hardlinks_resolved_witness :
  ∃ e, entries demo_plan !! "app/b" = Some e ∧ resolved (entries demo_plan) (overrides demo_plan) "app/b" e ∧
    overrides demo_plan !! "app/b" = Some (Promote 1 3).
Proof.
  destruct (entries demo_plan !! "app/b") as [e|] eqn:He; [|by vm_compute in He].
  exists e. split; [done|]. split; [|by vm_compute].
  apply (hardlinks_resolved (H := demo_crate) id demo_request demo_plan "app/b" e); [done|exact demo_planned|done|].
  vm_compute in He. by injection He as <-.
Defined.
Definition demo_summary : MergeSummary :=
  match merge_layers (H := demo_crate) id (λ _, None) demo_request demo_out with
  | (Ok s, _) => s
  | (Err _, _) => {| entries_written := 0; uncompressed_bytes_read := 0; unpacked_bytes := 0; summary_config := config demo_request |}
  end.
Lemma merged_tar_exact_witness :
  entries_written demo_summary = 6 ∧ ∃ plan, entries_written demo_summary =
    length_z (iter (tar_items demo_request plan)).
Proof.
  split; [by vm_compute|].
  destruct (merge_layers (H := demo_crate) id (λ _, None) demo_request demo_out) as [r o'] eqn:Hm.
  assert (r = Ok demo_summary) as ->.
  { change r with (r, o').1. rewrite <- Hm. by vm_compute. }
  destruct (merged_tar_exact (H := demo_crate) id (λ _, None) demo_request demo_out demo_summary o')
    as (plan & ? & ? & ? & ? & ? & ? & ? & ? & Hcount); [done|exact Hm|]. by exists plan.
Defined.
Lemma merge_layers_ends_witness :
  ∃ r o', merge_layers (H := demo_crate) id (λ n, if Nat.eqb n 2 then Some {| io_kind := IoOther; io_text := "disk full" |} else None)
    demo_request demo_out = (r, o') ∧ r ≠ Err OutOfFuel.
Proof. by apply (merge_layers_ends (H := demo_crate)). Defined.
Lemma merged_paths_confined_witness :
  clean "usr/sbin/firestone-init" ∧
  ∃ e (members : list (TarMember * list Z)) m d, tar_items demo_request demo_plan !! "app" = Some (Entry e) ∧
    members !! Z.to_nat (ordinal e) = Some (m, d) ∧ spells (member_path m) "app".
Proof.
  split.
  - apply (merged_paths_confined (H := demo_crate) id demo_request demo_plan "usr/sbin/firestone-init" Injected);
      [done|exact demo_planned|by vm_compute].
  - destruct (tar_items demo_request demo_plan !! "app") as [[|e]|] eqn:Hi; [vm_compute in Hi; discriminate| |vm_compute in Hi; discriminate].
    destruct (merged_paths_confined (H := demo_crate) id demo_request demo_plan "app" (Entry e))
      as (_ & layers_ & actions & members & m & d & _ & _ & Hm & _ & _ & Hs & _); [done|exact demo_planned|exact Hi|].
    exists e, members, m, d. split; [reflexivity|]. split; [exact Hm|exact Hs].
Defined.
Lemma pax_records_roundtrip_witness :
  render_records ["path=a/b"; "linkpath=c"] = Ok ("12 path=a/b" +:+ one LF +:+ "14 linkpath=c" +:+ one LF) ∧
  parse_pax_records 40 ("12 path=a/b" +:+ one LF +:+ "14 linkpath=c" +:+ one LF) = Ok ["path=a/b"; "linkpath=c"].
Proof.
  destruct (pax_records_roundtrip ["path=a/b"; "linkpath=c"]) as (text & Ht & Hp). vm_compute in Ht. injection Ht as <-.
  split; [by vm_compute|]. exact (Hp ltac:(vm_compute; discriminate)).
Defined.
