(* ===== verification/Registry.v ===== *)
(** Pulling an image from an OCI registry ([firestone-core/src/oci/registry.rs]): credentials,
    authentication challenges, manifest resolution and layer streaming, over an HTTP transport that
    answers as it likes.

    The url crate, serde_json and sha2 are the classes [Urls], [RegistryJson] and [Sha256]. *)
From stdpp Require Import gmap sorting.
From S2P Require Import Prelude RustStr Errors Bounded Values BTree Utf8 HttpHead Catalog Overlay OciRef.
Open Scope Z_scope.

Definition DOCKER_REGISTRY_ENDPOINT := "registry-1.docker.io".
Definition MAX_MANIFEST_BYTES : Z := 4 * 1024 * 1024.
Definition MAX_CONFIG_BYTES : Z := 1024 * 1024.
Definition MAX_TOKEN_BYTES : Z := 64 * 1024.
Definition MAX_DOCKER_CONFIG_BYTES : Z := 1024 * 1024.
Definition MAX_LAYERS : Z := 128.
Definition MEDIA_TYPE_OCI_INDEX := "application/vnd.oci.image.index.v1+json".
Definition MEDIA_TYPE_OCI_MANIFEST := "application/vnd.oci.image.manifest.v1+json".
Definition MEDIA_TYPE_DOCKER_MANIFEST_LIST := "application/vnd.docker.distribution.manifest.list.v2+json".
Definition MEDIA_TYPE_DOCKER_MANIFEST := "application/vnd.docker.distribution.manifest.v2+json".
Definition MANIFEST_ACCEPT :=
  MEDIA_TYPE_OCI_INDEX +:+ ", " +:+ MEDIA_TYPE_OCI_MANIFEST +:+ ", " +:+ MEDIA_TYPE_DOCKER_MANIFEST_LIST +:+ ", "
    +:+ MEDIA_TYPE_DOCKER_MANIFEST.
Definition PROGRESS_INTERVAL_BYTES : Z := 1024 * 1024.
Definition LAYER_BUFFER_BYTES : Z := 1024 * 1024.
Definition DIGEST_HEX_LENGTH : Z := 64.

(** ** Base64 *)

Definition BASE64_ALPHABET : string := "ABCDEFGHIJKLMNOPQRSTUVWXYZabcdefghijklmnopqrstuvwxyz0123456789+/".
Definition base64_symbol (index : Z) : ascii := default "A"%char (String.get (Z.to_nat index) BASE64_ALPHABET).
(** One block of up to three bytes. *)
Definition base64_block (block : list Z) : string :=
  let byte n := default 0 (block !! n) in
  let value := Z.lor (Z.lor (Z.shiftl (byte 0%nat) 16) (Z.shiftl (byte 1%nat) 8)) (byte 2%nat) in
  let symbol (position : nat) shift :=
    if (position <=? length block)%nat then base64_symbol (Z.land (Z.shiftr value shift) 63) else "="%char in
  String (symbol 0%nat 18) (String (symbol 1%nat 12) (String (symbol 2%nat 6) (one (symbol 3%nat 0)))).
Fixpoint base64_encode (bytes : list Z) : string :=
  match bytes with
  | a :: b :: c :: bytes => base64_block [a; b; c] +:+ base64_encode bytes
  | [] => ""
  | block => base64_block block
  end.
Fixpoint position_of (c : ascii) (s : string) : option Z :=
  match s with
  | EmptyString => None
  | String a s => if Ascii.eqb a c then Some 0 else i ← position_of c s; Some (i + 1)
  end.
(** The loop over the characters; the length of the text bounds it. *)
Fixpoint base64_loop (fuel : nat) (accumulator bits : Z) (s : string) : option (list Z) :=
  match fuel, s with
  | O, _ | _, EmptyString => Some []
  | S fuel, String c rest =>
      if Ascii.eqb c "=" then Some []
      else match strip_any whitespace s with
      | Some rest => base64_loop fuel accumulator bits rest
      | None =>
          index ← position_of c BASE64_ALPHABET;
          let accumulator := Z.lor (Z.land (Z.shiftl accumulator 6) u32_max) index in
          let bits := bits + 6 in
          if 8 <=? bits then
            output ← base64_loop fuel accumulator (bits - 8) rest;
            Some (Z.land (Z.shiftr accumulator (bits - 8)) 255 :: output)
          else base64_loop fuel accumulator bits rest
      end
  end.
Definition base64_decode (value : string) : option (list Z) := base64_loop (String.length value) 0 0 value.

(** ** Credentials *)

Record BasicCredential : Set := { user : string; secret : string }.
Definition header_value (c : BasicCredential) : string := "Basic " +:+ base64_encode (bytes_of (user c +:+ ":" +:+ secret c)).
Definition decode_basic_auth (value : string) : option BasicCredential :=
  decoded ← base64_decode (trim value);
  text ← from_utf8 decoded;
  '(user, secret) ← split_once ":" text;
  if is_empty user then None else Some {| user := user; secret := secret |}.
(** [trim_start_matches]: as often as the prefix is there. *)
Fixpoint trim_start_matches (fuel : nat) (p s : string) : string :=
  match fuel with
  | O => s
  | S fuel => match strip_prefix p s with Some s => trim_start_matches fuel p s | None => s end
  end.
Definition credential_host (key : string) : string :=
  let trimmed := trim key in
  let trimmed := trim_start_matches (String.length trimmed) "https://" trimmed in
  let trimmed := trim_start_matches (String.length trimmed) "http://" trimmed in
  let authority := match split_once "/" trimmed with Some (authority, _) => authority | None => trimmed end in
  let host := to_ascii_lowercase authority in
  if String.eqb host DEFAULT_REGISTRY_ALIAS || String.eqb host DOCKER_REGISTRY_ENDPOINT then DEFAULT_REGISTRY else host.
Record DockerAuthEntry : Set := { auth : option string; identity_token : option string }.
Record DockerConfigDocument : Set := {
  auths : gmap string DockerAuthEntry; creds_store : option string; cred_helpers : gmap string string }.
Record DockerCredentials : Set := { entries : gmap string BasicCredential; warnings : list string }.
Definition no_credentials : DockerCredentials := {| entries := ∅; warnings := [] |}.
Definition only_base64 : string := "; firestone reads base64 'auth' entries only".
Definition add_auth (cred_helpers : gmap string string) (found : DockerCredentials) (key : string) (entry : DockerAuthEntry) : DockerCredentials :=
  let host := credential_host key in
  let warned := warnings found
    ++ (if bool_decide (is_Some (cred_helpers !! key)) then ["ignoring the credential helper configured for " +:+ host +:+ only_base64] else [])
    ++ (if bool_decide (is_Some (identity_token entry)) then ["ignoring the identity token stored for " +:+ host +:+ only_base64] else []) in
  match auth entry with
  | None | Some EmptyString => {| entries := entries found; warnings := warned |}
  | Some auth =>
      match decode_basic_auth auth with
      | Some credential => {| entries := <[host := credential]> (entries found); warnings := warned |}
      | None => {| entries := entries found;
                   warnings := warned ++ ["ignoring the credentials stored for " +:+ host +:+ "; the 'auth' field is not base64 'user:password'"] |}
      end
  end.
Definition parse_credentials (from_slice : list Z → result string DockerConfigDocument) (bytes : list Z) (path : string) : DockerCredentials :=
  match from_slice bytes with
  | Err _ => {| entries := ∅; warnings := ["ignoring '" +:+ path +:+ "': the file is not valid Docker CLI configuration JSON"] |}
  | Ok document =>
      let stored := match creds_store document with
        | Some store => ["ignoring the '" +:+ store +:+ "' credential store in '" +:+ path +:+ "'" +:+ only_base64]
        | None => []
        end in
      let found := foldl (λ found kv, add_auth (cred_helpers document) found kv.1 kv.2)
        {| entries := ∅; warnings := stored |} (iter (auths document)) in
      let helpers := (iter (cred_helpers document)).*1 ≫= (λ key,
        let host := credential_host key in
        if bool_decide (is_Some (entries found !! host)) then []
        else ["ignoring the credential helper configured for " +:+ host +:+ only_base64]) in
      {| entries := entries found; warnings := dedup (merge_sort str_le (warnings found ++ helpers)) |}
  end.
(** What looking at the file gives: its length and its bytes, when it is a regular file that can be looked at. *)
Record ConfigFile : Set := { file_length : Z; file_bytes : result IoError (list Z) }.
Definition load_credentials (from_slice : list Z → result string DockerConfigDocument) (path : option string)
    (stat : string → option ConfigFile) : DockerCredentials :=
  match path with
  | None => no_credentials
  | Some path =>
      match stat path with
      | None => no_credentials
      | Some file =>
          if MAX_DOCKER_CONFIG_BYTES <? file_length file
          then {| entries := ∅; warnings := ["ignoring '" +:+ path +:+ "': the file is larger than " +:+ dec MAX_DOCKER_CONFIG_BYTES +:+ " bytes"] |}
          else match file_bytes file with
               | Err _ => no_credentials
               | Ok bytes => parse_credentials from_slice bytes path
               end
      end
  end.
Definition credential (c : DockerCredentials) (registry : string) : option BasicCredential := entries c !! registry.

(** ** Challenges *)

Inductive AuthScheme : Set := Bearer | Basic.
#[export] Instance AuthScheme_eq_dec : EqDecision AuthScheme.
Proof. solve_decision. Defined.
Record AuthChallenge : Set := { challenge_scheme : AuthScheme; parameters : gmap string string }.
Definition parameter (c : AuthChallenge) (name : string) : option string := parameters c !! name.

(** The longest part at the start whose characters satisfy [f], and the rest. *)
Fixpoint span (f : ascii → bool) (s : string) : string * string :=
  match s with
  | String c rest => if f c then let '(a, b) := span f rest in (String c a, b) else ("", s)
  | EmptyString => ("", "")
  end.
Fixpoint skip_separators (fuel : nat) (s : string) : string :=
  match fuel, s with
  | O, _ | _, EmptyString => s
  | S fuel, String c rest =>
      if Ascii.eqb c "," then skip_separators fuel rest
      else match strip_any whitespace s with Some rest => skip_separators fuel rest | None => s end
  end.
(** The inside of a quoted value, and what follows the closing quote. *)
Fixpoint quoted_value (s : string) : string * string :=
  match s with
  | EmptyString => ("", "")
  | String c rest =>
      if Ascii.eqb c "\" then
        match rest with
        | String d rest => let '(value, rest) := quoted_value rest in (String d value, rest)
        | EmptyString => (one c, "")
        end
      else if Ascii.eqb c QUOTE then ("", rest)
      else let '(value, rest) := quoted_value rest in (String c value, rest)
  end.
Definition insert_first (m : gmap string string) (name value : string) : gmap string string :=
  if is_empty name then m else match m !! name with Some _ => m | None => <[name := value]> m end.
Fixpoint parameters_loop (fuel : nat) (s : string) (m : gmap string string) : gmap string string :=
  match fuel, s with
  | O, _ | _, EmptyString => m
  | S fuel, _ =>
      let '(name, rest) := span (λ c, negb (Ascii.eqb c "=" || Ascii.eqb c ",")) (skip_separators (String.length s) s) in
      let name := to_ascii_lowercase (trim name) in
      match rest with
      | String "=" rest =>
          let unquoted := span (λ c, negb (Ascii.eqb c ",")) rest in
          let '(value, rest) := match rest with
            | String c after => if Ascii.eqb c QUOTE then quoted_value after else unquoted
            | EmptyString => unquoted
            end in
          parameters_loop fuel rest (insert_first m name (trim value))
      | String _ rest => parameters_loop fuel rest (insert_first m name "")
      | EmptyString => insert_first m name ""
      end
  end.
Definition parse_challenge_parameters (rest : string) : gmap string string := parameters_loop (String.length rest) rest ∅.
(** [s.split_at] at the first white space, if there is any. *)
Fixpoint split_whitespace (s : string) : string * string :=
  match strip_any whitespace s with
  | Some _ => ("", s)
  | None => match s with
            | EmptyString => ("", "")
            | String c rest => let '(a, b) := split_whitespace rest in (String c a, b)
            end
  end.
Definition parse_auth_challenge (value : string) : result FirestoneError AuthChallenge :=
  let '(scheme_text, rest) := split_whitespace (trim value) in
  if eq_ignore_ascii_case scheme_text "bearer" then Ok {| challenge_scheme := Bearer; parameters := parse_challenge_parameters rest |}
  else if eq_ignore_ascii_case scheme_text "basic" then Ok {| challenge_scheme := Basic; parameters := parse_challenge_parameters rest |}
  else Err (with_hint (error_new Dependency ("registry requested unsupported authentication scheme '" +:+ scheme_text +:+ "'"))
         "firestone authenticates with anonymous Bearer tokens or Basic credentials").

(** ** Transport *)

(** The url crate: an error is known by its text; [append_query] is [query_pairs_mut().append_pair]. *)
Class Urls := {
  Url : Type;
  url_parse : string → result string Url;
  url_scheme : Url → string;
  host_str : Url → option string;
  port : Url → option Z;
  url_display : Url → string;
  append_query : list (string * string) → Url → Url }.
Record HttpRequest `{Urls} : Type := { url : Url; headers : list (string * string) }.
Record HttpStatusResponse : Set := {
  status : Z; response_headers : list (string * string); body : Reader; content_length : option Z }.
(** [HttpSource::send], the sizes of the pieces a body arrives in, and how the writer and the progress
    callback of a pull fare: the i-th write may take only some bytes and fail. *)
Class Transport `{Urls} := {
  http_send : nat → HttpRequest → result FirestoneError HttpStatusResponse;
  piece : nat → nat;
  write_fault : nat → option (nat * IoError);
  report_fault : nat → option FirestoneError }.
Record Net `{Urls} : Type := { requests : list HttpRequest; written : list Z; reported : list (Z * option Z); turn : nat }.
(** [sha2::Sha256::digest]. *)
Class Sha256 := { sha256 : list Z → list Z }.

(** ** Documents *)

Record LayerDescriptor : Set := { layer_digest : string; layer_media_type : string; layer_size : Z }.
Record ResolvedManifest : Set := {
  resolved_name : string; manifest_digest : string; index_digest : option string; manifest_media_type : string;
  config_digest : string; resolved_config : OciImageConfig; resolved_layers : list LayerDescriptor }.
Record Platform : Set := { os : string; platform_architecture : string; variant : option string; os_features : option (list string) }.
Record IndexEntry : Set := {
  entry_media_type : option string; entry_digest : string; platform : option Platform; artifact_type : option string }.
Record BlobDescriptor : Set := { blob_media_type : string; blob_digest : string; blob_size : Z }.
Record ImageManifest : Set := { manifest_config : BlobDescriptor; manifest_layers : list BlobDescriptor }.
Record DocumentProbe : Set := {
  probe_media_type : option string; probe_manifests : option (list IndexEntry); probe_config : option BlobDescriptor }.
Record TokenResponse : Set := { token : option string; access_token : option string }.
Class RegistryJson := {
  probe_from_slice : list Z → result string DocumentProbe;
  manifest_from_slice : list Z → result string ImageManifest;
  (** [ImageConfigDocument], down to its [config]. *)
  image_config_from_slice : list Z → result string OciImageConfig;
  token_from_slice : list Z → result string TokenResponse }.
Record FetchedDocument : Set := { document_bytes : list Z; document_digest : string; document_media_type : option string }.
Inductive RegistryDocument : Set := Index (entries : list IndexEntry) | Manifest (manifest : ImageManifest).

Definition platform_label (p : Platform) : string :=
  match variant p with
  | Some (String _ _ as variant) => os p +:+ "/" +:+ platform_architecture p +:+ "/" +:+ variant
  | _ => os p +:+ "/" +:+ platform_architecture p
  end.
Definition hex_digest (bytes : list Z) : string := String.concat "" (hex2 <$> bytes).
Definition digest_hex (digest : string) : string := match split_once ":" digest with Some (_, hex) => hex | None => digest end.
Definition validate_digest (digest label : string) : result FirestoneError () :=
  let valid := match split_once ":" digest with
    | Some (algorithm, hex) =>
        String.eqb algorithm DIGEST_ALGORITHM && (len hex =? DIGEST_HEX_LENGTH) && all_bytes (λ b, is_ascii_digit b || byte_in 97 102 b) hex
    | None => false
    end in
  if valid then Ok ()
  else Err (with_hint (error_new Checksum (label +:+ " descriptor carries an unsupported digest '" +:+ digest +:+ "'"))
         "firestone accepts sha256 digests only").
Definition verify_digest (expected actual_hex label : string) : result FirestoneError () :=
  if eq_ignore_ascii_case (digest_hex expected) actual_hex then Ok ()
  else Err (with_hint (error_new Checksum (label +:+ " hashes to " +:+ DIGEST_ALGORITHM +:+ ":" +:+ actual_hex
              +:+ " but the registry named " +:+ expected))
         "retry the pull; the registry returned bytes that do not match their digest").
Definition header (r : HttpStatusResponse) (name : string) : option string :=
  snd <$> head (filter (λ kv, eq_ignore_ascii_case kv.1 name = true) (response_headers r)).
Definition read_bounded (r : HttpStatusResponse) (limit : Z) (label : string) : result FirestoneError (list Z) :=
  map_err (λ error, match error with
    | LimitExceeded => with_hint (error_new Dependency (label +:+ " is larger than the " +:+ dec limit +:+ " byte limit firestone reads"))
                         "the registry returned an oversized document; pull a smaller image"
    | Bounded.Io source => with_source (with_hint (error_new Generic ("cannot read " +:+ label)) "check network access and retry the pull") (io_text source)
    end) (read_to_end (body r) limit).
Definition parse_manifest_body `{RegistryJson} (reference : OciReference) (bytes : list Z) : result FirestoneError ImageManifest :=
  map_err (λ source, with_source (with_hint (error_new Dependency ("registry returned an unreadable manifest for '" +:+ display reference +:+ "'"))
    "retry the pull; the registry response was not a Registry V2 manifest") source) (manifest_from_slice bytes).
Definition parse_document `{RegistryJson} (reference : OciReference) (document : FetchedDocument) : result FirestoneError RegistryDocument :=
  probe ← map_err (λ source, with_source (with_hint (error_new Dependency ("registry returned an unreadable manifest for '" +:+ display reference +:+ "'"))
    "retry the pull; the registry response was not a Registry V2 manifest") source) (probe_from_slice (document_bytes document));
  let media_type := match probe_media_type probe with
    | Some t => t | None => default "" (document_media_type document) end in
  if String.eqb media_type MEDIA_TYPE_OCI_INDEX || String.eqb media_type MEDIA_TYPE_DOCKER_MANIFEST_LIST
  then Ok (Index (default [] (probe_manifests probe)))
  else if String.eqb media_type MEDIA_TYPE_OCI_MANIFEST || String.eqb media_type MEDIA_TYPE_DOCKER_MANIFEST
  then manifest ← parse_manifest_body reference (document_bytes document); Ok (Manifest manifest)
  else if negb (is_empty media_type) && negb (String.eqb media_type "application/json")
  then Err (with_hint (error_new Dependency ("registry returned media type '" +:+ media_type +:+ "' for '" +:+ display reference +:+ "'"))
         ("firestone reads " +:+ MANIFEST_ACCEPT))
  else match probe_manifests probe with
  | Some manifests => Ok (Index manifests)
  | None =>
      match probe_config probe with
      | Some _ => manifest ← parse_manifest_body reference (document_bytes document); Ok (Manifest manifest)
      | None => Err (with_hint (error_new Dependency ("registry returned a document for '" +:+ display reference
                       +:+ "' that is neither a manifest nor an index")) ("firestone reads " +:+ MANIFEST_ACCEPT))
      end
  end.
Definition wanted_architecture (architecture : Arch.Arch) : string :=
  match architecture with Arch.X86_64 => "amd64" | Arch.Aarch64 => "arm64" end.
(** What the loop of [select_platform] accepts. *)
Definition entry_matches (architecture : Arch.Arch) (entry : IndexEntry) : bool :=
  match platform entry with
  | None => false
  | Some p =>
      negb (bool_decide (is_Some (artifact_type entry))) &&
      match entry_media_type entry with
      | Some t => existsb (String.eqb t) [MEDIA_TYPE_OCI_MANIFEST; MEDIA_TYPE_DOCKER_MANIFEST; MEDIA_TYPE_OCI_INDEX; MEDIA_TYPE_DOCKER_MANIFEST_LIST]
      | None => true
      end &&
      negb (bool_decide (is_Some (os_features p))) &&
      String.eqb (os p) "linux" && String.eqb (platform_architecture p) (wanted_architecture architecture) &&
      match architecture, variant p with
      | Arch.Aarch64, Some variant => is_empty variant || String.eqb variant "v8"
      | _, _ => true
      end
  end.
Definition select_platform (reference : OciReference) (entries : list IndexEntry) (architecture : Arch.Arch) : result FirestoneError IndexEntry :=
  match head (filter (λ entry, entry_matches architecture entry = true) entries) with
  | Some entry => Ok entry
  | None =>
      let offered := dedup (merge_sort str_le (omap (λ entry, platform_label <$> platform entry) entries)) in
      let listed := if bool_decide (offered = []) then "nothing" else String.concat ", " offered in
      Err (with_hint (error_new NotFound ("image '" +:+ display reference +:+ "' has no linux/" +:+ wanted_architecture architecture
             +:+ " manifest; the index offers " +:+ listed)) "pull an image published for this host architecture")
  end.
Definition registry_endpoint_host (registry : string) : string :=
  if String.eqb registry DEFAULT_REGISTRY || String.eqb registry DEFAULT_REGISTRY_ALIAS then DOCKER_REGISTRY_ENDPOINT else registry.

(** ** The client *)

Record RegistryOptions : Set := {
  options_architecture : Arch.Arch; insecure : list string; docker_config : option string }.
Record RegistryClient : Set := { architecture : Arch.Arch; insecure_registries : list string; credentials : DockerCredentials }.
Fixpoint check_insecure (registries found : list string) : result FirestoneError (list string) :=
  match registries with
  | [] => Ok found
  | entry :: registries =>
      map_err (λ error, with_hint (error_new InvalidSpec ("images.insecure_registries: " +:+ message error))
        "write a bare 'host' or 'host:port' entry such as 'localhost:5000'") (validate_registry_host entry);;
      let entry := to_ascii_lowercase entry in
      if String.eqb entry DEFAULT_REGISTRY || String.eqb entry DEFAULT_REGISTRY_ALIAS || String.eqb entry DOCKER_REGISTRY_ENDPOINT
      then Err (with_hint (error_new InvalidSpec ("images.insecure_registries: '" +:+ entry +:+ "' cannot be reached over plain HTTP"))
             "remove the Docker Hub entry; Docker Hub is always contacted over HTTPS")
      else check_insecure registries (found ++ [entry])
  end.
Definition with_http (from_slice : list Z → result string DockerConfigDocument) (stat : string → option ConfigFile)
    (options : RegistryOptions) : result FirestoneError RegistryClient :=
  insecure_registries ← check_insecure (insecure options) [];
  Ok {| architecture := options_architecture options; insecure_registries := dedup (merge_sort str_le insecure_registries);
        credentials := load_credentials from_slice (docker_config options) stat |}.

Section client.
Context `{Urls} `{!Transport} `{Sha256} `{RegistryJson}.
Local Abbreviation Act := (M Net FirestoneError).
Context (self : RegistryClient).

Definition send (request : HttpRequest) : Act HttpStatusResponse := λ w,
  (http_send (turn w) request,
   {| requests := requests w ++ [request]; written := written w; reported := reported w; turn := S (turn w) |}).
Definition is_insecure (registry : string) : bool := existsb (String.eqb registry) (insecure_registries self).
Definition scheme_for (registry : string) : string := if is_insecure registry then "http" else "https".
Definition endpoint_url (registry path : string) : result FirestoneError Url :=
  map_err (λ source, with_source (with_hint (error_new InvalidSpec ("cannot build a registry URL for '" +:+ registry +:+ "'"))
    "check the registry host in the image reference") source)
    (url_parse (scheme_for registry +:+ "://" +:+ registry_endpoint_host registry +:+ path)).
Definition redacted_endpoint (u : Url) : string :=
  let host := default "" (host_str u) in
  match port u with
  | Some port => url_scheme u +:+ "://" +:+ host +:+ ":" +:+ dec port
  | None => url_scheme u +:+ "://" +:+ host
  end.
Definition check_status (reference : OciReference) (u : Url) (response : HttpStatusResponse) : result FirestoneError HttpStatusResponse :=
  let status := status response in
  if (200 <=? status) && (status <=? 299) then Ok response
  else if status =? 404 then
    Err (with_hint (error_new NotFound ("registry '" +:+ registry reference +:+ "' has no '" +:+ repository reference +:+ "' matching '" +:+ display reference +:+ "'"))
      "check the repository name and tag, or run `docker login` for a private image")
  else if status =? 429 then
    Err (with_hint (error_new Busy ("registry '" +:+ registry reference +:+ "' rate-limited the pull of '" +:+ display reference +:+ "'"))
      "wait and retry, or authenticate with `docker login`")
  else
    Err (with_hint (error_new Dependency ("registry request for '" +:+ display reference +:+ "' failed with HTTP " +:+ dec status))
      ("the registry endpoint " +:+ redacted_endpoint u +:+ " rejected a read-only Registry V2 request")).
Definition authentication_error (reference : OciReference) (over_https : bool) (credential : option BasicCredential) : FirestoneError :=
  let hint :=
    if over_https then
      match credential with
      | Some credential => "the credentials stored for " +:+ registry reference +:+ " as user '" +:+ user credential
          +:+ "' were rejected; run `docker login " +:+ registry reference +:+ "`"
      | None => "run `docker login " +:+ registry reference +:+ "` and retry"
      end
    else "firestone never sends credentials over plain HTTP; serve " +:+ registry reference +:+ " over HTTPS to authenticate" in
  with_hint (error_new Dependency ("registry '" +:+ registry reference +:+ "' denied access to repository '" +:+ repository reference +:+ "'")) hint.
Definition realm_matches_registry (realm : Url) (registry : string) : bool :=
  match host_str realm with
  | None => false
  | Some host =>
      let authority := match port realm with Some port => host +:+ ":" +:+ dec port | None => host end in
      eq_ignore_ascii_case authority registry
  end.
Definition token_realm_allowed (realm : Url) (registry : string) : bool :=
  if String.eqb (url_scheme realm) "https" then true
  else if String.eqb (url_scheme realm) "http" then is_insecure registry && realm_matches_registry realm registry
  else false.
Definition token_hint (e : FirestoneError) : FirestoneError :=
  with_hint e "the registry is not speaking the Registry V2 token protocol".
Definition fetch_token (reference : OciReference) (challenge : AuthChallenge) (over_https : bool) (credential : option BasicCredential) : Act string :=
  let registry := registry reference in
  realm ← M_lift (ok_or (parameter challenge "realm")
    (token_hint (error_new Dependency ("registry '" +:+ registry +:+ "' sent a Bearer challenge without a realm"))));
  u ← M_lift (map_err (λ source, with_source (token_hint (error_new Dependency ("registry '" +:+ registry +:+ "' sent an unusable token realm"))) source)
    (url_parse realm));
  if negb (token_realm_allowed u registry)
  then M_fail (with_hint (error_new Dependency ("registry '" +:+ registry +:+ "' sent a plain-HTTP token realm '" +:+ url_display u +:+ "'"))
         "token realms must use HTTPS unless the registry is in images.insecure_registries")
  else
    let scope := default ("repository:" +:+ repository reference +:+ ":pull") (parameter challenge "scope") in
    let u := append_query (match parameter challenge "service" with Some service => [("service", service)] | None => [] end ++ [("scope", scope)]) u in
    let headers := match credential with
      | Some credential => if String.eqb (url_scheme u) "https" then [("authorization", header_value credential)] else []
      | None => []
      end in
    response ← send {| url := u; headers := headers |};
    if negb (status response =? 200) then M_fail (authentication_error reference over_https credential)
    else
      bytes ← M_lift (read_bounded response MAX_TOKEN_BYTES ("token response for '" +:+ registry +:+ "'"));
      answer ← M_lift (map_err (λ source, with_source (token_hint (error_new Dependency ("registry '" +:+ registry +:+ "' returned an unreadable token response"))) source)
        (token_from_slice bytes));
      let value := match token answer with Some value => Some value | None => access_token answer end in
      match value with
      | Some (String _ _ as value) => mret value
      | _ => M_fail (token_hint (error_new Dependency ("registry '" +:+ registry +:+ "' returned a token response without a token")))
      end.
Definition accept_header (accept : option string) : list (string * string) :=
  match accept with Some accept => [("accept", accept)] | None => [] end.
Definition request (reference : OciReference) (u : Url) (accept : option string) : Act HttpStatusResponse :=
  let over_https := String.eqb (url_scheme u) "https" in
  let credential := if over_https then credential (credentials self) (registry reference) else None in
  let headers := accept_header accept
    ++ match credential with Some credential => [("authorization", header_value credential)] | None => [] end in
  response ← send {| url := u; headers := headers |};
  if negb (status response =? 401) then M_lift (check_status reference u response)
  else
    challenge ← M_lift (match header response "www-authenticate" with
      | Some value => challenge ← parse_auth_challenge value; Ok (Some challenge)
      | None => Ok None
      end);
    match challenge with
    | Some challenge =>
        if bool_decide (challenge_scheme challenge = Bearer) then
          token ← fetch_token reference challenge over_https credential;
          retried ← send {| url := u; headers := accept_header accept ++ [("authorization", "Bearer " +:+ token)] |};
          if status retried =? 401 then M_fail (authentication_error reference over_https credential)
          else M_lift (check_status reference u retried)
        else M_fail (authentication_error reference over_https credential)
    | None => M_fail (authentication_error reference over_https credential)
    end.

(** *** Resolving *)

Definition fetch_manifest_document (reference : OciReference) (target : string) : Act FetchedDocument :=
  u ← M_lift (endpoint_url (registry reference) ("/v2/" +:+ repository reference +:+ "/manifests/" +:+ target));
  response ← request reference u (Some MANIFEST_ACCEPT);
  let media_type := (λ value, trim match split_once ";" value with Some (t, _) => t | None => value end) <$> header response "content-type" in
  let content_digest := header response "docker-content-digest" in
  bytes ← M_lift (read_bounded response MAX_MANIFEST_BYTES ("manifest '" +:+ target +:+ "' of '" +:+ display reference +:+ "'"));
  let digest := DIGEST_ALGORITHM +:+ ":" +:+ hex_digest (sha256 bytes) in
  M_lift (if starts_with DIGEST_ALGORITHM target && has_char ":" target
          then verify_digest target (digest_hex digest) ("manifest of '" +:+ display reference +:+ "'") else Ok ());;
  M_lift (match content_digest with
    | Some advertised =>
        if eq_ignore_ascii_case advertised digest then Ok ()
        else Err (with_hint (error_new Checksum ("registry reported manifest digest " +:+ advertised +:+ " for '" +:+ display reference
                    +:+ "' but the bytes hash to " +:+ digest))
               "retry the pull; the registry response did not match its own digest")
    | None => Ok ()
    end);;
  mret {| document_bytes := bytes; document_digest := digest; document_media_type := media_type |}.
Definition fetch_blob_bytes (reference : OciReference) (digest : string) (limit : Z) (label : string) : Act (list Z) :=
  u ← M_lift (endpoint_url (registry reference) ("/v2/" +:+ repository reference +:+ "/blobs/" +:+ digest));
  response ← request reference u None;
  bytes ← M_lift (read_bounded response limit (label +:+ " of '" +:+ display reference +:+ "'"));
  M_lift (verify_digest digest (hex_digest (sha256 bytes)) (label +:+ " of '" +:+ display reference +:+ "'"));;
  mret bytes.
Fixpoint check_layers (layers : list BlobDescriptor) : result FirestoneError (list LayerDescriptor) :=
  match layers with
  | [] => Ok []
  | descriptor :: layers =>
      classify_layer_media_type (blob_media_type descriptor);;
      validate_digest (blob_digest descriptor) "layer";;
      checked ← check_layers layers;
      Ok ({| layer_digest := blob_digest descriptor; layer_media_type := blob_media_type descriptor; layer_size := blob_size descriptor |} :: checked)
  end.
(** The first part of [resolve]: the manifest, and the index it came through. *)
Definition resolve_document (reference : OciReference) : Act (option string * string * string * ImageManifest) :=
  let target := match OciRef.reference reference with Tag tag => tag | Digest digest => digest end in
  top ← fetch_manifest_document reference target;
  document ← M_lift (parse_document reference top);
  match document with
  | Index entries =>
      selected ← M_lift (select_platform reference entries (architecture self));
      child ← fetch_manifest_document reference (entry_digest selected);
      inner ← M_lift (parse_document reference child);
      match inner with
      | Manifest manifest =>
          mret (Some (document_digest top), document_digest child,
                default (default MEDIA_TYPE_OCI_MANIFEST (entry_media_type selected)) (document_media_type child), manifest)
      | Index _ =>
          M_fail (with_hint (error_new Dependency ("registry returned a nested image index for '" +:+ display reference +:+ "' at " +:+ entry_digest selected))
            "firestone resolves one index level only; pull a platform digest directly")
      end
  | Manifest manifest => mret (None, document_digest top, default MEDIA_TYPE_OCI_MANIFEST (document_media_type top), manifest)
  end.
Definition resolve (reference : OciReference) : Act ResolvedManifest :=
  '(index_digest, manifest_digest, media_type, manifest) ← resolve_document reference;
  let count := Z.of_nat (length (manifest_layers manifest)) in
  if MAX_LAYERS <? count
  then M_fail (with_hint (error_new Dependency ("manifest for '" +:+ display reference +:+ "' declares " +:+ dec count +:+ " layers, more than the "
         +:+ dec MAX_LAYERS +:+ " firestone reads")) "pull a squashed image with at most 128 layers")
  else if count =? 0
  then M_fail (with_hint (error_new Dependency ("manifest for '" +:+ display reference +:+ "' declares no layers"))
         "pull an image that ships a root filesystem")
  else
    layers ← M_lift (check_layers (manifest_layers manifest));
    let config_digest := blob_digest (manifest_config manifest) in
    M_lift (validate_digest config_digest "image config");;
    config_bytes ← fetch_blob_bytes reference config_digest MAX_CONFIG_BYTES "image config";
    config ← M_lift (map_err (λ source, with_source (with_hint (error_new Dependency ("cannot read the image configuration for '" +:+ display reference +:+ "'"))
      "the registry returned a configuration firestone cannot parse") source) (image_config_from_slice config_bytes));
    mret {| resolved_name := display reference; manifest_digest := manifest_digest; index_digest := index_digest;
            manifest_media_type := media_type; config_digest := config_digest; resolved_config := config; resolved_layers := layers |}.

(** *** Streaming a layer *)

Definition write_all (chunk : list Z) : M Net IoError () := λ w,
  let fault := write_fault (turn w) in
  (match fault with Some (_, e) => Err e | None => Ok () end,
   {| requests := requests w; written := written w ++ match fault with Some (k, _) => take k chunk | None => chunk end;
      reported := reported w; turn := S (turn w) |}).
Definition report (done total : Z) : Act () := λ w,
  (match report_fault (turn w) with Some e => Err e | None => Ok () end,
   {| requests := requests w; written := written w; reported := reported w ++ [(done, Some total)]; turn := S (turn w) |}).
Definition read_piece (body : Reader) : M Net IoError (list Z * Reader) := λ w,
  let w' := {| requests := requests w; written := written w; reported := reported w; turn := S (turn w) |} in
  match data body with
  | [] => (match fails body with Some e => Err e | None => Ok ([], body) end, w')
  | bytes => let n := Nat.min (Z.to_nat LAYER_BUFFER_BYTES) (S (piece (turn w))) in
             (Ok (take n bytes, {| data := drop n bytes; fails := fails body |}), w')
  end.
Definition layer_text (reference : OciReference) (descriptor : LayerDescriptor) : string :=
  "layer " +:+ layer_digest descriptor +:+ " of '" +:+ display reference +:+ "'".
(** The bytes counted so far, as a u64 that saturates. *)
Definition counted (hashed : list Z) : Z := Z.min u64_max (Z.of_nat (length hashed)).
(** The loop of [fetch_layer]: every turn reads something, so the length of the body bounds it.  It ends
    with the bytes it hashed. *)
Fixpoint layer_loop (fuel : nat) (reference : OciReference) (descriptor : LayerDescriptor) (body : Reader) (hashed : list Z) (last_progress : Z)
    : Act (option (list Z)) :=
  match fuel with
  | O => mret None
  | S fuel =>
      '(chunk, body) ← M_map_err (λ source, with_source (with_hint (error_new Generic ("cannot read " +:+ layer_text reference descriptor))
        "check network access and retry the pull") (io_text source)) (read_piece body);
      if bool_decide (chunk = []) then mret (Some hashed)
      else
        let hashed := hashed ++ chunk in
        let done := counted hashed in
        if layer_size descriptor <? done
        then M_fail (with_hint (error_new Checksum (layer_text reference descriptor +:+ " exceeded its declared " +:+ dec (layer_size descriptor) +:+ " bytes"))
               "retry the pull; the registry response was inconsistent")
        else
          M_map_err (λ source, with_source (with_hint (error_new Generic ("cannot write " +:+ layer_text reference descriptor))
            "check free space in the firestone images directory") (io_text source)) (write_all chunk);;
          if PROGRESS_INTERVAL_BYTES <=? saturating_sub done last_progress
          then report done (layer_size descriptor);; layer_loop fuel reference descriptor body hashed done
          else layer_loop fuel reference descriptor body hashed last_progress
  end.
Definition fetch_layer (reference : OciReference) (descriptor : LayerDescriptor) : Act (option ()) :=
  M_lift (classify_layer_media_type (layer_media_type descriptor));;
  M_lift (validate_digest (layer_digest descriptor) "layer");;
  u ← M_lift (endpoint_url (registry reference) ("/v2/" +:+ repository reference +:+ "/blobs/" +:+ layer_digest descriptor));
  response ← request reference u None;
  M_lift (match content_length response with
    | Some length =>
        if length =? layer_size descriptor then Ok ()
        else Err (with_hint (error_new Checksum (layer_text reference descriptor +:+ " declared " +:+ dec length +:+ " bytes but the manifest declared "
               +:+ dec (layer_size descriptor))) "retry the pull; the registry response was inconsistent")
    | None => Ok ()
    end);;
  hashed ← layer_loop (S (length (data (body response)))) reference descriptor (body response) [] 0;
  match hashed with
  | None => mret None (** Never: the body is that long. *)
  | Some hashed =>
      let done := counted hashed in
      if negb (done =? layer_size descriptor)
      then M_fail (with_hint (error_new Checksum (layer_text reference descriptor +:+ " ended after " +:+ dec done +:+ " bytes; the manifest declared "
             +:+ dec (layer_size descriptor))) "retry the pull; the registry response was partial")
      else
        M_lift (verify_digest (layer_digest descriptor) (hex_digest (sha256 hashed)) ("layer of '" +:+ display reference +:+ "'"));;
        report done (layer_size descriptor);;
        mret (Some ())
  end.
End client.
