(* ===== verification/RegistrySpec.v ===== *)
(** What a pull can rely on: whatever a registry answers, credentials stay on HTTPS, what is resolved
    and written hashes to what named it, and every call ends. *)
From stdpp Require Import gmap sorting.
From S2P Require Import Prelude RustStr Errors Bounded Values BTree Utf8 Chars HttpHead Catalog Overlay OciRef Registry.
Open Scope Z_scope.

(** ** Base64 *)

Definition symbols : list Z := Z.of_nat <$> seq 0 64.
Lemma symbols_complete i : 0 ≤ i < 64 → i ∈ symbols.
Proof. intros Hi. apply list_elem_of_fmap. exists (Z.to_nat i). split; [lia|]. apply elem_of_seq. lia. Qed.
Lemma symbol_table :
  forallb (λ i, bool_decide (position_of (base64_symbol i) BASE64_ALPHABET = Some i) &&
                negb (Ascii.eqb (base64_symbol i) "=") &&
                forallb (λ p, match p with String a _ => negb (Ascii.eqb a (base64_symbol i)) | EmptyString => false end) whitespace)
    symbols = true.
Proof. by vm_compute. Qed.
Lemma strip_any_None c rest ps :
  forallb (λ p, match p with String a _ => negb (Ascii.eqb a c) | EmptyString => false end) ps = true → strip_any ps (String c rest) = None.
Proof.
  induction ps as [|p ps IH]; intros Hp; [done|]. cbn [forallb] in Hp. bool_props. cbn [strip_any].
  destruct p as [|a p]; [done|]. cbn [strip_prefix]. bool_props. rewrite H. by apply IH.
Qed.
Lemma symbol_spec i rest :
  0 ≤ i < 64 →
  position_of (base64_symbol i) BASE64_ALPHABET = Some i ∧ Ascii.eqb (base64_symbol i) "=" = false ∧
  strip_any whitespace (String (base64_symbol i) rest) = None.
Proof.
  intros Hi%symbols_complete%list_elem_of_In. pose proof symbol_table as Ht. rewrite forallb_forall in Ht. specialize (Ht i Hi).
  bool_props. split; [done|]. split; [done|]. by apply strip_any_None.
Qed.
Lemma lor_low q n i : 0 ≤ n → 0 ≤ i < 2 ^ n → Z.lor (q * 2 ^ n) i = q * 2 ^ n + i.
Proof.
  intros Hn Hi. assert (Z.land (q * 2 ^ n) i = 0) as Hl.
  { apply Z.bits_inj'. intros k Hk. rewrite Z.land_spec, Z.bits_0. destruct (decide (k < n)).
    - rewrite Z.mul_pow2_bits_low by lia. done.
    - rewrite andb_comm. destruct (decide (i = 0)) as [->|Hne]; [by rewrite Z.bits_0|].
      rewrite (Z.bits_above_log2 i k); [done|lia|]. apply Z.log2_lt_pow2; [lia|].
      pose proof (Z.pow_le_mono_r 2 n k). lia. }
  rewrite <- Z.lxor_lor by done. by rewrite Z.add_nocarry_lxor.
Qed.
(** One symbol read with [bits] bits of [accumulator] still to deliver. *)
Lemma base64_step fuel a acc bits i rest :
  0 ≤ i < 64 → 0 ≤ bits < 8 → 0 ≤ acc → acc mod 2 ^ bits = a →
  ∃ acc', 0 ≤ acc' ∧ acc' mod 2 ^ (bits + 6) = a * 64 + i ∧
    base64_loop (S fuel) acc bits (String (base64_symbol i) rest) =
      if 8 <=? bits + 6
      then (λ output, (acc' / 2 ^ (bits - 2)) mod 256 :: output) <$> base64_loop fuel acc' (bits - 2) rest
      else base64_loop fuel acc' (bits + 6) rest.
Proof.
  intros Hi Hb Hacc Hmod. destruct (symbol_spec i rest Hi) as (Hp & He & Hw).
  exists (Z.lor (Z.land (Z.shiftl acc 6) u32_max) i).
  assert (Hsum : Z.lor (Z.land (Z.shiftl acc 6) u32_max) i = (acc mod 2 ^ 26) * 64 + i).
  { change u32_max with (Z.ones 32). rewrite Z.land_ones, Z.shiftl_mul_pow2 by lia.
    replace (2 ^ 32) with (2 ^ 26 * 2 ^ 6) by done. rewrite Z.mul_mod_distr_r by done. by rewrite lor_low by lia. }
  pose proof (Z.mod_pos_bound acc (2 ^ 26)). split; [lia|]. split.
  - rewrite Hsum, <- Hmod. rewrite Z.pow_add_r by lia. change (2 ^ 6) with 64.
    assert (H26 : (acc mod 2 ^ 26) mod 2 ^ bits = acc mod 2 ^ bits).
    { replace (2 ^ 26) with (2 ^ bits * 2 ^ (26 - bits)) by (rewrite <- Z.pow_add_r by lia; f_equal; lia).
      rewrite Z.rem_mul_r by lia. rewrite Z.mul_comm, Z_mod_plus_full. by rewrite Z.mod_mod by lia. }
    rewrite <- H26. set (q := acc mod 2 ^ 26). rewrite (Z.div_mod q (2 ^ bits)) at 1 by lia.
    symmetry. apply (Z.mod_unique_pos _ _ (q / 2 ^ bits)); [|lia]. pose proof (Z.mod_pos_bound q (2 ^ bits)). lia.
  - remember (S fuel) as n. cbn [base64_loop]. subst n. cbn [base64_loop]. rewrite He, Hw, Hp. cbn [mbind option_bind].
    destruct (8 <=? bits + 6) eqn:E; [|done]. replace (bits + 6 - 8) with (bits - 2) by lia.
    destruct (base64_loop _ _ _ _); [|done]. cbn. rewrite Z.shiftr_div_pow2 by (apply Z.leb_le in E; lia).
    change 255 with (Z.ones 8). by rewrite Z.land_ones by lia.
Qed.
Definition byte (x : Z) : Prop := 0 ≤ x < 256.
Lemma block_value x y z : byte x → byte y → byte z →
  Z.lor (Z.lor (Z.shiftl x 16) (Z.shiftl y 8)) z = x * 65536 + y * 256 + z.
Proof.
  unfold byte. intros Hx Hy Hz. rewrite !Z.shiftl_mul_pow2 by lia. rewrite (lor_low x 16 (y * 2 ^ 8)) by lia.
  replace (x * 2 ^ 16 + y * 2 ^ 8) with ((x * 256 + y) * 2 ^ 8) by lia. rewrite lor_low by lia. lia.
Qed.
Lemma six_bits v k : 0 ≤ k → Z.land (Z.shiftr v k) 63 = (v / 2 ^ k) mod 64.
Proof. intros Hk. rewrite Z.shiftr_div_pow2 by done. change 63 with (Z.ones 6). by rewrite Z.land_ones by lia. Qed.
Ltac six := rewrite ?six_bits by lia; Z.to_euclidean_division_equations; lia.
Lemma two_symbols fuel acc x r rest :
  byte x → 0 ≤ r < 16 → 0 ≤ acc →
  ∃ acc', 0 ≤ acc' ∧ acc' mod 2 ^ 4 = r ∧
    base64_loop (S (S fuel)) acc 0 (String (base64_symbol (x / 4)) (String (base64_symbol ((x mod 4) * 16 + r)) rest)) =
      (λ output, x :: output) <$> base64_loop fuel acc' 4 rest.
Proof.
  intros Hx Hr Hacc. unfold byte in Hx.
  destruct (base64_step (S fuel) 0 acc 0 (x / 4) (String (base64_symbol ((x mod 4) * 16 + r)) rest)) as (a1 & H1 & M1 & ->);
    [Z.to_euclidean_division_equations; lia|lia|done|by rewrite Z.mod_1_r|].
  change (8 <=? 0 + 6) with false. cbv iota. change (0 + 6) with 6 in *.
  destruct (base64_step fuel (x / 4) a1 6 ((x mod 4) * 16 + r) rest) as (a2 & H2 & M2 & ->);
    [Z.to_euclidean_division_equations; lia|lia|done|lia|].
  change (8 <=? 6 + 6) with true. cbv iota. change (6 - 2) with 4. change (6 + 6) with 12 in M2. exists a2.
  change (2 ^ 12) with 4096 in M2. change (2 ^ 4) with 16.
  assert (a2 mod 16 = r ∧ (a2 / 16) mod 256 = x) as [-> ->] by (Z.to_euclidean_division_equations; lia). done.
Qed.
Lemma third_symbol fuel acc y r s rest :
  byte y → 0 ≤ s < 4 → 0 ≤ acc → r = y / 16 → acc mod 2 ^ 4 = r →
  ∃ acc', 0 ≤ acc' ∧ acc' mod 2 ^ 2 = s ∧
    base64_loop (S fuel) acc 4 (String (base64_symbol ((y mod 16) * 4 + s)) rest) = (λ output, y :: output) <$> base64_loop fuel acc' 2 rest.
Proof.
  unfold byte. intros Hy Hs Hacc Hr Hm.
  destruct (base64_step fuel r acc 4 ((y mod 16) * 4 + s) rest) as (a2 & H2 & M2 & ->); [Z.to_euclidean_division_equations; lia|lia|done|done|].
  change (8 <=? 4 + 6) with true. cbv iota. change (4 - 2) with 2. change (2 ^ (4 + 6)) with 1024 in M2. exists a2. change (2 ^ 2) with 4.
  assert (a2 mod 4 = s ∧ (a2 / 4) mod 256 = y) as [-> ->] by (Z.to_euclidean_division_equations; lia). done.
Qed.
Lemma fourth_symbol fuel acc z s rest :
  byte z → 0 ≤ acc → s = z / 64 → acc mod 2 ^ 2 = s →
  ∃ acc', 0 ≤ acc' ∧ base64_loop (S fuel) acc 2 (String (base64_symbol (z mod 64)) rest) = (λ output, z :: output) <$> base64_loop fuel acc' 0 rest.
Proof.
  unfold byte. intros Hz Hacc Hs Hm.
  destruct (base64_step fuel s acc 2 (z mod 64) rest) as (a2 & H2 & M2 & ->); [Z.to_euclidean_division_equations; lia|lia|done|done|].
  change (8 <=? 2 + 6) with true. cbv iota. change (2 - 2) with 0. change (2 ^ (2 + 6)) with 256 in M2. exists a2.
  assert ((a2 / 2 ^ 0) mod 256 = z) as ->; [|done]. change (2 ^ 0) with 1. rewrite Z.div_1_r. Z.to_euclidean_division_equations; lia.
Qed.
Lemma loop_padding fuel acc bits rest : base64_loop (S fuel) acc bits (String "=" rest) = Some [].
Proof. done. Qed.
(** The symbols of a block, from its bytes. *)
Lemma block_symbols x y z : byte x → byte y → byte z →
  let v := x * 65536 + y * 256 + z in
  v / 2 ^ 18 mod 64 = x / 4 ∧ v / 2 ^ 12 mod 64 = (x mod 4) * 16 + y / 16 ∧
  v / 2 ^ 6 mod 64 = (y mod 16) * 4 + z / 64 ∧ v / 2 ^ 0 mod 64 = z mod 64.
Proof.
  intros Hx Hy Hz v. unfold byte in *. unfold v. change (2 ^ 18) with 262144. change (2 ^ 12) with 4096. change (2 ^ 6) with 64. change (2 ^ 0) with 1.
  split_and!; Z.to_euclidean_division_equations; lia.
Qed.
Lemma base64_rest n : ∀ bytes acc fuel, (length bytes < n)%nat → Forall byte bytes → 0 ≤ acc →
  (String.length (base64_encode bytes) ≤ fuel)%nat → base64_loop fuel acc 0 (base64_encode bytes) = Some bytes.
Proof.
  assert (H0 : byte 0) by (unfold byte; lia).
  induction n as [|n IH]; intros bytes acc fuel Hn Hb Hacc Hf; [lia|]. destruct bytes as [|x [|y [|z bytes]]].
  - by destruct fuel.
  - apply Forall_cons in Hb as [Hx _]. cbn [base64_encode] in *. unfold base64_block in *. cbn in Hf.
    do 3 (destruct fuel as [|fuel]; [lia|]). simpl lookup. cbn [default from_option id length Nat.leb]. rewrite !six_bits, block_value by (done || lia).
    destruct (block_symbols x 0 0 Hx H0 H0) as (-> & -> & _). change (0 / 16) with 0.
    destruct (two_symbols (S fuel) acc x 0 (String "=" (one "=")) Hx ltac:(lia) Hacc) as (a & Ha & Hm & ->). by rewrite loop_padding.
  - apply Forall_cons in Hb as [Hx Hb]. apply Forall_cons in Hb as [Hy _]. cbn [base64_encode] in *. unfold base64_block in *. cbn in Hf.
    do 4 (destruct fuel as [|fuel]; [lia|]). simpl lookup. cbn [default from_option id length Nat.leb]. rewrite !six_bits, block_value by (done || lia).
    destruct (block_symbols x y 0 Hx Hy H0) as (-> & -> & -> & _). change (0 / 64) with 0.
    destruct (two_symbols (S (S fuel)) acc x (y / 16) (String (base64_symbol ((y mod 16) * 4 + 0)) (one "=")) Hx) as (a & Ha & Hm & ->);
      [unfold byte in Hy; Z.to_euclidean_division_equations; lia|done|].
    destruct (third_symbol (S fuel) a y (y / 16) 0 (one "=") Hy ltac:(lia) Ha eq_refl Hm) as (a' & Ha' & Hm' & ->). done.
  - apply Forall_cons in Hb as [Hx Hb]. apply Forall_cons in Hb as [Hy Hb]. apply Forall_cons in Hb as [Hz Hb].
    cbn [base64_encode] in *. unfold base64_block, one in *. rewrite !app_cons, !app_empty_l in *. cbn [String.length] in Hf.
    do 4 (destruct fuel as [|fuel]; [lia|]). simpl lookup. cbn [default from_option id length Nat.leb]. rewrite !six_bits, block_value by (done || lia).
    destruct (block_symbols x y z Hx Hy Hz) as (-> & -> & -> & ->).
    destruct (two_symbols (S (S fuel)) acc x (y / 16) (String (base64_symbol ((y mod 16) * 4 + z / 64)) (String (base64_symbol (z mod 64)) (base64_encode bytes))) Hx)
      as (a & Ha & Hm & ->); [unfold byte in Hy; Z.to_euclidean_division_equations; lia|done|].
    destruct (third_symbol (S fuel) a y (y / 16) (z / 64) (String (base64_symbol (z mod 64)) (base64_encode bytes)) Hy) as (a2 & Ha2 & Hm2 & ->);
      [unfold byte in Hz; Z.to_euclidean_division_equations; lia|done..|].
    destruct (fourth_symbol fuel a2 z (z / 64) (base64_encode bytes) Hz Ha2 eq_refl Hm2) as (a3 & Ha3 & ->).
    rewrite IH; [done|simpl in Hn; lia|done|done|]. lia.
Qed.
Lemma base64_roundtrip bytes : Forall byte bytes → base64_decode (base64_encode bytes) = Some bytes.
Proof. intros Hb. unfold base64_decode. by apply (base64_rest (S (length bytes))); [lia|..]. Qed.

Lemma base64_symbol_graphic i : is_ascii_graphic (base64_symbol i) = true.
Proof.
  unfold base64_symbol. assert (Hall : ∀ n, from_option is_ascii_graphic true (String.get n BASE64_ALPHABET) = true).
  { intros n. assert (all_bytes is_ascii_graphic BASE64_ALPHABET = true) as Ha by by vm_compute. revert n Ha.
    generalize BASE64_ALPHABET as s. intros s. induction s as [|a s IH]; intros [|n] Ha; cbn in *; bool_props; auto. }
  specialize (Hall (Z.to_nat i)). by destruct (String.get _ _).
Qed.
Lemma base64_block_graphic block : all_bytes is_ascii_graphic (base64_block block) = true.
Proof. unfold base64_block, one. cbn [all_bytes]. repeat case_match; by rewrite ?base64_symbol_graphic. Qed.
Lemma base64_graphic n bytes : (length bytes < n)%nat → all_bytes is_ascii_graphic (base64_encode bytes) = true.
Proof.
  revert bytes. induction n as [|n IH]; intros bytes Hn; [lia|]. destruct bytes as [|x [|y [|z bytes]]]; [done|apply base64_block_graphic..|].
  cbn [base64_encode]. rewrite all_bytes_app, base64_block_graphic. apply IH. simpl in Hn. lia.
Qed.
(** What Docker stores for a user and a password is read back as that user and password. *)
Lemma basic_auth_roundtrip user secret :
  user ≠ "" → has_char ":" user = false → is_Some (scalars (bytes_of (user +:+ ":" +:+ secret))) →
  decode_basic_auth (base64_encode (bytes_of (user +:+ ":" +:+ secret))) = Some {| Registry.user := user; secret := secret |}.
Proof.
  intros Hne Hc [l Hu]. set (text := user +:+ ":" +:+ secret) in *. unfold decode_basic_auth.
  rewrite trim_all_graphic by (eapply base64_graphic, Nat.lt_succ_diag_r).
  rewrite base64_roundtrip. 2: { eapply Forall_impl; [apply bytes_of_ok|]. unfold byte. cbn. lia. }
  cbn [mbind option_bind]. unfold from_utf8. rewrite Hu, utf8_bytes_of. cbn [mbind option_bind].
  unfold text. rewrite (app_cons ":"), app_empty_l, split_once_app by done. cbn. by destruct user.
Qed.

(** ** Runs *)

Section runs.
Context `{Urls} `{!Transport} `{Sha256} `{RegistryJson}.

(** [m] sends at most [n] requests, all of which satisfy [P], writes nothing, and ends as [Q] says. *)
Definition sends {A} (P : HttpRequest → Prop) (n : nat) (m : M Net FirestoneError A) (Q : A → Prop) : Prop :=
  ∀ w, (∃ sent, requests (m w).2 = requests w ++ sent ∧ (length sent ≤ n)%nat ∧ Forall P sent) ∧
       written (m w).2 = written w ∧ reported (m w).2 = reported w ∧ ∀ a, (m w).1 = Ok a → Q a.
Lemma sends_none {A} P n (r : result FirestoneError A) (Q : A → Prop) : (∀ a, r = Ok a → Q a) → sends P n (M_lift r) Q.
Proof. intros HQ w. split; [|done]. exists []. rewrite app_nil_r. split; [done|]. split; [simpl; lia|constructor]. Qed.
Lemma sends_ret {A} P n (a : A) (Q : A → Prop) : Q a → sends P n (mret a) Q.
Proof. intros HQ. apply (sends_none P n (Ok a)). by intros ? [= <-]. Qed.
Lemma sends_fail {A} P n e (Q : A → Prop) : sends P n (M_fail e) Q.
Proof. by apply (sends_none P n (Err e)). Qed.
Lemma sends_bind {A B} P n k (m : M Net FirestoneError A) (f : A → M Net FirestoneError B) (Q : A → Prop) (R : B → Prop) :
  sends P n m Q → (∀ a, Q a → sends P k (f a) R) → sends P (n + k) (m ≫= f) R.
Proof.
  intros Hm Hf w. destruct (Hm w) as ((sent & Hs & Hl & HP) & Hw & Hr & HQ). unfold mbind, M_bind.
  destruct (m w) as [[a|e] w1]; cbn in *.
  - destruct (Hf a (HQ a eq_refl) w1) as ((sent' & Hs' & Hl' & HP') & Hw' & Hr' & HR). split_and!; [|congruence..|done].
    exists (sent ++ sent'). rewrite Hs', Hs, length_app, Forall_app. split; [by rewrite app_assoc|]. split; [lia|done].
  - split_and!; [|done..]. exists sent. split; [done|]. split; [lia|done].
Qed.
Lemma sends_lift_bind {A B} P k (r : result FirestoneError A) (f : A → M Net FirestoneError B) (R : B → Prop) :
  (∀ a, r = Ok a → sends P k (f a) R) → sends P k (M_lift r ≫= f) R.
Proof. intros Hf. apply (sends_bind P 0 k _ _ (λ a, r = Ok a)); [by apply sends_none|done]. Qed.
Lemma sends_send (P : HttpRequest → Prop) request : P request → sends P 1 (send request) (λ _, True).
Proof. intros HP w. cbn. split_and!; [|done..]. exists [request]. by split; [|split; [|constructor]]. Qed.
Lemma sends_mono {A} P n k m (Q R : A → Prop) : sends P n m Q → (n ≤ k)%nat → (∀ a, Q a → R a) → sends P k m R.
Proof.
  intros Hm Hn HQ w. destruct (Hm w) as ((sent & Hs & Hl & HP) & Hw & Hr & Ha). split_and!; [|done..|naive_solver].
  exists sent. split; [done|]. split; [lia|done].
Qed.

(** ** What is asked *)

Context (self : RegistryClient).
Context (parse_scheme : ∀ s rest u, s = "http" ∨ s = "https" → url_parse (s +:+ "://" +:+ rest) = Ok u → url_scheme u = s).
Context (query_scheme : ∀ q u, url_scheme (append_query q u) = url_scheme u).

(** The registry's password is sent over HTTPS only; what else authorises is a token that was asked for;
    and plain HTTP is used only when the registry is listed. *)
Definition confined (reference : OciReference) (r : HttpRequest) : Prop :=
  (url_scheme (url r) = "https" ∨ is_insecure self (registry reference) = true) ∧
  ∀ v, ("authorization", v) ∈ headers r →
    (∃ token, v = "Bearer " +:+ token) ∨
    (url_scheme (url r) = "https" ∧ ∃ c, credential (credentials self) (registry reference) = Some c ∧ v = header_value c).
Lemma accept_no_authorization accept v : ("authorization", v) ∉ accept_header accept.
Proof using Type. destruct accept; cbn; [|apply not_elem_of_nil]. intros Hv%list_elem_of_singleton. done. Qed.
Lemma fetch_token_sends reference challenge over_https c :
  (∀ c', c = Some c' → credential (credentials self) (registry reference) = Some c') →
  sends (confined reference) 1 (fetch_token self reference challenge over_https c) (λ _, True).
Proof using query_scheme.
  intros Hc. unfold fetch_token. apply sends_lift_bind. intros realm _. apply sends_lift_bind. intros u _.
  destruct (token_realm_allowed self u _) eqn:Hr; cbn [negb]; [|by apply sends_fail].
  eapply (sends_bind _ 1 0); [apply sends_send|].
  - unfold confined. cbn [url headers]. rewrite !query_scheme. split.
    + unfold token_realm_allowed in Hr. destruct (String.eqb_spec (url_scheme u) "https"); [by left|].
      destruct (String.eqb _ "http"); [|done]. bool_props. by right.
    + intros v Hv. right. destruct c as [c|]; [|by apply not_elem_of_nil in Hv].
      destruct (String.eqb_spec (url_scheme u) "https"); [|by apply not_elem_of_nil in Hv]. apply list_elem_of_singleton in Hv as [= ->].
      split; [done|]. exists c. split; [by apply Hc|done].
  - intros response _. destruct (negb _); [apply sends_fail|]. apply sends_lift_bind. intros bytes _. apply sends_lift_bind. intros answer _.
    repeat case_match; by (apply sends_fail || apply sends_ret).
Qed.
Lemma request_sends reference u accept :
  url_scheme u = "https" ∨ is_insecure self (registry reference) = true →
  sends (confined reference) 3 (request self reference u accept) (λ _, True).
Proof using query_scheme.
  intros Hu. unfold request. set (c := if String.eqb (url_scheme u) "https" then _ else None).
  assert (Hc : ∀ c', c = Some c' → url_scheme u = "https" ∧ credential (credentials self) (registry reference) = Some c').
  { intros c'. unfold c. by destruct (String.eqb_spec (url_scheme u) "https"). }
  eapply (sends_bind _ 1 2); [apply sends_send|].
  - split; [done|]. cbn [url headers]. intros v [Hv|Hv]%elem_of_app; [by apply accept_no_authorization in Hv|]. right.
    destruct c as [c'|]; [|by apply not_elem_of_nil in Hv]. apply list_elem_of_singleton in Hv as [= ->].
    destruct (Hc c' eq_refl) as [Hh Hcc]. split; [done|]. by exists c'.
  - intros response _. destruct (negb _); [by apply sends_none|]. apply sends_lift_bind. intros [challenge|] _; [|by apply sends_fail].
    case_bool_decide; [|by apply sends_fail]. eapply (sends_bind _ 1 1); [apply fetch_token_sends; intros c' Hc'; by apply Hc|].
    intros token _. eapply (sends_bind _ 1 0); [apply sends_send|].
    + split; [done|]. cbn [url headers]. intros v [Hv|Hv]%elem_of_app; [by apply accept_no_authorization in Hv|].
      apply list_elem_of_singleton in Hv as [= ->]. left. by eexists.
    + intros retried _. destruct (status retried =? 401); [by apply sends_fail|by apply sends_none].
Qed.
Lemma endpoint_scheme reference path u :
  endpoint_url self (registry reference) path = Ok u → url_scheme u = "https" ∨ is_insecure self (registry reference) = true.
Proof using parse_scheme.
  unfold endpoint_url, scheme_for. intros Hu. apply map_err_Ok in Hu. destruct (is_insecure self _) eqn:Hi; [by right|left].
  by eapply parse_scheme in Hu; [|right].
Qed.

(** ** What is resolved *)

Definition names (digest : string) (bytes : list Z) : Prop := eq_ignore_ascii_case (digest_hex digest) (hex_digest (sha256 bytes)) = true.
Definition sha256_name (bytes : list Z) : string := DIGEST_ALGORITHM +:+ ":" +:+ hex_digest (sha256 bytes).
(** What [fetch_manifest_document] takes for a digest. *)
Definition digest_like (target : string) : bool := starts_with DIGEST_ALGORITHM target && has_char ":" target.
Lemma digest_hex_sha256 h : digest_hex (DIGEST_ALGORITHM +:+ ":" +:+ h) = h.
Proof using Type. unfold digest_hex. rewrite (app_cons ":"), app_empty_l, split_once_app; done. Qed.
Lemma fetch_manifest_sends reference target :
  sends (confined reference) 3 (fetch_manifest_document self reference target) (λ d,
    document_digest d = sha256_name (document_bytes d) ∧ (digest_like target = true → names target (document_bytes d))).
Proof using parse_scheme query_scheme.
  unfold fetch_manifest_document. apply sends_lift_bind. intros u Hu. eapply (sends_bind _ 3 0); [by apply request_sends, (endpoint_scheme _ _ _ Hu)|].
  intros response _. apply sends_lift_bind. intros bytes _. apply sends_lift_bind. intros [] Hv. apply sends_lift_bind. intros [] _.
  apply sends_ret. split; [done|]. cbn [document_bytes]. unfold digest_like. intros Hd. rewrite Hd in Hv. unfold verify_digest in Hv.
  rewrite digest_hex_sha256 in Hv. unfold names. by destruct (eq_ignore_ascii_case _ _).
Qed.
Lemma fetch_blob_sends reference digest limit label :
  sends (confined reference) 3 (fetch_blob_bytes self reference digest limit label) (λ bytes, names digest bytes).
Proof using parse_scheme query_scheme.
  unfold fetch_blob_bytes. apply sends_lift_bind. intros u Hu. eapply (sends_bind _ 3 0); [by apply request_sends, (endpoint_scheme _ _ _ Hu)|].
  intros response _. apply sends_lift_bind. intros bytes _. apply sends_lift_bind. intros [] Hv. apply sends_ret.
  unfold verify_digest in Hv. unfold names. by destruct (eq_ignore_ascii_case _ _).
Qed.

(** A digest the client accepts, and a layer it reads. *)
Definition valid_digest (digest : string) : Prop := validate_digest digest "" = Ok ().
Definition readable (l : LayerDescriptor) : Prop :=
  classify_layer_media_type (layer_media_type l) = Ok Gzip ∧ valid_digest (layer_digest l).
Definition described (b : BlobDescriptor) : LayerDescriptor :=
  {| layer_digest := blob_digest b; layer_media_type := blob_media_type b; layer_size := blob_size b |}.
Lemma accepted_digest_Ok d label : validate_digest d label = Ok () ↔ valid_digest d.
Proof using Type. unfold valid_digest, validate_digest. by case_match. Qed.
Lemma check_layers_Ok l ls : check_layers l = Ok ls → ls = described <$> l ∧ Forall readable ls.
Proof using Type.
  revert ls. induction l as [|b l IH]; intros ls Hl; cbn [check_layers] in Hl; [by injection Hl as <-|].
  apply bind_Ok in Hl as ([] & Hc & Hl). apply bind_Ok in Hl as ([] & Hd & Hl). apply bind_Ok in Hl as (checked & Hl & [= <-]).
  destruct (IH _ Hl) as [-> HF]. split; [done|]. constructor; [|done]. split; [done|]. cbn. by apply accepted_digest_Ok in Hd.
Qed.
(** What named the first document: a digest pins it. *)
Definition pinned (reference : OciReference) (bytes : list Z) : Prop :=
  ∀ d, OciRef.reference reference = Digest d → digest_like d = true → names d bytes.
(** The manifest [bytes] was reached from the reference, at once or through the index it names; an index
    entry vouches for it only when it carries something that looks like a SHA-256 digest. *)
Definition reached (reference : OciReference) (index_digest : option string) (bytes : list Z) : Prop :=
  match index_digest with
  | None => pinned reference bytes
  | Some index_digest =>
      ∃ index entries e t, index_digest = sha256_name index ∧ pinned reference index ∧
        parse_document reference {| document_bytes := index; document_digest := index_digest; document_media_type := t |} = Ok (Index entries) ∧
        select_platform reference entries (architecture self) = Ok e ∧ (digest_like (entry_digest e) = true → names (entry_digest e) bytes)
  end.
Definition resolved (reference : OciReference) (m : ResolvedManifest) : Prop :=
  ∃ bytes manifest config, manifest_from_slice bytes = Ok manifest ∧ reached reference (index_digest m) bytes ∧
    manifest_digest m = sha256_name bytes ∧
    resolved_layers m = described <$> manifest_layers manifest ∧ 1 <= Z.of_nat (length (resolved_layers m)) <= MAX_LAYERS ∧
    Forall readable (resolved_layers m) ∧
    config_digest m = blob_digest (manifest_config manifest) ∧ valid_digest (config_digest m) ∧ names (config_digest m) config ∧
    image_config_from_slice config = Ok (resolved_config m).
Lemma parse_manifest_Ok reference d m : parse_document reference d = Ok (Manifest m) → manifest_from_slice (document_bytes d) = Ok m.
Proof using Type.
  unfold parse_document. intros Hp. apply bind_Ok in Hp as (probe & _ & Hp).
  assert (Hbody : ∀ x, (manifest ← parse_manifest_body reference (document_bytes d); Ok (Manifest manifest)) = Ok x → x = Manifest m →
    manifest_from_slice (document_bytes d) = Ok m).
  { intros x Hx ->. apply bind_Ok in Hx as (m' & Hm & [= ->]). by apply map_err_Ok in Hm. }
  repeat case_match; try done; by eapply Hbody.
Qed.
Lemma resolve_document_sends reference :
  sends (confined reference) 6 (resolve_document self reference) (λ '(index_digest, manifest_digest, _, manifest),
    ∃ bytes, manifest_from_slice bytes = Ok manifest ∧ reached reference index_digest bytes ∧ manifest_digest = sha256_name bytes).
Proof using parse_scheme query_scheme.
  unfold resolve_document. set (target := match OciRef.reference reference with Tag t => t | Digest d => d end).
  eapply (sends_bind _ 3 3); [apply fetch_manifest_sends|]. intros top [Htop Hnames].
  assert (Hpin : pinned reference (document_bytes top)).
  { intros d Hd Hl. unfold target in Hnames. rewrite Hd in Hnames. by apply Hnames. }
  apply sends_lift_bind. intros [entries|manifest] Hdoc.
  - apply sends_lift_bind. intros selected Hsel. eapply (sends_bind _ 3 0); [apply fetch_manifest_sends|]. intros child [Hchild Hn].
    apply sends_lift_bind. intros [inner|manifest] Hin; [apply sends_fail|]. apply sends_ret.
    exists (document_bytes child). split; [by eapply parse_manifest_Ok|]. split; [|done].
    exists (document_bytes top), entries, selected, (document_media_type top). split_and!; [done..| |done|done].
    by destruct top; cbn in *.
  - apply sends_ret. exists (document_bytes top). split_and!; [by eapply parse_manifest_Ok|done..].
Qed.
Lemma resolve_sends reference :
  sends (confined reference) 9 (resolve self reference) (resolved reference).
Proof using parse_scheme query_scheme.
  unfold resolve. eapply (sends_bind _ 6 3); [apply resolve_document_sends|].
  intros [[[index_digest manifest_digest] media_type] manifest] (bytes & Hm & Hr & Hd).
  destruct (MAX_LAYERS <? _) eqn:Hmax; [apply sends_fail|]. destruct (_ =? 0) eqn:Hzero; [apply sends_fail|]. bool_props.
  apply sends_lift_bind. intros layers Hl. apply check_layers_Ok in Hl as [-> Hl]. apply sends_lift_bind. intros [] Hv. apply accepted_digest_Ok in Hv.
  eapply (sends_bind _ 3 0); [apply fetch_blob_sends|]. intros config Hc. apply sends_lift_bind. intros image Hi. apply map_err_Ok in Hi.
  apply sends_ret. exists bytes, manifest, config. cbn. split_and!; try done; rewrite length_fmap; lia.
Qed.
End runs.

(** ** What is written *)

Section layers.
Context `{Urls} `{!Transport} `{Sha256} `{RegistryJson}.
Context (self : RegistryClient) (reference : OciReference) (descriptor : LayerDescriptor) (Hsize : layer_size descriptor < u64_max).

(** A report of the progress names the declared size and does not exceed it. *)
Definition fair (p : Z * option Z) : Prop := p.2 = Some (layer_size descriptor) ∧ p.1 <= layer_size descriptor.
(** [w'] is [w] with a part of [body] written that fits behind [hashed], and fair reports. *)
Definition streamed (hashed : list Z) (body : Reader) (w w' : Net) (pre : list Z) : Prop :=
  requests w' = requests w ∧ written w' = written w ++ pre ∧ pre `prefix_of` data body ∧
  Z.of_nat (length hashed + length pre) <= layer_size descriptor ∧ ∃ reps, reported w' = reported w ++ reps ∧ Forall fair reps.
Lemma streamed_more hashed chunk rest fails w w1 w' pre reps :
  requests w1 = requests w → written w1 = written w ++ chunk → reported w1 = reported w ++ reps → Forall fair reps →
  streamed (hashed ++ chunk) {| data := rest; fails := fails |} w1 w' pre →
  streamed hashed {| data := chunk ++ rest; fails := fails |} w w' (chunk ++ pre).
Proof using Type.
  intros Hr Hw Hp Hf (Hr1 & Hw1 & [k Hk] & Hl & reps1 & Hp1 & Hf1). cbn in Hk. split_and!.
  - congruence.
  - by rewrite Hw1, Hw, app_assoc.
  - exists k. cbn. by rewrite Hk, app_assoc.
  - rewrite !length_app in *. lia.
  - exists (reps ++ reps1). rewrite Hp1, Hp, app_assoc. split; [done|]. by apply Forall_app.
Qed.
Lemma layer_loop_spec fuel : ∀ body hashed last_progress w,
  (length (data body) < fuel)%nat → Z.of_nat (length hashed) <= layer_size descriptor →
  let '(r, w') := layer_loop fuel reference descriptor body hashed last_progress w in
  ∃ pre, streamed hashed body w w' pre ∧
    match r with
    | Ok (Some h) => h = hashed ++ data body ∧ pre = data body
    | Ok None => False
    | Err _ => True
    end.
Proof using Hsize.
  induction fuel as [|fuel IH]; intros body hashed lp w Hf Hh; [lia|]. cbn [layer_loop]. unfold mbind, M_bind, M_map_err, read_piece.
  assert (Hnil : ∀ w', requests w' = requests w → written w' = written w → reported w' = reported w → streamed hashed body w w' []).
  { intros w' Hr Hw Hp. split; [done|]. rewrite app_nil_r. split; [done|]. split; [apply prefix_nil|]. cbn. split; [lia|].
    exists []. by rewrite app_nil_r. }
  destruct body as [[|b bytes] fails]; cbn [data Bounded.fails].
  { destruct fails as [e|]; cbn; [exists []; split; [by apply Hnil|done]|]. exists []. split; [by apply Hnil|]. by rewrite app_nil_r. }
  set (n := Nat.min (Z.to_nat LAYER_BUFFER_BYTES) (S (piece (turn w)))).
  assert (Hn : (1 ≤ n)%nat) by (unfold n, LAYER_BUFFER_BYTES; lia).
  destruct n as [|n]; [lia|]. cbn [take drop map_err].
  set (chunk := b :: take n bytes). set (rest := drop n bytes).
  assert (Hbytes : b :: bytes = chunk ++ rest) by (unfold chunk, rest; cbn; by rewrite take_drop).
  rewrite bool_decide_eq_false_2 by done.
  destruct (layer_size descriptor <? counted (hashed ++ chunk)) eqn:Hover; [exists []; split; [by apply Hnil|done]|].
  assert (Hfit : Z.of_nat (length (hashed ++ chunk)) <= layer_size descriptor) by (unfold counted in Hover; bool_props; lia).
  unfold write_all at 1. cbn [turn requests written reported]. destruct (write_fault _) as [[k e]|]; cbn [map_err].
  { exists (take k chunk). split; [|done]. split; [done|]. split; [done|]. split; [|].
    - cbn [data]. rewrite Hbytes. apply prefix_app_r. exists (drop k chunk). by rewrite take_drop.
    - split; [rewrite length_take; rewrite length_app in Hfit; lia|]. exists []. by rewrite app_nil_r. }
  rewrite Hbytes.
  assert (Hlen : (length rest < fuel)%nat) by (apply (f_equal length) in Hbytes; rewrite length_app in Hbytes; cbn in *; lia).
  assert (Hgo : ∀ lp' w1 reps, requests w1 = requests w → written w1 = written w ++ chunk → reported w1 = reported w ++ reps → Forall fair reps →
    let '(r, w') := layer_loop fuel reference descriptor {| data := rest; fails := fails |} (hashed ++ chunk) lp' w1 in
    ∃ pre, streamed hashed {| data := chunk ++ rest; fails := fails |} w w' pre ∧
      match r with Ok (Some h) => h = hashed ++ (chunk ++ rest) ∧ pre = chunk ++ rest | Ok None => False | Err _ => True end).
  { intros lp' w1 reps Hr1 Hw1 Hp1 Hf1. specialize (IH {| data := rest; fails := fails |} (hashed ++ chunk) lp' w1 Hlen Hfit).
    destruct (layer_loop _ _ _ _ _ _ w1) as [r w']. destruct IH as (pre & Hst & Hres). exists (chunk ++ pre).
    split; [by eapply streamed_more|]. destruct r as [[h|]|]; [|done..]. destruct Hres as [-> ->]. cbn [data]. by rewrite app_assoc. }
  destruct (PROGRESS_INTERVAL_BYTES <=? _); [|by apply (Hgo _ _ []); cbn; rewrite ?app_nil_r].
  assert (Hfair : Forall fair [(counted (hashed ++ chunk), Some (layer_size descriptor))]).
  { constructor; [|constructor]. split; [done|]. cbn. unfold counted. lia. }
  unfold report at 1. cbn [turn requests written reported]. destruct (report_fault _) as [e|].
  - exists chunk. split; [|done]. split; [done|]. split; [done|]. split; [by exists rest|]. split; [rewrite <- length_app; lia|]. by eexists.
  - by eapply Hgo.
Qed.
End layers.

Section fetch.
Context `{Urls} `{!Transport} `{Sha256} `{RegistryJson}.
Context (self : RegistryClient) (reference : OciReference) (descriptor : LayerDescriptor).

(** What a fetched layer is worth. *)
Definition verified_layer (bytes : list Z) (reps : list (Z * option Z)) : Prop :=
  readable descriptor ∧ Z.of_nat (length bytes) = layer_size descriptor ∧ names (layer_digest descriptor) bytes ∧
  last reps = Some (layer_size descriptor, Some (layer_size descriptor)).
Lemma readable_intro : classify_layer_media_type (layer_media_type descriptor) = Ok Gzip → validate_digest (layer_digest descriptor) "layer" = Ok () →
  readable descriptor.
Proof using Type. intros Hc Hv. split; [done|]. by apply accepted_digest_Ok in Hv. Qed.
(** What [m] does beyond sending: it writes at most the declared size and reports fairly. *)
Definition delivers (m : M Net FirestoneError (option ())) : Prop := ∀ w,
  let '(r, w') := m w in
  (∃ sent, requests w' = requests w ++ sent ∧ (length sent ≤ 3)%nat ∧ Forall (confined self reference) sent) ∧
  ∃ bytes reps, written w' = written w ++ bytes ∧ reported w' = reported w ++ reps ∧
    Z.of_nat (length bytes) <= layer_size descriptor ∧ Forall (fair descriptor) reps ∧
    r ≠ Ok None ∧ (r = Ok (Some ()) → verified_layer bytes reps).
Lemma delivers_bind {A} (m : M Net FirestoneError A) f Q :
  0 <= layer_size descriptor → sends (confined self reference) 3 m Q →
  (∀ a w, Q a → let '(r, w') := f a w in requests w' = requests w ∧
    ∃ bytes reps, written w' = written w ++ bytes ∧ reported w' = reported w ++ reps ∧
      Z.of_nat (length bytes) <= layer_size descriptor ∧ Forall (fair descriptor) reps ∧
      r ≠ Ok None ∧ (r = Ok (Some ()) → verified_layer bytes reps)) →
  delivers (m ≫= f).
Proof using Type.
  intros Hnn Hm Hf w. destruct (Hm w) as ((sent & Hs & Hl & HP) & Hw & Hr & HQ). unfold mbind, M_bind.
  destruct (m w) as [[a|e] w1]; cbn in *.
  - specialize (Hf a w1 (HQ a eq_refl)). destruct (f a w1) as [r w']. destruct Hf as (Hs' & bytes & reps & Hb & Hp & Hrest).
    split; [exists sent; split; [by rewrite Hs'|done]|]. exists bytes, reps. split; [by rewrite Hb, Hw|]. split; [by rewrite Hp, Hr|done].
  - split; [by exists sent|]. exists [], []. by rewrite !app_nil_r.
Qed.
(** What follows the request of a layer. *)
Lemma layer_tail (body : Reader) w :
  0 <= layer_size descriptor < u64_max → readable descriptor →
  let '(r, w') := (hashed ← layer_loop (S (length (data body))) reference descriptor body [] 0;
    match hashed with
    | None => mret None
    | Some hashed =>
        let done := counted hashed in
        if negb (done =? layer_size descriptor)
        then M_fail (with_hint (error_new Checksum (layer_text reference descriptor +:+ " ended after " +:+ dec done +:+ " bytes; the manifest declared "
               +:+ dec (layer_size descriptor))) "retry the pull; the registry response was partial")
        else
          M_lift (verify_digest (layer_digest descriptor) (hex_digest (sha256 hashed)) ("layer of '" +:+ display reference +:+ "'"));;
          report done (layer_size descriptor);;
          mret (Some ())
    end) w in
  requests w' = requests w ∧ ∃ bytes reps, written w' = written w ++ bytes ∧ reported w' = reported w ++ reps ∧
    Z.of_nat (length bytes) <= layer_size descriptor ∧ Forall (fair descriptor) reps ∧
    r ≠ Ok None ∧ (r = Ok (Some ()) → verified_layer bytes reps).
Proof using Type.
  intros [Hnn Hmax] Hread. unfold mbind at 1, M_bind at 1.
  pose proof (layer_loop_spec reference descriptor Hmax (S (length (data body))) body [] 0 w (Nat.lt_succ_diag_r _) Hnn) as Hl.
  destruct (layer_loop _ _ _ _ _ _ w) as [[[h|]|e] w1]; destruct Hl as (pre & (Hr & Hw & _ & Hlen & reps & Hp & Hfair) & Hres); [|done|].
  2: { split; [done|]. exists pre, reps. cbn in Hlen. by split_and!. }
  destruct Hres as [-> ->]. change ([] ++ data body) with (data body) in *. cbn [length Nat.add] in Hlen.
  destruct (counted (data body) =? layer_size descriptor) eqn:Hc; cbn [negb].
  2: { split; [done|]. exists (data body), reps. by split_and!. }
  bool_props. assert (Hsize : Z.of_nat (length (data body)) = layer_size descriptor) by (unfold counted in Hc; lia).
  unfold mbind, M_bind, M_lift. destruct (verify_digest _ _ _) as [[]|e] eqn:Hv.
  2: { split; [done|]. exists (data body), reps. by split_and!. }
  unfold report. assert (Hf : Forall (fair descriptor) (reps ++ [(counted (data body), Some (layer_size descriptor))])).
  { apply Forall_app. split; [done|]. constructor; [|constructor]. split; [done|]. cbn. lia. }
  destruct (report_fault _) as [e|]; cbn.
  { split; [done|]. exists (data body), (reps ++ [(counted (data body), Some (layer_size descriptor))]).
    rewrite Hp, app_assoc. by split_and!. }
  split; [done|]. exists (data body), (reps ++ [(counted (data body), Some (layer_size descriptor))]).
  rewrite Hp, app_assoc. split_and!; try done. intros _. split; [done|]. split; [done|]. split; [|by rewrite last_snoc, Hc].
  unfold verify_digest in Hv. unfold names. by destruct (eq_ignore_ascii_case _ _).
Qed.
End fetch.

Section deliver.
Context `{Urls} `{!Transport} `{Sha256} `{RegistryJson}.
Context (self : RegistryClient) (reference : OciReference) (descriptor : LayerDescriptor) (Hsize : 0 <= layer_size descriptor < u64_max).
Context (parse_scheme : ∀ s rest u, s = "http" ∨ s = "https" → url_parse (s +:+ "://" +:+ rest) = Ok u → url_scheme u = s).
Context (query_scheme : ∀ q u, url_scheme (append_query q u) = url_scheme u).
Lemma delivers_lift {A} (r : result FirestoneError A) f :
  (∀ a, r = Ok a → delivers self reference descriptor (f a)) → delivers self reference descriptor (M_lift r ≫= f).
Proof using Hsize.
  intros Hf w. unfold mbind, M_bind, M_lift. destruct r as [a|e]; [by apply Hf|].
  split; [exists []; rewrite app_nil_r; split; [done|]; split; [simpl; lia|constructor]|]. exists [], []. rewrite !app_nil_r. split_and!; try done. cbn. lia.
Qed.
Lemma fetch_layer_delivers : delivers self reference descriptor (fetch_layer self reference descriptor).
Proof using Hsize parse_scheme query_scheme.
  unfold fetch_layer. apply delivers_lift. intros c Hc. apply delivers_lift. intros [] Hv. apply delivers_lift. intros u Hu.
  eapply delivers_bind; [lia|by apply request_sends, (endpoint_scheme _ parse_scheme _ _ _ Hu)|]. intros response w _.
  unfold mbind at 1, M_bind at 1, M_lift at 1. destruct (match content_length response with Some _ => _ | None => _ end) as [[]|e].
  - apply layer_tail; [done|]. apply readable_intro; [by destruct c|done].
  - split; [done|]. exists [], []. rewrite !app_nil_r. split_and!; try done. cbn. lia.
Qed.
End deliver.

(** ** Properties *)

(** A small world: addresses are split at the first colon, a digest is the sum of the bytes, documents
    are known by their first byte, and one bearer-protected registry serves an index, a manifest, a
    configuration and a layer. *)
Definition example_urls : Urls := {|
  Url := string * string;
  url_parse s := match split_once ":" s with Some u => Ok u | None => Err "relative URL without a base" end;
  url_scheme := fst; host_str u := Some (snd u); port _ := None; url_display u := fst u +:+ ":" +:+ snd u;
  append_query q u := (fst u, snd u +:+ "?" +:+ String.concat "&" ((λ kv, kv.1 +:+ "=" +:+ kv.2) <$> q)) |}.
Definition example_sha256 : Sha256 := {| sha256 bytes := replicate 31 0 ++ [foldr Z.add 0 bytes mod 256] |}.
Definition example_digest (bytes : list Z) : string := DIGEST_ALGORITHM +:+ ":" +:+ hex_digest (@sha256 example_sha256 bytes).
Definition LAYER : string := "application/vnd.oci.image.layer.v1.tar+gzip".
Definition example_layer : LayerDescriptor := {| layer_digest := example_digest [7; 8; 9]; layer_media_type := LAYER; layer_size := 3 |}.
Definition example_manifest : ImageManifest := {|
  manifest_config := {| blob_media_type := ""; blob_digest := example_digest [3]; blob_size := 1 |};
  manifest_layers := [{| blob_media_type := LAYER; blob_digest := layer_digest example_layer; blob_size := 3 |}] |}.
Definition example_config : OciImageConfig :=
  {| env := []; entrypoint := []; cmd := ["sh"]; working_dir := None; Overlay.user := None |}.
(** The entry of this platform, named by something else than SHA-256. *)
Definition example_entry : IndexEntry := {|
  entry_media_type := Some MEDIA_TYPE_OCI_MANIFEST; entry_digest := "sha512:0"; artifact_type := None;
  platform := Some {| os := "linux"; platform_architecture := "amd64"; variant := None; os_features := None |} |}.
Definition example_json : RegistryJson := {|
  probe_from_slice bytes := match bytes with
    | [1] => Ok {| probe_media_type := Some MEDIA_TYPE_OCI_INDEX; probe_manifests := Some [example_entry]; probe_config := None |}
    | [2] => Ok {| probe_media_type := None; probe_manifests := None; probe_config := Some (manifest_config example_manifest) |}
    | _ => Err "expected value"
    end;
  manifest_from_slice bytes := match bytes with [2] => Ok example_manifest | _ => Err "expected value" end;
  image_config_from_slice bytes := match bytes with [3] => Ok example_config | _ => Err "expected value" end;
  token_from_slice bytes := match bytes with [4] => Ok {| token := Some "t"; access_token := None |} | _ => Err "expected value" end |}.
Definition example_answer (status : Z) (headers : list (string * string)) (bytes : list Z) : HttpStatusResponse :=
  {| status := status; response_headers := headers; body := {| data := bytes; fails := None |}; content_length := None |}.
Definition example_transport : @Transport example_urls := {|
  http_send n r :=
    let path := snd (@url example_urls r) in
    if starts_with "//auth.example/token" path then Ok (example_answer 200 [] [4])
    else if bool_decide (("authorization", "Bearer t") ∈ @headers example_urls r) then
      Ok (if has_char "s" path && ends_with "manifests/latest" path then example_answer 200 [] [1]
          else if ends_with "manifests/sha512:0" path then example_answer 200 [("Content-Type", "application/json; charset=utf-8")] [2]
          else if ends_with (example_digest [3]) path then example_answer 200 [] [3]
          else example_answer 200 [] [7; 8; 9])
    else Ok (example_answer 401 [("WWW-Authenticate", "Bearer realm=https://auth.example/token,service=registry")] []);
  piece _ := 1%nat; write_fault _ := None; report_fault _ := None |}.
Definition example_reference : OciReference := {| registry := "r.example"; repository := "team/app"; OciRef.reference := Tag "latest" |}.
Definition example_client : RegistryClient := {|
  architecture := Arch.X86_64; insecure_registries := [];
  credentials := {| entries := {[ "r.example" := {| Registry.user := "me"; secret := "pw" |} ]}; warnings := [] |} |}.
Definition example_net : @Net example_urls := {| requests := []; written := []; reported := []; turn := 0 |}.
Lemma example_parse_scheme s rest u :
  s = "http" ∨ s = "https" → @url_parse example_urls (s +:+ "://" +:+ rest) = Ok u → @url_scheme example_urls u = s.
Proof. by intros [->| ->] [= <-]. Qed.
Definition example_pull := @resolve example_urls example_transport example_sha256 example_json example_client example_reference example_net.
Definition example_fetch :=
  @fetch_layer example_urls example_transport example_sha256 example_json example_client example_reference example_layer example_net.
Example example_pull_ok : from_option (λ m, length (resolved_layers m)) 0%nat (match example_pull.1 with Ok m => Some m | Err _ => None end) = 1%nat.
Proof. by vm_compute. Qed.
Example example_fetch_ok : example_fetch.1 = Ok (Some ()) ∧ written example_fetch.2 = [7; 8; 9].
Proof. by vm_compute. Qed.

(** C15: resolving an image ends after at most nine requests, each over HTTPS unless the registry is listed
    as insecure, and each without the stored password unless it goes over HTTPS; it writes nothing.  When it
    succeeds, a reference by digest names the bytes it led to, the index entry chosen for this platform
    names the manifest if its digest looks like SHA-256, the recorded digests are those of the bytes read,
    the configuration hashes to the digest the manifest gives it, and the layers are exactly the manifest's:
    between 1 and 128, each with one of the two gzip media types (no other is accepted, an uncompressed
    layer's included) and a well-formed SHA-256 digest. *)
Theorem resolve_verified `{Urls} `{!Transport} `{Sha256} `{RegistryJson} (self : RegistryClient) (reference : OciReference) (w : Net)
    (parse_scheme : ∀ s rest u, s = "http" ∨ s = "https" → url_parse (s +:+ "://" +:+ rest) = Ok u → url_scheme u = s)
    (query_scheme : ∀ q u, url_scheme (append_query q u) = url_scheme u) :
  (∃ sent, requests (resolve self reference w).2 = requests w ++ sent ∧ (length sent ≤ 9)%nat ∧ Forall (confined self reference) sent) ∧
  written (resolve self reference w).2 = written w ∧
  ∀ m, (resolve self reference w).1 = Ok m → resolved self reference m.
Proof.
  destruct (resolve_sends self parse_scheme query_scheme reference w) as (Hs & Hw & _ & HQ). done.
Qed.
(** The example is resolved; nothing compared its manifest with the digest its index entry carries. *)
Lemma resolve_verified_witness :
  (∃ m, example_pull.1 = Ok m ∧ index_digest m = Some (example_digest [1]) ∧ manifest_digest m = example_digest [2] ∧
    @resolved example_sha256 example_json example_client example_reference m) ∧
  length (requests example_pull.2) = 9%nat ∧ validate_digest (entry_digest example_entry) "index entry" ≠ Ok ().
Proof.
  split; [|by vm_compute].
  destruct (@resolve_verified example_urls example_transport example_sha256 example_json example_client example_reference example_net
    example_parse_scheme (λ _ _, eq_refl)) as (_ & _ & Hm). fold example_pull in Hm. revert Hm. vm_compute (example_pull.1). intros Hm.
  eexists. split; [done|]. split; [by vm_compute|]. split; [by vm_compute|]. by apply Hm.
Defined.

(** C16: fetching a layer whose declared size is below 2^64 - 1 sends at most three requests, confined as those of [resolve]; whatever the registry
    streams and however the writer and the callback fail, at most the declared size is written and every
    report is within it.  When it succeeds, the bytes written are all of the layer: as many as the manifest
    declares, hashing to the layer's digest, and the last report says so.  It never ends without a result. *)
Theorem layer_verified `{Urls} `{!Transport} `{Sha256} `{RegistryJson} (self : RegistryClient) (reference : OciReference) (descriptor : LayerDescriptor)
    (w : Net) (Hsize : 0 <= layer_size descriptor < u64_max)
    (parse_scheme : ∀ s rest u, s = "http" ∨ s = "https" → url_parse (s +:+ "://" +:+ rest) = Ok u → url_scheme u = s)
    (query_scheme : ∀ q u, url_scheme (append_query q u) = url_scheme u) :
  let '(r, w') := fetch_layer self reference descriptor w in
  (∃ sent, requests w' = requests w ++ sent ∧ (length sent ≤ 3)%nat ∧ Forall (confined self reference) sent) ∧
  ∃ bytes reps, written w' = written w ++ bytes ∧ reported w' = reported w ++ reps ∧
    Z.of_nat (length bytes) <= layer_size descriptor ∧ Forall (fair descriptor) reps ∧
    r ≠ Ok None ∧ (r = Ok (Some ()) → verified_layer descriptor bytes reps).
Proof. apply (fetch_layer_delivers self reference descriptor Hsize parse_scheme query_scheme). Qed.
Lemma layer_verified_witness :
  example_fetch.1 = Ok (Some ()) ∧ ∃ reps, @verified_layer example_sha256 example_layer [7; 8; 9] reps.
Proof.
  split; [by vm_compute|].
  pose proof (@layer_verified example_urls example_transport example_sha256 example_json example_client example_reference example_layer example_net
    ltac:(done) example_parse_scheme (λ _ _, eq_refl)) as Hl.
  fold example_fetch in Hl. destruct example_fetch_ok as [Ho Hw]. destruct example_fetch as [r w']. cbn in Ho, Hw. subst r.
  destruct Hl as (_ & bytes & reps & Hb & _ & _ & _ & _ & Hv). exists reps. cbn in Hb. rewrite <- Hb in Hv. rewrite Hw in Hv. by apply Hv.
Defined.

(** C26: what Docker stores for a user and a password, [base64(user:password)], is read back as that user and
    that password, whatever the password holds; the header made of it carries the same bytes. *)
Theorem credentials_roundtrip (user secret : string) :
  user ≠ "" → has_char ":" user = false → is_Some (scalars (bytes_of (user +:+ ":" +:+ secret))) →
  decode_basic_auth (base64_encode (bytes_of (user +:+ ":" +:+ secret))) = Some {| Registry.user := user; secret := secret |} ∧
  ∃ text, header_value {| Registry.user := user; secret := secret |} = "Basic " +:+ text ∧
    base64_decode text = Some (bytes_of (user +:+ ":" +:+ secret)).
Proof.
  intros Hu Hc Hs. split; [by apply basic_auth_roundtrip|]. eexists. split; [done|]. apply base64_roundtrip.
  eapply Forall_impl; [apply bytes_of_ok|]. unfold byte. cbn. lia.
Qed.
Lemma credentials_roundtrip_witness :
  decode_basic_auth "YWxpY2U6cHc6MQ==" = Some {| Registry.user := "alice"; secret := "pw:1" |}.
Proof.
  destruct (credentials_roundtrip "alice" "pw:1") as [H _]; [done|by vm_compute|by vm_compute; eexists|].
  revert H. change (base64_encode (bytes_of ("alice" +:+ ":" +:+ "pw:1"))) with ltac:(let x := eval vm_compute in (base64_encode (bytes_of ("alice" +:+ ":" +:+ "pw:1"))) in exact x). done.
Defined.
